(* ===== verification/_CoqProject ===== *)
-Q . S2P
Prelude.v
LockWord.v
Memstore.v
ClusterHash.v
BPlusTree.v
BPTree.v
BPLeaf.v
BPInner.v
BPInsert.v
BPStore.v
BPMap.v
BPIter.v
BPCursor.v
BPScan.v
RadMem.v
DBRad.v
RadWriteSet.v
RadLocal.v
RadRead.v
RemoteSet.v
RadRpc.v
RadRpcSpec.v
RadEnd.v
RadEndSpec.v
RadCommit.v
RadConc.v
TSManager.v
DBSI.v
SiSpec.v
SiLocal.v
SiRpc.v
SiEnd.v
SiModel.v
SiInv.v
SiSteps.v
SiProps.v
SparseInt.v
Marshal.v
Wire.v
Graph.v
GraphSearch.v
Tarjan.v
SccSort.v
GraphWire.v
ALock.v
WaitDie.v
WoundDie.v
TimeoutLock.v
ALockGroup.v
GroupSpec.v
GroupRuns.v
Rcc.v
RccInv.v
RccSteps.v
RccRuns.v
RccProps.v
MemRow.v
MemRowSpec.v
RO6Row.v
RO6Spec.v
RO6.v
RWLock.v
MemTable.v
MemTableSpec.v
Occ.v
OccSpec.v
OccInv.v
OccOps.v
OccCommit.v
OccSerial.v
MemQuery.v
OccLimits.v
OccLocks.v
OccQuery.v
