(* ===== verification/Prelude.v ===== *)
(** * A verification library for DST: DrTM and ROCOCO transactions with decentralised timestamps

    The repository holds two transaction systems extended with vector or
    decentralised timestamps.  src/drtm-dst is a C++ key-value store over RDMA whose
    protocol [DBRad] keeps several versions of each record and lets readers pick a
    timestamp; src/rococo-dst is a C++ system that orders transactions by exchanging
    dependency graphs, with its own RPC runtime (rrr) and lock queues.  A third part,
    src/mysql-dst, is a vendored database server and is left aside.

    ** Parts, files and source

    The DrTM part, from the record up to the distributed commit:
    - LockWord.v: the packed lock and timestamp words of db/txs/tx_handler.h and
      db/txs/ts_manager.hpp, at their bit widths.
    - Memstore.v, ClusterHash.v: memstore/memstore.h and the chained hash index of
      memstore/cluster_chaining.hpp and rdma_hash.hpp: slots packed into 64-bit
      words, indirect headers, local lookup and insertion and the lookup a remote
      machine performs on the raw memory.
    - BPlusTree.v, BPIter.v: the B+-tree store of memstore/memstore_bplustree.{h,cc}:
      search, insertion with its splits and appended nodes, the spare node and leaf of
      the thread, iterators.  BPTree.v has arrays, sorted lists and the shape of the
      tree, BPLeaf.v and BPInner.v what happens to a leaf and to an inner node,
      BPInsert.v a subtree, BPStore.v the invariant of the whole tree; BPMap.v shows
      that the tree is a map and discharges the interface of Memstore.v, BPCursor.v and
      BPScan.v that iterators walk it in order.
    - RadMem.v, DBRad.v: the heap of nodes and values with version chains, and the
      transaction object of db/txs/dbrad.{h,cc}: read/write set, [get], [insert],
      [write], [delete_], [LockAllSet], [ReleaseAllSet], [CommitLocalWrite], the
      timestamped reads.  RadWriteSet.v, RadLocal.v and RadRead.v hold the lemmas and
      theorems on them.
    - RemoteSet.v, RadRpc.v: the client side of the messages (db/remote_set.{h,cc},
      remote_set_structs.h) and the handlers at the servers
      (db/txs/dbrad_rpc_handler.cc); RadRpcSpec.v their effect.
    - RadEnd.v: [DBRad::end] and [end_fasst] over a cluster of servers; RadEndSpec.v
      and RadCommit.v compose the local and remote theorems.
    - RadConc.v: step relations for protocols that run between threads on one record
      without a lock: the sequence-lock read against a commit, and the update of the
      read timestamp (compiled in with RC 0 only).
    - TSManager.v: the timestamp server of db/txs/ts_manager.hpp.
    - DBSI.v: the transactions of db/txs/dbsi.{h,cc}, which take a snapshot from the
      vector of the timestamp server: reads at the vector, write set, local lock and
      commit; SiSpec.v the abstract store, SiLocal.v the local theorems.  SiRpc.v: the
      handlers of db/txs/dbsi_rpc_handler.cc; SiEnd.v: [DBSI::end] over a cluster.
      SiModel.v: transactions, reports and the vector as steps that interleave; SiInv.v
      and SiSteps.v the invariant, SiProps.v the theorems on runs.

    The ROCOCO part, from bytes up to the order of execution:
    - SparseInt.v: the variable-length integers of rrr/base/basetypes.cpp.
    - Marshal.v, Wire.v: the chunk queue of rrr/misc/marshal.{hpp,cpp} with its shared
      blocks, and the operators << and >> as codecs: a class of lawful ones, and the
      types of messages, all of which are.
    - Graph.v: deptran/txn_info.h and the graph of deptran/graph.hpp with its union
      and assignment.  GraphSearch.v, Tarjan.v, SccSort.v: the searches of graph.hpp
      and dep_graph.{hpp,cc}: ancestors, undecided ancestors, components, order of
      execution in a component.  GraphWire.v: the graph messages of graph.{hpp,cc}.
    - ALock.v: requests, events and the interface of the locks of
      rrr/misc/alock.{hpp,cpp}; TimeoutLock.v implements it (with the alarm of
      rrr/misc/alarm.hpp); WaitDie.v has its operations but not all its laws, because
      [abort] checks the status behind its callbacks; WoundDie.v: the lock that takes
      requests back, with the answers of its callbacks as an argument; ALockGroup.v,
      GroupSpec.v, GroupRuns.v: groups of locks acquired together, with
      rrr/misc/dball.hpp, proved against the laws of the interface.
    - Rcc.v: the server of the dependency protocol, deptran/rcc/rcc.{hpp,cpp},
      rcc_row.cpp and the handlers of rcc_service.cc that call it: pieces and the
      columns they touch, finish requests that wait for their ancestors, questions to
      other servers and their answers, read-only pieces.  Its nested callbacks run from
      an explicit stack of calls.  RccInv.v states the invariant between two calls,
      RccSteps.v proves that every call keeps it and makes the stack cheaper, RccRuns.v
      that every request does, RccProps.v has the theorems on runs.
    - MemRow.v: the schemas and rows of memdb/{value,schema,row}.{h,cc}, down to the
      bytes of the fixed part and the two layouts of strings; MemRowSpec.v: a row is a
      tuple of values.
    - RO6Row.v: the multi-version rows of deptran/ro6/ro6_row.{hpp,cpp} with the
      tracker of read-only transactions; RO6Spec.v: their versions and readers.  RO6.v:
      the transactions of ro6/ro6.{hpp,cpp} on top of the server of Rcc.v.
    - RWLock.v, MemTable.v: the row locks of memdb/locking.h, the sorted and unsorted
      tables of memdb/table.{h,cc} and the versioned rows of memdb/row.h;
      MemTableSpec.v: a database is a map from addresses to rows; MemQuery.v: queries.
    - Occ.v: the direct and the optimistic transactions of memdb/txn.{h,cc} and the
      server that runs the latter (deptran/dtxn.cpp, deptran/tpl/tpl.cpp).  OccSpec.v
      has the atomic transactions, OccInv.v the invariant of a running one, OccOps.v
      and OccCommit.v show that operations, prepare, commit and abort keep it,
      OccSerial.v has the theorem on runs, OccLocks.v follows the locks, OccLimits.v
      shows what they do not cover.  OccQuery.v: the queries of a transaction, which
      merge the rows it has staged into those of the table.

    ** Conventions

    Code that can fail returns a [result]: a failed assertion is a [Crash], a busy-wait
    that cannot proceed without another thread is a [Spin], so that "returns" is part
    of what a theorem says.  Machine integers are [Z] with the wrap-around written out
    where the code computes at a width.  Memory shared between objects (nodes, values,
    blocks of a Marshal) is an explicit heap.  A container keyed by pointers is
    iterated in an order [ord] of which a theorem assumes only that it lists the
    elements; what a theorem says then holds for every allocation.  A callback is an
    event returned by the operation that invokes it: every lock operation invokes its
    callbacks after its last change; the check the wait-die lock makes behind them is
    returned with the events, and made when they have been delivered.

    ** What the theorems show

    - Atomicity of the commit: [RadCommit.end_correct], [RadLocal.local_commit_refines],
      [RadLocal.abort_restores_nodes] (all or nothing, on all servers, no lock left).
    - Reads of DBRad: [RadRead.read_by_configuration] for both settings of RC,
      [RadRead.snapshot_stable] and [RadRead.commit_visible] with RC 0, and
      [RadConc.Seqlock.get_never_torn] for all interleavings.
    - Invariants of the sets, chains, vectors and queues:
      [RadLocal.local_commit_sorted], [RadRead.ops_keep_cover],
      [RadCommit.remote_set_invariant], [TSManager.vector_is_watermark],
      [WaitDie.waitdie_runs].
    - Snapshot isolation: [SiProps.si_runs_snapshot_isolated] and
      [SiProps.si_all_or_nothing] for all interleavings without deletions in which
      insertions and remote reads meet versions of the snapshot (what happens otherwise
      is in [blind_insert_commits_twice], [remote_read_splits_snapshot] and
      [reinsertion_loses_versions]), [SiEnd.si_end_correct] and
      [SiLocal.si_local_commit] for the commit, [SiLocal.si_read_visible] and
      [SiLocal.si_word_bounds] for reads and version words.
    - The index: lookup, insertion and the remote lookup agree (ClusterHash.v).
    - The tree: it refines a finite map, except that a [Get] on the empty tree leaves its
      hardware transaction open ([BPMap.bplustree_refines_map]), with an iterator
      an ordered map with a cursor ([BPScan.iterator_refines_cursor]), and stays shallow
      ([BPMap.bplustree_depth_logarithmic]).  The theorems of DBRad and DBSI that are
      stated for any lawful store hold for tables of both kinds.
    - Messages: round trips of the arguments of messages of all types
      ([Wire.message_roundtrip]), of integers and of graphs, and the byte queue as a list
      of bytes (SparseInt.v, Marshal.v, GraphWire.v).
    - Dependency graphs: the union is the join, the searches return the sets they
      name, and every server orders a component in the same way (Graph.v,
      GraphSearch.v, Tarjan.v, SccSort.v).
    - Locks: exclusion, one answer per request, no deadlock under wait-die, none under
      wound-die as long as holders give in, no waiter past its deadline, and strict
      two-phase locking of groups of lawful locks (WaitDie.v, WoundDie.v, TimeoutLock.v, GroupRuns.v).
    - The ROCOCO server: every run of requests is served, transactions are decided at
      most once and none is waited for in vain ([RccProps.rcc_requests_return],
      [RccProps.rcc_deferred_returns], [RccProps.rcc_no_stall]).
    - Rows: a row behaves like a tuple in either layout
      ([MemRowSpec.row_refines_tuple]), a schema is well formed
      ([MemRowSpec.schema_runs_well_formed]).
    - The read-only protocol: readers travel with the writers
      ([RO6.ro6_readers_follow_writers]), versions are the history of a column and reads
      repeat ([RO6Spec.ro6_versions_are_history], [RO6Spec.ro6_reads_repeat]).
    - Optimistic transactions: every interleaving is equivalent to the committed
      transactions alone, one after the other ([OccSerial.occ_serializable]); locks are
      given back and refuse nobody in vain ([OccLocks.occ_prepare_succeeds]); row locks
      are maps from owners to modes ([RWLock.rwlock_refines_holders]), queries of a
      table are scans of it ([MemQuery.queries_scan]) and queries of a transaction see
      its own changes ([OccQuery.txn_queries_see_staged]).
    - Limits of the code, as theorems on concrete or general inputs: see the theorems
      [remote_read_ts_ignored], [insert_version_regresses], [rc_read_ignores_timestamp],
      [dropped_write_is_locked_again], [reinsert_drops_history], [wide_key_not_found],
      [sorted_scc_outside_parent], [read_ts_lost_update], [sparse_eight_bytes_lost],
      [int_comparison_stalls], [shared_chunk_overwritten],
      [rcc_answer_overtakes_finish], [rcc_conflicts_unordered],
      [rcc_component_grows_late], [rcc_self_dependency_crashes],
      [ro6_reader_misses_last_write], [ro6_old_reader_erased_in_loop],
      [ro6_fresh_version_collected], [create_ignores_kinds], [to_string_ambiguous],
      [eager_policy_unserializable], [eager_update_refused],
      [one_phase_commit_loses_update], [string_key_dangles],
      [merged_rows_out_of_order], [torn_vector_splits_snapshot],
      [remote_read_splits_snapshot], [blind_insert_commits_twice],
      [batched_reports_stall], [seek_prev_sets_no_position], [reused_timestamp_tears],
      [waitdie_late_check_fails] and [reinsertion_loses_versions].

    ** Bounds and fuel

    Loops over data that the code does not bound get a fuel that the theorems prove
    sufficient: a chain of hash headers is as long as the number of indirect headers
    (ClusterHash.v), an iterator searches at most as many leaves as there are (BPIter.v),
    a version chain as long as the number of values (RadMem.v), a
    search visits each vertex once (fuel [S (size g)] in GraphSearch.v and Tarjan.v),
    a read passes each chunk once (Marshal.v), the alarm fires each entry once
    (TimeoutLock.v), and callbacks of lock groups nest at most as deep as there are
    groups without an answer (ALockGroup.v).  The stack of calls of the ROCOCO server
    gets [cost] steps (Rcc.v), which every call lowers.  The loop of sorted_scc is bounded by
    [sorted_loop]'s fuel in SccSort.v.

    ** Assumptions and what is not modelled

    Memory is sequentially consistent; the configuration is the one checked in (RC, and
    TX_NAIVE off) with the other one where a theorem says so.  Reference counts and
    frees are left out, a value outlives its readers, and the manager is still found through
    a transaction object that was destroyed (rcc.cpp:211).  [top()] of a queue that the
    timestamp server has emptied, which C++ leaves undefined, reads the element popped
    last.  Each timeout lock has its own
    alarm (the code shares one; ids and deadlines of different locks do not interact).
    The steps of the snapshot-isolation model take counters below 2^31, and copies of the
    vector that are whole or torn as each theorem states.  An operation of the B+-tree is
    one step, as its hardware transaction makes it, and one thread's spare nodes are part
    of its tree; an iterator lives through fewer than 2^64 insertions.
    Not modelled: RDMA verbs, coroutines, sockets, threads and benchmarks (device and
    runtime I/O); the immediate reads of the remote set; RO6DTxn::start_ro; the lock
    handshake of timestamped readers (compiled out by RC 1) as interleavings; the tree
    store with wide keys; the protocols dbtx and db_farm, the
    iterators of transactions, the single-clock and one-sided paths of dbsi; logging;
    the two-phase-locking transaction objects and the coordinators around the graph and
    the locks; the bodies of pieces; the snapshot and indexed tables of memdb and its
    nested transactions; the MySQL tree.  Optimistic transactions are
    proved serialisable without queries (whose phantoms the code does not notice), for
    keys of integers and for clients that follow [OccSpec.allowed].  In the order in which they are worth adding: nested and
    two-phase-locking transactions of memdb on top of the lock groups, dbtx with the
    iterators of transactions on top of the tree, snapshot tables. *)

From stdpp Require Export base functions gmap list list_numbers numbers option sorting.
From Stdlib Require Export ZArith.
From Stdlib Require Export Lia.

#[global] Open Scope Z_scope.

(** ** Outcomes of imperative code

    [Done] is a normal return.  [Spin] is a busy-wait loop whose exit condition
    does not hold in the current memory: the thread makes no progress until
    another thread changes it.  [Crash] is a failed [assert]/[verify], a call of
    [exit], an access that C++ leaves undefined, or a return that leaves a hardware
    transaction or its fallback lock open. *)

Inductive failure :=
  | assert_failed
  | invalid_access
  | uninitialised
  | region_left_open
  | exit_called.

Inductive result (A : Type) :=
  | Done (a : A)
  | Spin
  | Crash (f : failure).
Arguments Done {A} a.
Arguments Spin {A}.
Arguments Crash {A} f.

#[export] Instance result_ret : MRet result := λ A a, Done a.
#[export] Instance result_bind : MBind result := λ A B f m,
  match m with Done a => f a | Spin => Spin | Crash e => Crash e end.
#[export] Instance result_fmap : FMap result := λ A B f m,
  match m with Done a => Done (f a) | Spin => Spin | Crash e => Crash e end.

#[export] Instance failure_eq_dec : EqDecision failure.
Proof. solve_decision. Defined.
#[export] Instance result_eq_dec `{EqDecision A} : EqDecision (result A).
Proof. solve_decision. Defined.

(** [assert(b)] *)
Definition verify (b : bool) : result unit :=
  if b then Done tt else Crash assert_failed.

(** ** Machine integers

    A w-bit unsigned integer is a [Z] in [0 .. 2^w - 1]; arithmetic that the
    code performs at width w is followed by the wrap-around below.  Signed
    integers wrap into [-2^(w-1) .. 2^(w-1) - 1]. *)

Definition uwrap (w : Z) (z : Z) : Z := z mod 2 ^ w.
Definition swrap (w : Z) (z : Z) : Z := (z + 2 ^ (w - 1)) mod 2 ^ w - 2 ^ (w - 1).

Abbreviation u8 := (uwrap 8).
Abbreviation u16 := (uwrap 16).
Abbreviation u32 := (uwrap 32).
Abbreviation u64 := (uwrap 64).
Abbreviation i8 := (swrap 8).
Abbreviation i32 := (swrap 32).
Abbreviation i64 := (swrap 64).

Lemma uwrap_small w z : 0 ≤ z < 2 ^ w → uwrap w z = z.
Proof. apply Z.mod_small. Qed.

Lemma uwrap_bound w z : 0 ≤ w → 0 ≤ uwrap w z < 2 ^ w.
Proof. intros. apply Z.mod_pos_bound. lia. Qed.

Lemma swrap_small w z : 0 < w → - 2 ^ (w - 1) ≤ z < 2 ^ (w - 1) → swrap w z = z.
Proof.
  intros Hw Hz. unfold swrap. rewrite Z.mod_small; [lia|].
  replace (2 ^ w) with (2 * 2 ^ (w - 1)); [lia|].
  rewrite <-Z.pow_succ_r by lia. f_equal; lia.
Qed.

Lemma u64_small z : 0 ≤ z < 2 ^ 64 → u64 z = z.
Proof. apply uwrap_small. Qed.

Lemma i64_small z : - 2 ^ 63 ≤ z < 2 ^ 63 → i64 z = z.
Proof. by apply (swrap_small 64). Qed.

(** Disjoint bit fields: or-ing a field below a shifted one is addition. *)
Lemma lor_shiftl_add a b n :
  0 ≤ n → 0 ≤ b < 2 ^ n → Z.lor (Z.shiftl a n) b = a * 2 ^ n + b.
Proof.
  intros Hn Hb.
  assert (Hd : Z.land (Z.shiftl a n) b = 0).
  { apply Z.bits_inj'; intros i Hi. rewrite Z.land_spec, Z.bits_0.
    destruct (decide (i < n)) as [Hlt|Hge].
    - by rewrite Z.shiftl_spec_low.
    - rewrite <-(Z.mod_small b (2 ^ n)) by lia.
      rewrite Z.mod_pow2_bits_high by lia. apply andb_false_r. }
  rewrite <-Z.lxor_lor by done. rewrite <-Z.add_nocarry_lxor by done.
  by rewrite Z.shiftl_mul_pow2.
Qed.

Lemma land_ones_mod a n : 0 ≤ n → Z.land a (Z.ones n) = a mod 2 ^ n.
Proof. apply Z.land_ones. Qed.

(** [MAX(x,y)] of the C++ sources: [((x) > (y) ? (x) : (y))]. *)
Definition MAX (x y : Z) : Z := if decide (x > y) then x else y.

Lemma MAX_spec x y : MAX x y = Z.max x y.
Proof. unfold MAX. case_decide; lia. Qed.

(** ** Lists *)

Section foldl_result.
Context {S A : Type} (f : S → A → result S).

(** A [for] loop over a container whose body updates the state or leaves
    the function abnormally. *)
Fixpoint for_each (l : list A) (s : S) : result S :=
  match l with
  | [] => Done s
  | x :: l => f s x ≫= for_each l
  end.

Lemma for_each_app l1 l2 s :
  for_each (l1 ++ l2) s = for_each l1 s ≫= for_each l2.
Proof.
  revert s; induction l1 as [|x l1 IH]; intros s; [done|].
  cbn. destruct (f s x); cbn; auto.
Qed.

(** Loop rule: an invariant indexed by the items already processed, with
    progress of every iteration, gives termination and the invariant. *)
Lemma for_each_inv (I : list A → S → Prop) l s :
  I [] s →
  (∀ done x rest s, l = done ++ x :: rest → I done s →
     ∃ s', f s x = Done s' ∧ I (done ++ [x]) s') →
  ∃ s', for_each l s = Done s' ∧ I l s'.
Proof.
  intros H0 Hstep.
  enough (∀ rest pre s, l = pre ++ rest → I pre s →
            ∃ s', for_each rest s = Done s' ∧ I l s') as Hg
    by (apply (Hg l [] s); auto).
  clear s H0. induction rest as [|x rest IH]; intros pre s Hl HI.
  - rewrite app_nil_r in Hl; subst. eauto.
  - destruct (Hstep pre x rest s Hl HI) as (s' & Hf & HI').
    cbn. rewrite Hf. cbn. apply (IH (pre ++ [x])); [|done].
    by rewrite <-app_assoc.
Qed.
End foldl_result.

Lemma for_each_ext {S A} (f f' : S → A → result S) l s :
  (∀ s x, x ∈ l → f s x = f' s x) → for_each f l s = for_each f' l s.
Proof.
  revert s. induction l as [|x l IH]; intros s Hf; [done|]. cbn. rewrite (Hf s x) by by left.
  destruct (f' s x); cbn; [|done..]. apply IH. intros s' y Hy. apply Hf. by right.
Qed.

Lemma elem_of_insert_inv {A} (l : list A) i x y : y ∈ <[i := x]> l → y = x ∨ y ∈ l.
Proof.
  intros (j & Hj)%list_elem_of_lookup_1. apply list_lookup_insert_Some in Hj as [(_ & -> & _)|[_ Hj]].
  - by left.
  - right. by eapply list_elem_of_lookup_2.
Qed.

(** ** Sums over maps *)

Definition msum {K A} `{Countable K} (f : K → A → nat) (m : gmap K A) : nat :=
  sum_list_with (λ kx, f kx.1 kx.2) (map_to_list m).

Section msum.
Context {K A : Type} `{Countable K}.
Implicit Types (f : K → A → nat) (m : gmap K A).

Lemma msum_empty f : msum f ∅ = 0%nat.
Proof. unfold msum. by rewrite map_to_list_empty. Qed.

Lemma msum_insert_new f m i x : m !! i = None → msum f (<[i := x]> m) = (f i x + msum f m)%nat.
Proof.
  intros Hi. unfold msum. by rewrite map_to_list_insert by done.
Qed.

Lemma msum_delete f m i x : m !! i = Some x → msum f m = (f i x + msum f (delete i m))%nat.
Proof.
  intros Hi. rewrite <-(insert_delete_id m i x Hi) at 1. apply msum_insert_new. apply lookup_delete_eq.
Qed.

Lemma msum_insert f m i x y :
  m !! i = Some x → (msum f (<[i := y]> m) + f i x = msum f m + f i y)%nat.
Proof.
  intros Hi. rewrite (msum_delete f m i x Hi). rewrite <-insert_delete_eq, msum_insert_new by apply lookup_delete_eq. lia.
Qed.

Lemma msum_ext f f' m : (∀ i x, m !! i = Some x → f i x = f' i x) → msum f m = msum f' m.
Proof.
  induction m as [|i x m Hi IH] using map_ind; intros Hf; [done|].
  rewrite !msum_insert_new by done. rewrite (Hf i x) by apply lookup_insert_eq. f_equal. apply IH.
  intros j y Hj. apply Hf. rewrite lookup_insert_ne by congruence. done.
Qed.

Lemma msum_zero f m : msum f m = 0%nat ↔ ∀ i x, m !! i = Some x → f i x = 0%nat.
Proof.
  induction m as [|i x m Hi IH] using map_ind; [split; [by intros _ ? ?; rewrite lookup_empty|done]|].
  rewrite msum_insert_new by done. split.
  - intros Hs j y [[<- <-]|[? Hj]]%lookup_insert_Some; [lia|]. apply (proj1 IH); [lia|done].
  - intros Hf. rewrite (Hf i x) by apply lookup_insert_eq. apply IH. intros j y Hj. apply Hf.
    rewrite lookup_insert_ne by congruence. done.
Qed.

Lemma msum_pos f m : msum f m ≠ 0%nat → ∃ i x, m !! i = Some x ∧ f i x ≠ 0%nat.
Proof.
  induction m as [|i x m Hi IH] using map_ind; [done|]. rewrite msum_insert_new by done. intros Hs.
  destruct (decide (f i x = 0%nat)) as [He|]; [|exists i, x; by rewrite lookup_insert_eq].
  destruct IH as (j & y & Hj & ?); [lia|]. exists j, y. split; [|done]. rewrite lookup_insert_ne by congruence. done.
Qed.

(** A key that is missing counts as one whose value adds nothing. *)
Lemma msum_value {B} f (f' : K → B → nat) m (m' : gmap K B) :
  (∀ i, from_option (f i) 0%nat (m !! i) = from_option (f' i) 0%nat (m' !! i)) → msum f m = msum f' m'.
Proof.
  revert m'. induction m as [|i x m Hi IH] using map_ind; intros m' Hv.
  - symmetry. rewrite msum_empty. unfold msum. apply Nat.le_0_r. 
    enough (Forall (λ kx, f' kx.1 kx.2 = 0%nat) (map_to_list m')) as Hf.
    { induction Hf as [|kx l Hx _ IH]; cbn; lia. }
    apply Forall_forall. intros [j y] Hj%elem_of_map_to_list. specialize (Hv j). rewrite lookup_empty, Hj in Hv. done.
  - rewrite msum_insert_new by done. pose proof (Hv i) as Hx. rewrite lookup_insert_eq in Hx. cbn in Hx.
    destruct (m' !! i) as [y|] eqn:Hy; cbn in Hx.
    + rewrite (IH (delete i m')).
      * unfold msum. rewrite <-(insert_delete_id m' i y Hy) at 2. rewrite map_to_list_insert by apply lookup_delete_eq. cbn. lia.
      * intros j. destruct (decide (i = j)) as [<-|Hne]; [by rewrite lookup_delete_eq, Hi|].
        specialize (Hv j). rewrite lookup_insert_ne in Hv by done. by rewrite lookup_delete_ne.
    + rewrite (IH m'); [lia|]. intros j. destruct (decide (i = j)) as [<-|Hne]; [by rewrite Hi, Hy|].
      specialize (Hv j). by rewrite lookup_insert_ne in Hv by done.
Qed.

Lemma msum_insert_default f m i x y :
  f i x = 0%nat → (msum f (<[i := y]> m) + f i (default x (m !! i)) = msum f m + f i y)%nat.
Proof.
  intros Hx. destruct (m !! i) as [z|] eqn:Hi; cbn; [by apply msum_insert|].
  rewrite msum_insert_new by done. lia.
Qed.
End msum.

(** ** Automation *)

(** Split a hypothesis about a bind that returned normally. *)
Lemma bind_Done {A B} (m : result A) (k : A → result B) b :
  m ≫= k = Done b ↔ ∃ a, m = Done a ∧ k a = Done b.
Proof. destruct m; cbn; naive_solver. Qed.

Lemma verify_Done b u : verify b = Done u ↔ b = true.
Proof. unfold verify. destruct b, u; naive_solver. Qed.

(** [mbind H] takes apart every bind of a hypothesis [H : _ = Done _]. *)
Ltac done_inv H :=
  repeat first
    [ apply bind_Done in H;
      let x := fresh "r" in let Hx := fresh "Hr" in
      destruct H as (x & Hx & H);
      try (apply verify_Done in Hx; try apply bool_decide_eq_true in Hx)
    | apply verify_Done in H; try apply bool_decide_eq_true in H ].

(** Case analysis on every [match]/[if] that blocks reduction of the goal. *)
Ltac split_match :=
  repeat match goal with
    | |- context [match ?x with _ => _ end] => destruct x eqn:?; simplify_eq/=
    end.

Create HintDb dst discriminated.
Create Rewrite HintDb dst.
#[export] Hint Rewrite MAX_spec : dst.
