(* ===== verification/LockWord.v ===== *)
(** * Lock words and vector-timestamp words

    The 64-bit words that DrTM packs several fields into: the lock word a
    transaction writes into [MemNode::lock] (macros of
    src/drtm-dst/src/db/txs/tx_handler.h) and the server-tagged counter of the
    vector timestamp scheme (macros of src/drtm-dst/src/db/txs/ts_manager.hpp). *)

From S2P Require Import Prelude.

(** ** Lock words: | mac (from bit 16) | tid (bits 10..15) | cor_id (bits 0..9) | *)

Definition ENCODE_LOCK_CONTENT (mac tid cor_id : Z) : Z :=
  u64 (Z.lor (Z.lor (Z.shiftl mac 16) (Z.shiftl tid 10)) cor_id).
Definition DECODE_LOCK_MAC (lock : Z) : Z := Z.shiftr lock 16.
Definition DECODE_LOCK_TID (lock : Z) : Z := Z.shiftr (Z.land lock 65535) 10.
Definition DECODE_LOCK_CID (lock : Z) : Z := Z.land lock 63.

(** The ranges of the three fields, as the comment of the macro lays them out. *)
Definition lock_fields (mac tid cor_id : Z) : Prop :=
  0 ≤ mac < 2 ^ 48 ∧ 0 ≤ tid < 2 ^ 6 ∧ 0 ≤ cor_id < 2 ^ 10.

(** ** Vector timestamp words: | server (from bit 48) | counter (bits 0..47) | *)

Definition SI_TS_MASK : Z := 281474976710655.
Definition SI_SERVER_MASK : Z := 65535.
Definition SI_GET_SERVER (x : Z) : Z := Z.land (Z.shiftr x 48) SI_SERVER_MASK.
Definition SI_GET_COUNTER (x : Z) : Z := Z.land x SI_TS_MASK.
Definition SI_ENCODE_TS (s t : Z) : Z := u64 (Z.lor (Z.shiftl s 48) t).

(** ** Arithmetic reading of the packed words *)

Lemma ENCODE_LOCK_CONTENT_arith mac tid cor_id :
  lock_fields mac tid cor_id →
  ENCODE_LOCK_CONTENT mac tid cor_id = mac * 2 ^ 16 + tid * 2 ^ 10 + cor_id.
Proof.
  intros (Hm & Ht & Hc). unfold ENCODE_LOCK_CONTENT.
  rewrite <-Z.lor_assoc, (lor_shiftl_add tid cor_id 10) by lia.
  rewrite lor_shiftl_add by lia. rewrite uwrap_small by lia. lia.
Qed.

Lemma SI_ENCODE_TS_arith s t :
  0 ≤ s < 2 ^ 16 → 0 ≤ t < 2 ^ 48 → SI_ENCODE_TS s t = s * 2 ^ 48 + t.
Proof.
  intros. unfold SI_ENCODE_TS. rewrite lor_shiftl_add by lia.
  apply uwrap_small. lia.
Qed.

(** A lock word of a running coroutine is never the free value 0: the code
    always passes [cor_id + 1]. *)
Lemma ENCODE_LOCK_CONTENT_nonzero mac tid cor_id :
  lock_fields mac tid cor_id → 0 < cor_id → ENCODE_LOCK_CONTENT mac tid cor_id ≠ 0.
Proof.
  intros H Hc. rewrite ENCODE_LOCK_CONTENT_arith by done.
  destruct H as (? & ? & ?). lia.
Qed.

#[export] Hint Resolve ENCODE_LOCK_CONTENT_nonzero : dst.

(** ** Properties *)

(** Decoding a lock word gives back the machine and the thread that took
    the lock; the coroutine id comes back modulo 64, because the decoding mask is
    6 bits wide while the field has 10. *)
Theorem decode_encode_lock mac tid cor_id :
  lock_fields mac tid cor_id →
  DECODE_LOCK_MAC (ENCODE_LOCK_CONTENT mac tid cor_id) = mac ∧
  DECODE_LOCK_TID (ENCODE_LOCK_CONTENT mac tid cor_id) = tid ∧
  DECODE_LOCK_CID (ENCODE_LOCK_CONTENT mac tid cor_id) = cor_id mod 64.
Proof.
  intros H. rewrite ENCODE_LOCK_CONTENT_arith by done.
  destruct H as (Hm & Ht & Hc).
  unfold DECODE_LOCK_MAC, DECODE_LOCK_TID, DECODE_LOCK_CID.
  change 65535 with (Z.ones 16). change 63 with (Z.ones 6).
  rewrite !Z.land_ones, !Z.shiftr_div_pow2 by lia.
  split_and!; Z.div_mod_to_equations; lia.
Qed.

Lemma decode_encode_lock_witness :
  DECODE_LOCK_MAC (ENCODE_LOCK_CONTENT 3 5 7) = 3 ∧
  DECODE_LOCK_TID (ENCODE_LOCK_CONTENT 3 5 7) = 5 ∧
  DECODE_LOCK_CID (ENCODE_LOCK_CONTENT 3 5 7) = 7 mod 64.
Proof. apply (decode_encode_lock 3 5 7). unfold lock_fields. lia. Defined.

(** Two lock owners with different machine, thread or coroutine never share
    a lock word, so a compare-and-swap on the own word releases only the own lock. *)
Theorem encode_lock_inj m t c m' t' c' :
  lock_fields m t c → lock_fields m' t' c' →
  ENCODE_LOCK_CONTENT m t c = ENCODE_LOCK_CONTENT m' t' c' →
  m = m' ∧ t = t' ∧ c = c'.
Proof.
  intros H H'. rewrite !ENCODE_LOCK_CONTENT_arith by done.
  destruct H as (? & ? & ?), H' as (? & ? & ?). lia.
Qed.

Lemma encode_lock_inj_witness : 1 = 1 ∧ 2 = 2 ∧ 3 = 3.
Proof.
  apply (encode_lock_inj 1 2 3 1 2 3);
    [unfold lock_fields; lia | unfold lock_fields; lia | reflexivity].
Defined.

(** The server id and the counter of a vector-timestamp word survive packing. *)
Theorem si_ts_roundtrip s t :
  0 ≤ s < 2 ^ 16 → 0 ≤ t < 2 ^ 48 →
  SI_GET_SERVER (SI_ENCODE_TS s t) = s ∧ SI_GET_COUNTER (SI_ENCODE_TS s t) = t.
Proof.
  intros Hs Ht. rewrite SI_ENCODE_TS_arith by done.
  unfold SI_GET_SERVER, SI_GET_COUNTER.
  change SI_TS_MASK with (Z.ones 48). change SI_SERVER_MASK with (Z.ones 16).
  rewrite !Z.land_ones, Z.shiftr_div_pow2 by lia.
  split; Z.div_mod_to_equations; lia.
Qed.

Lemma si_ts_roundtrip_witness :
  SI_GET_SERVER (SI_ENCODE_TS 2 9) = 2 ∧ SI_GET_COUNTER (SI_ENCODE_TS 2 9) = 9.
Proof. apply (si_ts_roundtrip 2 9); lia. Defined.
