(* ===== verification/Memstore.v ===== *)
(** * The record store: [MemNode], the [Memstore] interface

    Models src/drtm-dst/src/memstore/memstore.h.  A [MemNode] is the header of
    one record: its lock word, its version ([seq]), the pointers to the current
    and to the previous value buffers, and the largest timestamp it has been read
    at ([read_ts]).  Every store class of DrTM maps a key to the address of its
    [MemNode]; the [Memstore] class states what the transaction layer relies on.
    Addresses are [Z], the null pointer is 0. *)

From S2P Require Import Prelude.

Definition NULL : Z := 0.

Record MemNode := mkMemNode {
  n_lock : Z;
  n_seq : Z;
  n_value : Z;
  n_old_value : Z;
  n_off : Z;
  n_read_lock : Z;
  n_read_ts : Z;
}.

#[export] Instance MemNode_eq_dec : EqDecision MemNode.
Proof. solve_decision. Defined.

(** [MemNode::MemNode()]; store memory is zeroed before use, so [off] starts at 0. *)
Definition MemNode_new : MemNode := mkMemNode 0 0 NULL NULL 0 0 0.

(** Field assignments. *)
Definition set_lock (v : Z) (n : MemNode) : MemNode :=
  mkMemNode v (n_seq n) (n_value n) (n_old_value n) (n_off n) (n_read_lock n) (n_read_ts n).
Definition set_seq (v : Z) (n : MemNode) : MemNode :=
  mkMemNode (n_lock n) v (n_value n) (n_old_value n) (n_off n) (n_read_lock n) (n_read_ts n).
Definition set_value (v : Z) (n : MemNode) : MemNode :=
  mkMemNode (n_lock n) (n_seq n) v (n_old_value n) (n_off n) (n_read_lock n) (n_read_ts n).
Definition set_old_value (v : Z) (n : MemNode) : MemNode :=
  mkMemNode (n_lock n) (n_seq n) (n_value n) v (n_off n) (n_read_lock n) (n_read_ts n).
Definition set_off (v : Z) (n : MemNode) : MemNode :=
  mkMemNode (n_lock n) (n_seq n) (n_value n) (n_old_value n) v (n_read_lock n) (n_read_ts n).
Definition set_read_lock (v : Z) (n : MemNode) : MemNode :=
  mkMemNode (n_lock n) (n_seq n) (n_value n) (n_old_value n) (n_off n) v (n_read_ts n).
Definition set_read_ts (v : Z) (n : MemNode) : MemNode :=
  mkMemNode (n_lock n) (n_seq n) (n_value n) (n_old_value n) (n_off n) (n_read_lock n) v.

(** ** Node memory: an address that was never written holds a zeroed node. *)

Abbreviation NodeMem := (gmap Z MemNode).

Definition node_at (m : NodeMem) (a : Z) : MemNode := default MemNode_new (m !! a).
Definition upd_node (m : NodeMem) (a : Z) (f : MemNode → MemNode) : NodeMem :=
  <[a := f (node_at m a)]> m.

Lemma node_at_upd_eq m a f : node_at (upd_node m a f) a = f (node_at m a).
Proof. unfold node_at at 1, upd_node. by rewrite lookup_insert_eq. Qed.

Lemma node_at_upd_ne m a b f : a ≠ b → node_at (upd_node m a f) b = node_at m b.
Proof. intros. unfold node_at at 1, upd_node. by rewrite lookup_insert_ne. Qed.

Lemma node_at_upd m a b f :
  node_at (upd_node m a f) b = if decide (a = b) then f (node_at m b) else node_at m b.
Proof.
  case_decide; subst; [apply node_at_upd_eq | by apply node_at_upd_ne].
Qed.

Lemma upd_node_upd m a f g : upd_node (upd_node m a f) a g = upd_node m a (g ∘ f).
Proof.
  unfold upd_node at 1 3. rewrite node_at_upd_eq. unfold upd_node. apply insert_insert_eq.
Qed.

#[export] Hint Rewrite node_at_upd_eq : dst.
#[export] Hint Rewrite node_at_upd_ne using congruence : dst.

(** Two nodes that differ at most in [off], the RDMA offset of the record. *)
Definition same_record (n n' : MemNode) : Prop := set_off 0 n = set_off 0 n'.

#[export] Instance same_record_equiv : Equivalence same_record.
Proof. split; red; unfold same_record; intros; congruence. Qed.

#[export] Instance same_record_dec n n' : Decision (same_record n n').
Proof. unfold same_record. apply _. Defined.

Lemma same_record_set_off n o : same_record (set_off o n) n.
Proof. by destruct n. Qed.

Lemma same_record_fields n n' :
  same_record n n' ↔
  n_lock n = n_lock n' ∧ n_seq n = n_seq n' ∧ n_value n = n_value n' ∧
  n_old_value n = n_old_value n' ∧ n_read_lock n = n_read_lock n' ∧ n_read_ts n = n_read_ts n'.
Proof.
  destruct n, n'; unfold same_record, set_off; cbn.
  split; [intros H; injection H; intros; subst; auto 10 | intros (-> & -> & -> & -> & -> & ->); done].
Qed.

#[export] Hint Resolve same_record_set_off : dst.

(** ** What a store promises to the transaction layer

    [key_ok] are the keys the store can represent and [ms_inv] the store's own
    well-formedness.  [Get] returns [None] for the null pointer. *)

Class Memstore (St : Type) := {
  key_ok : Z → Prop;
  ms_inv : St → Prop;
  Get : St → Z → result (option Z);
  GetWithInsert : St → NodeMem → Z → result (St * NodeMem * Z);
}.

Class MemstoreLaws (St : Type) `{Memstore St} := {
  Get_total s k : ms_inv s → ∃ r, Get s k = Done r;
  Get_nonnull s k a : ms_inv s → Get s k = Done (Some a) → a ≠ NULL;
  Get_inj s k1 k2 a :
    ms_inv s → Get s k1 = Done (Some a) → Get s k2 = Done (Some a) → k1 = k2;
  GetWithInsert_hit s m k a :
    ms_inv s → Get s k = Done (Some a) →
    ∃ m', GetWithInsert s m k = Done (s, m', a);
  GetWithInsert_inv s m k s' m' a :
    ms_inv s → key_ok k → GetWithInsert s m k = Done (s', m', a) → ms_inv s';
  GetWithInsert_get s m k s' m' a :
    ms_inv s → key_ok k → GetWithInsert s m k = Done (s', m', a) → Get s' k = Done (Some a);
  GetWithInsert_other s m k k' s' m' a :
    ms_inv s → key_ok k → key_ok k' → k ≠ k' →
    GetWithInsert s m k = Done (s', m', a) → Get s' k' = Get s k';
  GetWithInsert_fresh s m k k' s' m' a :
    ms_inv s → key_ok k → Get s k = Done None → GetWithInsert s m k = Done (s', m', a) →
    Get s k' ≠ Done (Some a);
  GetWithInsert_nodes s m k s' m' a b :
    GetWithInsert s m k = Done (s', m', a) → same_record (node_at m' b) (node_at m b);
}.
