(* ===== verification/ClusterHash.v ===== *)
(** * The cluster-chaining hash table and its [Memstore] instance

    Models src/drtm-dst/src/memstore/cluster_chaining.hpp, the hash table behind
    every [TAB_HASH] table, at the instance [RHash] of
    src/drtm-dst/src/memstore/rdma_hash.hpp uses (data type [MemNode], four slots
    per header), and [RHash] itself as an instance of [Memstore].

    The table is one array of header nodes: [logical_num_] bucket heads followed
    by [indirect_num_] overflow nodes.  A header has four key slots and the index
    of the next overflow node (0 = none; overflow node 0 is never used).  The
    loops over a chain take fuel, one unit per header; [chain_fuel] is enough
    because the indices along a chain increase. *)

From S2P Require Import Prelude Memstore.

Definition DRTM_CLUSTER_NUM : nat := 4.

(** ** Layout (x86-64): 8-byte keys, 128-byte nodes aligned to 64 *)

Definition sizeof_MemNode : Z := 128.
Definition sizeof_HeaderNode : Z := 640.
(** [CLUSTER_OFF(node,i)]: byte offset of [datas[i]] in a header *)
Definition CLUSTER_OFF (i : Z) : Z := 64 + i * sizeof_MemNode.

(** ** Data *)

(** [struct Key]: a valid bit and a 63-bit key. *)
Record Key := mkKey { k_valid : bool; k_key : Z }.

Record HeaderNode := mkHeader { h_keys : list Key; h_next : Z }.

(** The header that [memset(.., 0, sizeof(HeaderNode))] leaves. *)
Definition zero_header : HeaderNode :=
  mkHeader (replicate DRTM_CLUSTER_NUM (mkKey false 0)) 0.

Record ClusterHash := mkCluster {
  data_ptr_ : Z;
  logical_num_ : Z;
  indirect_num_ : Z;
  free_indirect_num_ : Z;
  base_off_ : Z;
  headers : gmap Z HeaderNode;
}.

Definition header (t : ClusterHash) (idx : Z) : HeaderNode :=
  default zero_header (headers t !! idx).

Definition upd_header (t : ClusterHash) (idx : Z) (h : HeaderNode) : ClusterHash :=
  mkCluster (data_ptr_ t) (logical_num_ t) (indirect_num_ t) (free_indirect_num_ t)
    (base_off_ t) (<[idx := h]> (headers t)).

Definition set_free (t : ClusterHash) (n : Z) : ClusterHash :=
  mkCluster (data_ptr_ t) (logical_num_ t) (indirect_num_ t) n (base_off_ t) (headers t).

(** The constructor [ClusterHash(int expected_data, char *val)]; [val] is the
    memory the caller supplies or the allocator returns. *)
Definition ClusterHash_new (expected_data : Z) (val : Z) : result ClusterHash :=
  let indirect :=
    if decide (expected_data ≤ Z.of_nat DRTM_CLUSTER_NUM) then expected_data
    else Z.quot expected_data (Z.of_nat DRTM_CLUSTER_NUM) in
  _ ← verify (bool_decide (0 < indirect));
  _ ← verify (bool_decide ((indirect + expected_data) * sizeof_HeaderNode ≠ 0));
  _ ← verify (bool_decide (val ≠ NULL));
  Done (mkCluster val expected_data indirect 1 0 ∅).

(** ** Hashing *)

Definition murmur_hash_64a (key : Z) (seed : Z) : Z :=
  let m := 14313749767032793493 in
  let r := 47 in
  let h := Z.lxor seed (u64 (8 * m)) in
  let k := u64 (key * m) in
  let k := Z.lxor k (Z.shiftr k r) in
  let k := u64 (k * m) in
  let h := u64 (Z.lxor h k * m) in
  let h := Z.lxor h (Z.shiftr h r) in
  let h := u64 (h * m) in
  Z.lxor h (Z.shiftr h r).

Definition get_hash (t : ClusterHash) (key : Z) : Z :=
  murmur_hash_64a key 3735928559 mod logical_num_ t.

(** ** Addresses *)

(** Index of the [i]-th overflow node in the header array. *)
Definition get_indirect_node (t : ClusterHash) (i : Z) : Z := i + logical_num_ t.

Definition get_indirect_loc (t : ClusterHash) (i : Z) : Z :=
  (i + logical_num_ t) * sizeof_HeaderNode.

(** Address of [datas[i]] of header [idx]. *)
Definition slot_addr (t : ClusterHash) (idx i : Z) : Z :=
  data_ptr_ t + idx * sizeof_HeaderNode + CLUSTER_OFF i.

(** ** Lookup *)

(** The [for] loop over the slots of one header. *)
Fixpoint find_key (ks : list Key) (key : Z) (i : Z) : option Z :=
  match ks with
  | [] => None
  | k :: ks =>
      if (k_key k =? key) && k_valid k then Some i else find_key ks key (i + 1)
  end.

Fixpoint get_loop (fuel : nat) (t : ClusterHash) (idx key : Z) : result (option (Z * Z)) :=
  match fuel with
  | O => Spin
  | S fuel =>
      match find_key (h_keys (header t idx)) key 0 with
      | Some i => Done (Some (idx, i))
      | None =>
          if decide (h_next (header t idx) ≠ 0)
          then get_loop fuel t (get_indirect_node t (h_next (header t idx))) key
          else Done None
      end
  end.

Definition chain_fuel (t : ClusterHash) : nat := S (Z.to_nat (indirect_num_ t)).

(** [ClusterHash::get], the slot of a key. *)
Definition get_slot (t : ClusterHash) (key : Z) : result (option (Z * Z)) :=
  get_loop (chain_fuel t) t (get_hash t key) key.

Definition get (t : ClusterHash) (key : Z) : result (option Z) :=
  r ← get_slot t key;
  Done (match r with Some (idx, i) => Some (slot_addr t idx i) | None => None end).

(** ** Insertion *)

(** The [for] loop of [insert]: the first slot whose valid bit is clear. *)
Fixpoint find_free (ks : list Key) (i : Z) : option Z :=
  match ks with
  | [] => None
  | k :: ks => if k_valid k then find_free ks (i + 1) else Some i
  end.

(** [keys[i].valid = true; keys[i].key = key]: the bit field keeps 63 bits. *)
Definition fill_slot (h : HeaderNode) (i key : Z) : HeaderNode :=
  mkHeader (<[Z.to_nat i := mkKey true (uwrap 63 key)]> (h_keys h)) (h_next h).

Definition set_next (h : HeaderNode) (n : Z) : HeaderNode := mkHeader (h_keys h) n.

Fixpoint insert_loop (fuel : nat) (t : ClusterHash) (idx key : Z) : result (ClusterHash * (Z * Z)) :=
  match fuel with
  | O => Spin
  | S fuel =>
      match find_free (h_keys (header t idx)) 0 with
      | Some i => Done (upd_header t idx (fill_slot (header t idx) i key), (idx, i))
      | None =>
          if decide (h_next (header t idx) ≠ 0)
          then insert_loop fuel t (get_indirect_node t (h_next (header t idx))) key
          else
            (* ALLOC_NEW *)
            _ ← verify (bool_decide (free_indirect_num_ t < indirect_num_ t));
            let n := free_indirect_num_ t in
            let new_idx := get_indirect_node t n in
            let t := upd_header t new_idx (fill_slot zero_header 0 key) in
            let t := upd_header t idx (set_next (header t idx) n) in
            Done (set_free t (n + 1), (new_idx, 0))
      end
  end.

(** [ClusterHash::insert] *)
Definition insert (t : ClusterHash) (key : Z) : result (ClusterHash * (Z * Z)) :=
  insert_loop (chain_fuel t) t (get_hash t key) key.

(** [ClusterHash::get_with_insert] *)
Definition get_with_insert (t : ClusterHash) (key : Z) : result (ClusterHash * (Z * Z)) :=
  r ← get_slot t key;
  match r with
  | Some s => Done (t, s)
  | None => insert t key
  end.

(** ** Remote lookup

    [remote_get] walks the same chain on another machine: each [fetch_node] is an
    RDMA read of one header of the remote table, so it returns [header t] at the
    offset asked for; [node_off] is the offset of the header in the registered
    region.  The blocking variant asserts the range of [next] and both variants
    assert that the key is found. *)

Fixpoint remote_get_loop (fuel : nat) (t : ClusterHash) (idx node_off key : Z) : result Z :=
  match fuel with
  | O => Spin
  | S fuel =>
      let node := header t idx in
      match find_key (h_keys node) key 0 with
      | Some i => Done (CLUSTER_OFF i + node_off)
      | None =>
          _ ← verify (bool_decide (0 ≤ h_next node ∧ h_next node < indirect_num_ t));
          if decide (h_next node ≠ 0)
          then remote_get_loop fuel t (get_indirect_node t (h_next node))
                 (get_indirect_loc t (h_next node) + base_off_ t) key
          else Crash assert_failed
      end
  end.

Definition remote_get (t : ClusterHash) (key : Z) : result Z :=
  _ ← verify (bool_decide (base_off_ t ≠ 0));
  let idx := get_hash t key in
  remote_get_loop (chain_fuel t) t idx (idx * sizeof_HeaderNode + base_off_ t) key.

(** ** [RHash] *)

(** [RHash::_GetWithInsert(key, val)]: the node's RDMA offset is refreshed on
    every call and a null value is replaced by [val]. *)
Definition RHash_GetWithInsert (t : ClusterHash) (m : NodeMem) (key val : Z)
  : result (ClusterHash * NodeMem * Z) :=
  '(t', (idx, i)) ← get_with_insert t key;
  let a := slot_addr t' idx i in
  let m := upd_node m a (set_off (base_off_ t' + (a - data_ptr_ t'))) in
  let m := if decide (n_value (node_at m a) = NULL) then upd_node m a (set_value val) else m in
  Done (t', m, a).

(** [RHash::Put] *)
Definition RHash_Put (t : ClusterHash) (m : NodeMem) (key val : Z) : result (ClusterHash * NodeMem * Z) :=
  RHash_GetWithInsert t m key val.

(** ** Slots of one header *)

Lemma find_key_Some ks key j i :
  find_key ks key j = Some i →
  j ≤ i < j + Z.of_nat (length ks) ∧ ks !! Z.to_nat (i - j) = Some (mkKey true key).
Proof.
  revert j. induction ks as [|[v k] ks IH]; intros j; cbn; [done|].
  destruct (Z.eqb_spec k key), v; cbn; intros Hf.
  1: { simplify_eq. split; [lia|]. by rewrite Z.sub_diag. }
  all: apply IH in Hf as [Hb Hl]; split; [lia|];
    replace (Z.to_nat (i - j)) with (S (Z.to_nat (i - (j + 1)))) by lia; done.
Qed.

Lemma find_free_Some ks j i :
  find_free ks j = Some i →
  j ≤ i < j + Z.of_nat (length ks) ∧
  ∃ k, ks !! Z.to_nat (i - j) = Some k ∧ k_valid k = false.
Proof.
  revert j. induction ks as [|[v k] ks IH]; intros j; cbn; [done|].
  destruct v; intros Hf.
  - apply IH in Hf as [Hb Hl]. split; [lia|].
    replace (Z.to_nat (i - j)) with (S (Z.to_nat (i - (j + 1)))) by lia. done.
  - simplify_eq. split; [lia|]. rewrite Z.sub_diag. cbn. eauto.
Qed.

Lemma find_key_fill_other ks key key' j i :
  find_free ks j = Some i → key ≠ key' →
  find_key (<[Z.to_nat (i - j) := mkKey true key]> ks) key' j = find_key ks key' j.
Proof.
  revert j. induction ks as [|[v k] ks IH]; intros j Hf Hne; cbn in *; [done|].
  destruct v.
  - pose proof (find_free_Some _ _ _ Hf) as [Hb _].
    replace (Z.to_nat (i - j)) with (S (Z.to_nat (i - (j + 1)))) by lia.
    cbn. by rewrite IH.
  - simplify_eq. rewrite Z.sub_diag. change (Z.to_nat 0) with 0%nat. cbn.
    rewrite (proj2 (Z.eqb_neq key key')) by done. by rewrite andb_false_r.
Qed.

Lemma find_key_fill ks key j i :
  find_free ks j = Some i → find_key ks key j = None →
  find_key (<[Z.to_nat (i - j) := mkKey true key]> ks) key j = Some i.
Proof.
  revert j. induction ks as [|[v k] ks IH]; intros j Hf Hk; cbn in *; [done|].
  destruct v; cbn in *.
  - pose proof (find_free_Some _ _ _ Hf) as [Hb _].
    replace (Z.to_nat (i - j)) with (S (Z.to_nat (i - (j + 1)))) by lia.
    cbn. destruct (k =? key); [done|]. by apply IH.
  - simplify_eq. rewrite Z.sub_diag. change (Z.to_nat 0) with 0%nat. cbn. by rewrite Z.eqb_refl.
Qed.

Lemma find_key_zero key j : find_key (h_keys zero_header) key j = None.
Proof. cbn. by rewrite !andb_false_r. Qed.

(** ** Well-formed tables *)

Record wf (t : ClusterHash) : Prop := {
  wf_ptr : 0 < data_ptr_ t;
  wf_logical : 0 < logical_num_ t;
  wf_free : 1 ≤ free_indirect_num_ t ≤ indirect_num_ t;
  wf_keys idx : length (h_keys (header t idx)) = DRTM_CLUSTER_NUM;
  wf_next idx : h_next (header t idx) = 0 ∨
    (1 ≤ h_next (header t idx) < free_indirect_num_ t ∧
     idx < get_indirect_node t (h_next (header t idx)));
  wf_unused idx : get_indirect_node t (free_indirect_num_ t) ≤ idx → header t idx = zero_header;
}.

Lemma header_upd_eq t idx h : header (upd_header t idx h) idx = h.
Proof. unfold header, upd_header; cbn. by rewrite lookup_insert_eq. Qed.

Lemma header_upd_ne t idx idx' h : idx ≠ idx' → header (upd_header t idx h) idx' = header t idx'.
Proof. intros. unfold header, upd_header; cbn. by rewrite lookup_insert_ne. Qed.

Lemma header_set_free t n idx : header (set_free t n) idx = header t idx.
Proof. done. Qed.

#[export] Hint Rewrite header_upd_eq header_set_free : dst.
#[export] Hint Rewrite header_upd_ne using lia : dst.

Lemma get_hash_bound t key : 0 < logical_num_ t → 0 ≤ get_hash t key < logical_num_ t.
Proof. intros. unfold get_hash. by apply Z.mod_pos_bound. Qed.

Lemma slot_addr_inj t idx i idx' i' :
  0 ≤ i < 4 → 0 ≤ i' < 4 →
  slot_addr t idx i = slot_addr t idx' i' → idx = idx' ∧ i = i'.
Proof.
  unfold slot_addr, CLUSTER_OFF, sizeof_HeaderNode, sizeof_MemNode. lia.
Qed.

(** ** The chain walk as a relation, free of fuel *)

Inductive walk (t : ClusterHash) (key : Z) : Z → option (Z * Z) → Prop :=
  | walk_hit idx i :
      find_key (h_keys (header t idx)) key 0 = Some i → walk t key idx (Some (idx, i))
  | walk_end idx :
      find_key (h_keys (header t idx)) key 0 = None → h_next (header t idx) = 0 →
      walk t key idx None
  | walk_step idx r :
      find_key (h_keys (header t idx)) key 0 = None → h_next (header t idx) ≠ 0 →
      walk t key (get_indirect_node t (h_next (header t idx))) r → walk t key idx r.

#[export] Hint Constructors walk : dst.

Lemma get_loop_walk fuel t idx key r : get_loop fuel t idx key = Done r → walk t key idx r.
Proof.
  revert idx. induction fuel as [|fuel IH]; intros idx; cbn; [done|].
  destruct (find_key _ _ _) eqn:Hf; [intros; simplify_eq; eauto with dst|].
  case_decide; intros H'; [|simplify_eq]; eauto with dst.
Qed.

Lemma walk_det t key idx r1 r2 : walk t key idx r1 → walk t key idx r2 → r1 = r2.
Proof. intros H1. revert r2. induction H1; inversion 1; simplify_eq; auto; lia. Qed.

(** How far a header is from the end of the overflow area. *)
Definition distance (t : ClusterHash) (idx : Z) : Z :=
  free_indirect_num_ t - Z.max 0 (idx - logical_num_ t).

Lemma distance_next t idx :
  wf t → h_next (header t idx) ≠ 0 →
  0 < distance t (get_indirect_node t (h_next (header t idx))) < distance t idx.
Proof.
  intros Hwf Hn. destruct (wf_next t Hwf idx) as [|[Hb Hlt]]; [done|].
  unfold distance, get_indirect_node in *. lia.
Qed.

Lemma get_loop_total fuel t idx key :
  wf t → 0 < distance t idx ≤ Z.of_nat fuel → ∃ r, get_loop fuel t idx key = Done r.
Proof.
  intros Hwf. revert idx. induction fuel as [|fuel IH]; intros idx Hd; [lia|].
  cbn. destruct (find_key _ _ _); [eauto|]. case_decide as Hn; [|eauto].
  pose proof (distance_next t idx Hwf Hn). apply IH. lia.
Qed.

Lemma distance_head t key :
  wf t → 0 < distance t (get_hash t key) ≤ Z.of_nat (chain_fuel t).
Proof.
  intros Hwf. pose proof (get_hash_bound t key (wf_logical t Hwf)).
  pose proof (wf_free t Hwf). unfold distance, chain_fuel. lia.
Qed.

Lemma get_slot_walk t key r :
  wf t → get_slot t key = Done r ↔ walk t key (get_hash t key) r.
Proof.
  intros Hwf. split; [apply get_loop_walk|]. intros Hw.
  destruct (get_loop_total _ t (get_hash t key) key Hwf (distance_head t key Hwf)) as [r' Hr].
  unfold get_slot. rewrite Hr. f_equal. eapply walk_det; [by eapply get_loop_walk|done].
Qed.

Lemma walk_Some_slot t key idx x i :
  walk t key idx (Some (x, i)) → h_keys (header t x) !! Z.to_nat i = Some (mkKey true key) ∧ 0 ≤ i.
Proof.
  intros Hw. remember (Some (x, i)) as r eqn:Hr. induction Hw; simplify_eq; auto.
  apply find_key_Some in H as [Hb Hl]. rewrite Z.sub_0_r in Hl. split; [done|lia].
Qed.

Lemma walk_slot_bound t key idx x i :
  wf t → walk t key idx (Some (x, i)) → 0 ≤ i < 4.
Proof.
  intros Hwf [Hl Hi]%walk_Some_slot. apply lookup_lt_Some in Hl.
  rewrite (wf_keys t Hwf) in Hl. unfold DRTM_CLUSTER_NUM in Hl. lia.
Qed.

(** ** Effect of an insertion *)

(** The two ways [insert_loop] can end: it fills the free slot [i] of header [x],
    or it links a new overflow node behind the last header [y] of the chain. *)
Inductive inserted (t : ClusterHash) (key : Z) : ClusterHash → Z → Z → Prop :=
  | inserted_slot x i :
      find_free (h_keys (header t x)) 0 = Some i →
      x < get_indirect_node t (free_indirect_num_ t) →
      inserted t key (upd_header t x (fill_slot (header t x) i key)) x i
  | inserted_node y :
      find_free (h_keys (header t y)) 0 = None → h_next (header t y) = 0 →
      y < get_indirect_node t (free_indirect_num_ t) →
      free_indirect_num_ t < indirect_num_ t →
      inserted t key
        (set_free
           (upd_header
              (upd_header t (get_indirect_node t (free_indirect_num_ t)) (fill_slot zero_header 0 key))
              y (set_next (header t y) (free_indirect_num_ t)))
           (free_indirect_num_ t + 1))
        (get_indirect_node t (free_indirect_num_ t)) 0.

Lemma insert_loop_inserted fuel t idx key t' x i :
  wf t → idx < get_indirect_node t (free_indirect_num_ t) →
  insert_loop fuel t idx key = Done (t', (x, i)) → inserted t key t' x i.
Proof.
  intros Hwf. revert idx. induction fuel as [|fuel IH]; intros idx Hidx; cbn; [done|].
  destruct (find_free _ _) eqn:Hf; [intros; simplify_eq; by constructor|].
  case_decide as Hn.
  - apply IH. destruct (wf_next t Hwf idx) as [|[? _]]; [done|].
    unfold get_indirect_node. lia.
  - intros H. done_inv H. simplify_eq.
    rewrite header_upd_ne by lia. apply inserted_node; auto.
Qed.

Lemma inserted_frame t key t' x i :
  inserted t key t' x i →
  data_ptr_ t' = data_ptr_ t ∧ logical_num_ t' = logical_num_ t ∧
  indirect_num_ t' = indirect_num_ t ∧ base_off_ t' = base_off_ t.
Proof. by destruct 1. Qed.

Lemma header_upd t idx idx' h :
  header (upd_header t idx h) idx' = if decide (idx = idx') then h else header t idx'.
Proof. case_decide; subst; [apply header_upd_eq | by apply header_upd_ne]. Qed.

Lemma fill_slot_length h i key : length (h_keys (fill_slot h i key)) = length (h_keys h).
Proof. apply length_insert. Qed.

Lemma inserted_wf t key t' x i : wf t → inserted t key t' x i → wf t'.
Proof.
  intros Hwf Hi. destruct Hi as [x i Hf Hx|y Hf Hn Hy Hlt].
  - split; try apply Hwf; intros idx; rewrite header_upd; case_decide; subst; try apply Hwf.
    + rewrite fill_slot_length. apply Hwf.
    + cbn. unfold get_indirect_node in *; cbn in *. lia.
  - pose proof (wf_free t Hwf). unfold get_indirect_node in *.
    split; try apply Hwf; [cbn; lia|..]; intros idx; rewrite header_set_free, !header_upd;
      unfold get_indirect_node in *; cbn.
    + repeat case_decide; [apply Hwf | done | apply Hwf].
    + repeat case_decide; cbn; [right; lia | by left |].
      destruct (wf_next t Hwf idx) as [|[]]; [by left|right]. split; [lia|done].
    + intros Hge. rewrite !decide_False by lia. apply (wf_unused t Hwf).
      unfold get_indirect_node. lia.
Qed.

Lemma find_key_fill_slot_other h i key key' :
  find_free (h_keys h) 0 = Some i → uwrap 63 key ≠ key' →
  find_key (h_keys (fill_slot h i key)) key' 0 = find_key (h_keys h) key' 0.
Proof.
  intros Hf Hne. cbn. rewrite <-(find_key_fill_other _ _ _ _ _ Hf Hne). by rewrite Z.sub_0_r.
Qed.

(** Lookups of other keys do not see the insertion. *)
Lemma inserted_walk_other t key t' x i key' idx r :
  wf t → inserted t key t' x i → uwrap 63 key ≠ key' →
  walk t key' idx r → walk t' key' idx r.
Proof.
  intros Hwf Hi Hne Hw. destruct Hi as [x i Hf Hx|y Hf Hn Hy Hlt].
  - induction Hw as [idx j Hk|idx Hk Hz|idx r Hk Hz _ IH];
      destruct (decide (x = idx)) as [<-|];
      [ apply walk_hit | apply walk_hit | apply walk_end | apply walk_end
      | apply walk_step | apply walk_step ];
      rewrite ?header_upd_eq, ?header_upd_ne by done;
      rewrite ?find_key_fill_slot_other; done.
  - set (n := get_indirect_node t (free_indirect_num_ t)) in *.
    assert (Hnew : walk (set_free (upd_header (upd_header t n (fill_slot zero_header 0 key)) y
             (set_next (header t y) (free_indirect_num_ t))) (free_indirect_num_ t + 1)) key' n None).
    { apply walk_end; rewrite header_set_free, header_upd_ne, header_upd_eq by lia; [|done].
      rewrite find_key_fill_slot_other; [apply find_key_zero|done..]. }
    pose proof (wf_free t Hwf) as Hfr. pose proof (wf_unused t Hwf n ltac:(subst n; lia)) as Hz0.
    induction Hw as [idx j Hk|idx Hk Hz|idx r Hk Hz _ IH];
      destruct (decide (n = idx)) as [<-|Hn1].
    + rewrite Hz0, find_key_zero in Hk. done.
    + apply walk_hit. rewrite header_set_free, header_upd.
      case_decide; subst; [done | by rewrite header_upd_ne].
    + exact Hnew.
    + destruct (decide (y = idx)) as [<-|].
      * apply walk_step; rewrite header_set_free, header_upd_eq; [done|cbn; lia|exact Hnew].
      * apply walk_end; by rewrite header_set_free, !header_upd_ne.
    + rewrite Hz0 in Hz. done.
    + apply walk_step; rewrite header_set_free, header_upd_ne, header_upd_ne by congruence; done.
Qed.

(** The inserted key is found in the slot the insertion returned. *)
Lemma insert_loop_walk fuel t idx key t' x i :
  wf t → uwrap 63 key = key → idx < get_indirect_node t (free_indirect_num_ t) →
  insert_loop fuel t idx key = Done (t', (x, i)) →
  walk t key idx None → walk t' key idx (Some (x, i)).
Proof.
  intros Hwf Hkey. revert idx. induction fuel as [|fuel IH]; intros idx Hidx Hins Hw; [done|].
  pose proof (insert_loop_inserted _ _ _ _ _ _ _ Hwf Hidx Hins) as Hi.
  inversion Hw as [|idx' Hk Hz|idx' r Hk Hz Hw']; subst; cbn in Hins;
    destruct (find_free (h_keys (header t idx)) 0) as [j|] eqn:Hf.
  1, 3: simplify_eq; apply walk_hit; rewrite header_upd_eq; cbn; rewrite Hkey;
    replace (Z.to_nat i) with (Z.to_nat (i - 0)) by (f_equal; lia); by apply find_key_fill.
  - rewrite decide_False in Hins by lia. done_inv Hins. simplify_eq.
    rewrite header_upd_ne by (unfold get_indirect_node in *; lia).
    apply walk_step; rewrite header_set_free, header_upd_eq; [done| |].
    { pose proof (wf_free t Hwf). cbn. lia. }
    apply walk_hit. rewrite header_set_free, header_upd_ne by (cbn; lia).
    unfold get_indirect_node; cbn [logical_num_ set_free upd_header set_next h_next].
    rewrite header_upd_eq. unfold fill_slot. rewrite Hkey. change (Z.to_nat 0) with 0%nat.
    cbn. by rewrite Z.eqb_refl.
  - rewrite decide_True in Hins by done. destruct (wf_next t Hwf idx) as [|[? _]]; [done|].
    assert (Hw2 : walk t' key (get_indirect_node t (h_next (header t idx))) (Some (x, i))).
    { apply IH; auto. unfold get_indirect_node. lia. }
    assert (Heq : header t' idx = header t idx).
    { destruct Hi as [x' i' Hf'|y Hf' Hn' Hy Hlt].
      - apply header_upd_ne. congruence.
      - rewrite header_set_free, !header_upd_ne; [done|lia|congruence]. }
    apply walk_step; rewrite ?Heq; [done..|].
    unfold get_indirect_node in *. by destruct (inserted_frame _ _ _ _ _ Hi) as (_ & -> & _).
Qed.

(** The slot an insertion fills was not reachable for any key before. *)
Lemma inserted_fresh t key t' x i key' idx :
  wf t → inserted t key t' x i → ~ walk t key' idx (Some (x, i)).
Proof.
  intros Hwf Hi [Hl _]%walk_Some_slot. destruct Hi as [x i Hf Hx|y Hf Hn Hy Hlt].
  - apply find_free_Some in Hf as [_ (k & Hk & Hv)]. rewrite Z.sub_0_r in Hk.
    rewrite Hk in Hl. by simplify_eq.
  - rewrite (wf_unused t Hwf) in Hl by lia. done.
Qed.

Lemma inserted_slot_bound t key t' x i : wf t → inserted t key t' x i → 0 ≤ i < 4.
Proof.
  intros Hwf Hi. destruct Hi as [x i Hf Hx|]; [|lia].
  apply find_free_Some in Hf as [Hb _]. rewrite (wf_keys t Hwf) in Hb.
  unfold DRTM_CLUSTER_NUM in Hb. lia.
Qed.

Lemma get_slot_total t key : wf t → ∃ r, get_slot t key = Done r.
Proof. intros Hwf. by apply get_loop_total, distance_head. Qed.

Lemma get_hash_frame t t' key : logical_num_ t' = logical_num_ t → get_hash t' key = get_hash t key.
Proof. unfold get_hash. by intros ->. Qed.

Lemma get_hash_below t key : wf t → get_hash t key < get_indirect_node t (free_indirect_num_ t).
Proof.
  intros Hwf. pose proof (get_hash_bound t key (wf_logical t Hwf)).
  pose proof (wf_free t Hwf). unfold get_indirect_node. lia.
Qed.

(** [get] in terms of the walk. *)
Lemma get_Some t key a :
  wf t → get t key = Done (Some a) ↔
  ∃ x i, walk t key (get_hash t key) (Some (x, i)) ∧ a = slot_addr t x i ∧ 0 ≤ i < 4.
Proof.
  intros Hwf. unfold get. rewrite bind_Done. split.
  - intros ([[x i]|] & Hs & Ha); simplify_eq. apply get_slot_walk in Hs; [|done].
    pose proof (walk_slot_bound _ _ _ _ _ Hwf Hs). eauto.
  - intros (x & i & Hw & -> & _). exists (Some (x, i)). split; [by apply get_slot_walk|done].
Qed.

Lemma get_None t key :
  wf t → get t key = Done None ↔ walk t key (get_hash t key) None.
Proof.
  intros Hwf. unfold get. rewrite bind_Done. rewrite <-get_slot_walk by done. split.
  - by intros ([[]|] & Hs & ?).
  - intros Hs. by exists None.
Qed.

Lemma walk_slot_key t key key' idx idx' x i :
  walk t key idx (Some (x, i)) → walk t key' idx' (Some (x, i)) → key = key'.
Proof. intros [H1 _]%walk_Some_slot [H2 _]%walk_Some_slot. congruence. Qed.

Lemma get_with_insert_cases t key t' x i :
  wf t → get_with_insert t key = Done (t', (x, i)) →
  (t' = t ∧ walk t key (get_hash t key) (Some (x, i))) ∨
  (walk t key (get_hash t key) None ∧ insert t key = Done (t', (x, i)) ∧ inserted t key t' x i).
Proof.
  intros Hwf H. unfold get_with_insert in H. done_inv H. apply get_slot_walk in Hr; [|done].
  destruct r as [s|]; simplify_eq; [by left|right]. split_and!; [done..|].
  eapply insert_loop_inserted; [done|by apply get_hash_below|done].
Qed.

Lemma get_with_insert_frame t key t' x i :
  wf t → get_with_insert t key = Done (t', (x, i)) →
  data_ptr_ t' = data_ptr_ t ∧ logical_num_ t' = logical_num_ t ∧
  indirect_num_ t' = indirect_num_ t ∧ base_off_ t' = base_off_ t.
Proof.
  intros Hwf [[-> _]|(_ & _ & Hi)]%get_with_insert_cases; [done..|by eapply inserted_frame|done].
Qed.

Lemma get_with_insert_wf t key t' s :
  wf t → get_with_insert t key = Done (t', s) → wf t'.
Proof.
  intros Hwf. destruct s as [x i].
  intros [[-> _]|(_ & _ & Hi)]%get_with_insert_cases; [done|by eapply inserted_wf|done].
Qed.

Lemma get_with_insert_walk t key t' x i :
  wf t → uwrap 63 key = key → get_with_insert t key = Done (t', (x, i)) →
  walk t' key (get_hash t' key) (Some (x, i)).
Proof.
  intros Hwf Hkey H. pose proof (get_with_insert_frame _ _ _ _ _ Hwf H) as (_ & Hl & _).
  rewrite (get_hash_frame _ _ _ Hl).
  apply get_with_insert_cases in H as [[-> ?]|(Hw & Hins & _)]; [done| |done].
  eapply insert_loop_walk; eauto. by apply get_hash_below.
Qed.

Lemma slot_addr_frame t t' x i : data_ptr_ t' = data_ptr_ t → slot_addr t' x i = slot_addr t x i.
Proof. unfold slot_addr. by intros ->. Qed.

Lemma get_with_insert_get_other t key t' s key' :
  wf t → uwrap 63 key ≠ key' → get_with_insert t key = Done (t', s) → get t' key' = get t key'.
Proof.
  intros Hwf Hne H. destruct s as [x i].
  pose proof (get_with_insert_wf _ _ _ _ Hwf H) as Hwf'.
  pose proof (get_with_insert_frame _ _ _ _ _ Hwf H) as (Hp & Hl & _).
  apply get_with_insert_cases in H as [[-> _]|(_ & _ & Hi)]; [done| |done].
  destruct (get_slot_total t key' Hwf) as [r Hr].
  apply get_slot_walk in Hr as Hw; [|done].
  eapply inserted_walk_other in Hw; [|done..].
  rewrite <-(get_hash_frame _ _ _ Hl), <-get_slot_walk in Hw by done.
  unfold get. rewrite Hr, Hw. cbn. destruct r as [[]|]; [|done].
  by rewrite (slot_addr_frame _ _ _ _ Hp).
Qed.

Lemma insert_loop_total fuel t idx key :
  wf t → free_indirect_num_ t < indirect_num_ t →
  0 < distance t idx ≤ Z.of_nat fuel → ∃ r, insert_loop fuel t idx key = Done r.
Proof.
  intros Hwf Hroom. revert idx. induction fuel as [|fuel IH]; intros idx Hd; [lia|].
  cbn. destruct (find_free _ _); [eauto|]. case_decide as Hn.
  - pose proof (distance_next t idx Hwf Hn). apply IH. lia.
  - rewrite bool_decide_eq_true_2 by done. cbn. eauto.
Qed.

(** ** [RHash] is a [Memstore] *)

#[export] Instance RHash_Memstore : Memstore ClusterHash := {
  key_ok key := 0 ≤ key < 2 ^ 63;
  ms_inv := wf;
  Get := get;
  GetWithInsert t m key := RHash_GetWithInsert t m key NULL;
}.

Lemma RHash_GetWithInsert_inv t m key val t' m' a :
  RHash_GetWithInsert t m key val = Done (t', m', a) →
  ∃ x i, get_with_insert t key = Done (t', (x, i)) ∧ a = slot_addr t' x i.
Proof.
  unfold RHash_GetWithInsert. intros H. done_inv H. destruct r as [t1 [x i]].
  simplify_eq. eauto.
Qed.

Lemma RHash_GetWithInsert_nodes t m key t' m' a b :
  RHash_GetWithInsert t m key NULL = Done (t', m', a) → same_record (node_at m' b) (node_at m b).
Proof.
  unfold RHash_GetWithInsert. intros H. done_inv H. destruct r as [t1 [x i]]. simplify_eq.
  set (a := slot_addr t' x i). rewrite node_at_upd_eq. case_decide as Hv.
  - rewrite node_at_upd, node_at_upd. case_decide; [subst|reflexivity].
    apply same_record_fields. cbn in *. by rewrite Hv.
  - rewrite node_at_upd. case_decide; [subst|reflexivity]. apply same_record_set_off.
Qed.

Lemma walk_nonneg t key idx x i :
  wf t → 0 ≤ idx → walk t key idx (Some (x, i)) → 0 ≤ x.
Proof.
  intros Hwf Hidx Hw. remember (Some (x, i)) as r eqn:Hr.
  induction Hw as [| |idx r Hk Hn _ IH]; simplify_eq; [done|]. apply IH; [|done].
  destruct (wf_next t Hwf idx) as [|[? _]]; [done|].
  pose proof (wf_logical t Hwf). unfold get_indirect_node. lia.
Qed.

Lemma get_nonnull t key a : wf t → get t key = Done (Some a) → a ≠ NULL.
Proof.
  intros Hwf (x & i & Hw & -> & Hb)%get_Some; [|done].
  apply walk_nonneg in Hw; [|done|by apply get_hash_bound, Hwf].
  pose proof (wf_ptr t Hwf).
  unfold slot_addr, CLUSTER_OFF, sizeof_HeaderNode, sizeof_MemNode, NULL. lia.
Qed.

Lemma get_inj t k1 k2 a :
  wf t → get t k1 = Done (Some a) → get t k2 = Done (Some a) → k1 = k2.
Proof.
  intros Hwf (x & i & Hw & -> & Hb)%get_Some (x' & i' & Hw' & Heq & Hb')%get_Some; [|done..].
  apply slot_addr_inj in Heq as [-> ->]; [|done..]. by eapply walk_slot_key.
Qed.

Lemma GetWithInsert_fresh_RHash t m k k' t' m' a :
  wf t → get t k = Done None → RHash_GetWithInsert t m k NULL = Done (t', m', a) →
  get t k' ≠ Done (Some a).
Proof.
  intros Hwf Hn (x & i & H & ->)%RHash_GetWithInsert_inv (x' & i' & Hw & Heq & Hb')%get_Some; [|done].
  pose proof (get_with_insert_frame _ _ _ _ _ Hwf H) as (Hp & _).
  apply get_None in Hn; [|done].
  apply get_with_insert_cases in H as [[-> Hw']|(_ & _ & Hi)]; [|..|done].
  - by pose proof (walk_det _ _ _ _ _ Hn Hw').
  - rewrite (slot_addr_frame _ _ _ _ Hp) in Heq.
    apply slot_addr_inj in Heq as [-> ->]; [|by eapply inserted_slot_bound|done].
    by eapply inserted_fresh.
Qed.

#[export] Instance RHash_laws : MemstoreLaws ClusterHash.
Proof.
  split; unfold key_ok, ms_inv, Get, GetWithInsert, RHash_Memstore.
  - intros t k Hwf. destruct (get_slot_total t k Hwf) as [r Hr].
    unfold get. rewrite Hr. cbn. eauto.
  - apply get_nonnull.
  - apply get_inj.
  - intros t m k a Hwf (x & i & Hw & -> & Hb)%get_Some; [|done].
    apply get_slot_walk in Hw; [|done].
    unfold RHash_GetWithInsert, get_with_insert. rewrite Hw. cbn. eauto.
  - intros t m k t' m' a Hwf Hk (x & i & H & ->)%RHash_GetWithInsert_inv.
    by eapply get_with_insert_wf.
  - intros t m k t' m' a Hwf Hk (x & i & H & ->)%RHash_GetWithInsert_inv.
    pose proof (get_with_insert_wf _ _ _ _ Hwf H) as Hwf'.
    apply get_with_insert_walk in H; [|done|by apply uwrap_small].
    apply get_Some; [done|]. pose proof (walk_slot_bound _ _ _ _ _ Hwf' H). eauto.
  - intros t m k k' t' m' a Hwf Hk Hk' Hne (x & i & H & ->)%RHash_GetWithInsert_inv.
    eapply get_with_insert_get_other; [done| |done]. by rewrite uwrap_small.
  - intros t m k k' t' m' a Hwf _. by apply GetWithInsert_fresh_RHash.
  - apply RHash_GetWithInsert_nodes.
Qed.

Lemma ClusterHash_new_wf n p t : 0 ≤ n → 0 ≤ p → ClusterHash_new n p = Done t → wf t.
Proof.
  intros Hn Hp H. unfold ClusterHash_new in H. done_inv H. simplify_eq.
  unfold NULL, DRTM_CLUSTER_NUM in *.
  assert (0 < n) by (repeat case_decide; try lia; destruct (decide (n = 0)); subst; cbn in *; lia).
  split; cbn; [lia|lia|lia|done| |done]. intros idx. by left.
Qed.

Lemma remote_get_loop_spec fuel t idx node_off key :
  wf t → node_off = idx * sizeof_HeaderNode + base_off_ t →
  remote_get_loop fuel t idx node_off key =
  match get_loop fuel t idx key with
  | Done (Some (x, i)) => Done (base_off_ t + (slot_addr t x i - data_ptr_ t))
  | Done None => Crash assert_failed
  | Spin => Spin
  | Crash f => Crash f
  end.
Proof.
  intros Hwf. revert idx node_off. induction fuel as [|fuel IH]; intros idx off ->; [done|].
  cbn [remote_get_loop get_loop]. destruct (find_key _ _ _) as [i|] eqn:Hf.
  - f_equal. unfold slot_addr. lia.
  - pose proof (wf_free t Hwf). rewrite bool_decide_eq_true_2 by (destruct (wf_next t Hwf idx); lia).
    cbn. case_decide; [|done]. apply IH. unfold get_indirect_loc, get_indirect_node. lia.
Qed.

(** ** Properties *)

(** C32: while the overflow area has room, [get_with_insert] on a 63-bit key
    terminates with a slot, keeps the table well formed, makes the key visible at
    that slot, leaves every other key where it was, and is idempotent. *)
Theorem get_with_insert_correct t key :
  wf t → 0 ≤ key < 2 ^ 63 → free_indirect_num_ t < indirect_num_ t →
  ∃ t' x i,
    get_with_insert t key = Done (t', (x, i)) ∧ wf t' ∧
    get t' key = Done (Some (slot_addr t' x i)) ∧
    (∀ key', key' ≠ key → get t' key' = get t key') ∧
    get_with_insert t' key = Done (t', (x, i)).
Proof.
  intros Hwf Hk Hroom.
  assert (∃ t' s, get_with_insert t key = Done (t', s)) as (t' & [x i] & H).
  { unfold get_with_insert. destruct (get_slot_total t key Hwf) as [r ->]. cbn.
    destruct r; [eauto|].
    destruct (insert_loop_total (chain_fuel t) t (get_hash t key) key Hwf Hroom
                (distance_head t key Hwf)) as [[] ?]. eauto. }
  assert (Hu : uwrap 63 key = key) by (by apply uwrap_small).
  pose proof (get_with_insert_wf _ _ _ _ Hwf H) as Hwf'.
  pose proof (get_with_insert_walk _ _ _ _ _ Hwf Hu H) as Hw.
  exists t', x, i. split_and!; [done..| | |].
  - apply get_Some; [done|]. pose proof (walk_slot_bound _ _ _ _ _ Hwf' Hw). eauto.
  - intros key' Hne. eapply get_with_insert_get_other; [done| |done]. congruence.
  - apply get_slot_walk in Hw; [|done]. unfold get_with_insert. by rewrite Hw.
Qed.

(** An empty table of eight buckets with two overflow nodes. *)
Definition sample_new : ClusterHash := mkCluster 4096 8 2 1 0 ∅.

Lemma sample_new_wf : wf sample_new.
Proof. by apply (ClusterHash_new_wf 8 4096). Qed.

Lemma get_with_insert_correct_witness :
  ∃ t' x i,
    get_with_insert sample_new 7 = Done (t', (x, i)) ∧ wf t' ∧
    get t' 7 = Done (Some (slot_addr t' x i)) ∧
    (∀ key', key' ≠ 7 → get t' key' = get sample_new key') ∧
    get_with_insert t' 7 = Done (t', (x, i)).
Proof. apply get_with_insert_correct; [apply sample_new_wf | lia | reflexivity]. Defined.

(** C39: a one-sided lookup of a present key returns the RDMA offset of exactly
    the record the local [get] returns the address of; for an absent key it stops
    on its assertion. *)
Theorem remote_get_agrees t key :
  wf t → base_off_ t ≠ 0 →
  remote_get t key =
  match get t key with
  | Done (Some a) => Done (base_off_ t + (a - data_ptr_ t))
  | Done None => Crash assert_failed
  | Spin => Spin
  | Crash f => Crash f
  end.
Proof.
  intros Hwf Hb. unfold remote_get, get, get_slot.
  rewrite bool_decide_eq_true_2 by done. cbn [mbind result_bind verify].
  rewrite (remote_get_loop_spec (chain_fuel t)) by done.
  destruct (get_loop _ _ _ _) as [[[x i]|]| |]; done.
Qed.

Definition sample_remote : ClusterHash :=
  mkCluster 4096 8 2 1 65536 {[ 6 := mkHeader (<[0%nat := mkKey true 7]> (h_keys zero_header)) 0 ]}.

Lemma sample_remote_wf : wf sample_remote.
Proof.
  split; cbn; try lia.
  - intros idx. unfold header, sample_remote; cbn.
    destruct (decide (6 = idx)) as [<-|]; [done|]. by rewrite lookup_singleton_ne.
  - intros idx. left. unfold header, sample_remote; cbn.
    destruct (decide (6 = idx)) as [<-|]; [done|]. by rewrite lookup_singleton_ne.
  - intros idx. unfold get_indirect_node, header; cbn. intros.
    by rewrite lookup_singleton_ne by lia.
Qed.

Lemma remote_get_agrees_witness :
  remote_get sample_remote 7 =
  match get sample_remote 7 with
  | Done (Some a) => Done (base_off_ sample_remote + (a - data_ptr_ sample_remote))
  | Done None => Crash assert_failed
  | Spin => Spin
  | Crash f => Crash f
  end.
Proof. apply remote_get_agrees; [apply sample_remote_wf | done]. Defined.

(** A key of 64 bits is stored truncated to 63 and is therefore never found
    again: after [get_with_insert] a lookup still fails, so every access inserts
    one more record for it. *)
Theorem wide_key_not_found t key t' s :
  wf t → 2 ^ 63 ≤ key → get t key = Done None →
  get_with_insert t key = Done (t', s) → get t' key = Done None.
Proof.
  intros Hwf Hk Hn H. rewrite (get_with_insert_get_other t key t' s key); [done..| |done].
  pose proof (uwrap_bound 63 key). lia.
Qed.

Definition wide_table : ClusterHash :=
  match get_with_insert sample_new (2 ^ 63 + 5) with Done (t, _) => t | _ => sample_new end.

Lemma wide_key_not_found_witness : get wide_table (2 ^ 63 + 5) = Done None.
Proof.
  destruct (get_with_insert sample_new (2 ^ 63 + 5)) as [[t s]| |] eqn:H.
  - replace wide_table with t by (unfold wide_table; by rewrite H).
    apply (wide_key_not_found sample_new (2 ^ 63 + 5) t s);
      [apply sample_new_wf | lia | vm_compute; reflexivity | exact H].
  - vm_compute in H; discriminate.
  - vm_compute in H; discriminate.
Defined.

