(* ===== verification/BPlusTree.v ===== *)
(** * The B+-tree store

    Models src/drtm-dst/src/memstore/memstore_bplustree.{h,cc}: leaves and inner nodes
    with fixed arrays, linked leaves, search, and insertion with its two ways of splitting
    a full node; the iterators are in BPIter.v.  Nodes live in two heaps keyed by
    address; [new] takes the next address.  Arrays are lists of the declared length and
    an index outside of them is an [invalid_access]; entries never written are 0.

    Each operation runs inside one hardware transaction (or under [rtmlock]) in the
    code, so it is one atomic step here.  The thread-local spare node and leaf
    ([dummyval_], [dummyleaf_]) are part of the state; in the code the trees of a thread
    share them.  [DUMMY] and [ENABLE_RTM] are 1,
    profiling and prefetching off, as checked in. *)

From S2P Require Import Prelude Memstore.

Definition MEM_BTREE_M : nat := 15.
Definition NENT : nat := 15.

(** ** Arrays *)

Definition aget {A} (l : list A) (i : nat) : result A :=
  match l !! i with Some x => Done x | None => Crash invalid_access end.
Definition aset {A} (l : list A) (i : nat) (x : A) : result (list A) :=
  if decide (i < length l)%nat then Done (<[i := x]> l) else Crash invalid_access.

(** [while((k < num) && p(keys[k])) ++k;] with [n] entries left. *)
Fixpoint scan (p : Z → bool) (keys : list Z) (k n : nat) : result nat :=
  match n with
  | O => Done k
  | S n => x ← aget keys k; if p x then scan p keys (S k) n else Done k
  end.

(** [for(j = ..; j > k; j--) l[j] = l[j-1];] *)
Fixpoint shift (l : list Z) (j k : nat) : result (list Z) :=
  match j with
  | O => Done l
  | S j' => if decide (k < j)%nat then x ← aget l j'; l ← aset l j x; shift l j' k else Done l
  end.

(** [for(j..) dst[j] = src[off+j];] with [n] rounds left. *)
Fixpoint copy_from (src dst : list Z) (off j n : nat) : result (list Z) :=
  match n with
  | O => Done dst
  | S n => x ← aget src (off + j); dst ← aset dst j x; copy_from src dst off (S j) n
  end.

(** ** Nodes and the tree *)

Record LeafNode := mkLeaf {
  l_num_keys : nat;
  l_keys : list Z;
  l_values : list Z;
  l_left : Z;
  l_right : Z;
  l_seq : Z;
}.

Record InnerNode := mkInner {
  i_num_keys : nat;
  i_keys : list Z;
  i_children : list Z;
}.

Record MemstoreBPlusTree := mkTree {
  root : Z;
  depth : nat;
  leaves : gmap Z LeafNode;
  inners : gmap Z InnerNode;
  brk_ : Z;               (** the next address [new] returns *)
  localinit_ : bool;
  dummyval_ : Z;
  dummyleaf_ : Z;
}.

Definition LeafNode_new : LeafNode :=
  mkLeaf 0 (replicate MEM_BTREE_M 0) (replicate MEM_BTREE_M 0) NULL NULL 0.
Definition InnerNode_new : InnerNode := mkInner 0 (replicate NENT 0) (replicate (S NENT) 0).

Implicit Types (s : MemstoreBPlusTree).

Definition leaf s (a : Z) : result LeafNode :=
  match leaves s !! a with Some l => Done l | None => Crash invalid_access end.
Definition inner s (a : Z) : result InnerNode :=
  match inners s !! a with Some n => Done n | None => Crash invalid_access end.

Definition set_leaf s (a : Z) (l : LeafNode) : MemstoreBPlusTree :=
  mkTree (root s) (depth s) (<[a := l]> (leaves s)) (inners s) (brk_ s) (localinit_ s) (dummyval_ s) (dummyleaf_ s).
Definition set_inner s (a : Z) (n : InnerNode) : MemstoreBPlusTree :=
  mkTree (root s) (depth s) (leaves s) (<[a := n]> (inners s)) (brk_ s) (localinit_ s) (dummyval_ s) (dummyleaf_ s).
Definition set_root s (a : Z) (d : nat) : MemstoreBPlusTree :=
  mkTree a d (leaves s) (inners s) (brk_ s) (localinit_ s) (dummyval_ s) (dummyleaf_ s).
Definition set_dummyval s (a : Z) : MemstoreBPlusTree :=
  mkTree (root s) (depth s) (leaves s) (inners s) (brk_ s) (localinit_ s) a (dummyleaf_ s).
Definition set_dummyleaf s (a : Z) : MemstoreBPlusTree :=
  mkTree (root s) (depth s) (leaves s) (inners s) (brk_ s) (localinit_ s) (dummyval_ s) a.
Definition set_localinit s : MemstoreBPlusTree :=
  mkTree (root s) (depth s) (leaves s) (inners s) (brk_ s) true (dummyval_ s) (dummyleaf_ s).
Definition bump s : MemstoreBPlusTree :=
  mkTree (root s) (depth s) (leaves s) (inners s) (brk_ s + 1) (localinit_ s) (dummyval_ s) (dummyleaf_ s).

(** [MemstoreBPlusTree()], in a process whose allocator is at [base]; the calling
    thread has not used a tree yet. *)
Definition MemstoreBPlusTree_new (base : Z) : MemstoreBPlusTree :=
  mkTree base 0 {[base := LeafNode_new]} ∅ (base + 1) false NULL NULL.

(** [dummyval_ = GetMemNode()] and [dummyleaf_ = new LeafNode()] *)
Definition fill_dummyval s : MemstoreBPlusTree := set_dummyval (bump s) (brk_ s).
Definition fill_dummyleaf s : MemstoreBPlusTree :=
  set_dummyleaf (set_leaf (bump s) (brk_ s) LeafNode_new) (brk_ s).

Definition ThreadLocalInit s : MemstoreBPlusTree :=
  if localinit_ s then s else set_localinit (fill_dummyleaf (fill_dummyval s)).

Definition new_leaf_node s : MemstoreBPlusTree * Z := (set_dummyleaf s NULL, dummyleaf_ s).
Definition new_inner_node s : MemstoreBPlusTree * Z := (set_inner (bump s) (brk_ s) InnerNode_new, brk_ s).

(** ** Search *)

Fixpoint find_leaf s (key a : Z) (d : nat) : result Z :=
  match d with
  | O => Done a
  | S d =>
      n ← inner s a;
      k ← scan (λ x, bool_decide (x ≤ key)) (i_keys n) 0 (i_num_keys n);
      child ← aget (i_children n) k;
      find_leaf s key child d
  end.

Definition FindLeaf s (key : Z) : result Z := find_leaf s key (root s) (depth s).

(** [MemstoreBPlusTree::Get], called outside of a transaction; [None] is the null
    pointer.  On an empty leaf it returns between [RTMTX::Begin] and [RTMTX::End]: the
    hardware transaction, or the fallback lock, stays open. *)
Definition bp_Get s (key : Z) : result (option Z) :=
  a ← FindLeaf s key;
  l ← leaf s a;
  if decide (l_num_keys l = 0%nat) then Crash region_left_open
  else
    k ← scan (λ x, bool_decide (x < key)) (l_keys l) 0 (l_num_keys l);
    if decide (k = l_num_keys l) then Done None
    else
      x ← aget (l_keys l) k;
      if decide (x = key) then v ← aget (l_values l) k; Done (Some v) else Done None.

(** ** Insertion *)

(** The part of [LeafInsert] that makes room: the new sibling, the leaf to insert into
    and the position there.  A full last leaf that gets a larger key stays full. *)
Definition split_leaf s (a : Z) (l : LeafNode) (k : nat) : result (MemstoreBPlusTree * Z * Z * nat) :=
  let '(s, b) := new_leaf_node s in
  n ← leaf s b;
  let threshold := ((MEM_BTREE_M + 1) / 2)%nat in
  '(l, n, toInsert, k) ←
    (if decide (l_right l = NULL ∧ k = l_num_keys l) then
       Done (l, mkLeaf 0 (l_keys n) (l_values n) (l_left n) (l_right n) (l_seq n), b, 0%nat)
     else
       let num := (l_num_keys l - threshold)%nat in
       ks ← copy_from (l_keys l) (l_keys n) threshold 0 num;
       vs ← copy_from (l_values l) (l_values n) threshold 0 num;
       let n := mkLeaf num ks vs (l_left n) (l_right n) (l_seq n) in
       let l := mkLeaf threshold (l_keys l) (l_values l) (l_left l) (l_right l) (l_seq l) in
       Done (if decide (threshold ≤ k)%nat then (l, n, b, (k - threshold)%nat) else (l, n, a, k)));
  s ← (if decide (l_right l ≠ NULL) then
         r ← leaf s (l_right l);
         Done (set_leaf s (l_right l) (mkLeaf (l_num_keys r) (l_keys r) (l_values r) b (l_right r) (l_seq r)))
       else Done s);
  let s := set_leaf s b (mkLeaf (l_num_keys n) (l_keys n) (l_values n) a (l_right l) 0) in
  let s := set_leaf s a (mkLeaf (l_num_keys l) (l_keys l) (l_values l) (l_left l) b (l_seq l)) in
  Done (s, b, toInsert, k).

(** The rest of [LeafInsert]: the spare node becomes the value of the key. *)
Definition leaf_add s (key a new_sibling toInsert : Z) (k : nat) : result (MemstoreBPlusTree * Z * Z) :=
  t ← leaf s toInsert;
  ks ← shift (l_keys t) (l_num_keys t) k;
  vs ← shift (l_values t) (l_num_keys t) k;
  ks ← aset ks k key;
  vs ← aset vs k (dummyval_ s);
  let s := set_leaf s toInsert (mkLeaf (l_num_keys t + 1) ks vs (l_left t) (l_right t) (l_seq t)) in
  _ ← verify (bool_decide (dummyval_ s ≠ NULL));
  let val := dummyval_ s in
  let s := set_dummyval s NULL in
  l ← leaf s a;
  Done (set_leaf s a (mkLeaf (l_num_keys l) (l_keys l) (l_values l) (l_left l) (l_right l) (u64 (l_seq l + 1))),
        new_sibling, val).

(** [MemstoreBPlusTree::LeafInsert]: the new sibling (or null) and the node of the key. *)
Definition LeafInsert s (key a : Z) : result (MemstoreBPlusTree * Z * Z) :=
  l ← leaf s a;
  k ← scan (λ x, bool_decide (x < key)) (l_keys l) 0 (l_num_keys l);
  hit ← (if decide (k < l_num_keys l)%nat then x ← aget (l_keys l) k; Done (bool_decide (x = key))
         else Done false);
  if (hit : bool) then
    v ← aget (l_values l) k;
    _ ← verify (bool_decide (v ≠ NULL));
    Done (s, NULL, v)
  else if decide (l_num_keys l = MEM_BTREE_M) then
    '(s, new_sibling, toInsert, k) ← split_leaf s a l k;
    leaf_add s key a new_sibling toInsert k
  else leaf_add s key a NULL a k.

(** The part of [InnerInsert] that both of its branches share: enter [child] with the
    separator [sep] behind position [k] of the node [a].  [alone] says that the child
    was appended behind the last one, [cmp] is the key that decides the side of a split.
    Position [None] is the code's [k = -1]: only [children[0]] is set.  The new sibling
    (or null) and its separator. *)
Definition insert_child s (a : Z) (k : nat) (alone : bool) (sep cmp child : Z)
  : result (MemstoreBPlusTree * Z * Z) :=
  n ← inner s a;
  '(s, new_sibling, toInsert, k, upKey) ←
    (if decide (i_num_keys n = NENT) then
       let '(s, b) := new_inner_node s in
       m ← inner s b;
       let treshold := ((NENT + 1) / 2)%nat in
       '(s, toInsert, k, upKey) ←
         (if (alone : bool) then
            Done (set_inner s b (mkInner 0 (i_keys m) (i_children m)), b, None, sep)
          else
            let num := (i_num_keys n - treshold)%nat in
            ks ← copy_from (i_keys n) (i_keys m) treshold 0 num;
            cs ← copy_from (i_children n) (i_children m) treshold 0 num;
            last_child ← aget (i_children n) (i_num_keys n);
            cs ← aset cs num last_child;
            let s := set_inner s b (mkInner num ks cs) in
            let s := set_inner s a (mkInner (treshold - 1) (i_keys n) (i_children n)) in
            upKey ← aget (i_keys n) (treshold - 1);
            if decide (upKey ≤ cmp) then
              Done (s, b, Some (if decide (treshold ≤ k)%nat then (k - treshold)%nat else 0%nat), upKey)
            else Done (s, a, Some k, upKey));
       m ← inner s b;
       ks ← aset (i_keys m) (NENT - 1) upKey;
       Done (set_inner s b (mkInner (i_num_keys m) ks (i_children m)), b, toInsert, k, upKey)
     else Done (s, NULL, a, Some k, 0));
  t ← inner s toInsert;
  match k with
  | Some k =>
      ks ← shift (i_keys t) (i_num_keys t) k;
      cs ← shift (i_children t) (i_num_keys t + 1) (k + 1);
      ks ← aset ks k sep;
      cs ← aset cs (k + 1) child;
      Done (set_inner s toInsert (mkInner (i_num_keys t + 1) ks cs), new_sibling, upKey)
  | None =>
      cs ← aset (i_children t) 0 child;
      Done (set_inner s toInsert (mkInner (i_num_keys t) (i_keys t) cs), new_sibling, upKey)
  end.

(** A new root above the old one and its new sibling. *)
Definition grow_root s (new_sibling upKey : Z) : result MemstoreBPlusTree :=
  let '(s, r) := new_inner_node s in
  n ← inner s r;
  ks ← aset (i_keys n) 0 upKey;
  cs ← aset (i_children n) 0 (root s);
  cs ← aset cs 1 new_sibling;
  Done (set_root (set_inner s r (mkInner 1 ks cs)) r (depth s + 1)).

(** [MemstoreBPlusTree::InnerInsert] *)
Fixpoint InnerInsert s (key a : Z) (d : nat) : result (MemstoreBPlusTree * Z * Z) :=
  match d with
  | O => Crash invalid_access
  | S d' =>
      n ← inner s a;
      k ← scan (λ x, bool_decide (x ≤ key)) (i_keys n) 0 (i_num_keys n);
      child ← aget (i_children n) k;
      '(s, new_sibling, upKey, val) ←
        match d' with
        | O =>
            '(s, new_leaf, val) ← LeafInsert s key child;
            if decide (new_leaf = NULL) then Done (s, NULL, 0, val)
            else
              nl ← leaf s new_leaf;
              sep ← aget (l_keys nl) 0;
              '(s, b, u) ← insert_child s a k (bool_decide (l_num_keys nl = 1%nat)) sep sep new_leaf;
              Done (s, b, u, val)
        | _ =>
            '(s, new_inner, val) ← InnerInsert s key child d';
            if decide (new_inner = NULL) then Done (s, NULL, 0, val)
            else
              ni ← inner s new_inner;
              sep ← aget (i_keys ni) (NENT - 1);
              '(s, b, u) ← insert_child s a k (bool_decide (i_num_keys ni = 0%nat)) sep key new_inner;
              Done (s, b, u, val)
        end;
      s ← (if decide (d = depth s ∧ new_sibling ≠ NULL) then grow_root s new_sibling upKey else Done s);
      Done (s, new_sibling, val)
  end.

(** [MemstoreBPlusTree::Insert_rtm] *)
Definition Insert_rtm s (key : Z) : result (MemstoreBPlusTree * Z) :=
  s ← (if decide (root s = NULL) then
         let '(s, b) := new_leaf_node s in
         l ← leaf s b;
         Done (set_root (set_leaf s b (mkLeaf (l_num_keys l) (l_keys l) (l_values l) NULL NULL 0)) b 0)
       else Done s);
  if decide (depth s = 0%nat) then
    '(s, new_leaf, val) ← LeafInsert s key (root s);
    if decide (new_leaf = NULL) then Done (s, val)
    else
      nl ← leaf s new_leaf;
      sep ← aget (l_keys nl) 0;
      s ← grow_root s new_leaf sep;
      Done (s, val)
  else
    '(s, _, val) ← InnerInsert s key (root s) (depth s);
    Done (s, val).

(** [MemstoreBPlusTree::_GetWithInsert]: [val] goes into the spare node before the
    insertion, and out of it again when it was not used. *)
Definition bp_GetWithInsert s (m : NodeMem) (key val : Z) : result (MemstoreBPlusTree * NodeMem * Z) :=
  let s := ThreadLocalInit s in
  let m := upd_node m (dummyval_ s) (set_value val) in
  '(s, value) ← Insert_rtm s key;
  let '(s, m) := if decide (dummyval_ s = NULL) then (fill_dummyval s, m)
                 else (s, upd_node m (dummyval_ s) (set_value NULL)) in
  let s := if decide (dummyleaf_ s = NULL) then fill_dummyleaf s else s in
  Done (s, m, value).

(** [MemstoreBPlusTree::Put] *)
Definition bp_Put s (m : NodeMem) (key val : Z) : result (MemstoreBPlusTree * NodeMem * Z) :=
  '(s, m, a) ← bp_GetWithInsert (ThreadLocalInit s) m key NULL;
  let m := upd_node m a (set_value val) in
  let m := upd_node m a (set_seq 0) in
  Done (s, m, a).

(** [MemstoreBPlusTree::GetWithDelete] prints a message and leaves the program. *)
Definition GetWithDelete (key : Z) : result Z := Crash exit_called.
