(* ===== verification/BPTree.v ===== *)
(** * The shape of a B+-tree

    Arrays, the representation predicate of BPlusTree.v's heaps, search and the frame
    rules.  [tree s d e a lo hi L I]: below address [a] hangs a tree of depth [d] with
    keys from [lo] up to but not including [hi], whose leaves are [L] from left to
    right and whose inner nodes are [I]; [e] says that it ends at the right edge of
    the whole tree, where nodes may be sparse. *)

From S2P Require Import Prelude Memstore BPlusTree.

(** ** Arrays *)

Definition ins {A} (k : nat) (x : A) (l : list A) : list A := take k l ++ x :: drop k l.

Lemma length_ins {A} k (x : A) l : length (ins k x l) = S (length l).
Proof. unfold ins. rewrite length_app. cbn. rewrite length_take, length_drop. lia. Qed.

Lemma elem_of_ins {A} k (x y : A) l : y ∈ ins k x l ↔ y = x ∨ y ∈ l.
Proof.
  unfold ins. rewrite elem_of_app, elem_of_cons. rewrite <-(take_drop k l) at 3. rewrite elem_of_app. tauto.
Qed.

Lemma ins_app_l {A} k (x : A) l1 l2 : (k ≤ length l1)%nat → ins k x (l1 ++ l2) = ins k x l1 ++ l2.
Proof. intros. unfold ins. rewrite take_app_le, drop_app_le by lia. by rewrite <-app_assoc. Qed.

Lemma ins_app_r {A} k (x : A) l1 l2 :
  (length l1 ≤ k)%nat → ins k x (l1 ++ l2) = l1 ++ ins (k - length l1) x l2.
Proof. intros. unfold ins. rewrite take_app_ge, drop_app_ge by lia. by rewrite <-app_assoc. Qed.

Lemma lookup_ins {A} k (x : A) l i :
  (k ≤ length l)%nat →
  ins k x l !! i = if decide (i < k)%nat then l !! i else if decide (i = k) then Some x else l !! (i - 1)%nat.
Proof.
  intros Hk. unfold ins. rewrite lookup_app, length_take, Nat.min_l by lia. case_decide as Hi.
  - rewrite lookup_take_lt by done. destruct (l !! i) eqn:E; [done|]. apply lookup_ge_None in E. lia.
  - rewrite lookup_take_ge by lia. rewrite lookup_cons. case_decide as Hik.
    + subst. by rewrite Nat.sub_diag.
    + destruct (i - k)%nat as [|j] eqn:E; [lia|]. rewrite lookup_drop. f_equal. lia.
Qed.

Lemma zip_ins {A B} k (x : A) (y : B) l1 l2 :
  length l1 = length l2 → zip (ins k x l1) (ins k y l2) = ins k (x, y) (zip l1 l2).
Proof.
  intros Hl. unfold ins. rewrite zip_with_app by (rewrite !length_take; lia). cbn.
  rewrite zip_with_take, zip_with_drop. done.
Qed.

Lemma aget_Some {A} (l : list A) i x : l !! i = Some x → aget l i = Done x.
Proof. unfold aget. by intros ->. Qed.

Lemma aset_lt {A} (l : list A) i x : (i < length l)%nat → aset l i x = Done (<[i := x]> l).
Proof. intros. unfold aset. by rewrite decide_True. Qed.

Lemma scan_spec p keys k n :
  (k + n ≤ length keys)%nat →
  ∃ j, scan p keys k n = Done j ∧ (k ≤ j ≤ k + n)%nat ∧
    (∀ i x, (k ≤ i < j)%nat → keys !! i = Some x → p x = true) ∧
    ((j < k + n)%nat → ∃ x, keys !! j = Some x ∧ p x = false).
Proof.
  revert k. induction n as [|n IH]; intros k Hk; cbn.
  { exists k. split_and!; [done|lia..|intros; lia|lia]. }
  destruct (lookup_lt_is_Some_2 keys k) as [x Hx]; [lia|]. rewrite (aget_Some _ _ _ Hx). cbn.
  destruct (p x) eqn:Hp.
  - destruct (IH (S k)) as (j & -> & ? & Hall & Hend); [lia|]. exists j. split_and!; [done|lia..| |].
    + intros i y Hi Hy. destruct (decide (i = k)) as [->|]; [congruence|]. apply (Hall i); [lia|done].
    + intros. apply Hend. lia.
  - exists k. split_and!; [done|lia..|intros; lia|]. intros _. eauto.
Qed.

Lemma shift_spec l j k :
  (k ≤ j < length l)%nat →
  ∃ l', shift l j k = Done l' ∧ length l' = length l ∧
    ∀ i, l' !! i = if decide (k < i ≤ j)%nat then l !! (i - 1)%nat else l !! i.
Proof.
  revert l. induction j as [|j IH]; intros l Hj; cbn [shift].
  { exists l. split_and!; [done..|]. intros i. by rewrite decide_False by lia. }
  destruct (decide (k < S j)%nat) as [Hk|Hk].
  - destruct (lookup_lt_is_Some_2 l j) as [x Hx]; [lia|]. rewrite (aget_Some _ _ _ Hx). cbn [mbind result_bind].
    rewrite aset_lt by lia. cbn [mbind result_bind].
    destruct (IH (<[S j := x]> l)) as (l' & -> & Hl & Hlook); [rewrite length_insert; lia|].
    rewrite length_insert in Hl. exists l'. split_and!; [done..|]. intros i. rewrite Hlook.
    destruct (decide (i = S j)) as [->|Hi].
    + rewrite decide_False by lia. rewrite decide_True by lia. rewrite list_lookup_insert_eq by lia.
      by replace (S j - 1)%nat with j by lia.
    + destruct (decide (k < i ≤ j)%nat).
      * by rewrite decide_True, list_lookup_insert_ne by lia.
      * by rewrite decide_False, list_lookup_insert_ne by lia.
  - exists l. split_and!; [done..|]. intros i. by rewrite decide_False by lia.
Qed.

(** Shift and store: the entry is inserted into the first [j]. *)
Lemma shift_ins l j k x :
  (k ≤ j < length l)%nat →
  ∃ l', shift l j k = Done l' ∧ length l' = length l ∧ take (S j) (<[k := x]> l') = ins k x (take j l) ∧
    ∀ i, (j < i)%nat → <[k := x]> l' !! i = l !! i.
Proof.
  intros Hj. destruct (shift_spec l j k Hj) as (l' & -> & Hl & Hlook). exists l'. split_and!; [done..| |].
  2: { intros i Hi. by rewrite list_lookup_insert_ne, Hlook, decide_False by lia. }
  apply list_eq. intros i. rewrite lookup_ins by (rewrite length_take; lia).
  destruct (decide (i < S j)%nat) as [Hi|Hi].
  - rewrite lookup_take_lt by done. case_decide.
    + rewrite list_lookup_insert_ne, Hlook, decide_False, lookup_take_lt by lia. done.
    + case_decide as Hik.
      * subst. by rewrite list_lookup_insert_eq by lia.
      * rewrite list_lookup_insert_ne, Hlook, decide_True, lookup_take_lt by lia. done.
  - rewrite lookup_take_ge by lia. rewrite decide_False, decide_False, lookup_take_ge by lia. done.
Qed.

Lemma copy_from_lookup src dst off j n :
  (off + j + n ≤ length src)%nat → (j + n ≤ length dst)%nat →
  ∃ dst', copy_from src dst off j n = Done dst' ∧ length dst' = length dst ∧
    ∀ i, dst' !! i = if decide (j ≤ i < j + n)%nat then src !! (off + i)%nat else dst !! i.
Proof.
  revert dst j. induction n as [|n IH]; intros dst j Hs Hd; cbn [copy_from].
  { exists dst. split_and!; [done..|]. intros i. by rewrite decide_False by lia. }
  destruct (lookup_lt_is_Some_2 src (off + j)) as [x Hx]; [lia|]. rewrite (aget_Some _ _ _ Hx). cbn [mbind result_bind].
  rewrite aset_lt by lia. cbn [mbind result_bind].
  destruct (IH (<[j := x]> dst) (S j)) as (dst' & -> & Hl & Hlook); [lia|rewrite length_insert; lia|].
  rewrite length_insert in Hl. exists dst'. split_and!; [done..|]. intros i. rewrite Hlook.
  destruct (decide (i = j)) as [->|Hi].
  - rewrite decide_False by lia. rewrite decide_True by lia. by rewrite list_lookup_insert_eq by lia.
  - rewrite list_lookup_insert_ne by lia. destruct (decide (S j ≤ i < S j + n)%nat); [by rewrite decide_True by lia|].
    by rewrite decide_False by lia.
Qed.

Lemma copy_from_take src dst off n :
  (off + n ≤ length src)%nat → (n ≤ length dst)%nat →
  ∃ dst', copy_from src dst off 0 n = Done dst' ∧ length dst' = length dst ∧ take n dst' = take n (drop off src).
Proof.
  intros Hs Hd. destruct (copy_from_lookup src dst off 0 n) as (dst' & -> & Hl & Hlook); [lia..|].
  exists dst'. split_and!; [done..|]. apply list_eq. intros i. destruct (decide (i < n)%nat).
  - rewrite !lookup_take_lt, Hlook, decide_True, lookup_drop by lia. done.
  - by rewrite !lookup_take_ge by lia.
Qed.

(** ** Sorted lists *)

Abbreviation sorted := (StronglySorted Z.lt).

Lemma sorted_lookup l i j x y : sorted l → (i < j)%nat → l !! i = Some x → l !! j = Some y → x < y.
Proof.
  intros Hs. revert i j. induction Hs as [|z l Hs IH Hall]; intros i j Hij Hi Hj; [done|].
  destruct j as [|j]; [lia|]. cbn in Hj. destruct i as [|i]; cbn in Hi.
  - injection Hi as ->. apply (proj1 (Forall_forall _ _) Hall). by eapply list_elem_of_lookup_2.
  - eapply IH; [|done..]. lia.
Qed.

Lemma sorted_app l1 l2 :
  sorted l1 → sorted l2 → (∀ x y, x ∈ l1 → y ∈ l2 → x < y) → sorted (l1 ++ l2).
Proof.
  intros H1 H2 H. induction H1 as [|x l1 H1 IH Hall]; [done|]. cbn. constructor.
  - apply IH. intros. apply H; [by right|done].
  - apply Forall_app. split; [done|]. apply Forall_forall. intros y Hy. apply H; [by left|done].
Qed.

Lemma sorted_app_inv l1 l2 :
  sorted (l1 ++ l2) → sorted l1 ∧ sorted l2 ∧ (∀ x y, x ∈ l1 → y ∈ l2 → x < y).
Proof.
  induction l1 as [|x l1 IH]; cbn.
  - intros. split_and!; [constructor|done|]. intros ? ? []%not_elem_of_nil.
  - intros Hs. apply StronglySorted_inv in Hs as [Hs Hall]. apply Forall_app in Hall as [Ha1 Ha2].
    destruct (IH Hs) as (? & ? & Hlt). split_and!; [by constructor|done|]. intros y z [->|Hy]%elem_of_cons Hz.
    + by apply (proj1 (Forall_forall _ _) Ha2).
    + by apply Hlt.
Qed.

Lemma sorted_ins l k x :
  sorted l → (∀ y, y ∈ take k l → y < x) → (∀ y, y ∈ drop k l → x < y) → sorted (ins k x l).
Proof.
  intros Hs H1 H2. rewrite <-(take_drop k l) in Hs. apply sorted_app_inv in Hs as (Ht & Hd & Hlt).
  apply sorted_app; [done| |].
  - constructor; [done|]. apply Forall_forall, H2.
  - intros y z Hy [->|Hz]%elem_of_cons; [by apply H1|]. by apply Hlt.
Qed.

Lemma rising_NoDup l : sorted l → NoDup l.
Proof.
  induction 1 as [|x l _ IH Hall]; constructor; [|done]. intros Hin.
  apply (proj1 (Forall_forall _ _) Hall) in Hin. lia.
Qed.

(** The position a search stops at. *)
Lemma sorted_scan_lt l key k :
  sorted l → (k ≤ length l)%nat →
  (∀ i x, (i < k)%nat → l !! i = Some x → x < key) → (∀ x, l !! k = Some x → key ≤ x) →
  (∀ y, y ∈ take k l → y < key) ∧ (∀ y, y ∈ drop k l → key ≤ y).
Proof.
  intros Hs Hk Hlt Hge. split; intros y (i & Hi)%list_elem_of_lookup_1.
  - apply lookup_take_Some in Hi as [Hi ?]. by eapply Hlt.
  - rewrite lookup_drop in Hi. destruct i as [|i]; [apply Hge; by rewrite Nat.add_0_r in Hi|].
    destruct (lookup_lt_is_Some_2 l k) as [x Hx]; [apply lookup_lt_Some in Hi; lia|].
    specialize (Hge x Hx). assert (x < y) by (eapply sorted_lookup; [done| |done|done]; lia). lia.
Qed.

(** ** Leaves *)

Definition lkeys (l : LeafNode) : list Z := take (l_num_keys l) (l_keys l).
Definition lvals (l : LeafNode) : list Z := take (l_num_keys l) (l_values l).

Record leaf_ok (e : bool) (l : LeafNode) (lo hi : Z) : Prop := {
  lf_keys : length (l_keys l) = MEM_BTREE_M;
  lf_values : length (l_values l) = MEM_BTREE_M;
  lf_num : (l_num_keys l ≤ MEM_BTREE_M)%nat;
  lf_fill : e = false → (7 ≤ l_num_keys l)%nat;
  lf_sorted : sorted (lkeys l);
  lf_bounds x : x ∈ lkeys l → lo ≤ x < hi;
  lf_vals v : v ∈ lvals l → v ≠ NULL;
}.

Lemma length_lkeys e l lo hi : leaf_ok e l lo hi → length (lkeys l) = l_num_keys l.
Proof. intros []. unfold lkeys. rewrite length_take. lia. Qed.
Lemma length_lvals e l lo hi : leaf_ok e l lo hi → length (lvals l) = l_num_keys l.
Proof. intros []. unfold lvals. rewrite length_take. lia. Qed.

(** Two leaves that hold the same entries, in the same arrays. *)
Definition same_data (l l' : LeafNode) : Prop :=
  l_num_keys l' = l_num_keys l ∧ l_keys l' = l_keys l ∧ l_values l' = l_values l.

Lemma leaf_ok_same e l l' lo hi : same_data l l' → leaf_ok e l lo hi → leaf_ok e l' lo hi.
Proof. destruct l, l'. intros (? & ? & ?) []. cbn in *. subst. by split. Qed.

(** ** Forests: the children of an inner node *)

Section forest.
Implicit Types (P : bool → Z → Z → Z → list Z → list Z → Prop).

Fixpoint forest P (e : bool) (lo : Z) (ks ps : list Z) (hi : Z) (L I : list Z) : Prop :=
  match ks, ps with
  | [], [p] => lo < hi ∧ P e p lo hi L I
  | k :: ks, p :: ps =>
      lo < k ∧ ∃ L1 I1 L2 I2, P false p lo k L1 I1 ∧ forest P e k ks ps hi L2 I2 ∧ L = L1 ++ L2 ∧ I = I1 ++ I2
  | _, _ => False
  end.

Lemma forest_length P e lo ks ps hi L I : forest P e lo ks ps hi L I → length ps = S (length ks).
Proof.
  revert lo ps L I. induction ks as [|k ks IH]; intros lo [|p [|p' ps]] L I; cbn; try done.
  - intros (_ & ? & ? & ? & ? & _ & H & _). specialize (IH _ _ _ _ H). cbn in *. lia.
  - intros (_ & ? & ? & ? & ? & _ & H & _). specialize (IH _ _ _ _ H). cbn in *. lia.
Qed.

Lemma forest_sorted P e lo ks ps hi L I :
  forest P e lo ks ps hi L I → sorted ks ∧ (∀ k, k ∈ ks → lo < k < hi) ∧ lo < hi.
Proof.
  revert lo ps L I. induction ks as [|k ks IH]; intros lo ps L I Hf.
  - destruct ps as [|p [|]]; [done| |done]. destruct Hf. split_and!; [constructor| |done]. intros ? []%not_elem_of_nil.
  - destruct ps as [|p ps]; [done|]. destruct Hf as (Hlo & ? & ? & ? & ? & _ & Hf & _).
    destruct (IH _ _ _ _ Hf) as (Hs & Hb & Hlt). split_and!; [|..].
    + constructor; [done|]. apply Forall_forall. intros y Hy. by apply Hb.
    + intros y [->|Hy]%elem_of_cons; [lia|]. specialize (Hb y Hy). lia.
    + lia.
Qed.

(** Cut and join at a separator. *)
Lemma forest_app P e lo ks1 k ks2 ps1 ps2 hi L I :
  length ps1 = S (length ks1) →
  forest P e lo (ks1 ++ k :: ks2) (ps1 ++ ps2) hi L I ↔
  ∃ L1 I1 L2 I2, forest P false lo ks1 ps1 k L1 I1 ∧ forest P e k ks2 ps2 hi L2 I2 ∧ L = L1 ++ L2 ∧ I = I1 ++ I2.
Proof.
  revert lo ps1 L I. induction ks1 as [|x ks1 IH]; intros lo ps1 L I Hlen.
  - destruct ps1 as [|p [|]]; [done| |done]. cbn. split.
    + intros (? & L1 & I1 & L2 & I2 & ? & ? & -> & ->). by exists L1, I1, L2, I2.
    + intros (L1 & I1 & L2 & I2 & [? ?] & ? & -> & ->). split; [done|]. by exists L1, I1, L2, I2.
  - destruct ps1 as [|p ps1]; [done|]. cbn in Hlen |- *. injection Hlen as Hlen. split.
    + intros (? & L1 & I1 & L2 & I2 & Hp & Hf & -> & ->). apply IH in Hf as (L3 & I3 & L4 & I4 & ? & ? & -> & ->); [|done].
      exists (L1 ++ L3), (I1 ++ I3), L4, I4. rewrite !app_assoc. split; [split; [done|]; by exists L1, I1, L3, I3|done].
    + intros (L1 & I1 & L2 & I2 & (? & L3 & I3 & L4 & I4 & ? & ? & -> & ->) & ? & -> & ->). split; [done|].
      exists L3, I3, (L4 ++ L2), (I4 ++ I2). rewrite !app_assoc. split_and!; [done| |done..]. apply IH; [done|]. by exists L4, I4, L2, I2.
Qed.

(** The bounds of the child at position [k]. *)
Definition lower (lo : Z) (ks : list Z) (k : nat) : Z := match k with O => lo | S j => default lo (ks !! j) end.
Definition upper (ks : list Z) (hi : Z) (k : nat) : Z := default hi (ks !! k).

Lemma lower_upper_le P e lo ks ps hi L I k :
  forest P e lo ks ps hi L I → lo ≤ lower lo ks k ∧ upper ks hi k ≤ hi.
Proof.
  intros (_ & Hb & _)%forest_sorted. unfold lower, upper. split.
  - destruct k as [|j]; [lia|]. destruct (ks !! j) as [x|] eqn:Hx; cbn; [|lia].
    apply list_elem_of_lookup_2, Hb in Hx. lia.
  - destruct (ks !! k) as [x|] eqn:Hx; cbn; [|lia]. apply list_elem_of_lookup_2, Hb in Hx. lia.
Qed.

Lemma forest_impl P P' e lo ks ps hi L I :
  (∀ e p lo hi L1 I1, P e p lo hi L1 I1 → L1 ⊆ L → I1 ⊆ I → P' e p lo hi L1 I1) →
  forest P e lo ks ps hi L I → forest P' e lo ks ps hi L I.
Proof.
  revert lo ps L I. induction ks as [|k ks IH]; intros lo ps L I Himp.
  - destruct ps as [|p [|]]; [done| |done]. intros [? ?]. split; [done|]. by apply Himp.
  - destruct ps as [|p ps]; [done|]. intros (? & L1 & I1 & L2 & I2 & Hp & Hf & -> & ->). split; [done|].
    exists L1, I1, L2, I2. split_and!; [|..|done|done].
    + apply Himp; [done|set_solver..].
    + apply IH; [|done]. intros. apply Himp; [done|set_solver..].
Qed.

(** Focus on one child: it can be replaced by a child with the same bounds, by two
    children with a separator in between, or, at the right end, cut off at a smaller
    bound. *)
Record focus P (e : bool) (lo : Z) (ks ps : list Z) (hi : Z) (k : nat) (p : Z)
    (L1 I1 L2 I2 L3 I3 : list Z) : Prop := {
  fo_child : P (e && bool_decide (k = length ks)) p (lower lo ks k) (upper ks hi k) L2 I2;
  fo_lt : lower lo ks k < upper ks hi k;
  fo_one P' L2' I2' :
    (∀ e p lo hi L I, P e p lo hi L I → L ⊆ L1 ++ L3 → I ⊆ I1 ++ I3 → P' e p lo hi L I) →
    P' (e && bool_decide (k = length ks)) p (lower lo ks k) (upper ks hi k) L2' I2' →
    forest P' e lo ks ps hi (L1 ++ L2' ++ L3) (I1 ++ I2' ++ I3);
  fo_two P' u p' La Ia Lb Ib :
    (∀ e p lo hi L I, P e p lo hi L I → L ⊆ L1 ++ L3 → I ⊆ I1 ++ I3 → P' e p lo hi L I) →
    lower lo ks k < u < upper ks hi k →
    P' false p (lower lo ks k) u La Ia →
    P' (e && bool_decide (k = length ks)) p' u (upper ks hi k) Lb Ib →
    forest P' e lo (ins k u ks) (ins (S k) p' ps) hi (L1 ++ (La ++ Lb) ++ L3) (I1 ++ (Ia ++ Ib) ++ I3);
  fo_last : k = length ks → L3 = [] ∧ I3 = [];
  fo_cut P' u La Ia :
    k = length ks →
    (∀ e p lo hi L I, P e p lo hi L I → L ⊆ L1 ++ L3 → I ⊆ I1 ++ I3 → P' e p lo hi L I) →
    lower lo ks k < u → P' false p (lower lo ks k) u La Ia →
    forest P' false lo ks ps u (L1 ++ La) (I1 ++ Ia);
  fo_bounds (K : Z → list Z) :
    (∀ e p lo hi L I, P e p lo hi L I → ∀ a x, a ∈ L → x ∈ K a → lo ≤ x < hi) →
    (∀ a x, a ∈ L1 → x ∈ K a → lo ≤ x < lower lo ks k) ∧ (∀ a x, a ∈ L3 → x ∈ K a → upper ks hi k ≤ x < hi);
  fo_more : (∀ e p lo hi L I, P e p lo hi L I → L ≠ []) → k ≠ length ks → L3 ≠ [];
}.

Lemma forest_nonempty P e lo ks ps hi L I :
  (∀ e p lo hi L I, P e p lo hi L I → L ≠ []) → forest P e lo ks ps hi L I → L ≠ [].
Proof.
  intros HP. destruct ks, ps as [|p [|]]; cbn; try done.
  - intros [_ Hp]. by eapply HP.
  - intros (_ & ? & ? & ? & ? & Hp & _ & -> & _). apply HP in Hp. by intros [? _]%app_eq_nil.
  - intros (_ & ? & ? & ? & ? & Hp & _ & -> & _). apply HP in Hp. by intros [? _]%app_eq_nil.
Qed.

Lemma forest_bounds P e lo ks ps hi L I (K : Z → list Z) :
  (∀ e p lo hi L I, P e p lo hi L I → ∀ a x, a ∈ L → x ∈ K a → lo ≤ x < hi) →
  forest P e lo ks ps hi L I → ∀ a x, a ∈ L → x ∈ K a → lo ≤ x < hi.
Proof.
  intros HK. revert lo ps L I. induction ks as [|k ks IH]; intros lo ps L I Hf a x Ha Hx.
  - destruct ps as [|p [|]]; [done| |done]. destruct Hf. by eapply HK.
  - destruct ps as [|p ps]; [done|]. destruct Hf as (? & L1 & I1 & L2 & I2 & HP & Hf & -> & ->).
    pose proof (forest_sorted _ _ _ _ _ _ _ _ Hf) as (_ & _ & ?). apply elem_of_app in Ha as [Ha|Ha].
    + specialize (HK _ _ _ _ _ _ HP a x Ha Hx). lia.
    + specialize (IH _ _ _ _ Hf a x Ha Hx). lia.
Qed.

Lemma forest_focus P e lo ks ps hi L I k p :
  forest P e lo ks ps hi L I → ps !! k = Some p →
  ∃ L1 I1 L2 I2 L3 I3, L = L1 ++ L2 ++ L3 ∧ I = I1 ++ I2 ++ I3 ∧ focus P e lo ks ps hi k p L1 I1 L2 I2 L3 I3.
Proof.
  revert lo ps L I k. induction ks as [|x ks IH]; intros lo ps L I k Hf Hp.
  - destruct ps as [|q [|]]; [done| |done]. destruct k as [|k]; [|done]. injection Hp as ->. destruct Hf as [Hlt HP].
    exists [], [], L, I, [], []. rewrite !app_nil_r. split_and!; [done..|]. split; cbn; rewrite ?andb_true_r; try done.
    + intros P' L2' I2' _ HP'. rewrite !app_nil_r. done.
    + intros P' u p' La Ia Lb Ib _ [? ?] Ha Hb. rewrite !app_nil_r. split; [done|]. exists La, Ia, Lb, Ib. done.
    + intros K _. split; intros ? ? []%not_elem_of_nil.
  - destruct ps as [|q ps]; [done|]. destruct Hf as (Hlt & L1 & I1 & L2 & I2 & HP & Hf & -> & ->).
    destruct k as [|k].
    + injection Hp as ->. exists [], [], L1, I1, L2, I2. split_and!; [done..|].
      assert (Hsub : ∀ P', (∀ e p lo hi L I, P e p lo hi L I → L ⊆ [] ++ L2 → I ⊆ [] ++ I2 → P' e p lo hi L I) →
                forest P' e x ks ps hi L2 I2) by (intros P' Hi; by eapply forest_impl).
      split; cbn; rewrite ?andb_false_r; try done.
      * intros P' L2' I2' Hi HP'. split; [done|]. exists L2', I2', L2, I2. split_and!; [done|by apply Hsub|done..].
      * intros P' u p' La Ia Lb Ib Hi [? ?] Ha Hb. split; [done|]. rewrite <-!app_assoc. exists La, Ia, (Lb ++ L2), (Ib ++ I2).
        split_and!; [done| |done..]. split; [done|]. exists Lb, Ib, L2, I2. split_and!; [done|by apply Hsub|done..].
      * intros K HK. split; [intros ? ? []%not_elem_of_nil|]. intros a y Ha Hy. by eapply forest_bounds.
      * intros HP' _. by eapply forest_nonempty.
    + destruct (IH x ps L2 I2 k Hf Hp) as (M1 & J1 & M2 & J2 & M3 & J3 & -> & -> & [H1 H2 H3 H4 H5 H6 H7 H8]).
      exists (L1 ++ M1), (I1 ++ J1), M2, J2, M3, J3. rewrite !app_assoc. split_and!; [done..|].
      assert (Hlow : lower lo (x :: ks) (S k) = lower x ks k).
      { destruct k as [|k]; [done|]. unfold lower. change ((x :: ks) !! S k) with (ks !! k). pose proof (forest_length _ _ _ _ _ _ _ _ Hf) as Hlen.
        cbn in Hp. apply lookup_lt_Some in Hp. destruct (lookup_lt_is_Some_2 ks k) as [y Hy]; [lia|]. by rewrite Hy. }
      assert (Hdec : bool_decide (S k = length (x :: ks)) = bool_decide (k = length ks)).
      { apply bool_decide_ext. cbn. lia. }
      split; rewrite ?Hlow, ?Hdec; try done.
      * intros P' L2' I2' Hi HP'. split; [done|]. exists L1, I1, (M1 ++ L2' ++ M3), (J1 ++ I2' ++ J3).
        rewrite <-!app_assoc. split_and!; [apply Hi; [done|set_solver..]| |done|done].
        apply H3; [|done]. intros. apply Hi; [done|set_solver..].
      * intros P' u p' La Ia Lb Ib Hi Hu Ha Hb. split; [done|]. rewrite <-!(app_assoc L1), <-!(app_assoc I1).
        exists L1, I1, (M1 ++ (La ++ Lb) ++ M3), (J1 ++ (Ia ++ Ib) ++ J3).
        split_and!; [apply Hi; [done|set_solver..]| |done|done].
        apply H4; [|done..]. intros. apply Hi; [done|set_solver..].
      * intros [= ->]. by apply H5.
      * intros P' u La Ia [= ->] Hi Hu Ha. split; [done|]. exists L1, I1, (M1 ++ La), (J1 ++ Ia).
        rewrite <-!app_assoc. split_and!; [apply Hi; [done|set_solver..]| |done|done].
        apply H6; [done| |done..]. intros. apply Hi; [done|set_solver..].
      * intros K HK. destruct (H7 K HK) as [Hb1 Hb3]. split; [|exact Hb3]. intros a y [Ha|Ha]%elem_of_app Hy.
        -- specialize (HK _ _ _ _ _ _ HP a y Ha Hy).
           enough (x ≤ lower x ks k) by lia. unfold lower. destruct k as [|j]; [lia|]. destruct (ks !! j) as [z|] eqn:Hz; cbn; [|lia].
           apply list_elem_of_lookup_2 in Hz. pose proof (forest_sorted _ _ _ _ _ _ _ _ Hf) as (_ & Hb & _). specialize (Hb z Hz). lia.
        -- specialize (Hb1 a y Ha Hy). lia.
      * intros HP' Hne. apply H8; [done|]. cbn in Hne. lia.
Qed.
End forest.

(** ** The tree *)

Definition ikeys (n : InnerNode) : list Z := take (i_num_keys n) (i_keys n).
Definition ikids (n : InnerNode) : list Z := take (S (i_num_keys n)) (i_children n).

Record inner_ok (e : bool) (n : InnerNode) : Prop := {
  in_keys : length (i_keys n) = NENT;
  in_children : length (i_children n) = S NENT;
  in_num : (i_num_keys n ≤ NENT)%nat;
  in_fill : e = false → (7 ≤ i_num_keys n)%nat;
}.

Implicit Types (s : MemstoreBPlusTree).

Fixpoint tree s (d : nat) (e : bool) (a lo hi : Z) (L I : list Z) : Prop :=
  match d with
  | O => L = [a] ∧ I = [] ∧ ∃ l, leaves s !! a = Some l ∧ leaf_ok e l lo hi
  | S d =>
      ∃ n J, inners s !! a = Some n ∧ inner_ok e n ∧ I = a :: J ∧ forest (tree s d) e lo (ikeys n) (ikids n) hi L J
  end.

Lemma length_ikeys e n : inner_ok e n → length (ikeys n) = i_num_keys n.
Proof. intros []. unfold ikeys. rewrite length_take. lia. Qed.
Lemma length_ikids e n : inner_ok e n → length (ikids n) = S (i_num_keys n).
Proof. intros []. unfold ikids. rewrite length_take. lia. Qed.

Definition leaf_keys s (a : Z) : list Z := from_option lkeys [] (leaves s !! a).
Definition leaf_entries s (a : Z) : list (Z * Z) := from_option (λ l, zip (lkeys l) (lvals l)) [] (leaves s !! a).
Definition keys_of s (L : list Z) : list Z := L ≫= leaf_keys s.
Definition entries s (L : list Z) : list (Z * Z) := L ≫= leaf_entries s.

(** Leaves of [s'] hold what they hold in [s]. *)
Definition leaves_same (L : list Z) s s' : Prop :=
  ∀ a l, a ∈ L → leaves s !! a = Some l → ∃ l', leaves s' !! a = Some l' ∧ same_data l l'.
Definition inners_same (I : list Z) s s' : Prop := ∀ a, a ∈ I → inners s' !! a = inners s !! a.

Lemma tree_frame s s' d e a lo hi L I :
  leaves_same L s s' → inners_same I s s' → tree s d e a lo hi L I → tree s' d e a lo hi L I.
Proof.
  revert e a lo hi L I. induction d as [|d IH]; intros e a lo hi L I HL HI.
  - intros (-> & -> & l & Hl & Hok). split_and!; [done..|]. destruct (HL a l) as (l' & Hl' & Hs); [by left|done|].
    exists l'. split; [done|]. by eapply leaf_ok_same.
  - intros (n & J & Hn & Hok & -> & Hf). exists n, J. split_and!; [|done..|].
    + rewrite HI by (by left). done.
    + eapply forest_impl; [|done]. intros e' p lo' hi' L1 I1 Ht HL1 HI1. apply IH; [..|done].
      * intros b l Hb. apply HL. by apply HL1.
      * intros b Hb. apply HI. right. by apply HI1.
Qed.

Lemma tree_bounds s d e a lo hi L I b x :
  tree s d e a lo hi L I → b ∈ L → x ∈ leaf_keys s b → lo ≤ x < hi.
Proof.
  revert e a lo hi L I b x. induction d as [|d IH]; intros e a lo hi L I b x.
  - intros (-> & _ & l & Hl & Hok) ->%list_elem_of_singleton. unfold leaf_keys. rewrite Hl. apply Hok.
  - intros (n & J & _ & _ & _ & Hf) Hb Hx. eapply forest_bounds; [|done..]. intros. by eapply IH.
Qed.

Lemma elem_of_keys_of s L x : x ∈ keys_of s L ↔ ∃ a, x ∈ leaf_keys s a ∧ a ∈ L.
Proof. apply list_elem_of_bind. Qed.

Lemma tree_nonempty s d e a lo hi L I : tree s d e a lo hi L I → L ≠ [].
Proof.
  revert e a lo hi L I. induction d as [|d IH]; intros e a lo hi L I; [by intros (-> & _)|].
  intros (n & J & _ & _ & _ & Hf). by eapply forest_nonempty.
Qed.

Lemma tree_sorted s d e a lo hi L I : tree s d e a lo hi L I → sorted (keys_of s L).
Proof.
  revert e a lo hi L I. induction d as [|d IH]; intros e a lo hi L I.
  - intros (-> & _ & l & Hl & Hok). unfold keys_of, leaf_keys. cbn. rewrite Hl, app_nil_r. apply Hok.
  - intros (n & J & _ & _ & _ & Hf). revert Hf. generalize (ikeys n) (ikids n). intros ks ps.
    revert lo ps L J. induction ks as [|k ks IHk]; intros lo ps L J.
    + destruct ps as [|p [|]]; [done| |done]. intros [_ Hp]. by eapply IH.
    + destruct ps as [|p ps]; [done|]. intros (_ & L1 & I1 & L2 & I2 & Hp & Hf & -> & ->).
      unfold keys_of. rewrite bind_app. apply sorted_app; [by eapply IH|by eapply IHk|].
      intros x y (b & Hx & Hb)%elem_of_keys_of (c & Hy & Hc)%elem_of_keys_of.
      pose proof (tree_bounds _ _ _ _ _ _ _ _ _ _ Hp Hb Hx).
      assert (k ≤ y < hi); [|lia]. eapply (forest_bounds (tree s d)); [|done..]. intros. by eapply tree_bounds.
Qed.

(** ** Search *)

Lemma leaf_Some s a l : leaves s !! a = Some l → leaf s a = Done l.
Proof. unfold leaf. by intros ->. Qed.
Lemma inner_Some s a n : inners s !! a = Some n → inner s a = Done n.
Proof. unfold inner. by intros ->. Qed.

Lemma scan_inner e n key :
  inner_ok e n →
  ∃ k, scan (λ x, bool_decide (x ≤ key)) (i_keys n) 0 (i_num_keys n) = Done k ∧ (k ≤ length (ikeys n))%nat ∧
    (∀ i x, (i < k)%nat → ikeys n !! i = Some x → x ≤ key) ∧ (∀ x, ikeys n !! k = Some x → key < x).
Proof.
  intros Hok. pose proof (length_ikeys _ _ Hok) as Hlen. destruct Hok as [Hk _ Hn _].
  destruct (scan_spec (λ x, bool_decide (x ≤ key)) (i_keys n) 0 (i_num_keys n)) as (k & -> & Hb & Hall & Hend); [lia|].
  exists k. split_and!; [done|lia|..]; unfold ikeys.
  - intros i x Hi Hx%lookup_take_Some. specialize (Hall i x ltac:(lia) (proj1 Hx)). by apply bool_decide_eq_true in Hall.
  - intros x [Hx Hlt]%lookup_take_Some. destruct Hend as (y & Hy & Hp%bool_decide_eq_false); [lia|].
    rewrite Hx in Hy. injection Hy as ->. lia.
Qed.

Lemma scan_bounds lo ks hi k key :
  (k ≤ length ks)%nat → lo ≤ key < hi → (∀ i x, (i < k)%nat → ks !! i = Some x → x ≤ key) →
  (∀ x, ks !! k = Some x → key < x) → lower lo ks k ≤ key < upper ks hi k.
Proof.
  intros Hk Hkey Hle Hlt. unfold lower, upper. split.
  - destruct k as [|j]; [lia|]. destruct (ks !! j) eqn:Hj; cbn; [|lia]. eapply Hle; [|done]. lia.
  - destruct (ks !! k) eqn:Hj; cbn; [|lia]. by apply Hlt.
Qed.

(** What a search in a leaf finds. *)
Lemma scan_leaf e l lo hi key :
  leaf_ok e l lo hi →
  ∃ k, scan (λ x, bool_decide (x < key)) (l_keys l) 0 (l_num_keys l) = Done k ∧ (k ≤ l_num_keys l)%nat ∧
    (∀ y, y ∈ take k (lkeys l) → y < key) ∧ (∀ y, y ∈ drop k (lkeys l) → key ≤ y).
Proof.
  intros Hok. pose proof (length_lkeys _ _ _ _ Hok) as Hlen. destruct Hok as [Hk _ Hn _ Hs _ _].
  destruct (scan_spec (λ x, bool_decide (x < key)) (l_keys l) 0 (l_num_keys l)) as (k & -> & Hb & Hall & Hend); [lia|].
  exists k. split_and!; [done|lia|..]; apply (sorted_scan_lt _ key k Hs); try lia; unfold lkeys.
  - intros i x Hi Hx%lookup_take_Some. specialize (Hall i x ltac:(lia) (proj1 Hx)). by apply bool_decide_eq_true in Hall.
  - intros x [Hx Hlt]%lookup_take_Some. destruct Hend as (y & Hy & Hp%bool_decide_eq_false); [lia|].
    rewrite Hx in Hy. injection Hy as ->. lia.
  - intros i x Hi Hx%lookup_take_Some. specialize (Hall i x ltac:(lia) (proj1 Hx)). by apply bool_decide_eq_true in Hall.
  - intros x [Hx Hlt]%lookup_take_Some. destruct Hend as (y & Hy & Hp%bool_decide_eq_false); [lia|].
    rewrite Hx in Hy. injection Hy as ->. lia.
Qed.

(** The leaf for a key, and the leaves on both sides of it. *)
Record found s (L : list Z) (key a : Z) (l : LeafNode) (e : bool) (lo hi : Z) (L1 L2 : list Z) : Prop := {
  fd_split : L = L1 ++ a :: L2;
  fd_leaf : leaves s !! a = Some l;
  fd_ok : leaf_ok e l lo hi;
  fd_key : lo ≤ key < hi;
  fd_left x : x ∈ keys_of s L1 → x < lo;
  fd_right x : x ∈ keys_of s L2 → hi ≤ x;
}.

Lemma find_leaf_spec s d e a lo hi L I key :
  tree s d e a lo hi L I → lo ≤ key < hi →
  ∃ b l e' lo' hi' L1 L2, find_leaf s key a d = Done b ∧ lo ≤ lo' ∧ hi' ≤ hi ∧ found s L key b l e' lo' hi' L1 L2.
Proof.
  revert e a lo hi L I. induction d as [|d IH]; intros e a lo hi L I.
  - intros (-> & -> & l & Hl & Hok) Hkey. exists a, l, e, lo, hi, [], []. split_and!; [done|lia..|].
    split; try done; intros ? []%not_elem_of_nil.
  - intros (n & J & Hn & Hok & -> & Hf) Hkey. cbn. unfold inner. rewrite Hn. cbn [mbind result_bind].
    destruct (scan_inner e n key Hok) as (k & -> & Hk & Hle & Hlt). cbn [mbind result_bind].
    pose proof (scan_bounds lo (ikeys n) hi k key Hk Hkey Hle Hlt) as Hb.
    destruct (lookup_lt_is_Some_2 (ikids n) k) as [p Hp].
    { rewrite (length_ikids _ _ Hok). rewrite (length_ikeys _ _ Hok) in Hk. lia. }
    destruct (forest_focus _ _ _ _ _ _ _ _ k p Hf Hp) as (L1 & I1 & L2 & I2 & L3 & I3 & -> & -> & [Hc _ _ _ _ _ Hbd _]).
    unfold ikids in Hp. apply lookup_take_Some in Hp as [Hp _]. rewrite (aget_Some _ _ _ Hp). cbn [mbind result_bind].
    destruct (IH _ _ _ _ _ _ Hc Hb) as (b & l & e' & lo' & hi' & M1 & M2 & -> & Hlo & Hhi & [-> Hl Hlok Hkb Hlf Hrt]).
    destruct (Hbd (leaf_keys s)) as [Hb1 Hb3]; [intros; by eapply tree_bounds|].
    assert (lo ≤ lower lo (ikeys n) k ∧ upper (ikeys n) hi k ≤ hi) as [??] by by eapply lower_upper_le.
    exists b, l, e', lo', hi', (L1 ++ M1), (M2 ++ L3). split_and!; [done|lia..|]. split; try done.
    + by rewrite <-!app_assoc.
    + intros x. unfold keys_of. rewrite bind_app. intros [Hx|Hx]%elem_of_app; [|by apply Hlf].
      apply elem_of_keys_of in Hx as (c & Hx & Hc1). specialize (Hb1 c x Hc1 Hx). lia.
    + intros x. unfold keys_of. rewrite bind_app. intros [Hx|Hx]%elem_of_app; [by apply Hrt|].
      apply elem_of_keys_of in Hx as (c & Hx & Hc1). specialize (Hb3 c x Hc1 Hx). lia.
Qed.
