(* ===== verification/BPLeaf.v ===== *)
(** * Insertion into a leaf

    What [LeafInsert] of BPlusTree.v does in its three cases: the key is there, there
    is room, the leaf is full.  In the last case the two leaves together hold the old
    entries and the new one, the first key of the new leaf separates them, and the
    links are mended. *)

From S2P Require Import Prelude Memstore BPlusTree BPTree.

Implicit Types (s : MemstoreBPlusTree).

Definition upd_left (b : Z) (l : LeafNode) : LeafNode :=
  mkLeaf (l_num_keys l) (l_keys l) (l_values l) b (l_right l) (l_seq l).

(** The fields of the tree other than the leaves and the spare nodes. *)
Definition same_frame s s' : Prop :=
  root s' = root s ∧ depth s' = depth s ∧ inners s' = inners s ∧ brk_ s' = brk_ s ∧ localinit_ s' = localinit_ s.

(** Storing the new entry into a leaf with room. *)
Lemma store_entry (t : LeafNode) k key v :
  length (l_keys t) = MEM_BTREE_M → length (l_values t) = MEM_BTREE_M → (l_num_keys t < MEM_BTREE_M)%nat →
  (k ≤ l_num_keys t)%nat →
  ∃ ks vs, shift (l_keys t) (l_num_keys t) k = Done ks ∧ shift (l_values t) (l_num_keys t) k = Done vs ∧
    aset ks k key = Done (<[k := key]> ks) ∧ aset vs k v = Done (<[k := v]> vs) ∧
    length (<[k := key]> ks) = MEM_BTREE_M ∧ length (<[k := v]> vs) = MEM_BTREE_M ∧
    take (l_num_keys t + 1) (<[k := key]> ks) = ins k key (lkeys t) ∧
    take (l_num_keys t + 1) (<[k := v]> vs) = ins k v (lvals t).
Proof.
  intros Hk Hv Hn Hle.
  destruct (shift_ins (l_keys t) (l_num_keys t) k key) as (ks & -> & Hlk & Hik & _); [lia|].
  destruct (shift_ins (l_values t) (l_num_keys t) k v) as (vs & -> & Hlv & Hiv & _); [lia|].
  exists ks, vs. rewrite !aset_lt, !length_insert by lia. rewrite Nat.add_1_r. split_and!; [done..|lia|lia|done|done].
Qed.

Definition not_there (l : LeafNode) (k : nat) (key : Z) : Prop :=
  (k ≤ l_num_keys l)%nat ∧ (∀ y, y ∈ take k (lkeys l) → y < key) ∧ (∀ y, y ∈ drop k (lkeys l) → key < y).

(** The head of [LeafInsert]. *)
Lemma LeafInsert_head s key a l e lo hi :
  leaves s !! a = Some l → leaf_ok e l lo hi →
  (∃ v, LeafInsert s key a = Done (s, NULL, v) ∧ (key, v) ∈ zip (lkeys l) (lvals l)) ∨
  ((key ∉ lkeys l) ∧ ∃ k, not_there l k key ∧
     LeafInsert s key a =
       if decide (l_num_keys l = MEM_BTREE_M) then
         split_leaf s a l k ≫= λ '(s, new_sibling, toInsert, k), leaf_add s key a new_sibling toInsert k
       else leaf_add s key a NULL a k).
Proof.
  intros Hl Hok. unfold LeafInsert, leaf. rewrite Hl. cbn [mbind result_bind].
  destruct (scan_leaf _ _ _ _ key Hok) as (k & -> & Hk & Hlt & Hge). cbn [mbind result_bind].
  pose proof (length_lkeys _ _ _ _ Hok) as Hlen. pose proof (length_lvals _ _ _ _ Hok) as Hlen'.
  assert (Hin : ∀ y, y ∈ lkeys l → y ∈ take k (lkeys l) ∨ y ∈ drop k (lkeys l)).
  { intros y Hy. rewrite <-(take_drop k (lkeys l)) in Hy. by apply elem_of_app in Hy. }
  destruct (decide (k < l_num_keys l)%nat) as [Hlt'|Hge'].
  - destruct (lookup_lt_is_Some_2 (lkeys l) k) as [x Hx]; [lia|]. pose proof Hx as Hx'.
    unfold lkeys in Hx'. apply lookup_take_Some in Hx' as [Hx' _]. rewrite (aget_Some _ _ _ Hx'). cbn [mbind result_bind].
    assert (Hsort : ∀ y, y ∈ drop k (lkeys l) → y = x ∨ x < y).
    { intros y (i & Hi)%list_elem_of_lookup_1. rewrite lookup_drop in Hi. destruct i as [|i].
      - rewrite Nat.add_0_r, Hx in Hi. left. congruence.
      - right. eapply sorted_lookup; [apply Hok| |done|done]. lia. }
    assert (Hxd : x ∈ drop k (lkeys l)).
    { apply list_elem_of_lookup_2 with 0%nat. by rewrite lookup_drop, Nat.add_0_r. }
    case_bool_decide as Hkx.
    + left. subst x. destruct (lookup_lt_is_Some_2 (lvals l) k) as [v Hv]; [lia|]. pose proof Hv as Hv'.
      unfold lvals in Hv'. apply lookup_take_Some in Hv' as [Hv' _]. rewrite (aget_Some _ _ _ Hv'). cbn [mbind result_bind].
      rewrite bool_decide_eq_true_2; [|by eapply (lf_vals _ _ _ _ Hok), list_elem_of_lookup_2]. cbn. exists v. split; [done|].
      apply list_elem_of_lookup_2 with k. apply lookup_zip_with_Some. by exists key, v.
    + right. split.
      * intros [H1|H1]%Hin; [specialize (Hlt _ H1); lia|]. destruct (Hsort _ H1) as [->|]; [done|]. specialize (Hge _ Hxd). lia.
      * exists k. split; [|done]. split_and!; [lia|done|]. intros y Hy. specialize (Hge _ Hxd). destruct (Hsort y Hy); lia.
  - right. assert (k = l_num_keys l) as -> by lia. rewrite <-Hlen, drop_all in *. split.
    + intros [H1|H1]%Hin; [specialize (Hlt _ H1); lia|by apply not_elem_of_nil in H1].
    + exists (length (lkeys l)). split; [|by rewrite ?decide_False by lia]. split_and!; [lia|done|].
      rewrite drop_all. intros ? []%not_elem_of_nil.
Qed.

Definition bump_seq (l : LeafNode) : LeafNode :=
  mkLeaf (l_num_keys l) (l_keys l) (l_values l) (l_left l) (l_right l) (u64 (l_seq l + 1)).

Record arrays_ok (l : LeafNode) : Prop := {
  ar_keys : length (l_keys l) = MEM_BTREE_M;
  ar_values : length (l_values l) = MEM_BTREE_M;
  ar_num : (l_num_keys l ≤ MEM_BTREE_M)%nat;
}.

Lemma leaf_ok_arrays e l lo hi : leaf_ok e l lo hi → arrays_ok l.
Proof. by intros []. Qed.

(** [t'] is [t] with one more entry. *)
Record grown (k : nat) (key v : Z) (t t' : LeafNode) : Prop := {
  gr_arrays : arrays_ok t';
  gr_num : l_num_keys t' = S (l_num_keys t);
  gr_keys : lkeys t' = ins k key (lkeys t);
  gr_vals : lvals t' = ins k v (lvals t);
  gr_left : l_left t' = l_left t;
  gr_right : l_right t' = l_right t;
  gr_seq : l_seq t' = l_seq t;
}.

Lemma leaf_add_spec s key a b ti k t l :
  leaves s !! ti = Some t → leaves s !! a = Some l → arrays_ok t → (l_num_keys t < MEM_BTREE_M)%nat →
  (k ≤ l_num_keys t)%nat → dummyval_ s ≠ NULL →
  ∃ s' t', leaf_add s key a b ti k = Done (s', b, dummyval_ s) ∧ same_frame s s' ∧ dummyval_ s' = NULL ∧
    dummyleaf_ s' = dummyleaf_ s ∧ grown k key (dummyval_ s) t t' ∧
    leaves s' = alter bump_seq a (<[ti := t']> (leaves s)).
Proof.
  intros Ht Hl [Hk Hv _] Hn Hle Hd. unfold leaf_add. rewrite (leaf_Some _ _ _ Ht). cbn [mbind result_bind].
  destruct (store_entry t k key (dummyval_ s)) as (ks & vs & -> & -> & Hs1 & Hs2 & Hl1 & Hl2 & Ht1 & Ht2); [done..|].
  cbn [mbind result_bind]. rewrite Hs1. cbn [mbind result_bind]. rewrite Hs2. cbn [mbind result_bind].
  rewrite bool_decide_eq_true_2 by done. cbn [mbind result_bind verify].
  set (t' := mkLeaf (l_num_keys t + 1) (<[k:=key]> ks) (<[k:=dummyval_ s]> vs) (l_left t) (l_right t) (l_seq t)).
  assert (∃ l1, <[ti := t']> (leaves s) !! a = Some l1) as [l1 Hl1'].
  { destruct (decide (ti = a)) as [->|]; [rewrite lookup_insert_eq; eauto|]. rewrite lookup_insert_ne by done. eauto. }
  unfold leaf. cbn. rewrite Hl1'. cbn. eexists _, t'. split; [done|]. cbn. split_and!; try done.
  - split; cbn; try done; [|lia]. split; cbn; [done..|lia].
  - apply map_eq. intros x. destruct (decide (x = a)) as [->|Hne].
    + rewrite lookup_insert_eq, lookup_alter_eq, Hl1'. done.
    + rewrite lookup_insert_ne, lookup_alter_ne by done. done.
Qed.

(** The leaves after a split of [l] at [c]. *)
Record leaf_cut (c : nat) (l l1 n1 : LeafNode) (a b : Z) : Prop := {
  lc_arrays1 : arrays_ok l1;
  lc_arrays2 : arrays_ok n1;
  lc_num1 : l_num_keys l1 = c;
  lc_num2 : l_num_keys n1 = (l_num_keys l - c)%nat;
  lc_keys1 : lkeys l1 = take c (lkeys l);
  lc_keys2 : lkeys n1 = drop c (lkeys l);
  lc_vals1 : lvals l1 = take c (lvals l);
  lc_vals2 : lvals n1 = drop c (lvals l);
  lc_links1 : l_left l1 = l_left l ∧ l_right l1 = b ∧ l_seq l1 = l_seq l;
  lc_links2 : l_left n1 = a ∧ l_right n1 = l_right l ∧ l_seq n1 = 0;
}.

Definition relink (m : gmap Z LeafNode) (r b : Z) : gmap Z LeafNode :=
  if decide (r = NULL) then m else alter (upd_left b) r m.

Lemma split_leaf_spec s a l k b n0 :
  arrays_ok l → l_num_keys l = MEM_BTREE_M → (k ≤ MEM_BTREE_M)%nat →
  dummyleaf_ s = b → leaves s !! b = Some n0 → arrays_ok n0 → a ≠ b →
  (l_right l ≠ NULL → is_Some (leaves s !! l_right l) ∧ l_right l ≠ a ∧ l_right l ≠ b) →
  ∃ s1 l1 n1 c ti k1, split_leaf s a l k = Done (s1, b, ti, k1) ∧ same_frame s s1 ∧
    dummyval_ s1 = dummyval_ s ∧ dummyleaf_ s1 = NULL ∧ leaf_cut c l l1 n1 a b ∧
    leaves s1 = <[a := l1]> (<[b := n1]> (relink (leaves s) (l_right l) b)) ∧
    (c = 8%nat ∧ (ti = a ∧ (k < c)%nat ∧ k1 = k ∨ ti = b ∧ (c ≤ k)%nat ∧ k1 = (k - c)%nat) ∨
     c = 15%nat ∧ l_right l = NULL ∧ ti = b ∧ k = c ∧ k1 = 0%nat).
Proof.
  intros [Hk Hv _] Hn Hle Hb Hn0 [Hk0 Hv0 _] Hab Hr. unfold split_leaf, new_leaf_node. rewrite Hb.
  rewrite (leaf_Some (set_dummyleaf s NULL) b n0 Hn0). cbn [mbind result_bind].
  assert (Hend : ∀ (l1 n1 : LeafNode) (ti : Z) (k1 c : nat), l_right l1 = l_right l → l_left l1 = l_left l → l_seq l1 = l_seq l →
    leaf_cut c l (mkLeaf (l_num_keys l1) (l_keys l1) (l_values l1) (l_left l1) b (l_seq l1))
      (mkLeaf (l_num_keys n1) (l_keys n1) (l_values n1) a (l_right l1) 0) a b →
    (c = 8%nat ∧ (ti = a ∧ (k < c)%nat ∧ k1 = k ∨ ti = b ∧ (c ≤ k)%nat ∧ k1 = (k - c)%nat) ∨
     c = 15%nat ∧ l_right l = NULL ∧ ti = b ∧ k = c ∧ k1 = 0%nat) →
    ∃ s1 l2 n2 c ti' k1',
      (s1 ← (if decide (l_right l1 ≠ NULL) then
               r ← leaf (set_dummyleaf s NULL) (l_right l1);
               Done (set_leaf (set_dummyleaf s NULL) (l_right l1) (mkLeaf (l_num_keys r) (l_keys r) (l_values r) b (l_right r) (l_seq r)))
             else Done (set_dummyleaf s NULL));
       let s1 := set_leaf s1 b (mkLeaf (l_num_keys n1) (l_keys n1) (l_values n1) a (l_right l1) 0) in
       let s1 := set_leaf s1 a (mkLeaf (l_num_keys l1) (l_keys l1) (l_values l1) (l_left l1) b (l_seq l1)) in
       Done (s1, b, ti, k1)) = Done (s1, b, ti', k1') ∧ same_frame s s1 ∧
      dummyval_ s1 = dummyval_ s ∧ dummyleaf_ s1 = NULL ∧ leaf_cut c l l2 n2 a b ∧
      leaves s1 = <[a := l2]> (<[b := n2]> (relink (leaves s) (l_right l) b)) ∧
      (c = 8%nat ∧ (ti' = a ∧ (k < c)%nat ∧ k1' = k ∨ ti' = b ∧ (c ≤ k)%nat ∧ k1' = (k - c)%nat) ∨
       c = 15%nat ∧ l_right l = NULL ∧ ti' = b ∧ k = c ∧ k1' = 0%nat)).
  { intros l1 n1 ti k1 c Hrt _ _ Hcut Hpos. rewrite Hrt in *. unfold relink. destruct (decide (l_right l = NULL)) as [Hnull|Hnull].
    - rewrite decide_False by auto. cbn [mbind result_bind]. eexists _, _, _, c, ti, k1. split; [done|]. done.
    - rewrite decide_True by done. destruct (Hr Hnull) as ([r Hr1] & _ & _). unfold leaf. cbn [leaves set_dummyleaf]. rewrite Hr1.
      cbn [mbind result_bind]. eexists _, _, _, c, ti, k1. split; [done|]. split_and!; try done. cbn. do 2 f_equal.
      apply map_eq. intros x. destruct (decide (x = l_right l)) as [->|?].
      + by rewrite lookup_insert_eq, lookup_alter_eq, Hr1.
      + by rewrite lookup_insert_ne, lookup_alter_ne by done. }
  assert (Hlk : length (lkeys l) = 15%nat) by (unfold lkeys; rewrite length_take; unfold MEM_BTREE_M in *; lia).
  assert (Hlv : length (lvals l) = 15%nat) by (unfold lvals; rewrite length_take; unfold MEM_BTREE_M in *; lia).
  assert (Hfull : lkeys l = l_keys l) by (unfold lkeys; rewrite take_ge; [done|lia]).
  assert (Hfullv : lvals l = l_values l) by (unfold lvals; rewrite take_ge; [done|lia]).
  destruct (decide (l_right l = NULL ∧ k = l_num_keys l)) as [[Hnull Hkn]|Happ]; cbn [mbind result_bind].
  - apply (Hend _ _ b 0%nat 15%nat); [done..| |right; unfold MEM_BTREE_M in *; split_and!; [done..|lia|done]].
    unfold MEM_BTREE_M in *.
    split; try done; try (by split; cbn; unfold MEM_BTREE_M; lia); cbn; [lia| | | |].
    + change (lkeys l = take 15 (lkeys l)). by rewrite take_ge by lia.
    + change ([] = drop 15 (lkeys l)). by rewrite drop_ge by lia.
    + change (lvals l = take 15 (lvals l)). by rewrite take_ge by lia.
    + change ([] = drop 15 (lvals l)). by rewrite drop_ge by lia.
  - destruct (copy_from_take (l_keys l) (l_keys n0) 8 7) as (ks & Hc1 & Hl1 & Ht1); [unfold MEM_BTREE_M in *; lia..|].
    destruct (copy_from_take (l_values l) (l_values n0) 8 7) as (vs & Hc2 & Hl2 & Ht2); [unfold MEM_BTREE_M in *; lia..|].
    rewrite Hn. change (MEM_BTREE_M - (MEM_BTREE_M + 1) / 2)%nat with 7%nat. change ((MEM_BTREE_M + 1) / 2)%nat with 8%nat.
    rewrite Hc1. cbn [mbind result_bind]. rewrite Hc2. cbn [mbind result_bind].
    assert (Hcut : leaf_cut 8 l (mkLeaf 8 (l_keys l) (l_values l) (l_left l) b (l_seq l)) (mkLeaf 7 ks vs a (l_right l) 0) a b).
    { unfold MEM_BTREE_M in *. split; try done; try (by split; cbn; unfold MEM_BTREE_M; lia); cbn; [lia| | | |].
      - rewrite Hfull. done.
      - change (take 7 ks = drop 8 (lkeys l)). rewrite Ht1, Hfull. apply take_ge. rewrite length_drop. lia.
      - rewrite Hfullv. done.
      - change (take 7 vs = drop 8 (lvals l)). rewrite Ht2, Hfullv. apply take_ge. rewrite length_drop. lia. }
    destruct (decide (8 ≤ k)%nat) as [Hk8|Hk8].
    + apply (Hend _ _ b (k - 8)%nat 8%nat); [done..|]. left. split; [done|]. right. auto.
    + apply (Hend _ _ a k 8%nat); [done..|]. left. split; [done|]. left. split_and!; [done|lia|done].
Qed.

(** ** [LeafInsert] *)

Definition lentries (l : LeafNode) : list (Z * Z) := zip (lkeys l) (lvals l).

(** What an insertion into the leaf [a] needs of the rest of the tree. *)
Record leaf_pre s (a : Z) (l : LeafNode) (e : bool) : Prop := {
  lp_leaf : leaves s !! a = Some l;
  lp_val : dummyval_ s ≠ NULL;
  lp_spare : dummyleaf_ s ≠ NULL ∧ dummyleaf_ s ≠ a ∧ ∃ n, leaves s !! dummyleaf_ s = Some n ∧ arrays_ok n;
  lp_right : l_right l ≠ NULL → is_Some (leaves s !! l_right l) ∧ l_right l ≠ a ∧ l_right l ≠ dummyleaf_ s;
  lp_edge : l_right l = NULL → e = true;
}.

Record leaf_grew s (a : Z) (l : LeafNode) (key : Z) (e : bool) (lo hi : Z) s' (l' : LeafNode) : Prop := {
  lg_frame : same_frame s s';
  lg_spare : dummyval_ s' = NULL ∧ dummyleaf_ s' = dummyleaf_ s;
  lg_leaves : leaves s' = <[a := l']> (leaves s);
  lg_ok : leaf_ok e l' lo hi;
  lg_links : l_left l' = l_left l ∧ l_right l' = l_right l ∧ l_seq l' = u64 (l_seq l + 1);
  lg_entries : ∃ k, (k ≤ length (lentries l))%nat ∧ lentries l' = ins k (key, dummyval_ s) (lentries l);
}.

Record leaf_was_split s (a : Z) (l : LeafNode) (key : Z) (e : bool) (lo hi : Z) s' (l' n' : LeafNode) (u : Z) : Prop := {
  ls_frame : same_frame s s';
  ls_spare : dummyval_ s' = NULL ∧ dummyleaf_ s' = NULL;
  ls_leaves : leaves s' = <[a := l']> (<[dummyleaf_ s := n']> (relink (leaves s) (l_right l) (dummyleaf_ s)));
  ls_ok1 : leaf_ok false l' lo u;
  ls_ok2 : leaf_ok e n' u hi;
  ls_sep : lo < u < hi ∧ lkeys n' !! 0%nat = Some u;
  ls_alone : l_num_keys n' = 1%nat → e = true;
  ls_links1 : l_left l' = l_left l ∧ l_right l' = dummyleaf_ s ∧ l_seq l' = u64 (l_seq l + 1);
  ls_links2 : l_left n' = a ∧ l_right n' = l_right l ∧ l_seq n' = 0;
  ls_entries : ∃ k, (k ≤ length (lentries l))%nat ∧ lentries l' ++ lentries n' = ins k (key, dummyval_ s) (lentries l);
}.

Lemma bump_seq_ok e l lo hi : leaf_ok e l lo hi → leaf_ok e (bump_seq l) lo hi.
Proof. apply leaf_ok_same. done. Qed.

(** The keys with the new one in its place. *)
Lemma ins_keys_ok e l lo hi key k :
  leaf_ok e l lo hi → lo ≤ key < hi → not_there l k key →
  sorted (ins k key (lkeys l)) ∧ (∀ x, x ∈ ins k key (lkeys l) → lo ≤ x < hi).
Proof.
  intros Hok Hkey (Hk & Hlt & Hgt). split; [apply sorted_ins; [apply Hok|done..]|].
  intros x [->|Hx]%elem_of_ins; [done|]. by apply (lf_bounds _ _ _ _ Hok).
Qed.

Lemma ins_vals_ok e l lo hi v k :
  leaf_ok e l lo hi → v ≠ NULL → ∀ x, x ∈ ins k v (lvals l) → x ≠ NULL.
Proof.
  intros Hok Hv x [->|Hx]%elem_of_ins; [done|]. by apply (lf_vals _ _ _ _ Hok).
Qed.

Lemma length_lentries e l lo hi : leaf_ok e l lo hi → length (lentries l) = l_num_keys l.
Proof.
  intros Hok. unfold lentries. rewrite length_zip_with, (length_lkeys _ _ _ _ Hok), (length_lvals _ _ _ _ Hok). lia.
Qed.

Lemma LeafInsert_room s key a l e lo hi k :
  leaf_pre s a l e → leaf_ok e l lo hi → lo ≤ key < hi → not_there l k key → l_num_keys l ≠ MEM_BTREE_M →
  ∃ s' l', leaf_add s key a NULL a k = Done (s', NULL, dummyval_ s) ∧ leaf_grew s a l key e lo hi s' l'.
Proof.
  intros [Hl Hv _ _ _] Hok Hkey Hnt Hnum. pose proof (leaf_ok_arrays _ _ _ _ Hok) as Har. pose proof (proj1 Hnt) as Hk.
  destruct (leaf_add_spec s key a NULL a k l l) as (s' & t' & Hrun & Hfr & Hd1 & Hd2 & Hgr & Hlv); [done..| |done|done|].
  { destruct Har. lia. }
  destruct (ins_keys_ok _ _ _ _ _ _ Hok Hkey Hnt) as [Hso Hbo]. destruct Hgr as [[Ha1 Ha2 Ha3] Hg1 Hg2 Hg3 Hg4 Hg5 Hg6].
  exists s', (bump_seq t'). split; [done|]. split; [done|done| | | |].
  - rewrite Hlv. apply map_eq. intros x. destruct (decide (x = a)) as [->|].
    + by rewrite lookup_alter_eq, !lookup_insert_eq.
    + by rewrite lookup_alter_ne, !lookup_insert_ne by done.
  - apply bump_seq_ok. split; try done.
    + intros He. pose proof (lf_fill _ _ _ _ Hok He). lia.
    + by rewrite Hg2.
    + by rewrite Hg2.
    + rewrite Hg3. by eapply ins_vals_ok.
  - cbn. by rewrite Hg4, Hg5, Hg6.
  - exists k. split; [by rewrite (length_lentries _ _ _ _ Hok)|]. unfold lentries.
    change (lkeys (bump_seq t')) with (lkeys t'). change (lvals (bump_seq t')) with (lvals t').
    rewrite Hg2, Hg3. apply zip_ins. by rewrite (length_lkeys _ _ _ _ Hok), (length_lvals _ _ _ _ Hok).
Qed.

(** Both halves of a sorted list that was cut in two. *)
Lemma sorted_cut A B lo hi u :
  sorted (A ++ B) → (∀ x, x ∈ A ++ B → lo ≤ x < hi) → A ≠ [] → B !! 0%nat = Some u →
  sorted A ∧ sorted B ∧ (∀ x, x ∈ A → lo ≤ x < u) ∧ (∀ x, x ∈ B → u ≤ x < hi) ∧ lo < u < hi.
Proof.
  intros (HA & HB & Hlt)%sorted_app_inv Hb Hne Hu. destruct B as [|u' B]; [done|]. injection Hu as ->.
  assert (HinA : ∀ x, x ∈ A → lo ≤ x < u).
  { intros x Hx. split; [apply Hb; apply elem_of_app; by left|]. apply Hlt; [done|by left]. }
  assert (Hinu : lo ≤ u < hi) by (apply Hb, elem_of_app; right; by left). split_and!; try done.
  - intros x Hx. split; [|by apply Hb, elem_of_app; right]. apply StronglySorted_inv in HB as [_ Hall].
    apply elem_of_cons in Hx as [->|Hx]; [lia|]. apply (proj1 (Forall_forall _ _) Hall) in Hx. lia.
  - destruct A as [|x A]; [done|]. destruct (HinA x); [by left|]. lia.
  - lia.
Qed.

(** The two leaves after the split and the store, before the version is raised. *)
Record leaf_pair (l l1 n1 l2 n2 : LeafNode) (k : nat) (key v : Z) : Prop := {
  pr_arrays1 : arrays_ok l2;
  pr_arrays2 : arrays_ok n2;
  pr_keys : lkeys l2 ++ lkeys n2 = ins k key (lkeys l);
  pr_vals : lvals l2 ++ lvals n2 = ins k v (lvals l);
  pr_num1 : (7 ≤ l_num_keys l2)%nat;
  pr_num2 : (7 ≤ l_num_keys n2)%nat ∨ l_num_keys n2 = 1%nat ∧ l_right l = NULL;
  pr_links1 : l_left l2 = l_left l1 ∧ l_right l2 = l_right l1 ∧ l_seq l2 = l_seq l1;
  pr_links2 : l_left n2 = l_left n1 ∧ l_right n2 = l_right n1 ∧ l_seq n2 = l_seq n1;
}.

Lemma split_store s1 key a b ti k k1 c l l1 n1 m :
  l_num_keys l = 15%nat → length (lkeys l) = 15%nat → length (lvals l) = 15%nat → (k ≤ 15)%nat → a ≠ b →
  leaf_cut c l l1 n1 a b → leaves s1 = <[a := l1]> (<[b := n1]> m) → dummyval_ s1 ≠ NULL →
  (c = 8%nat ∧ (ti = a ∧ (k < c)%nat ∧ k1 = k ∨ ti = b ∧ (c ≤ k)%nat ∧ k1 = (k - c)%nat) ∨
   c = 15%nat ∧ l_right l = NULL ∧ ti = b ∧ k = c ∧ k1 = 0%nat) →
  ∃ s' l2 n2, leaf_add s1 key a b ti k1 = Done (s', b, dummyval_ s1) ∧ same_frame s1 s' ∧ dummyval_ s' = NULL ∧
    dummyleaf_ s' = dummyleaf_ s1 ∧ leaves s' = <[a := bump_seq l2]> (<[b := n2]> m) ∧
    leaf_pair l l1 n1 l2 n2 k key (dummyval_ s1).
Proof.
  intros Hnum Hlk Hlv Hk Hab [Hb1 Hb2 Hm1 Hm2 Hk1 Hk2 Hv1 Hv2 _ _] Hm Hd Hpos.
  assert (Hla : leaves s1 !! a = Some l1) by (rewrite Hm; apply lookup_insert_eq).
  assert (Hlb : leaves s1 !! b = Some n1) by (rewrite Hm, lookup_insert_ne by done; apply lookup_insert_eq).
  assert (ti = a ∧ c = 8%nat ∧ (k < c)%nat ∧ k1 = k ∨
          ti = b ∧ (c ≤ k)%nat ∧ k1 = (k - c)%nat ∧ (c = 8%nat ∨ c = 15%nat ∧ l_right l = NULL))
    as [(-> & -> & Hlt & ->)|(-> & Hle & -> & Hc)] by (destruct Hpos as [[-> [?|?]]|?]; [left|right|right]; intuition lia).
  - destruct (leaf_add_spec s1 key a b a k l1 l1) as (s' & t' & Hrun & Hfr & Hd1 & Hd2 & Hgr & Hlv'); [done..| | |done|].
    { unfold MEM_BTREE_M. lia. } { lia. }
    destruct Hgr as [Har Hg1 Hg2 Hg3 Hg4 Hg5 Hg6]. exists s', t', n1. split_and!; [done..| |].
    + rewrite Hlv', Hm. rewrite insert_insert_eq. apply map_eq. intros x. destruct (decide (x = a)) as [->|].
      * by rewrite lookup_alter_eq, !lookup_insert_eq.
      * by rewrite lookup_alter_ne, !(lookup_insert_ne _ a) by done.
    + split; [done..| | | | |done|done].
      * rewrite Hg2, Hk1, Hk2. rewrite <-ins_app_l by (rewrite length_take; lia). by rewrite take_drop.
      * rewrite Hg3, Hv1, Hv2. rewrite <-ins_app_l by (rewrite length_take; lia). by rewrite take_drop.
      * lia.
      * left. lia.
  - destruct (leaf_add_spec s1 key a b b (k - c) n1 l1) as (s' & t' & Hrun & Hfr & Hd1 & Hd2 & Hgr & Hlv'); [done..| | |done|].
    { unfold MEM_BTREE_M. lia. } { lia. }
    destruct Hgr as [Har Hg1 Hg2 Hg3 Hg4 Hg5 Hg6]. exists s', l1, t'. split_and!; [done..| |].
    + rewrite Hlv', Hm. apply map_eq. intros x. destruct (decide (x = a)) as [->|Hxa].
      * by rewrite lookup_alter_eq, lookup_insert_ne, !lookup_insert_eq by done.
      * rewrite lookup_alter_ne, !(lookup_insert_ne _ a) by done. destruct (decide (x = b)) as [->|].
        -- by rewrite !lookup_insert_eq.
        -- by rewrite !lookup_insert_ne by done.
    + split; [done..| | | | |done|done].
      * rewrite Hg2, Hk1, Hk2. rewrite <-(take_drop c (lkeys l)) at 3. rewrite ins_app_r by (rewrite length_take; lia).
        rewrite length_take. do 2 f_equal. lia.
      * rewrite Hg3, Hv1, Hv2. rewrite <-(take_drop c (lvals l)) at 3. rewrite ins_app_r by (rewrite length_take; lia).
        rewrite length_take. do 2 f_equal. lia.
      * lia.
      * rewrite Hg1, Hm2. destruct Hc as [->|[-> ?]]; [left; lia|right]. split; [lia|done].
Qed.

Lemma LeafInsert_split s key a l e lo hi k :
  leaf_pre s a l e → leaf_ok e l lo hi → lo ≤ key < hi → not_there l k key → l_num_keys l = MEM_BTREE_M →
  ∃ s' l' n' u,
    (split_leaf s a l k ≫= λ '(s, new_sibling, toInsert, k), leaf_add s key a new_sibling toInsert k) =
      Done (s', dummyleaf_ s, dummyval_ s) ∧
    leaf_was_split s a l key e lo hi s' l' n' u.
Proof.
  intros [Hl Hv (Hsp0 & Hsp1 & n0 & Hn0 & Hna) Hri Hed] Hok Hkey Hnt Hnum. pose proof (leaf_ok_arrays _ _ _ _ Hok) as Har.
  set (b := dummyleaf_ s) in *.
  destruct (split_leaf_spec s a l k b n0) as (s1 & l1 & n1 & c & ti & k1 & -> & Hfr1 & Hd1 & Hd1' & Hcut & Hlv1 & Hpos);
    [done|done|rewrite <-Hnum; apply Hnt|done..|].
  cbn [mbind result_bind]. destruct (ins_keys_ok _ _ _ _ _ _ Hok Hkey Hnt) as [Hso Hbo].
  pose proof (length_lkeys _ _ _ _ Hok) as Hlen. pose proof (length_lvals _ _ _ _ Hok) as Hlenv.
  assert (Hk15 : (k ≤ 15)%nat) by (destruct Hnt as [Hnt _]; rewrite Hnum in Hnt; exact Hnt).
  rewrite Hnum in Hlen, Hlenv.
  destruct (split_store s1 key a b ti k k1 c l l1 n1 (relink (leaves s) (l_right l) b))
    as (s' & l2 & n2 & Hrun & Hfr2 & Hd2 & Hd2' & Hlv2 & [Hp1 Hp2 Hp3 Hp4 Hp5 Hp6 Hp7 Hp8]); [done..|by rewrite Hd1|done|].
  rewrite Hd1 in *. destruct Hcut as [_ _ _ _ _ _ _ _ Hlk1 Hlk2].
  assert (Hln2 : length (lkeys n2) = l_num_keys n2) by (unfold lkeys; rewrite length_take; destruct Hp2; lia).
  assert (Hlvn2 : length (lvals n2) = l_num_keys n2) by (unfold lvals; rewrite length_take; destruct Hp2; lia).
  assert (Hll2 : length (lkeys l2) = l_num_keys l2) by (unfold lkeys; rewrite length_take; destruct Hp1; lia).
  assert (Hlvl2 : length (lvals l2) = l_num_keys l2) by (unfold lvals; rewrite length_take; destruct Hp1; lia).
  destruct (lookup_lt_is_Some_2 (lkeys n2) 0) as [u Hu]; [lia|].
  destruct (sorted_cut (lkeys l2) (lkeys n2) lo hi u) as (Hs1 & Hs2 & Hbo1 & Hbo2 & Hlu); [by rewrite Hp3..| |done|].
  { intros E. rewrite E in Hll2. cbn in Hll2. lia. }
  assert (Hvs : ∀ x, x ∈ lvals l2 ++ lvals n2 → x ≠ NULL) by (rewrite Hp4; by eapply ins_vals_ok).
  exists s', (bump_seq l2), n2, u. split; [done|]. split.
  - destruct Hfr1 as (? & ? & ? & ? & ?), Hfr2 as (? & ? & ? & ? & ?). unfold same_frame. intuition congruence.
  - by rewrite Hd2'.
  - done.
  - apply bump_seq_ok. destruct Hp1. split; try done. intros x Hx. apply Hvs, elem_of_app. by left.
  - destruct Hp2. split; try done.
    + intros He. destruct Hp6 as [|[_ Hr]]; [done|]. rewrite (Hed Hr) in He. done.
    + intros x Hx. apply Hvs, elem_of_app. by right.
  - done.
  - intros H1. destruct Hp6 as [|[_ Hr]]; [lia|]. by apply Hed.
  - cbn. destruct Hp7 as (-> & -> & ->), Hlk1 as (-> & -> & ->). done.
  - destruct Hp8 as (-> & -> & ->), Hlk2 as (-> & -> & ->). done.
  - exists k. split; [rewrite (length_lentries _ _ _ _ Hok), Hnum; exact Hk15|]. unfold lentries.
    change (lkeys (bump_seq l2)) with (lkeys l2). change (lvals (bump_seq l2)) with (lvals l2).
    rewrite <-zip_with_app by congruence. rewrite Hp3, Hp4. apply zip_ins. congruence.
Qed.

(** [LeafInsert] always returns: the node of the key if it is there, the spare node
    otherwise. *)
Lemma LeafInsert_spec s key a l e lo hi :
  leaf_pre s a l e → leaf_ok e l lo hi → lo ≤ key < hi →
  (∃ v, LeafInsert s key a = Done (s, NULL, v) ∧ (key, v) ∈ lentries l) ∨
  ((key ∉ lkeys l) ∧
   ((∃ s' l', LeafInsert s key a = Done (s', NULL, dummyval_ s) ∧ leaf_grew s a l key e lo hi s' l') ∨
    (∃ s' l' n' u, LeafInsert s key a = Done (s', dummyleaf_ s, dummyval_ s) ∧
       leaf_was_split s a l key e lo hi s' l' n' u))).
Proof.
  intros Hpre Hok Hkey. destruct (LeafInsert_head s key a l e lo hi) as [?|(Hnin & k & Hnt & ->)]; [apply Hpre|done|by left|].
  right. split; [done|]. case_decide as Hnum.
  - right. by eapply LeafInsert_split.
  - left. by eapply LeafInsert_room.
Qed.
