(* ===== verification/BPInner.v ===== *)
(** * Insertion into the inner nodes

    [insert_child] of BPlusTree.v on the arrays of an inner node, in its three cases,
    and [InnerInsert] on the tree: the leaf it changes is the one a search finds, and
    the tree around it is mended, by one more child or by a chain of splits. *)

From S2P Require Import Prelude Memstore BPlusTree BPTree BPLeaf.

Implicit Types (s : MemstoreBPlusTree).

(** The fields that inner nodes do not concern. *)
Definition same_leaves s s' : Prop :=
  root s' = root s ∧ depth s' = depth s ∧ leaves s' = leaves s ∧ localinit_ s' = localinit_ s ∧
  dummyval_ s' = dummyval_ s ∧ dummyleaf_ s' = dummyleaf_ s.

Lemma inner_store (t : InnerNode) k sep child :
  length (i_keys t) = NENT → length (i_children t) = S NENT → (i_num_keys t < NENT)%nat → (k ≤ i_num_keys t)%nat →
  ∃ ks cs, shift (i_keys t) (i_num_keys t) k = Done ks ∧ shift (i_children t) (i_num_keys t + 1) (k + 1) = Done cs ∧
    aset ks k sep = Done (<[k := sep]> ks) ∧ aset cs (k + 1) child = Done (<[(k + 1)%nat := child]> cs) ∧
    length (<[k := sep]> ks) = NENT ∧ length (<[(k + 1)%nat := child]> cs) = S NENT ∧
    take (i_num_keys t + 1) (<[k := sep]> ks) = ins k sep (ikeys t) ∧
    take (S (i_num_keys t + 1)) (<[(k + 1)%nat := child]> cs) = ins (S k) child (ikids t) ∧
    ∀ i, (i_num_keys t < i)%nat → <[k := sep]> ks !! i = i_keys t !! i.
Proof.
  intros Hk Hc Hn Hle. unfold NENT in *.
  destruct (shift_ins (i_keys t) (i_num_keys t) k sep) as (ks & -> & Hlk & Hik & Hrest); [lia|].
  destruct (shift_ins (i_children t) (i_num_keys t + 1) (k + 1) child) as (cs & -> & Hlc & Hic & _); [lia|].
  exists ks, cs. rewrite !aset_lt, !length_insert by lia. split_and!; [done..|lia|lia| | |done].
  - rewrite Nat.add_1_r. exact Hik.
  - rewrite Hic. unfold ikids. by rewrite !Nat.add_1_r.
Qed.

(** One more child. *)
Record inner_grown (k : nat) (sep child : Z) (n n' : InnerNode) : Prop := {
  ig_keys : length (i_keys n') = NENT;
  ig_children : length (i_children n') = S NENT;
  ig_num : i_num_keys n' = S (i_num_keys n);
  ig_ikeys : ikeys n' = ins k sep (ikeys n);
  ig_ikids : ikids n' = ins (S k) child (ikids n);
  ig_rest i : (i_num_keys n < i)%nat → i_keys n' !! i = i_keys n !! i;
}.

Lemma insert_child_room s a n k alone sep cmp child :
  inners s !! a = Some n → length (i_keys n) = NENT → length (i_children n) = S NENT → (i_num_keys n < NENT)%nat →
  (k ≤ i_num_keys n)%nat →
  ∃ n', insert_child s a k alone sep cmp child = Done (set_inner s a n', NULL, 0) ∧ inner_grown k sep child n n'.
Proof.
  intros Hn Hk Hc Hnum Hle. unfold insert_child. rewrite (inner_Some _ _ _ Hn). cbn [mbind result_bind].
  rewrite decide_False by lia. cbn [mbind result_bind]. rewrite (inner_Some _ _ _ Hn). cbn [mbind result_bind].
  destruct (inner_store n k sep child) as (ks & cs & -> & -> & Hs1 & Hs2 & Hl1 & Hl2 & Ht1 & Ht2 & Hr); [done..|].
  cbn [mbind result_bind]. rewrite Hs1. cbn [mbind result_bind]. rewrite Hs2. cbn [mbind result_bind].
  eexists. split; [done|]. split; cbn; try done; lia.
Qed.

(** A full node whose new child comes behind all others. *)
Record inner_alone s (a sep child : Z) s' (m : InnerNode) : Prop := {
  ia_same : same_leaves s s';
  ia_brk : brk_ s' = brk_ s + 1;
  ia_inners : inners s' = <[brk_ s := m]> (inners s);
  ia_keys : length (i_keys m) = NENT;
  ia_children : length (i_children m) = S NENT;
  ia_num : i_num_keys m = 0%nat;
  ia_ikids : ikids m = [child];
  ia_sep : i_keys m !! (NENT - 1)%nat = Some sep;
}.

Lemma insert_child_alone s a n k sep cmp child :
  inners s !! a = Some n → i_num_keys n = NENT → a ≠ brk_ s →
  ∃ s' m, insert_child s a k true sep cmp child = Done (s', brk_ s, sep) ∧ inner_alone s a sep child s' m.
Proof.
  intros Hn Hnum Hne. unfold insert_child. rewrite (inner_Some _ _ _ Hn). cbn [mbind result_bind].
  rewrite decide_True by done. unfold new_inner_node. cbn [mbind result_bind].
  repeat (rewrite (inner_Some _ (brk_ s)) with (n := InnerNode_new) by apply lookup_insert_eq; cbn [mbind result_bind]).
  rewrite aset_lt by (cbn; lia). cbn [mbind result_bind]. erewrite inner_Some by apply lookup_insert_eq. cbn [mbind result_bind].
  rewrite aset_lt by (cbn; lia). cbn [mbind result_bind]. eexists _, _. split; [done|]. split; cbn; try done; [by rewrite !insert_insert_eq|reflexivity..].
Qed.

(** A full node that is cut in two. *)
Record inner_cut s (a : Z) (n : InnerNode) (k : nat) (sep child : Z) s' (n1 n2 : InnerNode) (u : Z) : Prop := {
  ic_same : same_leaves s s';
  ic_brk : brk_ s' = brk_ s + 1;
  ic_inners : inners s' = <[a := n1]> (<[brk_ s := n2]> (inners s));
  ic_ok1 : inner_ok false n1;
  ic_ok2 : inner_ok false n2;
  ic_keys : ins k sep (ikeys n) = ikeys n1 ++ u :: ikeys n2;
  ic_kids : ins (S k) child (ikids n) = ikids n1 ++ ikids n2;
  ic_sep : i_keys n2 !! (NENT - 1)%nat = Some u;
}.

(** The arrays of the new sibling of a full node: its upper half, and the separator. *)
Lemma cut_arrays n :
  length (i_keys n) = NENT → length (i_children n) = S NENT →
  ∃ ks cs lc u, copy_from (i_keys n) (i_keys InnerNode_new) 8 0 7 = Done ks ∧
    copy_from (i_children n) (i_children InnerNode_new) 8 0 7 = Done cs ∧
    i_children n !! 15%nat = Some lc ∧ i_keys n !! 7%nat = Some u ∧ length ks = 15%nat ∧ length cs = 16%nat ∧
    take 7 (<[14%nat := u]> ks) = drop 8 (i_keys n) ∧ take 8 (<[7%nat := lc]> cs) = drop 8 (i_children n).
Proof.
  unfold NENT. intros Hk Hc.
  destruct (copy_from_take (i_keys n) (i_keys InnerNode_new) 8 7) as (ks & -> & Hlks & Htk); [lia|cbn; lia|].
  destruct (copy_from_take (i_children n) (i_children InnerNode_new) 8 7) as (cs & -> & Hlcs & Htc); [lia|cbn; lia|].
  change (length (i_keys InnerNode_new)) with 15%nat in Hlks. change (length (i_children InnerNode_new)) with 16%nat in Hlcs.
  destruct (lookup_lt_is_Some_2 (i_children n) 15) as [lc Hlc]; [lia|]. destruct (lookup_lt_is_Some_2 (i_keys n) 7) as [u Hu]; [lia|].
  exists ks, cs, lc, u. split_and!; [done..| |].
  - rewrite take_insert_ge by lia. rewrite Htk. apply take_ge. rewrite length_drop. lia.
  - apply list_eq. intros i. destruct (decide (i = 7%nat)) as [->|Hi7].
    + rewrite lookup_take_lt, list_lookup_insert_eq, lookup_drop by lia. done.
    + destruct (decide (i < 7)%nat) as [Hi|Hi].
      * rewrite lookup_take_lt, list_lookup_insert_ne by lia. rewrite <-(lookup_take_lt cs 7 i) by done. rewrite Htc.
        by rewrite lookup_take_lt.
      * rewrite lookup_take_ge by lia. symmetry. apply lookup_ge_None. rewrite length_drop. lia.
Qed.


Lemma insert_child_cut s a n k sep cmp child :
  inners s !! a = Some n → length (i_keys n) = NENT → length (i_children n) = S NENT → i_num_keys n = NENT →
  (k ≤ NENT)%nat → a ≠ brk_ s → (∀ u, ikeys n !! 7%nat = Some u → u ≤ cmp ↔ (8 ≤ k)%nat) →
  ∃ s' n1 n2 u, insert_child s a k false sep cmp child = Done (s', brk_ s, u) ∧ inner_cut s a n k sep child s' n1 n2 u.
Proof.
  intros Hn Hk Hc Hnum Hle Hne Hcmp. unfold insert_child. rewrite (inner_Some _ _ _ Hn). cbn [mbind result_bind].
  rewrite decide_True by done. unfold new_inner_node. cbn [mbind result_bind].
  rewrite (inner_Some _ (brk_ s)) with (n := InnerNode_new) by apply lookup_insert_eq. cbn [mbind result_bind].
  rewrite Hnum. change (NENT - (NENT + 1) / 2)%nat with 7%nat. change ((NENT + 1) / 2)%nat with 8%nat. unfold NENT in *.
  assert (Hfull : ikeys n = i_keys n) by (unfold ikeys; apply take_ge; lia).
  assert (Hfullc : ikids n = i_children n) by (unfold ikids; apply take_ge; lia).
  destruct (cut_arrays n Hk Hc) as (ks & cs & lc & u & -> & -> & Hlc & Hu & Hlks & Hlcs & Hks' & Hcs').
  cbn [mbind result_bind]. rewrite (aget_Some _ _ _ Hlc). cbn [mbind result_bind]. rewrite aset_lt by lia. cbn [mbind result_bind].
  change (8 - 1)%nat with 7%nat. rewrite (aget_Some _ _ _ Hu). cbn [mbind result_bind]. rewrite Hfull in Hcmp. specialize (Hcmp u Hu).
  pose proof (take_drop_middle _ _ _ Hu) as Hmid.
  assert (Hmid' : i_keys n = (take 7 (i_keys n) ++ [u]) ++ drop 8 (i_keys n)) by (rewrite <-app_assoc; exact (eq_sym Hmid)).
  set (cs' := <[7%nat := lc]> cs) in *. set (ks' := <[14%nat := u]> ks) in *.
  assert (Hok2 : ∀ e, inner_ok e (mkInner 7 ks' cs')).
  { intros e. unfold ks', cs'. split; cbn; rewrite ?length_insert; unfold NENT; lia. }
  assert (Hok1 : ∀ e, inner_ok e (mkInner 7 (i_keys n) (i_children n))) by (intros e; split; cbn; unfold NENT; lia).
  destruct (decide (u ≤ cmp)) as [Hucmp|Hucmp]; cbn [mbind result_bind].
  - assert (Hk8 : (8 ≤ k)%nat) by tauto. rewrite decide_True by done.
    erewrite (inner_Some _ (brk_ s)) by (cbn; rewrite lookup_insert_ne by done; apply lookup_insert_eq). cbn [mbind result_bind i_keys].
    rewrite aset_lt by (unfold NENT in *; lia). cbn [mbind result_bind i_num_keys i_children].
    erewrite (inner_Some _ (brk_ s)) by (apply lookup_insert_eq). cbn [mbind result_bind].
    destruct (inner_store (mkInner 7 ks' cs') (k - 8) sep child) as (ks2 & cs2 & Hr1 & Hr2 & Hr3 & Hr4 & Hr5 & Hr6 & Hr7 & Hr8 & Hr9);
      [apply (in_keys _ _ (Hok2 true))|apply (in_children _ _ (Hok2 true))|cbn; unfold NENT; lia|cbn; lia|].
    change (15 - 1)%nat with 14%nat. fold ks'. cbn [i_keys i_num_keys i_children] in *. rewrite Hr1. cbn [mbind result_bind].
    rewrite Hr2. cbn [mbind result_bind]. rewrite Hr3. cbn [mbind result_bind]. rewrite Hr4. cbn [mbind result_bind].
    change (7 + 1)%nat with 8%nat in Hr7, Hr8. eexists _, _, _, u. split; [done|]. split; cbn.
    + done.
    + done.
    + rewrite !insert_insert_eq, (insert_insert_ne _ (brk_ s) a) by done. by rewrite !insert_insert_eq.
    + apply Hok1.
    + split; cbn; unfold NENT in *; first [done | lia].
    + rewrite Hfull. unfold ikeys. cbn [i_keys i_num_keys]. rewrite Hr7. unfold ikeys. cbn [i_keys i_num_keys].
      rewrite Hks'. rewrite Hmid' at 1. rewrite ins_app_r by (rewrite length_app, length_take, Hk; cbn; lia).
      rewrite <-app_assoc, length_app, length_take, Hk. done.
    + rewrite Hfullc. unfold ikids. cbn [i_children i_num_keys]. rewrite Hr8. unfold ikids. cbn [i_children i_num_keys].
      rewrite Hcs'. rewrite <-(take_drop 8 (i_children n)) at 1. rewrite ins_app_r by (rewrite length_take; lia).
      do 2 f_equal. rewrite length_take. lia.
    + change (15 - 1)%nat with 14%nat. rewrite Hr9 by lia. unfold ks'. apply list_lookup_insert_eq. lia.
  - assert (Hk8 : (k < 8)%nat) by lia.
    erewrite (inner_Some _ (brk_ s)) by (cbn; rewrite lookup_insert_ne by done; apply lookup_insert_eq). cbn [mbind result_bind i_keys].
    rewrite aset_lt by (unfold NENT in *; lia). cbn [mbind result_bind i_num_keys i_children].
    erewrite (inner_Some _ a) by (cbn; rewrite lookup_insert_ne by done; apply lookup_insert_eq). cbn [mbind result_bind].
    destruct (inner_store (mkInner 7 (i_keys n) (i_children n)) k sep child) as (ks2 & cs2 & Hr1 & Hr2 & Hr3 & Hr4 & Hr5 & Hr6 & Hr7 & Hr8 & Hr9);
      [apply (in_keys _ _ (Hok1 true))|apply (in_children _ _ (Hok1 true))|cbn; unfold NENT; lia|cbn; lia|].
    change (15 - 1)%nat with 14%nat. fold ks'. cbn [i_keys i_num_keys i_children] in *. rewrite Hr1. cbn [mbind result_bind].
    rewrite Hr2. cbn [mbind result_bind]. rewrite Hr3. cbn [mbind result_bind]. rewrite Hr4. cbn [mbind result_bind].
    change (7 + 1)%nat with 8%nat in Hr7, Hr8. eexists _, _, _, u. split; [done|]. split; cbn.
    + done.
    + done.
    + rewrite (insert_insert_ne _ (brk_ s) a) by done. by rewrite !insert_insert_eq.
    + split; cbn; unfold NENT in *; first [done | lia].
    + apply Hok2.
    + rewrite Hfull. unfold ikeys. cbn [i_keys i_num_keys]. rewrite Hr7. unfold ikeys. cbn [i_keys i_num_keys].
      rewrite Hks'. rewrite <-Hmid at 1. rewrite ins_app_l by (rewrite length_take; lia). done.
    + rewrite Hfullc. unfold ikids. cbn [i_children i_num_keys]. rewrite Hr8. unfold ikids. cbn [i_children i_num_keys].
      rewrite Hcs'. rewrite <-(take_drop 8 (i_children n)) at 1. rewrite ins_app_l by (rewrite length_take; lia). done.
    + unfold ks'. apply list_lookup_insert_eq. lia.
Qed.
