(* ===== verification/BPInsert.v ===== *)
(** * Insertion into the tree

    [LeafInsert] and [InnerInsert] seen from a subtree: one step at a leaf, and a
    subtree that has either kept its root or got a new sibling with a separator. *)

From S2P Require Import Prelude Memstore BPlusTree BPTree BPLeaf BPInner.

Implicit Types (s : MemstoreBPlusTree).

(** ** The step at the leaf *)

Record leaf_ctx s (L : list Z) (e : bool) : Prop := {
  cx_val : dummyval_ s ≠ NULL;
  cx_spare : dummyleaf_ s ≠ NULL ∧ ∃ n, leaves s !! dummyleaf_ s = Some n ∧ arrays_ok n;
  cx_not_spare : dummyleaf_ s ∉ L;
  cx_right a l : a ∈ L → leaves s !! a = Some l → l_right l ≠ NULL →
    is_Some (leaves s !! l_right l) ∧ l_right l ≠ a ∧ l_right l ≠ dummyleaf_ s;
  cx_edge a l : a ∈ L → leaves s !! a = Some l → l_right l = NULL → e = true ∧ last L = Some a;
}.

Lemma leaf_ctx_sub s L1 L2 L3 e e' :
  leaf_ctx s (L1 ++ L2 ++ L3) e → NoDup (L1 ++ L2 ++ L3) → (L3 = [] → e' = e) → leaf_ctx s L2 e'.
Proof.
  intros [H1 H2 H3 H4 H5] Hnd He. split; [done..|set_solver| |].
  - intros a l Ha. apply H4. set_solver.
  - intros a l Ha Hl Hr. destruct (H5 a l) as [-> Hlast]; [set_solver|done..|].
    apply NoDup_app in Hnd as (_ & _ & Hnd). apply NoDup_app in Hnd as (_ & Hdisj & _).
    destruct L3 as [|x L3]; [|exfalso].
    + rewrite app_nil_r in Hlast. split; [auto|]. destruct L2 as [|y L2]; [by apply not_elem_of_nil in Ha|].
      rewrite last_app in Hlast. destruct (last (y :: L2)) eqn:E; [done|]. rewrite last_cons in E. by destruct (last L2).
    + apply (Hdisj a Ha). rewrite !last_app in Hlast. rewrite last_cons in Hlast.
      destruct (last L3) eqn:E; injection Hlast as <-; [|by left]. right. by apply last_Some_elem_of.
Qed.

Lemma leaf_ctx_pre s L e a l : leaf_ctx s L e → a ∈ L → leaves s !! a = Some l → leaf_pre s a l e.
Proof.
  intros [H1 [H2 H2'] H3 H4 H5] Ha Hl. split; [done..| | |].
  - split_and!; [done| |done]. by intros <-.
  - by apply (H4 a).
  - intros Hr. by apply (H5 a l).
Qed.

Inductive leaf_step s (L : list Z) (key lo hi : Z) : MemstoreBPlusTree → list Z → Z → Prop :=
  | step_hit b l e' lo' hi' L1 L2 v :
      found s L key b l e' lo' hi' L1 L2 → lo ≤ lo' → hi' ≤ hi → (key, v) ∈ lentries l →
      leaf_step s L key lo hi s L v
  | step_grew b l e' lo' hi' L1 L2 s' l' :
      found s L key b l e' lo' hi' L1 L2 → lo ≤ lo' → hi' ≤ hi → key ∉ lkeys l →
      leaf_grew s b l key e' lo' hi' s' l' →
      leaf_step s L key lo hi s' L (dummyval_ s)
  | step_split b l e' lo' hi' L1 L2 s' l' n' u :
      found s L key b l e' lo' hi' L1 L2 → lo ≤ lo' → hi' ≤ hi → key ∉ lkeys l →
      leaf_was_split s b l key e' lo' hi' s' l' n' u →
      leaf_step s L key lo hi s' (L1 ++ b :: dummyleaf_ s :: L2) (dummyval_ s).

Lemma found_widen s L L1 L3 key b l e lo hi M1 M2 :
  found s L key b l e lo hi M1 M2 → (∀ x, x ∈ keys_of s L1 → x < lo) → (∀ x, x ∈ keys_of s L3 → hi ≤ x) →
  found s (L1 ++ L ++ L3) key b l e lo hi (L1 ++ M1) (M2 ++ L3).
Proof.
  intros [-> H1 H2 H3 H4 H5] Hb1 Hb3. split; [by rewrite <-!app_assoc|done..| |]; intros x; unfold keys_of;
    rewrite bind_app, elem_of_app; naive_solver.
Qed.

Lemma leaf_step_widen s L L1 L3 key lo hi lo1 hi1 s' L' v :
  leaf_step s L key lo1 hi1 s' L' v → lo ≤ lo1 → hi1 ≤ hi →
  (∀ x, x ∈ keys_of s L1 → x < lo1) → (∀ x, x ∈ keys_of s L3 → hi1 ≤ x) →
  leaf_step s (L1 ++ L ++ L3) key lo hi s' (L1 ++ L' ++ L3) v.
Proof.
  intros Hst Hlo Hhi Hb1 Hb3. destruct Hst as [b l e' lo' hi' M1 M2 v Hf ? ? ?|b l e' lo' hi' M1 M2 s' l' Hf ? ? ? ?|b l e' lo' hi' M1 M2 s' l' n' u Hf ? ? ? ?];
    (eapply (found_widen _ _ L1 L3) in Hf; [|intros x Hx; specialize (Hb1 x Hx); lia|intros x Hx; specialize (Hb3 x Hx); lia]).
  - eapply step_hit; [done|lia..|done].
  - eapply step_grew; [done|lia..|done|done].
  - replace (L1 ++ (M1 ++ b :: dummyleaf_ s :: M2) ++ L3) with ((L1 ++ M1) ++ b :: dummyleaf_ s :: M2 ++ L3)
      by by rewrite <-!app_assoc. eapply step_split; [done|lia..|done|done].
Qed.

Lemma relink_same m r b x l : m !! x = Some l → ∃ l', relink m r b !! x = Some l' ∧ same_data l l'.
Proof.
  intros Hx. unfold relink. case_decide; [exists l; done|]. destruct (decide (x = r)) as [->|].
  - rewrite lookup_alter_eq, Hx. exists (upd_left b l). done.
  - rewrite lookup_alter_ne by done. exists l. done.
Qed.

(** Leaves outside the subtree keep their entries; the inner nodes are not touched. *)
Lemma leaf_step_frame s L key lo hi s' L' v x l :
  leaf_step s L key lo hi s' L' v → x ∉ L → x ≠ dummyleaf_ s → leaves s !! x = Some l →
  ∃ l', leaves s' !! x = Some l' ∧ same_data l l'.
Proof.
  intros Hst Hx Hd Hl. destruct Hst as [|b lb e' lo' hi' M1 M2 s' l' [-> _ _ _ _ _] ? ? _ [_ _ Hlv _ _ _]|b lb e' lo' hi' M1 M2 s' l' n' u [-> _ _ _ _ _] ? ? _ [_ _ Hlv _ _ _ _ _ _ _]].
  - by exists l.
  - exists l. rewrite Hlv, lookup_insert_ne by set_solver. done.
  - rewrite Hlv, !lookup_insert_ne by set_solver. by apply relink_same.
Qed.

Lemma leaf_step_same s L key lo hi s' L' v : leaf_step s L key lo hi s' L' v → same_frame s s'.
Proof. destruct 1 as [|? ? ? ? ? ? ? ? ? ? ? ? ? []|? ? ? ? ? ? ? ? ? ? ? ? ? ? ? []]; [done..]. Qed.

(** ** What happens to a subtree *)

Record sub_post s (d : nat) (e : bool) (a lo hi : Z) (I : list Z) s' (r u : Z) (L' : list Z) : Prop := {
  sp_brk : brk_ s ≤ brk_ s';
  sp_frame x : x ∉ I → x < brk_ s → inners s' !! x = inners s !! x;
  sp_tree :
    (r = NULL ∧ ∃ I', tree s' d e a lo hi L' I' ∧ NoDup I' ∧ ∀ x, x ∈ I' → x ∈ I ∨ brk_ s ≤ x < brk_ s') ∨
    (r ≠ NULL ∧ lo < u < hi ∧ ∃ L1 I1 L2 I2, L' = L1 ++ L2 ∧ tree s' d false a lo u L1 I1 ∧
       tree s' d e r u hi L2 I2 ∧ NoDup (I1 ++ I2) ∧ ∀ x, x ∈ I1 ++ I2 → x ∈ I ∨ brk_ s ≤ x < brk_ s');
}.

Lemma LeafInsert_sub s e a lo hi L I key :
  tree s 0 e a lo hi L I → lo ≤ key < hi → leaf_ctx s L e →
  ∃ s' L' r v u, LeafInsert s key a = Done (s', r, v) ∧ leaf_step s L key lo hi s' L' v ∧ (s' = s → r = NULL) ∧
    sub_post s 0 e a lo hi I s' r u L' ∧ (r ≠ NULL → ∃ nl, leaves s' !! r = Some nl ∧ l_keys nl !! 0%nat = Some u).
Proof.
  intros (-> & -> & l & Hl & Hok) Hkey Hctx.
  assert (Hf : found s [a] key a l e lo hi [] []) by (split; try done; intros ? []%not_elem_of_nil).
  pose proof (leaf_ctx_pre s [a] e a l Hctx ltac:(by left) Hl) as Hpre.
  destruct (LeafInsert_spec s key a l e lo hi Hpre Hok Hkey) as [(v & Hrun & Hv)|[Hnin [(s' & l' & Hrun & Hg)|(s' & l' & n' & u & Hrun & Hsp)]]].
  - exists s, [a], NULL, v, 0. split_and!; [done|eapply step_hit; [done|lia..|done]|done| |done]. split; [done..|]. left.
    split; [done|]. exists []. split_and!; [|constructor|by intros ? ?%not_elem_of_nil]. split_and!; [done..|]. by exists l.
  - exists s', [a], NULL, (dummyval_ s), 0. split_and!; [done|eapply step_grew; [done|lia..|done|done]|done| |done].
    destruct Hg as [(? & ? & Hin & Hbr & ?) _ Hlv Hok' _ _]. split; [by rewrite Hbr|by rewrite Hin|]. left.
    split; [done|]. exists []. split_and!; [|constructor|by intros ? ?%not_elem_of_nil]. split_and!; [done..|]. exists l'.
    split; [|done]. by rewrite Hlv, lookup_insert_eq.
  - exists s', ([] ++ a :: dummyleaf_ s :: []), (dummyleaf_ s), (dummyval_ s), u.
    assert (Hne : dummyleaf_ s ≠ a) by apply Hpre. assert (Hnn : dummyleaf_ s ≠ NULL) by apply Hpre.
    pose proof Hsp as [(? & ? & Hin & Hbr & ?) [Hdv _] Hlv Hok1 Hok2 [Hu Hu0] _ _ _ _].
    assert (Hlb : leaves s' !! dummyleaf_ s = Some n') by (rewrite Hlv, lookup_insert_ne by done; apply lookup_insert_eq).
    split_and!; [done|eapply step_split; [done|lia..|done|done]|intros ->; by destruct (lp_val _ _ _ _ Hpre)| |].
    + split; [by rewrite Hbr|by rewrite Hin|]. right. split_and!; [done|lia|lia|]. exists [a], [], [dummyleaf_ s], [].
      split_and!; [done|..|constructor|by intros ? ?%not_elem_of_nil].
      * split_and!; [done..|]. exists l'. split; [|done]. by rewrite Hlv, lookup_insert_eq.
      * split_and!; [done..|]. by exists n'.
    + intros _. exists n'. split; [done|]. unfold lkeys in Hu0. by apply lookup_take_Some in Hu0 as [? _].
Qed.

(** ** One level of the tree *)

Lemma nodup_replace (A B B' C : list Z) b :
  NoDup (A ++ B ++ C) → NoDup B' → (∀ x, x ∈ B' → x ∈ B ∨ b ≤ x) → (∀ x, x ∈ A ++ B ++ C → x < b) →
  NoDup (A ++ B' ++ C).
Proof.
  rewrite !NoDup_app. intros (HA & Hd & HB & Hd' & HC) HB' Hin Hlt.
  assert (Hlt' : ∀ x, x ∈ B' → (x ∈ A ∨ x ∈ C) → x ∈ B).
  { intros x Hx HAC. destruct (Hin x Hx) as [?|Hge]; [done|]. specialize (Hlt x ltac:(set_solver)). lia. }
  split_and!; [done| |done| |done].
  - intros x HxA [Hx|Hx]%elem_of_app; [|apply (Hd x HxA), elem_of_app; by right].
    apply (Hd x HxA), elem_of_app. left. auto.
  - intros x Hx HxC. apply (Hd' x); auto.
Qed.

Section step.
Context s (d : nat) (e : bool) (a lo hi : Z) (n : InnerNode) (k : nat) (p : Z).
Context (L1 I1 L2 I2 L3 I3 : list Z).
Context (Hn : inners s !! a = Some n) (Hok : inner_ok e n).
Context (Hfo : focus (tree s d) e lo (ikeys n) (ikids n) hi k p L1 I1 L2 I2 L3 I3).
Context (HndI : NoDup (a :: I1 ++ I2 ++ I3)) (Hbrk : ∀ x, x ∈ a :: I1 ++ I2 ++ I3 → x < brk_ s) (Hpos : 0 < brk_ s).
Context (HndL : NoDup (L1 ++ L2 ++ L3)) (Hspare : dummyleaf_ s ∉ L1 ++ L2 ++ L3).
Context (Hk : (k ≤ length (ikeys n))%nat).

Context s1 s0 (L2' : list Z) (key v r u : Z).
Context (Hst : leaf_step s L2 key (lower lo (ikeys n) k) (upper (ikeys n) hi k) s0 L2' v) (Hsame : same_leaves s0 s1).
Context (Hsub : sub_post s d (e && bool_decide (k = length (ikeys n))) p (lower lo (ikeys n) k) (upper (ikeys n) hi k) I2 s1 r u L2').

(** The other children do not notice. *)
Lemma step_others s2 e' p' lo' hi' L I :
  (∀ x, x ∈ I1 ++ I3 → inners s2 !! x = inners s1 !! x) → leaves s2 = leaves s1 →
  tree s d e' p' lo' hi' L I → L ⊆ L1 ++ L3 → I ⊆ I1 ++ I3 → tree s2 d e' p' lo' hi' L I.
Proof using All.
  intros Hin Hlv Ht HL HI. eapply tree_frame; [..|exact Ht].
  - intros b l Hb Hl. rewrite Hlv. destruct Hsame as (_ & _ & -> & _). eapply leaf_step_frame; [exact Hst|..|done].
    + specialize (HL b Hb). intros Hb2. apply NoDup_app in HndL as (_ & Hd1 & Hnd2). apply NoDup_app in Hnd2 as (_ & Hd2 & _).
      apply elem_of_app in HL as [HL|HL]; [apply (Hd1 b HL); set_solver|by apply (Hd2 b)].
    + intros ->. apply Hspare. specialize (HL _ Hb). set_solver.
  - intros b Hb. specialize (HI b Hb). rewrite Hin by done. apply (sp_frame _ _ _ _ _ _ _ _ _ _ _ Hsub).
    + intros Hb2. apply NoDup_cons in HndI as [_ Hnd]. apply NoDup_app in Hnd as (_ & Hd1 & Hnd2).
      apply NoDup_app in Hnd2 as (_ & Hd2 & _).
      apply elem_of_app in HI as [HI|HI]; [apply (Hd1 b HI); set_solver|by apply (Hd2 b)].
    + apply Hbrk. set_solver.
Qed.

Lemma step_a_fresh : inners s1 !! a = Some n ∧ a < brk_ s ∧ (a ∉ I1 ++ I3) ∧ a ∉ I2.
Proof using All.
  assert (a < brk_ s) by (apply Hbrk; by left). apply NoDup_cons in HndI as [Hnin _].
  split_and!; [|done|set_solver..]. rewrite (sp_frame _ _ _ _ _ _ _ _ _ _ _ Hsub); [done|set_solver|done].
Qed.

Lemma step_none I2' :
  r = NULL → tree s1 d (e && bool_decide (k = length (ikeys n))) p (lower lo (ikeys n) k) (upper (ikeys n) hi k) L2' I2' →
  NoDup I2' → (∀ x, x ∈ I2' → x ∈ I2 ∨ brk_ s ≤ x < brk_ s1) →
  sub_post s (S d) e a lo hi (a :: I1 ++ I2 ++ I3) s1 NULL 0 (L1 ++ L2' ++ L3).
Proof using All.
  intros Hr Ht Hnd Hin. destruct step_a_fresh as (Ha & Hab & Ha1 & Ha2). pose proof (sp_brk _ _ _ _ _ _ _ _ _ _ _ Hsub) as Hb.
  split; [done| |].
  - intros x Hx Hlt. apply (sp_frame _ _ _ _ _ _ _ _ _ _ _ Hsub); [set_solver|done].
  - left. split; [done|]. exists (a :: I1 ++ I2' ++ I3). split_and!.
    + exists n, (I1 ++ I2' ++ I3). split_and!; [done..|]. apply (fo_one _ _ _ _ _ _ _ _ _ _ _ _ _ _ Hfo); [|done].
      intros. by eapply step_others.
    + apply NoDup_cons in HndI as [Hna HndI']. constructor.
      * intros [?|[Hx|?]%elem_of_app]%elem_of_app; [set_solver| |set_solver]. destruct (Hin a Hx); [done|lia].
      * eapply (nodup_replace _ _ _ _ (brk_ s)); [done|done|intros x Hx; destruct (Hin x Hx); [by left|right; lia]|]. intros x Hx. apply Hbrk. by right.
    + intros x [->|[Hx|[Hx|Hx]%elem_of_app]%elem_of_app]%elem_of_cons; [left; by left|left; set_solver| |left; set_solver].
      destruct (Hin x Hx); [left; set_solver|by right].
Qed.

(** The child got a sibling. *)
Context (La Ia Lb Ib : list Z).
Context (Hr : r ≠ NULL) (Hu : lower lo (ikeys n) k < u < upper (ikeys n) hi k) (HL2 : L2' = La ++ Lb).
Context (Hta : tree s1 d false p (lower lo (ikeys n) k) u La Ia).
Context (Htb : tree s1 d (e && bool_decide (k = length (ikeys n))) r u (upper (ikeys n) hi k) Lb Ib).
Context (Hndab : NoDup (Ia ++ Ib)) (Hin : ∀ x, x ∈ Ia ++ Ib → x ∈ I2 ∨ brk_ s ≤ x < brk_ s1).

Lemma step_inners x : x ∈ I1 ++ (Ia ++ Ib) ++ I3 → x ≠ a ∧ x < brk_ s1 ∧ (x ∈ I1 ++ I2 ++ I3 ∨ brk_ s ≤ x < brk_ s1).
Proof using All.
  destruct step_a_fresh as (_ & Hab & Ha1 & Ha2). pose proof (sp_brk _ _ _ _ _ _ _ _ _ _ _ Hsub) as Hb. intros Hx.
  assert (x ∈ I1 ++ I3 ∨ x ∈ Ia ++ Ib) as [Hx'|Hx'] by set_solver.
  - assert (x < brk_ s) by (apply Hbrk; set_solver). split_and!; [set_solver|lia|left; set_solver].
  - destruct (Hin x Hx') as [Hx2|Hx2].
    + assert (x < brk_ s) by (apply Hbrk; set_solver). split_and!; [set_solver|lia|left; set_solver].
    + split_and!; [lia|lia|right; lia].
Qed.

Lemma step_nodup : NoDup (I1 ++ (Ia ++ Ib) ++ I3).
Proof using All.
  apply NoDup_cons in HndI as [_ HndI']. eapply (nodup_replace _ _ _ _ (brk_ s)); [done|done| |].
  - intros x Hx. destruct (Hin x Hx); [by left|right; lia].
  - intros x Hx. apply Hbrk. by right.
Qed.

Section after.
Context s2 (Hlv2 : leaves s2 = leaves s1) (Hin2 : ∀ x, x ≠ a → x < brk_ s1 → inners s2 !! x = inners s1 !! x).

Lemma after_frame e' p' lo' hi' L I : I ⊆ Ia ++ Ib → tree s1 d e' p' lo' hi' L I → tree s2 d e' p' lo' hi' L I.
Proof using All.
  intros HI Ht. eapply tree_frame; [..|exact Ht].
  - intros b l _ Hl. exists l. by rewrite Hlv2.
  - intros b Hb. destruct (step_inners b) as (? & ? & _); [|by apply Hin2]. specialize (HI b Hb). set_solver.
Qed.

Lemma after_others e' p' lo' hi' L I :
  tree s d e' p' lo' hi' L I → L ⊆ L1 ++ L3 → I ⊆ I1 ++ I3 → tree s2 d e' p' lo' hi' L I.
Proof using All.
  intros Ht HL HI. eapply step_others; [|exact Hlv2|done..]. intros x Hx. destruct (step_inners x) as (? & ? & _); [set_solver|].
  by apply Hin2.
Qed.

Lemma after_forest :
  forest (tree s2 d) e lo (ins k u (ikeys n)) (ins (S k) r (ikids n)) hi (L1 ++ (La ++ Lb) ++ L3) (I1 ++ (Ia ++ Ib) ++ I3).
Proof using All.
  apply (fo_two _ _ _ _ _ _ _ _ _ _ _ _ _ _ Hfo); [apply after_others|done|..]; (apply after_frame; [set_solver|done]).
Qed.

Lemma after_cut :
  k = length (ikeys n) → e = true →
  L3 = [] ∧ I3 = [] ∧ forest (tree s2 d) false lo (ikeys n) (ikids n) u (L1 ++ La) (I1 ++ Ia) ∧
  forest (tree s2 d) e u [] [r] hi Lb Ib.
Proof using All.
  intros Hkl He. destruct (fo_last _ _ _ _ _ _ _ _ _ _ _ _ _ _ Hfo Hkl) as [H1 H2]. split_and!; [done..| |].
  - apply (fo_cut _ _ _ _ _ _ _ _ _ _ _ _ _ _ Hfo); [done|apply after_others|lia|]. apply after_frame; [set_solver|done].
  - assert (Hup : upper (ikeys n) hi k = hi) by (unfold upper; rewrite lookup_ge_None_2 by lia; done).
    split; [lia|]. apply after_frame; [set_solver|]. pose proof Htb as Ht. rewrite Hup in Ht.
    by rewrite bool_decide_eq_true_2, andb_true_r in Ht by done.
Qed.
End after.

(** The frame condition of [sub_post] for a change of [a] and of a new node. *)
Lemma after_sp_frame s2 x :
  (∀ x, x ≠ a → x < brk_ s1 → inners s2 !! x = inners s1 !! x) → x ∉ a :: I1 ++ I2 ++ I3 → x < brk_ s →
  inners s2 !! x = inners s !! x.
Proof using All.
  intros Hin2 Hx Hlt. pose proof (sp_brk _ _ _ _ _ _ _ _ _ _ _ Hsub). assert (x ≠ a) by (intros ->; apply Hx; by left).
  rewrite Hin2 by (done || lia). apply (sp_frame _ _ _ _ _ _ _ _ _ _ _ Hsub); [|done].
  intros Hx2. apply Hx. right. apply elem_of_app. right. apply elem_of_app. by left.
Qed.

Definition grew_post s2 (r2 u2 : Z) : Prop :=
  same_leaves s1 s2 ∧ sub_post s (S d) e a lo hi (a :: I1 ++ I2 ++ I3) s2 r2 u2 (L1 ++ L2' ++ L3) ∧
  (r2 ≠ NULL → ∃ m, inners s2 !! r2 = Some m ∧ i_keys m !! (NENT - 1)%nat = Some u2).

Lemma step_room alone cmp :
  (i_num_keys n < NENT)%nat → ∃ s2 r2 u2, insert_child s1 a k alone u cmp r = Done (s2, r2, u2) ∧ grew_post s2 r2 u2.
Proof using All.
  intros Hnum. destruct step_a_fresh as (Ha & Hab & Ha1 & Ha2). pose proof (sp_brk _ _ _ _ _ _ _ _ _ _ _ Hsub) as Hb.
  destruct (insert_child_room s1 a n k alone u cmp r) as (n' & Hrun & [Hg1 Hg2 Hg3 Hg4 Hg5 _]);
    [done|apply Hok|apply Hok|done|by rewrite <-(length_ikeys _ _ Hok)|].
  exists (set_inner s1 a n'), NULL, 0. split; [done|]. split; [done|]. split; [|done].
  assert (Hin2 : ∀ x, x ≠ a → x < brk_ s1 → inners (set_inner s1 a n') !! x = inners s1 !! x).
  { intros x Hx _. cbn. by rewrite lookup_insert_ne. }
  split; [done|intros x; by apply after_sp_frame|]. left. split; [done|]. exists (a :: I1 ++ (Ia ++ Ib) ++ I3). split_and!.
  - exists n', (I1 ++ (Ia ++ Ib) ++ I3). split_and!; [apply lookup_insert_eq| |done|].
    + split; [done..|unfold NENT in *; lia|]. intros He. pose proof (in_fill _ _ Hok He). lia.
    + rewrite Hg4, Hg5, HL2. by apply after_forest.
  - constructor; [|apply step_nodup]. intros Hx. by destruct (step_inners a Hx) as [? _].
  - intros x [->|Hx]%elem_of_cons; [left; by left|]. destruct (step_inners x Hx) as (_ & _ & [?|?]); [left; by right|by right].
Qed.

Lemma step_alone cmp :
  i_num_keys n = NENT → e && bool_decide (k = length (ikeys n)) = true →
  ∃ s2 r2 u2, insert_child s1 a k true u cmp r = Done (s2, r2, u2) ∧ grew_post s2 r2 u2.
Proof using All.
  intros Hnum [He Hkl%bool_decide_eq_true]%andb_true_iff.
  destruct step_a_fresh as (Ha & Hab & Ha1 & Ha2). pose proof (sp_brk _ _ _ _ _ _ _ _ _ _ _ Hsub) as Hb.
  destruct (insert_child_alone s1 a n k u cmp r) as (s2 & m & Hrun & [Hm1 Hm2 Hm3 Hm4 Hm5 Hm6 Hm7 Hm8]); [done|done|lia|].
  exists s2, (brk_ s1), u. split; [done|]. split; [done|].
  assert (Hin2 : ∀ x, x ≠ a → x < brk_ s1 → inners s2 !! x = inners s1 !! x).
  { intros x _ Hx. rewrite Hm3, lookup_insert_ne by lia. done. }
  assert (Hlv2 : leaves s2 = leaves s1) by apply Hm1.
  destruct (after_cut s2 Hlv2 Hin2 Hkl He) as (HL3 & HI3 & Hfa & Hfb).
  assert (Hmm : inners s2 !! brk_ s1 = Some m) by (rewrite Hm3; apply lookup_insert_eq).
  split; [|intros _; by exists m].
  split; [lia|intros x; by apply after_sp_frame|]. right. split; [unfold NULL; lia|].
  pose proof (forest_sorted _ _ _ _ _ _ _ _ Hfa) as (_ & _ & Hlo). destruct Hfb as [Hhi Hfb]. split; [lia|].
  exists (L1 ++ La), (a :: I1 ++ Ia), Lb, (brk_ s1 :: Ib). split_and!.
  - rewrite HL2, HL3, app_nil_r. by rewrite app_assoc.
  - exists n, (I1 ++ Ia). split_and!; [|split; [apply Hok|apply Hok|apply Hok|unfold NENT in *; lia]|done|done].
    rewrite Hm3, lookup_insert_ne by lia. done.
  - exists m, Ib. split_and!; [done| |done|].
    + split; [done|done|unfold NENT in *; lia|by rewrite He].
    + rewrite Hm7. unfold ikeys. rewrite Hm6. cbn. by split.
  - pose proof step_nodup as Hnd. rewrite HI3, app_nil_r in Hnd.
    assert (Hp : a :: (I1 ++ Ia) ++ brk_ s1 :: Ib ≡ₚ a :: brk_ s1 :: I1 ++ Ia ++ Ib).
    { f_equiv. rewrite <-app_assoc. symmetry. rewrite (app_assoc I1 Ia Ib), (app_assoc I1 Ia). apply Permutation_middle. }
    cbn. rewrite Hp. assert (Hx : ∀ x, x ∈ I1 ++ Ia ++ Ib → x ≠ a ∧ x < brk_ s1).
    { intros x Hx. destruct (step_inners x) as (? & ? & _); [set_solver|done]. }
    constructor; [|constructor; [|done]].
    + intros [?|Hxa]%elem_of_cons; [lia|]. by destruct (Hx a Hxa).
    + intros Hxb. destruct (Hx _ Hxb). lia.
  - intros x Hx. assert (x = a ∨ x = brk_ s1 ∨ x ∈ I1 ++ (Ia ++ Ib) ++ I3) as [->|[->|Hx']] by set_solver.
    + left. by left.
    + right. lia.
    + destruct (step_inners x Hx') as (_ & _ & [?|?]); [left; by right|right; lia].
Qed.

Lemma step_cut cmp :
  i_num_keys n = NENT → (∀ x, ikeys n !! 7%nat = Some x → x ≤ cmp ↔ (8 ≤ k)%nat) →
  ∃ s2 r2 u2, insert_child s1 a k false u cmp r = Done (s2, r2, u2) ∧ grew_post s2 r2 u2.
Proof using All.
  intros Hnum Hcmp. destruct step_a_fresh as (Ha & Hab & Ha1 & Ha2). pose proof (sp_brk _ _ _ _ _ _ _ _ _ _ _ Hsub) as Hb.
  destruct (insert_child_cut s1 a n k u cmp r) as (s2 & n1 & n2 & u2 & Hrun & [Hm1 Hm2 Hm3 Ho1 Ho2 Hks Hps Hsep]);
    [done|apply Hok|apply Hok|done|rewrite <-Hnum, <-(length_ikeys _ _ Hok); done|lia|done|].
  exists s2, (brk_ s1), u2. split; [done|]. split; [done|].
  assert (Hin2 : ∀ x, x ≠ a → x < brk_ s1 → inners s2 !! x = inners s1 !! x).
  { intros x Hxa Hx. rewrite Hm3, !lookup_insert_ne by lia. done. }
  assert (Hlv2 : leaves s2 = leaves s1) by apply Hm1.
  pose proof (after_forest s2 Hlv2 Hin2) as Hf. rewrite Hks, Hps in Hf.
  pose proof (forest_sorted _ _ _ _ _ _ _ _ Hf) as (_ & Hbs & _).
  assert (Hu2 : lo < u2 < hi) by (apply Hbs; set_solver).
  apply forest_app in Hf as (Lx & Ix & Ly & Iy & Hfx & Hfy & HLeq & HIeq);
    [|by rewrite (length_ikids _ _ Ho1), (length_ikeys _ _ Ho1)].
  assert (Hn2 : inners s2 !! brk_ s1 = Some n2) by (rewrite Hm3, lookup_insert_ne by lia; apply lookup_insert_eq).
  split; [|intros _; by exists n2].
  split; [lia|intros x; by apply after_sp_frame|]. right. split; [unfold NULL; lia|]. split; [done|].
  assert (Hx : ∀ x, x ∈ Ix ++ Iy → x ≠ a ∧ x < brk_ s1 ∧ (x ∈ I1 ++ I2 ++ I3 ∨ brk_ s ≤ x < brk_ s1)).
  { intros x Hx. rewrite <-HIeq in Hx. by apply step_inners. }
  exists Lx, (a :: Ix), Ly, (brk_ s1 :: Iy). split_and!.
  - by rewrite HL2.
  - exists n1, Ix. split_and!; [rewrite Hm3; apply lookup_insert_eq|done..].
  - exists n2, Iy. split_and!; [done| |done|done]. destruct Ho2. split; [done..|]. intros _. auto.
  - pose proof step_nodup as Hnd. rewrite HIeq in Hnd.
    assert (Hp : a :: Ix ++ brk_ s1 :: Iy ≡ₚ a :: brk_ s1 :: Ix ++ Iy) by (f_equiv; symmetry; apply Permutation_middle).
    cbn. rewrite Hp. constructor; [|constructor; [|done]].
    + intros [?|Hxa]%elem_of_cons; [lia|]. by destruct (Hx a Hxa).
    + intros Hxb. destruct (Hx _ Hxb) as (_ & ? & _). lia.
  - intros x Hx'. assert (x = a ∨ x = brk_ s1 ∨ x ∈ Ix ++ Iy) as [->|[->|Hx2]] by set_solver.
    + left. by left.
    + right. lia.
    + destruct (Hx x Hx2) as (_ & _ & [?|?]); [left; by right|right; lia].
Qed.

Lemma step_some alone cmp :
  (alone = true → e && bool_decide (k = length (ikeys n)) = true) →
  (∀ x, ikeys n !! 7%nat = Some x → x ≤ cmp ↔ (8 ≤ k)%nat) →
  ∃ s2 r2 u2, insert_child s1 a k alone u cmp r = Done (s2, r2, u2) ∧ grew_post s2 r2 u2.
Proof using All.
  intros Hal Hcmp. destruct (decide (i_num_keys n = NENT)) as [Hnum|Hnum].
  - destruct alone; [apply step_alone; auto|by apply step_cut].
  - apply step_room. pose proof (in_num _ _ Hok). lia.
Qed.
End step.

(** ** [InnerInsert] *)

Lemma split_side lo ks hi k c x :
  sorted ks → (k ≤ length ks)%nat → lower lo ks k ≤ c < upper ks hi k → ks !! 7%nat = Some x → x ≤ c ↔ (8 ≤ k)%nat.
Proof.
  intros Hs Hk [Hlo Hhi] Hx. unfold lower, upper in *. destruct (decide (8 ≤ k)%nat) as [H8|H8].
  - split; [done|]. intros _. destruct k as [|j]; [lia|]. destruct (lookup_lt_is_Some_2 ks j) as [y Hy]; [lia|].
    rewrite Hy in Hlo. cbn in Hlo. destruct (decide (j = 7%nat)) as [->|]; [congruence|].
    assert (x < y) by (eapply (sorted_lookup ks 7 j); [done|lia|done..]). lia.
  - split; [|lia]. intros Hle. destruct (lookup_lt_is_Some_2 ks k) as [y Hy]; [apply lookup_lt_Some in Hx; lia|].
    rewrite Hy in Hhi. cbn in Hhi. destruct (decide (k = 7%nat)) as [->|]; [rewrite Hx in Hy; injection Hy as ->; lia|].
    assert (y < x) by (eapply (sorted_lookup ks k 7); [done|lia|done..]). lia.
Qed.

Lemma tree_leaf_fill s e a lo hi L I l : tree s 0 e a lo hi L I → leaves s !! a = Some l → l_num_keys l = 1%nat → e = true.
Proof.
  intros (_ & _ & l' & Hl' & Hok) Hl H1. rewrite Hl in Hl'. injection Hl' as <-. destruct e; [done|].
  pose proof (lf_fill _ _ _ _ Hok eq_refl). lia.
Qed.

Lemma tree_inner_fill s d e a lo hi L I n :
  tree s (S d) e a lo hi L I → inners s !! a = Some n → i_num_keys n = 0%nat → e = true.
Proof.
  intros (n' & J & Hn' & Hok & _ & _) Hn H0. rewrite Hn in Hn'. injection Hn' as <-. destruct e; [done|].
  pose proof (in_fill _ _ Hok eq_refl). lia.
Qed.

Record sub_pre s (d : nat) (e : bool) (a lo hi : Z) (L I : list Z) (key : Z) : Prop := {
  pe_tree : tree s d e a lo hi L I;
  pe_key : lo ≤ key < hi;
  pe_leaves : NoDup L;
  pe_inners : NoDup I;
  pe_brk x : x ∈ I → x < brk_ s;
  pe_pos : 0 < brk_ s;
  pe_ctx : leaf_ctx s L e;
}.

(** A child of a subtree that is ready for an insertion is ready. *)
Lemma sub_pre_child s d e a lo hi L I key n J k p L1 I1 L2 I2 L3 I3 :
  sub_pre s (S d) e a lo hi L I key → I = a :: J → L = L1 ++ L2 ++ L3 → J = I1 ++ I2 ++ I3 →
  focus (tree s d) e lo (ikeys n) (ikids n) hi k p L1 I1 L2 I2 L3 I3 →
  lower lo (ikeys n) k ≤ key < upper (ikeys n) hi k →
  sub_pre s d (e && bool_decide (k = length (ikeys n))) p (lower lo (ikeys n) k) (upper (ikeys n) hi k) L2 I2 key.
Proof.
  intros [_ _ HL HI Hb Hpos Hctx] -> -> -> Hfo Hkey. split; [apply Hfo|done|..].
  - apply NoDup_app in HL as (_ & _ & HL). by apply NoDup_app in HL as (? & _ & _).
  - apply NoDup_cons in HI as [_ HI]. apply NoDup_app in HI as (_ & _ & HI). by apply NoDup_app in HI as (? & _ & _).
  - intros x Hx. apply Hb. right. set_solver.
  - done.
  - eapply leaf_ctx_sub; [done..|]. intros H3. destruct (decide (k = length (ikeys n))) as [Hk|Hk].
    + by rewrite bool_decide_eq_true_2, andb_true_r.
    + exfalso. eapply (fo_more _ _ _ _ _ _ _ _ _ _ _ _ _ _ Hfo); [|done..]. intros. by eapply tree_nonempty.
Qed.

Definition level_post s (d : nat) (e : bool) (a lo hi : Z) (L I : list Z) (key : Z) s2 (r u v : Z) : Prop :=
  ∃ s0 L', leaf_step s L key lo hi s0 L' v ∧ same_leaves s0 s2 ∧ (s0 = s → s2 = s ∧ r = NULL) ∧
    sub_post s d e a lo hi I s2 r u L' ∧
    (r ≠ NULL → match d with
       | O => ∃ nl, leaves s2 !! r = Some nl ∧ l_keys nl !! 0%nat = Some u
       | S _ => ∃ m, inners s2 !! r = Some m ∧ i_keys m !! (NENT - 1)%nat = Some u
       end).

Section level.
Context s (d : nat) (e : bool) (a lo hi : Z) (L J : list Z) (key : Z) (n : InnerNode) (k : nat) (p : Z).
Context (L1 I1 L2 I2 L3 I3 : list Z).
Context (Hpre : sub_pre s (S d) e a lo hi L (a :: J) key).
Context (Hn : inners s !! a = Some n) (Hok : inner_ok e n).
Context (Hf : forest (tree s d) e lo (ikeys n) (ikids n) hi L J).
Context (HL : L = L1 ++ L2 ++ L3) (HJ : J = I1 ++ I2 ++ I3).
Context (Hfo : focus (tree s d) e lo (ikeys n) (ikids n) hi k p L1 I1 L2 I2 L3 I3).
Context (Hk : (k ≤ length (ikeys n))%nat) (Hkey : lower lo (ikeys n) k ≤ key < upper (ikeys n) hi k).
Context s1 (r u v : Z).
Context (Hpost : level_post s d (e && bool_decide (k = length (ikeys n))) p (lower lo (ikeys n) k) (upper (ikeys n) hi k)
                   L2 I2 key s1 r u v).

(** The step of the child is the step of the whole subtree. *)
Lemma level_leaf_step s0 L2' :
  leaf_step s L2 key (lower lo (ikeys n) k) (upper (ikeys n) hi k) s0 L2' v →
  leaf_step s L key lo hi s0 (L1 ++ L2' ++ L3) v.
Proof using All.
  intros Hst. rewrite HL. destruct (lower_upper_le _ _ _ _ _ _ _ _ k Hf) as [Hlo Hhi].
  destruct (fo_bounds _ _ _ _ _ _ _ _ _ _ _ _ _ _ Hfo (leaf_keys s)) as [Hb1 Hb3]; [intros; by eapply tree_bounds|].
  eapply leaf_step_widen; [done..| |]; intros x (b & Hx & Hb)%elem_of_keys_of.
  - by apply (Hb1 b).
  - by apply (Hb3 b).
Qed.

(** No new sibling. *)
Lemma level_none : r = NULL → level_post s (S d) e a lo hi L (a :: J) key s1 NULL 0 v.
Proof using All.
  intros Hr. destruct Hpost as (s0 & L2' & Hst & Hsame & Hs0 & Hsub & _). exists s0, (L1 ++ L2' ++ L3).
  split_and!; [by apply level_leaf_step|done|naive_solver| |done]. rewrite HJ.
  destruct (sp_tree _ _ _ _ _ _ _ _ _ _ _ Hsub) as [(_ & I2' & Ht & Hnd & Hin)|(? & _)]; [|done].
  destruct Hpre as [_ _ HndL HndI Hbrk Hpos Hctx]. rewrite HJ in HndI, Hbrk. rewrite HL in HndL, Hctx.
  eapply step_none; try done. apply Hctx.
Qed.

(** A new sibling of the child. *)
Lemma level_some alone cmp :
  r ≠ NULL → (alone = true → e && bool_decide (k = length (ikeys n)) = true) →
  (cmp = u ∨ cmp = key) →
  ∃ s2 r2 u2, insert_child s1 a k alone u cmp r = Done (s2, r2, u2) ∧
    level_post s (S d) e a lo hi L (a :: J) key s2 r2 u2 v.
Proof using All.
  intros Hr Hal Hcmp. destruct Hpost as (s0 & L2' & Hst & Hsame & Hs0 & Hsub & _).
  destruct (sp_tree _ _ _ _ _ _ _ _ _ _ _ Hsub) as [(? & _)|(_ & Hu & La & Ia & Lb & Ib & HL2 & Hta & Htb & Hnd & Hin)]; [done|].
  destruct (forest_sorted _ _ _ _ _ _ _ _ Hf) as (Hso & _ & _).
  destruct Hpre as [_ _ HndL HndI Hbrk Hpos Hctx]. rewrite HJ in HndI, Hbrk. rewrite HL in HndL, Hctx.
  destruct (step_some s d e a lo hi n k p L1 I1 L2 I2 L3 I3 Hn Hok Hfo HndI Hbrk Hpos HndL
              (cx_not_spare _ _ _ Hctx) Hk s1 s0 L2' key v r u Hst Hsame Hsub La Ia Lb Ib Hr Hu HL2 Hta Htb Hnd Hin alone cmp Hal)
    as (s2 & r2 & u2 & Hrun & Hsame2 & Hsub2 & Hsep).
  - intros x. apply (split_side lo (ikeys n) hi k cmp x Hso Hk). destruct Hcmp as [-> | ->]; [lia|done].
  - exists s2, r2, u2. split; [done|]. exists s0, (L1 ++ L2' ++ L3). rewrite HJ.
    split_and!; [by apply level_leaf_step| |by intros [_ ?]%Hs0|done|done].
    destruct Hsame as (? & ? & ? & ? & ? & ?), Hsame2 as (? & ? & ? & ? & ? & ?). unfold same_leaves. intuition congruence.
Qed.
End level.

Lemma level_depth s d e a lo hi L I key s2 r u v :
  level_post s d e a lo hi L I key s2 r u v → depth s2 = depth s ∧ root s2 = root s.
Proof.
  intros (s0 & L' & Hst%leaf_step_same & Hsame & _). destruct Hst as (? & ? & _), Hsame as (? & ? & _). split; congruence.
Qed.

(** [InnerInsert] on a subtree: it mends the tree up to [a] and, at the top, grows the
    root. *)
Lemma InnerInsert_spec s d e a lo hi L I key :
  sub_pre s (S d) e a lo hi L I key → (S d ≤ depth s)%nat →
  ∃ s2 r u v,
    InnerInsert s key a (S d) =
      (s' ← (if decide (S d = depth s2 ∧ r ≠ NULL) then grow_root s2 r u else Done s2); Done (s', r, v)) ∧
    level_post s (S d) e a lo hi L I key s2 r u v.
Proof.
  revert e a lo hi L I. induction d as [|d IH]; intros e a lo hi L I Hpre Hd;
    pose proof (pe_tree _ _ _ _ _ _ _ _ _ Hpre) as (n & J & Hn & Hok & -> & Hf); pose proof (pe_key _ _ _ _ _ _ _ _ _ Hpre) as Hkey;
    cbn [InnerInsert]; rewrite (inner_Some _ _ _ Hn); cbn [mbind result_bind];
    destruct (scan_inner e n key Hok) as (k & -> & Hk & Hle & Hlt); cbn [mbind result_bind];
    pose proof (scan_bounds lo (ikeys n) hi k key Hk Hkey Hle Hlt) as Hb;
    (destruct (lookup_lt_is_Some_2 (ikids n) k) as [p Hp];
      [rewrite (length_ikids _ _ Hok); rewrite (length_ikeys _ _ Hok) in Hk; lia|]);
    destruct (forest_focus _ _ _ _ _ _ _ _ k p Hf Hp) as (L1 & I1 & L2 & I2 & L3 & I3 & HL & HJ & Hfo);
    unfold ikids in Hp; apply lookup_take_Some in Hp as [Hp _]; rewrite (aget_Some _ _ _ Hp); cbn [mbind result_bind];
    pose proof (sub_pre_child _ _ _ _ _ _ _ _ _ _ _ _ _ _ _ _ _ _ _ Hpre eq_refl HL HJ Hfo Hb) as Hch.
  - destruct Hch as [Ht Hkb _ _ _ _ Hctx].
    destruct (LeafInsert_sub _ _ _ _ _ _ _ key Ht Hkb Hctx) as (s1 & L2' & r & v & u & -> & Hst & Hs0 & Hsub & Hsep).
    cbn [mbind result_bind].
    assert (Hpost : level_post s 0 (e && bool_decide (k = length (ikeys n))) p (lower lo (ikeys n) k) (upper (ikeys n) hi k)
                      L2 I2 key s1 r u v).
    { exists s1, L2'. split_and!; [done..| |done|done]. intros ->. split; [done|]. by apply Hs0. }
    destruct (decide (r = NULL)) as [Hr|Hr]; cbn [mbind result_bind].
    + eexists s1, NULL, 0, v. split; [done|]. by eapply level_none.
    + destruct (Hsep Hr) as (nl & Hnl & Hu). rewrite (leaf_Some _ _ _ Hnl). cbn [mbind result_bind].
      rewrite (aget_Some _ _ _ Hu). cbn [mbind result_bind].
      destruct (sp_tree _ _ _ _ _ _ _ _ _ _ _ Hsub) as [(? & _)|(_ & _ & La & Ia & Lb & Ib & _ & _ & Htb & _)]; [done|].
      edestruct (level_some s 0 e a lo hi L J key n k p L1 I1 L2 I2 L3 I3) as (s2 & r2 & u2 & Hrun & Hp2);
        [done..| |by left|rewrite Hrun; cbn [mbind result_bind]; by exists s2, r2, u2, v].
      intros H1%bool_decide_eq_true. by eapply tree_leaf_fill.
  - destruct (IH _ _ _ _ _ _ Hch) as (s1 & r & u & v & Hrun1 & Hpost); [lia|]. cbn [InnerInsert] in Hrun1. rewrite Hrun1.
    destruct (level_depth _ _ _ _ _ _ _ _ _ _ _ _ _ Hpost) as [Hdep _]. rewrite (decide_False (P := S d = depth s1 ∧ _)) by lia.
    cbn [mbind result_bind]. destruct (decide (r = NULL)) as [Hr|Hr]; cbn [mbind result_bind].
    + eexists s1, NULL, 0, v. split; [done|]. by eapply level_none.
    + pose proof Hpost as (s0 & L2' & _ & _ & _ & Hsub & Hsep). destruct (Hsep Hr) as (ni & Hni & Hu).
      rewrite (inner_Some _ _ _ Hni). cbn [mbind result_bind]. rewrite (aget_Some _ _ _ Hu). cbn [mbind result_bind].
      destruct (sp_tree _ _ _ _ _ _ _ _ _ _ _ Hsub) as [(? & _)|(_ & _ & La & Ia & Lb & Ib & _ & _ & Htb & _)]; [done|].
      edestruct (level_some s (S d) e a lo hi L J key n k p L1 I1 L2 I2 L3 I3) as (s2 & r2 & u2 & Hrun & Hp2);
        [done..| |by right|rewrite Hrun; cbn [mbind result_bind]; by exists s2, r2, u2, v].
      intros H1%bool_decide_eq_true. by eapply tree_inner_fill.
Qed.
