(* ===== verification/BPStore.v ===== *)
(** * The B+-tree as a store

    The invariant of the whole tree, the specification of [Get] and [_GetWithInsert],
    and the instance of the store interface of Memstore.v.  The contents of a tree are
    the entries of its leaves from left to right. *)

From S2P Require Import Prelude Memstore BPlusTree BPTree BPLeaf BPInner BPInsert.

Implicit Types (s : MemstoreBPlusTree).

(** ** Links *)

Fixpoint links s (prev : Z) (L : list Z) (next : Z) : Prop :=
  match L with
  | [] => True
  | a :: L' =>
      (∃ l, leaves s !! a = Some l ∧ l_left l = prev ∧ l_right l = default next (head L')) ∧ links s a L' next
  end.

Lemma links_app s prev L1 L2 next :
  links s prev (L1 ++ L2) next ↔ links s prev L1 (default next (head L2)) ∧ links s (default prev (last L1)) L2 next.
Proof.
  revert prev. induction L1 as [|a L1 IH]; intros prev; [cbn; tauto|].
  cbn [links app]. rewrite IH.
  assert (default next (head (L1 ++ L2)) = default (default next (head L2)) (head L1)) as -> by by destruct L1.
  assert (default prev (last (a :: L1)) = default a (last L1)) as -> by (rewrite last_cons; by destruct (last L1)).
  tauto.
Qed.

(** Only the two links matter. *)
Definition same_links (l l' : LeafNode) : Prop := l_left l' = l_left l ∧ l_right l' = l_right l.

Lemma links_frame s s' prev L next :
  (∀ a l, a ∈ L → leaves s !! a = Some l → ∃ l', leaves s' !! a = Some l' ∧ same_links l l') →
  links s prev L next → links s' prev L next.
Proof.
  revert prev. induction L as [|a L IH]; intros prev Hs; [done|]. intros [(l & Hl & H1 & H2) Hr]. split.
  - destruct (Hs a l) as (l' & Hl' & H3 & H4); [by left|done|]. exists l'. split_and!; [done|congruence..].
  - apply IH; [|done]. intros b l' Hb. apply Hs. by right.
Qed.

Lemma links_leaf s prev L next a :
  links s prev L next → a ∈ L → is_Some (leaves s !! a).
Proof.
  revert prev. induction L as [|b L IH]; intros prev; [by intros _ ?%not_elem_of_nil|].
  intros [(l & Hl & _) Hr] [->|Ha]%elem_of_cons; [eauto|]. by eapply IH.
Qed.

(** ** The invariant *)

Record bp_inv s (L I : list Z) : Prop := {
  bi_tree : tree s (depth s) true (root s) 0 (2 ^ 64) L I;
  bi_links : links s NULL L NULL;
  bi_leaves : NoDup L;
  bi_inners : NoDup I;
  bi_local : localinit_ s = true;
  bi_leaf_addr a : is_Some (leaves s !! a) → 0 < a < brk_ s;
  bi_inner_addr a : a ∈ I → 0 < a < brk_ s;
  bi_spare : (dummyleaf_ s ∉ L) ∧ ∃ n, leaves s !! dummyleaf_ s = Some n ∧ arrays_ok n;
  bi_val : 0 < dummyval_ s < brk_ s ∧ dummyval_ s ∉ (entries s L).*2;
  bi_vals : NoDup (entries s L).*2 ∧ ∀ v, v ∈ (entries s L).*2 → v < brk_ s;
}.

Lemma bi_pos s L I : bp_inv s L I → 0 < brk_ s.
Proof. intros [_ _ _ _ _ _ _ _ [? _] _]. lia. Qed.

Lemma bp_inv_ctx s L I : bp_inv s L I → leaf_ctx s L true.
Proof.
  intros [Ht Hl HL _ _ Ha _ [Hsp (n & Hn & Har)] [Hv _] _]. split; [unfold NULL; lia| |done| |].
  - split; [|by exists n]. specialize (Ha _ ltac:(eauto)). unfold NULL. lia.
  - intros a l Hin Hla Hr. apply list_elem_of_split in Hin as (L1 & L2 & ->). apply links_app in Hl as [_ Hl].
    destruct Hl as [(l' & Hl' & _ & Hrt) Hl2]. rewrite Hla in Hl'. injection Hl' as <-.
    destruct L2 as [|b L2]; [done|]. cbn in Hrt. rewrite Hrt. split_and!.
    + eapply links_leaf; [exact Hl2|by left].
    + intros ->. apply NoDup_app in HL as (_ & _ & HL). apply NoDup_cons in HL as [HL _]. apply HL. by left.
    + intros Hb. apply Hsp. rewrite <-Hb. apply elem_of_app. right. right. by left.
  - intros a l Hin Hla Hr. split; [done|]. apply list_elem_of_split in Hin as (L1 & L2 & ->). apply links_app in Hl as [_ Hl].
    destruct Hl as [(l' & Hl' & _ & Hrt) Hl2]. rewrite Hla in Hl'. injection Hl' as <-.
    destruct L2 as [|b L2]; [by rewrite last_snoc|]. exfalso. cbn in Hrt. rewrite Hr in Hrt.
    assert (0 < b) by (apply Ha; eapply links_leaf; [exact Hl2|by left]). unfold NULL in *. lia.
Qed.

Lemma bp_inv_pre s L I key : bp_inv s L I → 0 ≤ key < 2 ^ 64 → sub_pre s (depth s) true (root s) 0 (2 ^ 64) L I key.
Proof.
  intros Hinv Hkey. pose proof (bi_pos _ _ _ Hinv). pose proof (bp_inv_ctx _ _ _ Hinv). destruct Hinv as [Ht _ HL HI _ _ Ha _ _ _].
  split; try done. intros x Hx. by apply Ha.
Qed.

(** ** Entries *)

Lemma leaf_entries_Some s a l : leaves s !! a = Some l → leaf_entries s a = lentries l.
Proof. unfold leaf_entries. by intros ->. Qed.

Lemma same_data_entries l l' : same_data l l' → lentries l' = lentries l.
Proof. intros (H1 & H2 & H3). unfold lentries, lkeys, lvals. by rewrite H1, H2, H3. Qed.

Lemma entries_frame s s' L : leaves_same L s s' → (∀ a, a ∈ L → is_Some (leaves s !! a)) → entries s' L = entries s L.
Proof.
  intros Hs Hl. unfold entries. induction L as [|a L IH]; [done|]. cbn. f_equal.
  - destruct (Hl a) as [l Hla]; [by left|]. destruct (Hs a l) as (l' & Hl' & Hd); [by left|done|].
    by rewrite (leaf_entries_Some _ _ _ Hla), (leaf_entries_Some _ _ _ Hl'), (same_data_entries _ _ Hd).
  - apply IH; [intros b l Hb; apply Hs; by right|intros b Hb; apply Hl; by right].
Qed.

Lemma entries_middle s L1 a L2 l :
  leaves s !! a = Some l → entries s (L1 ++ a :: L2) = entries s L1 ++ lentries l ++ entries s L2.
Proof. intros Hl. unfold entries. rewrite bind_app. cbn. by rewrite (leaf_entries_Some _ _ _ Hl). Qed.

Lemma fst_leaf_entries s a : (∀ l, leaves s !! a = Some l → length (lkeys l) = length (lvals l)) → (leaf_entries s a).*1 = leaf_keys s a.
Proof.
  intros Hl. unfold leaf_entries, leaf_keys. destruct (leaves s !! a) as [l|] eqn:E; [|done]. cbn. apply fst_zip.
  rewrite (Hl l); done.
Qed.

Lemma tree_leaf_ok s d e a lo hi L I b :
  tree s d e a lo hi L I → b ∈ L → ∃ l e' lo' hi', leaves s !! b = Some l ∧ leaf_ok e' l lo' hi' ∧ lo ≤ lo' ∧ hi' ≤ hi.
Proof.
  revert e a lo hi L I. induction d as [|d IH]; intros e a lo hi L I.
  - intros (-> & _ & l & Hl & Hok) ->%list_elem_of_singleton. exists l, e, lo, hi. split_and!; [done..|lia|lia].
  - intros (n & J & _ & _ & _ & Hf). revert Hf. generalize (ikeys n) (ikids n). intros ks ps.
    revert lo ps L J. induction ks as [|k ks IHk]; intros lo ps L J.
    + destruct ps as [|p [|]]; [done| |done]. intros [_ Hp] Hb. by eapply IH.
    + destruct ps as [|p ps]; [done|]. intros (Hlt & L1 & I1 & L2 & I2 & Hp & Hf & -> & ->) [Hb|Hb]%elem_of_app.
      * pose proof (forest_sorted _ _ _ _ _ _ _ _ Hf) as (_ & _ & ?).
        destruct (IH _ _ _ _ _ _ Hp Hb) as (l & e' & lo' & hi' & ? & ? & ? & ?). exists l, e', lo', hi'. split_and!; [done..|lia].
      * destruct (IHk _ _ _ _ Hf Hb) as (l & e' & lo' & hi' & ? & ? & ? & ?). exists l, e', lo', hi'. split_and!; [done..|lia|done].
Qed.

Lemma fst_entries s d e a lo hi L I M : tree s d e a lo hi L I → M ⊆ L → (entries s M).*1 = keys_of s M.
Proof.
  intros Ht HM. assert (Hl : ∀ b l, b ∈ M → leaves s !! b = Some l → length (lkeys l) = length (lvals l)).
  { intros b l Hb Hl. destruct (tree_leaf_ok _ _ _ _ _ _ _ _ _ Ht (HM _ Hb)) as (l' & e' & lo' & hi' & Hl' & Hok & _).
    rewrite Hl in Hl'. injection Hl' as <-. by rewrite (length_lkeys _ _ _ _ Hok), (length_lvals _ _ _ _ Hok). }
  clear HM. unfold entries, keys_of. induction M as [|b M IH]; [done|]. cbn. rewrite fmap_app, fst_leaf_entries.
  - f_equal. apply IH. intros c l Hc. apply Hl. by right.
  - intros l. apply Hl. by left.
Qed.

Definition contents s (L : list Z) : gmap Z Z := list_to_map (entries s L).

Lemma contents_lookup s L I key v : bp_inv s L I → contents s L !! key = Some v ↔ (key, v) ∈ entries s L.
Proof.
  intros Hinv. unfold contents. symmetry. apply elem_of_list_to_map.
  rewrite (fst_entries _ _ _ _ _ _ _ _ _ (bi_tree _ _ _ Hinv)) by done. eapply rising_NoDup, tree_sorted, Hinv.
Qed.

(** ** [Get] *)

Lemma find_leaf_total s d e a lo hi L I key : tree s d e a lo hi L I → ∃ b, find_leaf s key a d = Done b ∧ b ∈ L.
Proof.
  revert e a lo hi L I. induction d as [|d IH]; intros e a lo hi L I.
  - intros (-> & _). exists a. split; [done|by left].
  - intros (n & J & Hn & Hok & -> & Hf). cbn. rewrite (inner_Some _ _ _ Hn). cbn [mbind result_bind].
    destruct (scan_inner e n key Hok) as (k & -> & Hk & _). cbn [mbind result_bind].
    destruct (lookup_lt_is_Some_2 (ikids n) k) as [p Hp].
    { rewrite (length_ikids _ _ Hok). rewrite (length_ikeys _ _ Hok) in Hk. lia. }
    destruct (forest_focus _ _ _ _ _ _ _ _ k p Hf Hp) as (L1 & I1 & L2 & I2 & L3 & I3 & -> & -> & Hfo).
    unfold ikids in Hp. apply lookup_take_Some in Hp as [Hp _]. rewrite (aget_Some _ _ _ Hp). cbn [mbind result_bind].
    destruct (IH _ _ _ _ _ _ (fo_child _ _ _ _ _ _ _ _ _ _ _ _ _ _ Hfo)) as (b & -> & Hb). exists b. split; [done|set_solver].
Qed.

Lemma elem_of_lentries l k v : (k, v) ∈ lentries l ↔ ∃ i, lkeys l !! i = Some k ∧ lvals l !! i = Some v.
Proof.
  unfold lentries. split.
  - intros (i & Hi)%list_elem_of_lookup_1. apply lookup_zip_with_Some in Hi as (? & ? & [= <- <-] & ? & ?). by exists i.
  - intros (i & Hk & Hv). apply list_elem_of_lookup_2 with i. apply lookup_zip_with_Some. by exists k, v.
Qed.

(** The entries of a key are in the leaf a search finds. *)
Lemma found_entries s L key b l e lo hi L1 L2 v :
  (∀ M, M ⊆ L → (entries s M).*1 = keys_of s M) → found s L key b l e lo hi L1 L2 →
  (key, v) ∈ entries s L ↔ (key, v) ∈ lentries l.
Proof.
  intros Hfst [-> Hl Hok Hkey Hlt Hge]. rewrite (entries_middle _ _ _ _ _ Hl), !elem_of_app. split; [|tauto].
  intros [Hin|[?|Hin]]; [exfalso|done|exfalso]; apply (list_elem_of_fmap_2 fst) in Hin.
  - rewrite Hfst in Hin by set_solver. specialize (Hlt _ Hin). cbn in Hlt. lia.
  - rewrite Hfst in Hin by set_solver. specialize (Hge _ Hin). cbn in Hge. lia.
Qed.

(** They do not depend on what one takes the leaves of the tree to be. *)
Lemma entries_key s L I L' I' key v :
  bp_inv s L I → bp_inv s L' I' → 0 ≤ key < 2 ^ 64 → (key, v) ∈ entries s L ↔ (key, v) ∈ entries s L'.
Proof.
  intros Hinv Hinv' Hkey.
  destruct (find_leaf_spec _ _ _ _ _ _ _ _ key (bi_tree _ _ _ Hinv) Hkey) as (b & l & e & lo & hi & L1 & L2 & Hb & _ & _ & Hf).
  destruct (find_leaf_spec _ _ _ _ _ _ _ _ key (bi_tree _ _ _ Hinv') Hkey) as (b' & l' & e' & lo' & hi' & M1 & M2 & Hb' & _ & _ & Hf').
  rewrite Hb in Hb'. injection Hb' as <-.
  assert (l' = l) as ->.
  { pose proof (fd_leaf _ _ _ _ _ _ _ _ _ _ Hf) as H1. rewrite (fd_leaf _ _ _ _ _ _ _ _ _ _ Hf') in H1. by injection H1. }
  rewrite (found_entries s L key b l e lo hi L1 L2 v); [|intros; by eapply fst_entries; [apply Hinv|]|done].
  rewrite (found_entries s L' key b l e' lo' hi' M1 M2 v); [done|intros; by eapply fst_entries; [apply Hinv'|]|done].
Qed.

(** ** The effect of a step on the whole tree *)

Lemma leaf_step_found s L key lo hi s' L' v :
  leaf_step s L key lo hi s' L' v → ∃ b l e' lo' hi' L1 L2, found s L key b l e' lo' hi' L1 L2.
Proof. destruct 1; eauto 10. Qed.

Lemma ins_middle {A} (E1 E E2 : list A) k x :
  (k ≤ length E)%nat → E1 ++ ins k x E ++ E2 = ins (length E1 + k) x (E1 ++ E ++ E2).
Proof.
  intros Hk. rewrite ins_app_r by lia. f_equal. rewrite ins_app_l by lia. do 2 f_equal. lia.
Qed.

(** Leaves of the tree other than the one that changes keep their entries. *)
Lemma step_keeps s s' L1 L2 b M :
  NoDup (L1 ++ b :: L2) → dummyleaf_ s ∉ L1 ++ b :: L2 → b ∉ M → M ⊆ L1 ++ L2 →
  (∀ x l, x ≠ b → x ≠ dummyleaf_ s → leaves s !! x = Some l → ∃ l', leaves s' !! x = Some l' ∧ same_data l l') →
  (∀ a, a ∈ L1 ++ b :: L2 → is_Some (leaves s !! a)) →
  entries s' M = entries s M.
Proof.
  intros _ Hd HbM HM Hf Hl. apply entries_frame.
  - intros a l Ha Hla. apply Hf; [by intros ->| |done]. intros ->. apply Hd. specialize (HM _ Ha). set_solver.
  - intros a Ha. apply Hl. specialize (HM _ Ha). set_solver.
Qed.

Lemma leaf_step_entries s d e a lo hi L I key s' L' v :
  tree s d e a lo hi L I → NoDup L → dummyleaf_ s ∉ L → leaf_step s L key lo hi s' L' v →
  (s' = s ∧ L' = L ∧ (key, v) ∈ entries s L) ∨
  (v = dummyval_ s ∧ (key ∉ (entries s L).*1) ∧ ∃ k, entries s' L' = ins k (key, v) (entries s L)).
Proof.
  intros Ht Hnd Hsp Hst.
  assert (Hall : ∀ c, c ∈ L → is_Some (leaves s !! c)).
  { intros c Hc. destruct (tree_leaf_ok _ _ _ _ _ _ _ _ _ Ht Hc) as (l & _ & _ & _ & ? & _). eauto. }
  assert (Hkeys : ∀ b l e' lo' hi' L1 L2, found s L key b l e' lo' hi' L1 L2 → key ∉ lkeys l → key ∉ (entries s L).*1).
  { intros b l e' lo' hi' L1 L2 Hf Hnin Hin. apply list_elem_of_fmap in Hin as ([k w] & -> & Hin). cbn in *.
    apply (found_entries _ _ _ _ _ _ _ _ _ _ _ (λ M, fst_entries _ _ _ _ _ _ _ _ M Ht) Hf) in Hin.
    apply elem_of_lentries in Hin as (i & Hi & _). apply Hnin. by eapply list_elem_of_lookup_2. }
  destruct Hst as [b l e' lo' hi' L1 L2 v Hf _ _ Hv|b l e' lo' hi' L1 L2 s' l' Hf _ _ Hnin Hg|b l e' lo' hi' L1 L2 s' l' n' u Hf _ _ Hnin Hg].
  - left. split_and!; [done..|]. by eapply found_entries; [intros; by eapply fst_entries|..].
  - right. split_and!; [done|by eapply Hkeys|]. destruct Hf as [-> Hl _ _ _ _], Hg as [_ _ Hlv _ _ (k & Hk & He)].
    apply NoDup_app in Hnd as Hnd'. destruct Hnd' as (_ & Hd1 & [Hd2 _]%NoDup_cons).
    assert (Hkeep : ∀ M, b ∉ M → M ⊆ L1 ++ L2 → entries s' M = entries s M).
    { intros M HbM HM. eapply step_keeps; [done..| |done]. intros x lx Hx _ Hlx. exists lx. by rewrite Hlv, lookup_insert_ne. }
    exists (length (entries s L1) + k)%nat. rewrite (entries_middle s' L1 b L2 l') by (rewrite Hlv; apply lookup_insert_eq).
    rewrite (entries_middle s L1 b L2 l Hl), He, !Hkeep; [by apply ins_middle|done|set_solver| |set_solver].
    intros Hb. apply (Hd1 b Hb). by left.
  - right. split_and!; [done|by eapply Hkeys|]. destruct Hf as [-> Hl _ _ _ _].
    destruct Hg as [_ _ Hlv _ _ _ _ _ _ (k & Hk & He)].
    apply NoDup_app in Hnd as Hnd'. destruct Hnd' as (_ & Hd1 & [Hd2 _]%NoDup_cons).
    assert (Hbd : dummyleaf_ s ≠ b) by (intros Heq; apply Hsp; rewrite Heq; set_solver).
    assert (Hkeep : ∀ M, b ∉ M → M ⊆ L1 ++ L2 → entries s' M = entries s M).
    { intros M HbM HM. eapply step_keeps; [done..| |done]. intros x lx Hx Hxd Hlx. rewrite Hlv, !lookup_insert_ne by done.
      by apply relink_same. }
    exists (length (entries s L1) + k)%nat. rewrite (entries_middle s' L1 b _ l') by (rewrite Hlv; apply lookup_insert_eq).
    change (dummyleaf_ s :: L2) with ([] ++ dummyleaf_ s :: L2).
    rewrite (entries_middle s' [] _ L2 n') by (rewrite Hlv, lookup_insert_ne by done; apply lookup_insert_eq).
    change (entries s' []) with (@nil (Z * Z)). rewrite app_nil_l, (app_assoc (lentries l')), He.
    rewrite (entries_middle s L1 b L2 l Hl), !Hkeep; [by apply ins_middle|done|set_solver| |set_solver].
    intros Hb. apply (Hd1 b Hb). by left.
Qed.

Lemma leaf_step_nodup s L key lo hi s' L' v :
  NoDup L → dummyleaf_ s ∉ L → leaf_step s L key lo hi s' L' v → NoDup L'.
Proof.
  intros Hnd Hsp Hst. destruct Hst as [| |b l e' lo' hi' L1 L2 s' l' n' u [-> _ _ _ _ _]]; [done..|].
  assert (Hp : L1 ++ b :: dummyleaf_ s :: L2 ≡ₚ dummyleaf_ s :: L1 ++ b :: L2).
  { rewrite (cons_middle b), app_assoc, <-Permutation_middle, <-app_assoc. done. }
  rewrite Hp. by constructor.
Qed.

Lemma leaf_step_links s L key lo hi s' L' v :
  NoDup L → dummyleaf_ s ∉ L → (∀ a, a ∈ L → a ≠ NULL) → links s NULL L NULL →
  leaf_step s L key lo hi s' L' v → links s' NULL L' NULL.
Proof.
  intros Hnd Hsp Hnn Hlk Hst.
  destruct Hst as [|b l e' lo' hi' L1 L2 s' l' [-> Hl _ _ _ _] _ _ _ [_ _ Hlv _ (Hl1 & Hl2 & _) _]
                  |b l e' lo' hi' L1 L2 s' l' n' u [-> Hl _ _ _ _] _ _ _ [_ _ Hlv _ _ _ _ (Hl1 & Hl2 & _) (Hn1 & Hn2 & _) _]]; [done|..].
  - eapply links_frame; [|done]. intros a la Ha Hla. rewrite Hlv. destruct (decide (a = b)) as [->|].
    + rewrite lookup_insert_eq. exists l'. split; [done|]. rewrite Hl in Hla. by injection Hla as <-.
    + rewrite lookup_insert_ne by done. by exists la.
  - set (c := dummyleaf_ s) in *. apply links_app in Hlk as [Hk1 Hk2]. cbn [links] in Hk2.
    destruct Hk2 as [(l0 & Hl0 & Hleft & Hright) Hk2]. rewrite Hl in Hl0. injection Hl0 as <-.
    apply NoDup_app in Hnd as Hnd'. destruct Hnd' as (Hnd1 & Hd1 & [Hd2 Hnd2]%NoDup_cons).
    assert (Hcb : c ≠ b) by (intros Heq; apply Hsp; rewrite Heq; set_solver).
    assert (Hx1 : ∀ x lx, x ∈ L1 ++ L2 → x ≠ l_right l → leaves s !! x = Some lx → leaves s' !! x = Some lx).
    { intros x lx Hx Hr Hlx. rewrite Hlv, !lookup_insert_ne by set_solver. unfold relink. case_decide; [done|].
      by rewrite lookup_alter_ne. }
    apply links_app. split; [|cbn [links]; split; [|split]].
    + eapply links_frame; [|exact Hk1]. intros x lx Hx Hlx. exists lx. split; [|done]. apply Hx1; [set_solver| |done].
      rewrite Hright. destruct L2 as [|y L2]; cbn; [apply Hnn; set_solver|]. intros ->. apply (Hd1 y Hx). set_solver.
    + exists l'. split_and!; [rewrite Hlv; apply lookup_insert_eq|congruence|done].
    + exists n'. split_and!; [rewrite Hlv, lookup_insert_ne by done; apply lookup_insert_eq|done|congruence].
    + destruct L2 as [|y L2]; [done|]. cbn [links head] in *. destruct Hk2 as [(ly & Hly & Hyl & Hyr) Hk2].
      cbn in Hright. assert (y ≠ NULL) by (apply Hnn; set_solver). apply NoDup_cons in Hnd2 as [Hy2 _]. split.
      * exists (upd_left c ly). split_and!; [|done..]. rewrite Hlv, !lookup_insert_ne by set_solver. unfold relink.
        rewrite decide_False by congruence. by rewrite Hright, lookup_alter_eq, Hly.
      * eapply links_frame; [|exact Hk2]. intros x lx Hx Hlx. exists lx. split; [|done].
        apply Hx1; [set_solver|rewrite Hright; by intros ->|done].
Qed.

(** ** How full a tree is *)

Lemma entries_app s L1 L2 : entries s (L1 ++ L2) = entries s L1 ++ entries s L2.
Proof. apply bind_app. Qed.

(** A subtree that is not at the right edge is at least half full everywhere. *)
Lemma tree_size s d a lo hi L I : tree s d false a lo hi L I → (7 * 8 ^ d ≤ length (entries s L))%nat.
Proof.
  revert a lo hi L I. induction d as [|d IH]; intros a lo hi L I.
  - intros (-> & _ & l & Hl & Hok). unfold entries. cbn. rewrite app_nil_r, (leaf_entries_Some _ _ _ Hl), (length_lentries _ _ _ _ Hok).
    by apply Hok.
  - intros (n & J & _ & Hok & _ & Hf). pose proof (length_ikeys _ _ Hok) as Hlen. pose proof (in_fill _ _ Hok eq_refl) as Hfill.
    enough (S (length (ikeys n)) * (7 * 8 ^ d) ≤ length (entries s L))%nat by (rewrite Nat.pow_succ_r'; nia).
    clear Hlen Hfill Hok. revert Hf. generalize (ikeys n) (ikids n). intros ks. revert lo L J.
    induction ks as [|k ks IHk]; intros lo L J ps.
    + destruct ps as [|p [|]]; [done| |done]. intros [_ Hp%IH]. cbn [length]. lia.
    + destruct ps as [|p ps]; [done|]. intros (_ & L1 & I1 & L2 & I2 & Hp%IH & Hf%IHk & -> & _).
      rewrite entries_app, length_app. cbn [length] in *. lia.
Qed.

(** The tree got a new root above a full subtree. *)
Definition grown s' (L' : list Z) (d : nat) : Prop := depth s' = S d ∧ (7 * 8 ^ d ≤ length (entries s' L'))%nat.

(** ** [Insert_rtm] *)

Record insert_result s (L I : list Z) (key : Z) s0 s' (L' I' : list Z) (v : Z) : Prop := {
  ir_step : leaf_step s L key 0 (2 ^ 64) s0 L' v;
  ir_leaves : leaves s' = leaves s0 ∧ dummyval_ s' = dummyval_ s0 ∧ dummyleaf_ s' = dummyleaf_ s0 ∧ localinit_ s' = localinit_ s;
  ir_hit : s0 = s → s' = s;
  ir_tree : tree s' (depth s') true (root s') 0 (2 ^ 64) L' I';
  ir_nodup : NoDup I';
  ir_addr x : x ∈ I' → 0 < x < brk_ s';
  ir_brk : brk_ s ≤ brk_ s';
  ir_depth : depth s' = depth s ∨ grown s' L' (depth s);
}.

Lemma grow_root_run s r u :
  ∃ n, grow_root s r u = Done (set_root (set_inner (bump s) (brk_ s) n) (brk_ s) (depth s + 1)) ∧
    inner_ok true n ∧ ikeys n = [u] ∧ ikids n = [root s; r].
Proof.
  unfold grow_root, new_inner_node. rewrite (inner_Some _ (brk_ s)) with (n := InnerNode_new) by apply lookup_insert_eq.
  cbn [mbind result_bind]. rewrite !aset_lt by (cbn; lia). cbn [mbind result_bind]. rewrite aset_lt by (cbn; lia). cbn [mbind result_bind].
  eexists. split; [unfold set_root, set_inner; cbn [inners bump]; by rewrite insert_insert_eq|]. split_and!; [split; cbn; unfold NENT; lia|reflexivity..].
Qed.

Section top.
Context s (L I : list Z) (key : Z) (Hinv : bp_inv s L I) (Hkey : 0 ≤ key < 2 ^ 64).
Context s2 (r u v : Z) (Hpost : level_post s (depth s) true (root s) 0 (2 ^ 64) L I key s2 r u v).

Lemma top_leaves s0 L' :
  leaf_step s L key 0 (2 ^ 64) s0 L' v → same_leaves s0 s2 → ∀ s', leaves s' = leaves s2 → dummyval_ s' = dummyval_ s2 →
  dummyleaf_ s' = dummyleaf_ s2 → localinit_ s' = localinit_ s2 →
  leaves s' = leaves s0 ∧ dummyval_ s' = dummyval_ s0 ∧ dummyleaf_ s' = dummyleaf_ s0 ∧ localinit_ s' = localinit_ s.
Proof using All.
  intros Hst%leaf_step_same (? & ? & ? & ? & ? & ?) s' ? ? ? ?. destruct Hst as (_ & _ & _ & _ & ?). split_and!; congruence.
Qed.

Lemma top_none : r = NULL → ∃ s0 L' I', insert_result s L I key s0 s2 L' I' v.
Proof using All.
  intros Hr. destruct Hpost as (s0 & L' & Hst & Hsame & Hs0 & Hsub & _).
  destruct (level_depth _ _ _ _ _ _ _ _ _ _ _ _ _ Hpost) as [Hd Hrt].
  destruct (sp_tree _ _ _ _ _ _ _ _ _ _ _ Hsub) as [(_ & I' & Ht & Hnd & Hin)|(? & _)]; [|done].
  pose proof (sp_brk _ _ _ _ _ _ _ _ _ _ _ Hsub) as Hb. pose proof (bi_pos _ _ _ Hinv).
  exists s0, L', I'. split; [done|by eapply top_leaves|intros ?; by apply Hs0|by rewrite Hd, Hrt|done| |done|by left].
  intros x Hx. destruct (Hin x Hx) as [HI|?]; [|lia]. pose proof (bi_inner_addr _ _ _ Hinv x HI). lia.
Qed.

Lemma top_grow :
  r ≠ NULL → ∃ s' s0 L' I', grow_root s2 r u = Done s' ∧ insert_result s L I key s0 s' L' I' v.
Proof using All.
  intros Hr. destruct Hpost as (s0 & L' & Hst & Hsame & Hs0 & Hsub & _).
  destruct (level_depth _ _ _ _ _ _ _ _ _ _ _ _ _ Hpost) as [Hd Hrt].
  destruct (sp_tree _ _ _ _ _ _ _ _ _ _ _ Hsub) as [(? & _)|(_ & Hu & La & Ia & Lb & Ib & -> & Hta & Htb & Hnd & Hin)]; [done|].
  pose proof (sp_brk _ _ _ _ _ _ _ _ _ _ _ Hsub) as Hb. pose proof (bi_pos _ _ _ Hinv) as Hpos.
  assert (Hlt : ∀ x, x ∈ Ia ++ Ib → 0 < x < brk_ s2).
  { intros x Hx. destruct (Hin x Hx) as [HI|?]; [|lia]. pose proof (bi_inner_addr _ _ _ Hinv x HI). lia. }
  destruct (grow_root_run s2 r u) as (n & -> & Hn & Hks & Hps). set (s' := set_root _ _ _).
  assert (Hfr : ∀ e p lo hi M J, J ⊆ Ia ++ Ib → tree s2 (depth s) e p lo hi M J → tree s' (depth s) e p lo hi M J).
  { intros e p lo hi M J HJ Ht. eapply tree_frame; [..|exact Ht]; [intros b l _ Hl; by exists l|].
    intros b Hb'. unfold s'. cbn. rewrite lookup_insert_ne; [done|]. specialize (Hlt b (HJ b Hb')). lia. }
  exists s', s0, (La ++ Lb), (brk_ s2 :: Ia ++ Ib). split; [done|]. split.
  - done.
  - by eapply top_leaves.
  - intros Heq. by destruct (Hs0 Heq).
  - unfold s' at 2. cbn [depth set_root set_inner bump]. rewrite Hd, Nat.add_1_r.
    exists n, (Ia ++ Ib). split_and!; [unfold s'; cbn; apply lookup_insert_eq|done|done|]. rewrite Hks, Hps, Hrt.
    split; [lia|]. exists La, Ia, Lb, Ib. split_and!; [|split; [lia|]|done|done]; (apply Hfr; [set_solver|done]).
  - constructor; [|done]. intros Hx. specialize (Hlt _ Hx). lia.
  - unfold s'. cbn. intros x [->|Hx]%elem_of_cons; [lia|]. specialize (Hlt x Hx). lia.
  - unfold s'. cbn. lia.
  - right. split; [unfold s'; cbn; lia|]. rewrite entries_app, length_app.
    eapply Hfr in Hta; [apply tree_size in Hta; lia|set_solver].
Qed.
End top.

Lemma bp_root_nonnull s L I : bp_inv s L I → root s ≠ NULL.
Proof.
  intros Hinv. pose proof (bi_tree _ _ _ Hinv) as Ht. unfold NULL. destruct (depth s) as [|d].
  - destruct Ht as (-> & _ & l & Hl & _). pose proof (bi_leaf_addr _ _ _ Hinv (root s) ltac:(eauto)). lia.
  - destruct Ht as (n & J & _ & _ & -> & _). pose proof (bi_inner_addr _ _ _ Hinv (root s) ltac:(by left)). lia.
Qed.

Lemma Insert_rtm_spec s L I key :
  bp_inv s L I → 0 ≤ key < 2 ^ 64 →
  ∃ s' v s0 L' I', Insert_rtm s key = Done (s', v) ∧ insert_result s L I key s0 s' L' I' v.
Proof.
  intros Hinv Hkey. pose proof (bp_inv_pre _ _ _ _ Hinv Hkey) as Hpre. unfold Insert_rtm.
  rewrite decide_False by by eapply bp_root_nonnull. cbn [mbind result_bind].
  destruct (decide (depth s = 0%nat)) as [Hd|Hd].
  - rewrite Hd in Hpre. destruct Hpre as [Ht _ _ _ _ _ Hctx].
    destruct (LeafInsert_sub _ _ _ _ _ _ _ key Ht Hkey Hctx) as (s1 & L' & r & v & u & -> & Hst & Hs0 & Hsub & Hsep).
    cbn [mbind result_bind].
    assert (Hpost : level_post s (depth s) true (root s) 0 (2 ^ 64) L I key s1 r u v).
    { rewrite Hd. exists s1, L'. split_and!; [done..| |done|done]. intros ->. split; [done|]. by apply Hs0. }
    case_decide as Hr.
    + destruct (top_none s L I key Hinv Hkey s1 r u v Hpost Hr) as (s0 & L1 & I1 & ?). by exists s1, v, s0, L1, I1.
    + destruct (Hsep Hr) as (nl & Hnl & Hu). rewrite (leaf_Some _ _ _ Hnl). cbn [mbind result_bind].
      rewrite (aget_Some _ _ _ Hu). cbn [mbind result_bind].
      destruct (top_grow s L I key Hinv Hkey s1 r u v Hpost Hr) as (s' & s0 & L1 & I1 & -> & ?). by exists s', v, s0, L1, I1.
  - destruct (depth s) as [|d] eqn:Hds; [done|].
    destruct (InnerInsert_spec s d true (root s) 0 (2 ^ 64) L I key) as (s2 & r & u & v & -> & Hpost); [done|lia|].
    pose proof (level_depth _ _ _ _ _ _ _ _ _ _ _ _ _ Hpost) as [Hd2 _]. rewrite <-Hds in Hpost.
    destruct (decide (S d = depth s2 ∧ r ≠ NULL)) as [[_ Hr]|Hr]; cbn [mbind result_bind].
    + destruct (top_grow s L I key Hinv Hkey s2 r u v Hpost Hr) as (s' & s0 & L1 & I1 & -> & ?). cbn. by exists s', v, s0, L1, I1.
    + assert (r = NULL) as Hr' by (destruct (decide (r = NULL)); [done|exfalso; apply Hr; split; [congruence|done]]).
      destruct (top_none s L I key Hinv Hkey s2 r u v Hpost Hr') as (s0 & L1 & I1 & ?). cbn. by exists s2, v, s0, L1, I1.
Qed.

(** ** [_GetWithInsert] *)

Lemma leaf_step_dom s L key lo hi s' L' v a :
  leaf_step s L key lo hi s' L' v → dummyleaf_ s ∈ dom (leaves s) → a ∈ dom (leaves s') → a ∈ dom (leaves s).
Proof.
  intros Hst Hsp. destruct Hst as [|b l e' lo' hi' L1 L2 s' l' [_ Hl _ _ _ _] _ _ _ [_ _ Hlv _ _ _]
                                  |b l e' lo' hi' L1 L2 s' l' n' u [_ Hl _ _ _ _] _ _ _ [_ _ Hlv _ _ _ _ _ _ _]]; [done|..].
  - rewrite Hlv, dom_insert, elem_of_union, elem_of_singleton. intros [->|?]; [by eapply elem_of_dom_2|done].
  - rewrite Hlv, !dom_insert, !elem_of_union, !elem_of_singleton. intros [->|[->|Ha]]; [by eapply elem_of_dom_2|done|].
    unfold relink in Ha. case_decide; [done|]. by rewrite dom_alter in Ha.
Qed.

(** The spare nodes after a step. *)
Lemma leaf_step_spare s L key lo hi s' L' v :
  dummyleaf_ s ∉ L → leaf_step s L key lo hi s' L' v →
  (s' = s ∧ L' = L) ∨
  (dummyval_ s' = NULL ∧ v = dummyval_ s ∧
   (dummyleaf_ s' = NULL ∨ dummyleaf_ s' = dummyleaf_ s ∧ L' = L ∧ leaves s' !! dummyleaf_ s = leaves s !! dummyleaf_ s)).
Proof.
  intros Hsp Hst. destruct Hst as [|b l e' lo' hi' L1 L2 s' l' [-> Hl _ _ _ _] _ _ _ [_ [H1 H2] Hlv _ _ _]
                                  |b l e' lo' hi' L1 L2 s' l' n' u [_ Hl _ _ _ _] _ _ _ [_ [H1 H2] _ _ _ _ _ _ _ _]].
  - by left.
  - right. split_and!; [done..|]. right. split_and!; [done..|]. rewrite Hlv, lookup_insert_ne; [done|].
    intros ->. apply Hsp. set_solver.
  - right. split_and!; [done..|]. by left.
Qed.

(** The invariant without the two spare nodes. *)
Record bp_core s (L I : list Z) : Prop := {
  bc_tree : tree s (depth s) true (root s) 0 (2 ^ 64) L I;
  bc_links : links s NULL L NULL;
  bc_leaves : NoDup L;
  bc_inners : NoDup I;
  bc_local : localinit_ s = true;
  bc_leaf_addr a : is_Some (leaves s !! a) → 0 < a < brk_ s;
  bc_inner_addr a : a ∈ I → 0 < a < brk_ s;
  bc_vals : NoDup (entries s L).*2 ∧ ∀ v, v ∈ (entries s L).*2 → v < brk_ s;
  bc_pos : 0 < brk_ s;
}.

Definition spare_leaf s (L : list Z) : Prop := (dummyleaf_ s ∉ L) ∧ ∃ n, leaves s !! dummyleaf_ s = Some n ∧ arrays_ok n.
Definition spare_val s (L : list Z) : Prop := 0 < dummyval_ s < brk_ s ∧ dummyval_ s ∉ (entries s L).*2.

Lemma bp_inv_core s L I : bp_inv s L I ↔ bp_core s L I ∧ spare_leaf s L ∧ spare_val s L.
Proof.
  split.
  - intros [? ? ? ? ? ? ? ? [? ?] ?]. split_and!; [|done..]. split; [done..|lia].
  - intros ([] & ? & ?). by split.
Qed.

(** Leaf addresses are below the next free one. *)
Lemma core_leaf_lt s L I a : bp_core s L I → a ∈ L → a < brk_ s.
Proof.
  intros Hc Ha. destruct (tree_leaf_ok _ _ _ _ _ _ _ _ _ (bc_tree _ _ _ Hc) Ha) as (l & _ & _ & _ & Hl & _).
  apply (bc_leaf_addr _ _ _ Hc a). eauto.
Qed.

(** A new node outside the tree changes nothing. *)
Lemma core_frame s s' L I :
  bp_core s L I → root s' = root s → depth s' = depth s → inners s' = inners s → localinit_ s' = localinit_ s →
  brk_ s ≤ brk_ s' → (∀ a, a < brk_ s → leaves s' !! a = leaves s !! a) →
  (∀ a, is_Some (leaves s' !! a) → 0 < a < brk_ s') → bp_core s' L I ∧ entries s' L = entries s L.
Proof.
  intros Hc Hr Hd Hi Hlo Hb Hlv Had.
  assert (Hl : ∀ a l, a ∈ L → leaves s !! a = Some l → leaves s' !! a = Some l).
  { intros a l Ha Hl. rewrite Hlv; [done|]. by eapply core_leaf_lt. }
  assert (He : entries s' L = entries s L).
  { apply entries_frame; [intros a l Ha Hla; exists l; split; [by apply Hl|done]|].
    intros a Ha. destruct (tree_leaf_ok _ _ _ _ _ _ _ _ _ (bc_tree _ _ _ Hc) Ha) as (l & _ & _ & _ & ? & _). eauto. }
  split; [|done]. destruct Hc as [Ht Hk HL HI Hloc _ Hia [Hv1 Hv2] Hpos]. split; try done.
  - rewrite Hr, Hd. eapply tree_frame; [..|exact Ht].
    + intros a l Ha Hla. exists l. split; [by apply Hl|done].
    + intros a Ha. by rewrite Hi.
  - eapply links_frame; [|exact Hk]. intros a l Ha Hla. exists l. split; [by apply Hl|done].
  - congruence.
  - intros a Ha. specialize (Hia a Ha). lia.
  - rewrite He. split; [done|]. intros v Hv. specialize (Hv2 v Hv). lia.
  - lia.
Qed.

Lemma fill_dummyval_core s L I :
  bp_core s L I → bp_core (fill_dummyval s) L I ∧ spare_val (fill_dummyval s) L ∧
  (spare_leaf s L → spare_leaf (fill_dummyval s) L).
Proof.
  intros Hc. pose proof (bc_pos _ _ _ Hc) as Hpos. destruct (core_frame s (fill_dummyval s) L I Hc) as [Hc' He]; try done.
  - cbn. lia.
  - cbn. intros a Ha. pose proof (bc_leaf_addr _ _ _ Hc a Ha). lia.
  - split_and!; [done| |done]. split; [cbn; lia|]. rewrite He. cbn. intros Hv.
    apply (proj2 (bc_vals _ _ _ Hc)) in Hv. lia.
Qed.

Lemma fill_dummyleaf_core s L I :
  bp_core s L I → bp_core (fill_dummyleaf s) L I ∧ spare_leaf (fill_dummyleaf s) L ∧
  (spare_val s L → spare_val (fill_dummyleaf s) L).
Proof.
  intros Hc. pose proof (bc_pos _ _ _ Hc) as Hpos. destruct (core_frame s (fill_dummyleaf s) L I Hc) as [Hc' He]; try done.
  - cbn. lia.
  - intros a Ha. cbn. rewrite lookup_insert_ne; [done|lia].
  - cbn. intros a Ha. destruct (decide (a = brk_ s)) as [->|]; [lia|]. rewrite lookup_insert_ne in Ha by done.
    pose proof (bc_leaf_addr _ _ _ Hc a Ha). lia.
  - split_and!; [done|split|].
    + cbn. intros Hin. pose proof (core_leaf_lt _ _ _ _ Hc Hin). lia.
    + exists LeafNode_new. split; [cbn; apply lookup_insert_eq|]. split; cbn; unfold MEM_BTREE_M; lia.
    + intros [? ?]. split; [cbn; lia|by rewrite He].
Qed.

(** What remains to be done after [Insert_rtm]. *)
Lemma insert_result_core s L I key s0 s' L' I' v :
  bp_inv s L I → insert_result s L I key s0 s' L' I' v →
  bp_core s' L' I' ∧ (s' = s ∧ L' = L ∨ dummyval_ s' = NULL) ∧ (dummyleaf_ s' = NULL ∨ spare_leaf s' L') ∧
  entries s' L' = entries s0 L'.
Proof.
  intros Hinv [Hst (Hlv & Hdv & Hdl & Hlo) Hhit Ht Hnd Had Hb _].
  pose proof (bi_spare _ _ _ Hinv) as [Hsp (n & Hn & Har)].
  assert (He : entries s' L' = entries s0 L') by (unfold entries, leaf_entries; by rewrite Hlv).
  assert (Hlk : links s' NULL L' NULL).
  { eapply links_frame with s0; [intros a l _ Hl; exists l; by rewrite Hlv|]. eapply leaf_step_links; [apply Hinv|done| |apply Hinv|done].
    intros a Ha. destruct (links_leaf _ _ _ _ _ (bi_links _ _ _ Hinv) Ha) as [l Hl].
    pose proof (bi_leaf_addr _ _ _ Hinv a ltac:(eauto)). unfold NULL. lia. }
  assert (HndL : NoDup L') by (eapply leaf_step_nodup; [apply Hinv|done|done]).
  pose proof (leaf_step_entries _ _ _ _ _ _ _ _ _ _ _ _ (bi_tree _ _ _ Hinv) (bi_leaves _ _ _ Hinv) Hsp Hst) as Hent.
  assert (Hla : ∀ a, is_Some (leaves s' !! a) → 0 < a < brk_ s').
  { intros a Ha. rewrite Hlv in Ha. assert (0 < a < brk_ s); [|lia]. apply (bi_leaf_addr _ _ _ Hinv a), elem_of_dom.
    eapply leaf_step_dom; [done|by eapply elem_of_dom_2|by apply elem_of_dom]. }
  destruct (bi_vals _ _ _ Hinv) as [Hv1 Hv2]. destruct (bi_val _ _ _ Hinv) as [Hv3 Hv4].
  split_and!; [split; try done| | |done].
  - rewrite Hlo. apply Hinv.
  - rewrite He. destruct Hent as [(-> & -> & _)|(-> & _ & k & ->)].
    + split; [done|]. intros w Hw. specialize (Hv2 w Hw). lia.
    + unfold ins. rewrite fmap_app, fmap_cons. rewrite <-(take_drop k (entries s L)), fmap_app in Hv1, Hv2, Hv4. split.
      * rewrite <-Permutation_middle. by constructor.
      * intros w [Hw|[->|Hw]%elem_of_cons]%elem_of_app; [|cbn; lia|];
          (assert (w < brk_ s); [apply Hv2, elem_of_app; tauto|lia]).
  - lia.
  - destruct (leaf_step_spare _ _ _ _ _ _ _ _ Hsp Hst) as [[-> ->]|(H1 & _)]; [left; auto|right; congruence].
  - destruct (leaf_step_spare _ _ _ _ _ _ _ _ Hsp Hst) as [[-> ->]|(_ & _ & [H1|(H1 & -> & H2)])]; [right|left; congruence|right].
    + rewrite Hhit by done. apply Hinv.
    + split; rewrite Hdl, H1; [done|]. exists n. rewrite Hlv, H2. done.
Qed.

(** [_GetWithInsert] always returns the node of the key, keeps the invariant, and adds
    exactly this key when it was not there. *)
Record inserted s (L : list Z) (key : Z) s' (L' : list Z) (v : Z) : Prop := {
  id_step : ∃ s0, leaf_step s L key 0 (2 ^ 64) s0 L' v ∧ (∀ a, a ∈ L' → leaves s' !! a = leaves s0 !! a) ∧ (s0 = s → s' = s);
  id_depth : depth s' = depth s ∨ grown s' L' (depth s);
  id_brk : brk_ s ≤ brk_ s';
}.

Lemma refill_inserted s L I key s0 s1 s' L' I' v :
  bp_core s1 L' I' → insert_result s L I key s0 s1 L' I' v → depth s' = depth s1 → entries s' L' = entries s1 L' →
  brk_ s1 ≤ brk_ s' → (∀ a, a < brk_ s1 → leaves s' !! a = leaves s1 !! a) → (s0 = s → s' = s1) → inserted s L key s' L' v.
Proof.
  intros Hc [Hst (Hlv & _) Hhit _ _ _ Hb Hdep] Hd He Hb' Hl Hs. split.
  - exists s0. split_and!; [done| |intros Heq; by rewrite Hs, Hhit]. intros a Ha. rewrite Hl by (by eapply core_leaf_lt). by rewrite Hlv.
  - unfold grown in *. by rewrite Hd, He.
  - lia.
Qed.

Lemma bp_GetWithInsert_spec s L I m key val :
  bp_inv s L I → 0 ≤ key < 2 ^ 64 →
  ∃ s' m' v L' I', bp_GetWithInsert s m key val = Done (s', m', v) ∧ bp_inv s' L' I' ∧ inserted s L key s' L' v ∧
    (s' = s ∧ m' = upd_node (upd_node m (dummyval_ s) (set_value val)) (dummyval_ s) (set_value NULL) ∨
     s' ≠ s ∧ m' = upd_node m (dummyval_ s) (set_value val)).
Proof.
  intros Hinv Hkey. unfold bp_GetWithInsert, ThreadLocalInit. rewrite (bi_local _ _ _ Hinv).
  destruct (Insert_rtm_spec s L I key Hinv Hkey) as (s1 & v & s0 & L' & I' & -> & Hres). cbn [mbind result_bind].
  destruct (insert_result_core _ _ _ _ _ _ _ _ _ Hinv Hres) as (Hcore & Hval & Hleaf & He).
  pose proof (ir_hit _ _ _ _ _ _ _ _ _ Hres) as Hhit. pose proof (ir_brk _ _ _ _ _ _ _ _ _ Hres) as Hb.
  destruct (decide (dummyval_ s1 = NULL)) as [Hn|Hn].
  - destruct (fill_dummyval_core _ _ _ Hcore) as (Hc2 & Hv2 & Hl2).
    destruct (fill_dummyleaf_core _ _ _ Hc2) as (Hc3 & Hl3 & Hv3).
    destruct (bi_val _ _ _ Hinv) as [Hdv _].
    assert (Hne : s0 ≠ s) by (intros Heq; rewrite (Hhit Heq) in Hn; unfold NULL in *; lia).
    case_decide as Hdn; eexists _, _, v, L', I'; (split_and!; [done|apply bp_inv_core|apply (refill_inserted s L I key s0 s1 _ L' I'); try done|]).
    + split_and!; [done..|by apply Hv3].
    + unfold entries, leaf_entries. cbn. apply Forall_bind_ext, Forall_forall. intros a Ha. rewrite lookup_insert_ne; [done|].
      pose proof (core_leaf_lt _ _ _ _ Hcore Ha). lia.
    + cbn. lia.
    + intros a Ha. cbn. rewrite lookup_insert_ne by lia. done.
    + right. split; [|done]. intros Heq%(f_equal brk_). cbn in Heq. lia.
    + split_and!; [done| |done]. apply Hl2. destruct Hleaf as [Hnull|]; [by destruct Hdn|done].
    + cbn. lia.
    + right. split; [|done]. intros Heq%(f_equal brk_). cbn in Heq. lia.
  - destruct Hval as [[-> ->]|]; [|done]. rewrite decide_False.
    2: { destruct (bi_spare _ _ _ Hinv) as [_ (n & Hn' & _)]. pose proof (bi_leaf_addr _ _ _ Hinv _ ltac:(eauto)). unfold NULL. lia. }
    eexists _, _, v, L, I. split_and!; [done|done|by eapply refill_inserted|by left].
Qed.

(** The same on the contents. *)
Lemma inserted_contents s L I key s' L' I' v :
  bp_inv s L I → bp_inv s' L' I' → 0 ≤ key < 2 ^ 64 → inserted s L key s' L' v →
  (s' = s ∧ contents s L !! key = Some v ∧ contents s' L' = contents s L) ∨
  (s' ≠ s ∧ contents s L !! key = None ∧ v = dummyval_ s ∧ contents s' L' = <[key := v]> (contents s L)).
Proof.
  intros Hinv Hinv' Hkey [(s0 & Hst & Hlv & Hhit) _ _]. pose proof (bi_spare _ _ _ Hinv) as [Hsp _].
  assert (He : entries s' L' = entries s0 L').
  { unfold entries, leaf_entries. apply Forall_bind_ext, Forall_forall. intros a Ha. by rewrite Hlv. }
  destruct (leaf_step_entries _ _ _ _ _ _ _ _ _ _ _ _ (bi_tree _ _ _ Hinv) (bi_leaves _ _ _ Hinv) Hsp Hst)
    as [(-> & -> & Hin)|(-> & Hnin & k & Hk)].
  - left. rewrite Hhit by done. split_and!; [done| |done]. by eapply contents_lookup.
  - right. rewrite Hk in He. assert (Hnd : NoDup (entries s' L').*1).
    { rewrite (fst_entries _ _ _ _ _ _ _ _ _ (bi_tree _ _ _ Hinv')) by done. eapply rising_NoDup, tree_sorted, Hinv'. }
    assert (Hc : contents s' L' = <[key := dummyval_ s]> (contents s L)).
    { unfold contents. rewrite <-list_to_map_cons. apply list_to_map_proper; [done|].
      rewrite He. unfold ins. rewrite <-Permutation_middle. by rewrite take_drop. }
    assert (Hn : contents s L !! key = None) by by apply not_elem_of_list_to_map.
    split_and!; [|done..]. intros ->. apply Hnin.
    change key with (key, dummyval_ s).1. apply list_elem_of_fmap_2, (entries_key s L I L' I' key _ Hinv Hinv' Hkey).
    apply (contents_lookup _ _ _ _ _ Hinv'). rewrite Hc. apply lookup_insert_eq.
Qed.

(** ** A new tree *)

Lemma new_tree_inv base : 0 < base → bp_inv (ThreadLocalInit (MemstoreBPlusTree_new base)) [base] [].
Proof.
  intros Hb. set (s := ThreadLocalInit _).
  assert (Hl : leaves s !! base = Some LeafNode_new) by (cbn; rewrite lookup_insert_ne by lia; apply lookup_insert_eq).
  assert (He : entries s [base] = []) by (unfold entries, leaf_entries; cbn [mbind list_bind]; by rewrite Hl).
  split; rewrite ?He; [| |apply NoDup_singleton|constructor|done| | | | |].
  - cbn. split_and!; [done..|]. exists LeafNode_new. split; [done|]. split; cbn; try done; try (unfold MEM_BTREE_M; lia); try apply SSorted_nil;
      by intros ? ?%not_elem_of_nil.
  - cbn. split; [|done]. by exists LeafNode_new.
  - intros a. cbn. destruct (decide (a = base + 1 + 1)) as [->|]; [lia|]. rewrite lookup_insert_ne by done.
    destruct (decide (a = base)) as [->|]; [lia|]. rewrite lookup_singleton_ne by done. by intros [].
  - by intros a ?%not_elem_of_nil.
  - split; [cbn; intros ?%list_elem_of_singleton; lia|]. exists LeafNode_new. split; [cbn; apply lookup_insert_eq|].
    split; cbn; unfold MEM_BTREE_M; lia.
  - cbn. split; [lia|]. apply not_elem_of_nil.
  - split; [constructor|]. by intros v ?%not_elem_of_nil.
Qed.

(** ** More of the invariant: no empty leaf beside another, [seq] is a machine word *)

Record leaves_ok s (L : list Z) : Prop := {
  lv_full a : a ∈ L → L ≠ [a] → leaf_entries s a ≠ [];
  lv_seq a l : a ∈ L → leaves s !! a = Some l → 0 ≤ l_seq l < 2 ^ 64;
}.

Lemma u64_range x : 0 ≤ u64 x < 2 ^ 64.
Proof. unfold u64, uwrap. apply Z.mod_pos_bound. lia. Qed.

Lemma relink_lookup m r b x l :
  m !! x = Some l → ∃ l', relink m r b !! x = Some l' ∧ same_data l l' ∧ l_seq l' = l_seq l.
Proof.
  intros Hx. unfold relink. case_decide; [by exists l|]. destruct (decide (x = r)) as [->|].
  - rewrite lookup_alter_eq, Hx. by exists (upd_left b l).
  - rewrite lookup_alter_ne by done. by exists l.
Qed.

(** A step leaves every leaf but one alone, up to its left link. *)
Definition leaf_kept s s' (a : Z) : Prop :=
  ∃ l l', leaves s !! a = Some l ∧ leaves s' !! a = Some l' ∧ lentries l' = lentries l ∧ l_seq l' = l_seq l.

Lemma leaf_kept_entries s s' a : leaf_kept s s' a → leaf_entries s' a = leaf_entries s a.
Proof. intros (l & l' & Hl & Hl' & He & _). by rewrite (leaf_entries_Some _ _ _ Hl), (leaf_entries_Some _ _ _ Hl'). Qed.

Lemma leaves_kept_entries s s' M : (∀ a, a ∈ M → leaf_kept s s' a) → entries s' M = entries s M.
Proof. intros HM. apply Forall_bind_ext, Forall_forall. intros a Ha. by apply leaf_kept_entries, HM. Qed.

(** The two ways a step changes a tree. *)
Inductive leaves_change s (L : list Z) s' : list Z → Prop :=
  | change_grew M1 b M2 l l' x :
      L = M1 ++ b :: M2 → (∀ a, a ∈ M1 ++ M2 → leaf_kept s s' a) → leaves s !! b = Some l → leaves s' !! b = Some l' →
      l_seq l' = u64 (l_seq l + 1) → (∃ k, lentries l' = ins k x (lentries l)) → leaves_change s L s' L
  | change_split M1 b M2 l l' c n' x :
      L = M1 ++ b :: M2 → (∀ a, a ∈ M1 ++ M2 → leaf_kept s s' a) → leaves s !! b = Some l → leaves s' !! b = Some l' →
      leaves s' !! c = Some n' → l_seq l' = u64 (l_seq l + 1) → l_seq n' = 0 → lentries l' ≠ [] → lentries n' ≠ [] →
      (∃ k, lentries l' ++ lentries n' = ins k x (lentries l)) → leaves_change s L s' (M1 ++ b :: c :: M2).

Lemma leaf_step_change s L I key s0 L' v :
  bp_inv s L I → leaf_step s L key 0 (2 ^ 64) s0 L' v → (s0 = s ∧ L' = L) ∨ leaves_change s L s0 L'.
Proof.
  intros Hinv Hst. pose proof (bi_leaves _ _ _ Hinv) as Hnd. destruct (bi_spare _ _ _ Hinv) as [Hsp _].
  assert (Hall : ∀ a, a ∈ L → is_Some (leaves s !! a)) by (intros a; eapply links_leaf, Hinv).
  destruct Hst as [|b l e' lo' hi' M1 M2 s' l' [-> Hl _ _ _ _] _ _ _ [_ _ Hlv Hok (_ & _ & Hseq) (k & _ & He)]
                  |b l e' lo' hi' M1 M2 s' l' n' u [-> Hl _ _ _ _] _ _ _
                    [_ _ Hlv Hok1 Hok2 [_ Hu] _ (_ & _ & Hseq) (_ & _ & Hseq2) (k & _ & He)]]; [by left|right..];
    (assert (Hb : ∀ a, a ∈ M1 ++ M2 → a ≠ b);
     [intros a Ha ->; rewrite <-Permutation_middle in Hnd; apply NoDup_cons in Hnd as [? _]; done|]).
  - eapply change_grew; [done| |done|rewrite Hlv; apply lookup_insert_eq|done|by exists k].
    intros a Ha. destruct (Hall a) as [la Hla]; [set_solver|]. exists la, la. rewrite Hlv, lookup_insert_ne; [done|].
    intros ->. by apply (Hb a).
  - assert (Hcb : dummyleaf_ s ≠ b) by (intros Heq; apply Hsp; rewrite Heq; set_solver).
    eapply change_split with (n' := n'); [done| |done|rewrite Hlv; apply lookup_insert_eq| |done|done| | |by exists k].
    + intros a Ha. destruct (Hall a) as [la Hla]; [set_solver|].
      destruct (relink_lookup _ (l_right l) (dummyleaf_ s) _ _ Hla) as (la' & Hla' & Hsame & Hsq).
      exists la, la'. rewrite Hlv, !lookup_insert_ne; [split_and!; [done..|by apply same_data_entries|done]| |].
      * intros Heq. apply Hsp. rewrite Heq. set_solver.
      * intros ->. by apply (Hb a).
    + rewrite Hlv, lookup_insert_ne by done. apply lookup_insert_eq.
    + intros H0. pose proof (length_lentries _ _ _ _ Hok1) as Hlen. rewrite H0 in Hlen. cbn in Hlen.
      pose proof (lf_fill _ _ _ _ Hok1 eq_refl). lia.
    + intros H0. pose proof (length_lentries _ _ _ _ Hok2) as Hlen. rewrite H0, <-(length_lkeys _ _ _ _ Hok2) in Hlen.
      destruct (lkeys n'); done.
Qed.

Lemma leaves_change_ext s L s0 s' L' :
  leaves_change s L s0 L' → (∀ a, a ∈ L' → leaves s' !! a = leaves s0 !! a) → leaves_change s L s' L'.
Proof.
  intros Hc Hl.
  assert (Hk : ∀ a, a ∈ L' → leaf_kept s s0 a → leaf_kept s s' a).
  { intros a Ha (l & l' & ? & ? & ? & ?). exists l, l'. by rewrite Hl. }
  destruct Hc as [M1 b M2 l l' x -> Hkept|M1 b M2 l l' c n' x -> Hkept].
  - eapply change_grew; [done| |done| |done|done]; [|rewrite Hl; [done|set_solver]].
    intros a Ha. apply Hk; [set_solver|by apply Hkept].
  - eapply change_split; [done| |done| | |done..]; [|rewrite Hl; [done|set_solver]..].
    intros a Ha. apply Hk; [set_solver|by apply Hkept].
Qed.

Lemma inserted_change s L I key s' L' v :
  bp_inv s L I → inserted s L key s' L' v → (s' = s ∧ L' = L) ∨ leaves_change s L s' L'.
Proof.
  intros Hinv [(s0 & Hst & Hl & Hhit) _ _].
  destruct (leaf_step_change _ _ _ _ _ _ _ Hinv Hst) as [[-> ->]|Hc]; [left; auto|right]. by eapply leaves_change_ext.
Qed.

Lemma change_leaves_ok s L s' L' : leaves_change s L s' L' → leaves_ok s L → leaves_ok s' L'.
Proof.
  intros Hc [Hf Hs]. destruct Hc as [M1 b M2 l l' x -> Hkept Hl Hl' Hseq (k & He)|M1 b M2 l l' c n' x -> Hkept Hl Hl' Hn Hseq Hseq2 Hne1 Hne2 _].
  - assert (Hcase : ∀ a, a ∈ M1 ++ b :: M2 → a = b ∨ a ∈ M1 ++ M2) by set_solver. split.
    + intros a Ha HL. destruct (Hcase a Ha) as [->|Ha'].
      * rewrite (leaf_entries_Some _ _ _ Hl'), He. unfold ins. by intros [_ ?]%app_eq_nil.
      * rewrite (leaf_kept_entries s) by by apply Hkept. by apply Hf.
    + intros a la Ha Hla. destruct (Hcase a Ha) as [->|Ha'].
      * assert (la = l') as -> by congruence. rewrite Hseq. apply u64_range.
      * destruct (Hkept a Ha') as (l1 & l2 & H1 & H2 & _ & Hsq). assert (la = l2) as -> by congruence. rewrite Hsq. by apply (Hs a).
  - assert (Hcase : ∀ a, a ∈ M1 ++ b :: c :: M2 → a = b ∨ a = c ∨ a ∈ M1 ++ M2) by set_solver. split.
    + intros a Ha _. destruct (Hcase a Ha) as [->|[->|Ha']]; [by rewrite (leaf_entries_Some _ _ _ Hl')|by rewrite (leaf_entries_Some _ _ _ Hn)|].
      rewrite (leaf_kept_entries s) by by apply Hkept. apply Hf; [set_solver|]. intros HL. apply (f_equal length) in HL.
      rewrite length_app in HL. cbn in HL. destruct M1, M2; cbn in *; try lia. by apply not_elem_of_nil in Ha'.
    + intros a la Ha Hla. destruct (Hcase a Ha) as [->|[->|Ha']].
      * assert (la = l') as -> by congruence. rewrite Hseq. apply u64_range.
      * assert (la = n') as -> by congruence. rewrite Hseq2. lia.
      * destruct (Hkept a Ha') as (l1 & l2 & H1 & H2 & _ & Hsq). assert (la = l2) as -> by congruence. rewrite Hsq. apply (Hs a); [set_solver|done].
Qed.

Record tree_ok s (L I : list Z) : Prop := {
  to_inv : bp_inv s L I;
  to_leaves : leaves_ok s L;
}.

Lemma new_leaves_ok base : 0 < base → leaves_ok (ThreadLocalInit (MemstoreBPlusTree_new base)) [base].
Proof.
  intros Hb. split; [by intros a ->%list_elem_of_singleton|]. intros a l ->%list_elem_of_singleton. cbn.
  rewrite lookup_insert_ne by lia. rewrite lookup_singleton_eq. intros [= <-]. cbn. lia.
Qed.

Lemma inserted_tree_ok s L I key s' L' I' v :
  tree_ok s L I → bp_inv s' L' I' → inserted s L key s' L' v → tree_ok s' L' I'.
Proof.
  intros [Hinv Hlv] Hinv' Hins. split; [done|].
  destruct (inserted_change _ _ _ _ _ _ _ Hinv Hins) as [[-> ->]|Hc]; [done|by eapply change_leaves_ok].
Qed.

(** ** Lookups *)

(** [Get] below the leaf it has found. *)
Lemma leaf_get e l lo hi key :
  leaf_ok e l lo hi →
  ∃ r, (k ← scan (λ x, bool_decide (x < key)) (l_keys l) 0 (l_num_keys l);
        if decide (k = l_num_keys l) then Done None
        else
          x ← aget (l_keys l) k;
          if decide (x = key) then v ← aget (l_values l) k; Done (Some v) else Done None) = Done r ∧
    ∀ v, r = Some v ↔ (key, v) ∈ lentries l.
Proof.
  intros Hok. pose proof (length_lkeys _ _ _ _ Hok) as Hlen. pose proof (length_lvals _ _ _ _ Hok) as Hlen'.
  assert (Hno : ∀ v, key ∉ lkeys l → None = Some v ↔ (key, v) ∈ lentries l).
  { intros v Hk. split; [done|]. intros (i & Hi & _)%elem_of_lentries. destruct Hk. by eapply list_elem_of_lookup_2. }
  destruct (scan_leaf _ _ _ _ key Hok) as (k & -> & Hk & Hlt & Hge). cbn [mbind result_bind]. case_decide as Hkn.
  - exists None. split; [done|]. intros v. apply Hno. intros Hin. subst k. rewrite <-Hlen, firstn_all in Hlt.
    specialize (Hlt _ Hin). lia.
  - destruct (lookup_lt_is_Some_2 (lkeys l) k) as [x Hx]; [lia|]. pose proof Hx as Hx'.
      unfold lkeys in Hx'. apply lookup_take_Some in Hx' as [Hx' _]. rewrite (aget_Some _ _ _ Hx'). cbn [mbind result_bind].
      case_decide as Hxk.
      * subst x. destruct (lookup_lt_is_Some_2 (lvals l) k) as [v Hv]; [lia|]. pose proof Hv as Hv'.
        unfold lvals in Hv'. apply lookup_take_Some in Hv' as [Hv' _]. rewrite (aget_Some _ _ _ Hv'). cbn [mbind result_bind].
        exists (Some v). split; [done|]. intros w. split; [intros [= <-]; apply elem_of_lentries; by exists k|].
        intros (i & Hi & Hw)%elem_of_lentries. assert (i = k) as ->; [|congruence].
        eapply NoDup_lookup; [apply rising_NoDup, Hok|done|done].
      * exists None. split; [done|]. intros v. apply Hno. intros Hin. rewrite <-(take_drop k (lkeys l)) in Hin.
        apply elem_of_app in Hin as [Hin|Hin]; [specialize (Hlt _ Hin); lia|].
        rewrite (drop_S _ x) in Hin by done. apply elem_of_cons in Hin as [->|Hin]; [done|].
        assert (x < key); [|specialize (Hge x); rewrite (drop_S _ x) in Hge by done; specialize (Hge ltac:(by left)); lia].
        apply list_elem_of_lookup_1 in Hin as (i & Hi). rewrite lookup_drop in Hi.
        eapply (sorted_lookup (lkeys l) k); [apply Hok| |done|done]. lia.
Qed.

(** Only the leaf of an empty tree is empty. *)
Lemma leaf_empty s L I a l e lo hi :
  tree_ok s L I → a ∈ L → leaves s !! a = Some l → leaf_ok e l lo hi →
  l_num_keys l = 0%nat ↔ contents s L = ∅.
Proof.
  intros [Hinv [Hfull _]] Ha Hl Hok. pose proof (length_lentries _ _ _ _ Hok) as Hlen.
  pose proof (leaf_entries_Some _ _ _ Hl) as Hle. unfold contents. split.
  - intros H0. destruct (decide (L = [a])) as [->|Hne].
    + unfold entries. cbn. rewrite Hle. destruct (lentries l); [done|cbn in Hlen; lia].
    + destruct (Hfull a Ha Hne). rewrite Hle. apply nil_length_inv. lia.
  - intros He. rewrite <-Hlen. destruct (lentries l) as [|[k v] E] eqn:HE; [done|]. exfalso.
    assert (contents s L !! k = Some v) as Hc; [|unfold contents in Hc; by rewrite He in Hc].
    apply (contents_lookup _ _ _ _ _ Hinv), list_elem_of_bind. exists a. split; [rewrite Hle; by left|done].
Qed.

Lemma bp_Get_any s L I key :
  tree_ok s L I →
  (contents s L = ∅ → bp_Get s key = Crash region_left_open) ∧
  (contents s L ≠ ∅ → ∃ r, bp_Get s key = Done r ∧ ∀ v, r = Some v → (key, v) ∈ entries s L).
Proof.
  intros Hto. pose proof (to_inv _ _ _ Hto) as Hinv.
  destruct (find_leaf_total _ _ _ _ _ _ _ _ key (bi_tree _ _ _ Hinv)) as (b & Hb & Hin).
  destruct (tree_leaf_ok _ _ _ _ _ _ _ _ _ (bi_tree _ _ _ Hinv) Hin) as (l & e & lo & hi & Hl & Hok & _).
  unfold bp_Get, FindLeaf. rewrite Hb. cbn [mbind result_bind]. rewrite (leaf_Some _ _ _ Hl). cbn [mbind result_bind].
  pose proof (leaf_empty _ _ _ _ _ _ _ _ Hto Hin Hl Hok) as He. split; intros Hc.
  - by rewrite decide_True by tauto.
  - rewrite decide_False by tauto. destruct (leaf_get e l lo hi key Hok) as (r & -> & Hr). exists r. split; [done|]. intros v Hv%Hr.
    apply list_elem_of_split in Hin as (L1 & L2 & ->). rewrite (entries_middle _ _ _ _ _ Hl). set_solver.
Qed.

Lemma bp_Get_spec s L I key :
  tree_ok s L I → 0 ≤ key < 2 ^ 64 → contents s L ≠ ∅ → bp_Get s key = Done (contents s L !! key).
Proof.
  intros Hto Hkey Hne. pose proof (to_inv _ _ _ Hto) as Hinv.
  destruct (find_leaf_spec _ _ _ _ _ _ _ _ key (bi_tree _ _ _ Hinv) Hkey) as (b & l & e & lo & hi & L1 & L2 & Hb & _ & _ & Hf).
  pose proof Hf as [HL Hl Hok _ _ _]. pose proof (leaf_empty s L I b l e lo hi Hto ltac:(rewrite HL; set_solver) Hl Hok) as He.
  unfold bp_Get, FindLeaf. rewrite Hb. cbn [mbind result_bind]. rewrite (leaf_Some _ _ _ Hl).
  cbn [mbind result_bind]. rewrite decide_False by tauto.
  destruct (leaf_get e l lo hi key Hok) as (r & -> & Hr). f_equal. apply option_eq. intros v.
  rewrite Hr, (contents_lookup _ _ _ _ _ Hinv). symmetry. eapply found_entries; [|done]. intros. by eapply fst_entries; [apply Hinv|].
Qed.
