(* ===== verification/BPMap.v ===== *)
(** * The B+-tree is a map

    The tree as an instance of the store interface of Memstore.v, the refinement of
    any sequence of calls to a finite map from keys to values, and the bound on its
    depth. *)

From S2P Require Import Prelude Memstore BPlusTree BPTree BPLeaf BPInsert BPStore.

Implicit Types (s : MemstoreBPlusTree).

(** ** Keys and nodes *)

Lemma entries_key_range s L I k v : bp_inv s L I → (k, v) ∈ entries s L → 0 ≤ k < 2 ^ 64 ∧ v ≠ NULL.
Proof.
  intros Hinv (a & Hin & Ha)%list_elem_of_bind.
  destruct (tree_leaf_ok _ _ _ _ _ _ _ _ _ (bi_tree _ _ _ Hinv) Ha) as (l & e & lo & hi & Hl & Hok & Hlo & Hhi).
  rewrite (leaf_entries_Some _ _ _ Hl) in Hin. apply elem_of_lentries in Hin as (i & Hk & Hv). split.
  - apply list_elem_of_lookup_2, (lf_bounds _ _ _ _ Hok) in Hk. lia.
  - by apply list_elem_of_lookup_2, (lf_vals _ _ _ _ Hok) in Hv.
Qed.

(** No node belongs to two keys. *)
Lemma entries_inj s L I k1 k2 v : bp_inv s L I → (k1, v) ∈ entries s L → (k2, v) ∈ entries s L → k1 = k2.
Proof.
  intros Hinv (i & Hi)%list_elem_of_lookup_1 (j & Hj)%list_elem_of_lookup_1.
  assert (i = j) as ->; [|congruence]. destruct (bi_vals _ _ _ Hinv) as [Hnd _].
  eapply NoDup_lookup; [exact Hnd|rewrite list_lookup_fmap, Hi|rewrite list_lookup_fmap, Hj]; done.
Qed.

Lemma bp_Get_Some s L I key v : tree_ok s L I → bp_Get s key = Done (Some v) ↔ contents s L !! key = Some v.
Proof.
  intros Hto. pose proof (to_inv _ _ _ Hto) as Hinv. split.
  - intros HG. apply (contents_lookup _ _ _ _ _ Hinv). destruct (bp_Get_any s L I key Hto) as [He Hne].
    destruct (decide (contents s L = ∅)) as [Hc|Hc]; [specialize (He Hc); congruence|].
    destruct (Hne Hc) as (r & Hr & Hin). apply Hin. congruence.
  - intros Hin. pose proof Hin as Hin'. apply (contents_lookup _ _ _ _ _ Hinv) in Hin'.
    destruct (entries_key_range _ _ _ _ _ Hinv Hin') as [Hkey _]. rewrite (bp_Get_spec _ _ _ _ Hto Hkey); [by rewrite Hin|].
    intros Hc. by rewrite Hc, lookup_empty in Hin.
Qed.

Lemma contents_inj s L I k1 k2 v :
  bp_inv s L I → contents s L !! k1 = Some v → contents s L !! k2 = Some v → k1 = k2.
Proof. intros Hinv. rewrite !(contents_lookup _ _ _ _ _ Hinv). by eapply entries_inj. Qed.

Lemma contents_spare s L I k : bp_inv s L I → contents s L !! k ≠ Some (dummyval_ s).
Proof.
  intros Hinv. rewrite (contents_lookup _ _ _ _ _ Hinv). intros Hin. destruct (bi_val _ _ _ Hinv) as [_ []].
  by apply (list_elem_of_fmap_2 snd) in Hin.
Qed.

(** ** The store interface

    The transaction layer calls [GetWithInsert(key, NULL)]: the two stores of null into
    the spare node leave its null value as it is ([bp_GetWithInsert_nodes]), so the
    instance hands the node memory back unchanged.  Its invariant asks for a tree that
    holds a key, since [Get] leaves its transaction open on an empty one. *)

Definition bp_GetWithInsert_null s (m : NodeMem) (key : Z) : result (MemstoreBPlusTree * NodeMem * Z) :=
  '(s, _, a) ← bp_GetWithInsert s m key NULL; Done (s, m, a).

Lemma set_value_same n v : n_value n = v → set_value v n = n.
Proof. intros <-. by destruct n. Qed.

Lemma bp_GetWithInsert_nodes s L I m key s' m' a b :
  bp_inv s L I → 0 ≤ key < 2 ^ 64 → n_value (node_at m (dummyval_ s)) = NULL →
  bp_GetWithInsert s m key NULL = Done (s', m', a) → node_at m' b = node_at m b.
Proof.
  intros Hinv Hkey Hnull Hrun.
  destruct (bp_GetWithInsert_spec s L I m key NULL Hinv Hkey) as (s2 & m2 & v & L' & I' & Hrun' & _ & _ & Hm).
  rewrite Hrun in Hrun'. injection Hrun' as <- <- <-.
  destruct Hm as [[_ ->]|[_ ->]]; rewrite ?upd_node_upd, node_at_upd; case_decide as Hb; subst; try done.
  - cbn. by rewrite !set_value_same.
  - by rewrite set_value_same.
Qed.

#[export] Instance BPlusTree_Memstore : Memstore MemstoreBPlusTree := {
  key_ok := λ k, 0 ≤ k < 2 ^ 64;
  ms_inv := λ s, ∃ L I, tree_ok s L I ∧ contents s L ≠ ∅;
  Get := bp_Get;
  GetWithInsert := bp_GetWithInsert_null;
}.

(** One call, on the contents. *)
Lemma bp_GetWithInsert_null_spec s L I m key :
  tree_ok s L I → 0 ≤ key < 2 ^ 64 →
  ∃ s' v L' I', bp_GetWithInsert_null s m key = Done (s', m, v) ∧ tree_ok s' L' I' ∧
    ((s' = s ∧ contents s L !! key = Some v ∧ contents s' L' = contents s L) ∨
     (contents s L !! key = None ∧ v = dummyval_ s ∧ contents s' L' = <[key := v]> (contents s L))).
Proof.
  intros Hto Hkey. pose proof (to_inv _ _ _ Hto) as Hinv.
  destruct (bp_GetWithInsert_spec s L I m key NULL Hinv Hkey) as (s' & m' & v & L' & I' & Hrun & Hinv' & Hins & _).
  unfold bp_GetWithInsert_null. rewrite Hrun. exists s', v, L', I'. split_and!; [done|by eapply inserted_tree_ok|].
  destruct (inserted_contents _ _ _ _ _ _ _ _ Hinv Hinv' Hkey Hins) as [?|(_ & ?)]; [by left|by right].
Qed.

Lemma bp_null_run s L I m key s' m' a :
  tree_ok s L I → 0 ≤ key < 2 ^ 64 → bp_GetWithInsert_null s m key = Done (s', m', a) →
  ∃ L' I', tree_ok s' L' I' ∧ contents s' L' !! key = Some a ∧
    ((s' = s ∧ contents s L !! key = Some a ∧ contents s' L' = contents s L) ∨
     (contents s L !! key = None ∧ a = dummyval_ s ∧ contents s' L' = <[key := a]> (contents s L))).
Proof.
  intros Hto Hkey Hrun. destruct (bp_GetWithInsert_null_spec s L I m key Hto Hkey) as (s2 & v & L' & I' & Hrun' & Hto' & H).
  rewrite Hrun in Hrun'. injection Hrun' as <- <- <-. exists L', I'. split_and!; [done| |done].
  destruct H as [(_ & ? & ->)|(_ & _ & ->)]; [done|apply lookup_insert_eq].
Qed.

Lemma lookup_nonempty {A} (M : gmap Z A) k a : M !! k = Some a → M ≠ ∅.
Proof. intros Hk ->. by rewrite lookup_empty in Hk. Qed.

#[export] Instance BPlusTree_laws : MemstoreLaws MemstoreBPlusTree.
Proof.
  split; unfold key_ok, ms_inv, Get, GetWithInsert, BPlusTree_Memstore.
  - intros s k (L & I & Hto & Hne). destruct (proj2 (bp_Get_any s L I k Hto) Hne) as (r & Hr & _). eauto.
  - intros s k a (L & I & Hto & _) HG%(bp_Get_Some _ _ _ _ _ Hto).
    apply (contents_lookup _ _ _ _ _ (to_inv _ _ _ Hto)) in HG. by eapply entries_key_range; [apply Hto|].
  - intros s k1 k2 a (L & I & Hto & _). rewrite !(bp_Get_Some _ _ _ _ _ Hto). by eapply contents_inj, Hto.
  - intros s m k a (L & I & Hto & _) HG%(bp_Get_Some _ _ _ _ _ Hto). exists m.
    assert (Hk : 0 ≤ k < 2 ^ 64).
    { apply (contents_lookup _ _ _ _ _ (to_inv _ _ _ Hto)) in HG. by eapply entries_key_range; [apply Hto|]. }
    destruct (bp_GetWithInsert_null_spec s L I m k Hto Hk) as (s' & v & L' & I' & -> & _ & [(-> & Hv & _)|(Hn & _)]); congruence.
  - intros s m k s' m' a (L & I & Hto & _) Hk Hrun.
    destruct (bp_null_run _ _ _ _ _ _ _ _ Hto Hk Hrun) as (L' & I' & Hto' & Ha & _). exists L', I'. split; [done|by eapply lookup_nonempty].
  - intros s m k s' m' a (L & I & Hto & _) Hk Hrun. destruct (bp_null_run _ _ _ _ _ _ _ _ Hto Hk Hrun) as (L' & I' & Hto' & Ha & _).
    by apply (bp_Get_Some _ _ _ _ _ Hto').
  - intros s m k k' s' m' a (L & I & Hto & Hnn) Hk Hk' Hne Hrun.
    destruct (bp_null_run _ _ _ _ _ _ _ _ Hto Hk Hrun) as (L' & I' & Hto' & Ha & Hc).
    rewrite (bp_Get_spec _ _ _ _ Hto' Hk'), (bp_Get_spec _ _ _ _ Hto Hk'); [|done|by eapply lookup_nonempty]. f_equal.
    destruct Hc as [(_ & _ & ->)|(_ & _ & ->)]; [done|by apply lookup_insert_ne].
  - intros s m k k' s' m' a (L & I & Hto & Hnn) Hk HG Hrun Hk'%(bp_Get_Some _ _ _ _ _ Hto).
    rewrite (bp_Get_spec _ _ _ _ Hto Hk Hnn) in HG. injection HG as HG.
    destruct (bp_null_run _ _ _ _ _ _ _ _ Hto Hk Hrun) as (L' & I' & _ & _ & [(_ & ? & _)|(_ & -> & _)]); [congruence|].
    by eapply contents_spare; [apply Hto|].
  - intros s m k s' m' a b Hrun. unfold bp_GetWithInsert_null in Hrun.
    destruct (bp_GetWithInsert s m k NULL) as [[[s2 m2] a2]| |]; [|done..]. cbn in Hrun. by injection Hrun as _ <- _.
Qed.

(** ** Any sequence of calls

    What a caller sees of a call is the value of the node it gets back. *)

Inductive bp_op :=
  | OpGet (key : Z)
  | OpGetWithInsert (key val : Z)
  | OpPut (key val : Z).

Definition op_key (o : bp_op) : Z := match o with OpGet k | OpGetWithInsert k _ | OpPut k _ => k end.
Definition op_ok (o : bp_op) : Prop := 0 ≤ op_key o < 2 ^ 64.

#[export] Instance op_ok_dec o : Decision (op_ok o).
Proof. unfold op_ok. apply _. Defined.

Definition bp_call s (m : NodeMem) (o : bp_op) : result (MemstoreBPlusTree * NodeMem * option Z) :=
  match o with
  | OpGet k => r ← bp_Get s k; Done (s, m, option_map (λ a, n_value (node_at m a)) r)
  | OpGetWithInsert k v => '(s, m, a) ← bp_GetWithInsert s m k v; Done (s, m, Some (n_value (node_at m a)))
  | OpPut k v => '(s, m, a) ← bp_Put s m k v; Done (s, m, Some (n_value (node_at m a)))
  end.

Fixpoint bp_calls s (m : NodeMem) (os : list bp_op) : result (MemstoreBPlusTree * NodeMem * list (option Z)) :=
  match os with
  | [] => Done (s, m, [])
  | o :: os => '(s, m, r) ← bp_call s m o; '(s, m, rs) ← bp_calls s m os; Done (s, m, r :: rs)
  end.

(** The specification: a finite map from keys to values. *)
Definition map_call (M : gmap Z Z) (o : bp_op) : gmap Z Z * option Z :=
  match o with
  | OpGet k => (M, M !! k)
  | OpGetWithInsert k v => match M !! k with Some w => (M, Some w) | None => (<[k := v]> M, Some v) end
  | OpPut k v => (<[k := v]> M, Some v)
  end.

Fixpoint map_calls (M : gmap Z Z) (os : list bp_op) : gmap Z Z * list (option Z) :=
  match os with
  | [] => (M, [])
  | o :: os => let '(M, r) := map_call M o in let '(M, rs) := map_calls M os in (M, r :: rs)
  end.

(** A lookup needs a map that is not empty. *)
Definition ready (M : gmap Z Z) (o : bp_op) : Prop := match o with OpGet _ => M ≠ ∅ | _ => True end.
#[export] Instance ready_dec M o : Decision (ready M o).
Proof. destruct o; apply _. Defined.

Lemma map_call_nonempty M o : ready M o → (map_call M o).1 ≠ ∅.
Proof.
  destruct o as [k|k v|k v]; cbn; [done| |intros _; apply insert_non_empty]. intros _.
  destruct (M !! k) eqn:E; [by eapply lookup_nonempty|apply insert_non_empty].
Qed.

(** ** The simulation *)

Definition values_of s (m : NodeMem) (L : list Z) : gmap Z Z := (λ a, n_value (node_at m a)) <$> contents s L.

(** How deep a tree with these contents can be. *)
Definition depth_ok s (L : list Z) : Prop := ∀ d, depth s = S d → (7 * 8 ^ d ≤ size (contents s L))%nat.

Record bp_rel s (m : NodeMem) (M : gmap Z Z) (L I : list Z) : Prop := {
  br_tree : tree_ok s L I;
  br_depth : depth_ok s L;
  br_values : values_of s m L = M;
}.

Lemma br_inv s m M L I : bp_rel s m M L I → bp_inv s L I.
Proof. intros [[? _] _ _]. done. Qed.

Lemma br_nonempty s m M L I : bp_rel s m M L I → M ≠ ∅ ↔ contents s L ≠ ∅.
Proof. intros [_ _ <-]. unfold values_of. by rewrite fmap_empty_iff. Qed.

Definition bp_sim s (m : NodeMem) (M : gmap Z Z) : Prop := ∃ L I, bp_rel s m M L I.

(** What a call does to the leaves. *)
Definition stepped s (L : list Z) s' (L' : list Z) : Prop :=
  (s' = s ∧ L' = L) ∨ ∃ key v, inserted s L key s' L' v.

Lemma size_contents s L I : bp_inv s L I → size (contents s L) = length (entries s L).
Proof.
  intros Hinv. unfold contents. rewrite <-length_map_to_list. apply Permutation_length, map_to_list_to_map.
  rewrite (fst_entries _ _ _ _ _ _ _ _ _ (bi_tree _ _ _ Hinv)) by done. eapply rising_NoDup, tree_sorted, Hinv.
Qed.

Lemma inserted_depth_ok s L I key s' L' I' v :
  bp_inv s L I → bp_inv s' L' I' → 0 ≤ key < 2 ^ 64 → inserted s L key s' L' v → depth_ok s L → depth_ok s' L'.
Proof.
  intros Hinv Hinv' Hkey Hins Hd d Hdd. pose proof (size_contents _ _ _ Hinv') as Hsz.
  destruct (id_depth _ _ _ _ _ _ Hins) as [Heq|[Heq Hle]]; [|rewrite Hsz; rewrite Heq in Hdd; by simplify_eq].
  rewrite Heq in Hdd. specialize (Hd d Hdd).
  destruct (inserted_contents _ _ _ _ _ _ _ _ Hinv Hinv' Hkey Hins) as [(_ & _ & ->)|(_ & Hn & _ & ->)]; [done|].
  rewrite map_size_insert_None by done. lia.
Qed.

(** The values after [_GetWithInsert]: the spare node belongs to no key before it. *)
Lemma GetWithInsert_sim s m M L I key val :
  bp_rel s m M L I → 0 ≤ key < 2 ^ 64 →
  ∃ s' m' a L' I', bp_GetWithInsert s m key val = Done (s', m', a) ∧ contents s' L' !! key = Some a ∧
    bp_rel s' m' (map_call M (OpGetWithInsert key val)).1 L' I' ∧ inserted s L key s' L' a.
Proof.
  intros [Hto Hd <-] Hkey. pose proof (to_inv _ _ _ Hto) as Hinv.
  destruct (bp_GetWithInsert_spec s L I m key val Hinv Hkey) as (s' & m' & a & L' & I' & Hrun & Hinv' & Hins & Hm).
  exists s', m', a, L', I'.
  split_and!; [done| |split; [by eapply inserted_tree_ok|by eapply (inserted_depth_ok s L I key s')|]|done].
  - destruct (inserted_contents _ _ _ _ _ _ _ _ Hinv Hinv' Hkey Hins) as [(_ & ? & ->)|(_ & _ & _ & ->)];
      [done|apply lookup_insert_eq].
  - assert (Hkeep : ∀ k b, contents s L !! k = Some b → n_value (node_at m' b) = n_value (node_at m b)).
    { intros k b Hb. assert (dummyval_ s ≠ b) by (intros <-; by apply (contents_spare _ _ _ k Hinv)).
      destruct Hm as [[_ ->]|[_ ->]]; by rewrite !node_at_upd_ne. }
    assert (Hval : (λ b, n_value (node_at m' b)) <$> contents s L = values_of s m L) by by apply map_fmap_ext.
    cbn. unfold values_of at 1. destruct (inserted_contents _ _ _ _ _ _ _ _ Hinv Hinv' Hkey Hins) as [(_ & Ha & ->)|(Hne & Ha & -> & ->)].
    + rewrite Hval. unfold values_of at 2. by rewrite lookup_fmap, Ha.
    + rewrite fmap_insert, Hval. unfold values_of at 2. rewrite lookup_fmap, Ha. cbn. f_equal.
      destruct Hm as [[? _]|[_ ->]]; [done|]. by rewrite node_at_upd_eq.
Qed.

Lemma values_of_upd s m L I key a v w :
  bp_inv s L I → contents s L !! key = Some a →
  values_of s (upd_node (upd_node m a (set_value v)) a (set_seq w)) L = <[key := v]> (values_of s m L).
Proof.
  intros Hinv Ha. apply map_eq. intros k. unfold values_of. rewrite lookup_fmap. destruct (decide (k = key)) as [->|Hne].
  - rewrite lookup_insert_eq, Ha. cbn. by rewrite upd_node_upd, node_at_upd_eq.
  - rewrite lookup_insert_ne, lookup_fmap by done. destruct (contents s L !! k) as [b|] eqn:Hb; [|done]. cbn.
    rewrite !node_at_upd_ne; [done|..]; intros ->; apply Hne; by eapply contents_inj.
Qed.

Lemma bp_call_rel s m M L I o :
  bp_rel s m M L I → op_ok o → ready M o →
  ∃ s' m' L' I', bp_call s m o = Done (s', m', (map_call M o).2) ∧ bp_rel s' m' (map_call M o).1 L' I' ∧ stepped s L s' L'.
Proof.
  intros Hrel Hok Hrd. pose proof (br_inv _ _ _ _ _ Hrel) as Hinv. unfold op_ok in Hok.
  destruct o as [k|k v|k v]; cbn [bp_call op_key ready] in *.
  - apply (br_nonempty _ _ _ _ _ Hrel) in Hrd. rewrite (bp_Get_spec _ _ _ _ (br_tree _ _ _ _ _ Hrel) Hok Hrd). exists s, m, L, I. split_and!; [|done|by left]. cbn. do 2 f_equal.
    rewrite <-(br_values _ _ _ _ _ Hrel). unfold values_of. by rewrite lookup_fmap.
  - destruct (GetWithInsert_sim s m M L I k v Hrel Hok) as (s' & m' & a & L' & I' & -> & Ha & Hrel' & Hins).
    cbn [mbind result_bind]. exists s', m', L', I'. split_and!; [|done|right; eauto].
    assert (Hm : values_of s' m' L' !! k = Some (n_value (node_at m' a))) by (unfold values_of; by rewrite lookup_fmap, Ha).
    rewrite (br_values _ _ _ _ _ Hrel') in Hm. do 2 f_equal. cbn in *.
    destruct (M !! k) eqn:E; cbn in *; [congruence|by rewrite lookup_insert_eq in Hm].
  - unfold bp_Put, ThreadLocalInit. rewrite (bi_local _ _ _ Hinv).
    destruct (GetWithInsert_sim s m M L I k NULL Hrel Hok) as (s' & m' & a & L' & I' & -> & Ha & [Hto' Hd' Hv'] & Hins).
    pose proof (to_inv _ _ _ Hto') as Hinv'. cbn [mbind result_bind]. eexists s', _, L', I'. split_and!; [by rewrite !node_at_upd_eq|split; [done..|]|right; eauto].
    rewrite (values_of_upd _ _ _ _ _ _ _ _ Hinv' Ha), Hv'. cbn. destruct (M !! k); [done|]. apply insert_insert_eq.
Qed.

(** A lookup in an empty tree does not come back properly. *)
Lemma bp_call_empty s m L I k : bp_rel s m ∅ L I → bp_call s m (OpGet k) = Crash region_left_open.
Proof.
  intros Hrel. cbn. rewrite (proj1 (bp_Get_any s L I k (br_tree _ _ _ _ _ Hrel))); [done|].
  apply dec_stable. by intros Hc%(br_nonempty _ _ _ _ _ Hrel).
Qed.

Definition ready_first (M : gmap Z Z) (os : list bp_op) : Prop := match os with [] => True | o :: _ => ready M o end.

Lemma nonempty_ready_first M os : M ≠ ∅ → ready_first M os.
Proof. intros HM. by destruct os as [|[]]. Qed.

Lemma bp_calls_sim s m M os :
  bp_sim s m M → Forall op_ok os → ready_first M os →
  ∃ s' m', bp_calls s m os = Done (s', m', (map_calls M os).2) ∧ bp_sim s' m' (map_calls M os).1.
Proof.
  intros Hsim Hok. revert s m M Hsim. induction Hok as [|o os Ho _ IH]; intros s m M Hsim Hrd; cbn [bp_calls map_calls].
  - by exists s, m.
  - destruct Hsim as (L & I & Hrel). destruct (bp_call_rel _ _ _ _ _ _ Hrel Ho Hrd) as (s1 & m1 & L1 & I1 & -> & Hrel1 & _).
    apply map_call_nonempty in Hrd.
    cbn [mbind result_bind]. destruct (map_call M o) as [M1 r].
    destruct (IH s1 m1 M1) as (s2 & m2 & -> & Hsim2); [by exists L1, I1|by apply nonempty_ready_first|].
    cbn in *. destruct (map_calls M1 os) as [M2 rs]. exists s2, m2. done.
Qed.

(** A tree that was just made. *)
Lemma new_tree_sim base m : 0 < base → bp_sim (ThreadLocalInit (MemstoreBPlusTree_new base)) m ∅.
Proof.
  intros Hb. exists [base], []. split; [split; [by apply new_tree_inv|by apply new_leaves_ok]|done|].
  unfold values_of, contents, entries, leaf_entries. cbn. rewrite lookup_insert_ne by lia. by rewrite lookup_singleton_eq.
Qed.

(** The first insertion makes the spare nodes. *)
Lemma new_tree_calls base m os :
  0 < base → Forall op_ok os → ready_first ∅ os →
  ∃ s' m', bp_calls (MemstoreBPlusTree_new base) m os = Done (s', m', (map_calls ∅ os).2) ∧
    bp_sim (ThreadLocalInit s') m' (map_calls ∅ os).1.
Proof.
  intros Hb Hok Hrd. destruct os as [|o os]; [eexists _, _; split; [done|by apply new_tree_sim]|].
  destruct (bp_calls_sim _ m _ (o :: os) (new_tree_sim base m Hb) Hok Hrd) as (s' & m' & Hrun & Hsim).
  assert (Heq : bp_call (MemstoreBPlusTree_new base) m o = bp_call (ThreadLocalInit (MemstoreBPlusTree_new base)) m o)
    by (by destruct o).
  exists s', m'. split; [by rewrite <-Hrun; cbn [bp_calls]; rewrite Heq|]. unfold ThreadLocalInit.
  destruct Hsim as (L & I & Hrel). rewrite (bi_local _ _ _ (br_inv _ _ _ _ _ Hrel)). by exists L, I.
Qed.

Lemma new_tree_get base m k os : bp_calls (MemstoreBPlusTree_new base) m (OpGet k :: os) = Crash region_left_open.
Proof.
  cbn [bp_calls bp_call]. unfold bp_Get, FindLeaf, leaf.
  cbn [depth root leaves MemstoreBPlusTree_new find_leaf mbind result_bind]. by rewrite lookup_singleton_eq.
Qed.

(** C4: the tree refines a finite map.  Take any sequence of [Get], [_GetWithInsert] and
    [Put] with 64-bit keys, called outside of transactions on a new tree and any memory.
    When it does not begin with a [Get], it runs to its end, without an index out of
    range, a null pointer or a failed assertion, and each call returns what a map from
    keys to values returns: splits of leaves and inner nodes, appended nodes, new roots
    and the reuse of the spare node are not visible.  A [Get] before the first insertion
    meets an empty leaf and returns with its hardware transaction, or the fallback lock,
    still open. *)
Theorem bplustree_refines_map base m os :
  0 < base → Forall op_ok os →
  match os with
  | OpGet _ :: _ => bp_calls (MemstoreBPlusTree_new base) m os = Crash region_left_open
  | _ => ∃ s' m', bp_calls (MemstoreBPlusTree_new base) m os = Done (s', m', (map_calls ∅ os).2)
  end.
Proof.
  intros Hb Hok. destruct os as [|[k|k v|k v] os]; [|apply new_tree_get|..];
    destruct (new_tree_calls base m _ Hb Hok I) as (s' & m' & ? & _); eauto.
Qed.

(** Five hundred keys in an order that splits on both sides, each looked up again. *)
Definition bp_demo : list bp_op :=
  ((λ i, OpPut (Z.of_nat i * 7919 mod 1009) (Z.of_nat i + 1)) <$> seq 0 500) ++
  ((λ i, OpGet (Z.of_nat i)) <$> seq 0 50) ++ [OpGetWithInsert 3 5; OpGetWithInsert (2 ^ 64 - 1) 9].

Lemma bplustree_refines_map_witness :
  ∃ s' m', bp_calls (MemstoreBPlusTree_new 1) ∅ bp_demo = Done (s', m', (map_calls ∅ bp_demo).2).
Proof.
  apply (bplustree_refines_map 1 ∅ bp_demo); [lia|]. apply (bool_decide_unpack _). vm_compute. exact I.
Defined.

(** ** Depth *)

Lemma sorted_range_length l lo hi : sorted l → (∀ x, x ∈ l → lo ≤ x < hi) → lo ≤ hi → Z.of_nat (length l) ≤ hi - lo.
Proof.
  intros Hs. revert lo. induction Hs as [|x l Hs IH Hall]; intros lo Hb Hle; [cbn; lia|].
  pose proof (Hb x ltac:(by left)). assert (Z.of_nat (length l) ≤ hi - (x + 1)); [|cbn [length]; lia].
  apply IH; [|lia]. intros y Hy. pose proof (Hb y ltac:(by right)).
  apply (proj1 (Forall_forall _ _) Hall) in Hy. lia.
Qed.

Lemma depth_bound s L I : bp_inv s L I → depth_ok s L → (depth s ≤ 21)%nat.
Proof.
  intros Hinv Hd. destruct (depth s) as [|d] eqn:E; [lia|]. specialize (Hd d E). rewrite (size_contents _ _ _ Hinv) in Hd.
  assert (Hlen : Z.of_nat (length (entries s L)) ≤ 2 ^ 64 - 0).
  { rewrite <-(length_fmap fst), (fst_entries _ _ _ _ _ _ _ _ _ (bi_tree _ _ _ Hinv)) by done.
    apply sorted_range_length; [eapply tree_sorted, Hinv| |lia].
    intros x (a & Hx & Ha)%elem_of_keys_of. eapply tree_bounds; [apply Hinv|done..]. }
  destruct (decide (d ≤ 20)%nat); [lia|]. assert (8 ^ 21 ≤ 8 ^ Z.of_nat d) by (apply Z.pow_le_mono_r; lia).
  apply Nat2Z.inj_le in Hd. rewrite Nat2Z.inj_mul, Nat2Z.inj_pow in Hd. lia.
Qed.

(** C20: the tree stays shallow.  After any sequence of calls on a new tree, a tree of
    depth [d + 1] holds at least [7 * 8^d] keys, although its right edge may hold almost
    empty nodes (sequential insertion appends nodes instead of splitting); with 64-bit
    keys a search visits at most 21 inner nodes and one leaf. *)
Theorem bplustree_depth_logarithmic base m os s' m' rs :
  0 < base → Forall op_ok os → bp_calls (MemstoreBPlusTree_new base) m os = Done (s', m', rs) →
  (∀ d, depth s' = S d → (7 * 8 ^ d ≤ size (map_calls ∅ os).1)%nat) ∧ (depth s' ≤ 21)%nat.
Proof.
  intros Hb Hok Hrun.
  assert (Hrd : ready_first ∅ os) by (destruct os as [|[] os]; try done; by rewrite new_tree_get in Hrun).
  destruct (new_tree_calls base m os Hb Hok Hrd) as (s2 & m2 & Hrun' & L & I & [[Hinv _] Hd HM]). rewrite Hrun in Hrun'. injection Hrun' as <- <- _.
  assert (Hdep : depth (ThreadLocalInit s') = depth s') by (unfold ThreadLocalInit; by destruct (localinit_ s')).
  rewrite <-HM, <-Hdep. split; [|by eapply depth_bound]. intros d Hdd. unfold values_of. rewrite map_size_fmap. by apply Hd.
Qed.

(** 241 keys in rising order: nodes are appended, and the depth is 2. *)
Definition bp_rising : list bp_op := (λ i, OpPut (Z.of_nat i) (Z.of_nat i + 1)) <$> seq 0 241.

Lemma bplustree_depth_logarithmic_witness :
  ∃ s' m' rs, bp_calls (MemstoreBPlusTree_new 1) ∅ bp_rising = Done (s', m', rs) ∧ depth s' = 2%nat ∧
    (7 * 8 ^ 1 ≤ size (map_calls ∅ bp_rising).1)%nat.
Proof.
  destruct (bp_calls (MemstoreBPlusTree_new 1) ∅ bp_rising) as [[[s' m'] rs]| |] eqn:Hrun;
    [|exfalso; vm_compute in Hrun; discriminate..].
  assert (Hd : depth s' = 2%nat).
  { assert (match bp_calls (MemstoreBPlusTree_new 1) ∅ bp_rising with Done (s', _, _) => depth s' | _ => 0%nat end = 2%nat) as H
      by (vm_compute; reflexivity). by rewrite Hrun in H. }
  exists s', m', rs. split_and!; [done..|].
  apply (proj1 (bplustree_depth_logarithmic 1 ∅ bp_rising s' m' rs ltac:(lia)
    ltac:(apply (bool_decide_unpack _); vm_compute; exact I) Hrun) 1%nat Hd).
Defined.
