(* ===== verification/BPIter.v ===== *)
(** * Iterators over the B+-tree

    Models [MemstoreBPlusTree::Iterator] of src/drtm-dst/src/memstore/memstore_bplustree.cc.
    An iterator keeps a leaf, the position in it, the leaf's [seq] when it was there and
    the key it stands on.  [Next] and [Prev] go on from the position when [seq] has not
    changed, and search for the key again, to the right, when it has.  Every call is one
    hardware transaction on the tree, so it is one step here; [link_], a pointer to the
    [seq] field of a leaf, is the address of the leaf. *)

From S2P Require Import Prelude Memstore BPlusTree.

Implicit Types (s : MemstoreBPlusTree).

Record Iterator := mkIterator {
  node_ : Z;
  seq_ : Z;
  leaf_index : Z;
  link_ : Z;
  target_ : Z;
  key_ : Z;
  value_ : Z;
}.

Implicit Types (it : Iterator).

(** The constructor sets [node_] only. *)
Definition Iterator_new : Iterator := mkIterator NULL 0 0 NULL 0 0 NULL.

Definition set_node it (a : Z) : Iterator :=
  mkIterator a (seq_ it) (leaf_index it) (link_ it) (target_ it) (key_ it) (value_ it).
Definition set_index it (i : Z) : Iterator :=
  mkIterator (node_ it) (seq_ it) i (link_ it) (target_ it) (key_ it) (value_ it).
Definition set_link it (a t : Z) : Iterator :=
  mkIterator (node_ it) (seq_ it) (leaf_index it) a t (key_ it) (value_ it).

(** An [int] index into an array. *)
Definition iget {A} (l : list A) (i : Z) : result A :=
  if decide (0 ≤ i) then aget l (Z.to_nat i) else Crash invalid_access.

Definition GetLink it : Z := link_ it.
Definition GetLinkTarget it : Z := target_ it.
Definition Key it : Z := key_ it.

Definition Valid s it : result bool :=
  if decide (node_ it = NULL) then Done false
  else l ← leaf s (node_ it); Done (bool_decide (0 < l_num_keys l)%nat).

Definition CurNode s it : result Z :=
  v ← Valid s it; Done (if (v : bool) then value_ it else NULL).

(** The last lines of [Next], [Prev] and [Seek]: the key, the value and [seq] of the
    position, unless there is no leaf. *)
Definition load s it : result Iterator :=
  if decide (node_ it = NULL) then Done it
  else
    l ← leaf s (node_ it);
    k ← iget (l_keys l) (leaf_index it);
    v ← iget (l_values l) (leaf_index it);
    Done (mkIterator (node_ it) (l_seq l) (leaf_index it) (link_ it) (target_ it) k v).

(** The search of [Next], for the first larger key in the leaf [a] or to the right of it;
    [None] when there is none. *)
Fixpoint next_search (fuel : nat) s (a key : Z) : result (option (Z * nat)) :=
  match fuel with
  | O => Spin
  | S fuel =>
      l ← leaf s a;
      k ← scan (λ x, bool_decide (x ≤ key)) (l_keys l) 0 (l_num_keys l);
      if decide (k = l_num_keys l) then
        if decide (l_right l = NULL) then Done None else next_search fuel s (l_right l) key
      else Done (Some (a, k))
  end.

(** As many rounds as there are leaves. *)
Definition search_fuel s : nat := size (leaves s).

(** [Next] behind its search. *)
Definition next_settle s it : result Iterator :=
  l ← leaf s (node_ it);
  it ← (if decide (Z.of_nat (l_num_keys l) ≤ leaf_index it) then
          let it := set_index (set_node it (l_right l)) 0 in
          if decide (l_right l = NULL) then Done it
          else r ← leaf s (l_right l); Done (set_link it (l_right l) (l_seq r))
        else Done it);
  load s it.

(** The iterator and what [Next] returns: whether the leaf was as the iterator left it. *)
Definition Next s it : result (Iterator * bool) :=
  l ← leaf s (node_ it);
  if decide (l_seq l = seq_ it) then
    it ← next_settle s (set_index it (leaf_index it + 1)); Done (it, true)
  else
    r ← next_search (search_fuel s) s (node_ it) (key_ it);
    match r with
    | None => Done (set_node it NULL, false)
    | Some (a, k) => it ← next_settle s (set_index (set_node it a) (Z.of_nat k)); Done (it, false)
    end.

(** The search of [Prev], for the key itself; without it, the last leaf. *)
Fixpoint prev_search (fuel : nat) s (a key : Z) : result (Z * option nat) :=
  match fuel with
  | O => Spin
  | S fuel =>
      l ← leaf s a;
      k ← scan (λ x, bool_decide (x < key)) (l_keys l) 0 (l_num_keys l);
      if decide (k = l_num_keys l) then
        if decide (l_right l = NULL) then Done (a, None) else prev_search fuel s (l_right l) key
      else Done (a, Some k)
  end.

(** [Prev] behind its search. *)
Definition prev_settle s it : result Iterator :=
  let it := set_index it (leaf_index it - 1) in
  it ← (if decide (leaf_index it < 0) then
          l ← leaf s (node_ it);
          let it := set_node it (l_left l) in
          if decide (l_left l = NULL) then Done it
          else
            r ← leaf s (l_left l);
            Done (set_link (set_index it (Z.of_nat (l_num_keys r) - 1)) (l_left l) (l_seq r))
        else Done it);
  load s it.

Definition Prev s it : result (Iterator * bool) :=
  v ← Valid s it;
  _ ← verify v;
  l ← leaf s (node_ it);
  if decide (l_seq l = seq_ it) then
    it ← prev_settle s it; Done (it, true)
  else
    '(a, k) ← prev_search (search_fuel s) s (node_ it) (key_ it);
    let it := set_node it a in
    it ← prev_settle s (match k with Some k => set_index it (Z.of_nat k) | None => it end);
    Done (it, false).

Definition Seek s it (key : Z) : result Iterator :=
  a ← FindLeaf s key;
  l ← leaf s a;
  let it := set_link it a (l_seq l) in
  k ← scan (λ x, bool_decide (x < key)) (l_keys l) 0 (l_num_keys l);
  load s (if decide (k = l_num_keys l) then set_index (set_node it (l_right l)) 0
          else set_node (set_index it (Z.of_nat k)) a).

(** [SeekPrev] leaves [key_], [value_] and [seq_] as they are, and the index too when it
    stays in the leaf (there the code decrements its local [k]). *)
Definition SeekPrev s it (key : Z) : result Iterator :=
  a ← FindLeaf s key;
  l ← leaf s a;
  let it := set_link it a (l_seq l) in
  k ← scan (λ x, bool_decide (x < key)) (l_keys l) 0 (l_num_keys l);
  if decide (k = 0%nat) then
    let it := set_node it (l_left l) in
    r ← leaf s (l_left l);
    Done (set_index (set_link it (l_left l) (l_seq r)) (Z.of_nat (l_num_keys r) - 1))
  else Done (set_node it a).

(** The leftmost leaf below [a]. *)
Fixpoint first_leaf s (a : Z) (d : nat) : result Z :=
  match d with
  | O => Done a
  | S d => n ← inner s a; c ← aget (i_children n) 0; first_leaf s c d
  end.

Definition SeekToFirst s it : result Iterator :=
  a ← first_leaf s (root s) (depth s);
  l ← leaf s a;
  load s (set_index (set_link (set_node it a) a (l_seq l)) 0).

Definition SeekToLast : result Iterator := Crash assert_failed.
