(* ===== verification/BPCursor.v ===== *)
(** * What the iterators of the B+-tree see

    An iterator stands on an entry of the tree; insertions move entries to the right
    only and change [seq] of the leaf they enter, so [Next] and [Prev] find their
    neighbour whatever was inserted in between. *)

From S2P Require Import Prelude Memstore BPlusTree BPTree BPLeaf BPInsert BPStore BPMap BPIter.

Implicit Types (s : MemstoreBPlusTree) (it : Iterator).

(** ** Insertions and positions in the leaves *)

(** The entries from a leaf to the right end stay there. *)
Lemma change_suffix s L s' L' L1 a L2 l :
  leaves_change s L s' L' → NoDup L → L = L1 ++ a :: L2 → leaves s !! a = Some l →
  ∃ L1' L2' l', L' = L1' ++ a :: L2' ∧ leaves s' !! a = Some l' ∧ entries s (a :: L2) ⊆ entries s' (a :: L2') ∧
    ((l_seq l' = l_seq l ∧ lentries l' = lentries l) ∨ l_seq l' = u64 (l_seq l + 1)).
Proof.
  intros Hc Hnd HL Hla.
  assert (Hcons : ∀ t x M, entries t (x :: M) = leaf_entries t x ++ entries t M) by done.
  destruct Hc as [M1 b M2 l0 l' x HL0 Hkept Hl Hl' Hseq (k & He)|M1 b M2 l0 l' c n' x HL0 Hkept Hl Hl' Hn Hseq Hseq2 _ _ (k & He)];
    rewrite HL0 in HL; rewrite HL0 in Hnd; try rewrite HL0.
  - assert (Hgrow : leaf_entries s b ⊆ leaf_entries s' b).
    { rewrite (leaf_entries_Some _ _ _ Hl), (leaf_entries_Some _ _ _ Hl'), He. intros p Hp. apply elem_of_ins. by right. }
    assert (Hsub : ∀ M, M ⊆ M1 ++ b :: M2 → entries s M ⊆ entries s' M).
    { intros M HM p (y & Hp & Hy)%list_elem_of_bind. apply list_elem_of_bind. exists y. split; [|done].
      destruct (decide (y = b)) as [->|]; [by apply Hgrow|]. rewrite (leaf_kept_entries s); [done|].
      apply Hkept. specialize (HM y Hy). set_solver. }
    exists L1, L2. destruct (decide (a = b)) as [->|Hab].
    + exists l'. assert (l0 = l) as -> by congruence. split_and!; [done..|apply Hsub; rewrite HL; set_solver|by right].
    + destruct (Hkept a) as (la & la' & Hla1 & Hla2 & ? & ?).
      { assert (a ∈ M1 ++ b :: M2) by (rewrite HL; set_solver). set_solver. }
      assert (la = l) as -> by congruence. exists la'. split_and!; [done..|apply Hsub; rewrite HL; set_solver|by left].
  - assert (Hgrow : leaf_entries s b ⊆ leaf_entries s' b ++ leaf_entries s' c).
    { rewrite (leaf_entries_Some _ _ _ Hl), (leaf_entries_Some _ _ _ Hl'), (leaf_entries_Some _ _ _ Hn), He.
      intros p Hp. apply elem_of_ins. by right. }
    assert (Hk : ∀ M, M ⊆ M1 ++ M2 → entries s' M = entries s M) by (intros M HM; apply leaves_kept_entries; intros y Hy; apply Hkept, HM, Hy).
    assert (Hother : a ∈ M1 ++ M2 → ∃ l1, leaves s' !! a = Some l1 ∧ l_seq l1 = l_seq l ∧ lentries l1 = lentries l).
    { intros Ha. destruct (Hkept a Ha) as (la & la' & Hla1 & Hla2 & ? & ?). assert (la = l) as -> by congruence. by exists la'. }
    assert (Hmid : a = b → L1 = M1 → L2 = M2 →
      ∃ L1' L2' l', M1 ++ b :: c :: M2 = L1' ++ a :: L2' ∧ leaves s' !! a = Some l' ∧ entries s (a :: L2) ⊆ entries s' (a :: L2') ∧
        ((l_seq l' = l_seq l ∧ lentries l' = lentries l) ∨ l_seq l' = u64 (l_seq l + 1))).
    { intros -> -> ->. exists M1, (c :: M2), l'. assert (l0 = l) as -> by congruence. split_and!; [done..| |by right].
      rewrite !Hcons, Hk by set_solver. set_solver. }
    apply app_eq_inv in HL as [([|y ks] & HL1 & HL2)|([|y ks] & HL1 & HL2)]; cbn in HL2; injection HL2 as <- HL2.
    + apply Hmid; [done|by rewrite HL1, app_nil_r|done].
    + destruct Hother as (l1 & ? & ? & ?); [rewrite HL1; set_solver|].
      exists L1, (ks ++ b :: c :: M2), l1. split_and!; [by rewrite HL1, <-app_assoc|done| |by left].
      rewrite HL2, !Hcons, !entries_app, !Hcons, (leaf_kept_entries s s' a) by (apply Hkept; rewrite HL1; set_solver).
      rewrite (Hk ks), (Hk M2) by (rewrite ?HL1; set_solver). set_solver.
    + apply Hmid; [done|by rewrite HL1, app_nil_r|done].
    + destruct Hother as (l1 & ? & ? & ?); [rewrite HL2; set_solver|].
      exists (M1 ++ b :: c :: ks), L2, l1. split_and!; [by rewrite HL2, <-app_assoc|done| |by left].
      rewrite !Hcons, (leaf_kept_entries s s' a), Hk by (try apply Hkept; rewrite HL2; set_solver). done.
Qed.

(** ** Positions *)

(** The iterator has just read the entry [p]. *)
Record at_entry s (L : list Z) it (p : Z * Z) : Prop := {
  at_leaf : ∃ L1 L2 l k, L = L1 ++ node_ it :: L2 ∧ leaves s !! node_ it = Some l ∧ lentries l !! k = Some p ∧
              leaf_index it = Z.of_nat k ∧ seq_ it = l_seq l;
  at_read : (key_ it, value_ it) = p;
}.

(** It stands on the entry, or behind the last one. *)
Definition lands s (L : list Z) it (o : option (Z * Z)) : Prop :=
  match o with Some p => at_entry s L it p | None => node_ it = NULL end.

(** The iterator was put on an entry at most [n] insertions ago. *)
Record cursor s (L : list Z) it (n : Z) : Prop := {
  cu_leaf : ∃ L1 L2 l j, L = L1 ++ node_ it :: L2 ∧ leaves s !! node_ it = Some l ∧
    (key_ it ∈ (entries s (node_ it :: L2)).*1) ∧ 0 ≤ j ≤ n ∧ l_seq l = u64 (seq_ it + j) ∧
    (j = 0 → ∃ k, leaf_index it = Z.of_nat k ∧ lentries l !! k = Some (key_ it, value_ it));
  cu_seq : 0 ≤ seq_ it < 2 ^ 64;
}.

Lemma at_entry_cursor s L it p : leaves_ok s L → at_entry s L it p → cursor s L it 0.
Proof.
  intros [_ Hsq] [(L1 & L2 & l & k & -> & Hl & Hk & Hi & Hs) Hp].
  assert (Hr : 0 ≤ l_seq l < 2 ^ 64) by (apply (Hsq (node_ it)); [set_solver|done]). split; [|lia].
  exists L1, L2, l, 0. split_and!; [done..| |lia|lia| |].
  - unfold entries. cbn. rewrite (leaf_entries_Some _ _ _ Hl), fmap_app, elem_of_app. left.
    apply list_elem_of_lookup_2 in Hk. apply (list_elem_of_fmap_2 fst) in Hk. by rewrite <-Hp in Hk.
  - by rewrite Z.add_0_r, Hs, u64_small.
  - intros _. exists k. by rewrite Hp.
Qed.

Lemma inserted_cursor s L I key s' L' v it n :
  tree_ok s L I → inserted s L key s' L' v → cursor s L it n → cursor s' L' it (n + 1).
Proof.
  intros [Hinv _] Hins [(L1 & L2 & l & j & HL & Hl & Hin & Hj & Hsq & H0) Hr]. split; [|done].
  destruct (inserted_change _ _ _ _ _ _ _ Hinv Hins) as [[-> ->]|Hc].
  { exists L1, L2, l, j. split_and!; [done..|lia|lia|done|done]. }
  destruct (change_suffix _ _ _ _ _ _ _ _ Hc (bi_leaves _ _ _ Hinv) HL Hl) as (L1' & L2' & l' & HL' & Hl' & Hsub & Hcase).
  assert (Hin' : key_ it ∈ (entries s' (node_ it :: L2')).*1).
  { apply list_elem_of_fmap in Hin as (p & -> & Hp). by apply list_elem_of_fmap_2, Hsub. }
  destruct Hcase as [[H1 H2]|H1].
  - exists L1', L2', l', j. split_and!; [done..|lia|lia|congruence|]. by rewrite H2.
  - exists L1', L2', l', (j + 1). split_and!; [done..|lia|lia| |lia]. rewrite H1, Hsq. unfold u64, uwrap.
    rewrite Zplus_mod_idemp_l. f_equal. lia.
Qed.

Lemma cursor_same s L it n : cursor s L it n → n < 2 ^ 64 → ∀ l, leaves s !! node_ it = Some l → l_seq l = seq_ it →
  ∃ k, leaf_index it = Z.of_nat k ∧ lentries l !! k = Some (key_ it, value_ it).
Proof.
  intros [(L1 & L2 & l & j & HL & Hl & Hin & Hj & Hsq & H0) Hr] Hn l' Hl' Heq.
  assert (l' = l) as -> by congruence. apply H0. rewrite Hsq in Heq. unfold u64, uwrap in Heq.
  assert (j mod 2 ^ 64 = 0) as Hm.
  { replace j with ((seq_ it + j) - seq_ it) by lia. rewrite Zminus_mod, Heq. rewrite Z.mod_small with (a := seq_ it) by lia.
    by rewrite Z.sub_diag. }
  rewrite Z.mod_small in Hm; lia.
Qed.

(** The leaf at a place of the chain. *)
Lemma leaf_at s L I L1 a L2 :
  bp_inv s L I → L = L1 ++ a :: L2 →
  ∃ l e lo hi, leaves s !! a = Some l ∧ leaf_ok e l lo hi ∧ a ≠ NULL ∧
    l_left l = default NULL (last L1) ∧ l_right l = default NULL (head L2).
Proof.
  intros Hinv ->. destruct (tree_leaf_ok _ _ _ _ _ _ _ _ a (bi_tree _ _ _ Hinv)) as (l & e & lo & hi & Hl & Hok & _); [set_solver|].
  exists l, e, lo, hi. pose proof (bi_leaf_addr _ _ _ Hinv a ltac:(eauto)).
  pose proof (bi_links _ _ _ Hinv) as Hlk. apply links_app in Hlk as [_ [(l2 & Hl2 & ? & ?) _]].
  assert (l2 = l) as -> by congruence. split_and!; [done..|unfold NULL; lia|done|done].
Qed.

Lemma lookup_lentries l k x v : lentries l !! k = Some (x, v) → l_keys l !! k = Some x ∧ l_values l !! k = Some v.
Proof.
  unfold lentries, lkeys, lvals. intros (? & ? & [= <- <-] & Hk & Hv)%lookup_zip_with_Some.
  apply lookup_take_Some in Hk as [? _]. apply lookup_take_Some in Hv as [? _]. done.
Qed.

Lemma load_entry s L L1 L2 l it k p :
  L = L1 ++ node_ it :: L2 → leaves s !! node_ it = Some l → node_ it ≠ NULL →
  leaf_index it = Z.of_nat k → lentries l !! k = Some p →
  ∃ it', load s it = Done it' ∧ at_entry s L it' p ∧ node_ it' = node_ it ∧ link_ it' = link_ it ∧ target_ it' = target_ it.
Proof.
  intros HL Hl Hn Hi Hp. destruct p as [x v]. destruct (lookup_lentries _ _ _ _ Hp) as [Hx Hv].
  unfold load, iget. rewrite decide_False by done. rewrite (leaf_Some _ _ _ Hl). cbn [mbind result_bind].
  rewrite !decide_True by lia. rewrite Hi, Nat2Z.id, (aget_Some _ _ _ Hx). cbn [mbind result_bind].
  rewrite (aget_Some _ _ _ Hv). cbn [mbind result_bind]. eexists. split; [done|]. split; [|done]. split; [|done].
  exists L1, L2, l, k. done.
Qed.

(** ** [Next] *)

Lemma head_drop_lookup {A} (l : list A) k r : (k < length l)%nat → head (drop k l ++ r) = l !! k.
Proof.
  intros Hk. destruct (lookup_lt_is_Some_2 l k Hk) as [x Hx]. by rewrite (drop_S _ x), Hx.
Qed.

Lemma head_entries s L I L1 a b L2 :
  tree_ok s L I → L = L1 ++ a :: b :: L2 →
  ∃ lb p, leaves s !! b = Some lb ∧ lentries lb !! 0%nat = Some p ∧ head (entries s (b :: L2)) = Some p.
Proof.
  intros [Hinv [Hf _]] HL. destruct (leaf_at s L I (L1 ++ [a]) b L2 Hinv) as (lb & _ & _ & _ & Hlb & _); [by rewrite HL, <-app_assoc|].
  assert (Hne : leaf_entries s b ≠ []).
  { apply Hf; [rewrite HL; set_solver|]. rewrite HL. intros Heq%(f_equal length). rewrite length_app in Heq. cbn in Heq. lia. }
  rewrite (leaf_entries_Some _ _ _ Hlb) in Hne. destruct (lentries lb) as [|p E] eqn:He; [done|].
  exists lb, p. split_and!; [done|by rewrite He|]. unfold entries. cbn. by rewrite (leaf_entries_Some _ _ _ Hlb), He.
Qed.

Lemma next_settle_spec s L I L1 L2 l it k :
  tree_ok s L I → L = L1 ++ node_ it :: L2 → leaves s !! node_ it = Some l →
  leaf_index it = Z.of_nat k → (k ≤ length (lentries l))%nat →
  ∃ it', next_settle s it = Done it' ∧ lands s L it' (head (drop k (lentries l) ++ entries s L2)).
Proof.
  intros Hok HL Hl Hi Hk. destruct (leaf_at _ _ _ _ _ _ (to_inv _ _ _ Hok) HL) as (l2 & e & lo & hi & Hl2 & Hlok & Hnn & _ & Hright).
  assert (l2 = l) as -> by congruence. pose proof (length_lentries _ _ _ _ Hlok) as Hlen.
  unfold next_settle. rewrite (leaf_Some _ _ _ Hl). cbn [mbind result_bind].
  destruct (decide (k < length (lentries l))%nat) as [Hlt|Hge].
  - rewrite decide_False by lia. cbn [mbind result_bind]. rewrite head_drop_lookup by done.
    destruct (lookup_lt_is_Some_2 (lentries l) k Hlt) as [p Hp]. rewrite Hp.
    destruct (load_entry s L L1 L2 l it k p HL Hl Hnn Hi Hp) as (it' & ? & ? & _). by exists it'.
  - rewrite decide_True by lia. rewrite drop_ge by lia. rewrite app_nil_l. destruct L2 as [|b L2].
    + rewrite decide_True by done. cbn [mbind result_bind]. unfold load. cbn [set_index set_node node_].
      rewrite decide_True by done. by eexists.
    + destruct (head_entries _ _ _ _ _ _ _ Hok HL) as (lb & p & Hlb & Hp & ->). cbn in Hright.
      destruct (leaf_at s L I (L1 ++ [node_ it]) b L2 (to_inv _ _ _ Hok)) as (_ & _ & _ & _ & _ & _ & Hb & _); [by rewrite HL, <-app_assoc|].
      rewrite Hright, decide_False by done. rewrite (leaf_Some _ _ _ Hlb). cbn [mbind result_bind].
      destruct (load_entry s L (L1 ++ [node_ it]) L2 lb (set_link (set_index (set_node it b) 0) b (l_seq lb)) 0 p)
        as (it' & ? & ? & _); [by rewrite HL, <-app_assoc|done..|by exists it'].
Qed.

Lemma filter_suffix {A} (P : A → Prop) `{!∀ x, Decision (P x)} E1 E2 :
  (∀ p, p ∈ E1 → ¬ P p) → (∀ p, p ∈ E2 → P p) → filter P (E1 ++ E2) = E2.
Proof.
  intros H1 H2. rewrite filter_app. assert (filter P E1 = []) as ->; [|cbn].
  - induction E1 as [|x E1 IH]; [done|]. rewrite filter_cons_False by (apply H1; by left). apply IH. intros p Hp. apply H1. by right.
  - induction E2 as [|x E2 IH]; [done|]. rewrite filter_cons_True by (apply H2; by left). f_equal. apply IH. intros p Hp. apply H2. by right.
Qed.

Lemma filter_prefix {A} (P : A → Prop) `{!∀ x, Decision (P x)} E1 E2 :
  (∀ p, p ∈ E1 → P p) → (∀ p, p ∈ E2 → ¬ P p) → filter P (E1 ++ E2) = E1.
Proof.
  intros H1 H2. rewrite filter_app. replace (filter P E2) with (filter P (E2 ++ [])) by by rewrite app_nil_r.
  rewrite (filter_suffix P E2 []); [|done|by intros p ?%not_elem_of_nil].
  rewrite app_nil_r. replace (filter P E1) with (filter P ([] ++ E1)) by done. apply filter_suffix; [by intros p ?%not_elem_of_nil|done].
Qed.

Lemma entries_sorted s L I : bp_inv s L I → sorted (entries s L).*1.
Proof.
  intros Hinv. rewrite (fst_entries _ _ _ _ _ _ _ _ _ (bi_tree _ _ _ Hinv)) by done. eapply tree_sorted, Hinv.
Qed.

(** Entries before and behind an entry. *)
Lemma sorted_around (E : list (Z * Z)) E1 p E2 :
  sorted E.*1 → E = E1 ++ p :: E2 → (∀ q, q ∈ E1 → q.1 < p.1) ∧ (∀ q, q ∈ E2 → p.1 < q.1).
Proof.
  intros Hs ->. rewrite fmap_app, fmap_cons in Hs. apply sorted_app_inv in Hs as (_ & Hs2 & Hlt).
  apply StronglySorted_inv in Hs2 as [_ Hall]. split; intros q Hq%(list_elem_of_fmap_2 fst).
  - apply Hlt; [done|by left].
  - by apply (proj1 (Forall_forall _ _) Hall).
Qed.

Lemma scan_ext p q keys k n : (∀ x, p x = q x) → scan p keys k n = scan q keys k n.
Proof.
  intros Hpq. revert k. induction n as [|n IH]; intros k; [done|]. cbn. destruct (aget keys k); [|done..].
  cbn. by rewrite Hpq, IH.
Qed.

Lemma fst_lentries e l lo hi : leaf_ok e l lo hi → (lentries l).*1 = lkeys l.
Proof. intros Hok. unfold lentries. apply fst_zip. by rewrite (length_lkeys _ _ _ _ Hok), (length_lvals _ _ _ _ Hok). Qed.

(** Where the scans of a leaf stop, on its entries. *)
Lemma scan_lt_entries e l lo hi key :
  leaf_ok e l lo hi →
  ∃ k, scan (λ x, bool_decide (x < key)) (l_keys l) 0 (l_num_keys l) = Done k ∧ (k ≤ l_num_keys l)%nat ∧
    (∀ p, p ∈ take k (lentries l) → p.1 < key) ∧ (∀ p, p ∈ drop k (lentries l) → key ≤ p.1).
Proof.
  intros Hok. destruct (scan_leaf _ _ _ _ key Hok) as (k & Hs & Hk & H1 & H2). exists k. rewrite <-(fst_lentries _ _ _ _ Hok) in H1, H2.
  split_and!; [done..| |]; intros p Hp%(list_elem_of_fmap_2 fst).
  - apply H1. by rewrite <-fmap_take.
  - apply H2. by rewrite <-fmap_drop.
Qed.

Lemma scan_le_entries e l lo hi key :
  leaf_ok e l lo hi →
  ∃ k, scan (λ x, bool_decide (x ≤ key)) (l_keys l) 0 (l_num_keys l) = Done k ∧ (k ≤ l_num_keys l)%nat ∧
    (∀ p, p ∈ take k (lentries l) → p.1 ≤ key) ∧ (∀ p, p ∈ drop k (lentries l) → key < p.1).
Proof.
  intros Hok. destruct (scan_lt_entries _ _ _ _ (key + 1) Hok) as (k & Hs & Hk & H1 & H2). exists k.
  rewrite (scan_ext _ (λ x, bool_decide (x < key + 1))) by (intros x; apply bool_decide_ext; lia).
  split_and!; [done..| |]; intros p Hp; [specialize (H1 p Hp)|specialize (H2 p Hp)]; lia.
Qed.

Lemma entries_cut s L1 a L2 l k :
  leaves s !! a = Some l →
  entries s (L1 ++ a :: L2) = (entries s L1 ++ take k (lentries l)) ++ drop k (lentries l) ++ entries s L2.
Proof. intros Hl. rewrite (entries_middle _ _ _ _ _ Hl), <-app_assoc, (app_assoc (take k _)), take_drop. done. Qed.

(** Everything behind a position that is larger. *)
Lemma sorted_rest s L I L1 a L2 l k key :
  bp_inv s L I → L = L1 ++ a :: L2 → leaves s !! a = Some l → (k < length (lentries l))%nat →
  (∀ p, p ∈ drop k (lentries l) → key < p.1) → ∀ p, p ∈ drop k (lentries l) ++ entries s L2 → key < p.1.
Proof.
  intros Hinv HL Hl Hk Hd p [Hp|Hp]%elem_of_app; [by apply Hd|].
  destruct (lookup_lt_is_Some_2 (lentries l) k Hk) as [q Hq]. pose proof (entries_sorted _ _ _ Hinv) as Hs.
  assert (Hq' : key < q.1) by (apply Hd; rewrite (drop_S _ q) by done; by left).
  destruct (sorted_around _ (entries s L1 ++ take k (lentries l)) q (drop (S k) (lentries l) ++ entries s L2) Hs) as [_ Hgt].
  { rewrite HL, (entries_cut _ _ _ _ _ k Hl). by rewrite (drop_S _ q) by done. }
  specialize (Hgt p ltac:(set_solver)). lia.
Qed.

Lemma next_search_spec s L I key fuel L1 a L2 :
  tree_ok s L I → L = L1 ++ a :: L2 → (length L2 < fuel)%nat → (∀ p, p ∈ entries s L1 → p.1 ≤ key) →
  (∃ M1 b M2 l k, next_search fuel s a key = Done (Some (b, k)) ∧ L = M1 ++ b :: M2 ∧ leaves s !! b = Some l ∧
     (k ≤ length (lentries l))%nat ∧ filter (λ p, key < p.1) (entries s L) = drop k (lentries l) ++ entries s M2) ∨
  (next_search fuel s a key = Done None ∧ filter (λ p, key < p.1) (entries s L) = []).
Proof.
  intros Hok. revert L1 a L2. induction fuel as [|fuel IH]; intros L1 a L2 HL Hfuel Hle; [lia|]. cbn [next_search].
  destruct (leaf_at _ _ _ _ _ _ (to_inv _ _ _ Hok) HL) as (l & e & lo & hi & Hl & Hlok & Hnn & _ & Hright).
  rewrite (leaf_Some _ _ _ Hl). cbn [mbind result_bind].
  destruct (scan_le_entries _ _ _ _ key Hlok) as (k & -> & Hk & H1 & H2). cbn [mbind result_bind].
  pose proof (length_lentries _ _ _ _ Hlok) as Hlen.
  assert (Hpre : ∀ p, p ∈ entries s L1 ++ take k (lentries l) → p.1 ≤ key).
  { intros p [?|?]%elem_of_app; [by apply Hle|by apply H1]. }
  case_decide as Hkn.
  - assert (Htake : take k (lentries l) = lentries l) by (apply take_ge; lia). rewrite Htake in Hpre. rewrite Hright. destruct L2 as [|b L2]; cbn.
    + right. rewrite decide_True by done. split; [done|]. rewrite HL, (entries_middle _ _ _ _ _ Hl). cbn.
      rewrite app_assoc. apply (filter_suffix _ _ []); [intros p Hp; specialize (Hpre p Hp); lia|by intros p ?%not_elem_of_nil].
    + destruct (leaf_at s L I (L1 ++ [a]) b L2 (to_inv _ _ _ Hok)) as (_ & _ & _ & _ & _ & _ & Hb & _); [by rewrite HL, <-app_assoc|].
      rewrite decide_False by done. apply (IH (L1 ++ [a]) b L2); [by rewrite HL, <-app_assoc|cbn in Hfuel; lia|].
      intros p Hp. apply Hpre. rewrite entries_app in Hp. unfold entries in Hp at 2. cbn in Hp.
      by rewrite (leaf_entries_Some _ _ _ Hl), app_nil_r in Hp.
  - left. exists L1, a, L2, l, k. split_and!; [done..|lia|]. rewrite HL, (entries_cut _ _ _ _ _ k Hl). apply filter_suffix.
    + intros p Hp. specialize (Hpre p Hp). lia.
    + eapply sorted_rest; [apply Hok|done|done|lia|done].
Qed.

Lemma search_fuel_enough s L I L1 a L2 : bp_inv s L I → L = L1 ++ a :: L2 → (length L2 < search_fuel s)%nat.
Proof.
  intros Hinv HL. unfold search_fuel. assert (length L ≤ size (leaves s))%nat; [|rewrite HL, length_app in *; cbn in *; lia].
  rewrite <-size_dom. rewrite <-(size_list_to_set (C := gset Z) L) by apply Hinv. apply subseteq_size.
  intros x Hx%elem_of_list_to_set. apply elem_of_dom. eapply links_leaf; [apply Hinv|done].
Qed.

Lemma Next_spec s L I it n :
  tree_ok s L I → cursor s L it n → n < 2 ^ 64 →
  ∃ it' b, Next s it = Done (it', b) ∧ lands s L it' (head (filter (λ p, key_ it < p.1) (entries s L))).
Proof.
  intros Hok Hcu Hn. pose proof (cursor_same _ _ _ _ Hcu Hn) as Hsame. pose proof (to_inv _ _ _ Hok) as Hinv.
  destruct Hcu as [(L1 & L2 & l & j & HL & Hl & Hin & _) _]. pose proof (entries_sorted _ _ _ Hinv) as Hsorted.
  unfold Next. rewrite (leaf_Some _ _ _ Hl). cbn [mbind result_bind]. case_decide as Hseq.
  - destruct (Hsame l Hl Hseq) as (k & Hi & Hk). set (it1 := set_index it (leaf_index it + 1)).
    assert (Hlen : (k < length (lentries l))%nat) by by eapply lookup_lt_Some.
    destruct (next_settle_spec s L I L1 L2 l it1 (S k) Hok) as (it' & -> & Hl'); [done|done|cbn; lia|done|].
    exists it', true. split; [done|].
    destruct (sorted_around _ (entries s L1 ++ take k (lentries l)) (key_ it, value_ it) (drop (S k) (lentries l) ++ entries s L2) Hsorted) as [Hlt Hgt].
    { rewrite HL, (entries_cut _ _ _ _ _ k Hl). by rewrite (drop_S _ (key_ it, value_ it)) by done. }
    rewrite HL at 2. rewrite (entries_cut _ _ _ _ _ (S k) Hl), filter_suffix; [done| |done].
    rewrite (take_S_r _ _ _ Hk), app_assoc. intros p [Hp|Hp]%elem_of_app; [specialize (Hlt p Hp); cbn in Hlt; lia|].
    apply list_elem_of_singleton in Hp as ->. cbn. lia.
  - assert (Hle : ∀ p, p ∈ entries s L1 → p.1 ≤ key_ it).
    { intros p Hp%(list_elem_of_fmap_2 fst). rewrite HL, entries_app, fmap_app in Hsorted.
      apply sorted_app_inv in Hsorted as (_ & _ & Hlt). specialize (Hlt _ _ Hp Hin). lia. }
    destruct (next_search_spec s L I (key_ it) (search_fuel s) L1 (node_ it) L2 Hok HL) as [(M1 & b & M2 & lb & k & -> & HM & Hlb & Hk & ->)|[-> ->]];
      [by eapply search_fuel_enough|done|..]; cbn [mbind result_bind].
    + destruct (next_settle_spec s L I M1 M2 lb (set_index (set_node it b) (Z.of_nat k)) k Hok) as (it' & -> & Hl'); [done..|].
      by exists it', false.
    + by eexists _, false.
Qed.

(** ** [Seek] and [SeekToFirst] *)

Lemma fst_entries_in s L I M p : bp_inv s L I → M ⊆ L → p ∈ entries s M → p.1 ∈ keys_of s M.
Proof.
  intros Hinv HM Hp%(list_elem_of_fmap_2 fst). by rewrite (fst_entries _ _ _ _ _ _ _ _ _ (bi_tree _ _ _ Hinv) HM) in Hp.
Qed.

Lemma Seek_spec s L I it key :
  tree_ok s L I → 0 ≤ key < 2 ^ 64 →
  ∃ it', Seek s it key = Done it' ∧ lands s L it' (head (filter (λ p, key ≤ p.1) (entries s L))) ∧
    ∃ L1 a L2 l, L = L1 ++ a :: L2 ∧ leaves s !! a = Some l ∧ link_ it' = a ∧ target_ it' = l_seq l ∧
      (node_ it' = a ∨ node_ it' = default NULL (head L2)).
Proof.
  intros Hok Hkey. pose proof (to_inv _ _ _ Hok) as Hinv.
  destruct (find_leaf_spec _ _ _ _ _ _ _ _ key (bi_tree _ _ _ Hinv) Hkey) as (a & l & e & lo & hi & L1 & L2 & Ha & _ & _ & [HL Hl Hlok Hk1 Hlt Hge]).
  destruct (leaf_at _ _ _ _ _ _ Hinv HL) as (l2 & _ & _ & _ & Hl2 & _ & Hnn & _ & Hright). assert (l2 = l) as -> by congruence.
  unfold Seek, FindLeaf. rewrite Ha. cbn [mbind result_bind]. rewrite (leaf_Some _ _ _ Hl). cbn [mbind result_bind].
  destruct (scan_lt_entries _ _ _ _ key Hlok) as (k & -> & Hk & H1 & H2). cbn [mbind result_bind].
  pose proof (length_lentries _ _ _ _ Hlok) as Hlen.
  assert (Hf : filter (λ p, key ≤ p.1) (entries s L) = drop k (lentries l) ++ entries s L2).
  { rewrite HL, (entries_cut _ _ _ _ _ k Hl). apply filter_suffix; intros p [Hp|Hp]%elem_of_app.
    - eapply fst_entries_in in Hp; [|done|rewrite HL; set_solver]. specialize (Hlt _ Hp). lia.
    - specialize (H1 _ Hp). lia.
    - by apply H2.
    - eapply fst_entries_in in Hp; [|done|rewrite HL; set_solver]. specialize (Hge _ Hp). lia. }
  rewrite Hf. case_decide as Hkn.
  - rewrite drop_ge by lia. rewrite app_nil_l. destruct L2 as [|b L2].
    + unfold load. cbn [node_ set_index set_node set_link]. rewrite decide_True by done. eexists. split_and!; [done|done|].
      exists L1, a, [], l. split_and!; [done..|by right].
    + destruct (head_entries _ _ _ _ _ _ _ Hok HL) as (lb & p & Hlb & Hp & ->). cbn in Hright. rewrite Hright.
      destruct (leaf_at s L I (L1 ++ [a]) b L2 Hinv) as (_ & _ & _ & _ & _ & _ & Hb & _); [by rewrite HL, <-app_assoc|].
      destruct (load_entry s L (L1 ++ [a]) L2 lb (set_index (set_node (set_link it a (l_seq l)) b) 0) 0 p)
        as (it' & Hrun & Hat & Hnd & Hln & Htg); [by rewrite HL, <-app_assoc|done..|].
      exists it'. split_and!; [done..|]. exists L1, a, (b :: L2), l. split_and!; [done..|by right].
  - destruct (lookup_lt_is_Some_2 (lentries l) k) as [p Hp]; [lia|]. rewrite head_drop_lookup, Hp by lia.
    destruct (load_entry s L L1 L2 l (set_node (set_index (set_link it a (l_seq l)) (Z.of_nat k)) a) k p)
      as (it' & Hrun & Hat & Hnd & Hln & Htg); [done..|].
    exists it'. split_and!; [done..|]. exists L1, a, L2, l. split_and!; [done..|by left].
Qed.

Lemma first_leaf_spec s d e a lo hi L I : tree s d e a lo hi L I → ∃ b, first_leaf s a d = Done b ∧ head L = Some b.
Proof.
  revert e a lo hi L I. induction d as [|d IH]; intros e a lo hi L I.
  - intros (-> & _). by exists a.
  - intros (n & J & Hn & Hok & _ & Hf). cbn. rewrite (inner_Some _ _ _ Hn). cbn [mbind result_bind].
    assert (Hkid : ∃ p ps, ikids n = p :: ps).
    { pose proof (length_ikids _ _ Hok). destruct (ikids n) as [|p ps]; [done|eauto]. }
    destruct Hkid as (p & ps & Hps). assert (Hp : i_children n !! 0%nat = Some p).
    { unfold ikids in Hps. destruct (i_children n); [done|]. cbn in *. by injection Hps as <- _. }
    rewrite (aget_Some _ _ _ Hp). cbn [mbind result_bind]. rewrite Hps in Hf. destruct (ikeys n) as [|k ks].
    + destruct ps as [|? ?]; [|done]. destruct Hf as [_ Ht]. by eapply IH.
    + destruct Hf as (_ & L1 & I1 & L2 & I2 & Ht & _ & -> & _). destruct (IH _ _ _ _ _ _ Ht) as (b & Hb & Hh). exists b.
      split; [done|]. by destruct L1.
Qed.

(** On an empty tree the iterator is on the empty root, and not valid. *)
Lemma SeekToFirst_spec s L I it :
  tree_ok s L I → ∃ it', SeekToFirst s it = Done it' ∧
    match head (entries s L) with Some p => at_entry s L it' p | None => Valid s it' = Done false end.
Proof.
  intros Hok. pose proof (to_inv _ _ _ Hok) as Hinv.
  destruct (first_leaf_spec _ _ _ _ _ _ _ _ (bi_tree _ _ _ Hinv)) as (a & Ha & Hhd). destruct L as [|a' L2] eqn:HL; [done|]. injection Hhd as ->.
  destruct (leaf_at s (a :: L2) I [] a L2 Hinv) as (l & e & lo & hi & Hl & Hlok & Hnn & _ & _); [done|].
  unfold SeekToFirst. rewrite Ha. cbn [mbind result_bind]. rewrite (leaf_Some _ _ _ Hl). cbn [mbind result_bind].
  assert (He : entries s (a :: L2) = lentries l ++ entries s L2) by (unfold entries; cbn; by rewrite (leaf_entries_Some _ _ _ Hl)).
  rewrite He. destruct (lentries l) as [|p E] eqn:HE.
  - assert (L2 = []) as ->.
    { destruct L2 as [|b L2]; [done|]. destruct (lv_full _ _ (to_leaves _ _ _ Hok) a); [by left|done|]. by rewrite (leaf_entries_Some _ _ _ Hl). }
    destruct (l_keys l) as [|x ks] eqn:Hks; [pose proof (lf_keys _ _ _ _ Hlok) as H; by rewrite Hks in H|].
    destruct (l_values l) as [|v vs] eqn:Hvs; [pose proof (lf_values _ _ _ _ Hlok) as H; by rewrite Hvs in H|].
    unfold load, iget. cbn [node_ set_index set_node set_link leaf_index]. rewrite decide_False by done. rewrite (leaf_Some _ _ _ Hl). cbn [mbind result_bind].
    rewrite !decide_True, Hks, Hvs by lia. cbn. eexists. split; [done|]. unfold Valid. cbn. rewrite decide_False by done.
    rewrite (leaf_Some _ _ _ Hl). cbn. pose proof (length_lentries _ _ _ _ Hlok) as Hlen. rewrite HE in Hlen. cbn in Hlen.
    by rewrite <-Hlen.
  - destruct (load_entry s (a :: L2) [] L2 l (set_index (set_link (set_node it a) a (l_seq l)) 0) 0 p)
      as (it' & ? & ? & _); [done..|by rewrite HE|by exists it'].
Qed.

(** ** [Prev] *)

Lemma last_take_lookup {A} (l : list A) r k x : l !! k = Some x → last (r ++ take (S k) l) = Some x.
Proof. intros Hx. by rewrite (take_S_r _ _ _ Hx), app_assoc, last_snoc. Qed.

Lemma last_entries s L I L1 b a L2 :
  tree_ok s L I → L = L1 ++ b :: a :: L2 →
  ∃ lb p, leaves s !! b = Some lb ∧ (0 < length (lentries lb))%nat ∧ length (lentries lb) = l_num_keys lb ∧
    lentries lb !! (length (lentries lb) - 1)%nat = Some p ∧ last (entries s (L1 ++ [b])) = Some p.
Proof.
  intros [Hinv [Hf _]] HL. destruct (leaf_at s L I L1 b (a :: L2) Hinv HL) as (lb & e & lo & hi & Hlb & Hlok & _).
  assert (Hne : leaf_entries s b ≠ []).
  { apply Hf; [rewrite HL; set_solver|]. rewrite HL. intros Heq%(f_equal length). rewrite length_app in Heq. cbn in Heq. lia. }
  rewrite (leaf_entries_Some _ _ _ Hlb) in Hne.
  assert (Hpos : (0 < length (lentries lb))%nat) by (destruct (lentries lb); [done|cbn; lia]).
  destruct (lookup_lt_is_Some_2 (lentries lb) (length (lentries lb) - 1)) as [p Hp]; [lia|].
  exists lb, p. split_and!; [done|done|by eapply length_lentries|done|].
  rewrite entries_app. unfold entries at 2. cbn. rewrite (leaf_entries_Some _ _ _ Hlb), app_nil_r.
  rewrite <-(take_ge (lentries lb) (S (length (lentries lb) - 1))) by lia. by apply last_take_lookup.
Qed.

Lemma prev_settle_spec s L I L1 L2 l it k :
  tree_ok s L I → L = L1 ++ node_ it :: L2 → leaves s !! node_ it = Some l →
  leaf_index it = Z.of_nat k → (k < length (lentries l))%nat →
  ∃ it', prev_settle s it = Done it' ∧ lands s L it' (last (entries s L1 ++ take k (lentries l))).
Proof.
  intros Hok HL Hl Hi Hk. pose proof (to_inv _ _ _ Hok) as Hinv.
  destruct (leaf_at _ _ _ _ _ _ Hinv HL) as (l2 & e & lo & hi & Hl2 & Hlok & Hnn & Hleft & _).
  assert (l2 = l) as -> by congruence. unfold prev_settle. cbn [leaf_index set_index node_].
  destruct k as [|k].
  - rewrite decide_True by lia. rewrite (leaf_Some _ _ _ Hl). cbn [mbind result_bind]. rewrite take_0, app_nil_r.
    destruct L1 as [|b L1 _] using rev_ind.
    + cbn in Hleft. rewrite Hleft. cbn [mbind result_bind]. rewrite decide_True by done. cbn [mbind result_bind]. unfold load.
      cbn [node_ set_node]. rewrite decide_True by done. by eexists.
    + rewrite last_snoc in Hleft. cbn in Hleft. rewrite Hleft. rewrite <-app_assoc in HL. cbn in HL.
      destruct (last_entries _ _ _ _ _ _ _ Hok HL) as (lb & p & Hlb & Hpos & Hlen & Hp & ->).
      destruct (leaf_at _ _ _ _ _ _ Hinv HL) as (_ & _ & _ & _ & _ & _ & Hb & _).
      rewrite decide_False by done. rewrite (leaf_Some _ _ _ Hlb). cbn [mbind result_bind].
      edestruct (load_entry s L L1 (node_ it :: L2) lb) as (it' & Hrun & Hat & _); [..|exists it'; by split]; try done.
      cbn. lia.
  - rewrite decide_False by lia. cbn [mbind result_bind].
    destruct (lookup_lt_is_Some_2 (lentries l) k) as [p Hp]; [lia|]. rewrite (last_take_lookup _ _ _ _ Hp).
    edestruct (load_entry s L L1 L2 l) as (it' & Hrun & Hat & _); [..|exists it'; by split]; try done. cbn. lia.
Qed.

Lemma prev_search_spec s L I key fuel L1 a L2 :
  tree_ok s L I → L = L1 ++ a :: L2 → (length L2 < fuel)%nat → key ∈ (entries s (a :: L2)).*1 →
  ∃ M1 b M2 l k v, prev_search fuel s a key = Done (b, Some k) ∧ L = M1 ++ b :: M2 ∧ leaves s !! b = Some l ∧
    lentries l !! k = Some (key, v).
Proof.
  intros Hok. pose proof (to_inv _ _ _ Hok) as Hinv. revert L1 a L2. induction fuel as [|fuel IH]; intros L1 a L2 HL Hfuel Hin; [lia|].
  cbn [prev_search]. destruct (leaf_at _ _ _ _ _ _ Hinv HL) as (l & e & lo & hi & Hl & Hlok & Hnn & _ & Hright).
  rewrite (leaf_Some _ _ _ Hl). cbn [mbind result_bind].
  destruct (scan_lt_entries _ _ _ _ key Hlok) as (k & -> & Hk & H1 & H2). cbn [mbind result_bind].
  pose proof (length_lentries _ _ _ _ Hlok) as Hlen.
  assert (Hcut : entries s (a :: L2) = take k (lentries l) ++ drop k (lentries l) ++ entries s L2)
    by exact (entries_cut s [] a L2 l k Hl).
  apply list_elem_of_fmap in Hin as ([x v] & Hx & Hin). cbn in Hx. subst x. rewrite Hcut, elem_of_app in Hin.
  destruct Hin as [Hin|Hin]; [specialize (H1 _ Hin); cbn in H1; lia|]. case_decide as Hkn.
  - rewrite drop_ge in Hin by lia. rewrite app_nil_l in Hin. destruct L2 as [|b L2]; [by apply not_elem_of_nil in Hin|].
    destruct (leaf_at s L I (L1 ++ [a]) b L2 Hinv) as (_ & _ & _ & _ & _ & _ & Hb & _); [by rewrite HL, <-app_assoc|].
    cbn in Hright. rewrite Hright, decide_False by done. apply (IH (L1 ++ [a]) b L2); [by rewrite HL, <-app_assoc|cbn in Hfuel; lia|].
    by apply (list_elem_of_fmap_2 fst) in Hin.
  - destruct (lookup_lt_is_Some_2 (lentries l) k) as [q Hq]; [lia|].
    assert (Hq1 : key ≤ q.1) by (apply H2; rewrite (drop_S _ q) by done; by left).
    exists L1, a, L2, l, k, v. split_and!; [done..|]. rewrite Hq. f_equal. rewrite (drop_S _ q) in Hin by done.
    apply elem_of_cons in Hin as [->|Hin]; [done|].
    destruct (sorted_around _ (entries s L1 ++ take k (lentries l)) q (drop (S k) (lentries l) ++ entries s L2) (entries_sorted _ _ _ Hinv)) as [_ Hgt].
    { rewrite HL, (entries_cut _ _ _ _ _ k Hl). by rewrite (drop_S _ q) by done. }
    specialize (Hgt _ Hin). cbn in Hgt. lia.
Qed.

(** The entries before an entry are those with smaller keys. *)
Lemma before_entry s L I L1 a L2 l k p :
  bp_inv s L I → L = L1 ++ a :: L2 → leaves s !! a = Some l → lentries l !! k = Some p →
  filter (λ q, q.1 < p.1) (entries s L) = entries s L1 ++ take k (lentries l).
Proof.
  intros Hinv HL Hl Hp.
  destruct (sorted_around _ (entries s L1 ++ take k (lentries l)) p (drop (S k) (lentries l) ++ entries s L2) (entries_sorted _ _ _ Hinv)) as [Hlt Hgt].
  { rewrite HL, (entries_cut _ _ _ _ _ k Hl). by rewrite (drop_S _ p) by done. }
  rewrite HL, (entries_cut _ _ _ _ _ k Hl). apply filter_prefix; [done|]. rewrite (drop_S _ p) by done.
  intros q [->|Hq]%elem_of_cons; [lia|]. specialize (Hgt q Hq). lia.
Qed.

Lemma cursor_valid s L I it n : tree_ok s L I → cursor s L it n → Valid s it = Done true.
Proof.
  intros Hok [(L1 & L2 & l & j & HL & Hl & Hin & _) _]. pose proof (to_inv _ _ _ Hok) as Hinv.
  destruct (leaf_at _ _ _ _ _ _ Hinv HL) as (l2 & e & lo & hi & Hl2 & Hlok & Hnn & _ & _). assert (l2 = l) as -> by congruence.
  unfold Valid. rewrite decide_False by done. rewrite (leaf_Some _ _ _ Hl). cbn [mbind result_bind]. f_equal. apply bool_decide_eq_true.
  rewrite <-(length_lentries _ _ _ _ Hlok). assert (lentries l ≠ []); [|by destruct (lentries l); [|cbn; lia]].
  rewrite <-(leaf_entries_Some _ _ _ Hl). intros He.
  destruct (decide (L = [node_ it])) as [HL1|HL1].
  - assert (L2 = []) as ->.
    { rewrite HL in HL1. apply (f_equal length) in HL1. rewrite length_app in HL1. cbn in HL1. by destruct L2; [|cbn in HL1; lia]. }
    unfold entries in Hin. cbn in Hin. rewrite He in Hin. by apply not_elem_of_nil in Hin.
  - apply (lv_full _ _ (to_leaves _ _ _ Hok) (node_ it)); [rewrite HL; set_solver|done|done].
Qed.

Lemma Prev_spec s L I it n :
  tree_ok s L I → cursor s L it n → n < 2 ^ 64 →
  ∃ it' b, Prev s it = Done (it', b) ∧ lands s L it' (last (filter (λ p, p.1 < key_ it) (entries s L))).
Proof.
  intros Hok Hcu Hn. pose proof (cursor_same _ _ _ _ Hcu Hn) as Hsame. pose proof (to_inv _ _ _ Hok) as Hinv.
  unfold Prev. rewrite (cursor_valid _ _ _ _ _ Hok Hcu). cbn [mbind result_bind verify].
  destruct Hcu as [(L1 & L2 & l & j & HL & Hl & Hin & _) _]. rewrite (leaf_Some _ _ _ Hl). cbn [mbind result_bind]. case_decide as Hseq.
  - destruct (Hsame l Hl Hseq) as (k & Hi & Hk).
    destruct (prev_settle_spec s L I L1 L2 l it k Hok) as (it' & -> & Hl'); [done..|by eapply lookup_lt_Some|].
    exists it', true. split; [done|].
    pose proof (before_entry _ _ _ _ _ _ _ _ _ Hinv HL Hl Hk) as Hb. cbn in Hb. by rewrite Hb.
  - destruct (prev_search_spec s L I (key_ it) (search_fuel s) L1 (node_ it) L2 Hok HL) as (M1 & b & M2 & lb & k & v & -> & HM & Hlb & Hk);
      [by eapply search_fuel_enough|done|]. cbn [mbind result_bind].
    destruct (prev_settle_spec s L I M1 M2 lb (set_index (set_node it b) (Z.of_nat k)) k Hok) as (it' & -> & Hl');
      [done..|by eapply lookup_lt_Some|].
    exists it', false. split; [done|].
    pose proof (before_entry _ _ _ _ _ _ _ _ _ Hinv HM Hlb Hk) as Hb. cbn in Hb. by rewrite Hb.
Qed.
