(* ===== verification/BPScan.v ===== *)
(** * The B+-tree with an iterator is an ordered map with a cursor

    Calls of the store and calls of one iterator, in any order, against a finite map and
    the key the iterator stands on: [Seek] finds the first key that is not smaller,
    [Next] and [Prev] the neighbours of the key in the tree as it is then, whatever was
    inserted since the iterator last moved. *)

From stdpp Require Import sorting.
From S2P Require Import Prelude Memstore BPlusTree BPTree BPLeaf BPInsert BPStore BPMap BPIter BPCursor.

Implicit Types (s : MemstoreBPlusTree) (it : Iterator) (m : NodeMem).

(** ** Events *)

Inductive it_event :=
  | ECall (o : bp_op)
  | ESeek (key : Z)
  | ESeekToFirst
  | ENext
  | EPrev.

(** What the caller looks at behind a move: [Valid], [Key] and [CurNode()->value]. *)
Definition observe s m it : result (option (Z * Z)) :=
  v ← Valid s it;
  if (v : bool) then a ← CurNode s it; Done (Some (Key it, n_value (node_at m a))) else Done None.

Definition ev_step s m it (e : it_event) : result (MemstoreBPlusTree * NodeMem * Iterator * (option Z + option (Z * Z))) :=
  match e with
  | ECall o => '(s, m, r) ← bp_call s m o; Done (s, m, it, inl r)
  | ESeek key => it ← Seek s it key; r ← observe s m it; Done (s, m, it, inr r)
  | ESeekToFirst => it ← SeekToFirst s it; r ← observe s m it; Done (s, m, it, inr r)
  | ENext => '(it, _) ← Next s it; r ← observe s m it; Done (s, m, it, inr r)
  | EPrev => '(it, _) ← Prev s it; r ← observe s m it; Done (s, m, it, inr r)
  end.

Fixpoint ev_steps s m it (es : list it_event) : result (list (option Z + option (Z * Z))) :=
  match es with
  | [] => Done []
  | e :: es => '(s, m, it, r) ← ev_step s m it e; rs ← ev_steps s m it es; Done (r :: rs)
  end.

(** ** The specification *)

Definition key_le (p q : Z * Z) : Prop := p.1 ≤ q.1.

#[local] Instance key_le_dec : RelDecision key_le.
Proof. intros p q. apply Z_le_dec. Defined.
#[local] Instance key_le_total : Total key_le.
Proof. intros p q. unfold key_le. lia. Qed.
#[local] Instance key_le_trans : Transitive key_le.
Proof. intros p q r. unfold key_le. lia. Qed.

Definition sorted_entries (M : gmap Z Z) : list (Z * Z) := merge_sort key_le (map_to_list M).

Definition first_ge (M : gmap Z Z) (key : Z) : option (Z * Z) := head (filter (λ p, key ≤ p.1) (sorted_entries M)).
Definition next_entry (M : gmap Z Z) (key : Z) : option (Z * Z) := head (filter (λ p, key < p.1) (sorted_entries M)).
Definition prev_entry (M : gmap Z Z) (key : Z) : option (Z * Z) := last (filter (λ p, p.1 < key) (sorted_entries M)).

(** Moving to [o]: the new key and what is seen. *)
Definition moved (M : gmap Z Z) (o : option (Z * Z)) : gmap Z Z * option Z * (option Z + option (Z * Z)) :=
  (M, fst <$> o, inr o).

(** [None]: the event is not allowed ([Next] and [Prev] need a valid iterator, a lookup a
    map that is not empty). *)
Definition om_step (M : gmap Z Z) (c : option Z) (e : it_event) : option (gmap Z Z * option Z * (option Z + option (Z * Z))) :=
  match e, c with
  | ECall o, _ => if decide (op_ok o ∧ ready M o) then Some ((map_call M o).1, c, inl (map_call M o).2) else None
  | ESeek key, _ => if decide (0 ≤ key < 2 ^ 64) then Some (moved M (first_ge M key)) else None
  | ESeekToFirst, _ => Some (moved M (head (sorted_entries M)))
  | ENext, Some k => Some (moved M (next_entry M k))
  | EPrev, Some k => Some (moved M (prev_entry M k))
  | _, None => None
  end.

Fixpoint om_steps (M : gmap Z Z) (c : option Z) (es : list it_event) : option (list (option Z + option (Z * Z))) :=
  match es with
  | [] => Some []
  | e :: es => '(M, c, r) ← om_step M c e; rs ← om_steps M c es; Some (r :: rs)
  end.

(** ** The entries of a tree are the sorted entries of its map *)

Definition see m (p : Z * Z) : Z * Z := (p.1, n_value (node_at m p.2)).

(** Lists that are strictly sorted by their keys are determined by their elements. *)
Lemma sorted_fst_unique (E1 E2 : list (Z * Z)) : sorted E1.*1 → sorted E2.*1 → E1 ≡ₚ E2 → E1 = E2.
Proof.
  revert E2. induction E1 as [|p E1 IH]; intros E2 H1 H2 HP; [by apply Permutation_nil_l in HP|].
  destruct E2 as [|q E2]; [by apply Permutation_nil_r in HP|]. cbn in H1, H2.
  apply StronglySorted_inv in H1 as [H1 Ha1], H2 as [H2 Ha2].
  assert (p = q) as ->.
  { assert (Hp : p ∈ q :: E2) by (rewrite <-HP; by left). assert (Hq : q ∈ p :: E1) by (rewrite HP; by left).
    apply elem_of_cons in Hp as [?|Hp]; [done|]. apply elem_of_cons in Hq as [?|Hq]; [done|].
    apply (list_elem_of_fmap_2 fst) in Hp, Hq. apply (proj1 (Forall_forall _ _) Ha2) in Hp.
    apply (proj1 (Forall_forall _ _) Ha1) in Hq. lia. }
  f_equal. apply IH; [done..|]. by apply Permutation_cons_inv in HP.
Qed.

Lemma sorted_le_lt (E : list (Z * Z)) : StronglySorted key_le E → NoDup E.*1 → sorted E.*1.
Proof.
  induction 1 as [|p E _ IH Hall]; intros Hnd; [constructor|]. cbn in Hnd. apply NoDup_cons in Hnd as [Hp Hnd].
  constructor; [by apply IH|]. apply Forall_forall. intros k (q & -> & Hq)%list_elem_of_fmap.
  apply (proj1 (Forall_forall _ _) Hall) in Hq as Hle. unfold key_le in Hle. assert (p.1 ≠ q.1); [|lia].
  intros Heq. apply Hp. rewrite Heq. by apply list_elem_of_fmap_2.
Qed.

Lemma sorted_entries_spec s m L I : bp_inv s L I → sorted_entries (values_of s m L) = see m <$> entries s L.
Proof.
  intros Hinv. pose proof (entries_sorted _ _ _ Hinv) as Hs. pose proof (rising_NoDup _ Hs) as Hnd.
  assert (Hfst : (see m <$> entries s L).*1 = (entries s L).*1) by (rewrite <-list_fmap_compose; by apply list_fmap_ext).
  assert (HP : sorted_entries (values_of s m L) ≡ₚ see m <$> entries s L).
  { unfold sorted_entries. rewrite merge_sort_Permutation. unfold values_of, contents. rewrite map_to_list_fmap.
    rewrite map_to_list_to_map by done. by apply reflexive_eq, list_fmap_ext. }
  apply sorted_fst_unique; [|by rewrite Hfst|done]. apply sorted_le_lt; [apply (StronglySorted_merge_sort _)|].
  rewrite HP, Hfst. done.
Qed.

Lemma filter_see m (P : Z → Prop) `{!∀ x, Decision (P x)} (E : list (Z * Z)) :
  filter (λ p, P p.1) (see m <$> E) = see m <$> filter (λ p, P p.1) E.
Proof.
  induction E as [|p E IH]; [done|]. rewrite fmap_cons. destruct (decide (P p.1)).
  - rewrite !filter_cons_True by done. by rewrite IH.
  - rewrite !filter_cons_False by done. done.
Qed.

Lemma head_see m (E : list (Z * Z)) : head (see m <$> E) = see m <$> head E.
Proof. by destruct E. Qed.

(** ** The simulation *)

Record it_rel s m it (M : gmap Z Z) (c : option Z) (n : Z) (L I : list Z) : Prop := {
  ir_rel : bp_rel s m M L I;
  ir_cursor k : c = Some k → key_ it = k ∧ cursor s L it n;
}.

Definition it_sim s m it (M : gmap Z Z) (c : option Z) (n : Z) : Prop := ∃ L I, it_rel s m it M c n L I.

Lemma it_rel_ok s m it M c n L I : it_rel s m it M c n L I → tree_ok s L I.
Proof. intros [Hrel _]. apply Hrel. Qed.

Lemma cursor_mono s L it n n' : cursor s L it n → n ≤ n' → cursor s L it n'.
Proof. intros [(L1 & L2 & l & j & ? & ? & ? & ? & ? & ?) ?] Hn. split; [|done]. exists L1, L2, l, j. split_and!; try done; lia. Qed.

(** After a move the iterator is seen on the entry it landed on. *)
Lemma observe_entry s m L I it p : tree_ok s L I → at_entry s L it p → observe s m it = Done (Some (see m p)).
Proof.
  intros Hok Hat. pose proof (at_entry_cursor _ _ _ _ (to_leaves _ _ _ Hok) Hat) as Hcu. unfold observe, CurNode, Key.
  rewrite (cursor_valid _ _ _ _ _ Hok Hcu). cbn. destruct Hat as [_ <-]. done.
Qed.

Lemma observe_lands s m L I it o : tree_ok s L I → lands s L it o → observe s m it = Done (see m <$> o).
Proof.
  intros Hok Hl. destruct o as [p|]; [by eapply observe_entry|]. cbn in Hl. unfold observe, Valid. by rewrite decide_True.
Qed.

(** A move to [o], in the tree and in the map. *)
Lemma move_sim s m it M c n L I it' o :
  it_rel s m it M c n L I → 0 ≤ n → lands s L it' o → it_sim s m it' M (fst <$> (see m <$> o)) (n + 1).
Proof.
  intros Hrel Hn Hl. exists L, I. pose proof (it_rel_ok _ _ _ _ _ _ _ _ Hrel) as Hok.
  destruct Hrel as [Hr _]. split; [done|]. intros k Hk. destruct o as [p|]; [|done]. injection Hk as <-.
  split; [by destruct Hl as [_ <-]|]. apply cursor_mono with 0; [by eapply at_entry_cursor; [apply Hok|]|lia].
Qed.

Lemma stepped_cursor s L I s' L' : tree_ok s L I → stepped s L s' L' → ∀ it n, cursor s L it n → cursor s' L' it (n + 1).
Proof.
  intros Hok [[-> ->]|(key & v & Hins)] it n Hcu; [by apply cursor_mono with n; [|lia]|by eapply inserted_cursor].
Qed.

Lemma ev_step_sim s m it M c n e M' c' r :
  it_sim s m it M c n → 0 ≤ n < 2 ^ 64 → om_step M c e = Some (M', c', r) →
  ∃ s' m' it', ev_step s m it e = Done (s', m', it', r) ∧ it_sim s' m' it' M' c' (n + 1).
Proof.
  intros (L & I & Hrel) Hn He. pose proof (it_rel_ok _ _ _ _ _ _ _ _ Hrel) as Hok. pose proof (to_inv _ _ _ Hok) as Hinv.
  pose proof Hrel as [Hbr Hcu]. pose proof (sorted_entries_spec s m L I Hinv) as Hse. rewrite (br_values _ _ _ _ _ Hbr) in Hse.
  assert (Hmove : ∀ it' o, lands s L it' o → observe s m it' = Done (see m <$> o) ∧ it_sim s m it' M (fst <$> (see m <$> o)) (n + 1)).
  { intros it' o Hl. split; [by eapply observe_lands|]. apply (move_sim _ _ _ _ _ _ _ _ _ _ Hrel); [lia|done]. }
  destruct e as [o|key| | |]; cbn [om_step ev_step] in *.
  - destruct (decide (op_ok o ∧ ready M o)) as [[Ho Hrd]|]; [|done]. injection He as <- <- <-.
    destruct (bp_call_rel s m M L I o Hbr Ho Hrd) as (s' & m' & L' & I' & -> & Hrel' & Hst). cbn [mbind result_bind].
    exists s', m', it. split; [done|]. exists L', I'. split; [done|].
    intros k Hk. destruct (Hcu k Hk). split; [done|]. by eapply stepped_cursor.
  - case_decide as Hk; [|done]. injection He as <- <- <-. destruct (Seek_spec s L I it key Hok Hk) as (it' & -> & Hl & _).
    destruct (Hmove _ _ Hl) as [Ho Hs]. cbn [mbind result_bind]. rewrite Ho. cbn [mbind result_bind].
    exists s, m, it'. unfold first_ge. rewrite Hse, (filter_see m (λ k, key ≤ k)), head_see. done.
  - injection He as <- <- <-. destruct (SeekToFirst_spec s L I it Hok) as (it' & -> & Hl). cbn [mbind result_bind].
    exists s, m, it'. rewrite Hse, head_see. destruct (head (entries s L)) as [p|] eqn:Hh.
    + destruct (Hmove it' (Some p) Hl) as [-> Hs]. done.
    + unfold observe. rewrite Hl. cbn. split; [done|]. by exists L, I.
  - destruct c as [k|]; [|done]. injection He as <- <- <-. destruct (Hcu k eq_refl) as [<- Hc].
    destruct (Next_spec s L I it n Hok Hc) as (it' & b & -> & Hl); [lia|]. destruct (Hmove _ _ Hl) as [Ho Hs].
    cbn [mbind result_bind]. rewrite Ho. cbn [mbind result_bind].
    exists s, m, it'. unfold next_entry. rewrite Hse, (filter_see m (λ k, key_ it < k)), head_see. done.
  - destruct c as [k|]; [|done]. injection He as <- <- <-. destruct (Hcu k eq_refl) as [<- Hc].
    destruct (Prev_spec s L I it n Hok Hc) as (it' & b & -> & Hl); [lia|]. destruct (Hmove _ _ Hl) as [Ho Hs].
    cbn [mbind result_bind]. rewrite Ho. cbn [mbind result_bind].
    exists s, m, it'. unfold prev_entry. rewrite Hse.
    pose proof (filter_see m (λ k, k < key_ it) (entries s L)) as Hfs. rewrite Hfs, fmap_last. done.
Qed.

Lemma ev_steps_sim s m it M c n es rs :
  it_sim s m it M c n → 0 ≤ n → n + Z.of_nat (length es) ≤ 2 ^ 64 → om_steps M c es = Some rs → ev_steps s m it es = Done rs.
Proof.
  revert s m it M c n rs. induction es as [|e es IH]; intros s m it M c n rs Hsim Hn Hlen Hrs; cbn [om_steps ev_steps length] in *; [congruence|].
  destruct (om_step M c e) as [[[M' c'] r]|] eqn:He; [|done]. cbn in Hrs.
  destruct (om_steps M' c' es) as [rs'|] eqn:Hes; [|done]. injection Hrs as <-.
  destruct (ev_step_sim s m it M c n e M' c' r Hsim) as (s' & m' & it' & -> & Hsim'); [lia|done|]. cbn [mbind result_bind].
  rewrite (IH s' m' it' M' c' (n + 1) rs'); [done|done|lia|lia|done].
Qed.

(** A new tree and a new iterator. *)
Lemma new_it_sim base m : 0 < base → it_sim (ThreadLocalInit (MemstoreBPlusTree_new base)) m Iterator_new ∅ None 0.
Proof. intros Hb. destruct (new_tree_sim base m Hb) as (L & I & Hrel). exists L, I. by split. Qed.

(** C7: the tree with an iterator refines an ordered map with a cursor.  Calls of the
    store (64-bit keys, outside of transactions) and of one iterator, at most [2^64] in
    all and in any order in which [Next] and [Prev] are called on a valid iterator and
    [Get] after a first insertion, run to their end and return
    what the map returns: [Seek] stops at the first key that is not smaller, [Next] at
    the least larger and [Prev] at the greatest smaller key that is in the tree at that
    moment, although leaves were split and entries moved since the iterator read its
    position; a changed [seq] makes it search again, an unchanged one means that the
    position is still right. *)
Theorem iterator_refines_cursor base m es rs :
  0 < base → Z.of_nat (length es) ≤ 2 ^ 64 → om_steps ∅ None es = Some rs →
  ev_steps (ThreadLocalInit (MemstoreBPlusTree_new base)) m Iterator_new es = Done rs.
Proof. intros Hb Hlen Hrs. eapply ev_steps_sim; [by apply new_it_sim|done|lia|done]. Qed.

(** Forty keys, a scan interrupted by insertions behind, before and at the iterator that
    split its leaf, and a walk back. *)
Definition it_demo : list it_event :=
  ((λ i, ECall (OpPut (10 * Z.of_nat i) (Z.of_nat i))) <$> seq 0 40) ++
  [ESeekToFirst; ENext; ESeek 55; ENext] ++
  ((λ i, ECall (OpPut (61 + Z.of_nat i) 7)) <$> seq 0 9) ++ [ENext; ENext; EPrev] ++
  ((λ i, ECall (OpPut (41 + Z.of_nat i) 8)) <$> seq 0 9) ++ [EPrev; EPrev; EPrev; ENext; ESeek 391].

Lemma iterator_refines_cursor_witness :
  ∃ rs, om_steps ∅ None it_demo = Some rs ∧
    ev_steps (ThreadLocalInit (MemstoreBPlusTree_new 1)) ∅ Iterator_new it_demo = Done rs ∧
    last rs = Some (inr None) ∧ rs !! 43%nat = Some (inr (Some (70, 7))).
Proof.
  destruct (om_steps ∅ None it_demo) as [rs|] eqn:Hrs; [|vm_compute in Hrs; discriminate]. exists rs. split_and!; [done| | |].
  - apply (iterator_refines_cursor 1 ∅ it_demo rs); [lia|vm_compute; discriminate|done].
  - assert (Some (inr None) = (om_steps ∅ None it_demo ≫= last)) as -> by (vm_compute; reflexivity). by rewrite Hrs.
  - assert (Some (inr (Some (70, 7))) = (om_steps ∅ None it_demo ≫= (.!! 43%nat))) as -> by (vm_compute; reflexivity). by rewrite Hrs.
Defined.

(** ** [SeekPrev] *)

Lemma bp_calls_ok s m M os s' m' rs :
  it_sim s m Iterator_new M None 0 → Forall op_ok os → bp_calls s m os = Done (s', m', rs) →
  ∃ L I, tree_ok s' L I ∧ bp_rel s' m' (map_calls M os).1 L I.
Proof.
  intros Hsim Hok. revert s m M rs Hsim. induction Hok as [|o os Ho _ IH]; intros s m M rs Hsim Hrun; cbn [bp_calls map_calls] in *.
  - injection Hrun as <- <- _. destruct Hsim as (L & I & Hrel). exists L, I. split; [by eapply it_rel_ok|apply Hrel].
  - destruct Hsim as (L & I & [Hrel _]).
    assert (Hrd : ready M o).
    { destruct o as [k| |]; [|done..]. cbn. intros ->. by rewrite (bp_call_empty _ _ _ _ _ Hrel) in Hrun. }
    destruct (bp_call_rel s m M L I o Hrel Ho Hrd) as (s1 & m1 & L1 & I1 & Hc & Hrel1 & Hst). rewrite Hc in Hrun. cbn in Hrun.
    destruct (bp_calls s1 m1 os) as [[[s2 m2] rs2]| |] eqn:Hcs; [|done..]. cbn in Hrun. injection Hrun as -> -> _.
    destruct (map_call M o) as [M1 r1]. cbn in Hrel1.
    destruct (IH s1 m1 M1 rs2) as (L2 & I2 & H1 & H2); [by exists L1, I1|done|]. exists L2, I2. destruct (map_calls M1 os). done.
Qed.

Lemma values_of_key s m L I k : bp_inv s L I → is_Some (values_of s m L !! k) ↔ k ∈ (entries s L).*1.
Proof.
  intros Hinv. unfold values_of. rewrite lookup_fmap, fmap_is_Some. split.
  - intros [a Ha]. apply (contents_lookup _ _ _ _ _ Hinv), (list_elem_of_fmap_2 fst) in Ha. done.
  - intros ([k' a] & -> & Ha)%list_elem_of_fmap. exists a. by apply (contents_lookup _ _ _ _ _ Hinv).
Qed.

Lemma SeekPrev_spec s L I it key :
  tree_ok s L I → 0 ≤ key < 2 ^ 64 →
  ((∀ k, k ∈ (entries s L).*1 → key ≤ k) → SeekPrev s it key = Crash invalid_access) ∧
  ((∃ k, k ∈ (entries s L).*1 ∧ k < key) →
   ∃ it', SeekPrev s it key = Done it' ∧ (key_ it', value_ it', seq_ it') = (key_ it, value_ it, seq_ it)).
Proof.
  intros Hok Hkey. pose proof (to_inv _ _ _ Hok) as Hinv.
  destruct (find_leaf_spec _ _ _ _ _ _ _ _ key (bi_tree _ _ _ Hinv) Hkey) as (a & l & e & lo & hi & L1 & L2 & Ha & _ & _ & [HL Hl Hlok Hk1 Hlt Hge]).
  destruct (leaf_at _ _ _ _ _ _ Hinv HL) as (l2 & _ & _ & _ & Hl2 & _ & Hnn & Hleft & _). assert (l2 = l) as -> by congruence.
  unfold SeekPrev, FindLeaf. rewrite Ha. cbn [mbind result_bind]. rewrite (leaf_Some _ _ _ Hl). cbn [mbind result_bind].
  destruct (scan_lt_entries _ _ _ _ key Hlok) as (k & -> & Hk & H1 & H2). cbn [mbind result_bind].
  pose proof (length_lentries _ _ _ _ Hlok) as Hlen. pose proof (entries_cut s L1 a L2 l k Hl) as Hcut. rewrite <-HL in Hcut.
  assert (Hbig : ∀ p, p ∈ drop k (lentries l) ++ entries s L2 → key ≤ p.1).
  { intros p [Hp|Hp]%elem_of_app; [by apply H2|]. eapply fst_entries_in in Hp; [|done|rewrite HL; set_solver]. specialize (Hge _ Hp). lia. }
  case_decide as Hk0.
  - subst k. rewrite take_0, app_nil_r in Hcut. rewrite drop_0 in *. destruct L1 as [|b L1 _] using rev_ind.
    + assert (Hn : leaf s (l_left l) = Crash invalid_access).
      { unfold leaf. rewrite Hleft. cbn. destruct (leaves s !! NULL) eqn:E; [|done]. pose proof (bi_leaf_addr _ _ _ Hinv NULL ltac:(eauto)).
        unfold NULL in *. lia. }
      rewrite Hn. split; [done|]. intros (x & (p & -> & Hp)%list_elem_of_fmap & Hx). rewrite Hcut in Hp. specialize (Hbig p Hp). lia.
    + rewrite <-app_assoc in HL. cbn in HL. rewrite last_snoc in Hleft. cbn in Hleft.
      destruct (last_entries _ _ _ _ _ _ _ Hok HL) as (lb & p & Hlb & _ & _ & _ & Hp). rewrite Hleft, (leaf_Some _ _ _ Hlb). cbn [mbind result_bind].
      split; [|intros _; by eexists]. intros Hall. exfalso. apply last_Some_elem_of in Hp.
      eapply (fst_entries_in s L I) in Hp as Hp2; [|done|rewrite HL; set_solver]. specialize (Hlt _ Hp2).
      specialize (Hall p.1). rewrite Hcut in Hall. specialize (Hall ltac:(apply list_elem_of_fmap_2; set_solver)). lia.
  - split; [|intros _; by eexists]. intros Hall. exfalso. destruct (lookup_lt_is_Some_2 (lentries l) 0) as [p Hp]; [lia|].
    assert (Hin : p ∈ take k (lentries l)) by (apply list_elem_of_lookup_2 with 0%nat; rewrite lookup_take_lt by lia; done).
    specialize (H1 _ Hin). specialize (Hall p.1). rewrite Hcut in Hall. specialize (Hall ltac:(apply list_elem_of_fmap_2; set_solver)). lia.
Qed.

(** What [SeekPrev] does.  On any tree the calls of the store can make, with a target
    that no key of the tree is below it follows the null left pointer of the first leaf;
    with a target above some key it sets the leaf, but leaves the iterator's key, value
    and [seq] as they were, so [Key] and [CurNode] do not show the entry it looked for. *)
Theorem seek_prev_sets_no_position base m os s m' rs it key :
  0 < base → Forall op_ok os → bp_calls (ThreadLocalInit (MemstoreBPlusTree_new base)) m os = Done (s, m', rs) →
  0 ≤ key < 2 ^ 64 →
  ((∀ k, is_Some ((map_calls ∅ os).1 !! k) → key ≤ k) → SeekPrev s it key = Crash invalid_access) ∧
  ((∃ k, is_Some ((map_calls ∅ os).1 !! k) ∧ k < key) →
   ∃ it', SeekPrev s it key = Done it' ∧ (Key it', value_ it', seq_ it') = (Key it, value_ it, seq_ it)).
Proof.
  intros Hb Hok Hrun Hkey. destruct (bp_calls_ok _ _ _ _ _ _ _ (new_it_sim base m Hb) Hok Hrun) as (L & I & Hto & [[Hinv _] _ HM]).
  destruct (SeekPrev_spec s L I it key Hto Hkey) as [H1 H2]. rewrite <-HM. split.
  - intros Hall. apply H1. intros k Hk. by apply Hall, (values_of_key s m' L I).
  - intros (k & Hk & Hlt). apply H2. exists k. split; [|done]. by apply (values_of_key s m' L I) in Hk.
Qed.

Definition prev_demo : list bp_op := [OpPut 10 1; OpPut 20 2; OpPut 30 3].

Lemma seek_prev_sets_no_position_witness :
  ∃ s m' rs, bp_calls (ThreadLocalInit (MemstoreBPlusTree_new 1)) ∅ prev_demo = Done (s, m', rs) ∧
    SeekPrev s Iterator_new 10 = Crash invalid_access ∧
    ∃ it', SeekPrev s Iterator_new 25 = Done it' ∧ Key it' = 0.
Proof.
  destruct (bp_calls (ThreadLocalInit (MemstoreBPlusTree_new 1)) ∅ prev_demo) as [[[s m'] rs]| |] eqn:Hrun;
    [|exfalso; vm_compute in Hrun; discriminate..].
  assert (Hok : Forall op_ok prev_demo) by (apply (bool_decide_unpack _); vm_compute; exact I).
  assert (HM : (map_calls ∅ prev_demo).1 = {[10 := 1; 20 := 2; 30 := 3]}) by (vm_compute; reflexivity).
  exists s, m', rs. split_and!; [done| |].
  - apply (seek_prev_sets_no_position 1 ∅ prev_demo s m' rs Iterator_new 10 ltac:(lia) Hok Hrun ltac:(lia)). rewrite HM.
    intros k Hk. destruct (decide (10 ≤ k)); [done|]. rewrite !lookup_insert_ne, lookup_singleton_ne in Hk by lia. by destruct Hk.
  - destruct (proj2 (seek_prev_sets_no_position 1 ∅ prev_demo s m' rs Iterator_new 25 ltac:(lia) Hok Hrun ltac:(lia))) as (it' & Hit & Heq).
    + exists 10. rewrite HM. split; [|lia]. vm_compute. eauto.
    + exists it'. split; [done|]. by injection Heq as -> _ _.
Defined.
