(* ===== verification/RadMem.v ===== *)
(** * Value buffers and version chains of DBRad

    The memory layer under src/drtm-dst/src/db/txs/dbrad.cc.  A value buffer is a
    [_RadValHeader] (pointer to the previous version, version of this buffer)
    followed by the payload.  The header of a buffer is written only when the
    buffer is replaced, so the header of a current value is uninitialised memory.

    The second half gives the abstract reading: a record is a current version and
    a list of older ones, [install] adds a version in front and [get_helper] is a
    lookup of the newest version not above a timestamp. *)

From S2P Require Import Prelude Memstore.

(** ** Memory *)

(** [struct _RadValHeader] *)
Record RadValHeader := mkHdr { oldValue : Z; version : Z }.

(** A malloc'ed buffer: header (None until first written) and payload bytes. *)
Record RadBuf := mkBuf { b_hdr : option RadValHeader; b_data : list Z }.

Record Heap := mkHeap {
  nodes : NodeMem;
  bufs : gmap Z RadBuf;
  brk : Z;  (** next address the allocator hands out *)
}.

Definition upd_nodes (h : Heap) (f : NodeMem → NodeMem) : Heap :=
  mkHeap (f (nodes h)) (bufs h) (brk h).

Definition node (h : Heap) (a : Z) : MemNode := node_at (nodes h) a.
Definition set_node (h : Heap) (a : Z) (f : MemNode → MemNode) : Heap :=
  upd_nodes h (λ m, upd_node m a f).

(** [malloc(len + RAD_META_LEN)] followed by the [memcpy] of the payload. *)
Definition malloc (h : Heap) (data : list Z) : Heap * Z :=
  (mkHeap (nodes h) (<[brk h := mkBuf None data]> (bufs h)) (brk h + 1), brk h).

(** [free(p)]: the null pointer is ignored, a dead pointer is undefined. *)
Definition free (h : Heap) (p : Z) : result Heap :=
  if decide (p = NULL) then Done h
  else match bufs h !! p with
       | Some _ => Done (mkHeap (nodes h) (delete p (bufs h)) (brk h))
       | None => Crash invalid_access
       end.

Definition load (h : Heap) (p : Z) : result RadBuf :=
  match bufs h !! p with Some b => Done b | None => Crash invalid_access end.

(** [memcpy(dst, p + RAD_META_LEN, len)] *)
Definition copy_payload (b : RadBuf) (len : nat) : result (list Z) :=
  if decide (len ≤ length (b_data b))%nat then Done (take len (b_data b))
  else Crash invalid_access.

(** ** Installing a version

    The body of the loops of [WriteSet::CommitLocalWrite] and of
    [DBRad::commit_rpc_handler2]: the sequence number is set to 1 while the
    pointers move, the replaced buffer gets its header, the new buffer becomes
    the value, and storing the commit timestamp and clearing the lock publish it.
    [ver] is the version recorded for the replaced buffer. *)

Definition write_header (h : Heap) (p : Z) (hd : RadValHeader) : result Heap :=
  b ← load h p;
  Done (mkHeap (nodes h) (<[p := mkBuf (Some hd) (b_data b)]> (bufs h)) (brk h)).

Definition install (h : Heap) (a ver addr commit_ts : Z) : result Heap :=
  let h := set_node h a (set_seq 1) in
  let cur := n_value (node h a) in
  let oldptr := n_old_value (node h a) in
  h ← (if decide (cur ≠ NULL) then write_header h cur (mkHdr oldptr ver) else Done h);
  let h := set_node h a (set_old_value cur) in
  let h := set_node h a (set_value addr) in
  let h := set_node h a (set_seq commit_ts) in
  Done (set_node h a (set_lock 0)).

(** ** Reading at a timestamp *)

(** The loop over the list of replaced versions:
    [while(old_val != NULL && rh->version > version)]. *)
Fixpoint chase (fuel : nat) (h : Heap) (old_val ver : Z) : result (option (Z * RadBuf)) :=
  match fuel with
  | O => Spin
  | S fuel =>
      if decide (old_val = NULL) then Done None
      else
        b ← load h old_val;
        match b_hdr b with
        | None => Crash uninitialised
        | Some rh =>
            if decide (version rh > ver) then chase fuel h (oldValue rh) ver
            else Done (Some (version rh, b))
        end
  end.

Definition chase_fuel (h : Heap) : nat := S (size (bufs h)).

(** [DBRad::_get_helper].  [RC] is the preprocessor constant of dbrad.cc: when it
    is set the test [seq <= version] is compiled to [if(1)].  The result is the
    returned number, 1 when no version is visible, and the bytes copied out. *)
Definition get_helper (RC : bool) (h : Heap) (a ver : Z) (vlen : nat) : result (Z * option (list Z)) :=
  let seq := n_seq (node h a) in
  if decide (RC = true ∨ seq ≤ ver) then
    let tmpVal := n_value (node h a) in
    if decide (tmpVal ≠ NULL) then
      if decide (seq = 1) then Spin
      else
        b ← load h tmpVal;
        val ← copy_payload b vlen;
        Done (seq, Some val)
    else Done (1, None)
  else
    let old_val := n_old_value (node h a) in
    if decide (seq = 1) then Spin
    else
      r ← chase (chase_fuel h) h old_val ver;
      match r with
      | None => Done (1, None)
      | Some (s, b) => val ← copy_payload b vlen; Done (s, Some val)
      end.

(** ** Node frame lemmas *)

Lemma node_set_eq h a f : node (set_node h a f) a = f (node h a).
Proof. apply node_at_upd_eq. Qed.

Lemma node_set_ne h a b f : a ≠ b → node (set_node h a f) b = node h b.
Proof. apply node_at_upd_ne. Qed.

Lemma node_set h a b f :
  node (set_node h a f) b = if decide (a = b) then f (node h b) else node h b.
Proof. apply node_at_upd. Qed.

#[export] Hint Rewrite node_set_eq : dst.
#[export] Hint Rewrite node_set_ne using congruence : dst.

(** What [install] does to memory, in closed form. *)
Definition installed (h : Heap) (a ver addr commit_ts : Z) : Heap :=
  let n := node h a in
  mkHeap
    (upd_node (nodes h) a (λ n,
       mkMemNode 0 commit_ts addr (n_value n) (n_off n) (n_read_lock n) (n_read_ts n)))
    (if decide (n_value n = NULL) then bufs h
     else <[n_value n :=
              mkBuf (Some (mkHdr (n_old_value n) ver))
                (default [] (b_data <$> bufs h !! n_value n))]> (bufs h))
    (brk h).

Lemma install_eq h a ver addr ts :
  (n_value (node h a) ≠ NULL → is_Some (bufs h !! n_value (node h a))) →
  install h a ver addr ts = Done (installed h a ver addr ts).
Proof.
  intros Hv. unfold install, installed. rewrite node_set_eq. cbn [n_value n_old_value set_seq].
  unfold write_header, load. cbn [bufs set_node upd_nodes].
  case_decide as Hd.
  - destruct (Hv Hd) as [b Hb]. rewrite Hb. cbn. rewrite decide_False by done. cbn.
    unfold set_node, upd_nodes; cbn. rewrite !upd_node_upd. done.
  - rewrite (decide_True (P := n_value (node h a) = NULL)) by lia. cbn.
    unfold set_node, upd_nodes; cbn. rewrite !upd_node_upd. done.
Qed.

(** ** The abstract record: a current version and the older ones *)

Record VRecord := mkVRec {
  v_seq : Z;                        (** version of the current value *)
  v_cur : option (list Z);          (** None: never written, or deleted *)
  v_hist : list (Z * list Z);       (** older versions, newest first *)
}.

(** Installing [new] at [ts].  A deletion marker ([v_cur = None]) has no buffer
    that could carry the link, so a write on top of one starts a new history. *)
Definition abs_install (ts : Z) (new : option (list Z)) (r : VRecord) : VRecord :=
  mkVRec ts new (match v_cur r with Some c => (v_seq r, c) :: v_hist r | None => [] end).

Fixpoint abs_find (ver : Z) (l : list (Z * list Z)) : option (Z * list Z) :=
  match l with
  | [] => None
  | (v, d) :: l => if decide (v > ver) then abs_find ver l else Some (v, d)
  end.

(** The newest version not above [ver]. *)
Definition abs_read (ver : Z) (r : VRecord) : option (Z * list Z) :=
  if decide (v_seq r ≤ ver) then (λ d, (v_seq r, d)) <$> v_cur r else abs_find ver (v_hist r).

(** Versions strictly decrease along the list. *)
Definition sorted_versions (r : VRecord) : Prop :=
  StronglySorted Z.gt (v_seq r :: (v_hist r).*1).

Lemma abs_install_sorted ts new r :
  sorted_versions r → v_seq r < ts → sorted_versions (abs_install ts new r).
Proof.
  intros Hs Hlt. unfold sorted_versions, abs_install in *. destruct r as [s [c|] hist]; cbn in *.
  - constructor; [done|]. constructor; [lia|].
    apply StronglySorted_inv in Hs as [_ Hs]. eapply Forall_impl; [done|]. intros; lia.
  - repeat constructor.
Qed.

(** A reader below the new version does not see it. *)
Lemma abs_read_install_old ver ts new r :
  ver < ts → v_cur r ≠ None ∨ v_seq r ≤ ver →
  abs_read ver (abs_install ts new r) = abs_read ver r.
Proof.
  intros Hlt Hc. unfold abs_read, abs_install. cbn. rewrite decide_False by lia.
  destruct (v_cur r) as [c|]; cbn.
  - repeat case_decide; try lia; done.
  - destruct Hc; [done|]. by rewrite decide_True.
Qed.

Lemma abs_read_install_new ver ts new r :
  ts ≤ ver → abs_read ver (abs_install ts new r) = (λ d, (ts, d)) <$> new.
Proof. intros. unfold abs_read, abs_install. cbn. by rewrite decide_True. Qed.

(** The version found is the newest one at or below the timestamp. *)
Lemma abs_find_newest ver l v d :
  StronglySorted Z.gt l.*1 → abs_find ver l = Some (v, d) →
  (v, d) ∈ l ∧ v ≤ ver ∧ ∀ v' d', (v', d') ∈ l → v' ≤ ver → v' ≤ v.
Proof.
  induction l as [|[v0 d0] l IH]; cbn; intros Hs Hf; [done|].
  apply StronglySorted_inv in Hs as [Hs Hall]. case_decide as Hd.
  - destruct (IH Hs Hf) as (Hin & Hle & Hmax).
    split_and!; [by right|done|]. intros v' d' [Heq|Hin']%elem_of_cons Hv'; [|by eauto].
    simplify_eq. lia.
  - simplify_eq. split_and!; [by left|lia|].
    intros v' d' [Heq|Hin']%elem_of_cons Hv'; [by simplify_eq|].
    rewrite Forall_forall in Hall. apply (list_elem_of_fmap_2 fst) in Hin'.
    specialize (Hall _ Hin'). cbn in Hall. lia.
Qed.

(** ** Representation *)

(** [chain h p ps l]: the list of replaced buffers that starts at [p] has the
    addresses [ps] and the contents [l]. *)
Inductive chain (bs : gmap Z RadBuf) : Z → list Z → list (Z * list Z) → Prop :=
  | chain_nil : chain bs NULL [] []
  | chain_cons p q v d ps l :
      p ≠ NULL → bs !! p = Some (mkBuf (Some (mkHdr q v)) d) →
      chain bs q ps l → chain bs p (p :: ps) ((v, d) :: l).

(** The current value: its buffers and payload. *)
Inductive current (bs : gmap Z RadBuf) : Z → list Z → option (list Z) → Prop :=
  | current_null : current bs NULL [] None
  | current_buf p b : p ≠ NULL → bs !! p = Some b → current bs p [p] (Some (b_data b)).

Record node_rep (h : Heap) (a : Z) (cs ps : list Z) (r : VRecord) : Prop := {
  nr_seq : n_seq (node h a) = v_seq r;
  nr_cur : current (bufs h) (n_value (node h a)) cs (v_cur r);
  nr_hist : chain (bufs h) (n_old_value (node h a)) ps (v_hist r);
}.

(** The whole heap: every node represents its record, and no buffer is part of
    two records or twice of one. *)
Record heap_rep (h : Heap) (cs ps : Z → list Z) (r : Z → VRecord) : Prop := {
  hr_node a : node_rep h a (cs a) (ps a) (r a);
  hr_nodup a : NoDup (cs a ++ ps a);
  hr_disj a b p : p ∈ cs a ++ ps a → p ∈ cs b ++ ps b → a = b;
}.

Lemma chain_frame bs bs' p ps l :
  (∀ q, q ∈ ps → bs' !! q = bs !! q) → chain bs p ps l → chain bs' p ps l.
Proof.
  intros Hf Hc. induction Hc as [|p q v d ps l Hp Hb _ IH]; [constructor|].
  econstructor; [done| |].
  - rewrite Hf; [done|by left].
  - apply IH. intros q' Hq. apply Hf. by right.
Qed.

Lemma current_frame bs bs' p ps c :
  (∀ q, q ∈ ps → bs' !! q = bs !! q) → current bs p ps c → current bs' p ps c.
Proof.
  intros Hf Hc. revert Hf. destruct Hc as [|p b Hp Hb]; intros Hf; constructor; [done|].
  rewrite Hf; [done|by left].
Qed.

Lemma chain_live bs p ps l q : chain bs p ps l → q ∈ ps → is_Some (bs !! q).
Proof. induction 1; [by intros ?%not_elem_of_nil|]. intros [->|]%elem_of_cons; eauto. Qed.

Lemma current_live bs p ps c q : current bs p ps c → q ∈ ps → is_Some (bs !! q).
Proof. destruct 1; [by intros ?%not_elem_of_nil|]. intros ->%list_elem_of_singleton; eauto. Qed.

Lemma heap_rep_live h cs ps r a q : heap_rep h cs ps r → q ∈ cs a ++ ps a → is_Some (bufs h !! q).
Proof.
  intros Hr [Hq|Hq]%elem_of_app; pose proof (hr_node _ _ _ _ Hr a) as Hn.
  - eapply current_live; [apply Hn|done].
  - eapply chain_live; [apply Hn|done].
Qed.

Lemma heap_rep_value_live h cs ps r a :
  heap_rep h cs ps r → n_value (node h a) ≠ NULL → is_Some (bufs h !! n_value (node h a)).
Proof.
  intros Hr Hv. pose proof (nr_cur _ _ _ _ _ (hr_node _ _ _ _ Hr a)) as Hc.
  revert Hv. destruct Hc; [done|eauto].
Qed.

(** ** Refinement *)

(** [get_helper] without [RC] reads the abstract record at the timestamp. *)
Lemma chase_find fuel h p ps l ver :
  chain (bufs h) p ps l → (length ps < fuel)%nat →
  match chase fuel h p ver with
  | Done None => abs_find ver l = None
  | Done (Some (v, b)) => abs_find ver l = Some (v, b_data b)
  | _ => False
  end.
Proof.
  intros Hc. revert fuel. induction Hc as [|p q v d ps l Hp Hb _ IH]; intros [|fuel] Hf; cbn in *; try lia.
  - done.
  - rewrite decide_False by done. unfold load. rewrite Hb. cbn.
    case_decide; [|done]. apply IH. lia.
Qed.

Lemma chain_size bs p ps l : chain bs p ps l → NoDup ps → (length ps ≤ size bs)%nat.
Proof.
  intros Hc Hnd. rewrite <-(size_list_to_set (C := gset Z)) by done.
  rewrite <-size_dom. apply subseteq_size. intros q Hq%elem_of_list_to_set.
  apply elem_of_dom. by eapply chain_live.
Qed.

Lemma get_helper_reads h cs ps r a ver vlen :
  heap_rep h cs ps r → n_seq (node h a) ≠ 1 →
  (∀ v d, abs_read ver (r a) = Some (v, d) → (vlen ≤ length d)%nat) →
  get_helper false h a ver vlen =
  Done match abs_read ver (r a) with
       | Some (v, d) => (v, Some (take vlen d))
       | None => (1, None)
       end.
Proof.
  intros Hr Hs1 Hlen. pose proof (hr_node _ _ _ _ Hr a) as [Hseq Hcur Hhist].
  unfold get_helper, abs_read in *. rewrite Hseq in *. case_decide as Hle.
  - rewrite decide_True in * by naive_solver.
    revert Hlen. destruct Hcur as [|p b Hp Hb]; intros Hlen; [done|].
    rewrite decide_True, decide_False by done.
    unfold load. rewrite Hb. cbn. unfold copy_payload.
    rewrite decide_True; [done|]. by eapply Hlen.
  - rewrite decide_False by naive_solver. rewrite decide_False by done.
    assert (Hsz : (length (ps a) < chase_fuel h)%nat).
    { pose proof (hr_nodup _ _ _ _ Hr a) as (_ & _ & Hnd)%NoDup_app.
      pose proof (chain_size _ _ _ _ Hhist Hnd). unfold chase_fuel. lia. }
    pose proof (chase_find _ _ _ _ _ ver Hhist Hsz) as Hf.
    destruct (chase _ _ _ _) as [[[v b]|]| |]; try done; cbn; rewrite Hf in *; [|done].
    unfold copy_payload. rewrite decide_True; [done|]. by eapply Hlen.
Qed.

(** Ghost state after an installation: the replaced buffer joins the history. *)
Definition install_cs (cs : Z → list Z) (a addr : Z) : Z → list Z :=
  <[a := if decide (addr = NULL) then [] else [addr]]> cs.
Definition install_ps (cs ps : Z → list Z) (a : Z) : Z → list Z :=
  <[a := match cs a with [] => [] | _ => cs a ++ ps a end]> ps.

(** A buffer that can be installed: no node refers to it. *)
Definition fresh_buf (h : Heap) (cs ps : Z → list Z) (addr : Z) (new : option (list Z)) : Prop :=
  match new with
  | None => addr = NULL
  | Some d => addr ≠ NULL ∧ (∃ b, bufs h !! addr = Some b ∧ b_data b = d) ∧
              ∀ b, addr ∉ cs b ++ ps b
  end.

Lemma node_installed_eq h a ver addr ts :
  node (installed h a ver addr ts) a =
  mkMemNode 0 ts addr (n_value (node h a)) (n_off (node h a))
    (n_read_lock (node h a)) (n_read_ts (node h a)).
Proof. unfold node, installed; cbn. by rewrite node_at_upd_eq. Qed.

Lemma node_installed_ne h a b ver addr ts :
  a ≠ b → node (installed h a ver addr ts) b = node h b.
Proof. intros. unfold node, installed; cbn. by rewrite node_at_upd_ne. Qed.

Lemma bufs_installed_ne h a ver addr ts q :
  q ≠ n_value (node h a) → bufs (installed h a ver addr ts) !! q = bufs h !! q.
Proof.
  intros. unfold installed; cbn. case_decide; [done|]. by rewrite lookup_insert_ne.
Qed.

Lemma current_value_in bs p cs c : current bs p cs c → p ≠ NULL → p ∈ cs.
Proof. destruct 1; [done|]. intros. by left. Qed.

Lemma install_node_rep h cs ps r a addr ts new :
  heap_rep h cs ps r → fresh_buf h cs ps addr new →
  node_rep (installed h a (v_seq (r a)) addr ts) a
    (install_cs cs a addr a) (install_ps cs ps a a) (abs_install ts new (r a)).
Proof.
  intros Hr Hfr. pose proof (hr_node _ _ _ _ Hr a) as [Hseq Hcur Hhist].
  pose proof (hr_nodup _ _ _ _ Hr a) as Hnd.
  unfold install_cs, install_ps. rewrite !fn_lookup_insert.
  split; rewrite node_installed_eq; cbn [n_seq n_value n_old_value].
  - done.
  - destruct new as [d|]; cbn in Hfr; cbn [v_cur abs_install].
    + destruct Hfr as (Hnn & (b & Hb & <-) & Hnot). rewrite decide_False by done.
      constructor; [done|]. rewrite bufs_installed_ne; [done|].
      intros ->. apply (Hnot a). apply elem_of_app. left. by eapply current_value_in.
    + subst. rewrite decide_True by done. constructor.
  - cbn [v_hist abs_install]. unfold installed; cbn.
    destruct Hcur as [|p b Hp Hb]; [constructor|].
    rewrite decide_False by done. rewrite Hb. cbn. econstructor; [done|apply lookup_insert_eq|].
    cbn in Hnd. apply NoDup_cons in Hnd as [Hnin _].
    eapply chain_frame; [|done]. intros q Hq. apply lookup_insert_ne. set_solver.
Qed.

Lemma install_other_rep h cs ps r a b ver addr ts :
  heap_rep h cs ps r → a ≠ b →
  node_rep (installed h a ver addr ts) b (cs b) (ps b) (r b).
Proof.
  intros Hr Hne. pose proof (hr_node _ _ _ _ Hr b) as [Hseq Hcur Hhist].
  assert (Hfr : ∀ q, q ∈ cs b ++ ps b → bufs (installed h a ver addr ts) !! q = bufs h !! q).
  { intros q Hq. unfold installed; cbn. case_decide as Hv; [done|]. apply lookup_insert_ne.
    intros <-. apply Hne. eapply (hr_disj _ _ _ _ Hr); [|done].
    apply elem_of_app; left. eapply current_value_in; [apply (hr_node _ _ _ _ Hr a)|done]. }
  split; rewrite node_installed_ne by done; [done| |].
  - eapply current_frame; [|done]. intros q Hq. apply Hfr, elem_of_app. by left.
  - eapply chain_frame; [|done]. intros q Hq. apply Hfr, elem_of_app. by right.
Qed.

(** Every buffer of a node after the installation is the new one or was the node's. *)
Lemma install_ptrs h cs ps r a addr new b p :
  heap_rep h cs ps r → fresh_buf h cs ps addr new →
  p ∈ install_cs cs a addr b ++ install_ps cs ps a b →
  (b = a ∧ p = addr ∧ addr ≠ NULL) ∨ p ∈ cs b ++ ps b.
Proof.
  intros Hr Hfr. unfold install_cs, install_ps. destruct (decide (a = b)) as [<-|Hne].
  - rewrite !fn_lookup_insert. intros [Hp|Hp]%elem_of_app.
    + case_decide; [by apply not_elem_of_nil in Hp|].
      apply list_elem_of_singleton in Hp as ->. by left.
    + right. destruct (cs a); [by apply not_elem_of_nil in Hp|done].
  - rewrite !fn_lookup_insert_ne by done. by right.
Qed.

Theorem install_rep h cs ps r a addr ts new :
  heap_rep h cs ps r → fresh_buf h cs ps addr new →
  heap_rep (installed h a (v_seq (r a)) addr ts)
    (install_cs cs a addr) (install_ps cs ps a) (<[a := abs_install ts new (r a)]> r).
Proof.
  intros Hr Hfr.
  assert (Hnot : addr ≠ NULL → ∀ b, addr ∉ cs b ++ ps b).
  { destruct new; cbn in Hfr; [by destruct Hfr as (_ & _ & ?)|]. by subst. }
  split.
  - intros b. destruct (decide (a = b)) as [<-|Hne].
    + rewrite fn_lookup_insert. by apply install_node_rep.
    + rewrite fn_lookup_insert_ne by done. unfold install_cs, install_ps.
      rewrite !fn_lookup_insert_ne by done. by apply install_other_rep.
  - intros b. unfold install_cs, install_ps. destruct (decide (a = b)) as [<-|Hne].
    + rewrite !fn_lookup_insert. pose proof (hr_nodup _ _ _ _ Hr a) as Hnd.
      assert (NoDup (match cs a with [] => [] | _ => cs a ++ ps a end))
        by (destruct (cs a); [constructor|done]).
      case_decide; cbn; [done|]. constructor; [|done].
      intros Hin. apply (Hnot ltac:(done) a). by destruct (cs a); [apply not_elem_of_nil in Hin|].
    + rewrite !fn_lookup_insert_ne by done. apply Hr.
  - intros b c p Hb Hc.
    apply (install_ptrs _ _ _ _ _ _ _ _ _ Hr Hfr) in Hb as [(-> & -> & Hn)|Hb],
      Hc as [(Hca & Hcp & Hn')|Hc]; [done| | |].
    + by destruct (Hnot Hn c).
    + subst. by destruct (Hnot Hn' b).
    + by eapply (hr_disj _ _ _ _ Hr).
Qed.

(** Changes that do not touch value pointers, versions or buffers keep the
    representation: locking, releasing, recording a read timestamp. *)
Definition same_versions (n n' : MemNode) : Prop :=
  n_seq n' = n_seq n ∧ n_value n' = n_value n ∧ n_old_value n' = n_old_value n.

Lemma heap_rep_same_versions h h' cs ps r :
  bufs h' = bufs h → (∀ a, same_versions (node h a) (node h' a)) →
  heap_rep h cs ps r → heap_rep h' cs ps r.
Proof.
  intros Hb Hn Hr. split; [|apply Hr..]. intros a. destruct (Hn a) as (H1 & H2 & H3).
  destruct (hr_node _ _ _ _ Hr a) as [Hs Hc Hh].
  split; rewrite ?Hb, ?H1, ?H2, ?H3; done.
Qed.

(** Allocating a buffer no node refers to. *)
Definition brk_above (h : Heap) : Prop :=
  0 < brk h ∧ (∀ p, is_Some (bufs h !! p) → p < brk h).

Lemma malloc_rep h cs ps r data :
  heap_rep h cs ps r → brk_above h →
  heap_rep (malloc h data).1 cs ps r ∧ brk_above (malloc h data).1 ∧
  fresh_buf (malloc h data).1 cs ps (malloc h data).2 (Some data).
Proof.
  intros Hr [Hpos Hb].
  assert (Hnew : ∀ b, brk h ∉ cs b ++ ps b).
  { intros b Hin. eapply heap_rep_live in Hin; [|done]. apply Hb in Hin. lia. }
  split_and!.
  - split; [|apply Hr..]. intros a. destruct (hr_node _ _ _ _ Hr a) as [Hs Hc Hh].
    split; [done| |].
    + eapply current_frame; [|done]. intros q Hq. cbn. apply lookup_insert_ne.
      intros <-. apply (Hnew a), elem_of_app. by left.
    + eapply chain_frame; [|done]. intros q Hq. cbn. apply lookup_insert_ne.
      intros <-. apply (Hnew a), elem_of_app. by right.
  - split; cbn; [lia|]. intros p Hp. destruct (decide (p = brk h)) as [->|]; [lia|].
    rewrite lookup_insert_ne in Hp by done. apply Hb in Hp. lia.
  - cbn. split_and!; [unfold NULL; lia| |done]. eexists. by rewrite lookup_insert_eq.
Qed.
