(* ===== verification/DBRad.v ===== *)
(** * DBRad: the transaction layer with distributed timestamps, local part

    Models src/drtm-dst/src/db/txs/dbrad.cc: the read-write set, the operations
    that fill it, and the local half of the commit protocol (lock and validate,
    install, release).  A transaction object is [DBRad], the state of one server
    is [World] (tables, node and buffer memory, partition id).

    Configuration of the checked-in build: [RC] = 1, [TX_NAIVE] = 0, [LONG_KEY] = 1,
    [NO_EXE_ABORT] = 0, [RECORD_STALE] and [USE_LOGGER] off.  [RC] is kept as an
    argument of the read-only path because it switches timestamped reads off. *)

From S2P Require Import Prelude LockWord Memstore RadMem.

Definition MAX_SIZE : nat := 1024.

(** ** Data *)

Record WriteSetItem := mkItem {
  it_tableid : Z;
  it_key : Z;
  it_len : nat;
  it_node : Z;
  it_addr : Z;
  it_seq : Z;
  it_ro : bool;
}.

(** [kvs[0 .. elems-1]] and [current], the index of the last item locked. *)
Record WriteSet := mkWS { kvs : list WriteSetItem; ws_current : Z }.

Record DBRad := mkTx {
  rwset : WriteSet;
  timestamp : Z;
  thread_id : Z;
  cor_id_ : Z;
  abort_ : bool;
}.

Record World (St : Type) := mkWorld {
  stores_ : gmap Z St;
  indexs_ : gmap Z St;
  vlens : gmap Z nat;
  klens : gmap Z nat;
  heap : Heap;
  current_partition : Z;
}.
Arguments mkWorld {St}.
Arguments stores_ {St}.
Arguments indexs_ {St}.
Arguments vlens {St}.
Arguments klens {St}.
Arguments heap {St}.
Arguments current_partition {St}.

Definition set_rwset (tx : DBRad) (ws : WriteSet) : DBRad :=
  mkTx ws (timestamp tx) (thread_id tx) (cor_id_ tx) (abort_ tx).
Definition set_timestamp (tx : DBRad) (ts : Z) : DBRad :=
  mkTx (rwset tx) ts (thread_id tx) (cor_id_ tx) (abort_ tx).

Definition set_ro (b : bool) (it : WriteSetItem) : WriteSetItem :=
  mkItem (it_tableid it) (it_key it) (it_len it) (it_node it) (it_addr it) (it_seq it) b.
Definition set_deleted (it : WriteSetItem) : WriteSetItem :=
  mkItem (it_tableid it) (it_key it) 0 (it_node it) NULL (it_seq it) false.

(** The word this transaction writes into the locks it takes. *)
Definition lock_word (part : Z) (tx : DBRad) : Z :=
  ENCODE_LOCK_CONTENT part (thread_id tx) (cor_id_ tx + 1).

(** ** [WriteSet] *)

Definition WriteSet_Reset : WriteSet := mkWS [] (-1).

Definition WriteSet_Add (ws : WriteSet) (it : WriteSetItem) : result WriteSet :=
  _ ← verify (bool_decide (length (kvs ws) ≠ MAX_SIZE));
  Done (mkWS (kvs ws ++ [it]) (ws_current ws)).

(** [WriteSet::LockAllSet]: the loop from item [i] on.  The result is the returned
    flag, the memory, [current] and [max_ts]. *)
Fixpoint lock_loop (word : Z) (items : list WriteSetItem) (i : Z) (h : Heap) (cur max_ts : Z)
  : bool * Heap * Z * Z :=
  match items with
  | [] => (true, h, cur, max_ts)
  | it :: items =>
      if it_ro it then lock_loop word items (i + 1) h cur max_ts
      else if decide (n_lock (node h (it_node it)) ≠ 0) then (false, h, cur, max_ts)
      else
        let h := set_node h (it_node it) (set_lock word) in
        let cur := i in
        if decide (n_seq (node h (it_node it)) ≠ it_seq it) then (false, h, cur, max_ts)
        else lock_loop word items (i + 1) h cur (MAX (n_read_ts (node h (it_node it))) max_ts)
  end.

Definition LockAllSet (word : Z) (ws : WriteSet) (h : Heap) (tentative_timestamp : Z)
  : bool * Heap * WriteSet * Z :=
  let '(ok, h, cur, max_ts) := lock_loop word (kvs ws) 0 h (ws_current ws) tentative_timestamp in
  (ok, h, mkWS (kvs ws) cur, if ok then u64 (max_ts + 1) else tentative_timestamp).

(** [WriteSet::ReleaseAllSet]: items 0 to [current]. *)
Definition release_item (h : Heap) (it : WriteSetItem) : result Heap :=
  h ← free h (it_addr it);
  if it_ro it then Done h else Done (set_node h (it_node it) (set_lock 0)).

Definition ReleaseAllSet (ws : WriteSet) (h : Heap) : result Heap :=
  for_each release_item (take (Z.to_nat (ws_current ws + 1)) (kvs ws)) h.

(** [WriteSet::CommitLocalWrite] *)
Definition commit_item (commit_ts : Z) (h : Heap) (it : WriteSetItem) : result Heap :=
  if it_ro it then Done h else install h (it_node it) (it_seq it) (it_addr it) commit_ts.

Definition CommitLocalWrite (ws : WriteSet) (h : Heap) (commit_ts : Z) : result Heap :=
  for_each (commit_item commit_ts) (kvs ws) h.

(** ** Clock *)

(** [DBRad::get_timestamp]: milliseconds since the epoch, shifted by 12 bits of
    a signed 64-bit integer. *)
Definition get_timestamp (now_ms : Z) : result Z :=
  let ts := i64 (Z.shiftl now_ms 12) in
  _ ← verify (bool_decide (Z.shiftr ts 12 = now_ms));
  Done (u64 ts).

(** [DBRad::_begin] and [DBRad::local_ro_begin], up to the remote set. *)
Definition begin_ (tx : DBRad) (now_ms : Z) : result DBRad :=
  ts ← get_timestamp now_ms;
  Done (mkTx WriteSet_Reset ts (thread_id tx) (cor_id_ tx) false).

(** ** Operations of a transaction *)

Section ops.
Context {St : Type} `{!Memstore St}.
Implicit Types (w : World St) (tx : DBRad).

Definition set_heap (w : World St) (h : Heap) : World St :=
  mkWorld (stores_ w) (indexs_ w) (vlens w) (klens w) h (current_partition w).

(** [txdb_->stores_[tableid]->GetWithInsert(key)] *)
Definition store_node (w : World St) (tableid key : Z) : result (World St * Z) :=
  match stores_ w !! tableid with
  | None => Crash invalid_access
  | Some s =>
      '(s', m', a) ← GetWithInsert s (nodes (heap w)) key;
      Done (mkWorld (<[tableid := s']> (stores_ w)) (indexs_ w) (vlens w) (klens w)
              (upd_nodes (heap w) (λ _, m')) (current_partition w), a)
  end.

(** [txdb_->_indexs[tableid]->GetWithInsert(key)] *)
Definition index_node (w : World St) (tableid key : Z) : result (World St * Z) :=
  match indexs_ w !! tableid with
  | None => Crash invalid_access
  | Some s =>
      '(s', m', a) ← GetWithInsert s (nodes (heap w)) key;
      Done (mkWorld (stores_ w) (<[tableid := s']> (indexs_ w)) (vlens w) (klens w)
              (upd_nodes (heap w) (λ _, m')) (current_partition w), a)
  end.

Definition vlen (w : World St) (tableid : Z) : result nat :=
  match vlens w !! tableid with Some n => Done n | None => Crash invalid_access end.

(** Write the payload of an allocated buffer. *)
Definition fill (h : Heap) (p : Z) (data : list Z) : Heap :=
  mkHeap (nodes h) (<[p := mkBuf None data]> (bufs h)) (brk h).

(** [DBRad::get]: allocate the transaction's copy, find the node, copy the value
    out (retrying while [seq] is 1), add a read-only item and raise the
    transaction's timestamp to the version read. *)
Definition get (w : World St) (tx : DBRad) (tableid key : Z) (len : nat)
  : result (World St * DBRad * Z) :=
  let '(h, _addr) := malloc (heap w) [] in
  '(w, a) ← store_node (set_heap w h) tableid key;
  let n := node (heap w) a in
  if decide (n_value n = NULL) then Done (w, tx, 1)
  else if decide (n_seq n = 1) then Spin
  else
    b ← load (heap w) (n_value n);
    data ← copy_payload b len;
    let w := set_heap w (fill (heap w) _addr data) in
    let it := mkItem tableid key len a _addr (n_seq n) true in
    let tx := set_timestamp tx (MAX (n_seq n) (timestamp tx)) in
    ws ← WriteSet_Add (rwset tx) it;
    Done (w, set_rwset tx ws, n_seq n).

(** [DBRad::insert] *)
Definition insert (w : World St) (tx : DBRad) (tableid key : Z) (data : list Z)
  : result (World St * DBRad) :=
  '(w, a) ← store_node w tableid key;
  let '(h, addr) := malloc (heap w) data in
  let it := mkItem tableid key (length data) a addr (n_seq (node (heap w) a)) false in
  ws ← WriteSet_Add (rwset tx) it;
  Done (set_heap w h, set_rwset tx ws).

(** [DBRad::insert_index]: [val] is a buffer of the caller.  The item's [len] is
    left uninitialised by the code; nothing reads it. *)
Definition insert_index (w : World St) (tx : DBRad) (tableid key val : Z)
  : result (World St * DBRad) :=
  '(w, a) ← index_node w tableid key;
  let it := mkItem tableid key 0 a val (n_seq (node (heap w) a)) false in
  ws ← WriteSet_Add (rwset tx) it;
  Done (w, set_rwset tx ws).

(** The position of the first item satisfying a test. *)
Fixpoint find_item (P : WriteSetItem → bool) (l : list WriteSetItem) : option (nat * WriteSetItem) :=
  match l with
  | [] => None
  | it :: l => if P it then Some (0%nat, it) else (λ '(i, it), (S i, it)) <$> find_item P l
  end.

Definition match_key (tableid key : Z) (it : WriteSetItem) : bool :=
  (it_tableid it =? tableid) && (it_key it =? key).
Definition match_node (a : Z) (it : WriteSetItem) : bool := it_node it =? a.

Definition upd_item (ws : WriteSet) (i : nat) (it : WriteSetItem) : WriteSet :=
  mkWS (<[i := it]> (kvs ws)) (ws_current ws).

(** [DBRad::write()]: promote the item of the last [get]. *)
Definition write_last (tx : DBRad) : result DBRad :=
  match last (kvs (rwset tx)) with
  | None => Crash invalid_access
  | Some it =>
      let ws := upd_item (rwset tx) (length (kvs (rwset tx)) - 1) (set_ro false it) in
      Done (set_timestamp (set_rwset tx ws) (MAX (timestamp tx) (it_seq it)))
  end.

(** [DBRad::write(tableid, key, val, len)] *)
Definition write (tx : DBRad) (tableid key : Z) : result DBRad :=
  match find_item (match_key tableid key) (kvs (rwset tx)) with
  | None => Crash exit_called
  | Some (i, it) =>
      let ws := upd_item (rwset tx) i (set_ro false it) in
      Done (set_timestamp (set_rwset tx ws) (MAX (timestamp tx) (it_seq it)))
  end.

(** Turning an item of the set into a deletion frees its buffer. *)
Definition delete_item (h : Heap) (tx : DBRad) (i : nat) (it : WriteSetItem) : result (Heap * DBRad) :=
  h ← free h (it_addr it);
  let ws := upd_item (rwset tx) i (set_deleted it) in
  Done (h, set_timestamp (set_rwset tx ws) (MAX (timestamp tx) (it_seq it))).

(** Adding a deletion of a node that is not in the set yet. *)
Definition add_delete (h : Heap) (tx : DBRad) (tableid key a : Z) : result DBRad :=
  let s := n_seq (node h a) in
  ws ← WriteSet_Add (rwset tx) (mkItem tableid key 0 a NULL s false);
  Done (set_timestamp (set_rwset tx ws) (MAX (timestamp tx) s)).

(** [DBRad::delete_] *)
Definition delete_ (w : World St) (tx : DBRad) (tableid key : Z) : result (World St * DBRad) :=
  match find_item (match_key tableid key) (kvs (rwset tx)) with
  | Some (i, it) =>
      '(h, tx) ← delete_item (heap w) tx i it;
      Done (set_heap w h, tx)
  | None =>
      '(w, a) ← store_node w tableid key;
      tx ← add_delete (heap w) tx tableid key a;
      Done (w, tx)
  end.

(** [DBRad::delete_by_node] *)
Definition delete_by_node (w : World St) (tx : DBRad) (tableid a : Z) : result (World St * DBRad) :=
  match find_item (match_node a) (kvs (rwset tx)) with
  | Some (i, it) =>
      '(h, tx) ← delete_item (heap w) tx i it;
      Done (set_heap w h, tx)
  | None =>
      tx ← add_delete (heap w) tx tableid 0 a;
      Done (w, tx)
  end.

(** [DBRad::delete_index]: an absent value is left alone. *)
Definition delete_index (w : World St) (tx : DBRad) (tableid key : Z) : result (World St * DBRad) :=
  '(w, a) ← index_node w tableid key;
  if decide (n_value (node (heap w) a) = NULL) then Done (w, tx)
  else
    tx ← add_delete (heap w) tx tableid key a;
    Done (w, tx).

(** [DBRad::check_in_rwset] *)
Definition check_in_rwset (tx : DBRad) (tableid a : Z) : bool :=
  existsb (λ it, (it_tableid it =? tableid) && (it_node it =? a)) (kvs (rwset tx)).

(** [DBRad::_get_ro_versioned_helper]: unless [RC], a reader whose version is not
    below the recorded read timestamp records it under the node's read lock, and
    then waits while the node is locked by a writer and its version is below the
    reader's. *)
Definition get_ro_versioned_helper (RC : bool) (w : World St) (tableid key ver : Z)
  : result (World St * (Z * option (list Z))) :=
  n_bytes ← vlen w tableid;
  '(w, a) ← store_node w tableid key;
  let origin := n_read_ts (node (heap w) a) in
  let tentative := MAX ver origin in
  if decide (tentative = ver ∧ RC = false) then
    if decide (n_read_lock (node (heap w) a) ≠ 0) then Spin
    else
      let w := set_heap w (set_node (heap w) a (set_read_ts tentative)) in
      if decide (n_lock (node (heap w) a) ≠ 0 ∧ n_seq (node (heap w) a) < ver) then Spin
      else
        r ← get_helper RC (heap w) a ver n_bytes;
        Done (w, r)
  else
    r ← get_helper RC (heap w) a ver n_bytes;
    Done (w, r).

(** [DBRad::get_ro] and [DBRad::get_ro_versioned] ([TX_NAIVE] = 0). *)
Definition get_ro (RC : bool) (w : World St) (tx : DBRad) (tableid key : Z)
  : result (World St * (Z * option (list Z))) :=
  get_ro_versioned_helper RC w tableid key (timestamp tx).
Definition get_ro_versioned (RC : bool) (w : World St) (tableid key ver : Z)
  : result (World St * (Z * option (list Z))) :=
  get_ro_versioned_helper RC w tableid key ver.

(** [DBRad::_get_ro_naive]: the read timestamp is recorded under the writers'
    lock (a spin while it is held). *)
Definition get_ro_naive (RC : bool) (w : World St) (tableid key ver : Z)
  : result (World St * (Z * option (list Z))) :=
  n_bytes ← vlen w tableid;
  '(w, a) ← store_node w tableid key;
  let tentative := MAX ver (n_read_ts (node (heap w) a)) in
  if decide (tentative = ver) then
    if decide (n_lock (node (heap w) a) ≠ 0) then Spin
    else
      let w := set_heap w (set_node (heap w) a (set_read_ts tentative)) in
      r ← get_helper RC (heap w) a ver n_bytes;
      Done (w, r)
  else
    r ← get_helper RC (heap w) a ver n_bytes;
    Done (w, r).
End ops.
