(* ===== verification/RadWriteSet.v ===== *)
(** * The write set under the commit protocol

    Lemmas on [LockAllSet], [ReleaseAllSet] and [CommitLocalWrite] of DBRad.v:
    which nodes a run of the lock loop changes, that an aborted run is undone by
    the release, and that a successful run followed by the installation adds one
    version to exactly the written records. *)

From S2P Require Import Prelude LockWord Memstore RadMem DBRad.

(** Nodes of the items to be written, in order. *)
Definition wnodes (items : list WriteSetItem) : list Z :=
  it_node <$> filter (λ it, it_ro it = false) items.

Lemma wnodes_nil : wnodes [] = [].
Proof. done. Qed.

Lemma wnodes_ro it items : it_ro it = true → wnodes (it :: items) = wnodes items.
Proof. intros H. unfold wnodes. rewrite filter_cons_False; [done|congruence]. Qed.

Lemma wnodes_rw it items : it_ro it = false → wnodes (it :: items) = it_node it :: wnodes items.
Proof. intros H. unfold wnodes. by rewrite filter_cons_True. Qed.

Lemma elem_of_wnodes a items :
  a ∈ wnodes items ↔ ∃ it, it ∈ items ∧ it_ro it = false ∧ it_node it = a.
Proof.
  unfold wnodes. rewrite list_elem_of_fmap. setoid_rewrite list_elem_of_filter. naive_solver.
Qed.

#[export] Hint Rewrite wnodes_nil : dst.

(** ** The lock loop *)

(** Number of items the loop has gone through when it stops at [current = cur]. *)
Definition locked_count (i cur : Z) : nat := Z.to_nat (cur + 1 - i).

(** What a run of the lock loop over [items] did to memory: exactly the nodes of
    the items up to [current] carry the new lock word, and they were free. *)
Record locked_upto (word : Z) (ns : list Z) (h h' : Heap) : Prop := {
  lu_bufs : bufs h' = bufs h;
  lu_brk : brk h' = brk h;
  lu_node a : node h' a = if decide (a ∈ ns) then set_lock word (node h a) else node h a;
  lu_free a : a ∈ ns → n_lock (node h a) = 0;
}.

Lemma locked_upto_refl word h : locked_upto word [] h h.
Proof. split; [done..| |]; intros a; [by rewrite decide_False by apply not_elem_of_nil|]. by intros ?%not_elem_of_nil. Qed.

Lemma locked_upto_cons word a ns h h' :
  n_lock (node h a) = 0 →
  locked_upto word ns (set_node h a (set_lock word)) h' → locked_upto word (a :: ns) h h'.
Proof.
  intros Ha [Hb Hk Hn Hf]. split; [done|done| |].
  - intros b. rewrite Hn, node_set.
    destruct (decide (a = b)) as [<-|]; [rewrite (decide_True (P := a ∈ a :: ns)) by left|].
    + by case_decide.
    + repeat case_decide; set_solver.
  - intros b Hin. destruct (decide (a = b)) as [<-|]; [done|].
    specialize (Hf b). rewrite node_set_ne in Hf by done. set_solver.
Qed.

Lemma lock_loop_locked word items i h cur mts ok h' cur' mts' :
  cur < i → lock_loop word items i h cur mts = (ok, h', cur', mts') →
  cur ≤ cur' < i + Z.of_nat (length items) ∧
  locked_upto word (wnodes (take (locked_count i cur') items)) h h'.
Proof.
  revert i h cur mts. induction items as [|it items IH]; intros i h cur mts Hlt; cbn [lock_loop].
  { intros. simplify_eq. rewrite take_nil. split; [cbn; lia|apply locked_upto_refl]. }
  destruct (it_ro it) eqn:Hro; [|case_decide; [|case_decide]].
  - intros [Hb Hl]%IH; [|lia]. split; [cbn; lia|]. unfold locked_count in *.
    destruct (decide (cur' < i)).
    + replace (Z.to_nat (cur' + 1 - i)) with 0%nat by lia.
      replace (Z.to_nat (cur' + 1 - (i + 1))) with 0%nat in Hl by lia. done.
    + replace (Z.to_nat (cur' + 1 - i)) with (S (Z.to_nat (cur' + 1 - (i + 1)))) by lia.
      cbn [take]. by rewrite wnodes_ro.
  - intros. simplify_eq. split; [cbn; lia|]. unfold locked_count.
    replace (Z.to_nat (cur' + 1 - i)) with 0%nat by lia. apply locked_upto_refl.
  - intros. simplify_eq. split; [cbn; lia|]. unfold locked_count.
    replace (Z.to_nat (cur' + 1 - cur')) with 1%nat by lia. cbn [take].
    rewrite wnodes_rw by done. apply locked_upto_cons; [lia|apply locked_upto_refl].
  - intros [Hb Hl]%IH; [|lia]. split; [cbn; lia|]. unfold locked_count in *.
    replace (Z.to_nat (cur' + 1 - i)) with (S (Z.to_nat (cur' + 1 - (i + 1)))) by lia.
    cbn [take]. rewrite wnodes_rw by done. apply locked_upto_cons; [lia|done].
Qed.

(** Success: every written item is validated and the timestamp covers every
    read timestamp met on the way. *)
Lemma lock_loop_success word items i h cur mts h' cur' mts' :
  word ≠ 0 → lock_loop word items i h cur mts = (true, h', cur', mts') →
  locked_upto word (wnodes items) h h' ∧ NoDup (wnodes items) ∧ mts ≤ mts' ∧
  (∀ it, it ∈ items → it_ro it = false →
     n_seq (node h (it_node it)) = it_seq it ∧ n_read_ts (node h (it_node it)) ≤ mts').
Proof.
  intros Hw. revert i h cur mts. induction items as [|it items IH]; intros i h cur mts; cbn [lock_loop].
  { intros. simplify_eq. rewrite wnodes_nil. split_and!;
      [apply locked_upto_refl|constructor|lia|by intros it ?%not_elem_of_nil]. }
  destruct (it_ro it) eqn:Hro; [|case_decide as Hl; [done|case_decide as Hs; [done|]]].
  - intros (Hl & Hnd & Hm & Hit)%IH. rewrite wnodes_ro by done. split_and!; [done..|].
    intros it' [->|]%elem_of_cons; [congruence|by apply Hit].
  - intros (Hlk & Hnd & Hm & Hit)%IH. rewrite wnodes_rw by done.
    rewrite node_set_eq, MAX_spec in *. cbn [n_seq n_read_ts set_lock] in *.
    assert (Hnin : it_node it ∉ wnodes items).
    { intros Hin. pose proof (lu_free _ _ _ _ Hlk _ Hin) as Hz. rewrite node_set_eq in Hz. done. }
    split_and!; [apply locked_upto_cons; [lia|done]|by constructor|lia|].
    intros it' [->|Hin]%elem_of_cons Hro'; [split; lia|].
    assert (it_node it' ≠ it_node it) by (intros Heq; apply Hnin, elem_of_wnodes; eauto).
    specialize (Hit it' Hin Hro'). rewrite node_set_ne in Hit by done. done.
Qed.

(** ** The release *)

(** Value buffers of the items: allocated, and each held by one item. *)
Definition addrs (items : list WriteSetItem) : list Z :=
  filter (λ p, p ≠ NULL) (it_addr <$> items).

Definition live_items (h : Heap) (items : list WriteSetItem) : Prop :=
  NoDup (addrs items) ∧ ∀ p, p ∈ addrs items → is_Some (bufs h !! p).

Lemma live_items_take h items n : live_items h items → live_items h (take n items).
Proof.
  intros [Hnd Hl]. rewrite <-(take_drop n items) in Hnd, Hl. unfold live_items, addrs in *.
  rewrite fmap_app, filter_app in *. apply NoDup_app in Hnd as (Hnd & _ & _).
  split; [done|]. intros p Hp. apply Hl, elem_of_app. by left.
Qed.

Lemma live_items_bufs h h' items : bufs h' = bufs h → live_items h items → live_items h' items.
Proof. unfold live_items. by intros ->. Qed.

Lemma free_live h it items :
  live_items h (it :: items) →
  ∃ h', free h (it_addr it) = Done h' ∧ nodes h' = nodes h ∧ live_items h' items.
Proof.
  intros [Hnd Hl]. unfold free. unfold live_items, addrs in *. rewrite fmap_cons in Hnd, Hl.
  case_decide as Hn.
  - rewrite filter_cons_False in Hnd, Hl by (intros ?; lia). eauto.
  - rewrite filter_cons_True in Hnd, Hl by done.
    destruct (Hl (it_addr it)) as [b Hb]; [by left|]. rewrite Hb.
    apply NoDup_cons in Hnd as [Hnin Hnd]. eexists. split_and!; [done..|].
    intros p Hp. cbn. rewrite lookup_delete_ne; [apply Hl; by right|congruence].
Qed.

Lemma release_item_eq h h1 it :
  free h (it_addr it) = Done h1 →
  release_item h it = Done (if it_ro it then h1 else set_node h1 (it_node it) (set_lock 0)).
Proof. intros Hf. unfold release_item. rewrite Hf. cbn. by destruct (it_ro it). Qed.

Lemma release_run items h :
  live_items h items →
  ∃ h', for_each release_item items h = Done h' ∧
    ∀ a, node h' a = if decide (a ∈ wnodes items) then set_lock 0 (node h a) else node h a.
Proof.
  revert h. induction items as [|it items IH]; intros h Hl.
  { exists h. split; [done|]. intros a. by rewrite decide_False by apply not_elem_of_nil. }
  destruct (free_live _ _ _ Hl) as (h1 & Hf & Hn1 & Hl1).
  cbn [for_each]. rewrite (release_item_eq _ _ _ Hf). cbn [mbind result_bind].
  assert (Hn : ∀ a, node h1 a = node h a) by (intros a; unfold node; by rewrite Hn1).
  destruct (it_ro it) eqn:Hro.
  - rewrite wnodes_ro by done. destruct (IH h1 Hl1) as (h' & -> & Hh').
    exists h'. split; [done|]. intros a. by rewrite Hh', Hn.
  - rewrite wnodes_rw by done.
    destruct (IH (set_node h1 (it_node it) (set_lock 0))) as (h' & -> & Hh'); [by eapply live_items_bufs|].
    exists h'. split; [done|]. intros a. rewrite Hh', node_set, Hn.
    destruct (decide (it_node it = a)) as [<-|].
    + rewrite (decide_True (P := it_node it ∈ it_node it :: _)) by left. by case_decide.
    + repeat case_decide; set_solver.
Qed.

Lemma set_lock_restore word n : n_lock n = 0 → set_lock 0 (set_lock word n) = n.
Proof. destruct n. cbn. by intros ->. Qed.

(** ** The installation *)

(** The payload an item installs. *)
Definition payload (h : Heap) (it : WriteSetItem) : option (list Z) :=
  if decide (it_addr it = NULL) then None else b_data <$> bufs h !! it_addr it.

(** The abstract effect of a list of items on the records. *)
Definition abs_commit (h : Heap) (ts : Z) (items : list WriteSetItem) (r : Z → VRecord) : Z → VRecord :=
  foldl (λ r it, if it_ro it then r
                 else <[it_node it := abs_install ts (payload h it) (r (it_node it))]> r) r items.

Lemma abs_commit_ext h h' ts items r :
  (∀ it, it ∈ items → it_ro it = false → payload h' it = payload h it) →
  abs_commit h' ts items r = abs_commit h ts items r.
Proof.
  unfold abs_commit. revert r. induction items as [|it items IH]; intros r Hp; [done|]. cbn [foldl].
  rewrite IH by (intros it' Hin; apply Hp; by right).
  destruct (it_ro it) eqn:Hro; [done|]. by rewrite (Hp it) by (done || by left).
Qed.

(** No node refers to the buffers of the items that will be written. *)
Definition fresh_items (h : Heap) (cs ps : Z → list Z) (items : list WriteSetItem) : Prop :=
  NoDup (addrs (filter (λ it, it_ro it = false) items)) ∧
  ∀ it, it ∈ items → it_ro it = false → fresh_buf h cs ps (it_addr it) (payload h it).

Lemma fresh_buf_installed h cs ps r a ver addr ts new p d :
  heap_rep h cs ps r → fresh_buf h cs ps addr new → fresh_buf h cs ps p d → (p = NULL ∨ p ≠ addr) →
  fresh_buf (installed h a ver addr ts) (install_cs cs a addr) (install_ps cs ps a) p d.
Proof.
  intros Hr Hadd Hp Hne. destruct d as [d|]; unfold fresh_buf in Hp |- *; [|done].
  destruct Hp as (Hnn & (b & Hb & Hd) & Hnot). destruct Hne as [|Hne]; [done|].
  split_and!; [done| |].
  - exists b. split; [|done]. rewrite bufs_installed_ne; [done|].
    intros ->. apply (Hnot a), elem_of_app. left.
    eapply current_value_in; [apply (hr_node _ _ _ _ Hr a)|done].
  - intros b' Hin. apply (install_ptrs _ _ _ _ _ _ _ _ _ Hr Hadd) in Hin as [(? & ? & ?)|Hin]; [done|].
    by apply (Hnot b').
Qed.

Lemma payload_installed h cs ps r a ver addr ts it d :
  heap_rep h cs ps r → fresh_buf h cs ps (it_addr it) d →
  payload (installed h a ver addr ts) it = payload h it.
Proof.
  intros Hr Hf. unfold payload. case_decide as Hn; [done|].
  destruct d as [d|]; cbn in Hf; [|done]. destruct Hf as (_ & _ & Hnot).
  rewrite bufs_installed_ne; [done|]. intros Heq. apply (Hnot a), elem_of_app. left.
  rewrite Heq in *. eapply current_value_in; [apply (hr_node _ _ _ _ Hr a)|done].
Qed.

Lemma fresh_items_cons_ro h cs ps it items :
  it_ro it = true → fresh_items h cs ps (it :: items) → fresh_items h cs ps items.
Proof.
  intros Hro [Hnd Hf]. rewrite filter_cons_False in Hnd by congruence.
  split; [done|]. intros it' Hin. apply Hf. by right.
Qed.

Lemma fresh_items_installed h cs ps r it items ver ts :
  it_ro it = false → heap_rep h cs ps r → fresh_items h cs ps (it :: items) →
  fresh_items (installed h (it_node it) ver (it_addr it) ts)
    (install_cs cs (it_node it) (it_addr it)) (install_ps cs ps (it_node it)) items.
Proof.
  intros Hro Hr [Hnd Hf]. rewrite filter_cons_True in Hnd by done. unfold addrs in Hnd.
  rewrite fmap_cons in Hnd.
  assert (Hit : fresh_buf h cs ps (it_addr it) (payload h it)) by (apply Hf; [by left|done]).
  split.
  - destruct (decide (it_addr it = NULL)) as [Hn|Hn].
    + rewrite filter_cons_False in Hnd by (intros ?; lia). done.
    + rewrite filter_cons_True in Hnd by done. by apply NoDup_cons in Hnd as [_ ?].
  - intros it' Hin Hro'. assert (Hf' := Hf it' ltac:(by right) Hro').
    erewrite payload_installed by done. eapply fresh_buf_installed; [done..|].
    destruct (decide (it_addr it' = NULL)) as [|Hn']; [by left|right]. intros Heq.
    rewrite filter_cons_True in Hnd by congruence. apply NoDup_cons in Hnd as [Hnin _].
    apply Hnin, list_elem_of_filter. split; [congruence|].
    apply list_elem_of_fmap. exists it'. split; [done|]. by apply list_elem_of_filter.
Qed.

(** One pass of [CommitLocalWrite] is one pass of [abs_commit]; every written
    node ends up unlocked at the commit timestamp, the others are untouched. *)
Lemma commit_run items h cs ps r ts :
  heap_rep h cs ps r → fresh_items h cs ps items → NoDup (wnodes items) →
  (∀ it, it ∈ items → it_ro it = false → it_seq it = v_seq (r (it_node it))) →
  ∃ h' cs' ps',
    for_each (commit_item ts) items h = Done h' ∧
    heap_rep h' cs' ps' (abs_commit h ts items r) ∧
    (∀ a, n_lock (node h' a) = (if decide (a ∈ wnodes items) then 0 else n_lock (node h a)) ∧
          n_read_ts (node h' a) = n_read_ts (node h a) ∧
          (a ∉ wnodes items → node h' a = node h a)).
Proof.
  revert h cs ps r. induction items as [|it items IH]; intros h cs ps r Hr Hf Hnd Hs.
  { exists h, cs, ps. split_and!; [done..|]. intros a.
    by rewrite decide_False by apply not_elem_of_nil. }
  cbn [for_each]. destruct (it_ro it) eqn:Hro.
  - rewrite wnodes_ro in * by done.
    assert (Hc : commit_item ts h it = Done h) by (unfold commit_item; by rewrite Hro).
    rewrite Hc. unfold abs_commit. cbn [foldl mbind result_bind]. rewrite Hro. apply (IH h cs ps r); [done|by eapply fresh_items_cons_ro|done|].
    intros it' Hin. apply Hs. by right.
  - rewrite wnodes_rw in * by done. apply NoDup_cons in Hnd as [Hnin Hnd].
    pose proof (fresh_items_installed _ _ _ _ _ _ (v_seq (r (it_node it))) ts Hro Hr Hf) as Hf'.
    destruct Hf as [_ Hf]. assert (Hit := Hf it ltac:(by left) Hro).
    set (a := it_node it) in *. set (h1 := installed h a (v_seq (r a)) (it_addr it) ts) in *.
    assert (Hc : commit_item ts h it = Done h1).
    { unfold commit_item. rewrite Hro, (Hs it) by (done || by left).
      apply install_eq. by eapply heap_rep_value_live. }
    destruct (IH h1 (install_cs cs a (it_addr it)) (install_ps cs ps a)
                (<[a := abs_install ts (payload h it) (r a)]> r)) as (h' & cs' & ps' & Hrun & Hrep & Hn).
    + by apply install_rep.
    + done.
    + done.
    + intros it' Hin Hro'. rewrite fn_lookup_insert_ne; [apply Hs; [by right|done]|].
      intros Heq. apply Hnin, elem_of_wnodes. eauto.
    + exists h', cs', ps'. rewrite Hc. cbn [mbind result_bind]. split_and!; [done| |].
      * rewrite (abs_commit_ext h h1) in Hrep.
        { unfold abs_commit in *. cbn [foldl]. by rewrite Hro. }
        intros it' Hin Hro'. eapply payload_installed; [done|]. apply Hf; [by right|done].
      * intros b. destruct (Hn b) as (H1 & H2 & H3).
        destruct (decide (a = b)) as [<-|Hne].
        -- rewrite H1, H2. subst h1. rewrite node_installed_eq. cbn.
           rewrite (decide_True (P := a ∈ a :: _)) by left. rewrite decide_False by done.
           split_and!; [done..|]. intros Hx. destruct Hx. by left.
        -- subst h1. rewrite node_installed_ne in * by done. rewrite H1, H2.
           split_and!; [repeat case_decide; set_solver|done|]. intros Hx. apply H3. set_solver.
Qed.

Lemma abs_commit_other h ts items r a : a ∉ wnodes items → abs_commit h ts items r a = r a.
Proof.
  unfold abs_commit. revert r. induction items as [|it items IH]; intros r Ha; [done|]. cbn [foldl].
  destruct (it_ro it) eqn:Hro.
  - rewrite wnodes_ro in Ha by done. by apply IH.
  - rewrite wnodes_rw in Ha by done. apply not_elem_of_cons in Ha as [Hne Ha].
    rewrite IH by done. by rewrite fn_lookup_insert_ne.
Qed.

Lemma abs_commit_written h ts items r it :
  NoDup (wnodes items) → it ∈ items → it_ro it = false →
  abs_commit h ts items r (it_node it) = abs_install ts (payload h it) (r (it_node it)).
Proof.
  unfold abs_commit. revert r. induction items as [|it' items IH]; intros r Hnd Hin Hro;
    [by apply not_elem_of_nil in Hin|]. cbn [foldl].
  destruct (it_ro it') eqn:Hro'; [rewrite wnodes_ro in Hnd by done|rewrite wnodes_rw in Hnd by done].
  - apply elem_of_cons in Hin as [->|]; [congruence|by apply IH].
  - apply NoDup_cons in Hnd as [Hnin Hnd]. apply elem_of_cons in Hin as [->|Hin].
    + change (abs_commit h ts items (<[it_node it':=abs_install ts (payload h it') (r (it_node it'))]> r)
                (it_node it') = abs_install ts (payload h it') (r (it_node it'))).
      rewrite abs_commit_other by done. apply fn_lookup_insert.
    + rewrite IH by done. rewrite fn_lookup_insert_ne; [done|].
      intros Heq. apply Hnin, elem_of_wnodes. eauto.
Qed.

Lemma lock_loop_bound word items i h cur mts ok h' cur' mts' B :
  mts ≤ B → (∀ a, n_read_ts (node h a) ≤ B) →
  lock_loop word items i h cur mts = (ok, h', cur', mts') → mts' ≤ B.
Proof.
  revert i h cur mts. induction items as [|it items IH]; intros i h cur mts Hm Hb; cbn [lock_loop];
    [intros; by simplify_eq|].
  destruct (it_ro it); [by apply IH|]. case_decide; [intros; by simplify_eq|].
  case_decide; [intros; by simplify_eq|]. apply IH.
  - rewrite MAX_spec, node_set_eq. cbn. specialize (Hb (it_node it)). lia.
  - intros a. rewrite node_set. case_decide; apply Hb.
Qed.

(** Timestamps that leave room for the increment of [LockAllSet]. *)
Definition ts_room (h : Heap) (ts : Z) : Prop :=
  0 ≤ ts < 2 ^ 64 - 1 ∧ ∀ a, n_read_ts (node h a) < 2 ^ 64 - 1.

Lemma LockAllSet_success word ws h ts h1 ws1 cts :
  word ≠ 0 → ts_room h ts → LockAllSet word ws h ts = (true, h1, ws1, cts) →
  kvs ws1 = kvs ws ∧ locked_upto word (wnodes (kvs ws)) h h1 ∧ NoDup (wnodes (kvs ws)) ∧
  ts < cts ∧
  (∀ it, it ∈ kvs ws → it_ro it = false →
     n_seq (node h (it_node it)) = it_seq it ∧ n_read_ts (node h (it_node it)) < cts).
Proof.
  intros Hw [Hts Hrt]. unfold LockAllSet.
  destruct (lock_loop _ _ _ _ _ _) as [[[ok h'] cur'] mts'] eqn:Hl. intros. destruct ok; simplify_eq.
  pose proof (lock_loop_success _ _ _ _ _ _ _ _ _ Hw Hl) as (Hlk & Hnd & Hm & Hit).
  assert (mts' ≤ 2 ^ 64 - 2).
  { eapply lock_loop_bound; [| |exact Hl]; [lia|]. intros a. specialize (Hrt a). lia. }
  rewrite uwrap_small by lia. cbn. split_and!; [done..|lia|].
  intros it Hin Hro. specialize (Hit it Hin Hro). lia.
Qed.

Lemma locked_same_versions word ns h h' a :
  locked_upto word ns h h' → same_versions (node h a) (node h' a).
Proof. intros Hl. rewrite (lu_node _ _ _ _ Hl). by case_decide. Qed.

Lemma fresh_items_bufs h h' cs ps items :
  bufs h' = bufs h → fresh_items h cs ps items → fresh_items h' cs ps items.
Proof. unfold fresh_items, fresh_buf, payload. by intros ->. Qed.

Lemma abs_commit_bufs h h' ts items r :
  bufs h' = bufs h → abs_commit h' ts items r = abs_commit h ts items r.
Proof. intros Hb. apply abs_commit_ext. intros. unfold payload. by rewrite Hb. Qed.

(** Lock, validate and install at any timestamp: the run of [DBRad::end] on the
    local set. *)
Lemma lock_commit_at word ws h cs ps r ts h1 ws1 cts cts' :
  word ≠ 0 → heap_rep h cs ps r → fresh_items h cs ps (kvs ws) → ts_room h ts →
  LockAllSet word ws h ts = (true, h1, ws1, cts) →
  ∃ h2 cs2 ps2,
    CommitLocalWrite ws1 h1 cts' = Done h2 ∧
    heap_rep h2 cs2 ps2 (abs_commit h cts' (kvs ws) r) ∧
    (∀ a, n_lock (node h2 a) = n_lock (node h a)).
Proof.
  intros Hw Hr Hf Hroom HL. destruct (LockAllSet_success _ _ _ _ _ _ _ Hw Hroom HL)
    as (Hk & Hlk & Hnd & _ & Hit).
  pose proof (lu_bufs _ _ _ _ Hlk) as Hb.
  destruct (commit_run (kvs ws) h1 cs ps r cts') as (h2 & cs2 & ps2 & Hrun & Hrep & Hn).
  - eapply heap_rep_same_versions; [done|intros a; by eapply locked_same_versions|done].
  - by eapply fresh_items_bufs.
  - done.
  - intros it Hin Hro. destruct (Hit it Hin Hro) as [<- _]. apply (hr_node _ _ _ _ Hr).
  - exists h2, cs2, ps2. unfold CommitLocalWrite. rewrite Hk. split_and!; [done| |].
    + by rewrite <-(abs_commit_bufs h h1) by done.
    + intros a. destruct (Hn a) as (-> & _ & _). rewrite (lu_node _ _ _ _ Hlk).
      case_decide as Hin; [|done]. symmetry. by apply (lu_free _ _ _ _ Hlk).
Qed.

Lemma lock_commit word ws h cs ps r ts h1 ws1 cts :
  word ≠ 0 → heap_rep h cs ps r → fresh_items h cs ps (kvs ws) → ts_room h ts →
  LockAllSet word ws h ts = (true, h1, ws1, cts) →
  ∃ h2 cs2 ps2,
    CommitLocalWrite ws1 h1 cts = Done h2 ∧
    heap_rep h2 cs2 ps2 (abs_commit h cts (kvs ws) r) ∧
    (∀ a, n_lock (node h2 a) = n_lock (node h a)).
Proof. apply lock_commit_at. Qed.

(** The failed case: the release restores every node. *)
Lemma lock_fail_release word ws h ts h1 ws1 ts1 :
  ws_current ws = -1 → live_items h (kvs ws) →
  LockAllSet word ws h ts = (false, h1, ws1, ts1) →
  ts1 = ts ∧ ∃ h2, ReleaseAllSet ws1 h1 = Done h2 ∧ ∀ a, node h2 a = node h a.
Proof.
  intros Hcur Hlive. unfold LockAllSet.
  destruct (lock_loop _ _ _ _ _ _) as [[[ok h'] cur'] mts'] eqn:HL. intros. destruct ok; simplify_eq.
  split; [done|]. apply lock_loop_locked in HL as [_ Hlk]; [|lia].
  destruct (release_run (take (Z.to_nat (cur' + 1)) (kvs ws)) h1) as (h2 & Hrun & Hn).
  { eapply live_items_bufs; [apply Hlk|]. by apply live_items_take. }
  exists h2. split; [exact Hrun|]. intros a. rewrite Hn, (lu_node _ _ _ _ Hlk).
  unfold locked_count. rewrite Z.sub_0_r. case_decide as Hin; [|done].
  apply set_lock_restore, (lu_free _ _ _ _ Hlk). unfold locked_count. by rewrite Z.sub_0_r.
Qed.
