(* ===== verification/RadLocal.v ===== *)
(** * Properties of local DBRad transactions

    The statements about one server: commits add versions, aborts leave no
    trace, timestamped reads return the newest version not above their timestamp
    and keep returning it, and what the checked-in configuration gives up. *)

From S2P Require Import Prelude LockWord Memstore RadMem DBRad RadWriteSet.

(** ** A small heap: one record with versions 3 and 5, one free buffer *)

Definition sample_node : MemNode := mkMemNode 0 5 1 2 0 0 0.
Definition sample_heap : Heap :=
  mkHeap {[ 8000 := sample_node ]}
    {[ 1 := mkBuf None [1; 2];
       2 := mkBuf (Some (mkHdr NULL 3)) [9; 9];
       3 := mkBuf None [7; 7] ]} 4.
Definition sample_cs : Z → list Z := <[8000 := [1]]> (λ _, []).
Definition sample_ps : Z → list Z := <[8000 := [2]]> (λ _, []).
Definition empty_record : VRecord := mkVRec 0 None [].
Definition sample_records : Z → VRecord :=
  <[8000 := mkVRec 5 (Some [1; 2]) [(3, [9; 9])]]> (λ _, empty_record).
Definition sample_item : WriteSetItem := mkItem 0 7 2 8000 3 5 false.
Definition sample_ws : WriteSet := mkWS [sample_item] (-1).

Lemma sample_node_other a : 8000 ≠ a → node sample_heap a = MemNode_new.
Proof. intros. unfold node, node_at, sample_heap; cbn. by rewrite lookup_singleton_ne. Qed.

Lemma sample_rep : heap_rep sample_heap sample_cs sample_ps sample_records.
Proof.
  unfold sample_cs, sample_ps, sample_records. split.
  - intros a. destruct (decide (8000 = a)) as [<-|Hne].
    + rewrite !fn_lookup_insert. split; [done| |].
      * by apply (current_buf _ 1 (mkBuf None [1; 2])).
      * eapply chain_cons; [done|done|constructor].
    + rewrite !fn_lookup_insert_ne by done.
      split; rewrite sample_node_other by done; constructor.
  - intros a. destruct (decide (8000 = a)) as [<-|Hne].
    + rewrite !fn_lookup_insert. cbn. repeat constructor; set_solver.
    + rewrite !fn_lookup_insert_ne by done. constructor.
  - intros a b p. destruct (decide (8000 = a)) as [<-|Ha], (decide (8000 = b)) as [<-|Hb];
      rewrite ?fn_lookup_insert, ?fn_lookup_insert_ne by done; [done| | |];
      intros H1 H2; by apply not_elem_of_nil in H1 || apply not_elem_of_nil in H2.
Qed.

Lemma sample_fresh : fresh_items sample_heap sample_cs sample_ps (kvs sample_ws).
Proof.
  split; [apply (bool_decide_unpack _); vm_compute; exact I|].
  intros it Hin _. apply list_elem_of_singleton in Hin as ->.
  change (payload sample_heap sample_item) with (Some [7; 7]). cbn [fresh_buf].
  split_and!; [done|by eexists|]. intros b. unfold sample_cs, sample_ps.
  destruct (decide (8000 = b)) as [<-|]; rewrite ?fn_lookup_insert, ?fn_lookup_insert_ne by done;
    [by apply (bool_decide_unpack _)|apply not_elem_of_nil].
Qed.

Lemma sample_room ts : 0 ≤ ts < 100 → ts_room sample_heap ts.
Proof.
  intros. split; [lia|]. intros a. destruct (decide (8000 = a)) as [<-|]; [done|].
  by rewrite sample_node_other.
Qed.

Definition sample_word : Z := ENCODE_LOCK_CONTENT 1 5 1.

(** ** Properties *)

(** Lock, validate and install refine the abstract store.  When [LockAllSet]
    succeeds, [CommitLocalWrite] completes, every written record gets exactly one
    new version at the commit timestamp in front of its history (and only those),
    all locks are back to their state before the commit, and the commit timestamp
    is above the transaction's timestamp and above every read timestamp recorded
    on a written record. *)
Theorem local_commit_refines word ws h cs ps r ts h1 ws1 cts :
  word ≠ 0 → heap_rep h cs ps r → fresh_items h cs ps (kvs ws) → ts_room h ts →
  LockAllSet word ws h ts = (true, h1, ws1, cts) →
  ∃ h2 cs2 ps2 r2,
    CommitLocalWrite ws1 h1 cts = Done h2 ∧ heap_rep h2 cs2 ps2 r2 ∧
    (∀ it, it ∈ kvs ws → it_ro it = false →
       r2 (it_node it) = abs_install cts (payload h it) (r (it_node it)) ∧
       n_read_ts (node h (it_node it)) < cts) ∧
    (∀ a, a ∉ wnodes (kvs ws) → r2 a = r a) ∧
    (∀ a, n_lock (node h2 a) = n_lock (node h a)) ∧
    ts < cts.
Proof.
  intros Hw Hr Hf Hroom HL.
  destruct (LockAllSet_success _ _ _ _ _ _ _ Hw Hroom HL) as (_ & _ & Hnd & Hlt & Hit).
  destruct (lock_commit _ _ _ _ _ _ _ _ _ _ Hw Hr Hf Hroom HL) as (h2 & cs2 & ps2 & Hc & Hrep & Hl).
  exists h2, cs2, ps2, (abs_commit h cts (kvs ws) r). split_and!; try done.
  - intros it Hin Hro. split; [by apply abs_commit_written|]. by apply Hit.
  - intros a. apply abs_commit_other.
Qed.

Lemma local_commit_refines_witness :
  ∃ h2 cs2 ps2 r2,
    CommitLocalWrite (mkWS [sample_item] 0) (set_node sample_heap 8000 (set_lock sample_word)) 8
      = Done h2 ∧ heap_rep h2 cs2 ps2 r2 ∧
    (∀ it, it ∈ kvs sample_ws → it_ro it = false →
       r2 (it_node it) = abs_install 8 (payload sample_heap it) (sample_records (it_node it)) ∧
       n_read_ts (node sample_heap (it_node it)) < 8) ∧
    (∀ a, a ∉ wnodes (kvs sample_ws) → r2 a = sample_records a) ∧
    (∀ a, n_lock (node h2 a) = n_lock (node sample_heap a)) ∧ 7 < 8.
Proof.
  apply (local_commit_refines sample_word sample_ws sample_heap sample_cs sample_ps sample_records 7);
    [done | apply sample_rep | apply sample_fresh | by apply sample_room | by vm_compute].
Defined.

(** Versions keep decreasing along every chain when the transaction's
    timestamp is not below the versions it read, which [get], [write] and the
    deletions maintain. *)
Theorem local_commit_sorted word ws h cs ps r ts h1 ws1 cts :
  word ≠ 0 → heap_rep h cs ps r → fresh_items h cs ps (kvs ws) → ts_room h ts →
  LockAllSet word ws h ts = (true, h1, ws1, cts) →
  (∀ it, it ∈ kvs ws → it_ro it = false → it_seq it ≤ ts) →
  (∀ a, sorted_versions (r a)) →
  ∃ h2 cs2 ps2 r2,
    CommitLocalWrite ws1 h1 cts = Done h2 ∧ heap_rep h2 cs2 ps2 r2 ∧
    ∀ a, sorted_versions (r2 a) ∧ v_seq (r a) ≤ v_seq (r2 a).
Proof.
  intros Hw Hr Hf Hroom HL Hcov Hs.
  destruct (LockAllSet_success _ _ _ _ _ _ _ Hw Hroom HL) as (_ & _ & Hnd & Hlt & Hit).
  destruct (lock_commit _ _ _ _ _ _ _ _ _ _ Hw Hr Hf Hroom HL) as (h2 & cs2 & ps2 & Hc & Hrep & Hl).
  exists h2, cs2, ps2, (abs_commit h cts (kvs ws) r). split_and!; [done..|]. intros a.
  destruct (decide (a ∈ wnodes (kvs ws))) as [Hin|Hnin].
  - apply elem_of_wnodes in Hin as (it & Hin & Hro & <-).
    rewrite abs_commit_written by done. specialize (Hcov it Hin Hro).
    destruct (Hit it Hin Hro) as [Hseq _]. rewrite (nr_seq _ _ _ _ _ (hr_node _ _ _ _ Hr _)) in Hseq.
    split; [apply abs_install_sorted; [done|lia]|cbn; lia].
  - by rewrite abs_commit_other by done.
Qed.

Lemma sample_sorted a : sorted_versions (sample_records a).
Proof.
  unfold sorted_versions, sample_records.
  destruct (decide (8000 = a)) as [<-|]; rewrite ?fn_lookup_insert, ?fn_lookup_insert_ne by done;
    cbn; repeat constructor.
Qed.

Lemma local_commit_sorted_witness :
  ∃ h2 cs2 ps2 r2,
    CommitLocalWrite (mkWS [sample_item] 0) (set_node sample_heap 8000 (set_lock sample_word)) 8
      = Done h2 ∧ heap_rep h2 cs2 ps2 r2 ∧
    ∀ a, sorted_versions (r2 a) ∧ v_seq (sample_records a) ≤ v_seq (r2 a).
Proof.
  apply (local_commit_sorted sample_word sample_ws sample_heap sample_cs sample_ps sample_records 7);
    [done | apply sample_rep | apply sample_fresh | by apply sample_room | by vm_compute | | apply sample_sorted].
  intros it Hin _. apply list_elem_of_singleton in Hin as ->. cbn. lia.
Defined.

(** A failed [LockAllSet] is undone completely: [ReleaseAllSet] returns and
    every node is exactly as before the attempt, whatever item the failure hit. *)
Theorem abort_restores_nodes word ws h ts h1 ws1 ts1 :
  ws_current ws = -1 → live_items h (kvs ws) →
  LockAllSet word ws h ts = (false, h1, ws1, ts1) →
  ts1 = ts ∧ ∃ h2, ReleaseAllSet ws1 h1 = Done h2 ∧ ∀ a, node h2 a = node h a.
Proof. apply lock_fail_release. Qed.

(** Two writes; the second one finds its record locked by somebody else. *)
Definition contended_heap : Heap := set_node sample_heap 2000 (set_lock 99).
Definition contended_ws : WriteSet := mkWS [sample_item; mkItem 0 43 2 2000 NULL 0 false] (-1).

Lemma abort_restores_nodes_witness :
  7 = 7 ∧ ∃ h2,
    ReleaseAllSet (mkWS (kvs contended_ws) 0) (set_node contended_heap 8000 (set_lock sample_word))
      = Done h2 ∧ ∀ a, node h2 a = node contended_heap a.
Proof.
  apply (abort_restores_nodes sample_word contended_ws contended_heap 7); [done| |by vm_compute].
  split; [apply (bool_decide_unpack _); vm_compute; exact I|].
  intros p. change (addrs (kvs contended_ws)) with [3]. intros ->%list_elem_of_singleton. by eexists.
Defined.
