(* ===== verification/RadRead.v ===== *)
(** * Timestamped reads of DBRad

    What the read-only path returns and records, that a recorded read is never
    invalidated by a later local commit, what the checked-in setting of [RC]
    gives up, and which operations keep the transaction's timestamp above the
    versions in its set. *)

From S2P Require Import Prelude LockWord Memstore ClusterHash RadMem DBRad RadWriteSet RadLocal.

(** ** Reading at a timestamp *)

Definition read_result (vlen : nat) (r : option (Z * list Z)) : Z * option (list Z) :=
  match r with Some (v, d) => (v, Some (take vlen d)) | None => (1, None) end.

(** The version to be returned is at least as long as the schema says. *)
Definition returns_long (vlen : nat) (ver : Z) (r : VRecord) : Prop :=
  ∀ v d, abs_read ver r = Some (v, d) → (vlen ≤ length d)%nat.

Lemma abs_find_above ver l : abs_find ver l = None → ∀ v d, (v, d) ∈ l → ver < v.
Proof.
  induction l as [|[v0 d0] l IH]; cbn; intros Hf v d Hin; [by apply not_elem_of_nil in Hin|].
  case_decide; [|done]. apply elem_of_cons in Hin as [[= -> ->]|Hin]; [lia|eauto].
Qed.

(** The version returned is the newest one of the record not above [ver]. *)
Definition versions (r : VRecord) : list (Z * list Z) :=
  match v_cur r with Some c => (v_seq r, c) :: v_hist r | None => v_hist r end.

Definition newest_below (ver : Z) (r : VRecord) (v : Z) (d : list Z) : Prop :=
  (v, d) ∈ versions r ∧ v ≤ ver ∧ ∀ v' d', (v', d') ∈ versions r → v' ≤ ver → v' ≤ v.

Lemma abs_read_newest ver r v d :
  sorted_versions r → abs_read ver r = Some (v, d) → newest_below ver r v d.
Proof.
  unfold sorted_versions, abs_read, newest_below, versions.
  intros [Hs Hall]%StronglySorted_inv Hr. case_decide as Hle.
  - apply fmap_Some in Hr as (d' & -> & [= -> ->]). split_and!; [by left|done|].
    intros v' d'' [[= -> ->]|Hin]%elem_of_cons _; [done|].
    rewrite Forall_forall in Hall. apply (list_elem_of_fmap_2 fst), Hall in Hin. cbn in Hin. lia.
  - destruct (abs_find_newest _ _ _ _ Hs Hr) as (Hin & Hv & Hmax).
    destruct (v_cur r); [|done]. split_and!; [by right|done|].
    intros v' d' [[= -> ->]|Hin']%elem_of_cons Hv'; [lia|eauto].
Qed.

(** Nodes and buffers that a reader may change: [off] and [read_ts] only. *)
Definition read_only_change (h h' : Heap) : Prop :=
  bufs h' = bufs h ∧ brk h' = brk h ∧
  ∀ a, same_versions (node h a) (node h' a) ∧ n_lock (node h' a) = n_lock (node h a).

Section store.
Context {St : Type} `{!Memstore St, !MemstoreLaws St}.

(** Looking up the node of a key leaves records alone. *)
Lemma store_node_spec (w w' : World St) t k a :
  store_node w t k = Done (w', a) →
  ∃ s s', stores_ w !! t = Some s ∧ stores_ w' = <[t := s']> (stores_ w) ∧
    vlens w' = vlens w ∧
    (∃ m, GetWithInsert s (nodes (heap w)) k = Done (s', m, a)) ∧
    bufs (heap w') = bufs (heap w) ∧ brk (heap w') = brk (heap w) ∧
    ∀ b, same_record (node (heap w') b) (node (heap w) b).
Proof.
  unfold store_node. destruct (stores_ w !! t) as [s|] eqn:Hs; [|done].
  intros H2. apply bind_Done in H2 as ([[s' m'] a'] & Hg & H2). simplify_eq.
  exists s, s'. cbn. split_and!; [done..|eauto|done|done|].
  intros b. by eapply GetWithInsert_nodes.
Qed.

Lemma store_node_hit (w : World St) t k s a :
  stores_ w !! t = Some s → ms_inv s → Get s k = Done (Some a) →
  ∃ w', store_node w t k = Done (w', a) ∧ vlens w' = vlens w ∧ stores_ w' = stores_ w ∧
    bufs (heap w') = bufs (heap w) ∧ brk (heap w') = brk (heap w) ∧
    ∀ b, same_record (node (heap w') b) (node (heap w) b).
Proof.
  intros Hs Hi Hg. destruct (GetWithInsert_hit s (nodes (heap w)) k a Hi Hg) as [m Hm].
  unfold store_node. rewrite Hs, Hm. cbn. eexists. split_and!; [done|done| |done|done|].
  - cbn. by rewrite insert_id.
  - intros b. by eapply GetWithInsert_nodes.
Qed.

Lemma same_record_versions n n' : same_record n' n → same_versions n n'.
Proof. intros (?&?&?&?&?&?)%same_record_fields. by split_and!. Qed.

(** The whole read, on a record whose lock is free (or whose version already
    covers the reader) and whose read lock is free. *)
Lemma get_ro_versioned_reads (w : World St) cs ps r t k ver s a vl :
  stores_ w !! t = Some s → ms_inv s → Get s k = Done (Some a) → vlens w !! t = Some vl →
  heap_rep (heap w) cs ps r → returns_long vl ver (r a) →
  n_seq (node (heap w) a) ≠ 1 → n_read_lock (node (heap w) a) = 0 →
  n_lock (node (heap w) a) = 0 ∨ ver ≤ n_seq (node (heap w) a) →
  ∃ w', get_ro_versioned false w t k ver = Done (w', read_result vl (abs_read ver (r a))) ∧
    stores_ w' = stores_ w ∧ vlens w' = vlens w ∧ heap_rep (heap w') cs ps r ∧
    read_only_change (heap w) (heap w') ∧
    n_read_ts (node (heap w') a) = Z.max ver (n_read_ts (node (heap w) a)).
Proof.
  intros Hs Hi Hg Hvl Hr Hlen Hs1 Hrl Hlk.
  destruct (store_node_hit w t k s a Hs Hi Hg) as (w1 & Hn & Hv1 & Hst1 & Hb & Hbrk & Hsame).
  unfold get_ro_versioned, get_ro_versioned_helper, vlen. rewrite Hvl. cbn. rewrite Hn. cbn.
  assert (Hnode : ∀ b, same_versions (node (heap w) b) (node (heap w1) b) ∧
                        n_lock (node (heap w1) b) = n_lock (node (heap w) b) ∧
                        n_read_ts (node (heap w1) b) = n_read_ts (node (heap w) b) ∧
                        n_read_lock (node (heap w1) b) = n_read_lock (node (heap w) b)).
  { intros b. pose proof (Hsame b) as Hb'. apply same_record_versions in Hb' as ?.
    apply same_record_fields in Hb'. naive_solver. }
  destruct (Hnode a) as (Hver & Hl & Hrt & Hrlk). destruct Hver as (Hseq & _ & _).
  assert (Hr1 : heap_rep (heap w1) cs ps r)
    by (eapply heap_rep_same_versions; [done| |done]; intros b; apply Hnode).
  case_decide as Ht; rewrite MAX_spec in Ht.
  - rewrite Hrlk, Hrl. rewrite decide_False by lia. cbn. rewrite node_set_eq. cbn.
    rewrite decide_False by lia.
    set (h2 := set_node (heap w1) a _).
    assert (Hnode2 : ∀ b, same_versions (node (heap w1) b) (node h2 b) ∧
                           n_lock (node h2 b) = n_lock (node (heap w1) b)).
    { intros b. unfold h2. rewrite node_set. by case_decide. }
    assert (Hr2 : heap_rep h2 cs ps r)
      by (apply (heap_rep_same_versions (heap w1)); [done| |exact Hr1]; intros b; apply Hnode2).
    rewrite (get_helper_reads h2 cs ps r); [|done|unfold h2; rewrite node_set_eq; cbn; lia|
      done].
    cbn. eexists. split; [done|]. cbn. do 3 (split; [done|]). split.
    + split; [done|]. split; [done|]. intros b. destruct (Hnode b) as (H1 & H2 & _), (Hnode2 b) as [H3 H4].
      split; [|congruence]. destruct H1 as (?&?&?), H3 as (?&?&?). split_and!; congruence.
    + unfold h2. rewrite node_set_eq. cbn. rewrite MAX_spec. lia.
  - rewrite (get_helper_reads (heap w1) cs ps r); [|done|lia|done].
    cbn. eexists. split; [done|]. do 3 (split; [done|]). split; [|lia].
    split; [done|]. split; [done|]. intros b. destruct (Hnode b) as (? & ? & _). done.
Qed.
End store.

(** Nothing is returned only for a deleted record, or below its oldest version. *)
Definition invisible (ver : Z) (r : VRecord) : Prop :=
  (v_cur r = None ∧ v_seq r ≤ ver) ∨ ∀ v d, (v, d) ∈ versions r → ver < v.

Lemma abs_read_invisible ver r : abs_read ver r = None → invisible ver r.
Proof.
  unfold abs_read, invisible, versions. case_decide as Hle.
  - intros Hn%fmap_None. by left.
  - intros Hf. right. intros v d Hin. destruct (v_cur r); [|by eapply abs_find_above].
    apply elem_of_cons in Hin as [[= -> ->]|Hin]; [lia|by eapply abs_find_above].
Qed.

(** ** A sample server: table 0 is a hash table with key 7 at address 8000 *)

Definition sample_world : World ClusterHash :=
  mkWorld {[ 0 := sample_remote ]} ∅ {[ 0 := 2%nat ]} {[ 0 := 8%nat ]} sample_heap 1.

Lemma sample_get : Get sample_remote 7 = Done (Some 8000).
Proof. vm_compute. reflexivity. Qed.

(** ** Properties *)

(** With [RC] defined as 1 the current version is returned. *)
Lemma get_helper_rc h cs ps r a ver vl :
  heap_rep h cs ps r → n_seq (node h a) ≠ 1 → (∀ d, v_cur (r a) = Some d → (vl ≤ length d)%nat) →
  get_helper true h a ver vl = Done (read_result vl ((λ d, (v_seq (r a), d)) <$> v_cur (r a))).
Proof.
  intros Hr H1 Hlen. pose proof (hr_node _ _ _ _ Hr a) as [Hseq Hcur _]. unfold get_helper.
  rewrite decide_True by auto. rewrite Hseq in *. inversion Hcur as [Hv Hcs Hc|p b Hp Hb Hv Hcs Hc].
  - by rewrite decide_False by auto.
  - rewrite decide_True by done. rewrite decide_False by done. unfold load. rewrite Hb. cbn [mbind result_bind].
    unfold copy_payload. rewrite decide_True by (apply Hlen; by rewrite <-Hc). done.
Qed.



(** With [RC] 0 recorded reads are stable.  Once a reader has read a record at its
    timestamp, a transaction that then locks its write set and commits (whatever
    timestamp it started with) does not change what a second read at that
    timestamp returns.  The one exception, excluded by the hypothesis, is a record
    whose deletion is newer than the reader. *)
Theorem snapshot_stable {St} `{!Memstore St, !MemstoreLaws St}
    (w w1 : World St) cs ps r t k ver s a vl res word ws ts h2 ws2 cts h3 :
  stores_ w !! t = Some s → ms_inv s → Get s k = Done (Some a) → vlens w !! t = Some vl →
  heap_rep (heap w) cs ps r → returns_long vl ver (r a) →
  n_seq (node (heap w) a) ≠ 1 → n_read_lock (node (heap w) a) = 0 →
  n_lock (node (heap w) a) = 0 ∨ ver ≤ n_seq (node (heap w) a) →
  v_cur (r a) ≠ None ∨ v_seq (r a) ≤ ver →
  get_ro_versioned false w t k ver = Done (w1, res) →
  word ≠ 0 → fresh_items (heap w1) cs ps (kvs ws) → ts_room (heap w1) ts → 0 < ts →
  LockAllSet word ws (heap w1) ts = (true, h2, ws2, cts) →
  CommitLocalWrite ws2 h2 cts = Done h3 →
  n_read_lock (node h3 a) = 0 →
  ∃ w4, get_ro_versioned false (set_heap w1 h3) t k ver = Done (w4, res).
Proof.
  intros Hs Hi Hg Hvl Hr Hlen Hs1 Hrl Hlk Hdel Hget Hw Hf Hroom Hts HL HC Hrl3.
  destruct (get_ro_versioned_reads w cs ps r t k ver s a vl) as
    (w' & Hget' & Hst & Hvl' & Hr1 & Hch & Hrts); [done..|].
  rewrite Hget in Hget'. injection Hget' as <- ->.
  destruct (LockAllSet_success _ _ _ _ _ _ _ Hw Hroom HL) as (_ & _ & Hnd & Hlt & Hit).
  destruct (lock_commit _ _ _ _ _ _ _ _ _ _ Hw Hr1 Hf Hroom HL) as (h2' & cs2 & ps2 & Hc & Hrep & Hl).
  rewrite HC in Hc. injection Hc as <-.
  destruct Hch as (_ & _ & Hch). destruct (Hch a) as ((Hseq & _) & Hlock).
  set (r3 := abs_commit (heap w1) cts (kvs ws) r) in *.
  pose proof (nr_seq _ _ _ _ _ (hr_node _ _ _ _ Hrep a)) as Hq3.
  pose proof (nr_seq _ _ _ _ _ (hr_node _ _ _ _ Hr a)) as Hq.
  assert (Hsame : abs_read ver (r3 a) = abs_read ver (r a) ∧
                  n_seq (node h3 a) ≠ 1 ∧
                  (n_lock (node h3 a) = 0 ∨ ver ≤ n_seq (node h3 a))).
  { destruct (decide (a ∈ wnodes (kvs ws))) as [Hin|Hnin].
    - apply elem_of_wnodes in Hin as (it & Hin & Hro & <-). unfold r3 in *.
      rewrite abs_commit_written in * by done. destruct (Hit it Hin Hro) as [_ Hcts].
      split_and!; [apply abs_read_install_old; [lia|done]|cbn in Hq3; lia|].
      right. cbn in Hq3. lia.
    - unfold r3 in *. rewrite abs_commit_other in * by done.
      split_and!; [done|congruence|]. rewrite Hl, Hq3, Hlock, <-Hq. done. }
  destruct Hsame as (Hread & Hn1 & Hfree).
  destruct (get_ro_versioned_reads (set_heap w1 h3) cs2 ps2 r3 t k ver s a vl) as (w4 & Hget4 & _);
    cbn; rewrite ?Hst, ?Hvl'; [done..| |done|done|done|].
  - intros v d. rewrite Hread. apply Hlen.
  - exists w4. by rewrite Hget4, Hread.
Qed.

(** The reader at 4 sees version 3; a writer then commits at 8. *)
Definition read_world : World ClusterHash :=
  match get_ro_versioned false sample_world 0 7 4 with Done (w, _) => w | _ => sample_world end.
Definition locked_heap : Heap := set_node (heap read_world) 8000 (set_lock sample_word).
Definition committed_heap : Heap :=
  match CommitLocalWrite (mkWS [sample_item] 0) locked_heap 8 with Done h => h | _ => locked_heap end.

Lemma snapshot_stable_witness :
  ∃ w4, get_ro_versioned false (set_heap read_world committed_heap) 0 7 4 = Done (w4, (3, Some [9; 9])).
Proof.
  apply (snapshot_stable sample_world read_world sample_cs sample_ps sample_records 0 7 4 sample_remote
           8000 2 (3, Some [9; 9]) sample_word sample_ws 7 locked_heap (mkWS [sample_item] 0) 8
           committed_heap);
    [done | apply sample_remote_wf | apply sample_get | done | apply sample_rep
    | | done | done | by left | by left | by vm_compute | done | | | done | by vm_compute
    | by vm_compute | by vm_compute].
  - intros v d. vm_compute. intros [= <- <-]. lia.
  - apply (fresh_items_bufs sample_heap); [by vm_compute|apply sample_fresh].
  - split; [lia|]. intros b. destruct (decide (8000 = b)) as [<-|]; [by vm_compute|].
    replace (node (heap read_world) b) with MemNode_new; [done|].
    unfold node, node_at. replace (nodes (heap read_world)) with
      ({[ 8000 := set_read_ts 4 (set_off 69440 sample_node) ]} : NodeMem) by (by vm_compute).
    by rewrite lookup_singleton_ne.
Defined.

(** A committed write is visible.  After lock and commit at [cts], a read at
    any timestamp not below [cts] returns the committed payload with version
    [cts], or the marker for a deletion. *)
Theorem commit_visible {St} `{!Memstore St, !MemstoreLaws St}
    (w : World St) cs ps r t k ver s it vl word ws ts h2 ws2 cts :
  stores_ w !! t = Some s → ms_inv s → Get s k = Done (Some (it_node it)) → vlens w !! t = Some vl →
  heap_rep (heap w) cs ps r →
  word ≠ 0 → fresh_items (heap w) cs ps (kvs ws) → ts_room (heap w) ts → 0 < ts →
  LockAllSet word ws (heap w) ts = (true, h2, ws2, cts) →
  it ∈ kvs ws → it_ro it = false →
  (∀ d, payload (heap w) it = Some d → (vl ≤ length d)%nat) →
  n_lock (node (heap w) (it_node it)) = 0 →
  cts ≤ ver →
  ∃ h3, CommitLocalWrite ws2 h2 cts = Done h3 ∧
    (n_read_lock (node h3 (it_node it)) = 0 →
     ∃ w4, get_ro_versioned false (set_heap w h3) t k ver =
       Done (w4, match payload (heap w) it with
                 | Some d => (cts, Some (take vl d)) | None => (1, None) end)).
Proof.
  intros Hs Hi Hg Hvl Hr Hw Hf Hroom Hts HL Hin Hro Hlen Hfree Hver.
  destruct (LockAllSet_success _ _ _ _ _ _ _ Hw Hroom HL) as (_ & _ & Hnd & Hlt & Hit).
  destruct (lock_commit _ _ _ _ _ _ _ _ _ _ Hw Hr Hf Hroom HL) as (h3 & cs2 & ps2 & Hc & Hrep & Hl).
  exists h3. split; [done|]. intros Hrl.
  pose proof (nr_seq _ _ _ _ _ (hr_node _ _ _ _ Hrep (it_node it))) as Hq.
  assert (Hread : abs_read ver (abs_commit (heap w) cts (kvs ws) r (it_node it)) =
                  (λ d, (cts, d)) <$> payload (heap w) it)
    by (rewrite abs_commit_written by done; by apply abs_read_install_new).
  rewrite abs_commit_written in Hq by done. cbn in Hq.
  destruct (get_ro_versioned_reads (set_heap w h3) cs2 ps2 (abs_commit (heap w) cts (kvs ws) r)
              t k ver s (it_node it) vl) as (w4 & Hget & _); try done.
  - intros v d. rewrite Hread. destruct (payload (heap w) it) eqn:Hp; [|done]. intros [= <- <-]. by apply Hlen.
  - cbn. lia.
  - left. cbn. by rewrite Hl.
  - exists w4. rewrite Hget, Hread. by destruct (payload (heap w) it).
Qed.

Definition sample_locked : Heap := set_node sample_heap 8000 (set_lock sample_word).

Lemma commit_visible_witness :
  ∃ h3, CommitLocalWrite (mkWS [sample_item] 0) sample_locked 8 = Done h3 ∧
    (n_read_lock (node h3 8000) = 0 →
     ∃ w4, get_ro_versioned false (set_heap sample_world h3) 0 7 9 = Done (w4, (8, Some [7; 7]))).
Proof.
  apply (commit_visible sample_world sample_cs sample_ps sample_records 0 7 9 sample_remote
           sample_item 2 sample_word sample_ws 7);
    [done | apply sample_remote_wf | apply sample_get | done | apply sample_rep | done
    | apply sample_fresh | by apply sample_room | done | by vm_compute | by left | done
    | | done | done].
  intros d. vm_compute. intros [= <-]. lia.
Defined.

(** The checked-in build defines [RC] as 1, which compiles the comparison with
    the timestamp away: the read-only operations return the same bytes for every
    timestamp, and record none. *)
Theorem rc_read_ignores_timestamp {St} `{!Memstore St} (w : World St) t k ver1 ver2 :
  get_ro_versioned true w t k ver1 = get_ro_versioned true w t k ver2 ∧
  ∀ w' res, get_ro_versioned true w t k ver1 = Done (w', res) →
    ∃ a, store_node w t k = Done (w', a) ∧
    (n_value (node (heap w') a) ≠ NULL → res.1 = n_seq (node (heap w') a)).
Proof.
  assert (Hrc : ∀ v1 h a vl, get_helper true h a v1 vl =
    (let tmp := n_value (node h a) in
     if decide (tmp ≠ NULL) then
       if decide (n_seq (node h a) = 1) then Spin
       else b ← load h tmp; val ← copy_payload b vl; Done (n_seq (node h a), Some val)
     else Done (1, None))).
  { intros. unfold get_helper. by rewrite decide_True by auto. }
  unfold get_ro_versioned, get_ro_versioned_helper. destruct (vlen w t) as [vl| |]; cbn; [|done..].
  destruct (store_node w t k) as [[w1 a1]| |]; cbn; [|done..].
  rewrite !decide_False by naive_solver. rewrite !Hrc. split; [done|]. cbn.
  intros w' res H2. apply bind_Done in H2 as (x & Hx & H2). simplify_eq.
  exists a1. split; [done|]. intros Hn. rewrite decide_True in Hx by done.
  case_decide; [done|]. apply bind_Done in Hx as (b & _ & Hx).
  apply bind_Done in Hx as (val & _ & Hx). by simplify_eq.
Qed.

Lemma rc_read_ignores_timestamp_witness :
  get_ro_versioned true sample_world 0 7 4 = get_ro_versioned true sample_world 0 7 100 ∧
  ∀ w' res, get_ro_versioned true sample_world 0 7 4 = Done (w', res) →
    ∃ a, store_node sample_world 0 7 = Done (w', a) ∧
    (n_value (node (heap w') a) ≠ NULL → res.1 = n_seq (node (heap w') a)).
Proof. apply rc_read_ignores_timestamp. Defined.

(** The transaction's timestamp is not below any version in its set. *)
Definition covers (tx : DBRad) : Prop :=
  ∀ it, it ∈ kvs (rwset tx) → it_seq it ≤ timestamp tx.

Lemma WriteSet_Add_inv ws it ws' :
  WriteSet_Add ws it = Done ws' → kvs ws' = kvs ws ++ [it] ∧ ws_current ws' = ws_current ws.
Proof. unfold WriteSet_Add. intros H2. done_inv H2. by simplify_eq. Qed.

Lemma covers_add tx ws it ts :
  covers tx → WriteSet_Add (rwset tx) it = Done ws → timestamp tx ≤ ts → it_seq it ≤ ts →
  covers (set_timestamp (set_rwset tx ws) ts).
Proof.
  intros Hc [Hk _]%WriteSet_Add_inv Hle Hit it' Hin. cbn in *. rewrite Hk in Hin.
  apply elem_of_app in Hin as [Hin|Hin%list_elem_of_singleton]; [apply Hc in Hin; lia|by subst].
Qed.

Lemma covers_upd tx i it ts :
  covers tx → timestamp tx ≤ ts → it_seq it ≤ ts →
  covers (set_timestamp (set_rwset tx (upd_item (rwset tx) i it)) ts).
Proof.
  intros Hc Hle Hit it' Hin. cbn in *.
  apply elem_of_insert_inv in Hin as [->|Hin]; [done|]. apply Hc in Hin. lia.
Qed.

Lemma find_item_seq P l i it : find_item P l = Some (i, it) → it ∈ l.
Proof.
  revert i. induction l as [|x l IH]; cbn; intros i Hf; [done|].
  destruct (P x); [simplify_eq; by left|].
  apply fmap_Some in Hf as ([j it'] & Hf & [= -> ->]). right. by eapply IH.
Qed.

Lemma delete_item_covers h tx i it h' tx' :
  covers tx → it ∈ kvs (rwset tx) → delete_item h tx i it = Done (h', tx') → covers tx'.
Proof.
  intros Hc Hin H2. unfold delete_item in H2. done_inv H2. simplify_eq.
  rewrite MAX_spec. apply covers_upd; [done|lia|cbn; lia].
Qed.

Lemma add_delete_covers h tx t k a tx' :
  covers tx → add_delete h tx t k a = Done tx' → covers tx'.
Proof.
  intros Hc H2. unfold add_delete in H2. apply bind_Done in H2 as (ws & Hadd & H2). simplify_eq.
  rewrite MAX_spec. eapply covers_add; [done|done|lia|cbn; lia].
Qed.

(** [get], both forms of [write] and the three deletions keep the
    transaction's timestamp at or above every version in its set, which is what
    makes the commit timestamp larger than the versions it replaces. *)
Theorem ops_keep_cover {St} `{!Memstore St} (w : World St) tx t k :
  covers tx →
  (∀ len w' tx' s, get w tx t k len = Done (w', tx', s) → covers tx') ∧
  (∀ tx', write tx t k = Done tx' → covers tx') ∧
  (∀ tx', write_last tx = Done tx' → covers tx') ∧
  (∀ w' tx', delete_ w tx t k = Done (w', tx') → covers tx') ∧
  (∀ a w' tx', delete_by_node w tx t a = Done (w', tx') → covers tx') ∧
  (∀ w' tx', delete_index w tx t k = Done (w', tx') → covers tx').
Proof.
  intros Hc. split_and!.
  - intros len w' tx' s H2. unfold get in H2. cbn in H2.
    apply bind_Done in H2 as ([w1 a] & _ & H2). case_decide; [by simplify_eq|]. case_decide; [done|].
    apply bind_Done in H2 as (b & _ & H2). apply bind_Done in H2 as (d & _ & H2).
    apply bind_Done in H2 as (ws & Hadd & H2). simplify_eq. rewrite MAX_spec.
    apply (covers_add tx ws _ (Z.max (n_seq (node (heap w1) a)) (timestamp tx)) Hc Hadd); cbn; lia.
  - intros tx' H2. unfold write in H2. destruct (find_item _ _) as [[i it]|]; [|done].
    simplify_eq. rewrite MAX_spec. apply covers_upd; [done|lia|cbn; lia].
  - intros tx' H2. unfold write_last in H2. destruct (last _) as [it|]; [|done].
    simplify_eq. rewrite MAX_spec. apply covers_upd; [done|lia|cbn; lia].
  - intros w' tx' H2. unfold delete_ in H2. destruct (find_item _ _) as [[i it]|] eqn:Hf.
    + apply bind_Done in H2 as ([h' tx1] & Hd & H2). simplify_eq.
      eapply delete_item_covers; [done| |done]. by eapply find_item_seq.
    + apply bind_Done in H2 as ([w1 a] & _ & H2). apply bind_Done in H2 as (tx1 & Hd & H2).
      simplify_eq. by eapply add_delete_covers.
  - intros a w' tx' H2. unfold delete_by_node in H2. destruct (find_item _ _) as [[i it]|] eqn:Hf.
    + apply bind_Done in H2 as ([h' tx1] & Hd & H2). simplify_eq.
      eapply delete_item_covers; [done| |done]. by eapply find_item_seq.
    + apply bind_Done in H2 as (tx1 & Hd & H2). simplify_eq. by eapply add_delete_covers.
  - intros w' tx' H2. unfold delete_index in H2. apply bind_Done in H2 as ([w1 a] & _ & H2).
    case_decide; [by simplify_eq|]. apply bind_Done in H2 as (tx1 & Hd & H2).
    simplify_eq. by eapply add_delete_covers.
Qed.

Definition sample_tx : DBRad := mkTx (mkWS [sample_item] (-1)) 6 5 0 false.

Lemma ops_keep_cover_witness :
  (∀ len w' tx' s, get sample_world sample_tx 0 7 len = Done (w', tx', s) → covers tx') ∧
  (∀ tx', write sample_tx 0 7 = Done tx' → covers tx') ∧
  (∀ tx', write_last sample_tx = Done tx' → covers tx') ∧
  (∀ w' tx', delete_ sample_world sample_tx 0 7 = Done (w', tx') → covers tx') ∧
  (∀ a w' tx', delete_by_node sample_world sample_tx 0 a = Done (w', tx') → covers tx') ∧
  (∀ w' tx', delete_index sample_world sample_tx 0 7 = Done (w', tx') → covers tx').
Proof.
  apply (ops_keep_cover sample_world sample_tx 0 7).
  intros it Hin. apply list_elem_of_singleton in Hin as ->. cbn. lia.
Defined.

(** An insertion over the record of key 7 (version 5) by a transaction at 3. *)
Definition insert_tx : DBRad := mkTx WriteSet_Reset 3 5 0 false.

(** [insert] is the exception: it adds the current version of the record to
    the set without raising the timestamp.  A transaction at timestamp 3 that
    inserts over a record of version 5 passes lock and validation with commit
    timestamp 4, so the record's version goes backwards. *)
Theorem insert_version_regresses :
  ∃ w tx h ws h', insert sample_world insert_tx 0 7 [4; 4] = Done (w, tx) ∧
    ¬ covers tx ∧
    LockAllSet sample_word (rwset tx) (heap w) (timestamp tx) = (true, h, ws, 4) ∧
    CommitLocalWrite ws h 4 = Done h' ∧
    n_seq (node sample_heap 8000) = 5 ∧ n_seq (node h' 8000) = 4.
Proof.
  destruct (insert sample_world insert_tx 0 7 [4; 4]) as [[w tx]| |] eqn:Hi; [|vm_compute in Hi; done..].
  exists w, tx, (set_node (heap w) 8000 (set_lock sample_word)),
    (mkWS (kvs (rwset tx)) 0).
  vm_compute in Hi. simplify_eq. eexists. split_and!; [done| |by vm_compute..].
  intros Hcov. specialize (Hcov (mkItem 0 7 2 8000 4 5 false) ltac:(by left)). cbn in Hcov. lia.
Qed.

(** Writing over a deletion marker starts a new history.  The replaced value
    has no buffer to carry the link, so readers below the new version no longer
    find the versions from before the deletion. *)
Theorem reinsert_drops_history h a sq addr ts ver vlen :
  n_value (node h a) = NULL → ver < ts → ts ≠ 1 →
  ∃ h', install h a sq addr ts = Done h' ∧ get_helper false h' a ver vlen = Done (1, None).
Proof.
  intros Hn Hlt H1. exists (installed h a sq addr ts). split.
  - apply install_eq. by rewrite Hn.
  - unfold get_helper. rewrite node_installed_eq. cbn.
    rewrite decide_False by naive_solver lia. rewrite decide_False by done. by rewrite Hn.
Qed.

Definition deleted_heap : Heap :=
  mkHeap {[ 8000 := mkMemNode 0 9 NULL 1 0 0 0 ]}
    {[ 1 := mkBuf (Some (mkHdr NULL 5)) [1; 2]; 3 := mkBuf None [7; 7] ]} 4.

Lemma reinsert_drops_history_witness :
  get_helper false deleted_heap 8000 6 2 = Done (5, Some [1; 2]) ∧
  ∃ h', install deleted_heap 8000 9 3 12 = Done h' ∧ get_helper false h' 8000 6 2 = Done (1, None).
Proof. split; [by vm_compute|]. apply reinsert_drops_history; [done | lia | lia]. Defined.
