(* ===== verification/RemoteSet.v ===== *)
(** * RemoteSet: the remote half of a transaction's read-write set

    Models src/drtm-dst/src/db/remote_set.{h,cc} and remote_set_structs.h.  A
    transaction collects its remote reads in one request message, receives the
    values, promotes some of them to writes, and at commit broadcasts a lock, a
    release or a commit message to the servers it writes to.

    Messages are typed values: the item array of a message is the list of the
    structs written between the header and the end pointer of its buffer, and
    [num] is the item count stored in the header.  The size of the three message
    buffers ([MAX_MSG_SIZE]) is kept, with the sizes of the structs. *)

From S2P Require Import Prelude Memstore.

Definition MAX_MSG_SIZE : Z := 30960.
Definition MAX_SERVER_TO_SENT : nat := 32.
Definition MAXSIZE : nat := 1024.

Inductive REQ_TYPE :=
  | REQ_READ | REQ_READ_IDX | REQ_INSERT | REQ_INSERT_IDX
  | REQ_RANGE_SEARCH | REQ_WRITE | REQ_READ_LOCK.

#[export] Instance REQ_TYPE_eq_dec : EqDecision REQ_TYPE.
Proof. solve_decision. Defined.

(** ** Structs of remote_set_structs.h and msg_format.hpp *)

Record RemoteSetItem := mkRSItem {
  ri_pid : Z; ri_tableid : Z; ri_seq : Z; ri_val : option (list Z); ri_key : Z; ri_node : Z }.

(** [rq_key] is the 40-byte key area as a number; [short_key] its first 8 bytes. *)
Record RemoteSetRequestItem := mkReqItem {
  rq_type : REQ_TYPE; rq_pid : Z; rq_tableid : Z; rq_idx : Z; rq_node : Z; rq_seq : Z; rq_key : Z }.

Definition short_key (it : RemoteSetRequestItem) : Z := u64 (rq_key it).
Definition long_key (it : RemoteSetRequestItem) : Z := rq_key it.

Record RemoteLockItem := mkLockItem { lk_pid : Z; lk_seq : Z; lk_node : Z; lk_tableid : Z }.

(** [RTXRemoteWriteItem] followed by its payload bytes. *)
Record RemoteWriteItem := mkWriteItem {
  wi_pid : Z; wi_node : Z; wi_payload : Z; wi_tableid : Z; wi_data : list Z }.

Record RequestHeader := mkReqHeader { rh_cor_id : Z; rh_num : Z; rh_padding : Z }.

Record ReplyHeader := mkReplyHeader { num_items_ : Z; partition_id_ : Z; payload_ : Z }.

(** [RemoteSetReplyItem] followed by its payload bytes. *)
Record RemoteSetReplyItem := mkReplyItem {
  rp_seq : Z; rp_node : Z; rp_idx : Z; rp_data : list Z }.

Definition sizeof_RequestHeader : Z := 16.
Definition sizeof_RemoteSetRequestItem : Z := 64.
Definition sizeof_RemoteLockItem : Z := 32.
Definition sizeof_RTXRemoteWriteItem : Z := 24.

(** A broadcast: header, items and destinations. *)
Record Message (A : Type) := mkMsg { m_header : RequestHeader; m_items : list A; m_to : list Z }.
Arguments mkMsg {A}.
Arguments m_header {A}.
Arguments m_items {A}.
Arguments m_to {A}.

(** The items a handler's loop [for(uint i = 0; i < num_items; ++i)] goes over.
    The count is a signed byte converted to unsigned, and nothing stops the loop
    at the end of the message. *)
Definition msg_items {A} (m : Message A) : result (list A) :=
  let n := u32 (i8 (rh_num (m_header m))) in
  if decide (n ≤ Z.of_nat (length (m_items m))) then Done (take (Z.to_nat n) (m_items m))
  else Crash invalid_access.

(** ** State *)

Record RemoteSet := mkRS {
  elems_ : Z;
  write_items_ : Z;
  read_items_ : Z;
  kvs_ : gmap Z RemoteSetItem;
  request_buf_ : list RemoteSetRequestItem;
  lock_request_buf_ : list RemoteLockItem;
  write_back_request_buf_ : list RemoteWriteItem;
  max_time_ : Z;
  meta_size_ : Z;
  rs_cor_id_ : Z;
  need_validate_ : bool;
  server_set_ : gset Z;
  write_server_set_ : gset Z;
  read_servers_ : list Z;
  write_servers_ : list Z;
}.

(** Entries of [kvs_] as the constructor leaves them. *)
Definition RemoteSetItem_new : RemoteSetItem := mkRSItem (u8 (-1)) (-1) 0 None 0 NULL.
Definition kv (rs : RemoteSet) (i : Z) : RemoteSetItem := default RemoteSetItem_new (kvs_ rs !! i).

Definition write_size (it : RemoteWriteItem) : Z :=
  sizeof_RTXRemoteWriteItem + Z.of_nat (length (wi_data it)).

(** Bytes from the start of each buffer to its end pointer. *)
Definition request_used (rs : RemoteSet) : Z :=
  sizeof_RequestHeader + meta_size_ rs +
  sizeof_RemoteSetRequestItem * Z.of_nat (length (request_buf_ rs)).
Definition lock_used (rs : RemoteSet) : Z :=
  sizeof_RequestHeader + sizeof_RemoteLockItem * Z.of_nat (length (lock_request_buf_ rs)).
Definition write_back_used (rs : RemoteSet) : Z :=
  sizeof_RequestHeader + foldr (λ it n, write_size it + n) 0 (write_back_request_buf_ rs).

(** Writing [n] bytes at an end pointer. *)
Definition room (used n : Z) : result unit :=
  if decide (used + n ≤ MAX_MSG_SIZE) then Done tt else Crash invalid_access.

(** [if(set.find(pid) == set.end()) { set.insert(pid); servers[num++] = pid; }] *)
Definition add_server (set : gset Z) (servers : list Z) (pid : Z) : result (gset Z * list Z) :=
  if decide (pid ∈ set) then Done (set, servers)
  else if decide (length servers < MAX_SERVER_TO_SENT)%nat then Done ({[pid]} ∪ set, servers ++ [pid])
  else Crash invalid_access.

(** ** Operations *)

(** [RemoteSet::update_write_buf] *)
Definition update_write_buf (rs : RemoteSet) : RemoteSet :=
  mkRS (elems_ rs) (write_items_ rs) (read_items_ rs) (kvs_ rs) (request_buf_ rs) [] []
    (max_time_ rs) (meta_size_ rs) (rs_cor_id_ rs) (need_validate_ rs)
    (server_set_ rs) (write_server_set_ rs) (read_servers_ rs) (write_servers_ rs).

(** [RemoteSet::clear]: the counters, the read message and the server lists; the
    lock and the write-back messages keep their items. *)
Definition clear (rs : RemoteSet) (meta_len : Z) : RemoteSet :=
  mkRS 0 0 0 (kvs_ rs) [] (lock_request_buf_ rs) (write_back_request_buf_ rs)
    (max_time_ rs) meta_len (rs_cor_id_ rs) false ∅ ∅ [] [].

(** [RemoteSet::RemoteSet]; [max_time_] is not initialised, 0 stands for its value. *)
Definition RemoteSet_new (cid : Z) : RemoteSet :=
  clear (update_write_buf
           (mkRS 0 0 0 ∅ [] [] [] 0 0 cid false ∅ ∅ [] [])) 0.

(** [RemoteSet::reset] *)
Definition reset (rs : RemoteSet) : RemoteSet :=
  mkRS 0 (write_items_ rs) (read_items_ rs) (kvs_ rs) (request_buf_ rs) (lock_request_buf_ rs)
    (write_back_request_buf_ rs) (max_time_ rs) (meta_size_ rs) (rs_cor_id_ rs) false
    (server_set_ rs) (write_server_set_ rs) (read_servers_ rs) (write_servers_ rs).

(** Common part of the two overloads of [add]: append one request item. *)
Definition add_item (rs : RemoteSet) (kvi : RemoteSetItem) (rq : RemoteSetRequestItem) (pid : Z)
  : result (RemoteSet * Z) :=
  let cur := elems_ rs in
  _ ← room (request_used rs) sizeof_RemoteSetRequestItem;
  '(set, servers) ← add_server (server_set_ rs) (read_servers_ rs) pid;
  Done (mkRS (cur + 1) (write_items_ rs) (read_items_ rs) (<[cur := kvi]> (kvs_ rs))
          (request_buf_ rs ++ [rq]) (lock_request_buf_ rs) (write_back_request_buf_ rs)
          (max_time_ rs) (meta_size_ rs) (rs_cor_id_ rs) (need_validate_ rs)
          set (write_server_set_ rs) servers (write_servers_ rs), cur).

(** [RemoteSet::add(type, pid, tableid, key)]: [seq] and [node] of the cache entry
    and of the request item, and the key bytes after the first 8, keep what was in
    memory ([stale]). *)
Definition add (rs : RemoteSet) (type : REQ_TYPE) (pid tableid key : Z) (stale : RemoteSetRequestItem)
  : result (RemoteSet * Z) :=
  _ ← verify (bool_decide (elems_ rs + 1 ≤ Z.of_nat MAXSIZE));
  let cur := elems_ rs in
  let old := kv rs cur in
  let kvi := mkRSItem (u8 pid) (i8 tableid) (ri_seq old) None key (ri_node old) in
  let rq := mkReqItem type (u8 pid) (i8 tableid) (u16 cur) (rq_node stale) (rq_seq stale)
              (Z.lor (Z.shiftl (Z.shiftr (rq_key stale) 64) 64) (u64 key)) in
  add_item rs kvi rq pid.

(** [RemoteSet::add(type, pid, tableid, key, klen)]: the key bytes are copied into
    a zeroed request item. *)
Definition add_long (rs : RemoteSet) (current_partition : Z) (type : REQ_TYPE) (pid tableid key klen : Z)
  : result (RemoteSet * Z) :=
  _ ← verify (bool_decide (elems_ rs + 1 ≤ Z.of_nat MAXSIZE));
  _ ← verify (bool_decide (type ≠ REQ_READ_LOCK));
  _ ← verify (bool_decide (pid ≠ current_partition));
  _ ← verify (bool_decide (klen ≤ 40));
  let cur := elems_ rs in
  let old := kv rs cur in
  let kvi := mkRSItem (u8 pid) (i8 tableid) 0 None key (ri_node old) in
  let rq := mkReqItem type (u8 pid) (i8 tableid) (u16 cur) NULL 0 (key mod 2 ^ (8 * klen)) in
  add_item rs kvi rq pid.

(** [RemoteSet::add_update_request], [add_read_request] *)
Definition add_update_request (rs : RemoteSet) (pid tableid key : Z) (stale : RemoteSetRequestItem)
  : result (RemoteSet * Z) := add rs REQ_READ_LOCK pid tableid key stale.
Definition add_read_request (rs : RemoteSet) (pid tableid key : Z) (stale : RemoteSetRequestItem)
  : result (RemoteSet * Z) := add rs REQ_READ pid tableid key stale.

(** [RemoteSet::do_reads(tx_id)] *)
Definition do_reads (rs : RemoteSet) : result (RemoteSet * Message RemoteSetRequestItem) :=
  if decide (65535 ≤ elems_ rs) then Crash exit_called
  else
    _ ← verify (bool_decide (read_servers_ rs ≠ []));
    let m := mkMsg (mkReqHeader (u8 (rs_cor_id_ rs)) (i8 (elems_ rs)) 0)
               (request_buf_ rs) (read_servers_ rs) in
    Done (mkRS (elems_ rs) (write_items_ rs) (u16 (elems_ rs)) (kvs_ rs) (request_buf_ rs)
            (lock_request_buf_ rs) (write_back_request_buf_ rs) (max_time_ rs) (meta_size_ rs)
            (rs_cor_id_ rs) (need_validate_ rs) (server_set_ rs) (write_server_set_ rs)
            (read_servers_ rs) (write_servers_ rs), m).

(** A reply to a read message: its header and its items. *)
Abbreviation ReadReply := (ReplyHeader * list RemoteSetReplyItem)%type.

Definition set_result (rs : RemoteSet) (pr : RemoteSetReplyItem) : result RemoteSet :=
  let i := rp_idx pr in
  let old := kv rs i in
  match request_buf_ rs !! Z.to_nat i with
  | None => Crash invalid_access
  | Some rq =>
      Done (mkRS (elems_ rs) (write_items_ rs) (read_items_ rs)
              (<[i := mkRSItem (ri_pid old) (ri_tableid old) (rp_seq pr) (Some (rp_data pr))
                        (ri_key old) (rp_node pr)]> (kvs_ rs))
              (<[Z.to_nat i := mkReqItem (rq_type rq) (rq_pid rq) (rq_tableid rq) (rq_idx rq)
                                 (rp_node pr) (rp_seq pr) (rq_key rq)]> (request_buf_ rs))
              (lock_request_buf_ rs) (write_back_request_buf_ rs) (max_time_ rs) (meta_size_ rs)
              (rs_cor_id_ rs) (need_validate_ rs) (server_set_ rs) (write_server_set_ rs)
              (read_servers_ rs) (write_servers_ rs))
  end.

(** The entries a reply announces. *)
Definition reply_entries (r : ReadReply) : result (list RemoteSetReplyItem) :=
  if decide (num_items_ r.1 ≤ Z.of_nat (length r.2)) then Done (take (Z.to_nat (num_items_ r.1)) r.2)
  else Crash invalid_access.

(** [RemoteSet::get_results]; [replies] are the messages in the reply buffer in
    their order of arrival. *)
Definition get_results_entry (rs : RemoteSet) (pr : RemoteSetReplyItem) : result RemoteSet :=
  rs ← set_result rs pr;
  _ ← verify (bool_decide (rp_node pr ≠ NULL));
  Done rs.

Definition get_results_reply (rs : RemoteSet) (r : ReadReply) : result RemoteSet :=
  _ ← verify (bool_decide (num_items_ r.1 > 0));
  _ ← verify (bool_decide (num_items_ r.1 ≠ 73));
  es ← reply_entries r;
  for_each get_results_entry es rs.

Definition get_results (rs : RemoteSet) (replies : list ReadReply) : result RemoteSet :=
  rs ← for_each get_results_reply replies rs;
  _ ← verify (bool_decide (replies ≠ []));
  Done rs.

(** [RemoteSet::get_results_readlock]: a zero sequence number means the item could
    not be locked. *)
Definition get_results_readlock_entry (s : RemoteSet * bool) (pr : RemoteSetReplyItem)
  : result (RemoteSet * bool) :=
  let '(rs, ret) := s in
  let ret := if decide (rp_seq pr = 0) then false else ret in
  rs ← set_result rs pr;
  _ ← verify (bool_decide (rp_seq pr ≠ 1));
  Done (rs, ret).

Definition get_results_readlock_reply (s : RemoteSet * bool) (r : ReadReply) : result (RemoteSet * bool) :=
  _ ← verify (bool_decide (num_items_ r.1 > 0));
  es ← reply_entries r;
  for_each get_results_readlock_entry es s.

Definition get_results_readlock (rs : RemoteSet) (replies : list ReadReply) : result (RemoteSet * bool) :=
  '(rs, ret) ← for_each get_results_readlock_reply replies (rs, true);
  Done (mkRS (elems_ rs) (write_items_ rs) (read_items_ rs) (kvs_ rs) (request_buf_ rs)
          (lock_request_buf_ rs) (write_back_request_buf_ rs) (max_time_ rs) (meta_size_ rs)
          (rs_cor_id_ rs) (need_validate_ rs) ∅ (write_server_set_ rs)
          (read_servers_ rs) (write_servers_ rs), ret).

(** [RemoteSet::promote_to_write] *)
Definition promote_to_write (rs : RemoteSet) (id : Z) (val : list Z) : result RemoteSet :=
  _ ← verify (bool_decide (read_items_ rs > 0));
  let it := kv rs id in
  let p := mkLockItem (ri_pid it) (ri_seq it) (ri_node it) (u8 (ri_tableid it)) in
  let len := Z.of_nat (length val) in
  let p1 := mkWriteItem (ri_pid it) (ri_node it) (u16 len) (u8 (ri_tableid it)) val in
  _ ← room (lock_used rs) sizeof_RemoteLockItem;
  _ ← verify (bool_decide (ri_node it ≠ NULL));
  _ ← room (write_back_used rs) (write_size p1);
  '(set, servers) ← add_server (write_server_set_ rs) (write_servers_ rs) (ri_pid it);
  Done (mkRS (elems_ rs) (u16 (write_items_ rs + 1)) (u16 (read_items_ rs - 1)) (kvs_ rs)
          (request_buf_ rs) (lock_request_buf_ rs ++ [p]) (write_back_request_buf_ rs ++ [p1])
          (max_time_ rs) (meta_size_ rs) (rs_cor_id_ rs) (need_validate_ rs)
          (server_set_ rs) set (read_servers_ rs) servers).

Definition set_max_time (rs : RemoteSet) (t : Z) : RemoteSet :=
  mkRS (elems_ rs) (write_items_ rs) (read_items_ rs) (kvs_ rs) (request_buf_ rs)
    (lock_request_buf_ rs) (write_back_request_buf_ rs) t (meta_size_ rs)
    (rs_cor_id_ rs) (need_validate_ rs) (server_set_ rs) (write_server_set_ rs)
    (read_servers_ rs) (write_servers_ rs).
Definition set_need_validate (rs : RemoteSet) (b : bool) : RemoteSet :=
  mkRS (elems_ rs) (write_items_ rs) (read_items_ rs) (kvs_ rs) (request_buf_ rs)
    (lock_request_buf_ rs) (write_back_request_buf_ rs) (max_time_ rs) (meta_size_ rs)
    (rs_cor_id_ rs) b (server_set_ rs) (write_server_set_ rs)
    (read_servers_ rs) (write_servers_ rs).

(** [RemoteSet::_check_res]: any empty reply is a failure; the maximum of the
    timestamps is collected on the way. *)
Fixpoint check_res (max_time : Z) (replies : list ReplyHeader) : bool * Z :=
  match replies with
  | [] => (true, max_time)
  | r :: replies =>
      if decide (num_items_ r = 0) then (false, max_time)
      else check_res (MAX max_time (payload_ r)) replies
  end.

(** The messages of [lock_remote], [release_remote], [commit_remote] and
    [validate_remote]; [None] when there is nothing to send. *)
Definition write_header_msg (rs : RemoteSet) (padding : Z) : RequestHeader :=
  mkReqHeader (u8 (rs_cor_id_ rs)) (i8 (write_items_ rs)) padding.

Definition lock_msg (rs : RemoteSet) : option (Message RemoteLockItem) :=
  if decide (write_items_ rs > 0) then
    Some (mkMsg (write_header_msg rs 0) (lock_request_buf_ rs) (write_servers_ rs))
  else None.

Definition commit_msg (rs : RemoteSet) : result (option (Message RemoteWriteItem)) :=
  if decide (write_items_ rs > 0) then
    _ ← verify (bool_decide (i8 (write_items_ rs) > 0));
    Done (Some (mkMsg (write_header_msg rs (max_time_ rs)) (write_back_request_buf_ rs) (write_servers_ rs)))
  else Done None.

(** The request buffer still carries the header written by [do_reads]. *)
Definition validate_msg (rs : RemoteSet) : option (Message RemoteSetRequestItem) :=
  if decide (need_validate_ rs = true ∧ read_servers_ rs ≠ [] ∧ read_items_ rs > 0) then
    Some (mkMsg (mkReqHeader (u8 (rs_cor_id_ rs)) (i8 (elems_ rs)) 0) (request_buf_ rs) (read_servers_ rs))
  else None.

(** [DBRad::get_cached] by key and by index. *)
Fixpoint find_cached (rs : RemoteSet) (tableid key : Z) (idxs : list Z) : option (Z * option (list Z)) :=
  match idxs with
  | [] => None
  | i :: idxs =>
      if decide (ri_tableid (kv rs i) = tableid ∧ ri_key (kv rs i) = key)
      then Some (ri_seq (kv rs i), ri_val (kv rs i))
      else find_cached rs tableid key idxs
  end.
Definition get_cached (rs : RemoteSet) (tableid key : Z) : Z * option (list Z) :=
  default (0, None) (find_cached rs tableid key (seqZ 0 (elems_ rs))).
Definition get_cached_idx (rs : RemoteSet) (idx : Z) : Z * option (list Z) :=
  (ri_seq (kv rs idx), ri_val (kv rs idx)).
