(* ===== verification/RadRpc.v ===== *)
(** * RPC handlers of DBRad

    Models src/drtm-dst/src/db/txs/dbrad_rpc_handler.cc: what a server does when a
    read, lock, release or commit message arrives.  [id] is the sender's machine,
    [cid] its coroutine and [tid] the thread that runs the handler; every handler
    works on the items addressed to its own partition and skips the others. *)

From S2P Require Import Prelude LockWord Memstore RadMem DBRad RemoteSet.

Section handlers.
Context {St : Type} `{!Memstore St}.
Implicit Types (w : World St).

Definition handler_word (id tid cid : Z) : Z := ENCODE_LOCK_CONTENT id tid (cid + 1).

(** Items numbered the way the loops count them. *)
Definition numbered {A} (l : list A) : list (Z * A) := imap (λ i x, (Z.of_nat i, x)) l.

(** The node of a read request: tables with 8-byte keys use the short key, the
    others the address of the long one. *)
Definition request_node w (it : RemoteSetRequestItem) : result (World St * Z) :=
  match klens w !! rq_tableid it with
  | None => Crash invalid_access
  | Some klen =>
      store_node w (rq_tableid it) (if decide (klen = 8%nat) then short_key it else long_key it)
  end.

(** Reply with the version of a node and no value. *)
Definition reply_version w (a i : Z) : RemoteSetReplyItem :=
  mkReplyItem (n_seq (node (heap w) a)) a (u8 i) [].

(** ** [DBRad::get_rpc_handler] *)

(** [case REQ_READ]: retry while a commit is under way, stop on an absent value. *)
Definition read_request w (i : Z) (it : RemoteSetRequestItem) : result (World St * RemoteSetReplyItem) :=
  n_bytes ← vlen w (rq_tableid it);
  '(w, a) ← request_node w it;
  let n := node (heap w) a in
  if decide (n_seq n = 1) then Spin
  else if decide (n_value n = NULL) then Crash assert_failed
  else
    b ← load (heap w) (n_value n);
    data ← copy_payload b n_bytes;
    _ ← verify (bool_decide (n_seq n ≠ 0));
    Done (w, mkReplyItem (n_seq n) a (u8 i) data).

Definition get_rpc_item (s : World St * list RemoteSetReplyItem) (x : Z * RemoteSetRequestItem)
  : result (World St * list RemoteSetReplyItem) :=
  let '(w, acc) := s in
  let '(i, it) := x in
  if decide (rq_pid it ≠ current_partition w) then Done (w, acc)
  else
    match rq_type it with
    | REQ_READ =>
        '(w, r) ← read_request w i it;
        Done (w, acc ++ [r])
    | REQ_READ_IDX | REQ_INSERT_IDX =>
        '(w, a) ← index_node w (rq_tableid it) (long_key it);
        Done (w, acc ++ [reply_version w a i])
    | REQ_INSERT =>
        '(w, a) ← store_node w (rq_tableid it) (long_key it);
        Done (w, acc ++ [reply_version w a i])
    | _ => Crash assert_failed
    end.

Definition sizeof_ReplyHeader : Z := 8.
Definition sizeof_RemoteSetReplyItem : Z := 32.
Definition reply_size (l : list RemoteSetReplyItem) : Z :=
  sizeof_ReplyHeader +
  foldr (λ r n, sizeof_RemoteSetReplyItem + Z.of_nat (length (rp_data r)) + n) 0 l.

Definition read_reply w (l : list RemoteSetReplyItem) : ReadReply :=
  (mkReplyHeader (u8 (Z.of_nat (length l))) (u8 (current_partition w)) (u32 (reply_size l)), l).

Definition get_rpc_handler w (m : Message RemoteSetRequestItem) : result (World St * ReadReply) :=
  items ← msg_items m;
  '(w, l) ← for_each get_rpc_item (numbered items) (w, []);
  _ ← verify (bool_decide (l ≠ []));
  Done (w, read_reply w l).

(** ** [DBRad::fast_get_rpc_handler]: reads that also lock *)

(** [case REQ_READ_LOCK]: an item that cannot be locked is answered with sequence
    number 0 and whatever the reply buffer held ([stale]). *)
Definition read_lock_request w (word : Z) (stale : list Z) (i : Z) (it : RemoteSetRequestItem)
  : result (World St * RemoteSetReplyItem) :=
  n_bytes ← vlen w (rq_tableid it);
  '(w, a) ← request_node w it;
  let n := node (heap w) a in
  _ ← verify (bool_decide (n_value n ≠ NULL));
  if decide (n_lock n ≠ 0) then
    Done (w, mkReplyItem 0 a (u8 i) (take n_bytes stale))
  else
    let w := set_heap w (set_node (heap w) a (set_lock word)) in
    _ ← verify (bool_decide (n_seq n ≠ 1));
    b ← load (heap w) (n_value n);
    data ← copy_payload b n_bytes;
    Done (w, mkReplyItem (n_seq n) a (u8 i) data).

Definition fast_get_rpc_item (word : Z) (stale : list Z)
    (s : World St * list RemoteSetReplyItem) (x : Z * RemoteSetRequestItem)
  : result (World St * list RemoteSetReplyItem) :=
  let '(w, acc) := s in
  let '(i, it) := x in
  if decide (rq_pid it ≠ current_partition w) then Done (w, acc)
  else
    match rq_type it with
    | REQ_READ =>
        '(w, r) ← read_request w i it;
        Done (w, acc ++ [r])
    | REQ_READ_LOCK =>
        '(w, r) ← read_lock_request w word stale i it;
        Done (w, acc ++ [r])
    | _ => Done (w, acc)
    end.

Definition fast_get_rpc_handler w (id tid cid : Z) (stale : list Z) (m : Message RemoteSetRequestItem)
  : result (World St * ReadReply) :=
  items ← msg_items m;
  '(w, l) ← for_each (fast_get_rpc_item (handler_word id tid cid) stale) (numbered items) (w, []);
  _ ← verify (bool_decide (l ≠ []));
  Done (w, read_reply w l).

(** ** [DBRad::fast_validate_rpc_handler] *)

Fixpoint validate_loop (part : Z) (h : Heap) (items : list RemoteSetRequestItem) : bool :=
  match items with
  | [] => true
  | it :: items =>
      if decide (rq_pid it ≠ part ∨ rq_type it ≠ REQ_READ) then validate_loop part h items
      else if decide (n_seq (node h (rq_node it)) ≠ rq_seq it) then false
      else validate_loop part h items
  end.

(** [num_items_] is 1 for success and 0 for failure; the other fields are not set. *)
Definition fast_validate_rpc_handler w (m : Message RemoteSetRequestItem) : result (World St * ReplyHeader) :=
  items ← msg_items m;
  Done (w, mkReplyHeader (if validate_loop (current_partition w) (heap w) items then 1 else 0) 0 0).

(** ** [DBRad::lock_rpc_handler] *)

Fixpoint lock_rpc_loop (word part : Z) (items : list RemoteLockItem) (h : Heap) (max_time : Z)
  : result (bool * Heap * Z) :=
  match items with
  | [] => Done (true, h, max_time)
  | it :: items =>
      if decide (lk_pid it ≠ part) then lock_rpc_loop word part items h max_time
      else if decide (n_lock (node h (lk_node it)) ≠ 0) then
        _ ← verify (bool_decide (n_lock (node h (lk_node it)) ≠ word));
        Done (false, h, max_time)
      else
        let h := set_node h (lk_node it) (set_lock word) in
        if decide (n_seq (node h (lk_node it)) ≠ lk_seq it) then Done (false, h, max_time)
        else lock_rpc_loop word part items h (MAX max_time (n_read_ts (node h (lk_node it))))
  end.

(** The maximal read timestamp travels in the 32-bit [payload_] field. *)
Definition lock_rpc_handler w (id tid cid : Z) (m : Message RemoteLockItem) : result (World St * ReplyHeader) :=
  items ← msg_items m;
  '(ok, h, max_time) ← lock_rpc_loop (handler_word id tid cid) (current_partition w) items (heap w) 0;
  Done (set_heap w h, mkReplyHeader (if (ok : bool) then 1 else 0) 0 (u32 max_time)).

(** ** [DBRad::release_rpc_handler] *)

Definition release_rpc_item (word part : Z) (h : Heap) (it : RemoteLockItem) : Heap :=
  if decide (lk_pid it ≠ part) then h
  else if decide (n_lock (node h (lk_node it)) = word) then set_node h (lk_node it) (set_lock 0)
  else h.

Definition release_rpc_handler w (id tid cid : Z) (m : Message RemoteLockItem) : result (World St) :=
  _ ← verify (bool_decide (i8 (rh_num (m_header m)) > 0));
  items ← msg_items m;
  Done (set_heap w (foldl (release_rpc_item (handler_word id tid cid) (current_partition w)) (heap w) items)).

(** ** [DBRad::commit_rpc_handler2] *)

(** Allocate the new value, install it over the current version.  The assertion
    [node->seq < desired_seq] runs after [node->seq] was set to 1. *)
Definition commit_rpc_item (part desired_seq : Z) (h : Heap) (it : RemoteWriteItem) : result Heap :=
  if decide (wi_pid it ≠ part) then Done h
  else
    let '(h, new_val) :=
      if decide (wi_payload it = 0) then (h, NULL)
      else malloc h (take (Z.to_nat (wi_payload it)) (wi_data it)) in
    let old_seq := n_seq (node h (wi_node it)) in
    _ ← verify (bool_decide (1 < desired_seq));
    install h (wi_node it) old_seq new_val desired_seq.

Definition commit_rpc_handler2 w (m : Message RemoteWriteItem) : result (World St * ReplyHeader) :=
  _ ← verify (bool_decide (i8 (rh_num (m_header m)) > 0));
  items ← msg_items m;
  h ← for_each (commit_rpc_item (current_partition w) (rh_padding (m_header m))) items (heap w);
  Done (set_heap w h, mkReplyHeader 73 0 0).
End handlers.
