(* ===== verification/RadRpcSpec.v ===== *)
(** * Specifications of the lock, release and commit handlers

    What one server's handler does to its memory, for the commit protocol of
    RadEnd.v: the lock handler locks a subset of its items that were free (all of
    them on success), the release handler undoes exactly the locks that carry the
    transaction's word, and the commit handler adds one version per item. *)

From S2P Require Import Prelude LockWord Memstore RadMem DBRad RadWriteSet RemoteSet RadRpc.

(** Nodes of the items for partition [part]. *)
Definition lnodes (part : Z) (items : list RemoteLockItem) : list Z :=
  lk_node <$> filter (λ it, lk_pid it = part) items.
Definition cnodes (part : Z) (items : list RemoteWriteItem) : list Z :=
  wi_node <$> filter (λ it, wi_pid it = part) items.

Lemma lnodes_other part it items : lk_pid it ≠ part → lnodes part (it :: items) = lnodes part items.
Proof. intros. unfold lnodes. by rewrite filter_cons_False. Qed.
Lemma lnodes_own part it items :
  lk_pid it = part → lnodes part (it :: items) = lk_node it :: lnodes part items.
Proof. intros. unfold lnodes. by rewrite filter_cons_True. Qed.
Lemma elem_of_lnodes part a items :
  a ∈ lnodes part items ↔ ∃ it, it ∈ items ∧ lk_pid it = part ∧ lk_node it = a.
Proof. unfold lnodes. rewrite list_elem_of_fmap. setoid_rewrite list_elem_of_filter. naive_solver. Qed.

Lemma cnodes_other part it items : wi_pid it ≠ part → cnodes part (it :: items) = cnodes part items.
Proof. intros. unfold cnodes. by rewrite filter_cons_False. Qed.
Lemma cnodes_own part it items :
  wi_pid it = part → cnodes part (it :: items) = wi_node it :: cnodes part items.
Proof. intros. unfold cnodes. by rewrite filter_cons_True. Qed.

(** ** Lock *)

(** The outcome of the loop: [ns] are the nodes that were locked. *)
Record lock_outcome (word part : Z) (items : list RemoteLockItem) (h : Heap) (mt : Z)
    (ok : bool) (h' : Heap) (mt' : Z) (ns : list Z) : Prop := {
  lo_sub : ns ⊆ lnodes part items;
  lo_locked : locked_upto word ns h h';
  lo_max : mt ≤ mt';
  lo_all : ok = true → ns = lnodes part items;
  lo_valid it : ok = true → it ∈ items → lk_pid it = part →
    n_seq (node h (lk_node it)) = lk_seq it ∧ n_read_ts (node h (lk_node it)) ≤ mt';
}.

Lemma lock_rpc_loop_total word part items h mt :
  NoDup (lnodes part items) → (∀ a, a ∈ lnodes part items → n_lock (node h a) ≠ word) →
  ∃ ok h' mt' ns, lock_rpc_loop word part items h mt = Done (ok, h', mt') ∧
    lock_outcome word part items h mt ok h' mt' ns.
Proof.
  revert h mt. induction items as [|it items IH]; intros h mt Hnd Hw; cbn [lock_rpc_loop].
  { exists true, h, mt, []. split; [done|]. split; [done|apply locked_upto_refl|lia|done|].
    by intros it _ ?%not_elem_of_nil. }
  case_decide as Hp.
  { rewrite lnodes_other in * by done. destruct (IH h mt Hnd Hw) as (ok & h' & mt' & ns & Hrun & Ho).
    exists ok, h', mt', ns. split; [done|]. destruct Ho as [H1 H2 H3 H4 H5].
    split; rewrite ?lnodes_other by done; [done..|].
    intros it' Hok [->|]%elem_of_cons ?; [congruence|by apply H5]. }
  assert (lk_pid it = part) as Hpart by (destruct (decide (lk_pid it = part)); [done|by destruct Hp]).
  rewrite lnodes_own in * by done. apply NoDup_cons in Hnd as [Hnin Hnd].
  case_decide as Hl.
  { rewrite bool_decide_eq_true_2 by (apply Hw; by left). cbn.
    exists false, h, mt, []. split; [done|].
    split; [apply list_subseteq_nil|apply locked_upto_refl|lia|done|done]. }
  rewrite node_set_eq. cbn [n_seq n_read_ts set_lock].
  assert (Hfree : n_lock (node h (lk_node it)) = 0) by lia.
  case_decide as Hs.
  { exists false, (set_node h (lk_node it) (set_lock word)), mt, [lk_node it]. split; [done|].
    split; [rewrite lnodes_own by done; set_solver| |lia|done|done].
    apply locked_upto_cons; [done|apply locked_upto_refl]. }
  destruct (IH (set_node h (lk_node it) (set_lock word)) (MAX mt (n_read_ts (node h (lk_node it)))))
    as (ok & h' & mt' & ns & Hrun & Ho); [done| |].
  { intros a Ha. rewrite node_set_ne by (by intros <-). apply Hw. by right. }
  exists ok, h', mt', (lk_node it :: ns). split; [done|]. destruct Ho as [H1 H2 H3 H4 H5].
  rewrite MAX_spec in H3. split; rewrite ?lnodes_own by done.
  - set_solver.
  - by apply locked_upto_cons.
  - lia.
  - intros Hok. by rewrite H4.
  - intros it' Hok [->|Hin]%elem_of_cons Hp'; [lia|].
    specialize (H5 it' Hok Hin Hp'). rewrite node_set_ne in H5; [done|].
    intros Heq. apply Hnin, elem_of_lnodes. eauto.
Qed.

(** ** Release *)

Definition release_items (word part : Z) (h : Heap) (items : list RemoteLockItem) : Heap :=
  foldl (release_rpc_item word part) h items.

Lemma release_items_spec word part items h :
  bufs (release_items word part h items) = bufs h ∧ brk (release_items word part h items) = brk h ∧
  ∀ a, node (release_items word part h items) a =
       if decide (a ∈ lnodes part items ∧ n_lock (node h a) = word) then set_lock 0 (node h a) else node h a.
Proof.
  unfold release_items. revert h. induction items as [|it items IH]; intros h; cbn [foldl].
  { split_and!; [done..|]. intros a. rewrite decide_False; [done|]. by intros [?%not_elem_of_nil _]. }
  destruct (IH (release_rpc_item word part h it)) as (Hb & Hk & Hn).
  assert (Hit : bufs (release_rpc_item word part h it) = bufs h ∧
                brk (release_rpc_item word part h it) = brk h).
  { unfold release_rpc_item. repeat case_decide; done. }
  destruct Hit as [Hb' Hk']. split_and!; [congruence..|]. intros a. rewrite Hn.
  unfold release_rpc_item in *. destruct (decide (lk_pid it ≠ part)) as [Hp|Hp].
  { by rewrite lnodes_other by done. }
  assert (lk_pid it = part) as Hpart by (destruct (decide (lk_pid it = part)); [done|by destruct Hp]).
  rewrite lnodes_own by done. destruct (decide (n_lock (node h (lk_node it)) = word)) as [Hw|Hw].
  - rewrite node_set. destruct (decide (lk_node it = a)) as [<-|Hne].
    + rewrite (decide_True (P := _ ∈ _ :: _ ∧ _)) by (split; [left|done]). by case_decide.
    + repeat case_decide; set_solver.
  - destruct (decide (lk_node it = a)) as [<-|Hne]; repeat case_decide; set_solver.
Qed.

(** Whatever part of the locks was taken, the release restores every node. *)
Lemma lock_release word part items h h' ns :
  ns ⊆ lnodes part items → locked_upto word ns h h' → (∀ a, n_lock (node h a) ≠ word) →
  bufs (release_items word part h' items) = bufs h ∧ brk (release_items word part h' items) = brk h ∧
  ∀ a, node (release_items word part h' items) a = node h a.
Proof.
  intros Hsub Hlk Hw. destruct (release_items_spec word part items h') as (Hb & Hk & Hn).
  split_and!; [by rewrite Hb, (lu_bufs _ _ _ _ Hlk)|by rewrite Hk, (lu_brk _ _ _ _ Hlk)|].
  intros a. rewrite Hn, (lu_node _ _ _ _ Hlk).
  destruct (decide (a ∈ ns)) as [Hin|Hnin].
  - rewrite decide_True; [|split; [by apply Hsub|done]].
    apply set_lock_restore, (lu_free _ _ _ _ Hlk _ Hin).
  - rewrite decide_False; [done|]. intros [_ Heq]. by apply (Hw a).
Qed.

(** ** Commit *)

(** The value an item installs, and its effect on the abstract records. *)
Definition wi_new (it : RemoteWriteItem) : option (list Z) :=
  if decide (wi_payload it = 0) then None else Some (wi_data it).
Definition wi_ok (it : RemoteWriteItem) : Prop := wi_payload it = Z.of_nat (length (wi_data it)).

Definition abs_remote (part ts : Z) (items : list RemoteWriteItem) (r : Z → VRecord) : Z → VRecord :=
  foldl (λ r it, if decide (wi_pid it ≠ part) then r
                 else <[wi_node it := abs_install ts (wi_new it) (r (wi_node it))]> r) r items.

Lemma brk_above_installed h a ver addr ts cs ps r :
  heap_rep h cs ps r → brk_above h → brk_above (installed h a ver addr ts).
Proof.
  intros Hr [Hp Hb]. split; [done|]. intros p Hs. apply Hb. revert Hs. unfold installed; cbn.
  case_decide as Hn; [done|]. destruct (decide (n_value (node h a) = p)) as [<-|].
  - intros _. by eapply heap_rep_value_live.
  - by rewrite lookup_insert_ne.
Qed.

(** The buffer of one item. *)
Lemma commit_rpc_item_run part ts h cs ps r it :
  heap_rep h cs ps r → brk_above h → wi_ok it → 1 < ts → wi_pid it = part →
  ∃ h' cs' ps', commit_rpc_item part ts h it = Done h' ∧
    heap_rep h' cs' ps' (<[wi_node it := abs_install ts (wi_new it) (r (wi_node it))]> r) ∧
    brk_above h' ∧
    (∀ a, n_read_ts (node h' a) = n_read_ts (node h a)) ∧
    (∀ a, a ≠ wi_node it → node h' a = node h a) ∧
    n_lock (node h' (wi_node it)) = 0.
Proof.
  intros Hr Hbrk Hok Hts Hp. unfold commit_rpc_item. rewrite decide_False by auto.
  assert (∃ h1 addr, (if decide (wi_payload it = 0) then (h, NULL)
            else malloc h (take (Z.to_nat (wi_payload it)) (wi_data it))) = (h1, addr) ∧
          heap_rep h1 cs ps r ∧ brk_above h1 ∧ fresh_buf h1 cs ps addr (wi_new it) ∧
          ∀ a, node h1 a = node h a) as (h1 & addr & Heq & Hr1 & Hb1 & Hf1 & Hn1).
  { unfold wi_new. case_decide; [by exists h, NULL|].
    rewrite Hok, Nat2Z.id, firstn_all.
    destruct (malloc_rep h cs ps r (wi_data it) Hr Hbrk) as (? & ? & ?).
    eexists _, _. split; [apply surjective_pairing|]. split_and!; try done. }
  rewrite Heq. rewrite bool_decide_eq_true_2 by done. cbn [mbind result_bind verify].
  rewrite install_eq by (by eapply heap_rep_value_live).
  rewrite (nr_seq _ _ _ _ _ (hr_node _ _ _ _ Hr1 _)).
  eexists _, _, _. split; [done|]. split; [by apply install_rep|].
  split; [by eapply brk_above_installed|]. split_and!.
  - intros a. rewrite <-Hn1. destruct (decide (wi_node it = a)) as [<-|].
    + by rewrite node_installed_eq.
    + by rewrite node_installed_ne.
  - intros a Hne. by rewrite node_installed_ne, Hn1.
  - by rewrite node_installed_eq.
Qed.

Lemma commit_rpc_run part ts items h cs ps r :
  heap_rep h cs ps r → brk_above h → Forall wi_ok items → 1 < ts →
  ∃ h' cs' ps', for_each (commit_rpc_item part ts) items h = Done h' ∧
    heap_rep h' cs' ps' (abs_remote part ts items r) ∧ brk_above h' ∧
    (∀ a, n_read_ts (node h' a) = n_read_ts (node h a)) ∧
    (∀ a, a ∉ cnodes part items → node h' a = node h a) ∧
    (∀ a, a ∈ cnodes part items → n_lock (node h' a) = 0).
Proof.
  revert h cs ps r. induction items as [|it items IH]; intros h cs ps r Hr Hb Hok Hts.
  { exists h, cs, ps. split_and!; try done; [apply Hb..|]. by intros a ?%not_elem_of_nil. }
  apply Forall_cons in Hok as [Hit Hok]. cbn [for_each]. unfold abs_remote. cbn [foldl].
  destruct (decide (wi_pid it = part)) as [Hp|Hp].
  - destruct (commit_rpc_item_run part ts h cs ps r it) as (h1 & cs1 & ps1 & Hrun & Hr1 & Hb1 & Hn1 & Hf1 & Hl1);
      [done..|]. rewrite Hrun. cbn [mbind result_bind].
    destruct (IH h1 cs1 ps1 _ Hr1 Hb1 Hok Hts) as (h' & cs' & ps' & Hrun' & Hr' & Hb' & Hn' & Hf' & Hl').
    exists h', cs', ps'. rewrite cnodes_own by done. rewrite decide_False by auto.
    split_and!; [done|done|apply Hb'..| | |].
    + intros a. by rewrite Hn'.
    + intros a [? ?]%not_elem_of_cons. by rewrite Hf', Hf1.
    + intros a Ha. destruct (decide (a ∈ cnodes part items)) as [|Hnin]; [by apply Hl'|].
      rewrite Hf' by done. by apply elem_of_cons in Ha as [->|].
  - assert (commit_rpc_item part ts h it = Done h) as -> by (unfold commit_rpc_item; by rewrite decide_True).
    cbn [mbind result_bind]. rewrite cnodes_other by done. rewrite decide_True by done. by apply (IH h cs ps r).
Qed.
