(* ===== verification/RadEnd.v ===== *)
(** * DBRad::end: the distributed commit protocol

    Models the commit of src/drtm-dst/src/db/txs/dbrad.cc ([end], [end_fasst]) and
    the RPC phases of src/drtm-dst/src/db/remote_set.cc it calls, over a cluster of
    servers: lock the remote write set, lock and validate the local one, choose the
    commit timestamp, install locally, install remotely, or release everything.

    A broadcast runs the handler on each destination in turn; servers share no
    memory, so the order only shows in the order of the replies. *)

From S2P Require Import Prelude LockWord Memstore RadMem DBRad RadWriteSet RemoteSet RadRpc RadRpcSpec.

Section cluster.
Context {St : Type} `{!Memstore St}.

Abbreviation Cluster := (gmap Z (World St)).

Definition server (cl : Cluster) (p : Z) : result (World St) :=
  match cl !! p with Some w => Done w | None => Crash invalid_access end.

Fixpoint broadcast {R} (f : World St → result (World St * R)) (to : list Z) (cl : Cluster)
  : result (Cluster * list R) :=
  match to with
  | [] => Done (cl, [])
  | p :: to =>
      w ← server cl p;
      '(w, r) ← f w;
      '(cl, l) ← broadcast f to (<[p := w]> cl);
      Done (cl, r :: l)
  end.

(** ** The RPC phases of [RemoteSet] *)

(** [RemoteSet::lock_remote] *)
Definition lock_remote (cl : Cluster) (me tid : Z) (rs : RemoteSet) : result (Cluster * RemoteSet * bool) :=
  match lock_msg rs with
  | None => Done (cl, rs, true)
  | Some m =>
      '(cl, replies) ← broadcast (λ w, lock_rpc_handler w me tid (rs_cor_id_ rs) m) (m_to m) cl;
      let '(ok, mt) := check_res (max_time_ rs) replies in
      Done (cl, set_max_time rs mt, ok)
  end.

(** [RemoteSet::validate_remote]; [rpc_validate] is the handler registered for
    [RPC_VALIDATE] (DBRad registers none). *)
Definition validate_remote (rpc_validate : World St → Message RemoteSetRequestItem → result (World St * ReplyHeader))
    (cl : Cluster) (rs : RemoteSet) : result (Cluster * RemoteSet * bool) :=
  match validate_msg rs with
  | None => Done (cl, rs, true)
  | Some m =>
      '(cl, replies) ← broadcast (λ w, rpc_validate w m) (m_to m) cl;
      let '(ok, mt) := check_res (max_time_ rs) replies in
      Done (cl, set_need_validate (set_max_time rs mt) false, ok)
  end.

(** [RemoteSet::release_remote] *)
Definition release_remote (cl : Cluster) (me tid : Z) (rs : RemoteSet) : result (Cluster * RemoteSet) :=
  match lock_msg rs with
  | None => Done (cl, rs)
  | Some m =>
      '(cl, _) ← broadcast (λ w, w ← release_rpc_handler w me tid (rs_cor_id_ rs) m; Done (w, tt)) (m_to m) cl;
      Done (cl, update_write_buf rs)
  end.

(** [RemoteSet::commit_remote] *)
Definition commit_remote (cl : Cluster) (rs : RemoteSet) : result (Cluster * RemoteSet) :=
  om ← commit_msg rs;
  match om with
  | None => Done (cl, rs)
  | Some m =>
      '(cl, _) ← broadcast (λ w, commit_rpc_handler2 w m) (m_to m) cl;
      Done (cl, update_write_buf rs)
  end.

(** ** [DBRad::end] *)

(** The label [ABORT] *)
Definition end_abort (cl : Cluster) (me : Z) (tx : DBRad) (rs : RemoteSet)
  : result (Cluster * DBRad * RemoteSet * bool) :=
  '(cl, rs) ← release_remote cl me (thread_id tx) rs;
  w ← server cl me;
  h ← ReleaseAllSet (rwset tx) (heap w);
  Done (<[me := set_heap w h]> cl, tx, rs, false).

(** The maximum of the transaction's timestamp and the versions of the remote set. *)
Definition remote_max (ts : Z) (rs : RemoteSet) : Z :=
  foldl (λ t i, MAX t (ri_seq (kv rs i))) ts (seqZ 0 (elems_ rs)).

(** From the last validation to the end. *)
Definition end_commit (cl : Cluster) (me : Z) (tx : DBRad) (rs : RemoteSet)
  : result (Cluster * DBRad * RemoteSet * bool) :=
  let tx := set_timestamp tx (remote_max (timestamp tx) rs) in
  w ← server cl me;
  h ← CommitLocalWrite (rwset tx) (heap w) (timestamp tx);
  '(cl, rs) ← commit_remote (<[me := set_heap w h]> cl) (set_max_time rs (timestamp tx));
  Done (cl, tx, rs, true).

Definition end_ (rpc_validate : World St → Message RemoteSetRequestItem → result (World St * ReplyHeader))
    (cl : Cluster) (me : Z) (tx : DBRad) (rs : RemoteSet) : result (Cluster * DBRad * RemoteSet * bool) :=
  _ ← verify (negb (abort_ tx));
  '(cl, rs, ok) ← lock_remote cl me (thread_id tx) rs;
  if negb ok then end_abort cl me tx rs
  else
    w ← server cl me;
    let '(ok, h, ws, ts) := LockAllSet (lock_word me tx) (rwset tx) (heap w) (timestamp tx) in
    let cl := <[me := set_heap w h]> cl in
    let tx := set_timestamp (set_rwset tx ws) ts in
    if negb ok then end_abort cl me tx rs
    else
      '(cl, rs, ok) ← validate_remote rpc_validate cl rs;
      if negb ok then end_abort cl me tx rs
      else end_commit cl me tx rs.

(** [DBRad::end_fasst]: the remote locks were taken by the reads; its abort path
    releases the remote locks only. *)
Definition end_fasst (rpc_validate : World St → Message RemoteSetRequestItem → result (World St * ReplyHeader))
    (cl : Cluster) (me : Z) (tx : DBRad) (rs : RemoteSet) : result (Cluster * DBRad * RemoteSet * bool) :=
  '(cl, rs, ok) ← validate_remote rpc_validate cl rs;
  if negb ok then
    '(cl, rs) ← release_remote cl me (thread_id tx) rs;
    Done (cl, tx, rs, false)
  else
    w ← server cl me;
    let '(ok, h, ws, ts) := LockAllSet (lock_word me tx) (rwset tx) (heap w) (timestamp tx) in
    let cl := <[me := set_heap w h]> cl in
    let tx := set_timestamp (set_rwset tx ws) ts in
    if negb ok then
      '(cl, rs) ← release_remote cl me (thread_id tx) rs;
      Done (cl, tx, rs, false)
    else
      w ← server cl me;
      h ← CommitLocalWrite (rwset tx) (heap w) (timestamp tx);
      '(cl, rs) ← commit_remote (<[me := set_heap w h]> cl) (set_max_time rs (timestamp tx));
      Done (cl, tx, rs, true).

(** ** Broadcasts *)

Lemma broadcast_spec {R} (f : World St → result (World St * R)) (Q : Z → World St → World St → R → Prop) to cl :
  NoDup to →
  (∀ p, p ∈ to → ∃ w w' r, cl !! p = Some w ∧ f w = Done (w', r) ∧ Q p w w' r) →
  ∃ cl' l, broadcast f to cl = Done (cl', l) ∧
    (∀ p, p ∉ to → cl' !! p = cl !! p) ∧
    (∀ p, p ∈ to → ∃ w w' r, cl !! p = Some w ∧ cl' !! p = Some w' ∧ Q p w w' r ∧ r ∈ l).
Proof.
  revert cl. induction to as [|p to IH]; intros cl Hnd Hf.
  { exists cl, []. split_and!; [done..|]. by intros p ?%not_elem_of_nil. }
  apply NoDup_cons in Hnd as [Hnin Hnd]. cbn [broadcast].
  destruct (Hf p) as (w & w' & r & Hw & Hfw & HQ); [by left|].
  unfold server. rewrite Hw. cbn. rewrite Hfw. cbn.
  destruct (IH (<[p := w']> cl) Hnd) as (cl' & l & Hb & Hout & Hin).
  { intros q Hq. destruct (Hf q) as (wq & wq' & rq & Hwq & ? & ?); [by right|].
    exists wq, wq', rq. rewrite lookup_insert_ne by (by intros <-). done. }
  exists cl', (r :: l). rewrite Hb. cbn. split_and!; [done| |].
  - intros q [Hne Hq]%not_elem_of_cons. rewrite Hout by done. by rewrite lookup_insert_ne.
  - intros q [->|Hq]%elem_of_cons.
    + exists w, w', r. split_and!; [done| |done|by left]. rewrite Hout by done. by rewrite lookup_insert_eq.
    + destruct (Hin q Hq) as (wq & wq' & rq & Hwq & ? & ? & ?).
      rewrite lookup_insert_ne in Hwq by (by intros <-).
      exists wq, wq', rq. split_and!; [done..|by right].
Qed.

Lemma check_res_ok m l : (check_res m l).1 = true → ∀ r, r ∈ l → num_items_ r ≠ 0.
Proof.
  revert m. induction l as [|r l IH]; intros m; cbn; [by intros _ ? ?%not_elem_of_nil|].
  case_decide; [done|]. intros Hok r' [->|Hin]%elem_of_cons; [done|by eapply IH].
Qed.

Lemma msg_items_all {A} hd (l : list A) to :
  rh_num hd = Z.of_nat (length l) → (length l ≤ 127)%nat → msg_items (mkMsg hd l to) = Done l.
Proof.
  intros Hn Hle. unfold msg_items. cbn. rewrite Hn. rewrite swrap_small by (cbn; lia).
  rewrite uwrap_small by (cbn; lia). rewrite decide_True by lia. by rewrite Nat2Z.id, firstn_all.
Qed.
End cluster.
