(* ===== verification/RadEndSpec.v ===== *)
(** * Correctness of the distributed commit

    [DBRad::end] always returns; when it returns false every node of every server
    is as before, when it returns true each server's records have gained exactly the
    versions of the transaction, at one timestamp, and no lock is left. *)

From S2P Require Import Prelude LockWord Memstore ClusterHash RadMem DBRad RadWriteSet RadLocal RemoteSet RadRpc RadRpcSpec RadEnd.

Section end_spec.
Context {St : Type} `{!Memstore St}.
Abbreviation Cluster := (gmap Z (World St)).

(** What the protocol needs of the transaction and of the cluster. *)
Record end_ready (cl : Cluster) (me : Z) (tx : DBRad) (rs : RemoteSet)
    (cs ps : Z → Z → list Z) (r : Z → Z → VRecord) : Prop := {
  er_abort : abort_ tx = false;
  er_validate : need_validate_ rs = false;
  er_cor : rs_cor_id_ rs = cor_id_ tx;
  er_home : is_Some (cl !! me);
  er_part p w : cl !! p = Some w → current_partition w = p;
  (** the remote write set *)
  er_servers : NoDup (write_servers_ rs);
  er_remote : me ∉ write_servers_ rs;
  er_known p : p ∈ write_servers_ rs → is_Some (cl !! p);
  er_pids it : it ∈ lock_request_buf_ rs → lk_pid it ∈ write_servers_ rs;
  er_count : write_items_ rs = Z.of_nat (length (lock_request_buf_ rs));
  er_max : (length (lock_request_buf_ rs) ≤ 127)%nat;
  er_same : Forall2 (λ l w, lk_pid l = wi_pid w ∧ lk_node l = wi_node w)
              (lock_request_buf_ rs) (write_back_request_buf_ rs);
  er_nodup p : NoDup (lnodes p (lock_request_buf_ rs));
  er_payload : Forall wi_ok (write_back_request_buf_ rs);
  (** memory *)
  er_rep p w : cl !! p = Some w → heap_rep (heap w) (cs p) (ps p) (r p) ∧ brk_above (heap w);
  er_word p w a : cl !! p = Some w → n_lock (node (heap w) a) ≠ lock_word me tx;
  er_word0 : lock_word me tx ≠ 0;
  (** the local write set *)
  er_current : ws_current (rwset tx) = -1;
  er_local w : cl !! me = Some w →
    fresh_items (heap w) (cs me) (ps me) (kvs (rwset tx)) ∧
    live_items (heap w) (kvs (rwset tx)) ∧ ts_room (heap w) (timestamp tx);
  er_ts : 0 < timestamp tx;
}.

Context (cl : Cluster) (me : Z) (tx : DBRad) (rs : RemoteSet)
  (cs ps : Z → Z → list Z) (r : Z → Z → VRecord).
Context (Hready : end_ready cl me tx rs cs ps r).

Local Abbreviation word := (lock_word me tx).
Local Abbreviation lbuf := (lock_request_buf_ rs).
Local Abbreviation wbuf := (write_back_request_buf_ rs).
Local Abbreviation to := (write_servers_ rs).

Lemma lnodes_nowhere p : p ∉ to → lnodes p lbuf = [].
Proof.
  intros Hp. destruct (lnodes p lbuf) as [|a l] eqn:Hl; [done|].
  assert (a ∈ lnodes p lbuf) as Ha by (rewrite Hl; by left).
  apply elem_of_lnodes in Ha as (it & Hin & <- & _). by apply (er_pids _ _ _ _ _ _ _ Hready) in Hin.
Qed.

Lemma word_handler : handler_word me (thread_id tx) (rs_cor_id_ rs) = word.
Proof. unfold handler_word, lock_word. by rewrite (er_cor _ _ _ _ _ _ _ Hready). Qed.

(** ** The state between lock and release or commit *)

(** Server [p] holds the locks [ns]; [ok] says that all its items are locked and valid. *)
Definition server_locked (p : Z) (w w' : World St) (ok : bool) : Prop :=
  ∃ h' mt ns, w' = set_heap w h' ∧ lock_outcome word p lbuf (heap w) 0 ok h' mt ns.

Definition remote_locked (cl1 : Cluster) (ok : bool) : Prop :=
  (∀ p, p ∉ to → p ≠ me → cl1 !! p = cl !! p) ∧
  (∀ p, p ∈ to → ∃ w w' okp, cl !! p = Some w ∧ cl1 !! p = Some w' ∧ server_locked p w w' okp ∧
                              (ok = true → okp = true)).

Lemma lock_header_num padding to' :
  msg_items (mkMsg (write_header_msg rs padding) lbuf to') = Done lbuf.
Proof.
  apply msg_items_all; [|apply Hready]. cbn. rewrite (er_count _ _ _ _ _ _ _ Hready).
  pose proof (er_max _ _ _ _ _ _ _ Hready). apply swrap_small; cbn; lia.
Qed.

Lemma lock_handler_run p w :
  cl !! p = Some w →
  ∃ w' hd ok, lock_rpc_handler w me (thread_id tx) (rs_cor_id_ rs) (mkMsg (write_header_msg rs 0) lbuf to) =
    Done (w', hd) ∧ server_locked p w w' ok ∧ num_items_ hd = if ok then 1 else 0.
Proof.
  intros Hw. unfold lock_rpc_handler. rewrite lock_header_num, word_handler. cbn [mbind result_bind].
  rewrite (er_part _ _ _ _ _ _ _ Hready _ _ Hw).
  destruct (lock_rpc_loop_total word p lbuf (heap w) 0) as (ok & h' & mt & ns & Hrun & Ho).
  - apply Hready.
  - intros a _. by apply (er_word _ _ _ _ _ _ _ Hready p).
  - rewrite Hrun. cbn. eexists _, _, ok. split; [done|]. split; [|done]. by exists h', mt, ns.
Qed.

Lemma lock_remote_run :
  ∃ cl1 mt ok, lock_remote cl me (thread_id tx) rs = Done (cl1, set_max_time rs mt, ok) ∧
    remote_locked cl1 ok ∧ cl1 !! me = cl !! me.
Proof.
  pose proof (er_remote _ _ _ _ _ _ _ Hready) as Hnot.
  unfold lock_remote, lock_msg. case_decide as Hwi.
  - destruct (broadcast_spec (λ w, lock_rpc_handler w me (thread_id tx) (rs_cor_id_ rs)
                 (mkMsg (write_header_msg rs 0) lbuf to))
               (λ p w w' hd, ∃ ok, server_locked p w w' ok ∧ num_items_ hd = if (ok : bool) then 1 else 0) to cl)
      as (cl1 & l & Hb & Hout & Hin); [apply Hready| |].
    { intros p Hp. destruct (er_known _ _ _ _ _ _ _ Hready p Hp) as [w Hw].
      destruct (lock_handler_run p w Hw) as (w' & hd & ok & ? & ? & ?). exists w, w', hd. eauto. }
    cbn [m_to]. rewrite Hb. cbn [mbind result_bind].
    destruct (check_res (max_time_ rs) l) as [ok mt] eqn:Hc.
    exists cl1, mt, ok. split; [done|]. split; [|by apply Hout].
    split; [by intros; apply Hout|]. intros p Hp. destruct (Hin p Hp) as (w & w' & hd & Hw & Hw' & (okp & Hl & Hn) & Hhd).
    exists w, w', okp. split_and!; [done..|]. intros ->.
    pose proof (check_res_ok (max_time_ rs) l) as Hok. rewrite Hc in Hok.
    specialize (Hok eq_refl hd Hhd). rewrite Hn in Hok. by destruct okp.
  - exists cl, (max_time_ rs), true. split; [by destruct rs|]. split; [|done]. split; [done|]. intros p Hp.
    destruct (er_known _ _ _ _ _ _ _ Hready p Hp) as [w Hw]. exists w, w, true. split_and!; [done..| |done].
    assert (lbuf = []) as Hnil.
    { pose proof (er_count _ _ _ _ _ _ _ Hready). destruct lbuf; [done|]. cbn in *. lia. }
    exists (heap w), 0, []. split; [by destruct w|]. rewrite Hnil.
    split; [done|apply locked_upto_refl|lia|done|by intros it _ ?%not_elem_of_nil].
Qed.

(** ** The abort path *)

(** Two states of a server with the same nodes. *)
Definition same_nodes (w w' : World St) : Prop := ∀ a, node (heap w') a = node (heap w) a.

Lemma release_handler_run p w w1 ok :
  cl !! p = Some w → p ∈ to → server_locked p w w1 ok → (0 < length lbuf)%nat →
  ∃ w2, release_rpc_handler w1 me (thread_id tx) (rs_cor_id_ rs) (mkMsg (write_header_msg rs 0) lbuf to) =
    Done w2 ∧ same_nodes w w2.
Proof.
  intros Hw Hp (h' & mt & ns & -> & Ho) Hlen. unfold release_rpc_handler.
  pose proof (er_count _ _ _ _ _ _ _ Hready) as Hc. pose proof (er_max _ _ _ _ _ _ _ Hready) as Hm.
  rewrite bool_decide_eq_true_2.
  2:{ cbn. rewrite Hc. rewrite !swrap_small by (cbn; rewrite ?swrap_small by (cbn; lia); cbn; lia). lia. }
  cbn [verify mbind result_bind]. rewrite lock_header_num, word_handler. cbn [mbind result_bind].
  eexists. split; [done|]. intros a. cbn. rewrite (er_part _ _ _ _ _ _ _ Hready _ _ Hw).
  destruct (lock_release word p lbuf (heap w) h' ns) as (_ & _ & Hn).
  - by eapply lo_sub.
  - by eapply lo_locked.
  - intros b. by apply (er_word _ _ _ _ _ _ _ Hready p).
  - apply Hn.
Qed.

Lemma release_remote_run cl1 ok mt :
  remote_locked cl1 ok →
  ∃ cl2 rs2, release_remote cl1 me (thread_id tx) (set_max_time rs mt) = Done (cl2, rs2) ∧
    (∀ p, p ∉ to → cl2 !! p = cl1 !! p) ∧
    (∀ p, p ∈ to → ∃ w w', cl !! p = Some w ∧ cl2 !! p = Some w' ∧ same_nodes w w').
Proof.
  intros [Hout Hin]. unfold release_remote, lock_msg. cbn [write_items_ set_max_time].
  case_decide as Hwi.
  - change (write_header_msg (set_max_time rs mt) 0) with (write_header_msg rs 0). cbn [m_to].
    pose proof (er_count _ _ _ _ _ _ _ Hready) as Hc.
    destruct (broadcast_spec (λ w, w ← release_rpc_handler w me (thread_id tx) (rs_cor_id_ rs)
                 (mkMsg (write_header_msg rs 0) lbuf to); Done (w, tt))
               (λ p w1 w2 _, ∀ w, cl !! p = Some w → same_nodes w w2) to cl1)
      as (cl2 & l & Hb & Hout2 & Hin2); [apply Hready| |].
    { intros p Hp. destruct (Hin p Hp) as (w & w1 & okp & Hw & Hw1 & Hl & _).
      destruct (release_handler_run p w w1 okp Hw Hp Hl) as (w2 & Hr & Hs); [lia|].
      exists w1, w2, tt. rewrite Hr. split_and!; [done..|]. intros w0 Hw0. by simplify_eq. }
    exists cl2, (update_write_buf (set_max_time rs mt)). cbn in Hb |- *. rewrite Hb. cbn.
    split; [done|]. split; [done|]. intros p Hp. destruct (Hin2 p Hp) as (w1 & w2 & _ & _ & Hw2 & Hs & _).
    destruct (Hin p Hp) as (w & _ & _ & Hw & _). exists w, w2. split_and!; [done..|]. by apply Hs.
  - eexists _, _. split; [done|]. split; [done|]. intros p Hp.
    destruct (Hin p Hp) as (w & w1 & okp & Hw & Hw1 & (h' & mt' & ns & -> & Ho) & _).
    exists w, (set_heap w h'). split_and!; [done..|]. intros a. cbn.
    assert (lbuf = []) as Hnil.
    { pose proof (er_count _ _ _ _ _ _ _ Hready). destruct lbuf; [done|]. cbn in *. lia. }
    destruct (lock_release word p lbuf (heap w) h' ns) as (_ & _ & Hn);
      [by eapply lo_sub|by eapply lo_locked|intros b; by apply (er_word _ _ _ _ _ _ _ Hready p)|].
    rewrite Hnil in Hn. apply Hn.
Qed.

(** Every server has the nodes it had before. *)
Definition restored (cl' : Cluster) : Prop :=
  ∀ p, match cl !! p, cl' !! p with
       | Some w, Some w' => same_nodes w w'
       | None, None => True
       | _, _ => False
       end.

Lemma end_abort_run cl1 ok mt w0 w1 h1 tx1 :
  remote_locked cl1 ok → cl !! me = Some w0 → cl1 !! me = Some w1 → thread_id tx1 = thread_id tx →
  ReleaseAllSet (rwset tx1) (heap w1) = Done h1 → (∀ a, node h1 a = node (heap w0) a) →
  ∃ cl' rs', end_abort cl1 me tx1 (set_max_time rs mt) = Done (cl', tx1, rs', false) ∧ restored cl'.
Proof.
  intros Hlk Hme Hme1 Htid Hrel Hn. pose proof (er_remote _ _ _ _ _ _ _ Hready) as Hnot.
  destruct (release_remote_run cl1 ok mt Hlk) as (cl2 & rs2 & Hr & Hout & Hin).
  unfold end_abort, server. rewrite Htid, Hr. cbn. rewrite Hout, Hme1 by done. cbn. rewrite Hrel. cbn.
  eexists _, _. split; [done|]. intros p. destruct (decide (me = p)) as [<-|Hne].
  - rewrite lookup_insert_eq, Hme. exact Hn.
  - rewrite lookup_insert_ne by done. destruct (decide (p ∈ to)) as [Hp|Hp].
    + destruct (Hin p Hp) as (w & w' & -> & -> & ?). done.
    + destruct Hlk as [Hl _]. rewrite Hout, Hl by done. destruct (cl !! p); [|done]. by intros a.
Qed.

(** ** The commit path *)

Lemma cnodes_lnodes p : cnodes p wbuf = lnodes p lbuf.
Proof.
  pose proof (er_same _ _ _ _ _ _ _ Hready) as Hs.
  induction Hs as [|l w ls ws [Hp Hn] _ IH]; [done|].
  destruct (decide (lk_pid l = p)).
  - rewrite cnodes_own, lnodes_own by congruence. by rewrite IH, Hn.
  - rewrite cnodes_other, lnodes_other by congruence. done.
Qed.

(** Server [p] after the commit at [cts]. *)
Definition server_committed (cts p : Z) (w w' : World St) (r' : Z → VRecord) : Prop :=
  (∃ cs' ps', heap_rep (heap w') cs' ps' r') ∧
  (∀ a, n_lock (node (heap w') a) = n_lock (node (heap w) a)).

Lemma commit_handler_run cts p w w1 mt :
  cl !! p = Some w → server_locked p w w1 true → (0 < length lbuf)%nat → 1 < cts →
  ∃ w2 hd, commit_rpc_handler2 w1
      (mkMsg (write_header_msg (set_max_time rs mt) cts) wbuf to) = Done (w2, hd) ∧
    server_committed cts p w w2 (abs_remote p cts wbuf (r p)).
Proof.
  intros Hw (h' & mt' & ns & -> & Ho) Hlen Hcts. unfold commit_rpc_handler2.
  pose proof (er_count _ _ _ _ _ _ _ Hready) as Hc. pose proof (er_max _ _ _ _ _ _ _ Hready) as Hm.
  pose proof (Forall2_length _ _ _ (er_same _ _ _ _ _ _ _ Hready)) as Hl2.
  assert (Hi8 : i8 (write_items_ rs) = Z.of_nat (length wbuf)) by (rewrite swrap_small; cbn; lia).
  rewrite bool_decide_eq_true_2.
  2:{ cbn. rewrite Hi8. rewrite swrap_small by (cbn; lia). lia. }
  rewrite msg_items_all by (cbn; lia). cbn [verify mbind result_bind rh_padding m_header write_header_msg].
  rewrite (er_part _ _ _ _ _ _ _ Hready _ _ Hw : current_partition (set_heap w h') = p).
  destruct (er_rep _ _ _ _ _ _ _ Hready p w Hw) as [Hr Hb]. destruct Ho as [_ Hlk _ Hall _].
  rewrite Hall in Hlk by done. cbn [heap set_heap].
  destruct (commit_rpc_run p cts wbuf h' (cs p) (ps p) (r p)) as (h2 & cs2 & ps2 & Hrun & Hr2 & _ & _ & Hn & Hz).
  - eapply heap_rep_same_versions; [apply Hlk|intros a; by eapply locked_same_versions|done].
  - unfold brk_above in *. by rewrite (lu_brk _ _ _ _ Hlk), (lu_bufs _ _ _ _ Hlk).
  - apply Hready.
  - done.
  - rewrite Hrun. cbn. eexists _, _. split; [done|]. split; [by exists cs2, ps2|]. intros a. cbn.
    rewrite cnodes_lnodes in *. destruct (decide (a ∈ lnodes p lbuf)) as [Hin|Hnin].
    + rewrite Hz by done. symmetry. by apply (lu_free _ _ _ _ Hlk).
    + rewrite Hn by done. rewrite (lu_node _ _ _ _ Hlk). by rewrite decide_False.
Qed.

Lemma abs_remote_nowhere p cts : p ∉ to → abs_remote p cts wbuf (r p) = r p.
Proof.
  intros Hp. assert (Hc : cnodes p wbuf = []) by (rewrite cnodes_lnodes; by apply lnodes_nowhere).
  unfold abs_remote. revert Hc. generalize (r p) as r0.
  induction wbuf as [|it l IH]; intros r0 Hc; [done|]. cbn [foldl].
  destruct (decide (wi_pid it = p)); [by rewrite cnodes_own in Hc|].
  rewrite cnodes_other in Hc by done. rewrite decide_True by done. by apply IH.
Qed.

Lemma commit_remote_run cts cl1 mt :
  remote_locked cl1 true → 1 < cts →
  ∃ cl2 rs2, commit_remote cl1 (set_max_time (set_max_time rs mt) cts) = Done (cl2, rs2) ∧
    (∀ p, p ∉ to → cl2 !! p = cl1 !! p) ∧
    (∀ p, p ∈ to → ∃ w w', cl !! p = Some w ∧ cl2 !! p = Some w' ∧
                    server_committed cts p w w' (abs_remote p cts wbuf (r p))).
Proof.
  intros [Hout Hin] Hcts. unfold commit_remote, commit_msg. cbn [write_items_ set_max_time].
  pose proof (er_count _ _ _ _ _ _ _ Hready) as Hc. pose proof (er_max _ _ _ _ _ _ _ Hready) as Hm.
  case_decide as Hwi.
  - rewrite bool_decide_eq_true_2 by (rewrite Hc, swrap_small by (cbn; lia); lia).
    cbn [verify mbind result_bind m_to max_time_ set_max_time write_servers_ write_back_request_buf_].
    destruct (broadcast_spec (λ w, commit_rpc_handler2 w
                 (mkMsg (write_header_msg (set_max_time (set_max_time rs mt) cts) cts) wbuf to))
               (λ p w1 w2 _, ∀ w, cl !! p = Some w →
                  server_committed cts p w w2 (abs_remote p cts wbuf (r p))) to cl1)
      as (cl2 & l & Hb & Hout2 & Hin2); [apply Hready| |].
    { intros p Hp. destruct (Hin p Hp) as (w & w1 & okp & Hw & Hw1 & Hl & Hok).
      rewrite (Hok eq_refl) in Hl.
      destruct (commit_handler_run cts p w w1 mt Hw Hl) as (w2 & hd & Hr & Hs); [lia|done|].
      exists w1, w2, hd. split_and!; [done|exact Hr|]. intros w0 Hw0. by simplify_eq. }
    rewrite Hb. cbn. eexists _, _. split; [done|]. split; [done|].
    intros p Hp. destruct (Hin2 p Hp) as (w1 & w2 & _ & _ & Hw2 & Hs & _).
    destruct (Hin p Hp) as (w & _ & _ & Hw & _). exists w, w2. split; [done|]. split; [done|]. by apply Hs.
  - eexists _, _. split; [done|]. split; [done|]. intros p Hp.
    destruct (Hin p Hp) as (w & w1 & okp & Hw & Hw1 & (h' & mt' & ns & -> & Ho) & _).
    exists w, (set_heap w h'). split; [done|]. split; [done|].
    assert (lbuf = []) as Hnil by (destruct lbuf; [done|]; cbn in *; lia).
    assert (wbuf = []) as ->.
    { pose proof (Forall2_length _ _ _ (er_same _ _ _ _ _ _ _ Hready)) as Hl2.
      rewrite Hnil in Hl2. by destruct wbuf. }
    destruct Ho as [Hsub Hlk _ _ _]. rewrite Hnil in Hsub.
    assert (ns = []) as -> by (destruct ns as [|a ?]; [done|]; specialize (Hsub a); set_solver).
    destruct (er_rep _ _ _ _ _ _ _ Hready p w Hw) as [Hr _]. split.
    + exists (cs p), (ps p). cbn. eapply heap_rep_same_versions; [apply Hlk| |exact Hr].
      intros a. by eapply locked_same_versions.
    + intros a. cbn. rewrite (lu_node _ _ _ _ Hlk). by rewrite decide_False by apply not_elem_of_nil.
Qed.

(** ** The whole protocol *)

Lemma remote_max_ge ts l t0 : t0 ≤ ts → t0 ≤ foldl (λ t i, MAX t (ri_seq (kv l i))) ts (seqZ 0 (elems_ l)).
Proof.
  revert ts. induction (seqZ 0 (elems_ l)) as [|i ids IH]; intros ts Hle; cbn; [done|].
  apply IH. rewrite MAX_spec. lia.
Qed.

Lemma remote_max_covers ts l i :
  0 ≤ i < elems_ l → ri_seq (kv l i) ≤ remote_max ts l.
Proof.
  intros Hi. unfold remote_max. assert (Hin : i ∈ seqZ 0 (elems_ l)) by (apply elem_of_seqZ; lia).
  revert ts Hin. generalize (seqZ 0 (elems_ l)) as ids. clear Hi.
  induction ids as [|j ids IH]; intros ts Hin; [by apply not_elem_of_nil in Hin|]. cbn.
  apply elem_of_cons in Hin as [->|Hin]; [|by apply IH]. clear IH.
  assert (∀ t0 t, t0 ≤ t → t0 ≤ foldl (λ t i, MAX t (ri_seq (kv l i))) t ids) as Hge.
  { clear. induction ids as [|k ids IH]; intros t0 t Ht; cbn; [done|]. apply IH. rewrite MAX_spec. lia. }
  apply Hge. rewrite MAX_spec. lia.
Qed.

(** Every server has exactly the versions of this transaction on top, at [cts]. *)
Definition committed (cts : Z) (cl' : Cluster) : Prop :=
  ∀ p, match cl !! p, cl' !! p with
       | Some w, Some w' =>
           server_committed cts p w w'
             (if decide (p = me) then abs_commit (heap w) cts (kvs (rwset tx)) (r me)
              else abs_remote p cts wbuf (r p))
       | None, None => True
       | _, _ => False
       end.

Lemma end_commit_run cl1 mt w0 h1 ws1 ts1 :
  remote_locked cl1 true → cl !! me = Some w0 →
  LockAllSet word (rwset tx) (heap w0) (timestamp tx) = (true, h1, ws1, ts1) →
  ∃ cl' tx' rs',
    end_commit (<[me := set_heap w0 h1]> cl1) me (set_timestamp (set_rwset tx ws1) ts1) (set_max_time rs mt) =
      Done (cl', tx', rs', true) ∧
    timestamp tx' = remote_max ts1 rs ∧ committed (timestamp tx') cl'.
Proof.
  intros Hlk Hme HL. pose proof (er_remote _ _ _ _ _ _ _ Hready) as Hnot.
  destruct (er_local _ _ _ _ _ _ _ Hready w0 Hme) as (Hf & _ & Hroom).
  destruct (er_rep _ _ _ _ _ _ _ Hready me w0 Hme) as [Hr _].
  pose proof (er_word0 _ _ _ _ _ _ _ Hready) as Hw0. pose proof (er_ts _ _ _ _ _ _ _ Hready) as Hts.
  destruct (LockAllSet_success _ _ _ _ _ _ _ Hw0 Hroom HL) as (_ & _ & _ & Hlt & _).
  set (cts := remote_max ts1 rs). assert (1 < cts).
  { assert (ts1 ≤ cts) by (unfold cts, remote_max; by apply remote_max_ge). lia. }
  destruct (lock_commit_at _ _ _ _ _ _ _ _ _ _ cts Hw0 Hr Hf Hroom HL) as (h2 & cs2 & ps2 & Hc & Hrep & Hl).
  unfold end_commit, server. rewrite lookup_insert_eq. cbn [mbind result_bind timestamp set_timestamp rwset set_rwset].
  change (remote_max ts1 (set_max_time rs mt)) with cts. cbn [heap set_heap]. rewrite Hc. cbn [mbind result_bind].
  destruct (commit_remote_run cts (<[me := set_heap (set_heap w0 h1) h2]> (<[me := set_heap w0 h1]> cl1)) mt)
    as (cl2 & rs2 & Hcr & Hout & Hin); [|done|].
  { destruct Hlk as [H1 H2]. split.
    - intros p Hp Hne. rewrite !lookup_insert_ne by done. by apply H1.
    - intros p Hp. rewrite !lookup_insert_ne by (by intros ->). by apply H2. }
  rewrite Hcr. cbn. eexists _, _, _. split; [done|]. split; [done|]. intros p. cbn [timestamp set_timestamp].
  destruct (decide (p = me)) as [->|Hne].
  - rewrite Hout, lookup_insert_eq, Hme by done. split; [by exists cs2, ps2|]. apply Hl.
  - destruct (decide (p ∈ to)) as [Hp|Hp].
    + destruct (Hin p Hp) as (w & w' & -> & -> & Hs). apply Hs.
    + rewrite Hout, !lookup_insert_ne by done. destruct Hlk as [H1 _]. rewrite H1 by done.
      destruct (cl !! p) as [w|] eqn:Hw; [|done]. rewrite abs_remote_nowhere by done.
      destruct (er_rep _ _ _ _ _ _ _ Hready p w Hw) as [Hrp _]. split; [by exists (cs p), (ps p)|done].
Qed.

Lemma end_run rpc_validate :
  ∃ cl' tx' rs' b, end_ rpc_validate cl me tx rs = Done (cl', tx', rs', b) ∧
    if (b : bool) then
      committed (timestamp tx') cl' ∧ timestamp tx < timestamp tx' ∧
      (∀ i, 0 ≤ i < elems_ rs → ri_seq (kv rs i) ≤ timestamp tx') ∧
      (∀ p w it, cl !! p = Some w → it ∈ lbuf → lk_pid it = p → n_seq (node (heap w) (lk_node it)) = lk_seq it) ∧
      (∀ w it, cl !! me = Some w → it ∈ kvs (rwset tx) → it_ro it = false →
         n_seq (node (heap w) (it_node it)) = it_seq it ∧ n_read_ts (node (heap w) (it_node it)) < timestamp tx')
    else restored cl'.
Proof.
  destruct (er_home _ _ _ _ _ _ _ Hready) as [w0 Hme].
  destruct (er_local _ _ _ _ _ _ _ Hready w0 Hme) as (Hf & Hlive & Hroom).
  pose proof (er_current _ _ _ _ _ _ _ Hready) as Hcur.
  destruct lock_remote_run as (cl1 & mt & ok & Hlock & Hlk & Hme1). rewrite Hme in Hme1.
  unfold end_. rewrite (er_abort _ _ _ _ _ _ _ Hready). cbn [negb verify mbind result_bind].
  rewrite Hlock. cbn [mbind result_bind]. destruct ok; cbn [negb].
  2:{ destruct (end_abort_run cl1 false mt w0 w0 (heap w0) tx) as (cl' & rs' & Hrun & Hres); try done.
      - unfold ReleaseAllSet. by rewrite Hcur.
      - exists cl', tx, rs', false. rewrite Hrun. done. }
  unfold server. rewrite Hme1. cbn [mbind result_bind].
  destruct (LockAllSet _ _ _ _) as [[[ok h1] ws1] ts1] eqn:HL. destruct ok; cbn [negb].
  - unfold validate_remote, validate_msg. cbn [need_validate_ set_max_time].
    rewrite (er_validate _ _ _ _ _ _ _ Hready). rewrite decide_False by naive_solver. cbn [mbind result_bind negb].
    destruct (end_commit_run cl1 mt w0 h1 ws1 ts1 Hlk Hme HL) as (cl' & tx' & rs' & Hrun & Hts & Hcom).
    pose proof (er_word0 _ _ _ _ _ _ _ Hready) as Hw0.
    destruct (LockAllSet_success _ _ _ _ _ _ _ Hw0 Hroom HL) as (_ & _ & _ & Hlt & Hit).
    assert (ts1 ≤ timestamp tx') by (rewrite Hts; unfold remote_max; by apply remote_max_ge).
    exists cl', tx', rs', true. split; [done|]. split; [done|]. split_and!; [lia| | |].
    + intros i Hi. rewrite Hts. by apply remote_max_covers.
    + intros p w it Hw Hin Hp. destruct Hlk as [_ Hlk].
      destruct (Hlk p) as (w' & w1 & okp & Hw' & _ & (h' & mt' & ns & _ & Ho) & Hok).
      { rewrite <-Hp. by apply (er_pids _ _ _ _ _ _ _ Hready). }
      rewrite (Hok eq_refl) in Ho. simplify_eq. by apply (lo_valid _ _ _ _ _ _ _ _ _ Ho).
    + intros w it Hw Hin Hro. simplify_eq. destruct (Hit it Hin Hro). lia.
  - destruct (lock_fail_release _ _ _ _ _ _ _ Hcur Hlive HL) as (-> & h2 & Hrel & Hn).
    destruct (end_abort_run (<[me := set_heap w0 h1]> cl1) true mt w0 (set_heap w0 h1) h2
                (set_timestamp (set_rwset tx ws1) (timestamp tx))) as (cl' & rs' & Hrun & Hres); try done.
    + destruct Hlk as [H1 H2]. split.
      * intros p Hp Hne. rewrite lookup_insert_ne by done. by apply H1.
      * intros p Hp. rewrite lookup_insert_ne; [by apply H2|]. intros <-.
        by apply (er_remote _ _ _ _ _ _ _ Hready).
    + by rewrite lookup_insert_eq.
    + rewrite Hrun. by eexists _, _, _, false.
Qed.
End end_spec.
