(* ===== verification/RadCommit.v ===== *)
(** * Properties of the distributed commit

    The statements about [DBRad::end] on a cluster, the invariant of the remote
    set under its operations, and what the protocol leaves open. *)

From S2P Require Import Prelude LockWord Memstore ClusterHash RadMem DBRad RadWriteSet RadLocal RadRead RemoteSet RadRpc RadRpcSpec RadEnd RadEndSpec.

(** ** A cluster of two servers

    The transaction runs on server 1 and writes key 7 there and on server 2; its
    remote set is the result of the operations of the API. *)

Definition remote_world : World ClusterHash :=
  mkWorld {[ 0 := sample_remote ]} ∅ {[ 0 := 2%nat ]} {[ 0 := 8%nat ]} sample_heap 2.
Definition blank_request : RemoteSetRequestItem := mkReqItem REQ_READ 0 0 0 NULL 0 0.

Definition build_rs (rw : World ClusterHash) (val : list Z) : result RemoteSet :=
  '(rs, _) ← add (RemoteSet_new 0) REQ_READ 2 0 7 blank_request;
  '(rs, m) ← do_reads rs;
  '(_, reply) ← get_rpc_handler rw m;
  rs ← get_results rs [reply];
  promote_to_write rs 0 val.

Definition sample_rs : RemoteSet :=
  match build_rs remote_world [5; 5] with Done rs => rs | _ => RemoteSet_new 0 end.
Definition sample_cluster : gmap Z (World ClusterHash) := {[ 1 := sample_world; 2 := remote_world ]}.
Definition local_tx : DBRad := mkTx sample_ws 7 5 0 false.
Definition no_validate (w : World ClusterHash) (_ : Message RemoteSetRequestItem)
  : result (World ClusterHash * ReplyHeader) := Crash invalid_access.

Lemma sample_cluster_inv p w :
  sample_cluster !! p = Some w → (p = 1 ∧ w = sample_world) ∨ (p = 2 ∧ w = remote_world).
Proof.
  unfold sample_cluster. intros [[<- <-]|[Hne Hs]]%lookup_insert_Some; [by left|].
  apply lookup_singleton_Some in Hs as [<- <-]. by right.
Qed.

Lemma sample_rs_eq : sample_rs = mkRS 1 1 0 (kvs_ sample_rs) (request_buf_ sample_rs)
  [mkLockItem 2 5 8000 0] [mkWriteItem 2 8000 2 0 [5; 5]] 0 0 0 false
  (server_set_ sample_rs) (write_server_set_ sample_rs) [2] [2].
Proof. vm_compute. reflexivity. Qed.

Lemma sample_ready :
  end_ready sample_cluster 1 local_tx sample_rs (λ _, sample_cs) (λ _, sample_ps) (λ _, sample_records).
Proof.
  rewrite sample_rs_eq. split; cbn [abort_ need_validate_ rs_cor_id_ write_servers_ lock_request_buf_
    write_items_ write_back_request_buf_ local_tx cor_id_ rwset timestamp length]; try done.
  - intros p w [[-> ->]|[-> ->]]%sample_cluster_inv; done.
  - apply NoDup_singleton.
  - by apply (bool_decide_unpack _).
  - intros p ->%list_elem_of_singleton. by exists remote_world.
  - intros it ->%list_elem_of_singleton. by left.
  - lia.
  - by repeat constructor.
  - intros p. unfold lnodes. cbn. case_decide; [apply NoDup_singleton|constructor].
  - by repeat constructor.
  - intros p w Hw. assert (heap w = sample_heap) as ->.
    { apply sample_cluster_inv in Hw as [[_ ->]|[_ ->]]; done. }
    split; [apply sample_rep|]. split; [done|]. intros q [b Hb]. cbn in Hb |- *.
    apply lookup_insert_Some in Hb as [[<- _]|[_ Hb]]; [lia|].
    apply lookup_insert_Some in Hb as [[<- _]|[_ Hb]]; [lia|].
    apply lookup_singleton_Some in Hb as [<- _]. lia.
  - intros p w a Hw. assert (heap w = sample_heap) as ->.
    { apply sample_cluster_inv in Hw as [[_ ->]|[_ ->]]; done. }
    destruct (decide (8000 = a)) as [<-|]; [by vm_compute|]. by rewrite sample_node_other.
  - intros w [[_ ->]|[? _]]%sample_cluster_inv; [|done].
    split; [apply sample_fresh|]. split; [|by apply sample_room]. split.
    + by apply (bool_decide_unpack _).
    + intros p. change (addrs (kvs sample_ws)) with [3]. intros ->%list_elem_of_singleton. by eexists.
Qed.

(** ** Properties *)

(** C1: [DBRad::end] is atomic.  Started from a state in which the transaction
    holds no lock, it always returns.  If it returns false, every node of every
    server is exactly as before.  If it returns true, every server's records have
    gained exactly the transaction's versions at one commit timestamp, every lock
    is back to what it was, every written record (local or remote) still had the version
    the transaction read, and the commit timestamp is above the transaction's
    timestamp and the read timestamps of its local records and not below any
    version in the remote set. *)
Theorem end_correct {St} `{!Memstore St} (cl : gmap Z (World St)) me tx rs cs ps r rpc_validate :
  end_ready cl me tx rs cs ps r →
  ∃ cl' tx' rs' b, end_ rpc_validate cl me tx rs = Done (cl', tx', rs', b) ∧
    if (b : bool) then
      committed cl me tx rs r (timestamp tx') cl' ∧ timestamp tx < timestamp tx' ∧
      (∀ i, 0 ≤ i < elems_ rs → ri_seq (kv rs i) ≤ timestamp tx') ∧
      (∀ p w it, cl !! p = Some w → it ∈ lock_request_buf_ rs → lk_pid it = p →
         n_seq (node (heap w) (lk_node it)) = lk_seq it) ∧
      (∀ w it, cl !! me = Some w → it ∈ kvs (rwset tx) → it_ro it = false →
         n_seq (node (heap w) (it_node it)) = it_seq it ∧
         n_read_ts (node (heap w) (it_node it)) < timestamp tx')
    else restored cl cl'.
Proof. intros Hr. by eapply end_run. Qed.

Lemma end_correct_witness :
  (∃ cl' tx' rs', end_ no_validate sample_cluster 1 local_tx sample_rs = Done (cl', tx', rs', true) ∧
     timestamp tx' = 8) ∧
  ∃ cl' tx' rs' b, end_ no_validate sample_cluster 1 local_tx sample_rs = Done (cl', tx', rs', b) ∧
    if (b : bool) then
      committed sample_cluster 1 local_tx sample_rs (λ _, sample_records) (timestamp tx') cl' ∧
      timestamp local_tx < timestamp tx' ∧
      (∀ i, 0 ≤ i < elems_ sample_rs → ri_seq (kv sample_rs i) ≤ timestamp tx') ∧
      (∀ p w it, sample_cluster !! p = Some w → it ∈ lock_request_buf_ sample_rs → lk_pid it = p →
         n_seq (node (heap w) (lk_node it)) = lk_seq it) ∧
      (∀ w it, sample_cluster !! 1 = Some w → it ∈ kvs (rwset local_tx) → it_ro it = false →
         n_seq (node (heap w) (it_node it)) = it_seq it ∧
         n_read_ts (node (heap w) (it_node it)) < timestamp tx')
    else restored sample_cluster cl'.
Proof.
  split; [by eexists _, _, _; vm_compute|].
  apply (end_correct sample_cluster 1 local_tx sample_rs (λ _, sample_cs) (λ _, sample_ps)).
  apply sample_ready.
Defined.

(** ** The remote set under its operations

    What a transaction may have left in the write half of its remote set: nothing
    since the last [clear], promoted writes, or the rest of a transaction that has
    ended ([commit_remote] and [release_remote] take the items back, the counters and
    the destinations stay until [clear]). *)
Inductive rs_phase := Idle | Writing | Ended.

Inductive rs_kind := KClear | KPromote | KFinish | KOther.

(** The order of calls in a transaction: a transaction that has promoted a write ends
    by [commit_remote] or [release_remote] before the next one clears the set, and
    promotes nothing afterwards.  ([dropped_write_is_locked_again] below shows what
    happens otherwise.) *)
Definition next_phase (p : rs_phase) (k : rs_kind) : option rs_phase :=
  match k, p with
  | KClear, Writing => None
  | KClear, _ => Some Idle
  | KPromote, Ended => None
  | KPromote, _ => Some Writing
  | KFinish, Idle => Some Idle
  | KFinish, _ => Some Ended
  | KOther, p => Some p
  end.

(** The operations of the class that DBRad and DBSI call, and [reset] and
    [get_results_readlock], each on its own; the RPC phases with any cluster behind
    them.  (The immediate reads, [add_imm], [get_result_imm] and their batches, and
    [add_range] are not modelled.) *)
Inductive rs_op {St} `{!Memstore St} : rs_kind → RemoteSet → RemoteSet → Prop :=
  | op_add rs type pid tableid key stale rs' i :
      add rs type pid tableid key stale = Done (rs', i) → rs_op KOther rs rs'
  | op_add_long rs part type pid tableid key klen rs' i :
      add_long rs part type pid tableid key klen = Done (rs', i) → rs_op KOther rs rs'
  | op_do_reads rs rs' m : do_reads rs = Done (rs', m) → rs_op KOther rs rs'
  | op_get_results rs replies rs' : get_results rs replies = Done rs' → rs_op KOther rs rs'
  | op_get_results_readlock rs replies rs' b :
      get_results_readlock rs replies = Done (rs', b) → rs_op KOther rs rs'
  | op_promote rs id val rs' : promote_to_write rs id val = Done rs' → rs_op KPromote rs rs'
  | op_lock (cl cl' : gmap Z (World St)) me tid rs rs' b :
      lock_remote cl me tid rs = Done (cl', rs', b) → rs_op KOther rs rs'
  | op_validate rpc_validate (cl cl' : gmap Z (World St)) rs rs' b :
      validate_remote rpc_validate cl rs = Done (cl', rs', b) → rs_op KOther rs rs'
  | op_release (cl cl' : gmap Z (World St)) me tid rs rs' :
      release_remote cl me tid rs = Done (cl', rs') → rs_op KFinish rs rs'
  | op_commit (cl cl' : gmap Z (World St)) rs rs' :
      commit_remote cl rs = Done (cl', rs') → rs_op KFinish rs rs'
  | op_max_time rs t : rs_op KOther rs (set_max_time rs t)
  | op_need_validate rs b : rs_op KOther rs (set_need_validate rs b)
  | op_reset rs : rs_op KOther rs (reset rs)
  | op_clear rs meta_len : rs_op KClear rs (clear rs meta_len).

Inductive rs_reach {St} `{!Memstore St} (cid : Z) : rs_phase → RemoteSet → Prop :=
  | reach_new : rs_reach cid Idle (RemoteSet_new cid)
  | reach_op p k p' rs rs' :
      rs_reach cid p rs → rs_op (St:=St) k rs rs' → next_phase p k = Some p' → rs_reach cid p' rs'.

(** The write messages name the same records in the same order, fit in their buffers
    and go to every server once; the counter is that of the items, unless the
    transaction has ended. *)
Record rs_wf (p : rs_phase) (rs : RemoteSet) : Prop := {
  rw_same : Forall2 (λ l w, lk_pid l = wi_pid w ∧ lk_node l = wi_node w ∧ lk_node l ≠ NULL)
              (lock_request_buf_ rs) (write_back_request_buf_ rs);
  rw_payload : Forall wi_ok (write_back_request_buf_ rs);
  rw_servers : NoDup (write_servers_ rs) ∧ write_server_set_ rs = list_to_set (write_servers_ rs);
  rw_room : lock_used rs ≤ MAX_MSG_SIZE ∧ write_back_used rs ≤ MAX_MSG_SIZE;
  rw_requests : 0 ≤ elems_ rs ≤ Z.of_nat (length (request_buf_ rs));
  rw_read_servers : server_set_ rs ⊆ list_to_set (read_servers_ rs);
  rw_phase :
    match p with
    | Idle => write_items_ rs = 0 ∧ lock_request_buf_ rs = []
    | Writing => write_items_ rs = Z.of_nat (length (lock_request_buf_ rs)) ∧
        ∀ it, it ∈ lock_request_buf_ rs → lk_pid it ∈ write_servers_ rs
    | Ended => lock_request_buf_ rs = []
    end;
}.

Lemma room_Done used n u : room used n = Done u → used + n ≤ MAX_MSG_SIZE.
Proof. unfold room. by case_decide. Qed.

Lemma add_server_inv set servers pid set' servers' :
  add_server set servers pid = Done (set', servers') →
  NoDup servers ∧ set = list_to_set servers →
  (NoDup servers' ∧ set' = list_to_set servers') ∧ pid ∈ servers' ∧ servers ⊆ servers'.
Proof.
  unfold add_server. intros Ha [Hnd Hs]. case_decide as Hin.
  - simplify_eq. rewrite elem_of_list_to_set in Hin. done.
  - case_decide; simplify_eq. rewrite elem_of_list_to_set in Hin. split_and!.
    + apply NoDup_app. split_and!; [done| |apply NoDup_singleton].
      intros x Hx ->%list_elem_of_singleton. done.
    + rewrite list_to_set_app_L. set_solver.
    + set_solver.
    + set_solver.
Qed.

Lemma add_item_wf p rs kvi rq pid rs' i : rs_wf p rs → add_item rs kvi rq pid = Done (rs', i) → rs_wf p rs'.
Proof.
  intros Hwf Ha. unfold add_item in Ha. apply bind_Done in Ha as (u & Hroom%room_Done & Ha).
  apply bind_Done in Ha as ([set servers] & Hadd & Ha). simplify_eq. destruct Hwf.
  split; cbn; try done; [rewrite length_app; cbn; lia|].
  unfold add_server in Hadd. case_decide; [by simplify_eq|]. case_decide; simplify_eq. rewrite list_to_set_app_L. set_solver.
Qed.

Lemma set_result_wf p rs pr rs' : rs_wf p rs → set_result rs pr = Done rs' → rs_wf p rs'.
Proof.
  intros Hwf Hs. unfold set_result in Hs. destruct (_ !! _); [|done]. simplify_eq. destruct Hwf.
  split; cbn; try done. by rewrite length_insert.
Qed.

(** A loop whose every iteration keeps a property keeps it. *)
Lemma for_each_preserves {S A} (f : S → A → result S) (P : S → Prop) l s s' :
  (∀ s x s', P s → f s x = Done s' → P s') → P s → for_each f l s = Done s' → P s'.
Proof.
  intros Hf. revert s. induction l as [|x l IH]; intros s Hs; cbn; [by intros [= <-]|].
  intros (s1 & Hx & Hl)%bind_Done. eauto.
Qed.

Lemma get_results_wf p rs replies rs' : rs_wf p rs → get_results rs replies = Done rs' → rs_wf p rs'.
Proof.
  intros Hwf (rs1 & Hf & (u & _ & Hg)%bind_Done)%bind_Done. simplify_eq.
  eapply (for_each_preserves _ (rs_wf p)); [|exact Hwf|exact Hf]. intros s x s' Hs Hx.
  unfold get_results_reply in Hx. do 2 (apply bind_Done in Hx as (? & _ & Hx)).
  apply bind_Done in Hx as (es & _ & Hx). eapply (for_each_preserves _ (rs_wf p)); [|exact Hs|exact Hx].
  intros s1 pr s2 Hs1 (s3 & Hs3 & (u' & _ & He)%bind_Done)%bind_Done. simplify_eq. by eapply set_result_wf.
Qed.

Lemma get_results_readlock_wf p rs replies rs' b :
  rs_wf p rs → get_results_readlock rs replies = Done (rs', b) → rs_wf p rs'.
Proof.
  intros Hwf ([rs1 ret] & Hf & Hg)%bind_Done. simplify_eq.
  assert (H1 : rs_wf p rs1).
  { eapply (for_each_preserves _ (λ s, rs_wf p s.1) _ (rs, true) (rs1, b)); [|exact Hwf|exact Hf].
    intros s x s' Hs Hx. unfold get_results_readlock_reply in Hx. apply bind_Done in Hx as (? & _ & Hx).
    apply bind_Done in Hx as (es & _ & Hx). eapply (for_each_preserves _ (λ s, rs_wf p s.1)); [|exact Hs|exact Hx].
    intros [s1 r1] pr s2 Hs1 (s3 & Hs3 & (u' & _ & He)%bind_Done)%bind_Done. simplify_eq. by eapply set_result_wf. }
  destruct H1. split; cbn; done.
Qed.

Lemma promote_to_write_wf p p' rs id val rs' :
  rs_wf p rs → promote_to_write rs id val = Done rs' → next_phase p KPromote = Some p' → rs_wf p' rs'.
Proof.
  intros Hwf Hp Hph. unfold promote_to_write in Hp. apply bind_Done in Hp as (u1 & _ & Hp).
  apply bind_Done in Hp as (u2 & Hroom%room_Done & Hp).
  apply bind_Done in Hp as (u3 & Hnode & Hp). apply verify_Done, bool_decide_eq_true in Hnode.
  apply bind_Done in Hp as (u4 & Hroom2%room_Done & Hp).
  apply bind_Done in Hp as ([set servers] & Hadd & Hp). simplify_eq.
  destruct Hwf as [Hs Hpay Hsv Hr Hrq Hrsv Hphase].
  assert (Hc : write_items_ rs = Z.of_nat (length (lock_request_buf_ rs)) ∧
               ∀ it, it ∈ lock_request_buf_ rs → lk_pid it ∈ write_servers_ rs).
  { destruct p; [|done..]. destruct Hphase as [-> ->]. split; [done|]. by intros it ?%not_elem_of_nil. }
  destruct Hc as [Hc Hpid]. destruct (add_server_inv _ _ _ _ _ Hadd Hsv) as (Hsv' & Hin & Hsub).
  assert (p' = Writing) as -> by (destruct p; cbn in Hph; congruence).
  unfold lock_used, write_back_used, write_size, MAX_MSG_SIZE, sizeof_RemoteLockItem,
    sizeof_RTXRemoteWriteItem, sizeof_RequestHeader in *. cbn [wi_data] in Hroom2.
  assert (Hpos : 0 ≤ foldr (λ it n, 24 + Z.of_nat (length (wi_data it)) + n) 0 (write_back_request_buf_ rs)).
  { clear. induction (write_back_request_buf_ rs); cbn [foldr]; lia. }
  split; cbn [write_items_ lock_request_buf_ write_back_request_buf_ write_servers_ write_server_set_ read_servers_ server_set_ elems_ request_buf_]; try done.
  - apply Forall2_app; [done|]. by repeat constructor.
  - apply Forall_app. split; [done|]. constructor; [|constructor]. unfold wi_ok. cbn. apply uwrap_small. lia.
  - unfold lock_used, write_back_used, sizeof_RemoteLockItem, sizeof_RequestHeader, MAX_MSG_SIZE.
    cbn [lock_request_buf_ write_back_request_buf_]. rewrite length_app. cbn [length]. split; [lia|].
    unfold write_size, sizeof_RTXRemoteWriteItem. rewrite foldr_app. cbn [foldr wi_data].
    match goal with |- 16 + foldr ?f ?z ?l ≤ _ => assert (Hz : ∀ k, foldr f k l = foldr f 0 l + k) end.
    { clear. intros k. induction (write_back_request_buf_ rs); cbn [foldr]; lia. }
    rewrite Hz. lia.
  - rewrite length_app. cbn [length]. rewrite uwrap_small by lia. split; [lia|].
    intros it [Hit| ->%list_elem_of_singleton]%elem_of_app; [|done]. apply Hsub. auto.
Qed.

(** Taking the items back ends a transaction that has written. *)
Lemma update_write_buf_wf p p' rs :
  rs_wf p rs → write_items_ rs > 0 → next_phase p KFinish = Some p' → rs_wf p' (update_write_buf rs).
Proof.
  intros [Hs Hpay Hsv Hr Hrq Hrsv Hphase] Hw Hp. assert (p' = Ended) as ->.
  { destruct p; cbn in Hp; [destruct Hphase; lia|congruence..]. }
  split; cbn; done.
Qed.

Lemma finish_idle p p' rs : rs_wf p rs → ¬ write_items_ rs > 0 → next_phase p KFinish = Some p' → rs_wf p' rs.
Proof.
  intros Hwf Hw Hp. destruct p; cbn in Hp; injection Hp as <-; try done; (destruct Hwf as [Hs Hpay Hsv Hr Hrq Hrsv Hphase]; split; try done).
  destruct Hphase as [Hc _]. apply length_zero_iff_nil. lia.
Qed.

Lemma release_remote_phase {St} `{!Memstore St} (cl cl' : gmap Z (World St)) me tid p p' rs rs' :
  rs_wf p rs → release_remote cl me tid rs = Done (cl', rs') → next_phase p KFinish = Some p' → rs_wf p' rs'.
Proof.
  intros Hwf Hr Hp. unfold release_remote, lock_msg in Hr. case_decide; [|simplify_eq; by eapply finish_idle].
  apply bind_Done in Hr as ([cl1 l] & _ & Hr). simplify_eq. by eapply update_write_buf_wf.
Qed.

Lemma commit_remote_phase {St} `{!Memstore St} (cl cl' : gmap Z (World St)) p p' rs rs' :
  rs_wf p rs → commit_remote cl rs = Done (cl', rs') → next_phase p KFinish = Some p' → rs_wf p' rs'.
Proof.
  intros Hwf Hr Hp. unfold commit_remote, commit_msg in Hr. case_decide; [|cbn in Hr; simplify_eq; by eapply finish_idle].
  apply bind_Done in Hr as (om & (u & _ & Hm)%bind_Done & Hr). simplify_eq.
  apply bind_Done in Hr as ([cl1 l] & _ & Hr). simplify_eq. by eapply update_write_buf_wf.
Qed.

Lemma set_max_time_wf p rs t : rs_wf p rs → rs_wf p (set_max_time rs t).
Proof. intros []. by split. Qed.
Lemma set_need_validate_wf p rs b : rs_wf p rs → rs_wf p (set_need_validate rs b).
Proof. intros []. by split. Qed.

Lemma clear_wf p rs meta_len : p ≠ Writing → rs_wf p rs → rs_wf Idle (clear rs meta_len).
Proof.
  intros Hp [Hs Hpay Hsv Hr Hrq Hrsv Hphase]. split; cbn; try done; [by split; [constructor|]|].
  destruct p; [by destruct Hphase|done|done].
Qed.

Lemma rs_op_wf {St} `{!Memstore St} k rs rs' p p' :
  rs_op (St:=St) k rs rs' → next_phase p k = Some p' → rs_wf p rs → rs_wf p' rs'.
Proof.
  destruct 1 as [rs ty pid t k st rs' i Ha|rs part ty pid t k kl rs' i Ha|rs rs' m Hd|rs replies rs' Hg
                |rs replies rs' b Hg|rs id val rs' Hp|cl cl' me tid rs rs' b Hl|rv cl cl' rs rs' b Hl
                |cl cl' me tid rs rs' Hl|cl cl' rs rs' Hl|rs t|rs b|rs|rs ml]; intros Hn Hwf;
    try (cbn in Hn; injection Hn as <-).
  - unfold add in Ha. apply bind_Done in Ha as (u & _ & Ha). by eapply add_item_wf.
  - unfold add_long in Ha. do 4 (apply bind_Done in Ha as (? & _ & Ha)). by eapply add_item_wf.
  - unfold do_reads in Hd. case_decide; [done|]. apply bind_Done in Hd as (u & _ & Hd).
    simplify_eq. destruct Hwf. by split.
  - by eapply get_results_wf.
  - by eapply get_results_readlock_wf.
  - by eapply promote_to_write_wf.
  - unfold lock_remote in Hl. destruct (lock_msg rs); [|by simplify_eq]. apply bind_Done in Hl as ([cl1 l] & _ & Hl).
    destruct (check_res _ _). simplify_eq. by apply set_max_time_wf.
  - unfold validate_remote in Hl. destruct (validate_msg rs); [|by simplify_eq]. apply bind_Done in Hl as ([cl1 l] & _ & Hl).
    destruct (check_res _ _). simplify_eq. by apply set_need_validate_wf, set_max_time_wf.
  - by eapply release_remote_phase.
  - by eapply commit_remote_phase.
  - by apply set_max_time_wf.
  - by apply set_need_validate_wf.
  - destruct Hwf. split; cbn; try done. lia.
  - destruct p; [injection Hn as <-; by apply (clear_wf Idle)|done|injection Hn as <-; by apply (clear_wf Ended)].
Qed.

Lemma rs_reach_wf {St} `{!Memstore St} cid p rs : rs_reach (St:=St) cid p rs → rs_wf p rs.
Proof.
  induction 1 as [|p k p' rs rs' _ IH Hop Hn]; [|by eapply rs_op_wf].
  apply (clear_wf Idle); [done|]. split; cbn; try done; by split; [constructor|].
Qed.

(** With at most 127 writes the headers announce the items: a handler's loop goes
    over exactly what was promoted. *)
Lemma rs_messages p rs :
  rs_wf p rs → p ≠ Ended → 0 < Z.of_nat (length (lock_request_buf_ rs)) ≤ 127 →
  ∃ lm wm, lock_msg rs = Some lm ∧ commit_msg rs = Done (Some wm) ∧
    msg_items lm = Done (lock_request_buf_ rs) ∧ msg_items wm = Done (write_back_request_buf_ rs) ∧
    m_to wm = m_to lm ∧ NoDup (m_to lm) ∧ ∀ it, it ∈ lock_request_buf_ rs → lk_pid it ∈ m_to lm.
Proof.
  intros [Hs Hpay [Hnd _] Hr Hrq Hrsv Hphase] Hp Hn. destruct p; [destruct Hphase as [_ Hl]; rewrite Hl in Hn; cbn in Hn; lia| |done].
  destruct Hphase as [Hc Hpid]. apply Forall2_length in Hs. unfold lock_msg, commit_msg. rewrite !decide_True by lia.
  assert (Hi : i8 (write_items_ rs) = write_items_ rs) by (apply swrap_small; lia).
  eexists _, _. split; [done|]. rewrite bool_decide_eq_true_2 by lia. split; [done|].
  split; [apply msg_items_all; cbn; lia|]. split; [apply msg_items_all; cbn; lia|]. done.
Qed.


(** The intermediate states of [sample_rs]. *)
Definition run_or {A} (d : A) (m : result A) : A := match m with Done a => a | _ => d end.
Definition rs_added : RemoteSet :=
  (run_or (RemoteSet_new 0, 0) (add (RemoteSet_new 0) REQ_READ 2 0 7 blank_request)).1.
Definition rs_read : RemoteSet * Message RemoteSetRequestItem :=
  run_or (rs_added, mkMsg (mkReqHeader 0 0 0) [] []) (do_reads rs_added).
Definition rs_reply : ReadReply :=
  (run_or (remote_world, (mkReplyHeader 0 0 0, [])) (get_rpc_handler remote_world rs_read.2)).2.
Definition rs_got : RemoteSet := run_or rs_added (get_results rs_read.1 [rs_reply]).

(** The remote record locked, then given back with the items. *)
Definition rs_locked : gmap Z (World ClusterHash) * RemoteSet * bool :=
  run_or (sample_cluster, sample_rs, false) (lock_remote sample_cluster 1 5 sample_rs).
Definition rs_released : gmap Z (World ClusterHash) * RemoteSet :=
  run_or (sample_cluster, sample_rs) (release_remote rs_locked.1.1 1 5 rs_locked.1.2).

Lemma sample_rs_reach : rs_reach (St:=ClusterHash) 0 Writing sample_rs.
Proof.
  apply (reach_op _ Idle KPromote _ rs_got); [|apply (op_promote _ 0 [5; 5]); vm_compute; reflexivity|done].
  apply (reach_op _ Idle KOther _ rs_read.1); [|apply (op_get_results _ [rs_reply]); vm_compute; reflexivity|done].
  apply (reach_op _ Idle KOther _ rs_added); [|apply (op_do_reads _ _ rs_read.2); vm_compute; reflexivity|done].
  apply (reach_op _ Idle KOther _ (RemoteSet_new 0)); [apply reach_new| |done].
  apply (op_add _ REQ_READ 2 0 7 blank_request rs_added 0); vm_compute; reflexivity.
Qed.


(** The remote server after the read at 100, and the result of the commit. *)
Definition read_remote : World ClusterHash :=
  (run_or (remote_world, (0, None)) (get_ro_versioned false remote_world 0 7 100)).1.
Definition ended : gmap Z (World ClusterHash) * DBRad * RemoteSet * bool :=
  run_or (sample_cluster, local_tx, sample_rs, false)
    (end_ no_validate {[ 1 := sample_world; 2 := read_remote ]} 1 local_tx sample_rs).

(** The read timestamps of remote records do not reach the commit timestamp:
    the lock replies carry them, but [end] overwrites the maximum with the
    transaction's own timestamp.  A reader that read version 5 of the remote record
    at timestamp 100 sees version 8 when it reads at 100 again after the commit. *)
Theorem remote_read_ts_ignored :
  ∃ rw cl' tx' rs' w2 w3,
    get_ro_versioned false remote_world 0 7 100 = Done (rw, (5, Some [1; 2])) ∧
    n_read_ts (node (heap rw) 8000) = 100 ∧
    end_ no_validate {[ 1 := sample_world; 2 := rw ]} 1 local_tx sample_rs = Done (cl', tx', rs', true) ∧
    timestamp tx' = 8 ∧ cl' !! 2 = Some w2 ∧
    get_ro_versioned false w2 0 7 100 = Done (w3, (8, Some [5; 5])).
Proof.
  exists read_remote, ended.1.1.1, ended.1.1.2, ended.1.2,
    (default remote_world (ended.1.1.1 !! 2)),
    (run_or (remote_world, (0, None))
       (get_ro_versioned false (default remote_world (ended.1.1.1 !! 2)) 0 7 100)).1.
  split; [vm_compute; reflexivity|]. split; [vm_compute; reflexivity|].
  split; [vm_compute; reflexivity|]. split; [vm_compute; reflexivity|].
  split; vm_compute; reflexivity.
Qed.

(** [clear] keeps the items of the lock message.  When a transaction that has
    promoted a write is dropped without [end], the next one announces one item and the
    servers lock the dropped transaction's record instead of its own. *)
Theorem dropped_write_is_locked_again :
  ∃ rs1 rs2 rs3 rs4 rs5 m m',
    promote_to_write rs_got 0 [5; 5] = Done rs1 ∧
    add (clear rs1 0) REQ_READ 2 0 9 blank_request = Done (rs2, 0) ∧
    do_reads rs2 = Done (rs3, m) ∧
    get_results rs3 [(mkReplyHeader 1 2 0, [mkReplyItem 6 9000 0 [3; 3]])] = Done rs4 ∧
    promote_to_write rs4 0 [4; 4] = Done rs5 ∧
    lock_msg rs5 = Some m' ∧ msg_items m' = Done [mkLockItem 2 5 8000 0].
Proof.
  set (rs2 := (run_or (RemoteSet_new 0, 0) (add (clear sample_rs 0) REQ_READ 2 0 9 blank_request)).1).
  set (p3 := run_or (rs2, mkMsg (mkReqHeader 0 0 0) [] []) (do_reads rs2)).
  set (rs4 := run_or p3.1 (get_results p3.1 [(mkReplyHeader 1 2 0, [mkReplyItem 6 9000 0 [3; 3]])])).
  set (rs5 := run_or rs4 (promote_to_write rs4 0 [4; 4])).
  exists sample_rs, rs2, p3.1, rs4, rs5, p3.2, (default (mkMsg (mkReqHeader 0 0 0) [] []) (lock_msg rs5)).
  split; [vm_compute; reflexivity|]. split; [vm_compute; reflexivity|].
  split; [vm_compute; reflexivity|]. split; [vm_compute; reflexivity|].
  split; [vm_compute; reflexivity|]. split; vm_compute; reflexivity.
Qed.
