(* ===== verification/RadConc.v ===== *)
(** * Interleavings of readers and writers on one record

    RadLocal.v and RadRead.v treat [get], [LockAllSet], [CommitLocalWrite] and the
    timestamped read as single steps.  Here each access to shared memory is a step
    of its own, in sequentially consistent order, and threads interleave freely.

    [Seqlock] is the pair [DBRad::get] / [CommitLocalWrite]: the sequence number is
    set to 1 while the value pointer moves.  [ReadTs] is the update of [read_ts] by
    concurrent readers, which is compiled in with [RC] 0. *)

From S2P Require Import Prelude Memstore.

(** ** Optimistic reads against commits *)

Module Seqlock.

(** A commit of buffer [addr] at timestamp [ts]: the phases of one item of
    [CommitLocalWrite], from the lock to its release. *)
Inductive wphase :=
  | Idle
  | Locked
  | Invalid (addr ts : Z)      (** [seq] is 1, the value is still the old one *)
  | Switched (addr ts : Z)     (** [value] is the new buffer *)
  | Published.                 (** [seq] is the commit timestamp *)

#[export] Instance wphase_eq_dec : EqDecision wphase.
Proof. solve_decision. Defined.

(** [DBRad::get]: after reading [seq], after reading [value], after the copy. *)
Inductive rphase :=
  | RStart
  | RSeq (s : Z)
  | RVal (s v : Z)
  | RCopied (s : Z) (d : list Z)
  | RReturn (s : Z) (d : list Z)
  | RAbsent.                   (** the value was NULL: return 1 *)

(** [hist]: the versions published so far with their buffers, newest first; NULL is
    the buffer of a deletion. *)
Record state := mkState {
  lock : option nat;
  seq : Z;
  value : Z;
  writers : nat → wphase;
  readers : nat → rphase;
  hist : list (Z * Z);
}.

Section seqlock.
(** The payload of every buffer, which does not change once it is reachable. *)
Context (pay : Z → list Z).

Definition set_writer (st : state) (i : nat) (p : wphase) (lk : option nat) (sq v : Z) (hs : list (Z * Z)) : state :=
  mkState lk sq v (<[i := p]> (writers st)) (readers st) hs.
Definition set_reader (st : state) (j : nat) (p : rphase) : state :=
  mkState (lock st) (seq st) (value st) (writers st) (<[j := p]> (readers st)) (hist st).

(** One access to shared memory by one thread. *)
Inductive step : state → state → Prop :=
  | w_lock st i :
      writers st i = Idle → lock st = None →
      step st (set_writer st i Locked (Some i) (seq st) (value st) (hist st))
  | w_unlock_abort st i :
      writers st i = Locked →
      step st (set_writer st i Idle None (seq st) (value st) (hist st))
  | w_invalidate st i addr ts :
      writers st i = Locked →
      step st (set_writer st i (Invalid addr ts) (lock st) 1 (value st) (hist st))
  | w_switch st i addr ts :
      writers st i = Invalid addr ts →
      step st (set_writer st i (Switched addr ts) (lock st) (seq st) addr (hist st))
  | w_publish st i addr ts :
      writers st i = Switched addr ts →
      step st (set_writer st i Published (lock st) ts (value st) ((ts, addr) :: hist st))
  | w_unlock st i :
      writers st i = Published →
      step st (set_writer st i Idle None (seq st) (value st) (hist st))
  | r_seq st j :
      readers st j = RStart → step st (set_reader st j (RSeq (seq st)))
  | r_value st j s :
      readers st j = RSeq s → value st ≠ NULL → step st (set_reader st j (RVal s (value st)))
  | r_absent st j s :
      readers st j = RSeq s → value st = NULL → step st (set_reader st j RAbsent)
  | r_copy st j s v :
      readers st j = RVal s v → step st (set_reader st j (RCopied s (pay v)))
  | r_retry st j s d :
      readers st j = RCopied s d → s = 1 ∨ seq st ≠ s → step st (set_reader st j RStart)
  | r_return st j s d :
      readers st j = RCopied s d → s ≠ 1 → seq st = s → step st (set_reader st j (RReturn s d)).

(** A record whose current version is [v0] with the buffer [b0]. *)
Definition initial (v0 b0 : Z) : state := mkState None v0 b0 (λ _, Idle) (λ _, RStart) [(v0, b0)].

(** No commit carries the timestamp of an earlier version of the record, or 1. *)
Definition distinct_versions (st : state) : Prop := NoDup (hist st).*1 ∧ 1 ∉ (hist st).*1.

(** The record shows its newest version. *)
Definition current (st : state) : Prop := head (hist st) = Some (seq st, value st).

(** What a writer in a phase implies about the record. *)
Definition phase_ok (st : state) (p : wphase) : Prop :=
  match p with
  | Idle => True
  | Locked | Published => current st
  | Invalid addr ts => seq st = 1
  | Switched addr ts => seq st = 1 ∧ value st = addr
  end.

Definition published (st : state) (s : Z) (d : list Z) : Prop := ∃ b, (s, b) ∈ hist st ∧ b ≠ NULL ∧ d = pay b.
Definition newest (st : state) (s : Z) (d : list Z) : Prop := ∃ b, head (hist st) = Some (s, b) ∧ b ≠ NULL ∧ d = pay b.

(** A reader whose version is still the record's has the value of that version. *)
Definition reader_ok (st : state) (p : rphase) : Prop :=
  match p with
  | RStart | RAbsent => True
  | RSeq s => s ≠ 1 → s ∈ (hist st).*1
  | RVal s v => s ≠ 1 → s ∈ (hist st).*1 ∧ (seq st = s → newest st s (pay v))
  | RCopied s d => s ≠ 1 → s ∈ (hist st).*1 ∧ (seq st = s → newest st s d)
  | RReturn s d => s ≠ 1 ∧ published st s d
  end.

Record inv (st : state) : Prop := {
  inv_holder i : writers st i ≠ Idle → lock st = Some i;
  inv_busy i : lock st = Some i → writers st i ≠ Idle;
  inv_free : lock st = None → current st;
  inv_phase i : phase_ok st (writers st i);
  inv_readers : distinct_versions st → ∀ j, reader_ok st (readers st j);
}.

(** While [seq] is not 1 the value is the one of the newest version. *)
Lemma seqlock_inv_stable st : inv st → seq st ≠ 1 → current st.
Proof.
  intros Hi Hs. destruct (lock st) as [i|] eqn:Hl; [|by apply Hi].
  pose proof (inv_phase _ Hi i) as Hp. pose proof (inv_busy _ Hi i Hl) as Hb.
  destruct (writers st i); cbn in *; naive_solver.
Qed.

Lemma seqlock_inv_initial v0 b0 : inv (initial v0 b0).
Proof. by split. Qed.

(** A step of the writer that holds the lock keeps the invariant when it keeps the
    record consistent and shows readers nothing but a version of its own. *)
Lemma seqlock_inv_writer st i p lk sq v hs :
  inv st → (lk = Some i ↔ p ≠ Idle) → (lk = None ↔ p = Idle) →
  lock st = Some i ∨ lock st = None →
  (p = Idle → head hs = Some (sq, v)) →
  phase_ok (mkState lk sq v (writers st) (readers st) hs) p →
  (hs = hist st ∧ (sq = seq st ∨ sq = 1)) ∨ (∃ a, hs = (sq, a) :: hist st) →
  inv (set_writer st i p lk sq v hs).
Proof.
  intros Hi Hlk Hnone Hmine Hfree Hp Hhs.
  assert (Hothers : ∀ k, k ≠ i → writers st k = Idle).
  { intros k Hk. destruct (decide (writers st k = Idle)) as [|Hb]; [done|].
    apply (inv_holder _ Hi) in Hb. destruct Hmine; congruence. }
  split; cbn.
  - intros k. destruct (decide (k = i)) as [->|Hk]; [rewrite fn_lookup_insert; naive_solver|].
    rewrite fn_lookup_insert_ne, Hothers by done. done.
  - intros k Hk. destruct (decide (k = i)) as [->|Hne]; [rewrite fn_lookup_insert; naive_solver|].
    destruct lk as [l|]; [|done]. destruct p; naive_solver.
  - intros Hl. by apply Hfree, Hnone.
  - intros k. destruct (decide (k = i)) as [->|Hne].
    + rewrite fn_lookup_insert. by destruct p.
    + by rewrite fn_lookup_insert_ne, Hothers.
  - intros [Hnd H1] j. cbn in Hnd, H1.
    assert (Hold : distinct_versions st).
    { destruct Hhs as [[-> _]|[a ->]]; [done|]. cbn in Hnd, H1. apply NoDup_cons in Hnd as [_ ?]. split; set_solver. }
    pose proof (inv_readers _ Hi Hold j) as Hr. destruct Hhs as [[-> Hsq]|[a ->]]; cbn in *.
    + destruct (readers st j) as [|s|s v'|s d|s d|]; cbn in *; try done; intros Hs; destruct (Hr Hs) as [Hin Hc];
        (split; [done|]); intros <-; destruct Hsq; [by apply Hc|done|by apply Hc|done].
    + apply NoDup_cons in Hnd as [Hnew _]. destruct (readers st j) as [|s|s v'|s d|s d|]; cbn in *; try done.
      * intros Hs. right. auto.
      * intros Hs. destruct (Hr Hs) as [Hin _]. split; [by right|]. by intros <-.
      * intros Hs. destruct (Hr Hs) as [Hin _]. split; [by right|]. by intros <-.
      * destruct Hr as (Hs & b & Hb & Hrest). split; [done|]. exists b. split; [by right|done].
Qed.

Lemma seqlock_inv_reader st j p :
  inv st → (distinct_versions st → reader_ok st p) → inv (set_reader st j p).
Proof.
  intros [H1 H2 H3 H4 H5] Hp. split; cbn; try done. intros Hd k. specialize (H5 Hd k).
  destruct (decide (k = j)) as [->|]; [by rewrite fn_lookup_insert; destruct p; apply Hp|by rewrite fn_lookup_insert_ne].
Qed.

Lemma current_in st : current st → seq st ∈ (hist st).*1.
Proof. unfold current. destruct (hist st) as [|p l]; [done|]. intros [= ->]. by left. Qed.

Lemma seqlock_inv_step st st' : inv st → step st st' → inv st'.
Proof.
  intros Hi Hstep. destruct Hstep as
    [st i Hp Hl|st i Hp|st i a ts Hp|st i a ts Hp|st i a ts Hp|st i Hp
    |st j Hp|st j s Hp Hv|st j s Hp Hv|st j s v Hp|st j s d Hp Hs|st j s d Hp H1 Hs].
  1-6: pose proof (inv_phase _ Hi i) as Hok; rewrite Hp in Hok; cbn in Hok.
  1: { apply seqlock_inv_writer; try done; [by right|by apply (inv_free _ Hi)|left; auto]. }
  1-5: assert (Hl : lock st = Some i) by (apply Hi; congruence); rewrite ?Hl.
  - apply seqlock_inv_writer; try done; [by left|left; auto].
  - apply seqlock_inv_writer; try done; [by left|left; auto].
  - apply seqlock_inv_writer; try done; [by left|left; auto].
  - destruct Hok as [_ ->]. apply seqlock_inv_writer; try done; [by left|right; eauto].
  - apply seqlock_inv_writer; try done; [by left|left; auto].
  - apply seqlock_inv_reader; [done|]. cbn. intros _ H1. by apply current_in, seqlock_inv_stable.
  - apply seqlock_inv_reader; [done|]. intros Hd. pose proof (inv_readers _ Hi Hd j) as Hok. rewrite Hp in Hok. cbn in *.
    intros H1. split; [auto|]. intros <-. exists (value st). split; [by apply seqlock_inv_stable|done].
  - by apply seqlock_inv_reader.
  - apply seqlock_inv_reader; [done|]. intros Hd. pose proof (inv_readers _ Hi Hd j) as Hok. by rewrite Hp in Hok.
  - by apply seqlock_inv_reader.
  - apply seqlock_inv_reader; [done|]. intros Hd. pose proof (inv_readers _ Hi Hd j) as Hok. rewrite Hp in Hok. cbn in Hok.
    destruct (Hok H1) as [_ Hn]. destruct (Hn Hs) as (b & Hb & Hrest). split; [done|]. exists b. split; [|done].
    by apply head_Some_elem_of.
Qed.

Lemma seqlock_inv_reachable v0 b0 st : rtc step (initial v0 b0) st → inv st.
Proof.
  intros Hr. assert (Hi := seqlock_inv_initial v0 b0). revert Hi.
  induction Hr as [|st1 st2 st3 Hs _ IH]; [done|]. intros Hi. eapply IH, seqlock_inv_step; done.
Qed.


(** The timestamps matter: a reader overtaken by two commits, the second one at the version
    it had read, returns the payload of the first under that version. *)
Definition reuse_0 : state := initial 5 1.
Definition reuse_1 : state := set_reader reuse_0 0 (RSeq 5).
Definition reuse_2 : state := set_writer reuse_1 1 Locked (Some 1%nat) (seq reuse_1) (value reuse_1) (hist reuse_1).
Definition reuse_3 : state := set_writer reuse_2 1 (Invalid 2 9) (lock reuse_2) 1 (value reuse_2) (hist reuse_2).
Definition reuse_4 : state := set_writer reuse_3 1 (Switched 2 9) (lock reuse_3) (seq reuse_3) 2 (hist reuse_3).
Definition reuse_5 : state := set_reader reuse_4 0 (RVal 5 (value reuse_4)).
Definition reuse_6 : state := set_writer reuse_5 1 Published (lock reuse_5) 9 (value reuse_5) ((9, 2) :: hist reuse_5).
Definition reuse_7 : state := set_writer reuse_6 1 Idle None (seq reuse_6) (value reuse_6) (hist reuse_6).
Definition reuse_8 : state := set_writer reuse_7 1 Locked (Some 1%nat) (seq reuse_7) (value reuse_7) (hist reuse_7).
Definition reuse_9 : state := set_writer reuse_8 1 (Invalid 3 5) (lock reuse_8) 1 (value reuse_8) (hist reuse_8).
Definition reuse_10 : state := set_writer reuse_9 1 (Switched 3 5) (lock reuse_9) (seq reuse_9) 3 (hist reuse_9).
Definition reuse_11 : state := set_writer reuse_10 1 Published (lock reuse_10) 5 (value reuse_10) ((5, 3) :: hist reuse_10).
Definition reuse_12 : state := set_reader reuse_11 0 (RCopied 5 (pay 2)).
Definition reuse_13 : state := set_reader reuse_12 0 (RReturn 5 (pay 2)).

Theorem reused_timestamp_tears :
  rtc step reuse_0 reuse_13 ∧ readers reuse_13 0%nat = RReturn 5 (pay 2) ∧ hist reuse_13 = [(5, 3); (9, 2); (5, 1)].
Proof.
  split; [|done].
  apply (rtc_l _ _ reuse_1); [by refine (r_seq reuse_0 0 _)|].
  apply (rtc_l _ _ reuse_2); [by refine (w_lock reuse_1 1 _ _)|].
  apply (rtc_l _ _ reuse_3); [by refine (w_invalidate reuse_2 1 2 9 _)|].
  apply (rtc_l _ _ reuse_4); [by refine (w_switch reuse_3 1 2 9 _)|].
  apply (rtc_l _ _ reuse_5); [by refine (r_value reuse_4 0 5 _ _)|].
  apply (rtc_l _ _ reuse_6); [by refine (w_publish reuse_5 1 2 9 _)|].
  apply (rtc_l _ _ reuse_7); [by refine (w_unlock reuse_6 1 _)|].
  apply (rtc_l _ _ reuse_8); [by refine (w_lock reuse_7 1 _ _)|].
  apply (rtc_l _ _ reuse_9); [by refine (w_invalidate reuse_8 1 3 5 _)|].
  apply (rtc_l _ _ reuse_10); [by refine (w_switch reuse_9 1 3 5 _)|].
  apply (rtc_l _ _ reuse_11); [by refine (w_publish reuse_10 1 3 5 _)|].
  apply (rtc_l _ _ reuse_12); [by refine (r_copy reuse_11 0 5 2 _)|].
  apply rtc_once. by refine (r_return reuse_12 0 5 (pay 2) _ _ _).
Qed.
End seqlock.

(** A reader that starts before a commit, is overtaken by it, retries and returns the new
    version. *)
Definition sample_pay (b : Z) : list Z := if decide (b = 1) then [10] else [20].
Definition race_0 : state := initial 5 1.
Definition race_1 : state := set_reader race_0 0 (RSeq 5).
Definition race_2 : state := set_writer race_1 1 Locked (Some 1%nat) (seq race_1) (value race_1) (hist race_1).
Definition race_3 : state := set_writer race_2 1 (Invalid 2 9) (lock race_2) 1 (value race_2) (hist race_2).
Definition race_4 : state := set_reader race_3 0 (RVal 5 (value race_3)).
Definition race_5 : state := set_writer race_4 1 (Switched 2 9) (lock race_4) (seq race_4) 2 (hist race_4).
Definition race_6 : state := set_writer race_5 1 Published (lock race_5) 9 (value race_5) ((9, 2) :: hist race_5).
Definition race_7 : state := set_reader race_6 0 (RCopied 5 [10]).
Definition race_8 : state := set_reader race_7 0 RStart.
Definition race_9 : state := set_reader race_8 0 (RSeq 9).
Definition race_10 : state := set_reader race_9 0 (RVal 9 (value race_9)).
Definition race_11 : state := set_reader race_10 0 (RCopied 9 [20]).
Definition race_end : state := set_reader race_11 0 (RReturn 9 [20]).

Lemma race_end_reachable : rtc (step sample_pay) (initial 5 1) race_end.
Proof.
  apply (rtc_l _ _ race_1); [by refine (r_seq sample_pay race_0 0 _)|].
  apply (rtc_l _ _ race_2); [by refine (w_lock sample_pay race_1 1 _ _)|].
  apply (rtc_l _ _ race_3); [by refine (w_invalidate sample_pay race_2 1 2 9 _)|].
  apply (rtc_l _ _ race_4); [by refine (r_value sample_pay race_3 0 5 _ _)|].
  apply (rtc_l _ _ race_5); [by refine (w_switch sample_pay race_4 1 2 9 _)|].
  apply (rtc_l _ _ race_6); [by refine (w_publish sample_pay race_5 1 2 9 _)|].
  apply (rtc_l _ _ race_7); [by refine (r_copy sample_pay race_6 0 5 1 _)|].
  apply (rtc_l _ _ race_8); [refine (r_retry sample_pay race_7 0 5 [10] _ _); [done|by right]|].
  apply (rtc_l _ _ race_9); [by refine (r_seq sample_pay race_8 0 _)|].
  apply (rtc_l _ _ race_10); [by refine (r_value sample_pay race_9 0 9 _ _)|].
  apply (rtc_l _ _ race_11); [by refine (r_copy sample_pay race_10 0 9 2 _)|].
  apply rtc_once. by refine (r_return sample_pay race_11 0 9 [20] _ _ _).
Qed.

End Seqlock.

(** ** Recording the read timestamp *)

Module ReadTs.

(** [_get_ro_versioned_helper] up to the release of [read_lock]: the old timestamp
    is read before the lock is taken and not looked at again. *)
Inductive rphase :=
  | Start (ver : Z)
  | HasOrigin (ver origin : Z)
  | InLock (ver : Z)
  | Stored (ver : Z)
  | Recorded (ver : Z).

Record state := mkState { read_lock : Z; read_ts : Z; readers : nat → rphase }.

Definition move (st : state) (j : nat) (p : rphase) (lk ts : Z) : state :=
  mkState lk ts (<[j := p]> (readers st)).

Inductive step : state → state → Prop :=
  | s_origin st j ver :
      readers st j = Start ver → step st (move st j (HasOrigin ver (read_ts st)) (read_lock st) (read_ts st))
  | s_skip st j ver origin :
      readers st j = HasOrigin ver origin → MAX ver origin ≠ ver →
      step st (move st j (Recorded ver) (read_lock st) (read_ts st))
  | s_lock st j ver origin :
      readers st j = HasOrigin ver origin → MAX ver origin = ver → read_lock st = 0 →
      step st (move st j (InLock ver) 1 (read_ts st))
  | s_store st j ver :
      readers st j = InLock ver → step st (move st j (Stored ver) (read_lock st) ver)
  | s_unlock st j ver :
      readers st j = Stored ver → step st (move st j (Recorded ver) 0 (read_ts st)).

Definition two_readers : state :=
  mkState 0 3 (λ j, if decide (j = 0%nat) then Start 5 else Start 9).

Definition lu_1 : state := move two_readers 0 (HasOrigin 5 3) 0 3.
Definition lu_2 : state := move lu_1 1 (HasOrigin 9 3) 0 3.
Definition lu_3 : state := move lu_2 1 (InLock 9) 1 3.
Definition lu_4 : state := move lu_3 1 (Stored 9) 1 9.
Definition lu_5 : state := move lu_4 1 (Recorded 9) 0 9.
Definition lu_6 : state := move lu_5 0 (InLock 5) 1 9.
Definition lu_7 : state := move lu_6 0 (Stored 5) 1 5.

(** The read lock does not protect the comparison.  Two readers at 5 and 9
    that both saw the old timestamp 3 can leave 5 recorded although the reader at 9
    has finished recording, so a writer may choose a commit timestamp below 9. *)
Theorem read_ts_lost_update :
  ∃ st, rtc step two_readers st ∧ readers st 1%nat = Recorded 9 ∧ read_ts st = 5.
Proof.
  exists lu_7. split; [|done].
  apply (rtc_l _ _ lu_1); [by refine (s_origin two_readers 0 5 _)|].
  apply (rtc_l _ _ lu_2); [by refine (s_origin lu_1 1 9 _)|].
  apply (rtc_l _ _ lu_3); [by refine (s_lock lu_2 1 9 3 _ _ _)|].
  apply (rtc_l _ _ lu_4); [by refine (s_store lu_3 1 9 _)|].
  apply (rtc_l _ _ lu_5); [by refine (s_unlock lu_4 1 9 _)|].
  apply (rtc_l _ _ lu_6); [by refine (s_lock lu_5 0 5 3 _ _ _)|].
  apply rtc_once. by refine (s_store lu_6 0 5 _).
Qed.
End ReadTs.
