(* ===== verification/TSManager.v ===== *)
(** * TSManager: the vector-timestamp service

    Models src/drtm-dst/src/db/txs/ts_manager.hpp.  Each machine numbers its
    commits with a counter ([get_commit_ts]) and reports every finished commit to the master
    ([ts_update_handler]), which keeps one vector entry per machine.  Reports arrive
    in any order; an entry advances only over a gap-free prefix, the others wait in
    a priority queue.  Readers use a copy of the vector that is fetched
    periodically ([fetch_ts], [get_start_ts]).

    The build's configuration is [ONE_CLOCK] = 0 and [LARGE_VEC] = 0; the handler of the
    other two settings is given as well.  [TS_BATCH] is a build parameter. *)

From S2P Require Import Prelude.

(** ** The priority queue

    [std::priority_queue<int, std::vector<uint64_t>, std::greater<int>>]: the
    elements are 64-bit, but the comparison converts them to [int].  [top] of an
    empty queue is undefined; the model reads the slot of the last popped element,
    which is what the vector's storage still holds. *)

Record ts_queue := mkQueue { q_items : list Z; q_slot : Z }.

Definition q_less (x y : Z) : Prop := i32 x < i32 y.
#[export] Instance q_less_dec x y : Decision (q_less x y).
Proof. unfold q_less. apply _. Defined.

Fixpoint q_insert (x : Z) (l : list Z) : list Z :=
  match l with
  | [] => [x]
  | y :: l => if decide (q_less y x) then y :: q_insert x l else x :: y :: l
  end.

Definition q_push (x : Z) (q : ts_queue) : ts_queue := mkQueue (q_insert x (q_items q)) (q_slot q).
Definition q_top (q : ts_queue) : Z := match q_items q with x :: _ => x | [] => q_slot q end.
Definition q_pop (q : ts_queue) : result ts_queue :=
  match q_items q with x :: l => Done (mkQueue l x) | [] => Crash invalid_access end.

(** ** State *)

Record TSManager := mkTSM {
  local_ts : Z;
  ts_buffer : list Z;            (** the master's vector *)
  fetched_ts_buffer_ : list Z;   (** the local copy *)
  pending_tss_ : list ts_queue;
}.

(** [TSManager::init_ts_meta] *)
Definition init_ts_meta (n : nat) : list Z := replicate n 2.

(** [TSManager::TSManager] for a cluster of [n] machines. *)
Definition TSManager_new (n : nat) : TSManager :=
  mkTSM 3 (init_ts_meta n) (init_ts_meta n) (replicate n (mkQueue [] 0)).

(** ** Operations *)

Definition get_commit_ts (t : TSManager) : TSManager * Z :=
  (mkTSM (u64 (local_ts t + 1)) (ts_buffer t) (fetched_ts_buffer_ t) (pending_tss_ t), local_ts t).

Definition get_gts (TS_BATCH : Z) (t : TSManager) : TSManager * Z :=
  (mkTSM (u64 (local_ts t + TS_BATCH)) (ts_buffer t) (fetched_ts_buffer_ t) (pending_tss_ t), local_ts t).

Definition get_start_ts (t : TSManager) : list Z := fetched_ts_buffer_ t.

Definition ts_get_handler (t : TSManager) : list Z := ts_buffer t.

(** One round of [worker_routine]: the reply of the master replaces the copy. *)
Definition fetch_ts (t : TSManager) (reply : list Z) : TSManager :=
  mkTSM (local_ts t) (ts_buffer t) reply (pending_tss_ t).

(** [while(top() == ts + step) { ts += step; pop(); }] *)
Fixpoint advance (fuel : nat) (stride : Z) (ts : Z) (q : ts_queue) : result (Z * ts_queue) :=
  match fuel with
  | O => Spin
  | S fuel =>
      if decide (q_top q = u64 (ts + stride)) then
        q ← q_pop q;
        advance fuel stride (u64 (ts + stride)) q
      else Done (ts, q)
  end.

Definition push_advance (stride ts counter : Z) (q : ts_queue) : result (Z * ts_queue) :=
  let q := q_push counter q in
  advance (S (length (q_items q))) stride ts q.

(** [TSManager::ts_update_handler], one entry per machine. *)
Definition ts_update_handler (nthreads : Z) (t : TSManager) (id thread_id counter : Z) : result TSManager :=
  _ ← verify (bool_decide (0 ≤ thread_id < nthreads));
  _ ← verify (bool_decide (0 ≤ id < 64));
  match ts_buffer t !! Z.to_nat id, pending_tss_ t !! Z.to_nat id with
  | Some ts, Some q =>
      '(ts, q) ← push_advance 1 ts counter q;
      Done (mkTSM (local_ts t) (<[Z.to_nat id := ts]> (ts_buffer t)) (fetched_ts_buffer_ t)
              (<[Z.to_nat id := q]> (pending_tss_ t)))
  | _, _ => Crash invalid_access
  end.

(** The handler with [ONE_CLOCK]: one counter advanced in strides of [TS_BATCH];
    [max_ts_] is a statistic. *)
Definition ts_update_one_clock (TS_BATCH : Z) (ts max_ts : Z) (q : ts_queue) (counter : Z)
  : result (Z * Z * ts_queue) :=
  '(ts, q) ← push_advance TS_BATCH ts counter q;
  Done (ts, if decide (max_ts < q_top q) then q_top q else max_ts, q).

(** [TSManager::update_gts] with [ONE_CLOCK]. *)
Definition update_gts (TS_BATCH : Z) (ts : Z) (q : ts_queue) (counter : Z) : result (Z * ts_queue) :=
  push_advance TS_BATCH ts counter q.

(** The handler with [LARGE_VEC]: one entry per thread, overwritten. *)
Definition ts_update_large_vec (nthreads : Z) (buf : list Z) (id thread_id counter : Z) : result (list Z) :=
  _ ← verify (bool_decide (0 ≤ thread_id < nthreads));
  _ ← verify (bool_decide (0 ≤ id < 64));
  match buf !! Z.to_nat (thread_id + id * nthreads) with
  | Some _ => Done (<[Z.to_nat (thread_id + id * nthreads) := counter]> buf)
  | None => Crash invalid_access
  end.

(** ** The watermark *)

(** [ts] is the end of the gap-free prefix of the counters [l] reported so far. *)
Definition watermark (l : list Z) (ts : Z) : Prop :=
  2 ≤ ts ∧ (∀ c, 2 < c ≤ ts → c ∈ l) ∧ ts + 1 ∉ l.

Lemma watermark_unique l ts ts' : watermark l ts → watermark l ts' → ts = ts'.
Proof.
  intros (H1 & H2 & H3) (H1' & H2' & H3').
  destruct (Z.lt_trichotomy ts ts') as [Hlt|[->|Hlt]]; [|done|].
  - destruct H3. apply H2'. lia.
  - destruct H3'. apply H2. lia.
Qed.

Lemma watermark_perm l l' ts : l ≡ₚ l' → watermark l ts → watermark l' ts.
Proof.
  intros Hp (H1 & H2 & H3). split_and!; [done| |by rewrite <-Hp].
  intros c Hc. rewrite <-Hp. auto.
Qed.

(** Counters below the sign bit of [int], which the comparison orders correctly. *)
Definition small (c : Z) : Prop := 2 < c < 2 ^ 31.

Lemma i32_small c : small c → i32 c = c.
Proof. intros [? ?]. apply swrap_small; cbn; lia. Qed.

Lemma q_less_small x y : small x → small y → q_less x y ↔ x < y.
Proof. intros. unfold q_less. by rewrite !i32_small. Qed.

(** Queue and entry after the reports [l]: the queue holds, in order, the reported
    counters above the entry. *)
Record entry_ok (l : list Z) (ts : Z) (q : ts_queue) : Prop := {
  eo_prefix c : 2 < c ≤ ts → c ∈ l;
  eo_items c : c ∈ q_items q ↔ c ∈ l ∧ ts < c;
  eo_sorted : StronglySorted Z.lt (q_items q);
  eo_ts : 2 ≤ ts < 2 ^ 31;
}.

Lemma elem_of_q_insert x l c : c ∈ q_insert x l ↔ c = x ∨ c ∈ l.
Proof.
  induction l as [|y l IH]; cbn; [set_solver|]. case_decide; set_solver.
Qed.

Lemma q_insert_sorted x l :
  small x → Forall small l → x ∉ l → StronglySorted Z.lt l → StronglySorted Z.lt (q_insert x l).
Proof.
  intros Hx. induction l as [|y l IH]; cbn; intros Hl Hn Hs; [repeat constructor|].
  apply Forall_cons in Hl as [Hy Hl]. apply not_elem_of_cons in Hn as [Hne Hn].
  apply StronglySorted_inv in Hs as [Hs Hall]. case_decide as Hd; rewrite q_less_small in Hd by done.
  - constructor; [by apply IH|]. rewrite Forall_forall in *. intros z [->|Hz]%elem_of_q_insert; auto.
  - constructor; [by constructor|]. constructor; [lia|].
    rewrite Forall_forall in *. intros z Hz. specialize (Hall z Hz). lia.
Qed.

Lemma small_succ_u64 ts : 2 ≤ ts < 2 ^ 31 → u64 (ts + 1) = ts + 1.
Proof. intros. apply uwrap_small. lia. Qed.

(** The loop ends with the entry at the watermark; [q_slot] is only read when it is
    the entry itself. *)
Lemma advance_ok fuel l ts q :
  entry_ok l ts q → Forall small l → (q_items q = [] → q_slot q ≤ ts) →
  (length (q_items q) < fuel)%nat →
  ∃ ts' q', advance fuel 1 ts q = Done (ts', q') ∧ entry_ok l ts' q' ∧ ts ≤ ts' ∧
    watermark l ts' ∧ (q_items q' = [] → q_slot q' ≤ ts').
Proof.
  revert ts q. induction fuel as [|fuel IH]; intros ts [items slot] Ho Hsm Hslot Hf; [lia|].
  cbn [advance]. pose proof (eo_ts _ _ _ Ho) as Hts. rewrite small_succ_u64 by done.
  destruct items as [|x items]; cbn [q_top q_items q_slot q_pop] in *.
  - rewrite decide_False by (specialize (Hslot eq_refl); lia).
    eexists _, _. split; [done|]. split; [done|]. split; [lia|]. split; [|done].
    split_and!; [lia|apply Ho|]. intros Hin.
    assert (ts + 1 ∈ []) as Hnil by (apply (eo_items _ _ _ Ho (ts + 1)); split; [done|lia]).
    by apply not_elem_of_nil in Hnil.
  - pose proof (eo_sorted _ _ _ Ho) as Hs. cbn in Hs. apply StronglySorted_inv in Hs as [Hs Hall].
    assert (Hx : x ∈ l ∧ ts < x) by (apply (eo_items _ _ _ Ho x); by left). destruct Hx as [Hx Hlt].
    assert (Hxs : small x) by (rewrite Forall_forall in Hsm; auto). destruct Hxs as [_ Hx31].
    case_decide as Hd.
    + subst x. cbn [mbind result_bind].
      destruct (IH (ts + 1) (mkQueue items (ts + 1))) as (ts' & q' & Hrun & Ho' & Hle & Hw & Hs').
      * split; cbn; [| |done|lia].
        -- intros c Hc. destruct (decide (c = ts + 1)) as [->|]; [done|]. apply (eo_prefix _ _ _ Ho). lia.
        -- intros c. pose proof (eo_items _ _ _ Ho c) as Hc. cbn in Hc.
           rewrite Forall_forall in Hall. split.
           ++ intros Hin. specialize (Hall c Hin). destruct Hc as [Hc _].
              destruct Hc as [? ?]; [by right|]. split; [done|lia].
           ++ intros [Hin Hgt]. destruct Hc as [_ Hc].
              assert (Hc' : c ∈ (ts + 1) :: items) by (apply Hc; split; [done|lia]).
              apply elem_of_cons in Hc' as [->|]; [lia|done].
      * done.
      * cbn. intros _. lia.
      * cbn in *. lia.
      * exists ts', q'. split; [done|]. split; [done|]. split; [lia|]. by split.
    + eexists _, _. split; [done|]. split; [done|]. split; [lia|]. split; [|done].
      split_and!; [lia|apply Ho|]. intros Hin.
      assert (ts + 1 ∈ x :: items) as Hc by (apply (eo_items _ _ _ Ho (ts + 1)); split; [done|lia]).
      apply elem_of_cons in Hc as [Hc|Hc]; [lia|]. rewrite Forall_forall in Hall.
      specialize (Hall _ Hc). lia.
Qed.

Lemma push_advance_ok l ts q c :
  entry_ok l ts q → Forall small l → small c → c ∉ l → watermark l ts →
  ∃ ts' q', push_advance 1 ts c q = Done (ts', q') ∧ entry_ok (c :: l) ts' q' ∧ ts ≤ ts' ∧
    watermark (c :: l) ts'.
Proof.
  intros Ho Hsm Hc Hnew Hw.
  assert (Hgt : ts < c).
  { destruct Hw as (_ & Hp & _). destruct (decide (ts < c)) as [|Hle]; [done|]. destruct Hnew.
    apply Hp. destruct Hc. lia. }
  destruct (advance_ok (S (length (q_items (q_push c q)))) (c :: l) ts (q_push c q))
    as (ts' & q' & Hrun & Ho' & Hle & Hw' & _).
  - split; cbn.
    + intros d Hd. right. by apply (eo_prefix _ _ _ Ho).
    + intros d. rewrite elem_of_q_insert, (eo_items _ _ _ Ho), elem_of_cons. split; [|tauto].
      intros [->|[? ?]]; split; auto.
    + apply q_insert_sorted; [done| |rewrite (eo_items _ _ _ Ho); tauto|apply Ho].
      rewrite Forall_forall in *. intros d [Hd _]%(eo_items _ _ _ Ho). auto.
    + apply Ho.
  - by constructor.
  - cbn. intros Hnil. exfalso. assert (c ∈ q_insert c (q_items q)) as Hin by (apply elem_of_q_insert; by left).
    rewrite Hnil in Hin. by apply not_elem_of_nil in Hin.
  - lia.
  - exists ts', q'. done.
Qed.

(** ** The whole vector *)

(** A report: machine, thread, counter. *)
Record report := mkReport { rep_id : Z; rep_thread : Z; rep_counter : Z }.

(** Reading [top()] of the queue the loop has emptied gives the element popped last, as
    described at [ts_queue]. *)
Definition apply_report (nthreads : Z) (t : TSManager) (u : report) : result TSManager :=
  ts_update_handler nthreads t (rep_id u) (rep_thread u) (rep_counter u).

(** Counters reported by machine [i], latest first. *)
Definition counters (i : nat) (us : list report) : list Z :=
  reverse (rep_counter <$> filter (λ u, rep_id u = Z.of_nat i) us).

Definition report_ok (n : nat) (nthreads : Z) (u : report) : Prop :=
  0 ≤ rep_thread u < nthreads ∧ 0 ≤ rep_id u < Z.of_nat n ∧ small (rep_counter u).

Record vector_ok (n : nat) (us : list report) (t : TSManager) : Prop := {
  vo_buf : length (ts_buffer t) = n;
  vo_pend : length (pending_tss_ t) = n;
  vo_entry i ts q : ts_buffer t !! i = Some ts → pending_tss_ t !! i = Some q →
    entry_ok (counters i us) ts q ∧ watermark (counters i us) ts;
}.

Lemma counters_snoc i us u :
  counters i (us ++ [u]) =
  if decide (rep_id u = Z.of_nat i) then rep_counter u :: counters i us else counters i us.
Proof.
  unfold counters. rewrite filter_app, fmap_app, reverse_app. case_decide.
  - by rewrite filter_cons_True.
  - by rewrite filter_cons_False.
Qed.

Lemma counters_app_mem i us us' c : c ∈ counters i us → c ∈ counters i (us ++ us').
Proof. unfold counters. rewrite filter_app, fmap_app, reverse_app. set_solver. Qed.

Lemma counters_small n nthreads us i : Forall (report_ok n nthreads) us → Forall small (counters i us).
Proof.
  rewrite !Forall_forall. intros H c. unfold counters. rewrite elem_of_reverse.
  intros (u & -> & [_ Hu]%list_elem_of_filter)%list_elem_of_fmap. by apply H.
Qed.

Lemma vector_ok_new n : vector_ok n [] (TSManager_new n).
Proof.
  split; cbn; [apply length_replicate..|].
  intros i ts q [-> _]%lookup_replicate [-> _]%lookup_replicate. change (counters i []) with (@nil Z).
  split; [split; cbn|split_and!]; try lia; try (intros; lia).
  - intros c. split; [by intros ?%not_elem_of_nil|]. by intros [?%not_elem_of_nil _].
  - constructor.
  - apply not_elem_of_nil.
Qed.

(** The vector does not depend on the counter and the copy. *)
Lemma vector_ok_frame n us t t' :
  ts_buffer t' = ts_buffer t → pending_tss_ t' = pending_tss_ t → vector_ok n us t → vector_ok n us t'.
Proof. intros Hb Hp [H1 H2 H3]. split; [by rewrite Hb|by rewrite Hp|]. intros i ts q. rewrite Hb, Hp. apply H3. Qed.

Lemma apply_report_ok n nthreads us u t :
  (n ≤ 64)%nat → Forall (report_ok n nthreads) us → report_ok n nthreads u →
  rep_counter u ∉ counters (Z.to_nat (rep_id u)) us → vector_ok n us t →
  ∃ t', apply_report nthreads t u = Done t' ∧ vector_ok n (us ++ [u]) t' ∧
    local_ts t' = local_ts t ∧ fetched_ts_buffer_ t' = fetched_ts_buffer_ t ∧
    Forall2 Z.le (ts_buffer t) (ts_buffer t').
Proof.
  intros Hn Hus (Hth & Hid & Hsm) Hnew [Hb Hp He]. unfold apply_report, ts_update_handler.
  rewrite !bool_decide_eq_true_2 by lia. cbn [verify mbind result_bind].
  set (i := Z.to_nat (rep_id u)) in *.
  destruct (lookup_lt_is_Some_2 (ts_buffer t) i) as [ts Hts]; [lia|].
  destruct (lookup_lt_is_Some_2 (pending_tss_ t) i) as [q Hq]; [lia|]. rewrite Hts, Hq.
  destruct (He i ts q Hts Hq) as [Ho Hw].
  destruct (push_advance_ok (counters i us) ts q (rep_counter u)) as (ts' & q' & Hrun & Ho' & Hle & Hw');
    [done|by eapply counters_small|done..|]. rewrite Hrun. cbn [mbind result_bind].
  eexists. split; [done|]. split; [|split_and!; cbn; [done..|]].
  - split; cbn; [by rewrite length_insert..|]. intros k tk qk Hk Hqk. rewrite counters_snoc.
    destruct (decide (k = i)) as [->|Hne].
    + rewrite list_lookup_insert_eq in Hk by lia. rewrite list_lookup_insert_eq in Hqk by lia.
      simplify_eq. rewrite decide_True by (unfold i; lia). done.
    + rewrite list_lookup_insert_ne in Hk by done. rewrite list_lookup_insert_ne in Hqk by done.
      rewrite decide_False by (unfold i in Hne; lia). by apply He.
  - rewrite <-(list_insert_id (ts_buffer t) i ts) at 1 by done.
    apply Forall2_insert; [|done]. apply Forall2_same_length_lookup_2; [done|]. intros k x y Hx Hy. simplify_eq. lia.
Qed.

Lemma apply_reports_ok n nthreads us :
  (n ≤ 64)%nat → Forall (report_ok n nthreads) us → (∀ i, NoDup (counters i us)) →
  ∃ t, for_each (apply_report nthreads) us (TSManager_new n) = Done t ∧ vector_ok n us t.
Proof.
  intros Hn Hus Hnd. apply (for_each_inv _ (vector_ok n)); [apply vector_ok_new|].
  intros pre u rest t -> Ht. apply Forall_app in Hus as [Hpre Hu]. apply Forall_cons in Hu as [Hu _].
  destruct (apply_report_ok n nthreads pre u t) as (t' & ? & ? & _); [done..| |done|eauto].
  specialize (Hnd (Z.to_nat (rep_id u))). unfold counters in *.
  rewrite filter_app, fmap_app, filter_cons_True in Hnd by (destruct Hu as (_ & ? & _); lia).
  rewrite fmap_cons in Hnd. rewrite reverse_Permutation in Hnd. apply NoDup_app in Hnd as (_ & Hdis & _).
  rewrite elem_of_reverse. intros Hin. apply (Hdis _ Hin). by left.
Qed.

(** [k] calls of [get_commit_ts]. *)
Fixpoint issue (k : nat) (t : TSManager) : TSManager * list Z :=
  match k with
  | O => (t, [])
  | S k => let '(t, c) := get_commit_ts t in let '(t, l) := issue k t in (t, c :: l)
  end.

Lemma issue_seq k t :
  0 ≤ local_ts t → local_ts t + Z.of_nat k < 2 ^ 64 →
  (issue k t).2 = seqZ (local_ts t) (Z.of_nat k) ∧ local_ts (issue k t).1 = local_ts t + Z.of_nat k.
Proof.
  revert t. induction k as [|k IH]; intros t H0 Hk; [cbn; split; [done|lia]|].
  cbn [issue get_commit_ts]. destruct (issue k _) as [t' l] eqn:Hi.
  specialize (IH (mkTSM (u64 (local_ts t + 1)) (ts_buffer t) (fetched_ts_buffer_ t) (pending_tss_ t))).
  rewrite Hi in IH. cbn [local_ts fst snd] in *. rewrite uwrap_small in IH by lia.
  destruct IH as [-> ->]; [lia..|]. split; [|lia].
  rewrite (seqZ_cons (local_ts t)) by lia. f_equal. f_equal; lia.
Qed.

(** ** Properties *)

(** C35: the vector is the gap-free prefix of the reports.  For at most 64 machines and
    after any sequence of reports in any order, of counters below 2^31 (the queue
    compares them as [int], see [int_comparison_stalls]) and no counter of a machine
    twice, the handler has never blocked or failed and the entry of every machine is
    the last counter such that it and all smaller ones of that machine have been
    reported; what arrived ahead of a gap does not count yet.  When the loop has
    emptied the queue it reads [top()] once more, which C++ leaves undefined; the
    element popped last is taken to be read. *)
Theorem vector_is_watermark n nthreads us :
  (n ≤ 64)%nat → Forall (report_ok n nthreads) us → (∀ i, NoDup (counters i us)) →
  ∃ t, for_each (apply_report nthreads) us (TSManager_new n) = Done t ∧
    ∀ i, (i < n)%nat → ∃ ts, ts_buffer t !! i = Some ts ∧ watermark (counters i us) ts.
Proof.
  intros Hn Hus Hnd. destruct (apply_reports_ok n nthreads us Hn Hus Hnd) as (t & Hrun & [Hb Hp He]).
  exists t. split; [done|]. intros i Hi.
  destruct (lookup_lt_is_Some_2 (ts_buffer t) i) as [ts Hts]; [lia|].
  destruct (lookup_lt_is_Some_2 (pending_tss_ t) i) as [q Hq]; [lia|].
  exists ts. split; [done|]. by eapply He.
Qed.

(** Machine 0 reports 5, 3, 7, 4; machine 1 reports 4. *)
Definition sample_reports : list report :=
  [mkReport 0 1 5; mkReport 1 0 4; mkReport 0 0 3; mkReport 0 1 7; mkReport 0 2 4].

Lemma sample_reports_ok : Forall (report_ok 2 8) sample_reports.
Proof. repeat constructor; cbn; lia. Qed.
Lemma sample_reports_nodup i : NoDup (counters i sample_reports).
Proof.
  destruct i as [|[|i]]; [apply (bool_decide_unpack _); by vm_compute..|].
  unfold counters, sample_reports. rewrite !filter_cons_False by (cbn; lia). apply NoDup_nil_2.
Qed.

Lemma vector_is_watermark_witness :
  ∃ t, for_each (apply_report 8) sample_reports (TSManager_new 2) = Done t ∧
    ∀ i, (i < 2)%nat → ∃ ts, ts_buffer t !! i = Some ts ∧ watermark (counters i sample_reports) ts.
Proof.
  apply (vector_is_watermark 2 8); [lia | apply sample_reports_ok | apply sample_reports_nodup].
Defined.

(** Quiescence.  A machine that has taken [k] commit timestamps and whose
    commits have all been reported, in whatever order and interleaved with other
    machines' reports, has its vector entry at the last timestamp it took. *)
Theorem all_reported_catches_up n nthreads us i k :
  (n ≤ 64)%nat → Forall (report_ok n nthreads) us → (∀ j, NoDup (counters j us)) → (i < n)%nat →
  counters i us ≡ₚ (issue k (TSManager_new n)).2 → 3 + Z.of_nat k < 2 ^ 31 →
  ∃ t, for_each (apply_report nthreads) us (TSManager_new n) = Done t ∧
    ts_buffer t !! i = Some (local_ts (issue k (TSManager_new n)).1 - 1).
Proof.
  intros Hn Hus Hnd Hi Hperm Hk.
  destruct (apply_reports_ok n nthreads us Hn Hus Hnd) as (t & Hrun & [Hb Hp He]).
  exists t. split; [done|].
  destruct (lookup_lt_is_Some_2 (ts_buffer t) i) as [ts Hts]; [lia|].
  destruct (lookup_lt_is_Some_2 (pending_tss_ t) i) as [q Hq]; [lia|]. rewrite Hts. f_equal.
  destruct (He i ts q Hts Hq) as [_ Hw].
  destruct (issue_seq k (TSManager_new n)) as [Hl ->]; [cbn; lia..|]. rewrite Hl in Hperm.
  apply (watermark_perm _ _ _ Hperm) in Hw. eapply watermark_unique; [done|].
  cbn [local_ts TSManager_new]. split_and!; [lia| |].
  - intros c Hc. apply elem_of_seqZ. cbn. lia.
  - rewrite elem_of_seqZ. cbn. lia.
Qed.

Definition three_reports : list report := [mkReport 1 0 5; mkReport 1 0 3; mkReport 0 0 3; mkReport 1 2 4].

Lemma all_reported_catches_up_witness :
  ∃ t, for_each (apply_report 8) three_reports (TSManager_new 2) = Done t ∧ ts_buffer t !! 1%nat = Some 5.
Proof.
  apply (all_reported_catches_up 2 8 three_reports 1 3).
  - lia.
  - repeat constructor; cbn; lia.
  - intros j. destruct j as [|[|j]]; [apply (bool_decide_unpack _); by vm_compute..|].
    unfold counters, three_reports. rewrite !filter_cons_False by (cbn; lia). apply NoDup_nil_2.
  - lia.
  - vm_compute. apply (perm_trans (l' := [3; 4; 5])); [|done]. apply perm_swap.
  - lia.
Defined.

(** The queue compares 64-bit counters as [int].  When 2^31 is reported before
    2^31 - 1, the queue puts 2^31 (a negative int) first, the entry stays at
    2^31 - 2 although both are there, and later reports do not unblock it. *)
Theorem int_comparison_stalls :
  let t0 := mkTSM 3 [2 ^ 31 - 2] [2 ^ 31 - 2] [mkQueue [] (2 ^ 31 - 2)] in
  ∃ t, for_each (apply_report 8)
         [mkReport 0 0 (2 ^ 31); mkReport 0 0 (2 ^ 31 - 1); mkReport 0 0 (2 ^ 31 + 1)] t0 = Done t ∧
    ts_buffer t !! 0%nat = Some (2 ^ 31 - 2) ∧
    2 ^ 31 - 1 ∈ (from_option q_items [] (pending_tss_ t !! 0%nat)).
Proof.
  eexists. split; [vm_compute; reflexivity|]. split; [vm_compute; reflexivity|].
  apply (bool_decide_unpack _). by vm_compute.
Qed.
