(* ===== verification/DBSI.v ===== *)
(** * DBSI: snapshot-isolation transactions, local part

    Models src/drtm-dst/src/db/txs/dbsi.cc: the transaction object, its read-write
    set, the reads at a vector timestamp and the local half of the commit.  A version
    word packs the server that committed it and that server's counter (LockWord.v); a
    transaction sees a version when the counter is not above the server's entry of the
    vector it fetched when it began (TSManager.v).

    Memory, value buffers, items and tables are those of RadMem.v and DBRad.v: the
    struct [_SIValHeader] has the fields of [_RadValHeader], and [DBSI::WriteSet] those
    of [DBRad::WriteSet].

    Configuration of the checked-in build: [SI_VEC] defined, [EM_OCC] not, [ONE_CLOCK],
    [LARGE_VEC] and [NO_EXE_ABORT] 0, [TS_USE_MSG] 1, [RECORD_STALE] and [USE_LOGGER]
    off.  [TS_BATCH] is a build parameter. *)

From S2P Require Import Prelude LockWord Memstore RadMem DBRad RemoteSet TSManager.

(** ** State *)

Record DBSI := mkSI {
  rwset : WriteSet;
  ts_buffer_ : list Z;
  thread_id : Z;
  cor_id_ : Z;
  abort_ : bool;
  batch_num_ : Z;
}.

Definition set_rwset (tx : DBSI) (ws : WriteSet) : DBSI :=
  mkSI ws (ts_buffer_ tx) (thread_id tx) (cor_id_ tx) (abort_ tx) (batch_num_ tx).
Definition set_batch (tx : DBSI) (n : Z) : DBSI :=
  mkSI (rwset tx) (ts_buffer_ tx) (thread_id tx) (cor_id_ tx) (abort_ tx) n.

Definition lock_word (part : Z) (tx : DBSI) : Z :=
  ENCODE_LOCK_CONTENT part (thread_id tx) (cor_id_ tx + 1).

(** ** Visibility *)

(** [SI_GET_COUNTER(seq) <= ts_vec[SI_GET_SERVER(seq)]] *)
Definition visible (ts_vec : list Z) (seq : Z) : result bool :=
  match ts_vec !! Z.to_nat (SI_GET_SERVER seq) with
  | Some c => Done (bool_decide (SI_GET_COUNTER seq ≤ c))
  | None => Crash invalid_access
  end.

(** [while(old_val != NULL && SI_GET_COUNTER(rh->version) > ts_vec[..])] *)
Fixpoint chase (fuel : nat) (h : Heap) (old_val : Z) (ts_vec : list Z)
  : result (option (Z * RadBuf)) :=
  match fuel with
  | O => Spin
  | S fuel =>
      if decide (old_val = NULL) then Done None
      else
        b ← load h old_val;
        match b_hdr b with
        | None => Crash uninitialised
        | Some rh =>
            vis ← visible ts_vec (version rh);
            if (vis : bool) then Done (Some (version rh, b))
            else chase fuel h (oldValue rh) ts_vec
        end
  end.

(** ** [WriteSet] *)

Definition WriteSet_Add (ws : WriteSet) (it : WriteSetItem) : result WriteSet :=
  _ ← verify (bool_decide (length (kvs ws) ≠ MAX_SIZE));
  Done (mkWS (kvs ws ++ [it]) (ws_current ws)).

Definition WriteSet_Reset (ws : WriteSet) : WriteSet := mkWS [] (-1).

(** [WriteSet::LockAllSet] from item [i] on: the flag, the memory and [current]. *)
Fixpoint lock_loop (word : Z) (items : list WriteSetItem) (i : Z) (h : Heap) (cur : Z)
  : bool * Heap * Z :=
  match items with
  | [] => (true, h, cur)
  | it :: items =>
      if it_ro it then lock_loop word items (i + 1) h cur
      else if decide (n_lock (node h (it_node it)) ≠ 0) then (false, h, cur)
      else
        let h := set_node h (it_node it) (set_lock word) in
        let cur := i in
        if decide (n_seq (node h (it_node it)) ≠ it_seq it) then (false, h, cur)
        else lock_loop word items (i + 1) h cur
  end.

Definition LockAllSet (word : Z) (ws : WriteSet) (h : Heap) : bool * Heap * WriteSet :=
  let '(ok, h, cur) := lock_loop word (kvs ws) 0 h (ws_current ws) in
  (ok, h, mkWS (kvs ws) cur).

(** [WriteSet::ReleaseAllSet] *)
Definition release_item (h : Heap) (it : WriteSetItem) : result Heap :=
  h ← free h (it_addr it);
  if it_ro it then Done h else Done (set_node h (it_node it) (set_lock 0)).

Definition ReleaseAllSet (ws : WriteSet) (h : Heap) : result Heap :=
  for_each release_item (take (Z.to_nat (ws_current ws + 1)) (kvs ws)) h.

(** The body of [WriteSet::CommitLocalWrite]: close the record to readers, give the
    replaced buffer its header (or, when there is none, store the new value at once),
    switch the pointers, publish the version, unlock. *)
Definition switch_value (h : Heap) (it : WriteSetItem) (commit_ts : Z) : result Heap :=
  let a := it_node it in
  let h := set_node h a (set_seq 1) in
  let cur := n_value (node h a) in
  let oldptr := n_old_value (node h a) in
  h ← (if decide (cur ≠ NULL) then write_header h cur (mkHdr oldptr (it_seq it))
       else Done (set_node h a (set_value (it_addr it))));
  let h := set_node h a (set_old_value cur) in
  let h := set_node h a (set_value (it_addr it)) in
  let h := set_node h a (set_seq commit_ts) in
  Done (set_node h a (set_lock 0)).

Definition commit_item (commit_ts : Z) (h : Heap) (it : WriteSetItem) : result Heap :=
  if it_ro it then Done h else switch_value h it commit_ts.

Definition CommitLocalWrite (ws : WriteSet) (h : Heap) (commit_ts : Z) : result Heap :=
  for_each (commit_item commit_ts) (kvs ws) h.

(** ** Beginning a transaction *)

(** [DBSI::local_ro_begin] and [DBSI::_begin]: fetch the start vector; [_begin] also
    resets the two sets. *)
Definition local_ro_begin (tm : TSManager) (tx : DBSI) : DBSI :=
  mkSI (rwset tx) (get_start_ts tm) (thread_id tx) (cor_id_ tx) (abort_ tx) (batch_num_ tx).

Definition begin_ (tm : TSManager) (tx : DBSI) (rs : RemoteSet) : DBSI * RemoteSet :=
  (mkSI (WriteSet_Reset (rwset tx)) (get_start_ts tm) (thread_id tx) (cor_id_ tx) false (batch_num_ tx),
   clear rs 0).

(** ** Operations *)

Section ops.
Context {St : Type} `{!Memstore St}.
Implicit Types (w : World St) (tx : DBSI).

(** [DBSI::_get_ro_versioned_helper]: 1 and no bytes when no version is visible; a
    visible deletion stops the program. *)
Definition get_ro_versioned_helper w (tableid key : Z) (ts_vec : list Z)
  : result (World St * (Z * option (list Z))) :=
  n_bytes ← vlen w tableid;
  '(w, a) ← store_node w tableid key;
  let seq := n_seq (node (heap w) a) in
  if decide (seq = 0) then Done (w, (1, None))
  else
    vis ← visible ts_vec seq;
    if (vis : bool) then
      let tmpVal := n_value (node (heap w) a) in
      if decide (tmpVal ≠ NULL) then
        b ← load (heap w) tmpVal;
        val ← copy_payload b n_bytes;
        if decide (seq = 1) then Spin else Done (w, (seq, Some val))
      else Crash assert_failed
    else if decide (seq = 1) then Spin
    else
      r ← chase (chase_fuel (heap w)) (heap w) (n_old_value (node (heap w) a)) ts_vec;
      match r with
      | None => Done (w, (1, None))
      | Some (s, b) => val ← copy_payload b n_bytes; Done (w, (s, Some val))
      end.

(** [DBSI::get_ro], [DBSI::get_ro_versioned] *)
Definition get_ro w tx (tableid key : Z) : result (World St * (Z * option (list Z))) :=
  get_ro_versioned_helper w tableid key (ts_buffer_ tx).
Definition get_ro_versioned w (tableid key : Z) (ts_vec : list Z)
  : result (World St * (Z * option (list Z))) :=
  get_ro_versioned_helper w tableid key ts_vec.

(** From the label [READ_END] of [DBSI::get]. *)
Definition read_end w tx (tableid key : Z) (len : nat) (a addr seq : Z) : result (World St * DBSI * Z) :=
  _ ← verify (bool_decide (seq ≠ 0));
  ws ← WriteSet_Add (rwset tx) (mkItem tableid key len a addr seq true);
  Done (w, set_rwset tx ws, seq).

(** [DBSI::get]: the transaction's copy of the newest visible version.  A visible
    record without a value returns 1 and adds no item; when every version is too new
    an item of version 1 is added whose buffer was never filled. *)
Definition get w tx (tableid key : Z) (len : nat) : result (World St * DBSI * Z) :=
  let '(h, _addr) := malloc (heap w) [] in
  '(w, a) ← store_node (set_heap w h) tableid key;
  let n := node (heap w) a in
  vis ← visible (ts_buffer_ tx) (n_seq n);
  if (vis : bool) then
    if decide (n_value n = NULL) then Done (w, tx, 1)
    else
      b ← load (heap w) (n_value n);
      data ← copy_payload b len;
      if decide (n_seq n = 1) then Spin
      else read_end (set_heap w (fill (heap w) _addr data)) tx tableid key len a _addr (n_seq n)
  else
    r ← chase (chase_fuel (heap w)) (heap w) (n_old_value n) (ts_buffer_ tx);
    match r with
    | None => read_end w tx tableid key len a _addr 1
    | Some (s, b) =>
        data ← copy_payload b len;
        read_end (set_heap w (fill (heap w) _addr data)) tx tableid key len a _addr s
    end.

(** [DBSI::insert] *)
Definition insert w tx (tableid key : Z) (data : list Z) : result (World St * DBSI) :=
  '(w, a) ← store_node w tableid key;
  let '(h, addr) := malloc (heap w) data in
  ws ← WriteSet_Add (rwset tx) (mkItem tableid key (length data) a addr (n_seq (node (heap w) a)) false);
  Done (set_heap w h, set_rwset tx ws).

(** [DBSI::insert_index]: the item's [len] is not set; nothing reads it. *)
Definition insert_index w tx (tableid key val : Z) : result (World St * DBSI) :=
  '(w, a) ← index_node w tableid key;
  ws ← WriteSet_Add (rwset tx) (mkItem tableid key 0 a val (n_seq (node (heap w) a)) false);
  Done (w, set_rwset tx ws).

(** The deletion of a node that is not in the set. *)
Definition add_delete w tx (tableid key a : Z) : result DBSI :=
  ws ← WriteSet_Add (rwset tx) (mkItem tableid key 0 a NULL (n_seq (node (heap w) a)) false);
  Done (set_rwset tx ws).

(** [DBSI::delete_]: an item of the set keeps no pointer to its buffer. *)
Definition delete_ w tx (tableid key : Z) : result (World St * DBSI) :=
  match find_item (match_key tableid key) (kvs (rwset tx)) with
  | Some (i, it) => Done (w, set_rwset tx (upd_item (rwset tx) i (set_deleted it)))
  | None =>
      '(w, a) ← store_node w tableid key;
      tx ← add_delete w tx tableid key a;
      Done (w, tx)
  end.

(** [DBSI::delete_by_node]: here the buffer of an item is deleted. *)
Definition delete_by_node w tx (tableid a : Z) : result (World St * DBSI) :=
  match find_item (match_node a) (kvs (rwset tx)) with
  | Some (i, it) =>
      h ← free (heap w) (it_addr it);
      Done (set_heap w h, set_rwset tx (upd_item (rwset tx) i (set_deleted it)))
  | None =>
      tx ← add_delete w tx tableid 0 a;
      Done (w, tx)
  end.

(** [DBSI::delete_index] *)
Definition delete_index w tx (tableid key : Z) : result (World St * DBSI) :=
  '(w, a) ← index_node w tableid key;
  if decide (n_value (node (heap w) a) = NULL) then Done (w, tx)
  else
    tx ← add_delete w tx tableid key a;
    Done (w, tx).

(** [DBSI::write()] and [DBSI::write(tableid, key, val, len)] *)
Definition write_last tx : result DBSI :=
  match last (kvs (rwset tx)) with
  | None => Crash invalid_access
  | Some it =>
      Done (set_rwset tx (upd_item (rwset tx) (length (kvs (rwset tx)) - 1) (set_ro false it)))
  end.

Definition write tx (tableid key : Z) : result DBSI :=
  match find_item (match_key tableid key) (kvs (rwset tx)) with
  | None => Crash exit_called
  | Some (i, it) => Done (set_rwset tx (upd_item (rwset tx) i (set_ro false it)))
  end.

(** [DBSI::get_cached] by key and by index. *)
Definition get_cached (rs : RemoteSet) (tableid key : Z) : Z * option (list Z) :=
  default (0, None) (find_cached rs tableid key (seqZ 0 (elems_ rs))).
Definition get_cached_idx (rs : RemoteSet) (idx : Z) : Z * option (list Z) :=
  if decide (ri_seq (kv rs idx) = 0) then (1, None) else (ri_seq (kv rs idx), ri_val (kv rs idx)).

(** [DBSI::get_commit_ts]: the counter of this machine and its packed word. *)
Definition get_commit_ts (part : Z) (tm : TSManager) : TSManager * Z * Z :=
  let '(tm, commit_ts) := TSManager.get_commit_ts tm in
  (tm, commit_ts, SI_ENCODE_TS part commit_ts).

(** [DBSI::commit_ts]: the report sent to the master, if one is due. *)
Definition commit_ts (TS_BATCH : Z) tx (part ts : Z) : DBSI * option report :=
  if decide (batch_num_ tx + 1 < TS_BATCH) then (set_batch tx (batch_num_ tx + 1), None)
  else (set_batch tx 0, Some (mkReport part (u16 (thread_id tx)) ts)).
End ops.
