(* ===== verification/SiSpec.v ===== *)
(** * What local snapshot-isolation operations do

    The reading of DBSI.v on abstract records: a read at a vector is a lookup of the
    newest version the vector covers, and lock, validate and install add one version
    to each written record.  The write set of DBSI differs from DBRad's only in the
    timestamp DBRad computes while locking, so its lemmas carry over. *)

From S2P Require Import Prelude LockWord Memstore RadMem DBRad RadWriteSet RadLocal RadRead ClusterHash RemoteSet TSManager DBSI.

(** ** Reading an abstract record at a vector *)

(** The vector covers the version [seq]. *)
Definition sees (V : list Z) (seq : Z) : bool :=
  match V !! Z.to_nat (SI_GET_SERVER seq) with
  | Some c => bool_decide (SI_GET_COUNTER seq ≤ c)
  | None => false
  end.

Definition in_range (V : list Z) (seq : Z) : Prop := is_Some (V !! Z.to_nat (SI_GET_SERVER seq)).

Fixpoint vfind (V : list Z) (l : list (Z * list Z)) : option (Z * list Z) :=
  match l with
  | [] => None
  | (v, d) :: l => if sees V v then Some (v, d) else vfind V l
  end.

(** The newest version the vector covers; a covered deletion is nothing. *)
Definition vread (V : list Z) (r : VRecord) : option (Z * list Z) :=
  if sees V (v_seq r) then (λ d, (v_seq r, d)) <$> v_cur r else vfind V (v_hist r).

(** Every version of a record names a server of the vector. *)
Definition rec_range (V : list Z) (r : VRecord) : Prop :=
  in_range V (v_seq r) ∧ Forall (λ vd, in_range V vd.1) (v_hist r).

Lemma visible_sees V seq : in_range V seq → visible V seq = Done (sees V seq).
Proof. unfold visible, sees. by intros [c ->]. Qed.

(** A version that is not covered does not change what is read. *)
Lemma vread_install V ts new r :
  sees V ts = false → v_cur r ≠ None ∨ sees V (v_seq r) = true ∨ v_hist r = [] →
  vread V (abs_install ts new r) = vread V r.
Proof.
  intros Hts Hc. unfold vread, abs_install. cbn. rewrite Hts.
  destruct (v_cur r) as [c|]; cbn; [done|]. destruct Hc as [Hc|[Hc|Hc]]; [done|by rewrite Hc|rewrite Hc].
  by destruct (sees V (v_seq r)).
Qed.

Lemma vread_install_new V ts new r :
  sees V ts = true → vread V (abs_install ts new r) = (λ d, (ts, d)) <$> new.
Proof. intros H. unfold vread, abs_install. cbn. by rewrite H. Qed.

Lemma vread_sees V r v d : vread V r = Some (v, d) → sees V v = true.
Proof.
  unfold vread. destruct (sees V (v_seq r)) eqn:Hs.
  - destruct (v_cur r); cbn; congruence.
  - induction (v_hist r) as [|[v' d'] l IH]; cbn; [done|].
    destruct (sees V v') eqn:Hv; [congruence|done].
Qed.

(** ** Refinement of the reads *)

Lemma chase_vfind fuel h p ps l V :
  chain (bufs h) p ps l → Forall (λ vd, in_range V vd.1) l → (length ps < fuel)%nat →
  match chase fuel h p V with
  | Done None => vfind V l = None
  | Done (Some (v, b)) => vfind V l = Some (v, b_data b)
  | _ => False
  end.
Proof.
  intros Hc. revert fuel. induction Hc as [|p q v d ps l Hp Hb _ IH]; intros [|fuel] Hr Hf; cbn in *; try lia.
  - done.
  - apply Forall_cons in Hr as [Hv Hr]. rewrite decide_False by done. unfold load. rewrite Hb. cbn in Hv |- *.
    rewrite visible_sees by done. cbn. destruct (sees V v); [done|]. apply IH; [done|lia].
Qed.

Lemma chase_reads h cs ps r a V :
  heap_rep h cs ps r → rec_range V (r a) →
  ∃ res, chase (chase_fuel h) h (n_old_value (node h a)) V = Done res ∧
    vfind V (v_hist (r a)) = (λ vb, (vb.1, b_data vb.2)) <$> res.
Proof.
  intros Hr [_ Hrng]. pose proof (hr_node _ _ _ _ Hr a) as [_ _ Hhist].
  assert (Hsz : (length (ps a) < chase_fuel h)%nat).
  { pose proof (hr_nodup _ _ _ _ Hr a) as (_ & _ & Hnd)%NoDup_app.
    pose proof (chain_size _ _ _ _ Hhist Hnd). unfold chase_fuel. lia. }
  pose proof (chase_vfind _ _ _ _ _ V Hhist Hrng Hsz) as Hf.
  destruct (chase _ _ _ _) as [[[v b]|]| |]; try done; by eexists.
Qed.

(** What a read at [V] returns: the version and its first [n] bytes, or 1. *)
Definition si_answer (n : nat) (res : option (Z * list Z)) : Z * option (list Z) :=
  match res with Some (v, d) => (v, Some (take n d)) | None => (1, None) end.

Definition long_enough (n : nat) (V : list Z) (r : VRecord) : Prop :=
  ∀ v d, vread V r = Some (v, d) → (n ≤ length d)%nat.

(** A record whose newest version is a deletion the vector covers. *)
Definition deleted_at (V : list Z) (r : VRecord) : Prop :=
  v_seq r ≠ 0 ∧ sees V (v_seq r) = true ∧ v_cur r = None.
#[export] Instance deleted_at_dec V r : Decision (deleted_at V r).
Proof. unfold deleted_at. destruct (v_cur r) as [c|]; [right; naive_solver|]. apply _. Defined.

Section reads.
Context {St : Type} `{!Memstore St, !MemstoreLaws St}.

(** The frame of [GetWithInsert] on a key that is in the store. *)
Lemma store_node_rep (w : World St) cs ps r t k s a :
  stores_ w !! t = Some s → ms_inv s → Get s k = Done (Some a) → heap_rep (heap w) cs ps r →
  ∃ w', store_node w t k = Done (w', a) ∧ stores_ w' = stores_ w ∧ vlens w' = vlens w ∧
    heap_rep (heap w') cs ps r ∧ read_only_change (heap w) (heap w').
Proof.
  intros Hs Hi Hg Hr. destruct (store_node_hit w t k s a Hs Hi Hg) as (w' & Hrun & Hv & Hst & Hb & Hk & Hsame).
  assert (Hn : ∀ b, same_versions (node (heap w) b) (node (heap w') b) ∧
                    n_lock (node (heap w') b) = n_lock (node (heap w) b)).
  { intros b. pose proof (Hsame b) as Hx. apply same_record_versions in Hx as ?.
    apply same_record_fields in Hx. naive_solver. }
  exists w'. split_and!; try done. eapply heap_rep_same_versions; [done| |done]. intros b. apply Hn.
Qed.

(** Every branch of the read-only path: the newest version the vector covers, 1 when
    there is none, and a stop on a covered deletion. *)
Lemma get_ro_reads (w : World St) cs ps r t k V s a vl :
  stores_ w !! t = Some s → ms_inv s → Get s k = Done (Some a) → vlens w !! t = Some vl →
  heap_rep (heap w) cs ps r → rec_range V (r a) → long_enough vl V (r a) →
  v_seq (r a) ≠ 1 → (v_seq (r a) = 0 → v_cur (r a) = None ∧ v_hist (r a) = []) →
  ∃ w', stores_ w' = stores_ w ∧ vlens w' = vlens w ∧ heap_rep (heap w') cs ps r ∧
    read_only_change (heap w) (heap w') ∧
    get_ro_versioned w t k V =
    if decide (deleted_at V (r a)) then Crash assert_failed
    else Done (w', si_answer vl (vread V (r a))).
Proof.
  intros Hs Hi Hg Hvl Hr Hrng Hlen H1 H0.
  destruct (store_node_rep w cs ps r t k s a Hs Hi Hg Hr) as (w' & Hrun & Hst & Hv & Hr' & Hch).
  exists w'. split_and!; [done..|]. unfold get_ro_versioned, get_ro_versioned_helper, vlen.
  rewrite Hvl. cbn [mbind result_bind]. rewrite Hrun. cbn [mbind result_bind].
  pose proof (hr_node _ _ _ _ Hr' a) as [Hseq Hcur _]. rewrite Hseq.
  unfold long_enough, vread in *. destruct (decide (v_seq (r a) = 0)) as [Hz|Hz].
  { destruct (H0 Hz) as [Hc Hh]. rewrite decide_False by (unfold deleted_at; naive_solver).
    rewrite Hc, Hh. cbn. by destruct (sees _ _). }
  rewrite visible_sees by apply Hrng. cbn [mbind result_bind]. destruct (sees V (v_seq (r a))) eqn:Hvis.
  - destruct (v_cur (r a)) as [d|] eqn:Hc; inversion Hcur as [|p b Hp Hb]; subst.
    2: { rewrite decide_False by naive_solver. rewrite decide_True; [done|]. by unfold deleted_at. }
    { rewrite decide_True by done. unfold load. rewrite Hb. cbn [mbind result_bind].
      unfold copy_payload. rewrite decide_True by (by eapply Hlen). cbn [mbind result_bind].
      rewrite decide_False by done. rewrite decide_False by (unfold deleted_at; naive_solver). done. }
  - rewrite decide_False by done. rewrite (decide_False (P := deleted_at _ _)) by (intros (_ & ? & _); congruence).
    destruct (chase_reads _ _ _ _ a V Hr' Hrng) as (res & -> & Hf). cbn [mbind result_bind].
    rewrite Hf in *. destruct res as [[v b]|]; cbn; [|done].
    unfold copy_payload. by rewrite decide_True by (by eapply Hlen).
Qed.

(** Filling the copy of a value leaves the records alone. *)
Lemma fill_rep h cs ps r p old data :
  heap_rep h cs ps r → brk_above h → fresh_buf h cs ps p (Some old) →
  heap_rep (fill h p data) cs ps r ∧ brk_above (fill h p data) ∧ fresh_buf (fill h p data) cs ps p (Some data).
Proof.
  intros Hr [Hpos Hb] (Hn & (b & Hp & _) & Hnew). split_and!.
  - split; [|apply Hr..]. intros a. destruct (hr_node _ _ _ _ Hr a) as [Hs Hc Hh]. split; [done| |].
    + eapply current_frame; [|done]. intros q Hq. cbn. apply lookup_insert_ne.
      intros <-. apply (Hnew a), elem_of_app. by left.
    + eapply chain_frame; [|done]. intros q Hq. cbn. apply lookup_insert_ne.
      intros <-. apply (Hnew a), elem_of_app. by right.
  - split; [done|]. cbn. intros q Hq. destruct (decide (q = p)) as [->|]; [apply Hb; eauto|].
    rewrite lookup_insert_ne in Hq by done. by apply Hb.
  - split_and!; [done| |done]. eexists. cbn. by rewrite lookup_insert_eq.
Qed.

(** The item a read adds, and the copy it holds. *)
Definition got_item (h : Heap) (cs ps : Z → list Z) (it : WriteSetItem) (len : nat) (res : option (Z * list Z)) : Prop :=
  match res with
  | Some (v, d) => it_seq it = v ∧ fresh_buf h cs ps (it_addr it) (Some (take len d))
  | None => it_seq it = 1 ∧ fresh_buf h cs ps (it_addr it) (Some [])
  end.

(** The transaction after a read of node [a] that returned [seq]. *)
Definition read_added (tx tx' : DBSI) (t k a : Z) (len : nat) (seq : Z)
    (h : Heap) (cs ps : Z → list Z) (res : option (Z * list Z)) : Prop :=
  ∃ it, tx' = set_rwset tx (mkWS (kvs (rwset tx) ++ [it]) (ws_current (rwset tx))) ∧
    (it_node it = a ∧ it_tableid it = t ∧ it_key it = k ∧ it_len it = len ∧ it_ro it = true) ∧
    seq = it_seq it ∧ got_item h cs ps it len res.

Lemma read_end_eq (w : World St) tx t k len a addr seq :
  seq ≠ 0 → length (kvs (rwset tx)) ≠ MAX_SIZE →
  read_end w tx t k len a addr seq =
  Done (w, set_rwset tx (mkWS (kvs (rwset tx) ++ [mkItem t k len a addr seq true]) (ws_current (rwset tx))), seq).
Proof. intros Hne Hmax. unfold read_end, WriteSet_Add. by rewrite !bool_decide_eq_true_2 by done. Qed.

(** Copying the payload of a buffer into the transaction's own one ends the read. *)
Lemma read_end_copy (w : World St) tx cs ps r t k a len addr v b :
  heap_rep (heap w) cs ps r → brk_above (heap w) → fresh_buf (heap w) cs ps addr (Some []) →
  v ≠ 0 → (len ≤ length (b_data b))%nat → length (kvs (rwset tx)) ≠ MAX_SIZE →
  ∃ w' tx' seq,
    (data ← copy_payload b len; read_end (set_heap w (fill (heap w) addr data)) tx t k len a addr v)
      = Done (w', tx', seq) ∧
    heap_rep (heap w') cs ps r ∧ brk_above (heap w') ∧
    read_added tx tx' t k a len seq (heap w') cs ps (Some (v, b_data b)).
Proof.
  intros Hr Hb Hf Hv Hlen Hmax. unfold copy_payload. rewrite decide_True by done. cbn [mbind result_bind].
  rewrite read_end_eq by done.
  destruct (fill_rep _ _ _ _ addr [] (take len (b_data b)) Hr Hb Hf) as (Hr2 & Hb2 & Hf2).
  eexists _, _, _. split; [done|]. split; [done|]. split; [done|]. by eexists.
Qed.

(** [get] on every branch: a visible record without a value adds nothing, otherwise
    the set gets a read-only item with the version and a private copy of the newest
    version the start vector covers, or version 1 when it covers none. *)
Lemma get_reads (w : World St) tx cs ps r t k s a len :
  stores_ w !! t = Some s → ms_inv s → Get s k = Done (Some a) →
  heap_rep (heap w) cs ps r → brk_above (heap w) → rec_range (ts_buffer_ tx) (r a) →
  long_enough len (ts_buffer_ tx) (r a) → v_seq (r a) ≠ 1 →
  (∀ d, vread (ts_buffer_ tx) (r a) ≠ Some (0, d)) → length (kvs (rwset tx)) ≠ MAX_SIZE →
  ∃ w' tx' seq, get w tx t k len = Done (w', tx', seq) ∧
    heap_rep (heap w') cs ps r ∧ brk_above (heap w') ∧
    if decide (sees (ts_buffer_ tx) (v_seq (r a)) = true ∧ v_cur (r a) = None) then tx' = tx ∧ seq = 1
    else read_added tx tx' t k a len seq (heap w') cs ps (vread (ts_buffer_ tx) (r a)).
Proof.
  intros Hs Hi Hg Hr Hbrk Hrng Hlen H1 H0 Hmax. set (V := ts_buffer_ tx) in *.
  destruct (malloc_rep (heap w) cs ps r [] Hr Hbrk) as (Hr1 & Hb1 & Hf1).
  unfold get. destruct (malloc (heap w) []) as [h1 addr] eqn:Hm. cbn [fst snd] in *.
  destruct (store_node_rep (set_heap w h1) cs ps r t k s a Hs Hi Hg Hr1) as (w' & -> & _ & _ & Hr' & Hbufs & Hbk & _).
  cbn [mbind result_bind heap set_heap] in *.
  assert (Hb' : brk_above (heap w')) by (unfold brk_above; by rewrite Hbufs, Hbk).
  assert (Hf' : fresh_buf (heap w') cs ps addr (Some [])) by (unfold fresh_buf in *; by rewrite Hbufs).
  pose proof (hr_node _ _ _ _ Hr' a) as [Hseq Hcur _]. rewrite Hseq. fold V.
  rewrite visible_sees by apply Hrng. cbn [mbind result_bind].
  unfold long_enough, vread in Hlen, H0 |- *. destruct (sees V (v_seq (r a))) eqn:Hvis.
  - inversion Hcur as [Hv Hcs Hc|p b Hp Hb Hv Hcs Hc].
    + destruct (decide (true = true ∧ _)) as [_|[]]; [|done]. rewrite decide_True by done. by exists w', tx, 1.
    + rewrite <-Hc in H0, Hlen. destruct (decide (true = true ∧ _)) as [[_ ?]|_]; [done|]. rewrite decide_False by done.
      unfold load. rewrite Hb. cbn [mbind result_bind]. destruct (decide (v_seq (r a) = 1)); [done|].
      apply (read_end_copy w' tx cs ps r t k a len addr (v_seq (r a)) b); try done; [|by eapply Hlen].
      intros Heq. apply (H0 (b_data b)). cbn. by rewrite Heq.
  - destruct (decide (false = true ∧ _)) as [[? _]|_]; [done|].
    destruct (chase_reads _ _ _ _ a V Hr' Hrng) as (res & -> & Hf). cbn [mbind result_bind].
    rewrite Hf in H0, Hlen |- *. destruct res as [[v b]|]; cbn [fmap option_fmap option_map fst snd] in *.
    + apply (read_end_copy w' tx cs ps r t k a len addr v b); try done; [|by eapply Hlen].
      intros ->. by apply (H0 (b_data b)).
    + rewrite read_end_eq by done. eexists _, _, _. split; [done|]. split; [done|]. split; [done|].
      by eexists.
Qed.
End reads.

(** ** The write set *)

(** The lock loop is DBRad's without the timestamp. *)
Lemma lock_loop_rad word items i h cur mts :
  ∃ mts', DBRad.lock_loop word items i h cur mts = (lock_loop word items i h cur, mts').
Proof.
  revert i h cur mts. induction items as [|it items IH]; intros i h cur mts; cbn; [by eexists|].
  destruct (it_ro it); [apply IH|]. case_decide; [by eexists|]. case_decide; [by eexists|]. apply IH.
Qed.

Lemma si_lock_loop_success word items i h cur h' cur' :
  word ≠ 0 → lock_loop word items i h cur = (true, h', cur') →
  locked_upto word (wnodes items) h h' ∧ NoDup (wnodes items) ∧
  ∀ it, it ∈ items → it_ro it = false → n_seq (node h (it_node it)) = it_seq it.
Proof.
  intros Hw Hl. destruct (lock_loop_rad word items i h cur 0) as [m Hm]. rewrite Hl in Hm.
  destruct (RadWriteSet.lock_loop_success _ _ _ _ _ _ _ _ _ Hw Hm) as (? & ? & _ & Hit).
  split_and!; [done..|]. intros it Hin Hro. by apply Hit.
Qed.

(** Storing the first value of a record early makes no difference. *)
Lemma switch_value_install h it ts :
  switch_value h it ts = install h (it_node it) (it_seq it) (it_addr it) ts.
Proof.
  unfold switch_value, install. case_decide as Hv; [done|]. cbn [mbind result_bind].
  unfold set_node, upd_nodes. cbn. by rewrite !upd_node_upd.
Qed.

Lemma CommitLocalWrite_rad ws h ts : CommitLocalWrite ws h ts = DBRad.CommitLocalWrite ws h ts.
Proof.
  unfold CommitLocalWrite, DBRad.CommitLocalWrite. apply for_each_ext. intros h' it _.
  unfold commit_item, DBRad.commit_item. destruct (it_ro it); [done|]. apply switch_value_install.
Qed.

Lemma ReleaseAllSet_rad ws h : ReleaseAllSet ws h = DBRad.ReleaseAllSet ws h.
Proof. done. Qed.

(** Lock, validate, install at any version word. *)
Lemma si_lock_commit word ws h cs ps r h1 ws1 cts :
  word ≠ 0 → heap_rep h cs ps r → fresh_items h cs ps (kvs ws) →
  LockAllSet word ws h = (true, h1, ws1) →
  ∃ h2 cs2 ps2,
    CommitLocalWrite ws1 h1 cts = Done h2 ∧
    heap_rep h2 cs2 ps2 (abs_commit h cts (kvs ws) r) ∧
    (∀ a, n_lock (node h2 a) = n_lock (node h a)).
Proof.
  intros Hw Hr Hf. unfold LockAllSet. destruct (lock_loop _ _ _ _ _) as [[ok h'] cur'] eqn:Hl. intros [= -> -> <-].
  destruct (si_lock_loop_success _ _ _ _ _ _ _ Hw Hl) as (Hlk & Hnd & Hit).
  pose proof (lu_bufs _ _ _ _ Hlk) as Hb.
  destruct (commit_run (kvs ws) h1 cs ps r cts) as (h2 & cs2 & ps2 & Hrun & Hrep & Hn).
  - eapply heap_rep_same_versions; [done|intros a; by eapply locked_same_versions|done].
  - by eapply fresh_items_bufs.
  - done.
  - intros it Hin Hro. rewrite <-(Hit it Hin Hro). apply (hr_node _ _ _ _ Hr).
  - exists h2, cs2, ps2. rewrite CommitLocalWrite_rad. split_and!; [done| |].
    + by rewrite <-(abs_commit_bufs h h1) by done.
    + intros a. destruct (Hn a) as (-> & _ & _). rewrite (lu_node _ _ _ _ Hlk).
      case_decide as Hin; [|done]. symmetry. by apply (lu_free _ _ _ _ Hlk).
Qed.

Lemma si_lock_release word ws h h1 ws1 :
  ws_current ws = -1 → live_items h (kvs ws) → LockAllSet word ws h = (false, h1, ws1) →
  ∃ h2, ReleaseAllSet ws1 h1 = Done h2 ∧ ∀ a, node h2 a = node h a.
Proof.
  intros Hc Hl. unfold LockAllSet. destruct (lock_loop _ _ _ _ _) as [[ok h'] cur'] eqn:Hk. intros [= -> -> <-].
  destruct (lock_loop_rad word (kvs ws) 0 h (ws_current ws) 0) as [m Hm]. rewrite Hk in Hm.
  destruct (lock_fail_release word ws h 0 h1 (mkWS (kvs ws) cur') 0) as [_ Hrel]; [done..| |done].
  unfold DBRad.LockAllSet. by rewrite Hm.
Qed.
