(* ===== verification/SiLocal.v ===== *)
(** * Properties of local snapshot-isolation operations

    What one server does for the transactions of DBSI.v: reads at a vector return the
    newest version the vector covers, the commit adds one version to each written
    record or leaves no trace, and the range in which version words keep their
    meaning. *)

From S2P Require Import Prelude LockWord Memstore ClusterHash RadMem DBRad RadWriteSet RadLocal RadRead RemoteSet TSManager DBSI SiSpec.

(** The versions of a record, newest first; no value is a deletion. *)
Definition all_versions (r : VRecord) : list (Z * option (list Z)) :=
  (v_seq r, v_cur r) :: ((λ vd, (vd.1, Some vd.2)) <$> v_hist r).

(** [(v, d)] is the first version in the list that the vector covers. *)
Definition newest_visible (V : list Z) (r : VRecord) (v : Z) (d : option (list Z)) : Prop :=
  ∃ l1 l2, all_versions r = l1 ++ (v, d) :: l2 ∧ sees V v = true ∧ ∀ v' d', (v', d') ∈ l1 → sees V v' = false.

Definition none_visible (V : list Z) (r : VRecord) : Prop :=
  ∀ v d, (v, d) ∈ all_versions r → sees V v = false.

Lemma vfind_newest V l :
  match vfind V l with
  | Some (v, d) => ∃ l1 l2, l = l1 ++ (v, d) :: l2 ∧ sees V v = true ∧ ∀ v' d', (v', d') ∈ l1 → sees V v' = false
  | None => ∀ v d, (v, d) ∈ l → sees V v = false
  end.
Proof.
  induction l as [|[v d] l IH]; cbn; [by intros v d ?%not_elem_of_nil|]. destruct (sees V v) eqn:Hs.
  - exists [], l. split_and!; [done..|]. by intros v' d' ?%not_elem_of_nil.
  - destruct (vfind V l) as [[v' d']|].
    + destruct IH as (l1 & l2 & -> & ? & Hn). exists ((v, d) :: l1), l2. split_and!; [done..|].
      intros v0 d0 [[= -> ->]|Hin]%elem_of_cons; [done|by eapply Hn].
    + intros v' d' [[= -> ->]|Hin]%elem_of_cons; [done|by eapply IH].
Qed.

(** [vread] is that lookup; a covered deletion reads as nothing. *)
Lemma vread_newest V r :
  match vread V r with
  | Some (v, d) => newest_visible V r v (Some d)
  | None => newest_visible V r (v_seq r) None ∧ v_cur r = None ∨ none_visible V r
  end.
Proof.
  unfold vread. destruct (sees V (v_seq r)) eqn:Hs.
  - assert (Hnew : newest_visible V r (v_seq r) (v_cur r)).
    { exists [], ((λ vd, (vd.1, Some vd.2)) <$> v_hist r). split_and!; [done..|]. by intros v' d' ?%not_elem_of_nil. }
    destruct (v_cur r) as [c|] eqn:Hc; cbn; [done|by left].
  - pose proof (vfind_newest V (v_hist r)) as Hf. destruct (vfind V (v_hist r)) as [[v d]|].
    + destruct Hf as (l1 & l2 & Heq & Hv & Hn). unfold newest_visible, all_versions. rewrite Heq.
      exists ((v_seq r, v_cur r) :: ((λ vd, (vd.1, Some vd.2)) <$> l1)), ((λ vd, (vd.1, Some vd.2)) <$> l2).
      split_and!; [by rewrite fmap_app|done|]. intros v' d' [[= -> ->]|Hin]%elem_of_cons; [done|].
      apply list_elem_of_fmap in Hin as ([v0 d0] & [= -> ->] & Hin). by eapply Hn.
    + right. intros v d [[= -> ->]|Hin]%elem_of_cons; [done|].
      apply list_elem_of_fmap in Hin as ([v0 d0] & [= -> ->] & Hin). by eapply Hf.
Qed.

(** ** Samples *)

(** Machine 0 committed version 3, machine 1 its version 5 on top. *)
Definition si_word (p c : Z) : Z := SI_ENCODE_TS p c.
Definition si_node : MemNode := mkMemNode 0 (si_word 1 5) 1 2 0 0 0.
Definition si_heap : Heap :=
  mkHeap {[ 8000 := si_node ]}
    {[ 1 := mkBuf None [1; 2]; 2 := mkBuf (Some (mkHdr NULL 3)) [9; 9]; 3 := mkBuf None [7; 7] ]} 4.
Definition si_recs : Z → VRecord :=
  <[8000 := mkVRec (si_word 1 5) (Some [1; 2]) [(3, [9; 9])]]> (λ _, empty_record).
Definition si_world : World ClusterHash :=
  mkWorld {[ 0 := sample_remote ]} ∅ {[ 0 := 2%nat ]} {[ 0 := 8%nat ]} si_heap 1.
Definition si_tx (V : list Z) : DBSI := mkSI (mkWS [] (-1)) V 5 0 false 0.

Lemma si_node_other a : 8000 ≠ a → node si_heap a = MemNode_new.
Proof. intros. unfold node, node_at, si_heap; cbn. by rewrite lookup_singleton_ne. Qed.

Lemma si_rep : heap_rep si_heap sample_cs sample_ps si_recs.
Proof.
  unfold si_recs. split; [|apply sample_rep..].
  intros a. unfold sample_cs, sample_ps. destruct (decide (8000 = a)) as [<-|Hne].
  - rewrite !fn_lookup_insert. split; [done| |].
    + by apply (current_buf _ 1 (mkBuf None [1; 2])).
    + eapply chain_cons; [done|done|constructor].
  - rewrite !fn_lookup_insert_ne by done. split; rewrite si_node_other by done; constructor.
Qed.

Lemma si_brk : brk_above si_heap.
Proof.
  split; [done|]. intros p Hp. cbn. apply elem_of_dom in Hp.
  assert (Hd : dom (bufs si_heap) = {[1; 2; 3]} :> gset Z) by (vm_compute; reflexivity).
  rewrite Hd in Hp. set_unfold in Hp. lia.
Qed.

(** ** Properties *)

(** C19: a read at a vector, on every branch.  [get_ro_versioned] returns the first
    bytes of the newest version the vector covers; it returns 1 when the vector covers
    none, and for a record that was never written; it stops the program when the
    newest covered version is a deletion.  Records, locks and buffers stay. *)
Theorem si_read_visible {St} `{!Memstore St, !MemstoreLaws St} (w : World St) cs ps r t k V s a vl :
  stores_ w !! t = Some s → ms_inv s → Get s k = Done (Some a) → vlens w !! t = Some vl →
  heap_rep (heap w) cs ps r → rec_range V (r a) → long_enough vl V (r a) →
  v_seq (r a) ≠ 1 → (v_seq (r a) = 0 → v_cur (r a) = None ∧ v_hist (r a) = []) →
  match get_ro_versioned w t k V with
  | Done (w', (v, Some bytes)) =>
      (∃ d, newest_visible V (r a) v (Some d) ∧ bytes = take vl d) ∧
      heap_rep (heap w') cs ps r ∧ read_only_change (heap w) (heap w')
  | Done (w', (v, None)) =>
      v = 1 ∧ (none_visible V (r a) ∨ v_seq (r a) = 0) ∧
      heap_rep (heap w') cs ps r ∧ read_only_change (heap w) (heap w')
  | Crash e => e = assert_failed ∧ newest_visible V (r a) (v_seq (r a)) None
  | Spin => False
  end.
Proof.
  intros Hs Hi Hg Hvl Hr Hrng Hlen H1 H0.
  destruct (get_ro_reads w cs ps r t k V s a vl) as (w' & _ & _ & Hr' & Hch & ->); [done..|].
  pose proof (vread_newest V (r a)) as Hn. destruct (decide (deleted_at V (r a))) as [(Hz & Hsee & Hc)|Hd].
  - split; [done|]. unfold vread in Hn. rewrite Hsee, Hc in Hn. cbn in Hn. destruct Hn as [[Hn _]|Hn]; [done|].
    exfalso. rewrite (Hn (v_seq (r a)) None) in Hsee; [done|]. unfold all_versions. rewrite Hc. by left.
  - destruct (vread V (r a)) as [[v d]|]; cbn.
    + split; [by exists d|done].
    + split; [done|]. split; [|done]. destruct Hn as [[(l1 & l2 & _ & Hsee & _) Hc]|Hn]; [right|by left].
      destruct (decide (v_seq (r a) = 0)) as [|Hz]; [done|]. by destruct Hd.
Qed.

Lemma si_range : rec_range [9; 4] (si_recs 8000).
Proof. split; [by eexists|]. repeat constructor. by eexists. Qed.

(** Machine 1's version 5 is not covered, the older one is. *)
Lemma si_read_visible_witness :
  match get_ro_versioned si_world 0 7 [9; 4] with
  | Done (w', (v, Some bytes)) =>
      (∃ d, newest_visible [9; 4] (si_recs 8000) v (Some d) ∧ bytes = take 2 d) ∧
      heap_rep (heap w') sample_cs sample_ps si_recs ∧ read_only_change (heap si_world) (heap w')
  | Done (w', (v, None)) =>
      v = 1 ∧ (none_visible [9; 4] (si_recs 8000) ∨ v_seq (si_recs 8000) = 0) ∧
      heap_rep (heap w') sample_cs sample_ps si_recs ∧ read_only_change (heap si_world) (heap w')
  | Crash e => e = assert_failed ∧ newest_visible [9; 4] (si_recs 8000) (v_seq (si_recs 8000)) None
  | Spin => False
  end.
Proof.
  apply (si_read_visible si_world sample_cs sample_ps si_recs 0 7 [9; 4] sample_remote 8000 2);
    [done|apply sample_remote_wf|apply sample_get|done|apply si_rep|apply si_range| |done|done].
  intros v d. vm_compute. intros [= <- <-]. lia.
Defined.

(** A read for update, on every branch.  [get] always returns; a covered record
    without a value adds nothing to the set, otherwise one read-only item is added: it
    names the newest version the start vector covers and owns a copy of its bytes that
    no record refers to, or carries version 1, which no lock will validate. *)
Theorem si_get_for_update {St} `{!Memstore St, !MemstoreLaws St} (w : World St) tx cs ps r t k s a len :
  stores_ w !! t = Some s → ms_inv s → Get s k = Done (Some a) →
  heap_rep (heap w) cs ps r → brk_above (heap w) → rec_range (ts_buffer_ tx) (r a) →
  long_enough len (ts_buffer_ tx) (r a) → v_seq (r a) ≠ 1 →
  (∀ d, vread (ts_buffer_ tx) (r a) ≠ Some (0, d)) → length (kvs (rwset tx)) ≠ MAX_SIZE →
  ∃ w' tx' seq, get w tx t k len = Done (w', tx', seq) ∧ heap_rep (heap w') cs ps r ∧
    ((tx' = tx ∧ seq = 1 ∧ newest_visible (ts_buffer_ tx) (r a) (v_seq (r a)) None) ∨
     ∃ it, kvs (rwset tx') = kvs (rwset tx) ++ [it] ∧ it_node it = a ∧ it_ro it = true ∧ it_seq it = seq ∧
       ((∃ d, newest_visible (ts_buffer_ tx) (r a) seq (Some d) ∧
          fresh_buf (heap w') cs ps (it_addr it) (Some (take len d))) ∨
        (seq = 1 ∧ none_visible (ts_buffer_ tx) (r a)))).
Proof.
  intros Hs Hi Hg Hr Hb Hrng Hlen H1 H0 Hmax.
  destruct (get_reads w tx cs ps r t k s a len) as (w' & tx' & seq & -> & Hr' & _ & Hres); [done..|].
  exists w', tx', seq. split; [done|]. split; [done|]. pose proof (vread_newest (ts_buffer_ tx) (r a)) as Hn.
  destruct (decide _) as [[Hsee Hc]|Hd].
  - left. destruct Hres as [-> ->]. split_and!; [done..|]. unfold vread in Hn. rewrite Hsee, Hc in Hn. cbn in Hn.
    destruct Hn as [[? _]|Hn]; [done|]. rewrite (Hn (v_seq (r a)) None) in Hsee; [done|]. unfold all_versions. rewrite Hc. by left.
  - right. destruct Hres as (it & -> & (Hna & _ & _ & _ & Hro) & -> & Hgot). exists it. split_and!; [done..|].
    destruct (vread (ts_buffer_ tx) (r a)) as [[v d]|]; cbn in Hgot; destruct Hgot as [-> Hf].
    + left. by exists d.
    + right. split; [done|]. destruct Hn as [[(l1 & l2 & _ & Hsee & _) Hc]|Hn]; [by destruct Hd|done].
Qed.

Lemma si_get_for_update_witness :
  ∃ w' tx' seq, get si_world (si_tx [9; 5]) 0 7 2 = Done (w', tx', seq) ∧ heap_rep (heap w') sample_cs sample_ps si_recs ∧
    ((tx' = si_tx [9; 5] ∧ seq = 1 ∧ newest_visible [9; 5] (si_recs 8000) (v_seq (si_recs 8000)) None) ∨
     ∃ it, kvs (rwset tx') = [] ++ [it] ∧ it_node it = 8000 ∧ it_ro it = true ∧ it_seq it = seq ∧
       ((∃ d, newest_visible [9; 5] (si_recs 8000) seq (Some d) ∧
          fresh_buf (heap w') sample_cs sample_ps (it_addr it) (Some (take 2 d))) ∨
        (seq = 1 ∧ none_visible [9; 5] (si_recs 8000)))).
Proof.
  apply (si_get_for_update si_world (si_tx [9; 5]) sample_cs sample_ps si_recs 0 7 sample_remote 8000 2);
    [done|apply sample_remote_wf|apply sample_get|apply si_rep|apply si_brk| | |done| |done].
  - split; [by eexists|]. repeat constructor. by eexists.
  - intros v d. vm_compute. intros [= <- <-]. lia.
  - intros d. vm_compute. done.
Defined.

(** The local commit refines the abstract store.  [LockAllSet] either succeeds,
    and then every written item was read at the record's newest version, the
    installation completes, each written record has exactly one new version, the
    commit word with the item's value on top of the version that was read, the other
    records and all locks are as before; or it fails, and the release puts every node
    back exactly as it was. *)
Theorem si_local_commit word ws h cs ps r cts ok h1 ws1 :
  word ≠ 0 → ws_current ws = -1 → live_items h (kvs ws) → heap_rep h cs ps r → fresh_items h cs ps (kvs ws) →
  LockAllSet word ws h = (ok, h1, ws1) →
  if ok then
    (∀ it, it ∈ kvs ws → it_ro it = false → it_seq it = v_seq (r (it_node it))) ∧
    ∃ h2 cs2 ps2 r2, CommitLocalWrite ws1 h1 cts = Done h2 ∧ heap_rep h2 cs2 ps2 r2 ∧
      (∀ it, it ∈ kvs ws → it_ro it = false →
         r2 (it_node it) = abs_install cts (payload h it) (r (it_node it))) ∧
      (∀ a, a ∉ wnodes (kvs ws) → r2 a = r a) ∧
      (∀ a, n_lock (node h2 a) = n_lock (node h a))
  else ∃ h2, ReleaseAllSet ws1 h1 = Done h2 ∧ ∀ a, node h2 a = node h a.
Proof.
  intros Hw Hcur Hlive Hr Hf HL. destruct ok; [|by eapply si_lock_release].
  destruct (si_lock_commit word ws h cs ps r h1 ws1 cts Hw Hr Hf HL) as (h2 & cs2 & ps2 & Hc & Hrep & Hl).
  unfold LockAllSet in HL. destruct (lock_loop _ _ _ _ _) as [[ok h'] cur'] eqn:Hk. injection HL as -> -> <-.
  destruct (SiSpec.si_lock_loop_success _ _ _ _ _ _ _ Hw Hk) as (_ & Hnd & Hit). split.
  - intros it Hin Hro. rewrite <-(Hit it Hin Hro). apply (hr_node _ _ _ _ Hr).
  - exists h2, cs2, ps2, (abs_commit h cts (kvs ws) r). split_and!; [done..| | |done].
    + intros it Hin Hro. by apply abs_commit_written.
    + intros a. apply abs_commit_other.
Qed.

Definition si_ws : WriteSet := mkWS [mkItem 0 7 2 8000 3 (si_word 1 5) false] (-1).
Definition si_locked : Heap := set_node si_heap 8000 (set_lock sample_word).

Lemma si_fresh : fresh_items si_heap sample_cs sample_ps (kvs si_ws).
Proof.
  split; [apply (bool_decide_unpack _); vm_compute; exact I|].
  intros it Hin _. apply list_elem_of_singleton in Hin as ->.
  change (payload si_heap _) with (Some [7; 7]). cbn [fresh_buf]. split_and!; [done|by eexists|]. intros b. unfold sample_cs, sample_ps.
  destruct (decide (8000 = b)) as [<-|]; rewrite ?fn_lookup_insert, ?fn_lookup_insert_ne by done;
    [by apply (bool_decide_unpack _)|apply not_elem_of_nil].
Qed.

Lemma si_local_commit_witness :
  (∀ it, it ∈ kvs si_ws → it_ro it = false → it_seq it = v_seq (si_recs (it_node it))) ∧
  ∃ h2 cs2 ps2 r2, CommitLocalWrite (mkWS (kvs si_ws) 0) si_locked (si_word 0 4) = Done h2 ∧ heap_rep h2 cs2 ps2 r2 ∧
    (∀ it, it ∈ kvs si_ws → it_ro it = false →
       r2 (it_node it) = abs_install (si_word 0 4) (payload si_heap it) (si_recs (it_node it))) ∧
    (∀ a, a ∉ wnodes (kvs si_ws) → r2 a = si_recs a) ∧
    (∀ a, n_lock (node h2 a) = n_lock (node si_heap a)).
Proof.
  apply (si_local_commit sample_word si_ws si_heap sample_cs sample_ps si_recs (si_word 0 4) true);
    [done|done| |apply si_rep|apply si_fresh|by vm_compute].
  split; [apply (bool_decide_unpack _); vm_compute; exact I|].
  intros p. change (addrs (kvs si_ws)) with [3]. intros ->%list_elem_of_singleton. by eexists.
Defined.

Lemma lor_1_r s : Z.lor s 1 = s / 2 * 2 + 1.
Proof.
  assert (Hs : s = Z.lor (Z.shiftl (s / 2) 1) (s mod 2)).
  { rewrite lor_shiftl_add; [Z.div_mod_to_equations; lia|lia|apply Z.mod_pos_bound; lia]. }
  rewrite Hs at 1. rewrite <-Z.lor_assoc.
  assert (Z.lor (s mod 2) 1 = 1) as ->.
  { pose proof (Z.mod_pos_bound s 2 ltac:(lia)). assert (s mod 2 = 0 ∨ s mod 2 = 1) as [-> | ->] by lia; done. }
  rewrite lor_shiftl_add by lia. done.
Qed.


