(* ===== verification/SiRpc.v ===== *)
(** * RPC handlers of DBSI

    Models src/drtm-dst/src/db/txs/dbsi_rpc_handler.cc.  Remote reads are answered with
    the current version ("occ style's fetching, read committed"; the code that would
    read at the sender's vector follows an unconditional [continue]).  Locks, releases
    and commits act on the items addressed to the own partition.

    Messages are the typed ones of RemoteSet.v.  The commit handler leaves the read
    pointer in the middle of the message when it meets a record that the sender does
    not hold: what the bytes of that payload and of the rest look like as items is the
    parameter [resync] of its loop. *)

From S2P Require Import Prelude LockWord Memstore RadMem DBRad RadWriteSet RemoteSet RadRpc RadRpcSpec DBSI SiSpec.

(** The items a loop over [int i < num_items] goes over. *)
Definition int_items {A} (m : Message A) : result (list A) :=
  let num := i8 (rh_num (m_header m)) in
  if decide (num ≤ Z.of_nat (length (m_items m))) then Done (take (Z.to_nat num) (m_items m))
  else Crash invalid_access.

Section handlers.
Context {St : Type} `{!Memstore St}.
Implicit Types (w : World St).

(** ** [DBSI::get_rpc_handler] *)

(** [case REQ_READ]: retry while a commit is under way; an absent value is answered with
    version 0 and whatever the reply buffer held ([stale]). *)
Definition si_read_request w (stale : list Z) (i : Z) (it : RemoteSetRequestItem)
  : result (World St * RemoteSetReplyItem) :=
  n_bytes ← vlen w (rq_tableid it);
  '(w, a) ← request_node w it;
  let n := node (heap w) a in
  if decide (n_seq n = 1) then Spin
  else if decide (n_value n = NULL) then Done (w, mkReplyItem 0 a (u8 i) (take n_bytes stale))
  else
    b ← load (heap w) (n_value n);
    data ← copy_payload b n_bytes;
    Done (w, mkReplyItem (n_seq n) a (u8 i) data).

Definition si_get_rpc_item (stale : list Z) (s : World St * list RemoteSetReplyItem) (x : Z * RemoteSetRequestItem)
  : result (World St * list RemoteSetReplyItem) :=
  let '(w, acc) := s in
  let '(i, it) := x in
  if decide (rq_pid it ≠ current_partition w) then Done (w, acc)
  else
    match rq_type it with
    | REQ_READ =>
        '(w, r) ← si_read_request w stale i it;
        Done (w, acc ++ [r])
    | REQ_INSERT =>
        '(w, a) ← store_node w (rq_tableid it) (long_key it);
        Done (w, acc ++ [reply_version w a i])
    | REQ_READ_IDX | REQ_INSERT_IDX =>
        '(w, a) ← index_node w (rq_tableid it) (long_key it);
        Done (w, acc ++ [reply_version w a i])
    | _ => Crash assert_failed
    end.

Definition si_get_rpc_handler w (stale : list Z) (m : Message RemoteSetRequestItem) : result (World St * ReadReply) :=
  _ ← verify (bool_decide (i8 (rh_num (m_header m)) > 0));
  items ← int_items m;
  '(w, l) ← for_each (si_get_rpc_item stale) (numbered items) (w, []);
  Done (w, read_reply w l).

(** ** [DBSI::lock_rpc_handler] *)

Fixpoint si_lock_rpc_loop (word part : Z) (items : list RemoteLockItem) (h : Heap) : bool * Heap :=
  match items with
  | [] => (true, h)
  | it :: items =>
      if decide (lk_pid it ≠ part) then si_lock_rpc_loop word part items h
      else if decide (n_lock (node h (lk_node it)) ≠ 0) then (false, h)
      else
        let h := set_node h (lk_node it) (set_lock word) in
        if decide (n_seq (node h (lk_node it)) ≠ lk_seq it) then (false, h)
        else si_lock_rpc_loop word part items h
  end.

(** The other fields of the reply are not set. *)
Definition si_lock_rpc_handler w (id tid cid : Z) (m : Message RemoteLockItem) : result (World St * ReplyHeader) :=
  items ← int_items m;
  let '(ok, h) := si_lock_rpc_loop (handler_word id tid cid) (current_partition w) items (heap w) in
  _ ← verify (bool_decide (i8 (rh_num (m_header m)) > 0));
  Done (set_heap w h, mkReplyHeader (if (ok : bool) then 1 else 0) 0 0).

(** ** [DBSI::release_rpc_handler] *)

Definition si_release_rpc_item (word part : Z) (h : Heap) (it : RemoteLockItem) : Heap :=
  if decide (lk_pid it ≠ part) then h
  else if decide (n_lock (node h (lk_node it)) = word) then set_node h (lk_node it) (set_lock 0)
  else h.

Definition si_release_rpc_handler w (id tid cid : Z) (m : Message RemoteLockItem) : result (World St) :=
  items ← int_items m;
  Done (set_heap w (foldl (si_release_rpc_item (handler_word id tid cid) (current_partition w)) (heap w) items)).

(** ** [DBSI::commit_rpc_handler2] *)

(** [n] rounds of the loop.  A record that does not carry the sender's lock word is
    skipped, after the buffer was allocated and without moving past the payload. *)
Fixpoint si_commit_loop (resync : RemoteWriteItem → list RemoteWriteItem → list RemoteWriteItem)
    (word part desired_seq : Z) (n : nat) (items : list RemoteWriteItem) (h : Heap) : result Heap :=
  match n with
  | O => Done h
  | S n =>
      match items with
      | [] => Crash invalid_access
      | it :: rest =>
          if decide (wi_pid it ≠ part) then si_commit_loop resync word part desired_seq n rest h
          else
            let '(h, new_val) :=
              if decide (wi_payload it = 0) then (h, NULL)
              else malloc h (take (Z.to_nat (wi_payload it)) (wi_data it)) in
            if decide (n_lock (node h (wi_node it)) ≠ word) then
              si_commit_loop resync word part desired_seq n
                (if decide (wi_payload it = 0) then rest else resync it rest) h
            else
              let old_seq := n_seq (node h (wi_node it)) in
              h ← install h (wi_node it) old_seq new_val desired_seq;
              si_commit_loop resync word part desired_seq n rest h
      end
  end.

Definition si_commit_rpc_handler2 resync w (id tid cid : Z) (m : Message RemoteWriteItem) : result (World St) :=
  items ← msg_items m;
  h ← si_commit_loop resync (handler_word id tid cid) (current_partition w) (rh_padding (m_header m))
        (length items) items (heap w);
  Done (set_heap w h).
End handlers.

(** ** DBRad's loops on the same messages *)

Lemma int_items_all {A} hd (l : list A) to :
  rh_num hd = Z.of_nat (length l) → (length l ≤ 127)%nat → int_items (mkMsg hd l to) = Done l.
Proof.
  intros Hn Hle. unfold int_items. cbn. rewrite Hn. rewrite swrap_small by (cbn; lia).
  rewrite decide_True by lia. by rewrite Nat2Z.id, firstn_all.
Qed.

(** DBRad's loop asserts that it does not meet its own word and collects read
    timestamps; where it returns, this one does the same. *)
Lemma si_lock_rpc_loop_rad word part items h mt ok h' mt' :
  lock_rpc_loop word part items h mt = Done (ok, h', mt') → si_lock_rpc_loop word part items h = (ok, h').
Proof.
  revert h mt. induction items as [|it items IH]; intros h mt; cbn; [by intros [= <- <- <-]|].
  case_decide; [apply IH|]. case_decide.
  - intros H1. apply bind_Done in H1 as (? & _ & H1). by injection H1 as <- <- _.
  - case_decide; [by intros [= <- <- _]|apply IH].
Qed.

(** Where every record of the message is held by the sender, the commit loop is
    DBRad's, whatever [resync] is. *)
Lemma si_commit_loop_rad resync word part ts items h cs ps r :
  heap_rep h cs ps r → brk_above h → Forall wi_ok items → 1 < ts → NoDup (cnodes part items) →
  (∀ a, a ∈ cnodes part items → n_lock (node h a) = word) →
  si_commit_loop resync word part ts (length items) items h = for_each (commit_rpc_item part ts) items h.
Proof.
  intros Hr Hb Hok Hts. revert h cs ps r Hr Hb.
  induction Hok as [|it items Hit Hok IH]; intros h cs ps r Hr Hb Hnd Hl; [done|].
  cbn [length si_commit_loop for_each]. destruct (decide (wi_pid it = part)) as [Hp|Hp].
  - rewrite decide_False by auto. rewrite cnodes_own in Hnd, Hl by done. apply NoDup_cons in Hnd as [Hnin Hnd].
    destruct (commit_rpc_item_run part ts h cs ps r it) as (h1 & cs1 & ps1 & Hrun & Hr1 & Hb1 & _ & Hn1 & _); [done..|].
    rewrite Hrun. cbn [mbind result_bind]. unfold commit_rpc_item in Hrun. rewrite decide_False in Hrun by auto.
    assert (Hnode : ∀ h2 v, (if decide (wi_payload it = 0) then (h, NULL)
              else malloc h (take (Z.to_nat (wi_payload it)) (wi_data it))) = (h2, v) → node h2 (wi_node it) = node h (wi_node it)).
    { intros h2 v. case_decide; [by intros [= <- <-]|]. unfold malloc. by intros [= <- <-]. }
    destruct (if decide (wi_payload it = 0) then _ else _) as [h2 v] eqn:Hm. specialize (Hnode h2 v eq_refl).
    rewrite bool_decide_eq_true_2 in Hrun by done. cbn [verify mbind result_bind] in Hrun.
    rewrite decide_False by (rewrite Hnode, Hl by (by left); by intros []).
    rewrite Hrun. cbn [mbind result_bind]. eapply IH; [done..|]. intros a Ha. rewrite Hn1 by (by intros ->).
    apply Hl. by right.
  - rewrite decide_True by done. rewrite cnodes_other in Hnd, Hl by done.
    assert (commit_rpc_item part ts h it = Done h) as -> by (unfold commit_rpc_item; by rewrite decide_True).
    cbn [mbind result_bind]. by eapply IH.
Qed.
