(* ===== verification/SiEnd.v ===== *)
(** * DBSI::end: the distributed commit under vector timestamps

    Models [DBSI::end] of src/drtm-dst/src/db/txs/dbsi.cc with the RPC phases of
    src/drtm-dst/src/db/remote_set.cc over a cluster: lock the remote write set, lock
    and validate the local one, take a counter of the own machine, install everywhere
    under the packed word, report the counter to the master of the timestamp service.
    A broadcast is the one of RadEnd.v, the service of machine [p] is [tms p]. *)

From S2P Require Import Prelude LockWord Memstore ClusterHash RadMem DBRad RadWriteSet RadLocal RadRead RemoteSet RadRpc RadRpcSpec RadEnd RadEndSpec RadCommit TSManager DBSI SiSpec SiLocal SiRpc.

Lemma broadcast_ext {St R} (f g : World St → result (World St * R)) to cl :
  (∀ w, f w = g w) → broadcast f to cl = broadcast g to cl.
Proof.
  intros Hfg. revert cl. induction to as [|p to IH]; intros cl; cbn; [done|].
  destruct (server cl p); cbn; [|done..]. rewrite Hfg. destruct (g a) as [[w' r']| |]; cbn; [|done..]. by rewrite IH.
Qed.

Section cluster.
Context {St : Type} `{!Memstore St}.
Context (resync : RemoteWriteItem → list RemoteWriteItem → list RemoteWriteItem).
Abbreviation Cluster := (gmap Z (World St)).

(** ** The RPC phases of [RemoteSet] with DBSI's handlers *)

Definition si_lock_remote (cl : Cluster) (me tid : Z) (rs : RemoteSet) : result (Cluster * RemoteSet * bool) :=
  match lock_msg rs with
  | None => Done (cl, rs, true)
  | Some m =>
      '(cl, replies) ← broadcast (λ w, si_lock_rpc_handler w me tid (rs_cor_id_ rs) m) (m_to m) cl;
      let '(ok, mt) := check_res (max_time_ rs) replies in
      Done (cl, set_max_time rs mt, ok)
  end.

Definition si_release_remote (cl : Cluster) (me tid : Z) (rs : RemoteSet) : result (Cluster * RemoteSet) :=
  match lock_msg rs with
  | None => Done (cl, rs)
  | Some m =>
      '(cl, _) ← broadcast (λ w, w ← si_release_rpc_handler w me tid (rs_cor_id_ rs) m; Done (w, tt)) (m_to m) cl;
      Done (cl, update_write_buf rs)
  end.

Definition si_commit_remote (cl : Cluster) (me tid : Z) (rs : RemoteSet) : result (Cluster * RemoteSet) :=
  om ← commit_msg rs;
  match om with
  | None => Done (cl, rs)
  | Some m =>
      '(cl, _) ← broadcast (λ w, w ← si_commit_rpc_handler2 resync w me tid (rs_cor_id_ rs) m; Done (w, tt)) (m_to m) cl;
      Done (cl, update_write_buf rs)
  end.

(** ** [DBSI::end] *)

(** The label [ABORT] *)
Definition si_end_abort (cl : Cluster) (tms : Z → TSManager) (me : Z) (tx : DBSI) (rs : RemoteSet)
  : result (Cluster * (Z → TSManager) * DBSI * RemoteSet * bool) :=
  '(cl, rs) ← si_release_remote cl me (thread_id tx) rs;
  w ← server cl me;
  h ← ReleaseAllSet (rwset tx) (heap w);
  Done (<[me := set_heap w h]> cl, tms, tx, rs, false).

(** The message of [commit_ts] and [DBSI::update_ts_handler] at the master. *)
Definition send_report (nthreads master : Z) (tms : Z → TSManager) (u : option report) : result (Z → TSManager) :=
  match u with
  | None => Done tms
  | Some u =>
      tm ← ts_update_handler nthreads (tms master) (rep_id u) (rep_thread u) (rep_counter u);
      Done (<[master := tm]> tms)
  end.

Definition si_end_commit (TS_BATCH nthreads master : Z) (cl : Cluster) (tms : Z → TSManager) (me : Z)
    (tx : DBSI) (rs : RemoteSet) : result (Cluster * (Z → TSManager) * DBSI * RemoteSet * bool) :=
  let '(tm, cts, encoded_commit_ts) := get_commit_ts me (tms me) in
  w ← server cl me;
  h ← CommitLocalWrite (rwset tx) (heap w) encoded_commit_ts;
  '(cl, rs) ← si_commit_remote (<[me := set_heap w h]> cl) me (thread_id tx) (set_max_time rs encoded_commit_ts);
  let '(tx, u) := commit_ts TS_BATCH tx me cts in
  tms ← send_report nthreads master (<[me := tm]> tms) u;
  Done (cl, tms, tx, rs, true).

Definition si_end (TS_BATCH nthreads master : Z) (cl : Cluster) (tms : Z → TSManager) (me : Z)
    (tx : DBSI) (rs : RemoteSet) : result (Cluster * (Z → TSManager) * DBSI * RemoteSet * bool) :=
  _ ← verify (negb (abort_ tx));
  '(cl, rs, ok) ← si_lock_remote cl me (thread_id tx) rs;
  if negb ok then si_end_abort cl tms me tx rs
  else
    w ← server cl me;
    let '(ok, h, ws) := LockAllSet (lock_word me tx) (rwset tx) (heap w) in
    let cl := <[me := set_heap w h]> cl in
    let tx := set_rwset tx ws in
    if negb ok then si_end_abort cl tms me tx rs
    else si_end_commit TS_BATCH nthreads master cl tms me tx rs.

(** ** Refinement *)

(** The transaction as DBRad's commit sees it; the timestamp plays no part. *)
Definition as_rad (tx : DBSI) : DBRad.DBRad :=
  mkTx (rwset tx) 1 (thread_id tx) (cor_id_ tx) (abort_ tx).

Context (cl : Cluster) (me : Z) (tx : DBSI) (rs : RemoteSet) (cs ps : Z → Z → list Z) (r : Z → Z → VRecord).
Context (Hready : end_ready cl me (as_rad tx) rs cs ps r).

Local Abbreviation word := (lock_word me tx).
Local Abbreviation lbuf := (lock_request_buf_ rs).
Local Abbreviation wbuf := (write_back_request_buf_ rs).
Local Abbreviation to := (write_servers_ rs).
Local Abbreviation remote_locked := (RadEndSpec.remote_locked cl me (as_rad tx) rs).
Local Abbreviation server_locked := (RadEndSpec.server_locked me (as_rad tx) rs).

Local Lemma si_word_handler : handler_word me (thread_id tx) (rs_cor_id_ rs) = word.
Proof using Hready. apply (word_handler cl me (as_rad tx) rs cs ps r Hready). Qed.

Local Lemma si_num : (0 < length lbuf)%nat → i8 (i8 (write_items_ rs)) = Z.of_nat (length lbuf).
Proof using Hready.
  pose proof (er_count _ _ _ _ _ _ _ Hready) as ->. pose proof (er_max _ _ _ _ _ _ _ Hready).
  intros _. by rewrite !swrap_small by (cbn; rewrite ?swrap_small by (cbn; lia); lia).
Qed.

Local Lemma si_int_items padding : int_items (mkMsg (write_header_msg rs padding) lbuf to) = Done lbuf.
Proof using Hready.
  apply int_items_all; [|apply Hready]. cbn. rewrite (er_count _ _ _ _ _ _ _ Hready).
  pose proof (er_max _ _ _ _ _ _ _ Hready). apply swrap_small; cbn; lia.
Qed.

Lemma si_lock_handler_run p w :
  cl !! p = Some w → (0 < length lbuf)%nat →
  ∃ w' hd ok, si_lock_rpc_handler w me (thread_id tx) (rs_cor_id_ rs) (mkMsg (write_header_msg rs 0) lbuf to) =
    Done (w', hd) ∧ server_locked p w w' ok ∧ num_items_ hd = if ok then 1 else 0.
Proof using Hready.
  intros Hw Hlen. unfold si_lock_rpc_handler. rewrite si_int_items, si_word_handler. cbn [mbind result_bind].
  rewrite (er_part _ _ _ _ _ _ _ Hready _ _ Hw).
  destruct (lock_rpc_loop_total word p lbuf (heap w) 0) as (ok & h' & mt & ns & Hrun & Ho).
  - apply Hready.
  - intros a _. by apply (er_word _ _ _ _ _ _ _ Hready p).
  - rewrite (si_lock_rpc_loop_rad _ _ _ _ _ _ _ _ Hrun). cbn. rewrite si_num by done.
    rewrite bool_decide_eq_true_2 by lia. cbn. eexists _, _, ok. split; [done|]. split; [|done]. by exists h', mt, ns.
Qed.

Lemma si_lock_remote_run :
  ∃ cl1 mt ok, si_lock_remote cl me (thread_id tx) rs = Done (cl1, set_max_time rs mt, ok) ∧
    remote_locked cl1 ok ∧ cl1 !! me = cl !! me.
Proof using Hready.
  destruct (lock_remote_run cl me (as_rad tx) rs cs ps r Hready) as (cl0 & mt0 & ok0 & Hrad & Hlk0 & Hme0).
  unfold si_lock_remote, lock_remote, lock_msg in *. case_decide as Hwi;
    [clear Hrad Hlk0 Hme0|injection Hrad as <- Hmt <-; exists cl, mt0, true; by rewrite Hmt at 1].
  pose proof (er_remote _ _ _ _ _ _ _ Hready) as Hnot. pose proof (er_count _ _ _ _ _ _ _ Hready) as Hc.
  destruct (broadcast_spec (λ w, si_lock_rpc_handler w me (thread_id tx) (rs_cor_id_ rs)
               (mkMsg (write_header_msg rs 0) lbuf to))
             (λ p w w' hd, ∃ ok, server_locked p w w' ok ∧ num_items_ hd = if (ok : bool) then 1 else 0) to cl)
    as (cl1 & l & Hb & Hout & Hin); [apply Hready| |].
  { intros p Hp. destruct (er_known _ _ _ _ _ _ _ Hready p Hp) as [w Hw].
    destruct (si_lock_handler_run p w Hw) as (w' & hd & ok & ? & ? & ?); [lia|]. exists w, w', hd. eauto. }
  cbn [m_to]. rewrite Hb. cbn [mbind result_bind].
  destruct (check_res (max_time_ rs) l) as [ok mt] eqn:Hcr.
  exists cl1, mt, ok. split; [done|]. split; [|by apply Hout].
  split; [by intros; apply Hout|]. intros p Hp. destruct (Hin p Hp) as (w & w' & hd & Hw & Hw' & (okp & Hl & Hn) & Hhd).
  exists w, w', okp. split_and!; [done..|]. intros ->.
  pose proof (check_res_ok (max_time_ rs) l) as Hok. rewrite Hcr in Hok.
  specialize (Hok eq_refl hd Hhd). rewrite Hn in Hok. by destruct okp.
Qed.

Lemma si_release_remote_run cl1 ok mt :
  remote_locked cl1 ok →
  ∃ cl2 rs2, si_release_remote cl1 me (thread_id tx) (set_max_time rs mt) = Done (cl2, rs2) ∧
    (∀ p, p ∉ to → cl2 !! p = cl1 !! p) ∧
    (∀ p, p ∈ to → ∃ w w', cl !! p = Some w ∧ cl2 !! p = Some w' ∧ same_nodes w w').
Proof using Hready.
  intros Hlk. destruct (release_remote_run cl me (as_rad tx) rs cs ps r Hready cl1 ok mt Hlk) as (cl2 & rs2 & Hrel & Hout & Hin).
  exists cl2, rs2. split_and!; [|done..]. revert Hrel. unfold si_release_remote, release_remote, lock_msg.
  cbn [write_items_ set_max_time]. case_decide as Hwi; [|done]. pose proof (er_count _ _ _ _ _ _ _ Hready) as Hc.
  cbn [m_to]. intros Hrel. rewrite <-Hrel. f_equal. apply broadcast_ext. intros w.
  unfold si_release_rpc_handler, release_rpc_handler.
  change (write_header_msg (set_max_time rs mt) 0) with (write_header_msg rs 0). cbn [lock_request_buf_ write_servers_ set_max_time].
  rewrite si_int_items, (lock_header_num cl me (as_rad tx) rs cs ps r Hready).
  cbn [m_header rh_num write_header_msg]. rewrite si_num by lia. rewrite bool_decide_eq_true_2 by lia. done.
Qed.

(** Every record of the message carries the sender's word, so the handler does what
    DBRad's does. *)
Lemma si_commit_handler_run cts p w w1 mt :
  cl !! p = Some w → server_locked p w w1 true → (0 < length lbuf)%nat → 1 < cts →
  ∃ w2, si_commit_rpc_handler2 resync w1 me (thread_id tx) (rs_cor_id_ rs)
      (mkMsg (write_header_msg (set_max_time rs mt) cts) wbuf to) = Done w2 ∧
    server_committed cts p w w2 (abs_remote p cts wbuf (r p)).
Proof using Hready.
  intros Hw Hlk Hlen Hcts.
  destruct (commit_handler_run cl me (as_rad tx) rs cs ps r Hready cts p w w1 mt Hw Hlk Hlen Hcts) as (w2 & hd & Hrun & Hcom).
  exists w2. split; [|done]. unfold commit_rpc_handler2 in Hrun. apply bind_Done in Hrun as (? & _ & Hrun).
  apply bind_Done in Hrun as (items & Hitems & Hrun). apply bind_Done in Hrun as (h & Hloop & [= <- _]).
  unfold si_commit_rpc_handler2. rewrite Hitems. cbn [mbind result_bind].
  assert (items = wbuf) as ->.
  { pose proof (er_count _ _ _ _ _ _ _ Hready) as Hc. pose proof (er_max _ _ _ _ _ _ _ Hready) as Hm.
    pose proof (Forall2_length _ _ _ (er_same _ _ _ _ _ _ _ Hready)) as Hl2.
    rewrite msg_items_all in Hitems; [congruence| |lia]. cbn. rewrite swrap_small; cbn; lia. }
  destruct Hlk as (h' & mt' & ns & -> & [_ Hlk _ Hall _]). rewrite Hall in Hlk by done.
  cbn [heap set_heap] in *. rewrite (er_part _ _ _ _ _ _ _ Hready _ _ Hw : current_partition (set_heap w h') = p) in *.
  destruct (er_rep _ _ _ _ _ _ _ Hready p w Hw) as [Hr Hb].
  rewrite (si_commit_loop_rad _ _ _ _ _ _ (cs p) (ps p) (r p)).
  - cbn [rh_padding m_header write_header_msg] in *. by rewrite Hloop.
  - eapply heap_rep_same_versions; [apply Hlk|intros a; by eapply locked_same_versions|done].
  - unfold brk_above in *. by rewrite (lu_brk _ _ _ _ Hlk), (lu_bufs _ _ _ _ Hlk).
  - apply Hready.
  - done.
  - rewrite (cnodes_lnodes cl me (as_rad tx) rs cs ps r Hready). apply Hready.
  - intros a Ha. rewrite (cnodes_lnodes cl me (as_rad tx) rs cs ps r Hready) in Ha.
    rewrite (lu_node _ _ _ _ Hlk), decide_True by done. cbn. symmetry. apply si_word_handler.
Qed.

Lemma si_commit_remote_run cts cl1 mt :
  remote_locked cl1 true → 1 < cts →
  ∃ cl2 rs2, si_commit_remote cl1 me (thread_id tx) (set_max_time (set_max_time rs mt) cts) = Done (cl2, rs2) ∧
    (∀ p, p ∉ to → cl2 !! p = cl1 !! p) ∧
    (∀ p, p ∈ to → ∃ w w', cl !! p = Some w ∧ cl2 !! p = Some w' ∧
                    server_committed cts p w w' (abs_remote p cts wbuf (r p))).
Proof using Hready.
  intros Hlk Hcts.
  destruct (commit_remote_run cl me (as_rad tx) rs cs ps r Hready cts cl1 mt Hlk Hcts) as (cl0 & rs0 & Hrad & Hout0 & Hin0).
  unfold si_commit_remote, commit_remote, commit_msg in *. cbn [write_items_ set_max_time] in *.
  pose proof (er_count _ _ _ _ _ _ _ Hready) as Hc. pose proof (er_max _ _ _ _ _ _ _ Hready) as Hm.
  case_decide as Hwi; [clear Hrad Hout0 Hin0|exists cl0, rs0; by split_and!].
  rewrite bool_decide_eq_true_2 by (rewrite Hc, swrap_small by (cbn; lia); lia).
  cbn [verify mbind result_bind m_to max_time_ set_max_time write_servers_ write_back_request_buf_ rs_cor_id_].
  destruct Hlk as [Hout Hin].
  destruct (broadcast_spec (λ w, w ← si_commit_rpc_handler2 resync w me (thread_id tx) (rs_cor_id_ rs)
               (mkMsg (write_header_msg (set_max_time (set_max_time rs mt) cts) cts) wbuf to); Done (w, tt))
             (λ p w1 w2 _, ∀ w, cl !! p = Some w →
                server_committed cts p w w2 (abs_remote p cts wbuf (r p))) to cl1)
    as (cl2 & l & Hb & Hout2 & Hin2); [apply Hready| |].
  { intros p Hp. destruct (Hin p Hp) as (w & w1 & okp & Hw & Hw1 & Hl & Hok).
    rewrite (Hok eq_refl) in Hl.
    destruct (si_commit_handler_run cts p w w1 mt Hw Hl) as (w2 & Hr & Hs); [lia|done|].
    exists w1, w2, tt. split_and!; [done| |].
    - change (write_header_msg (set_max_time (set_max_time rs mt) cts) cts) with (write_header_msg (set_max_time rs mt) cts).
      by rewrite Hr.
    - intros w0 Hw0. by simplify_eq. }
  rewrite Hb. cbn. eexists _, _. split; [done|]. split; [done|].
  intros p Hp. destruct (Hin2 p Hp) as (w1 & w2 & _ & _ & Hw2 & Hs & _).
  destruct (Hin p Hp) as (w & _ & _ & Hw & _). exists w, w2. split; [done|]. split; [done|]. by apply Hs.
Qed.

(** ** The whole protocol *)

Local Abbreviation committed := (RadEndSpec.committed cl me (as_rad tx) rs r).
Local Abbreviation restored := (RadEndSpec.restored cl).

Lemma si_end_abort_run cl1 tms ok mt w0 w1 h1 tx1 :
  remote_locked cl1 ok → cl !! me = Some w0 → cl1 !! me = Some w1 → thread_id tx1 = thread_id tx →
  ReleaseAllSet (rwset tx1) (heap w1) = Done h1 → (∀ a, node h1 a = node (heap w0) a) →
  ∃ cl' rs', si_end_abort cl1 tms me tx1 (set_max_time rs mt) = Done (cl', tms, tx1, rs', false) ∧ restored cl'.
Proof using Hready.
  intros Hlk Hme Hme1 Htid Hrel Hn. pose proof (er_remote _ _ _ _ _ _ _ Hready) as Hnot.
  destruct (si_release_remote_run cl1 ok mt Hlk) as (cl2 & rs2 & Hr & Hout & Hin).
  unfold si_end_abort, server. rewrite Htid, Hr. cbn. rewrite Hout, Hme1 by done. cbn. rewrite Hrel. cbn.
  eexists _, _. split; [done|]. intros p. destruct (decide (me = p)) as [<-|Hne].
  - rewrite lookup_insert_eq, Hme. exact Hn.
  - rewrite lookup_insert_ne by done. destruct (decide (p ∈ to)) as [Hp|Hp].
    + destruct (Hin p Hp) as (w & w' & -> & -> & ?). done.
    + destruct Hlk as [Hl _]. rewrite Hout, Hl by done. destruct (cl !! p); [|done]. by intros a.
Qed.

(** What the commit needs of the timestamp service: the reports [us] so far are those
    of counters handed out before. *)
Record clock_ready (n : nat) (nthreads master : Z) (tms : Z → TSManager) (us : list report) : Prop := {
  cr_size : (n ≤ 64)%nat;
  cr_me : 0 ≤ me < Z.of_nat n;
  cr_thread : 0 ≤ thread_id tx < nthreads ∧ thread_id tx < 2 ^ 16;
  cr_batch : 0 ≤ batch_num_ tx;
  cr_local : small (local_ts (tms me));
  cr_vector : vector_ok n us (tms master);
  cr_reports : Forall (report_ok n nthreads) us;
  cr_fresh c : c ∈ counters (Z.to_nat me) us → c < local_ts (tms me);
}.

Definition counter_taken (tms : Z → TSManager) : Z → TSManager :=
  <[me := (get_commit_ts me (tms me)).1.1]> tms.

(** The master takes the report of a counter that was just handed out. *)
Lemma send_report_run n nthreads master tms us :
  clock_ready n nthreads master tms us → let c := local_ts (tms me) in
  ∃ tms', send_report nthreads master (counter_taken tms) (Some (mkReport me (u16 (thread_id tx)) c)) = Done tms' ∧
    local_ts (tms' me) = c + 1 ∧ vector_ok n (us ++ [mkReport me (thread_id tx) c]) (tms' master).
Proof using.
  intros [Hn Hme64 Hth Hbt Hloc Hvo Hus Hfr] c. unfold send_report. cbn [rep_id rep_thread rep_counter].
  rewrite (uwrap_small 16) by lia. set (u := mkReport me (thread_id tx) c).
  assert (Hu64 : u64 (c + 1) = c + 1) by (apply uwrap_small; unfold c; unfold small in Hloc; lia).
  assert (Hvo1 : vector_ok n us (counter_taken tms master)).
  { unfold counter_taken. destruct (decide (me = master)) as [<-|].
    - rewrite fn_lookup_insert. by apply (vector_ok_frame n us (tms me)).
    - by rewrite fn_lookup_insert_ne. }
  destruct (apply_report_ok n nthreads us u (counter_taken tms master)) as (tm' & Happ & Hvo' & Hl' & _ & _);
    [done|done|split; [cbn; lia|by split]| |done|].
  { cbn. intros Hin%Hfr. unfold c in Hin. lia. }
  unfold apply_report in Happ. cbn [rep_id rep_thread rep_counter u] in Happ. rewrite Happ. cbn [mbind result_bind].
  eexists. split; [done|]. rewrite fn_lookup_insert. split; [|done].
  destruct (decide (me = master)) as [<-|Hne].
  - rewrite fn_lookup_insert, Hl'. unfold counter_taken. by rewrite fn_lookup_insert.
  - rewrite fn_lookup_insert_ne by done. unfold counter_taken. by rewrite fn_lookup_insert.
Qed.

Lemma si_end_commit_run n nthreads master tms us cl1 mt w0 h1 ws1 :
  clock_ready n nthreads master tms us →
  remote_locked cl1 true → cl !! me = Some w0 →
  LockAllSet word (rwset tx) (heap w0) = (true, h1, ws1) →
  let c := local_ts (tms me) in
  ∃ cl' tms' tx' rs',
    si_end_commit 1 nthreads master (<[me := set_heap w0 h1]> cl1) tms me (set_rwset tx ws1) (set_max_time rs mt) =
      Done (cl', tms', tx', rs', true) ∧
    committed (SI_ENCODE_TS me c) cl' ∧ local_ts (tms' me) = c + 1 ∧
    vector_ok n (us ++ [mkReport me (thread_id tx) c]) (tms' master).
Proof using Hready.
  intros Hclk Hlk Hme HL c. pose proof (er_remote _ _ _ _ _ _ _ Hready) as Hnot.
  destruct (er_local _ _ _ _ _ _ _ Hready w0 Hme) as (Hf & _ & _).
  destruct (er_rep _ _ _ _ _ _ _ Hready me w0 Hme) as [Hr _].
  pose proof (er_word0 _ _ _ _ _ _ _ Hready) as Hw0.
  destruct (send_report_run n nthreads master tms us Hclk) as (tms' & Hsend & Hloc' & Hvo').
  destruct Hclk as [Hn Hme64 Hth Hbt Hloc _ _ _].
  assert (Hcts : 1 < SI_ENCODE_TS me c) by (rewrite SI_ENCODE_TS_arith; unfold small in Hloc; unfold c; lia).
  destruct (si_lock_commit _ _ _ _ _ _ _ _ (SI_ENCODE_TS me c) Hw0 Hr Hf HL) as (h2 & cs2 & ps2 & Hc & Hrep & Hl).
  unfold si_end_commit. change (get_commit_ts me (tms me)) with ((get_commit_ts me (tms me)).1.1, c, SI_ENCODE_TS me c).
  unfold server. rewrite lookup_insert_eq. cbn [mbind result_bind rwset set_rwset heap set_heap thread_id]. rewrite Hc. cbn [mbind result_bind].
  destruct (si_commit_remote_run (SI_ENCODE_TS me c) (<[me := set_heap (set_heap w0 h1) h2]> (<[me := set_heap w0 h1]> cl1)) mt)
    as (cl2 & rs2 & Hcr & Hout & Hin); [|done|].
  { destruct Hlk as [H1 H2]. split.
    - intros p Hp Hne. rewrite !lookup_insert_ne by done. by apply H1.
    - intros p Hp. rewrite !lookup_insert_ne by (by intros ->). by apply H2. }
  rewrite Hcr. cbn [mbind result_bind]. unfold commit_ts. cbn [batch_num_ set_rwset thread_id].
  rewrite decide_False by lia. fold (counter_taken tms). fold c in Hsend. rewrite Hsend. cbn [mbind result_bind].
  eexists _, _, _, _. split; [done|]. split; [|by split]. intros p.
  destruct (decide (p = me)) as [->|Hne].
  - rewrite Hout, lookup_insert_eq, Hme by done. split; [by exists cs2, ps2|]. apply Hl.
  - destruct (decide (p ∈ to)) as [Hp|Hp].
    + destruct (Hin p Hp) as (w & w' & -> & -> & Hs). apply Hs.
    + rewrite Hout, !lookup_insert_ne by done. destruct Hlk as [H1 _]. rewrite H1 by done.
      destruct (cl !! p) as [w|] eqn:Hw; [|done]. rewrite (abs_remote_nowhere cl me (as_rad tx) rs cs ps r Hready) by done.
      destruct (er_rep _ _ _ _ _ _ _ Hready p w Hw) as [Hrp _]. split; [by exists (cs p), (ps p)|done].
Qed.

Lemma si_end_run n nthreads master tms us :
  clock_ready n nthreads master tms us → let c := local_ts (tms me) in
  ∃ cl' tms' tx' rs' b, si_end 1 nthreads master cl tms me tx rs = Done (cl', tms', tx', rs', b) ∧
    if (b : bool) then
      committed (SI_ENCODE_TS me c) cl' ∧ local_ts (tms' me) = c + 1 ∧
      vector_ok n (us ++ [mkReport me (thread_id tx) c]) (tms' master) ∧
      (∀ p w it, cl !! p = Some w → it ∈ lbuf → lk_pid it = p → n_seq (node (heap w) (lk_node it)) = lk_seq it) ∧
      (∀ w it, cl !! me = Some w → it ∈ kvs (rwset tx) → it_ro it = false →
         n_seq (node (heap w) (it_node it)) = it_seq it)
    else restored cl' ∧ tms' = tms.
Proof using Hready.
  intros Hclk c. destruct (er_home _ _ _ _ _ _ _ Hready) as [w0 Hme].
  destruct (er_local _ _ _ _ _ _ _ Hready w0 Hme) as (Hf & Hlive & _).
  pose proof (er_current _ _ _ _ _ _ _ Hready : ws_current (rwset tx) = -1) as Hcur.
  destruct si_lock_remote_run as (cl1 & mt & ok & Hlock & Hlk & Hme1). rewrite Hme in Hme1.
  unfold si_end. rewrite (er_abort _ _ _ _ _ _ _ Hready : abort_ tx = false). cbn [negb verify mbind result_bind].
  rewrite Hlock. cbn [mbind result_bind]. destruct ok; cbn [negb].
  2:{ destruct (si_end_abort_run cl1 tms false mt w0 w0 (heap w0) tx) as (cl' & rs' & Hrun & Hres); try done.
      - unfold ReleaseAllSet. by rewrite Hcur.
      - exists cl', tms, tx, rs', false. rewrite Hrun. done. }
  unfold server. rewrite Hme1. cbn [mbind result_bind].
  destruct (LockAllSet _ _ _) as [[ok h1] ws1] eqn:HL. destruct ok; cbn [negb].
  - destruct (si_end_commit_run n nthreads master tms us cl1 mt w0 h1 ws1 Hclk Hlk Hme HL) as (cl' & tms' & tx' & rs' & Hrun & Hcom & Hl & Hv).
    exists cl', tms', tx', rs', true. split; [exact Hrun|]. split_and!; [done..| |].
    + intros p w it Hw Hin Hp. destruct Hlk as [_ Hlk].
      destruct (Hlk p) as (w' & w1 & okp & Hw' & _ & (h' & mt' & ns & _ & Ho) & Hok).
      { rewrite <-Hp. by apply (er_pids _ _ _ _ _ _ _ Hready). }
      rewrite (Hok eq_refl) in Ho. simplify_eq. by apply (lo_valid _ _ _ _ _ _ _ _ _ Ho).
    + intros w it Hw Hin Hro. simplify_eq. unfold LockAllSet in HL.
      destruct (lock_loop _ _ _ _ _) as [[ok h'] cur'] eqn:Hk. injection HL as -> -> <-.
      by eapply (SiSpec.si_lock_loop_success _ _ _ _ _ _ _ (er_word0 _ _ _ _ _ _ _ Hready) Hk).
  - destruct (si_lock_release _ _ _ _ _ Hcur Hlive HL) as (h2 & Hrel & Hn).
    destruct (si_end_abort_run (<[me := set_heap w0 h1]> cl1) tms true mt w0 (set_heap w0 h1) h2 (set_rwset tx ws1))
      as (cl' & rs' & Hrun & Hres); try done.
    + destruct Hlk as [H1 H2]. split.
      * intros p Hp Hne. rewrite lookup_insert_ne by done. by apply H1.
      * intros p Hp. rewrite lookup_insert_ne; [by apply H2|]. intros <-.
        by apply (er_remote _ _ _ _ _ _ _ Hready).
    + by rewrite lookup_insert_eq.
    + rewrite Hrun. by eexists _, _, _, _, false.
Qed.
End cluster.

(** ** Samples: the cluster of RadCommit.v, the timestamp service at machine 0 *)

Definition si_local_tx : DBSI := mkSI sample_ws [2; 5; 2; 2] 5 0 false 0.
Definition si_tms : Z → TSManager := λ _, TSManager_new 4.
Definition no_resync (_ : RemoteWriteItem) (rest : list RemoteWriteItem) : list RemoteWriteItem := rest.

Lemma si_sample_ready :
  end_ready sample_cluster 1 (as_rad si_local_tx) sample_rs (λ _, sample_cs) (λ _, sample_ps) (λ _, sample_records).
Proof.
  destruct sample_ready as [H1 H2 H3 H4 H5 H6 H7 H8 H9 H10 H11 H12 H13 H14 H15 H16 H17 H18 H19 H20].
  by split.
Qed.

Lemma si_sample_clock : clock_ready 1 si_local_tx 4 8 0 si_tms [].
Proof. split; cbn; try lia; [done|apply vector_ok_new|constructor|by intros c ?%not_elem_of_nil]. Qed.

(** ** Properties *)

(** C3: [DBSI::end] is atomic and publishes its counter.  Started from a state in which
    the transaction holds no lock it always returns.  If it returns false, every node
    of every server and the timestamp service are as before.  If it returns true, every
    server's records have gained exactly the transaction's versions, all under the word
    of one fresh counter of its machine, every lock is back to what it was, every
    written record still had the version the transaction read, and the master's vector
    is the watermark of the reports with this one added; what the commit handler would
    do with a record that lost its lock ([resync]) does not matter. *)
Theorem si_end_correct {St} `{!Memstore St} resync (cl : gmap Z (World St)) me tx rs cs ps r n nthreads master tms us :
  end_ready cl me (as_rad tx) rs cs ps r → clock_ready me tx n nthreads master tms us →
  let c := local_ts (tms me) in
  ∃ cl' tms' tx' rs' b, si_end resync 1 nthreads master cl tms me tx rs = Done (cl', tms', tx', rs', b) ∧
    if (b : bool) then
      RadEndSpec.committed cl me (as_rad tx) rs r (SI_ENCODE_TS me c) cl' ∧ local_ts (tms' me) = c + 1 ∧
      vector_ok n (us ++ [mkReport me (thread_id tx) c]) (tms' master) ∧
      (∀ p w it, cl !! p = Some w → it ∈ lock_request_buf_ rs → lk_pid it = p →
         n_seq (node (heap w) (lk_node it)) = lk_seq it) ∧
      (∀ w it, cl !! me = Some w → it ∈ kvs (rwset tx) → it_ro it = false →
         n_seq (node (heap w) (it_node it)) = it_seq it)
    else RadEndSpec.restored cl cl' ∧ tms' = tms.
Proof. intros Hr Hc. by eapply si_end_run. Qed.

Lemma si_end_correct_witness :
  (∃ cl' tms' tx' rs', si_end no_resync 1 8 0 sample_cluster si_tms 1 si_local_tx sample_rs =
     Done (cl', tms', tx', rs', true) ∧ ts_buffer (tms' 0) = [2; 3; 2; 2]) ∧
  let c := local_ts (si_tms 1) in
  ∃ cl' tms' tx' rs' b, si_end no_resync 1 8 0 sample_cluster si_tms 1 si_local_tx sample_rs = Done (cl', tms', tx', rs', b) ∧
    if (b : bool) then
      RadEndSpec.committed sample_cluster 1 (as_rad si_local_tx) sample_rs (λ _, sample_records) (SI_ENCODE_TS 1 c) cl' ∧
      local_ts (tms' 1) = c + 1 ∧
      vector_ok 4 ([] ++ [mkReport 1 (thread_id si_local_tx) c]) (tms' 0) ∧
      (∀ p w it, sample_cluster !! p = Some w → it ∈ lock_request_buf_ sample_rs → lk_pid it = p →
         n_seq (node (heap w) (lk_node it)) = lk_seq it) ∧
      (∀ w it, sample_cluster !! 1 = Some w → it ∈ kvs (rwset si_local_tx) → it_ro it = false →
         n_seq (node (heap w) (it_node it)) = it_seq it)
    else RadEndSpec.restored sample_cluster cl' ∧ tms' = si_tms.
Proof.
  split; [by eexists _, _, _, _; vm_compute|].
  apply (si_end_correct no_resync sample_cluster 1 si_local_tx sample_rs (λ _, sample_cs) (λ _, sample_ps)
           (λ _, sample_records) 4 8 0 si_tms []); [apply si_sample_ready|apply si_sample_clock].
Defined.

(** ** Batched reports *)

(** The reports of [k] commits of one transaction object whose counters start at [c]. *)
Fixpoint commit_reports (b : Z) (tx : DBSI) (part : Z) (k : nat) (c : Z) : list report :=
  match k with
  | O => []
  | S k => let '(tx', u) := commit_ts b tx part c in option_list u ++ commit_reports b tx' part k (c + 1)
  end.

Lemma commit_ts_eq b tx part c :
  thread_id (commit_ts b tx part c).1 = thread_id tx ∧
  option_list (commit_ts b tx part c).2 =
    if decide (batch_num_ tx + 1 < b) then [] else [mkReport part (u16 (thread_id tx)) c].
Proof. unfold commit_ts. by case_decide. Qed.

Lemma commit_reports_range b tx part k c u :
  u ∈ commit_reports b tx part k c →
  rep_id u = part ∧ rep_thread u = u16 (thread_id tx) ∧ c ≤ rep_counter u < c + Z.of_nat k.
Proof.
  revert tx c. induction k as [|k IH]; intros tx c; cbn [commit_reports]; [by intros ?%not_elem_of_nil|].
  destruct (commit_ts_eq b tx part c) as [Ht Ho]. destruct (commit_ts b tx part c) as [tx' v]. cbn [fst snd] in *.
  intros [Hin|Hin]%elem_of_app.
  - rewrite Ho in Hin. case_decide; [by apply not_elem_of_nil in Hin|]. apply list_elem_of_singleton in Hin as ->.
    cbn. split_and!; [done..|lia|lia].
  - destruct (IH tx' (c + 1) Hin) as (? & ? & ?). split_and!; [done|congruence|lia|lia].
Qed.

Lemma commit_reports_nodup b tx part k c : NoDup (rep_counter <$> commit_reports b tx part k c).
Proof.
  revert tx c. induction k as [|k IH]; intros tx c; cbn [commit_reports]; [constructor|].
  destruct (commit_ts_eq b tx part c) as [Ht Ho]. destruct (commit_ts b tx part c) as [tx' v]. cbn [fst snd] in *.
  rewrite Ho. case_decide; [apply IH|]. cbn. constructor; [|apply IH].
  intros (u & -> & Hin)%list_elem_of_fmap. apply commit_reports_range in Hin. lia.
Qed.

Lemma counters_nodup i us : NoDup (rep_counter <$> us) → NoDup (counters i us).
Proof.
  unfold counters. rewrite reverse_Permutation. induction us as [|u us IH]; [done|].
  rewrite fmap_cons. intros [Hnin Hnd]%NoDup_cons. rewrite filter_cons. case_decide; [|by apply IH].
  rewrite fmap_cons. constructor; [|by apply IH]. intros (v & Hv & [_ Hin]%list_elem_of_filter)%list_elem_of_fmap.
  apply Hnin. rewrite Hv. by apply list_elem_of_fmap_2.
Qed.

(** Batching the reports stops the vector.  With [TS_BATCH] above 1 a transaction
    object reports only every [TS_BATCH]-th counter, but the per-machine vector advances
    over reports one by one: after any number of commits the handler has accepted every
    report and the machine's entry is still 2, so nothing it commits is ever visible. *)
Theorem batched_reports_stall b tx part k n nthreads :
  1 < b → batch_num_ tx = 0 → (n ≤ 64)%nat → 0 ≤ part < Z.of_nat n → 0 ≤ thread_id tx < nthreads →
  thread_id tx < 2 ^ 16 → 3 + Z.of_nat k < 2 ^ 31 →
  ∃ t, for_each (apply_report nthreads) (commit_reports b tx part k 3) (TSManager_new n) = Done t ∧
    ts_buffer t !! Z.to_nat part = Some 2.
Proof.
  intros Hb Hbatch Hn Hpart Hth Ht16 Hk. set (us := commit_reports b tx part k 3).
  destruct (apply_reports_ok n nthreads us) as (t & Hrun & [Hbuf Hpend He]).
  - done.
  - apply Forall_forall. intros u Hu. destruct (commit_reports_range _ _ _ _ _ _ Hu) as (Hid & Htd & Hc).
    rewrite uwrap_small in Htd by lia. unfold report_ok, small. lia.
  - intros i. apply counters_nodup, commit_reports_nodup.
  - exists t. split; [done|]. destruct (lookup_lt_is_Some_2 (ts_buffer t) (Z.to_nat part)) as [ts Hts]; [lia|].
    destruct (lookup_lt_is_Some_2 (pending_tss_ t) (Z.to_nat part)) as [q Hq]; [lia|]. rewrite Hts. f_equal.
    destruct (He _ _ _ Hts Hq) as [_ (Hge & Hpre & _)]. destruct (decide (ts = 2)) as [|Hne]; [done|]. exfalso.
    specialize (Hpre 3 ltac:(lia)). unfold counters in Hpre. rewrite elem_of_reverse in Hpre.
    apply list_elem_of_fmap in Hpre as (u & Hu3 & [_ Hu]%list_elem_of_filter). unfold us in Hu.
    destruct k as [|k]; [by apply not_elem_of_nil in Hu|]. cbn [commit_reports] in Hu. unfold commit_ts in Hu.
    rewrite decide_True in Hu by lia. cbn in Hu. apply commit_reports_range in Hu. lia.
Qed.

Lemma batched_reports_stall_witness :
  ∃ t, for_each (apply_report 8) (commit_reports 2 si_local_tx 1 6 3) (TSManager_new 4) = Done t ∧
    ts_buffer t !! Z.to_nat 1 = Some 2.
Proof. apply (batched_reports_stall 2 si_local_tx 1 6 4 8); cbn; lia. Defined.
