(* ===== verification/SiModel.v ===== *)
(** * Snapshot-isolation transactions under interleaving

    The transactions of DBSI.v of a whole cluster as a state machine: each step is one
    operation of one transaction or one message of the timestamp service, in any order.
    Records are the abstract ones of RadMem.v (SiSpec.v shows that [get], [get_ro] and
    the commit act on them as used here), the timestamp service is TSManager.v itself.

    Two switches select what the code allows.  [torn]: a vector is copied entry by
    entry with [memcpy] while other threads advance it, so a copy may mix entries of
    different moments; with [torn] false a copy is one of the published vectors.
    [unchecked]: [insert], [delete_] and remote reads take the current version of a
    record without comparing it with the start vector; with [unchecked] false the
    current version is one the vector covers.

    The set of a transaction stands for its local and its remote set.  The code locks
    the remote records before the local ones and writes them back after them; the model
    lets both happen in any order, the second one chosen anew.

    The specification is the textbook one: every transaction has a start time, every
    committed one a commit time, reads return the last write committed by the start,
    and transactions that write the same record do not overlap. *)

From S2P Require Import Prelude LockWord RadMem TSManager RemoteSet DBSI SiSpec.

(** ** State *)

Inductive phase :=
  | Running
  | Locking (k : nat)             (** in [LockAllSet], [k] writes locked *)
  | Committing (c : Z) (k : nat)  (** counter taken, [k] writes installed *)
  | Reported (c : Z)              (** the master knows *)
  | Aborted.

#[export] Instance phase_eq_dec : EqDecision phase.
Proof. solve_decision. Defined.

(** A write: the record, the version it replaces and the value, [None] for a deletion. *)
Record Write := mkWrite { w_key : Z; w_base : Z; w_data : option (list Z) }.
#[export] Instance Write_eq_dec : EqDecision Write.
Proof. solve_decision. Defined.

(** An item of the read and write set. *)
Record Access := mkAccess { a_write : Write; a_ro : bool }.

Record Txn := mkTxn {
  t_mach : nat;
  t_vec : list Z;
  t_reads : list (Z * option (Z * list Z));   (** what the reads returned *)
  t_set : list Access;
  t_writes : list Write;                      (** what the commit writes, in its order *)
  t_phase : phase;
}.

Record Sys := mkSys {
  s_tm : nat → TSManager;       (** one per machine *)
  s_hist : list (list Z);       (** every vector the master has shown, oldest first *)
  s_recs : Z → VRecord;
  s_locks : Z → option nat;
  s_txs : gmap nat Txn;
}.

Definition set_tm (s : Sys) (p : nat) (tm : TSManager) : Sys :=
  mkSys (<[p := tm]> (s_tm s)) (s_hist s) (s_recs s) (s_locks s) (s_txs s).
Definition set_tx (s : Sys) (t : nat) (tx : Txn) : Sys :=
  mkSys (s_tm s) (s_hist s) (s_recs s) (s_locks s) (<[t := tx]> (s_txs s)).
Definition set_locks (s : Sys) (l : Z → option nat) : Sys :=
  mkSys (s_tm s) (s_hist s) (s_recs s) l (s_txs s).
Definition set_rec (s : Sys) (x : Z) (r : VRecord) : Sys :=
  mkSys (s_tm s) (s_hist s) (<[x := r]> (s_recs s)) (s_locks s) (s_txs s).
Definition publish (s : Sys) (V : list Z) : Sys :=
  mkSys (s_tm s) (s_hist s ++ [V]) (s_recs s) (s_locks s) (s_txs s).

Definition to_phase (tx : Txn) (ph : phase) : Txn :=
  mkTxn (t_mach tx) (t_vec tx) (t_reads tx) (t_set tx) (t_writes tx) ph.
Definition add_read (tx : Txn) (x : Z) (res : option (Z * list Z)) : Txn :=
  mkTxn (t_mach tx) (t_vec tx) (t_reads tx ++ [(x, res)]) (t_set tx) (t_writes tx) (t_phase tx).
Definition set_accesses (tx : Txn) (l : list Access) : Txn :=
  mkTxn (t_mach tx) (t_vec tx) (t_reads tx) l (t_writes tx) (t_phase tx).
Definition add_access (tx : Txn) (l : list Access) : Txn := set_accesses tx (t_set tx ++ l).
Definition set_writes (tx : Txn) (ws : list Write) : Txn :=
  mkTxn (t_mach tx) (t_vec tx) (t_reads tx) (t_set tx) ws (t_phase tx).

(** What a transaction will write. *)
Definition staged (tx : Txn) : list Write :=
  omap (λ a, if a_ro a then None else Some (a_write a)) (t_set tx).

(** Mark the first item of a record for writing and change its value. *)
Fixpoint touch (x : Z) (f : option (list Z) → option (list Z)) (l : list Access) : option (list Access) :=
  match l with
  | [] => None
  | a :: l =>
      let w := a_write a in
      if decide (w_key w = x) then Some (mkAccess (mkWrite x (w_base w) (f (w_data w))) false :: l)
      else cons a <$> touch x f l
  end.

Definition keys (ws : list Write) : list Z := w_key <$> ws.

(** Unlock the records of a list of writes. *)
Definition unlock (ks : list Z) (l : Z → option nat) : Z → option nat :=
  λ x, if decide (x ∈ ks) then None else l x.

(** ** Steps *)

Inductive event :=
  | Fetch (p : nat) (V : list Z)
  | Begin (t p : nat)
  | Read (t : nat) (x : Z)                   (** [get] *)
  | ReadRo (t : nat) (x : Z)                 (** [get_ro] *)
  | ReadLatest (t : nat) (x : Z)             (** a remote read *)
  | Update (t : nat) (x : Z) (d : list Z)    (** [write] after the copy was changed to [d] *)
  | Insert (t : nat) (x : Z) (d : list Z)
  | Delete (t : nat) (x : Z)
  | End (t : nat) (ws : list Write)          (** [end] begins, locking in the order [ws] *)
  | Lock (t : nat)
  | Abort (t : nat)
  | Take (t : nat) (ws : list Write)         (** the commit timestamp; writing in the order [ws] *)
  | Install (t : nat)
  | Report (t : nat) (th : Z).

Section system.
Context (n : nat) (nthreads : Z) (master : nat) (torn unchecked : bool).

(** What a copy of the vector may be. *)
Definition copy_ok (hist : list (list Z)) (V : list Z) : Prop :=
  if torn then
    length V = n ∧ Forall (λ i, Exists (λ V', V !! i = V' !! i) hist) (seq 0 n)
  else V ∈ hist.
#[export] Instance copy_ok_dec hist V : Decision (copy_ok hist V).
Proof. unfold copy_ok. destruct torn; apply _. Defined.

(** The newest version, as a remote read or an insertion takes it. *)
Definition latest (r : VRecord) : option (Z * list Z) := (λ d, (v_seq r, d)) <$> v_cur r.

Definition may_take (V : list Z) (r : VRecord) : Prop :=
  unchecked = true ∨ sees V (v_seq r) = true.

(** The items [get] adds: none for a covered version without a value, one at version 1
    when no version is covered. *)
Definition got (V : list Z) (x : Z) (r : VRecord) : list Access :=
  match vread V r with
  | Some (v, d) => [mkAccess (mkWrite x v (Some d)) true]
  | None => if sees V (v_seq r) then [] else [mkAccess (mkWrite x 1 (Some [])) true]
  end.

(** The item of a remote read. *)
Definition got_latest (x : Z) (r : VRecord) : list Access :=
  match v_cur r with Some d => [mkAccess (mkWrite x (v_seq r) (Some d)) true] | None => [] end.

Definition exec (e : event) (s : Sys) : option Sys :=
  match e with
  | Fetch p V =>
      guard (copy_ok (s_hist s) V);;
      Some (set_tm s p (fetch_ts (s_tm s p) V))
  | Begin t p =>
      guard (s_txs s !! t = None);;
      guard (p < n)%nat;;
      Some (set_tx s t (mkTxn p (get_start_ts (s_tm s p)) [] [] [] Running))
  | Read t x =>
      tx ← s_txs s !! t;
      guard (t_phase tx = Running);;
      let r := s_recs s x in
      Some (set_tx s t (add_access (add_read tx x (vread (t_vec tx) r)) (got (t_vec tx) x r)))
  | ReadRo t x =>
      tx ← s_txs s !! t;
      guard (t_phase tx = Running);;
      guard (¬ deleted_at (t_vec tx) (s_recs s x));;
      Some (set_tx s t (add_read tx x (vread (t_vec tx) (s_recs s x))))
  | ReadLatest t x =>
      tx ← s_txs s !! t;
      guard (t_phase tx = Running);;
      guard (may_take (t_vec tx) (s_recs s x));;
      let r := s_recs s x in
      Some (set_tx s t (add_access (add_read tx x (latest r)) (got_latest x r)))
  | Update t x d =>
      tx ← s_txs s !! t;
      guard (t_phase tx = Running);;
      l ← touch x (λ old, _ ← old; Some d) (t_set tx);
      Some (set_tx s t (set_accesses tx l))
  | Insert t x d =>
      tx ← s_txs s !! t;
      guard (t_phase tx = Running);;
      guard (may_take (t_vec tx) (s_recs s x));;
      Some (set_tx s t (add_access tx [mkAccess (mkWrite x (v_seq (s_recs s x)) (Some d)) false]))
  | Delete t x =>
      tx ← s_txs s !! t;
      guard (t_phase tx = Running);;
      match touch x (λ _, None) (t_set tx) with
      | Some l => Some (set_tx s t (set_accesses tx l))
      | None =>
          guard (may_take (t_vec tx) (s_recs s x));;
          Some (set_tx s t (add_access tx [mkAccess (mkWrite x (v_seq (s_recs s x)) None) false]))
      end
  | End t ws =>
      tx ← s_txs s !! t;
      guard (t_phase tx = Running);;
      guard (ws ≡ₚ staged tx);;
      Some (set_tx s t (to_phase (set_writes tx ws) (Locking 0)))
  | Lock t =>
      tx ← s_txs s !! t;
      match t_phase tx with
      | Locking k =>
          w ← t_writes tx !! k;
          guard (s_locks s (w_key w) = None);;
          guard (v_seq (s_recs s (w_key w)) = w_base w);;
          Some (set_tx (set_locks s (<[w_key w := Some t]> (s_locks s))) t (to_phase tx (Locking (S k))))
      | _ => None
      end
  | Abort t =>
      tx ← s_txs s !! t;
      match t_phase tx with
      | Running => Some (set_tx s t (to_phase tx Aborted))
      | Locking k =>
          Some (set_tx (set_locks s (unlock (take k (keys (t_writes tx))) (s_locks s))) t (to_phase tx Aborted))
      | _ => None
      end
  | Take t ws =>
      tx ← s_txs s !! t;
      guard (t_phase tx = Locking (length (t_writes tx)));;
      guard (ws ≡ₚ t_writes tx);;
      let '(tm, c, _) := get_commit_ts (Z.of_nat (t_mach tx)) (s_tm s (t_mach tx)) in
      guard (small c);;
      Some (set_tx (set_tm s (t_mach tx) tm) t (to_phase (set_writes tx ws) (Committing c 0)))
  | Install t =>
      tx ← s_txs s !! t;
      match t_phase tx with
      | Committing c k =>
          w ← t_writes tx !! k;
          let x := w_key w in
          let r := abs_install (SI_ENCODE_TS (Z.of_nat (t_mach tx)) c) (w_data w) (s_recs s x) in
          Some (set_tx (set_locks (set_rec s x r) (unlock [x] (s_locks s))) t (to_phase tx (Committing c (S k))))
      | _ => None
      end
  | Report t th =>
      tx ← s_txs s !! t;
      match t_phase tx with
      | Committing c k =>
          guard (k = length (t_writes tx));;
          match ts_update_handler nthreads (s_tm s master) (Z.of_nat (t_mach tx)) th c with
          | Done tm => Some (set_tx (publish (set_tm s master tm) (ts_buffer tm)) t (to_phase tx (Reported c)))
          | _ => None
          end
      | _ => None
      end
  end.

Fixpoint run (es : list event) (s : Sys) : option Sys :=
  match es with [] => Some s | e :: es => exec e s ≫= run es end.

(** The cluster before the first transaction: loaded records carry a version every
    vector covers. *)
Definition init (r0 : Z → VRecord) : Sys :=
  mkSys (λ _, TSManager_new n) [init_ts_meta n] r0 (λ _, None) ∅.

Definition loaded (r0 : Z → VRecord) : Prop :=
  ∀ x, v_hist (r0 x) = [] ∧ sees (init_ts_meta n) (v_seq (r0 x)) = true.

(** Every event but a deletion. *)
Definition keeps_records (e : event) : Prop := match e with Delete _ _ => False | _ => True end.
#[export] Instance keeps_records_dec e : Decision (keeps_records e).
Proof. destruct e; apply _. Defined.

Definition reachable (r0 : Z → VRecord) (s : Sys) : Prop := ∃ es, run es (init r0) = Some s.
End system.

(** ** Specification *)

(** The counter of a transaction that took one. *)
Definition counter (tx : Txn) : option Z :=
  match t_phase tx with Committing c _ | Reported c => Some c | _ => None end.

(** What is fixed once the counter is taken: machine, start vector, version word and
    writes. *)
Record commit_info := mkInfo { ci_vec : list Z; ci_word : Z; ci_writes : list Write }.
Definition info (s : Sys) (t : nat) : option commit_info :=
  tx ← s_txs s !! t;
  c ← counter tx;
  Some (mkInfo (t_vec tx) (SI_ENCODE_TS (Z.of_nat (t_mach tx)) c) (t_writes tx)).

(** Commit time: the first published vector that covers the transaction. *)
Definition commit_time (s : Sys) (t : nat) : option nat :=
  i ← info s t;
  fst <$> list_find (λ V, sees V (ci_word i) = true) (s_hist s).

Definition writes (s : Sys) (t : nat) (x v : Z) (d : option (list Z)) : Prop :=
  ∃ i w, info s t = Some i ∧ ci_word i = v ∧ w ∈ ci_writes i ∧ w_key w = x ∧ w_data w = d.

(** [res] is the last write of [x] committed by time [k], or the initial value; a
    deletion reads as nothing. *)
Definition last_write (s : Sys) (r0 : Z → VRecord) (x : Z) (k : nat) (res : option (Z * list Z)) : Prop :=
  (∃ t v d c, writes s t x v d ∧ commit_time s t = Some c ∧ (c ≤ k)%nat ∧ res = (λ b, (v, b)) <$> d ∧
     ∀ t' v' d' c', writes s t' x v' d' → commit_time s t' = Some c' → (c' ≤ k)%nat → (c' ≤ c)%nat) ∨
  (res = latest (r0 x) ∧
     ∀ t' v' d' c', writes s t' x v' d' → commit_time s t' = Some c' → (k < c')%nat).

(** [t] committed before [t'] started. *)
Definition precedes (s : Sys) (start : nat → nat) (t t' : nat) : Prop :=
  ∃ c, commit_time s t = Some c ∧ (c ≤ start t')%nat.

Record snapshot_isolation (r0 : Z → VRecord) (s : Sys) (start : nat → nat) : Prop := {
  si_starts t tx : s_txs s !! t = Some tx → s_hist s !! start t = Some (t_vec tx);
  si_commits t c : commit_time s t = Some c → (start t < c)%nat;
  si_reads t tx x res :
    s_txs s !! t = Some tx → (x, res) ∈ t_reads tx → last_write s r0 x (start t) res;
  si_first_committer t t' x v v' d d' :
    t ≠ t' → writes s t x v d → writes s t' x v' d' → precedes s start t t' ∨ precedes s start t' t;
}.
