(* ===== verification/SiInv.v ===== *)
(** * The invariant of snapshot-isolation transactions

    What holds in every state of SiModel.v that is reached without deletions and in
    which insertions and remote reads met versions of the snapshot ([unchecked] false),
    for whole and for torn copies of the vector: the clock (published vectors grow and cover reported transactions only),
    the locks (held by transactions in their commit, protecting the version that was
    validated), the log of each record (one writer per version, each on top of the
    version it had seen) and the reads (still what the start vector shows). *)

From S2P Require Import Prelude LockWord RadMem TSManager DBSI SiSpec SiModel.

(** ** Words and vectors *)

Lemma sees_word V i c :
  Z.of_nat i < 2 ^ 16 → 0 ≤ c < 2 ^ 48 →
  sees V (SI_ENCODE_TS (Z.of_nat i) c) =
  match V !! i with Some e => bool_decide (c ≤ e) | None => false end.
Proof.
  intros Hi Hc. unfold sees. destruct (si_ts_roundtrip (Z.of_nat i) c) as [-> ->]; [lia..|].
  by rewrite Nat2Z.id.
Qed.

Lemma sees_mono V W seq : Forall2 Z.le V W → sees V seq = true → sees W seq = true.
Proof.
  intros Hle. unfold sees. destruct (V !! _) as [e|] eqn:He; [|done].
  destruct (Forall2_lookup_l _ _ _ _ _ Hle He) as (f & -> & Hf).
  rewrite !bool_decide_eq_true. lia.
Qed.

(** ** The parts of a transaction's writes *)

(** Writes whose lock is held. *)
Definition held (tx : Txn) : list Write :=
  match t_phase tx with Locking k => take k (t_writes tx) | Committing _ k => drop k (t_writes tx) | _ => [] end.
(** Writes that are or were locked by the commit under way. *)
Definition claimed (tx : Txn) : list Write :=
  match t_phase tx with
  | Locking k => take k (t_writes tx) | Committing _ _ | Reported _ => t_writes tx | _ => [] end.
Definition installed (tx : Txn) : list Write :=
  match t_phase tx with Committing _ k => take k (t_writes tx) | Reported _ => t_writes tx | _ => [] end.

(** A write on top of a version that the vector covers, with a value. *)
Definition base_ok (V : list Z) (w : Write) : Prop := sees V (w_base w) = true ∧ is_Some (w_data w).

Definition word (tx : Txn) (c : Z) : Z := SI_ENCODE_TS (Z.of_nat (t_mach tx)) c.

Section inv.
Context (n : nat) (nthreads : Z) (master : nat) (torn : bool) (r0 : Z → VRecord).

Definition reported (s : Sys) (i : nat) (c : Z) : Prop :=
  ∃ t tx, s_txs s !! t = Some tx ∧ t_mach tx = i ∧ t_phase tx = Reported c.

Record clock_ok (s : Sys) : Prop := {
  ck_reports : ∃ us, vector_ok n us (s_tm s master) ∧ Forall (report_ok n nthreads) us ∧
    ∀ i c, c ∈ counters i us ↔ reported s i c;
  ck_first : s_hist s !! 0%nat = Some (init_ts_meta n);
  ck_last : last (s_hist s) = Some (ts_buffer (s_tm s master));
  ck_mono i j V W : (i ≤ j)%nat → s_hist s !! i = Some V → s_hist s !! j = Some W → Forall2 Z.le V W;
  ck_fetched p : copy_ok n torn (s_hist s) (fetched_ts_buffer_ (s_tm s p));
  ck_local p : 3 ≤ local_ts (s_tm s p) ≤ 2 ^ 31;
}.

(** One transaction against the shared state. *)
Record tx_ok (s : Sys) (t : nat) (tx : Txn) : Prop := {
  to_mach : (t_mach tx < n)%nat;
  to_vec : copy_ok n torn (s_hist s) (t_vec tx);
  to_reads x res : (x, res) ∈ t_reads tx → res = vread (t_vec tx) (s_recs s x);
  to_set a : a ∈ t_set tx → base_ok (t_vec tx) (a_write a);
  to_bases w : w ∈ t_writes tx → base_ok (t_vec tx) w;
  to_counter c : counter tx = Some c →
    small c ∧ c < local_ts (s_tm s (t_mach tx)) ∧ sees (t_vec tx) (word tx c) = false;
  to_nodup : NoDup (keys (claimed tx));
  to_held w : w ∈ held tx → s_locks s (w_key w) = Some t ∧ v_seq (s_recs s (w_key w)) = w_base w;
}.

(** The history of a record: the writers of its versions, newest first. *)
Inductive log_rec (s : Sys) (x : Z) : list nat → VRecord → Prop :=
  | log_nil : log_rec s x [] (r0 x)
  | log_cons t i w l r :
      log_rec s x l r → info s t = Some i → w ∈ ci_writes i → w_key w = x →
      w_base w = v_seq r → base_ok (ci_vec i) w →
      log_rec s x (t :: l) (abs_install (ci_word i) (w_data w) r).

Definition log_ok (s : Sys) (x : Z) : Prop :=
  ∃ l, log_rec s x l (s_recs s x) ∧
    ∀ t, t ∈ l ↔ ∃ tx, s_txs s !! t = Some tx ∧ x ∈ keys (installed tx).

Record Inv (s : Sys) : Prop := {
  iv_clock : clock_ok s;
  iv_tx t tx : s_txs s !! t = Some tx → tx_ok s t tx;
  iv_lock x t : s_locks s x = Some t → ∃ tx, s_txs s !! t = Some tx ∧ x ∈ keys (held tx);
  iv_uniq t t' tx tx' c : s_txs s !! t = Some tx → s_txs s !! t' = Some tx' →
    t_mach tx = t_mach tx' → counter tx = Some c → counter tx' = Some c → t = t';
  iv_log x : log_ok s x;
}.

(** ** Copies of the vector *)

Lemma copy_ok_app hist V W : copy_ok n torn hist V → copy_ok n torn (hist ++ [W]) V.
Proof.
  unfold copy_ok. destruct torn; [|intros; apply elem_of_app; by left]. intros [Hl Hf]. split; [done|].
  eapply Forall_impl; [done|]. intros i Hi. apply Exists_app. by left.
Qed.

(** An entry of a copy was published. *)
Lemma copy_entry hist V i e :
  (i < n)%nat → copy_ok n torn hist V → V !! i = Some e → ∃ V', V' ∈ hist ∧ V' !! i = Some e.
Proof.
  unfold copy_ok. intros Hi Hc He. destruct torn; [|eauto]. destruct Hc as [_ Hf].
  rewrite Forall_forall in Hf. specialize (Hf i). rewrite elem_of_seq in Hf.
  specialize (Hf ltac:(lia)). apply Exists_exists in Hf as (V' & Hin & Heq). exists V'. split; [done|congruence].
Qed.

Lemma small_word V i c :
  (n ≤ 64)%nat → (i < n)%nat → small c → sees V (SI_ENCODE_TS (Z.of_nat i) c) =
  match V !! i with Some e => bool_decide (c ≤ e) | None => false end.
Proof.
  intros Hn Hi [? ?]. apply sees_word; lia.
Qed.

(** A version that some copy covers was reported. *)
Lemma seen_reported s V i c :
  (n ≤ 64)%nat → clock_ok s → copy_ok n torn (s_hist s) V → (i < n)%nat → small c →
  sees V (SI_ENCODE_TS (Z.of_nat i) c) = true → reported s i c.
Proof.
  intros Hn Hck HV Hi Hc. rewrite small_word by done. destruct (V !! i) as [e|] eqn:He; [|done].
  rewrite bool_decide_eq_true. intros Hle.
  destruct (copy_entry _ _ _ _ Hi HV He) as (V' & Hin & He').
  apply list_elem_of_lookup in Hin as [j Hj].
  destruct (ck_reports _ Hck) as (us & Hvo & _ & Hus). apply Hus.
  pose proof (ck_last _ Hck) as Hl. rewrite last_lookup in Hl.
  assert (Hle' : Forall2 Z.le V' (ts_buffer (s_tm s master))).
  { eapply (ck_mono _ Hck); [|done|done]. apply lookup_lt_Some in Hj. lia. }
  destruct (Forall2_lookup_l _ _ _ _ _ Hle' He') as (f & Hf & ?).
  destruct (lookup_lt_is_Some_2 (pending_tss_ (s_tm s master)) i) as [q Hq].
  { rewrite (vo_pend _ _ _ Hvo), <-(vo_buf _ _ _ Hvo). by eapply lookup_lt_Some. }
  destruct (vo_entry _ _ _ Hvo i f q Hf Hq) as [Ho _]. apply (eo_prefix _ _ _ Ho). destruct Hc. lia.
Qed.

(** What the first vector covers every copy covers. *)
Lemma copy_sees_init s V v :
  clock_ok s → copy_ok n torn (s_hist s) V → sees (init_ts_meta n) v = true → sees V v = true.
Proof.
  intros Hck HV. unfold sees. destruct (init_ts_meta n !! _) as [e|] eqn:He; [|done].
  apply lookup_replicate in He as [-> Hlt]. set (i := Z.to_nat (SI_GET_SERVER v)) in *.
  assert (∃ e, V !! i = Some e ∧ 2 ≤ e) as (e & -> & Hle); [|rewrite !bool_decide_eq_true; lia].
  assert (Hmono : ∀ W, W ∈ s_hist s → ∃ e, W !! i = Some e ∧ 2 ≤ e).
  { intros W [j Hj]%list_elem_of_lookup.
    pose proof (ck_mono _ Hck 0 j _ _ ltac:(lia) (ck_first _ Hck) Hj) as Hall.
    destruct (Forall2_lookup_l _ _ _ i 2 Hall) as (e & ? & ?); [by apply lookup_replicate|by exists e]. }
  unfold copy_ok in HV. destruct torn; [|by apply Hmono]. destruct HV as [Hl Hf].
  rewrite Forall_forall in Hf. specialize (Hf i ltac:(apply elem_of_seq; lia)).
  apply Exists_exists in Hf as (W & HW & ->). by apply Hmono.
Qed.

(** ** Frames *)

Lemma log_rec_frame s s' x l r :
  (∀ t i, info s t = Some i → info s' t = Some i) → log_rec s x l r → log_rec s' x l r.
Proof. intros Hi. induction 1; econstructor; eauto. Qed.

Lemma log_rec_cur s x l r : log_rec s x l r → v_cur r ≠ None ∨ l = [] ∧ r = r0 x.
Proof. destruct 1 as [|t i w l r _ _ _ _ _ [_ [d Hd]]]; [by right|left]. cbn. by rewrite Hd. Qed.

Lemma info_tx s t tx : s_txs s !! t = Some tx → info s t =
  c ← counter tx; Some (mkInfo (t_vec tx) (word tx c) (t_writes tx)).
Proof. intros H. unfold info. by rewrite H. Qed.

Lemma info_other s s' t' :
  s_txs s' !! t' = s_txs s !! t' → info s' t' = info s t'.
Proof. intros H. unfold info. by rewrite H. Qed.

Lemma info_set_tx s t tx : info (set_tx s t tx) t = c ← counter tx; Some (mkInfo (t_vec tx) (word tx c) (t_writes tx)).
Proof. apply info_tx. apply lookup_insert_eq. Qed.

Lemma tx_ok_frame s s' t tx :
  (∀ V, copy_ok n torn (s_hist s) V → copy_ok n torn (s_hist s') V) →
  (∀ x, vread (t_vec tx) (s_recs s' x) = vread (t_vec tx) (s_recs s x)) →
  (∀ x, x ∈ keys (held tx) → s_locks s' x = s_locks s x ∧ v_seq (s_recs s' x) = v_seq (s_recs s x)) →
  (∀ p, local_ts (s_tm s p) ≤ local_ts (s_tm s' p)) →
  tx_ok s t tx → tx_ok s' t tx.
Proof.
  intros Hh Hr Hl Ht [H1 H2 H3 H4 H4' H5 H6 H7]. split; [done|by apply Hh| |done|done| |done|].
  - intros x res Hin. rewrite Hr. by apply H3.
  - intros c Hc. destruct (H5 c Hc) as (? & ? & ?). specialize (Ht (t_mach tx)). split_and!; [done|lia|done].
  - intros w Hw. destruct (Hl (w_key w)) as [-> ->]; [|by apply H7]. by apply list_elem_of_fmap_2.
Qed.

Lemma tx_ok_set_tx s t t' tx tx' : tx_ok s t tx → tx_ok (set_tx s t' tx') t tx.
Proof. by apply tx_ok_frame. Qed.

Lemma installed_counter tx x : x ∈ keys (installed tx) → is_Some (counter tx).
Proof. unfold installed, counter. destruct (t_phase tx); cbn; eauto; by intros ?%not_elem_of_nil. Qed.

(** Reports are transactions in their last phase. *)
Lemma reported_frame s s' t :
  (∀ t', t' ≠ t → s_txs s' !! t' = s_txs s !! t') →
  (∀ tx c, s_txs s !! t = Some tx → t_phase tx ≠ Reported c) →
  (∀ tx c, s_txs s' !! t = Some tx → t_phase tx ≠ Reported c) →
  ∀ i c, reported s' i c ↔ reported s i c.
Proof.
  intros Ho H H' i c. unfold reported. split; intros (t' & tx & Ht & Hm & Hp).
  - assert (t' ≠ t) by (intros ->; by apply (H' tx c)). exists t', tx. by rewrite <-Ho.
  - assert (t' ≠ t) by (intros ->; by apply (H tx c)). exists t', tx. by rewrite Ho.
Qed.

(** Counters stay distinct when one transaction changes and keeps its own. *)
Lemma uniq_frame s s' t tx' :
  Inv s → s_txs s' = <[t := tx']> (s_txs s) →
  (∀ c, counter tx' = Some c → ∃ tx, s_txs s !! t = Some tx ∧ t_mach tx = t_mach tx' ∧ counter tx = Some c) →
  ∀ t1 t2 tx1 tx2 c, s_txs s' !! t1 = Some tx1 → s_txs s' !! t2 = Some tx2 →
    t_mach tx1 = t_mach tx2 → counter tx1 = Some c → counter tx2 = Some c → t1 = t2.
Proof.
  intros Hi -> Hc t1 t2 tx1 tx2 c H1 H2 Hm Hc1 Hc2.
  assert (Hback : ∀ t0 tx0, <[t := tx']> (s_txs s) !! t0 = Some tx0 → counter tx0 = Some c →
            ∃ tx, s_txs s !! t0 = Some tx ∧ t_mach tx = t_mach tx0 ∧ counter tx = Some c).
  { intros t0 tx0 [[<- <-]|[? ?]]%lookup_insert_Some Hcx; [by apply Hc|by exists tx0]. }
  destruct (Hback _ _ H1 Hc1) as (y1 & ? & ? & ?), (Hback _ _ H2 Hc2) as (y2 & ? & ? & ?).
  eapply (iv_uniq _ Hi); [done..| |done|done]. congruence.
Qed.

(** The log of a record does not move when a transaction keeps its installed writes. *)
Lemma log_frame s s' t tx' x :
  log_ok s x → s_txs s' = <[t := tx']> (s_txs s) → s_recs s' x = s_recs s x →
  (∀ i, info s t = Some i → info s' t = Some i) →
  (x ∈ keys (installed tx') ↔ ∃ tx, s_txs s !! t = Some tx ∧ x ∈ keys (installed tx)) →
  log_ok s' x.
Proof.
  intros (l & Hl & Hm) Htx Hr Hinfo Hin. exists l. split.
  - rewrite Hr. eapply log_rec_frame; [|exact Hl]. intros t' i Hti.
    destruct (decide (t = t')) as [<-|]; [by apply Hinfo|]. rewrite <-Hti. apply info_other.
    rewrite Htx. by apply lookup_insert_ne.
  - intros t'. rewrite Hm, Htx. destruct (decide (t = t')) as [<-|]; [|by rewrite lookup_insert_ne].
    rewrite lookup_insert_eq, <-Hin. naive_solver.
Qed.

Lemma clock_frame s s' :
  clock_ok s → (∀ p, s_tm s' p = s_tm s p) → s_hist s' = s_hist s →
  (∀ i c, reported s' i c ↔ reported s i c) → clock_ok s'.
Proof.
  intros [(us & H1 & H2 & H3) H0 H4 H5 H6 H7] Htm Hh Hrep. split.
  - exists us. rewrite Htm. split_and!; [done..|]. intros i c. by rewrite Hrep, H3.
  - by rewrite Hh.
  - by rewrite Hh, Htm.
  - rewrite Hh. done.
  - intros p. by rewrite Hh, Htm.
  - intros p. by rewrite Htm.
Qed.

Lemma info_counterless s t : (∀ tx, s_txs s !! t = Some tx → counter tx = None) → info s t = None.
Proof. intros H. unfold info. destruct (s_txs s !! t) as [tx|]; [|done]. cbn. by rewrite (H tx). Qed.

(** A step of a transaction without a counter: it may take or give back locks. *)
Lemma inv_set_tx_locks s t tx' l' :
  Inv s → tx_ok (set_locks s l') t tx' → counter tx' = None →
  (∀ tx, s_txs s !! t = Some tx → counter tx = None) →
  (∀ t' tx x, t' ≠ t → s_txs s !! t' = Some tx → x ∈ keys (held tx) → l' x = s_locks s x) →
  (∀ x t', l' x = Some t' → if decide (t' = t) then x ∈ keys (held tx') else s_locks s x = Some t') →
  Inv (set_tx (set_locks s l') t tx').
Proof.
  intros Hi Hok Hc Hold Hoth Hl.
  assert (Hinst : ∀ x, x ∈ keys (installed tx') ↔ ∃ tx, s_txs s !! t = Some tx ∧ x ∈ keys (installed tx)).
  { intros x. split; [intros Hx%installed_counter; rewrite Hc in Hx; by destruct Hx|].
    intros (tx & Ht & Hx%installed_counter). rewrite (Hold tx Ht) in Hx. by destruct Hx. }
  split.
  - eapply clock_frame; [apply Hi|done..|]. apply (reported_frame s _ t).
    + intros t' Hne. cbn. by rewrite lookup_insert_ne.
    + intros tx c Ht Hp. specialize (Hold tx Ht). unfold counter in Hold. by rewrite Hp in Hold.
    + intros tx c. cbn. rewrite lookup_insert_eq. intros [= <-] Hp. unfold counter in Hc. by rewrite Hp in Hc.
  - intros t' tx. cbn. intros [[<- <-]|[Hne Ht]]%lookup_insert_Some; apply tx_ok_set_tx; [done|].
    apply (tx_ok_frame s); [done..| |done|by apply (iv_tx _ Hi)]. intros x Hx. cbn. split; [|done].
    by eapply Hoth.
  - intros x t' Hx. cbn in Hx |- *. specialize (Hl x t' Hx). case_decide as Hd.
    + subst. exists tx'. by rewrite lookup_insert_eq.
    + destruct (iv_lock _ Hi x t' Hl) as (tx & ? & ?). exists tx. by rewrite lookup_insert_ne.
  - eapply (uniq_frame s); [done|done|]. rewrite Hc. done.
  - intros x. eapply (log_frame s); [apply (iv_log _ Hi)|done|done| |apply Hinst].
    intros i. by rewrite (info_counterless s t).
Qed.

Lemma inv_set_tx s t tx' :
  Inv s → tx_ok s t tx' → counter tx' = None →
  (∀ tx, s_txs s !! t = Some tx → counter tx = None ∧ held tx' = held tx) →
  Inv (set_tx s t tx').
Proof.
  intros Hi Hok Hc Hold. apply (inv_set_tx_locks s t tx' (s_locks s)); [done| |done| |done|].
  - by apply (tx_ok_frame s).
  - intros tx Ht. by apply Hold.
  - intros x t' Hl. case_decide as Hd; [|done]. subst.
    destruct (iv_lock _ Hi x t Hl) as (tx & Ht & Hx). by destruct (Hold tx Ht) as [_ ->].
Qed.

(** The timestamp service of a machine moves on. *)
Lemma inv_set_tm s p tm :
  Inv s → ts_buffer tm = ts_buffer (s_tm s p) → pending_tss_ tm = pending_tss_ (s_tm s p) →
  local_ts (s_tm s p) ≤ local_ts tm ≤ 2 ^ 31 → copy_ok n torn (s_hist s) (fetched_ts_buffer_ tm) →
  Inv (set_tm s p tm).
Proof.
  intros Hi Hb Hp Hl Hf. assert (Htm : ∀ q, s_tm (set_tm s p tm) q = if decide (p = q) then tm else s_tm s q).
  { intros q. cbn. case_decide; subst; [apply fn_lookup_insert|by apply fn_lookup_insert_ne]. }
  assert (Hloc : ∀ q, local_ts (s_tm s q) ≤ local_ts (s_tm (set_tm s p tm) q)).
  { intros q. rewrite Htm. case_decide; subst; lia. }
  split; [|intros t tx Ht|apply (iv_lock _ Hi)|apply (iv_uniq _ Hi)|].
  - destruct (iv_clock _ Hi) as [(us & H1 & H2 & H3) H0 H4 H5 H6 H7]. split; [|done| |done| |].
    + exists us. split_and!; [|done|done]. rewrite Htm. case_decide; [|done]. subst. by eapply vector_ok_frame.
    + rewrite Htm. case_decide; subst; [by rewrite Hb|done].
    + intros q. rewrite Htm. case_decide; [done|apply H6].
    + intros q. rewrite Htm. specialize (H7 q). case_decide; subst; lia.
  - by apply (tx_ok_frame s); [..|apply (iv_tx _ Hi)].
  - intros x. destruct (iv_log _ Hi x) as (l & Hlog & Hm). exists l. split; [|done].
    by apply (log_rec_frame s).
Qed.
End inv.
