(* ===== verification/SiSteps.v ===== *)
(** * Every step keeps the invariant

    One lemma per event of SiModel.v, composed into preservation along runs. *)

From S2P Require Import Prelude LockWord RadMem TSManager DBSI SiSpec SiModel SiInv.

Section steps.
Context (n : nat) (nthreads : Z) (master : nat) (torn : bool) (r0 : Z → VRecord).

Abbreviation Inv := (SiInv.Inv n nthreads master torn r0).
Abbreviation tx_ok := (SiInv.tx_ok n torn).

Lemma init_txs t tx : s_txs (init n r0) !! t = Some tx → False.
Proof. cbn. by rewrite lookup_empty. Qed.

Lemma inv_init : Inv (init n r0).
Proof.
  split.
  - split; cbn.
    + exists []. split_and!; [apply vector_ok_new|constructor|]. intros i c. change (counters i []) with (@nil Z).
      split; [by intros ?%not_elem_of_nil|]. intros (t & tx & []%init_txs & _).
    + done.
    + done.
    + intros i j V W _ Hi Hj. apply list_elem_of_lookup_2, list_elem_of_singleton in Hi, Hj. subst.
      apply Forall2_same_length_lookup_2; [done|]. intros k x y Hx Hy. simplify_eq. lia.
    + intros _. unfold copy_ok. destruct torn; [|by left]. split; [apply length_replicate|].
      apply Forall_forall. intros i _. by constructor.
    + intros _. lia.
  - by intros t tx ?%init_txs.
  - done.
  - by intros t t' tx tx' c ?%init_txs.
  - intros x. exists []. split; [constructor|]. intros t. split; [by intros ?%not_elem_of_nil|].
    by intros (tx & ?%init_txs & _).
Qed.

(** ** Reads and staged writes *)

Lemma latest_vread V r : sees V (v_seq r) = true → latest r = vread V r.
Proof. intros H. unfold vread. by rewrite H. Qed.

Lemma running_held tx : t_phase tx = Running → held tx = [] ∧ claimed tx = [] ∧ counter tx = None.
Proof. intros H. unfold held, claimed, counter. by rewrite H. Qed.

Lemma inv_running s t tx tx' :
  Inv s → s_txs s !! t = Some tx → t_phase tx = Running → t_phase tx' = Running →
  t_mach tx' = t_mach tx → t_vec tx' = t_vec tx → t_writes tx' = t_writes tx →
  (∀ x res, (x, res) ∈ t_reads tx' → res = vread (t_vec tx) (s_recs s x)) →
  (∀ a, a ∈ t_set tx' → base_ok (t_vec tx) (a_write a)) →
  Inv (set_tx s t tx').
Proof.
  intros Hi Ht Hp Hp' Hm Hv Hws Hrd Hw. destruct (running_held tx Hp) as (Hh & _ & Hc).
  destruct (running_held tx' Hp') as (Hh' & Hcl' & Hc'). destruct (iv_tx _ _ _ _ _ _ Hi t tx Ht).
  apply inv_set_tx; [done| |done|].
  - split; rewrite ?Hm, ?Hv, ?Hws; [done..| | |].
    + by rewrite Hc'.
    + rewrite Hcl'. constructor.
    + rewrite Hh'. by intros w ?%not_elem_of_nil.
  - intros tx0 Ht0. rewrite Ht in Ht0. injection Ht0 as <-. by rewrite Hh, Hh'.
Qed.

(** A read, with the items it adds to the set. *)
Lemma inv_add_read s t tx x l :
  Inv s → s_txs s !! t = Some tx → t_phase tx = Running →
  (∀ a, a ∈ l → base_ok (t_vec tx) (a_write a)) →
  Inv (set_tx s t (add_access (add_read tx x (vread (t_vec tx) (s_recs s x))) l)).
Proof.
  intros Hi Ht Hp Hl. destruct (iv_tx _ _ _ _ _ _ Hi t tx Ht). eapply inv_running; try done.
  - intros x' res [Hin|Heq%list_elem_of_singleton]%elem_of_app; [by apply to_reads|]. by simplify_eq.
  - intros a [Hin|Hin]%elem_of_app; [by apply to_set|by apply Hl].
Qed.

Lemma inv_add_access s t tx a :
  Inv s → s_txs s !! t = Some tx → t_phase tx = Running → base_ok (t_vec tx) (a_write a) →
  Inv (set_tx s t (add_access tx [a])).
Proof.
  intros Hi Ht Hp Ha. destruct (iv_tx _ _ _ _ _ _ Hi t tx Ht). eapply inv_running; try done.
  intros a' [Hin|Heq%list_elem_of_singleton]%elem_of_app; [by apply to_set|]. by subst.
Qed.

(** The items of [get] are on top of covered versions. *)
Lemma got_ok s tx t x a :
  Inv s → s_txs s !! t = Some tx → a ∈ got (t_vec tx) x (s_recs s x) → base_ok (t_vec tx) (a_write a).
Proof.
  intros Hi Ht. destruct (iv_tx _ _ _ _ _ _ Hi t tx Ht) as [Hm HV]. unfold got.
  destruct (vread _ _) as [[v d]|] eqn:Hr; [|destruct (sees _ _); [by intros ?%not_elem_of_nil|]];
    intros ->%list_elem_of_singleton; (split; [cbn|by eexists]).
  - by eapply vread_sees.
  - eapply copy_sees_init; [apply Hi|done|]. unfold sees. change (Z.to_nat (SI_GET_SERVER 1)) with 0%nat.
    unfold init_ts_meta. rewrite lookup_replicate_2 by lia. done.
Qed.

Lemma got_latest_ok V x r a : sees V (v_seq r) = true → a ∈ got_latest x r → base_ok V (a_write a).
Proof.
  unfold got_latest. intros Hs. destruct (v_cur r) as [d|]; [|by intros ?%not_elem_of_nil].
  intros ->%list_elem_of_singleton. split; [done|by eexists].
Qed.

(** Marking an item keeps what it is on top of. *)
Lemma touch_ok V x f l l' :
  (∀ o, is_Some o → is_Some (f o)) → touch x f l = Some l' →
  (∀ a, a ∈ l → base_ok V (a_write a)) → ∀ a, a ∈ l' → base_ok V (a_write a).
Proof.
  intros Hf. revert l'. induction l as [|b l IH]; intros l' Ht Hl a; cbn in Ht; [done|]. case_decide.
  - injection Ht as <-. intros [->|Hin]%elem_of_cons; [|apply Hl; by right].
    destruct (Hl b) as [Hs Hd]; [by left|]. split; [done|by apply Hf].
  - apply fmap_Some in Ht as (l0 & Ht & ->). intros [->|Hin]%elem_of_cons; [apply Hl; by left|].
    eapply IH; [done| |done]. intros c Hc. apply Hl. by right.
Qed.

(** ** Locks *)

Lemma keys_take k ws : keys (take k ws) = take k (keys ws).
Proof. apply fmap_take. Qed.

Lemma inv_lock s t tx k w :
  Inv s → s_txs s !! t = Some tx → t_phase tx = Locking k → t_writes tx !! k = Some w →
  s_locks s (w_key w) = None → v_seq (s_recs s (w_key w)) = w_base w →
  Inv (set_tx (set_locks s (<[w_key w := Some t]> (s_locks s))) t (to_phase tx (Locking (S k)))).
Proof.
  intros Hi Ht Hp Hw Hfree Hseq. destruct (iv_tx _ _ _ _ _ _ Hi t tx Ht) as [H1 H2 H3 H4 H4' H5 H6 H7].
  assert (Hheld : held tx = take k (t_writes tx)) by (unfold held; by rewrite Hp).
  assert (Hother : ∀ t' tx' x, s_txs s !! t' = Some tx' → x ∈ keys (held tx') → w_key w ≠ x).
  { intros t' tx' x Ht' (w' & -> & Hin)%list_elem_of_fmap Heq.
    destruct (to_held _ _ _ _ _ (iv_tx _ _ _ _ _ _ Hi t' tx' Ht') w' Hin). congruence. }
  assert (Hh' : held (to_phase tx (Locking (S k))) = take k (t_writes tx) ++ [w])
    by (unfold held; cbn; by apply take_S_r).
  apply inv_set_tx_locks; [done| |done| | |].
  - split; try done.
    + unfold claimed. cbn [t_phase t_writes to_phase]. rewrite (take_S_r _ _ _ Hw). unfold keys. rewrite fmap_app. apply NoDup_app.
      unfold claimed in H6. rewrite Hp in H6. split_and!; [done| |apply NoDup_singleton].
      intros x Hx ->%list_elem_of_singleton. rewrite <-Hheld in Hx. by apply (Hother t tx (w_key w)).
    + intros w' Hin. rewrite Hh' in Hin. cbn. apply elem_of_app in Hin as [Hin| ->%list_elem_of_singleton].
      * rewrite <-Hheld in Hin. rewrite fn_lookup_insert_ne; [by apply H7|].
        eapply (Hother t tx); [done|]. by apply list_elem_of_fmap_2.
      * by rewrite fn_lookup_insert.
  - intros tx0 Ht0. rewrite Ht in Ht0. injection Ht0 as <-. unfold counter. by rewrite Hp.
  - intros t' tx' x Hne Ht' Hx. apply fn_lookup_insert_ne. by eapply Hother.
  - intros x t' Hl. destruct (decide (w_key w = x)) as [<-|Hne].
    + rewrite fn_lookup_insert in Hl. injection Hl as <-. rewrite decide_True, Hh' by done.
      unfold keys. rewrite fmap_app. apply elem_of_app. right. by left.
    + rewrite fn_lookup_insert_ne in Hl by done. case_decide; [subst|done].
      destruct (iv_lock _ _ _ _ _ _ Hi x t Hl) as (tx0 & Ht0 & Hx). rewrite Ht in Ht0. injection Ht0 as <-.
      rewrite Hh'. unfold keys. rewrite fmap_app. apply elem_of_app. left. by rewrite <-Hheld.
Qed.

Lemma inv_abort_locking s t tx k :
  Inv s → s_txs s !! t = Some tx → t_phase tx = Locking k →
  Inv (set_tx (set_locks s (unlock (take k (keys (t_writes tx))) (s_locks s))) t (to_phase tx Aborted)).
Proof.
  intros Hi Ht Hp. destruct (iv_tx _ _ _ _ _ _ Hi t tx Ht) as [H1 H2 H3 H4 H4' H5 H6 H7].
  assert (Hheld : held tx = take k (t_writes tx)) by (unfold held; by rewrite Hp).
  rewrite <-keys_take, <-Hheld. apply inv_set_tx_locks; [done| |done| | |].
  - split; try done; [constructor|]. by intros w ?%not_elem_of_nil.
  - intros tx0 Ht0. rewrite Ht in Ht0. injection Ht0 as <-. unfold counter. by rewrite Hp.
  - intros t' tx' x Hne Ht' Hx. unfold unlock. rewrite decide_False; [done|].
    intros (w & -> & Hw)%list_elem_of_fmap. apply list_elem_of_fmap in Hx as (w' & Heq & Hw').
    destruct (H7 w Hw) as [Hl _].
    destruct (to_held _ _ _ _ _ (iv_tx _ _ _ _ _ _ Hi t' tx' Ht') w' Hw') as [Hl' _]. congruence.
  - intros x t' Hl. unfold unlock in Hl. destruct (decide (x ∈ keys (held tx))) as [|Hx]; [done|].
    case_decide; [subst|done]. destruct (iv_lock _ _ _ _ _ _ Hi x t Hl) as (tx0 & Ht0 & ?).
    rewrite Ht in Ht0. by injection Ht0 as <-.
Qed.

(** ** The counter *)

(** Nobody can see a counter that has not been handed out. *)
Lemma fresh_unseen s V i c :
  (n ≤ 64)%nat → Inv s → copy_ok n torn (s_hist s) V → (i < n)%nat → small c →
  local_ts (s_tm s i) ≤ c → sees V (SI_ENCODE_TS (Z.of_nat i) c) = false.
Proof.
  intros Hn Hi HV Hm Hc Hl. destruct (sees _ _) eqn:Hs; [|done]. exfalso.
  destruct (seen_reported _ _ _ _ s V i c Hn (iv_clock _ _ _ _ _ _ Hi) HV Hm Hc Hs) as (t & tx & Ht & Hmach & Hp).
  destruct (to_counter _ _ _ _ _ (iv_tx _ _ _ _ _ _ Hi t tx Ht) c) as (_ & Hlt & _);
    [unfold counter; by rewrite Hp|]. rewrite Hmach in Hlt. lia.
Qed.

(** Nor one whose transaction has not reported. *)
Lemma committing_unseen s V t tx c k :
  (n ≤ 64)%nat → Inv s → s_txs s !! t = Some tx → t_phase tx = Committing c k →
  copy_ok n torn (s_hist s) V → sees V (word tx c) = false.
Proof.
  intros Hn Hi Ht Hp HV. destruct (sees _ _) eqn:Hs; [|done]. exfalso.
  assert (Hc : counter tx = Some c) by (unfold counter; by rewrite Hp).
  destruct (iv_tx _ _ _ _ _ _ Hi t tx Ht) as [Hm _ _ _ _ Hcnt _ _]. destruct (Hcnt c Hc) as (Hsm & _ & _).
  destruct (seen_reported _ _ _ _ s V (t_mach tx) c Hn (iv_clock _ _ _ _ _ _ Hi) HV Hm Hsm Hs)
    as (t' & tx' & Ht' & Hmach & Hp').
  assert (t' = t) as ->; [|congruence].
  eapply (iv_uniq _ _ _ _ _ _ Hi); [done|done|done| |done]. unfold counter. by rewrite Hp'.
Qed.

Lemma inv_take s t tx tm c wd ws :
  (n ≤ 64)%nat → Inv s → s_txs s !! t = Some tx → t_phase tx = Locking (length (t_writes tx)) →
  ws ≡ₚ t_writes tx →
  get_commit_ts (Z.of_nat (t_mach tx)) (s_tm s (t_mach tx)) = (tm, c, wd) → small c →
  Inv (set_tx (set_tm s (t_mach tx) tm) t (to_phase (set_writes tx ws) (Committing c 0))).
Proof.
  intros Hn Hi Ht Hp Hws Hget Hsm. set (m := t_mach tx) in *.
  destruct (iv_tx _ _ _ _ _ _ Hi t tx Ht) as [H1 H2 H3 H4 H4' H5 H6 H7].
  pose proof (ck_local _ _ _ _ _ (iv_clock _ _ _ _ _ _ Hi) m) as Hloc.
  unfold get_commit_ts, TSManager.get_commit_ts in Hget. injection Hget as <- <- _.
  assert (Hu : u64 (local_ts (s_tm s m) + 1) = local_ts (s_tm s m) + 1) by (apply uwrap_small; lia).
  set (s1 := set_tm s m _).
  assert (Hi1 : Inv s1).
  { apply inv_set_tm; [done|done|done| |apply (iv_clock _ _ _ _ _ _ Hi)]. cbn. rewrite Hu. destruct Hsm. lia. }
  assert (Hun : sees (t_vec tx) (word tx (local_ts (s_tm s m))) = false) by (by apply (fresh_unseen s)).
  assert (Hphase : claimed tx = t_writes tx ∧ held tx = t_writes tx)
    by (unfold claimed, held; rewrite Hp; by rewrite firstn_all).
  destruct Hphase as [Hcl Hhd]. rewrite Hcl in H6. rewrite Hhd in H7.
  split.
  - eapply clock_frame; [apply Hi1|done..|]. apply reported_frame with (s := s1) (t := t).
    + intros t' Hne. cbn. by rewrite lookup_insert_ne.
    + intros tx0 c0. cbn. rewrite Ht. intros [= <-]. by rewrite Hp.
    + intros tx0 c0. cbn. rewrite lookup_insert_eq. by intros [= <-].
  - intros t' tx'. cbn. intros [[<- <-]|[Hne Ht']]%lookup_insert_Some; apply tx_ok_set_tx;
      [|by apply (iv_tx _ _ _ _ _ _ Hi1)].
    split; try done; cbn.
    + intros w. rewrite Hws. apply H4'.
    + intros c. cbn. intros [= <-]. rewrite fn_lookup_insert. cbn. rewrite Hu. split_and!; [done|lia|done].
    + unfold claimed. cbn. unfold keys. by rewrite Hws.
    + unfold held. cbn. intros w. rewrite Hws. apply H7.
  - intros x t' Hl. destruct (iv_lock _ _ _ _ _ _ Hi1 x t' Hl) as (tx' & Ht' & Hx). cbn in Ht' |- *.
    destruct (decide (t = t')) as [<-|]; [|exists tx'; by rewrite lookup_insert_ne].
    rewrite Ht in Ht'. injection Ht' as <-. rewrite lookup_insert_eq. eexists. split; [done|].
    rewrite Hhd in Hx. unfold held. cbn. unfold keys. by rewrite Hws.
  - assert (Hnew : ∀ t' tx', s_txs s !! t' = Some tx' → t_mach tx' = m → counter tx' ≠ Some (local_ts (s_tm s m))).
    { intros t' tx' Ht' Hm' Hc'. destruct (to_counter _ _ _ _ _ (iv_tx _ _ _ _ _ _ Hi t' tx' Ht') _ Hc') as (_ & Hlt & _).
      rewrite Hm' in Hlt. lia. }
    intros t1 t2 tx1 tx2 c. cbn. intros [[<- <-]|[? Ht1]]%lookup_insert_Some [[<- <-]|[? Ht2]]%lookup_insert_Some; [done|..].
    + cbn. intros Hm [= <-] Hc. by destruct (Hnew t2 tx2 Ht2).
    + cbn. intros Hm Hc [= <-]. by destruct (Hnew t1 tx1 Ht1).
    + by apply (iv_uniq _ _ _ _ _ _ Hi).
  - intros x. eapply log_frame with (s := s1); [apply (iv_log _ _ _ _ _ _ Hi1)|done|done| |].
    + intros i. unfold info. cbn. rewrite Ht. cbn. unfold counter. by rewrite Hp.
    + split; [by intros ?%not_elem_of_nil|]. intros (tx0 & Ht0 & Hx). cbn in Ht0. rewrite Ht in Ht0.
      injection Ht0 as <-. unfold installed in Hx. rewrite Hp in Hx. by apply not_elem_of_nil in Hx.
Qed.

(** ** Installation *)

Lemma keys_drop_S k ws w x :
  ws !! k = Some w → NoDup (keys ws) → x ∈ keys (drop (S k) ws) ↔ x ∈ keys (drop k ws) ∧ x ≠ w_key w.
Proof.
  intros Hw Hnd. rewrite <-(take_drop_middle _ _ _ Hw) in Hnd. unfold keys in Hnd. rewrite fmap_app in Hnd.
  apply NoDup_app in Hnd as (_ & _ & Hnd). cbn in Hnd. apply NoDup_cons in Hnd as [Hnin _].
  rewrite (drop_S _ _ _ Hw). cbn. rewrite elem_of_cons. unfold keys in *. naive_solver.
Qed.

Lemma keys_take_S k ws w x : ws !! k = Some w → x ∈ keys (take (S k) ws) ↔ x ∈ keys (take k ws) ∨ x = w_key w.
Proof. intros Hw. rewrite (take_S_r _ _ _ Hw). unfold keys. rewrite fmap_app, elem_of_app. cbn. by rewrite list_elem_of_singleton. Qed.

Lemma log_cur s x : loaded n r0 → Inv s → v_cur (s_recs s x) ≠ None ∨ v_hist (s_recs s x) = [].
Proof.
  intros Hload Hi. destruct (iv_log _ _ _ _ _ _ Hi x) as (l & Hl & _).
  apply log_rec_cur in Hl as [|[_ ->]]; [by left|]. right. apply Hload.
Qed.

Section install.
Context (Hn : (n ≤ 64)%nat) (Hload : loaded n r0) (s : Sys) (t : nat) (tx : Txn) (c : Z) (k : nat) (w : Write).
Context (Hi : Inv s) (Ht : s_txs s !! t = Some tx) (Hp : t_phase tx = Committing c k) (Hw : t_writes tx !! k = Some w).

Let x := w_key w.
Let r := abs_install (word tx c) (w_data w) (s_recs s x).
Let s1 := set_locks (set_rec s x r) (unlock [x] (s_locks s)).
Let tx' := to_phase tx (Committing c (S k)).

Local Lemma inst_counter : counter tx = Some c.
Proof using Hp. unfold counter. by rewrite Hp. Qed.

Local Lemma inst_held : w ∈ held tx.
Proof using Hp Hw. unfold held. rewrite Hp. rewrite (drop_S _ _ _ Hw). by left. Qed.

Local Lemma inst_nodup : NoDup (keys (t_writes tx)).
Proof using Hi Ht Hp.
  pose proof (to_nodup _ _ _ _ _ (iv_tx _ _ _ _ _ _ Hi t tx Ht)) as H. unfold claimed in H. by rewrite Hp in H.
Qed.

Local Lemma inst_locks y : s_locks s1 y = if decide (y = x) then None else s_locks s y.
Proof using.
  unfold s1. cbn. unfold unlock. destruct (decide (y = x)) as [->|]; [by rewrite decide_True by (by left)|].
  rewrite decide_False; [done|]. by intros ?%list_elem_of_singleton.
Qed.

Local Lemma inst_recs y : s_recs s1 y = if decide (x = y) then r else s_recs s y.
Proof using. unfold s1. cbn. case_decide; subst; [apply fn_lookup_insert|by apply fn_lookup_insert_ne]. Qed.

(** No vector shows the new version yet. *)
Local Lemma inst_reads V y : copy_ok n torn (s_hist s) V → vread V (s_recs s1 y) = vread V (s_recs s y).
Proof using Hn Hload Hi Ht Hp.
  intros HV. rewrite inst_recs. case_decide; [subst y|done]. apply vread_install.
  - by eapply committing_unseen.
  - destruct (log_cur s x Hload Hi); [by left|by right; right].
Qed.

Local Lemma inst_holder t0 tx0 : s_txs s !! t0 = Some tx0 → x ∈ keys (held tx0) → t0 = t.
Proof using Hi Ht Hp Hw.
  intros Ht0 (w0 & Hx & Hin)%list_elem_of_fmap.
  destruct (to_held _ _ _ _ _ (iv_tx _ _ _ _ _ _ Hi t0 tx0 Ht0) w0 Hin) as [Hl _].
  destruct (to_held _ _ _ _ _ (iv_tx _ _ _ _ _ _ Hi t tx Ht) w inst_held) as [Hl' _].
  unfold x in Hx. congruence.
Qed.

Local Lemma inst_held_keys y : y ∈ keys (held tx') ↔ y ∈ keys (held tx) ∧ y ≠ x.
Proof using Hi Ht Hp Hw. unfold held. cbn. rewrite Hp. apply keys_drop_S; [done|apply inst_nodup]. Qed.

Local Lemma inst_tx_ok t0 tx0 : s_txs (set_tx s1 t tx') !! t0 = Some tx0 → tx_ok (set_tx s1 t tx') t0 tx0.
Proof using Hn Hload Hi Ht Hp Hw.
  cbn. intros [[<- <-]|[Hne Ht']]%lookup_insert_Some; apply tx_ok_set_tx.
  - destruct (iv_tx _ _ _ _ _ _ Hi t tx Ht) as [H1 H2 H3 H4 H4' H5 H6 H7]. split; [done..| |done|done| | |].
    + intros y res Hy. rewrite inst_reads by done. by apply H3.
    + intros c0 [= <-]. apply H5, inst_counter.
    + unfold claimed. cbn. apply inst_nodup.
    + intros w0 Hw0. assert (Hk : w_key w0 ∈ keys (held tx')) by (by apply list_elem_of_fmap_2).
      apply inst_held_keys in Hk as [_ Hk]. rewrite inst_locks, inst_recs. rewrite !decide_False by congruence.
      apply H7. unfold held in Hw0 |- *. rewrite Hp. cbn in Hw0. rewrite (drop_S _ _ _ Hw). by right.
  - pose proof (iv_tx _ _ _ _ _ _ Hi t0 tx0 Ht') as Hok'. eapply tx_ok_frame; [..|exact Hok']; [done| | |done].
    + intros y. apply inst_reads, Hok'.
    + intros y Hy. assert (y ≠ x) by (intros ->; apply Hne; symmetry; by eapply inst_holder).
      rewrite inst_locks, inst_recs. by rewrite !decide_False by congruence.
Qed.

Local Lemma inst_lock y t0 :
  s_locks s1 y = Some t0 → ∃ tx0, s_txs (set_tx s1 t tx') !! t0 = Some tx0 ∧ y ∈ keys (held tx0).
Proof using Hi Ht Hp Hw.
  rewrite inst_locks. case_decide; [done|]. intros Hl.
  destruct (iv_lock _ _ _ _ _ _ Hi y t0 Hl) as (tx0 & Ht0 & Hy). cbn.
  destruct (decide (t = t0)) as [<-|]; [|exists tx0; by rewrite lookup_insert_ne].
  rewrite Ht in Ht0. injection Ht0 as <-. exists tx'. rewrite lookup_insert_eq. split; [done|]. by apply inst_held_keys.
Qed.

Local Lemma inst_info : info (set_tx s1 t tx') t = info s t.
Proof using Ht Hp. rewrite info_set_tx, (info_tx _ _ _ Ht), inst_counter. done. Qed.

Local Lemma inst_installed y : y ∈ keys (installed tx') ↔ y ∈ keys (installed tx) ∨ y = x.
Proof using Hp Hw. unfold installed. cbn. rewrite Hp. by apply keys_take_S. Qed.

(** The record gets one more entry in its log. *)
Local Lemma inst_log_own : log_ok r0 (set_tx s1 t tx') x.
Proof using Hi Ht Hp Hw.
  destruct (iv_log _ _ _ _ _ _ Hi x) as (l & Hl & Hm). exists (t :: l).
  pose proof (iv_tx _ _ _ _ _ _ Hi t tx Ht) as Hok. split.
  - change (s_recs (set_tx s1 t tx') x) with (s_recs s1 x). rewrite inst_recs, decide_True by done.
    apply log_cons with (i := mkInfo (t_vec tx) (word tx c) (t_writes tx)); [| | |done| |].
    + eapply log_rec_frame; [|exact Hl]. intros t0 i Hi0.
      destruct (decide (t = t0)) as [<-|Hne]; [by rewrite inst_info|].
      rewrite <-Hi0. apply info_other. cbn. by apply lookup_insert_ne.
    + rewrite inst_info, (info_tx _ _ _ Ht), inst_counter. done.
    + cbn. by eapply list_elem_of_lookup_2.
    + symmetry. apply (to_held _ _ _ _ _ Hok w inst_held).
    + apply (to_bases _ _ _ _ _ Hok). by eapply list_elem_of_lookup_2.
  - intros t0. rewrite elem_of_cons, Hm. cbn. destruct (decide (t = t0)) as [<-|Hne].
    + rewrite lookup_insert_eq. split; [|by left]. intros _. exists tx'. split; [done|]. apply inst_installed. by right.
    + rewrite lookup_insert_ne by done. split; [intros [?|?]; [congruence|done]|by right].
Qed.

Lemma inv_install : Inv (set_tx s1 t tx').
Proof using Hn Hload Hi Ht Hp Hw.
  split; [|apply inst_tx_ok|apply inst_lock| |].
  - eapply clock_frame; [apply Hi|done..|]. apply reported_frame with (t := t).
    + intros t' Hne. cbn. by rewrite lookup_insert_ne.
    + intros tx0 c0. rewrite Ht. intros [= <-]. by rewrite Hp.
    + intros tx0 c0. cbn. rewrite lookup_insert_eq. by intros [= <-].
  - eapply uniq_frame; [exact Hi|done|]. intros c0 [= <-]. exists tx. by rewrite inst_counter.
  - intros y. destruct (decide (y = x)) as [->|Hne]; [apply inst_log_own|].
    eapply log_frame with (s := s); [apply (iv_log _ _ _ _ _ _ Hi)|done| | |].
    + change (s_recs s1 y = s_recs s y). rewrite inst_recs, decide_False by congruence. done.
    + intros i. by rewrite inst_info.
    + rewrite inst_installed. split; [intros [?|?]; [by exists tx|done]|]. intros (tx0 & Ht0 & Hy).
      rewrite Ht in Ht0. injection Ht0 as <-. by left.
Qed.
End install.

(** ** Reports *)

Lemma hist_app_mono s V :
  clock_ok n nthreads master torn s → Forall2 Z.le (ts_buffer (s_tm s master)) V →
  ∀ i j U W, (i ≤ j)%nat → (s_hist s ++ [V]) !! i = Some U → (s_hist s ++ [V]) !! j = Some W → Forall2 Z.le U W.
Proof.
  intros Hck Hle i j U W Hij Hi Hj.
  apply lookup_snoc_Some in Hj as [[Hjl Hj]|[-> ->]].
  - rewrite lookup_app_l in Hi by lia. by apply (ck_mono _ _ _ _ _ Hck i j).
  - apply lookup_snoc_Some in Hi as [[Hil Hi]|[_ ->]].
    + pose proof (ck_last _ _ _ _ _ Hck) as Hl. rewrite last_lookup in Hl.
      assert (HU : Forall2 Z.le U (ts_buffer (s_tm s master))).
      { eapply (ck_mono _ _ _ _ _ Hck); [|done|done]. lia. }
      eapply Forall2_trans; [|exact HU|exact Hle]. intros; lia.
    + apply Forall2_same_length_lookup_2; [done|]. intros k0 a b Ha Hb. simplify_eq. lia.
Qed.

Section report.
Context (Hn : (n ≤ 64)%nat) (s : Sys) (t : nat) (tx : Txn) (c th : Z) (tm : TSManager).
Context (Hi : Inv s) (Ht : s_txs s !! t = Some tx) (Hp : t_phase tx = Committing c (length (t_writes tx))).
Context (Hrun : ts_update_handler nthreads (s_tm s master) (Z.of_nat (t_mach tx)) th c = Done tm).

Let s1 := publish (set_tm s master tm) (ts_buffer tm).
Let tx' := to_phase tx (Reported c).

Local Lemma rep_counter_tx : counter tx = Some c.
Proof using Hp. unfold counter. by rewrite Hp. Qed.

(** The handler took the report: the vector is the one with the report added. *)
Local Lemma rep_vector :
  (∃ us, vector_ok n us tm ∧ Forall (report_ok n nthreads) us ∧
     ∀ i c', c' ∈ counters i us ↔ reported s i c' ∨ (i = t_mach tx ∧ c' = c)) ∧
  local_ts tm = local_ts (s_tm s master) ∧ fetched_ts_buffer_ tm = fetched_ts_buffer_ (s_tm s master) ∧
  Forall2 Z.le (ts_buffer (s_tm s master)) (ts_buffer tm).
Proof using Hn Hi Ht Hp Hrun.
  destruct (iv_clock _ _ _ _ _ _ Hi) as [(us & Hvo & Hus & Hrep) _ _ _ _ _].
  destruct (iv_tx _ _ _ _ _ _ Hi t tx Ht) as [Hm _ _ _ _ Hcnt _ _]. destruct (Hcnt c rep_counter_tx) as (Hsm & _ & _).
  set (u := mkReport (Z.of_nat (t_mach tx)) th c).
  assert (Hu : report_ok n nthreads u).
  { split; [|split; [cbn; lia|done]]. unfold ts_update_handler in Hrun.
    apply bind_Done in Hrun as (? & Hv%verify_Done%bool_decide_eq_true & _). done. }
  assert (Hnew : rep_counter u ∉ counters (Z.to_nat (rep_id u)) us).
  { cbn. rewrite Nat2Z.id, Hrep. intros (t' & tx0 & Ht' & Hmach & Hp').
    assert (t' = t) as ->; [|congruence].
    eapply (iv_uniq _ _ _ _ _ _ Hi); [done..| |apply rep_counter_tx]. unfold counter. by rewrite Hp'. }
  destruct (apply_report_ok n nthreads us u (s_tm s master)) as (tm' & Happ & Hvo' & Hloc & Hf & Hle); [done..|].
  unfold apply_report in Happ. cbn in Happ. rewrite Hrun in Happ. injection Happ as <-.
  split_and!; [|done..]. exists (us ++ [u]). split_and!; [done|apply Forall_app; split; [done|by apply Forall_singleton]|].
  intros i c'. rewrite counters_snoc. cbn. case_decide as Hd.
  - rewrite elem_of_cons, Hrep. assert (i = t_mach tx) as -> by lia. naive_solver.
  - rewrite Hrep. split; [by left|]. intros [?|[-> ->]]; [done|lia].
Qed.

Local Lemma rep_reported i c' : reported (set_tx s1 t tx') i c' ↔ reported s i c' ∨ (i = t_mach tx ∧ c' = c).
Proof using Ht Hp.
  unfold reported. cbn. split.
  - intros (t0 & tx0 & [[<- <-]|[Hne Ht0]]%lookup_insert_Some & Hm & Hp0); [right; cbn in *; split; congruence|].
    left. by exists t0, tx0.
  - intros [(t0 & tx0 & Ht0 & Hm & Hp0)|[-> ->]].
    + exists t0, tx0. rewrite lookup_insert_ne; [done|]. intros <-. congruence.
    + exists t, tx'. by rewrite lookup_insert_eq.
Qed.

Local Lemma rep_tm p : local_ts (s_tm s1 p) = local_ts (s_tm s p) ∧
  fetched_ts_buffer_ (s_tm s1 p) = fetched_ts_buffer_ (s_tm s p).
Proof using Hn Hi Ht Hp Hrun.
  destruct rep_vector as (_ & Hl & Hf & _). unfold s1. cbn. destruct (decide (master = p)) as [<-|].
  - by rewrite fn_lookup_insert.
  - by rewrite fn_lookup_insert_ne.
Qed.

Local Lemma rep_clock : clock_ok n nthreads master torn (set_tx s1 t tx').
Proof using Hn Hi Ht Hp Hrun.
  destruct rep_vector as ((us & Hvo & Hus & Hrep) & _ & _ & Hle).
  pose proof (iv_clock _ _ _ _ _ _ Hi) as Hck. split.
  - exists us. cbn. rewrite fn_lookup_insert. split_and!; [done..|]. intros i c'. by rewrite Hrep, rep_reported.
  - cbn. pose proof (ck_first _ _ _ _ _ Hck) as Hf. rewrite lookup_app_l; [done|]. by apply lookup_lt_Some in Hf.
  - cbn. rewrite last_snoc. by rewrite fn_lookup_insert.
  - cbn. by apply hist_app_mono.
  - intros p. change (s_tm (set_tx s1 t tx') p) with (s_tm s1 p). destruct (rep_tm p) as [_ ->].
    cbn. apply copy_ok_app, Hck.
  - intros p. change (s_tm (set_tx s1 t tx') p) with (s_tm s1 p). destruct (rep_tm p) as [-> _]. apply Hck.
Qed.

Lemma inv_report : Inv (set_tx s1 t tx').
Proof using Hn Hi Ht Hp Hrun.
  assert (Hall : ∀ t0 tx0, tx_ok s t0 tx0 → tx_ok s1 t0 tx0).
  { intros t0 tx0. apply tx_ok_frame; [|done..|].
    - intros V. apply copy_ok_app.
    - intros p. destruct (rep_tm p) as [-> _]. lia. }
  split; [apply rep_clock| | | |].
  - intros t0 tx0. cbn. intros [[<- <-]|[Hne Ht']]%lookup_insert_Some; apply tx_ok_set_tx;
      [|by apply Hall, (iv_tx _ _ _ _ _ _ Hi)].
    destruct (Hall _ _ (iv_tx _ _ _ _ _ _ Hi t tx Ht)) as [H1 H2 H3 H4 H4' H5 H6 H7]. split; try done.
    + intros c0 [= <-]. apply H5, rep_counter_tx.
    + unfold claimed in *. by rewrite Hp in H6.
    + by intros w ?%not_elem_of_nil.
  - intros y t0 Hl. destruct (iv_lock _ _ _ _ _ _ Hi y t0 Hl) as (tx0 & Ht0 & Hy). cbn.
    destruct (decide (t = t0)) as [<-|]; [|exists tx0; by rewrite lookup_insert_ne].
    rewrite Ht in Ht0. injection Ht0 as <-. unfold held in Hy. rewrite Hp, drop_all in Hy. by apply not_elem_of_nil in Hy.
  - eapply uniq_frame; [exact Hi|done|]. intros c0 [= <-]. exists tx. by rewrite rep_counter_tx.
  - intros y. eapply log_frame with (s := s); [apply (iv_log _ _ _ _ _ _ Hi)|done|done| |].
    + intros i. rewrite info_set_tx, (info_tx _ _ _ Ht), rep_counter_tx. done.
    + unfold installed. cbn. split; [intros Hy; exists tx; split; [done|]; by rewrite Hp, firstn_all|].
      intros (tx0 & Ht0 & Hy). rewrite Ht in Ht0. injection Ht0 as <-. by rewrite Hp, firstn_all in Hy.
Qed.
End report.

(** ** Runs *)

Lemma add_access_nil tx : add_access tx [] = tx.
Proof. destruct tx. unfold add_access, set_accesses. cbn. by rewrite app_nil_r. Qed.

Lemma set_writes_id tx : set_writes tx (t_writes tx) = tx.
Proof. by destruct tx. Qed.

Lemma staged_ok V tx w :
  (∀ a, a ∈ t_set tx → base_ok V (a_write a)) → w ∈ staged tx → base_ok V w.
Proof.
  intros Hs (a & Hin & Ha)%list_elem_of_omap. destruct (a_ro a); [done|]. injection Ha as <-. by apply Hs.
Qed.

Lemma inv_end s t tx ws ph :
  Inv s → s_txs s !! t = Some tx → t_phase tx = Running → ph = Locking 0 ∨ ph = Aborted →
  (∀ w, w ∈ ws → base_ok (t_vec tx) w) →
  Inv (set_tx s t (to_phase (set_writes tx ws) ph)).
Proof.
  intros Hi Ht Hp Hph Hws. destruct (iv_tx _ _ _ _ _ _ Hi t tx Ht) as [H1 H2 H3 H4 H4' H5 H6 H7].
  destruct (running_held tx Hp) as (Hh & _ & Hc).
  set (tx' := to_phase (set_writes tx ws) ph).
  assert (Hx : held tx' = [] ∧ claimed tx' = [] ∧ counter tx' = None)
    by (by destruct Hph as [-> | ->]). destruct Hx as (Hh' & Hcl' & Hc').
  apply inv_set_tx; [done| |done|].
  - split; try done; rewrite ?Hh', ?Hcl', ?Hc'; [done|constructor|]. by intros w ?%not_elem_of_nil.
  - intros tx0 Ht0. rewrite Ht in Ht0. injection Ht0 as <-. by rewrite Hh, Hh'.
Qed.

Lemma inv_begin s t p :
  Inv s → s_txs s !! t = None → (p < n)%nat →
  Inv (set_tx s t (mkTxn p (get_start_ts (s_tm s p)) [] [] [] Running)).
Proof.
  intros Hi Ht Hp. apply inv_set_tx; [done| |done|by rewrite Ht].
  split; cbn; try done; [apply Hi| | | |constructor|]; by intros *; try intros ?%not_elem_of_nil.
Qed.

Lemma inv_exec e s s' :
  (n ≤ 64)%nat → loaded n r0 → keeps_records e → Inv s → exec n nthreads master torn false e s = Some s' → Inv s'.
Proof.
  intros Hn Hload Hk Hi He. destruct e; cbn [exec] in He; [..|done| | | | | |]; simplify_option_eq.
  - apply inv_set_tm; [done..| |done]. pose proof (ck_local _ _ _ _ _ (iv_clock _ _ _ _ _ _ Hi) p). cbn. lia.
  - by apply inv_begin.
  - apply inv_add_read; [done..|]. intros a. by eapply got_ok.
  - rewrite <-(add_access_nil (add_read _ _ _)). apply inv_add_read; [done..|]. by intros a ?%not_elem_of_nil.
  - match goal with H : may_take _ _ _ |- _ => destruct H as [|Hs]; [done|] end.
    rewrite (latest_vread _ _ Hs). apply inv_add_read; [done..|]. intros a. by apply got_latest_ok.
  - match goal with H : s_txs s !! t = Some _ |- _ => pose proof (iv_tx _ _ _ _ _ _ Hi _ _ H) as Hok end.
    eapply inv_running; try done; [apply Hok|]. eapply touch_ok; [|done|apply (to_set _ _ _ _ _ Hok)].
    intros o [b ->]. by eexists.
  - match goal with H : may_take _ _ _ |- _ => destruct H as [|Hs]; [done|] end. apply inv_add_access; [done..|].
    split; [done|by eexists].
  - match goal with H : s_txs s !! t = Some _ |- _ => pose proof (iv_tx _ _ _ _ _ _ Hi _ _ H) as Hok end.
    apply inv_end; auto. intros w Hw. eapply staged_ok; [apply (to_set _ _ _ _ _ Hok)|].
    match goal with H : ws ≡ₚ _ |- _ => by rewrite <-H end.
  - destruct (t_phase _) eqn:Hp; simplify_option_eq. by eapply inv_lock.
  - destruct (t_phase _) eqn:Hp; simplify_option_eq; [|by apply inv_abort_locking].
    match goal with H : s_txs s !! t = Some ?tx |- _ => pose proof (iv_tx _ _ _ _ _ _ Hi _ _ H) as Hok; rewrite <-(set_writes_id tx) end.
    apply inv_end; auto. apply (to_bases _ _ _ _ _ Hok).
  - eapply inv_take; try done.
  - destruct (t_phase _) eqn:Hp; simplify_option_eq. by apply inv_install.
  - destruct (t_phase _) eqn:Hp; simplify_option_eq. destruct (ts_update_handler _ _ _ _ _) eqn:Hr; simplify_option_eq.
    by apply (inv_report Hn s t H c th).
Qed.

Lemma inv_run es s s' :
  (n ≤ 64)%nat → loaded n r0 → Forall keeps_records es → Inv s → run n nthreads master torn false es s = Some s' → Inv s'.
Proof.
  intros Hn Hload Hk. revert s. induction Hk as [|e es He Hk IH]; intros s Hi Hr; cbn in Hr; [by simplify_eq|].
  apply bind_Some in Hr as (s1 & Hs & Hr). eapply IH; [|done]. by eapply inv_exec.
Qed.
End steps.
