(* ===== verification/SiProps.v ===== *)
(** * Snapshot isolation

    Every state of SiModel.v reached without deletions is snapshot isolated when vectors
    are copied whole and versions come from the snapshot; without the first of these
    the updates of one transaction still show all together.  The last part runs the
    four schedules that the code allows and that break the stronger property. *)

From S2P Require Import Prelude LockWord RadMem TSManager DBSI SiSpec SiModel SiInv SiSteps.

(** ** Reading through the log *)

Section log.
Context (n : nat) (r0 : Z → VRecord) (Hload : loaded n r0).

(** Transaction [t] wrote [d] into [x] at the version [v]: as in [writes], with the
    record's log entry. *)
Lemma log_writes s x l r t : log_rec r0 s x l r → t ∈ l → ∃ v d, writes s t x v d.
Proof.
  induction 1 as [|t' i w l r _ IH Hi Hw Hk _ _]; [by intros ?%not_elem_of_nil|].
  intros [->|]%elem_of_cons; [|by apply IH]. exists (ci_word i), (w_data w). by exists i, w.
Qed.

(** What a vector shows of a record: the newest log entry it covers. *)
Lemma log_vread s x l r V :
  log_rec r0 s x l r → sees V (v_seq (r0 x)) = true →
  (∃ t l1 l2 v d, l = l1 ++ t :: l2 ∧ writes s t x v (Some d) ∧ sees V v = true ∧ vread V r = Some (v, d) ∧
     ∀ t' i', t' ∈ l1 → info s t' = Some i' → sees V (ci_word i') = false) ∨
  (vread V r = latest (r0 x) ∧ ∀ t' i', t' ∈ l → info s t' = Some i' → sees V (ci_word i') = false).
Proof using Hload.
  intros Hl Hs. induction Hl as [|t i w l r Hl IH Hi Hw Hk Hb [Hv [d0 Hd]]].
  { right. split; [|by intros t' i' ?%not_elem_of_nil]. unfold vread. by rewrite Hs. }
  destruct (sees V (ci_word i)) eqn:Hsee.
  - left. exists t, [], l, (ci_word i), d0. split; [done|]. split; [by exists i, w|]. split; [done|].
    split; [by rewrite vread_install_new, Hd|]. by intros t' i' ?%not_elem_of_nil.
  - rewrite vread_install.
    + destruct IH as [(t0 & l1 & l2 & v & d & -> & H1 & H2 & H3 & H4)|[H1 H2]]; [left|right].
      * exists t0, (t :: l1), l2, v, d. split_and!; [done..|]. intros t' i' [->|]%elem_of_cons ?; [congruence|by eapply H4].
      * split; [done|]. intros t' i' [->|]%elem_of_cons ?; [congruence|by eapply H2].
    + done.
    + apply log_rec_cur in Hl as [|[_ ->]]; [by left|]. right. right. apply Hload.
Qed.
End log.

(** ** Commit times *)

Section times.
Context (n : nat) (nthreads : Z) (master : nat) (r0 : Z → VRecord) (Hn : (n ≤ 64)%nat) (Hload : loaded n r0).
Context (s : Sys) (HI : Inv n nthreads master false r0 s).

(** Start time: the position of the start vector. *)
Definition start_of (t : nat) : nat :=
  default 0%nat (tx ← s_txs s !! t; fst <$> list_find (λ V, V = t_vec tx) (s_hist s)).

Lemma start_lookup t tx : s_txs s !! t = Some tx → s_hist s !! start_of t = Some (t_vec tx).
Proof using HI.
  intros Ht. unfold start_of. rewrite Ht. cbn. pose proof (to_vec _ _ _ _ _ (iv_tx _ _ _ _ _ _ HI t tx Ht)) as HV. cbn in HV.
  destruct (list_find_elem_of (λ V, V = t_vec tx) (s_hist s) (t_vec tx) HV eq_refl) as [[i V] Hf].
  rewrite Hf. cbn. apply list_find_Some in Hf as (Hi & -> & _). done.
Qed.

(** A vector covers a transaction exactly from its commit time on. *)
Lemma seen_commit t i k V :
  info s t = Some i → s_hist s !! k = Some V →
  sees V (ci_word i) = true ↔ ∃ c, commit_time s t = Some c ∧ (c ≤ k)%nat.
Proof using HI Hn.
  intros Hi Hk. unfold commit_time. rewrite Hi. cbn. split.
  - intros Hs. destruct (list_find_elem_of (λ V, sees V (ci_word i) = true) (s_hist s) V) as [[c W] Hf];
      [by eapply list_elem_of_lookup_2|done|]. rewrite Hf. exists c. split; [done|].
    apply list_find_Some in Hf as (Hc & _ & Hmin). destruct (decide (c ≤ k)%nat) as [|Hgt]; [done|].
    exfalso. apply (Hmin k V Hk); [lia|done].
  - intros (c & Hc & Hle). apply fmap_Some in Hc as ([c' W] & Hf & ->). cbn in *.
    apply list_find_Some in Hf as (HW & Hs & _). eapply sees_mono; [|exact Hs].
    by apply (ck_mono _ _ _ _ _ (iv_clock _ _ _ _ _ _ HI) c' k).
Qed.

Lemma info_inv t i : info s t = Some i →
  ∃ tx c, s_txs s !! t = Some tx ∧ counter tx = Some c ∧ i = mkInfo (t_vec tx) (word tx c) (t_writes tx).
Proof using.
  unfold info. intros (tx & Ht & Hc)%bind_Some. apply bind_Some in Hc as (c & Hc & [= <-]). by exists tx, c.
Qed.

Lemma start_info t i : info s t = Some i → s_hist s !! start_of t = Some (ci_vec i).
Proof using HI. intros (tx & c & Ht & _ & ->)%info_inv. by apply start_lookup. Qed.

Lemma commit_after_start t c : commit_time s t = Some c → (start_of t < c)%nat.
Proof using HI Hn.
  intros Hc. pose proof Hc as Hc'. unfold commit_time in Hc'. apply bind_Some in Hc' as (i & Hi & _).
  destruct (info_inv t i Hi) as (tx & cc & Ht & Hcc & ->).
  destruct (decide (start_of t < c)%nat) as [|Hge]; [done|]. exfalso.
  assert (sees (t_vec tx) (word tx cc) = true) as Hs.
  { apply (seen_commit t _ (start_of t) (t_vec tx) Hi); [by apply start_lookup|]. exists c. split; [done|lia]. }
  destruct (to_counter _ _ _ _ _ (iv_tx _ _ _ _ _ _ HI t tx Ht) cc Hcc) as (_ & _ & Hn'). congruence.
Qed.

(** Below a version that a published vector shows, everything is committed by then. *)
Lemma log_top x l r k V :
  log_rec r0 s x l r → s_hist s !! k = Some V → sees V (v_seq r) = true →
  ∀ t, t ∈ l → ∃ c, commit_time s t = Some c ∧ (c ≤ k)%nat.
Proof using HI Hn.
  intros Hl. revert k V. induction Hl as [|t i w l r Hl IH Hi Hw Hk Hb [Hv _]]; intros k V HV Hs t' Hin;
    [by apply not_elem_of_nil in Hin|].
  cbn in Hs. destruct (proj1 (seen_commit t i k V Hi HV) Hs) as (c & Hc & Hle).
  apply elem_of_cons in Hin as [->|Hin]; [eauto|].
  rewrite Hb in Hv. destruct (IH (start_of t) (ci_vec i) (start_info t i Hi) Hv t' Hin) as (c' & Hc' & Hle').
  exists c'. split; [done|]. pose proof (commit_after_start t c Hc). lia.
Qed.

Lemma log_order x l r l1 l2 t t' :
  log_rec r0 s x l r → l = l1 ++ t :: l2 → t' ∈ l2 → precedes s start_of t' t.
Proof using HI Hn.
  intros Hl. revert l1. induction Hl as [|u i w l r Hl IH Hi Hw Hk Hb [Hv _]]; intros [|u' l1] Heq Hin; [done..| |].
  - injection Heq as -> ->. rewrite Hb in Hv. exact (log_top x _ r _ _ Hl (start_info t i Hi) Hv t' Hin).
  - injection Heq as _ ->. by apply (IH l1).
Qed.

(** A committed transaction has installed all its writes. *)
Lemma committed_logged t x v d c (l : list nat) :
  writes s t x v d → commit_time s t = Some c →
  (∀ t', t' ∈ l ↔ ∃ tx, s_txs s !! t' = Some tx ∧ x ∈ keys (installed tx)) → t ∈ l.
Proof using HI Hn.
  intros (i & w & Hi & _ & Hw & Hk & _) Hc Hl. apply Hl.
  destruct (info_inv t i Hi) as (tx & cc & Ht & Hcc & ->). exists tx. split; [done|].
  destruct (iv_tx _ _ _ _ _ _ HI t tx Ht) as [Hm _ _ _ _ Hcnt _ _]. destruct (Hcnt cc Hcc) as (Hsm & _ & _).
  unfold commit_time in Hc. rewrite Hi in Hc. cbn in Hc. apply fmap_Some in Hc as ([j W] & Hf & ->).
  apply list_find_Some in Hf as (HW & Hs & _).
  destruct (seen_reported n nthreads master false s W (t_mach tx) cc Hn (iv_clock _ _ _ _ _ _ HI)) as (t2 & tx2 & Ht2 & Hm2 & Hp2);
    [cbn; by eapply list_elem_of_lookup_2|done..|].
  assert (t2 = t) as ->.
  { eapply (iv_uniq _ _ _ _ _ _ HI); [done..| |done]. unfold counter. by rewrite Hp2. }
  rewrite Ht in Ht2. injection Ht2 as <-. unfold installed. rewrite Hp2. rewrite <-Hk. by apply list_elem_of_fmap_2.
Qed.

(** ** The four clauses *)

Lemma times_reads t tx x res :
  s_txs s !! t = Some tx → (x, res) ∈ t_reads tx → last_write s r0 x (start_of t) res.
Proof using HI Hn Hload.
  intros Ht Hin. destruct (iv_tx _ _ _ _ _ _ HI t tx Ht) as [_ HV Hrd _ _ _ _ _]. rewrite (Hrd x res Hin).
  destruct (iv_log _ _ _ _ _ _ HI x) as (l & Hl & Hm). pose proof (start_lookup t tx Ht) as Hst.
  assert (H0 : sees (t_vec tx) (v_seq (r0 x)) = true).
  { cbn in HV. apply list_elem_of_lookup in HV as [j Hj].
    eapply sees_mono; [|apply (Hload x)]. apply (ck_mono _ _ _ _ _ (iv_clock _ _ _ _ _ _ HI) 0 j); [lia| |done].
    apply HI. }
  destruct (log_vread n r0 Hload s x l _ (t_vec tx) Hl H0) as [(t0 & l1 & l2 & v & d & Heq & Hw & Hs & Hr & Hnew)|[Hr Hnew]];
    rewrite Hr.
  - left. destruct Hw as (i & w & Hi & Hv & Hw). subst v. destruct (proj1 (seen_commit t0 i _ _ Hi Hst) Hs) as (c & Hc & Hle).
    exists t0, (ci_word i), (Some d), c. split_and!; [by exists i, w|done..|]. intros t' v' d' c' Hw' Hc' Hle'.
    pose proof (committed_logged t' x v' d' c' l Hw' Hc' Hm) as Hin'. rewrite Heq in Hin'.
    destruct Hw' as (i' & w' & Hi' & _). apply elem_of_app in Hin' as [Hin'|[->|Hin']%elem_of_cons].
    + exfalso. assert (sees (t_vec tx) (ci_word i') = true) by (apply (seen_commit t' i' _ _ Hi' Hst); eauto).
      rewrite (Hnew t' i' Hin' Hi') in *. done.
    + rewrite Hc in Hc'. injection Hc' as <-. done.
    + destruct (log_order x l _ l1 l2 t0 t' Hl Heq Hin') as (c2 & Hc2 & ?). rewrite Hc' in Hc2. injection Hc2 as <-.
      pose proof (commit_after_start t0 c Hc). lia.
  - right. split; [done|]. intros t' v' d' c' Hw' Hc'.
    pose proof (committed_logged t' x v' d' c' l Hw' Hc' Hm) as Hin'. destruct Hw' as (i' & w' & Hi' & _).
    destruct (decide (start_of t < c')%nat) as [|Hge]; [done|]. exfalso.
    assert (sees (t_vec tx) (ci_word i') = true) by (apply (seen_commit t' i' _ _ Hi' Hst); exists c'; split; [done|lia]).
    rewrite (Hnew t' i' Hin' Hi') in *. done.
Qed.

(** A write whose transaction has a counter is in the record's log or under a lock. *)
Lemma write_where t x v d (l : list nat) :
  writes s t x v d → (∀ t', t' ∈ l ↔ ∃ tx, s_txs s !! t' = Some tx ∧ x ∈ keys (installed tx)) →
  t ∈ l ∨ ∃ i w, info s t = Some i ∧ w_key w = x ∧ sees (ci_vec i) (w_base w) = true ∧
    s_locks s x = Some t ∧ v_seq (s_recs s x) = w_base w.
Proof using HI.
  intros (i & w & Hi & _ & Hw & Hk & _) Hl. destruct (info_inv t i Hi) as (tx & c & Ht & Hc & ->). cbn in Hw.
  pose proof (iv_tx _ _ _ _ _ _ HI t tx Ht) as Hok.
  assert (Hpart : w ∈ installed tx ∨ w ∈ held tx).
  { unfold installed, held. unfold counter in Hc. destruct (t_phase tx) as [| |c' k| |]; try done.
    - rewrite <-(take_drop k (t_writes tx)) in Hw. by apply elem_of_app in Hw.
    - by left. }
  destruct Hpart as [Hin|Hin]; [left; apply Hl; exists tx; split; [done|]; rewrite <-Hk; by apply list_elem_of_fmap_2|].
  right. destruct (to_held _ _ _ _ _ Hok w Hin) as [Hlk Hb]. rewrite Hk in Hlk, Hb.
  exists (mkInfo (t_vec tx) (word tx c) (t_writes tx)), w. split_and!; [done|done| |done|done].
  by apply (to_bases _ _ _ _ _ Hok).
Qed.

Lemma times_writers t t' x v v' d d' :
  t ≠ t' → writes s t x v d → writes s t' x v' d' →
  precedes s start_of t t' ∨ precedes s start_of t' t.
Proof using HI Hn.
  intros Hne Hw Hw'. destruct (iv_log _ _ _ _ _ _ HI x) as (l & Hl & Hm).
  assert (Hlate : ∀ u u', t ≠ t' → u' ∈ l → (∃ i w, info s u = Some i ∧ w_key w = x ∧
            sees (ci_vec i) (w_base w) = true ∧ s_locks s x = Some u ∧ v_seq (s_recs s x) = w_base w) →
            precedes s start_of u' u).
  { intros u u' _ Hin (i & w & Hi & _ & Hs & _ & Hb). rewrite <-Hb in Hs.
    exact (log_top x l _ _ _ Hl (start_info u i Hi) Hs u' Hin). }
  destruct (write_where _ _ _ _ _ Hw Hm) as [Hin|Hpend], (write_where _ _ _ _ _ Hw' Hm) as [Hin'|Hpend'].
  - apply list_elem_of_split in Hin as (l1 & l2 & Heq). pose proof Hin' as Hin2. rewrite Heq in Hin2.
    apply elem_of_app in Hin2 as [Hin1|[?|Hin2]%elem_of_cons]; [|congruence|].
    + left. apply list_elem_of_split in Hin1 as (k1 & k2 & ->). rewrite <-app_assoc in Heq. cbn in Heq.
      eapply (log_order x l _ k1); [done|exact Heq|]. apply elem_of_app. right. by left.
    + right. by eapply (log_order x l _ l1 l2).
  - left. by apply (Hlate t' t).
  - right. by apply (Hlate t t').
  - destruct Hpend as (? & ? & _ & _ & _ & H1 & _), Hpend' as (? & ? & _ & _ & _ & H2 & _). congruence.
Qed.

Lemma inv_snapshot_isolation : snapshot_isolation r0 s start_of.
Proof using HI Hn Hload.
  split; [apply start_lookup|apply commit_after_start|apply times_reads|apply times_writers].
Qed.
End times.

(** ** Properties *)

(** C2: snapshot isolation.  Take any interleaving of reads, updates, insertions,
    commits and aborts of the transactions of a cluster of at most 64 machines and of
    the messages of the timestamp service, with counters below 2^31, in which nothing
    is deleted, vectors are copied whole, and insertions and remote reads meet
    versions that the start vector covers.  Then every transaction (finished, running
    or aborted) has a start time and every committed one a later commit time such that
    each read returns the last write committed by the reader's start, and of two
    transactions that write the same record one committed before the other started. *)
Theorem si_runs_snapshot_isolated n nthreads master r0 es s :
  (n ≤ 64)%nat → loaded n r0 → Forall keeps_records es →
  run n nthreads master false false es (init n r0) = Some s →
  ∃ start, snapshot_isolation r0 s start.
Proof.
  intros Hn Hload Hk Hr. exists (start_of s). eapply inv_snapshot_isolation; [done|done|].
  eapply inv_run; [done|done|exact Hk|apply inv_init|exact Hr].
Qed.

(** Two machines; records 10 and 20 are loaded, everything else is absent. *)
Definition si_records : Z → VRecord :=
  λ x, if decide (x = 10 ∨ x = 20) then mkVRec 2 (Some [0]) [] else mkVRec 0 None [].

Lemma si_records_loaded : loaded 2 si_records.
Proof. intros x. unfold si_records. case_decide; split; done. Qed.

(** Transaction 1 of machine 0 moves both records, locking and writing them in different
    orders; transaction 2 of machine 1 starts before its report and reads both, starts
    again after it, updates one and inserts another; transaction 4 loses the race for
    the same record. *)
Definition move (t p : nat) (a b : list Z) : list event :=
  let w1 := mkWrite 10 2 (Some a) in
  let w2 := mkWrite 20 2 (Some b) in
  [Begin t p; Read t 10; Read t 20; Update t 10 a; Update t 20 b; End t [w1; w2]; Lock t; Lock t; Take t [w2; w1];
   Install t; Install t].
Definition si_schedule : list event :=
  let w3 := mkWrite 10 3 (Some [5]) in
  let w3' := mkWrite 30 0 (Some [8]) in
  move 1 0 [1] [2] ++
  [Begin 2 1; Read 2 10; ReadRo 2 20; Report 1 0; Fetch 1 [3; 2]; Fetch 0 [3; 2]; Begin 3 1; Begin 4 0; Read 3 10;
   Update 3 10 [5]; Insert 3 30 [8]; Read 4 10; Update 4 10 [6]; End 3 [w3; w3']; End 4 [mkWrite 10 3 (Some [6])];
   Lock 3; Lock 3; Abort 4; Take 3 [w3; w3']; Install 3; Install 3; Read 2 10; Report 3 1].
Definition si_final : Sys :=
  default (init 2 si_records) (run 2 8 0 false false si_schedule (init 2 si_records)).

Lemma si_runs_snapshot_isolated_witness : ∃ start, snapshot_isolation si_records si_final start.
Proof.
  apply (si_runs_snapshot_isolated 2 8 0 si_records si_schedule); [lia|apply si_records_loaded| |].
  - apply (bool_decide_unpack _). by vm_compute.
  - vm_compute. reflexivity.
Defined.

(** The record holds the version [v] with the value [o]. *)
Definition has_version (r : VRecord) (v : Z) (o : option (list Z)) : Prop :=
  (v_seq r = v ∧ v_cur r = o) ∨ ∃ d, o = Some d ∧ (v, d) ∈ v_hist r.

Lemma log_has_version r0 s x l r t i :
  (∀ y, v_hist (r0 y) = []) → log_rec r0 s x l r → t ∈ l → info s t = Some i →
  ∃ w, w ∈ ci_writes i ∧ w_key w = x ∧ has_version r (ci_word i) (w_data w).
Proof.
  intros H0 Hl Hin Hi. induction Hl as [|t' i' w l r Hl IH Hi' Hw Hk Hb _]; [by apply not_elem_of_nil in Hin|].
  apply elem_of_cons in Hin as [->|Hin].
  - rewrite Hi in Hi'. injection Hi' as <-. exists w. split_and!; [done..|]. by left.
  - destruct (IH Hin) as (w' & ? & ? & Hh). exists w'. split_and!; [done..|]. right. unfold abs_install. cbn.
    apply log_rec_cur in Hl as [Hc|[-> _]]; [|by apply not_elem_of_nil in Hin].
    destruct (v_cur r) as [d0|] eqn:Hcur; [|done].
    destruct Hh as [[<- Hd]|(d & Hd & Hh)]; [exists d0|exists d]; (split; [congruence|]); [by left|by right].
Qed.

(** C18: a transaction's updates show all or nothing, whatever the copies of the vector
    are.  In the runs of C2, but with start vectors whose entries may stem from
    different moments: once the start vector of a transaction covers another one,
    every record that one wrote holds its version with the value it wrote, and every
    read made so far would return the same again. *)
Theorem si_all_or_nothing n nthreads master r0 es s t tx :
  (n ≤ 64)%nat → loaded n r0 → Forall keeps_records es →
  run n nthreads master true false es (init n r0) = Some s → s_txs s !! t = Some tx →
  (∀ x res, (x, res) ∈ t_reads tx → res = vread (t_vec tx) (s_recs s x)) ∧
  (∀ t' i w, info s t' = Some i → sees (t_vec tx) (ci_word i) = true → w ∈ ci_writes i →
     has_version (s_recs s (w_key w)) (ci_word i) (w_data w)).
Proof.
  intros Hn Hload Hk0 Hr Ht.
  assert (HI : Inv n nthreads master true r0 s) by (eapply inv_run; [done|done|exact Hk0|apply inv_init|exact Hr]).
  pose proof (iv_tx _ _ _ _ _ _ HI t tx Ht) as Hok. split; [apply Hok|]. intros t' i w Hi Hs Hw.
  destruct (info_inv s t' i Hi) as (tx' & c & Ht' & Hc & ->). cbn in Hs, Hw |- *.
  destruct (iv_tx _ _ _ _ _ _ HI t' tx' Ht') as [Hm _ _ _ _ Hcnt Hnd _]. destruct (Hcnt c Hc) as (Hsm & _ & _).
  destruct (seen_reported n nthreads master true s (t_vec tx) (t_mach tx') c Hn (iv_clock _ _ _ _ _ _ HI))
    as (t2 & tx2 & Ht2 & Hm2 & Hp2); [apply Hok|done..|].
  assert (t2 = t') as ->.
  { eapply (iv_uniq _ _ _ _ _ _ HI); [done..| |done]. unfold counter. by rewrite Hp2. }
  rewrite Ht' in Ht2. injection Ht2 as <-. destruct (iv_log _ _ _ _ _ _ HI (w_key w)) as (l & Hl & Hml).
  assert (Hin : t' ∈ l).
  { apply Hml. exists tx'. split; [done|]. unfold installed. rewrite Hp2. by apply list_elem_of_fmap_2. }
  destruct (log_has_version r0 s _ l _ t' _ (λ y, proj1 (Hload y)) Hl Hin Hi) as (w' & Hw' & Hk & Hv). cbn in *.
  unfold claimed in Hnd. rewrite Hp2 in Hnd.
  assert (w' = w) as ->; [|done]. apply list_elem_of_lookup in Hw as [a Ha], Hw' as [b Hb].
  assert (a = b) as ->; [|congruence].
  eapply (NoDup_lookup (keys (t_writes tx'))); [done|unfold keys; by rewrite list_lookup_fmap, Ha|].
  unfold keys. rewrite list_lookup_fmap, Hb. cbn. by rewrite Hk.
Qed.

(** ** Four schedules *)

(** Every transaction with a counter satisfies [P]. *)
Definition all_infos (s : Sys) (P : nat → commit_info → bool) : bool :=
  bool_decide (map_Forall (λ t _, from_option (P t) true (info s t) = true) (s_txs s)).

Lemma all_infos_spec s P t i : all_infos s P = true → info s t = Some i → P t i = true.
Proof.
  unfold all_infos. rewrite bool_decide_eq_true. intros Hall Hi. pose proof Hi as Hi'. unfold info in Hi'.
  apply bind_Some in Hi' as (tx & Ht & _). specialize (Hall t tx Ht). cbn in Hall. by rewrite Hi in Hall.
Qed.

(** Nobody wrote [v2] with a commit time before [c], and nobody wrote [v1]. *)
Definition writers_after (s : Sys) (v1 v2 : Z) (c : nat) (t : nat) (i : commit_info) : bool :=
  bool_decide (ci_word i ≠ v1) &&
  (bool_decide (ci_word i ≠ v2) || from_option (λ c', bool_decide (c ≤ c')%nat) true (commit_time s t)).

(** Two reads that no start time explains: the first is the initial version although
    [t1] wrote the record, the second was committed not before [t1]. *)
Lemma split_reads s r0 x y t1 v d v1 d1 v2 d2 c :
  all_infos s (writers_after s v1 v2 c) = true → writes s t1 x v d → commit_time s t1 = Some c →
  latest (r0 y) ≠ Some (v2, d2) →
  ∀ k, last_write s r0 x k (Some (v1, d1)) → last_write s r0 y k (Some (v2, d2)) → False.
Proof.
  intros Hall Hw Hc Hy k [(t & v' & [d'|] & c' & (i & w & Hi & Hv & _) & _ & _ & Heq & _)|[_ Hk]] Hly; [|done|].
  { injection Heq as <- <-. apply (all_infos_spec _ _ t i Hall) in Hi. unfold writers_after in Hi.
    rewrite bool_decide_eq_false_2 in Hi by (rewrite Hv; by intros []). done. }
  specialize (Hk _ _ _ _ Hw Hc). destruct Hly as [(t & v' & [d'|] & c' & (i & w & Hi & Hv & _) & Hc' & Hle & Heq & _)|[? _]];
    [|done|congruence].
  injection Heq as <- <-. apply (all_infos_spec _ _ t i Hall) in Hi. unfold writers_after in Hi. apply andb_true_iff in Hi as [_ Hi].
  rewrite Hc' in Hi. rewrite bool_decide_eq_false_2 in Hi by (rewrite Hv; by intros []). cbn in Hi.
  apply bool_decide_eq_true in Hi. lia.
Qed.

Definition after (torn unchecked : bool) (es : list event) : Sys :=
  default (init 2 si_records) (run 2 8 0 torn unchecked es (init 2 si_records)).
Definition reads_of (s : Sys) (t : nat) : option (list (Z * option (Z * list Z))) := t_reads <$> s_txs s !! t.

(** One update of one record, up to and including the report. *)
Definition update_one (t : nat) (x b : Z) (d : list Z) : list event :=
  let w := mkWrite x b (Some d) in
  [Read t x; Update t x d; End t [w]; Lock t; Take t [w]; Install t; Report t 0].

(** Transaction 1 updates record 10; transaction 2, on the other machine, reads that
    update and writes record 20; machine 0 copies entry 0 of the vector before the first
    report and entry 1 after the second. *)
Definition torn_schedule : list event :=
  Begin 1 0 :: update_one 1 10 2 [1] ++ [Fetch 1 [3; 2]; Begin 2 1; Read 2 10] ++ update_one 2 20 2 [2] ++
  [Fetch 0 [2; 3]; Begin 3 0; Read 3 10; Read 3 20].

(** Copying the vector entry by entry breaks snapshots.  [memcpy] of the vector runs
    beside the handlers that advance it; a copy with an old entry for one machine and
    a new one for another shows transaction 2 and not transaction 1, whose update
    transaction 2 had read: no start time explains the two reads of transaction 3. *)
Theorem torn_vector_splits_snapshot :
  let s := after true false torn_schedule in
  let w := SI_ENCODE_TS 1 3 in
  reachable 2 8 0 true false si_records s ∧
  reads_of s 2 = Some [(10, Some (3, [1])); (20, Some (2, [0]))] ∧
  reads_of s 3 = Some [(10, Some (2, [0])); (20, Some (w, [2]))] ∧
  ∀ k, ¬ (last_write s si_records 10 k (Some (2, [0])) ∧ last_write s si_records 20 k (Some (w, [2]))).
Proof.
  cbv zeta. split_and!; [exists torn_schedule; by vm_compute|by vm_compute..|]. intros k [H1 H2].
  refine (split_reads _ si_records 10 20 1 3 (Some [1]) 2 [0] _ [2] 1 _ _ _ _ k H1 H2); [by vm_compute| |by vm_compute|by vm_compute].
  eexists _, (mkWrite 10 2 (Some [1])). split; [vm_compute; reflexivity|]. split; [done|]. split; [by left|done].
Qed.

(** Transaction 1 updates two records; transaction 2 started before, reads one of them
    at its snapshot and the other remotely after the report. *)
Definition remote_schedule : list event :=
  [Begin 2 1; Read 2 10] ++ move 1 0 [1] [2] ++ [Report 1 0; ReadLatest 2 20].

(** A remote read is not a snapshot read.  The handler of remote reads returns the
    current version without looking at the start vector, so a distributed transaction
    that began before another one committed sees one of its updates and not the
    other. *)
Theorem remote_read_splits_snapshot :
  let s := after false true remote_schedule in
  reachable 2 8 0 false true si_records s ∧
  reads_of s 2 = Some [(10, Some (2, [0])); (20, Some (3, [2]))] ∧
  ∀ k, ¬ (last_write s si_records 10 k (Some (2, [0])) ∧ last_write s si_records 20 k (Some (3, [2]))).
Proof.
  cbv zeta. split_and!; [exists remote_schedule; by vm_compute|by vm_compute|]. intros k [H1 H2].
  refine (split_reads _ si_records 10 20 1 3 (Some [1]) 2 [0] _ [2] 1 _ _ _ _ k H1 H2); [by vm_compute| |by vm_compute|by vm_compute].
  eexists _, (mkWrite 10 2 (Some [1])). split; [vm_compute; reflexivity|]. split; [done|]. split; [by right; left|done].
Qed.

(** Transactions 1 and 2 start together; 1 updates record 10 and commits, then 2 inserts
    it. *)
Definition insert_schedule : list event :=
  let w := mkWrite 10 3 (Some [7]) in
  [Begin 1 0; Begin 2 1] ++ update_one 1 10 2 [1] ++
  [Insert 2 10 [7]; End 2 [w]; Lock 2; Take 2 [w]; Install 2; Report 2 0].

(** An insertion records the version it finds, not one of its snapshot: two
    transactions that ran side by side both write the record and both commit. *)
Theorem blind_insert_commits_twice :
  let s := after false true insert_schedule in
  reachable 2 8 0 false true si_records s ∧
  commit_time s 1 = Some 1%nat ∧ commit_time s 2 = Some 2%nat ∧ ¬ ∃ start, snapshot_isolation si_records s start.
Proof.
  cbv zeta. split_and!; [exists insert_schedule; by vm_compute|by vm_compute..|]. intros [start [H1 _ _ H4]].
  assert (Hst : ∀ t, t = 1%nat ∨ t = 2%nat → start t = 0%nat).
  { intros t Ht. assert (s_hist (after false true insert_schedule) !! start t = Some [2; 2]) as Hh.
    { assert (∃ tx, s_txs (after false true insert_schedule) !! t = Some tx ∧ t_vec tx = [2; 2]) as (tx & Htx & <-).
      { destruct Ht as [-> | ->]; eexists; split; vm_compute; reflexivity. }
      by apply H1. }
    assert (s_hist (after false true insert_schedule) = [[2; 2]; [3; 2]; [3; 3]]) as Heq by by vm_compute.
    rewrite Heq in Hh.
    clear -Hh. destruct (start t) as [|[|[|]]]; [done|discriminate..]. }
  destruct (H4 1%nat 2%nat 10 3 (SI_ENCODE_TS 1 3) (Some [1]) (Some [7])) as [(c & Hc & Hle)|(c & Hc & Hle)].
  - lia.
  - eexists _, (mkWrite 10 2 (Some [1])). split; [vm_compute; reflexivity|]. split; [done|]. split; [by left|done].
  - eexists _, (mkWrite 10 3 (Some [7])). split; [vm_compute; reflexivity|]. split; [done|]. split; [by left|done].
  - rewrite Hst in Hle by auto. vm_compute in Hc. injection Hc as <-. lia.
  - rewrite Hst in Hle by auto. vm_compute in Hc. injection Hc as <-. lia.
Qed.

Lemma si_all_or_nothing_witness :
  let s := after true false torn_schedule in
  let tx := mkTxn 0 [2; 3] [(10, Some (2, [0])); (20, Some (SI_ENCODE_TS 1 3, [2]))]
    [mkAccess (mkWrite 10 2 (Some [0])) true; mkAccess (mkWrite 20 (SI_ENCODE_TS 1 3) (Some [2])) true] [] Running in
  (∀ x res, (x, res) ∈ t_reads tx → res = vread (t_vec tx) (s_recs s x)) ∧
  (∀ t' i w, info s t' = Some i → sees (t_vec tx) (ci_word i) = true → w ∈ ci_writes i →
     has_version (s_recs s (w_key w)) (ci_word i) (w_data w)).
Proof.
  apply (si_all_or_nothing 2 8 0 si_records torn_schedule _ 3); [lia|apply si_records_loaded| | |vm_compute; reflexivity].
  - apply (bool_decide_unpack _). by vm_compute.
  - vm_compute. reflexivity.
Defined.

(** Transaction 1 deletes record 10, transaction 3 inserts it again; transaction 2,
    which started before both, reads it before and after. *)
Definition reinsert_schedule : list event :=
  let w1 := mkWrite 10 2 None in
  let w3 := mkWrite 10 3 (Some [7]) in
  [Begin 1 0; Begin 2 1; Read 2 10; Delete 1 10; End 1 [w1]; Lock 1; Take 1 [w1]; Install 1; Report 1 0; Read 2 10;
   Fetch 0 [3; 2]; Begin 3 0; Insert 3 10 [7]; End 3 [w3]; Lock 3; Take 3 [w3]; Install 3; Report 3 0; Read 2 10].

(** A deleted record has no buffer that could carry the link to its older versions, so
    the next insertion drops them: a transaction that had read the old value, and
    still could after the deletion, finds nothing after the insertion. *)
Theorem reinsertion_loses_versions :
  let s := after false false reinsert_schedule in
  reachable 2 8 0 false false si_records s ∧
  reads_of s 2 = Some [(10, Some (2, [0])); (10, Some (2, [0])); (10, None)].
Proof. cbv zeta. split; [exists reinsert_schedule; by vm_compute|by vm_compute]. Qed.
