(* ===== verification/SparseInt.v ===== *)
(** * Variable-length integers

    Models [SparseInt] (src/rococo-dst/rrr/base/basetypes.cpp): a signed integer is sent in one
    to nine bytes, the first of which announces the length in unary.  A byte is a
    [Z] in [0 .. 255]; a buffer is the list of the bytes that have been stored into
    it, so that reading behind its end is reading an uninitialised byte. *)

From S2P Require Import Prelude.

(** [((char * ) &val)[k]] on a little-endian machine *)
Definition pv (val : Z) (k : Z) : Z := Z.land (Z.shiftr val (8 * k)) 0xFF.

Definition buf_size (byte0 : Z) : Z :=
  if decide (Z.land byte0 0x80 = 0) then 1
  else if decide (Z.land byte0 0xC0 = 0x80) then 2
  else if decide (Z.land byte0 0xE0 = 0xC0) then 3
  else if decide (Z.land byte0 0xF0 = 0xE0) then 4
  else if decide (Z.land byte0 0xF8 = 0xF0) then 5
  else if decide (Z.land byte0 0xFC = 0xF8) then 6
  else if decide (Z.land byte0 0xFE = 0xFC) then 7
  else if decide (Z.land byte0 0xFF = 0xFE) then 8
  else 9.

Definition val_size (val : Z) : Z :=
  if decide (-64 ≤ val ≤ 63) then 1
  else if decide (-8192 ≤ val ≤ 8191) then 2
  else if decide (-1048576 ≤ val ≤ 1048575) then 3
  else if decide (-134217728 ≤ val ≤ 134217727) then 4
  else if decide (-17179869184 ≤ val ≤ 17179869183) then 5
  else if decide (-2199023255552 ≤ val ≤ 2199023255551) then 6
  else if decide (-281474976710656 ≤ val ≤ 281474976710655) then 7
  else if decide (-36028797018963968 ≤ val ≤ 36028797018963967) then 8
  else 9.

(** [buf[0] &= m; buf[0] |= p] *)
Definition tag (m p b : Z) : Z := Z.lor (Z.land b m) p.

(** [dump]: the bytes stored into the buffer, and the size returned. *)
Definition dump_i32 (val : Z) : list Z * Z :=
  if decide (-64 ≤ val ≤ 63) then ([Z.land (pv val 0) 0x7F], 1)
  else if decide (-8192 ≤ val ≤ 8191) then ([tag 0x3F 0x80 (pv val 1); pv val 0], 2)
  else if decide (-1048576 ≤ val ≤ 1048575) then ([tag 0x1F 0xC0 (pv val 2); pv val 1; pv val 0], 3)
  else if decide (-134217728 ≤ val ≤ 134217727) then
    ([tag 0x0F 0xE0 (pv val 3); pv val 2; pv val 1; pv val 0], 4)
  else ([(if decide (val < 0) then 0xF7 else 0xF0); pv val 3; pv val 2; pv val 1; pv val 0], 5).

Definition dump_i64 (val : Z) : list Z * Z :=
  if decide (-64 ≤ val ≤ 63) then ([Z.land (pv val 0) 0x7F], 1)
  else if decide (-8192 ≤ val ≤ 8191) then ([tag 0x3F 0x80 (pv val 1); pv val 0], 2)
  else if decide (-1048576 ≤ val ≤ 1048575) then ([tag 0x1F 0xC0 (pv val 2); pv val 1; pv val 0], 3)
  else if decide (-134217728 ≤ val ≤ 134217727) then
    ([tag 0x0F 0xE0 (pv val 3); pv val 2; pv val 1; pv val 0], 4)
  else if decide (-17179869184 ≤ val ≤ 17179869183) then
    ([tag 0x07 0xF0 (pv val 4); pv val 3; pv val 2; pv val 1; pv val 0], 5)
  else if decide (-2199023255552 ≤ val ≤ 2199023255551) then
    ([tag 0x03 0xF8 (pv val 5); pv val 4; pv val 3; pv val 2; pv val 1; pv val 0], 6)
  else if decide (-281474976710656 ≤ val ≤ 281474976710655) then
    ([tag 0x01 0xFC (pv val 6); pv val 5; pv val 4; pv val 3; pv val 2; pv val 1; pv val 0], 7)
  else if decide (-36028797018963968 ≤ val ≤ 36028797018963967) then
    ([0xFE; pv val 7; pv val 6; pv val 5; pv val 4; pv val 3; pv val 2; pv val 1; pv val 0], 8)
  else ([0xFF; pv val 7; pv val 6; pv val 5; pv val 4; pv val 3; pv val 2; pv val 1; pv val 0], 9).

(** [buf[k]] *)
Definition rd (buf : list Z) (k : Z) : result Z :=
  match buf !! Z.to_nat k with Some b => Done b | None => Crash uninitialised end.

(** The value of the bytes at [(char * ) &val], least significant first. *)
Fixpoint from_bytes (l : list Z) : Z :=
  match l with [] => 0 | b :: l => b + 256 * from_bytes l end.

(** [for (i = 0; i < n; i++) pv[i] = buf[last - i]] *)
Definition copy_back (buf : list Z) (last : Z) (n : Z) (p : list Z) : result (list Z) :=
  for_each (λ p i, b ← rd buf (last - i); Done (<[Z.to_nat i := b]> p)) (seqZ 0 n) p.

(** The common part of [load_i32] and [load_i64] for encodings of less than [w + 1]
    bytes: mask the tag off the top byte and extend its sign to [w] bytes. *)
Definition load_short (w : Z) (buf : list Z) (bsize : Z) : result (list Z) :=
  p ← copy_back buf (bsize - 1) bsize (replicate (Z.to_nat w) 0);
  let k := Z.to_nat (bsize - 1) in
  let top := Z.land (p !!! k) (Z.shiftr 0xFF bsize) in
  let p := <[k := top]> p in
  if decide (Z.land (Z.shiftr top (7 - bsize)) 0x1 ≠ 0) then
    let p := <[k := u8 (Z.lor top (Z.shiftl 0xFF (7 - bsize)))]> p in
    Done (foldl (λ p i, <[Z.to_nat i := 0xFF]> p) p (seqZ bsize (w - bsize)))
  else Done p.

Definition load_i32 (buf : list Z) : result Z :=
  b0 ← rd buf 0;
  let bsize := buf_size b0 in
  p ← (if decide (bsize < 5) then load_short 4 buf bsize else copy_back buf 4 4 (replicate 4 0));
  Done (i32 (from_bytes p)).

Definition load_i64 (buf : list Z) : result Z :=
  b0 ← rd buf 0;
  let bsize := buf_size b0 in
  p ← (if decide (bsize < 8) then load_short 8 buf bsize else copy_back buf 8 8 (replicate 8 0));
  Done (i64 (from_bytes p)).

(** ** Bytes of a two's complement integer *)

Lemma pv_div val k : 0 ≤ k → pv val k = (val / 2 ^ (8 * k)) mod 256.
Proof.
  intros Hk. unfold pv. change 0xFF with (Z.ones 8). rewrite Z.land_ones, Z.shiftr_div_pow2 by lia. done.
Qed.

Lemma pv_range val k : 0 ≤ k → 0 ≤ pv val k < 256.
Proof. intros Hk. rewrite pv_div by done. by apply Z.mod_pos_bound. Qed.

Lemma from_bytes_app l1 l2 : from_bytes (l1 ++ l2) = from_bytes l1 + 256 ^ Z.of_nat (length l1) * from_bytes l2.
Proof.
  induction l1 as [|b l1 IH]; cbn [from_bytes app length]; [lia|].
  rewrite IH, Nat2Z.inj_succ, Z.pow_succ_r by lia. lia.
Qed.

(** The [n] low bytes of a number. *)
Definition low_bytes (val : Z) (n : nat) : list Z := pv val <$> seqZ 0 (Z.of_nat n).

Lemma low_bytes_S val n : low_bytes val (S n) = low_bytes val n ++ [pv val (Z.of_nat n)].
Proof.
  unfold low_bytes. rewrite Nat2Z.inj_succ, <-Z.add_1_r, seqZ_app, fmap_app by lia. done.
Qed.

Lemma length_low_bytes val n : length (low_bytes val n) = n.
Proof. unfold low_bytes. rewrite length_fmap, length_seqZ. lia. Qed.

Lemma from_low_bytes val n : from_bytes (low_bytes val n) = val mod 2 ^ (8 * Z.of_nat n).
Proof.
  induction n as [|n IH].
  - cbn. by rewrite Z.mod_1_r.
  - rewrite low_bytes_S, from_bytes_app, length_low_bytes, IH. cbn [from_bytes].
    rewrite pv_div by lia.
    replace (8 * Z.of_nat (S n)) with (8 * Z.of_nat n + 8) by lia.
    rewrite Z.pow_add_r, Z.rem_mul_r by lia. change 256 with (2 ^ 8) at 1. rewrite <-Z.pow_mul_r by lia.
    change (2 ^ 8) with 256. lia.
Qed.

Lemma from_replicate_FF n : from_bytes (replicate n 0xFF) = 256 ^ Z.of_nat n - 1.
Proof. induction n as [|n IH]; cbn [replicate from_bytes]; [done|]. rewrite IH, Nat2Z.inj_succ, Z.pow_succ_r by lia. lia. Qed.

Lemma from_replicate_0 n : from_bytes (replicate n 0) = 0.
Proof. induction n as [|n IH]; cbn [replicate from_bytes]; lia. Qed.

Lemma swrap_add w z k : 0 < w → swrap w (z + k * 2 ^ w) = swrap w z.
Proof.
  intros Hw. unfold swrap. f_equal. replace (z + k * 2 ^ w + 2 ^ (w - 1)) with (z + 2 ^ (w - 1) + k * 2 ^ w) by lia.
  apply Z.mod_add. lia.
Qed.

(** ** Short encodings *)

Lemma load_short_eval w n h low :
  w = 4 ∨ w = 8 → 1 ≤ n ≤ Z.min w 7 → length low = Z.to_nat (n - 1) →
  load_short w (h :: reverse low) n =
    let top := Z.land h (Z.shiftr 0xFF n) in
    if decide (Z.land (Z.shiftr top (7 - n)) 0x1 ≠ 0)
    then Done (low ++ u8 (Z.lor top (Z.shiftl 0xFF (7 - n))) :: replicate (Z.to_nat (w - n)) 0xFF)
    else Done (low ++ top :: replicate (Z.to_nat (w - n)) 0).
Proof.
  intros Hw Hn Hl.
  assert (n = 1 ∨ n = 2 ∨ n = 3 ∨ n = 4 ∨ n = 5 ∨ n = 6 ∨ n = 7) as Hc by lia.
  destruct Hw as [-> | ->]; destruct_or! Hc; subst n; try lia;
    repeat (destruct low as [|? low]; try (cbn in Hl; lia)); reflexivity.
Qed.

(** The checks below range over all bytes. *)
Definition sign_fill_ok (n top : Z) : bool :=
  bool_decide ((Z.land (Z.shiftr top (7 - n)) 0x1 ≠ 0 ↔ 2 ^ (7 - n) ≤ top) ∧
    (2 ^ (7 - n) ≤ top → u8 (Z.lor top (Z.shiftl 0xFF (7 - n))) = top + 256 - 2 ^ (8 - n))).

Lemma sign_fill n top : 1 ≤ n ≤ 7 → 0 ≤ top < 2 ^ (8 - n) → sign_fill_ok n top = true.
Proof.
  intros Hn Ht.
  assert (Hall : forallb (λ n, forallb (λ top, sign_fill_ok n top || bool_decide (2 ^ (8 - n) ≤ top)) (seqZ 0 128)) (seqZ 1 7) = true)
    by (vm_compute; reflexivity).
  rewrite forallb_forall in Hall. specialize (Hall n). rewrite forallb_forall in Hall.
  assert (2 ^ (8 - n) ≤ 2 ^ 7) by (apply Z.pow_le_mono_r; lia). change (2 ^ 7) with 128 in *.
  assert (H1 : sign_fill_ok n top || bool_decide (2 ^ (8 - n) ≤ top) = true).
  { apply Hall; apply list_elem_of_In, elem_of_seqZ; lia. }
  apply orb_true_iff in H1 as [?|H1%bool_decide_eq_true]; [done|lia].
Qed.

Lemma mask_top x n : 1 ≤ n ≤ 7 → Z.land (Z.land x 0xFF) (Z.shiftr 0xFF n) = x mod 2 ^ (8 - n).
Proof.
  intros Hn. rewrite <-Z.land_assoc.
  assert (Z.land 0xFF (Z.shiftr 0xFF n) = Z.ones (8 - n)) as ->.
  { assert (n = 1 ∨ n = 2 ∨ n = 3 ∨ n = 4 ∨ n = 5 ∨ n = 6 ∨ n = 7) as Hc by lia.
    destruct_or! Hc; subst n; reflexivity. }
  by rewrite Z.land_ones by lia.
Qed.

Lemma quot_sign P q r v :
  0 < P → v = 2 * P * q + r → 0 ≤ r < 2 * P → - P ≤ v < P → q = if decide (P ≤ r) then -1 else 0.
Proof. intros HP Hv Hr Hb. case_decide; nia. Qed.

Lemma load_short_correct w n v h :
  w = 4 ∨ w = 8 → 1 ≤ n ≤ Z.min w 7 → - 2 ^ (7 * n - 1) ≤ v < 2 ^ (7 * n - 1) →
  Z.land h (Z.shiftr 0xFF n) = Z.land (pv v (n - 1)) (Z.shiftr 0xFF n) →
  ∃ p, load_short w (h :: reverse (low_bytes v (Z.to_nat (n - 1)))) n = Done p ∧
    swrap (8 * w) (from_bytes p) = v.
Proof.
  intros Hw Hn Hv Hh. assert (HP : 0 < 2 ^ (7 * n - 1)) by (apply Z.pow_pos_nonneg; lia).
  assert (HB : 0 < 2 ^ (8 * (n - 1))) by (apply Z.pow_pos_nonneg; lia). rewrite load_short_eval by (rewrite ?length_low_bytes; done).
  set (top := Z.land h (Z.shiftr 0xFF n)) in *. cbn zeta.
  assert (Htop : top = (v / 2 ^ (8 * (n - 1))) mod 2 ^ (8 - n)).
  { rewrite Hh. unfold pv. rewrite mask_top by lia. by rewrite Z.shiftr_div_pow2 by lia. }
  assert (Hr : v mod 2 ^ (8 * (n - 1)) + 2 ^ (8 * (n - 1)) * top = v mod 2 ^ (7 * n)).
  { replace (7 * n) with (8 * (n - 1) + (8 - n)) by lia.
    rewrite Z.pow_add_r, Z.rem_mul_r by lia. by rewrite Htop. }
  assert (Htr : 0 ≤ top < 2 ^ (8 - n)) by (rewrite Htop; apply Z.mod_pos_bound; lia).
  pose proof (sign_fill n top ltac:(lia) Htr) as Hsf. apply bool_decide_eq_true in Hsf as [Hsign Hfill].
  pose proof (Z.mod_pos_bound v (2 ^ (8 * (n - 1))) ltac:(lia)) as Hlow.
  pose proof (Z.div_mod v (2 ^ (7 * n)) ltac:(lia)) as Hdm. pose proof (Z.mod_pos_bound v (2 ^ (7 * n)) ltac:(lia)) as Hmr.
  set (r := v mod 2 ^ (7 * n)) in *. set (q := v / 2 ^ (7 * n)) in *. set (lo := v mod 2 ^ (8 * (n - 1))) in *.
  assert (Hpow : 2 ^ (7 * n) = 2 * 2 ^ (7 * n - 1)) by (rewrite <-Z.pow_succ_r by lia; f_equal; lia).
  assert (Hpn : 2 ^ (7 * n - 1) = 2 ^ (8 * (n - 1)) * 2 ^ (7 - n)) by (rewrite <-Z.pow_add_r by lia; f_equal; lia).
  assert (Hpn' : 2 ^ (7 * n) = 2 ^ (8 * (n - 1)) * 2 ^ (8 - n)) by (rewrite <-Z.pow_add_r by lia; f_equal; lia).
  assert (Hpw : 2 ^ (7 * n - 1) ≤ 2 ^ (8 * w - 1)) by (apply Z.pow_le_mono_r; lia).
  assert (Hp256 : 256 ^ Z.of_nat (Z.to_nat (n - 1)) = 2 ^ (8 * (n - 1))).
  { change 256 with (2 ^ 8). rewrite <-Z.pow_mul_r by lia. f_equal. lia. }
  assert (Hw256 : 2 ^ (8 * (n - 1)) * (256 * 256 ^ Z.of_nat (Z.to_nat (w - n))) = 2 ^ (8 * w)).
  { change 256 with (2 ^ 8). rewrite <-Z.pow_mul_r, <-!Z.pow_add_r by lia. f_equal. lia. }
  assert (Hlo : lo = v mod 2 ^ (8 * Z.of_nat (Z.to_nat (n - 1)))) by (unfold lo; by rewrite Z2Nat.id by lia).
  set (B := 2 ^ (8 * (n - 1))) in *. set (W := 256 ^ Z.of_nat (Z.to_nat (w - n))) in *.
  assert (HT : B * 2 ^ (7 - n) ≤ B * top ↔ 2 ^ (7 - n) ≤ top) by (symmetry; apply Z.mul_le_mono_pos_l; lia).
  assert (HT' : 2 ^ (7 - n) > top → B * top + B ≤ B * 2 ^ (7 - n)).
  { intros Hlt. rewrite <-(Z.mul_1_r B) at 2. rewrite <-Z.mul_add_distr_l. apply Z.mul_le_mono_nonneg_l; lia. }
  rewrite Hpow in Hdm, Hmr.
  pose proof (quot_sign (2 ^ (7 * n - 1)) q r v HP Hdm Hmr Hv) as Hq.
  destruct (decide (Z.land (Z.shiftr top (7 - n)) 1 ≠ 0)) as [Hd|Hd]; eexists; (split; [reflexivity|]);
     rewrite from_bytes_app, length_low_bytes, from_low_bytes, Hp256, <-Hlo;
    cbn [from_bytes]; clear Htop Hlo Hp256; rewrite ?from_replicate_FF, ?from_replicate_0; fold W; clearbody top r q lo B W.
  - apply Hsign in Hd. rewrite Hfill by done.
    rewrite decide_True in Hq by lia. subst q.
    replace (lo + B * (top + 256 - 2 ^ (8 - n) + 256 * (W - 1)))
      with ((lo + B * top) - B * 2 ^ (8 - n) + B * (256 * W)) by lia.
    rewrite Hr, Hw256, <-Hpn'. replace (r - 2 ^ (7 * n) + 2 ^ (8 * w)) with (v + 1 * 2 ^ (8 * w)) by lia.
    rewrite swrap_add by lia. apply swrap_small; lia.
  - assert (Hlt : top < 2 ^ (7 - n)) by (destruct (decide (2 ^ (7 - n) ≤ top)); [tauto|lia]).
    rewrite decide_False in Hq by lia. subst q.
    replace (lo + B * (top + 256 * 0)) with (lo + B * top) by lia. rewrite Hr.
    replace r with v by lia. apply swrap_small; lia.
Qed.

(** ** Round trips *)

(** Length, mask and prefix of the tagged first byte. *)
Definition tags : list (Z * Z * Z) :=
  [(1, 0x7F, 0); (2, 0x3F, 0x80); (3, 0x1F, 0xC0); (4, 0x0F, 0xE0); (5, 0x07, 0xF0); (6, 0x03, 0xF8); (7, 0x01, 0xFC)].

Lemma tag_spec n m p x :
  (n, m, p) ∈ tags → 0 ≤ x < 256 →
  buf_size (tag m p x) = n ∧ Z.land (tag m p x) (Z.shiftr 0xFF n) = Z.land x (Z.shiftr 0xFF n).
Proof.
  intros Ht Hx.
  assert (Hall : forallb (λ '(n, m, p), forallb (λ x, bool_decide (buf_size (tag m p x) = n ∧
      Z.land (tag m p x) (Z.shiftr 0xFF n) = Z.land x (Z.shiftr 0xFF n))) (seqZ 0 256)) tags = true)
    by (vm_compute; reflexivity).
  rewrite forallb_forall in Hall. specialize (Hall (n, m, p) (proj1 (list_elem_of_In _ _) Ht)). cbn beta match in Hall.
  rewrite forallb_forall in Hall. specialize (Hall x). apply (bool_decide_eq_true_1 _), Hall.
  apply list_elem_of_In, elem_of_seqZ. lia.
Qed.

Lemma tags_range n m p : (n, m, p) ∈ tags → 1 ≤ n ≤ 7.
Proof. unfold tags. rewrite !elem_of_cons, elem_of_nil. naive_solver lia. Qed.

Lemma rd_0 b l : rd (b :: l) 0 = Done b.
Proof. done. Qed.

Lemma load_i64_tagged n m p v :
  (n, m, p) ∈ tags → - 2 ^ (7 * n - 1) ≤ v < 2 ^ (7 * n - 1) →
  load_i64 (tag m p (pv v (n - 1)) :: reverse (low_bytes v (Z.to_nat (n - 1)))) = Done v.
Proof.
  intros Ht Hv. pose proof (tags_range _ _ _ Ht) as Hn.
  destruct (tag_spec n m p (pv v (n - 1)) Ht (pv_range v (n - 1) ltac:(lia))) as [Hs Hm].
  destruct (load_short_correct 8 n v (tag m p (pv v (n - 1)))) as (q & Hl & Hq); [by right|lia|done|done|].
  unfold load_i64. rewrite rd_0. cbn [mbind result_bind]. rewrite Hs.
  rewrite decide_True by lia. rewrite Hl. cbn [mbind result_bind]. f_equal. exact Hq.
Qed.

Lemma load_i32_tagged n m p v :
  (n, m, p) ∈ tags → n ≤ 4 → - 2 ^ (7 * n - 1) ≤ v < 2 ^ (7 * n - 1) →
  load_i32 (tag m p (pv v (n - 1)) :: reverse (low_bytes v (Z.to_nat (n - 1)))) = Done v.
Proof.
  intros Ht Hn4 Hv. pose proof (tags_range _ _ _ Ht) as Hn.
  destruct (tag_spec n m p (pv v (n - 1)) Ht (pv_range v (n - 1) ltac:(lia))) as [Hs Hm].
  destruct (load_short_correct 4 n v (tag m p (pv v (n - 1)))) as (q & Hl & Hq); [by left|lia|done|done|].
  unfold load_i32. rewrite rd_0. cbn [mbind result_bind]. rewrite Hs.
  rewrite decide_True by lia. rewrite Hl. cbn [mbind result_bind]. f_equal. exact Hq.
Qed.

Lemma swrap_mod w v : 0 < w → - 2 ^ (w - 1) ≤ v < 2 ^ (w - 1) → swrap w (v mod 2 ^ w) = v.
Proof.
  intros Hw Hv. rewrite (Z.mod_eq v) by lia.
  replace (v - 2 ^ w * (v / 2 ^ w)) with (v + (- (v / 2 ^ w)) * 2 ^ w) by lia.
  rewrite swrap_add by done. by apply swrap_small.
Qed.

Lemma load_i64_long b0 v :
  b0 = 0xFE ∨ b0 = 0xFF → - 2 ^ 63 ≤ v < 2 ^ 63 → load_i64 (b0 :: reverse (low_bytes v 8)) = Done v.
Proof.
  intros Hb Hv. assert (load_i64 (b0 :: reverse (low_bytes v 8)) = Done (i64 (from_bytes (low_bytes v 8)))) as ->
    by by destruct Hb; subst b0.
  rewrite from_low_bytes. f_equal. by apply (swrap_mod 64).
Qed.

Lemma load_i32_long b0 v :
  b0 = 0xF7 ∨ b0 = 0xF0 → - 2 ^ 31 ≤ v < 2 ^ 31 → load_i32 (b0 :: reverse (low_bytes v 4)) = Done v.
Proof.
  intros Hb Hv. assert (load_i32 (b0 :: reverse (low_bytes v 4)) = Done (i32 (from_bytes (low_bytes v 4)))) as ->
    by by destruct Hb; subst b0.
  rewrite from_low_bytes. f_equal. by apply (swrap_mod 32).
Qed.

Ltac tag_in := unfold tags; repeat first [apply list_elem_of_here | apply list_elem_of_further].

Lemma dump_i64_load v : - 2 ^ 63 ≤ v < 2 ^ 63 → load_i64 (dump_i64 v).1 = Done v.
Proof.
  intros Hv. unfold dump_i64. repeat case_decide; cbn [fst].
  - rewrite <-(Z.lor_0_r (Z.land (pv v 0) 0x7F)). apply (load_i64_tagged 1 0x7F 0 v); [tag_in|cbn; lia].
  - apply (load_i64_tagged 2 0x3F 0x80 v); [tag_in|cbn; lia].
  - apply (load_i64_tagged 3 0x1F 0xC0 v); [tag_in|cbn; lia].
  - apply (load_i64_tagged 4 0x0F 0xE0 v); [tag_in|cbn; lia].
  - apply (load_i64_tagged 5 0x07 0xF0 v); [tag_in|cbn; lia].
  - apply (load_i64_tagged 6 0x03 0xF8 v); [tag_in|cbn; lia].
  - apply (load_i64_tagged 7 0x01 0xFC v); [tag_in|cbn; lia].
  - apply (load_i64_long 0xFE v); [by left|done].
  - apply (load_i64_long 0xFF v); [by right|done].
Qed.

Lemma dump_i32_load v : - 2 ^ 31 ≤ v < 2 ^ 31 → load_i32 (dump_i32 v).1 = Done v.
Proof.
  intros Hv. unfold dump_i32.
  repeat case_decide; cbn [fst].
  - rewrite <-(Z.lor_0_r (Z.land (pv v 0) 0x7F)). apply (load_i32_tagged 1 0x7F 0 v); [tag_in|lia|cbn; lia].
  - apply (load_i32_tagged 2 0x3F 0x80 v); [tag_in|lia|cbn; lia].
  - apply (load_i32_tagged 3 0x1F 0xC0 v); [tag_in|lia|cbn; lia].
  - apply (load_i32_tagged 4 0x0F 0xE0 v); [tag_in|lia|cbn; lia].
  - apply (load_i32_long 0xF7 v); [by left|done].
  - apply (load_i32_long 0xF0 v); [by right|done].
Qed.

(** The size returned is the one the first byte announces. *)
Lemma dump_i64_size v :
  (dump_i64 v).2 = val_size v ∧ buf_size <$> (dump_i64 v).1 !! 0%nat = Some (val_size v) ∧
  Z.of_nat (length (dump_i64 v).1) = if decide (val_size v = 8) then 9 else val_size v.
Proof.
  assert (Ht : ∀ n m p x, (n, m, p) ∈ tags → 0 ≤ x → buf_size (tag m p (pv v x)) = n).
  { intros n m p x Hin Hx. apply tag_spec; [done|by apply pv_range]. }
  unfold dump_i64, val_size. repeat case_decide; cbn [fst snd length lookup list_lookup fmap option_fmap option_map];
    try lia; (split; [done|]); (split; [|done]); f_equal; try done.
  - rewrite <-(Z.lor_0_r (Z.land (pv v 0) 0x7F)). apply (Ht 1 0x7F 0 0); [tag_in|lia].
  - apply Ht; [tag_in|lia].
  - apply Ht; [tag_in|lia].
  - apply Ht; [tag_in|lia].
  - apply Ht; [tag_in|lia].
  - apply Ht; [tag_in|lia].
  - apply Ht; [tag_in|lia].
Qed.

Lemma dump_i32_size v :
  - 2 ^ 31 ≤ v < 2 ^ 31 →
  (dump_i32 v).2 = val_size v ∧ buf_size <$> (dump_i32 v).1 !! 0%nat = Some (val_size v) ∧
  Z.of_nat (length (dump_i32 v).1) = val_size v.
Proof.
  intros Hv.
  assert (Ht : ∀ n m p x, (n, m, p) ∈ tags → 0 ≤ x → buf_size (tag m p (pv v x)) = n).
  { intros n m p x Hin Hx. apply tag_spec; [done|by apply pv_range]. }
  unfold dump_i32, val_size. repeat case_decide; cbn [fst snd length lookup list_lookup fmap option_fmap option_map];
    try lia; (split; [done|]); (split; [|done]); f_equal; try done.
  - rewrite <-(Z.lor_0_r (Z.land (pv v 0) 0x7F)). apply (Ht 1 0x7F 0 0); [tag_in|lia].
  - apply Ht; [tag_in|lia].
  - apply Ht; [tag_in|lia].
  - apply Ht; [tag_in|lia].
Qed.

(** ** Properties *)

(** [SparseInt::load_i32] reads back every 32-bit integer from the bytes that
    [dump] stores; their number is the size returned, the size that the first byte
    announces, and [val_size]. *)
Theorem sparse_i32_roundtrip v :
  - 2 ^ 31 ≤ v < 2 ^ 31 →
  let '(buf, n) := dump_i32 v in
  load_i32 buf = Done v ∧ n = val_size v ∧ Z.of_nat (length buf) = n ∧ buf_size <$> buf !! 0%nat = Some n.
Proof.
  intros Hv. pose proof (dump_i32_load v Hv) as Hl. pose proof (dump_i32_size v Hv) as (Hn & H0 & Hlen).
  destruct (dump_i32 v) as [buf n]. cbn [fst snd] in *. subst n. auto.
Qed.

(** [SparseInt::load_i64] reads back every 64-bit integer from the bytes that
    [dump] stores, and [dump] returns the size that the first byte announces, but
    for sizes of eight bytes it has stored nine. *)
Theorem sparse_i64_roundtrip v :
  - 2 ^ 63 ≤ v < 2 ^ 63 →
  let '(buf, n) := dump_i64 v in
  load_i64 buf = Done v ∧ n = val_size v ∧ buf_size <$> buf !! 0%nat = Some n ∧
  Z.of_nat (length buf) = if decide (n = 8) then 9 else n.
Proof.
  intros Hv. pose proof (dump_i64_load v Hv) as Hl. pose proof (dump_i64_size v) as (Hn & H0 & Hlen).
  destruct (dump_i64 v) as [buf n]. cbn [fst snd] in *. subst n. auto.
Qed.

(** The eight bytes that [dump] announces for an integer of the 56-bit class do
    not determine it: the least significant byte is the ninth one, so a reader
    that receives the announced bytes loads an uninitialised byte. *)
Theorem sparse_eight_bytes_lost v :
  val_size v = 8 → (dump_i64 v).2 = 8 ∧ load_i64 (take 8 (dump_i64 v).1) = Crash uninitialised.
Proof.
  intros Hs. pose proof (dump_i64_size v) as (Hn & _ & _). rewrite Hs in Hn. split; [done|].
  revert Hn. unfold dump_i64. repeat case_decide; cbn [fst snd]; intros Hn; try lia. reflexivity.
Qed.

Lemma sparse_i32_roundtrip_witness :
  - 2 ^ 31 ≤ -134217729 < 2 ^ 31 ∧ dump_i32 (-134217729) = ([0xF7; 0xF7; 0xFF; 0xFF; 0xFF], 5) ∧
  load_i32 (dump_i32 (-134217729)).1 = Done (-134217729).
Proof.
  split; [lia|]. split; [vm_compute; reflexivity|].
  apply (sparse_i32_roundtrip (-134217729)). lia.
Defined.

Lemma sparse_i64_roundtrip_witness :
  - 2 ^ 63 ≤ -3000000000000 < 2 ^ 63 ∧ load_i64 (dump_i64 (-3000000000000)).1 = Done (-3000000000000).
Proof. split; [lia|]. apply (sparse_i64_roundtrip (-3000000000000)). lia. Defined.

Lemma sparse_eight_bytes_lost_witness :
  val_size 281474976710656 = 8 ∧ (dump_i64 281474976710656).2 = 8 ∧
  load_i64 (take 8 (dump_i64 281474976710656).1) = Crash uninitialised.
Proof.
  split; [vm_compute; reflexivity|].
  apply (sparse_eight_bytes_lost 281474976710656). vm_compute. reflexivity.
Defined.
