(* ===== verification/Marshal.v ===== *)
(** * Byte queues for RPC messages

    Models [rrr::Marshal] (src/rococo-dst/rrr/misc/marshal.{hpp,cpp}): a queue of bytes held in a
    linked list of chunks.  A chunk is a window into a [raw_bytes] block, and blocks
    can be shared by two queues, so the blocks live in an explicit heap.  A byte is
    [None] until it is stored.  Indices and sizes are [nat]: they are bounded by the
    sizes of blocks that exist.  [head_] and [tail_] are the ends of the list [chunks].
    Reference counts only decide when a block is freed; the heap keeps every block. *)

From S2P Require Import Prelude.

Abbreviation bytes := (list (option Z)).
Abbreviation heap := (gmap Z bytes).

Definition min_size : nat := Z.to_nat 8192.

(** [raw_bytes(sz)] and [raw_bytes(p, n)] *)
Definition raw_bytes_new : bytes := replicate min_size None.
Definition raw_bytes_copy (p : bytes) : bytes := p ++ replicate (min_size - length p) None.

Record chunk := mkChunk { data : Z; read_idx : nat; write_idx : nat }.

Record Marshal := mkMarshal { chunks : list chunk; write_cnt_ : Z; content_size_ : nat }.

Definition Marshal_new : Marshal := mkMarshal [] 0 0.

Definition block (h : heap) (c : chunk) : bytes := default [] (h !! data c).
Definition size_of (h : heap) (c : chunk) : nat := length (block h c).

(** ** Operations of a chunk *)

Definition chunk_new (h : heap) (b : bytes) (n : nat) : heap * chunk :=
  let l := fresh (dom h) in (<[l := b]> h, mkChunk l 0 n).

Definition shared_copy (c : chunk) : chunk := mkChunk (data c) (read_idx c) (write_idx c).

Definition content_size (c : chunk) : nat := write_idx c - read_idx c.

Definition fully_written (h : heap) (c : chunk) : bool := bool_decide (write_idx c = size_of h c).
Definition fully_read (h : heap) (c : chunk) : bool := bool_decide (read_idx c = size_of h c).

(** The [n] bytes of a block from position [i]. *)
Definition slice (b : bytes) (i n : nat) : bytes := take n (drop i b).

(** [memcpy(b + i, p, |p|)] *)
Definition overwrite (b : bytes) (i : nat) (p : bytes) : bytes := take i b ++ p ++ drop (i + length p) b.

Definition chunk_write (h : heap) (c : chunk) (p : bytes) : heap * chunk * nat :=
  let n_write := Nat.min (length p) (size_of h c - write_idx c) in
  (<[data c := overwrite (block h c) (write_idx c) (take n_write p)]> h,
   mkChunk (data c) (read_idx c) (write_idx c + n_write), n_write).

Definition chunk_read (h : heap) (c : chunk) (n : nat) : bytes * chunk * nat :=
  let n_read := Nat.min n (write_idx c - read_idx c) in
  (slice (block h c) (read_idx c) n_read, mkChunk (data c) (read_idx c + n_read) (write_idx c), n_read).

Definition chunk_peek (h : heap) (c : chunk) (n : nat) : bytes * nat :=
  let n_peek := Nat.min n (write_idx c - read_idx c) in (slice (block h c) (read_idx c) n_peek, n_peek).

Definition chunk_discard (c : chunk) (n : nat) : chunk * nat :=
  let n_discard := Nat.min n (write_idx c - read_idx c) in
  (mkChunk (data c) (read_idx c + n_discard) (write_idx c), n_discard).

(** The position handed out is a block and an index into it. *)
Definition chunk_set_bookmark (c : chunk) : (Z * nat) * chunk :=
  ((data c, write_idx c), mkChunk (data c) (read_idx c) (S (write_idx c))).

(** ** Operations of the queue *)

Definition content_size_slow (cs : list chunk) : nat := sum_list_with content_size cs.

Definition empty (m : Marshal) : bool := bool_decide (content_size_ m = 0%nat).

(** [assert(empty() || (head_ != nullptr && !head_->fully_read()))] *)
Definition head_ok (h : heap) (m : Marshal) : bool :=
  empty m || match chunks m with [] => false | c :: _ => negb (fully_read h c) end.

(** [Marshal::write]; [removelast] is the list before [tail_]. *)
Definition write (h : heap) (m : Marshal) (p : bytes) : result (heap * Marshal * nat) :=
  let n := length p in
  '(h, cs) ← match last (chunks m) with
    | None => let '(h, c) := chunk_new h (raw_bytes_copy p) n in Done (h, [c])
    | Some t =>
        if fully_written h t then
          let '(h, c) := chunk_new h (raw_bytes_copy p) n in Done (h, chunks m ++ [c])
        else
          let '(h, t, n_write) := chunk_write h t p in
          _ ← verify (bool_decide (0 < n_write)%nat);
          let cs := removelast (chunks m) ++ [t] in
          if decide (n_write < n)%nat then
            let '(h, c) := chunk_new h (raw_bytes_copy (drop n_write p)) (n - n_write) in Done (h, cs ++ [c])
          else Done (h, cs)
    end;
  let m := mkMarshal cs (i32 (write_cnt_ m + Z.of_nat n)) (content_size_ m + n) in
  _ ← verify (bool_decide (content_size_ m = content_size_slow cs));
  Done (h, m, n).

(** The loop of [Marshal::read]: the bytes read so far and the remaining chunks. *)
Fixpoint read_loop (fuel : nat) (h : heap) (cs : list chunk) (n : nat) (acc : bytes) : result (bytes * list chunk) :=
  match fuel with
  | O => Spin
  | S fuel =>
      match cs with
      | [] => Done (acc, cs)
      | c :: rest =>
          if decide (length acc < n ∧ 0 < content_size c)%nat then
            let '(bs, c, cnt) := chunk_read h c (n - length acc) in
            let cs := if fully_read h c then rest else c :: rest in
            if decide (cnt = 0%nat) then Done (acc, cs) else read_loop fuel h cs n (acc ++ bs)
          else Done (acc, cs)
      end
  end.

Definition read (h : heap) (m : Marshal) (n : nat) : result (bytes * Marshal) :=
  _ ← verify (head_ok h m);
  '(bs, cs) ← read_loop (S (S (length (chunks m)))) h (chunks m) n [];
  let n_read := length bs in
  _ ← verify (bool_decide (n_read ≤ content_size_ m)%nat);
  let m := mkMarshal cs (write_cnt_ m) (content_size_ m - n_read) in
  _ ← verify (bool_decide (content_size_ m = content_size_slow cs));
  _ ← verify (bool_decide (n_read ≤ n)%nat);
  _ ← verify (head_ok h m);
  Done (bs, m).

Fixpoint peek_loop (h : heap) (cs : list chunk) (n : nat) (acc : bytes) : bytes :=
  match cs with
  | [] => acc
  | c :: cs =>
      if decide (0 < n - length acc)%nat then
        let '(bs, cnt) := chunk_peek h c (n - length acc) in
        if decide (cnt = 0%nat) then acc else peek_loop h cs n (acc ++ bs)
      else acc
  end.

Definition peek (h : heap) (m : Marshal) (n : nat) : result bytes :=
  _ ← verify (head_ok h m);
  let bs := peek_loop h (chunks m) n [] in
  _ ← verify (bool_decide (length bs ≤ n)%nat);
  Done bs.

(** The pointer-copying loop of [Marshal::read_from_marshal]: chunks for this queue,
    chunks left in [m], bytes fetched. *)
Fixpoint share_loop (fuel : nat) (h : heap) (cs mcs : list chunk) (n n_fetch : nat) : result (list chunk * list chunk * nat) :=
  match fuel with
  | O => Spin
  | S fuel =>
      if decide (n_fetch < n)%nat then
        match mcs with
        | [] => Crash invalid_access
        | mc :: rest =>
            let chnk := shared_copy mc in
            let chnk :=
              if decide (n < n_fetch + content_size chnk)%nat
              then mkChunk (data chnk) (read_idx chnk) (write_idx chnk - (n_fetch + content_size chnk - n))
              else chnk in
            let cnt := content_size chnk in
            _ ← verify (bool_decide (0 < cnt)%nat);
            let '(mc, d) := chunk_discard mc cnt in
            _ ← verify (bool_decide (d = cnt));
            share_loop fuel h (cs ++ [chnk]) (if fully_read h mc then rest else mc :: rest) n (n_fetch + cnt)
        end
      else Done (cs, mcs, n_fetch)
  end.

(** The branch of [read_from_marshal] that shares chunks. *)
Definition share_from (h : heap) (this m : Marshal) (n : nat) : result (Marshal * Marshal * nat) :=
  '(cs, mcs, n_fetch) ← share_loop (S (length (chunks m))) h (chunks this) (chunks m) n 0;
  let this := mkMarshal cs (i32 (write_cnt_ this + Z.of_nat n_fetch)) (content_size_ this + n_fetch) in
  _ ← verify (bool_decide (n_fetch ≤ content_size_ m)%nat);
  Done (this, mkMarshal mcs (write_cnt_ m) (content_size_ m - n_fetch), n_fetch).

(** The recursive call finds the tail fully written, so that two levels suffice. *)
Fixpoint read_from_marshal_n (fuel : nat) (h : heap) (this m : Marshal) (n : nat) : result (heap * Marshal * Marshal * nat) :=
  match fuel with
  | O => Spin
  | S fuel =>
      _ ← verify (bool_decide (n ≤ content_size_ m)%nat);
      '(h, this, m, n_fetch) ←
        match last (chunks this) with
        | None => '(this, m, k) ← share_from h this m n; Done (h, this, m, k)
        | Some t =>
            if fully_written h t then '(this, m, k) ← share_from h this m n; Done (h, this, m, k)
            else
              let copy_n := Nat.min (size_of h t - write_idx t) n in
              '(buf, m) ← read h m copy_n;
              _ ← verify (bool_decide (length buf = copy_n));
              '(h, this, w) ← write h this buf;
              _ ← verify (bool_decide (w = copy_n));
              let leftover := (n - copy_n)%nat in
              if decide (0 < leftover)%nat then
                _ ← verify (from_option (fully_written h) false (last (chunks this)));
                '(h, this, m, k) ← read_from_marshal_n fuel h this m leftover;
                Done (h, this, m, (copy_n + k)%nat)
              else Done (h, this, m, copy_n)
        end;
      _ ← verify (bool_decide (n_fetch = n));
      _ ← verify (bool_decide (content_size_ this = content_size_slow (chunks this)));
      Done (h, this, m, n_fetch)
  end.

Definition read_from_marshal : heap → Marshal → Marshal → nat → result (heap * Marshal * Marshal * nat) :=
  read_from_marshal_n 2.

(** [Marshal::set_bookmark] and [write_bookmark] *)
Definition bookmark_step (s : heap * list chunk * list (Z * nat)) : result (heap * list chunk * list (Z * nat)) :=
  let '(h, cs, ptr) := s in
  let '(h, cs) := match last cs with
    | None => let '(h, c) := chunk_new h raw_bytes_new 0 in (h, [c])
    | Some t => if fully_written h t then let '(h, c) := chunk_new h raw_bytes_new 0 in (h, cs ++ [c]) else (h, cs)
    end in
  match last cs with
  | None => Crash invalid_access
  | Some t => let '(p, t) := chunk_set_bookmark t in Done (h, removelast cs ++ [t], ptr ++ [p])
  end.

Definition set_bookmark (h : heap) (m : Marshal) (n : nat) : result (heap * Marshal * list (Z * nat)) :=
  _ ← verify (bool_decide (write_cnt_ m = 0));
  '(h, cs, ptr) ← for_each (λ s _, bookmark_step s) (seq 0 n) (h, chunks m, []);
  let m := mkMarshal cs (write_cnt_ m) (content_size_ m + n) in
  _ ← verify (bool_decide (content_size_ m = content_size_slow cs));
  Done (h, m, ptr).

Definition write_bookmark (h : heap) (bm : list (Z * nat)) (p : bytes) : heap :=
  foldl (λ h '((l, i), x), alter (λ b, <[i := x]> b) l h) h (zip bm p).

Definition get_and_reset_write_cnt (m : Marshal) : Z * Marshal :=
  (write_cnt_ m, mkMarshal (chunks m) 0 (content_size_ m)).

(** ** Contents and well-formedness *)

Definition chunk_content (h : heap) (c : chunk) : bytes := slice (block h c) (read_idx c) (content_size c).
Definition contents (h : heap) (cs : list chunk) : bytes := cs ≫= chunk_content h.

Record chunk_ok (h : heap) (c : chunk) : Prop := {
  ck_dom : data c ∈ dom h;
  ck_order : (read_idx c ≤ write_idx c ≤ size_of h c)%nat;
  ck_unread : (read_idx c < size_of h c)%nat;
}.

Definition full (h : heap) (c : chunk) : Prop := write_idx c = size_of h c.

Record queue_ok (h : heap) (cs : list chunk) : Prop := {
  qo_chunk : Forall (chunk_ok h) cs;
  qo_nodup : NoDup (data <$> cs);
  qo_full : Forall (full h) (removelast cs);
}.

(** A well-formed queue: the recorded size is the size of the contents. *)
Record marshal_ok (h : heap) (m : Marshal) : Prop := {
  mo_queue : queue_ok h (chunks m);
  mo_size : content_size_ m = length (contents h (chunks m));
}.

Lemma length_slice b i n : (i + n ≤ length b)%nat → length (slice b i n) = n.
Proof. intros Hb. unfold slice. rewrite length_take, length_drop. lia. Qed.

Lemma slice_overwrite b r w p :
  (r ≤ w ≤ length b)%nat → slice (overwrite b w p) r (w + length p - r) = slice b r (w - r) ++ p.
Proof.
  intros Hw. unfold slice, overwrite. rewrite drop_app_le by (rewrite length_take; lia).
  assert (Hl : length (drop r (take w b)) = (w - r)%nat) by (rewrite length_drop, length_take; lia).
  replace (w + length p - r)%nat with (length (drop r (take w b)) + length p)%nat by lia.
  rewrite take_app_add, take_app_length. f_equal.
  rewrite firstn_skipn_comm. do 2 f_equal. lia.
Qed.

Lemma length_chunk_content h c : chunk_ok h c → length (chunk_content h c) = content_size c.
Proof.
  intros [_ Ho _]. unfold chunk_content. apply length_slice. unfold content_size, size_of in *. lia.
Qed.

Lemma contents_cons h c cs : contents h (c :: cs) = chunk_content h c ++ contents h cs.
Proof. done. Qed.
Lemma contents_app h cs1 cs2 : contents h (cs1 ++ cs2) = contents h cs1 ++ contents h cs2.
Proof. apply bind_app. Qed.

Lemma length_contents h cs : Forall (chunk_ok h) cs → length (contents h cs) = content_size_slow cs.
Proof.
  induction 1 as [|c cs Hc Hcs IH]; [done|]. rewrite contents_cons, length_app, length_chunk_content, IH by done.
  done.
Qed.

(** What depends on the heap depends on the blocks of the chunks only. *)
Lemma block_frame h h' c : h' !! data c = h !! data c → block h' c = block h c.
Proof. unfold block. by intros ->. Qed.

Lemma chunk_ok_frame h h' c : h' !! data c = h !! data c → chunk_ok h c → chunk_ok h' c.
Proof.
  intros Hl [Hd Ho Hu]. pose proof (block_frame _ _ _ Hl) as Hb. constructor; unfold size_of in *; rewrite ?Hb; auto.
  apply elem_of_dom. rewrite Hl. by apply elem_of_dom.
Qed.

Lemma contents_frame h h' cs : (∀ c, c ∈ cs → h' !! data c = h !! data c) → contents h' cs = contents h cs.
Proof.
  intros Hl. induction cs as [|c cs IH]; [done|]. rewrite !contents_cons, IH by set_solver.
  unfold chunk_content. by rewrite (block_frame h h' c) by set_solver.
Qed.

Lemma full_frame h h' c : h' !! data c = h !! data c → full h c → full h' c.
Proof. intros Hl. unfold full, size_of. by rewrite (block_frame _ _ _ Hl). Qed.

Lemma removelast_snoc {A} (l : list A) x : removelast (l ++ [x]) = l.
Proof. apply removelast_last. Qed.

Lemma min_size_pos : (0 < min_size)%nat.
Proof. unfold min_size. lia. Qed.

(** ** Writing *)

Lemma new_chunk_ok h cs p b n h' c :
  Forall (chunk_ok h) cs → NoDup (data <$> cs) → Forall (full h) cs →
  (n ≤ length b)%nat → (0 < length b)%nat → take n b = p → chunk_new h b n = (h', c) →
  queue_ok h' (cs ++ [c]) ∧ contents h' (cs ++ [c]) = contents h cs ++ p ∧ ∀ l, l ∈ dom h → h' !! l = h !! l.
Proof.
  intros Hok Hnd Hfu Hn Hb Hp Hnew. unfold chunk_new in Hnew. injection Hnew as <- <-.
  set (l := fresh (dom h)). assert (Hl : l ∉ dom h) by apply is_fresh.
  assert (Hfr : ∀ k, k ∈ dom h → <[l := b]> h !! k = h !! k) by (intros k Hk; apply lookup_insert_ne; congruence).
  assert (Hcs : ∀ c, c ∈ cs → <[l := b]> h !! data c = h !! data c).
  { intros c Hc. rewrite Forall_forall in Hok. by apply Hfr, (ck_dom h c), Hok. }
  assert (Hbl : block (<[l := b]> h) (mkChunk l 0 n) = b) by (unfold block; cbn; by rewrite lookup_insert_eq).
  split; [|split; [|done]].
  - constructor.
    + apply Forall_app. split.
      * rewrite Forall_forall in Hok |- *. intros c Hc. by eapply chunk_ok_frame; [apply Hcs|apply Hok].
      * constructor; [|constructor]. constructor; unfold size_of; rewrite ?Hbl; cbn; [|lia..].
        rewrite dom_insert. set_solver.
    + rewrite fmap_app. apply NoDup_app. split; [done|]. split; [|apply NoDup_singleton].
      intros x Hx Hx'%list_elem_of_singleton. cbn in Hx'. subst x. apply list_elem_of_fmap in Hx as (c & Hc1 & Hc2).
      rewrite Forall_forall in Hok. apply Hl. rewrite Hc1. by apply (ck_dom h c), Hok.
    + rewrite removelast_snoc. rewrite Forall_forall in Hfu |- *. intros c Hc. by eapply full_frame; [apply Hcs|apply Hfu].
  - rewrite contents_app, (contents_frame h) by done. f_equal. rewrite contents_cons. unfold contents. cbn.
    rewrite app_nil_r. unfold chunk_content. rewrite Hbl. unfold slice, content_size. cbn. by rewrite Nat.sub_0_r, drop_0.
Qed.

Lemma chunk_write_ok h cs t p h' t' k :
  queue_ok h (cs ++ [t]) → chunk_write h t p = (h', t', k) →
  queue_ok h' (cs ++ [t']) ∧ contents h' (cs ++ [t']) = contents h (cs ++ [t]) ++ take k p ∧
  k = Nat.min (length p) (size_of h t - write_idx t) ∧ size_of h' t' = size_of h t ∧ write_idx t' = (write_idx t + k)%nat ∧
  dom h' = dom h ∧ data t' = data t ∧ ∀ l, l ≠ data t → h' !! l = h !! l.
Proof.
  intros [Hok Hnd Hfu] Hw. unfold chunk_write in Hw. injection Hw as <- <- <-.
  set (k := Nat.min (length p) (size_of h t - write_idx t)).
  apply Forall_app in Hok as [Hok Ht]. apply Forall_cons in Ht as [[Hd Ho Hu] _].
  rewrite removelast_snoc in Hfu.
  set (b' := overwrite (block h t) (write_idx t) (take k p)).
  assert (Hlt : length (take k p) = k) by (rewrite length_take; lia).
  assert (Hb' : length b' = size_of h t).
  { unfold b', overwrite. rewrite !length_app, length_take, length_drop, Hlt. fold (size_of h t). lia. }
  assert (Hbl : block (<[data t := b']> h) (mkChunk (data t) (read_idx t) (write_idx t + k)) = b')
    by (unfold block; cbn; by rewrite lookup_insert_eq).
  rewrite fmap_app in Hnd. apply NoDup_app in Hnd as (Hnd & Hdis & Hnd').
  assert (Hcs : ∀ c, c ∈ cs → <[data t := b']> h !! data c = h !! data c).
  { intros c Hc. apply lookup_insert_ne. intros Heq. apply (Hdis (data c)); [by apply list_elem_of_fmap_2|].
    rewrite <-Heq. by left. }
  split; [|split; [|split; [done|split; [|split; [done|split; [|split; [done|]]]]]]].
  - constructor.
    + apply Forall_app. split.
      * rewrite Forall_forall in Hok |- *. intros c Hc. by eapply chunk_ok_frame; [apply Hcs|apply Hok].
      * constructor; [|constructor]. constructor; unfold size_of; rewrite ?Hbl, ?Hb'; cbn; [|lia..].
        rewrite dom_insert. set_solver.
    + rewrite fmap_app. apply NoDup_app. split; [done|]. split; [done|done].
    + rewrite removelast_snoc. rewrite Forall_forall in Hfu |- *. intros c Hc. by eapply full_frame; [apply Hcs|apply Hfu].
  - rewrite !contents_app, (contents_frame h) by done. rewrite <-app_assoc. f_equal. unfold contents. cbn.
    rewrite !app_nil_r. unfold chunk_content. rewrite Hbl. unfold slice, content_size. cbn [read_idx write_idx].
    fold (slice b' (read_idx t) (write_idx t + k - read_idx t)) (slice (block h t) (read_idx t) (write_idx t - read_idx t)).
    unfold b'.
    rewrite <-Hlt at 2. apply slice_overwrite; rewrite ?Hlt; unfold size_of in *; lia.
  - unfold size_of. by rewrite Hbl.
  - rewrite dom_insert_L. set_solver.
  - intros l Hl. by apply lookup_insert_ne.
Qed.

Lemma raw_bytes_copy_len p : (length p ≤ length (raw_bytes_copy p) ∧ 0 < length (raw_bytes_copy p))%nat.
Proof. unfold raw_bytes_copy. rewrite length_app, length_replicate. pose proof min_size_pos. lia. Qed.

Lemma take_raw_bytes_copy p n : n = length p → take n (raw_bytes_copy p) = p.
Proof. intros ->. apply take_app_length. Qed.

Lemma fully_written_spec h c : fully_written h c = true ↔ full h c.
Proof. apply bool_decide_eq_true. Qed.

Lemma queue_ok_all h cs t : queue_ok h (cs ++ [t]) → full h t → Forall (full h) (cs ++ [t]).
Proof. intros [_ _ Hf] Ht. rewrite removelast_snoc in Hf. apply Forall_app. auto. Qed.

Lemma queue_ok_nil h : queue_ok h [].
Proof. repeat constructor. Qed.

(** The chunks after a write. *)
Lemma write_chunks h m p :
  queue_ok h (chunks m) → p ≠ [] →
  ∃ h' cs, queue_ok h' cs ∧ contents h' cs = contents h (chunks m) ++ p ∧
    (∀ l, l ∈ dom h → l ∉ data <$> chunks m → h' !! l = h !! l) ∧
    write h m p =
      (let m' := mkMarshal cs (i32 (write_cnt_ m + Z.of_nat (length p))) (content_size_ m + length p) in
       _ ← verify (bool_decide (content_size_ m' = content_size_slow cs)); Done (h', m', length p)).
Proof.
  intros Hq Hp. destruct (raw_bytes_copy_len p) as [Hl Hpos]. unfold write.
  destruct (last (chunks m)) as [t|] eqn:Hlast.
  - apply last_Some in Hlast as [cs Hcs]. rewrite Hcs in *. destruct (fully_written h t) eqn:Hft.
    + apply fully_written_spec in Hft. destruct (chunk_new h (raw_bytes_copy p) (length p)) as [h' c] eqn:Hnew.
      destruct (new_chunk_ok h (cs ++ [t]) p _ _ h' c (qo_chunk _ _ Hq) (qo_nodup _ _ Hq) (queue_ok_all _ _ _ Hq Hft) Hl Hpos
                  (take_raw_bytes_copy p _ eq_refl) Hnew) as (H1 & H2 & H3).
      exists h', ((cs ++ [t]) ++ [c]). split; [done|]. split; [done|]. split; [auto|done].
    + destruct (chunk_write h t p) as [[h' t'] k] eqn:Hw.
      destruct (chunk_write_ok h cs t p h' t' k Hq Hw) as (H1 & H2 & Hk & Hsz & Hwi & Hdom & Hdt & Hfr).
      assert (Hwt : (write_idx t < size_of h t)%nat).
      { destruct Hq as [Hok _ _]. apply Forall_app in Hok as [_ Ht]. apply Forall_cons in Ht as [[_ Ho _] _].
        apply bool_decide_eq_false in Hft. lia. }
      assert (Hlp : length p ≠ 0%nat) by (by intros ?%length_zero_iff_nil).
      rewrite bool_decide_eq_true_2 by lia. cbn [verify mbind result_bind]. rewrite removelast_snoc.
      assert (Hfr' : ∀ l, l ∈ dom h → l ∉ data <$> cs ++ [t] → h' !! l = h !! l).
      { intros l _ Hnl. apply Hfr. intros ->. apply Hnl, list_elem_of_fmap_2. set_solver. }
      case_decide as Hlt.
      * destruct (chunk_new h' (raw_bytes_copy (drop k p)) (length p - k)) as [h'' c] eqn:Hnew.
        destruct (raw_bytes_copy_len (drop k p)) as [Hl' Hpos']. rewrite length_drop in Hl'.
        assert (Hfull : Forall (full h') (cs ++ [t'])) by (apply queue_ok_all; [done|unfold full; lia]).
        destruct (new_chunk_ok h' (cs ++ [t']) (drop k p) _ _ h'' c (qo_chunk _ _ H1) (qo_nodup _ _ H1) Hfull Hl' Hpos'
                    (take_raw_bytes_copy (drop k p) _ ltac:(by rewrite length_drop)) Hnew) as (G1 & G2 & G3).
        exists h'', ((cs ++ [t']) ++ [c]). split; [done|]. split; [|split; [|done]].
        -- by rewrite G2, H2, <-app_assoc, take_drop.
        -- intros l Hd Hnl. rewrite G3 by (rewrite Hdom; done). auto.
      * exists h', (cs ++ [t']). split; [done|]. split; [|split; [done|done]]. rewrite H2. f_equal. apply take_ge. lia.
  - apply last_None in Hlast. rewrite Hlast in *. destruct (chunk_new h (raw_bytes_copy p) (length p)) as [h' c] eqn:Hnew.
    destruct (new_chunk_ok h [] p _ _ h' c (qo_chunk _ _ Hq) (qo_nodup _ _ Hq) (Forall_nil_2 _) Hl Hpos
                (take_raw_bytes_copy p _ eq_refl) Hnew) as (H1 & H2 & H3).
    exists h', [c]. split; [done|]. split; [done|]. split; [auto|done].
Qed.

Lemma write_spec h m p :
  marshal_ok h m → p ≠ [] →
  ∃ h' m', write h m p = Done (h', m', length p) ∧ marshal_ok h' m' ∧
    contents h' (chunks m') = contents h (chunks m) ++ p ∧
    ∀ l, l ∈ dom h → l ∉ data <$> chunks m → h' !! l = h !! l.
Proof.
  intros [Hq Hs] Hp. destruct (write_chunks h m p Hq Hp) as (h' & cs & Hq' & Hc & Hfr & ->). cbn zeta.
  assert (Hsz : (content_size_ m + length p)%nat = length (contents h' cs)) by (rewrite Hc, length_app; lia).
  rewrite bool_decide_eq_true_2 by (cbn; rewrite Hsz; apply length_contents, (qo_chunk _ _ Hq')).
  cbn [verify mbind result_bind]. eexists h', _. split; [reflexivity|]. split; [|done]. by constructor.
Qed.

(** ** Reading *)

Lemma slice_take b r w k : (k ≤ w - r)%nat → slice b r k = take k (slice b r (w - r)).
Proof. intros Hk. unfold slice. rewrite take_take. f_equal. lia. Qed.

Lemma slice_drop b r w k : (k ≤ w - r)%nat → slice b (r + k) (w - (r + k)) = drop k (slice b r (w - r)).
Proof.
  intros Hk. unfold slice. rewrite <-drop_drop, firstn_skipn_comm. do 2 f_equal. lia.
Qed.

Lemma queue_ok_tail h c cs : queue_ok h (c :: cs) → queue_ok h cs ∧ (cs ≠ [] → full h c) ∧ chunk_ok h c.
Proof.
  intros [Hok Hnd Hf]. apply Forall_cons in Hok as [Hc Hok]. cbn in Hnd. apply NoDup_cons in Hnd as [_ Hnd].
  destruct cs as [|d cs]; [by split; [apply queue_ok_nil|]|]. cbn in Hf. apply Forall_cons in Hf as [Hfc Hf].
  split; [by constructor|done].
Qed.

(** Moving the read position of the first chunk forward. *)
Lemma queue_ok_advance h c cs k :
  queue_ok h (c :: cs) → (k ≤ content_size c)%nat → (read_idx c + k < size_of h c)%nat →
  let c' := mkChunk (data c) (read_idx c + k) (write_idx c) in
  queue_ok h (c' :: cs) ∧ chunk_content h c' = drop k (chunk_content h c).
Proof.
  intros Hq Hk Hlt c'. destruct (queue_ok_tail _ _ _ Hq) as (_ & _ & [Hd Ho Hu]). unfold content_size in Hk. split.
  - destruct Hq as [Hok Hnd Hf]. constructor; [|done|].
    + apply Forall_cons in Hok as [_ Hok]. constructor; [|done]. constructor; cbn; [done| |done].
      change (size_of h c') with (size_of h c). lia.
    + destruct cs as [|d cs]; [done|]. cbn in Hf |- *. apply Forall_cons in Hf as [Hfc Hf]. by constructor.
  - unfold chunk_content, content_size. cbn. apply slice_drop. lia.
Qed.

Lemma read_loop_spec fuel : ∀ h cs n acc,
  queue_ok h cs → (length acc ≤ n)%nat → (S (length cs) < fuel)%nat →
  ∃ cs', read_loop fuel h cs n acc = Done (acc ++ take (n - length acc) (contents h cs), cs') ∧
    queue_ok h cs' ∧ contents h cs' = drop (n - length acc) (contents h cs) ∧
    ∀ l, l ∈ data <$> cs' → l ∈ data <$> cs.
Proof.
  induction fuel as [|fuel IH]; intros h cs n acc Hq Ha Hf; [lia|]. cbn [read_loop].
  destruct cs as [|c cs].
  { exists []. unfold contents. cbn. by rewrite take_nil, drop_nil, app_nil_r. }
  destruct (queue_ok_tail _ _ _ Hq) as (Hq' & Hfull & Hck).
  pose proof (length_chunk_content h c Hck) as Hlc. rewrite contents_cons.
  case_decide as Hloop.
  2: { exists (c :: cs). destruct (decide (n - length acc = 0)%nat) as [->|Hn].
       - by rewrite take_0, drop_0, app_nil_r.
       - assert (Hc0 : content_size c = 0%nat) by lia.
         assert (cs = []) as ->.
         { destruct cs as [|d cs]; [done|]. specialize (Hfull ltac:(done)). unfold full, content_size in *.
           destruct Hck. lia. }
         rewrite Hc0 in Hlc. apply length_zero_iff_nil in Hlc. rewrite contents_cons, Hlc. unfold contents. cbn.
         by rewrite take_nil, drop_nil, app_nil_r. }
  destruct Hloop as [Hlt Hpos]. unfold chunk_read. fold (content_size c).
  set (k := Nat.min (n - length acc) (content_size c)).
  set (c' := mkChunk (data c) (read_idx c + k) (write_idx c)).
  assert (Hk : (0 < k)%nat) by lia.
  assert (Hsl : slice (block h c) (read_idx c) k = take k (chunk_content h c)) by (apply slice_take; unfold content_size in *; lia).
  assert (Hlen : length (slice (block h c) (read_idx c) k) = k) by (rewrite Hsl, length_take; lia).
  rewrite (decide_False (P := k = 0%nat)) by lia. destruct (fully_read h c') eqn:Hfr.
  - (* the chunk is used up *)
    apply bool_decide_eq_true in Hfr. change (size_of h c') with (size_of h c) in Hfr. cbn in Hfr.
    assert (Hkc : k = content_size c) by (destruct Hck; unfold content_size in *; lia).
    destruct (IH h cs n (acc ++ slice (block h c) (read_idx c) k)) as (cs' & Hrun & Hq'' & Hc'' & Hd).
    + done.
    + rewrite length_app, Hlen. lia.
    + cbn in Hf. lia.
    + exists cs'. rewrite Hrun. rewrite length_app, Hlen in *.
      assert (Hx : take k (chunk_content h c) = chunk_content h c) by (apply take_ge; lia).
      split; [|split; [done|split; [|intros l Hl; right; by apply Hd]]].
      * f_equal. f_equal. rewrite <-app_assoc. f_equal. rewrite Hsl, Hx, take_app_ge by lia. f_equal. f_equal. lia.
      * rewrite Hc'', drop_app_ge by lia. f_equal. lia.
  - (* bytes or room are left in the chunk *)
    apply bool_decide_eq_false in Hfr. change (size_of h c') with (size_of h c) in Hfr. cbn in Hfr.
    destruct (queue_ok_advance h c cs k Hq) as [Hq'' Hc'']; [lia|destruct Hck; unfold content_size in *; lia|].
    fold c' in Hq'', Hc''. exists (c' :: cs).
    assert (Hrest : k = (n - length acc)%nat ∨ (k = content_size c ∧ cs = [])).
    { destruct (decide (k = n - length acc)%nat); [by left|right]. split; [lia|].
      destruct cs as [|d cs]; [done|]. specialize (Hfull ltac:(done)). unfold full in Hfull.
      destruct Hck. unfold content_size in *. lia. }
    assert (Hstop : ∀ bs, read_loop fuel h (c' :: cs) n (acc ++ slice (block h c) (read_idx c) k) = bs →
              bs = Done (acc ++ slice (block h c) (read_idx c) k, c' :: cs)).
    { intros bs <-. destruct fuel as [|fuel']; [cbn in Hf; lia|]. cbn [read_loop]. rewrite decide_False; [done|].
      rewrite length_app, Hlen. unfold content_size. cbn. unfold content_size in *. destruct Hrest as [?|[? _]]; lia. }
    rewrite (Hstop _ eq_refl). split; [|split; [done|split; [|done]]].
    + f_equal. f_equal. f_equal. rewrite Hsl. destruct Hrest as [Hkn|[Hkc ->]].
      * rewrite <-Hkn, take_app_le by lia. done.
      * unfold contents. cbn. rewrite app_nil_r, !take_ge by lia. done.
    + rewrite contents_cons, Hc''. destruct Hrest as [Hkn|[Hkc ->]].
      * rewrite <-Hkn, drop_app_le by lia. done.
      * unfold contents. cbn. rewrite !app_nil_r, !drop_ge by lia. done.
Qed.

Lemma head_ok_true h m : marshal_ok h m → head_ok h m = true.
Proof.
  intros [Hq Hs]. unfold head_ok, empty. destruct (chunks m) as [|c cs].
  - by rewrite bool_decide_eq_true_2.
  - destruct (queue_ok_tail _ _ _ Hq) as (_ & _ & [_ _ Hu]). apply orb_true_iff. right.
    unfold fully_read. rewrite bool_decide_eq_false_2 by lia. done.
Qed.

Lemma read_spec h m n :
  marshal_ok h m →
  ∃ m', read h m n = Done (take n (contents h (chunks m)), m') ∧ marshal_ok h m' ∧
    contents h (chunks m') = drop n (contents h (chunks m)) ∧
    ∀ l, l ∈ data <$> chunks m' → l ∈ data <$> chunks m.
Proof.
  intros Hm. unfold read. rewrite head_ok_true by done. cbn [verify mbind result_bind].
  destruct (read_loop_spec (S (S (length (chunks m)))) h (chunks m) n [] (mo_queue _ _ Hm)) as (cs & Hrun & Hq & Hc & Hd);
    [cbn; lia|lia|]. cbn [length app] in Hrun, Hc. rewrite Nat.sub_0_r in Hrun, Hc. rewrite Hrun. cbn [mbind result_bind].
  rewrite length_take. pose proof (mo_size _ _ Hm) as Hs.
  rewrite bool_decide_eq_true_2 by lia. cbn [verify mbind result_bind].
  set (m' := mkMarshal _ _ _).
  assert (Hm' : marshal_ok h m').
  { constructor; [done|]. unfold m'. cbn [content_size_ chunks]. rewrite Hc, length_drop. lia. }
  rewrite bool_decide_eq_true_2.
  2: { rewrite (mo_size _ _ Hm'). apply length_contents, (qo_chunk _ _ Hq). }
  cbn [verify mbind result_bind]. rewrite bool_decide_eq_true_2 by lia. cbn [verify mbind result_bind].
  rewrite head_ok_true by done. cbn [verify mbind result_bind]. by exists m'.
Qed.

Lemma peek_loop_spec h cs n acc :
  queue_ok h cs → (length acc ≤ n)%nat → peek_loop h cs n acc = acc ++ take (n - length acc) (contents h cs).
Proof.
  revert acc. induction cs as [|c cs IH]; intros acc Hq Ha; cbn [peek_loop].
  { unfold contents. cbn. by rewrite take_nil, app_nil_r. }
  destruct (queue_ok_tail _ _ _ Hq) as (Hq' & Hfull & Hck). pose proof (length_chunk_content h c Hck) as Hlc.
  rewrite contents_cons. case_decide as Hn; [|by rewrite (proj2 (Nat.sub_0_le _ _)), take_0, app_nil_r by lia].
  unfold chunk_peek. fold (content_size c). set (k := Nat.min (n - length acc) (content_size c)).
  assert (Hsl : slice (block h c) (read_idx c) k = take k (chunk_content h c)) by (apply slice_take; unfold content_size in *; lia).
  assert (Hlen : length (slice (block h c) (read_idx c) k) = k) by (rewrite Hsl, length_take; lia).
  case_decide as Hk0.
  - assert (cs = []) as ->.
    { destruct cs as [|d cs]; [done|]. specialize (Hfull ltac:(done)). unfold full in Hfull.
      destruct Hck. unfold content_size in *. lia. }
    assert (chunk_content h c = []) as -> by (apply length_zero_iff_nil; lia). unfold contents. cbn.
    by rewrite take_nil, app_nil_r.
  - rewrite IH; [|done|rewrite length_app, Hlen; lia]. rewrite <-app_assoc. f_equal. rewrite length_app, Hlen, Hsl.
    destruct (decide (k = n - length acc)%nat) as [Hkn|Hkn].
    + rewrite (proj2 (Nat.sub_0_le n (length acc + k))), take_0, app_nil_r by lia. rewrite <-Hkn, take_app_le by lia. done.
    + rewrite (take_ge (chunk_content h c)) by lia. rewrite (take_app_ge _ _ (n - length acc)) by lia. f_equal. f_equal. lia.
Qed.

Lemma peek_spec h m n : marshal_ok h m → peek h m n = Done (take n (contents h (chunks m))).
Proof.
  intros Hm. unfold peek. rewrite head_ok_true by done. cbn [verify mbind result_bind].
  rewrite (peek_loop_spec h (chunks m) n []) by first [apply (mo_queue _ _ Hm)|cbn; lia]. cbn [length app].
  rewrite Nat.sub_0_r. rewrite bool_decide_eq_true_2 by (rewrite length_take; lia). done.
Qed.

(** ** Handing a prefix over to another queue *)

Lemma shared_copy_eq c : shared_copy c = c.
Proof. by destruct c. Qed.

Lemma queue_ok_snoc h cs c :
  queue_ok h cs → Forall (full h) cs → chunk_ok h c → data c ∉ data <$> cs → queue_ok h (cs ++ [c]).
Proof.
  intros [Hok Hnd _] Hf Hc Hd. constructor.
  - apply Forall_app. auto.
  - rewrite fmap_app. apply NoDup_app. split; [done|]. split; [|apply NoDup_singleton].
    intros x Hx Hx'%list_elem_of_singleton. congruence.
  - by rewrite removelast_snoc.
Qed.

Lemma share_loop_spec fuel : ∀ h cs mcs n f,
  queue_ok h cs → queue_ok h mcs → (f < n → Forall (full h) cs)%nat →
  (∀ l, l ∈ data <$> cs → l ∉ data <$> mcs) →
  (f ≤ n)%nat → (n - f ≤ length (contents h mcs))%nat → (length mcs < fuel)%nat →
  ∃ cs' mcs', share_loop fuel h cs mcs n f = Done (cs', mcs', n) ∧ queue_ok h cs' ∧ queue_ok h mcs' ∧
    contents h cs' = contents h cs ++ take (n - f) (contents h mcs) ∧
    contents h mcs' = drop (n - f) (contents h mcs).
Proof.
  induction fuel as [|fuel IH]; intros h cs mcs n f Hq Hmq Hfull Hdis Hf Hn Hfuel; [lia|]. cbn [share_loop].
  case_decide as Hlt.
  2: { assert (f = n) as -> by lia. exists cs, mcs. rewrite Nat.sub_diag, take_0, drop_0, app_nil_r. done. }
  specialize (Hfull Hlt). destruct mcs as [|mc mcs]; [unfold contents in Hn; cbn in Hn; lia|].
  destruct (queue_ok_tail _ _ _ Hmq) as (Hmq' & Hmf & Hck). pose proof (length_chunk_content h mc Hck) as Hlc.
  rewrite contents_cons, length_app, Hlc in Hn. rewrite contents_cons, shared_copy_eq.
  assert (Hpos : (0 < content_size mc)%nat).
  { destruct mcs as [|d mcs]; [unfold contents in Hn; cbn in Hn; lia|]. specialize (Hmf ltac:(done)).
    unfold full in Hmf. destruct Hck. unfold content_size. lia. }
  assert (Hnew : data mc ∉ data <$> cs) by (intros Hin; apply (Hdis _ Hin); by left).
  case_decide as Hpart.
  - (* the last bytes wanted lie inside this chunk *)
    set (k := (n - f)%nat) in *.
    assert (Hcnt : content_size (mkChunk (data mc) (read_idx mc) (write_idx mc - (f + content_size mc - n))) = k)
      by (unfold content_size in *; cbn; lia).
    rewrite Hcnt. rewrite bool_decide_eq_true_2 by lia. cbn [verify mbind result_bind]. unfold chunk_discard. cbn zeta.
    fold (content_size mc). replace (Nat.min k (content_size mc)) with k by lia.
    rewrite bool_decide_eq_true_2 by done. cbn [verify mbind result_bind].
    destruct (queue_ok_advance h mc mcs k Hmq) as [Hmq'' Hc'']; [lia|destruct Hck; unfold content_size in *; lia|].
    set (mc' := mkChunk (data mc) (read_idx mc + k) (write_idx mc)) in *.
    set (chnk := mkChunk (data mc) (read_idx mc) (write_idx mc - (f + content_size mc - n))) in *.
    assert (fully_read h mc' = false) as ->.
    { apply bool_decide_eq_false. change (size_of h mc') with (size_of h mc). cbn.
      destruct Hck. unfold content_size in *. lia. }
    destruct fuel as [|fuel]; [cbn in Hfuel; lia|]. cbn [share_loop]. rewrite decide_False by lia.
    exists (cs ++ [chnk]), (mc' :: mcs). split; [do 2 f_equal; lia|]. split.
    + apply queue_ok_snoc; [done..| |done]. destruct Hck as [Hd Ho Hu]. constructor; [done| |done].
      change (size_of h chnk) with (size_of h mc). cbn. unfold content_size in *. lia.
    + split; [done|]. split.
      * rewrite contents_app. f_equal. rewrite take_app_le by lia. unfold contents. cbn [mbind list_bind].
        rewrite app_nil_r. unfold chunk_content at 1. rewrite Hcnt. apply slice_take. unfold content_size in *. lia.
      * rewrite contents_cons, Hc'', drop_app_le by lia. done.
  - (* the whole chunk *)
    rewrite bool_decide_eq_true_2 by lia. cbn [verify mbind result_bind]. unfold chunk_discard. cbn zeta.
    fold (content_size mc). rewrite Nat.min_id. rewrite bool_decide_eq_true_2 by done. cbn [verify mbind result_bind].
    set (mc' := mkChunk (data mc) (read_idx mc + content_size mc) (write_idx mc)).
    destruct (fully_read h mc') eqn:Hfr.
    + apply bool_decide_eq_true in Hfr. change (size_of h mc') with (size_of h mc) in Hfr. cbn in Hfr.
      destruct (IH h (cs ++ [mc]) mcs n (f + content_size mc)%nat) as (cs' & mcs' & Hrun & Hq1 & Hq2 & Hc1 & Hc2).
      * by apply queue_ok_snoc.
      * done.
      * intros _. apply Forall_app. split; [done|]. constructor; [|constructor]. unfold full. destruct Hck. unfold content_size in *. lia.
      * intros l. rewrite fmap_app, elem_of_app. intros [Hl|Hl].
        -- intros Hin. apply (Hdis l Hl). by right.
        -- apply list_elem_of_singleton in Hl as ->. pose proof (qo_nodup _ _ Hmq) as Hnd. cbn in Hnd.
           by apply NoDup_cons in Hnd as [? _].
      * lia.
      * lia.
      * cbn in Hfuel. lia.
      * exists cs', mcs'. split; [done|]. split; [done|]. split; [done|]. rewrite Hc1, Hc2. split.
        -- rewrite contents_app, <-app_assoc. f_equal. unfold contents at 1. cbn [mbind list_bind]. rewrite app_nil_r.
           rewrite take_app_ge by lia. f_equal. f_equal. lia.
        -- rewrite drop_app_ge by lia. f_equal. lia.
    + apply bool_decide_eq_false in Hfr. change (size_of h mc') with (size_of h mc) in Hfr. cbn in Hfr.
      assert (mcs = []) as ->.
      { destruct mcs as [|d mcs]; [done|]. specialize (Hmf ltac:(done)). unfold full in Hmf. destruct Hck.
        unfold content_size in *. lia. }
      unfold contents in Hn. cbn in Hn.
      destruct (queue_ok_advance h mc [] (content_size mc) Hmq) as [Hmq'' Hc'']; [lia|destruct Hck; unfold content_size in *; lia|].
      destruct fuel as [|fuel]; [cbn in Hfuel; lia|]. cbn [share_loop]. rewrite decide_False by lia.
      exists (cs ++ [mc]), [mc']. split; [do 2 f_equal; lia|]. split; [by apply queue_ok_snoc|]. split; [done|].
      rewrite contents_app. unfold contents. cbn [mbind list_bind]. rewrite !app_nil_r. fold mc' in Hc''. rewrite Hc''.
      split; [by rewrite (take_ge _ (n - f)) by lia|]. rewrite !drop_ge by lia. done.
Qed.

Lemma share_from_spec h this m n :
  marshal_ok h this → marshal_ok h m → Forall (full h) (chunks this) →
  (∀ l, l ∈ data <$> chunks this → l ∉ data <$> chunks m) → (n ≤ content_size_ m)%nat →
  ∃ this' m', share_from h this m n = Done (this', m', n) ∧ marshal_ok h this' ∧ marshal_ok h m' ∧
    contents h (chunks this') = contents h (chunks this) ++ take n (contents h (chunks m)) ∧
    contents h (chunks m') = drop n (contents h (chunks m)).
Proof.
  intros [Hq Hs] [Hmq Hms] Hfull Hdis Hn. unfold share_from.
  destruct (share_loop_spec (S (length (chunks m))) h (chunks this) (chunks m) n 0) as (cs & mcs & -> & Hq1 & Hq2 & Hc1 & Hc2);
    [done..|lia|lia|lia|]. rewrite Nat.sub_0_r in Hc1, Hc2. cbn [mbind result_bind].
  rewrite bool_decide_eq_true_2 by done. cbn [verify mbind result_bind]. eexists _, _. split; [reflexivity|].
  cbn [chunks]. split; [|split; [|done]]; (constructor; [done|]); cbn [content_size_ chunks].
  - rewrite Hc1, length_app, length_take. lia.
  - rewrite Hc2, length_drop. lia.
Qed.

#[local] Instance full_dec h c : Decision (full h c).
Proof. unfold full. apply _. Defined.

(** Filling the room left in the last chunk. *)
Lemma write_fill h m t p :
  marshal_ok h m → last (chunks m) = Some t → ¬ full h t → p ≠ [] → (length p ≤ size_of h t - write_idx t)%nat →
  ∃ h' m', write h m p = Done (h', m', length p) ∧ marshal_ok h' m' ∧
    contents h' (chunks m') = contents h (chunks m) ++ p ∧
    data <$> chunks m' = data <$> chunks m ∧
    (∀ l, l ∉ data <$> chunks m → h' !! l = h !! l) ∧
    (length p = (size_of h t - write_idx t)%nat → Forall (full h') (chunks m')).
Proof.
  intros [Hq Hs] Hlast Hnf Hp Hlen. unfold write. rewrite Hlast.
  apply last_Some in Hlast as [cs Hcs]. rewrite Hcs in *.
  assert (fully_written h t = false) as -> by (apply bool_decide_eq_false; done).
  destruct (chunk_write h t p) as [[h' t'] k] eqn:Hw.
  destruct (chunk_write_ok h cs t p h' t' k Hq Hw) as (H1 & H2 & Hk & Hsz & Hwi & Hdom & Hdt & Hfr).
  assert (Hlp : length p ≠ 0%nat) by (by intros ?%length_zero_iff_nil).
  rewrite bool_decide_eq_true_2 by lia. cbn [verify mbind result_bind]. rewrite removelast_snoc, decide_False by lia.
  cbn [mbind result_bind content_size_]. rewrite take_ge in H2 by lia.
  assert (Hsz' : (content_size_ m + length p)%nat = length (contents h' (cs ++ [t']))).
  { rewrite H2, length_app, Hs. lia. }
  rewrite bool_decide_eq_true_2 by (rewrite Hsz'; apply length_contents, (qo_chunk _ _ H1)).
  cbn [verify mbind result_bind]. eexists h', _. split; [reflexivity|]. cbn [chunks].
  split; [by constructor|]. split; [done|]. split; [by rewrite !fmap_app; cbn; rewrite Hdt|]. split.
  - intros l Hl. apply Hfr. intros ->. apply Hl, list_elem_of_fmap_2. set_solver.
  - intros Heq. apply queue_ok_all; [done|]. unfold full. lia.
Qed.

Lemma marshal_ok_frame h h' m :
  (∀ c, c ∈ chunks m → h' !! data c = h !! data c) → marshal_ok h m →
  marshal_ok h' m ∧ contents h' (chunks m) = contents h (chunks m).
Proof.
  intros Hl [[Hok Hnd Hf] Hs]. pose proof (contents_frame h h' (chunks m) Hl) as Hc. split; [|done].
  constructor; [|by rewrite Hc]. constructor; [|done|].
  - rewrite Forall_forall in Hok |- *. intros c Hin. eapply chunk_ok_frame; [by apply Hl|auto].
  - rewrite Forall_forall in Hf |- *. intros c Hin. eapply full_frame; [|by apply Hf]. apply Hl.
    destruct (chunks m) as [|d cs _] using rev_ind; [done|]. rewrite removelast_snoc in Hin. set_solver.
Qed.

Lemma read_from_marshal_share fuel h this m n :
  marshal_ok h this → marshal_ok h m → Forall (full h) (chunks this) →
  (∀ l, l ∈ data <$> chunks this → l ∉ data <$> chunks m) → (n ≤ content_size_ m)%nat →
  ∃ this' m', read_from_marshal_n (S fuel) h this m n = Done (h, this', m', n) ∧
    marshal_ok h this' ∧ marshal_ok h m' ∧
    contents h (chunks this') = contents h (chunks this) ++ take n (contents h (chunks m)) ∧
    contents h (chunks m') = drop n (contents h (chunks m)).
Proof.
  intros Ht Hm Hfull Hdis Hn.
  destruct (share_from_spec h this m n Ht Hm Hfull Hdis Hn) as (this' & m' & Hrun & Ht' & Hm' & Hc1 & Hc2).
  exists this', m'. split; [|done]. cbn [read_from_marshal_n]. rewrite bool_decide_eq_true_2 by done.
  cbn [verify mbind result_bind]. rewrite Hrun. cbn [mbind result_bind].
  assert (Hl : from_option (fully_written h) true (last (chunks this)) = true).
  { destruct (last (chunks this)) as [t|] eqn:Hlast; [|done]. cbn. apply fully_written_spec.
    rewrite Forall_forall in Hfull. apply Hfull. apply last_Some in Hlast as [? ->]. set_solver. }
  assert (Hend : (_ ← verify (bool_decide (n = n)); _ ← verify (bool_decide (content_size_ this' = content_size_slow (chunks this')));
            Done (h, this', m', n)) = Done (h, this', m', n)).
  { rewrite (bool_decide_eq_true_2 (n = n)) by done. cbn [verify mbind result_bind]. rewrite bool_decide_eq_true_2; [done|].
    rewrite (mo_size _ _ Ht'). apply length_contents, (qo_chunk _ _ (mo_queue _ _ Ht')). }
  destruct (last (chunks this)) as [t|]; cbn in Hl; [rewrite Hl|]; cbn [mbind result_bind]; exact Hend.
Qed.

Lemma read_from_marshal_spec h this m n :
  marshal_ok h this → marshal_ok h m →
  (∀ l, l ∈ data <$> chunks this → l ∉ data <$> chunks m) → (0 < n ≤ content_size_ m)%nat →
  ∃ h' this' m', read_from_marshal h this m n = Done (h', this', m', n) ∧
    marshal_ok h' this' ∧ marshal_ok h' m' ∧
    contents h' (chunks this') = contents h (chunks this) ++ take n (contents h (chunks m)) ∧
    contents h' (chunks m') = drop n (contents h (chunks m)).
Proof.
  intros Ht Hm Hdis [Hpos Hn]. unfold read_from_marshal.
  destruct (decide (Forall (full h) (chunks this))) as [Hfull|Hnf].
  { destruct (read_from_marshal_share 1 h this m n) as (this' & m' & Hrun & Hrest); [done..|]. eauto 10. }
  destruct (last (chunks this)) as [t|] eqn:Hlast; [|apply last_None in Hlast; destruct Hnf; rewrite Hlast; constructor].
  assert (Hnt : ¬ full h t).
  { intros Hft. apply Hnf. pose proof Hlast as [cs Hcs]%last_Some. rewrite Hcs. apply queue_ok_all; [|done].
    rewrite <-Hcs. apply (mo_queue _ _ Ht). }
  assert (∃ one, one = 1%nat) as [one Hone] by eauto. replace 2%nat with (S one) by lia.
  cbn [read_from_marshal_n]. rewrite bool_decide_eq_true_2 by done. cbn [verify mbind result_bind]. rewrite Hlast.
  assert (fully_written h t = false) as -> by (apply bool_decide_eq_false; done).
  assert (Hroom : (write_idx t < size_of h t)%nat).
  { destruct (mo_queue _ _ Ht) as [Hok _ _]. rewrite Forall_forall in Hok.
    destruct (Hok t) as [_ Ho _]; [apply last_Some in Hlast as [? ->]; set_solver|]. unfold full in Hnt. lia. }
  set (k := Nat.min (size_of h t - write_idx t) n).
  destruct (read_spec h m k Hm) as (m1 & -> & Hm1 & Hc1 & Hd1). cbn [mbind result_bind].
  set (buf := take k (contents h (chunks m))).
  assert (Hbuf : length buf = k) by (unfold buf; rewrite length_take, <-(mo_size _ _ Hm); lia).
  rewrite (bool_decide_eq_true_2 (length buf = k)) by done. cbn [verify mbind result_bind].
  destruct (write_fill h this t buf) as (h' & this1 & -> & Ht1 & Hct & Hdt & Hfr & Hfl); [done..| |lia|].
  { intros Hb. rewrite Hb in Hbuf. cbn in Hbuf. lia. }
  cbn [mbind result_bind]. rewrite Hbuf, (bool_decide_eq_true_2 (k = k)) by done. cbn [verify mbind result_bind].
  assert (Hmd : ∀ c, c ∈ chunks m1 → h' !! data c = h !! data c).
  { intros c Hc. apply Hfr. intros Hin. apply (Hdis _ Hin), Hd1, list_elem_of_fmap_2, Hc. }
  destruct (marshal_ok_frame h h' m1 Hmd Hm1) as [Hm1' Hcm1].
  assert (Hs1 : content_size_ m1 = (content_size_ m - k)%nat).
  { rewrite (mo_size _ _ Hm1), Hc1, length_drop, <-(mo_size _ _ Hm). done. }
  assert (Hsl : ∀ this', marshal_ok h' this' → bool_decide (content_size_ this' = content_size_slow (chunks this')) = true).
  { intros this' Hok. apply bool_decide_eq_true. rewrite (mo_size _ _ Hok). apply length_contents, (qo_chunk _ _ (mo_queue _ _ Hok)). }
  case_decide as Hleft.
  - assert (Hfull1 : Forall (full h') (chunks this1)) by (apply Hfl; lia).
    assert (from_option (fully_written h') false (last (chunks this1)) = true) as ->.
    { destruct (last (chunks this1)) as [t1|] eqn:Hl1.
      - cbn. apply fully_written_spec. rewrite Forall_forall in Hfull1. apply Hfull1. apply last_Some in Hl1 as [? ->]. set_solver.
      - apply last_None in Hl1. rewrite Hl1 in Hdt. apply last_Some in Hlast as [cs Hcs]. rewrite Hcs, fmap_app in Hdt.
        by apply app_cons_not_nil in Hdt. }
    cbn [verify mbind result_bind].
    destruct (read_from_marshal_share 0 h' this1 m1 (n - k)) as (this' & m' & Hrun & Ht' & Hm' & Hc3 & Hc4); [done..| |lia|].
    { rewrite Hdt. intros l Hl Hin. by apply (Hdis l Hl), Hd1. }
    rewrite Hone, Hrun. cbn [mbind result_bind].
    rewrite (bool_decide_eq_true_2 ((k + (n - k))%nat = n)) by lia. cbn [verify mbind result_bind]. rewrite Hsl by done. cbn [verify mbind result_bind].
    exists h', this', m'. split; [do 2 f_equal; lia|]. split; [done|]. split; [done|].
    rewrite Hc3, Hc4, Hct, Hcm1, Hc1. split.
    + rewrite <-app_assoc. f_equal. unfold buf. rewrite take_take_drop. f_equal. lia.
    + rewrite drop_drop. f_equal. lia.
  - cbn [mbind result_bind]. assert (Hkn : k = n) by lia.
    rewrite (bool_decide_eq_true_2 (k = n)) by done. cbn [verify mbind result_bind]. rewrite Hsl by done. cbn [verify mbind result_bind].
    exists h', this1, m1. split; [by rewrite Hkn|]. split; [done|]. split; [done|].
    unfold buf in Hct. rewrite Hcm1, Hc1, Hct, Hkn. done.
Qed.

(** ** The abstract queue *)

Inductive op := Write (p : bytes) | Read (n : nat) | Peek (n : nat).

(** What the caller sees: the bytes returned by reads and peeks. *)
Definition op_spec (q : bytes) (o : op) : bytes * bytes :=
  match o with
  | Write p => (q ++ p, [])
  | Read n => (drop n q, take n q)
  | Peek n => (q, take n q)
  end.

Definition op_run (s : heap * Marshal) (o : op) : result (heap * Marshal * bytes) :=
  let '(h, m) := s in
  match o with
  | Write p => '(h, m, _) ← write h m p; Done (h, m, [])
  | Read n => '(bs, m) ← read h m n; Done (h, m, bs)
  | Peek n => bs ← peek h m n; Done (h, m, bs)
  end.

Fixpoint run_ops (s : heap * Marshal) (os : list op) : result (list bytes) :=
  match os with
  | [] => Done []
  | o :: os => '(s, out) ← op_run s o; outs ← run_ops s os; Done (out :: outs)
  end.

Fixpoint spec_ops (q : bytes) (os : list op) : list bytes :=
  match os with
  | [] => []
  | o :: os => (op_spec q o).2 :: spec_ops (op_spec q o).1 os
  end.

Definition op_valid (o : op) : Prop := match o with Write p => p ≠ [] | _ => True end.

Lemma op_run_simulates h m o :
  marshal_ok h m → op_valid o →
  ∃ h' m', op_run (h, m) o = Done (h', m', (op_spec (contents h (chunks m)) o).2) ∧ marshal_ok h' m' ∧
    contents h' (chunks m') = (op_spec (contents h (chunks m)) o).1.
Proof.
  intros Hm Ho. destruct o as [p|n|n]; cbn in *.
  - destruct (write_spec h m p Hm Ho) as (h' & m' & -> & Hm' & Hc & _). cbn. eauto.
  - destruct (read_spec h m n Hm) as (m' & -> & Hm' & Hc & _). cbn. eauto.
  - rewrite peek_spec by done. cbn. eauto.
Qed.

Lemma run_ops_simulates h m os :
  marshal_ok h m → Forall op_valid os → run_ops (h, m) os = Done (spec_ops (contents h (chunks m)) os).
Proof.
  intros Hm Hos. revert h m Hm. induction Hos as [|o os Ho Hos IH]; intros h m Hm; [done|]. cbn [run_ops spec_ops].
  destruct (op_run_simulates h m o Hm Ho) as (h' & m' & -> & Hm' & Hc). cbn [mbind result_bind].
  rewrite (IH h' m' Hm'), Hc. done.
Qed.

Lemma marshal_ok_new h : marshal_ok h Marshal_new.
Proof. constructor; [apply queue_ok_nil|done]. Qed.

(** ** Properties *)

(** C33: a [Marshal] is a queue of bytes: for every sequence of non-empty writes,
    reads and peeks on a new one no assertion fails, every loop ends, and the bytes
    returned are those of a plain list of bytes, however the bytes are spread over
    chunks. *)
Theorem marshal_refines_queue h os :
  Forall op_valid os → run_ops (h, Marshal_new) os = Done (spec_ops [] os).
Proof. intros Hos. by apply (run_ops_simulates h Marshal_new os (marshal_ok_new h)). Qed.

(** [Marshal::read_from_marshal] moves exactly the first [n] bytes of one queue to
    the end of the other, by copying into the room of the last chunk and sharing
    blocks for the rest, and leaves both queues well formed. *)
Theorem read_from_marshal_moves h this m n :
  marshal_ok h this → marshal_ok h m →
  (∀ l, l ∈ data <$> chunks this → l ∉ data <$> chunks m) → (0 < n ≤ content_size_ m)%nat →
  ∃ h' this' m', read_from_marshal h this m n = Done (h', this', m', n) ∧
    marshal_ok h' this' ∧ marshal_ok h' m' ∧
    contents h' (chunks this') = contents h (chunks this) ++ take n (contents h (chunks m)) ∧
    contents h' (chunks m') = drop n (contents h (chunks m)).
Proof. apply read_from_marshal_spec. Qed.

(** Two bytes are queued in [a]; one moves to [b], which then receives another byte. *)
Definition alias_run : result (bytes * bytes) :=
  '(h, a, _) ← write ∅ Marshal_new [Some 1; Some 2];
  '(h, b, a, _) ← read_from_marshal h Marshal_new a 1;
  '(h, b, _) ← write h b [Some 9];
  Done (contents h (chunks a), contents h (chunks b)).

(** After [read_from_marshal] the two queues share a block, and a write to the
    receiving queue overwrites bytes still queued in the other: the byte 2 of the
    source is replaced by the byte 9 written to the destination. *)
Theorem shared_chunk_overwritten : alias_run = Done ([Some 9], [Some 1; Some 9]).
Proof. vm_compute. reflexivity. Qed.

Lemma marshal_refines_queue_witness :
  run_ops (∅, Marshal_new) [Write [Some 7; Some 8; Some 9]; Peek 1; Read 2; Write [Some 5]; Read 9]
  = Done (spec_ops [] [Write [Some 7; Some 8; Some 9]; Peek 1; Read 2; Write [Some 5]; Read 9]).
Proof. apply (marshal_refines_queue ∅). repeat constructor; discriminate. Defined.

Definition sample_run : heap * Marshal :=
  match write ∅ Marshal_new [Some 1; Some 2; Some 3] with Done (h, m, _) => (h, m) | _ => (∅, Marshal_new) end.

Lemma sample_run_ok : marshal_ok sample_run.1 sample_run.2 ∧ content_size_ sample_run.2 = 3%nat.
Proof.
  destruct (write_spec ∅ Marshal_new [Some 1; Some 2; Some 3]) as (h & m & Hw & Hm & Hc & _);
    [apply marshal_ok_new|done|]. unfold sample_run. rewrite Hw. cbn. split; [done|]. by rewrite (mo_size _ _ Hm), Hc.
Qed.

Lemma read_from_marshal_moves_witness :
  ∃ h' this' m', read_from_marshal sample_run.1 Marshal_new sample_run.2 2 = Done (h', this', m', 2%nat) ∧
    marshal_ok h' this' ∧ marshal_ok h' m' ∧
    contents h' (chunks this') = contents sample_run.1 [] ++ take 2 (contents sample_run.1 (chunks sample_run.2)) ∧
    contents h' (chunks m') = drop 2 (contents sample_run.1 (chunks sample_run.2)).
Proof.
  apply (read_from_marshal_moves sample_run.1 Marshal_new sample_run.2 2).
  - apply marshal_ok_new.
  - apply sample_run_ok.
  - intros l Hl. by apply elem_of_nil in Hl.
  - rewrite (proj2 sample_run_ok). lia.
Defined.
