(* ===== verification/Wire.v ===== *)
(** * Typed values on a byte queue

    Models the operators [<<] and [>>] of src/rococo-dst/rrr/misc/marshal.hpp.  The two directions of
    a C++ type form a [codec]; [Lawful] is what a codec promises: the writer appends
    the encoding, and the reader takes it off again.  The container operators are
    proved against that interface, every type of a message is shown to keep it
    ([operators_lawful]), and messages of any such types round-trip. *)

From S2P Require Import Prelude SparseInt Marshal.

(** A queue together with the blocks of the process. *)
Definition mstate : Type := heap * Marshal.
Definition st_ok (s : mstate) : Prop := marshal_ok s.1 s.2.
Definition st_content (s : mstate) : bytes := contents s.1 (chunks s.2).

(** [verify(m.write(p, n) == n)] *)
Definition put_bytes (p : list Z) (s : mstate) : result mstate :=
  '(h, m, n) ← write s.1 s.2 (Some <$> p);
  _ ← verify (bool_decide (n = length p));
  Done (h, m).

(** [verify(m.read(p, n) == n)] followed by a use of the bytes *)
Definition get_bytes (n : nat) (s : mstate) : result (list Z * mstate) :=
  '(bs, m) ← read s.1 s.2 n;
  _ ← verify (bool_decide (length bs = n));
  match mapM id bs with
  | Some p => Done (p, (s.1, m))
  | None => Crash uninitialised
  end.

(** [verify(m.peek(&byte0, 1) == 1)] *)
Definition peek_byte (s : mstate) : result Z :=
  bs ← peek s.1 s.2 1;
  match bs with
  | [Some b] => Done b
  | [None] => Crash uninitialised
  | _ => Crash assert_failed
  end.

Record codec (A : Type) := mkCodec { put : A → mstate → result mstate; get : mstate → result (A * mstate) }.
Arguments mkCodec {A} _ _.
Arguments put {A} _ _ _.
Arguments get {A} _ _.

(** ** Integers *)

(** [i8 .. i64] and [uint8_t .. uint64_t], [w] bytes wide *)
Definition int_codec (w : nat) : codec Z :=
  mkCodec (λ v, put_bytes (low_bytes v w))
          (λ s, '(p, s) ← get_bytes w s; Done (swrap (8 * Z.of_nat w) (from_bytes p), s)).
Definition uint_codec (w : nat) : codec Z :=
  mkCodec (λ v, put_bytes (low_bytes v w))
          (λ s, '(p, s) ← get_bytes w s; Done (uwrap (8 * Z.of_nat w) (from_bytes p), s)).

(** [v32] and [v64]: a [char buf[5]] respectively [char buf[9]] takes the bytes. *)
Definition get_sparse (room : Z) (load : list Z → result Z) (s : mstate) : result (Z * mstate) :=
  byte0 ← peek_byte s;
  let bsize := buf_size byte0 in
  if decide (bsize ≤ room) then
    '(buf, s) ← get_bytes (Z.to_nat bsize) s;
    v ← load buf;
    Done (v, s)
  else Crash invalid_access.

Definition v32_codec : codec Z :=
  mkCodec (λ v, let '(buf, n) := dump_i32 v in put_bytes (take (Z.to_nat n) buf)) (get_sparse 5 load_i32).
Definition v64_codec : codec Z :=
  mkCodec (λ v, let '(buf, n) := dump_i64 v in put_bytes (take (Z.to_nat n) buf)) (get_sparse 9 load_i64).

(** ** Containers *)

Definition string_codec : codec (list Z) :=
  mkCodec
    (λ v s, s ← put v64_codec (Z.of_nat (length v)) s;
            if decide (0 < Z.of_nat (length v)) then put_bytes v s else Done s)
    (λ s, '(n, s) ← get v64_codec s;
          if decide (0 < n) then get_bytes (Z.to_nat n) s else Done ([], s)).

Definition pair_codec {A B} (ca : codec A) (cb : codec B) : codec (A * B) :=
  mkCodec (λ v s, s ← put ca v.1 s; put cb v.2 s)
          (λ s, '(a, s) ← get ca s; '(b, s) ← get cb s; Done ((a, b), s)).

Section containers.
Context {A : Type} (c : codec A).

Fixpoint put_all (l : list A) (s : mstate) : result mstate :=
  match l with [] => Done s | x :: l => s ← put c x s; put_all l s end.

(** [for (int i = 0; i < n; i++) { T elem; m >> elem; v.push_back(elem); }] *)
Fixpoint get_all (n : nat) (s : mstate) : result (list A * mstate) :=
  match n with
  | O => Done ([], s)
  | S n => '(x, s) ← get c s; '(l, s) ← get_all n s; Done (x :: l, s)
  end.

(** [std::vector] and [std::list] *)
Definition vector_codec : codec (list A) :=
  mkCodec (λ v s, s ← put v64_codec (Z.of_nat (length v)) s; put_all v s)
          (λ s, '(n, s) ← get v64_codec s; get_all (Z.to_nat n) s).
End containers.

(** [std::set] and [std::unordered_set] of integers, [std::map] and
    [std::unordered_map] with integer keys; [ord] is the iteration order. *)
Definition set_codec (ord : gset Z → list Z) (c : codec Z) : codec (gset Z) :=
  mkCodec (λ v s, s ← put v64_codec (Z.of_nat (size v)) s; put_all c (ord v) s)
          (λ s, '(n, s) ← get v64_codec s; '(l, s) ← get_all c (Z.to_nat n) s;
                Done (foldl (λ v x, {[x]} ∪ v) ∅ l, s)).

Definition insert_into_map {V} (v : gmap Z V) (kx : Z * V) : gmap Z V :=
  match v !! kx.1 with Some _ => v | None => <[kx.1 := kx.2]> v end.

Definition map_codec {V} (ord : gset Z → list Z) (ck : codec Z) (cv : codec V) : codec (gmap Z V) :=
  mkCodec
    (λ v s, s ← put v64_codec (Z.of_nat (size v)) s;
            put_all (pair_codec ck cv) (omap (λ k, (k,.) <$> v !! k) (ord (dom v))) s)
    (λ s, '(n, s) ← get v64_codec s; '(l, s) ← get_all (pair_codec ck cv) (Z.to_nat n) s;
          Done (foldl insert_into_map ∅ l, s)).

(** ** The interface *)

Class Lawful {A} (c : codec A) := {
  valid : A → Prop;
  enc : A → list Z;
  law_put a s : valid a → st_ok s →
    ∃ s', put c a s = Done s' ∧ st_ok s' ∧ st_content s' = st_content s ++ (Some <$> enc a);
  law_get a s rest : valid a → st_ok s → st_content s = (Some <$> enc a) ++ rest →
    ∃ s', get c s = Done (a, s') ∧ st_ok s' ∧ st_content s' = rest;
}.
Arguments valid {A} c {_} _ : simpl never.
Arguments enc {A} c {_} _ : simpl never.

Lemma put_bytes_ok p s :
  p ≠ [] → st_ok s → ∃ s', put_bytes p s = Done s' ∧ st_ok s' ∧ st_content s' = st_content s ++ (Some <$> p).
Proof.
  intros Hp Hs. unfold put_bytes.
  destruct (write_spec s.1 s.2 (Some <$> p) Hs) as (h & m & -> & Hm & Hc & _); [by intros ?%fmap_nil_inv|].
  cbn [mbind result_bind]. rewrite length_fmap, bool_decide_eq_true_2 by done. cbn. by exists (h, m).
Qed.

Lemma mapM_Some_id (p : list Z) : mapM id (Some <$> p) = Some p.
Proof. induction p as [|x p IH]; [done|]. cbn. change (mapM id (Some <$> p) ≫= (λ k, Some (x :: k)) = Some (x :: p)). by rewrite IH. Qed.

Lemma get_bytes_ok p s rest :
  st_ok s → st_content s = (Some <$> p) ++ rest →
  ∃ s', get_bytes (length p) s = Done (p, s') ∧ st_ok s' ∧ st_content s' = rest.
Proof.
  intros Hs Hc. unfold get_bytes. destruct (read_spec s.1 s.2 (length p) Hs) as (m & -> & Hm & Hcm & _).
  unfold st_content in Hc. rewrite Hc in Hcm |- *. rewrite take_app_length' by by rewrite length_fmap.
  rewrite drop_app_length' in Hcm by by rewrite length_fmap.
  cbn [mbind result_bind]. rewrite length_fmap, bool_decide_eq_true_2 by done. cbn [verify mbind result_bind].
  rewrite mapM_Some_id. by exists (s.1, m).
Qed.

Lemma peek_byte_ok b p s rest : st_ok s → st_content s = (Some <$> (b :: p)) ++ rest → peek_byte s = Done b.
Proof. intros Hs Hc. unfold peek_byte. rewrite peek_spec by done. unfold st_content in Hc. by rewrite Hc. Qed.

Lemma low_bytes_nonempty v w : low_bytes v (S w) ≠ [].
Proof. intros H. apply (f_equal length) in H. by rewrite length_low_bytes in H. Qed.

#[export] Program Instance int_lawful w : Lawful (int_codec (S w)) := {|
  valid v := - 2 ^ (8 * Z.of_nat (S w) - 1) ≤ v < 2 ^ (8 * Z.of_nat (S w) - 1);
  enc v := low_bytes v (S w);
|}.
Next Obligation. intros w v s _ Hs. apply put_bytes_ok; [apply low_bytes_nonempty|done]. Qed.
Next Obligation.
  intros w v s rest Hv Hs Hc. cbn [get int_codec].
  destruct (get_bytes_ok _ _ _ Hs Hc) as (s' & Hg & Hs' & Hc'). rewrite length_low_bytes in Hg. rewrite Hg.
  cbn [mbind result_bind]. exists s'. rewrite from_low_bytes, swrap_mod by first [done|lia]. done.
Qed.

#[export] Program Instance uint_lawful w : Lawful (uint_codec (S w)) := {|
  valid v := 0 ≤ v < 2 ^ (8 * Z.of_nat (S w));
  enc v := low_bytes v (S w);
|}.
Next Obligation. intros w v s _ Hs. apply put_bytes_ok; [apply low_bytes_nonempty|done]. Qed.
Next Obligation.
  intros w v s rest Hv Hs Hc. cbn [get uint_codec].
  destruct (get_bytes_ok _ _ _ Hs Hc) as (s' & Hg & Hs' & Hc'). rewrite length_low_bytes in Hg. rewrite Hg.
  cbn [mbind result_bind]. exists s'. rewrite from_low_bytes, (Z.mod_small v) by done. by rewrite uwrap_small.
Qed.

(** Reading back what [dump] announced, when all its bytes are sent. *)
Lemma get_sparse_ok room load buf n v s rest :
  Z.of_nat (length buf) = n → n ≤ room → buf_size <$> buf !! 0%nat = Some n → load buf = Done v →
  st_ok s → st_content s = (Some <$> buf) ++ rest →
  ∃ s', get_sparse room load s = Done (v, s') ∧ st_ok s' ∧ st_content s' = rest.
Proof.
  intros Hl Hn H0 Hv Hs Hc. destruct buf as [|b buf]; [done|]. cbn in H0. injection H0 as H0. unfold get_sparse.
  rewrite (peek_byte_ok b buf s rest) by done. cbn [mbind result_bind]. rewrite H0, decide_True by done.
  destruct (get_bytes_ok _ _ _ Hs Hc) as (s' & Hg & Hs' & Hc'). replace (Z.to_nat n) with (length (b :: buf)) by lia.
  rewrite Hg. cbn [mbind result_bind]. rewrite Hv. cbn. eauto.
Qed.

#[export] Program Instance v32_lawful : Lawful v32_codec := {|
  valid v := - 2 ^ 31 ≤ v < 2 ^ 31;
  enc v := (dump_i32 v).1;
|}.
Next Obligation.
  intros v s Hv Hs. cbn [put v32_codec]. pose proof (dump_i32_size v Hv) as (Hn & H0 & Hl).
  destruct (dump_i32 v) as [buf n]. cbn [fst snd] in *. rewrite take_ge by lia.
  apply put_bytes_ok; [|done]. by intros ->.
Qed.
Next Obligation.
  intros v s rest Hv Hs Hc. pose proof (dump_i32_size v Hv) as (Hn & H0 & Hl).
  eapply get_sparse_ok; [exact Hl| |exact H0|by apply dump_i32_load|done|done].
  cbn in Hv. unfold val_size. repeat case_decide; lia.
Qed.

#[export] Program Instance v64_lawful : Lawful v64_codec := {|
  valid v := - 2 ^ 63 ≤ v < 2 ^ 63 ∧ val_size v ≠ 8;
  enc v := (dump_i64 v).1;
|}.
Next Obligation.
  intros v s [Hv H8] Hs. cbn [put v64_codec]. pose proof (dump_i64_size v) as (Hn & H0 & Hl).
  rewrite decide_False in Hl by done. destruct (dump_i64 v) as [buf n]. cbn [fst snd] in *. rewrite take_ge by lia.
  apply put_bytes_ok; [|done]. by intros ->.
Qed.
Next Obligation.
  intros v s rest [Hv H8] Hs Hc. pose proof (dump_i64_size v) as (Hn & H0 & Hl). rewrite decide_False in Hl by done.
  eapply get_sparse_ok; [exact Hl| |exact H0|by apply dump_i64_load|done|done].
  unfold val_size. repeat case_decide; lia.
Qed.

Lemma size_valid n : 0 ≤ n < 2 ^ 31 → valid v64_codec n.
Proof. intros Hn. split; [lia|]. unfold val_size. repeat case_decide; lia. Qed.

(** ** Containers keep the promise *)

#[export] Program Instance string_lawful : Lawful string_codec := {|
  valid v := Z.of_nat (length v) < 2 ^ 31;
  enc v := enc v64_codec (Z.of_nat (length v)) ++ v;
|}.
Next Obligation.
  intros v s Hv Hs. cbn beta in *. cbn [put string_codec].
  destruct (law_put (c:=v64_codec) (Z.of_nat (length v)) s) as (s1 & -> & Hs1 & Hc1); [apply size_valid; lia|done|].
  cbn [mbind result_bind]. case_decide as Hl.
  - destruct (put_bytes_ok v s1) as (s2 & -> & Hs2 & Hc2); [by intros ->|done|]. exists s2. split; [done|]. split; [done|].
    by rewrite Hc2, Hc1, fmap_app, app_assoc.
  - destruct v; [|cbn in Hl; lia]. exists s1. by rewrite app_nil_r.
Qed.
Next Obligation.
  intros v s rest Hv Hs Hc. cbn beta in *. cbn [get string_codec]. rewrite fmap_app, <-app_assoc in Hc.
  destruct (law_get (c:=v64_codec) _ s _ (size_valid (Z.of_nat (length v)) ltac:(lia)) Hs Hc) as (s1 & -> & Hs1 & Hc1).
  cbn [mbind result_bind]. case_decide as Hl.
  - destruct (get_bytes_ok v s1 rest Hs1 Hc1) as (s2 & Hg & Hs2 & Hc2). rewrite Nat2Z.id, Hg. eauto.
  - destruct v; [|cbn in Hl; lia]. exists s1. by rewrite Hc1.
Qed.

#[export] Program Instance pair_lawful {A B} (ca : codec A) (cb : codec B) `{!Lawful ca, !Lawful cb} : Lawful (pair_codec ca cb) := {|
  valid v := valid ca v.1 ∧ valid cb v.2;
  enc v := enc ca v.1 ++ enc cb v.2;
|}.
Next Obligation.
  intros A B ca cb La Lb [a b] s [Ha Hb] Hs. cbn [put pair_codec fst snd] in *.
  destruct (law_put a s Ha Hs) as (s1 & -> & Hs1 & Hc1). cbn [mbind result_bind].
  destruct (law_put b s1 Hb Hs1) as (s2 & -> & Hs2 & Hc2). exists s2. split; [done|]. split; [done|].
  by rewrite Hc2, Hc1, fmap_app, app_assoc.
Qed.
Next Obligation.
  intros A B ca cb La Lb [a b] s rest [Ha Hb] Hs Hc. cbn [get pair_codec fst snd] in *. rewrite fmap_app, <-app_assoc in Hc.
  destruct (law_get a s _ Ha Hs Hc) as (s1 & -> & Hs1 & Hc1). cbn [mbind result_bind].
  destruct (law_get b s1 _ Hb Hs1 Hc1) as (s2 & -> & Hs2 & Hc2). cbn. eauto.
Qed.

Section containers_lawful.
Context {A : Type} (c : codec A) `{!Lawful c}.

Definition enc_all (l : list A) : list Z := l ≫= enc c.

Lemma put_all_ok l s :
  Forall (valid c) l → st_ok s →
  ∃ s', put_all c l s = Done s' ∧ st_ok s' ∧ st_content s' = st_content s ++ (Some <$> enc_all l).
Proof.
  intros Hl. revert s. induction Hl as [|x l Hx Hl IH]; intros s Hs; cbn [put_all].
  { exists s. cbn. by rewrite app_nil_r. }
  destruct (law_put x s Hx Hs) as (s1 & -> & Hs1 & Hc1). cbn [mbind result_bind].
  destruct (IH s1 Hs1) as (s2 & -> & Hs2 & Hc2). exists s2. split; [done|]. split; [done|].
  unfold enc_all in *. by rewrite Hc2, Hc1, bind_cons, fmap_app, app_assoc.
Qed.

Lemma get_all_ok l s rest :
  Forall (valid c) l → st_ok s → st_content s = (Some <$> enc_all l) ++ rest →
  ∃ s', get_all c (length l) s = Done (l, s') ∧ st_ok s' ∧ st_content s' = rest.
Proof.
  intros Hl. revert s. induction Hl as [|x l Hx Hl IH]; intros s Hs Hc; cbn [get_all length].
  { exists s. done. }
  unfold enc_all in Hc. rewrite bind_cons, fmap_app, <-app_assoc in Hc.
  destruct (law_get x s _ Hx Hs Hc) as (s1 & -> & Hs1 & Hc1). cbn [mbind result_bind].
  destruct (IH s1 Hs1 Hc1) as (s2 & -> & Hs2 & Hc2). cbn. eauto.
Qed.

(** A length followed by that many elements. *)
Lemma put_sized_ok l s :
  Z.of_nat (length l) < 2 ^ 31 → Forall (valid c) l → st_ok s →
  ∃ s', (s ← put v64_codec (Z.of_nat (length l)) s; put_all c l s) = Done s' ∧ st_ok s' ∧
    st_content s' = st_content s ++ (Some <$> enc v64_codec (Z.of_nat (length l)) ++ enc_all l).
Proof.
  intros Hn Hl Hs.
  destruct (law_put (c:=v64_codec) (Z.of_nat (length l)) s) as (s1 & -> & Hs1 & Hc1); [apply size_valid; lia|done|].
  cbn [mbind result_bind]. destruct (put_all_ok l s1 Hl Hs1) as (s2 & -> & Hs2 & Hc2). exists s2.
  split; [done|]. split; [done|]. by rewrite Hc2, Hc1, fmap_app, app_assoc.
Qed.

Lemma get_sized_ok l s rest :
  Z.of_nat (length l) < 2 ^ 31 → Forall (valid c) l → st_ok s →
  st_content s = (Some <$> enc v64_codec (Z.of_nat (length l)) ++ enc_all l) ++ rest →
  ∃ s1 s2, get v64_codec s = Done (Z.of_nat (length l), s1) ∧ get_all c (length l) s1 = Done (l, s2) ∧
    st_ok s2 ∧ st_content s2 = rest.
Proof.
  intros Hn Hl Hs Hc. rewrite fmap_app, <-app_assoc in Hc.
  destruct (law_get (c:=v64_codec) _ s _ (size_valid (Z.of_nat (length l)) ltac:(lia)) Hs Hc) as (s1 & Hg & Hs1 & Hc1).
  destruct (get_all_ok l s1 rest Hl Hs1 Hc1) as (s2 & Hg2 & Hs2 & Hc2). eauto 10.
Qed.

#[export] Program Instance vector_lawful : Lawful (vector_codec c) := {|
  valid l := Z.of_nat (length l) < 2 ^ 31 ∧ Forall (valid c) l;
  enc l := enc v64_codec (Z.of_nat (length l)) ++ enc_all l;
|}.
Next Obligation. intros l s [Hn Hl] Hs. by apply put_sized_ok. Qed.
Next Obligation.
  intros l s rest [Hn Hl] Hs Hc. destruct (get_sized_ok l s rest Hn Hl Hs Hc) as (s1 & s2 & H1 & H2 & Hs2 & Hc2).
  cbn [get vector_codec]. rewrite H1. cbn [mbind result_bind]. rewrite Nat2Z.id, H2. eauto.
Qed.
End containers_lawful.

(** An iteration order visits every element once. *)
Class Enumerates (ord : gset Z → list Z) := enumerates s : ord s ≡ₚ elements s.

Lemma foldl_union (l : list Z) (X : gset Z) : foldl (λ v x, {[x]} ∪ v) X l = list_to_set l ∪ X.
Proof. revert X. induction l as [|x l IH]; intros X; cbn; [set_solver|]. rewrite IH. set_solver. Qed.

#[export] Program Instance set_lawful ord (c : codec Z) `{!Enumerates ord, !Lawful c} : Lawful (set_codec ord c) := {|
  valid v := Z.of_nat (size v) < 2 ^ 31 ∧ ∀ x, x ∈ v → valid c x;
  enc v := enc v64_codec (Z.of_nat (length (ord v))) ++ enc_all c (ord v);
|}.
Next Obligation.
  intros ord c Ho L v s [Hn Hv] Hs. assert (Hl : length (ord v) = size v) by by rewrite (enumerates v).
  destruct (put_sized_ok c (ord v) s) as (s' & Hp & Hrest); [lia| |done|].
  - rewrite (enumerates v), Forall_forall. intros x. rewrite elem_of_elements. apply Hv.
  - exists s'. split; [|done]. cbn [put set_codec]. by rewrite <-Hl.
Qed.
Next Obligation.
  intros ord c Ho L v s rest [Hn Hv] Hs Hc. assert (Hl : length (ord v) = size v) by by rewrite (enumerates v).
  destruct (get_sized_ok c (ord v) s rest) as (s1 & s2 & H1 & H2 & Hs2 & Hc2); [lia| |done|done|].
  - rewrite (enumerates v), Forall_forall. intros x. rewrite elem_of_elements. apply Hv.
  - exists s2. split; [|done]. cbn [get set_codec]. rewrite H1. cbn [mbind result_bind]. rewrite Nat2Z.id, H2. cbn.
    rewrite foldl_union. do 2 f_equal. apply set_eq. intros x.
    rewrite elem_of_union, elem_of_list_to_set, (enumerates v), elem_of_elements. set_solver.
Qed.

(** Maps are sent as key-value pairs in iteration order. *)
Section maps.
Context {V : Type} (ord : gset Z → list Z) `{!Enumerates ord}.

Definition items (v : gmap Z V) : list (Z * V) := omap (λ k, (k,.) <$> v !! k) (ord (dom v)).

Lemma items_keys v : (items v).*1 = ord (dom v).
Proof.
  unfold items. assert (Hl : ∀ k, k ∈ ord (dom v) → is_Some (v !! k)).
  { intros k. rewrite (enumerates (dom v)), elem_of_elements. apply elem_of_dom. }
  revert Hl. induction (ord (dom v)) as [|k l IH]; intros Hl; [done|]. cbn.
  destruct (Hl k) as [x Hx]; [by left|]. rewrite Hx. cbn. f_equal. apply IH. intros k' ?. apply Hl. by right.
Qed.

Lemma items_perm v : items v ≡ₚ map_to_list v.
Proof.
  apply NoDup_Permutation.
  - apply (NoDup_fmap_1 fst). rewrite items_keys, (enumerates (dom v)). apply NoDup_elements.
  - apply NoDup_map_to_list.
  - intros [k x]. rewrite elem_of_map_to_list. unfold items. rewrite list_elem_of_omap. split.
    + intros (k' & _ & Hk). apply fmap_Some in Hk as (y & Hy & [= -> ->]). done.
    + intros Hk. exists k. rewrite (enumerates (dom v)), elem_of_elements. split; [by eapply elem_of_dom_2|]. by rewrite Hk.
Qed.

Lemma foldl_insert_into_map (l : list (Z * V)) (acc : gmap Z V) : foldl insert_into_map acc l = acc ∪ list_to_map l.
Proof.
  revert acc. induction l as [|[k x] l IH]; intros acc; cbn [foldl]; [by rewrite list_to_map_nil, (right_id_L ∅ (∪))|].
  rewrite IH. unfold insert_into_map. cbn [fst snd]. destruct (acc !! k) as [y|] eqn:Hk.
  - apply map_eq. intros j. rewrite !lookup_union. destruct (decide (j = k)) as [->|]; [by rewrite Hk, !union_Some_l|].
    by rewrite list_to_map_cons, lookup_insert_ne.
  - by rewrite list_to_map_cons, <-insert_union_r, insert_union_l by done.
Qed.

#[export] Program Instance map_lawful (ck : codec Z) (cv : codec V) `{!Lawful ck, !Lawful cv} : Lawful (map_codec ord ck cv) := {|
  valid v := Z.of_nat (size v) < 2 ^ 31 ∧ map_Forall (λ k x, valid ck k ∧ valid cv x) v;
  enc v := enc v64_codec (Z.of_nat (length (items v))) ++ enc_all (pair_codec ck cv) (items v);
|}.
Next Obligation.
  intros ck cv Lk Lv v s [Hn Hv] Hs.
  assert (Hl : length (items v) = size v) by (rewrite items_perm; by apply length_map_to_list).
  destruct (put_sized_ok (pair_codec ck cv) (items v) s) as (s' & Hp & Hrest); [lia| |done|].
  - rewrite items_perm, Forall_forall. intros [k x] Hx%elem_of_map_to_list. by apply Hv in Hx.
  - exists s'. split; [|done]. cbn [put map_codec]. by rewrite <-Hl.
Qed.
Next Obligation.
  intros ck cv Lk Lv v s rest [Hn Hv] Hs Hc.
  assert (Hl : length (items v) = size v) by (rewrite items_perm; by apply length_map_to_list).
  destruct (get_sized_ok (pair_codec ck cv) (items v) s rest) as (s1 & s2 & H1 & H2 & Hs2 & Hc2); [lia| |done|done|].
  - rewrite items_perm, Forall_forall. intros [k x] Hx%elem_of_map_to_list. by apply Hv in Hx.
  - exists s2. split; [|done]. cbn [get map_codec]. rewrite H1. cbn [mbind result_bind]. rewrite Nat2Z.id, H2. cbn.
    rewrite foldl_insert_into_map, (left_id_L ∅ (∪)). do 2 f_equal.
    rewrite <-(list_to_map_to_list v) at 2. apply list_to_map_proper; [|apply items_perm].
    rewrite items_keys, (enumerates (dom v)). apply NoDup_elements.
Qed.
End maps.

(** ** Properties *)

#[local] Instance elements_enumerates : Enumerates elements.
Proof. by intros s. Qed.

(** ** Typed messages

    The types of rrr messages: the operators are overloaded on these, so a type
    determines how its values are written and read.  Keys of sets and maps are
    integers. *)
Inductive wire_int := I8 | I16 | I32 | I64 | U8 | U16 | U32 | U64 | V32 | V64.

Inductive wire_type :=
  | WInt (k : wire_int)
  | WString
  | WPair (a b : wire_type)
  | WVector (a : wire_type)
  | WSet (k : wire_int)
  | WMap (k : wire_int) (a : wire_type).

Fixpoint wire_val (t : wire_type) : Type :=
  match t with
  | WInt _ => Z
  | WString => list Z
  | WPair a b => wire_val a * wire_val b
  | WVector a => list (wire_val a)
  | WSet _ => gset Z
  | WMap _ a => gmap Z (wire_val a)
  end.

Definition int_operators (k : wire_int) : codec Z :=
  match k with
  | I8 => int_codec 1 | I16 => int_codec 2 | I32 => int_codec 4 | I64 => int_codec 8
  | U8 => uint_codec 1 | U16 => uint_codec 2 | U32 => uint_codec 4 | U64 => uint_codec 8
  | V32 => v32_codec | V64 => v64_codec
  end.

Fixpoint operators (ord : gset Z → list Z) (t : wire_type) : codec (wire_val t) :=
  match t with
  | WInt k => int_operators k
  | WString => string_codec
  | WPair a b => pair_codec (operators ord a) (operators ord b)
  | WVector a => vector_codec (operators ord a)
  | WSet k => set_codec ord (int_operators k)
  | WMap k a => map_codec ord (int_operators k) (operators ord a)
  end.

(** The values of a type: the C++ range of the integers, without those whose sparse
    encoding takes eight bytes ([SparseInt.sparse_eight_bytes_lost]), bytes in
    strings, and fewer than 2^31 elements (the loops of the readers count in [int]). *)
Definition int_range (k : wire_int) (v : Z) : Prop :=
  match k with
  | I8 => - 2 ^ 7 ≤ v < 2 ^ 7 | I16 => - 2 ^ 15 ≤ v < 2 ^ 15
  | I32 | V32 => - 2 ^ 31 ≤ v < 2 ^ 31 | I64 => - 2 ^ 63 ≤ v < 2 ^ 63
  | U8 => 0 ≤ v < 2 ^ 8 | U16 => 0 ≤ v < 2 ^ 16 | U32 => 0 ≤ v < 2 ^ 32 | U64 => 0 ≤ v < 2 ^ 64
  | V64 => - 2 ^ 63 ≤ v < 2 ^ 63 ∧ val_size v ≠ 8
  end.

Fixpoint wire_range (t : wire_type) : wire_val t → Prop :=
  match t with
  | WInt k => int_range k
  | WString => λ v, Z.of_nat (length v) < 2 ^ 31 ∧ Forall (λ b, 0 ≤ b < 256) v
  | WPair a b => λ v, wire_range a v.1 ∧ wire_range b v.2
  | WVector a => λ v, Z.of_nat (length v) < 2 ^ 31 ∧ Forall (wire_range a) v
  | WSet k => λ v, Z.of_nat (size v) < 2 ^ 31 ∧ set_Forall (int_range k) v
  | WMap k a => λ v, Z.of_nat (size v) < 2 ^ 31 ∧ map_Forall (λ i x, int_range k i ∧ wire_range a x) v
  end.

(** The arguments of a request are put one after the other, [m << a << b << ...],
    and taken off by their types, [m >> a >> b >> ...]. *)
Definition argument : Type := sigT wire_val.

Fixpoint put_arguments (ord : gset Z → list Z) (l : list argument) (s : mstate) : result mstate :=
  match l with
  | [] => Done s
  | existT t v :: l => s ← put (operators ord t) v s; put_arguments ord l s
  end.

Fixpoint get_arguments (ord : gset Z → list Z) (ts : list wire_type) (s : mstate) : result (list argument * mstate) :=
  match ts with
  | [] => Done ([], s)
  | t :: ts => '(v, s) ← get (operators ord t) s; '(l, s) ← get_arguments ord ts s; Done (existT t v :: l, s)
  end.

(** Every type's operators keep the promise, on all values of the type. *)
#[export] Instance int_operators_lawful k : Lawful (int_operators k).
Proof. destruct k; apply _. Defined.

Lemma int_range_valid k v : int_range k v → valid (int_operators k) v.
Proof. by destruct k. Qed.

#[export] Instance operators_lawful ord `{!Enumerates ord} t : Lawful (operators ord t).
Proof. induction t; cbn [operators]; apply _. Defined.

Lemma wire_range_valid ord `{!Enumerates ord} t v : wire_range t v → valid (operators ord t) v.
Proof.
  induction t as [k| |a IHa b IHb|a IHa|k|k a IHa]; cbn [wire_range]; intros Hv.
  - by apply int_range_valid.
  - apply Hv.
  - destruct Hv as [Ha Hb]. split; [exact (IHa _ Ha)|exact (IHb _ Hb)].
  - destruct Hv as [Hn Hv]. split; [done|]. eapply Forall_impl; [exact Hv|apply IHa].
  - destruct Hv as [Hn Hv]. split; [done|]. intros x Hx. by apply int_range_valid, Hv.
  - destruct Hv as [Hn Hv]. split; [done|]. intros i x Hx. destruct (Hv i x Hx). split; [by apply int_range_valid|by apply IHa].
Qed.

Definition in_range (x : argument) : Prop := wire_range (projT1 x) (projT2 x).

Lemma put_arguments_ok ord `{!Enumerates ord} l s :
  Forall in_range l → st_ok s →
  ∃ s' bs, put_arguments ord l s = Done s' ∧ st_ok s' ∧ st_content s' = st_content s ++ (Some <$> bs) ∧
    ∀ r rest, st_ok r → st_content r = (Some <$> bs) ++ rest →
      ∃ r', get_arguments ord (projT1 <$> l) r = Done (l, r') ∧ st_ok r' ∧ st_content r' = rest.
Proof.
  intros Hl. revert s. induction Hl as [|[t v] l Hx Hl IH]; intros s Hs; cbn [put_arguments].
  { exists s, []. rewrite app_nil_r. split; [done|]. split; [done|]. split; [done|]. intros r rest Hr Hc. by exists r. }
  apply (wire_range_valid ord) in Hx. cbn [projT1 projT2] in Hx.
  destruct (law_put v s Hx Hs) as (s1 & -> & Hs1 & Hc1). cbn [mbind result_bind].
  destruct (IH s1 Hs1) as (s2 & bs & -> & Hs2 & Hc2 & Hget). exists s2, (enc (operators ord t) v ++ bs).
  split; [done|]. split; [done|]. split; [by rewrite Hc2, Hc1, fmap_app, app_assoc|].
  intros r rest Hr Hc. rewrite fmap_app, <-app_assoc in Hc.
  destruct (law_get v r _ Hx Hr Hc) as (r1 & Hg1 & Hr1 & Hcr1). destruct (Hget r1 rest Hr1 Hcr1) as (r2 & Hg2 & Hr2 & Hcr2).
  exists r2. split; [|done]. cbn [fmap list_fmap projT1 get_arguments]. rewrite Hg1. cbn [mbind result_bind]. by rewrite Hg2.
Qed.

(** C34: the arguments of a message, values of any types built from integers of all
    widths, sparse integers, strings, pairs, vectors, sets and maps, are written
    without a failed check behind any bytes a queue already holds; when those
    are consumed, reading by the same types gives every argument back unchanged and
    leaves the queue empty, whatever the iteration order of the unordered containers.
    Integers are in the range of their type, sparse 64-bit ones outside of the class
    that takes eight bytes, containers have fewer than 2^31 elements and keys are
    integers. *)
Theorem message_roundtrip ord `{!Enumerates ord} l s p :
  Forall in_range l → st_ok s → st_content s = Some <$> p →
  ∃ s1 s2 s3, put_arguments ord l s = Done s1 ∧ get_bytes (length p) s1 = Done (p, s2) ∧
    get_arguments ord (projT1 <$> l) s2 = Done (l, s3) ∧ st_content s3 = [].
Proof.
  intros Hl Hs Hc. destruct (put_arguments_ok ord l s Hl Hs) as (s1 & bs & Hp & Hs1 & Hc1 & Hget). rewrite Hc in Hc1.
  destruct (get_bytes_ok p s1 _ Hs1 Hc1) as (s2 & Hg & Hs2 & Hc2). rewrite <-(app_nil_r (Some <$> bs)) in Hc2.
  destruct (Hget s2 [] Hs2 Hc2) as (s3 & Hg3 & Hs3 & Hc3). eauto 10.
Qed.

(** A [std::vector<std::pair<std::string, std::set<uint32_t> > >], a [v64] and a
    [std::map<i16, std::string>]. *)
Lemma message_roundtrip_witness :
  let l : list argument := [existT (WVector (WPair WString (WSet U32))) [([72; 105], {[3; 70000]}); ([], ∅)];
                            existT (WInt V64) (- 5000); existT (WMap I16 WString) {[ (- 7) := [65] ]}] in
  ∃ s1 s2 s3, put_arguments elements l (∅, Marshal_new) = Done s1 ∧ get_bytes 0 s1 = Done ([], s2) ∧
    get_arguments elements (projT1 <$> l) s2 = Done (l, s3) ∧ st_content s3 = [].
Proof.
  cbn zeta. apply (message_roundtrip elements _ _ []); [|apply (marshal_ok_new ∅)|done].
  repeat (apply Forall_cons; split); [..|by apply Forall_nil]; unfold in_range; cbn [projT1 projT2 wire_range int_range].
  - split; [done|]. repeat (apply Forall_cons; split); [..|by apply Forall_nil]; cbn [fst snd].
    + split; [split; [done|repeat (apply Forall_cons; split); by try apply Forall_nil]|]. split; [by vm_compute|].
      intros x Hx. assert (x = 3 ∨ x = 70000) as [-> | ->] by set_solver; by cbn.
    + split; [by split; [|apply Forall_nil]|]. split; [by vm_compute|]. intros x Hx. set_solver.
  - by vm_compute.
  - split; [by vm_compute|]. intros i x Hx. apply (lookup_singleton_Some (M:=gmap Z) (A:=list Z)) in Hx as [<- <-]. split; [by cbn|]. split; [done|]. by apply Forall_singleton.
Defined.
