(* ===== verification/Graph.v ===== *)
(** * The transaction dependency graph of ROCOCO: data and union

    Models src/rococo-dst/deptran/txn_info.h and the construction half of
    src/rococo-dst/deptran/graph.hpp ([find], [find_or_insert], [insert], assignment, [union_graph]).

    Inside one graph a vertex is known by its transaction id ([id_index_]), so a
    vertex pointer is its id and the edge maps [from_] and [to_] are maps from ids
    to relations.  The source iterates over hash sets and over maps ordered by
    pointer; [ord] stands for that order, and nothing is assumed of it but that it lists
    the set. *)

From S2P Require Import Prelude.

(** ** TxnInfo *)

Definition TXN_UKN : Z := 0.
Definition TXN_STD : Z := 1.
Definition TXN_CMT : Z := 2.
Definition TXN_DCD : Z := 4.

(** [events_] maps a status to the callbacks waiting for it; a callback is known by
    a number, and triggering is recorded by returning the numbers in order. *)
Record TxnInfo := mkTxn {
  status_ : Z;
  txn_id_ : Z;
  txn_ts_ : Z;
  servers_ : gset Z;
  events_ : gmap Z (list Z);
}.

Definition is_commit (t : TxnInfo) : bool := bool_decide (Z.land (status_ t) TXN_DCD ≠ 0).
Definition is_finish (t : TxnInfo) : bool := bool_decide (Z.land (status_ t) TXN_CMT ≠ 0).

(** [Vertex<T>::Vertex()] followed by [set_id] and [set_ts]. *)
Definition TxnInfo_new (id ts : Z) : TxnInfo := mkTxn TXN_UKN id ts ∅ ∅.

Definition set_status (s : Z) (t : TxnInfo) : TxnInfo :=
  mkTxn s (txn_id_ t) (txn_ts_ t) (servers_ t) (events_ t).
Definition set_servers (s : gset Z) (t : TxnInfo) : TxnInfo :=
  mkTxn (status_ t) (txn_id_ t) (txn_ts_ t) s (events_ t).
Definition set_events (e : gmap Z (list Z)) (t : TxnInfo) : TxnInfo :=
  mkTxn (status_ t) (txn_id_ t) (txn_ts_ t) (servers_ t) e.

(** [TxnInfo::trigger]: statuses in increasing order, each list from its back. *)
Definition trigger (t : TxnInfo) : TxnInfo * list Z :=
  let ready := filter (λ k, k ≤ status_ t) (seqZ (-128) 256) in
  (set_events (filter (λ '(k, _), ¬ k ≤ status_ t) (events_ t)) t,
   ready ≫= λ k, reverse (default [] (events_ t !! k))).

Section txn.
Context (site_id : Z).

Definition is_involved (t : TxnInfo) : bool := bool_decide (site_id ∈ servers_ t).

(** [TxnInfo::union_status] *)
Definition union_status (t : TxnInfo) (status : Z) (is_trigger is_server : bool) : TxnInfo * list Z :=
  let t := if is_server && is_involved t then t else set_status (Z.lor (status_ t) status) t in
  if is_trigger then trigger t else (t, []).

(** [TxnInfo::union_data] *)
Definition union_data (t ti : TxnInfo) (trig server : bool) : TxnInfo * list Z :=
  union_status (set_servers (servers_ t ∪ servers_ ti) t) (status_ ti) trig server.
End txn.

(** [TxnInfo::register_event] *)
Definition register_event (t : TxnInfo) (status ball : Z) : TxnInfo * list Z :=
  if decide (status ≤ status_ t) then (t, [ball])
  else (set_events (<[status := default [] (events_ t !! status) ++ [ball]]> (events_ t)) t, []).

(** ** Graph *)

Record Vertex := mkVertex { v_from : gmap Z Z; v_to : gmap Z Z; v_data : TxnInfo }.
Abbreviation Graph := (gmap Z Vertex).

Definition Vertex_new (d : TxnInfo) : Vertex := mkVertex ∅ ∅ d.
Definition set_data (d : TxnInfo) (v : Vertex) : Vertex := mkVertex (v_from v) (v_to v) d.
Definition find (g : Graph) (id : Z) : option Vertex := g !! id.

(** [Graph::find_or_insert(id, ts)] *)
Definition find_or_insert (g : Graph) (id ts : Z) : Graph :=
  match g !! id with Some _ => g | None => <[id := Vertex_new (TxnInfo_new id ts)]> g end.

(** [Graph::find_or_insert(data)] *)
Definition find_or_insert_data (g : Graph) (d : TxnInfo) : Graph :=
  match g !! txn_id_ d with Some _ => g | None => <[txn_id_ d := Vertex_new d]> g end.

(** [m[k] |= r] on a [std::map<_, int8_t>] *)
Definition or_at (k r : Z) (m : gmap Z Z) : gmap Z Z := <[k := Z.lor (default 0 (m !! k)) r]> m.

(** [u->to_[w] |= r; w->from_[u] |= r] *)
Definition or_edge (u w r : Z) (g : Graph) : Graph :=
  let g := alter (λ v, mkVertex (v_from v) (or_at w r (v_to v)) (v_data v)) u g in
  alter (λ v, mkVertex (or_at u r (v_from v)) (v_to v) (v_data v)) w g.

(** [u->to_[w] = r; w->from_[u] = r] *)
Definition set_edge (u w r : Z) (g : Graph) : Graph :=
  let g := alter (λ v, mkVertex (v_from v) (<[w := r]> (v_to v)) (v_data v)) u g in
  alter (λ v, mkVertex (<[u := r]> (v_from v)) (v_to v) (v_data v)) w g.

Section graph.
Context (site_id : Z) (ord : gset Z → list Z).

(** [Graph::operator=]: copy the vertices' data, then rebuild both edge maps from
    the [to_] maps. *)
Definition copy_vertices (src : Graph) : Graph := (λ v, Vertex_new (v_data v)) <$> src.

Definition copy_edges_from (src : Graph) (g : Graph) (u : Z) : result Graph :=
  match src !! u with
  | None => Crash invalid_access
  | Some v =>
      for_each (λ g w,
        match v_to v !! w with
        | None => Crash invalid_access
        | Some r =>
            _ ← verify (bool_decide (is_Some (g !! w)));
            Done (set_edge u w r g)
        end) (ord (dom (v_to v))) g
  end.

Definition Graph_assign (src : Graph) : result Graph :=
  for_each (copy_edges_from src) (ord (dom src)) (copy_vertices src).

(** [Graph::union_graph]: one edge, one vertex, the whole graph. *)
Definition union_edge (gra : Graph) (u : Z) (g : Graph) (w : Z) (r : Z) : Graph :=
  let g := match g !! w with
           | Some _ => g
           | None => match gra !! w with
                     | Some tv => <[w := Vertex_new (v_data tv)]> g
                     | None => g
                     end
           end in
  or_edge u w r g.

Definition union_vertex (gra : Graph) (is_server : bool) (g : Graph) (u : Z) : Graph :=
  match gra !! u with
  | None => g
  | Some v =>
      let g := match g !! u with
               | None => <[u := Vertex_new (v_data v)]> g
               | Some ov => <[u := set_data (union_data site_id (v_data ov) (v_data v) false is_server).1 ov]> g
               end in
      foldl (λ g w, union_edge gra u g w (default 0 (v_to v !! w))) g (ord (dom (v_to v)))
  end.

(** The final loop triggers the callbacks of every vertex touched. *)
Definition trigger_vertex (s : Graph * list Z) (u : Z) : Graph * list Z :=
  match s.1 !! u with
  | None => s
  | Some v => let '(d, balls) := trigger (v_data v) in (<[u := set_data d v]> s.1, s.2 ++ balls)
  end.

Definition union_graph (g gra : Graph) (is_server : bool) : result (Graph * list Z) :=
  _ ← verify (bool_decide (gra ≠ ∅));
  let g := foldl (union_vertex gra is_server) g (ord (dom gra)) in
  Done (foldl trigger_vertex (g, []) (ord (dom gra))).
End graph.

(** ** Reading a graph *)

(** The relation on the edge from [u] to [w], as each end records it. *)
Definition out_e (g : Graph) (u w : Z) : option Z := g !! u ≫= λ v, v_to v !! w.
Definition in_e (g : Graph) (u w : Z) : option Z := g !! w ≫= λ v, v_from v !! u.
Definition data_at (g : Graph) (u : Z) : option TxnInfo := v_data <$> g !! u.

(** Well-formed: ids match, and the two ends of every edge agree. *)
Record graph_wf (g : Graph) : Prop := {
  gw_id u d : data_at g u = Some d → txn_id_ d = u;
  gw_edge u w : out_e g u w = in_e g u w;
}.

(** Two relations merged bit by bit. *)
Definition join_rel (a b : option Z) : option Z := union_with (λ x y, Some (Z.lor x y)) a b.

Lemma out_e_dom g u w : is_Some (out_e g u w) → u ∈ dom g.
Proof. unfold out_e. rewrite elem_of_dom. destruct (g !! u); [eauto|]. by intros [? ?]. Qed.

Lemma in_e_dom g u w : is_Some (in_e g u w) → w ∈ dom g.
Proof. unfold in_e. rewrite elem_of_dom. destruct (g !! w); [eauto|]. by intros [? ?]. Qed.

Lemma wf_target g u w : graph_wf g → is_Some (out_e g u w) → w ∈ dom g.
Proof. intros Hg. rewrite (gw_edge _ Hg). apply in_e_dom. Qed.

Lemma data_at_dom g u : u ∈ dom g ↔ is_Some (data_at g u).
Proof. unfold data_at. by rewrite elem_of_dom, fmap_is_Some. Qed.

Lemma graph_wf_empty : graph_wf ∅.
Proof. by split. Qed.

(** Adding a vertex without edges. *)
Lemma out_e_new g u d x y : g !! u = None → out_e (<[u := Vertex_new d]> g) x y = out_e g x y.
Proof.
  intros Hu. unfold out_e. destruct (decide (u = x)) as [<-|]; [by rewrite lookup_insert_eq, Hu|].
  by rewrite lookup_insert_ne.
Qed.
Lemma in_e_new g u d x y : g !! u = None → in_e (<[u := Vertex_new d]> g) x y = in_e g x y.
Proof.
  intros Hu. unfold in_e. destruct (decide (u = y)) as [<-|]; [by rewrite lookup_insert_eq, Hu|].
  by rewrite lookup_insert_ne.
Qed.

Lemma data_at_insert g u v x :
  data_at (<[u := v]> g) x = if decide (u = x) then Some (v_data v) else data_at g x.
Proof.
  unfold data_at. case_decide as Hx; [subst; by rewrite lookup_insert_eq|by rewrite lookup_insert_ne].
Qed.

Lemma graph_wf_new g u d : graph_wf g → g !! u = None → txn_id_ d = u → graph_wf (<[u := Vertex_new d]> g).
Proof.
  intros [Hi He] Hu Hd. split.
  - intros x d'. rewrite data_at_insert. case_decide; [|apply Hi]. by intros [= <-]; subst.
  - intros x y. by rewrite out_e_new, in_e_new.
Qed.

(** Changing data leaves the edges alone. *)
Lemma out_e_set_data g u v d x y : g !! u = Some v → out_e (<[u := set_data d v]> g) x y = out_e g x y.
Proof.
  intros Hu. unfold out_e. destruct (decide (u = x)) as [<-|]; [by rewrite lookup_insert_eq, Hu|].
  by rewrite lookup_insert_ne.
Qed.
Lemma in_e_set_data g u v d x y : g !! u = Some v → in_e (<[u := set_data d v]> g) x y = in_e g x y.
Proof.
  intros Hu. unfold in_e. destruct (decide (u = y)) as [<-|]; [by rewrite lookup_insert_eq, Hu|].
  by rewrite lookup_insert_ne.
Qed.

Lemma graph_wf_set_data g u v d :
  graph_wf g → g !! u = Some v → txn_id_ d = u → graph_wf (<[u := set_data d v]> g).
Proof.
  intros [Hi He] Hu Hd. split.
  - intros x d'. rewrite data_at_insert. case_decide; [|apply Hi]. by intros [= <-]; subst.
  - intros x y. by rewrite out_e_set_data, in_e_set_data.
Qed.

(** ** One edge *)

Lemma or_at_lookup k r m x :
  or_at k r m !! x = if decide (k = x) then join_rel (m !! k) (Some r) else m !! x.
Proof.
  unfold or_at. case_decide as Hx; [subst; rewrite lookup_insert_eq|by rewrite lookup_insert_ne].
  by destruct (m !! _).
Qed.

Lemma or_edge_lookup u w r g x :
  or_edge u w r g !! x =
  (λ v, mkVertex (if decide (w = x) then or_at u r (v_from v) else v_from v)
                 (if decide (u = x) then or_at w r (v_to v) else v_to v) (v_data v)) <$> g !! x.
Proof.
  unfold or_edge. destruct (decide (w = x)) as [Hw|Hw], (decide (u = x)) as [Hu|Hu]; subst;
    rewrite ?lookup_alter_eq, ?lookup_alter_ne, ?lookup_alter_eq by done; by destruct (g !! _) as [[]|].
Qed.

Lemma or_edge_data u w r g x : data_at (or_edge u w r g) x = data_at g x.
Proof. unfold data_at. rewrite or_edge_lookup. by destruct (g !! x). Qed.

Lemma or_edge_out u w r g x y :
  u ∈ dom g →
  out_e (or_edge u w r g) x y =
  if decide (u = x ∧ w = y) then join_rel (out_e g x y) (Some r) else out_e g x y.
Proof.
  intros [v Hv]%elem_of_dom. unfold out_e. rewrite or_edge_lookup.
  destruct (decide (u = x)) as [<-|Hne]; [rewrite Hv; cbn|by destruct (g !! x); cbn; case_decide; naive_solver].
  rewrite or_at_lookup. repeat case_decide; naive_solver.
Qed.

Lemma or_edge_in u w r g x y :
  w ∈ dom g →
  in_e (or_edge u w r g) x y =
  if decide (u = x ∧ w = y) then join_rel (in_e g x y) (Some r) else in_e g x y.
Proof.
  intros [v Hv]%elem_of_dom. unfold in_e. rewrite or_edge_lookup.
  destruct (decide (w = y)) as [<-|Hne]; [rewrite Hv; cbn|by destruct (g !! y); cbn; case_decide; naive_solver].
  rewrite or_at_lookup. repeat case_decide; naive_solver.
Qed.

Lemma or_edge_wf u w r g : graph_wf g → u ∈ dom g → w ∈ dom g → graph_wf (or_edge u w r g).
Proof.
  intros [Hi He] Hu Hw. split.
  - intros x d. rewrite or_edge_data. apply Hi.
  - intros x y. rewrite or_edge_out, or_edge_in, He by done. done.
Qed.

(** ** The union of two graphs *)

Section union_spec.
Context (site_id : Z) (ord : gset Z → list Z).
Context (Hord : ∀ s, ord s ≡ₚ elements s).

Lemma ord_elem s x : x ∈ ord s ↔ x ∈ s.
Proof. by rewrite Hord, elem_of_elements. Qed.
Lemma ord_nodup s : NoDup (ord s).
Proof. rewrite Hord. apply NoDup_elements. Qed.

Lemma union_data_self d sv : (union_data site_id d d false sv).1 = d.
Proof.
  unfold union_data, union_status. cbn.
  assert (Hs : servers_ d ∪ servers_ d = servers_ d) by set_solver.
  destruct d as [st i t sv' ev]. cbn in *. rewrite Hs. case_match; [done|]. cbn.
  by rewrite Z.lor_diag.
Qed.

Lemma union_data_id d d' trig sv : txn_id_ (union_data site_id d d' trig sv).1 = txn_id_ d.
Proof. unfold union_data, union_status. by destruct trig, (_ && _). Qed.

(** The target of an edge is created when it is missing. *)
Lemma union_edge_spec gra u g w r :
  graph_wf gra → graph_wf g → u ∈ dom g → w ∈ dom gra →
  let g' := union_edge gra u g w r in
  graph_wf g' ∧
  (∀ x, data_at g' x = match data_at g x with
                       | Some d => Some d
                       | None => if decide (x = w) then data_at gra x else None
                       end) ∧
  (∀ x y, out_e g' x y = if decide (x = u ∧ y = w) then join_rel (out_e g x y) (Some r) else out_e g x y).
Proof.
  intros Hgra Hg Hu [tv Htv]%elem_of_dom. cbn. unfold union_edge.
  set (g1 := match g !! w with Some _ => g | None => _ end).
  assert (Hg1 : graph_wf g1 ∧ w ∈ dom g1 ∧ u ∈ dom g1 ∧
    (∀ x, data_at g1 x = match data_at g x with Some d => Some d
                         | None => if decide (x = w) then data_at gra x else None end) ∧
    (∀ x y, out_e g1 x y = out_e g x y)).
  { subst g1. destruct (g !! w) as [v|] eqn:Hw.
    - split_and!; [done|by apply elem_of_dom_2 in Hw|done| |done].
      intros x. destruct (data_at g x) eqn:Hx; [done|]. case_decide; [subst|done].
      unfold data_at in Hx. by rewrite Hw in Hx.
    - rewrite Htv. split_and!.
      + apply graph_wf_new; [done..|]. apply (gw_id _ Hgra). unfold data_at. by rewrite Htv.
      + rewrite dom_insert. set_solver.
      + rewrite dom_insert. set_solver.
      + intros x. rewrite data_at_insert. destruct (decide (w = x)) as [<-|Hne].
        * unfold data_at. rewrite Hw, Htv. cbn. by rewrite decide_True.
        * rewrite decide_False by congruence. by destruct (data_at g x).
      + intros x y. by apply out_e_new. }
  destruct Hg1 as (Hwf1 & Hw1 & Hu1 & Hd1 & Ho1). split_and!.
  - by apply or_edge_wf.
  - intros x. by rewrite or_edge_data.
  - intros x y. rewrite or_edge_out, Ho1 by done. repeat case_decide; naive_solver.
Qed.

Lemma union_edges_spec gra u v ts g :
  graph_wf gra → gra !! u = Some v → graph_wf g → u ∈ dom g → NoDup ts →
  (∀ w, w ∈ ts → is_Some (v_to v !! w)) →
  let g' := foldl (λ g w, union_edge gra u g w (default 0 (v_to v !! w))) g ts in
  graph_wf g' ∧
  (∀ x, data_at g' x = match data_at g x with
                       | Some d => Some d
                       | None => if decide (x ∈ ts) then data_at gra x else None
                       end) ∧
  (∀ x y, out_e g' x y = if decide (x = u ∧ y ∈ ts) then join_rel (out_e g x y) (out_e gra x y)
                         else out_e g x y).
Proof.
  intros Hgra Hu. revert g. induction ts as [|w ts IH]; intros g Hg Hug Hnd Hts; cbn.
  { split_and!; [done| |].
    - intros x. by destruct (data_at g x).
    - intros x y. rewrite decide_False; [done|]. by intros [_ ?%not_elem_of_nil]. }
  apply NoDup_cons in Hnd as [Hnin Hnd]. destruct (Hts w) as [r Hr]; [by left|].
  assert (Ho : out_e gra u w = Some r) by (unfold out_e; by rewrite Hu).
  assert (Hwd : w ∈ dom gra) by (apply (wf_target gra u); [done|by rewrite Ho]).
  rewrite Hr. cbn [default].
  destruct (union_edge_spec gra u g w r Hgra Hg Hug Hwd) as (Hg1 & Hd1 & Ho1).
  destruct (IH (union_edge gra u g w r)) as (Hg2 & Hd2 & Ho2); [done| |done| |].
  { apply data_at_dom. rewrite Hd1. apply data_at_dom in Hug as [d ->]. eauto. }
  { intros w' Hw'. apply Hts. by right. }
  split_and!; [done| |].
  - intros x. rewrite Hd2, Hd1. destruct (data_at g x); [done|].
    destruct (decide (x = w)) as [->|]; [rewrite (decide_True (P := w ∈ w :: ts)) by left|].
    + destruct (data_at gra w) eqn:Hdw; [done|]. by case_decide.
    + repeat case_decide; set_solver.
  - intros x y. rewrite Ho2, Ho1. destruct (decide (x = u ∧ y = w)) as [[-> ->]|Hne].
    + rewrite (decide_False (P := u = u ∧ w ∈ ts)) by naive_solver.
      rewrite (decide_True (P := u = u ∧ w ∈ w :: ts)) by (split; [done|left]). by rewrite Ho.
    + repeat case_decide; set_solver.
Qed.

(** What one vertex of the other graph adds. *)
Definition merge_data (sv : bool) (a b : option TxnInfo) : option TxnInfo :=
  match a, b with
  | Some d, Some d' => Some (union_data site_id d d' false sv).1
  | Some d, None => Some d
  | None, b => b
  end.

Lemma union_vertex_spec gra sv g u v :
  graph_wf gra → graph_wf g → gra !! u = Some v →
  let g' := union_vertex site_id ord gra sv g u in
  graph_wf g' ∧ u ∈ dom g' ∧
  data_at g' u = merge_data sv (data_at g u) (data_at gra u) ∧
  (∀ x, x ≠ u → data_at g' x = data_at g x ∨ (data_at g x = None ∧ data_at g' x = data_at gra x)) ∧
  (∀ x y, out_e g' x y = if decide (x = u) then join_rel (out_e g x y) (out_e gra x y) else out_e g x y).
Proof.
  intros Hgra Hg Hu. cbn. unfold union_vertex. rewrite Hu.
  set (g1 := match g !! u with None => _ | Some _ => _ end).
  assert (Hid : txn_id_ (v_data v) = u) by (apply (gw_id _ Hgra); unfold data_at; by rewrite Hu).
  assert (Hg1 : graph_wf g1 ∧ u ∈ dom g1 ∧ data_at g1 u = merge_data sv (data_at g u) (data_at gra u) ∧
                (∀ x, x ≠ u → data_at g1 x = data_at g x) ∧ (∀ x y, out_e g1 x y = out_e g x y)).
  { subst g1. destruct (g !! u) as [ov|] eqn:Hgu; split_and!.
    - apply graph_wf_set_data; [done..|]. rewrite union_data_id. apply (gw_id _ Hg).
      unfold data_at. by rewrite Hgu.
    - rewrite dom_insert. set_solver.
    - rewrite data_at_insert, decide_True by done. unfold data_at. by rewrite Hgu, Hu.
    - intros x Hx. rewrite data_at_insert. by rewrite decide_False.
    - intros x y. by apply out_e_set_data.
    - by apply graph_wf_new.
    - rewrite dom_insert. set_solver.
    - rewrite data_at_insert, decide_True by done. unfold data_at. by rewrite Hgu, Hu.
    - intros x Hx. rewrite data_at_insert. by rewrite decide_False.
    - intros x y. by apply out_e_new. }
  destruct Hg1 as (Hwf1 & Hu1 & Hd1 & Hx1 & Ho1).
  destruct (union_edges_spec gra u v (ord (dom (v_to v))) g1) as (Hwf2 & Hd2 & Ho2);
    [done..|apply ord_nodup| |].
  { intros w Hw. by apply ord_elem, elem_of_dom in Hw. }
  split_and!; [done| | | |].
  - apply data_at_dom. rewrite Hd2. apply data_at_dom in Hu1 as [d ->]. eauto.
  - rewrite Hd2, <-Hd1. apply data_at_dom in Hu1 as [d ->]. done.
  - intros x Hx. rewrite Hd2, Hx1 by done. destruct (data_at g x); [by left|].
    case_decide; [by right|by left].
  - intros x y. rewrite Ho2, Ho1. destruct (decide (x = u)) as [->|]; [|by rewrite decide_False by naive_solver].
    destruct (decide (y ∈ ord (dom (v_to v)))) as [Hy|Hy]; [by rewrite decide_True|].
    rewrite decide_False by naive_solver.
    assert (out_e gra u y = None) as ->; [|by destruct (out_e g u y)].
    unfold out_e. rewrite Hu. cbn. apply not_elem_of_dom. by rewrite <-ord_elem.
Qed.

(** The state of the main loop after the vertices [us]. *)
Record union_inv (g gra : Graph) (sv : bool) (us : list Z) (G : Graph) : Prop := {
  ui_wf : graph_wf G;
  ui_dom x : x ∈ us → x ∈ dom G;
  ui_done x : x ∈ us → data_at G x = merge_data sv (data_at g x) (data_at gra x);
  ui_todo x : x ∉ us → data_at G x = data_at g x ∨ (data_at g x = None ∧ data_at G x = data_at gra x);
  ui_out x y : out_e G x y = if decide (x ∈ us) then join_rel (out_e g x y) (out_e gra x y) else out_e g x y;
}.

Lemma union_loop g gra sv us G us' :
  graph_wf gra → (∀ x, x ∈ us' → x ∈ dom gra) → NoDup (us ++ us') → union_inv g gra sv us G →
  union_inv g gra sv (us ++ us') (foldl (union_vertex site_id ord gra sv) G us').
Proof.
  intros Hgra. revert us G. induction us' as [|u us' IH]; intros us G Hdom Hnd HI.
  { by rewrite app_nil_r. }
  rewrite cons_middle, app_assoc in Hnd |- *. cbn [foldl]. apply IH; [|done|].
  { intros x Hx. apply Hdom. by right. }
  apply NoDup_app in Hnd as (Hnd & _ & _). apply NoDup_app in Hnd as (_ & Hdis & _).
  assert (Hu : u ∉ us) by (intros Hu; apply (Hdis u Hu); by left).
  destruct (elem_of_dom gra u) as [Hd _]. destruct Hd as [v Hv]; [apply Hdom; by left|].
  destruct HI as [Hwf Hud Hdone Htodo Hout].
  destruct (union_vertex_spec gra sv G u v Hgra Hwf Hv) as (Hwf' & Hu' & Hdu & Hx & Ho).
  split; [done| | | |].
  - intros x [Hxin| ->%list_elem_of_singleton]%elem_of_app; [|done].
    assert (x ≠ u) by (by intros ->). apply data_at_dom.
    destruct (Hx x) as [->|[Hnone _]]; [done|by apply data_at_dom, Hud|].
    specialize (Hud x Hxin). apply data_at_dom in Hud as [d Hd]. congruence.
  - intros x [Hxin| ->%list_elem_of_singleton]%elem_of_app.
    + assert (x ≠ u) by (by intros ->). rewrite <-Hdone by done. destruct (Hx x) as [->|[Hnone _]]; [done..|].
      specialize (Hud x Hxin). apply data_at_dom in Hud as [d Hd]. congruence.
    + rewrite Hdu. destruct (Htodo u Hu) as [->|[Hn ->]]; [done|]. rewrite Hn. cbn [merge_data].
      destruct (data_at gra u) as [d|]; [|done]. cbn [merge_data]. by rewrite union_data_self.
  - intros x [Hxn Hxu]%not_elem_of_app. assert (x ≠ u) by (intros ->; apply Hxu; by left).
    destruct (Hx x) as [->|[Hn ->]]; [done|by apply Htodo|].
    destruct (Htodo x Hxn) as [Heq|[? ?]]; [right; split; congruence|by right].
  - intros x y. rewrite Ho, Hout. destruct (decide (x = u)) as [->|Hne].
    + rewrite (decide_False (P := u ∈ us)) by done. rewrite decide_True; [done|]. apply elem_of_app; right. by left.
    + repeat case_decide; set_solver.
Qed.

Lemma trigger_id d : txn_id_ (trigger d).1 = txn_id_ d.
Proof. done. Qed.

(** Triggering touches nothing but the pending callbacks. *)
Lemma trigger_loop us s :
  graph_wf s.1 → NoDup us →
  let s' := foldl trigger_vertex s us in
  graph_wf s'.1 ∧ (∀ x y, out_e s'.1 x y = out_e s.1 x y) ∧
  (∀ x, data_at s'.1 x = if decide (x ∈ us) then fst ∘ trigger <$> data_at s.1 x else data_at s.1 x).
Proof.
  revert s. induction us as [|u us IH]; intros s Hwf Hnd; cbn [foldl].
  { split_and!; [done..|]. intros x. by rewrite decide_False by apply not_elem_of_nil. }
  apply NoDup_cons in Hnd as [Hnin Hnd]. unfold trigger_vertex at 2 4 6.
  destruct (s.1 !! u) as [v|] eqn:Hu.
  - destruct (trigger (v_data v)) as [d balls] eqn:Ht.
    assert (Hd : txn_id_ d = u).
    { transitivity (txn_id_ (trigger (v_data v)).1); [by rewrite Ht|]. rewrite trigger_id.
      apply (gw_id _ Hwf). unfold data_at. by rewrite Hu. }
    destruct (IH (<[u := set_data d v]> s.1, s.2 ++ balls)) as (H1 & H2 & H3); [by apply graph_wf_set_data|done|].
    split_and!; [done| |].
    + intros x y. rewrite H2. by apply out_e_set_data.
    + intros x. rewrite H3. cbn [fst]. rewrite data_at_insert. destruct (decide (u = x)) as [<-|Hne].
      * rewrite decide_False by done. rewrite decide_True by left. unfold data_at. rewrite Hu.
        change (Some d = Some (trigger (v_data v)).1). by rewrite Ht.
      * repeat case_decide; set_solver.
  - destruct (IH s Hwf Hnd) as (H1 & H2 & H3). split_and!; [done..|]. intros x. rewrite H3.
    destruct (decide (x = u)) as [->|Hne].
    + unfold data_at. rewrite Hu. by repeat case_decide.
    + repeat case_decide; set_solver.
Qed.

Lemma union_graph_run g gra sv :
  graph_wf g → graph_wf gra → gra ≠ ∅ →
  ∃ G balls, union_graph site_id ord g gra sv = Done (G, balls) ∧ graph_wf G ∧
    (∀ u w, out_e G u w = join_rel (out_e g u w) (out_e gra u w)) ∧
    (∀ u, data_at G u =
          if decide (u ∈ dom gra) then fst ∘ trigger <$> merge_data sv (data_at g u) (data_at gra u)
          else data_at g u).
Proof.
  intros Hg Hgra Hne. unfold union_graph. rewrite bool_decide_eq_true_2 by done. cbn [verify mbind result_bind].
  assert (H0 : union_inv g gra sv [] g).
  { split; [done|by intros x ?%not_elem_of_nil..|by left|].
    intros x y. by rewrite decide_False by apply not_elem_of_nil. }
  pose proof (union_loop g gra sv [] g (ord (dom gra)) Hgra) as HL.
  destruct HL as [Hwf Hd Hdone Htodo Hout]; [intros x; by rewrite ord_elem|apply ord_nodup|done|].
  cbn [app] in *. set (G := foldl _ g (ord (dom gra))) in *.
  destruct (trigger_loop (ord (dom gra)) (G, [])) as (Hwf' & Hout' & Hdata'); [done|apply ord_nodup|].
  exists (foldl trigger_vertex (G, []) (ord (dom gra))).1, (foldl trigger_vertex (G, []) (ord (dom gra))).2.
  split; [f_equal; apply surjective_pairing|]. split; [done|]. split.
  - intros u w. rewrite Hout', Hout. case_decide as Hin; [done|].
    assert (out_e gra u w = None) as ->; [|by destruct (out_e g u w)].
    rewrite ord_elem in Hin. apply eq_None_not_Some. by intros ?%out_e_dom.
  - intros u. rewrite Hdata'. cbn [fst]. destruct (decide (u ∈ dom gra)) as [Hu|Hu].
    + rewrite decide_True by (by apply ord_elem). rewrite Hdone by (by apply ord_elem). done.
    + rewrite decide_False by (by rewrite ord_elem).
      assert (Hn : data_at gra u = None).
      { apply eq_None_not_Some. intros Hs. by apply Hu, data_at_dom. }
      destruct (Htodo u) as [->|[Hgn ->]]; [by rewrite ord_elem|done|congruence].
Qed.
End union_spec.

(** ** Properties *)

(** C24: [union_graph] is a join.  For well-formed graphs it always returns a
    well-formed graph (ids match, both ends of every edge agree) whose edge relations are the
    bitwise or of the two graphs' relations, and whose transactions are the two
    graphs' transactions with servers and status merged; whatever the iteration
    order of the containers. *)
Theorem union_graph_join site_id ord g gra is_server :
  (∀ s, ord s ≡ₚ elements s) → graph_wf g → graph_wf gra → gra ≠ ∅ →
  ∃ G balls, union_graph site_id ord g gra is_server = Done (G, balls) ∧ graph_wf G ∧
    (∀ u w, out_e G u w = join_rel (out_e g u w) (out_e gra u w)) ∧
    (∀ u, data_at G u =
          if decide (u ∈ dom gra)
          then fst ∘ trigger <$> merge_data site_id is_server (data_at g u) (data_at gra u)
          else data_at g u).
Proof. intros Hord. by apply union_graph_run. Qed.

(** Transactions 1 -> 2 known here (a read-write edge), 2 -> 3 and 1 -> 2
    (write-write) known there. *)
Definition sample_g1 : Graph := or_edge 1 2 2 (find_or_insert (find_or_insert ∅ 1 10) 2 20).
Definition sample_g2 : Graph :=
  or_edge 2 3 1 (or_edge 1 2 1 (find_or_insert (find_or_insert (find_or_insert ∅ 1 10) 2 20) 3 30)).

Lemma find_or_insert_wf g id ts : graph_wf g → graph_wf (find_or_insert g id ts).
Proof. intros Hg. unfold find_or_insert. destruct (g !! id) eqn:Hi; [done|]. by apply graph_wf_new. Qed.

Lemma sample_g1_wf : graph_wf sample_g1.
Proof.
  apply or_edge_wf; [|by apply (bool_decide_unpack _); vm_compute..].
  repeat apply find_or_insert_wf. apply graph_wf_empty.
Qed.
Lemma sample_g2_wf : graph_wf sample_g2.
Proof.
  apply or_edge_wf; [apply or_edge_wf|..];
    [|by apply (bool_decide_unpack _); vm_compute..].
  repeat apply find_or_insert_wf. apply graph_wf_empty.
Qed.

Lemma union_graph_join_witness :
  ∃ G balls, union_graph 7 elements sample_g1 sample_g2 false = Done (G, balls) ∧ graph_wf G ∧
    (∀ u w, out_e G u w = join_rel (out_e sample_g1 u w) (out_e sample_g2 u w)) ∧
    (∀ u, data_at G u =
          if decide (u ∈ dom sample_g2)
          then fst ∘ trigger <$> merge_data 7 false (data_at sample_g1 u) (data_at sample_g2 u)
          else data_at sample_g1 u).
Proof.
  apply union_graph_join; [done | apply sample_g1_wf | apply sample_g2_wf | done].
Defined.
