(* ===== verification/GraphSearch.v ===== *)
(** * Searches on the dependency graph

    Models the search half of src/rococo-dst/deptran/graph.hpp ([find_ancestor],
    [strong_connect], [qsort_vv], [sort_vv], [sorted_scc], [find_scc], [find_scc_ancestor]) and
    src/rococo-dst/deptran/dep_graph.{hpp,cc}.  A [std::vector] used as a stack is a
    list whose head is the vector's back. *)

From S2P Require Import Prelude Graph.

Definition RR : Z := 0.
Definition WW : Z := 1.
Definition RW : Z := 2.
Definition WR : Z := 4.

Definition vertex (g : Graph) (v : Z) : result Vertex :=
  match g !! v with Some x => Done x | None => Crash invalid_access end.

Definition parents (g : Graph) (v : Z) : gset Z := from_option (λ x, dom (v_from x)) ∅ (g !! v).
Definition children (g : Graph) (v : Z) : gset Z := from_option (λ x, dom (v_to x)) ∅ (g !! v).

(** [push_back] of the elements of [l] that pass a test. *)
Definition push_all (P : Z → bool) (l stack : list Z) : list Z :=
  foldl (λ st p, if P p then p :: st else st) stack l.

Section search.
Context (ord : gset Z → list Z).

(** ** [Graph::find_ancestor] *)

Fixpoint ancestor_loop (fuel : nat) (g : Graph) (ret : gset Z) (togo : list Z) : result (gset Z) :=
  match fuel with
  | O => Spin
  | S fuel =>
      match togo with
      | [] => Done ret
      | v :: togo =>
          if decide (v ∈ ret) then ancestor_loop fuel g ret togo
          else
            x ← vertex g v;
            let ret := {[v]} ∪ ret in
            ancestor_loop fuel g ret
              (push_all (λ p, bool_decide (p ∉ ret)) (ord (dom (v_from x))) togo)
      end
  end.

Definition in_degree (g : Graph) (v : Z) : nat := size (parents g v).
Definition ancestor_fuel (g : Graph) : nat := S (S (sum_list_with (in_degree g) (elements (dom g)))).

Definition find_ancestor (g : Graph) (v : Z) : result (gset Z) :=
  ret ← ancestor_loop (ancestor_fuel g) g ∅ [v];
  Done (ret ∖ {[v]}).

(** ** [DepGraph::find_txn_anc_opt]: only through parents that are not decided *)

Definition undecided (g : Graph) (p : Z) : bool :=
  match g !! p with Some x => negb (is_commit (v_data x)) | None => false end.

Definition anc_opt_push (g : Graph) (s : gset Z * list Z) (p : Z) : gset Z * list Z :=
  if undecided g p && bool_decide (p ∉ s.1) then ({[p]} ∪ s.1, p :: s.2) else s.

Fixpoint anc_opt_loop (fuel : nat) (g : Graph) (ret_set : gset Z) (search_stack : list Z) : result (gset Z) :=
  match fuel with
  | O => Spin
  | S fuel =>
      match search_stack with
      | [] => Done ret_set
      | v :: search_stack =>
          x ← vertex g v;
          let '(ret_set, search_stack) :=
            foldl (anc_opt_push g) (ret_set, search_stack) (ord (dom (v_from x))) in
          anc_opt_loop fuel g ret_set search_stack
      end
  end.

Definition find_txn_anc_opt (g : Graph) (source : Z) (ret_set : gset Z) : result (gset Z) :=
  ret ← anc_opt_loop (S (S (size g))) g ret_set [source];
  Done (ret ∖ {[source]}).

(** [DepGraph::sub_txn_graph]: the vertices that go into the start reply. *)
Definition sub_txn_graph (g : Graph) (tid : Z) (ret_set : gset Z) : result (gset Z * Z) :=
  _ ← verify (bool_decide (is_Some (g !! tid)));
  ret ← find_txn_anc_opt g tid ret_set;
  let ret := {[tid]} ∪ ret in
  Done (ret, Z.of_nat (size ret)).

(** ** [DepGraph::foi_txn], [start_pie_txn], [start_pie], [union_txn_graph] *)

Definition foi_txn (g : Graph) (txn_id ts : Z) : Graph := find_or_insert g txn_id ts.

(** The site joins the servers of the transaction; [start_pie] does the same for
    [pi.txn_id_] and [pi.timestamp_]. *)
Definition start_pie_txn (site_id : Z) (g : Graph) (tid ts : Z) : Graph :=
  alter (λ v, set_data (set_servers ({[site_id]} ∪ servers_ (v_data v)) (v_data v)) v) tid (foi_txn g tid ts).

Definition union_txn_graph (site_id : Z) (g gra : Graph) : result (Graph * list Z) :=
  union_graph site_id ord g gra true.

(** ** [Graph::strong_connect] *)

Record tarjan := mkTarjan { indexes : gmap Z Z; lowlinks : gmap Z Z; t_index : Z; t_stack : list Z }.

Definition low (t : tarjan) (v : Z) : Z := default 0 (lowlinks t !! v).
Definition idx (t : tarjan) (v : Z) : Z := default 0 (indexes t !! v).
Definition set_low (t : tarjan) (v l : Z) : tarjan :=
  mkTarjan (indexes t) (<[v := l]> (lowlinks t)) (t_index t) (t_stack t).

(** [do { w = S.back(); S.pop_back(); ret.push_back(w); } while (w != v)] *)
Fixpoint pop_until (v : Z) (s : list Z) : result (list Z * list Z) :=
  match s with
  | [] => Crash invalid_access
  | w :: s =>
      if decide (w = v) then Done ([w], s)
      else '(ret, s) ← pop_until v s; Done (w :: ret, s)
  end.

Fixpoint strong_connect (fuel : nat) (g : Graph) (v : Z) (t : tarjan) : result (list Z * tarjan) :=
  match fuel with
  | O => Spin
  | S fuel =>
      x ← vertex g v;
      let t := mkTarjan (<[v := t_index t]> (indexes t)) (<[v := t_index t]> (lowlinks t))
                 (t_index t + 1) (v :: t_stack t) in
      t ← for_each (λ t w,
            match indexes t !! w with
            | None =>
                '(_, t) ← strong_connect fuel g w t;
                Done (set_low t v (if decide (low t v < low t w) then low t v else low t w))
            | Some _ =>
                if decide (w ∈ t_stack t)
                then Done (set_low t v (if decide (low t v < idx t w) then low t v else idx t w))
                else Done t
            end) (ord (dom (v_to x))) t;
      if decide (low t v = idx t v) then
        '(ret, s) ← pop_until v (t_stack t);
        Done (ret, mkTarjan (indexes t) (lowlinks t) (t_index t) s)
      else Done ([], t)
  end.

(** [Graph::find_scc] *)
Definition find_scc (g : Graph) (v : Z) : result (list Z) :=
  '(ret, _) ← strong_connect (S (size g)) g v (mkTarjan ∅ ∅ 0 []);
  Done ret.

Definition find_scc_id (g : Graph) (id : Z) : result (list Z) :=
  _ ← verify (bool_decide (is_Some (g !! id)));
  find_scc g id.

(** [Graph::find_scc_ancestor] *)
Definition find_scc_ancestor (g : Graph) (v : Z) : result (gset Z) :=
  ret ← find_ancestor g v;
  scc ← find_scc g v;
  Done (ret ∖ list_to_set scc).

(** [DepGraph::find_txn_scc_anc_opt], [find_txn_nearest_anc], [find_txn_scc_nearest_anc] *)
Definition find_txn_scc_anc_opt (g : Graph) (id : Z) (ret_set : gset Z) : result (gset Z) :=
  scc ← find_scc_id g id;
  match scc with
  | [] => Crash assert_failed
  | v :: _ =>
      ret ← find_txn_anc_opt g v ret_set;
      Done (ret ∖ list_to_set scc)
  end.

Definition find_txn_nearest_anc (g : Graph) (v : Z) (ret_set : gset Z) : gset Z := ret_set ∪ parents g v.

Definition find_txn_scc_nearest_anc (g : Graph) (v : Z) (ret_set : gset Z) : result (gset Z) :=
  scc ← find_scc g v;
  Done (foldl (λ s u, find_txn_nearest_anc g u s) ret_set scc ∖ list_to_set scc).
End search.

(** ** [Graph::qsort_vv], [Graph::sort_vv] *)

(** [vv[k]] *)
Definition at_ (l : list Z) (k : Z) : option Z := if decide (0 ≤ k) then l !! Z.to_nat k else None.

Definition swap (l : list Z) (j i : Z) : result (list Z) :=
  match at_ l j, at_ l i with
  | Some a, Some b => Done (<[Z.to_nat i := a]> (<[Z.to_nat j := b]> l))
  | _, _ => Crash invalid_access
  end.

(** The partition loop from [j] to [r - 1]; returns the vector and [i]. *)
Fixpoint partition_loop (n : nat) (l : list Z) (x j i : Z) : result (list Z * Z) :=
  match n with
  | O => Done (l, i)
  | S n =>
      match at_ l j with
      | None => Crash invalid_access
      | Some y =>
          if decide (y < x) then
            l ← swap l j (i + 1);
            partition_loop n l x (j + 1) (i + 1)
          else partition_loop n l x (j + 1) i
      end
  end.

Fixpoint qsort_vv (fuel : nat) (l : list Z) (p r : Z) : result (list Z) :=
  match fuel with
  | O => Spin
  | S fuel =>
      if decide (r ≤ p) then Done l
      else
        match at_ l r with
        | None => Crash invalid_access
        | Some x =>
            '(l, i) ← partition_loop (Z.to_nat (r - p)) l x p (p - 1);
            let q := i + 1 in
            l ← swap l r q;
            l ← qsort_vv fuel l p (q - 1);
            qsort_vv fuel l (q + 1) r
        end
  end.

Definition sort_vv (l : list Z) (flag : bool) : result (list Z) :=
  l ← qsort_vv (S (length l)) l 0 (Z.of_nat (length l) - 1);
  Done (if flag then reverse l else l).

(** ** [Graph::sorted_scc] *)

Section sorted.
Context (ord : gset Z → list Z).

(** A vertex of the component with an incoming edge above [WW] from the component. *)
Definition has_type2 (g : Graph) (scc : gset Z) (v : Z) : bool :=
  match g !! v with
  | None => false
  | Some x => bool_decide (Exists (λ u, WW < default 0 (v_from x !! u) ∧ u ∈ scc) (elements (dom (v_from x))))
  end.

(** All parents over read-write and write-read edges have been visited. *)
Definition parents_visited (g : Graph) (visited : gset Z) (v : Z) : bool :=
  match g !! v with
  | None => true
  | Some x => bool_decide (Forall (λ u, default 0 (v_from x !! u) < 2 ∨ u ∈ visited) (elements (dom (v_from x))))
  end.

(** The traversal from the start vertices; [visited] is [dfs_status] = 1. *)
Fixpoint sorted_loop (fuel : nat) (g : Graph) (scc visited : gset Z) (start_vv ret2 : list Z) : result (list Z) :=
  match fuel with
  | O => Spin
  | S fuel =>
      match start_vv with
      | [] => Done ret2
      | v :: start_vv =>
          x ← vertex g v;
          let visited := {[v]} ∪ visited in
          let ret2 := ret2 ++ [v] in
          let ch := filter (λ w, 2 ≤ default 0 (v_to x !! w) ∧ w ∈ scc) (ord (dom (v_to x))) in
          ch ← (if decide (ch = []) then Done ch else sort_vv ch false);
          sorted_loop fuel g scc visited (push_all (parents_visited g visited) ch start_vv) ret2
      end
  end.

(** [ret_sorted_scc] starts as [ret2]; the callers pass an empty vector.  Every
    vertex of the component is pushed at most once, which bounds the loop. *)
Definition sorted_scc (g : Graph) (v : Z) (ret2 : list Z) : result (list Z) :=
  ret ← find_scc ord g v;
  _ ← verify (bool_decide (ret ≠ []));
  let scc : gset Z := list_to_set ret in
  _ ← verify (bool_decide (size scc = length ret));
  let start := filter (λ u, has_type2 g scc u = false) (ord scc) in
  _ ← verify (bool_decide (start ≠ []));
  start ← sort_vv start true;
  ret2 ← sorted_loop (S (length ret)) g scc ∅ (reverse start) ret2;
  _ ← verify (bool_decide (length ret2 = length ret));
  Done ret2.
End sorted.

(** ** Sets and reachability *)

Lemma size_difference_step (D ret : gset Z) p :
  p ∉ ret → p ∈ D → size (D ∖ ret) = S (size (D ∖ ({[p]} ∪ ret))).
Proof.
  intros Hin HD. assert (D ∖ ret = {[p]} ∪ D ∖ ({[p]} ∪ ret)) as ->.
  { apply set_eq. intros x. destruct (decide (x = p)); set_solver. }
  rewrite size_union by set_solver. rewrite size_singleton. lia.
Qed.

(** A set closed under a relation holds everything reachable from its elements. *)
Lemma rtc_closed (R : Z → Z → Prop) (X : gset Z) a b :
  rtc R a b → (∀ x p, x ∈ X → R x p → p ∈ X) → a ∈ X → b ∈ X.
Proof. intros Hr Hc. induction Hr; eauto. Qed.

Lemma tc_closed (R : Z → Z → Prop) (X : gset Z) s a b :
  tc R a b → (∀ x p, x = s ∨ x ∈ X → R x p → p ∈ X) → a = s ∨ a ∈ X → b ∈ X.
Proof. intros Hr Hc. induction Hr; eauto. Qed.

(** ** Ancestors *)

Section ancestors.
Context (ord : gset Z → list Z) (Hord : ∀ s, ord s ≡ₚ elements s).

Lemma ord_in s x : x ∈ ord s ↔ x ∈ s.
Proof. by rewrite Hord, elem_of_elements. Qed.
Lemma ord_length s : length (ord s) = size s.
Proof. by rewrite Hord. Qed.

(** [parent g v u]: there is an edge from [u] to [v]. *)
Definition parent (g : Graph) (v u : Z) : Prop := u ∈ parents g v.

Lemma parents_lookup g v x : g !! v = Some x → parents g v = dom (v_from x).
Proof. intros Hv. unfold parents. by rewrite Hv. Qed.

Lemma parent_dom g v u : graph_wf g → parent g v u → u ∈ dom g.
Proof.
  intros Hg. unfold parent, parents. destruct (g !! v) as [x|] eqn:Hv; cbn; [|set_solver].
  intros [r Hr]%elem_of_dom. apply (out_e_dom g u v). rewrite (gw_edge _ Hg). unfold in_e.
  rewrite Hv. cbn. eauto.
Qed.

Lemma elem_of_push_all P l stack x : x ∈ push_all P l stack ↔ (x ∈ l ∧ P x = true) ∨ x ∈ stack.
Proof.
  unfold push_all. revert stack. induction l as [|y l IH]; intros stack; cbn; [set_solver|].
  rewrite IH, elem_of_cons. clear IH. destruct (P y) eqn:HP; rewrite ?elem_of_cons.
  - split; [intros [[??]|[->|?]]; auto|intros [[[->|?] ?]|?]; auto].
  - split; [intros [[??]|?]; auto|intros [[[->|?] ?]|?]; [congruence|auto..]].
Qed.

Lemma length_push_all P l stack : (length (push_all P l stack) ≤ length l + length stack)%nat.
Proof.
  unfold push_all. revert stack. induction l as [|y l IH]; intros stack; cbn; [lia|].
  specialize (IH (if P y then y :: stack else stack)). destruct (P y); cbn in *; lia.
Qed.

(** Work left: the stack and the edges into vertices not expanded yet. *)
Definition work (g : Graph) (ret : gset Z) (togo : list Z) : nat :=
  (length togo + sum_list_with (in_degree g) (elements (dom g ∖ ret)))%nat.

Lemma work_expand g ret v togo :
  v ∈ dom g → v ∉ ret → work g ret togo = (work g ({[v]} ∪ ret) togo + in_degree g v)%nat.
Proof.
  intros Hv Hn. unfold work.
  assert (dom g ∖ ret = {[v]} ∪ dom g ∖ ({[v]} ∪ ret)) as ->.
  { apply set_eq. intros x. destruct (decide (x = v)); set_solver. }
  rewrite elements_union_singleton by set_solver.
  cbn. lia.
Qed.

Record ancestor_inv (g : Graph) (s : Z) (ret : gset Z) (togo : list Z) : Prop := {
  ai_source : s ∈ ret ∨ s ∈ togo;
  ai_closed x p : x ∈ ret → parent g x p → p ∈ ret ∨ p ∈ togo;
  ai_reach x : x ∈ ret ∨ x ∈ togo → rtc (parent g) s x;
}.

Lemma ancestor_loop_correct fuel g s ret togo :
  graph_wf g → s ∈ dom g → ancestor_inv g s ret togo → (work g ret togo < fuel)%nat →
  ∃ ret', ancestor_loop ord fuel g ret togo = Done ret' ∧ ∀ x, x ∈ ret' ↔ rtc (parent g) s x.
Proof.
  intros Hg Hs. revert ret togo. induction fuel as [|fuel IH]; intros ret togo HI Hf; [lia|].
  cbn [ancestor_loop]. destruct HI as [Hsrc Hcl Hre]. destruct togo as [|v togo].
  - exists ret. split; [done|]. intros x. split; [intros Hx; apply Hre; by left|].
    assert (s ∈ ret) as Hsr by (destruct Hsrc as [|?%not_elem_of_nil]; done).
    intros Hr. eapply rtc_closed; [done| |done]. intros y p Hy Hp.
    destruct (Hcl y p Hy Hp) as [|?%not_elem_of_nil]; done.
  - case_decide as Hv.
    + apply IH; [|unfold work in *; cbn in Hf; lia]. constructor.
      * destruct Hsrc as [?|[->|?]%elem_of_cons]; [by left|by left|by right].
      * intros x p Hx Hp. destruct (Hcl x p Hx Hp) as [|[->|]%elem_of_cons]; [by left|by left|by right].
      * intros x [?|?]; apply Hre; [by left|right; by right].
    + assert (Hvd : v ∈ dom g).
      { assert (Hrv : rtc (parent g) s v) by (apply Hre; right; by left).
        apply rtc_inv_r in Hrv as [->|(y & _ & Hp)]; [done|]. by eapply parent_dom. }
      apply elem_of_dom in Hvd as Hvx. destruct Hvx as [x Hx]. unfold vertex. rewrite Hx. cbn [mbind result_bind].
      pose proof (parents_lookup _ _ _ Hx) as Hpx.
      apply IH.
      * constructor.
        -- rewrite elem_of_push_all. destruct Hsrc as [?|[->|?]%elem_of_cons]; set_solver.
        -- intros y p Hy Hp. rewrite elem_of_push_all, ord_in. rewrite bool_decide_eq_true.
           apply elem_of_union in Hy as [->%elem_of_singleton|Hy].
           ++ unfold parent in Hp. rewrite Hpx in Hp.
              destruct (decide (p ∈ {[v]} ∪ ret)); [by left|right; left; done].
           ++ destruct (Hcl y p Hy Hp) as [|[->|]%elem_of_cons]; set_solver.
        -- intros y. rewrite elem_of_push_all, ord_in.
           intros [[->%elem_of_singleton|?]%elem_of_union|[[Hy _]|Hy]].
           ++ apply Hre. right. by left.
           ++ apply Hre. by left.
           ++ eapply rtc_r; [apply Hre; right; by left|]. unfold parent. by rewrite Hpx.
           ++ apply Hre. right. by right.
      * rewrite (work_expand g ret v) in Hf by done.
        pose proof (length_push_all (λ p, bool_decide (p ∉ {[v]} ∪ ret)) (ord (dom (v_from x))) togo) as Hl.
        rewrite ord_length in Hl. unfold in_degree in Hf. rewrite Hpx in Hf.
        unfold work in *. cbn [length] in Hf. lia.
Qed.

Lemma find_ancestor_correct g v :
  graph_wf g → v ∈ dom g →
  ∃ s, find_ancestor ord g v = Done s ∧ ∀ x, x ∈ s ↔ rtc (parent g) v x ∧ x ≠ v.
Proof.
  intros Hg Hv. unfold find_ancestor.
  destruct (ancestor_loop_correct (ancestor_fuel g) g v ∅ [v]) as (ret & Hrun & Hret); [done..| | |].
  - constructor; [right; by left|set_solver|]. intros x [Hx|Hx%list_elem_of_singleton]; [set_solver|by subst].
  - unfold work, ancestor_fuel. rewrite difference_empty_L. cbn. lia.
  - rewrite Hrun. cbn. eexists. split; [done|]. intros x. rewrite elem_of_difference, Hret. set_solver.
Qed.

(** ** Undecided ancestors *)

(** A step back to a parent that is not decided. *)
Definition open_parent (g : Graph) (v u : Z) : Prop := parent g v u ∧ undecided g u = true.

Lemma anc_opt_fold g ps s0 :
  let s := foldl (anc_opt_push g) s0 ps in
  (∀ x, x ∈ s.1 ↔ x ∈ s0.1 ∨ (x ∈ ps ∧ undecided g x = true)) ∧
  (∀ x, x ∈ s.2 ↔ x ∈ s0.2 ∨ (x ∈ ps ∧ undecided g x = true ∧ x ∉ s0.1)) ∧
  (∀ D : gset Z, s0.1 ⊆ D → (∀ x, x ∈ ps → x ∈ D) →
     length s.2 + size (D ∖ s.1) = length s0.2 + size (D ∖ s0.1))%nat.
Proof.
  revert s0. induction ps as [|p ps IH]; intros [ret st]; cbn [foldl fst snd]; [cbn; set_solver|].
  specialize (IH (anc_opt_push g (ret, st) p)) as (H1 & H2 & H3).
  unfold anc_opt_push in *. cbn [fst snd] in *. destruct (undecided g p) eqn:Hp; cbn [andb] in *.
  - case_bool_decide as Hin; cbn [fst snd] in *.
    + split_and!.
      * intros x. rewrite H1. set_solver.
      * intros x. rewrite H2. destruct (decide (x = p)); set_solver.
      * intros D HD Hps. rewrite H3 by set_solver. cbn [length].
        rewrite (size_difference_step D ret p) by set_solver. lia.
    + split_and!.
      * intros x. rewrite H1. set_solver.
      * intros x. rewrite H2. set_solver.
      * intros D HD Hps. apply H3; set_solver.
  - split_and!.
    * intros x. rewrite H1, elem_of_cons. clear -Hp.
      split; [intros [?|[??]]; auto|intros [?|[[->|?] ?]]; [auto|congruence|auto]].
    * intros x. rewrite H2, elem_of_cons. clear -Hp.
      split; [intros [?|[??]]; auto|intros [?|[[->|?] [??]]]; [auto|congruence|auto]].
    * intros D HD Hps. apply H3; set_solver.
Qed.

Lemma undecided_dom g x : undecided g x = true → x ∈ dom g.
Proof. unfold undecided. destruct (g !! x) eqn:Hx; [|done]. intros _. by eapply elem_of_dom_2. Qed.

Record anc_opt_inv (g : Graph) (s : Z) (ret : gset Z) (stack : list Z) : Prop := {
  ao_closed x p : x = s ∨ x ∈ ret → x ∉ stack → open_parent g x p → p ∈ ret;
  ao_stack x : x ∈ stack → x = s ∨ x ∈ ret;
  ao_reach x : x ∈ ret → tc (open_parent g) s x;
}.

Lemma anc_opt_step g s ret v stack ps ret' stack' :
  anc_opt_inv g s ret (v :: stack) → (∀ x, x ∈ ps ↔ parent g v x) →
  foldl (anc_opt_push g) (ret, stack) ps = (ret', stack') → anc_opt_inv g s ret' stack'.
Proof.
  intros [Hcl Hst Hre] Hps Hf. destruct (anc_opt_fold g ps (ret, stack)) as (H1 & H2 & _).
  rewrite Hf in H1, H2. cbn [fst snd] in H1, H2. clear Hf.
  assert (Hin : ∀ x, x ∈ ret' → x ∈ ret ∨ open_parent g v x).
  { intros x [?|[Hx Hu]]%H1; [by left|right]. split; [by apply Hps|done]. }
  constructor.
  - intros x p Hx Hn Hp. destruct (decide (x = v)) as [->|Hxv].
    + apply H1. right. split; [apply Hps, Hp|apply Hp].
    + assert (Hx' : x = s ∨ x ∈ ret).
      { destruct Hx as [?|Hx]; [by left|]. apply H1 in Hx as [?|[Hx Hu]]; [by right|].
        destruct (decide (x ∈ ret)); [by right|]. destruct Hn. apply H2. by right. }
      apply H1. left. apply (Hcl x p Hx'); [|done]. intros [?|Hs]%elem_of_cons; [done|].
      apply Hn, H2. by left.
  - intros x Hx. apply H2 in Hx as [Hx|(Hx & Hu & _)].
    + destruct (Hst x) as [?|Hr]; [by right|by left|]. right. apply H1. by left.
    + right. apply H1. by right.
  - intros x [?|Ho]%Hin; [by apply Hre|].
    destruct (Hst v) as [->|Hv]; [by left|by apply tc_once|]. eapply tc_r; [by apply Hre|done].
Qed.

Lemma anc_opt_loop_correct fuel g s ret stack :
  graph_wf g → s ∈ dom g → ret ⊆ dom g → anc_opt_inv g s ret stack →
  (length stack + size (dom g ∖ ret) < fuel)%nat →
  ∃ ret', anc_opt_loop ord fuel g ret stack = Done ret' ∧ ∀ x, x ∈ ret' ↔ tc (open_parent g) s x.
Proof.
  intros Hg Hs. revert ret stack. induction fuel as [|fuel IH]; intros ret stack Hd HI Hf; [lia|].
  cbn [anc_opt_loop]. destruct stack as [|v stack].
  - exists ret. split; [done|]. destruct HI as [Hcl _ Hre]. intros x. split; [apply Hre|].
    intros Hx. eapply (tc_closed _ _ s); [done| |by left]. intros y p Hy. apply Hcl; [done|apply not_elem_of_nil].
  - assert (Hvd : v ∈ dom g).
    { destruct (ao_stack _ _ _ _ HI v) as [->|Hv]; [by left|done|by apply Hd]. }
    apply elem_of_dom in Hvd as [x Hx]. unfold vertex. rewrite Hx. cbn [mbind result_bind].
    pose proof (parents_lookup _ _ _ Hx) as Hpx.
    destruct (foldl (anc_opt_push g) (ret, stack) (ord (dom (v_from x)))) as [ret' stack'] eqn:Hfold.
    assert (Hps : ∀ y, y ∈ ord (dom (v_from x)) ↔ parent g v y).
    { intros y. unfold parent. by rewrite ord_in, Hpx. }
    destruct (anc_opt_fold g (ord (dom (v_from x))) (ret, stack)) as (H1 & _ & H3).
    rewrite Hfold in H1, H3. cbn [fst snd] in H1, H3. apply IH.
    + intros y [?|[_ Hu]]%H1; [by apply Hd|by apply undecided_dom].
    + by eapply anc_opt_step.
    + specialize (H3 (dom g) Hd). cbn [length] in Hf. rewrite H3; [lia|].
      intros y Hy%Hps. by eapply parent_dom.
Qed.

Lemma find_txn_anc_opt_correct g v :
  graph_wf g → v ∈ dom g →
  ∃ s, find_txn_anc_opt ord g v ∅ = Done s ∧ ∀ x, x ∈ s ↔ tc (open_parent g) v x ∧ x ≠ v.
Proof.
  intros Hg Hv. unfold find_txn_anc_opt.
  destruct (anc_opt_loop_correct (S (S (size g))) g v ∅ [v]) as (ret & Hrun & Hret); [done..|set_solver| | |].
  - constructor; [|intros x Hx%list_elem_of_singleton; by left|set_solver].
    intros x p [->|?] Hn; [|set_solver]. destruct Hn. by left.
  - rewrite difference_empty_L. rewrite size_dom. cbn. lia.
  - rewrite Hrun. cbn. eexists. split; [done|]. intros x. rewrite elem_of_difference, Hret. set_solver.
Qed.
End ancestors.

(** ** Sorting by transaction id *)

Lemma at_app (l1 l2 : list Z) x k : k = Z.of_nat (length l1) → at_ (l1 ++ x :: l2) k = Some x.
Proof.
  intros ->. unfold at_. rewrite decide_True by lia. rewrite Nat2Z.id.
  by apply list_lookup_middle.
Qed.

Lemma swap_self l1 x l2 k : k = Z.of_nat (length l1) → swap (l1 ++ x :: l2) k k = Done (l1 ++ x :: l2).
Proof.
  intros Hk. unfold swap. rewrite at_app by done. subst k. rewrite Nat2Z.id.
  rewrite list_insert_insert_eq. f_equal. apply list_insert_id. by apply list_lookup_middle.
Qed.

Lemma swap_apart l1 a l2 b l3 i j :
  i = Z.of_nat (length l1) → j = Z.of_nat (length (l1 ++ a :: l2)) →
  swap (l1 ++ a :: l2 ++ b :: l3) j i = Done (l1 ++ b :: l2 ++ a :: l3).
Proof.
  intros Hi Hj. unfold swap. rewrite (at_app l1 (l2 ++ b :: l3) a i) by done.
  replace (l1 ++ a :: l2 ++ b :: l3) with ((l1 ++ a :: l2) ++ b :: l3) by by rewrite <-app_assoc.
  rewrite (at_app (l1 ++ a :: l2) l3 b j) by done. subst i j. rewrite !Nat2Z.id. f_equal.
  assert (∀ y, <[length (l1 ++ a :: l2) := y]> ((l1 ++ a :: l2) ++ b :: l3) = (l1 ++ a :: l2) ++ y :: l3) as ->
    by (intros y; by rewrite insert_app_r_alt, Nat.sub_diag by lia).
  rewrite <-app_assoc. cbn. by rewrite insert_app_r_alt, Nat.sub_diag by lia.
Qed.

Lemma partition_loop_spec todo : ∀ pre small big post x,
  Forall (λ y, y < x) small → Forall (λ y, x ≤ y) big →
  ∃ small' big',
    partition_loop (length todo) (pre ++ small ++ big ++ todo ++ post) x
      (Z.of_nat (length pre + length small + length big)) (Z.of_nat (length pre + length small) - 1)
    = Done (pre ++ small' ++ big' ++ post, Z.of_nat (length pre + length small') - 1) ∧
    small' ++ big' ≡ₚ small ++ big ++ todo ∧ Forall (λ y, y < x) small' ∧ Forall (λ y, x ≤ y) big'.
Proof.
  induction todo as [|y todo IH]; intros pre small big post x Hs Hb; cbn [length partition_loop].
  { exists small, big. by rewrite app_nil_r. }
  assert (Hl : pre ++ small ++ big ++ (y :: todo) ++ post = (pre ++ small ++ big) ++ y :: todo ++ post)
    by by rewrite <-!app_assoc.
  rewrite Hl. rewrite at_app by (rewrite !length_app; lia). case_decide as Hy.
  - (* y joins the small part *)
    assert (Hsw : ∃ big', big' ≡ₚ big ∧
      swap ((pre ++ small ++ big) ++ y :: todo ++ post) (Z.of_nat (length pre + length small + length big))
        (Z.of_nat (length pre + length small) - 1 + 1)
      = Done (pre ++ (small ++ [y]) ++ big' ++ todo ++ post)).
    { destruct big as [|b big].
      - exists []. split; [done|]. cbn [length]. rewrite Nat.add_0_r, Z.sub_add, app_nil_r.
        rewrite swap_self by (rewrite length_app; lia). by rewrite <-!app_assoc.
      - exists (big ++ [b]). split; [by rewrite Permutation_app_comm|].
        rewrite <-!app_assoc. cbn [app]. rewrite (app_assoc pre small).
        rewrite swap_apart by (rewrite !length_app; cbn [length]; lia).
        by rewrite <-!app_assoc. }
    destruct Hsw as (big' & Hp & ->). cbn [mbind result_bind].
    destruct (IH pre (small ++ [y]) big' post x) as (s' & b' & Hrun & Hperm & Hs' & Hb').
    + apply Forall_app. auto.
    + by rewrite Hp.
    + exists s', b'. split; [|split; [|done]].
      * rewrite <-Hrun. rewrite length_app, (Permutation_length Hp). cbn [length]. f_equal; lia.
      * rewrite Hperm, Hp. solve_Permutation.
  - (* y joins the big part *)
    destruct (IH pre small (big ++ [y]) post x) as (s' & b' & Hrun & Hperm & Hs' & Hb'); [done| |].
    + apply Forall_app. split; [done|]. constructor; [lia|done].
    + exists s', b'. split; [|split; [|done]].
      * rewrite <-Hrun. rewrite length_app, <-!app_assoc. cbn [length app]. f_equal; lia.
      * rewrite Hperm. solve_Permutation.
Qed.

Lemma StronglySorted_pivot x small big :
  StronglySorted Z.le small → StronglySorted Z.le big →
  Forall (λ y, y < x) small → Forall (λ y, x ≤ y) big → StronglySorted Z.le (small ++ x :: big).
Proof.
  intros Hs Hb Hsx Hxb. induction Hs as [|y small Hs IH Hy]; cbn.
  - by constructor.
  - apply Forall_cons in Hsx as [Hyx Hsx]. constructor; [auto|]. apply Forall_app. split; [done|].
    constructor; [lia|]. eapply Forall_impl; [exact Hxb|]. cbn. lia.
Qed.

Lemma qsort_vv_spec fuel : ∀ pre seg post,
  (length seg < fuel)%nat →
  ∃ seg', qsort_vv fuel (pre ++ seg ++ post) (Z.of_nat (length pre)) (Z.of_nat (length pre + length seg) - 1)
            = Done (pre ++ seg' ++ post) ∧ seg' ≡ₚ seg ∧ StronglySorted Z.le seg'.
Proof.
  induction fuel as [|fuel IH]; intros pre seg post Hf; [lia|]. cbn [qsort_vv]. case_decide as Hle.
  { exists seg. split; [done|]. split; [done|]. destruct seg as [|a [|b seg]]; [constructor|by repeat constructor|].
    cbn in Hle. lia. }
  destruct seg as [|x seg _] using rev_ind; [cbn in Hle; lia|].
  rewrite length_app in *. cbn [length] in *.
  assert (Hl : pre ++ (seg ++ [x]) ++ post = (pre ++ seg) ++ x :: post) by by rewrite <-!app_assoc.
  rewrite Hl. rewrite at_app by (rewrite length_app; lia).
  destruct (partition_loop_spec seg pre [] [] (x :: post) x) as (small & big & Hrun & Hperm & Hs & Hb); [constructor..|].
  cbn [length app] in Hrun, Hperm. rewrite !Nat.add_0_r in Hrun.
  replace (Z.to_nat (Z.of_nat (length pre + (length seg + 1)) - 1 - Z.of_nat (length pre))) with (length seg) by lia.
  rewrite <-app_assoc. rewrite Hrun. cbn [mbind result_bind].
  assert (Hlen : (length small + length big = length seg)%nat) by (rewrite <-length_app; by apply Permutation_length).
  assert (Hsw : ∃ big', big' ≡ₚ big ∧
    swap (pre ++ small ++ big ++ x :: post) (Z.of_nat (length pre + (length seg + 1)) - 1)
      (Z.of_nat (length pre + length small) - 1 + 1) = Done (pre ++ small ++ x :: big' ++ post)).
  { destruct big as [|b big].
    - exists []. split; [done|]. cbn [length app] in *. rewrite app_assoc.
      replace (Z.of_nat (length pre + length small) - 1 + 1)
        with (Z.of_nat (length pre + (length seg + 1)) - 1) by lia.
      rewrite swap_self by (rewrite length_app; lia). by rewrite <-app_assoc.
    - exists (big ++ [b]). split; [by rewrite Permutation_app_comm|]. cbn [length] in Hlen.
      rewrite (app_assoc pre small). cbn [app].
      rewrite swap_apart by (rewrite !length_app; cbn [length]; lia).
      by rewrite <-!app_assoc. }
  destruct Hsw as (big' & Hp & ->). cbn [mbind result_bind].
  destruct (IH pre small (x :: big' ++ post)) as (small' & Hrs & Hps & Hss); [lia|].
  replace (Z.of_nat (length pre + length small) - 1 + 1 - 1) with (Z.of_nat (length pre + length small) - 1) by lia.
  rewrite Hrs. cbn [mbind result_bind].
  destruct (IH (pre ++ small' ++ [x]) big' post) as (big'' & Hrb & Hpb & Hsb); [rewrite (Permutation_length Hp); lia|].
  exists (small' ++ x :: big''). split_and!.
  - assert (Hq : ∀ z, (pre ++ small' ++ [x]) ++ z = pre ++ small' ++ x :: z) by (intros z; by rewrite <-!app_assoc).
    rewrite !Hq in Hrb. rewrite <-app_assoc. cbn [app]. rewrite <-Hrb. rewrite !length_app. cbn [length].
    rewrite (Permutation_length Hps), (Permutation_length Hp). f_equal; lia.
  - rewrite Hps, Hpb, Hp. rewrite <-Hperm. solve_Permutation.
  - apply StronglySorted_pivot; [done..|by rewrite Hps|by rewrite Hpb, Hp].
Qed.

Lemma StronglySorted_reverse (R : Z → Z → Prop) l :
  StronglySorted R l → StronglySorted (flip R) (reverse l).
Proof.
  assert (Hsnoc : ∀ l x, StronglySorted (flip R) l → Forall (λ y, flip R y x) l → StronglySorted (flip R) (l ++ [x])).
  { induction 1 as [|y k Hk IH Hy]; intros Hx; cbn; [by repeat constructor|].
    apply Forall_cons in Hx as [Hyx Hx]. constructor; [auto|]. apply Forall_app. auto. }
  induction 1 as [|x l Hl IH Hx]; [constructor|]. rewrite reverse_cons. apply Hsnoc; [done|].
  by rewrite Forall_reverse.
Qed.

Lemma sort_vv_spec l flag :
  ∃ l', sort_vv l flag = Done l' ∧ l' ≡ₚ l ∧ StronglySorted (if flag then flip Z.le else Z.le) l'.
Proof.
  unfold sort_vv. destruct (qsort_vv_spec (S (length l)) [] l []) as (l' & Hrun & Hp & Hs); [lia|].
  rewrite !app_nil_r in Hrun. cbn [app length Nat.add] in Hrun. change (Z.of_nat 0) with 0 in Hrun.
  rewrite Hrun. cbn [mbind result_bind]. eexists. split; [done|]. destruct flag.
  - split; [by rewrite reverse_Permutation|by apply StronglySorted_reverse].
  - done.
Qed.

(** Starting a piece keeps the graph well formed and records the site. *)
Lemma start_pie_txn_wf site_id g tid ts :
  graph_wf g →
  let g' := start_pie_txn site_id g tid ts in
  graph_wf g' ∧ (∃ d, data_at g' tid = Some d ∧ is_involved site_id d = true) ∧ (∀ u w, out_e g' u w = out_e g u w).
Proof.
  intros Hg. cbn zeta. unfold start_pie_txn, foi_txn. set (g1 := find_or_insert g tid ts).
  pose proof (find_or_insert_wf g tid ts Hg) as Hg1. fold g1 in Hg1.
  assert (Hv : ∃ v, g1 !! tid = Some v).
  { unfold g1, find_or_insert. destruct (g !! tid) eqn:Ht; [by rewrite Ht; eauto|]. rewrite lookup_insert_eq. eauto. }
  assert (Ho : ∀ u w, out_e g1 u w = out_e g u w).
  { intros u w. unfold g1, find_or_insert. destruct (g !! tid) eqn:Ht; [done|]. by apply out_e_new. }
  destruct Hv as [v Hv].
  assert (Hal : ∀ f, alter f tid g1 = <[tid := f v]> g1).
  { intros f. apply map_eq. intros j. destruct (decide (tid = j)) as [<-|].
    - by rewrite lookup_alter_eq, lookup_insert_eq, Hv.
    - by rewrite lookup_alter_ne, lookup_insert_ne. }
  rewrite Hal. split; [|split].
  - apply graph_wf_set_data; [done..|]. cbn. apply (gw_id _ Hg1). unfold data_at. by rewrite Hv.
  - exists (set_servers ({[site_id]} ∪ servers_ (v_data v)) (v_data v)). unfold data_at. rewrite lookup_insert_eq. split; [done|].
    apply bool_decide_eq_true. cbn. set_solver.
  - intros u w. by rewrite out_e_set_data, Ho.
Qed.

(** ** Properties *)

(** [Graph::find_ancestor] terminates on a well-formed graph and returns the
    vertices from which there is a path to the given one, without itself, whatever
    order the parents are walked in. *)
Theorem find_ancestor_ancestors (ord : gset Z → list Z) g v :
  (∀ s, ord s ≡ₚ elements s) → graph_wf g → v ∈ dom g →
  ∃ s, find_ancestor ord g v = Done s ∧ ∀ u, u ∈ s ↔ rtc (parent g) v u ∧ u ≠ v.
Proof. intros Hord Hg Hv. by apply find_ancestor_correct. Qed.

(** C37: [DepGraph::sub_txn_graph] terminates and selects for the reply the
    transaction itself and every transaction from which it can be reached over
    parents that have not reached commit, together with their number. *)
Theorem sub_txn_graph_reply (ord : gset Z → list Z) g tid :
  (∀ s, ord s ≡ₚ elements s) → graph_wf g → tid ∈ dom g →
  ∃ s, sub_txn_graph ord g tid ∅ = Done (s, Z.of_nat (size s)) ∧ ∀ u, u ∈ s ↔ rtc (open_parent g) tid u.
Proof.
  intros Hord Hg Ht. unfold sub_txn_graph. apply elem_of_dom in Ht as Hs.
  rewrite bool_decide_eq_true_2 by done. cbn [verify mbind result_bind].
  destruct (find_txn_anc_opt_correct ord Hord g tid Hg Ht) as (s & -> & Hret). cbn [mbind result_bind].
  eexists. split; [done|]. intros u. rewrite elem_of_union, elem_of_singleton, Hret, rtc_tc.
  destruct (decide (u = tid)); naive_solver.
Qed.

(** [Graph::sort_vv] terminates without an access outside the vector and
    leaves a permutation of it, in ascending order of the transaction ids, or in
    descending order when the flag is set. *)
Theorem sort_vv_sorts l flag :
  ∃ l', sort_vv l flag = Done l' ∧ l' ≡ₚ l ∧ StronglySorted (if flag then flip Z.le else Z.le) l'.
Proof. apply sort_vv_spec. Qed.

Lemma find_ancestor_ancestors_witness :
  find_ancestor elements sample_g2 3 = Done {[1; 2]} ∧
  ∃ s, find_ancestor elements sample_g2 3 = Done s ∧ ∀ u, u ∈ s ↔ rtc (parent sample_g2) 3 u ∧ u ≠ 3.
Proof.
  split; [vm_compute; reflexivity|].
  apply (find_ancestor_ancestors elements); [done|apply sample_g2_wf|by apply (bool_decide_unpack _); vm_compute].
Defined.

Lemma sub_txn_graph_reply_witness :
  sub_txn_graph elements sample_g2 3 ∅ = Done ({[1; 2; 3]}, 3) ∧
  ∃ s, sub_txn_graph elements sample_g2 3 ∅ = Done (s, Z.of_nat (size s)) ∧
    ∀ u, u ∈ s ↔ rtc (open_parent sample_g2) 3 u.
Proof.
  split; [vm_compute; reflexivity|].
  apply (sub_txn_graph_reply elements); [done|apply sample_g2_wf|by apply (bool_decide_unpack _); vm_compute].
Defined.
