(* ===== verification/Tarjan.v ===== *)
(** * Strongly connected components

    Correctness of [Graph::strong_connect] (src/rococo-dst/deptran/graph.hpp), the
    recursive component search of Tarjan, and of the operations built on it:
    [find_scc], [find_scc_ancestor], [find_txn_scc_anc_opt], [find_txn_scc_nearest_anc].
    The proof follows the colours of the vertices: white (no index), grey (on the
    call stack), black on the stack, and done. *)

From S2P Require Import Prelude Graph GraphSearch.

Section tarjan.
Context (ord : gset Z → list Z) (Hord : ∀ s, ord s ≡ₚ elements s) (g : Graph) (Hg : graph_wf g).

(** [edge u w]: [w] is a key of [u->to_]. *)
Definition edge (u w : Z) : Prop := w ∈ children g u.
Abbreviation reach := (rtc edge).

Lemma children_lookup v x : g !! v = Some x → children g v = dom (v_to x).
Proof. intros Hv. unfold children. by rewrite Hv. Qed.

Lemma edge_dom u w : edge u w → w ∈ dom g.
Proof using Hg.
  unfold edge, children. destruct (g !! u) as [x|] eqn:Hu; cbn; [|by rewrite elem_of_empty].
  intros [r Hr]%elem_of_dom. apply (wf_target g u w Hg). unfold out_e. rewrite Hu. cbn. eauto.
Qed.

Lemma parent_edge u w : parent g w u ↔ edge u w.
Proof using Hg.
  assert (Ho : edge u w ↔ is_Some (out_e g u w)).
  { unfold edge, children, out_e. destruct (g !! u) as [x|]; cbn; [by rewrite elem_of_dom|].
    split; [by rewrite elem_of_empty|by intros [??]]. }
  assert (Hi : parent g w u ↔ is_Some (in_e g u w)).
  { unfold parent, parents, in_e. destruct (g !! w) as [x|]; cbn; [by rewrite elem_of_dom|].
    split; [by rewrite elem_of_empty|by intros [??]]. }
  by rewrite Ho, Hi, (gw_edge _ Hg).
Qed.

(** [u] and [w] lie in the same component. *)
Definition connected (u w : Z) : Prop := reach u w ∧ reach w u.

Definition num (t : tarjan) (x i : Z) : Prop := indexes t !! x = Some i.

(** The invariant between calls, for the set [grey] of vertices on the call stack. *)
Record sc_inv (grey : gset Z) (t : tarjan) : Prop := {
  sc_dom : dom (indexes t) ⊆ dom g;
  sc_index : 0 ≤ t_index t;
  sc_range x i : num t x i → 0 ≤ i < t_index t;
  sc_stack x : x ∈ t_stack t → x ∈ dom (indexes t);
  sc_sorted : StronglySorted (λ x y, idx t y < idx t x) (t_stack t);
  sc_grey x : x ∈ grey → x ∈ t_stack t;
  sc_down x y : x ∈ t_stack t → y ∈ t_stack t → idx t x ≤ idx t y → reach x y;
  sc_up y : y ∈ t_stack t → ∃ x, x ∈ grey ∧ idx t x ≤ idx t y ∧ reach y x;
  sc_done x y : x ∈ dom (indexes t) → x ∉ t_stack t → edge x y → y ∈ dom (indexes t) ∧ y ∉ t_stack t;
  sc_black x y : x ∈ t_stack t → x ∉ grey → edge x y → y ∈ dom (indexes t);
}.

(** What a call for [v] from state [t] gives: the vertices [new] it leaves on the
    stack, and either the finished component of [v] or a stack vertex below. *)
Record sc_post (grey : gset Z) (v : Z) (t : tarjan) (ret new : list Z) (t' : tarjan) : Prop := {
  sp_inv : sc_inv grey t';
  sp_visited : v ∈ dom (indexes t');
  sp_indexes : indexes t ⊆ indexes t';
  sp_low x : x ∈ dom (indexes t) → lowlinks t' !! x = lowlinks t !! x;
  sp_stack : t_stack t' = new ++ t_stack t;
  sp_new x : x ∈ new → x ∉ dom (indexes t);
  sp_cross x y : x ∈ new → edge x y → y ∈ t_stack t → low t' v ≤ idx t' y;
  sp_cases :
    (new = [] ∧ t_index t ≤ low t' v ∧ NoDup ret ∧ ∀ u, u ∈ ret ↔ connected v u) ∨
    (∃ x, x ∈ t_stack t ∧ idx t' x = low t' v ∧ reach v x);
}.

Lemma idx_mono (t t' : tarjan) x : indexes t ⊆ indexes t' → x ∈ dom (indexes t) → idx t' x = idx t x.
Proof.
  intros Hs [i Hi]%elem_of_dom. unfold idx. rewrite Hi. by rewrite (lookup_weaken _ _ _ _ Hi Hs).
Qed.

Lemma dom_num t x : x ∈ dom (indexes t) → num t x (idx t x).
Proof. intros [i Hi]%elem_of_dom. unfold num, idx. by rewrite Hi. Qed.

Lemma sorted_app_lt (t : tarjan) l1 l2 x y :
  StronglySorted (λ x y, idx t y < idx t x) (l1 ++ l2) → x ∈ l1 → y ∈ l2 → idx t y < idx t x.
Proof.
  induction l1 as [|z l1 IH]; cbn; [set_solver|]. intros [Hs Hz]%StronglySorted_inv.
  rewrite Forall_forall in Hz. intros [->|Hx]%elem_of_cons Hy; [|auto]. apply Hz. set_solver.
Qed.

Lemma sorted_app_r (t : tarjan) l1 l2 :
  StronglySorted (λ x y, idx t y < idx t x) (l1 ++ l2) → StronglySorted (λ x y, idx t y < idx t x) l2.
Proof. induction l1 as [|z l1 IH]; cbn; [done|]. intros [Hs _]%StronglySorted_inv. auto. Qed.

Lemma sorted_NoDup (t : tarjan) l : StronglySorted (λ x y, idx t y < idx t x) l → NoDup l.
Proof.
  induction 1 as [|x l Hl IH Hx]; constructor; [|done].
  intros Hin. rewrite Forall_forall in Hx. specialize (Hx x Hin). lia.
Qed.

Lemma pop_until_spec v new rest : v ∉ new → pop_until v (new ++ v :: rest) = Done (new ++ [v], rest).
Proof.
  induction new as [|w new IH]; cbn; intros Hn; [by rewrite decide_True|].
  apply not_elem_of_cons in Hn as [Hne Hn]. rewrite decide_False by done. by rewrite IH.
Qed.

(** ** Entering a vertex *)

Definition enter (v : Z) (t : tarjan) : tarjan :=
  mkTarjan (<[v := t_index t]> (indexes t)) (<[v := t_index t]> (lowlinks t)) (t_index t + 1) (v :: t_stack t).

Lemma enter_sub v t : v ∉ dom (indexes t) → indexes t ⊆ indexes (enter v t).
Proof. intros Hv%not_elem_of_dom. by apply insert_subseteq. Qed.

Lemma idx_enter v t : idx (enter v t) v = t_index t.
Proof. unfold idx. cbn. by rewrite lookup_insert_eq. Qed.

Lemma stack_idx grey t x : sc_inv grey t → x ∈ t_stack t → 0 ≤ idx t x < t_index t.
Proof. intros HI Hx%(sc_stack _ _ HI). by apply (sc_range _ _ HI x), dom_num. Qed.

Lemma enter_inv grey v t :
  sc_inv grey t → v ∉ dom (indexes t) → v ∈ dom g → (∀ x, x ∈ grey → reach x v) →
  sc_inv ({[v]} ∪ grey) (enter v t).
Proof.
  intros HI Hn Hd Hgr. pose proof (enter_sub v t Hn) as Hsub. pose proof (sc_index _ _ HI) as H0.
  assert (Hold : ∀ x, x ∈ t_stack t → idx (enter v t) x = idx t x ∧ idx t x < t_index t ∧ x ≠ v).
  { intros x Hx. pose proof (stack_idx _ _ _ HI Hx) as Hi. apply (sc_stack _ _ HI) in Hx.
    split; [by apply idx_mono|]. split; [lia|congruence]. }
  pose proof (idx_enter v t) as Hv.
  assert (Hto : ∀ x, x ∈ t_stack t → reach x v).
  { intros x Hx. destruct (sc_up _ _ HI x Hx) as (z & Hz & _ & Hr). by etrans; [|apply Hgr]. }
  constructor.
  - cbn. rewrite dom_insert. pose proof (sc_dom _ _ HI). set_solver.
  - cbn. lia.
  - intros x i. unfold num. cbn. rewrite lookup_insert_Some. intros [[<- <-]|[_ Hi]]; [lia|].
    pose proof (sc_range _ _ HI x i Hi). lia.
  - cbn. intros x Hx. rewrite dom_insert. pose proof (sc_stack _ _ HI x). set_solver.
  - cbn [t_stack enter]. constructor.
    + assert (Hs : ∀ l, (∀ x, x ∈ l → x ∈ t_stack t) → StronglySorted (λ x y, idx t y < idx t x) l →
                   StronglySorted (λ x y, idx (enter v t) y < idx (enter v t) x) l).
      { intros l Hl Hs. induction Hs as [|x l Hs IH Hx]; constructor; [apply IH; set_solver|].
        rewrite Forall_forall in *. intros y Hy.
        rewrite (proj1 (Hold y (Hl y ltac:(set_solver)))), (proj1 (Hold x (Hl x ltac:(set_solver)))). auto. }
      apply Hs; [done|apply (sc_sorted _ _ HI)].
    + rewrite Forall_forall. intros y Hy. rewrite Hv, (proj1 (Hold y Hy)). apply (Hold y Hy).
  - intros x [->%elem_of_singleton|Hx]%elem_of_union; [by left|right]. by apply (sc_grey _ _ HI).
  - intros x y [->|Hx]%elem_of_cons [->|Hy]%elem_of_cons; [done| |by intros; apply Hto|].
    + rewrite Hv, (proj1 (Hold y Hy)). destruct (Hold y Hy). lia.
    + rewrite (proj1 (Hold x Hx)), (proj1 (Hold y Hy)). by apply (sc_down _ _ HI).
  - intros y [->|Hy]%elem_of_cons; [exists v; set_solver by lia|].
    destruct (sc_up _ _ HI y Hy) as (z & Hz & Hle & Hr). exists z. split; [set_solver|].
    rewrite (proj1 (Hold y Hy)), (proj1 (Hold z (sc_grey _ _ HI z Hz))). done.
  - cbn. intros x y Hx Hns He. rewrite dom_insert in Hx |- *. apply not_elem_of_cons in Hns as [Hne Hns].
    destruct (sc_done _ _ HI x y) as [Hy Hys]; [set_solver|done|done|]. set_solver.
  - cbn. intros x y [->|Hx]%elem_of_cons Hng He; [set_solver|]. rewrite dom_insert.
    apply elem_of_union_r. eapply (sc_black _ _ HI x); [done|set_solver|done].
Qed.

(** ** The loop over the children *)

Record sc_loop (grey : gset Z) (v : Z) (t0 : tarjan) (seen new : list Z) (t : tarjan) : Prop := {
  sl_inv : sc_inv ({[v]} ∪ grey) t;
  sl_indexes : indexes (enter v t0) ⊆ indexes t;
  sl_lows x : x ∈ dom (indexes t0) → lowlinks t !! x = lowlinks t0 !! x;
  sl_stack : t_stack t = new ++ v :: t_stack t0;
  sl_new x : x ∈ new → x ∉ dom (indexes (enter v t0));
  sl_seen w : w ∈ seen → w ∈ dom (indexes t);
  sl_le : low t v ≤ t_index t0;
  sl_wit : ∃ x, x ∈ v :: t_stack t0 ∧ idx t x = low t v ∧ reach v x;
  sl_cross x y : x ∈ new → edge x y → y ∈ t_stack t0 → low t v ≤ idx t y;
  sl_cross_v w : w ∈ seen → w ∈ t_stack t0 → low t v ≤ idx t w;
}.

Lemma sc_inv_set_low grey t v l : sc_inv grey t → sc_inv grey (set_low t v l).
Proof. intros [????????? Hb]. by constructor. Qed.

Lemma low_set_low t v l : low (set_low t v l) v = l.
Proof. unfold low. cbn. by rewrite lookup_insert_eq. Qed.

Lemma dom_mono (t t' : tarjan) x : indexes t ⊆ indexes t' → x ∈ dom (indexes t) → x ∈ dom (indexes t').
Proof. intros Hs. apply (subseteq_dom _ _ Hs). Qed.

Section loop.
Context (grey : gset Z) (v : Z) (t0 : tarjan).
Context (Hpre : sc_inv grey t0) (Hn : v ∉ dom (indexes t0)).

Lemma sl_start : v ∈ dom g → (∀ x, x ∈ grey → reach x v) → sc_loop grey v t0 [] [] (enter v t0).
Proof.
  intros Hd Hgr. constructor; try set_solver.
  - by apply enter_inv.
  - intros x Hx. cbn. rewrite lookup_insert_ne; [done|congruence].
  - unfold low. cbn. by rewrite lookup_insert_eq.
  - exists v. split; [by left|]. split; [|done]. unfold low. cbn. rewrite lookup_insert_eq. apply idx_enter.
Qed.

Lemma sl_idx_v seen new t : sc_loop grey v t0 seen new t → idx t v = t_index t0.
Proof.
  intros HL. rewrite (idx_mono _ _ v (sl_indexes _ _ _ _ _ _ HL)); [apply idx_enter|].
  cbn. rewrite dom_insert. set_solver.
Qed.

Lemma sl_v_in seen new t : sc_loop grey v t0 seen new t → v ∈ dom (indexes t).
Proof.
  intros HL. eapply dom_mono; [apply (sl_indexes _ _ _ _ _ _ HL)|]. cbn. rewrite dom_insert. set_solver.
Qed.

(** Stack vertices up to the index of [v] lie below it. *)
Lemma sl_below seen new t x :
  sc_loop grey v t0 seen new t → x ∈ t_stack t → idx t x ≤ t_index t0 → x ∈ v :: t_stack t0.
Proof.
  intros HL Hx Hle. pose proof (sc_sorted _ _ (sl_inv _ _ _ _ _ _ HL)) as Hs.
  rewrite (sl_stack _ _ _ _ _ _ HL) in Hx, Hs. apply elem_of_app in Hx as [Hx|Hx]; [|done].
  pose proof (sorted_app_lt _ _ _ x v Hs Hx ltac:(by left)) as Hlt.
  rewrite (sl_idx_v _ _ _ HL) in Hlt. lia.
Qed.

Lemma sl_old_stack seen new t x :
  sc_loop grey v t0 seen new t → x ∈ t_stack t0 → x ∈ t_stack t ∧ idx t x < t_index t0.
Proof.
  intros HL Hx. pose proof (sl_stack _ _ _ _ _ _ HL) as Hst. split; [rewrite Hst; set_solver|].
  pose proof (sorted_app_r _ _ _ (eq_ind _ _ (sc_sorted _ _ (sl_inv _ _ _ _ _ _ HL)) _ Hst)) as Hs.
  pose proof (sorted_app_lt t [v] (t_stack t0) v x Hs ltac:(by left) Hx) as Hlt.
  by rewrite (sl_idx_v _ _ _ HL) in Hlt.
Qed.

(** A child off the stack: nothing changes. *)
Lemma sl_skip seen new t w :
  sc_loop grey v t0 seen new t → w ∈ dom (indexes t) → w ∉ t_stack t → sc_loop grey v t0 (seen ++ [w]) new t.
Proof.
  intros HL Hw Hns. pose proof (λ x, sl_old_stack _ _ _ x HL) as Hos. destruct HL. constructor; [done..| | | | |].
  - intros w' [?| ->%list_elem_of_singleton]%elem_of_app; auto.
  - done.
  - done.
  - done.
  - intros w' [?| ->%list_elem_of_singleton]%elem_of_app Hw'; [auto|]. by destruct Hns, (Hos w Hw').
Qed.

(** A child on the stack. *)
Lemma sl_back seen new t w :
  sc_loop grey v t0 seen new t → edge v w → w ∈ t_stack t →
  sc_loop grey v t0 (seen ++ [w]) new (set_low t v (if decide (low t v < idx t w) then low t v else idx t w)).
Proof.
  intros HL He Hw. set (l := if decide (low t v < idx t w) then low t v else idx t w).
  assert (Hl : l ≤ low t v ∧ l ≤ idx t w) by (unfold l; case_decide; lia).
  pose proof (λ x, sl_below _ _ _ x HL) as Hbe.
  destruct HL as [HI Hix Hlows Hst Hnew Hseen Hle Hwit Hcr Hcrv]. constructor; rewrite ?low_set_low.
  - by apply sc_inv_set_low.
  - done.
  - intros x Hx. cbn. rewrite lookup_insert_ne; [auto|congruence].
  - done.
  - done.
  - intros w' [?| ->%list_elem_of_singleton]%elem_of_app; [auto|]. by apply (sc_stack _ _ HI).
  - lia.
  - change (idx (set_low t v l)) with (idx t). unfold l. case_decide; [done|].
    exists w. split; [apply Hbe; [done|lia]|]. split; [done|by apply rtc_once].
  - intros x y Hx Hy Hys. change (idx (set_low t v l)) with (idx t). specialize (Hcr x y Hx Hy Hys). lia.
  - intros w' [Hs| ->%list_elem_of_singleton]%elem_of_app Hw'; change (idx (set_low t v l)) with (idx t); [|lia].
    specialize (Hcrv w' Hs Hw'). lia.
Qed.

(** A child visited by a recursive call. *)
Lemma sl_tree seen new t w ret new' t' :
  sc_loop grey v t0 seen new t → edge v w → w ∉ dom (indexes t) →
  sc_post ({[v]} ∪ grey) w t ret new' t' →
  sc_loop grey v t0 (seen ++ [w]) (new' ++ new)
    (set_low t' v (if decide (low t' v < low t' w) then low t' v else low t' w)).
Proof.
  intros HL He Hw HP. set (l := if decide (low t' v < low t' w) then low t' v else low t' w).
  assert (Hl : l ≤ low t' v ∧ l ≤ low t' w) by (unfold l; case_decide; lia).
  pose proof (λ x, sl_below _ _ _ x HL) as Hbe. pose proof (sl_v_in _ _ _ HL) as Hvin.
  pose proof (λ x, sl_old_stack _ _ _ x HL) as Hos. pose proof (sl_idx_v _ _ _ HL) as Hvi.
  destruct HL as [HI Hix Hlows Hst Hnew Hseen Hle Hwit Hcr Hcrv].
  destruct HP as [HI' Hvis Hix' Hlow' Hst' Hnew' Hcr' Hcases].
  assert (Hlv : low t' v = low t v) by (unfold low; by rewrite Hlow').
  assert (Hidx : ∀ x, x ∈ t_stack t → idx t' x = idx t x).
  { intros x Hx. apply idx_mono; [done|]. by apply (sc_stack _ _ HI). }
  assert (Hvs : v ∈ t_stack t) by (rewrite Hst; set_solver).
  constructor; rewrite ?low_set_low; change (idx (set_low t' v l)) with (idx t').
  - by apply sc_inv_set_low.
  - by etrans.
  - intros x Hx. cbn. rewrite lookup_insert_ne by congruence. rewrite Hlow'; [auto|].
    eapply dom_mono; [exact Hix|]. cbn. rewrite dom_insert. set_solver.
  - cbn. by rewrite Hst', Hst, app_assoc.
  - intros x [Hx|Hx]%elem_of_app; [|auto]. intros Hx0. by apply (Hnew' x Hx), (dom_mono (enter v t0)).
  - intros w' [?| ->%list_elem_of_singleton]%elem_of_app; [|done]. cbn. by eapply dom_mono; [|apply Hseen].
  - lia.
  - unfold l. case_decide.
    + destruct Hwit as (x & Hx & Hi & Hr). exists x. rewrite Hlv, Hidx; [done|].
      apply elem_of_cons in Hx as [->|Hx]; [done|by apply Hos].
    + destruct Hcases as [(_ & Hti & _)|(x & Hx & Hi & Hr)].
      * pose proof (stack_idx _ _ _ HI Hvs). lia.
      * exists x. split; [|split; [done|by eapply rtc_l]]. apply Hbe; [done|]. rewrite <-Hidx by done. lia.
  - intros x y [Hx|Hx]%elem_of_app Hy Hys.
    + specialize (Hcr' x y Hx Hy (proj1 (Hos y Hys))). lia.
    + specialize (Hcr x y Hx Hy Hys). rewrite Hidx by apply (Hos y Hys). lia.
  - intros w' [Hs| ->%list_elem_of_singleton]%elem_of_app Hw'.
    + specialize (Hcrv w' Hs Hw'). rewrite Hidx by apply (Hos w' Hw'). lia.
    + destruct Hw. by apply (sc_stack _ _ HI), Hos.
Qed.

(** ** Leaving a vertex *)

Definition pop_to (t : tarjan) (st : list Z) : tarjan := mkTarjan (indexes t) (lowlinks t) (t_index t) st.

Lemma done_reach gr t x y :
  sc_inv gr t → reach x y → x ∈ dom (indexes t) → x ∉ t_stack t → y ∈ dom (indexes t) ∧ y ∉ t_stack t.
Proof.
  intros HI Hr. induction Hr as [x|x z y He _ IH]; [done|]. intros Hx Hns.
  destruct (sc_done _ _ HI x z Hx Hns He). auto.
Qed.

(** The vertices above [v] on the stack are connected to it. *)
Lemma sl_connected seen new t u : sc_loop grey v t0 seen new t → u ∈ new ++ [v] → connected v u.
Proof.
  intros HL Hu. pose proof (sl_inv _ _ _ _ _ _ HL) as HI. pose proof (sl_stack _ _ _ _ _ _ HL) as Hst.
  assert (Hvs : v ∈ t_stack t) by (rewrite Hst; set_solver).
  assert (Hus : u ∈ t_stack t) by (rewrite Hst; set_solver).
  assert (Hle : idx t v ≤ idx t u).
  { apply elem_of_app in Hu as [Hu| ->%list_elem_of_singleton]; [|done].
    pose proof (sc_sorted _ _ HI) as Hs. rewrite Hst in Hs.
    pose proof (sorted_app_lt _ _ _ u v Hs Hu ltac:(by left)). lia. }
  split; [by apply (sc_down _ _ HI)|].
  destruct (sc_up _ _ HI u Hus) as (z & Hz & _ & Hr).
  apply elem_of_union in Hz as [->%elem_of_singleton|Hz]; [done|]. etrans; [exact Hr|].
  apply (sc_grey _ _ Hpre) in Hz. destruct (sl_old_stack _ _ _ z HL Hz) as [Hzs Hlt].
  apply (sc_down _ _ HI); [done..|]. rewrite (sl_idx_v _ _ _ HL). lia.
Qed.

Lemma sl_pop_inv seen new t :
  sc_loop grey v t0 seen new t → (∀ w, edge v w → w ∈ seen) → low t v = idx t v →
  sc_inv grey (pop_to t (t_stack t0)).
Proof.
  intros HL Hall Hroot. pose proof (λ x, sl_old_stack _ _ _ x HL) as Hos.
  pose proof (sl_idx_v _ _ _ HL) as Hvi. destruct HL as [HI Hix Hlows Hst Hnew Hseen Hle Hwit Hcr Hcrv].
  pose proof (sc_sorted _ _ HI) as Hs. rewrite Hst in Hs. apply sorted_app_r in Hs.
  constructor; cbn [pop_to indexes t_index t_stack]; change (idx (pop_to t (t_stack t0))) with (idx t).
  - apply (sc_dom _ _ HI).
  - apply (sc_index _ _ HI).
  - intros x i. apply (sc_range _ _ HI).
  - intros x Hx. by apply (sc_stack _ _ HI), Hos.
  - by apply StronglySorted_inv in Hs as [? _].
  - apply (sc_grey _ _ Hpre).
  - intros x y Hx Hy. apply (sc_down _ _ HI); by apply Hos.
  - intros y Hy. destruct (Hos y Hy) as [Hys Hlt]. destruct (sc_up _ _ HI y Hys) as (z & Hz & Hzi & Hr).
    exists z. split; [|done]. apply elem_of_union in Hz as [->%elem_of_singleton|Hz]; [lia|done].
  - intros x y Hx Hxs He. destruct (decide (x ∈ t_stack t)) as [Hin|Hin].
    + assert (y ∈ dom (indexes t)) as Hy.
      { destruct (decide (x = v)) as [->|Hxv]; [by apply Hseen, Hall|].
        apply (sc_black _ _ HI x); [done| |done]. pose proof (sc_grey _ _ Hpre x). set_solver. }
      split; [done|]. intros Hys. destruct (Hos y Hys) as [_ Hlt].
      destruct (decide (x = v)) as [->|Hxv].
      * pose proof (Hcrv y (Hall y He) Hys). lia.
      * rewrite Hst in Hin. assert (x ∈ new) as Hxn by set_solver. pose proof (Hcr x y Hxn He Hys). lia.
    + destruct (sc_done _ _ HI x y Hx Hin He) as [? Hyn]. split; [done|]. intros Hys. by apply Hyn, Hos.
  - intros x y Hx Hng He. apply (sc_black _ _ HI x); [by apply Hos| |done].
    assert (x ≠ v); [|set_solver]. intros ->. by apply Hn, (sc_stack _ _ Hpre).
Qed.

Lemma sl_pop seen new t :
  sc_loop grey v t0 seen new t → (∀ w, edge v w → w ∈ seen) → low t v = idx t v →
  sc_post grey v t0 (new ++ [v]) [] (pop_to t (t_stack t0)).
Proof.
  intros HL Hall Hroot. pose proof (sl_pop_inv _ _ _ HL Hall Hroot) as HI'.
  pose proof (sl_v_in _ _ _ HL) as Hvin. pose proof (sl_idx_v _ _ _ HL) as Hvi.
  pose proof (sl_inv _ _ _ _ _ _ HL) as HI. pose proof (sl_stack _ _ _ _ _ _ HL) as Hst.
  constructor; [done|done| |apply (sl_lows _ _ _ _ _ _ HL)|done|set_solver|set_solver|].
  - etrans; [by apply enter_sub|apply (sl_indexes _ _ _ _ _ _ HL)].
  - left. split; [done|]. split; [change (low (pop_to t (t_stack t0)) v) with (low t v); lia|]. split.
    + pose proof (sorted_NoDup _ _ (sc_sorted _ _ HI)) as Hnd. rewrite Hst in Hnd.
      replace (new ++ v :: t_stack t0) with ((new ++ [v]) ++ t_stack t0) in Hnd by by rewrite <-app_assoc.
      by apply NoDup_app in Hnd as [? _].
    + intros u. split; [by eapply sl_connected|]. intros [Hvu Huv].
      destruct (done_reach _ _ _ _ HI' Hvu) as [Hu Hus]; [done|cbn; by intros ?%(sc_stack _ _ Hpre)|].
      cbn in Hu, Hus. destruct (decide (u ∈ t_stack t)) as [Hin|Hin]; [rewrite Hst in Hin; set_solver|].
      destruct (done_reach _ _ _ _ HI Huv Hu Hin) as [_ Hv]. destruct Hv. rewrite Hst. set_solver.
Qed.

Lemma sl_stay seen new t :
  sc_loop grey v t0 seen new t → (∀ w, edge v w → w ∈ seen) → low t v ≠ idx t v →
  sc_post grey v t0 [] (new ++ [v]) t.
Proof.
  intros HL Hall Hroot. pose proof (sl_v_in _ _ _ HL) as Hvin. pose proof (sl_idx_v _ _ _ HL) as Hvi.
  pose proof (λ x, sl_old_stack _ _ _ x HL) as Hos. pose proof (λ u, sl_connected _ _ _ u HL) as Hcon.
  destruct HL as [HI Hix Hlows Hst Hnew Hseen Hle Hwit Hcr Hcrv].
  assert (Hw : ∃ x, x ∈ t_stack t0 ∧ idx t x = low t v ∧ reach v x).
  { destruct Hwit as (x & [->|Hx]%elem_of_cons & Hi & Hr); [done|eauto]. }
  constructor.
  - pose proof HI as []. constructor; try done.
    + intros x Hx. apply (sc_grey0 x). set_solver.
    + intros y Hy. destruct (sc_up0 y Hy) as (z & [->%elem_of_singleton|Hz]%elem_of_union & Hzi & Hr); [|eauto].
      destruct Hw as (x & Hx & Hi & Hvx). destruct (Hos x Hx) as [Hxs Hlt].
      destruct (sc_up0 x Hxs) as (z & [->%elem_of_singleton|Hz]%elem_of_union & Hzi' & Hr'); [lia|].
      exists z. split; [done|]. split; [lia|]. by etrans; [|etrans].
    + intros x y Hx Hng He. destruct (decide (x = v)) as [->|]; [by apply Hseen, Hall|].
      apply (sc_black0 x); [done|set_solver|done].
  - done.
  - etrans; [by apply enter_sub|exact Hix].
  - done.
  - by rewrite Hst, <-app_assoc.
  - intros x [Hx| ->%list_elem_of_singleton]%elem_of_app; [|done]. intros Hx0.
    by apply (Hnew x Hx), (dom_mono t0 (enter v t0)); [apply enter_sub|].
  - intros x y [Hx| ->%list_elem_of_singleton]%elem_of_app He Hys; [eauto|]. apply Hcrv; [auto|done].
  - by right.
Qed.
End loop.

(** ** The whole search *)

Lemma strong_connect_correct fuel : ∀ grey v t,
  sc_inv grey t → v ∉ dom (indexes t) → v ∈ dom g → (∀ x, x ∈ grey → reach x v) →
  (size (dom g ∖ dom (indexes t)) < fuel)%nat →
  ∃ ret new t', strong_connect ord fuel g v t = Done (ret, t') ∧ sc_post grey v t ret new t'.
Proof.
  induction fuel as [|fuel IH]; intros grey v t HI Hn Hd Hgr Hf; [lia|].
  cbn [strong_connect]. apply elem_of_dom in Hd as Hx. destruct Hx as [x Hx]. unfold vertex. rewrite Hx.
  cbn [mbind result_bind]. fold (enter v t).
  assert (Hch : ∀ w, w ∈ ord (dom (v_to x)) ↔ edge v w).
  { intros w. unfold edge. rewrite (ord_in ord Hord). by rewrite (children_lookup _ _ Hx). }
  match goal with |- context [for_each ?f _ _] => set (body := f) end.
  edestruct (for_each_inv body (λ seen s, ∃ new, sc_loop grey v t seen new s)
               (ord (dom (v_to x))) (enter v t)) as (t' & Hrun & new & HL).
  { exists []. by apply sl_start. }
  2: { rewrite Hrun. cbn [mbind result_bind].
       assert (Hall : ∀ w, edge v w → w ∈ ord (dom (v_to x))) by (intros w; by apply Hch).
       pose proof (sl_new _ _ _ _ _ _ HL) as Hnew. case_decide as Hroot.
       - rewrite (sl_stack _ _ _ _ _ _ HL), pop_until_spec.
         + cbn [mbind result_bind]. eexists _, [], _. split; [done|]. by eapply sl_pop.
         + intros Hv. apply (Hnew v Hv). cbn. rewrite dom_insert. set_solver.
       - eexists _, (new ++ [v]), _. split; [done|]. by eapply sl_stay. }
  intros seen w rest s Hsplit [new HL]. unfold body. clear body.
  assert (He : edge v w) by (apply Hch; rewrite Hsplit; set_solver).
  destruct (indexes s !! w) as [i|] eqn:Hw.
  - apply elem_of_dom_2 in Hw. case_decide as Hst.
    + eexists. split; [done|]. exists new. by apply sl_back.
    + eexists. split; [done|]. exists new. by eapply sl_skip.
  - apply not_elem_of_dom in Hw. pose proof (sl_inv _ _ _ _ _ _ HL) as HI'.
    destruct (IH ({[v]} ∪ grey) w s) as (ret & new' & s' & Hcall & HP); [done|done| | | |].
    + by eapply edge_dom.
    + intros y [->%elem_of_singleton|Hy]%elem_of_union; [by apply rtc_once|].
      etrans; [by apply Hgr|by apply rtc_once].
    + pose proof (subseteq_dom _ _ (sl_indexes _ _ _ _ _ _ HL)) as Hsub. cbn in Hsub. rewrite dom_insert in Hsub.
      rewrite (size_difference_step _ _ v Hn Hd) in Hf.
      enough (size (dom g ∖ dom (indexes s)) ≤ size (dom g ∖ ({[v]} ∪ dom (indexes t))))%nat by lia.
      apply subseteq_size. set_solver.
    + rewrite Hcall. cbn [mbind result_bind]. eexists. split; [done|]. exists (new' ++ new). by eapply sl_tree.
Qed.

Lemma sc_inv_init : sc_inv ∅ (mkTarjan ∅ ∅ 0 []).
Proof.
  constructor; cbn; [set_solver|done| |set_solver|constructor|set_solver..].
  intros x i. unfold num. cbn. by rewrite lookup_empty.
Qed.

Lemma find_scc_spec v :
  v ∈ dom g → ∃ scc, find_scc ord g v = Done scc ∧ NoDup scc ∧ ∀ u, u ∈ scc ↔ connected v u.
Proof.
  intros Hv. unfold find_scc.
  destruct (strong_connect_correct (S (size g)) ∅ v (mkTarjan ∅ ∅ 0 [])) as (ret & new & t' & Hrun & HP).
  - apply sc_inv_init.
  - set_solver.
  - done.
  - set_solver.
  - cbn [indexes]. rewrite dom_empty_L, difference_empty_L, size_dom. lia.
  - rewrite Hrun. cbn. exists ret. split; [done|].
    destruct (sp_cases _ _ _ _ _ _ HP) as [(_ & _ & ? & ?)|(x & Hx & _)]; [done|].
    by apply not_elem_of_nil in Hx.
Qed.

Lemma parent_reach u v : rtc (parent g) v u ↔ reach u v.
Proof using Hg.
  split; intros Hr.
  - induction Hr as [|x y z Hxy _ IH]; [done|]. eapply rtc_r; [exact IH|]. by apply parent_edge.
  - induction Hr as [|x y z Hxy _ IH]; [done|]. eapply rtc_r; [exact IH|]. by apply parent_edge.
Qed.
End tarjan.

(** C22: on a well-formed graph [Graph::find_scc] returns the strongly connected
    component of the vertex: every member once, and exactly the vertices that it
    reaches and that reach it, whatever order the adjacency maps are walked in. *)
Theorem find_scc_component (ord : gset Z → list Z) g v :
  (∀ s, ord s ≡ₚ elements s) → graph_wf g → v ∈ dom g →
  ∃ scc, find_scc ord g v = Done scc ∧ NoDup scc ∧
    ∀ u, u ∈ scc ↔ rtc (edge g) v u ∧ rtc (edge g) u v.
Proof. intros Hord Hg Hv. by apply find_scc_spec. Qed.

(** C38: [Graph::find_scc_ancestor] returns the ancestors of a vertex that are not
    in its component: the vertices with a path to it and none back. *)
Theorem find_scc_ancestor_correct (ord : gset Z → list Z) g v :
  (∀ s, ord s ≡ₚ elements s) → graph_wf g → v ∈ dom g →
  ∃ s, find_scc_ancestor ord g v = Done s ∧ ∀ u, u ∈ s ↔ rtc (edge g) u v ∧ ¬ rtc (edge g) v u.
Proof.
  intros Hord Hg Hv. unfold find_scc_ancestor.
  destruct (find_ancestor_correct ord Hord g v Hg Hv) as (s & -> & Hs).
  destruct (find_scc_spec ord Hord g Hg v Hv) as (scc & -> & _ & Hscc). cbn. eexists. split; [done|].
  intros u. rewrite elem_of_difference, elem_of_list_to_set, Hs, Hscc, (parent_reach g Hg). unfold connected.
  split; [naive_solver|]. intros [Hu Hn]. split; [|tauto]. split; [done|]. by intros ->.
Qed.

(** ** A component of three vertices with a tail *)

(** [0 -> 1 -> 2 -> 3 -> 1], [3 -> 4]. *)
Definition sample_scc : Graph :=
  or_edge 3 4 1 (or_edge 3 1 1 (or_edge 2 3 2 (or_edge 1 2 1 (or_edge 0 1 1
    (find_or_insert (find_or_insert (find_or_insert (find_or_insert (find_or_insert ∅ 0 0) 1 0) 2 0) 3 0) 4 0))))).

Lemma sample_scc_wf : graph_wf sample_scc.
Proof.
  do 5 (apply or_edge_wf; [|by apply (bool_decide_unpack _); vm_compute..]).
  repeat apply find_or_insert_wf. apply graph_wf_empty.
Qed.

Lemma find_scc_component_witness :
  find_scc elements sample_scc 2 = Done [1; 3; 2] ∧
  ∃ scc, find_scc elements sample_scc 2 = Done scc ∧ NoDup scc ∧
    ∀ u, u ∈ scc ↔ rtc (edge sample_scc) 2 u ∧ rtc (edge sample_scc) u 2.
Proof.
  split; [vm_compute; reflexivity|].
  apply (find_scc_component elements); [done|apply sample_scc_wf|by apply (bool_decide_unpack _); vm_compute].
Defined.

Lemma find_scc_ancestor_correct_witness :
  find_scc_ancestor elements sample_scc 3 = Done {[0]} ∧
  ∃ s, find_scc_ancestor elements sample_scc 3 = Done s ∧
    ∀ u, u ∈ s ↔ rtc (edge sample_scc) u 3 ∧ ¬ rtc (edge sample_scc) 3 u.
Proof.
  split; [vm_compute; reflexivity|].
  apply (find_scc_ancestor_correct elements); [done|apply sample_scc_wf|by apply (bool_decide_unpack _); vm_compute].
Defined.
