(* ===== verification/SccSort.v ===== *)
(** * The execution order of a component

    Properties of [Graph::sorted_scc] (src/rococo-dst/deptran/graph.hpp), which orders the
    transactions of a strongly connected component for execution: the order does
    not depend on the server that computes it, and it follows the read-write and
    write-read edges. *)

From S2P Require Import Prelude Graph GraphSearch Tarjan.

(** An edge that carries more than [WW]. *)
Definition strong (g : Graph) (u w : Z) : Prop := ∃ r, out_e g u w = Some r ∧ 2 ≤ r.

Lemma strong_from g u w x : graph_wf g → g !! w = Some x → (strong g u w ↔ 2 ≤ default 0 (v_from x !! u)).
Proof.
  intros Hg Hx. unfold strong. rewrite (gw_edge _ Hg). unfold in_e. rewrite Hx. cbn.
  destruct (v_from x !! u) as [r|]; cbn; [naive_solver|]. split; [naive_solver|lia].
Qed.

Lemma strong_to g u w x : g !! u = Some x → (strong g u w ↔ 2 ≤ default 0 (v_to x !! w)).
Proof.
  intros Hx. unfold strong, out_e. rewrite Hx. cbn.
  destruct (v_to x !! w) as [r|]; cbn; [naive_solver|]. split; [naive_solver|lia].
Qed.

Lemma has_type2_spec g (scc : gset Z) w :
  graph_wf g → w ∈ dom g → (has_type2 g scc w = false ↔ ∀ u, strong g u w → u ∉ scc).
Proof.
  intros Hg [x Hx]%elem_of_dom. unfold has_type2. rewrite Hx. rewrite bool_decide_eq_false, Exists_exists. split.
  - intros Hn u Hu%(strong_from _ _ _ _ Hg Hx) Hin. apply Hn. exists u. split.
    + apply elem_of_elements, elem_of_dom. destruct (v_from x !! u); [done|cbn in Hu; lia].
    + unfold WW. split; [lia|done].
  - intros Hn (u & _ & Hu & Hin). apply (Hn u); [|done]. apply (strong_from _ _ _ _ Hg Hx). unfold WW in Hu. lia.
Qed.

Lemma parents_visited_spec g (vis : gset Z) w :
  graph_wf g → w ∈ dom g → (parents_visited g vis w = true ↔ ∀ u, strong g u w → u ∈ vis).
Proof.
  intros Hg [x Hx]%elem_of_dom. unfold parents_visited. rewrite Hx. rewrite bool_decide_eq_true, Forall_forall. split.
  - intros Hf u Hu%(strong_from _ _ _ _ Hg Hx). destruct (Hf u) as [?|?]; [|lia|done].
    apply elem_of_elements, elem_of_dom. destruct (v_from x !! u); [done|cbn in Hu; lia].
  - intros Hf u _. destruct (decide (default 0 (v_from x !! u) < 2)); [by left|right].
    apply Hf. apply (strong_from _ _ _ _ Hg Hx). lia.
Qed.

(** ** Independence of the iteration order *)

Lemma bind_ext {A B} (m1 m2 : result A) (k1 k2 : A → result B) :
  m1 = m2 → (∀ a, k1 a = k2 a) → m1 ≫= k1 = m2 ≫= k2.
Proof. intros -> Hk. destruct m2; cbn; auto. Qed.

Lemma sort_vv_perm l1 l2 flag : l1 ≡ₚ l2 → sort_vv l1 flag = sort_vv l2 flag.
Proof.
  intros Hp. destruct (sort_vv_spec l1 flag) as (k1 & -> & Hk1 & Hs1).
  destruct (sort_vv_spec l2 flag) as (k2 & -> & Hk2 & Hs2). f_equal.
  assert (k1 ≡ₚ k2) by by rewrite Hk1, Hk2.
  eapply StronglySorted_unique_strong; [|done..]. intros x y _ _. destruct flag; unfold flip; lia.
Qed.

Lemma sorted_loop_ord ord1 ord2 fuel g scc visited stack out :
  (∀ s : gset Z, ord1 s ≡ₚ ord2 s) →
  sorted_loop ord1 fuel g scc visited stack out = sorted_loop ord2 fuel g scc visited stack out.
Proof.
  intros Ho. revert visited stack out. induction fuel as [|fuel IH]; intros visited stack out; [done|].
  cbn [sorted_loop]. destruct stack as [|v stack]; [done|]. destruct (vertex g v) as [x| |]; [|done..].
  cbn [mbind result_bind].
  set (P := λ w, 2 ≤ default 0 (v_to x !! w) ∧ w ∈ scc).
  assert (Hf : filter P (ord1 (dom (v_to x))) ≡ₚ filter P (ord2 (dom (v_to x)))) by by rewrite Ho.
  fold P. case_decide as H1; case_decide as H2; cbn [mbind result_bind].
  - by rewrite H1, H2.
  - rewrite H1 in Hf. by apply Permutation_nil_l in Hf.
  - rewrite H2 in Hf. by apply Permutation_nil_r in Hf.
  - rewrite (sort_vv_perm _ _ _ Hf). destruct (sort_vv _ _); cbn [mbind result_bind]; [apply IH|done..].
Qed.

(** C23: every server computes the same execution order for a component: the
    result of [Graph::sorted_scc] (failures included) depends neither on the vertex of
    the component the search starts from nor on the order in which the pointer-keyed
    maps and sets are walked. *)
Theorem sorted_scc_unique ord1 ord2 g v1 v2 out :
  (∀ s : gset Z, ord1 s ≡ₚ elements s) → (∀ s : gset Z, ord2 s ≡ₚ elements s) →
  graph_wf g → v1 ∈ dom g → v2 ∈ dom g → connected g v1 v2 →
  sorted_scc ord1 g v1 out = sorted_scc ord2 g v2 out.
Proof.
  intros Ho1 Ho2 Hg Hv1 Hv2 [H12 H21]. unfold sorted_scc.
  destruct (find_scc_spec ord1 Ho1 g Hg v1 Hv1) as (c1 & -> & Hn1 & Hc1).
  destruct (find_scc_spec ord2 Ho2 g Hg v2 Hv2) as (c2 & -> & Hn2 & Hc2). cbn [mbind result_bind].
  assert (Hp : c1 ≡ₚ c2).
  { apply NoDup_Permutation; [done..|]. intros u. rewrite Hc1, Hc2. unfold connected.
    split; intros [??]; split; by etrans. }
  assert (list_to_set c1 =@{gset Z} list_to_set c2) as -> by (apply set_eq; intros u; by rewrite !elem_of_list_to_set, Hp).
  assert (Hne : ∀ l1 l2 : list Z, l1 ≡ₚ l2 → verify (bool_decide (l1 ≠ [])) = verify (bool_decide (l2 ≠ []))).
  { intros l1 l2 Hl. f_equal. apply bool_decide_ext. rewrite <-!length_zero_iff_nil. by rewrite (Permutation_length Hl). }
  apply bind_ext; [by apply Hne|]. intros _. rewrite (Permutation_length Hp).
  apply bind_ext; [done|]. intros _.
  set (st1 := filter _ (ord1 _)). set (st2 := filter _ (ord2 _)).
  assert (Hst : st1 ≡ₚ st2) by (unfold st1, st2; by rewrite Ho1, Ho2).
  apply bind_ext; [by apply Hne|]. intros _. apply bind_ext; [by apply sort_vv_perm|]. intros start.
  apply bind_ext; [|done]. apply sorted_loop_ord. intros s. by rewrite Ho1, Ho2.
Qed.

(** ** The order follows the strong edges *)

Section topological.
Context (ord : gset Z → list Z) (Hord : ∀ s, ord s ≡ₚ elements s).
Context (g : Graph) (Hg : graph_wf g) (scc : gset Z) (Hdom : scc ⊆ dom g).
Context (Hin : ∀ u w, w ∈ scc → strong g u w → u ∈ scc).
Context (rank : Z → nat) (Hrank : ∀ u w, u ∈ scc → w ∈ scc → strong g u w → (rank u < rank w)%nat).

#[local] Instance strong_dec u w : Decision (strong g u w).
Proof.
  refine (match out_e g u w as o return out_e g u w = o → _ with
          | Some r => λ H, cast_if (decide (2 ≤ r)) | None => λ H, right _ end eq_refl).
  all: unfold strong; rewrite H; naive_solver.
Defined.

(** Every vertex comes after all its strong parents. *)
Definition topological (out : list Z) : Prop :=
  ∀ pre w post, out = pre ++ w :: post → ∀ u, strong g u w → u ∈ pre.

Record ss_inv (visited : gset Z) (stack out : list Z) : Prop := {
  ss_visited x : x ∈ visited ↔ x ∈ out;
  ss_nodup : NoDup (stack ++ out);
  ss_scc x : x ∈ stack ++ out → x ∈ scc;
  ss_ready x u : x ∈ stack → strong g u x → u ∈ out;
  ss_complete x : x ∈ scc → (∀ u, strong g u x → u ∈ out) → x ∈ stack ++ out;
  ss_topological : topological out;
}.

Lemma ss_finished visited out : ss_inv visited [] out → ∀ x, x ∈ scc → x ∈ out.
Proof.
  intros HI. enough (∀ n x, (rank x < n)%nat → x ∈ scc → x ∈ out) by eauto.
  induction n as [|n IH]; intros x Hn Hx; [lia|]. apply (ss_complete _ _ _ HI x Hx).
  intros u Hu. pose proof (Hin u x Hx Hu) as Hus. apply IH; [|done]. specialize (Hrank u x Hus Hx Hu). lia.
Qed.

Lemma topological_snoc out v :
  topological out → (∀ u, strong g u v → u ∈ out) → topological (out ++ [v]).
Proof.
  intros Ht Hv pre w post Heq u Hu. destruct post as [|y post _] using rev_ind.
  - apply app_inj_tail in Heq as [-> ->]. auto.
  - rewrite app_comm_cons, app_assoc in Heq. apply app_inj_tail in Heq as [-> ->]. by eapply Ht.
Qed.

Lemma push_all_perm P l stack : push_all P l stack ≡ₚ filter (λ x, P x = true) l ++ stack.
Proof.
  unfold push_all. revert stack. induction l as [|y l IH]; intros stack; cbn [foldl]; [done|].
  rewrite IH, filter_cons. case_decide as Hy; [|by destruct (P y)]. rewrite Hy. solve_Permutation.
Qed.

Lemma ss_step visited v stack out ch :
  ss_inv visited (v :: stack) out → NoDup ch → (∀ w, w ∈ ch ↔ strong g v w ∧ w ∈ scc) →
  ss_inv ({[v]} ∪ visited) (push_all (parents_visited g ({[v]} ∪ visited)) ch stack) (out ++ [v]).
Proof.
  intros [Hvis Hnd Hsc Hready Hcomp Htop] Hndc Hch.
  pose proof (push_all_perm (parents_visited g ({[v]} ∪ visited)) ch stack) as Hp.
  set (pushed := filter _ ch) in Hp.
  assert (Hvo : ∀ x, x ∈ {[v]} ∪ visited ↔ x ∈ out ++ [v]).
  { intros x. rewrite elem_of_union, elem_of_singleton, elem_of_app, list_elem_of_singleton, Hvis. tauto. }
  assert (Hpu : ∀ w, w ∈ pushed ↔ w ∈ scc ∧ strong g v w ∧ ∀ u, strong g u w → u ∈ out ++ [v]).
  { intros w. unfold pushed. rewrite list_elem_of_filter, Hch. split.
    - intros (HP & Hs & Hw). split_and!; [done..|]. intros u Hu. apply Hvo.
      by apply (proj1 (parents_visited_spec g _ w Hg (Hdom w Hw)) HP).
    - intros (Hw & Hs & Hall). split_and!; [|done..]. apply (parents_visited_spec g _ w Hg (Hdom w Hw)).
      intros u Hu. by apply Hvo, Hall. }
  cbn in Hnd. apply NoDup_cons in Hnd as [Hvn Hnd].
  assert (Hfresh : ∀ w, strong g v w → w ∉ v :: stack ++ out).
  { intros w Hs Hw. destruct Hvn. apply elem_of_app. right.
    apply (elem_of_app (v :: stack) out) in Hw as [Hw|Hw]; [by eapply Hready|].
    apply list_elem_of_split in Hw as (pre & post & ->). apply elem_of_app. left. by eapply Htop. }
  constructor.
  - done.
  - rewrite Hp. rewrite (Permutation_app_comm out [v]). cbn.
    rewrite <-app_assoc. apply NoDup_app. split; [by apply NoDup_filter|]. split.
    + intros x (_ & Hs & _)%Hpu Hx. apply (Hfresh x Hs). revert Hx. rewrite !elem_of_app, !elem_of_cons, elem_of_app. tauto.
    + rewrite <-Permutation_middle. by apply NoDup_cons.
  - intros x. rewrite Hp, !elem_of_app, list_elem_of_singleton. intros [[(Hx & _)%Hpu|Hx]|[Hx|Hx]]; [done|..];
      apply Hsc; rewrite elem_of_app, elem_of_cons; tauto.
  - intros x u. rewrite Hp, elem_of_app. intros [(_ & _ & Hall)%Hpu|Hx] Hu; [by apply Hall|].
    apply elem_of_app. left. apply (Hready x); [by right|done].
  - intros x Hx Hall. rewrite Hp, !elem_of_app, list_elem_of_singleton.
    destruct (decide (strong g v x)) as [Hs|Hs].
    + left. left. by apply Hpu.
    + assert (Hx' : x ∈ (v :: stack) ++ out).
      { apply Hcomp; [done|]. intros u Hu. specialize (Hall u Hu).
        apply elem_of_app in Hall as [?| ->%list_elem_of_singleton]; [done|]. by destruct Hs. }
      revert Hx'. rewrite elem_of_app, elem_of_cons. tauto.
  - apply topological_snoc; [done|]. intros u. apply Hready. by left.
Qed.

Lemma sorted_loop_topological fuel visited stack out :
  ss_inv visited stack out → (size scc < fuel + length out)%nat →
  ∃ out', sorted_loop ord fuel g scc visited stack out = Done out' ∧
    NoDup out' ∧ (∀ x, x ∈ out' ↔ x ∈ scc) ∧ topological out'.
Proof.
  revert visited stack out. induction fuel as [|fuel IH]; intros visited stack out HI Hf.
  { exfalso. pose proof (ss_nodup _ _ _ HI) as Hnd. apply NoDup_app in Hnd as (_ & _ & Hnd).
    assert (length out ≤ size scc)%nat; [|lia]. rewrite <-(size_list_to_set (C:=gset Z)) by done.
    apply subseteq_size. intros x Hx%elem_of_list_to_set. apply (ss_scc _ _ _ HI). set_solver. }
  cbn [sorted_loop]. destruct stack as [|v stack].
  - exists out. split; [done|]. split; [apply (ss_nodup _ _ _ HI)|]. split; [|apply (ss_topological _ _ _ HI)].
    intros x. split; [apply (ss_scc _ _ _ HI x)|by apply (ss_finished _ _ HI)].
  - assert (Hv : v ∈ scc) by (apply (ss_scc _ _ _ HI); by left).
    apply Hdom, elem_of_dom in Hv as [x Hx]. unfold vertex. rewrite Hx. cbn [mbind result_bind].
    set (ch := filter _ (ord (dom (v_to x)))).
    assert (Hch : NoDup ch ∧ ∀ w, w ∈ ch ↔ strong g v w ∧ w ∈ scc).
    { split; [apply NoDup_filter; rewrite Hord; apply NoDup_elements|]. intros w. unfold ch.
      rewrite list_elem_of_filter, (ord_in ord Hord), (strong_to _ _ _ _ Hx), elem_of_dom.
      split; [tauto|]. intros [Hs Hw]. split; [done|]. destruct (v_to x !! w); [done|cbn in Hs; lia]. }
    destruct Hch as [Hnd Hch].
    assert (Hsort : ∃ ch', (if decide (ch = []) then Done ch else sort_vv ch false) = Done ch' ∧ ch' ≡ₚ ch).
    { case_decide; [by eexists|]. destruct (sort_vv_spec ch false) as (ch' & ? & ? & _). eauto. }
    destruct Hsort as (ch' & -> & Hp). cbn [mbind result_bind]. apply IH.
    + apply ss_step; [done|by rewrite Hp|]. intros w. by rewrite Hp.
    + rewrite length_app. cbn. lia.
Qed.

(** The vertices the search starts from. *)
Lemma ss_start l :
  l ≡ₚ filter (λ u, has_type2 g scc u = false) (elements scc) → ss_inv ∅ l [].
Proof using Hg Hdom Hin.
  intros Hl.
  assert (Hs : ∀ x, x ∈ l ↔ x ∈ scc ∧ ∀ u, ¬ strong g u x).
  { intros x. rewrite Hl, list_elem_of_filter, elem_of_elements. split.
    - intros [Ht Hx]. split; [done|]. intros u Hu. apply (proj1 (has_type2_spec g scc x Hg (Hdom x Hx)) Ht u Hu).
      by apply (Hin u x).
    - intros [Hx Hn]. split; [|done]. apply (has_type2_spec g scc x Hg (Hdom x Hx)). intros u Hu. by destruct (Hn u). }
  constructor.
  - intros x. by rewrite elem_of_empty, elem_of_nil.
  - rewrite app_nil_r, Hl. apply NoDup_filter, NoDup_elements.
  - intros x. rewrite app_nil_r. intros Hx. by apply Hs.
  - intros x u [_ Hn]%Hs Hu. by destruct (Hn u).
  - intros x Hx Hall. rewrite app_nil_r. apply Hs. split; [done|]. intros u Hu. by apply Hall, not_elem_of_nil in Hu.
  - intros pre w post Hq. by destruct pre.
Qed.

Lemma ss_start_nonempty l : ss_inv ∅ l [] → scc ≠ ∅ → l ≠ [].
Proof using Hin Hrank.
  intros HI Hne ->. apply set_choose_L in Hne as [x Hx].
  by apply (ss_finished _ _ HI), not_elem_of_nil in Hx.
Qed.
End topological.

Lemma sorted_scc_topological ord g v (rank : Z → nat) :
  (∀ s : gset Z, ord s ≡ₚ elements s) → graph_wf g → v ∈ dom g →
  (∀ u w, connected g v u → connected g v w → strong g u w → (rank u < rank w)%nat) →
  (∀ u w, connected g v w → strong g u w → connected g v u) →
  ∃ l, sorted_scc ord g v [] = Done l ∧ NoDup l ∧ (∀ u, u ∈ l ↔ connected g v u) ∧ topological g l.
Proof.
  intros Hord Hg Hv Hrank Hin. unfold sorted_scc.
  destruct (find_scc_spec ord Hord g Hg v Hv) as (ret & -> & Hnd & Hret). cbn [mbind result_bind].
  assert (Hvr : v ∈ ret) by (by apply Hret).
  rewrite (bool_decide_eq_true_2 (ret ≠ [])) by (intros ->; by apply not_elem_of_nil in Hvr).
  cbn [verify mbind result_bind]. set (scc := list_to_set ret : gset Z).
  assert (Hsz : size scc = length ret) by by apply size_list_to_set.
  rewrite (bool_decide_eq_true_2 (size scc = length ret)) by done. cbn [verify mbind result_bind].
  assert (Hscc : ∀ u, u ∈ scc ↔ connected g v u) by (intros u; unfold scc; by rewrite elem_of_list_to_set).
  assert (Hdom : scc ⊆ dom g).
  { intros u [Hu _]%Hscc. apply rtc_inv_r in Hu as [->|(y & _ & He)]; [done|by eapply edge_dom]. }
  assert (Hin' : ∀ u w, w ∈ scc → strong g u w → u ∈ scc) by (intros u w; rewrite !Hscc; apply Hin).
  assert (Hrank' : ∀ u w, u ∈ scc → w ∈ scc → strong g u w → (rank u < rank w)%nat)
    by (intros u w; rewrite !Hscc; apply Hrank).
  set (start := filter _ (ord scc)).
  assert (Hst : start ≡ₚ filter (λ u, has_type2 g scc u = false) (elements scc)) by (unfold start; by rewrite Hord).
  pose proof (ss_start g Hg scc Hdom Hin' start Hst) as Hss.
  assert (Hsne : start ≠ []).
  { apply (ss_start_nonempty g scc Hin' rank Hrank' start Hss). intros He.
    apply (not_elem_of_empty (C:=gset Z) v). rewrite <-He. by apply elem_of_list_to_set. }
  rewrite (bool_decide_eq_true_2 (start ≠ [])) by done. cbn [verify mbind result_bind].
  destruct (sort_vv_spec start true) as (l & -> & Hl & _). cbn [mbind result_bind].
  destruct (sorted_loop_topological ord Hord g Hg scc Hdom Hin' rank Hrank' (S (length ret)) ∅ (reverse l) [])
    as (out & -> & Hno & Hout & Htop).
  - apply (ss_start g Hg scc Hdom Hin'). by rewrite reverse_Permutation, Hl.
  - cbn. lia.
  - cbn [mbind result_bind]. exists out.
    assert (length out = length ret) as ->.
    { rewrite <-Hsz, <-(size_list_to_set (C:=gset Z) out) by done. f_equal. apply set_eq. intros u.
      by rewrite elem_of_list_to_set, Hout. }
    rewrite bool_decide_eq_true_2 by done. cbn [verify mbind result_bind]. split; [done|]. split; [done|].
    split; [|done]. intros u. by rewrite Hout, Hscc.
Qed.

(** C36: when the read-write and write-read edges of a component are acyclic (they
    increase some rank) and none enters it from outside, [Graph::sorted_scc] returns:
    every member of the component once, each one after all the members it depends
    on over such edges. *)
Theorem sorted_scc_follows_edges ord g v (rank : Z → nat) :
  (∀ s : gset Z, ord s ≡ₚ elements s) → graph_wf g → v ∈ dom g →
  (∀ u w, connected g v u → connected g v w → strong g u w → (rank u < rank w)%nat) →
  (∀ u w, connected g v w → strong g u w → connected g v u) →
  ∃ l, sorted_scc ord g v [] = Done l ∧ NoDup l ∧ (∀ u, u ∈ l ↔ connected g v u) ∧ topological g l.
Proof. apply sorted_scc_topological. Qed.

(** ** What is returned whatever the edges are

    A component with a cycle of strong edges, or with a strong edge from outside, can
    fail the final check.  When it does not, the result still lists the component. *)
Section members.
Context (ord : gset Z → list Z) (Hord : ∀ s, ord s ≡ₚ elements s).
Context (g : Graph) (Hg : graph_wf g) (scc : gset Z) (Hdom : scc ⊆ dom g).

Record sw_inv (visited : gset Z) (stack out : list Z) : Prop := {
  sw_visited x : x ∈ visited ↔ x ∈ out;
  sw_nodup : NoDup (stack ++ out);
  sw_scc x : x ∈ stack ++ out → x ∈ scc;
  sw_ready x u : x ∈ stack ++ out → u ∈ scc → strong g u x → u ∈ out;
}.

Lemma sw_step visited v stack out ch :
  sw_inv visited (v :: stack) out → NoDup ch → (∀ w, w ∈ ch ↔ strong g v w ∧ w ∈ scc) →
  sw_inv ({[v]} ∪ visited) (push_all (parents_visited g ({[v]} ∪ visited)) ch stack) (out ++ [v]).
Proof.
  intros [Hvis Hnd Hsc Hready] Hndc Hch.
  pose proof (push_all_perm (parents_visited g ({[v]} ∪ visited)) ch stack) as Hp.
  set (pushed := filter _ ch) in Hp.
  assert (Hvo : ∀ x, x ∈ {[v]} ∪ visited ↔ x ∈ out ++ [v]).
  { intros x. rewrite elem_of_union, elem_of_singleton, elem_of_app, list_elem_of_singleton, Hvis. tauto. }
  assert (Hpu : ∀ w, w ∈ pushed → w ∈ scc ∧ strong g v w ∧ ∀ u, strong g u w → u ∈ out ++ [v]).
  { intros w. unfold pushed. rewrite list_elem_of_filter, Hch. intros (HP & Hs & Hw). split_and!; [done..|].
    intros u Hu. apply Hvo. by apply (proj1 (parents_visited_spec g _ w Hg (Hdom w Hw)) HP). }
  assert (Hv : v ∈ scc) by (apply Hsc; by left).
  cbn in Hnd. apply NoDup_cons in Hnd as [Hvn Hnd].
  assert (Hfresh : ∀ w, strong g v w → w ∉ v :: stack ++ out).
  { intros w Hs Hw. apply Hvn, elem_of_app. right. by apply (Hready w v). }
  constructor.
  - done.
  - rewrite Hp. rewrite (Permutation_app_comm out [v]). cbn.
    rewrite <-app_assoc. apply NoDup_app. split; [by apply NoDup_filter|]. split.
    + intros x (_ & Hs & _)%Hpu Hx. apply (Hfresh x Hs). revert Hx. rewrite !elem_of_app, !elem_of_cons, elem_of_app. tauto.
    + rewrite <-Permutation_middle. by apply NoDup_cons.
  - intros x. rewrite Hp, !elem_of_app, list_elem_of_singleton. intros [[(Hx & _)%Hpu|Hx]|[Hx|Hx]]; [done|..];
      apply Hsc; rewrite elem_of_app, elem_of_cons; tauto.
  - intros x u. rewrite Hp, !elem_of_app, list_elem_of_singleton. intros Hx Hu Hs.
    destruct Hx as [[(_ & _ & Hall)%Hpu|Hx]|Hx].
    + by apply elem_of_app, Hall.
    + left. apply (Hready x); [|done..]. rewrite elem_of_app, elem_of_cons. tauto.
    + left. apply (Hready x); [|done..]. rewrite elem_of_app, elem_of_cons. tauto.
Qed.

Lemma sorted_loop_members fuel visited stack out :
  sw_inv visited stack out → (size scc < fuel + length out)%nat →
  ∃ out', sorted_loop ord fuel g scc visited stack out = Done out' ∧ NoDup out' ∧ ∀ x, x ∈ out' → x ∈ scc.
Proof.
  revert visited stack out. induction fuel as [|fuel IH]; intros visited stack out HI Hf.
  { exfalso. pose proof (sw_nodup _ _ _ HI) as Hnd. apply NoDup_app in Hnd as (_ & _ & Hnd).
    assert (length out ≤ size scc)%nat; [|lia]. rewrite <-(size_list_to_set (C:=gset Z)) by done.
    apply subseteq_size. intros x Hx%elem_of_list_to_set. apply (sw_scc _ _ _ HI). set_solver. }
  cbn [sorted_loop]. destruct stack as [|v stack].
  - exists out. split; [done|]. split; [apply (sw_nodup _ _ _ HI)|apply (sw_scc _ _ _ HI)].
  - assert (Hv : v ∈ scc) by (apply (sw_scc _ _ _ HI); by left).
    apply Hdom, elem_of_dom in Hv as [x Hx]. unfold vertex. rewrite Hx. cbn [mbind result_bind].
    set (ch := filter _ (ord (dom (v_to x)))).
    assert (Hch : NoDup ch ∧ ∀ w, w ∈ ch ↔ strong g v w ∧ w ∈ scc).
    { split; [apply NoDup_filter; rewrite Hord; apply NoDup_elements|]. intros w. unfold ch.
      rewrite list_elem_of_filter, (ord_in ord Hord), (strong_to _ _ _ _ Hx), elem_of_dom.
      split; [tauto|]. intros [Hs Hw]. split; [done|]. destruct (v_to x !! w); [done|cbn in Hs; lia]. }
    destruct Hch as [Hnd Hch].
    assert (Hsort : ∃ ch', (if decide (ch = []) then Done ch else sort_vv ch false) = Done ch' ∧ ch' ≡ₚ ch).
    { case_decide; [by eexists|]. destruct (sort_vv_spec ch false) as (ch' & ? & ? & _). eauto. }
    destruct Hsort as (ch' & -> & Hp). cbn [mbind result_bind]. apply IH.
    + apply sw_step; [done|by rewrite Hp|]. intros w. by rewrite Hp.
    + rewrite length_app. cbn. lia.
Qed.

Lemma sw_start l :
  l ≡ₚ filter (λ u, has_type2 g scc u = false) (elements scc) → sw_inv ∅ l [].
Proof using Hg Hdom.
  intros Hl.
  assert (Hs : ∀ x, x ∈ l → x ∈ scc ∧ ∀ u, u ∈ scc → ¬ strong g u x).
  { intros x. rewrite Hl, list_elem_of_filter, elem_of_elements.
    intros [Ht Hx]. split; [done|]. intros u Hu Hux. by apply (proj1 (has_type2_spec g scc x Hg (Hdom x Hx)) Ht u Hux). }
  constructor; rewrite ?app_nil_r.
  - intros x. by rewrite elem_of_empty, elem_of_nil.
  - rewrite Hl. apply NoDup_filter, NoDup_elements.
  - intros x Hx. by apply Hs.
  - intros x u Hx Hu Hux. destruct (Hs x Hx) as [_ Hn]. by destruct (Hn u).
Qed.
End members.

Lemma sorted_scc_members ord g v :
  (∀ s : gset Z, ord s ≡ₚ elements s) → graph_wf g → v ∈ dom g →
  sorted_scc ord g v [] = Crash assert_failed ∨
  ∃ l, sorted_scc ord g v [] = Done l ∧ NoDup l ∧ ∀ u, u ∈ l ↔ connected g v u.
Proof.
  intros Hord Hg Hv. unfold sorted_scc.
  destruct (find_scc_spec ord Hord g Hg v Hv) as (ret & -> & Hnd & Hret). cbn [mbind result_bind].
  destruct (bool_decide (ret ≠ [])); [|by left]. cbn [verify mbind result_bind]. set (scc := list_to_set ret : gset Z).
  assert (Hsz : size scc = length ret) by by apply size_list_to_set.
  destruct (bool_decide (size scc = length ret)); [|by left]. cbn [verify mbind result_bind].
  assert (Hscc : ∀ u, u ∈ scc ↔ connected g v u) by (intros u; unfold scc; by rewrite elem_of_list_to_set).
  assert (Hdom : scc ⊆ dom g).
  { intros u [Hu _]%Hscc. apply rtc_inv_r in Hu as [->|(y & _ & He)]; [done|by eapply edge_dom]. }
  set (start := filter _ (ord scc)). destruct (bool_decide (start ≠ [])); [|by left]. cbn [verify mbind result_bind].
  destruct (sort_vv_spec start true) as (l & -> & Hl & _). cbn [mbind result_bind].
  destruct (sorted_loop_members ord Hord g Hg scc Hdom (S (length ret)) ∅ (reverse l) []) as (out & -> & Hno & Hout).
  - apply (sw_start g Hg scc Hdom). rewrite reverse_Permutation, Hl. unfold start. by rewrite Hord.
  - cbn. lia.
  - cbn [mbind result_bind]. case_bool_decide as Hlen; [|by left]. right. exists out. split; [done|]. split; [done|].
    assert ((list_to_set out : gset Z) = scc) as Heq.
    { apply set_eq. intros u. assert ((list_to_set out : gset Z) ⊆ scc) as Hsub by set_solver.
      split; [apply Hsub|]. intros Hu. destruct (decide (u ∈ (list_to_set out : gset Z))) as [|Hn]; [done|].
      assert (size (list_to_set out : gset Z) < size scc)%nat; [|rewrite size_list_to_set in *; [lia|done]].
      apply subset_size. set_solver. }
    intros u. rewrite <-Hscc, <-Heq. by rewrite elem_of_list_to_set.
Qed.

(** ** Examples *)

(** [1 -> 2] and [2 -> 3] over read-write edges, [3 -> 1] over a write-write one. *)
Definition sample_cycle : Graph :=
  or_edge 3 1 1 (or_edge 2 3 2 (or_edge 1 2 2
    (find_or_insert (find_or_insert (find_or_insert ∅ 1 0) 2 0) 3 0))).

Lemma sample_cycle_wf : graph_wf sample_cycle.
Proof.
  do 3 (apply or_edge_wf; [|by apply (bool_decide_unpack _); vm_compute..]).
  repeat apply find_or_insert_wf. apply graph_wf_empty.
Qed.

Lemma sample_cycle_dom u : u ∈ dom sample_cycle → u = 1 ∨ u = 2 ∨ u = 3.
Proof.
  rewrite <-elem_of_elements. replace (elements (dom sample_cycle)) with [3; 2; 1] by (vm_compute; reflexivity).
  rewrite !elem_of_cons, elem_of_nil. tauto.
Qed.

Lemma sample_cycle_connected u : u ∈ dom sample_cycle → connected sample_cycle 1 u.
Proof.
  assert (edge sample_cycle 1 2 ∧ edge sample_cycle 2 3 ∧ edge sample_cycle 3 1) as (H12 & H23 & H31)
    by (unfold edge; by apply (bool_decide_unpack _); vm_compute).
  assert (connected sample_cycle 1 2) as C2 by (split; eauto using rtc_once, rtc_l).
  assert (connected sample_cycle 1 3) as C3 by (split; eauto using rtc_once, rtc_l).
  intros [-> | [-> | ->]]%sample_cycle_dom; [split; reflexivity|done..].
Qed.

Lemma sample_cycle_strong u w : strong sample_cycle u w → u ∈ dom sample_cycle ∧ (Z.to_nat u < Z.to_nat w)%nat.
Proof.
  intros (r & Hr & Hle).
  assert (Hu : u ∈ dom sample_cycle) by (apply (out_e_dom _ u w); eauto).
  assert (Hw : w ∈ dom sample_cycle) by (apply (wf_target _ u w sample_cycle_wf); eauto).
  split; [done|]. apply sample_cycle_dom in Hu as [-> | [-> | ->]]; apply sample_cycle_dom in Hw as [-> | [-> | ->]];
    try lia; vm_compute in Hr; first [discriminate Hr | injection Hr as <-; lia].
Qed.

Lemma sorted_scc_follows_edges_witness :
  sorted_scc elements sample_cycle 1 [] = Done [1; 2; 3] ∧
  ∃ l, sorted_scc elements sample_cycle 1 [] = Done l ∧ NoDup l ∧
    (∀ u, u ∈ l ↔ connected sample_cycle 1 u) ∧ topological sample_cycle l.
Proof.
  split; [vm_compute; reflexivity|].
  apply (sorted_scc_follows_edges elements sample_cycle 1 Z.to_nat).
  - done.
  - apply sample_cycle_wf.
  - by apply (bool_decide_unpack _); vm_compute.
  - intros u w _ _ Hs. apply (sample_cycle_strong u w Hs).
  - intros u w _ Hs. apply sample_cycle_connected, (sample_cycle_strong u w Hs).
Defined.

Lemma sorted_scc_unique_witness :
  sorted_scc elements sample_cycle 1 [] = sorted_scc (reverse ∘ elements) sample_cycle 3 [].
Proof.
  apply (sorted_scc_unique elements (reverse ∘ elements) sample_cycle 1 3 []).
  - done.
  - intros s. cbn. apply reverse_Permutation.
  - apply sample_cycle_wf.
  - by apply (bool_decide_unpack _); vm_compute.
  - by apply (bool_decide_unpack _); vm_compute.
  - apply sample_cycle_connected. by apply (bool_decide_unpack _); vm_compute.
Defined.

(** The component [{1, 2}] with a read-write edge into it from the transaction 0. *)
Definition outside_parent : Graph :=
  or_edge 0 2 2 (or_edge 2 1 1 (or_edge 1 2 2
    (find_or_insert (find_or_insert (find_or_insert ∅ 0 0) 1 0) 2 0))).

(** [Graph::sorted_scc] fails its final check on a component that has a
    read-write parent outside: the readiness test waits for that parent, which the
    search never visits, although the choice of the start vertices ignores parents
    outside the component. *)
Theorem sorted_scc_outside_parent :
  find_scc elements outside_parent 1 = Done [2; 1] ∧
  sorted_scc elements outside_parent 1 [] = Crash assert_failed.
Proof. split; vm_compute; reflexivity. Qed.
