(* ===== verification/GraphWire.v ===== *)
(** * Dependency graphs on the wire

    Models the marshalling of src/rococo-dst/deptran/txn_info.h, graph.hpp and graph.cc: a server
    answers a start request with the part of its graph that [sub_txn_graph] selected
    ([GraphMarshaler::write_to_marshal]); the coordinator reads it into an empty graph
    ([operator >>]).  Also: copying a graph ([Graph::operator=]). *)

From S2P Require Import Prelude SparseInt Marshal Wire Graph.

(** ** Data of a transaction *)

(** Iteration order of a [std::set<uint32_t>]. *)
Definition sorted_ord (s : gset Z) : list Z := merge_sort Z.le (elements s).
#[export] Instance sorted_enumerates : Enumerates sorted_ord.
Proof. intros s. apply merge_sort_Permutation. Qed.

Definition servers_codec : codec (gset Z) := set_codec sorted_ord (uint_codec 4).

(** [m << ti]: [txn_id_], [status()] and [servers_] *)
Definition put_txn (ti : TxnInfo) (s : mstate) : result mstate :=
  s ← put (uint_codec 8) (txn_id_ ti) s;
  s ← put (int_codec 1) (status_ ti) s;
  put servers_codec (servers_ ti) s.

(** [m >> ti] into a new [TxnInfo], whose [txn_ts_] no constructor sets: [ts] is what the
    memory held. *)
Definition get_txn (ts : Z) (s : mstate) : result (TxnInfo * mstate) :=
  '(id, s) ← get (uint_codec 8) s;
  '(status, s) ← get (int_codec 1) s;
  '(servers, s) ← get servers_codec s;
  let ti := mkTxn TXN_UKN id ts servers ∅ in
  Done ((union_status 0 ti status true false).1, s).

(** ** Graphs *)

(** [m << (uint64_t) id], read back as an [int64_t] that indexes a map of [uint64_t] *)
Definition id_codec : codec Z :=
  mkCodec (put (uint_codec 8)) (λ s, '(o, s) ← get (int_codec 8) s; Done (u64 o, s)).

Definition edge_codec : codec (Z * Z) := pair_codec id_codec (int_codec 1).

(** One vertex with its outgoing edges, [to_size] first. *)
Definition put_vertex (id : Z) (ti : TxnInfo) (to : list (Z * Z)) (s : mstate) : result mstate :=
  s ← put (uint_codec 8) id s;
  s ← put_txn ti s;
  s ← put (int_codec 4) (Z.of_nat (length to)) s;
  put_all edge_codec to s.

Section marshal.
Context (ord : gset Z → list Z) (ts : Z).

(** The edges that [marshal_help_1] keeps: those into the set. *)
Definition edges_within (g : Graph) (ret_set : gset Z) (v : Vertex) : result (list (Z * Z)) :=
  for_each (λ to w,
    if decide (w ∈ ret_set) then
      match v_to v !! w, g !! w with
      | Some r, Some x => Done (to ++ [(txn_id_ (v_data x), r)])
      | _, _ => Crash invalid_access
      end
    else Done to) (ord (dom (v_to v))) [].

(** [GraphMarshaler::write_to_marshal] with [marshal_help_1] *)
Definition write_to_marshal (g : Graph) (ret_set : gset Z) (s : mstate) : result mstate :=
  s ← put (int_codec 4) (Z.of_nat (size ret_set)) s;
  for_each (λ s u,
    match g !! u with
    | None => Crash invalid_access
    | Some v =>
        to ← edges_within g ret_set v;
        put_vertex (txn_id_ (v_data v)) (v_data v) to s
    end) (ord ret_set) s.

(** [operator <<] of a whole graph *)
Definition write_graph (g : Graph) (s : mstate) : result mstate :=
  _ ← verify (bool_decide (0 < size g)%nat);
  s ← put (int_codec 4) (Z.of_nat (size g)) s;
  for_each (λ s u,
    match g !! u with
    | None => Crash invalid_access
    | Some v =>
        to ← for_each (λ to w,
               match v_to v !! w, g !! w with
               | Some r, Some x => Done (to ++ [(txn_id_ (v_data x), r)])
               | _, _ => Crash invalid_access
               end) (ord (dom (v_to v))) [];
        put_vertex (txn_id_ (v_data v)) (v_data v) to s
    end) (ord (dom g)) s.

(** The reading loop of [operator >>]: [ref] and [v_to]. *)
Fixpoint get_vertices (n : nat) (ref : Graph) (v_to : gmap Z (gmap Z Z)) (s : mstate) :
    result (Graph * gmap Z (gmap Z Z) * mstate) :=
  match n with
  | O => Done (ref, v_to, s)
  | S n =>
      '(o, s) ← get id_codec s;
      '(ti, s) ← get_txn ts s;
      let ref := <[o := Vertex_new ti]> ref in
      '(k, s) ← get (int_codec 4) s;
      '(es, s) ← get_all edge_codec (Z.to_nat k) s;
      let v_to := foldl (λ v_to '(ii, jj), <[o := or_at ii jj (default ∅ (v_to !! o))]> v_to) v_to es in
      get_vertices n ref v_to s
  end.

(** The edge loops of [operator >>]; [ref[to_o]] is null for an id that was not sent. *)
Definition link_vertex (v_to : gmap Z (gmap Z Z)) (g : Graph) (o : Z) : result Graph :=
  let o_to := default ∅ (v_to !! o) in
  for_each (λ g to_o,
    match o_to !! to_o, g !! to_o with
    | Some type, Some _ => Done (set_edge o to_o type g)
    | _, _ => Crash invalid_access
    end) (sorted_ord (dom o_to)) g.

(** [operator >>] into an empty graph *)
Definition read_graph (s : mstate) : result (Graph * mstate) :=
  '(n, s) ← get (int_codec 4) s;
  _ ← verify (bool_decide (0 < n));
  '(ref, v_to, s) ← get_vertices (Z.to_nat n) ∅ ∅ s;
  _ ← verify (bool_decide (Z.of_nat (size ref) = n));
  g ← for_each (link_vertex v_to) (sorted_ord (dom v_to)) ref;
  _ ← verify (bool_decide (0 < size g)%nat);
  Done (g, s).
End marshal.

(** ** Storing edges *)

Lemma set_edge_lookup u w r g x :
  set_edge u w r g !! x =
  (λ v, mkVertex (if decide (w = x) then <[u := r]> (v_from v) else v_from v)
                 (if decide (u = x) then <[w := r]> (v_to v) else v_to v) (v_data v)) <$> g !! x.
Proof.
  unfold set_edge. destruct (decide (w = x)) as [<-|Hw].
  - rewrite lookup_alter_eq. destruct (decide (u = w)) as [<-|Hu].
    + rewrite lookup_alter_eq. by destruct (g !! u).
    + rewrite lookup_alter_ne by done. by destruct (g !! w).
  - rewrite lookup_alter_ne by done. destruct (decide (u = x)) as [<-|Hu].
    + rewrite lookup_alter_eq. by destruct (g !! u).
    + rewrite lookup_alter_ne by done. by destruct (g !! x) as [[]|].
Qed.

Lemma set_edge_data u w r g x : data_at (set_edge u w r g) x = data_at g x.
Proof. unfold data_at. rewrite set_edge_lookup. by destruct (g !! x). Qed.

Lemma set_edge_out u w r g x y :
  u ∈ dom g → out_e (set_edge u w r g) x y = if decide (u = x ∧ w = y) then Some r else out_e g x y.
Proof.
  intros [v Hv]%elem_of_dom. unfold out_e. rewrite set_edge_lookup.
  destruct (decide (u = x)) as [<-|Hne]; [rewrite Hv; cbn|by destruct (g !! x); cbn; case_decide; naive_solver].
  destruct (decide (w = y)) as [<-|]; [rewrite lookup_insert_eq|rewrite lookup_insert_ne by done]; case_decide; naive_solver.
Qed.

Lemma set_edge_in u w r g x y :
  w ∈ dom g → in_e (set_edge u w r g) x y = if decide (u = x ∧ w = y) then Some r else in_e g x y.
Proof.
  intros [v Hv]%elem_of_dom. unfold in_e. rewrite set_edge_lookup.
  destruct (decide (w = y)) as [<-|Hne]; [rewrite Hv; cbn|by destruct (g !! y); cbn; case_decide; naive_solver].
  destruct (decide (u = x)) as [<-|]; [rewrite lookup_insert_eq|rewrite lookup_insert_ne by done]; case_decide; naive_solver.
Qed.

(** A loop that stores the edges [rel] of one vertex. *)
Lemma link_one (f : Graph → Z → result Graph) u (rel : gmap Z Z) ws g :
  u ∈ dom g → (∀ w, w ∈ ws → w ∈ dom g ∧ is_Some (rel !! w)) →
  (∀ g' w r, w ∈ ws → dom g' = dom g → rel !! w = Some r → f g' w = Done (set_edge u w r g')) →
  ∃ g', for_each f ws g = Done g' ∧ (∀ x, data_at g' x = data_at g x) ∧
    (∀ x y, out_e g' x y = if decide (x = u ∧ y ∈ ws) then rel !! y else out_e g x y) ∧
    (∀ x y, in_e g' x y = if decide (x = u ∧ y ∈ ws) then rel !! y else in_e g x y).
Proof.
  intros Hu Hws Hf.
  edestruct (for_each_inv f (λ seen g', (∀ x, data_at g' x = data_at g x) ∧
    (∀ x y, out_e g' x y = if decide (x = u ∧ y ∈ seen) then rel !! y else out_e g x y) ∧
    (∀ x y, in_e g' x y = if decide (x = u ∧ y ∈ seen) then rel !! y else in_e g x y)) ws g) as (g' & Hrun & HI).
  - split; [done|]. split; intros x y; rewrite decide_False by set_solver; done.
  - intros seen w rest s Hsplit (Hd & Ho & Hi).
    assert (Hw : w ∈ ws) by (rewrite Hsplit; set_solver). destruct (Hws w Hw) as [Hwd [r Hr]].
    assert (Hdom : dom s = dom g).
    { apply set_eq. intros x. by rewrite !data_at_dom, Hd. }
    exists (set_edge u w r s). split; [by apply Hf|]. split; [intros x; by rewrite set_edge_data|].
    split; intros x y; [rewrite set_edge_out by (rewrite Hdom; done); rewrite Ho|rewrite set_edge_in by (rewrite Hdom; done); rewrite Hi];
      repeat case_decide; try done; set_solver.
  - eauto.
Qed.

(** The same for all vertices of a graph that has no edges yet. *)
Lemma link_all (F : Graph → Z → result Graph) (rel : Z → gmap Z Z) us g :
  (∀ x y, out_e g x y = None) → (∀ x y, in_e g x y = None) →
  (∀ g' u, u ∈ us → dom g' = dom g →
     ∃ g'', F g' u = Done g'' ∧ (∀ x, data_at g'' x = data_at g' x) ∧
       (∀ x y, out_e g'' x y = if decide (x = u ∧ y ∈ dom (rel u)) then rel u !! y else out_e g' x y) ∧
       (∀ x y, in_e g'' x y = if decide (x = u ∧ y ∈ dom (rel u)) then rel u !! y else in_e g' x y)) →
  ∃ g', for_each F us g = Done g' ∧ (∀ x, data_at g' x = data_at g x) ∧
    (∀ x y, out_e g' x y = if decide (x ∈ us) then rel x !! y else None) ∧
    (∀ x y, in_e g' x y = if decide (x ∈ us) then rel x !! y else None).
Proof.
  intros Ho Hi HF.
  edestruct (for_each_inv F (λ seen g', (∀ x, data_at g' x = data_at g x) ∧
    (∀ x y, out_e g' x y = if decide (x ∈ seen) then rel x !! y else None) ∧
    (∀ x y, in_e g' x y = if decide (x ∈ seen) then rel x !! y else None)) us g) as (g' & Hrun & HI); [| |eauto].
  - split; [done|]. split; intros x y; rewrite decide_False by set_solver; auto.
  - intros seen u rest s Hsplit (Hd & Hso & Hsi).
    assert (Hdom : dom s = dom g) by (apply set_eq; intros x; by rewrite !data_at_dom, Hd).
    destruct (HF s u) as (g'' & Hrun & Hd'' & Ho'' & Hi''); [rewrite Hsplit; set_solver|done|].
    exists g''. split; [done|]. split; [intros x; by rewrite Hd''|].
    assert (Hrel : ∀ x y (e : option Z), e = (if decide (x ∈ seen) then rel x !! y else None) →
      (if decide (x = u ∧ y ∈ dom (rel u)) then rel u !! y else e) = if decide (x ∈ seen ++ [u]) then rel x !! y else None).
    { intros x y e ->. destruct (decide (x = u)) as [->|Hne].
      - rewrite (decide_True (P := u ∈ seen ++ [u])) by set_solver. case_decide as Hy; [done|].
        assert (rel u !! y = None) as -> by (apply not_elem_of_dom; tauto). by case_decide.
      - rewrite decide_False by tauto. repeat case_decide; set_solver. }
    split; intros x y; [rewrite Ho''|rewrite Hi'']; by apply Hrel.
Qed.

(** Graphs with the same data and edges are equal. *)
Lemma graph_ext (g1 g2 : Graph) :
  (∀ x, data_at g1 x = data_at g2 x) → (∀ x y, out_e g1 x y = out_e g2 x y) → (∀ x y, in_e g1 x y = in_e g2 x y) → g1 = g2.
Proof.
  intros Hd Ho Hi. apply map_eq. intros x. specialize (Hd x). unfold data_at in Hd.
  destruct (g1 !! x) as [[f1 t1 d1]|] eqn:H1, (g2 !! x) as [[f2 t2 d2]|] eqn:H2; try done. cbn in Hd. injection Hd as ->.
  f_equal. f_equal; apply map_eq; intros y.
  - specialize (Hi y x). unfold in_e in Hi. rewrite H1, H2 in Hi. done.
  - specialize (Ho x y). unfold out_e in Ho. rewrite H1, H2 in Ho. done.
Qed.

(** Assigning a well-formed graph ([Graph::operator=]) passes its checks and gives
    an equal graph, whatever order the vertices and edges are walked in. *)
Theorem assign_copies (ord : gset Z → list Z) src :
  (∀ s, ord s ≡ₚ elements s) → graph_wf src → Graph_assign ord src = Done src.
Proof.
  intros Hord Hg. unfold Graph_assign.
  assert (Hin : ∀ s x, x ∈ ord s ↔ x ∈ s) by (intros s x; by rewrite Hord, elem_of_elements).
  assert (Hcd : dom (copy_vertices src) = dom src) by apply dom_fmap_L.
  destruct (link_all (copy_edges_from ord src) (λ u, from_option v_to ∅ (src !! u)) (ord (dom src)) (copy_vertices src))
    as (g & Hrun & Hd & Ho & Hi).
  - intros x y. unfold out_e, copy_vertices. rewrite lookup_fmap. by destruct (src !! x).
  - intros x y. unfold in_e, copy_vertices. rewrite lookup_fmap. by destruct (src !! y).
  - intros g' u Hu Hdom. apply Hin, elem_of_dom in Hu as [v Hv]. unfold copy_edges_from. rewrite Hv. cbn [from_option].
    destruct (link_one (λ g w, match v_to v !! w with None => Crash invalid_access
        | Some r => _ ← verify (bool_decide (is_Some (g !! w))); Done (set_edge u w r g) end) u (v_to v) (ord (dom (v_to v))) g')
      as (g'' & Hrun & Hd & Ho & Hi).
    + rewrite Hdom, Hcd. by eapply elem_of_dom_2.
    + intros w [r Hr]%Hin%elem_of_dom. split; [|eauto]. rewrite Hdom, Hcd. apply (wf_target src u w Hg).
      unfold out_e. rewrite Hv. cbn. eauto.
    + intros h w r Hw Hh Hr. rewrite Hr. apply Hin in Hw.
      assert (Hwd : w ∈ dom h).
      { rewrite Hh, Hdom, Hcd. apply (wf_target src u w Hg). unfold out_e. rewrite Hv. cbn. eauto. }
      rewrite bool_decide_eq_true_2 by by apply elem_of_dom. done.
    + exists g''. split; [done|]. split; [done|]. split; intros x y; [rewrite Ho|rewrite Hi]; apply decide_ext; by rewrite Hin.
  - rewrite Hrun. f_equal. apply graph_ext.
    + intros x. rewrite Hd. unfold data_at, copy_vertices. rewrite lookup_fmap. by destruct (src !! x).
    + intros x y. rewrite Ho. unfold out_e. destruct (src !! x) as [v|] eqn:Hx; cbn; [|by case_decide].
      rewrite decide_True; [done|]. apply Hin. by eapply elem_of_dom_2.
    + intros x y. rewrite Hi, <-(gw_edge _ Hg). unfold out_e. destruct (src !! x) as [v|] eqn:Hx; cbn; [|by case_decide].
      rewrite decide_True; [done|]. apply Hin. by eapply elem_of_dom_2.
Qed.

Lemma assign_copies_witness : Graph_assign elements sample_g2 = Done sample_g2.
Proof. apply (assign_copies elements); [done|apply sample_g2_wf]. Defined.

(** ** Codecs of ids and of transaction data *)

#[export] Program Instance id_lawful : Lawful id_codec := {|
  valid v := 0 ≤ v < 2 ^ 64;
  enc v := low_bytes v 8;
|}.
Next Obligation. intros v s Hv Hs. exact (law_put (c:=uint_codec 8) v s Hv Hs). Qed.
Next Obligation.
  intros v s rest Hv Hs Hc. cbn beta in *. cbn [get id_codec int_codec].
  destruct (get_bytes_ok _ _ _ Hs Hc) as (s' & Hg & Hs' & Hc'). rewrite length_low_bytes in Hg. rewrite Hg.
  cbn [mbind result_bind]. exists s'. split; [|done]. do 2 f_equal. rewrite from_low_bytes. change (8 * Z.of_nat 8) with 64.
  rewrite Z.mod_small by done. unfold uwrap, swrap. change (64 - 1) with 63.
  rewrite Zminus_mod_idemp_l. rewrite <-(Z.mod_small v (2 ^ 64)) at 2 by done. f_equal. lia.
Qed.

Lemma count_valid n : Z.of_nat n < 2 ^ 31 → valid (int_codec 4) (Z.of_nat n).
Proof. intros Hn. unfold valid. cbn. lia. Qed.

(** What survives of a [TxnInfo]. *)
Definition sent_txn (ts : Z) (ti : TxnInfo) : TxnInfo := mkTxn (status_ ti) (txn_id_ ti) ts (servers_ ti) ∅.

Record txn_fits (ti : TxnInfo) : Prop := {
  tf_id : valid (uint_codec 8) (txn_id_ ti);
  tf_status : valid (int_codec 1) (status_ ti);
  tf_servers : valid servers_codec (servers_ ti);
}.

Definition enc_txn (ti : TxnInfo) : list Z :=
  enc (uint_codec 8) (txn_id_ ti) ++ enc (int_codec 1) (status_ ti) ++ enc servers_codec (servers_ ti).

Lemma put_txn_ok ti s :
  txn_fits ti → st_ok s → ∃ s', put_txn ti s = Done s' ∧ st_ok s' ∧ st_content s' = st_content s ++ (Some <$> enc_txn ti).
Proof.
  intros [Hi Hst Hse] Hs. unfold put_txn, enc_txn.
  destruct (law_put (c:=uint_codec 8) (txn_id_ ti) s Hi Hs) as (s1 & -> & Hs1 & Hc1). cbn [mbind result_bind].
  destruct (law_put (c:=int_codec 1) (status_ ti) s1 Hst Hs1) as (s2 & -> & Hs2 & Hc2). cbn [mbind result_bind].
  destruct (law_put (c:=servers_codec) (servers_ ti) s2 Hse Hs2) as (s3 & -> & Hs3 & Hc3).
  exists s3. split; [done|]. split; [done|]. by rewrite Hc3, Hc2, Hc1, !fmap_app, !app_assoc.
Qed.

Lemma get_txn_ok ts ti s rest :
  txn_fits ti → st_ok s → st_content s = (Some <$> enc_txn ti) ++ rest →
  ∃ s', get_txn ts s = Done (sent_txn ts ti, s') ∧ st_ok s' ∧ st_content s' = rest.
Proof.
  intros [Hi Hst Hse] Hs Hc. unfold get_txn, enc_txn in *. rewrite !fmap_app, <-!app_assoc in Hc.
  destruct (law_get (c:=uint_codec 8) _ s _ Hi Hs Hc) as (s1 & -> & Hs1 & Hc1). cbn [mbind result_bind].
  destruct (law_get (c:=int_codec 1) _ s1 _ Hst Hs1 Hc1) as (s2 & -> & Hs2 & Hc2). cbn [mbind result_bind].
  destruct (law_get (c:=servers_codec) _ s2 _ Hse Hs2 Hc2) as (s3 & -> & Hs3 & Hc3). cbn [mbind result_bind].
  exists s3. done.
Qed.

(** ** Round trip of a selected part *)

Section roundtrip.
Context (ord : gset Z → list Z) (Hord : ∀ s, ord s ≡ₚ elements s) (ts : Z).
Context (g : Graph) (Hg : graph_wf g) (ret_set : gset Z) (Hret : ret_set ⊆ dom g).

Record vertex_fits (v : Vertex) : Prop := {
  vf_txn : txn_fits (v_data v);
  vf_degree : Z.of_nat (size (v_to v)) < 2 ^ 31;
  vf_edges w r : v_to v !! w = Some r → 0 ≤ w < 2 ^ 64 ∧ -128 ≤ r < 128;
}.
Context (Hfits : ∀ u v, u ∈ ret_set → g !! u = Some v → vertex_fits v).

(** The edges of [v] inside the set, as a map and in the order sent. *)
Definition inside (v : Vertex) : gmap Z Z := filter (λ '(w, _), w ∈ ret_set) (v_to v).
Definition to_list (v : Vertex) : list (Z * Z) :=
  (λ w, (w, default 0 (v_to v !! w))) <$> filter (λ w, w ∈ ret_set) (ord (dom (v_to v))).

Lemma edges_within_ok u v : g !! u = Some v → edges_within ord g ret_set v = Done (to_list v).
Proof.
  intros Hv. unfold edges_within, to_list.
  edestruct (for_each_inv (λ to w, if decide (w ∈ ret_set) then
      match v_to v !! w, g !! w with
      | Some r, Some x => Done (to ++ [(txn_id_ (v_data x), r)])
      | _, _ => Crash invalid_access end else Done to)
    (λ seen to, to = (λ w, (w, default 0 (v_to v !! w))) <$> filter (λ w, w ∈ ret_set) seen) (ord (dom (v_to v))) [])
    as (to & Hrun & ->); [done| |exact Hrun].
  intros seen w rest to Hsplit ->. rewrite filter_app, filter_cons, filter_nil.
  destruct (decide (w ∈ ret_set)); [|eexists; split; [done|]; by rewrite app_nil_r].
  assert (Hw : w ∈ dom (v_to v)).
  { rewrite <-elem_of_elements, <-Hord, Hsplit. set_solver. }
  apply elem_of_dom in Hw as [r Hr]. rewrite Hr.
  assert (Hwd : w ∈ dom g) by (apply (wf_target g u w Hg); unfold out_e; rewrite Hv; cbn; eauto).
  apply elem_of_dom in Hwd as [x Hx]. rewrite Hx. eexists. split; [done|].
  assert (txn_id_ (v_data x) = w) as ->.
  { apply (gw_id _ Hg). unfold data_at. by rewrite Hx. }
  rewrite fmap_app. cbn. by rewrite Hr.
Qed.

Definition enc_vertex (u : Z) (v : Vertex) : list Z :=
  enc (uint_codec 8) u ++ enc_txn (v_data v) ++ enc (int_codec 4) (Z.of_nat (length (to_list v))) ++
  enc_all edge_codec (to_list v).

Lemma to_list_fits v : vertex_fits v →
  Z.of_nat (length (to_list v)) < 2 ^ 31 ∧ Forall (valid edge_codec) (to_list v).
Proof.
  intros [_ Hd He]. unfold to_list. split.
  - rewrite length_fmap. pose proof (length_filter (λ w, w ∈ ret_set) (ord (dom (v_to v)))) as Hl.
    assert (length (ord (dom (v_to v))) = size (v_to v)) by (rewrite Hord; apply size_dom). lia.
  - rewrite Forall_fmap, Forall_forall. intros w [_ Hw]%list_elem_of_filter. rewrite Hord, elem_of_elements in Hw.
    apply elem_of_dom in Hw as [r Hr]. cbn. rewrite Hr. cbn. destruct (He w r Hr). split; [done|]. cbn. split; lia.
Qed.

Lemma put_vertex_ok u v s :
  u ∈ ret_set → g !! u = Some v → st_ok s →
  ∃ s', put_vertex (txn_id_ (v_data v)) (v_data v) (to_list v) s = Done s' ∧ st_ok s' ∧
    st_content s' = st_content s ++ (Some <$> enc_vertex u v).
Proof.
  intros Hu Hv Hs. pose proof (Hfits u v Hu Hv) as Hf. destruct (to_list_fits v Hf) as [Hl He].
  assert (Hid : txn_id_ (v_data v) = u) by (apply (gw_id _ Hg); unfold data_at; by rewrite Hv).
  unfold put_vertex, enc_vertex. rewrite Hid. pose proof (tf_id _ (vf_txn _ Hf)) as Hidv. rewrite Hid in Hidv.
  destruct (law_put (c:=uint_codec 8) u s Hidv Hs) as (s1 & -> & Hs1 & Hc1). cbn [mbind result_bind].
  destruct (put_txn_ok (v_data v) s1 (vf_txn _ Hf) Hs1) as (s2 & -> & Hs2 & Hc2). cbn [mbind result_bind].
  destruct (law_put (c:=int_codec 4) _ s2 (count_valid _ Hl) Hs2) as (s3 & -> & Hs3 & Hc3). cbn [mbind result_bind].
  destruct (put_all_ok edge_codec (to_list v) s3 He Hs3) as (s4 & -> & Hs4 & Hc4). exists s4. split; [done|].
  split; [done|]. by rewrite Hc4, Hc3, Hc2, Hc1, !fmap_app, !app_assoc.
Qed.

Definition enc_vertices (us : list Z) : list Z := us ≫= λ u, from_option (enc_vertex u) [] (g !! u).

Lemma write_loop_ok us s :
  (∀ u, u ∈ us → u ∈ ret_set) → st_ok s →
  ∃ s', for_each (λ s u, match g !! u with None => Crash invalid_access
      | Some v => to ← edges_within ord g ret_set v; put_vertex (txn_id_ (v_data v)) (v_data v) to s end) us s = Done s' ∧
    st_ok s' ∧ st_content s' = st_content s ++ (Some <$> enc_vertices us).
Proof.
  revert s. induction us as [|u us IH]; intros s Hus Hs; cbn [for_each].
  { exists s. cbn. by rewrite app_nil_r. }
  assert (Hu : u ∈ ret_set) by (apply Hus; by left). pose proof (Hret u Hu) as [v Hv]%elem_of_dom. rewrite Hv.
  rewrite (edges_within_ok u v Hv). cbn [mbind result_bind].
  destruct (put_vertex_ok u v s Hu Hv Hs) as (s1 & -> & Hs1 & Hc1). cbn [mbind result_bind].
  destruct (IH s1) as (s2 & -> & Hs2 & Hc2); [intros u' ?; apply Hus; by right|done|]. exists s2. split; [done|].
  split; [done|]. rewrite Hc2, Hc1. unfold enc_vertices. rewrite bind_cons, Hv. cbn [from_option]. by rewrite fmap_app, app_assoc.
Qed.

Definition ref_of (us : list Z) (ref : Graph) : Graph :=
  foldl (λ ref u, <[u := Vertex_new (sent_txn ts (from_option v_data (TxnInfo_new u 0) (g !! u)))]> ref) ref us.
Definition add_edges (o : Z) (v_to : gmap Z (gmap Z Z)) (es : list (Z * Z)) : gmap Z (gmap Z Z) :=
  foldl (λ v_to '(ii, jj), <[o := or_at ii jj (default ∅ (v_to !! o))]> v_to) v_to es.
Definition v_to_of (us : list Z) (vt : gmap Z (gmap Z Z)) : gmap Z (gmap Z Z) :=
  foldl (λ vt u, add_edges u vt (from_option to_list [] (g !! u))) vt us.

Lemma get_vertices_ok us ref vt s rest :
  (∀ u, u ∈ us → u ∈ ret_set) → st_ok s → st_content s = (Some <$> enc_vertices us) ++ rest →
  ∃ s', get_vertices ts (length us) ref vt s = Done (ref_of us ref, v_to_of us vt, s') ∧ st_ok s' ∧ st_content s' = rest.
Proof.
  revert ref vt s. induction us as [|u us IH]; intros ref vt s Hus Hs Hc; cbn [get_vertices length].
  { exists s. done. }
  assert (Hu : u ∈ ret_set) by (apply Hus; by left). pose proof (Hret u Hu) as [v Hv]%elem_of_dom.
  pose proof (Hfits u v Hu Hv) as Hf. destruct (to_list_fits v Hf) as [Hl He].
  assert (Hid : txn_id_ (v_data v) = u) by (apply (gw_id _ Hg); unfold data_at; by rewrite Hv).
  pose proof (tf_id _ (vf_txn _ Hf)) as Hidu. rewrite Hid in Hidu. assert (Hidv : valid id_codec u) by exact Hidu.
  unfold enc_vertices in Hc. rewrite bind_cons, Hv in Hc. cbn [from_option] in Hc. unfold enc_vertex in Hc.
  rewrite !fmap_app, <-!app_assoc in Hc.
  destruct (law_get (c:=id_codec) u s _ Hidv Hs Hc) as (s1 & -> & Hs1 & Hc1). cbn [mbind result_bind].
  destruct (get_txn_ok ts (v_data v) s1 _ (vf_txn _ Hf) Hs1 Hc1) as (s2 & -> & Hs2 & Hc2). cbn [mbind result_bind].
  destruct (law_get (c:=int_codec 4) _ s2 _ (count_valid _ Hl) Hs2 Hc2) as (s3 & -> & Hs3 & Hc3). cbn [mbind result_bind]. rewrite Nat2Z.id.
  destruct (get_all_ok edge_codec (to_list v) s3 _ He Hs3 Hc3) as (s4 & -> & Hs4 & Hc4). cbn [mbind result_bind].
  destruct (IH (<[u := Vertex_new (sent_txn ts (v_data v))]> ref) (add_edges u vt (to_list v)) s4)
    as (s5 & Hrun & Hs5 & Hc5); [intros u' ?; apply Hus; by right|done|exact Hc4|].
  exists s5. split; [|done]. etrans; [exact Hrun|]. unfold ref_of, v_to_of. cbn [foldl]. by rewrite Hv.
Qed.

(** What the two tables hold after the reading loop. *)
Lemma ref_of_lookup us ref x :
  ref_of us ref !! x =
  if decide (x ∈ us) then Some (Vertex_new (sent_txn ts (from_option v_data (TxnInfo_new x 0) (g !! x)))) else ref !! x.
Proof.
  unfold ref_of. revert ref. induction us as [|u us IH]; intros ref; cbn [foldl].
  { by rewrite decide_False by apply not_elem_of_nil. }
  rewrite IH. destruct (decide (x ∈ us)) as [Hx|Hx]; [by rewrite decide_True by by right|].
  destruct (decide (x = u)) as [->|Hne].
  - rewrite lookup_insert_eq, decide_True by by left. done.
  - rewrite lookup_insert_ne, decide_False by (done || by intros [?|?]%elem_of_cons). done.
Qed.

Lemma add_edges_lookup o vt es o' w :
  NoDup es.*1 → (∀ w, w ∈ es.*1 → default ∅ (vt !! o) !! w = None) →
  default ∅ (add_edges o vt es !! o') !! w =
  if decide (o' = o ∧ w ∈ es.*1) then (list_to_map es : gmap Z Z) !! w else default ∅ (vt !! o') !! w.
Proof.
  unfold add_edges. revert vt. induction es as [|[k r] es IH]; intros vt Hnd Hfr; cbn [foldl fmap list_fmap fst].
  { rewrite decide_False; [done|]. intros [_ Hn]. by apply not_elem_of_nil in Hn. }
  cbn in Hnd. apply NoDup_cons in Hnd as [Hk Hnd]. rewrite IH; [|done|].
  - rewrite list_to_map_cons. destruct (decide (o' = o)) as [->|Hne].
    + rewrite lookup_insert_eq. cbn [default from_option id]. destruct (decide (w = k)) as [->|Hwk].
      * rewrite decide_False by tauto. rewrite decide_True by (split; [done|by left]).
        rewrite lookup_insert_eq. unfold or_at. rewrite lookup_insert_eq. f_equal.
        rewrite (Hfr k) by by left. done.
      * rewrite (lookup_insert_ne _ k) by done. unfold or_at. rewrite lookup_insert_ne by done.
        apply decide_ext. rewrite elem_of_cons. tauto.
    + rewrite !decide_False by tauto. by rewrite lookup_insert_ne.
  - intros w' Hw'. rewrite lookup_insert_eq. cbn. unfold or_at. rewrite lookup_insert_ne by congruence.
    apply Hfr. by right.
Qed.

Lemma add_edges_ne o vt es o' : o' ≠ o → add_edges o vt es !! o' = vt !! o'.
Proof.
  intros Hne. unfold add_edges. revert vt. induction es as [|[ii jj] es IH]; intros vt; cbn [foldl]; [done|].
  rewrite IH. by rewrite lookup_insert_ne.
Qed.

Lemma to_list_keys v : (to_list v).*1 = filter (λ w, w ∈ ret_set) (ord (dom (v_to v))).
Proof. unfold to_list. rewrite <-list_fmap_compose. apply list_fmap_id. Qed.

Lemma to_list_map v : (list_to_map (to_list v) : gmap Z Z) = inside v.
Proof.
  assert (Hnd : NoDup (to_list v).*1) by (rewrite to_list_keys; apply NoDup_filter; rewrite Hord; apply NoDup_elements).
  apply map_eq. intros w. apply option_eq. intros r. rewrite <-elem_of_list_to_map by done.
  unfold inside. rewrite map_lookup_filter_Some. unfold to_list. rewrite list_elem_of_fmap. split.
  - intros (w' & [= -> ->] & [Hw Hd]%list_elem_of_filter). rewrite Hord, elem_of_elements in Hd.
    apply elem_of_dom in Hd as [r Hr]. by rewrite Hr.
  - intros [Hr Hw]. exists w. rewrite Hr. split; [done|]. apply list_elem_of_filter. split; [done|].
    rewrite Hord, elem_of_elements. by eapply elem_of_dom_2.
Qed.

Lemma v_to_of_lookup us vt u w :
  NoDup us → (∀ u, u ∈ us → vt !! u = None) → (∀ u, u ∈ us → u ∈ dom g) →
  default ∅ (v_to_of us vt !! u) !! w =
  if decide (u ∈ us) then from_option inside ∅ (g !! u) !! w else default ∅ (vt !! u) !! w.
Proof.
  unfold v_to_of. revert vt. induction us as [|a us IH]; intros vt Hnd Hfr Hd; cbn [foldl].
  { by rewrite decide_False by apply not_elem_of_nil. }
  apply NoDup_cons in Hnd as [Ha Hnd]. destruct (elem_of_dom g a) as [Hav _].
  destruct (Hav (Hd a ltac:(by left))) as [v Hv]. rewrite Hv. cbn [from_option].
  assert (Hkeys : NoDup (to_list v).*1) by (rewrite to_list_keys; apply NoDup_filter; rewrite Hord; apply NoDup_elements).
  assert (Hemp : ∀ w, w ∈ (to_list v).*1 → default ∅ (vt !! a) !! w = None) by (intros w' _; by rewrite (Hfr a) by by left).
  rewrite IH; [|done| |intros u' ?; apply Hd; by right].
  - rewrite add_edges_lookup by done. destruct (decide (u ∈ us)) as [Hu|Hu].
    + by rewrite (decide_True (P := u ∈ a :: us)) by by right.
    + destruct (decide (u = a)) as [->|Hne].
      * rewrite (decide_True (P := a ∈ a :: us)) by by left. rewrite Hv. cbn [from_option]. rewrite to_list_map.
        case_decide as Hw; [done|]. rewrite (Hfr a) by by left. cbn. symmetry. rewrite <-to_list_map.
        apply not_elem_of_list_to_map_1. tauto.
      * rewrite !decide_False; [done|by intros [?|?]%elem_of_cons|tauto].
  - intros u' Hu'. rewrite add_edges_ne by congruence. apply Hfr. by right.
Qed.
End roundtrip.

(** ** Sending and receiving *)

Section send_receive.
Context (ord : gset Z → list Z) (Hord : ∀ s, ord s ≡ₚ elements s) (ts : Z).
Context (g : Graph) (Hg : graph_wf g) (ret_set : gset Z) (Hret : ret_set ⊆ dom g).
Context (Hfits : ∀ u v, u ∈ ret_set → g !! u = Some v → vertex_fits v).
Context (Hsize : Z.of_nat (size ret_set) < 2 ^ 31).

Definition enc_graph : list Z :=
  enc (int_codec 4) (Z.of_nat (size ret_set)) ++ enc_vertices ord g ret_set (ord ret_set).

Lemma write_to_marshal_ok s :
  st_ok s → ∃ s', write_to_marshal ord g ret_set s = Done s' ∧ st_ok s' ∧
    st_content s' = st_content s ++ (Some <$> enc_graph).
Proof.
  intros Hs. unfold write_to_marshal, enc_graph.
  destruct (law_put (c:=int_codec 4) _ s (count_valid _ Hsize) Hs) as (s1 & -> & Hs1 & Hc1). cbn [mbind result_bind].
  destruct (write_loop_ok ord Hord g Hg ret_set Hret Hfits (ord ret_set) s1) as (s2 & -> & Hs2 & Hc2); [|done|].
  - intros u. by rewrite Hord, elem_of_elements.
  - exists s2. split; [done|]. split; [done|]. by rewrite Hc2, Hc1, fmap_app, app_assoc.
Qed.

(** The tables of the reader. *)
Let ref : Graph := ref_of ts g (ord ret_set) ∅.
Let vt : gmap Z (gmap Z Z) := v_to_of ord g ret_set (ord ret_set) ∅.

Lemma in_ord u : u ∈ ord ret_set ↔ u ∈ ret_set.
Proof. by rewrite Hord, elem_of_elements. Qed.

Lemma ref_lookup x :
  ref !! x = if decide (x ∈ ret_set) then (λ v, Vertex_new (sent_txn ts (v_data v))) <$> g !! x else None.
Proof.
  unfold ref. rewrite ref_of_lookup, lookup_empty. rewrite (decide_ext _ (x ∈ ret_set)) by apply in_ord.
  case_decide as Hx; [|done]. apply Hret, elem_of_dom in Hx as [v Hv]. by rewrite Hv.
Qed.

Lemma ref_dom : dom ref = ret_set.
Proof.
  apply set_eq. intros x. rewrite elem_of_dom, ref_lookup. case_decide as Hx.
  - rewrite fmap_is_Some, <-elem_of_dom. split; [done|]. intros _. by apply Hret.
  - split; [by intros []|done].
Qed.

Lemma vt_lookup u w :
  default ∅ (vt !! u) !! w = if decide (u ∈ ret_set) then from_option (inside ret_set) ∅ (g !! u) !! w else None.
Proof.
  unfold vt. rewrite v_to_of_lookup.
  - rewrite (decide_ext _ (u ∈ ret_set)) by apply in_ord. case_decide; [done|]. by rewrite lookup_empty.
  - done.
  - rewrite Hord. apply NoDup_elements.
  - intros u' _. apply lookup_empty.
  - intros u' Hu'. by apply Hret, in_ord.
Qed.

Lemma vt_dom u : u ∈ dom vt → u ∈ ret_set.
Proof.
  unfold vt. intros Hu. apply in_ord. revert Hu. assert (Hgen : ∀ us vt0, u ∈ dom (v_to_of ord g ret_set us vt0) → u ∈ us ∨ u ∈ dom vt0).
  { unfold v_to_of. induction us as [|a us IH]; intros vt0; cbn [foldl]; [auto|]. intros [Hu|Hu]%IH; [left; by right|].
    destruct (decide (u = a)) as [->|Hne]; [left; by left|right]. apply elem_of_dom in Hu. rewrite add_edges_ne in Hu by done.
    by apply elem_of_dom. }
  intros [?|Hu]%Hgen; [done|]. by rewrite dom_empty in Hu; apply not_elem_of_empty in Hu.
Qed.

Lemma link_loop_ok :
  ∃ g', for_each (link_vertex vt) (sorted_ord (dom vt)) ref = Done g' ∧ (∀ x, data_at g' x = data_at ref x) ∧
    (∀ x y, out_e g' x y = default ∅ (vt !! x) !! y) ∧ (∀ x y, in_e g' x y = default ∅ (vt !! x) !! y).
Proof.
  assert (Hs : ∀ (X : gset Z) x, x ∈ sorted_ord X ↔ x ∈ X) by (intros X x; by rewrite (enumerates X), elem_of_elements).
  destruct (link_all (link_vertex vt) (λ u, default ∅ (vt !! u)) (sorted_ord (dom vt)) ref) as (g' & Hrun & Hd & Ho & Hi).
  - intros x y. unfold out_e. rewrite ref_lookup. case_decide; [|done]. by destruct (g !! x).
  - intros x y. unfold in_e. rewrite ref_lookup. case_decide; [|done]. by destruct (g !! y).
  - intros h u Hu Hdom. apply Hs, vt_dom in Hu. unfold link_vertex. rewrite ref_dom in Hdom.
    assert (Hin : ∀ w r, default ∅ (vt !! u) !! w = Some r → w ∈ ret_set).
    { intros w r. rewrite vt_lookup, decide_True by done. destruct (g !! u) as [v|]; cbn [from_option]; [|by rewrite lookup_empty].
      unfold inside. by intros [_ ?]%map_lookup_filter_Some. }
    edestruct (link_one (λ g to_o, match default ∅ (vt !! u) !! to_o, g !! to_o with
        | Some type, Some _ => Done (set_edge u to_o type g) | _, _ => Crash invalid_access end)
      u (default ∅ (vt !! u)) (sorted_ord (dom (default ∅ (vt !! u)))) h) as (h' & Hrun & Hd & Ho & Hi).
    + by rewrite Hdom.
    + intros w Hw. apply Hs, elem_of_dom in Hw as [r Hr]. split; [|eauto]. rewrite Hdom. by eapply Hin.
    + intros h' w r Hw Hh Hr. rewrite Hr. assert (Hwd : w ∈ dom h') by (rewrite Hh, Hdom; by eapply Hin).
      apply elem_of_dom in Hwd as [x ->]. done.
    + exists h'. split; [done|]. split; [done|]. split; intros x y; [rewrite Ho|rewrite Hi]; apply decide_ext; by rewrite Hs.
  - exists g'. split; [done|]. split; [done|].
    assert (Hn : ∀ x y, (if decide (x ∈ sorted_ord (dom vt)) then default ∅ (vt !! x) !! y else None) = default ∅ (vt !! x) !! y).
    { intros x y. case_decide as Hx; [done|]. rewrite Hs in Hx. apply not_elem_of_dom in Hx. by rewrite Hx. }
    split; intros x y; [rewrite Ho|rewrite Hi]; apply Hn.
Qed.

Lemma read_graph_ok s rest :
  ret_set ≠ ∅ → st_ok s → st_content s = (Some <$> enc_graph) ++ rest →
  ∃ g' s', read_graph ts s = Done (g', s') ∧ st_ok s' ∧ st_content s' = rest ∧
    (∀ u, data_at g' u = if decide (u ∈ ret_set) then sent_txn ts <$> data_at g u else None) ∧
    (∀ u w, out_e g' u w = if decide (u ∈ ret_set ∧ w ∈ ret_set) then out_e g u w else None) ∧
    graph_wf g'.
Proof.
  intros Hne Hs Hc. unfold read_graph, enc_graph in *. rewrite fmap_app, <-app_assoc in Hc.
  destruct (law_get (c:=int_codec 4) _ s _ (count_valid _ Hsize) Hs Hc) as (s1 & -> & Hs1 & Hc1). cbn [mbind result_bind].
  assert (Hpos : (0 < size ret_set)%nat).
  { destruct (decide (size ret_set = 0%nat)) as [H0|]; [|lia]. apply size_empty_inv in H0. by apply leibniz_equiv in H0. }
  rewrite bool_decide_eq_true_2 by lia. cbn [verify mbind result_bind]. rewrite Nat2Z.id.
  assert (Hlen : length (ord ret_set) = size ret_set) by by rewrite Hord.
  destruct (get_vertices_ok ord Hord ts g Hg ret_set Hret Hfits (ord ret_set) ∅ ∅ s1 rest) as (s2 & Hrun & Hs2 & Hc2); [|done|done|].
  { intros u. apply in_ord. }
  rewrite Hlen in Hrun. rewrite Hrun. cbn [mbind result_bind]. fold ref vt.
  assert (Hrs : size ref = size ret_set) by (rewrite <-size_dom, ref_dom; done).
  rewrite (bool_decide_eq_true_2 (Z.of_nat (size ref) = _)) by lia. cbn [verify mbind result_bind].
  destruct link_loop_ok as (g' & -> & Hd & Ho & Hi). cbn [mbind result_bind].
  assert (Hdom : dom g' = ret_set).
  { rewrite <-ref_dom. apply set_eq. intros x. by rewrite !data_at_dom, Hd. }
  rewrite bool_decide_eq_true_2 by (rewrite <-size_dom, Hdom; done). cbn [verify mbind result_bind].
  assert (Hout : ∀ u w, default ∅ (vt !! u) !! w = if decide (u ∈ ret_set ∧ w ∈ ret_set) then out_e g u w else None).
  { intros u w. rewrite vt_lookup. destruct (decide (u ∈ ret_set)) as [Hu|Hu]; [|by rewrite decide_False by tauto].
    unfold out_e. destruct (g !! u) as [v|]; cbn; [|by case_decide]. unfold inside. apply option_eq. intros r.
    rewrite map_lookup_filter_Some. case_decide; naive_solver. }
  assert (Hdata : ∀ u, data_at g' u = if decide (u ∈ ret_set) then sent_txn ts <$> data_at g u else None).
  { intros u. rewrite Hd. unfold data_at. rewrite ref_lookup. case_decide; [|done]. by destruct (g !! u). }
  exists g', s2. split; [done|]. split; [done|]. split; [done|]. split; [done|]. split.
  - intros u w. by rewrite Ho.
  - constructor.
    + intros u d. rewrite Hdata. case_decide; [|done]. destruct (data_at g u) as [d0|] eqn:Hd0; [|done]. cbn. intros [= <-].
      cbn. by apply (gw_id _ Hg).
    + intros u w. by rewrite Ho, Hi.
Qed.
End send_receive.

(** Sending a whole graph is sending the part that holds every vertex. *)
Lemma write_graph_all (ord : gset Z → list Z) g s :
  (∀ s, ord s ≡ₚ elements s) → graph_wf g → g ≠ ∅ → write_graph ord g s = write_to_marshal ord g (dom g) s.
Proof.
  intros Hord Hg Hne. unfold write_graph, write_to_marshal. rewrite size_dom.
  rewrite bool_decide_eq_true_2 by (destruct (decide (size g = 0%nat)) as [?%map_size_empty_inv|]; [done|lia]).
  cbn [verify mbind result_bind]. destruct (put (int_codec 4) (Z.of_nat (size g)) s) as [s1| |]; [|done..]. cbn [mbind result_bind].
  apply for_each_ext. intros s2 u Hu. destruct (g !! u) as [v|] eqn:Hv; [|done]. unfold edges_within.
  match goal with |- (for_each ?f _ _ ≫= _) = (for_each ?f' _ _ ≫= _) => rewrite (for_each_ext f f') end; [done|].
  intros to w Hw. rewrite Hord, elem_of_elements in Hw. apply elem_of_dom in Hw as [r Hr]. rewrite decide_True; [done|].
  apply (wf_target g u w Hg). unfold out_e. rewrite Hv. cbn. eauto.
Qed.

(** C30: the part of a dependency graph that a server sends with its start reply is
    read back by the receiver: the same transactions with their status and
    servers, exactly the edges between them, in a well-formed graph, and no byte is
    left over.  The timestamp [txn_ts_] is not sent: the receiver's copies hold whatever
    the new memory held. *)
Theorem graph_reply_roundtrip (ord : gset Z → list Z) ts g ret_set s :
  (∀ s, ord s ≡ₚ elements s) → graph_wf g → ret_set ⊆ dom g → ret_set ≠ ∅ →
  Z.of_nat (size ret_set) < 2 ^ 31 → (∀ u v, u ∈ ret_set → g !! u = Some v → vertex_fits v) →
  st_ok s → st_content s = [] →
  ∃ s1 g' s2, write_to_marshal ord g ret_set s = Done s1 ∧ read_graph ts s1 = Done (g', s2) ∧ st_content s2 = [] ∧
    (∀ u, data_at g' u = if decide (u ∈ ret_set) then sent_txn ts <$> data_at g u else None) ∧
    (∀ u w, out_e g' u w = if decide (u ∈ ret_set ∧ w ∈ ret_set) then out_e g u w else None) ∧
    graph_wf g'.
Proof.
  intros Hord Hg Hret Hne Hsize Hfits Hs Hc.
  destruct (write_to_marshal_ok ord Hord g Hg ret_set Hret Hfits Hsize s Hs) as (s1 & Hw & Hs1 & Hc1).
  rewrite Hc in Hc1. cbn in Hc1. rewrite <-(app_nil_r (Some <$> _)) in Hc1.
  destruct (read_graph_ok ord Hord ts g Hg ret_set Hret Hfits Hsize s1 [] Hne Hs1 Hc1) as (g' & s2 & Hr & _ & Hc2 & Hrest).
  exists s1, g', s2. done.
Qed.


Lemma sample_fits u v : u ∈ ({[1; 2]} : gset Z) → sample_g2 !! u = Some v → vertex_fits v.
Proof.
  intros Hu Hv.
  assert (Hall : map_Forall (λ _ v, 0 ≤ txn_id_ (v_data v) < 2 ^ 64 ∧ -128 ≤ status_ (v_data v) < 128 ∧
      servers_ (v_data v) = ∅ ∧ Z.of_nat (size (v_to v)) < 2 ^ 31 ∧
      map_Forall (λ w r, 0 ≤ w < 2 ^ 64 ∧ -128 ≤ r < 128) (v_to v)) sample_g2)
    by (apply (bool_decide_unpack _); vm_compute; exact I).
  destruct (Hall u v Hv) as (H1 & H2 & H3 & H4 & H5). constructor; [|done|exact H5].
  constructor; [exact H1|exact H2|]. rewrite H3. split; [vm_compute; reflexivity|]. intros x Hx. set_solver.
Qed.

Lemma graph_reply_roundtrip_witness :
  ∃ s1 g' s2, write_to_marshal elements sample_g2 {[1; 2]} (∅, Marshal_new) = Done s1 ∧
    read_graph 77 s1 = Done (g', s2) ∧ st_content s2 = [] ∧
    (∀ u, data_at g' u = if decide (u ∈ ({[1; 2]} : gset Z)) then sent_txn 77 <$> data_at sample_g2 u else None) ∧
    (∀ u w, out_e g' u w = if decide (u ∈ ({[1; 2]} : gset Z) ∧ w ∈ ({[1; 2]} : gset Z)) then out_e sample_g2 u w else None) ∧
    graph_wf g'.
Proof.
  apply (graph_reply_roundtrip elements 77 sample_g2 {[1; 2]} (∅, Marshal_new)).
  - done.
  - apply sample_g2_wf.
  - by apply (bool_decide_unpack _); vm_compute.
  - by apply (bool_decide_unpack _); vm_compute.
  - vm_compute. reflexivity.
  - apply sample_fits.
  - apply (marshal_ok_new ∅).
  - reflexivity.
Defined.
