(* ===== verification/ALock.v ===== *)
(** * Asynchronous locks: requests, callbacks, interface

    The part of src/rococo-dst/rrr/misc/alock.{hpp,cpp} that the lock classes share.
    A request carries an id, a priority (a lower value is a higher priority) and a
    type; a lock answers it later through one of its callbacks.  A callback is an
    [event]: the operations return the events in the order in which the code invokes
    the callbacks, and every operation invokes them after its last change of the
    lock, so that a client may treat them as run after the operation.  One operation
    looks at the lock once more behind its callbacks: [WaitDieALock::abort] checks
    [status_], which callbacks that use the lock may have changed.

    [ALock] states what a lock promises to [ALockGroup] in terms of the requests it
    holds, no such check among it; TimeoutLock.v discharges it. *)

From S2P Require Import Prelude.

(** ** Requests *)

(** [ALock::type_t], [ALock::status_t] *)
Inductive type_t := RLOCK | WLOCK.
Inductive status_t := FREE | WLOCKED | RLOCKED.

#[export] Instance type_t_eq_dec : EqDecision type_t.
Proof. solve_decision. Defined.
#[export] Instance status_t_eq_dec : EqDecision status_t.
Proof. solve_decision. Defined.

(** [yes_callback(id)], [no_callback()] of request [id], and [wound_callback()] of
    request [id] with the value it returned. *)
Inductive event := Yes (id : Z) | No (id : Z) | Wounded (id ret : Z).

#[export] Instance event_eq_dec : EqDecision event.
Proof. solve_decision. Defined.

(** [lock_req_t] of [WaitDieALock] and [WoundDieALock]; the callbacks of a request are
    named by its id. *)
Inductive lock_req_status_t := WAIT | LOCK.

#[export] Instance lock_req_status_t_eq_dec : EqDecision lock_req_status_t.
Proof. solve_decision. Defined.

Record lock_req_t := mkReq {
  id : Z;
  priority : Z;
  type : type_t;
  status : lock_req_status_t
}.

Definition set_status (st : lock_req_status_t) (r : lock_req_t) : lock_req_t :=
  mkReq (id r) (priority r) (type r) st.

(** [for (it = begin; it != end; it++) if (it->id == i) break;]: the requests before
    the one found, the request, and those behind it. *)
Fixpoint find_req (i : Z) (l : list lock_req_t) : option (list lock_req_t * lock_req_t * list lock_req_t) :=
  match l with
  | [] => None
  | r :: l =>
      if decide (id r = i) then Some ([], r, l)
      else '(pre, x, post) ← find_req i l; Some (r :: pre, x, post)
  end.

(** The leading read requests of a queue and the rest. *)
Fixpoint read_run (l : list lock_req_t) : list lock_req_t * list lock_req_t :=
  match l with
  | [] => ([], [])
  | r :: q =>
      match type r with
      | RLOCK => let '(run, rest) := read_run q in (r :: run, rest)
      | WLOCK => ([], l)
      end
  end.

(** [lock_req.type == t && lock_req.status == WAIT] *)
Definition waiting_as (t : type_t) (r : lock_req_t) : bool :=
  bool_decide (type r = t) && bool_decide (status r = WAIT).

Definition count_type (t : type_t) (l : list lock_req_t) : Z :=
  Z.of_nat (length (filter (λ r, type r = t) l)).

(** ** The interface *)

(** The requests a lock knows: their type and whether they are granted. *)
Abbreviation view := (gmap Z (type_t * bool)).

(** What a callback says about a waiting request. *)
Definition apply_event (v : view) (e : event) : option view :=
  match e with
  | Yes i => match v !! i with Some (t, false) => Some (<[i := (t, true)]> v) | _ => None end
  | No i => match v !! i with Some (_, false) => Some (delete i v) | _ => None end
  | Wounded _ _ => None
  end.

Fixpoint apply_events (v : view) (evs : list event) : option view :=
  match evs with
  | [] => Some v
  | e :: evs => v ← apply_event v e; apply_events v evs
  end.

(** The operations a client calls: [lock] returns the id of the new request and
    the callbacks run meanwhile, [abort] releases or withdraws a request and says
    whether the check [alock_late] follows its callbacks; [tick] lets time pass and at
    most one alarm go off. *)
Class ALock (S : Type) := {
  alock_lock : type_t → Z → S → result (S * Z * list event);
  alock_abort : Z → S → result (S * list event * bool);
  alock_late : S → bool;
  alock_tick : Z → S → result (S * list event);
  alock_wf : S → Prop;
  alock_view : S → view;
  alock_next : S → Z
}.

(** Number of requests after which ids could be reused. *)
Definition MAX_REQ : Z := 2 ^ 63 - 1.

(** What a lock promises: granted requests are compatible, a lock call adds one
    waiting request and an abort removes one, after which the callbacks account for
    every other change and nothing is checked; while a request waits another one is
    granted. *)
Class LawfulALock (S : Type) `{ALock S} := {
  alock_compat s i j t t' :
    alock_wf s → alock_view s !! i = Some (t, true) → alock_view s !! j = Some (t', true) →
    i ≠ j → t = RLOCK ∧ t' = RLOCK;
  alock_next_pos s : alock_wf s → 0 < alock_next s;
  alock_known s i x : alock_wf s → alock_view s !! i = Some x → 0 < i < alock_next s;
  alock_progress s i t :
    alock_wf s → alock_view s !! i = Some (t, false) → ∃ j t', alock_view s !! j = Some (t', true);
  alock_lock_ok t p s :
    alock_wf s → alock_next s < MAX_REQ →
    ∃ s' evs, alock_lock t p s = Done (s', alock_next s, evs) ∧ alock_wf s' ∧
      alock_next s' = alock_next s + 1 ∧
      apply_events (<[alock_next s := (t, false)]> (alock_view s)) evs = Some (alock_view s');
  alock_abort_ok i t s :
    alock_wf s → alock_view s !! i = Some (t, true) →
    ∃ s' evs, alock_abort i s = Done (s', evs, false) ∧ alock_wf s' ∧
      alock_next s' = alock_next s ∧
      apply_events (delete i (alock_view s)) evs = Some (alock_view s');
  alock_tick_ok d s :
    alock_wf s → 0 ≤ d →
    ∃ s' evs, alock_tick d s = Done (s', evs) ∧ alock_wf s' ∧
      alock_next s' = alock_next s ∧
      apply_events (alock_view s) evs = Some (alock_view s')
}.

(** ** Events *)

Definition answered (e : event) : option Z :=
  match e with Yes i | No i => Some i | Wounded _ _ => None end.

Lemma apply_events_app v e1 e2 :
  apply_events v (e1 ++ e2) = apply_events v e1 ≫= λ v, apply_events v e2.
Proof.
  revert v. induction e1 as [|e e1 IH]; intros v; [done|]. cbn.
  destruct (apply_event v e); cbn; auto.
Qed.

(** How often request [i] was answered, and whether it still waits. *)
Definition answers (i : Z) (evs : list event) : nat := length (filter (λ e, answered e = Some i) evs).

Definition waits (v : view) (i : Z) : nat :=
  match v !! i with Some (_, false) => 1 | _ => 0 end.

Lemma answers_cons i e evs :
  answers i (e :: evs) = ((if decide (answered e = Some i) then 1 else 0) + answers i evs)%nat.
Proof. unfold answers. rewrite filter_cons. by case_decide. Qed.

Lemma answers_app i e1 e2 : answers i (e1 ++ e2) = (answers i e1 + answers i e2)%nat.
Proof. unfold answers. by rewrite filter_app, length_app. Qed.

(** A callback answers one waiting request and says nothing about the others. *)
Lemma apply_event_Some v e v1 :
  apply_event v e = Some v1 →
  ∃ i, answered e = Some i ∧ waits v i = 1%nat ∧ waits v1 i = 0%nat ∧ ∀ j, j ≠ i → v1 !! j = v !! j.
Proof.
  unfold apply_event, waits. intros H. destruct e as [i|i|]; [| |done];
    exists i; destruct (v !! i) as [[t []]|]; simplify_eq; (split_and!; [done..| |]).
  - by rewrite lookup_insert_eq.
  - intros j Hj. by apply lookup_insert_ne.
  - by rewrite lookup_delete_eq.
  - intros j Hj. by apply lookup_delete_ne.
Qed.

Lemma apply_events_answers v evs v' i :
  apply_events v evs = Some v' → (answers i evs + waits v' i = waits v i)%nat.
Proof.
  revert v. induction evs as [|e evs IH]; intros v; cbn [apply_events]; [by intros [= <-]|].
  destruct (apply_event v e) as [v1|] eqn:E; [|done]. cbn [mbind option_bind]. intros Hev%IH.
  rewrite answers_cons. apply apply_event_Some in E as (j & -> & Hw & Hw1 & Hj).
  case_decide as Hij; simplify_eq; [lia|].
  assert (waits v1 i = waits v i); [|lia]. unfold waits. by rewrite Hj by congruence.
Qed.

(** Requests that do not wait are left alone. *)
Lemma apply_events_stable v evs v' j :
  apply_events v evs = Some v' → waits v j = 0%nat → v' !! j = v !! j.
Proof.
  revert v. induction evs as [|e evs IH]; intros v; cbn [apply_events]; [by intros [= <-]|].
  destruct (apply_event v e) as [v1|] eqn:E; [|done]. cbn [mbind option_bind]. intros Hev Hj.
  apply apply_event_Some in E as (i & _ & Hw & _ & Hoth).
  assert (v1 !! j = v !! j) as Hvj by (apply Hoth; congruence).
  rewrite <-Hvj. apply IH; [done|]. unfold waits in *. by rewrite Hvj.
Qed.

(** ** Queues *)

Lemma find_req_Some i l pre r post :
  find_req i l = Some (pre, r, post) → l = pre ++ r :: post ∧ id r = i ∧ Forall (λ x, id x ≠ i) pre.
Proof.
  revert pre. induction l as [|x l IH]; intros pre; cbn; [done|]. case_decide as Hx.
  - intros [= <- <- <-]. auto using Forall_nil_2.
  - destruct (find_req i l) as [[[pre' y] post']|]; [|done]. intros [= <- <- <-].
    destruct (IH _ eq_refl) as (-> & ? & ?). auto using Forall_cons_2.
Qed.

Lemma find_req_None i l : find_req i l = None → Forall (λ x, id x ≠ i) l.
Proof.
  induction l as [|x l IH]; cbn; [constructor|]. case_decide; [done|].
  destruct (find_req i l) as [[[? ?] ?]|]; [done|]. auto.
Qed.

Lemma find_req_is_Some i l : i ∈ id <$> l → is_Some (find_req i l).
Proof.
  intros Hi. destruct (find_req i l) eqn:E; [by eexists|].
  apply find_req_None in E. apply list_elem_of_fmap in Hi as (x & -> & Hx).
  rewrite Forall_forall in E. by apply E in Hx.
Qed.

Lemma read_run_spec l run rest :
  read_run l = (run, rest) →
  l = run ++ rest ∧ Forall (λ r, type r = RLOCK) run ∧ from_option (λ r, type r = WLOCK) True (head rest).
Proof.
  revert run rest. induction l as [|r l IH]; intros run rest; cbn; [by intros [= <- <-]|].
  destruct (type r) eqn:Ht; [|by intros [= <- <-]].
  destruct (read_run l) as [run' rest'] eqn:E. intros [= <- <-].
  destruct (IH _ _ eq_refl) as (-> & ? & ?). auto.
Qed.

Lemma count_type_app t l k : count_type t (l ++ k) = count_type t l + count_type t k.
Proof. unfold count_type. rewrite filter_app, length_app. lia. Qed.

Lemma count_type_cons t r l :
  count_type t (r :: l) = (if decide (type r = t) then 1 else 0) + count_type t l.
Proof. unfold count_type. rewrite filter_cons. case_decide; cbn; lia. Qed.

Lemma count_type_nil t : count_type t [] = 0.
Proof. done. Qed.

Lemma count_type_set_status t st l : count_type t (set_status st <$> l) = count_type t l.
Proof.
  induction l as [|r l IH]; [done|]. rewrite fmap_cons, !count_type_cons, IH. done.
Qed.

Lemma count_type_le t l : 0 ≤ count_type t l ≤ Z.of_nat (length l).
Proof. unfold count_type. pose proof (length_filter (λ r, type r = t) l). lia. Qed.

Lemma count_type_zero t l : count_type t l = 0 → Forall (λ r, type r ≠ t) l.
Proof.
  induction l as [|r l IH]; [constructor|]. rewrite count_type_cons.
  pose proof (count_type_le t l). case_decide; [lia|]. intros. constructor; [done|]. apply IH. lia.
Qed.

Lemma count_type_none t l : Forall (λ r, type r ≠ t) l → count_type t l = 0.
Proof.
  induction 1 as [|r l Hr _ IH]; [done|]. rewrite count_type_cons, decide_False by done. lia.
Qed.

#[export] Hint Rewrite count_type_app count_type_cons count_type_nil count_type_set_status : dst.

(** ** The requests of a queue as a view *)

Definition req_entry (r : lock_req_t) : Z * (type_t * bool) :=
  (id r, (type r, bool_decide (status r = LOCK))).

Definition queue_view (l : list lock_req_t) : view := list_to_map (req_entry <$> l).

Lemma queue_view_ids l : (req_entry <$> l).*1 = id <$> l.
Proof. by rewrite <-list_fmap_compose. Qed.

Lemma queue_view_Some l i x :
  NoDup (id <$> l) → queue_view l !! i = Some x ↔ ∃ r, r ∈ l ∧ req_entry r = (i, x).
Proof.
  intros Hnd. unfold queue_view. rewrite <-elem_of_list_to_map by by rewrite queue_view_ids.
  rewrite list_elem_of_fmap. naive_solver.
Qed.

Lemma queue_view_None l i : i ∉ id <$> l → queue_view l !! i = None.
Proof. intros Hi. apply not_elem_of_list_to_map_1. by rewrite queue_view_ids. Qed.

Lemma queue_view_ext l k :
  NoDup (id <$> l) → l ≡ₚ k → queue_view l = queue_view k.
Proof. intros Hnd Hp. apply list_to_map_proper; [by rewrite queue_view_ids|]. by rewrite Hp. Qed.

Lemma queue_view_snoc l r :
  NoDup (id <$> (l ++ [r])) → queue_view (l ++ [r]) = <[id r := (type r, bool_decide (status r = LOCK))]> (queue_view l).
Proof.
  intros Hnd. rewrite (queue_view_ext _ (r :: l)); [done|done|]. by rewrite Permutation_app_comm.
Qed.

Lemma queue_view_middle pre r post :
  NoDup (id <$> (pre ++ r :: post)) →
  queue_view (pre ++ r :: post) = <[id r := (type r, bool_decide (status r = LOCK))]> (queue_view (pre ++ post)).
Proof.
  intros Hnd. rewrite (queue_view_ext _ (r :: pre ++ post)); [done|done|]. by rewrite Permutation_middle.
Qed.

Lemma queue_view_delete pre r post :
  NoDup (id <$> (pre ++ r :: post)) → delete (id r) (queue_view (pre ++ r :: post)) = queue_view (pre ++ post).
Proof.
  intros Hnd. rewrite queue_view_middle by done. apply delete_insert_id. apply queue_view_None. intros Hin.
  rewrite fmap_app, fmap_cons, NoDup_app, NoDup_cons in Hnd. rewrite fmap_app, elem_of_app in Hin.
  destruct Hnd as (_ & Hd & Hn & _). destruct Hin as [Hin|Hin]; [|done].
  apply (Hd _ Hin). by left.
Qed.

(** Granting a run of waiting requests is what their yes callbacks announce. *)
Lemma set_status_ids st (l : list lock_req_t) : id <$> (set_status st <$> l) = id <$> l.
Proof. induction l as [|r l IH]; cbn; f_equal; auto. Qed.

Lemma apply_yes pre r post :
  NoDup (id <$> (pre ++ r :: post)) → status r = WAIT →
  apply_event (queue_view (pre ++ r :: post)) (Yes (id r)) = Some (queue_view (pre ++ set_status LOCK r :: post)).
Proof.
  intros Hnd Hw. rewrite (queue_view_middle pre (set_status LOCK r))
    by by rewrite fmap_app, ?fmap_cons in *.
  rewrite queue_view_middle by done. cbn.
  rewrite lookup_insert_eq, Hw, bool_decide_eq_false_2 by done. by rewrite insert_insert_eq.
Qed.

Lemma apply_no pre r post :
  NoDup (id <$> (pre ++ r :: post)) → status r = WAIT →
  apply_event (queue_view (pre ++ r :: post)) (No (id r)) = Some (queue_view (pre ++ post)).
Proof.
  intros Hnd Hw. rewrite <-(queue_view_delete pre r post) by done. rewrite queue_view_middle by done. cbn.
  rewrite lookup_insert_eq, Hw, bool_decide_eq_false_2 by done. done.
Qed.

Lemma apply_grants pre run rest :
  NoDup (id <$> (pre ++ run ++ rest)) → Forall (λ r, status r = WAIT) run →
  apply_events (queue_view (pre ++ run ++ rest)) (Yes ∘ id <$> run) =
    Some (queue_view (pre ++ (set_status LOCK <$> run) ++ rest)).
Proof.
  revert pre. induction run as [|r run IH]; intros pre Hnd Hw; [done|].
  apply Forall_cons in Hw as [Hr Hw]. rewrite fmap_cons. cbn [apply_events].
  cbn [app] in *. unfold compose at 1. rewrite apply_yes by done. cbn [mbind option_bind].
  rewrite (cons_middle _ pre (run ++ rest)), app_assoc.
  rewrite IH; [by rewrite <-app_assoc| |done].
  rewrite <-app_assoc. rewrite fmap_app in *. exact Hnd.
Qed.
