(* ===== verification/WaitDie.v ===== *)
(** * The wait-die lock

    Models [WaitDieALock] of src/rococo-dst/rrr/misc/alock.{hpp,cpp}: a queue of requests
    whose head, or whose leading run of readers, holds the lock.  A request that
    conflicts with the queue waits only if its priority is higher than that of every
    request it would wait for, and is turned away otherwise. *)

From S2P Require Import Prelude ALock.

#[local] Arguments uwrap : simpl never.
#[local] Arguments swrap : simpl never.

Record WaitDieALock := mkWD {
  next_id_ : Z;
  status_ : status_t;
  n_rlock_ : Z;
  done_ : bool;
  requests_ : list lock_req_t;
  n_r_in_queue_ : Z;
  n_w_in_queue_ : Z
}.

Definition WaitDieALock_new : WaitDieALock := mkWD 1 FREE 0 false [] 0 0.

(** ** Granting *)

(** [write_acquire(lock_req)], for the request [r] between [pre] and [post]. *)
Definition write_acquire (s : WaitDieALock) (pre : list lock_req_t) (r : lock_req_t) (post : list lock_req_t)
  : result (WaitDieALock * list event) :=
  _ ← verify (waiting_as WLOCK r);
  Done (mkWD (next_id_ s) WLOCKED (n_rlock_ s) (done_ s) (pre ++ set_status LOCK r :: post)
          (n_r_in_queue_ s) (n_w_in_queue_ s), [Yes (id r)]).

(** [read_acquire(lock_req)] *)
Definition read_acquire1 (s : WaitDieALock) (pre : list lock_req_t) (r : lock_req_t) (post : list lock_req_t)
  : result (WaitDieALock * list event) :=
  _ ← verify (waiting_as RLOCK r);
  Done (mkWD (next_id_ s) (if decide (n_rlock_ s = 0) then RLOCKED else status_ s) (i64 (n_rlock_ s + 1))
          (done_ s) (pre ++ set_status LOCK r :: post) (n_r_in_queue_ s) (n_w_in_queue_ s), [Yes (id r)]).

(** [read_acquire(lock_reqs)], for the requests [run] between [pre] and [rest]. *)
Definition read_acquire (s : WaitDieALock) (pre run rest : list lock_req_t)
  : result (WaitDieALock * list event) :=
  if decide (length run = 0%nat) then
    Done (mkWD (next_id_ s) (status_ s) (n_rlock_ s) (done_ s) (pre ++ run ++ rest)
            (n_r_in_queue_ s) (n_w_in_queue_ s), [])
  else
    _ ← verify (forallb (waiting_as RLOCK) run);
    Done (mkWD (next_id_ s) (if decide (n_rlock_ s = 0) then RLOCKED else status_ s)
            (i64 (n_rlock_ s + Z.of_nat (length run))) (done_ s)
            (pre ++ (set_status LOCK <$> run) ++ rest) (n_r_in_queue_ s) (n_w_in_queue_ s),
          Yes ∘ id <$> run).

(** ** [WaitDieALock::wait_die] *)

(** The loop of case [WLOCK] over the reversed queue; [true] is [WD_WAIT]. *)
Fixpoint wait_die_write (priority_ : Z) (rl : list lock_req_t) : bool :=
  match rl with
  | [] => true
  | r :: rl =>
      if decide (priority r ≤ priority_) then false
      else if decide (type r = WLOCK) then true
      else wait_die_write priority_ rl
  end.

Fixpoint wait_die_read (priority_ : Z) (rl : list lock_req_t) : result bool :=
  match rl with
  | [] => Crash assert_failed
  | r :: rl =>
      match type r with
      | WLOCK => Done (bool_decide (priority_ < priority r))
      | RLOCK => wait_die_read priority_ rl
      end
  end.

Definition wait_die (t : type_t) (priority_ : Z) (s : WaitDieALock) : result bool :=
  match t with
  | WLOCK => Done (wait_die_write priority_ (reverse (requests_ s)))
  | RLOCK => wait_die_read priority_ (reverse (requests_ s))
  end.

(** ** [WaitDieALock::vlock] *)

(** [requests_.emplace_back(...)] and the counter of its type. *)
Definition enqueue (s : WaitDieALock) (r : lock_req_t) : WaitDieALock :=
  mkWD (next_id_ s) (status_ s) (n_rlock_ s) (done_ s) (requests_ s ++ [r])
    (match type r with RLOCK => u64 (n_r_in_queue_ s + 1) | WLOCK => n_r_in_queue_ s end)
    (match type r with RLOCK => n_w_in_queue_ s | WLOCK => u64 (n_w_in_queue_ s + 1) end).

Definition can_acquire (t : type_t) (s : WaitDieALock) : bool :=
  bool_decide (status_ s = FREE) ||
  bool_decide (status_ s = RLOCKED) && bool_decide (t = RLOCK) && bool_decide (n_w_in_queue_ s = 0).

Definition vlock (t : type_t) (priority_ : Z) (s : WaitDieALock) : result (WaitDieALock * Z * list event) :=
  let i := next_id_ s in
  let s := mkWD (u64 (next_id_ s + 1)) (status_ s) (n_rlock_ s) (done_ s) (requests_ s)
             (n_r_in_queue_ s) (n_w_in_queue_ s) in
  if done_ s then Done (s, i, [No i])
  else if can_acquire t s then
    let r := mkReq i priority_ t WAIT in
    '(s, evs) ← (match t with
                  | RLOCK => read_acquire1 (enqueue s r) (requests_ s) r []
                  | WLOCK => write_acquire (enqueue s r) (requests_ s) r []
                  end);
    Done (s, i, evs)
  else
    wd ← wait_die t priority_ s;
    if (wd : bool) then Done (enqueue s (mkReq i priority_ t WAIT), i, [])
    else Done (s, i, [No i]).

(** ** [WaitDieALock::abort] *)

(** [requests_.erase(it)] and the counter of its type. *)
Definition dequeue (s : WaitDieALock) (pre : list lock_req_t) (it : lock_req_t) (post : list lock_req_t)
  : WaitDieALock :=
  mkWD (next_id_ s) (status_ s) (n_rlock_ s) (done_ s) (pre ++ post)
    (match type it with RLOCK => u64 (n_r_in_queue_ s - 1) | WLOCK => n_r_in_queue_ s end)
    (match type it with RLOCK => n_w_in_queue_ s | WLOCK => u64 (n_w_in_queue_ s - 1) end).

Definition set_lock_status (s : WaitDieALock) (st : status_t) (n : Z) : WaitDieALock :=
  mkWD (next_id_ s) st n (done_ s) (requests_ s) (n_r_in_queue_ s) (n_w_in_queue_ s).

(** A waiting request is withdrawn. *)
Definition abort_waiting (s : WaitDieALock) (pre : list lock_req_t) (it : lock_req_t) (post : list lock_req_t)
  : result (WaitDieALock * list event) :=
  let n_w_before_this := count_type WLOCK pre in
  let s := dequeue s pre it post in
  if decide (type it = WLOCK ∧ n_w_before_this = 0) then
    _ ← verify (bool_decide (status_ s = RLOCKED));
    let '(run, rest) := read_run post in
    '(s, evs) ← read_acquire s pre run rest;
    Done (s, evs ++ [No (id it)])
  else Done (s, [No (id it)]).

(** A granted request is released.  [true]: behind the callbacks of the readers that
    were let in comes [verify(status_ == RLOCKED)]. *)
Definition abort_granted (s : WaitDieALock) (pre : list lock_req_t) (it : lock_req_t) (post : list lock_req_t)
  : result (WaitDieALock * list event * bool) :=
  let s := dequeue s pre it post in
  match type it with
  | RLOCK =>
      let s := set_lock_status s (status_ s) (i64 (n_rlock_ s - 1)) in
      if decide (n_rlock_ s = 0) then
        match post with
        | [] =>
            _ ← verify (bool_decide (length (requests_ s) = 0%nat));
            Done (set_lock_status s FREE (n_rlock_ s), [], false)
        | nx :: post => '(s, evs) ← write_acquire s pre nx post; Done (s, evs, false)
        end
      else Done (s, [], false)
  | WLOCK =>
      match post with
      | [] =>
          _ ← verify (bool_decide (length (requests_ s) = 0%nat));
          Done (set_lock_status s FREE (n_rlock_ s), [], false)
      | nx :: post' =>
          match type nx with
          | WLOCK => '(s, evs) ← write_acquire s pre nx post'; Done (s, evs, false)
          | RLOCK =>
              let '(run, rest) := read_run post in
              '(s, evs) ← read_acquire s pre run rest;
              Done (s, evs, true)
          end
      end
  end.

Definition abort (i : Z) (s : WaitDieALock) : result (WaitDieALock * list event * bool) :=
  if done_ s then Done (s, [], false)
  else
    match find_req i (requests_ s) with
    | None => Done (s, [], false)
    | Some (pre, it, post) =>
        match status it with
        | WAIT => '(s, evs) ← abort_waiting s pre it post; Done (s, evs, false)
        | LOCK => abort_granted s pre it post
        end
    end.

(** The check behind the callbacks of [abort]. *)
Definition late_check (s : WaitDieALock) : bool := bool_decide (status_ s = RLOCKED).

(** [~WaitDieALock] *)
Definition destroy (s : WaitDieALock) : result (WaitDieALock * list event) :=
  _ ← verify (negb (done_ s));
  _ ← verify (bool_decide (status_ s ≠ RLOCKED));
  Done (mkWD (next_id_ s) (status_ s) (n_rlock_ s) true [] (n_r_in_queue_ s) (n_w_in_queue_ s),
        No ∘ id <$> filter (λ r, status r = WAIT) (requests_ s)).

(** ** [WaitDieALock::sanity_check] *)

Record check := mkCheck {
  acquired_check : bool; big : Z; tmp_big : Z; n_r_locked : Z; num_w : Z; num_r : Z
}.

(** The first [if] of the loop body: who holds the lock. *)
Definition check_granted (s : WaitDieALock) (is_begin : bool) (r : lock_req_t) (c : check) : result (bool * Z) :=
  if acquired_check c then
    _ ← verify (bool_decide (status r = WAIT)); Done (true, n_r_locked c)
  else if decide (status_ s = WLOCKED) then
    _ ← verify is_begin;
    _ ← verify (bool_decide (type r = WLOCK));
    _ ← verify (bool_decide (status r = LOCK));
    Done (true, n_r_locked c)
  else
    _ ← verify (bool_decide (status_ s = RLOCKED));
    match type r with
    | RLOCK => _ ← verify (bool_decide (status r = LOCK)); Done (false, n_r_locked c + 1)
    | WLOCK =>
        _ ← verify (bool_decide (status r = WAIT));
        _ ← verify (bool_decide (n_r_locked c = n_rlock_ s));
        Done (true, n_r_locked c)
    end.

(** The rest of the loop body: the priorities. *)
Definition check_priority (r : lock_req_t) (c : check) : result check :=
  _ ← verify (bool_decide (big c > priority r));
  match type r with
  | RLOCK =>
      let tmp := if decide (tmp_big c = -1) then priority r
                 else if decide (tmp_big c > priority r) then priority r else tmp_big c in
      Done (mkCheck (acquired_check c) (big c) tmp (n_r_locked c) (num_w c) (num_r c + 1))
  | WLOCK =>
      if decide (tmp_big c = -1) then
        Done (mkCheck (acquired_check c) (priority r) (tmp_big c) (n_r_locked c) (num_w c + 1) (num_r c))
      else
        _ ← verify (bool_decide (tmp_big c > priority r));
        Done (mkCheck (acquired_check c) (tmp_big c) (-1) (n_r_locked c) (num_w c + 1) (num_r c))
  end.

Definition check_req (s : WaitDieALock) (bc : bool * check) (r : lock_req_t) : result (bool * check) :=
  let '(is_begin, c) := bc in
  '(acq, n) ← check_granted s is_begin r c;
  c ← check_priority r (mkCheck acq (big c) (tmp_big c) n (num_w c) (num_r c));
  Done (false, c).

Definition INT64_MAX : Z := 2 ^ 63 - 1.

Definition sanity_check (s : WaitDieALock) : result unit :=
  _ ← verify (bool_decide (status_ s = FREE → length (requests_ s) = 0%nat));
  '(_, c) ← for_each (check_req s) (requests_ s) (true, mkCheck false INT64_MAX (-1) 0 0 0);
  _ ← verify (bool_decide (num_w c = n_w_in_queue_ s));
  verify (bool_decide (num_r c = n_r_in_queue_ s)).

(** ** Well-formed locks *)

(** Who holds the lock: nobody, the writer at the head, or the leading readers. *)
Inductive shape : status_t → Z → list lock_req_t → Prop :=
  | shape_free : shape FREE 0 []
  | shape_write r q :
      type r = WLOCK → status r = LOCK → Forall (λ r, status r = WAIT) q → shape WLOCKED 0 (r :: q)
  | shape_read run q :
      run ≠ [] → Forall (λ r, type r = RLOCK ∧ status r = LOCK) run → Forall (λ r, status r = WAIT) q →
      from_option (λ r, type r = WLOCK) True (head q) →
      shape RLOCKED (Z.of_nat (length run)) (run ++ q).

Definition conflict (a b : lock_req_t) : Prop := type a = WLOCK ∨ type b = WLOCK.

(** A request waits only for requests of a lower priority. *)
Definition before (a b : lock_req_t) : Prop := conflict a b → priority b < priority a.

(** What does not depend on who is granted. *)
Record queue_ok (next : Z) (l : list lock_req_t) : Prop := mkQueueOk {
  qo_len : Z.of_nat (length l) < next;
  qo_ids : NoDup (id <$> l);
  qo_known : Forall (λ r, 0 < id r < next) l;
  qo_order : StronglySorted before l
}.

Record wf (s : WaitDieALock) : Prop := mkWf {
  wf_done : done_ s = false;
  wf_next : 1 ≤ next_id_ s ≤ MAX_REQ;
  wf_queue : queue_ok (next_id_ s) (requests_ s);
  wf_shape : shape (status_ s) (n_rlock_ s) (requests_ s);
  wf_nr : n_r_in_queue_ s = count_type RLOCK (requests_ s);
  wf_nw : n_w_in_queue_ s = count_type WLOCK (requests_ s)
}.

(** ** Queues up to the status of the requests *)

Definition same_reqs (l k : list lock_req_t) : Prop :=
  Forall2 (λ a b, id a = id b ∧ priority a = priority b ∧ type a = type b) l k.

Lemma same_reqs_refl l : same_reqs l l.
Proof. induction l; constructor; auto. Qed.

Lemma same_reqs_set st l : same_reqs l (set_status st <$> l).
Proof. induction l; constructor; auto. Qed.

Lemma same_reqs_run pre run rest : same_reqs (pre ++ run ++ rest) (pre ++ (set_status LOCK <$> run) ++ rest).
Proof.
  apply Forall2_app; [apply same_reqs_refl|].
  apply Forall2_app; [apply same_reqs_set|apply same_reqs_refl].
Qed.

Lemma same_reqs_one pre r post : same_reqs (pre ++ r :: post) (pre ++ set_status LOCK r :: post).
Proof. apply (same_reqs_run pre [r] post). Qed.

Lemma same_reqs_count t l k : same_reqs l k → count_type t k = count_type t l.
Proof. induction 1 as [|a b l k (_ & _ & E) _ IH]; [done|]. rewrite !count_type_cons, IH, E. done. Qed.

Lemma same_reqs_ids l k : same_reqs l k → id <$> k = id <$> l.
Proof. induction 1 as [|a b l k (E & _) _ IH]; [done|]. by rewrite !fmap_cons, IH, E. Qed.

Lemma same_reqs_queue n l k : same_reqs l k → queue_ok n l → queue_ok n k.
Proof.
  intros Hs [Hl Hi Hk Ho]. constructor.
  - by rewrite <-(Forall2_length _ _ _ Hs).
  - by rewrite (same_reqs_ids l).
  - clear -Hs Hk. induction Hs as [|a b l k (E & _) _ IH]; [done|].
    apply Forall_cons in Hk as [? ?]. constructor; [by rewrite <-E|auto].
  - clear -Hs Ho. induction Hs as [|a b l k (E1 & E2 & E3) Hs IH]; [constructor|].
    apply StronglySorted_inv in Ho as [Ho Hf]. constructor; [auto|].
    clear -Hs Hf E2 E3. induction Hs as [|a' b' l k (_ & E2' & E3') Hs IH]; [constructor|].
    apply Forall_cons in Hf as [Hb Hf]. constructor; [|auto].
    unfold before, conflict in *. rewrite <-E2, <-E3, <-E2', <-E3'. done.
Qed.

Lemma sorted_snoc l r : StronglySorted before l → Forall (λ a, before a r) l → StronglySorted before (l ++ [r]).
Proof.
  induction 1 as [|a l Hs IH Hf]; intros Ha; [repeat constructor|]. apply Forall_cons in Ha as [? ?].
  cbn. constructor; [auto|]. apply Forall_app_2; auto.
Qed.

Lemma sorted_middle pre r post : StronglySorted before (pre ++ r :: post) → StronglySorted before (pre ++ post).
Proof.
  induction pre as [|a pre IH]; cbn; intros [Hs Hf]%StronglySorted_inv; [done|].
  constructor; [auto|]. rewrite Forall_app, Forall_cons in Hf. apply Forall_app; tauto.
Qed.

Lemma wd_queue_ok_snoc n l r :
  queue_ok n l → id r = n → 1 ≤ n → Forall (λ a, before a r) l → queue_ok (n + 1) (l ++ [r]).
Proof.
  intros [Hl Hi Hk Ho] Hr Hn Hb. constructor.
  - rewrite length_app. cbn. lia.
  - rewrite fmap_app, NoDup_app. split_and!; [done| |apply NoDup_singleton].
    intros i (x & -> & Hx)%list_elem_of_fmap Hin%list_elem_of_singleton.
    rewrite Forall_forall in Hk. apply Hk in Hx. lia.
  - apply Forall_app. split; [|repeat constructor; lia]. eapply Forall_impl; [exact Hk|]. cbn. lia.
  - by apply sorted_snoc.
Qed.

Lemma queue_ok_middle n pre r post : queue_ok n (pre ++ r :: post) → queue_ok n (pre ++ post).
Proof.
  intros [Hl Hi Hk Ho]. constructor.
  - rewrite length_app in *. cbn in Hl. lia.
  - rewrite fmap_app, fmap_cons in Hi. rewrite fmap_app. apply NoDup_app in Hi as (H1 & H2 & H3).
    apply NoDup_cons in H3 as [? ?]. apply NoDup_app. split_and!; [done| |done].
    intros i Hi1 Hi2. apply (H2 i Hi1). by right.
  - rewrite Forall_app, Forall_cons in Hk. apply Forall_app; tauto.
  - by eapply sorted_middle.
Qed.

Lemma queue_ok_weaken n m l : queue_ok n l → n ≤ m → queue_ok m l.
Proof.
  intros [? ? Hk ?] ?. constructor; auto; [lia|]. eapply Forall_impl; [exact Hk|]. cbn. lia.
Qed.

(** ** The decision to wait *)

Lemma sorted_last l x :
  StronglySorted before (l ++ [x]) → StronglySorted before l ∧ Forall (λ a, before a x) l.
Proof.
  intros Hs. split.
  - rewrite <-(app_nil_r l). by eapply sorted_middle.
  - induction l as [|a l IH]; [constructor|]. cbn in Hs. apply StronglySorted_inv in Hs as [Hs Hf].
    rewrite Forall_app, Forall_singleton in Hf. constructor; [tauto|auto].
Qed.

Lemma wait_die_write_true p l :
  StronglySorted before l → wait_die_write p (reverse l) = true → Forall (λ a, p < priority a) l.
Proof.
  induction l as [|x l IH] using rev_ind; intros Hs; [constructor|].
  apply sorted_last in Hs as [Hs Hf]. rewrite reverse_snoc. cbn.
  case_decide as Hp; [done|]. intros Hw. apply Forall_app. split; [|repeat constructor; lia].
  case_decide as Ht; [|auto].
  eapply Forall_impl; [exact Hf|]. intros a Ha. cbn in *.
  unfold before, conflict in Ha. specialize (Ha (or_intror Ht)). lia.
Qed.

Lemma wait_die_read_Done p l :
  StronglySorted before l → count_type WLOCK l ≠ 0 →
  ∃ b, wait_die_read p (reverse l) = Done b ∧
    (b = true → Forall (λ a, type a = WLOCK → p < priority a) l).
Proof.
  induction l as [|x l IH] using rev_ind; intros Hs Hc; [done|].
  apply sorted_last in Hs as [Hs Hf]. rewrite reverse_snoc. cbn.
  rewrite count_type_app, count_type_cons, count_type_nil in Hc. destruct (type x) eqn:Ht.
  - rewrite decide_False in Hc by congruence. destruct IH as (b & -> & Hb); [done|lia|]. exists b. split; [done|]. intros Htrue.
    apply Forall_app. split; [auto|]. repeat constructor. congruence.
  - eexists. split; [done|]. intros Hp%bool_decide_eq_true. apply Forall_app. split; [|by repeat constructor].
    eapply Forall_impl; [exact Hf|]. intros a Ha _. unfold before, conflict in Ha. specialize (Ha (or_intror Ht)). lia.
Qed.

(** ** Shapes *)

Lemma shape_count_zero st n l : shape st n l → st = RLOCKED → count_type WLOCK l = 0 → Forall (λ r, type r = RLOCK ∧ status r = LOCK) l ∧ n = Z.of_nat (length l).
Proof.
  intros [| |run q Hne Hrun Hq Hh] Hst Hc; [done..|].
  destruct q as [|x q]; cbn in Hh.
  - by rewrite !app_nil_r.
  - rewrite count_type_app, count_type_cons in Hc. rewrite decide_True in Hc by done.
    pose proof (count_type_le WLOCK run). pose proof (count_type_le WLOCK q). lia.
Qed.

(** A waiting request may join the queue unless it could be granted at once. *)
Lemma shape_snoc st n l r :
  shape st n l → st ≠ FREE → status r = WAIT →
  (st = RLOCKED → type r = RLOCK → count_type WLOCK l ≠ 0) → shape st n (l ++ [r]).
Proof.
  intros [|r' q Ht Hs Hq|run q Hne Hrun Hq Hh] Hst Hr Hc; [done| |].
  - cbn. constructor; [done..|]. apply Forall_app. auto.
  - rewrite <-app_assoc. constructor; [done..| |].
    + apply Forall_app. auto.
    + destruct q as [|x q]; [|done]. cbn. destruct (type r) eqn:Htr; [|done]. exfalso. apply Hc; [done..|].
      rewrite app_nil_r. apply count_type_none. eapply Forall_impl; [exact Hrun|]. cbn. intros x [? _]. congruence.
Qed.

Lemma shape_read_snoc n l r :
  shape RLOCKED n l → count_type WLOCK l = 0 → type r = RLOCK → status r = LOCK →
  shape RLOCKED (n + 1) (l ++ [r]).
Proof.
  intros Hs Hc Ht Hst. destruct (shape_count_zero _ _ _ Hs eq_refl Hc) as [Hall ->].
  replace (Z.of_nat (length l) + 1) with (Z.of_nat (length (l ++ [r]))) by (rewrite length_app; cbn; lia).
  pose proof (shape_read (l ++ [r]) []) as H. rewrite app_nil_r in H.
  apply H; [by destruct l| |constructor|done].
  apply Forall_app. auto.
Qed.

(** ** Lock requests *)

Lemma new_ids s r : wf s → id r = next_id_ s → NoDup (id <$> requests_ s ++ [r]).
Proof.
  intros Hwf Hr. destruct (wf_queue _ Hwf) as [_ Hi Hk _]. rewrite fmap_app, NoDup_app.
  split_and!; [done| |apply NoDup_singleton].
  intros i (x & -> & Hx)%list_elem_of_fmap Hin%list_elem_of_singleton.
  rewrite Forall_forall in Hk. apply Hk in Hx. lia.
Qed.

Lemma wd_new_view s t p :
  wf s → <[next_id_ s := (t, false)]> (queue_view (requests_ s)) = queue_view (requests_ s ++ [mkReq (next_id_ s) p t WAIT]).
Proof.
  intros Hwf. by rewrite queue_view_snoc by by apply new_ids.
Qed.

Lemma wf_count_bound s t : wf s → 0 ≤ count_type t (requests_ s) < MAX_REQ.
Proof.
  intros Hwf. pose proof (count_type_le t (requests_ s)). pose proof (qo_len _ _ (wf_queue _ Hwf)).
  pose proof (wf_next _ Hwf). lia.
Qed.

Lemma shape_n_bound st n l : shape st n l → 0 ≤ n ≤ Z.of_nat (length l).
Proof. intros [| |]; cbn; rewrite ?length_app; lia. Qed.

(** A lock with one more request. *)
Definition pushed (s : WaitDieALock) (st : status_t) (n : Z) (r : lock_req_t) : WaitDieALock :=
  mkWD (next_id_ s + 1) st n false (requests_ s ++ [r])
    (count_type RLOCK (requests_ s ++ [r])) (count_type WLOCK (requests_ s ++ [r])).

Lemma pushed_wf s st n r :
  wf s → next_id_ s < MAX_REQ → id r = next_id_ s → Forall (λ a, before a r) (requests_ s) →
  shape st n (requests_ s ++ [r]) → wf (pushed s st n r).
Proof.
  intros Hwf Hlt Hid Hb Hs. pose proof (wf_next _ Hwf). constructor; cbn; auto; [lia|].
  apply wd_queue_ok_snoc; auto; [apply Hwf|lia].
Qed.

Lemma enqueue_eq s i p t st n :
  wf s → next_id_ s < MAX_REQ →
  enqueue (mkWD (u64 (next_id_ s + 1)) st n (done_ s) (requests_ s) (n_r_in_queue_ s) (n_w_in_queue_ s)) (mkReq i p t WAIT)
  = pushed s st n (mkReq i p t WAIT).
Proof.
  intros Hwf Hlt. pose proof (wf_next _ Hwf). pose proof (wf_count_bound s RLOCK Hwf). pose proof (wf_count_bound s WLOCK Hwf).
  unfold enqueue, pushed. cbn. rewrite (wf_nr _ Hwf), (wf_nw _ Hwf), (wf_done _ Hwf).
  rewrite !count_type_app, !count_type_cons, !count_type_nil. unfold MAX_REQ in *. cbn.
  rewrite (u64_small (next_id_ s + 1)) by lia.
  destruct t; rewrite ?u64_small by lia; f_equal; repeat case_decide; (done || lia).
Qed.

Lemma vlock_eq t p s :
  wf s → next_id_ s < MAX_REQ →
  vlock t p s =
    let r := mkReq (next_id_ s) p t WAIT in
    let s' := pushed s (status_ s) (n_rlock_ s) r in
    if can_acquire t s then
      '(s1, evs) ← (match t with
                     | RLOCK => read_acquire1 s' (requests_ s) r []
                     | WLOCK => write_acquire s' (requests_ s) r []
                     end);
      Done (s1, next_id_ s, evs)
    else
      wd ← wait_die t p s;
      if (wd : bool) then Done (s', next_id_ s, [])
      else Done (mkWD (next_id_ s + 1) (status_ s) (n_rlock_ s) false (requests_ s)
                   (n_r_in_queue_ s) (n_w_in_queue_ s), next_id_ s, [No (next_id_ s)]).
Proof.
  intros Hwf Hlt. pose proof (wf_next _ Hwf) as Hn. unfold vlock. cbn zeta.
  cbn [done_ requests_ status_ n_rlock_ n_r_in_queue_ n_w_in_queue_ next_id_].
  rewrite enqueue_eq by done. rewrite (wf_done _ Hwf). rewrite u64_small by (unfold MAX_REQ in *; lia). done.
Qed.

(** A request that is granted at once. *)
Lemma vlock_grant t p s :
  wf s → next_id_ s < MAX_REQ → can_acquire t s = true →
  ∃ st n, vlock t p s = Done (pushed s st n (mkReq (next_id_ s) p t LOCK), next_id_ s, [Yes (next_id_ s)]) ∧
    Forall (λ a, before a (mkReq (next_id_ s) p t LOCK)) (requests_ s) ∧
    shape st n (requests_ s ++ [mkReq (next_id_ s) p t LOCK]).
Proof.
  intros Hwf Hlt Hca. pose proof (wf_next _ Hwf) as Hn. pose proof (wf_shape _ Hwf) as Hsh.
  pose proof (qo_len _ _ (wf_queue _ Hwf)) as Hlen. pose proof (shape_n_bound _ _ _ Hsh) as Hb.
  unfold MAX_REQ in *.
  assert (∃ st n, vlock t p s = Done (pushed s st n (mkReq (next_id_ s) p t LOCK), next_id_ s, [Yes (next_id_ s)]) ∧
            match t with
            | RLOCK => st = (if decide (n_rlock_ s = 0) then RLOCKED else status_ s) ∧ n = n_rlock_ s + 1
            | WLOCK => st = WLOCKED ∧ n = n_rlock_ s
            end) as (st & n & Heq & Hst).
  { rewrite vlock_eq by done. cbn zeta. rewrite Hca. destruct t; cbn.
    - eexists _, (n_rlock_ s + 1). split; [|split; reflexivity]. unfold read_acquire1, pushed. cbn.
      rewrite i64_small by lia. rewrite !count_type_app, !count_type_cons. done.
    - eexists _, _. split; [|split; reflexivity]. unfold write_acquire, pushed. cbn. rewrite !count_type_app, !count_type_cons. done. }
  exists st, n. split; [done|]. clear Heq.
  unfold can_acquire in Hca. rewrite (wf_nw _ Hwf) in Hca.
  destruct (status_ s) eqn:Est; cbn in Hca; [|done|].
  - inversion Hsh as [Hf Hn0 Hl| |]. split; [constructor|].
    destruct t, Hst as [-> ->]; cbn.
    + rewrite <-Hn0. apply (shape_read [_] []); repeat constructor. done.
    + rewrite <-Hn0. by repeat constructor.
  - apply andb_true_iff in Hca as [Ht%bool_decide_eq_true Hw%bool_decide_eq_true]. subst t.
    destruct Hst as [-> ->]. split.
    + apply count_type_zero in Hw. eapply Forall_impl; [exact Hw|]. intros a Ha [Hc|Hc]; done.
    + case_decide; by apply shape_read_snoc.
Qed.

(** A request that cannot be granted waits behind requests of lower priority, or
    is turned away. *)
Lemma vlock_wait t p s :
  wf s → next_id_ s < MAX_REQ → can_acquire t s = false →
  (vlock t p s = Done (pushed s (status_ s) (n_rlock_ s) (mkReq (next_id_ s) p t WAIT), next_id_ s, []) ∧
   Forall (λ a, before a (mkReq (next_id_ s) p t WAIT)) (requests_ s) ∧
   shape (status_ s) (n_rlock_ s) (requests_ s ++ [mkReq (next_id_ s) p t WAIT])) ∨
  vlock t p s = Done (mkWD (next_id_ s + 1) (status_ s) (n_rlock_ s) false (requests_ s)
                        (n_r_in_queue_ s) (n_w_in_queue_ s), next_id_ s, [No (next_id_ s)]).
Proof.
  intros Hwf Hlt Hca. pose proof (wf_next _ Hwf) as Hn. pose proof (wf_shape _ Hwf) as Hsh.
  rewrite vlock_eq by done. cbn zeta. rewrite Hca.
  assert (status_ s ≠ FREE ∧ (t = RLOCK → count_type WLOCK (requests_ s) ≠ 0)) as [Hfree Hc].
  { unfold can_acquire in Hca. apply orb_false_iff in Hca as [Hf%bool_decide_eq_false Hca].
    split; [done|]. intros ->. rewrite (wf_nw _ Hwf) in Hca. destruct (status_ s); [done| |].
    - inversion Hsh as [|r q|]. rewrite count_type_cons, decide_True by done. pose proof (count_type_le WLOCK q). lia.
    - intros Hz. by rewrite Hz in Hca. }
  assert (∃ b, wait_die t p s = Done b ∧
            (b = true → Forall (λ a, before a (mkReq (next_id_ s) p t WAIT)) (requests_ s))) as (b & Hwd & Hb).
  { pose proof (qo_order _ _ (wf_queue _ Hwf)) as Hs. destruct t; cbn.
    - destruct (wait_die_read_Done p _ Hs (Hc eq_refl)) as (b & -> & Hb). exists b. split; [done|].
      intros Ht. eapply Forall_impl; [exact (Hb Ht)|]. intros a Ha [?|?]; cbn in *; [auto|done].
    - eexists. split; [done|]. intros Ht%wait_die_write_true; [|done].
      eapply Forall_impl; [exact Ht|]. by intros a Ha _. }
  rewrite Hwd. cbn. destruct b; [left|by right].
  split_and!; [done|auto|]. apply shape_snoc; auto.
Qed.

Lemma wd_vlock_ok t p s :
  wf s → next_id_ s < MAX_REQ →
  ∃ s' evs, vlock t p s = Done (s', next_id_ s, evs) ∧ wf s' ∧ next_id_ s' = next_id_ s + 1 ∧
    priority <$> requests_ s' ⊆ p :: (priority <$> requests_ s) ∧
    apply_events (<[next_id_ s := (t, false)]> (queue_view (requests_ s))) evs = Some (queue_view (requests_ s')).
Proof.
  intros Hwf Hlt. pose proof (wf_queue _ Hwf) as Hq. rewrite (wd_new_view s t p) by done.
  pose proof (new_ids s (mkReq (next_id_ s) p t WAIT) Hwf eq_refl) as Hnd.
  destruct (can_acquire t s) eqn:Hca.
  - destruct (vlock_grant t p s Hwf Hlt Hca) as (st & n & Heq & Hb & Hs').
    eexists _, _. split; [exact Heq|]. split; [by apply pushed_wf|]. split; [done|].
    split; [cbn; rewrite fmap_app; set_solver|]. cbn.
    pose proof (apply_yes (requests_ s) _ [] Hnd eq_refl) as Hy. cbn in Hy. by rewrite Hy.
  - destruct (vlock_wait t p s Hwf Hlt Hca) as [(Heq & Hb & Hs')|Heq].
    + eexists _, _. split; [exact Heq|]. split; [by apply pushed_wf|]. split; [done|].
      split; [cbn; rewrite fmap_app; set_solver|done].
    + eexists _, _. split; [exact Heq|]. split; [|split; [done|split; [set_solver|]]].
      * destruct Hwf as [? ? ? ? ? ?]. constructor; cbn; auto; [lia|]. eapply queue_ok_weaken; [done|lia].
      * cbn. pose proof (apply_no (requests_ s) _ [] Hnd eq_refl) as Hy. cbn in Hy. by rewrite Hy, app_nil_r.
Qed.

(** ** Releases *)

Lemma shape_erase_waiting st n pre it post :
  shape st n (pre ++ it :: post) → status it = WAIT → type it = RLOCK ∨ count_type WLOCK pre ≠ 0 →
  shape st n (pre ++ post).
Proof.
  intros Hs Hw Hc. inversion Hs as [E|r q Ht Hst Hq E1 E2 E|run q Hne Hrun Hq Hh E1 E2 E].
  - by destruct pre.
  - destruct pre as [|r' pre]; simplify_eq/=; [congruence|]. constructor; [done..|].
    rewrite Forall_app, Forall_cons in Hq. apply Forall_app; tauto.
  - apply app_eq_inv in E as [(l & -> & E)|(l & -> & ->)].
    + destruct l as [|r' l]; simplify_eq/=.
      * rewrite app_nil_r in *. cbn in Hh. apply Forall_cons in Hq as [_ Hq]. destruct Hc as [Hc|Hc]; [congruence|].
        exfalso. apply Hc, count_type_none. eapply Forall_impl; [exact Hrun|]. cbn. intros x [? _]. congruence.
      * rewrite Forall_app, Forall_cons in Hrun. naive_solver congruence.
    + rewrite <-app_assoc. constructor; [done..| |].
      * rewrite Forall_app, Forall_cons in Hq. apply Forall_app; tauto.
      * destruct l as [|x l]; [|done]. cbn in *. destruct Hc as [Hc|Hc]; [congruence|].
        exfalso. apply Hc, count_type_none. rewrite app_nil_r. eapply Forall_impl; [exact Hrun|]. cbn. intros x [? _]. congruence.
Qed.

Lemma shape_first_writer st n pre it post :
  shape st n (pre ++ it :: post) → status it = WAIT → type it = WLOCK → count_type WLOCK pre = 0 →
  st = RLOCKED ∧ n = Z.of_nat (length pre) ∧ pre ≠ [] ∧
  Forall (λ r, type r = RLOCK ∧ status r = LOCK) pre ∧ Forall (λ r, status r = WAIT) post.
Proof.
  intros Hs Hw Htw Hc. inversion Hs as [E|r q Ht Hst Hq E1 E2 E|run q Hne Hrun Hq Hh E1 E2 E].
  - by destruct pre.
  - destruct pre as [|r' pre]; simplify_eq/=; [congruence|].
    rewrite count_type_cons, decide_True in Hc by done. pose proof (count_type_le WLOCK pre). lia.
  - apply app_eq_inv in E as [(l & -> & E)|(l & -> & ->)].
    + destruct l as [|r' l]; simplify_eq/=.
      * rewrite app_nil_r in *. apply Forall_cons in Hq as [_ Hq]. done.
      * rewrite Forall_app, Forall_cons in Hrun. naive_solver congruence.
    + rewrite count_type_app in Hc. destruct l as [|x l]; cbn in Hh.
      * rewrite app_nil_r. apply Forall_cons in Hq as [_ Hq]. done.
      * rewrite count_type_cons, decide_True in Hc by done.
        pose proof (count_type_le WLOCK run). pose proof (count_type_le WLOCK l). lia.
Qed.

Lemma shape_granted st n pre it post :
  shape st n (pre ++ it :: post) → status it = LOCK →
  match type it with
  | WLOCK => st = WLOCKED ∧ n = 0 ∧ pre = [] ∧ Forall (λ r, status r = WAIT) post
  | RLOCK => st = RLOCKED ∧ ∃ run q, post = run ++ q ∧ n = Z.of_nat (length (pre ++ run)) + 1 ∧
      Forall (λ r, type r = RLOCK ∧ status r = LOCK) (pre ++ run) ∧ Forall (λ r, status r = WAIT) q ∧
      from_option (λ r, type r = WLOCK) True (head q)
  end.
Proof.
  intros Hs Hl. inversion Hs as [E|r q Ht Hst Hq E1 E2 E|run q Hne Hrun Hq Hh E1 E2 E].
  - by destruct pre.
  - destruct pre as [|r' pre]; simplify_eq/=; [by rewrite Ht|].
    rewrite Forall_app, Forall_cons in Hq. naive_solver congruence.
  - apply app_eq_inv in E as [(l & -> & E)|(l & -> & ->)].
    + destruct l as [|r' l]; simplify_eq/=.
      * apply Forall_cons in Hq as [? _]. congruence.
      * rewrite Forall_app, Forall_cons in Hrun. destruct Hrun as (Hp & [-> _] & Hl').
        split; [done|]. exists l, q. split_and!; [done| |by apply Forall_app|done|done].
        rewrite !length_app. cbn. lia.
    + rewrite Forall_app, Forall_cons in Hq. naive_solver congruence.
Qed.

(** A lock with one request less. *)
Definition popped (s : WaitDieALock) (st : status_t) (n : Z) (l : list lock_req_t) : WaitDieALock :=
  mkWD (next_id_ s) st n false l (count_type RLOCK l) (count_type WLOCK l).

Lemma dequeue_eq s pre it post :
  wf s → requests_ s = pre ++ it :: post → dequeue s pre it post = popped s (status_ s) (n_rlock_ s) (pre ++ post).
Proof.
  intros Hwf Hl. pose proof (wf_count_bound s RLOCK Hwf) as H1. pose proof (wf_count_bound s WLOCK Hwf) as H2.
  unfold dequeue, popped. rewrite (wf_nr _ Hwf), (wf_nw _ Hwf), (wf_done _ Hwf). rewrite Hl in *.
  rewrite !count_type_app, !count_type_cons in *. unfold MAX_REQ in *.
  pose proof (count_type_le RLOCK pre). pose proof (count_type_le RLOCK post).
  pose proof (count_type_le WLOCK pre). pose proof (count_type_le WLOCK post).
  destruct (type it) eqn:Ht; repeat case_decide; try congruence; f_equal; rewrite ?u64_small; lia.
Qed.

Lemma popped_wf s st n pre it post l :
  wf s → requests_ s = pre ++ it :: post → same_reqs (pre ++ post) l → shape st n l → wf (popped s st n l).
Proof.
  intros Hwf Hl Hs Hsh. constructor; cbn; auto; [apply Hwf|].
  eapply same_reqs_queue; [exact Hs|]. eapply queue_ok_middle. rewrite <-Hl. apply Hwf.
Qed.

(** Granting a run of waiting readers after [pre]. *)
Lemma read_acquire_eq s st n pre run rest :
  Forall (λ r, type r = RLOCK) run → Forall (λ r, status r = WAIT) run →
  (n = 0 ↔ st ≠ RLOCKED) → 0 ≤ n → n + Z.of_nat (length run) < 2 ^ 63 → run ≠ [] ∨ st = RLOCKED →
  read_acquire (popped s st n (pre ++ run ++ rest)) pre run rest =
    Done (popped s RLOCKED (n + Z.of_nat (length run)) (pre ++ (set_status LOCK <$> run) ++ rest), Yes ∘ id <$> run).
Proof.
  intros Ht Hw Hst Hn Hb Hne. unfold read_acquire. case_decide as Hlen.
  - apply nil_length_inv in Hlen as ->. destruct Hne as [| ->]; [done|]. cbn. by rewrite Z.add_0_r.
  - assert (forallb (waiting_as RLOCK) run = true) as ->.
    { apply forallb_forall. intros r Hr%list_elem_of_In. rewrite Forall_forall in Ht, Hw.
      unfold waiting_as. by rewrite !bool_decide_eq_true_2 by auto. }
    cbn. rewrite i64_small by lia. unfold popped.
    rewrite (same_reqs_count RLOCK _ _ (same_reqs_run pre run rest)), (same_reqs_count WLOCK _ _ (same_reqs_run pre run rest)).
    case_decide as H0; [done|]. destruct st; [by destruct H0; apply Hst..|done].
Qed.

Lemma write_acquire_eq s st n pre r post :
  type r = WLOCK → status r = WAIT →
  write_acquire (popped s st n (pre ++ r :: post)) pre r post =
    Done (popped s WLOCKED n (pre ++ set_status LOCK r :: post), [Yes (id r)]).
Proof.
  intros Ht Hw. unfold write_acquire, waiting_as. rewrite !bool_decide_eq_true_2 by done. cbn. unfold popped.
  by rewrite (same_reqs_count RLOCK _ _ (same_reqs_one pre r post)), (same_reqs_count WLOCK _ _ (same_reqs_one pre r post)).
Qed.

Lemma shape_grant_readers n pre run rest :
  n = Z.of_nat (length pre) → Forall (λ r, type r = RLOCK ∧ status r = LOCK) pre →
  Forall (λ r, type r = RLOCK) run → pre ++ run ≠ [] → Forall (λ r, status r = WAIT) rest →
  from_option (λ r, type r = WLOCK) True (head rest) →
  shape RLOCKED (n + Z.of_nat (length run)) (pre ++ (set_status LOCK <$> run) ++ rest).
Proof.
  intros -> Hp Hr Hne Hw Hh. rewrite app_assoc.
  replace (Z.of_nat (length pre) + Z.of_nat (length run)) with (Z.of_nat (length (pre ++ (set_status LOCK <$> run))))
    by (rewrite length_app, length_fmap; lia).
  constructor; [|apply Forall_app; split; [done|]|done..].
  - intros [-> E%fmap_nil_inv]%app_eq_nil. by subst.
  - apply Forall_fmap. eapply Forall_impl; [exact Hr|]. done.
Qed.

Lemma abort_waiting_ok s pre it post :
  wf s → requests_ s = pre ++ it :: post → status it = WAIT →
  ∃ st n l evs, abort_waiting s pre it post = Done (popped s st n l, evs) ∧ same_reqs (pre ++ post) l ∧
    shape st n l ∧ apply_events (queue_view (requests_ s)) evs = Some (queue_view l).
Proof.
  intros Hwf Hl Hw. pose proof (wf_shape _ Hwf) as Hsh. pose proof (qo_ids _ _ (wf_queue _ Hwf)) as Hnd.
  pose proof (qo_len _ _ (wf_queue _ Hwf)) as Hlen. pose proof (wf_next _ Hwf) as Hn. unfold MAX_REQ in Hn.
  rewrite Hl in Hsh, Hnd, Hlen. unfold abort_waiting. rewrite (dequeue_eq s pre it post) by done.
  case_decide as Hc.
  - destruct Hc as [Ht Hc]. destruct (shape_first_writer _ _ _ _ _ Hsh Hw Ht Hc) as (Hst & Hnn & Hne & Hp & Hpost).
    cbn [status_ popped]. rewrite Hst. cbn.
    destruct (read_run post) as [run rest] eqn:E. apply read_run_spec in E as (-> & Hr & Hh).
    apply Forall_app in Hpost as [Hrw Hrest]. rewrite !length_app in Hlen. cbn in Hlen. rewrite length_app in Hlen.
    rewrite read_acquire_eq; [|done|done| |lia|lia|by right].
    2:{ split; [|done]. destruct pre; [done|]. cbn in Hnn. lia. }
    cbn. eexists _, _, _, _. split; [done|]. split; [apply same_reqs_run|]. split.
    + apply shape_grant_readers; auto. by destruct pre.
    + rewrite Hl, apply_events_app. rewrite (cons_middle it pre (run ++ rest)), app_assoc, apply_grants;
        [|rewrite <-app_assoc; done|done].
      rewrite <-app_assoc. cbn [app mbind option_bind apply_events]. rewrite apply_no; [done| |done].
      rewrite (same_reqs_ids (pre ++ it :: run ++ rest)); [done|].
      apply Forall2_app; [apply same_reqs_refl|]. apply (same_reqs_run [it]).
  - eexists _, _, _, _. split; [done|]. split; [apply same_reqs_refl|]. split.
    + eapply shape_erase_waiting; [done..|].
      destruct (type it); [by left|right]. tauto.
    + rewrite Hl. cbn [apply_events]. by rewrite apply_no.
Qed.

Lemma abort_granted_ok s pre it post :
  wf s → requests_ s = pre ++ it :: post → status it = LOCK →
  ∃ st n l evs late, abort_granted s pre it post = Done (popped s st n l, evs, late) ∧ same_reqs (pre ++ post) l ∧
    (late = true → st = RLOCKED) ∧ shape st n l ∧ apply_events (queue_view (pre ++ post)) evs = Some (queue_view l).
Proof.
  intros Hwf Hl Hg. pose proof (shape_granted (status_ s) (n_rlock_ s) pre it post) as Hsh. rewrite <-Hl in Hsh.
  specialize (Hsh (wf_shape _ Hwf) Hg). pose proof (wf_queue _ Hwf) as Hq. rewrite Hl in Hq.
  pose proof (qo_ids _ _ (queue_ok_middle _ _ _ _ Hq)) as Hnd. pose proof (qo_len _ _ Hq) as Hlen.
  pose proof (wf_next _ Hwf) as Hn. unfold MAX_REQ in Hn.
  rewrite length_app in Hlen. cbn in Hlen.
  unfold abort_granted. rewrite (dequeue_eq s pre it post) by done.
  destruct (type it).
  - destruct Hsh as (Hst & run & q & -> & Hnr & Hall & Hqw & Hh). cbn [popped set_lock_status n_rlock_].
    rewrite length_app in Hlen. rewrite length_app in Hnr.
    rewrite i64_small by lia. case_decide as Hz.
    + destruct pre; [|cbn in Hnr; lia]. destruct run; [|cbn in Hnr; lia]. cbn [app] in *.
      destruct q as [|nx q].
      * eexists FREE, _, [], _, _. split; [done|]. split; [apply same_reqs_refl|]. split; [done|]. cbn. rewrite Hz. split; [constructor|done].
      * cbn in Hh. apply Forall_cons in Hqw as [Hnx Hqw].
        change (set_lock_status _ _ _) with (popped s (status_ s) (n_rlock_ s - 1) ([] ++ nx :: q)).
        rewrite write_acquire_eq by done. cbn [mbind result_bind]. eexists _, _, _, _, _. split; [done|].
        split; [apply (same_reqs_one [])|]. split; [done|]. split.
        -- rewrite Hz. by constructor.
        -- cbn [apply_events]. pose proof (apply_yes [] nx q Hnd Hnx) as Hy. cbn [app] in Hy. by rewrite Hy.
    + eexists (status_ s), (n_rlock_ s - 1), (pre ++ run ++ q), _, _. split; [done|]. split; [apply same_reqs_refl|].
      split; [done|]. split; [|done].
      rewrite Hst, Hnr. rewrite app_assoc.
      replace (_ + 1 - 1) with (Z.of_nat (length (pre ++ run))) by (rewrite length_app; lia).
      constructor; [|done..]. intros [-> ->]%app_eq_nil. cbn in *. lia.
  - destruct Hsh as (Hst & Hnr & -> & Hpost). cbn [app] in *. destruct post as [|nx post].
    + eexists FREE, _, [], _, _. split; [done|]. split; [apply same_reqs_refl|]. split; [done|]. cbn. rewrite Hnr. split; [constructor|done].
    + destruct (type nx) eqn:Ht.
      * destruct (read_run (nx :: post)) as [run rest] eqn:E. pose proof E as E'. apply read_run_spec in E as (Hp & Hr & Hh).
        assert (run ≠ []) as Hne. { cbn in E'. rewrite Ht in E'. by destruct (read_run post); simplify_eq. }
        rewrite Hp in *. apply Forall_app in Hpost as [Hrw Hrest]. rewrite length_app in Hlen.
        pose proof (read_acquire_eq s (status_ s) (n_rlock_ s) [] run rest) as Hra. cbn [app] in Hra.
        rewrite Hra; [|done|done| |lia|lia|by left].
        2:{ by rewrite Hnr, Hst. }
        cbn. eexists _, _, _, _, _. split; [done|]. split; [apply (same_reqs_run [])|]. split; [done|]. split.
        -- by apply (shape_grant_readers _ []).
        -- by apply (apply_grants []).
      * apply Forall_cons in Hpost as [Hnx Hpost].
        pose proof (write_acquire_eq s (status_ s) (n_rlock_ s) [] nx post Ht Hnx) as Hwa. cbn [app] in Hwa.
        rewrite Hwa. cbn [mbind result_bind]. eexists _, _, _, _, _. split; [done|].
        split; [apply (same_reqs_one [])|]. split; [done|]. split.
        -- rewrite Hnr. by constructor.
        -- cbn [apply_events]. pose proof (apply_yes [] nx post Hnd Hnx) as Hy. cbn [app] in Hy. by rewrite Hy.
Qed.

(** The view after the release of a granted request. *)
Definition released (i : Z) (v : view) : view :=
  match v !! i with Some (_, true) => delete i v | _ => v end.

(** Every request of the lock was in it before, with the same priority. *)
Definition no_new (s s' : WaitDieALock) : Prop := priority <$> requests_ s' ⊆ priority <$> requests_ s.

Lemma popped_no_new s st n pre it post l :
  requests_ s = pre ++ it :: post → same_reqs (pre ++ post) l → no_new s (popped s st n l).
Proof.
  intros Hl Hs. unfold no_new. cbn. replace (priority <$> l) with (priority <$> pre ++ post).
  - rewrite Hl, !fmap_app, fmap_cons. set_solver.
  - clear Hl. induction Hs as [|a b k l (_ & E & _) _ IH]; [done|]. by rewrite !fmap_cons, E, IH.
Qed.

Lemma wd_abort_ok i s :
  wf s →
  ∃ s' evs late, abort i s = Done (s', evs, late) ∧ wf s' ∧ next_id_ s' = next_id_ s ∧ no_new s s' ∧
    (late = true → status_ s' = RLOCKED) ∧
    apply_events (released i (queue_view (requests_ s))) evs = Some (queue_view (requests_ s')).
Proof.
  intros Hwf. unfold abort. rewrite (wf_done _ Hwf). pose proof (qo_ids _ _ (wf_queue _ Hwf)) as Hnd.
  destruct (find_req i (requests_ s)) as [[[pre it] post]|] eqn:E.
  - apply find_req_Some in E as (Hl & Hi & _). unfold released.
    rewrite Hl, queue_view_middle, <-Hi, lookup_insert_eq, <-queue_view_middle by by rewrite <-Hl.
    destruct (status it) eqn:Es.
    + rewrite bool_decide_eq_false_2 by done. rewrite <-Hl.
      destruct (abort_waiting_ok s pre it post Hwf Hl Es) as (st & n & l & evs & Heq & Hs & Hsh & Hev).
      rewrite Heq. cbn [mbind result_bind]. eexists _, _, _. split; [done|].
      split_and!; [exact (popped_wf s st n pre it post l Hwf Hl Hs Hsh)|done|exact (popped_no_new s st n pre it post l Hl Hs)|done..].
    + rewrite bool_decide_eq_true_2 by done. rewrite queue_view_delete by by rewrite <-Hl.
      destruct (abort_granted_ok s pre it post Hwf Hl Es) as (st & n & l & evs & late & Heq & Hs & Hlate & Hsh & Hev).
      eexists _, _, _. split; [exact Heq|].
      split_and!; [exact (popped_wf s st n pre it post l Hwf Hl Hs Hsh)|done|exact (popped_no_new s st n pre it post l Hl Hs)|done..].
  - eexists _, _, _. split; [done|]. split_and!; [done|done|by unfold no_new|done|]. unfold released.
    rewrite queue_view_None; [done|]. apply find_req_None in E. intros (x & -> & Hx)%list_elem_of_fmap.
    rewrite Forall_forall in E. by apply E in Hx.
Qed.

(** ** The interface

    Its operations only: with groups as clients the late check can fail
    ([GroupRuns.waitdie_late_check_fails]), so the lock does not keep the promises. *)

#[export] Instance waitdie_alock : ALock WaitDieALock := {
  alock_lock := vlock;
  alock_abort := abort;
  alock_late := late_check;
  alock_tick _ s := Done (s, []);  (** no timers *)
  alock_wf := wf;
  alock_view s := queue_view (requests_ s);
  alock_next := next_id_
}.

Lemma granted_shape st n l i t :
  NoDup (id <$> l) → shape st n l → queue_view l !! i = Some (t, true) →
  ∃ r, r ∈ l ∧ id r = i ∧ type r = t ∧ status r = LOCK.
Proof.
  intros Hnd _ (r & Hr & [= <- <- Hs%bool_decide_eq_true])%queue_view_Some; eauto.
Qed.

Lemma shape_compat st n l a b :
  shape st n l → a ∈ l → b ∈ l → status a = LOCK → status b = LOCK → a ≠ b → type a = RLOCK ∧ type b = RLOCK.
Proof.
  intros [|r q Ht Hst Hq|run q Hne Hrun Hq Hh] Ha Hb Hla Hlb Hab.
  - by apply not_elem_of_nil in Ha.
  - rewrite Forall_forall in Hq. apply elem_of_cons in Ha as [-> |Ha%Hq], Hb as [-> |Hb%Hq]; congruence.
  - rewrite Forall_forall in Hq, Hrun. apply elem_of_app in Ha as [Ha%Hrun|Ha%Hq], Hb as [Hb%Hrun|Hb%Hq]; naive_solver congruence.
Qed.

Lemma wd_compat s i j t t' :
  wf s → queue_view (requests_ s) !! i = Some (t, true) → queue_view (requests_ s) !! j = Some (t', true) →
  i ≠ j → t = RLOCK ∧ t' = RLOCK.
Proof.
  intros Hwf Hi Hj Hij. pose proof (wf_shape _ Hwf) as Hs. pose proof (qo_ids _ _ (wf_queue _ Hwf)) as Hnd.
  apply (granted_shape _ _ _ _ _ Hnd Hs) in Hi as (a & Ha & <- & <- & Hla).
  apply (granted_shape _ _ _ _ _ Hnd Hs) in Hj as (b & Hb & <- & <- & Hlb).
  eapply shape_compat; eauto. congruence.
Qed.

(** ** The built-in check *)

Definition check_inv (s : WaitDieALock) (done rest : list lock_req_t) (bc : bool * check) : Prop :=
  let '(b, c) := bc in
  b = bool_decide (done = []) ∧
  ((acquired_check c = true ∧ Forall (λ r, status r = WAIT) rest) ∨
   (acquired_check c = false ∧ status_ s = WLOCKED ∧ done = []) ∨
   (acquired_check c = false ∧ status_ s = RLOCKED ∧
    ∃ run q, rest = run ++ q ∧ Forall (λ r, type r = RLOCK ∧ status r = LOCK) run ∧
      Forall (λ r, status r = WAIT) q ∧ from_option (λ r, type r = WLOCK) True (head q) ∧
      n_r_locked c + Z.of_nat (length run) = n_rlock_ s)) ∧
  Forall (λ r, big c > priority r) rest ∧
  (tmp_big c = -1 ∨ Forall (λ r, type r = WLOCK → tmp_big c > priority r) rest) ∧
  num_w c = count_type WLOCK done ∧ num_r c = count_type RLOCK done.

Lemma check_granted_ok s done r rest c :
  wf s → requests_ s = done ++ r :: rest → check_inv s done (r :: rest) (bool_decide (done = []), c) →
  ∃ acq n, check_granted s (bool_decide (done = [])) r c = Done (acq, n) ∧
    ((acq = true ∧ Forall (λ r, status r = WAIT) rest) ∨
     (acq = false ∧ status_ s = RLOCKED ∧
      ∃ run q, rest = run ++ q ∧ Forall (λ r, type r = RLOCK ∧ status r = LOCK) run ∧
        Forall (λ r, status r = WAIT) q ∧ from_option (λ r, type r = WLOCK) True (head q) ∧
        n + Z.of_nat (length run) = n_rlock_ s)).
Proof.
  intros Hwf Hl (_ & Hacq & _). unfold check_granted.
  destruct Hacq as [(-> & Hw)|[(-> & Hst & ->)|(-> & Hst & run & q & E & Hrun & Hq & Hh & Hnr)]].
  - apply Forall_cons in Hw as [Hr Hw]. rewrite bool_decide_eq_true_2 by done. cbn. eauto 10.
  - pose proof (wf_shape _ Hwf) as Hs. rewrite Hst, Hl in Hs. inversion Hs; simplify_eq.
    rewrite decide_True by done. rewrite !bool_decide_eq_true_2 by done. cbn. eauto 10.
  - rewrite Hst. rewrite decide_False by done. rewrite (bool_decide_eq_true_2 (RLOCKED = RLOCKED)) by done. cbn.
    destruct run as [|x run]; simplify_eq/=.
    + cbn in Hh. rewrite Hh. apply Forall_cons in Hq as [Hr Hq].
      rewrite !bool_decide_eq_true_2 by (done || lia). cbn. eauto 10.
    + apply Forall_cons in Hrun as [[-> ->] Hrun]. rewrite bool_decide_eq_true_2 by done. cbn.
      eexists _, _. split; [done|]. right. split_and!; [done..|]. exists run, q. split_and!; [done..|lia].
Qed.

(** Counters of request types. *)
Ltac count_cases := repeat case_decide; (done || lia).

Lemma check_priority_ok s done r rest acq n b c :
  StronglySorted before (done ++ r :: rest) → check_inv s done (r :: rest) (b, c) →
  ∃ c', check_priority r (mkCheck acq (big c) (tmp_big c) n (num_w c) (num_r c)) = Done c' ∧
    acquired_check c' = acq ∧ n_r_locked c' = n ∧
    Forall (λ r, big c' > priority r) rest ∧
    (tmp_big c' = -1 ∨ Forall (λ r, type r = WLOCK → tmp_big c' > priority r) rest) ∧
    num_w c' = count_type WLOCK (done ++ [r]) ∧ num_r c' = count_type RLOCK (done ++ [r]).
Proof.
  intros Hs (_ & _ & Hbig & Htmp & Hw & Hr). apply Forall_cons in Hbig as [Hbr Hbig].
  assert (Forall (before r) rest) as Hbef.
  { clear -Hs. induction done as [|a l IH]; cbn in Hs; apply StronglySorted_inv in Hs as [? ?]; auto. }
  unfold check_priority. cbn. rewrite (bool_decide_eq_true_2 (big c > priority r)) by lia. cbn.
  autorewrite with dst. rewrite Hw, Hr. destruct (type r) eqn:Ht.
  - eexists. split; [done|]. cbn. split_and!; [done..| |count_cases|count_cases].
    assert (Forall (λ x, type x = WLOCK → priority r > priority x) rest) as Hrw.
    { eapply Forall_impl; [exact Hbef|]. intros x Hx Hxw. unfold before, conflict in Hx. specialize (Hx (or_intror Hxw)). lia. }
    case_decide; [by right|]. destruct Htmp as [?|Htmp]; [done|]. apply Forall_cons in Htmp as [_ Htmp].
    right. by case_decide.
  - assert (Forall (λ x, priority r > priority x) rest) as Hrw.
    { eapply Forall_impl; [exact Hbef|]. intros x Hx. unfold before, conflict in Hx. specialize (Hx (or_introl Ht)). lia. }
    case_decide as Hm.
    + eexists. split; [done|]. cbn. split_and!; [done..|by left|count_cases|count_cases].
    + destruct Htmp as [?|Htmp]; [done|]. apply Forall_cons in Htmp as [Htr _]. specialize (Htr Ht).
      rewrite (bool_decide_eq_true_2 (tmp_big c > priority r)) by lia. cbn. eexists. split; [done|]. cbn.
      split_and!; [done..| |by left|count_cases|count_cases]. eapply Forall_impl; [exact Hrw|]. cbn. lia.
Qed.

Lemma check_loop_ok s :
  wf s → Forall (λ r, priority r < INT64_MAX) (requests_ s) → requests_ s ≠ [] →
  ∃ b c, for_each (check_req s) (requests_ s) (true, mkCheck false INT64_MAX (-1) 0 0 0) = Done (b, c) ∧
    num_w c = count_type WLOCK (requests_ s) ∧ num_r c = count_type RLOCK (requests_ s).
Proof.
  intros Hwf Hp Hne.
  destruct (for_each_inv (check_req s) (λ done bc, ∀ rest, requests_ s = done ++ rest → check_inv s done rest bc)
              (requests_ s) (true, mkCheck false INT64_MAX (-1) 0 0 0)) as ([b c] & Heq & Hinv).
  - intros rest Hl. cbn in Hl. subst rest. cbn. split_and!; [done| | |by left|done|done].
    + pose proof (wf_shape _ Hwf) as Hs. right. destruct (status_ s); inversion Hs; [|by left|right].
      * congruence.
      * split_and!; [done..|]. exists run, q. by split_and!.
    + eapply Forall_impl; [exact Hp|]. cbn. lia.
  - intros done r rest [b c] Hl Hinv. specialize (Hinv _ Hl). pose proof (qo_order _ _ (wf_queue _ Hwf)) as Ho.
    rewrite Hl in Ho. assert (b = bool_decide (done = [])) as -> by apply Hinv.
    destruct (check_granted_ok s done r rest c Hwf Hl Hinv) as (acq & n & Hg & Hacq).
    destruct (check_priority_ok s done r rest acq n _ c Ho Hinv) as (c' & Hc & Ha & Hn & Hrest).
    exists (false, c'). unfold check_req. rewrite Hg. cbn. rewrite Hc. split; [done|].
    intros rest' Hl'. rewrite Hl, <-app_assoc in Hl'. simplify_eq/=. split_and!; try apply Hrest.
    + rewrite bool_decide_eq_false_2; [done|]. by destruct done.
    + destruct Hacq as [?|(? & ? & ?)]; [by left|]. right. right. done.
  - exists b, c. split; [done|]. specialize (Hinv [] ltac:(by rewrite app_nil_r)). cbn in Hinv. tauto.
Qed.

Lemma sanity_check_ok s :
  wf s → Forall (λ r, priority r < INT64_MAX) (requests_ s) → sanity_check s = Done tt.
Proof.
  intros Hwf Hp. unfold sanity_check. rewrite (wf_nr _ Hwf), (wf_nw _ Hwf).
  rewrite (bool_decide_eq_true_2 (status_ s = FREE → length (requests_ s) = 0%nat)).
  2:{ intros Hf. pose proof (wf_shape _ Hwf) as Hs. rewrite Hf in Hs. by inversion Hs. }
  cbn [verify mbind result_bind]. destruct (decide (requests_ s = [])) as [-> |Hne]; [done|].
  destruct (check_loop_ok s Hwf Hp Hne) as (b & c & -> & Hw & Hr).
  cbn. by rewrite Hw, Hr, !bool_decide_eq_true_2.
Qed.

(** ** Runs *)

(** Calls whose callbacks do not use the lock. *)
Inductive op := OpLock (t : type_t) (p : Z) | OpAbort (i : Z).

Definition run_op (st : WaitDieALock * list event) (o : op) : result (WaitDieALock * list event) :=
  match o with
  | OpLock t p => '(s, _, evs) ← vlock t p st.1; Done (s, st.2 ++ evs)
  | OpAbort i =>
      '(s, evs, late) ← abort i st.1;
      _ ← verify (negb late || late_check s);
      Done (s, st.2 ++ evs)
  end.

Definition run (ops : list op) : result (WaitDieALock * list event) :=
  for_each run_op ops (WaitDieALock_new, []).

(** The priority of a lock call is below the largest 64-bit integer. *)
Definition op_ok (o : op) : Prop :=
  match o with OpLock _ p => p < INT64_MAX | OpAbort _ => True end.

(** At most one writer, or only readers, hold the lock. *)
Definition exclusive (v : view) : Prop :=
  ∀ i j t t', v !! i = Some (t, true) → v !! j = Some (t', true) → i ≠ j → t = RLOCK ∧ t' = RLOCK.

Definition run_inv (n : Z) (st : WaitDieALock * list event) : Prop :=
  let '(s, evs) := st in
  wf s ∧ Forall (λ p, p < INT64_MAX) (priority <$> requests_ s) ∧ next_id_ s ≤ n + 1 ∧
  ∀ i, (answers i evs + waits (queue_view (requests_ s)) i = if decide (0 < i < next_id_ s)%Z then 1 else 0)%nat.

Lemma new_wf : wf WaitDieALock_new.
Proof. constructor; cbn; [done|done| |constructor|done|done]. constructor; cbn; [lia|constructor..]. Qed.

Lemma wd_run_op_ok n st o :
  run_inv n st → op_ok o → n < MAX_REQ - 1 → ∃ st', run_op st o = Done st' ∧ run_inv (n + 1) st'.
Proof.
  destruct st as [s evs]. intros (Hwf & Hp & Hn & Ha) Ho Hlt. destruct o as [t p|i]; cbn.
  - destruct (wd_vlock_ok t p s Hwf ltac:(lia)) as (s' & es & -> & Hwf' & Hn' & Hp' & Hev).
    eexists. split; [done|]. cbn. split_and!; [done| |lia|].
    + apply Forall_forall. intros q Hq%Hp'. apply elem_of_cons in Hq as [-> |Hq]; [done|].
      rewrite Forall_forall in Hp. auto.
    + intros i. rewrite answers_app. pose proof (apply_events_answers _ _ _ i Hev) as Hi. specialize (Ha i).
      rewrite Hn'. destruct (decide (i = next_id_ s)) as [-> |Hne].
      * pose proof (wf_next _ Hwf). rewrite decide_True by lia. rewrite decide_False in Ha by lia.
        unfold waits at 2 in Hi. rewrite lookup_insert_eq in Hi. lia.
      * unfold waits at 2 in Hi. rewrite lookup_insert_ne in Hi by done. fold (waits (queue_view (requests_ s)) i) in Hi.
        repeat case_decide; lia.
  - destruct (wd_abort_ok i s Hwf) as (s' & es & late & -> & Hwf' & Hn' & Hp' & Hlate & Hev). cbn [mbind result_bind].
    assert (negb late || late_check s' = true) as ->.
    { destruct late; [|done]. apply bool_decide_eq_true_2. by apply Hlate. }
    cbn [verify mbind result_bind]. eexists. split; [done|]. cbn. split_and!; [done| |lia|].
    + apply Forall_forall. intros q Hq%Hp'. rewrite Forall_forall in Hp. auto.
    + intros j. rewrite answers_app, Hn'. pose proof (apply_events_answers _ _ _ j Hev) as Hj. specialize (Ha j).
      assert (waits (released i (queue_view (requests_ s))) j = waits (queue_view (requests_ s)) j); [|lia].
      unfold released, waits. destruct (queue_view (requests_ s) !! i) as [[t []]|] eqn:E; [|done..].
      destruct (decide (i = j)) as [-> |]; [by rewrite lookup_delete_eq, E|by rewrite lookup_delete_ne].
Qed.

Lemma wd_run_ok ops :
  Forall op_ok ops → Z.of_nat (length ops) < MAX_REQ →
  ∃ st, run ops = Done st ∧ run_inv (Z.of_nat (length ops)) st.
Proof.
  intros Hops Hlen. unfold run.
  apply (for_each_inv run_op (λ done st, run_inv (Z.of_nat (length done)) st)).
  - cbn. split_and!; [apply new_wf|constructor|lia|]. intros i. rewrite decide_False by lia. done.
  - intros done o rest st -> Hinv. rewrite Forall_app, Forall_cons in Hops. rewrite length_app in Hlen. cbn in Hlen.
    destruct (wd_run_op_ok _ st o Hinv) as (st' & Hst & Hinv'); [tauto|lia|].
    exists st'. split; [done|]. rewrite length_app. cbn. by rewrite Nat2Z.inj_add.
Qed.

(** C13: in every sequence of lock and abort calls on a wait-die lock, with callbacks that
    do not call the lock themselves, no assertion
    fails and the lock's own consistency check passes at the end; granted requests
    are compatible; every request is answered exactly once, unless it still waits,
    and while one waits another is granted. *)
Theorem waitdie_runs ops :
  Forall op_ok ops → Z.of_nat (length ops) < MAX_REQ →
  ∃ s evs, run ops = Done (s, evs) ∧ sanity_check s = Done tt ∧
    exclusive (queue_view (requests_ s)) ∧
    (∀ i, (answers i evs + waits (queue_view (requests_ s)) i = if decide (0 < i < next_id_ s)%Z then 1 else 0)%nat) ∧
    (status_ s = FREE → requests_ s = []).
Proof.
  intros Hops Hlen. destruct (wd_run_ok ops Hops Hlen) as ([s evs] & Heq & Hwf & Hp & _ & Ha).
  exists s, evs. split_and!; [done| | |done|].
  - apply sanity_check_ok; [done|]. by apply Forall_fmap in Hp.
  - intros i j t t' Hi Hj Hij. exact (wd_compat s i j t t' Hwf Hi Hj Hij).
  - intros Hf. pose proof (wf_shape _ Hwf) as Hs. rewrite Hf in Hs. by inversion Hs.
Qed.

Definition run_example : list op :=
  [OpLock RLOCK 5; OpLock RLOCK 7; OpLock WLOCK 3; OpLock RLOCK 9; OpLock RLOCK 1; OpAbort 1; OpAbort 2].

Lemma waitdie_runs_witness :
  ∃ s evs, run run_example = Done (s, evs) ∧ evs = [Yes 1; Yes 2; No 4; Yes 3] ∧ sanity_check s = Done tt.
Proof.
  destruct (waitdie_runs run_example) as (s & evs & Heq & Hs & _); [repeat constructor|done|].
  exists s, evs. split; [exact Heq|]. split; [|exact Hs].
  vm_compute in Heq. by simplify_eq.
Defined.

(** ** No deadlock *)

Lemma shape_blocked st n pre a post :
  shape st n (pre ++ a :: post) → status a = WAIT → ∃ b, b ∈ pre ∧ conflict b a.
Proof.
  intros Hs Hw. inversion Hs as [E|r q Ht Hst Hq E1 E2 E|run q Hne Hrun Hq Hh E1 E2 E].
  - by destruct pre.
  - destruct pre as [|r' pre]; simplify_eq/=; [congruence|]. exists r'. split; [by left|by left].
  - apply app_eq_inv in E as [(l & -> & E)|(l & -> & ->)].
    + destruct l as [|r' l]; simplify_eq/=.
      * rewrite app_nil_r in *. destruct pre as [|b pre]; [done|]. exists b. split; [by left|by right].
      * rewrite Forall_app, Forall_cons in Hrun. naive_solver congruence.
    + destruct l as [|x l]; cbn in Hh.
      * destruct run as [|b run]; [done|]. exists b. split; [by left|by right].
      * exists x. split; [set_solver|by left].
Qed.

Section deadlock.
Context {L T : Type} (locks : L → WaitDieALock) (txn : L → Z → T) (prio : T → Z).

(** Transaction [t] waits for [u]: in some queue a waiting request of [t] is behind a
    conflicting request of [u]. *)
Definition waits_for (t u : T) : Prop :=
  ∃ l pre b mid a post, requests_ (locks l) = pre ++ b :: mid ++ a :: post ∧ status a = WAIT ∧
    conflict b a ∧ txn l (id a) = t ∧ txn l (id b) = u.

Lemma sorted_before pre b mid a post :
  StronglySorted before (pre ++ b :: mid ++ a :: post) → before b a.
Proof.
  induction pre as [|x pre IH]; cbn; intros [Hs Hf]%StronglySorted_inv; [|auto].
  rewrite Forall_app, Forall_cons in Hf. tauto.
Qed.

(** C12: when every lock has been driven by lock and abort calls from its creation, and
    the requests of a transaction carry the transaction's priority, then a waiting
    request is always behind a conflicting one, and there is no infinite chain, in
    particular no cycle, of transactions that wait for each other. *)
Theorem waitdie_no_deadlock :
  (∀ l, ∃ ops evs, Forall op_ok ops ∧ Z.of_nat (length ops) < MAX_REQ ∧ run ops = Done (locks l, evs)) →
  (∀ l r, r ∈ requests_ (locks l) → priority r = prio (txn l (id r))) →
  (∀ l a, a ∈ requests_ (locks l) → status a = WAIT → ∃ u, waits_for (txn l (id a)) u) ∧
  well_founded (λ u t, waits_for t u).
Proof.
  intros Hrun Hprio.
  assert (∀ l, wf (locks l) ∧ Forall (λ r, priority r < INT64_MAX) (requests_ (locks l))) as Hwf.
  { intros l. destruct (Hrun l) as (ops & evs & Hops & Hlen & Heq).
    destruct (wd_run_ok ops Hops Hlen) as ([s evs'] & Heq' & Hwf & Hp & _). rewrite Heq in Heq'. simplify_eq.
    split; [done|]. by apply Forall_fmap in Hp. }
  split.
  - intros l a (pre & post & Hl)%list_elem_of_split Hw. destruct (Hwf l) as [Hl' _]. pose proof (wf_shape _ Hl') as Hs.
    rewrite Hl in Hs. destruct (shape_blocked _ _ _ _ _ Hs Hw) as (b & Hb & Hc).
    apply list_elem_of_split in Hb as (p1 & p2 & ->). exists (txn l (id b)), l, p1, b, p2, a, post.
    by rewrite Hl, <-app_assoc.
  - apply (well_founded_lt_compat _ (λ t, Z.to_nat (INT64_MAX - prio t))).
    intros u t (l & pre & b & mid & a & post & Hl & Hw & Hc & <- & <-).
    destruct (Hwf l) as [Hl' Hmax]. pose proof (qo_order _ _ (wf_queue _ Hl')) as Ho. rewrite Hl in Ho.
    apply sorted_before in Ho. specialize (Ho Hc). rewrite Hl in Hmax.
    rewrite Forall_app, Forall_cons in Hmax. rewrite <-!Hprio by (rewrite Hl; set_solver). lia.
Qed.
End deadlock.

(** Two locks held and wanted crosswise by a reader of priority 5 and a writer of
    priority 3: the older one waits, the younger one is turned away. *)
Definition cross (l : bool) : list op :=
  if l then [OpLock RLOCK 5; OpLock WLOCK 3] else [OpLock WLOCK 3; OpLock RLOCK 5].

Lemma waitdie_no_deadlock_witness :
  ∃ locks : bool → WaitDieALock,
    requests_ (locks true) = [mkReq 1 5 RLOCK LOCK; mkReq 2 3 WLOCK WAIT] ∧
    requests_ (locks false) = [mkReq 1 3 WLOCK LOCK] ∧
    well_founded (λ u t, waits_for locks (λ l i, if decide (l = true ∧ i = 1) then 5 else 3) t u).
Proof.
  set (locks := λ l : bool, match run (cross l) with Done (s, _) => s | _ => WaitDieALock_new end).
  exists locks. split; [reflexivity|]. split; [reflexivity|].
  refine (proj2 (waitdie_no_deadlock locks _ (λ p, p) _ _)).
  - intros l. exists (cross l). destruct l; (eexists; split; [repeat constructor|split; [done|reflexivity]]).
  - intros l r Hr. destruct l; cbn in Hr; set_unfold; naive_solver.
Defined.
