(* ===== verification/WoundDie.v ===== *)
(** * The wound-die lock

    Models [WoundDieALock] of src/rococo-dst/rrr/misc/alock.{hpp,cpp}.  A request of a
    higher priority (a smaller value) pushes conflicting requests of a lower one out of
    the queue: waiting ones through their no callback, holders through their wound
    callback, which may refuse.  What the wound callbacks answer is a function [w] from
    request ids, one for each call of [vlock].

    The callbacks of pushed-out requests run inside [vlock], before the new request is in
    the queue; they are events here as for the other locks, so they are taken not to call
    the same lock (the wound callbacks of memdb/txn.cc only set a flag).  The consistency
    check of the class, which is never called, is left out. *)

From S2P Require Import Prelude ALock WaitDie.

#[local] Arguments uwrap : simpl never.
#[local] Arguments swrap : simpl never.

Record WoundDieALock := mkWo {
  wo_next_id_ : Z;
  wo_status_ : status_t;
  wo_n_rlock_ : Z;
  wo_done_ : bool;
  wo_requests_ : list lock_req_t
}.

Implicit Types (s : WoundDieALock) (r a b x : lock_req_t) (l k rl : list lock_req_t).

Definition WoundDieALock_new : WoundDieALock := mkWo 1 FREE 0 false [].

(** ** Granting *)

(** [write_acquire(lock_req)], for the request [r] between [pre] and [post]. *)
Definition wo_write_acquire s (pre : list lock_req_t) r (post : list lock_req_t) : result (WoundDieALock * list event) :=
  _ ← verify (waiting_as WLOCK r);
  Done (mkWo (wo_next_id_ s) WLOCKED (wo_n_rlock_ s) (wo_done_ s) (pre ++ set_status LOCK r :: post), [Yes (id r)]).

(** [read_acquire(lock_reqs)], for the requests [run] between [pre] and [rest]. *)
Definition wo_read_acquire s (pre run rest : list lock_req_t) : result (WoundDieALock * list event) :=
  if decide (length run = 0%nat) then
    Done (mkWo (wo_next_id_ s) (wo_status_ s) (wo_n_rlock_ s) (wo_done_ s) (pre ++ run ++ rest), [])
  else
    _ ← verify (forallb (waiting_as RLOCK) run);
    Done (mkWo (wo_next_id_ s) (if decide (wo_n_rlock_ s = 0) then RLOCKED else wo_status_ s)
            (i64 (wo_n_rlock_ s + Z.of_nat (length run))) (wo_done_ s) (pre ++ (set_status LOCK <$> run) ++ rest),
          Yes ∘ id <$> run).

(** ** [WoundDieALock::wound], [wound_die] *)

(** The status of the lock and its number of readers afterwards, the result and the
    callback that was called. *)
Definition wound (w : Z → Z) (st : status_t) (n : Z) r : result (status_t * Z * Z * event) :=
  match status r with
  | WAIT => Done (st, n, 0, No (id r))
  | LOCK =>
      let ret := w (id r) in
      if decide (ret = 0) then
        match type r with
        | WLOCK => _ ← verify (bool_decide (st = WLOCKED)); Done (FREE, n, ret, Wounded (id r) ret)
        | RLOCK =>
            _ ← verify (bool_decide (st = RLOCKED));
            let n := i64 (n - 1) in
            Done (if decide (n = 0) then FREE else st, n, ret, Wounded (id r) ret)
        end
      else Done (st, n, ret, Wounded (id r) ret)
  end.

(** What the loops of [wound_die] do with a request. *)
Inductive wound_act := WaStop | WaSkip | WaWound.

Definition write_act (p : Z) r : wound_act :=
  if decide (p ≤ priority r) then WaWound
  else match type r with WLOCK => WaStop | RLOCK => WaSkip end.

Definition read_act (p : Z) r : wound_act :=
  if decide (priority r < p) then WaStop
  else match type r with WLOCK => WaWound | RLOCK => WaSkip end.

(** The loop over the reversed queue: status, readers, the reversed queue that is left
    and the callbacks. *)
Fixpoint wound_loop (w : Z → Z) (act : lock_req_t → wound_act) (st : status_t) (n : Z) rl
  : result (status_t * Z * list lock_req_t * list event) :=
  match rl with
  | [] => Done (st, n, [], [])
  | r :: rl' =>
      match act r with
      | WaStop => Done (st, n, rl, [])
      | WaSkip => '(st, n, k, evs) ← wound_loop w act st n rl'; Done (st, n, r :: k, evs)
      | WaWound =>
          '(st, n, ret, e) ← wound w st n r;
          '(st, n, k, evs) ← wound_loop w act st n rl';
          Done (st, n, if decide (ret = 0) then k else r :: k, e :: evs)
      end
  end.

Definition wound_die (w : Z → Z) (t : type_t) (p : Z) s : result (WoundDieALock * list event) :=
  '(st, n, k, evs) ← wound_loop w (match t with WLOCK => write_act p | RLOCK => read_act p end)
                       (wo_status_ s) (wo_n_rlock_ s) (reverse (wo_requests_ s));
  Done (mkWo (wo_next_id_ s) st n (wo_done_ s) (reverse k), evs).

(** ** [WoundDieALock::vlock] *)

(** The loop of case [RLOCKED]: the holders, the waiting readers behind them and the
    rest; [new_acquired] is set once a waiting reader was seen. *)
Fixpoint wo_collect (new_acquired : bool) l : result (list lock_req_t * list lock_req_t * list lock_req_t) :=
  match l with
  | [] => Done ([], [], [])
  | r :: l' =>
      if decide (status r = LOCK) then
        _ ← verify (bool_decide (type r = RLOCK) && negb new_acquired);
        '(pre, run, rest) ← wo_collect new_acquired l'; Done (r :: pre, run, rest)
      else match type r with
           | RLOCK => '(pre, run, rest) ← wo_collect true l'; Done (pre, r :: run, rest)
           | WLOCK => Done ([], [], l)
           end
  end.

Definition front_holds (t : type_t) l : bool :=
  match l with r :: _ => bool_decide (type r = t) && bool_decide (status r = LOCK) | [] => false end.

Definition wo_grant s : result (WoundDieALock * list event) :=
  match wo_status_ s with
  | FREE =>
      match wo_requests_ s with
      | [] => Crash invalid_access
      | r :: l =>
          match type r with
          | WLOCK => wo_write_acquire s [] r l
          | RLOCK => let '(run, rest) := read_run (r :: l) in wo_read_acquire s [] run rest
          end
      end
  | RLOCKED =>
      _ ← verify (front_holds RLOCK (wo_requests_ s));
      '(pre, run, rest) ← wo_collect false (wo_requests_ s);
      wo_read_acquire s pre run rest
  | WLOCKED => _ ← verify (front_holds WLOCK (wo_requests_ s)); Done (s, [])
  end.

Definition wo_vlock (w : Z → Z) (t : type_t) (p : Z) s : result (WoundDieALock * Z * list event) :=
  let i := wo_next_id_ s in
  let s := mkWo (u64 (i + 1)) (wo_status_ s) (wo_n_rlock_ s) (wo_done_ s) (wo_requests_ s) in
  if wo_done_ s then Done (s, i, [No i])
  else
    '(s, evs) ← wound_die w t p s;
    let s := mkWo (wo_next_id_ s) (wo_status_ s) (wo_n_rlock_ s) (wo_done_ s) (wo_requests_ s ++ [mkReq i p t WAIT]) in
    '(s, evs') ← wo_grant s;
    Done (s, i, evs ++ evs').

(** ** [WoundDieALock::abort] *)

Definition wo_abort_waiting s (pre : list lock_req_t) (it : lock_req_t) (post : list lock_req_t)
  : result (WoundDieALock * list event) :=
  let s := mkWo (wo_next_id_ s) (wo_status_ s) (wo_n_rlock_ s) (wo_done_ s) (pre ++ post) in
  if decide (type it = WLOCK ∧ count_type WLOCK pre = 0) then
    _ ← verify (bool_decide (wo_status_ s = RLOCKED));
    let '(run, rest) := read_run post in
    '(s, evs) ← wo_read_acquire s pre run rest;
    Done (s, evs ++ [No (id it)])
  else Done (s, [No (id it)]).

Definition wo_abort_granted s (pre : list lock_req_t) (it : lock_req_t) (post : list lock_req_t)
  : result (WoundDieALock * list event) :=
  let free n := _ ← verify (bool_decide (length (pre ++ post) = 0%nat));
                Done (mkWo (wo_next_id_ s) FREE n (wo_done_ s) (pre ++ post), []) in
  match type it with
  | RLOCK =>
      let s := mkWo (wo_next_id_ s) (wo_status_ s) (i64 (wo_n_rlock_ s - 1)) (wo_done_ s) (pre ++ post) in
      if decide (wo_n_rlock_ s = 0) then
        match post with [] => free (wo_n_rlock_ s) | nx :: post => wo_write_acquire s pre nx post end
      else Done (s, [])
  | WLOCK =>
      let s := mkWo (wo_next_id_ s) (wo_status_ s) (wo_n_rlock_ s) (wo_done_ s) (pre ++ post) in
      match post with
      | [] => free (wo_n_rlock_ s)
      | nx :: post' =>
          match type nx with
          | WLOCK => wo_write_acquire s pre nx post'
          | RLOCK =>
              let '(run, rest) := read_run post in
              '(s, evs) ← wo_read_acquire s pre run rest;
              _ ← verify (bool_decide (wo_status_ s = RLOCKED));
              Done (s, evs)
          end
      end
  end.

Definition wo_abort (i : Z) s : result (WoundDieALock * list event) :=
  if wo_done_ s then Done (s, [])
  else
    match find_req i (wo_requests_ s) with
    | None => Done (s, [])
    | Some (pre, it, post) =>
        match status it with
        | WAIT => wo_abort_waiting s pre it post
        | LOCK => wo_abort_granted s pre it post
        end
    end.

(** [~WoundDieALock] *)
Definition wo_destroy s : result (WoundDieALock * list event) :=
  _ ← verify (negb (wo_done_ s));
  _ ← verify (bool_decide (wo_status_ s ≠ RLOCKED));
  Done (mkWo (wo_next_id_ s) (wo_status_ s) (wo_n_rlock_ s) true [], No ∘ id <$> filter (λ r, status r = WAIT) (wo_requests_ s)).

(** ** Callbacks *)

(** A wound callback that returns 0 takes the lock away from its holder. *)
Definition wo_apply (v : view) (e : event) : option view :=
  match e with
  | Wounded i ret =>
      match v !! i with Some (_, true) => Some (if decide (ret = 0) then delete i v else v) | _ => None end
  | _ => apply_event v e
  end.

Fixpoint wo_applies (v : view) (evs : list event) : option view :=
  match evs with
  | [] => Some v
  | e :: evs => v ← wo_apply v e; wo_applies v evs
  end.

Lemma wo_applies_app v e1 e2 : wo_applies v (e1 ++ e2) = wo_applies v e1 ≫= λ v, wo_applies v e2.
Proof. revert v. induction e1 as [|e e1 IH]; intros v; [done|]. cbn. destruct (wo_apply v e); cbn; auto. Qed.

Lemma wo_applies_plain v evs v' : apply_events v evs = Some v' → wo_applies v evs = Some v'.
Proof.
  revert v. induction evs as [|e evs IH]; intros v; cbn; [done|]. destruct (apply_event v e) as [v1|] eqn:E; [|done].
  cbn. intros H. assert (wo_apply v e = Some v1) as -> by by destruct e. cbn. by apply IH.
Qed.

(** The request refused to be wounded. *)
Definition refused (evs : list event) (i : Z) : Prop := ∃ ret, ret ≠ 0 ∧ Wounded i ret ∈ evs.

Lemma refused_app e1 e2 i : refused e1 i ∨ refused e2 i → refused (e1 ++ e2) i.
Proof. intros [(ret & ? & ?)|(ret & ? & ?)]; exists ret; set_solver. Qed.

(** ** The loop of [wound_die] *)

(** The callback that was called. *)
Lemma wound_callback w st n r st' n' ret e :
  wound w st n r = Done (st', n', ret, e) →
  (status r = WAIT ∧ ret = 0 ∧ e = No (id r)) ∨ (status r = LOCK ∧ ret = w (id r) ∧ e = Wounded (id r) ret).
Proof.
  unfold wound. destruct (status r); [intros [= <- <- <- <-]; by left|]. intros H. right.
  case_decide; [|by injection H as <- <- <- <-]. destruct (type r).
  - destruct (bool_decide (st = RLOCKED)); [|done]. cbn in H. by injection H as <- <- <- <-.
  - destruct (bool_decide (st = WLOCKED)); [|done]. cbn in H. by injection H as <- <- <- <-.
Qed.

(** The view after the loop: [post] was passed before, in reverse. *)
Lemma wound_loop_view w act st n rl st' n' k evs post :
  wound_loop w act st n rl = Done (st', n', k, evs) → NoDup (id <$> post ++ rl) →
  k `sublist_of` rl ∧ NoDup (id <$> post ++ k) ∧ wo_applies (queue_view (post ++ rl)) evs = Some (queue_view (post ++ k)).
Proof.
  revert st n st' n' k evs post. induction rl as [|r rl IH]; intros st n st' n' k evs post Hrun Hnd; cbn in Hrun.
  { injection Hrun as <- <- <- <-. split_and!; [apply sublist_nil|done|done]. }
  assert (Hkeep : ∀ st n st' n' k evs, wound_loop w act st n rl = Done (st', n', k, evs) →
    (r :: k) `sublist_of` (r :: rl) ∧ NoDup (id <$> post ++ r :: k) ∧
    wo_applies (queue_view (post ++ r :: rl)) evs = Some (queue_view (post ++ r :: k))).
  { intros st1 n1 st2 n2 k1 evs1 H1. destruct (IH _ _ _ _ _ _ (post ++ [r]) H1) as (Hs & Hn & Hv); [by rewrite <-app_assoc|].
    rewrite <-!app_assoc in Hv. rewrite <-app_assoc in Hn. split_and!; [by apply sublist_skip|done|done]. }
  destruct (act r).
  - injection Hrun as <- <- <- <-. split_and!; [reflexivity|done|done].
  - destruct (wound_loop w act st n rl) as [[[[st1 n1] k1] evs1]| |] eqn:E; [|done..]. cbn in Hrun. injection Hrun as <- <- <- <-.
    by eapply Hkeep.
  - destruct (wound w st n r) as [[[[st1 n1] ret] e]| |] eqn:Ew; [|done..]. cbn in Hrun.
    destruct (wound_loop w act st1 n1 rl) as [[[[st2 n2] k2] evs2]| |] eqn:E; [|done..]. cbn in Hrun. injection Hrun as <- <- <- <-.
    assert (He : wo_apply (queue_view (post ++ r :: rl)) e = Some (queue_view (if decide (ret = 0) then post ++ rl else post ++ r :: rl))).
    { apply wound_callback in Ew as [(Hst & -> & ->)|(Hst & _ & ->)]; [rewrite decide_True by done; by apply apply_no|].
      assert (Hl : queue_view (post ++ r :: rl) !! id r = Some (type r, true))
        by (rewrite queue_view_middle by done; by rewrite lookup_insert_eq, Hst).
      unfold wo_apply. rewrite Hl. case_decide; [by rewrite queue_view_delete|done]. }
    cbn [wo_applies]. rewrite He. cbn [mbind option_bind]. case_decide as Hret.
    + destruct (IH _ _ _ _ _ _ post E) as (Hs & Hn & Hv); [|split_and!; [by apply sublist_cons|done|done]].
      rewrite fmap_app, fmap_cons in Hnd. rewrite fmap_app. apply NoDup_app in Hnd as (H1 & H2 & H3).
      apply NoDup_cons in H3 as [? ?]. apply NoDup_app. split_and!; [done| |done]. intros i Hi1 Hi2. apply (H2 i Hi1). by right.
    + by eapply Hkeep.
Qed.

(** ** Order *)

(** [a] is in front of [b]: it does not conflict, has a higher priority, or refused. *)
Definition wo_before (R : Z → Prop) a b : Prop := conflict a b → priority a < priority b ∨ R (id a).

Lemma wo_before_mono (R R' : Z → Prop) a b : (∀ i, R i → R' i) → wo_before R a b → wo_before R' a b.
Proof. intros HR H Hc. destruct (H Hc); auto. Qed.

Lemma sorted_mono (P Q : lock_req_t → lock_req_t → Prop) l :
  (∀ a b, P a b → Q a b) → StronglySorted P l → StronglySorted Q l.
Proof.
  intros HPQ. induction 1 as [|a l Hs IH Hf]; constructor; [done|]. eapply Forall_impl; [exact Hf|]. auto.
Qed.

Lemma sorted_sublist (P : lock_req_t → lock_req_t → Prop) k l : k `sublist_of` l → StronglySorted P l → StronglySorted P k.
Proof.
  induction 1 as [|x k l Hkl IH|x k l Hkl IH]; intros Hs; [done|..]; apply StronglySorted_inv in Hs as [Hs Hf].
  - constructor; [by apply IH|]. apply Forall_forall. intros y Hy. rewrite Forall_forall in Hf. apply Hf.
    by eapply elem_of_sublist.
  - by apply IH.
Qed.

(** The decisions of a loop for a request [r]. *)
Record act_for (act : lock_req_t → wound_act) r : Prop := {
  af_stop R a x : act x = WaStop → wo_before R a x → wo_before R a r;
  af_stop_self x : act x = WaStop → priority x < priority r;
  af_skip R x : act x = WaSkip → wo_before R x r;
}.

Lemma write_act_for p i : act_for (write_act p) (mkReq i p WLOCK WAIT).
Proof.
  unfold write_act. split.
  - intros R a x Hx Ha _. case_decide; [done|]. destruct (type x) eqn:Ht; [done|]. cbn.
    destruct (Ha (or_intror Ht)); [left; lia|by right].
  - intros x Hx. case_decide; [done|]. cbn. lia.
  - intros R x Hx _. case_decide; [done|]. left. cbn. lia.
Qed.

Lemma read_act_for p i : act_for (read_act p) (mkReq i p RLOCK WAIT).
Proof.
  unfold read_act. split.
  - intros R a x Hx Ha [Hc|Hc]; [|done]. case_decide; [|by destruct (type x)]. cbn.
    destruct (Ha (or_introl Hc)); [left; lia|by right].
  - intros x Hx. case_decide; [done|by destruct (type x)].
  - intros R x Hx [Hc|Hc]; [|done]. case_decide; [done|]. by rewrite Hc in Hx.
Qed.

(** What is left in the queue stands in front of the new request rightly. *)
Lemma wound_loop_order w act st n l st' n' k evs r (R : Z → Prop) :
  act_for act r → StronglySorted (wo_before R) l → wound_loop w act st n (reverse l) = Done (st', n', k, evs) →
  Forall (λ a, wo_before (λ i, R i ∨ refused evs i) a r) k.
Proof.
  intros Hact. revert st n st' n' k evs. induction l as [|x l IH] using rev_ind; intros st n st' n' k evs Hs Hrun.
  { cbn in Hrun. injection Hrun as <- <- <- <-. constructor. }
  rewrite reverse_snoc in Hrun. cbn in Hrun.
  assert (Hl : StronglySorted (wo_before R) l ∧ Forall (λ a, wo_before R a x) l).
  { clear -Hs. induction l as [|y l IH]; [split; constructor|]. cbn in Hs. apply StronglySorted_inv in Hs as [Hs Hf].
    destruct (IH Hs). rewrite Forall_app, Forall_singleton in Hf. split; constructor; tauto. }
  destruct Hl as [Hl Hx]. destruct (act x) eqn:Ha.
  - injection Hrun as <- <- <- <-. apply Forall_cons. split.
    + intros _. left. by apply (af_stop_self _ _ Hact).
    + apply Forall_forall. intros y Hy; apply elem_of_reverse in Hy; rewrite reverse_involutive in Hy. rewrite Forall_forall in Hx.
      apply (wo_before_mono R); [tauto|]. apply (af_stop _ _ Hact R y x); [done|by apply Hx].
  - destruct (wound_loop w act st n (reverse l)) as [[[[st1 n1] k1] evs1]| |] eqn:E; [|done..]. cbn in Hrun. injection Hrun as <- <- <- <-.
    apply Forall_cons. split; [by apply (af_skip _ _ Hact)|by eapply IH].
  - destruct (wound w st n x) as [[[[st1 n1] ret] e]| |] eqn:Ew; [|done..]. cbn in Hrun.
    destruct (wound_loop w act st1 n1 (reverse l)) as [[[[st2 n2] k2] evs2]| |] eqn:E; [|done..]. cbn in Hrun. injection Hrun as <- <- <- <-.
    assert (Hk : Forall (λ a, wo_before (λ i, R i ∨ refused (e :: evs2) i) a r) k2).
    { eapply Forall_impl; [by eapply IH|]. intros a. apply wo_before_mono. intros i [?|?]; [by left|right]. by apply (refused_app [e]); right. }
    case_decide as Hret; [done|]. apply Forall_cons. split; [|done]. intros _. right. right. exists ret. split; [done|].
    apply wound_callback in Ew as [(_ & -> & _)|(_ & _ & ->)]; [done|by left].
Qed.

(** ** Who holds the lock after the loop *)

(** As [shape], but nobody may hold a lock with waiting requests, and readers may wait
    right behind readers that hold it. *)
Inductive loose : status_t → Z → list lock_req_t → Prop :=
  | loose_free q : Forall (λ r, status r = WAIT) q → loose FREE 0 q
  | loose_write r q :
      type r = WLOCK → status r = LOCK → Forall (λ r, status r = WAIT) q → loose WLOCKED 0 (r :: q)
  | loose_read run q :
      run ≠ [] → Forall (λ r, type r = RLOCK ∧ status r = LOCK) run → Forall (λ r, status r = WAIT) q →
      loose RLOCKED (Z.of_nat (length run)) (run ++ q).

Lemma shape_loose st n l : shape st n l → loose st n l.
Proof. intros [| |]; constructor; done. Qed.

(** The waiting requests at the end of the queue do not touch the lock. *)
Lemma wound_loop_waiting w act st n rq rg :
  Forall (λ r, status r = WAIT) rq →
  ∃ kq evs (stop : bool), Forall (λ r, status r = WAIT) kq ∧
    wound_loop w act st n (rq ++ rg) =
      if stop then Done (st, n, kq ++ rg, evs)
      else '(st', n', k, evs') ← wound_loop w act st n rg; Done (st', n', kq ++ k, evs ++ evs').
Proof.
  induction 1 as [|r rq Hr Hq (kq & evs & stop & Hk & IH)].
  { exists [], [], false. split; [constructor|]. cbn. destruct (wound_loop w act st n rg) as [[[[? ?] ?] ?]| |]; done. }
  cbn [app wound_loop]. destruct (act r).
  - exists (r :: rq), [], true. split; [by constructor|done].
  - exists (r :: kq), evs, stop. split; [by constructor|]. rewrite IH. destruct stop; [done|].
    destruct (wound_loop w act st n rg) as [[[[? ?] ?] ?]| |]; done.
  - unfold wound. rewrite Hr. cbn [mbind result_bind]. exists kq, (No (id r) :: evs), stop. split; [done|]. rewrite IH.
    destruct stop; [done|]. destruct (wound_loop w act st n rg) as [[[[? ?] ?] ?]| |]; done.
Qed.

(** Readers that hold the lock, [c] more of which were passed already. *)
Lemma wound_loop_readers w act rg c :
  Forall (λ r, type r = RLOCK ∧ status r = LOCK) rg → Z.of_nat (length rg + c) < 2 ^ 63 → (0 < length rg + c)%nat →
  ∃ k evs, wound_loop w act RLOCKED (Z.of_nat (length rg + c)) rg =
      Done (if decide (length k + c = 0)%nat then FREE else RLOCKED, Z.of_nat (length k + c), k, evs) ∧
    Forall (λ r, type r = RLOCK ∧ status r = LOCK) k.
Proof.
  intros Hrg. revert c. induction Hrg as [|r rg [Ht Hs] Hrg IH]; intros c Hlt Hpos; cbn [wound_loop length] in *.
  { exists [], []. split; [|constructor]. by rewrite decide_False by (cbn in *; lia). }
  assert (Hkeep : ∃ k evs, wound_loop w act RLOCKED (Z.of_nat (S (length rg) + c)) rg =
      Done (if decide (length (r :: k) + c = 0)%nat then FREE else RLOCKED, Z.of_nat (length (r :: k) + c), k, evs) ∧
    Forall (λ r, type r = RLOCK ∧ status r = LOCK) k).
  { destruct (IH (S c)) as (k & evs & Hrun & Hk); [lia|lia|]. exists k, evs. split; [|done].
    replace (S (length rg) + c)%nat with (length rg + S c)%nat by lia. rewrite Hrun. cbn [length].
    rewrite !decide_False by lia. do 4 f_equal. lia. }
  destruct (act r).
  - exists (r :: rg), []. split; [by rewrite decide_False by (cbn; lia)|by constructor].
  - destruct Hkeep as (k & evs & -> & Hk). exists (r :: k), evs. split; [done|by constructor].
  - unfold wound. rewrite Hs, Ht. case_decide as Hret; cbn [mbind result_bind].
    + rewrite bool_decide_eq_true_2 by done. cbn [verify mbind result_bind]. rewrite i64_small by lia.
      replace (Z.of_nat (S (length rg) + c) - 1) with (Z.of_nat (length rg + c)) by lia.
      destruct (decide (length rg + c = 0)%nat) as [H0|H0].
      * destruct rg; [|cbn in *; lia]. cbn in H0. subst c. cbn. rewrite (decide_True (P := w (id r) = 0)) by done.
        exists [], [Wounded (id r) (w (id r))]. split; [done|constructor].
      * rewrite decide_False by lia. destruct (IH c) as (k & evs & -> & Hk); [lia|lia|]. cbn [mbind result_bind].
        rewrite (decide_True (P := w (id r) = 0)) by done. eexists _, _. split; [done|done].
    + destruct Hkeep as (k & evs & -> & Hk). cbn [mbind result_bind]. rewrite (decide_False (P := w (id r) = 0)) by done.
      eexists (r :: k), _. split; [done|by constructor].
Qed.

Lemma wound_loop_loose w act st n l :
  shape st n l → Z.of_nat (length l) < 2 ^ 63 →
  ∃ st' n' k evs, wound_loop w act st n (reverse l) = Done (st', n', k, evs) ∧ loose st' n' (reverse k).
Proof.
  intros Hs Hlen. destruct Hs as [|r q Ht Hst Hq|run q Hne Hrun Hq Hh].
  - eexists _, _, _, _. split; [done|]. constructor. constructor.
  - rewrite reverse_cons. destruct (wound_loop_waiting w act WLOCKED 0 (reverse q) [r]) as (kq & evs & stop & Hk & ->); [by apply Forall_reverse|].
    assert (Hq' : Forall (λ r, status r = WAIT) (reverse kq)) by by apply Forall_reverse.
    assert (Hkeep : loose WLOCKED 0 (reverse (kq ++ [r]))) by (rewrite reverse_app; by constructor).
    destruct stop; [by eexists _, _, _, _|]. cbn [wound_loop]. destruct (act r); cbn [mbind result_bind]; [by eexists _, _, _, _..|].
    unfold wound. rewrite Hst, Ht. destruct (decide (w (id r) = 0)) as [Hw|Hw]; cbn [mbind result_bind].
    + rewrite bool_decide_eq_true_2 by done. cbn [verify mbind result_bind]. rewrite (decide_True (P := w (id r) = 0)) by done.
      eexists _, _, _, _. split; [done|]. rewrite app_nil_r. by constructor.
    + rewrite (decide_False (P := w (id r) = 0)) by done. by eexists _, _, _, _.
  - rewrite reverse_app. rewrite length_app in Hlen.
    assert (Hpos : (0 < length run)%nat) by (destruct run; [done|cbn; lia]).
    destruct (wound_loop_waiting w act RLOCKED (Z.of_nat (length run)) (reverse q) (reverse run)) as (kq & evs & stop & Hk & ->); [by apply Forall_reverse|].
    assert (Hq' : Forall (λ r, status r = WAIT) (reverse kq)) by by apply Forall_reverse.
    destruct stop; [eexists _, _, _, _; split; [done|]; rewrite reverse_app, reverse_involutive; by constructor|].
    destruct (wound_loop_readers w act (reverse run) 0) as (k & evs' & Hrk & Hk'); [by apply Forall_reverse|rewrite length_reverse; lia..|].
    rewrite Nat.add_0_r, length_reverse in Hrk. rewrite Hrk. cbn [mbind result_bind]. eexists _, _, _, _. split; [done|].
    clear Hrk. rewrite Nat.add_0_r, reverse_app. case_decide as H0.
    + destruct k; [|done]. cbn. by constructor.
    + replace (Z.of_nat (length k)) with (Z.of_nat (length (reverse k))) by by rewrite length_reverse.
      constructor; [|by apply Forall_reverse|done]. intros Hn%(f_equal length). rewrite length_reverse in Hn. done.
Qed.

(** ** Granting keeps the queue in shape *)

Definition wo_with s (st : status_t) (n : Z) l : WoundDieALock := mkWo (wo_next_id_ s) st n (wo_done_ s) l.

Lemma wo_read_acquire_eq s st n pre run rest :
  Forall (λ r, type r = RLOCK) run → Forall (λ r, status r = WAIT) run →
  (n = 0 ↔ st ≠ RLOCKED) → 0 ≤ n → n + Z.of_nat (length run) < 2 ^ 63 → run ≠ [] ∨ st = RLOCKED →
  wo_read_acquire (wo_with s st n (pre ++ run ++ rest)) pre run rest =
    Done (wo_with s RLOCKED (n + Z.of_nat (length run)) (pre ++ (set_status LOCK <$> run) ++ rest), Yes ∘ id <$> run).
Proof.
  intros Ht Hw Hst Hn Hb Hne. unfold wo_read_acquire, wo_with. cbn [wo_next_id_ wo_status_ wo_n_rlock_ wo_done_]. case_decide as Hlen.
  - apply nil_length_inv in Hlen as ->. destruct Hne as [| ->]; [done|]. cbn. by rewrite Z.add_0_r.
  - assert (forallb (waiting_as RLOCK) run = true) as ->.
    { apply forallb_forall. intros r Hr%list_elem_of_In. rewrite Forall_forall in Ht, Hw.
      unfold waiting_as. by rewrite !bool_decide_eq_true_2 by auto. }
    cbn. rewrite i64_small by lia. case_decide as H0; [done|]. destruct st; [by destruct H0; apply Hst..|done].
Qed.

Lemma wo_write_acquire_eq s st n pre r post :
  type r = WLOCK → status r = WAIT →
  wo_write_acquire (wo_with s st n (pre ++ r :: post)) pre r post =
    Done (wo_with s WLOCKED n (pre ++ set_status LOCK r :: post), [Yes (id r)]).
Proof. intros Ht Hw. unfold wo_write_acquire, waiting_as. by rewrite !bool_decide_eq_true_2 by done. Qed.

(** What an operation may do to a queue: grant requests, and say so. *)
Definition granted_to l (st : status_t) (n : Z) l' (evs : list event) : Prop :=
  shape st n l' ∧ same_reqs l l' ∧ apply_events (queue_view l) evs = Some (queue_view l').

Lemma grant_readers l n pre run rest :
  l = pre ++ run ++ rest → NoDup (id <$> l) → n = Z.of_nat (length pre) → Forall (λ r, type r = RLOCK ∧ status r = LOCK) pre →
  Forall (λ r, type r = RLOCK) run → Forall (λ r, status r = WAIT) run → pre ++ run ≠ [] → Forall (λ r, status r = WAIT) rest →
  from_option (λ r, type r = WLOCK) True (head rest) →
  granted_to l RLOCKED (n + Z.of_nat (length run)) (pre ++ (set_status LOCK <$> run) ++ rest) (Yes ∘ id <$> run).
Proof.
  intros -> Hnd Hn Hp Hr Hw Hne Hrest Hh. split_and!; [by apply shape_grant_readers|apply same_reqs_run|by apply apply_grants].
Qed.

Lemma grant_writer l r post :
  l = r :: post → NoDup (id <$> l) → type r = WLOCK → status r = WAIT → Forall (λ r, status r = WAIT) post →
  granted_to l WLOCKED 0 (set_status LOCK r :: post) [Yes (id r)].
Proof.
  intros -> Hnd Ht Hw Hp. split_and!; [by constructor|apply (same_reqs_one [])|].
  cbn [apply_events]. pose proof (apply_yes [] r post Hnd Hw) as Hy. cbn [app] in Hy. by rewrite Hy.
Qed.

Lemma wo_collect_spec run q :
  Forall (λ r, type r = RLOCK ∧ status r = LOCK) run → Forall (λ r, status r = WAIT) q →
  wo_collect false (run ++ q) = Done (run, (read_run q).1, (read_run q).2).
Proof.
  intros Hrun Hq. assert (Hw : ∀ f : bool, wo_collect f q = Done ([], (read_run q).1, (read_run q).2)).
  { induction Hq as [|r q Hr Hq IH]; intros f; [done|]. cbn. rewrite decide_False by congruence. destruct (type r); [|done].
    rewrite IH. cbn. by destruct (read_run q). }
  induction Hrun as [|r run [Ht Hs] Hrun IH]; [apply Hw|]. cbn. rewrite decide_True by done. rewrite bool_decide_eq_true_2 by done.
  cbn. by rewrite IH.
Qed.

Lemma wo_grant_ok s st n l r :
  loose st n l → status r = WAIT → NoDup (id <$> l ++ [r]) → Z.of_nat (length (l ++ [r])) < 2 ^ 63 →
  ∃ st' n' l' evs, wo_grant (wo_with s st n (l ++ [r])) = Done (wo_with s st' n' l', evs) ∧ granted_to (l ++ [r]) st' n' l' evs.
Proof.
  intros Hl Hr Hnd Hlen. destruct Hl as [q Hq|x q Ht Hst Hq|run q Hne Hrun Hq]; unfold wo_grant; cbn [wo_with wo_status_ wo_requests_].
  - assert (Hall : Forall (λ r, status r = WAIT) (q ++ [r])) by (apply Forall_app; auto).
    destruct (q ++ [r]) as [|x l] eqn:E; [by destruct q|]. apply Forall_cons in Hall as [Hx Hall]. destruct (type x) eqn:Ht.
    + destruct (read_run (x :: l)) as [run rest] eqn:Er. pose proof Er as Er'. apply read_run_spec in Er as (Hsplit & Hrr & Hh).
      assert (run ≠ []) as Hne by (cbn in Er'; rewrite Ht in Er'; by destruct (read_run l); simplify_eq).
      rewrite Hsplit in *. assert (Hw : Forall (λ r, status r = WAIT) (run ++ rest)) by (rewrite <-Hsplit; by constructor).
      apply Forall_app in Hw as [Hw1 Hw2]. rewrite length_app in Hlen.
      pose proof (wo_read_acquire_eq s FREE 0 [] run rest Hrr Hw1) as Ha. cbn [app] in Ha. rewrite Ha; [|done|lia|lia|by left].
      eexists _, _, _, _. split; [done|]. by apply (grant_readers _ 0 [] run rest).
    + pose proof (wo_write_acquire_eq s FREE 0 [] x l Ht Hx) as Ha. cbn [app] in Ha. rewrite Ha.
      eexists _, _, _, _. split; [done|]. by apply grant_writer.
  - cbn [app front_holds]. rewrite !bool_decide_eq_true_2 by done. eexists _, _, _, _. split; [done|].
    split_and!; [constructor; [done..|]; apply Forall_app; auto|apply same_reqs_refl|done].
  - assert (front_holds RLOCK ((run ++ q) ++ [r]) = true) as ->.
    { destruct run as [|y run]; [done|]. apply Forall_cons in Hrun as [[? ?] _]. cbn. by rewrite !bool_decide_eq_true_2. }
    cbn [verify mbind result_bind]. rewrite <-!app_assoc in *.
    assert (Hq' : Forall (λ r, status r = WAIT) (q ++ [r])) by (apply Forall_app; auto).
    rewrite wo_collect_spec by done. cbn [mbind result_bind].
    destruct (read_run (q ++ [r])) as [run2 rest] eqn:E. apply read_run_spec in E as (Hsplit & Hr2 & Hh). cbn [fst snd].
    rewrite Hsplit in *. apply Forall_app in Hq' as [Hw1 Hw2]. rewrite !length_app in Hlen.
    rewrite wo_read_acquire_eq; [|done|done| |lia|lia|by right].
    2:{ split; [|done]. destruct run; [done|]. cbn. lia. }
    eexists _, _, _, _. split; [done|]. apply grant_readers; try done. by destruct run.
Qed.

(** ** The invariant *)

Definition INT64_MIN : Z := - 2 ^ 63.

Record wo_queue (R : Z → Prop) (next : Z) l : Prop := {
  wq_len : Z.of_nat (length l) < next;
  wq_ids : NoDup (id <$> l);
  wq_known : Forall (λ r, 0 < id r < next) l;
  wq_order : StronglySorted (wo_before R) l;
  wq_prio : Forall (λ r, INT64_MIN ≤ priority r) l;
}.

Record wo_wf (R : Z → Prop) s : Prop := {
  ww_done : wo_done_ s = false;
  ww_next : 1 ≤ wo_next_id_ s ≤ MAX_REQ;
  ww_queue : wo_queue R (wo_next_id_ s) (wo_requests_ s);
  ww_shape : shape (wo_status_ s) (wo_n_rlock_ s) (wo_requests_ s);
}.

Lemma wo_queue_sub (R R' : Z → Prop) n l k :
  (∀ i, R i → R' i) → k `sublist_of` l → wo_queue R n l → wo_queue R' n k.
Proof.
  intros HR Hk [Hl Hi Hn Ho Hp]. split.
  - apply sublist_length in Hk. lia.
  - eapply sublist_NoDup; [exact Hi|]. by apply fmap_sublist.
  - apply Forall_forall. intros x Hx. rewrite Forall_forall in Hn. apply Hn. by eapply elem_of_sublist.
  - eapply sorted_sublist; [done|]. eapply sorted_mono; [|exact Ho]. intros a b. by apply wo_before_mono.
  - apply Forall_forall. intros x Hx. rewrite Forall_forall in Hp. apply Hp. by eapply elem_of_sublist.
Qed.

Lemma wo_queue_snoc R n l r :
  wo_queue R n l → id r = n → 1 ≤ n → INT64_MIN ≤ priority r → Forall (λ a, wo_before R a r) l → wo_queue R (n + 1) (l ++ [r]).
Proof.
  intros [Hl Hi Hk Ho Hp] Hr Hn Hmin Hb. split.
  - rewrite length_app. cbn. lia.
  - rewrite fmap_app, NoDup_app. split_and!; [done| |apply NoDup_singleton].
    intros i (x & -> & Hx)%list_elem_of_fmap Hin%list_elem_of_singleton. rewrite Forall_forall in Hk. apply Hk in Hx. lia.
  - apply Forall_app. split; [|repeat constructor; lia]. eapply Forall_impl; [exact Hk|]. cbn. lia.
  - clear -Ho Hb. induction Ho as [|a l Hs IH Hf]; [repeat constructor|]. apply Forall_cons in Hb as [? ?].
    cbn. constructor; [auto|]. apply Forall_app_2; auto.
  - apply Forall_app_2; [done|by repeat constructor].
Qed.

Lemma wo_queue_same R n l k : same_reqs l k → wo_queue R n l → wo_queue R n k.
Proof.
  intros Hs [Hl Hi Hk Ho Hp]. split.
  - by rewrite <-(Forall2_length _ _ _ Hs).
  - by rewrite (same_reqs_ids l).
  - clear -Hs Hk. induction Hs as [|a b l k (E & _) _ IH]; [done|]. apply Forall_cons in Hk as [? ?]. constructor; [by rewrite <-E|auto].
  - clear -Hs Ho. induction Hs as [|a b l k (E1 & E2 & E3) Hs IH]; [constructor|]. apply StronglySorted_inv in Ho as [Ho Hf].
    constructor; [auto|]. clear -Hs Hf E1 E2 E3. induction Hs as [|a' b' l k (_ & E2' & E3') Hs IH]; [constructor|].
    apply Forall_cons in Hf as [Hb Hf]. constructor; [|auto]. unfold wo_before, conflict in *. by rewrite <-E1, <-E2, <-E3, <-E2', <-E3'.
  - clear -Hs Hp. induction Hs as [|a b l k (_ & E & _) _ IH]; [done|]. apply Forall_cons in Hp as [? ?]. constructor; [by rewrite <-E|auto].
Qed.

(** ** [vlock] *)

Lemma reverse_sublist k l : k `sublist_of` l → reverse k `sublist_of` reverse l.
Proof.
  induction 1 as [|x k l _ IH|x k l _ IH]; [done|..]; rewrite ?reverse_cons.
  - by apply sublist_app.
  - by apply sublist_inserts_r.
Qed.

Lemma wound_die_ok w t p R s :
  wo_wf R s →
  ∃ st n k evs, wound_die w t p s = Done (wo_with s st n k, evs) ∧ loose st n k ∧
    wo_queue (λ i, R i ∨ refused evs i) (wo_next_id_ s) k ∧
    Forall (λ a, wo_before (λ i, R i ∨ refused evs i) a (mkReq (wo_next_id_ s) p t WAIT)) k ∧
    wo_applies (queue_view (wo_requests_ s)) evs = Some (queue_view k).
Proof.
  intros [_ Hn Hq Hsh]. unfold wound_die. set (act := match t with WLOCK => _ | RLOCK => _ end).
  assert (Hact : act_for act (mkReq (wo_next_id_ s) p t WAIT)) by (unfold act; destruct t; [apply read_act_for|apply write_act_for]).
  pose proof (wq_len _ _ _ Hq) as Hlen. unfold MAX_REQ in Hn.
  destruct (wound_loop_loose w act _ _ _ Hsh) as (st & n & k & evs & Hrun & Hl); [lia|]. rewrite Hrun. cbn [mbind result_bind].
  exists st, n, (reverse k), evs. split; [done|]. split; [done|].
  pose proof (wound_loop_order _ _ _ _ _ _ _ _ _ _ R Hact (wq_order _ _ _ Hq) Hrun) as Hord.
  assert (Hids : NoDup (id <$> reverse (wo_requests_ s))) by (rewrite (reverse_Permutation (wo_requests_ s)); apply Hq).
  destruct (wound_loop_view _ _ _ _ _ _ _ _ _ [] Hrun Hids) as (Hsub & Hnd & Hv). cbn [app] in *.
  apply reverse_sublist in Hsub. rewrite reverse_involutive in Hsub. split_and!.
  - eapply wo_queue_sub; [|done|done]. tauto.
  - by apply Forall_reverse.
  - rewrite (queue_view_ext (wo_requests_ s) (reverse (wo_requests_ s))), Hv; [|apply Hq|by rewrite reverse_Permutation].
    by rewrite (queue_view_ext k (reverse k)) by (rewrite ?reverse_Permutation; done).
Qed.

(** The new request does not matter to callbacks of the others. *)
Lemma wo_applies_insert v evs v' i (y : type_t * bool) :
  wo_applies v evs = Some v' → v !! i = None → wo_applies (<[i := y]> v) evs = Some (<[i := y]> v').
Proof.
  revert v. induction evs as [|e evs IH]; intros v; cbn [wo_applies]; [by intros [= ->]|]. intros H Hi.
  destruct (wo_apply v e) as [v1|] eqn:E; [|done]. cbn in H.
  assert (wo_apply (<[i := y]> v) e = Some (<[i := y]> v1) ∧ v1 !! i = None) as [-> Hv1]; [|cbn; by apply IH].
  destruct e as [j|j|j ret]; cbn in *; (destruct (v !! j) as [[t []]|] eqn:Hj; try done);
    (assert (i ≠ j) by congruence); rewrite lookup_insert_ne, Hj by done; injection E as <-.
  - split; [by rewrite insert_insert_ne|by rewrite lookup_insert_ne].
  - split; [by rewrite delete_insert_ne|by rewrite lookup_delete_ne].
  - case_decide; [|done]. split; [by rewrite delete_insert_ne|by rewrite lookup_delete_ne].
Qed.

Lemma wo_vlock_ok w t p R s :
  wo_wf R s → wo_next_id_ s < MAX_REQ → INT64_MIN ≤ p →
  ∃ s' evs, wo_vlock w t p s = Done (s', wo_next_id_ s, evs) ∧ wo_wf (λ i, R i ∨ refused evs i) s' ∧
    wo_next_id_ s' = wo_next_id_ s + 1 ∧
    wo_applies (<[wo_next_id_ s := (t, false)]> (queue_view (wo_requests_ s))) evs = Some (queue_view (wo_requests_ s')).
Proof.
  intros Hwf Hlt Hmin. pose proof (ww_next _ _ Hwf) as Hn. unfold MAX_REQ in *. set (i := wo_next_id_ s) in *. set (r := mkReq i p t WAIT).
  assert (Hnew : queue_view (wo_requests_ s) !! i = None).
  { apply queue_view_None. intros (x & Hx1 & Hx2)%list_elem_of_fmap. pose proof (wq_known _ _ _ (ww_queue _ _ Hwf)) as Hk.
    rewrite Forall_forall in Hk. apply Hk in Hx2. fold i in Hx2. lia. }
  unfold wo_vlock. fold i. cbn [wo_done_]. rewrite (ww_done _ _ Hwf), u64_small by lia.
  set (s1 := mkWo (i + 1) (wo_status_ s) (wo_n_rlock_ s) false (wo_requests_ s)).
  destruct (wound_die_ok w t p R s Hwf) as (st & n & k & evs & Hwd & Hl & Hq & Hb & Hv). fold i r in Hq, Hb.
  assert (Hwd1 : wound_die w t p s1 = Done (wo_with s1 st n k, evs)).
  { unfold wound_die in *. cbn [s1 wo_status_ wo_n_rlock_ wo_requests_ wo_next_id_ wo_done_].
    destruct (wound_loop w _ (wo_status_ s) (wo_n_rlock_ s) (reverse (wo_requests_ s))) as [[[[st1 n1] k1] e1]| |]; [|done..].
    cbn in *. injection Hwd as -> -> <- ->. done. }
  rewrite Hwd1. cbn [mbind result_bind].
  pose proof (wo_queue_snoc _ _ _ r Hq eq_refl ltac:(lia) Hmin Hb) as Hq'. pose proof (wq_len _ _ _ Hq') as Hlen.
  destruct (wo_grant_ok s1 st n k r Hl eq_refl (wq_ids _ _ _ Hq')) as (st' & n' & l' & evs' & Hg & Hsh & Hsame & Hev); [lia|].
  change (mkWo _ _ _ _ _) with (wo_with s1 st n (k ++ [r])). rewrite Hg. cbn [mbind result_bind].
  eexists _, _. split; [done|]. split; [|split; [done|]].
  - split; [done|cbn; unfold MAX_REQ; lia| |done]. cbn. eapply wo_queue_same; [exact Hsame|]. eapply wo_queue_sub; [|reflexivity|exact Hq'].
    intros j [?|?]; [by left|right]. apply refused_app. by left.
  - cbn [wo_requests_ wo_with]. rewrite wo_applies_app, (wo_applies_insert _ _ _ _ _ Hv Hnew). cbn [mbind option_bind].
    apply wo_applies_plain. rewrite <-Hev. f_equal. symmetry. apply (queue_view_snoc k r). apply Hq'.
Qed.

(** ** [abort] *)

Lemma sublist_middle (pre : list lock_req_t) it post : ((pre ++ post) : list lock_req_t) `sublist_of` (pre ++ it :: post).
Proof. apply sublist_app; [done|]. by apply sublist_cons. Qed.

(** The release of a granted reader; the lock goes to the writer behind the last one. *)
Lemma wo_abort_reader s pre run q :
  wo_n_rlock_ s = Z.of_nat (length (pre ++ run)) + 1 → wo_n_rlock_ s < 2 ^ 63 → wo_status_ s = RLOCKED →
  Forall (λ r, type r = RLOCK ∧ status r = LOCK) (pre ++ run) → Forall (λ r, status r = WAIT) q →
  from_option (λ r, type r = WLOCK) True (head q) → NoDup (id <$> pre ++ run ++ q) →
  ∀ it, type it = RLOCK →
  ∃ st n l evs, wo_abort_granted s pre it (run ++ q) = Done (wo_with s st n l, evs) ∧ granted_to (pre ++ run ++ q) st n l evs.
Proof.
  intros Hn Hlt Hst Hall Hq Hh Hnd it Ht. unfold wo_abort_granted. rewrite Ht. cbn [wo_n_rlock_]. rewrite length_app in Hn.
  rewrite i64_small by lia. case_decide as Hz.
  - destruct pre; [|cbn in Hn; lia]. destruct run; [|cbn in Hn; lia]. cbn [app] in *. destruct q as [|nx q].
    + eexists FREE, _, [], _. split; [done|]. rewrite Hz. split_and!; [constructor|constructor|done].
    + cbn in Hh. apply Forall_cons in Hq as [Hnx Hq].
      change (mkWo _ _ _ _ _) with (wo_with s (wo_status_ s) (wo_n_rlock_ s - 1) ([] ++ nx :: q)).
      rewrite wo_write_acquire_eq by done. eexists _, _, _, _. split; [done|]. rewrite Hz. by apply grant_writer.
  - eexists (wo_status_ s), (wo_n_rlock_ s - 1), (pre ++ run ++ q), _. split; [done|].
    split_and!; [|apply same_reqs_refl|done]. rewrite Hst, Hn, app_assoc.
    replace (_ + 1 - 1) with (Z.of_nat (length (pre ++ run))) by (rewrite length_app; lia).
    constructor; [|done..]. intros [-> ->]%app_eq_nil. cbn in *. lia.
Qed.

Lemma wo_abort_writer s it post :
  wo_n_rlock_ s = 0 → wo_status_ s = WLOCKED → type it = WLOCK → Forall (λ r, status r = WAIT) post →
  NoDup (id <$> post) → Z.of_nat (length post) < 2 ^ 63 →
  ∃ st n l evs, wo_abort_granted s [] it post = Done (wo_with s st n l, evs) ∧ granted_to post st n l evs.
Proof.
  intros Hn Hst Ht Hpost Hnd Hlen. unfold wo_abort_granted. rewrite Ht. cbn [app wo_n_rlock_]. destruct post as [|nx post].
  - eexists FREE, _, [], _. split; [done|]. rewrite Hn. split_and!; [constructor|constructor|done].
  - destruct (type nx) eqn:Htn.
    + destruct (read_run (nx :: post)) as [run rest] eqn:E. pose proof E as E'. apply read_run_spec in E as (Hp & Hr & Hh).
      assert (run ≠ []) as Hne by (cbn in E'; rewrite Htn in E'; by destruct (read_run post); simplify_eq).
      rewrite Hp in *. apply Forall_app in Hpost as [Hrw Hrest]. rewrite length_app in Hlen.
      pose proof (wo_read_acquire_eq s (wo_status_ s) (wo_n_rlock_ s) [] run rest) as Hra. cbn [app] in Hra. unfold wo_with in Hra at 1.
      rewrite Hra; [|done|done|by rewrite Hn, Hst|lia|lia|by left]. cbn. eexists _, _, _, _. split; [done|].
      rewrite Hn. by apply (grant_readers _ 0 [] run rest).
    + apply Forall_cons in Hpost as [Hnx Hpost].
      pose proof (wo_write_acquire_eq s (wo_status_ s) (wo_n_rlock_ s) [] nx post Htn Hnx) as Hwa. cbn [app] in Hwa. unfold wo_with in Hwa at 1.
      rewrite Hwa. eexists _, _, _, _. split; [done|]. rewrite Hn. by apply grant_writer.
Qed.

Lemma wo_abort_waiting_ok R s pre it post :
  wo_wf R s → wo_requests_ s = pre ++ it :: post → status it = WAIT →
  ∃ st n l evs, wo_abort_waiting s pre it post = Done (wo_with s st n l, evs) ∧ same_reqs (pre ++ post) l ∧
    shape st n l ∧ apply_events (queue_view (wo_requests_ s)) evs = Some (queue_view l).
Proof.
  intros [_ Hn Hq Hsh] Hl Hw. pose proof (wq_ids _ _ _ Hq) as Hnd. pose proof (wq_len _ _ _ Hq) as Hlen. unfold MAX_REQ in Hn.
  rewrite Hl in Hsh, Hnd, Hlen. unfold wo_abort_waiting. change (mkWo _ _ _ _ _) with (wo_with s (wo_status_ s) (wo_n_rlock_ s) (pre ++ post)).
  case_decide as Hc.
  - destruct Hc as [Ht Hc]. destruct (shape_first_writer _ _ _ _ _ Hsh Hw Ht Hc) as (Hst & Hnn & Hne & Hp & Hpost).
    cbn [wo_status_ wo_with]. rewrite Hst. cbn [verify bool_decide decide_rel mbind result_bind].
    destruct (read_run post) as [run rest] eqn:E. apply read_run_spec in E as (-> & Hr & Hh).
    apply Forall_app in Hpost as [Hrw Hrest]. rewrite !length_app in Hlen. cbn in Hlen. rewrite length_app in Hlen.
    change (bool_decide (RLOCKED = RLOCKED)) with true. cbn [verify mbind result_bind].
    change (mkWo _ _ _ _ _) with (wo_with s RLOCKED (wo_n_rlock_ s) (pre ++ run ++ rest)).
    rewrite wo_read_acquire_eq; [|done|done| |lia|lia|by right].
    2:{ split; [|done]. destruct pre; [done|]. cbn in Hnn. lia. }
    cbn [mbind result_bind]. eexists _, _, _, _. split; [done|]. split; [apply same_reqs_run|]. split.
    + apply shape_grant_readers; auto. by destruct pre.
    + rewrite Hl, apply_events_app. rewrite (cons_middle it pre (run ++ rest)), app_assoc, apply_grants;
        [|rewrite <-app_assoc; done|done].
      rewrite <-app_assoc. cbn [app mbind option_bind apply_events]. rewrite apply_no; [done| |done].
      rewrite (same_reqs_ids (pre ++ it :: run ++ rest)); [done|].
      apply Forall2_app; [apply same_reqs_refl|]. apply (same_reqs_run [it]).
  - eexists _, _, _, _. split; [done|]. split; [apply same_reqs_refl|]. split.
    + eapply shape_erase_waiting; [done..|]. destruct (type it); [by left|right]. tauto.
    + rewrite Hl. cbn [apply_events]. by rewrite apply_no.
Qed.

Lemma wo_abort_granted_ok R s pre it post :
  wo_wf R s → wo_requests_ s = pre ++ it :: post → status it = LOCK →
  ∃ st n l evs, wo_abort_granted s pre it post = Done (wo_with s st n l, evs) ∧ granted_to (pre ++ post) st n l evs.
Proof.
  intros [_ Hn Hq Hs] Hl Hg. rewrite Hl in Hq, Hs. pose proof (shape_granted _ _ _ _ _ Hs Hg) as Hsh. unfold MAX_REQ in Hn.
  pose proof (wo_queue_sub R R _ _ _ (λ _ H, H) (sublist_middle pre it post) Hq) as [Hlen Hnd _ _ _].
  pose proof (wq_len _ _ _ Hq) as Hlen2. pose proof (shape_n_bound _ _ _ Hs) as Hb. destruct (type it) eqn:Ht.
  - destruct Hsh as (Hst & run & q & -> & Hnr & Hall & Hqw & Hh). apply wo_abort_reader; try done. lia.
  - destruct Hsh as (Hst & Hnr & -> & Hpost). apply wo_abort_writer; try done. lia.
Qed.

Lemma wo_abort_ok R i s :
  wo_wf R s →
  ∃ s' evs, wo_abort i s = Done (s', evs) ∧ wo_wf R s' ∧ wo_next_id_ s' = wo_next_id_ s ∧ (∀ j, ¬ refused evs j) ∧
    apply_events (released i (queue_view (wo_requests_ s))) evs = Some (queue_view (wo_requests_ s')).
Proof.
  intros Hwf. unfold wo_abort. rewrite (ww_done _ _ Hwf). pose proof (ww_queue _ _ Hwf) as Hq. pose proof (wq_ids _ _ _ Hq) as Hnd.
  assert (Hplain : ∀ v evs v', apply_events v evs = Some v' → ∀ j, ¬ refused evs j).
  { intros v evs v' Hev j (ret & _ & Hin). revert v Hev. induction evs as [|e evs IH]; intros v Hev; [by apply not_elem_of_nil in Hin|].
    cbn in Hev. apply elem_of_cons in Hin as [<-|Hin]; [done|]. destruct (apply_event v e) as [v1|]; [|done]. by eapply IH. }
  assert (Hdone : ∀ st n pre it post l, wo_requests_ s = pre ++ it :: post → same_reqs (pre ++ post) l → shape st n l → wo_wf R (wo_with s st n l)).
  { intros st n pre it post l Hl Hs Hsh. split; [apply Hwf|apply Hwf| |done]. cbn. eapply wo_queue_same; [exact Hs|].
    eapply wo_queue_sub; [done|apply sublist_middle|]. rewrite <-Hl. apply Hq. }
  destruct (find_req i (wo_requests_ s)) as [[[pre it] post]|] eqn:E.
  - apply find_req_Some in E as (Hl & Hi & _). unfold released.
    rewrite Hl, queue_view_middle, <-Hi, lookup_insert_eq, <-queue_view_middle by by rewrite <-Hl.
    destruct (status it) eqn:Es.
    + rewrite bool_decide_eq_false_2 by done. rewrite <-Hl.
      destruct (wo_abort_waiting_ok R s pre it post Hwf Hl Es) as (st & n & l & evs & Heq & Hs & Hsh & Hev).
      eexists _, _. split; [exact Heq|]. split_and!; [by eapply Hdone|done|by eapply Hplain|done].
    + rewrite bool_decide_eq_true_2 by done. rewrite queue_view_delete by by rewrite <-Hl.
      destruct (wo_abort_granted_ok R s pre it post Hwf Hl Es) as (st & n & l & evs & Heq & Hsh & Hs & Hev).
      eexists _, _. split; [exact Heq|]. split_and!; [by eapply Hdone|done|by eapply Hplain|done].
  - eexists _, _. split; [done|]. split_and!; [done|done|intros j (? & _ & ?%not_elem_of_nil); done|]. unfold released.
    rewrite queue_view_None; [done|]. apply find_req_None in E. intros (x & -> & Hx)%list_elem_of_fmap.
    rewrite Forall_forall in E. by apply E in Hx.
Qed.

(** ** Runs *)

Lemma wo_apply_waits v e v1 i :
  wo_apply v e = Some v1 → ((if decide (answered e = Some i) then 1 else 0) + waits v1 i = waits v i)%nat.
Proof.
  destruct e as [j|j|j ret]; cbn [wo_apply].
  1,2: intros (j' & Ha & Hw & Hw1 & Ho)%apply_event_Some; rewrite Ha; case_decide as Hij; [simplify_eq; lia|];
    unfold waits; rewrite Ho by congruence; done.
  cbn. unfold waits. destruct (v !! j) as [[t []]|] eqn:Hj; [|done..]. intros [= <-]. rewrite decide_False by done.
  destruct (decide (ret = 0)); [|by destruct (v !! i)].
  destruct (decide (i = j)) as [-> |]; [by rewrite lookup_delete_eq, Hj|by rewrite lookup_delete_ne].
Qed.

Lemma wo_applies_answers v evs v' i : wo_applies v evs = Some v' → (answers i evs + waits v' i = waits v i)%nat.
Proof.
  revert v. induction evs as [|e evs IH]; intros v; cbn [wo_applies]; [by intros [= <-]|].
  destruct (wo_apply v e) as [v1|] eqn:E; [|done]. cbn [mbind option_bind]. intros Hev%IH.
  rewrite answers_cons. pose proof (wo_apply_waits _ _ _ i E). lia.
Qed.

(** A lock call comes with the answers of the wound callbacks. *)
Inductive wo_op := WoLock (w : Z → Z) (t : type_t) (p : Z) | WoAbort (i : Z).

Definition wo_run_op (st : WoundDieALock * list event) (o : wo_op) : result (WoundDieALock * list event) :=
  match o with
  | WoLock w t p => '(s, _, evs) ← wo_vlock w t p st.1; Done (s, st.2 ++ evs)
  | WoAbort i => '(s, evs) ← wo_abort i st.1; Done (s, st.2 ++ evs)
  end.

Definition wo_run (ops : list wo_op) : result (WoundDieALock * list event) :=
  for_each wo_run_op ops (WoundDieALock_new, []).

(** Priorities are 64-bit integers. *)
Definition wo_op_ok (o : wo_op) : Prop := match o with WoLock _ _ p => INT64_MIN ≤ p | WoAbort _ => True end.

Definition wo_run_inv (n : Z) (st : WoundDieALock * list event) : Prop :=
  let '(s, evs) := st in
  wo_wf (refused evs) s ∧ wo_next_id_ s ≤ n + 1 ∧
  ∀ i, (answers i evs + waits (queue_view (wo_requests_ s)) i = if decide (0 < i < wo_next_id_ s)%Z then 1 else 0)%nat.

Lemma wo_wf_mono (R R' : Z → Prop) s : (∀ i, R i → R' i) → wo_wf R s → wo_wf R' s.
Proof. intros HR [? ? Hq ?]. split; [done..| |done]. by eapply wo_queue_sub. Qed.

Lemma wo_run_op_ok n st o :
  wo_run_inv n st → wo_op_ok o → n < MAX_REQ - 1 → ∃ st', wo_run_op st o = Done st' ∧ wo_run_inv (n + 1) st'.
Proof.
  destruct st as [s evs]. intros (Hwf & Hn & Ha) Ho Hlt. destruct o as [w t p|i]; cbn.
  - destruct (wo_vlock_ok w t p _ s Hwf ltac:(lia) Ho) as (s' & es & -> & Hwf' & Hn' & Hev).
    eexists. split; [done|]. cbn. split_and!; [|lia|].
    + eapply wo_wf_mono; [|exact Hwf']. intros j Hj. by apply refused_app.
    + intros i. rewrite answers_app. pose proof (wo_applies_answers _ _ _ i Hev) as Hi. specialize (Ha i).
      rewrite Hn'. destruct (decide (i = wo_next_id_ s)) as [-> |Hne].
      * pose proof (ww_next _ _ Hwf). rewrite decide_True by lia. rewrite decide_False in Ha by lia.
        unfold waits at 2 in Hi. rewrite lookup_insert_eq in Hi. lia.
      * unfold waits at 2 in Hi. rewrite lookup_insert_ne in Hi by done. fold (waits (queue_view (wo_requests_ s)) i) in Hi.
        repeat case_decide; lia.
  - destruct (wo_abort_ok _ i s Hwf) as (s' & es & -> & Hwf' & Hn' & _ & Hev).
    eexists. split; [done|]. cbn. split_and!; [|lia|].
    + eapply wo_wf_mono; [|exact Hwf']. intros j Hj. apply refused_app. by left.
    + intros j. rewrite answers_app, Hn'. pose proof (apply_events_answers _ _ _ j Hev) as Hj. specialize (Ha j).
      assert (waits (released i (queue_view (wo_requests_ s))) j = waits (queue_view (wo_requests_ s)) j); [|lia].
      unfold released, waits. destruct (queue_view (wo_requests_ s) !! i) as [[t []]|] eqn:E; [|done..].
      destruct (decide (i = j)) as [-> |]; [by rewrite lookup_delete_eq, E|by rewrite lookup_delete_ne].
Qed.

Lemma wo_new_wf R : wo_wf R WoundDieALock_new.
Proof. split; cbn; [done|unfold MAX_REQ; lia| |constructor]. split; cbn; [lia|constructor..]. Qed.

Lemma wo_run_ok ops :
  Forall wo_op_ok ops → Z.of_nat (length ops) < MAX_REQ →
  ∃ st, wo_run ops = Done st ∧ wo_run_inv (Z.of_nat (length ops)) st.
Proof.
  intros Hops Hlen. unfold wo_run.
  apply (for_each_inv wo_run_op (λ done st, wo_run_inv (Z.of_nat (length done)) st)).
  - cbn. split_and!; [apply wo_new_wf|lia|]. intros i. rewrite decide_False by lia. done.
  - intros done o rest st -> Hinv. rewrite Forall_app, Forall_cons in Hops. rewrite length_app in Hlen. cbn in Hlen.
    destruct (wo_run_op_ok _ st o Hinv) as (st' & Hst & Hinv'); [tauto|lia|].
    exists st'. split; [done|]. rewrite length_app. cbn. by rewrite Nat2Z.inj_add.
Qed.

(** C14: the wound-die lock.  In every sequence of lock and abort calls, whatever the
    wound callbacks answer, no assertion fails; granted requests are compatible; every
    request is answered exactly once, unless it still waits; a request that conflicts
    with one in front of it has a lower priority, or the one in front has refused to be
    wounded; and a free lock has an empty queue. *)
Theorem wounddie_runs ops :
  Forall wo_op_ok ops → Z.of_nat (length ops) < MAX_REQ →
  ∃ s evs, wo_run ops = Done (s, evs) ∧ exclusive (queue_view (wo_requests_ s)) ∧
    (∀ i, (answers i evs + waits (queue_view (wo_requests_ s)) i = if decide (0 < i < wo_next_id_ s)%Z then 1 else 0)%nat) ∧
    StronglySorted (wo_before (refused evs)) (wo_requests_ s) ∧
    (wo_status_ s = FREE → wo_requests_ s = []).
Proof.
  intros Hops Hlen. destruct (wo_run_ok ops Hops Hlen) as ([s evs] & Heq & Hwf & _ & Ha). exists s, evs.
  pose proof (ww_shape _ _ Hwf) as Hs. split_and!; [done| |done|apply (ww_queue _ _ Hwf)|].
  - intros i j t t' Hi Hj Hij. pose proof (wq_ids _ _ _ (ww_queue _ _ Hwf)) as Hnd.
    apply (granted_shape _ _ _ _ _ Hnd Hs) in Hi as (a & Ha1 & <- & <- & Hla).
    apply (granted_shape _ _ _ _ _ Hnd Hs) in Hj as (b & Hb1 & <- & <- & Hlb).
    eapply shape_compat; eauto. congruence.
  - intros Hf. rewrite Hf in Hs. by inversion Hs.
Qed.

(** A reader and a writer are wounded by an older writer; another reader refuses. *)
Definition wo_example : list wo_op :=
  [WoLock (λ _, 0) RLOCK 5; WoLock (λ _, 0) RLOCK 7; WoLock (λ _, 0) WLOCK 8;
   WoLock (λ i, if decide (i = 1) then 1 else 0) WLOCK 3; WoLock (λ _, 0) RLOCK 9; WoAbort 1; WoAbort 4].

Lemma wounddie_runs_witness :
  ∃ s evs, wo_run wo_example = Done (s, evs) ∧
    evs = [Yes 1; Yes 2; No 3; Wounded 2 0; Wounded 1 1; Yes 4; Yes 5] ∧ exclusive (queue_view (wo_requests_ s)).
Proof.
  destruct (wounddie_runs wo_example) as (s & evs & Heq & Hex & _); [by repeat constructor|done|].
  exists s, evs. split; [exact Heq|]. split; [|exact Hex]. vm_compute in Heq. by simplify_eq.
Defined.

(** ** No deadlock *)

Section deadlock.
Context {L T : Type} (locks : L → WoundDieALock) (evs : L → list event) (txn : L → Z → T) (prio : T → Z).

(** Transaction [t] waits for [u]: in some queue a waiting request of [t] is behind a
    conflicting request of [u], which has not refused to be wounded. *)
Definition wo_waits_for (t u : T) : Prop :=
  ∃ lk pre b mid a post, wo_requests_ (locks lk) = pre ++ b :: mid ++ a :: post ∧ status a = WAIT ∧
    conflict b a ∧ ¬ refused (evs lk) (id b) ∧ txn lk (id a) = t ∧ txn lk (id b) = u.

Lemma wo_sorted_before R pre b mid a post :
  StronglySorted (wo_before R) (pre ++ b :: mid ++ a :: post) → wo_before R b a.
Proof.
  induction pre as [|x pre IH]; cbn; intros [Hs Hf]%StronglySorted_inv; [|auto].
  rewrite Forall_app, Forall_cons in Hf. tauto.
Qed.

(** C15: no deadlock under wound-die.  When every lock has been driven by lock and abort
    calls from its creation, and the requests of a transaction carry the transaction's
    priority, there is no infinite chain, in particular no cycle, of transactions that
    wait for each other, unless it passes a holder whose wound callback has refused. *)
Theorem wounddie_no_deadlock :
  (∀ lk, ∃ ops, Forall wo_op_ok ops ∧ Z.of_nat (length ops) < MAX_REQ ∧ wo_run ops = Done (locks lk, evs lk)) →
  (∀ lk r, r ∈ wo_requests_ (locks lk) → priority r = prio (txn lk (id r))) →
  well_founded (λ u t, wo_waits_for t u).
Proof.
  intros Hrun Hprio. apply (well_founded_lt_compat _ (λ t, Z.to_nat (prio t - INT64_MIN))).
  intros u t (lk & pre & b & mid & a & post & Hl & Hw & Hc & Hnr & <- & <-). destruct (Hrun lk) as (ops & Hops & Hlen & Heq).
  destruct (wo_run_ok ops Hops Hlen) as ([s es] & Heq' & Hwf & _ & _). rewrite Heq in Heq'. injection Heq' as <- <-.
  pose proof (wq_order _ _ _ (ww_queue _ _ Hwf)) as Ho. pose proof (wq_prio _ _ _ (ww_queue _ _ Hwf)) as Hp. rewrite Hl in Ho, Hp.
  apply wo_sorted_before in Ho. destruct (Ho Hc) as [Hlt|?]; [|done].
  rewrite Forall_app, Forall_cons in Hp. destruct Hp as (_ & Hp & _). rewrite <-!Hprio by (rewrite Hl; set_solver). lia.
Qed.
End deadlock.

(** Two locks held and wanted crosswise by transactions of priorities 3 and 5: the
    younger one is wounded at the first, and waits at the second. *)
Definition wo_cross (first : bool) : list wo_op :=
  if first then [WoLock (λ _, 0) RLOCK 5; WoLock (λ _, 0) WLOCK 3] else [WoLock (λ _, 0) WLOCK 3; WoLock (λ _, 0) RLOCK 5].

Lemma wounddie_no_deadlock_witness :
  ∃ (locks : bool → WoundDieALock) (evs : bool → list event),
    evs true = [Yes 1; Wounded 1 0; Yes 2] ∧
    wo_requests_ (locks false) = [mkReq 1 3 WLOCK LOCK; mkReq 2 5 RLOCK WAIT] ∧
    well_founded (λ u t, wo_waits_for locks evs (λ lk i, if decide (lk = false ∧ i = 2) then 5 else 3) t u).
Proof.
  set (locks := λ lk : bool, match wo_run (wo_cross lk) with Done (s, _) => s | _ => WoundDieALock_new end).
  set (evs := λ lk : bool, match wo_run (wo_cross lk) with Done (_, e) => e | _ => [] end).
  exists locks, evs. split; [reflexivity|]. split; [reflexivity|].
  refine (wounddie_no_deadlock locks evs _ (λ p, p) _ _).
  - intros lk. exists (wo_cross lk). destruct lk; (split; [by repeat constructor|split; [done|reflexivity]]).
  - intros lk r Hr. destruct lk; cbn in Hr; set_unfold; naive_solver.
Defined.
