(* ===== verification/TimeoutLock.v ===== *)
(** * The lock with timeouts

    Models [TimeoutALock] of src/rococo-dst/rrr/misc/alock.{hpp,cpp} and the [Alarm] of
    src/rococo-dst/rrr/misc/alarm.hpp.  A request that conflicts with the holders waits at
    most [tm_wait_] microseconds.  Readers overtake waiting writers.  A request that
    timed out stays in the queue, out of play, until it is aborted.

    The alarm of the source is shared by all locks of a process; here a lock has the
    alarms of its own requests.  An alarm's closure refers to its request by
    reference, so that running it after the request is erased is an invalid access. *)

From S2P Require Import Prelude ALock.

#[local] Arguments uwrap : simpl never.
#[local] Arguments swrap : simpl never.

(** [ALockReq] *)
Module ALockReq.
Inductive status_t := WAIT | LOCK | UNLOCK | ABORT | TIMEOUT.

#[global] Instance status_t_eq_dec : EqDecision status_t.
Proof. solve_decision. Defined.
End ALockReq.

Record ALockReq := mkAReq {
  id_ : Z;
  alarm_id_ : Z;
  type_ : type_t;
  req_status_ : ALockReq.status_t
}.

Definition set_req_status (st : ALockReq.status_t) (r : ALockReq) : ALockReq :=
  mkAReq (id_ r) (alarm_id_ r) (type_ r) st.

(** ** [Alarm] *)

(** [waiting_] maps an alarm to its time and to the request its closure refers to. *)
Record Alarm := mkAlarm { alarm_next_id_ : Z; waiting_ : gmap Z (Z * Z) }.

Definition Alarm_new : Alarm := mkAlarm 1 ∅.

Definition alarm_add (time rid : Z) (a : Alarm) : Alarm * Z :=
  (mkAlarm (u64 (alarm_next_id_ a + 1)) (<[alarm_next_id_ a := (time, rid)]> (waiting_ a)), alarm_next_id_ a).

Definition alarm_remove (i : Z) (a : Alarm) : Alarm := mkAlarm (alarm_next_id_ a) (delete i (waiting_ a)).

(** [waiting_.begin()]: the alarm with the smallest id. *)
Definition alarm_min (m : gmap Z (Z * Z)) : option (Z * (Z * Z)) :=
  foldr (λ x acc, match acc with
                  | Some y => if decide (x.1 < y.1) then Some x else Some y
                  | None => Some x
                  end) None (map_to_list m).

(** ** The lock *)

Record TimeoutALock := mkTO {
  next_id_ : Z;
  status_ : status_t;
  n_rlock_ : Z;
  requests_ : list ALockReq;
  tm_wait_ : Z;
  alarm : Alarm;
  now : Z  (** [rrr::Time::now()] *)
}.

Definition TimeoutALock_new (time_wait : Z) : TimeoutALock :=
  mkTO 1 FREE 0 [] time_wait Alarm_new 0.

Definition set_requests (s : TimeoutALock) (st : status_t) (n : Z) (l : list ALockReq) (a : Alarm) : TimeoutALock :=
  mkTO (next_id_ s) st n l (tm_wait_ s) a (now s).

Fixpoint find_areq (i : Z) (l : list ALockReq) : option (list ALockReq * ALockReq * list ALockReq) :=
  match l with
  | [] => None
  | r :: l =>
      if decide (id_ r = i) then Some ([], r, l)
      else '(pre, x, post) ← find_areq i l; Some (r :: pre, x, post)
  end.

(** [TimeoutALock::vlock] *)
Definition vlock (t : type_t) (_ : Z) (s : TimeoutALock) : result (TimeoutALock * Z * list event) :=
  let i := next_id_ s in
  let s := mkTO (u64 (next_id_ s + 1)) (status_ s) (n_rlock_ s) (requests_ s) (tm_wait_ s) (alarm s) (now s) in
  let lockable := bool_decide (status_ s = FREE) || bool_decide (status_ s = RLOCKED) && bool_decide (t = RLOCK) in
  if lockable then
    let r := mkAReq i 0 t ALockReq.LOCK in
    let s := match t with
             | RLOCK => set_requests s RLOCKED (i64 (n_rlock_ s + 1)) (requests_ s ++ [r]) (alarm s)
             | WLOCK => set_requests s WLOCKED (n_rlock_ s) (requests_ s ++ [r]) (alarm s)
             end in
    Done (s, i, [Yes i])
  else if decide (tm_wait_ s > 0) then
    let tm_out := u64 (now s + tm_wait_ s) in
    let '(a, aid) := alarm_add tm_out i (alarm s) in
    let r := mkAReq i aid t ALockReq.WAIT in
    Done (set_requests s (status_ s) (n_rlock_ s) (requests_ s ++ [r]) a, i, [])
  else Done (s, i, [No i]).

(** [lock_all]: the first waiting request, and behind it every waiting reader when
    it is one. *)
Fixpoint lock_first (l : list ALockReq) : option (list ALockReq * ALockReq * list ALockReq) :=
  match l with
  | [] => None
  | r :: l =>
      if decide (req_status_ r = ALockReq.WAIT) then Some ([], r, l)
      else '(pre, x, post) ← lock_first l; Some (r :: pre, x, post)
  end.

Definition waiting_reader (r : ALockReq) : Prop := type_ r = RLOCK ∧ req_status_ r = ALockReq.WAIT.

#[export] Instance waiting_reader_dec r : Decision (waiting_reader r).
Proof. unfold waiting_reader. solve_decision. Defined.

Definition lock_reader (r : ALockReq) : ALockReq :=
  if decide (waiting_reader r) then set_req_status ALockReq.LOCK r else r.

Definition lock_all (s : TimeoutALock) : result (TimeoutALock * list event) :=
  _ ← verify (bool_decide (status_ s = FREE ∧ n_rlock_ s = 0));
  match lock_first (requests_ s) with
  | None => Done (s, [])
  | Some (pre, r, post) =>
      let a := alarm_remove (alarm_id_ r) (alarm s) in
      let r := set_req_status ALockReq.LOCK r in
      match type_ r with
      | WLOCK => Done (set_requests s WLOCKED (n_rlock_ s) (pre ++ r :: post) a, [Yes (id_ r)])
      | RLOCK =>
          let readers := filter waiting_reader post in
          let a := foldl (λ a x, alarm_remove (alarm_id_ x) a) a readers in
          Done (set_requests s RLOCKED (i64 (n_rlock_ s + 1 + Z.of_nat (length readers)))
                  (pre ++ r :: (lock_reader <$> post)) a,
                Yes (id_ r) :: (Yes ∘ id_ <$> readers))
      end
  end.

(** [TimeoutALock::abort] *)
Definition abort (i : Z) (s : TimeoutALock) : result (TimeoutALock * list event) :=
  match find_areq i (requests_ s) with
  | None => Done (s, [])
  | Some (pre, r, post) =>
      match req_status_ r with
      | ALockReq.LOCK =>
          let n := match type_ r with RLOCK => i64 (n_rlock_ s - 1) | WLOCK => n_rlock_ s end in
          let st := if decide (n = 0) then FREE else status_ s in
          let s := set_requests s st n (pre ++ post) (alarm s) in
          if decide (st = FREE) then lock_all s else Done (s, [])
      | ALockReq.WAIT =>
          Done (set_requests s (status_ s) (n_rlock_ s) (pre ++ post) (alarm_remove (alarm_id_ r) (alarm s)), [])
      | ALockReq.TIMEOUT => Done (set_requests s (status_ s) (n_rlock_ s) (pre ++ post) (alarm s), [])
      | ALockReq.UNLOCK | ALockReq.ABORT => Crash assert_failed
      end
  end.

(** [TimeoutALock::do_timeout], run by an alarm for request [rid]. *)
Definition do_timeout (rid : Z) (s : TimeoutALock) : result (TimeoutALock * list event) :=
  match find_areq rid (requests_ s) with
  | None => Crash invalid_access
  | Some (pre, r, post) =>
      if decide (req_status_ r = ALockReq.WAIT) then
        Done (set_requests s (status_ s) (n_rlock_ s) (pre ++ set_req_status ALockReq.TIMEOUT r :: post) (alarm s),
              [No rid])
      else Done (s, [])
  end.

(** [Alarm::exe_next]: [true] when an alarm was due. *)
Definition exe_next (s : TimeoutALock) : result (TimeoutALock * list event * bool) :=
  match alarm_min (waiting_ (alarm s)) with
  | None => Done (s, [], false)
  | Some (aid, (tm_out, rid)) =>
      if decide (now s > tm_out) then
        '(s, evs) ← do_timeout rid s;
        Done (set_requests s (status_ s) (n_rlock_ s) (requests_ s) (alarm_remove aid (alarm s)), evs, true)
      else Done (s, [], false)
  end.

(** [Alarm::run]: the loop ends when no alarm is due; every round removes one. *)
Fixpoint alarm_run (fuel : nat) (s : TimeoutALock) : result (TimeoutALock * list event) :=
  match fuel with
  | O => Spin
  | S fuel =>
      '(s, evs, more) ← exe_next s;
      if (more : bool) then
        '(s, evs') ← alarm_run fuel s;
        Done (s, evs ++ evs')
      else Done (s, evs)
  end.

(** The clock advances and the alarms that are due run. *)
Definition tick (d : Z) (s : TimeoutALock) : result (TimeoutALock * list event) :=
  let s := mkTO (next_id_ s) (status_ s) (n_rlock_ s) (requests_ s) (tm_wait_ s) (alarm s) (now s + d) in
  alarm_run (S (size (waiting_ (alarm s)))) s.

(** The clock advances and at most one alarm runs: what the callbacks of one alarm do
    can change which other alarms are left. *)
Definition tick_one (d : Z) (s : TimeoutALock) : result (TimeoutALock * list event) :=
  let s := mkTO (next_id_ s) (status_ s) (n_rlock_ s) (requests_ s) (tm_wait_ s) (alarm s) (now s + d) in
  '(s, evs, _) ← exe_next s;
  Done (s, evs).

(** [~TimeoutALock]: the requests from the front, until none is left. *)
Definition destroy_req (st : Alarm * list event) (r : ALockReq) : result (Alarm * list event) :=
  let '(a, evs) := st in
  match req_status_ r with
  | ALockReq.LOCK => Done (a, evs)
  | ALockReq.WAIT => Done (alarm_remove (alarm_id_ r) a, evs ++ [No (id_ r)])
  | ALockReq.TIMEOUT => Done (a, evs)
  | _ => Crash assert_failed
  end.

Definition destroy (s : TimeoutALock) : result (Alarm * list event) :=
  for_each destroy_req (requests_ s) (alarm s, []).

(** ** Well-formed locks *)

(** The requests in play. *)
Definition live_req (r : ALockReq) : option lock_req_t :=
  match req_status_ r with
  | ALockReq.WAIT => Some (mkReq (id_ r) 0 (type_ r) WAIT)
  | ALockReq.LOCK => Some (mkReq (id_ r) 0 (type_ r) LOCK)
  | _ => None
  end.

Definition live (l : list ALockReq) : list lock_req_t := omap live_req l.

Definition is_locked (r : ALockReq) : Prop := req_status_ r = ALockReq.LOCK.
Definition is_waiting (r : ALockReq) : Prop := req_status_ r = ALockReq.WAIT.
Definition is_idle (r : ALockReq) : Prop := is_waiting r ∨ req_status_ r = ALockReq.TIMEOUT.

#[export] Instance is_locked_dec r : Decision (is_locked r).
Proof. unfold is_locked. solve_decision. Defined.

Definition count_locked (l : list ALockReq) : Z := Z.of_nat (length (filter is_locked l)).

(** Among readers nobody but writers waits. *)
Definition beside_readers (r : ALockReq) : Prop :=
  (is_locked r ∧ type_ r = RLOCK) ∨ (is_waiting r ∧ type_ r = WLOCK) ∨ req_status_ r = ALockReq.TIMEOUT.

Definition beside_writer (r : ALockReq) : Prop := (is_locked r ∧ type_ r = WLOCK) ∨ is_idle r.

Definition shape (st : status_t) (n : Z) (l : list ALockReq) : Prop :=
  match st with
  | FREE => n = 0 ∧ Forall (λ r, req_status_ r = ALockReq.TIMEOUT) l
  | WLOCKED => n = 0 ∧ count_locked l = 1 ∧ Forall beside_writer l
  | RLOCKED => 0 < n ∧ n = count_locked l ∧ Forall beside_readers l
  end.

(** A waiting request has its alarm, and every alarm belongs to a waiting request. *)
Record alarm_ok (a : Alarm) (l : list ALockReq) : Prop := mkAlarmOk {
  alarm_of aid tm rid : waiting_ a !! aid = Some (tm, rid) →
    0 < aid < alarm_next_id_ a ∧ ∃ r, r ∈ l ∧ id_ r = rid ∧ alarm_id_ r = aid ∧ is_waiting r;
  alarm_for r : r ∈ l → is_waiting r → ∃ tm, waiting_ a !! alarm_id_ r = Some (tm, id_ r)
}.

(** What does not depend on who holds the lock. *)
Record base (s : TimeoutALock) : Prop := mkBase {
  base_next : 1 ≤ alarm_next_id_ (alarm s) ≤ next_id_ s ∧ next_id_ s ≤ MAX_REQ;
  base_len : Z.of_nat (length (requests_ s)) < next_id_ s;
  base_ids : NoDup (id_ <$> requests_ s);
  base_known : Forall (λ r, 0 < id_ r < next_id_ s) (requests_ s);
  base_alarm : alarm_ok (alarm s) (requests_ s)
}.

Definition wf (s : TimeoutALock) : Prop := base s ∧ shape (status_ s) (n_rlock_ s) (requests_ s).

(** ** The requests in play *)

Lemma live_app l k : live (l ++ k) = live l ++ live k.
Proof. apply omap_app. Qed.

Lemma live_req_id r x : live_req r = Some x → id x = id_ r ∧ type x = type_ r.
Proof. unfold live_req. destruct (req_status_ r); naive_solver. Qed.

Lemma live_elem l x : x ∈ live l ↔ ∃ r, r ∈ l ∧ live_req r = Some x.
Proof. apply list_elem_of_omap. Qed.

Lemma live_ids l : id <$> live l ⊆ id_ <$> l.
Proof.
  intros i (x & -> & (r & Hr & Hx)%live_elem)%list_elem_of_fmap.
  apply live_req_id in Hx as [-> _]. by apply list_elem_of_fmap_2.
Qed.

Lemma live_nodup l : NoDup (id_ <$> l) → NoDup (id <$> live l).
Proof.
  induction l as [|r l IH]; [constructor|]. rewrite fmap_cons, NoDup_cons. intros [Hr Hl].
  cbn. destruct (live_req r) as [x|] eqn:E; [|auto]. cbn. constructor; [|auto].
  apply live_req_id in E as [-> _]. intros Hin%live_ids. done.
Qed.

(** Granting every waiting reader of a queue. *)
Lemma apply_lock_readers X l :
  NoDup (id <$> X ++ live l) →
  apply_events (queue_view (X ++ live l)) (Yes ∘ id_ <$> filter waiting_reader l) =
    Some (queue_view (X ++ live (lock_reader <$> l))).
Proof.
  revert X. induction l as [|r l IH]; intros X Hnd; [done|].
  assert (live (r :: l) = live [r] ++ live l) as E by apply (live_app [r]).
  assert (live (lock_reader r :: (lock_reader <$> l)) = live [lock_reader r] ++ live (lock_reader <$> l)) as E'
    by apply (live_app [lock_reader r]).
  rewrite fmap_cons, E', E in *. clear E E'. rewrite filter_cons. unfold lock_reader at 1. case_decide as Hr.
  - destruct Hr as [Ht Hs]. set (x := mkReq (id_ r) 0 (type_ r) WAIT).
    assert (live [r] = [x]) as E by (unfold live, live_req; cbn; by rewrite Hs). rewrite E in *.
    change (live [set_req_status ALockReq.LOCK r]) with [set_status LOCK x].
    rewrite fmap_cons. cbn [apply_events app]. change ((Yes ∘ id_) r) with (Yes (id x)).
    rewrite apply_yes by done. cbn [mbind option_bind].
    rewrite cons_middle, app_assoc. rewrite IH; [by rewrite <-app_assoc|].
    rewrite <-app_assoc. rewrite fmap_app in *. exact Hnd.
  - rewrite !app_assoc in *. by rewrite IH.
Qed.

(** ** Alarms *)

Lemma find_areq_Some i l pre r post :
  find_areq i l = Some (pre, r, post) → l = pre ++ r :: post ∧ id_ r = i.
Proof.
  revert pre. induction l as [|x l IH]; intros pre; cbn; [done|]. case_decide as Hx.
  - by intros [= <- <- <-].
  - destruct (find_areq i l) as [[[pre' y] post']|]; [|done]. intros [= <- <- <-].
    by destruct (IH _ eq_refl) as (-> & ?).
Qed.

Lemma find_areq_None i l : find_areq i l = None → i ∉ id_ <$> l.
Proof.
  induction l as [|x l IH]; cbn; [by intros _ ?%not_elem_of_nil|]. case_decide; [done|].
  destruct (find_areq i l) as [[[? ?] ?]|]; [done|]. intros _ [?|?]%elem_of_cons; [congruence|]. by apply IH.
Qed.

Lemma lock_first_Some l pre r post :
  lock_first l = Some (pre, r, post) → l = pre ++ r :: post ∧ is_waiting r ∧ Forall (λ x, ¬ is_waiting x) pre.
Proof.
  revert pre. induction l as [|x l IH]; intros pre; cbn; [done|]. case_decide as Hx.
  - intros [= <- <- <-]. auto using Forall_nil_2.
  - destruct (lock_first l) as [[[pre' y] post']|]; [|done]. intros [= <- <- <-].
    destruct (IH _ eq_refl) as (-> & ? & ?). auto using Forall_cons_2.
Qed.

Lemma lock_first_None l : lock_first l = None → Forall (λ x, ¬ is_waiting x) l.
Proof.
  induction l as [|x l IH]; cbn; [constructor|]. case_decide; [done|].
  destruct (lock_first l) as [[[? ?] ?]|]; [done|]. auto.
Qed.

Lemma id_inj l x y : NoDup (id_ <$> l) → x ∈ l → y ∈ l → id_ x = id_ y → x = y.
Proof.
  induction l as [|z l IH]; intros Hnd Hx Hy E; [by apply not_elem_of_nil in Hx|].
  rewrite fmap_cons, NoDup_cons in Hnd. destruct Hnd as [Hz Hnd].
  apply elem_of_cons in Hx as [-> |Hx], Hy as [-> |Hy]; auto.
  - destruct Hz. rewrite E. by apply list_elem_of_fmap_2.
  - destruct Hz. rewrite <-E. by apply list_elem_of_fmap_2.
Qed.

(** Cancelling the alarms of the requests [g]. *)
Definition cancel (a : Alarm) (g : list ALockReq) : Alarm := foldl (λ a x, alarm_remove (alarm_id_ x) a) a g.

Lemma cancel_lookup a g k :
  waiting_ (cancel a g) !! k = if decide (k ∈ alarm_id_ <$> g) then None else waiting_ a !! k.
Proof.
  revert a. induction g as [|x g IH]; intros a; cbn.
  - by rewrite decide_False by apply not_elem_of_nil.
  - rewrite IH. cbn. destruct (decide (k = alarm_id_ x)) as [-> |Hk].
    + rewrite (decide_True (P:=alarm_id_ x ∈ alarm_id_ x :: _)) by by left. case_decide; [done|]. by rewrite lookup_delete_eq.
    + rewrite lookup_delete_ne by done. repeat case_decide; set_solver.
Qed.

Lemma cancel_next a g : alarm_next_id_ (cancel a g) = alarm_next_id_ a.
Proof. revert a. induction g as [|x g IH]; intros a; [done|]. cbn. by rewrite IH. Qed.

(** The alarms stay in step when the requests [g] stop waiting. *)
Lemma alarm_ok_cancel a l l' g :
  NoDup (id_ <$> l) → alarm_ok a l → Forall (λ x, x ∈ l ∧ is_waiting x) g →
  (∀ x, is_waiting x → x ∈ l' ↔ x ∈ l ∧ x ∉ g) → alarm_ok (cancel a g) l'.
Proof.
  intros Hnd [Hof Hfor] Hg Hl. rewrite Forall_forall in Hg. split.
  - intros aid tm rid. rewrite cancel_lookup, cancel_next. case_decide as Hin; [done|]. intros Ha.
    destruct (Hof _ _ _ Ha) as (Hb & r & Hr & <- & <- & Hw). split; [done|].
    exists r. split_and!; [|done..]. apply Hl; [done|]. split; [done|]. intros Hrg. apply Hin. by apply list_elem_of_fmap_2.
  - intros r Hr Hw. apply Hl in Hr as [Hr Hrg]; [|done]. destruct (Hfor r Hr Hw) as [tm Htm]. exists tm.
    rewrite cancel_lookup. rewrite decide_False; [done|]. intros (y & Hy & Hyg)%list_elem_of_fmap.
    destruct (Hg y Hyg) as [Hyl Hyw]. destruct (Hfor y Hyl Hyw) as [tm' Htm']. rewrite <-Hy, Htm in Htm'.
    simplify_eq. by rewrite (id_inj l r y) in Hrg.
Qed.

(** ** Lock requests *)

Lemma push_base s st n r a :
  base s → next_id_ s < MAX_REQ → id_ r = next_id_ s → alarm_ok a (requests_ s ++ [r]) →
  1 ≤ alarm_next_id_ a ≤ next_id_ s + 1 →
  base (mkTO (next_id_ s + 1) st n (requests_ s ++ [r]) (tm_wait_ s) a (now s)).
Proof.
  intros [Hn Hl Hi Hk Ha] Hlt Hr Ha' Hna. constructor; cbn; [lia| | | |done].
  - rewrite length_app. cbn. lia.
  - rewrite fmap_app, NoDup_app. split_and!; [done| |apply NoDup_singleton].
    intros i (x & -> & Hx)%list_elem_of_fmap Hin%list_elem_of_singleton.
    rewrite Forall_forall in Hk. apply Hk in Hx. lia.
  - apply Forall_app. split; [|repeat constructor; lia]. eapply Forall_impl; [exact Hk|]. cbn. lia.
Qed.

Lemma live_idle l : Forall is_idle l → Forall (λ x, status x = WAIT) (live l).
Proof.
  induction 1 as [|r l [Hr|Hr] _ IH]; [constructor| |]; cbn; unfold live_req, is_waiting in *; rewrite Hr; cbn; auto.
Qed.

Lemma to_new_view s t :
  base s → <[next_id_ s := (t, false)]> (queue_view (live (requests_ s))) =
    queue_view (live (requests_ s) ++ [mkReq (next_id_ s) 0 t WAIT]) ∧
  NoDup (id <$> live (requests_ s) ++ [mkReq (next_id_ s) 0 t WAIT]).
Proof.
  intros [_ _ Hi Hk _]. assert (NoDup (id <$> live (requests_ s) ++ [mkReq (next_id_ s) 0 t WAIT])) as Hnd.
  { rewrite fmap_app, NoDup_app. split_and!; [by apply live_nodup| |apply NoDup_singleton].
    intros i Hx%live_ids Hin%list_elem_of_singleton. apply list_elem_of_fmap in Hx as (x & -> & Hx).
    rewrite Forall_forall in Hk. apply Hk in Hx. cbn in *. lia. }
  split; [|done]. by rewrite queue_view_snoc.
Qed.

Lemma alarm_ok_push a l r : alarm_ok a l → ¬ is_waiting r → alarm_ok a (l ++ [r]).
Proof.
  intros [Hof Hfor] Hr. split.
  - intros aid tm rid H. destruct (Hof _ _ _ H) as (? & x & ? & ?). split; [done|]. exists x. split; [set_solver|done].
  - intros x [Hx| ->%list_elem_of_singleton]%elem_of_app Hw; [auto|done].
Qed.

Lemma count_locked_app l k : count_locked (l ++ k) = count_locked l + count_locked k.
Proof. unfold count_locked. rewrite filter_app, length_app. lia. Qed.

Lemma count_locked_le l : 0 ≤ count_locked l ≤ Z.of_nat (length l).
Proof. unfold count_locked. pose proof (length_filter is_locked l). lia. Qed.

Lemma count_locked_none l : Forall (λ r, ¬ is_locked r) l → count_locked l = 0.
Proof.
  induction 1 as [|r l Hr _ IH]; [done|]. unfold count_locked in *. by rewrite filter_cons_False.
Qed.

Lemma shape_grant st n l r :
  shape st n l → st = FREE ∨ st = RLOCKED ∧ type_ r = RLOCK → is_locked r →
  shape (match type_ r with RLOCK => RLOCKED | WLOCK => WLOCKED end)
    (match type_ r with RLOCK => n + 1 | WLOCK => n end) (l ++ [r]).
Proof.
  intros Hs Hst Hr. assert (count_locked [r] = 1) as Hc1.
  { unfold count_locked. by rewrite filter_cons_True. }
  destruct Hst as [-> |[-> Ht]].
  - destruct Hs as [-> Hall]. destruct (type_ r) eqn:Ht; cbn.
    + split_and!; [lia| |].
      * rewrite count_locked_app, Hc1, count_locked_none; [done|]. eapply Forall_impl; [exact Hall|]. unfold is_locked. cbn. congruence.
      * apply Forall_app. split; [|apply Forall_singleton; by left]. eapply Forall_impl; [exact Hall|]. cbn. by right; right.
    + split_and!; [done| |].
      * rewrite count_locked_app, Hc1, count_locked_none; [done|]. eapply Forall_impl; [exact Hall|]. unfold is_locked. cbn. congruence.
      * apply Forall_app. split; [|apply Forall_singleton; by left]. eapply Forall_impl; [exact Hall|]. by right; right.
  - destruct Hs as (Hn & Hc & Hall). rewrite Ht. cbn. split_and!; [lia| |].
    + rewrite count_locked_app. lia.
    + apply Forall_app. split; [done|apply Forall_singleton; by left].
Qed.

Lemma shape_wait st n l r :
  shape st n l → st ≠ FREE → (st = RLOCKED → type_ r = WLOCK) → is_waiting r → shape st n (l ++ [r]).
Proof.
  intros Hs Hst Ht Hr. assert (count_locked (l ++ [r]) = count_locked l) as Hcr.
  { rewrite count_locked_app. unfold count_locked at 2. rewrite filter_cons_False; [cbn; lia|].
    unfold is_locked, is_waiting in *. congruence. }
  destruct st; [done| |]; cbn in *.
  - destruct Hs as (-> & Hc & Hall). split_and!; [done|lia|].
    apply Forall_app. split; [done|apply Forall_singleton; by right; left].
  - destruct Hs as (Hn & Hc & Hall). split_and!; [done|lia|].
    apply Forall_app. split; [done|]. apply Forall_singleton. right; left. auto.
Qed.

Lemma alarm_ok_add s t tm :
  base s → alarm_next_id_ (alarm s) < MAX_REQ →
  alarm_ok (alarm_add tm (next_id_ s) (alarm s)).1
    (requests_ s ++ [mkAReq (next_id_ s) (alarm_next_id_ (alarm s)) t ALockReq.WAIT]).
Proof.
  intros [Hn _ _ Hk [Hof Hfor]] Hlt. unfold MAX_REQ in *. split; cbn.
  - intros aid tm' rid. rewrite u64_small by lia. intros [[<- [= <- <-]]|[Hne H]]%lookup_insert_Some.
    + split; [lia|]. eexists. split; [apply elem_of_app; right; by left|]. done.
    + destruct (Hof _ _ _ H) as (? & x & ? & ?). split; [lia|]. exists x. split; [set_solver|done].
  - intros x [Hx| ->%list_elem_of_singleton]%elem_of_app Hw.
    + destruct (Hfor x Hx Hw) as [tm' Htm]. exists tm'. rewrite lookup_insert_ne; [done|].
      destruct (Hof _ _ _ Htm) as [? _]. lia.
    + exists tm. cbn. by rewrite lookup_insert_eq.
Qed.

Lemma to_vlock_ok t p s :
  wf s → next_id_ s < MAX_REQ →
  ∃ s' evs, vlock t p s = Done (s', next_id_ s, evs) ∧ wf s' ∧ next_id_ s' = next_id_ s + 1 ∧
    apply_events (<[next_id_ s := (t, false)]> (queue_view (live (requests_ s)))) evs = Some (queue_view (live (requests_ s'))).
Proof.
  intros [Hb Hs] Hlt. destruct (to_new_view s t Hb) as [-> Hnd]. pose proof (base_next _ Hb) as Hn.
  pose proof (base_len _ Hb) as Hlen. unfold vlock. cbn zeta.
  cbn [next_id_ status_ n_rlock_ requests_ tm_wait_ alarm now]. rewrite u64_small by (unfold MAX_REQ in *; lia).
  destruct (_ || _) eqn:Hlk.
  - set (r := mkAReq (next_id_ s) 0 t ALockReq.LOCK).
    assert (status_ s = FREE ∨ status_ s = RLOCKED ∧ type_ r = RLOCK) as Hst.
    { apply orb_true_iff in Hlk as [?%bool_decide_eq_true|Hlk]; [by left|right].
      by apply andb_true_iff in Hlk as [?%bool_decide_eq_true ?%bool_decide_eq_true]. }
    pose proof (shape_grant _ _ _ r Hs Hst eq_refl) as Hs'.
    assert (0 ≤ n_rlock_ s < MAX_REQ).
    { unfold MAX_REQ in *. destruct (status_ s); cbn in Hs; [lia| |].
      - by destruct Hst as [?|[? _]].
      - destruct Hs as (? & Hc & _). pose proof (count_locked_le (requests_ s)). lia. }
    eexists _, _. split; [done|].
    assert (alarm_ok (alarm s) (requests_ s ++ [r])) as Ha by by apply alarm_ok_push; [apply Hb|].
    destruct t; cbn [set_requests] in *; unfold set_requests; cbn [next_id_ status_ n_rlock_ requests_ tm_wait_ alarm now] in *;
      rewrite ?i64_small by (unfold MAX_REQ in *; lia).
    + split; [split; [apply (push_base s RLOCKED _ r); auto; lia|exact Hs']|]. split; [done|].
      rewrite live_app. pose proof (apply_yes _ _ [] Hnd eq_refl) as Hy. cbn [apply_events]. cbn [id] in Hy. by rewrite Hy.
    + split; [split; [apply (push_base s WLOCKED _ r); auto; lia|exact Hs']|]. split; [done|].
      rewrite live_app. pose proof (apply_yes _ _ [] Hnd eq_refl) as Hy. cbn [apply_events]. cbn [id] in Hy. by rewrite Hy.
  - apply orb_false_iff in Hlk as [Hf%bool_decide_eq_false Hr]. destruct (decide (tm_wait_ s > 0)) as [Htw|Htw].
    + eexists _, _. split; [reflexivity|]. split; [split|split; [done|]]; unfold set_requests; cbn [next_id_ status_ n_rlock_ requests_ tm_wait_ alarm now].
      * apply (push_base s); [done|done|done|apply (alarm_ok_add s t _ Hb); lia|]. cbn.
        rewrite u64_small by (unfold MAX_REQ in *; lia). lia.
      * apply shape_wait; [done|done| |done]. intros E. cbn. rewrite E in Hr. by destruct t.
      * rewrite live_app. done.
    + eexists _, _. split; [done|]. split; [split; [|done]|split; [done|]].
      * destruct Hb as [? ? ? Hk ?]. constructor; cbn; [lia|lia|done| |done]. eapply Forall_impl; [exact Hk|]. cbn. lia.
      * pose proof (apply_no _ _ [] Hnd eq_refl) as Hy. cbn [apply_events]. cbn [id] in Hy. by rewrite Hy, app_nil_r.
Qed.

(** ** Releases *)

Lemma update_base s st n l a :
  base s → id_ <$> l = id_ <$> requests_ s → alarm_ok a l → alarm_next_id_ a = alarm_next_id_ (alarm s) →
  base (set_requests s st n l a).
Proof.
  intros [Hn Hl Hi Hk _] E Ha Hna. constructor; cbn; [by rewrite Hna| |by rewrite E| |done].
  - rewrite <-(length_fmap id_), E, length_fmap. done.
  - assert (Forall (λ i, 0 < i < next_id_ s) (id_ <$> requests_ s)) as Hk' by by apply Forall_fmap.
    rewrite <-E in Hk'. by apply Forall_fmap in Hk'.
Qed.

Lemma erase_base s st n pre r post a :
  base s → requests_ s = pre ++ r :: post → alarm_ok a (pre ++ post) → alarm_next_id_ a = alarm_next_id_ (alarm s) →
  base (set_requests s st n (pre ++ post) a).
Proof.
  intros [Hn Hl Hi Hk _] E Ha Hna. rewrite E in *. constructor; cbn; [by rewrite Hna| | | |done].
  - rewrite length_app in *. cbn in Hl. lia.
  - rewrite fmap_app, fmap_cons in Hi. rewrite fmap_app. apply NoDup_app in Hi as (H1 & H2 & [_ H3]%NoDup_cons).
    apply NoDup_app. split_and!; [done| |done]. intros i Hi1 Hi2. apply (H2 i Hi1). by right.
  - rewrite Forall_app, Forall_cons in Hk. apply Forall_app; tauto.
Qed.

Lemma lock_reader_ids (l : list ALockReq) : id_ <$> (lock_reader <$> l) = id_ <$> l.
Proof.
  induction l as [|r l IH]; [done|]. rewrite !fmap_cons, IH. unfold lock_reader. by case_decide.
Qed.

Lemma lock_readers_count l :
  Forall is_idle l → count_locked (lock_reader <$> l) = Z.of_nat (length (filter waiting_reader l)).
Proof.
  induction 1 as [|r l Hr _ IH]; [done|]. unfold count_locked in *. rewrite fmap_cons.
  destruct (decide (waiting_reader r)) as [Hw|Hw].
  - rewrite (filter_cons_True waiting_reader) by done. rewrite filter_cons_True; [cbn; lia|].
    unfold lock_reader. by rewrite decide_True.
  - rewrite (filter_cons_False waiting_reader) by done. rewrite filter_cons_False; [done|].
    unfold lock_reader. rewrite decide_False by done.
    unfold is_locked, is_idle, is_waiting in *. intros E. destruct Hr; congruence.
Qed.

Lemma idle_not_locked l : Forall is_idle l → count_locked l = 0.
Proof.
  intros H. apply count_locked_none. eapply Forall_impl; [exact H|].
  unfold is_idle, is_waiting, is_locked. cbn. intros r [?|?]; congruence.
Qed.

(** The waiting requests after a writer, or a reader with the readers behind it, is granted. *)
Lemma waiting_after_grant l pre r post g post' :
  NoDup (id_ <$> l) → l = pre ++ r :: post → is_waiting r →
  (g = [r] ∧ post' = post) ∨ (g = r :: filter waiting_reader post ∧ post' = lock_reader <$> post) →
  ∀ x, is_waiting x → x ∈ pre ++ set_req_status ALockReq.LOCK r :: post' ↔ x ∈ l ∧ x ∉ g.
Proof.
  intros Hnd -> Hr Hg x Hx.
  assert (x ≠ set_req_status ALockReq.LOCK r) as Hne by (intros ->; done).
  rewrite fmap_app, fmap_cons, NoDup_app, NoDup_cons in Hnd. destruct Hnd as (_ & Hd & Hn & _).
  assert (r ∉ pre) as Hpre. { intros H. apply (Hd (id_ r)); [by apply list_elem_of_fmap_2|by left]. }
  assert (r ∉ post) as Hpost. { intros H. apply Hn. by apply list_elem_of_fmap_2. }
  destruct Hg as [[-> ->]|[-> ->]].
  - set_solver.
  - assert (x ∈ lock_reader <$> post ↔ x ∈ post ∧ ¬ waiting_reader x) as Hl.
    { rewrite list_elem_of_fmap. unfold lock_reader. split.
      - intros (y & -> & Hy). case_decide; [done|]. done.
      - intros [Hy Hw]. exists x. by rewrite decide_False. }
    rewrite elem_of_app, elem_of_cons, Hl, elem_of_app, elem_of_cons, elem_of_cons, list_elem_of_filter.
    assert (∀ y, y ∈ pre → y ∉ post) as Hdis.
    { intros y Hy Hy'. apply (Hd (id_ y)); [by apply list_elem_of_fmap_2|right; by apply list_elem_of_fmap_2]. }
    split; [|tauto]. intros [H|[H|[H Hw]]]; [|done|].
    + split; [by left|]. intros [-> |[_ H']]; [done|]. by eapply Hdis.
    + split; [tauto|]. intros [-> |[H' _]]; done.
Qed.

Lemma grant_view pre r post :
  is_waiting r → NoDup (id_ <$> pre ++ r :: post) →
  live (pre ++ r :: post) = live pre ++ mkReq (id_ r) 0 (type_ r) WAIT :: live post ∧
  apply_event (queue_view (live (pre ++ r :: post))) (Yes (id_ r)) =
    Some (queue_view (live pre ++ mkReq (id_ r) 0 (type_ r) LOCK :: live post)).
Proof.
  intros Hr Hnd. assert (live (pre ++ r :: post) = live pre ++ mkReq (id_ r) 0 (type_ r) WAIT :: live post) as E.
  { rewrite live_app. f_equal. cbn. unfold live_req. by rewrite Hr. }
  split; [done|]. apply live_nodup in Hnd. rewrite E in *. by apply (apply_yes _ _ _ Hnd).
Qed.

Lemma to_lock_all_ok s :
  base s → status_ s = FREE → n_rlock_ s = 0 → Forall is_idle (requests_ s) →
  ∃ s' evs, lock_all s = Done (s', evs) ∧ wf s' ∧ next_id_ s' = next_id_ s ∧
    apply_events (queue_view (live (requests_ s))) evs = Some (queue_view (live (requests_ s'))).
Proof.
  intros Hb Hf Hn Hidle. pose proof (base_ids _ Hb) as Hnd. pose proof (base_len _ Hb) as Hlen. pose proof (base_next _ Hb) as Hnx.
  unfold lock_all. rewrite bool_decide_eq_true_2 by done. cbn [verify mbind result_bind].
  destruct (lock_first (requests_ s)) as [[[pre r] post]|] eqn:E.
  - apply lock_first_Some in E as (Hl & Hr & Hpre). rewrite Hl in Hidle, Hnd. rewrite Hl in Hlen.
    pose proof Hidle as Hidle'. rewrite Forall_app, Forall_cons in Hidle. destruct Hidle as (Hip & _ & Hipost).
    destruct (grant_view pre r post Hr Hnd) as [Hlive Hyes].
    set (g := match type_ r with WLOCK => [r] | RLOCK => r :: filter waiting_reader post end).
    set (post' := match type_ r with WLOCK => post | RLOCK => lock_reader <$> post end).
    assert (alarm_ok (cancel (alarm s) g) (pre ++ set_req_status ALockReq.LOCK r :: post')) as Ha.
    { apply (alarm_ok_cancel _ (pre ++ r :: post)); [done|rewrite <-Hl; apply Hb| |].
      - subst g. apply Forall_forall. intros x Hx. destruct (type_ r).
        + apply elem_of_cons in Hx as [-> |Hx]; [split; [set_solver|done]|].
          apply list_elem_of_filter in Hx as [[_ ?] ?]. split; [set_solver|done].
        + apply list_elem_of_singleton in Hx as ->. split; [set_solver|done].
      - apply (waiting_after_grant _ pre r post); [done..|]. subst g post'. destruct (type_ r); [by right|by left]. }
    cbn [type_ set_req_status]. subst g post'. destruct (type_ r) eqn:Ht.
    + eexists _, _. split; [done|]. split; [split|split; [done|]].
      * apply update_base; [done| |exact Ha|apply (cancel_next _ (r :: _))].
        rewrite Hl, !fmap_app, !fmap_cons, lock_reader_ids. done.
      * pose proof (length_filter waiting_reader post). rewrite length_app in Hlen. cbn in Hlen. unfold MAX_REQ in *.
        cbn [set_requests status_ n_rlock_ requests_]. rewrite Hn, i64_small by lia.
        split_and!; [lia| |].
        -- rewrite cons_middle, !count_locked_app, lock_readers_count, (idle_not_locked pre) by done.
           unfold count_locked. rewrite filter_cons_True by done. cbn. lia.
        -- rewrite Forall_app, Forall_cons. split_and!.
           ++ apply Forall_forall. intros x Hx. rewrite Forall_forall in Hip, Hpre.
              destruct (Hip x Hx) as [?|?]; [by destruct (Hpre x Hx)|by right; right].
           ++ left. done.
           ++ apply Forall_fmap. eapply Forall_impl; [exact Hipost|]. intros x Hx. cbn. unfold lock_reader.
              case_decide as Hw; [left; split; [done|apply Hw]|]. unfold beside_readers, waiting_reader, is_idle, is_waiting in *.
              destruct (type_ x); naive_solver.
      * cbn [apply_events id_ set_req_status]. rewrite Hl, Hyes. cbn [mbind option_bind set_requests requests_].
        rewrite live_app. cbn [live omap list_omap live_req set_req_status req_status_ id_ type_].
        rewrite (cons_middle _ (live pre)), (app_assoc (live pre)). rewrite apply_lock_readers; [by rewrite <-app_assoc, Ht|].
        rewrite <-app_assoc. apply live_nodup in Hnd. rewrite Hlive in Hnd. rewrite fmap_app in *. exact Hnd.
    + eexists _, _. split; [done|]. split; [split|split; [done|]].
      * apply update_base; [done| |exact Ha|done]. rewrite Hl, !fmap_app, !fmap_cons. done.
      * cbn [set_requests status_ n_rlock_ requests_]. split_and!; [done| |].
        -- rewrite cons_middle, !count_locked_app, (idle_not_locked pre), (idle_not_locked post) by done.
           unfold count_locked. by rewrite filter_cons_True.
        -- rewrite Forall_app, Forall_cons. split_and!; [eapply Forall_impl; [exact Hip|]|by left|eapply Forall_impl; [exact Hipost|]]; intros ? ?; by right.
      * cbn [apply_events id_ set_req_status]. rewrite Hl, Hyes. cbn [mbind option_bind set_requests requests_].
        rewrite live_app. cbn. by rewrite Ht.
  - apply lock_first_None in E. eexists _, _. split; [done|]. split; [split; [done|]|done].
    rewrite Hf, Hn. split; [done|]. apply Forall_forall. intros x Hx. rewrite Forall_forall in E, Hidle.
    destruct (Hidle x Hx) as [?|?]; [by destruct (E x Hx)|done].
Qed.

Lemma count_locked_zero l : count_locked l = 0 → Forall (λ r, ¬ is_locked r) l.
Proof.
  unfold count_locked. induction l as [|r l IH]; [constructor|]. rewrite filter_cons. case_decide; cbn; [lia|].
  intros. constructor; auto.
Qed.

Lemma live_delete pre r post :
  NoDup (id_ <$> pre ++ r :: post) → delete (id_ r) (queue_view (live (pre ++ r :: post))) = queue_view (live (pre ++ post)).
Proof.
  intros Hnd. rewrite !live_app. cbn. fold (live post). destruct (live_req r) as [x|] eqn:E.
  - pose proof (live_req_id _ _ E) as [Hx _]. rewrite <-Hx. apply queue_view_delete.
    apply live_nodup in Hnd. rewrite live_app in Hnd. cbn in Hnd. by rewrite E in Hnd.
  - apply delete_id, queue_view_None. rewrite <-live_app. intros Hin%live_ids.
    rewrite fmap_app, fmap_cons, NoDup_app, NoDup_cons in Hnd. rewrite fmap_app, elem_of_app in Hin.
    destruct Hnd as (_ & Hd & Hn & _). destruct Hin as [Hin|Hin]; [|done]. apply (Hd _ Hin). by left.
Qed.

Lemma shape_release st n pre r post :
  shape st n (pre ++ r :: post) → is_locked r →
  n = (match type_ r with WLOCK => 0 | RLOCK => count_locked (pre ++ post) + 1 end) ∧
  (type_ r = WLOCK ∨ count_locked (pre ++ post) = 0 → Forall is_idle (pre ++ post)) ∧
  (type_ r = RLOCK → st = RLOCKED ∧ Forall beside_readers (pre ++ post)).
Proof.
  intros Hs Hr. assert (count_locked (pre ++ r :: post) = count_locked (pre ++ post) + 1) as Hc.
  { rewrite cons_middle, !count_locked_app. unfold count_locked at 2. rewrite filter_cons_True by done. cbn. lia. }
  destruct st; cbn in Hs.
  - destruct Hs as [_ Hall]. rewrite Forall_app, Forall_cons in Hall. unfold is_locked in Hr. naive_solver congruence.
  - destruct Hs as (-> & Hc1 & Hall). rewrite Forall_app, Forall_cons in Hall. destruct Hall as (H1 & [[_ Ht]|Hi] & H2).
    + rewrite Ht. split_and!; [done| |done]. intros _. assert (count_locked (pre ++ post) = 0) as Hz%count_locked_zero by lia.
      assert (Forall beside_writer (pre ++ post)) as H3 by by apply Forall_app.
      rewrite Forall_forall in *. intros x Hx. destruct (H3 x Hx) as [[? _]|?]; [by destruct (Hz x Hx)|done].
    + destruct Hi as [Hi|Hi]; unfold is_locked, is_waiting in *; congruence.
  - destruct Hs as (Hn & Hc1 & Hall). rewrite Forall_app, Forall_cons in Hall. destruct Hall as (H1 & Hr' & H2).
    assert (type_ r = RLOCK) as Ht.
    { destruct Hr' as [[_ ?]|[[Hw _]|Ht]]; [done| |]; unfold is_locked, is_waiting in *; congruence. }
    rewrite Ht. assert (Forall beside_readers (pre ++ post)) as H3 by by apply Forall_app. split_and!; [lia| |done].
    intros [?|Hz%count_locked_zero]; [done|]. rewrite Forall_forall in *. intros x Hx.
    destruct (H3 x Hx) as [[? _]|[[? _]|?]]; [by destruct (Hz x Hx)|by left|by right].
Qed.

Lemma shape_status st n pre r post : shape st n (pre ++ r :: post) → is_locked r ∨ is_idle r.
Proof.
  intros Hs. destruct st; cbn in Hs; rewrite Forall_app, Forall_cons in Hs;
    unfold beside_readers, beside_writer, is_idle in *; naive_solver.
Qed.

Lemma shape_erase_idle st n pre r post :
  shape st n (pre ++ r :: post) → is_idle r → shape st n (pre ++ post).
Proof.
  intros Hs Hr. assert (count_locked (pre ++ r :: post) = count_locked (pre ++ post)) as Hc.
  { rewrite cons_middle, !count_locked_app. rewrite (idle_not_locked [r]); [lia|]. by apply Forall_singleton. }
  destruct st; cbn in *.
  - rewrite Forall_app, Forall_cons in Hs. rewrite Forall_app. tauto.
  - rewrite Hc, Forall_app, Forall_cons in Hs. rewrite Forall_app. tauto.
  - rewrite Hc, Forall_app, Forall_cons in Hs. rewrite Forall_app. tauto.
Qed.

Lemma alarm_ok_erase s pre r post :
  base s → requests_ s = pre ++ r :: post → ¬ is_waiting r → alarm_ok (alarm s) (pre ++ post).
Proof.
  intros Hb Hl Hr. apply (alarm_ok_cancel _ (requests_ s) _ []); [apply Hb|apply Hb|constructor|].
  intros x Hx. rewrite Hl. assert (x ≠ r) by (intros ->; done). set_solver.
Qed.

(** An aborted request leaves the lock; if it held it alone, the next one is granted. *)
Lemma to_abort_ok i s :
  wf s → ∃ s' evs, abort i s = Done (s', evs) ∧ wf s' ∧ next_id_ s' = next_id_ s ∧
    apply_events (delete i (queue_view (live (requests_ s)))) evs = Some (queue_view (live (requests_ s'))).
Proof.
  intros [Hb Hs]. pose proof (base_ids _ Hb) as Hnd. pose proof (base_len _ Hb) as Hlen. pose proof (base_next _ Hb) as Hnx.
  unfold abort. destruct (find_areq i (requests_ s)) as [[[pre r] post]|] eqn:E.
  2:{ apply find_areq_None in E. eexists _, _. split; [done|]. split; [done|]. split; [done|].
      cbn. rewrite delete_id; [done|]. apply queue_view_None. intros H%live_ids. done. }
  apply find_areq_Some in E as [Hl <-]. rewrite Hl in Hs, Hnd, Hlen. rewrite Hl, live_delete by done.
  destruct (req_status_ r) eqn:Hr.
  - eexists _, _. split; [done|]. split; [split|split; [done|done]].
    + eapply erase_base; [done|done| |done].
      apply (alarm_ok_cancel _ (requests_ s) _ [r]); [apply Hb|apply Hb| |].
      * apply Forall_singleton. rewrite Hl. split; [set_solver|done].
      * intros x Hx. rewrite Hl. rewrite fmap_app, fmap_cons, NoDup_app, NoDup_cons in Hnd.
        destruct Hnd as (_ & Hd & Hn & _).
        assert (r ∉ pre). { intros H. apply (Hd (id_ r)); [by apply list_elem_of_fmap_2|by left]. }
        assert (r ∉ post). { intros H'. apply Hn. by apply list_elem_of_fmap_2. }
        set_solver.
    + eapply shape_erase_idle; [done|by left].
  - destruct (shape_release _ _ _ _ _ Hs Hr) as (Hn & Hidle & Hrd).
    pose proof (count_locked_le (pre ++ post)) as Hcb. rewrite length_app in *. cbn in Hlen. unfold MAX_REQ in *.
    assert (alarm_ok (alarm s) (pre ++ post)) as Ha.
    { eapply alarm_ok_erase; [done|done|]. unfold is_waiting. congruence. }
    set (n := match type_ r with RLOCK => i64 (n_rlock_ s - 1) | WLOCK => n_rlock_ s end).
    assert (n = if decide (type_ r = WLOCK) then 0 else count_locked (pre ++ post)) as Hn'.
    { subst n. rewrite Hn. destruct (type_ r); [|done]. rewrite i64_small by lia. rewrite decide_False by done. lia. }
    destruct (decide (n = 0)) as [Hz|Hz].
    + rewrite decide_True by done. apply to_lock_all_ok; [by eapply erase_base|done|done|].
      cbn. apply Hidle. destruct (type_ r); [right|by left]. rewrite Hn' in Hz. by rewrite decide_False in Hz.
    + destruct (type_ r); [|done]. destruct (Hrd eq_refl) as [Hst Hall]. rewrite Hst. rewrite decide_False by done.
      eexists _, _. split; [done|]. split; [split; [by eapply erase_base|]|done].
      cbn. rewrite decide_False in Hn' by done. split_and!; [lia|lia|done].
  - exfalso. destruct (shape_status _ _ _ _ _ Hs) as [?|[?|?]]; unfold is_locked, is_waiting in *; congruence.
  - exfalso. destruct (shape_status _ _ _ _ _ Hs) as [?|[?|?]]; unfold is_locked, is_waiting in *; congruence.
  - eexists _, _. split; [done|]. split; [split|done].
    + eapply erase_base; [done|done| |done]. eapply alarm_ok_erase; [done|done|]. unfold is_waiting. congruence.
    + eapply shape_erase_idle; [done|by right].
Qed.

(** ** Timeouts *)

Lemma alarm_min_Some m k v : alarm_min m = Some (k, v) → m !! k = Some v ∧ ∀ k', is_Some (m !! k') → k ≤ k'.
Proof.
  unfold alarm_min. intros H.
  enough ((k, v) ∈ map_to_list m ∧ ∀ x, x ∈ map_to_list m → k ≤ x.1) as [Hin Hmin].
  { split; [by apply elem_of_map_to_list|]. intros k' [v' Hv']. apply (Hmin (k', v')). by apply elem_of_map_to_list. }
  revert k v H. induction (map_to_list m) as [|x l IH]; intros k v; cbn; [done|].
  destruct (foldr _ None l) as [[k0 v0]|] eqn:E.
  - destruct (IH _ _ eq_refl) as [Hin Hmin]. case_decide as Hlt; intros ?; simplify_eq/=.
    + split; [by left|]. intros y [-> |Hy]%elem_of_cons; [cbn; lia|]. apply Hmin in Hy. cbn in *. lia.
    + split; [by right|]. intros y [-> |Hy]%elem_of_cons; [cbn in *; lia|auto].
  - intros [= ->]. split; [by left|]. destruct l as [|y l]; [|exfalso; cbn in E; destruct (foldr _ None l); [by case_decide|done]].
    intros y [-> |Hy%not_elem_of_nil]%elem_of_cons; [cbn; lia|done].
Qed.

Lemma alarm_min_None m : alarm_min m = None → m = ∅.
Proof.
  unfold alarm_min. intros H. apply map_to_list_empty_iff. destruct (map_to_list m) as [|x l]; [done|].
  cbn in H. destruct (foldr _ None l); [by case_decide|done].
Qed.

Lemma shape_timeout st n pre r post :
  shape st n (pre ++ r :: post) → is_waiting r → shape st n (pre ++ set_req_status ALockReq.TIMEOUT r :: post).
Proof.
  intros Hs Hr.
  assert (count_locked (pre ++ set_req_status ALockReq.TIMEOUT r :: post) = count_locked (pre ++ r :: post)) as Hc.
  { rewrite !(cons_middle _ pre), !count_locked_app.
    rewrite (idle_not_locked [r]), (idle_not_locked [set_req_status _ r]); [done|apply Forall_singleton; by right|].
    apply Forall_singleton. by left. }
  destruct st; cbn in *; rewrite ?Hc; rewrite Forall_app, Forall_cons in *;
    unfold beside_writer, beside_readers, is_idle; naive_solver.
Qed.

(** A due alarm finds its request waiting and turns it away. *)
Lemma exe_next_ok s :
  wf s →
  ∃ s' evs b, exe_next s = Done (s', evs, b) ∧ wf s' ∧ next_id_ s' = next_id_ s ∧ now s' = now s ∧ tm_wait_ s' = tm_wait_ s ∧
    apply_events (queue_view (live (requests_ s))) evs = Some (queue_view (live (requests_ s'))) ∧
    waiting_ (alarm s') ⊆ waiting_ (alarm s) ∧
    (if b then (size (waiting_ (alarm s')) < size (waiting_ (alarm s)))%nat
     else s' = s ∧ (alarm_min (waiting_ (alarm s)) = None ∨
            ∃ aid tm rid, alarm_min (waiting_ (alarm s)) = Some (aid, (tm, rid)) ∧ now s ≤ tm)).
Proof.
  intros [Hb Hs]. pose proof (base_ids _ Hb) as Hnd. unfold exe_next.
  destruct (alarm_min (waiting_ (alarm s))) as [[aid [tm rid]]|] eqn:E.
  2:{ eexists _, _, false. repeat (split; [done|]). by left. }
  pose proof (alarm_min_Some _ _ _ E) as [Ha _].
  destruct (decide (now s > tm)) as [Hd|Hd].
  2:{ eexists _, _, false. repeat (split; [done|]). right. exists aid, tm, rid. split; [done|lia]. }
  destruct (alarm_of _ _ (base_alarm _ Hb) _ _ _ Ha) as (Hlt & r & Hr & <- & <- & Hw).
  unfold do_timeout. destruct (find_areq (id_ r) (requests_ s)) as [[[pre r'] post]|] eqn:E'.
  2:{ apply find_areq_None in E'. destruct E'. by apply list_elem_of_fmap_2. }
  apply find_areq_Some in E' as [Hl Hid]. assert (r' = r) as -> by (eapply (id_inj (requests_ s)); rewrite ?Hl in *; set_solver).
  rewrite decide_True by done. cbn [mbind result_bind].
  eexists _, _, true. split; [reflexivity|]. rewrite Hl in Hs, Hnd.
  split; [split|repeat (split; [done|])].
  - cbn. apply (update_base s); [done| | |done].
    + rewrite Hl, !fmap_app, !fmap_cons. done.
    + apply (alarm_ok_cancel _ (requests_ s) _ [r]); [apply Hb|apply Hb|by apply Forall_singleton|].
      intros x Hx. assert (x ≠ set_req_status ALockReq.TIMEOUT r) by (intros ->; done).
      rewrite Hl. rewrite fmap_app, fmap_cons, NoDup_app, NoDup_cons in Hnd. destruct Hnd as (_ & Hdj & Hn & _).
      assert (r ∉ pre). { intros H1. apply (Hdj (id_ r)); [by apply list_elem_of_fmap_2|by left]. }
      assert (r ∉ post). { intros H'. apply Hn. by apply list_elem_of_fmap_2. }
      set_solver.
  - by eapply shape_timeout.
  - split; [|split].
    + cbn [set_requests requests_]. rewrite Hl. pose proof (live_nodup _ Hnd) as Hnd'.
      assert (live (pre ++ r :: post) = live pre ++ mkReq (id_ r) 0 (type_ r) WAIT :: live post) as Hlive.
      { rewrite live_app. f_equal. cbn. unfold live_req. by rewrite Hw. }
      rewrite Hlive in *. cbn [apply_events]. pose proof (apply_no _ _ _ Hnd' eq_refl) as Hy. cbn [id] in Hy.
      rewrite Hy. rewrite live_app. done.
    + cbn. apply delete_subseteq.
    + cbn. rewrite map_size_delete_Some by by eexists. apply Nat.lt_pred_l. rewrite map_size_ne_0_lookup. eauto.
Qed.

(** Deadlines grow with the alarms' ids, so that looking at the first alarm is enough. *)
Definition timely (s : TimeoutALock) : Prop :=
  (∀ a1 a2 t1 t2 r1 r2, waiting_ (alarm s) !! a1 = Some (t1, r1) → waiting_ (alarm s) !! a2 = Some (t2, r2) →
     a1 < a2 → t1 ≤ t2) ∧
  (∀ a t r, waiting_ (alarm s) !! a = Some (t, r) → t ≤ now s + tm_wait_ s).

Lemma timely_subseteq s s' :
  timely s → waiting_ (alarm s') ⊆ waiting_ (alarm s) → now s ≤ now s' → tm_wait_ s' = tm_wait_ s → timely s'.
Proof.
  intros [H1 H2] Hsub Hnow Htw. split.
  - intros a1 a2 t1 t2 r1 r2 Ha1 Ha2. eapply H1; by eapply lookup_weaken.
  - intros a t r Ha. assert (t ≤ now s + tm_wait_ s) by (eapply H2; by eapply lookup_weaken). lia.
Qed.

Definition no_due (s : TimeoutALock) : Prop :=
  ∀ a t r, waiting_ (alarm s) !! a = Some (t, r) → now s ≤ t.

Lemma alarm_run_ok fuel s :
  wf s → (size (waiting_ (alarm s)) < fuel)%nat →
  ∃ s' evs, alarm_run fuel s = Done (s', evs) ∧ wf s' ∧ (timely s → timely s' ∧ no_due s') ∧
    next_id_ s' = next_id_ s ∧ now s' = now s ∧ tm_wait_ s' = tm_wait_ s ∧
    apply_events (queue_view (live (requests_ s))) evs = Some (queue_view (live (requests_ s'))).
Proof.
  revert s. induction fuel as [|fuel IH]; intros s Hwf Hf; [lia|]. cbn [alarm_run].
  destruct (exe_next_ok s Hwf) as (s1 & evs & b & -> & Hwf1 & Hn1 & Hnow1 & Htw1 & Hev & Hsub & Hb). cbn.
  assert (timely s → timely s1) as Ht1 by (intros; apply (timely_subseteq s); [done|done|lia|done]).
  destruct b.
  - destruct (IH s1 Hwf1 ltac:(lia)) as (s2 & evs2 & -> & Hwf2 & Ht2 & Hn2 & Hnow2 & Htw2 & Hev2).
    cbn. exists s2, (evs ++ evs2). split_and!; [done|done|auto|congruence|congruence|congruence|].
    rewrite apply_events_app, Hev. done.
  - destruct Hb as [-> Hmin]. exists s, evs. split_and!; try done. intros Ht. split; [done|]. intros a t r Ha.
    destruct Hmin as [E%alarm_min_None|(aid & tm & rid & E & Hle)]; [by rewrite E, lookup_empty in Ha|].
    apply alarm_min_Some in E as [Ha0 Hmin]. specialize (Hmin a ltac:(by eexists)).
    destruct (decide (aid = a)) as [-> |Hne]; [naive_solver|].
    pose proof (proj1 Ht aid a tm t rid r Ha0 Ha ltac:(lia)). lia.
Qed.

Lemma tick_ok d s :
  wf s → 0 ≤ d →
  ∃ s' evs, tick d s = Done (s', evs) ∧ wf s' ∧ (timely s → timely s' ∧ no_due s') ∧
    next_id_ s' = next_id_ s ∧ now s' = now s + d ∧ tm_wait_ s' = tm_wait_ s ∧
    apply_events (queue_view (live (requests_ s))) evs = Some (queue_view (live (requests_ s'))).
Proof.
  intros [[? ? ? ? ?] Hs] Hd. unfold tick. cbn zeta. cbn [alarm].
  set (s1 := mkTO _ _ _ _ _ _ _).
  destruct (alarm_run_ok (S (size (waiting_ (alarm s)))) s1) as (s' & evs & Heq & Hwf & Ht & Hrest);
    [split; [constructor; eassumption|exact Hs]|cbn; lia|].
  exists s', evs. split; [exact Heq|]. split; [done|]. split; [|exact Hrest].
  intros Hts. apply Ht. apply (timely_subseteq s); cbn; [done|done|lia|done].
Qed.

Lemma cancel_subseteq a g : waiting_ (cancel a g) ⊆ waiting_ a.
Proof.
  apply map_subseteq_spec. intros k x. rewrite cancel_lookup. by case_decide.
Qed.

Lemma lock_all_alarm s s' evs :
  lock_all s = Done (s', evs) → waiting_ (alarm s') ⊆ waiting_ (alarm s) ∧ now s' = now s ∧ tm_wait_ s' = tm_wait_ s.
Proof.
  unfold lock_all. intros H. done_inv H. clear Hr.
  destruct (lock_first (requests_ s)) as [[[pre x] post]|]; [|by simplify_eq].
  cbn in H. destruct (type_ x); simplify_eq/=.
  - split; [|done]. apply (cancel_subseteq (alarm s) (x :: _)).
  - split; [|done]. apply (cancel_subseteq (alarm s) [x]).
Qed.

Lemma abort_timely i s s' evs :
  abort i s = Done (s', evs) → timely s → timely s' ∧ now s' = now s ∧ tm_wait_ s' = tm_wait_ s.
Proof.
  intros H Ht. enough (waiting_ (alarm s') ⊆ waiting_ (alarm s) ∧ now s' = now s ∧ tm_wait_ s' = tm_wait_ s) as (? & ? & ?).
  { split; [|done]. apply (timely_subseteq s); [done|done|lia|done]. }
  unfold abort in H. destruct (find_areq i (requests_ s)) as [[[pre r] post]|]; [|by simplify_eq].
  destruct (req_status_ r); simplify_eq/=; [|..|done].
  - split; [|done]. apply delete_subseteq.
  - case_decide; [|by simplify_eq]. by apply lock_all_alarm in H.
Qed.

Lemma vlock_timely t p s s' i evs :
  base s → vlock t p s = Done (s', i, evs) → timely s → 0 ≤ now s → now s + tm_wait_ s < 2 ^ 64 →
  timely s' ∧ now s' = now s ∧ tm_wait_ s' = tm_wait_ s.
Proof.
  intros Hb H Ht H0 Hov. unfold vlock in H. cbn zeta in H. cbn [status_ n_rlock_ requests_ tm_wait_ alarm now] in H.
  destruct (_ || _); [destruct t; by simplify_eq/=|].
  destruct (decide (tm_wait_ s > 0)) as [Htw|]; [|by simplify_eq/=]. cbn in H. simplify_eq/=.
  rewrite (u64_small (now s + tm_wait_ s)) by lia.
  destruct Ht as [H1 H2]. split; [|done]. split; cbn.
  - intros a1 a2 t1 t2 r1 r2 [[<- [= <- <-]]|[Hne1 Ha1]]%lookup_insert_Some [[<- [= <- <-]]|[Hne2 Ha2]]%lookup_insert_Some Hlt; [lia| | |].
    + destruct (alarm_of _ _ (base_alarm _ Hb) _ _ _ Ha2) as [? _]. lia.
    + by eapply H2.
    + by eapply H1.
  - intros a tm r [[<- [= <- <-]]|[Hne1 Ha1]]%lookup_insert_Some; [lia|by eapply H2].
Qed.

(** ** The interface *)

#[export] Instance timeout_alock : ALock TimeoutALock := {
  alock_lock := vlock;
  alock_abort i s := '(s, evs) ← abort i s; Done (s, evs, false);
  alock_late _ := true;
  alock_tick := tick_one;
  alock_wf := wf;
  alock_view s := queue_view (live (requests_ s));
  alock_next := next_id_
}.

Lemma live_view s i t (b : bool) :
  base s → queue_view (live (requests_ s)) !! i = Some (t, b) →
  ∃ r, r ∈ requests_ s ∧ id_ r = i ∧ type_ r = t ∧ (if b then is_locked r else is_waiting r).
Proof.
  intros Hb Hv. apply queue_view_Some in Hv as (x & Hin & E); [|apply live_nodup, Hb].
  apply live_elem in Hin as (r & Hr & Hx). unfold req_entry in E. simplify_eq.
  exists r. pose proof (live_req_id _ _ Hx) as [-> ->]. split_and!; [done..|].
  unfold live_req, is_locked, is_waiting in *. by destruct (req_status_ r); simplify_eq/=.
Qed.

Lemma count_locked_one l a b :
  count_locked l = 1 → NoDup l → a ∈ l → b ∈ l → is_locked a → is_locked b → a = b.
Proof.
  unfold count_locked. intros Hc Hnd Ha Hb Hla Hlb.
  destruct (filter is_locked l) as [|x [|y k]] eqn:E; cbn in Hc; [lia| |lia].
  assert (a ∈ filter is_locked l) as Ha' by by apply list_elem_of_filter.
  assert (b ∈ filter is_locked l) as Hb' by by apply list_elem_of_filter.
  rewrite E in Ha', Hb'. apply list_elem_of_singleton in Ha', Hb'. congruence.
Qed.

#[export] Instance timeout_lawful : LawfulALock TimeoutALock.
Proof.
  split; cbn.
  - intros s i j t t' [Hb Hs] Hi Hj Hij.
    apply (live_view s i t true Hb) in Hi as (a & Ha & <- & <- & Hla).
    apply (live_view s j t' true Hb) in Hj as (b & Hb' & <- & <- & Hlb).
    destruct (status_ s); cbn in Hs.
    + destruct Hs as [_ Hall]. rewrite Forall_forall in Hall. apply Hall in Ha. unfold is_locked in Hla. congruence.
    + destruct Hs as (_ & Hc & _). destruct Hij. f_equal.
      eapply count_locked_one; eauto. eapply NoDup_fmap_1, (base_ids _ Hb).
    + destruct Hs as (_ & _ & Hall). rewrite Forall_forall in Hall. apply Hall in Ha, Hb'.
      unfold beside_readers, is_locked, is_waiting in *. naive_solver congruence.
  - intros s [Hb _]. pose proof (base_next _ Hb). lia.
  - intros s i [t b] [Hb _] Hv. apply live_view in Hv as (r & Hr & <- & _); [|done].
    pose proof (base_known _ Hb) as Hk. rewrite Forall_forall in Hk. by apply Hk.
  - intros s i t [Hb Hs] Hv. apply live_view in Hv as (r & Hr & <- & <- & Hw); [|done].
    assert (∃ a, a ∈ requests_ s ∧ is_locked a) as (a & Ha & Hl).
    { assert (count_locked (requests_ s) ≠ 0) as Hc.
      - destruct (status_ s); cbn in Hs; [|lia|lia].
        destruct Hs as [_ Hall]. rewrite Forall_forall in Hall. apply Hall in Hr. unfold is_waiting in Hw. congruence.
      - unfold count_locked in Hc. destruct (filter is_locked (requests_ s)) as [|a k] eqn:E; [done|].
        assert (a ∈ filter is_locked (requests_ s)) as [? ?]%list_elem_of_filter by (rewrite E; by left). by exists a. }
    exists (id_ a), (type_ a). apply queue_view_Some; [apply live_nodup, Hb|].
    exists (mkReq (id_ a) 0 (type_ a) LOCK). split; [|done]. apply live_elem. exists a. split; [done|].
    unfold live_req. by rewrite Hl.
  - intros t p s Hwf Hlt. by apply to_vlock_ok.
  - intros i t s Hwf Hi. destruct (to_abort_ok i s Hwf) as (s' & evs & -> & Hok). by exists s', evs.
  - intros d s [[? ? ? ? ?] Hs] Hd. unfold tick_one.
    match goal with |- context [exe_next ?x] => destruct (exe_next_ok x) as (s' & evs & b & -> & ? & ? & _ & _ & ? & _) end;
      [split; [constructor; eassumption|exact Hs]|]. by exists s', evs.
Qed.

(** ** Runs *)

Inductive op := OpLock (t : type_t) | OpAbort (i : Z) | OpTick (d : Z).

Definition run_op (st : TimeoutALock * list event) (o : op) : result (TimeoutALock * list event) :=
  match o with
  | OpLock t => '(s, _, evs) ← vlock t 0 st.1; Done (s, st.2 ++ evs)
  | OpAbort i => '(s, evs) ← abort i st.1; Done (s, st.2 ++ evs)
  | OpTick d => '(s, evs) ← tick d st.1; Done (s, st.2 ++ evs)
  end.

Definition run (time_wait : Z) (ops : list op) : result (TimeoutALock * list event) :=
  for_each run_op ops (TimeoutALock_new time_wait, []).

(** The time that passes. *)
Fixpoint ticks (ops : list op) : Z :=
  match ops with
  | [] => 0
  | OpTick d :: ops => d + ticks ops
  | _ :: ops => ticks ops
  end.

Definition op_ok (o : op) : Prop := match o with OpTick d => 0 ≤ d | _ => True end.

Definition aborted (ops : list op) (i : Z) : Prop := OpAbort i ∈ ops.

Definition run_inv (time_wait : Z) (ops : list op) (st : TimeoutALock * list event) : Prop :=
  let '(s, evs) := st in
  wf s ∧ timely s ∧ tm_wait_ s = time_wait ∧ now s = ticks ops ∧
  next_id_ s ≤ Z.of_nat (length ops) + 1 ∧
  (∀ i, (answers i evs + waits (queue_view (live (requests_ s))) i ≤ if decide (0 < i < next_id_ s)%Z then 1 else 0)%nat) ∧
  (∀ i, ¬ aborted ops i → 0 < i < next_id_ s → (answers i evs + waits (queue_view (live (requests_ s))) i = 1)%nat).

Lemma ticks_snoc ops o : ticks (ops ++ [o]) = ticks ops + (match o with OpTick d => d | _ => 0 end).
Proof. induction ops as [|o' ops IH]; cbn; [destruct o; cbn; lia|]. destruct o'; rewrite IH; lia. Qed.

Lemma ticks_pos ops : Forall op_ok ops → 0 ≤ ticks ops.
Proof. induction 1 as [|o ops Ho _ IH]; cbn; [lia|]. destruct o; cbn in Ho; lia. Qed.

Lemma to_run_op_ok tw ops o st :
  0 ≤ tw → Forall op_ok (ops ++ [o]) → Z.of_nat (length ops) < MAX_REQ - 1 → ticks ops + tw < 2 ^ 64 →
  run_inv tw ops st → ∃ st', run_op st o = Done st' ∧ run_inv tw (ops ++ [o]) st'.
Proof.
  intros Htw Hok Hlen Htk. apply Forall_app in Hok as [Hok [Ho _]%Forall_cons]. pose proof (ticks_pos _ Hok) as Hpos.
  destruct st as [s evs]. intros (Hwf & Ht & <- & Hnow & Hn & Hle & Heq). destruct o as [t|i|d]; cbn [run_op fst snd].
  - destruct (to_vlock_ok t 0 s Hwf ltac:(lia)) as (s' & es & Hv & Hwf' & Hn' & Hev). rewrite Hv. cbn [mbind result_bind].
    destruct (vlock_timely _ _ _ _ _ _ (proj1 Hwf) Hv Ht ltac:(lia) ltac:(lia)) as (Ht' & Hnow' & Htw').
    pose proof (base_next _ (proj1 Hwf)).
    eexists. split; [done|]. cbn. rewrite length_app, ticks_snoc. cbn. split_and!; [done|done|done|lia|lia| |].
    + intros i. rewrite answers_app. pose proof (apply_events_answers _ _ _ i Hev) as Hi. specialize (Hle i).
      unfold waits at 2 in Hi. destruct (decide (i = next_id_ s)) as [-> |Hne].
      * rewrite lookup_insert_eq in Hi. rewrite decide_False in Hle by lia. rewrite decide_True by lia. lia.
      * rewrite lookup_insert_ne in Hi by done. fold (waits (queue_view (live (requests_ s))) i) in Hi. repeat case_decide; lia.
    + intros i Hab Hi. rewrite answers_app. pose proof (apply_events_answers _ _ _ i Hev) as Hi'.
      unfold waits at 2 in Hi'. destruct (decide (i = next_id_ s)) as [-> |Hne].
      * rewrite lookup_insert_eq in Hi'. specialize (Hle (next_id_ s)). rewrite decide_False in Hle by lia. lia.
      * rewrite lookup_insert_ne in Hi' by done. fold (waits (queue_view (live (requests_ s))) i) in Hi'.
        assert (answers i evs + waits (queue_view (live (requests_ s))) i = 1)%nat; [|lia].
        apply Heq; [|lia]. unfold aborted in *. set_solver.
  - destruct (to_abort_ok i s Hwf) as (s' & es & Hv & Hwf' & Hn' & Hev). rewrite Hv.
    destruct (abort_timely _ _ _ _ Hv Ht) as (Ht' & Hnow' & Htw').
    eexists. split; [done|]. cbn. rewrite length_app, ticks_snoc. cbn. split_and!; [done|done|done|lia|lia| |].
    + intros j. rewrite answers_app, Hn'. pose proof (apply_events_answers _ _ _ j Hev) as Hj. specialize (Hle j).
      assert (waits (delete i (queue_view (live (requests_ s)))) j ≤ waits (queue_view (live (requests_ s))) j)%nat; [|lia].
      unfold waits. destruct (decide (i = j)) as [-> |]; [rewrite lookup_delete_eq; lia|by rewrite lookup_delete_ne].
    + intros j Hab Hj. rewrite answers_app. pose proof (apply_events_answers _ _ _ j Hev) as Hj'.
      unfold waits at 2 in Hj'. unfold aborted in *.
      rewrite lookup_delete_ne in Hj' by (intros ->; set_solver). fold (waits (queue_view (live (requests_ s))) j) in Hj'.
      assert (answers j evs + waits (queue_view (live (requests_ s))) j = 1)%nat; [|lia]. apply Heq; [set_solver|lia].
  - destruct (tick_ok d s Hwf Ho) as (s' & es & Hv & Hwf' & Ht' & Hn' & Hnow' & Htw' & Hev). apply Ht' in Ht as [Ht'' _]. rewrite Hv.
    eexists. split; [done|]. cbn. rewrite length_app, ticks_snoc. cbn. split_and!; [done|done|done|lia|lia| |].
    + intros j. rewrite answers_app, Hn'. pose proof (apply_events_answers _ _ _ j Hev). specialize (Hle j). lia.
    + intros j Hab Hj. rewrite answers_app. pose proof (apply_events_answers _ _ _ j Hev).
      assert (answers j evs + waits (queue_view (live (requests_ s))) j = 1)%nat; [|lia].
      unfold aborted in *. apply Heq; [set_solver|lia].
Qed.

Lemma ticks_app ops ops' : ticks (ops ++ ops') = ticks ops + ticks ops'.
Proof. induction ops as [|o ops IH]; cbn; [done|]. destruct o; rewrite IH; lia. Qed.

Lemma to_run_ok tw ops :
  0 ≤ tw → Forall op_ok ops → Z.of_nat (length ops) < MAX_REQ → ticks ops + tw < 2 ^ 64 →
  ∃ st, run tw ops = Done st ∧ run_inv tw ops st.
Proof.
  intros Htw Hops Hlen Htk. unfold run. apply (for_each_inv run_op (run_inv tw)).
  - cbn. split_and!; [|split|done|done|lia| |].
    + split; [|split; [done|constructor]]. constructor; cbn; [unfold MAX_REQ; lia|lia|constructor..|].
      split; cbn; [intros aid tm rid H; by rewrite lookup_empty in H|intros r Hr; by apply not_elem_of_nil in Hr].
    + intros a1 a2 t1 t2 r1 r2 H. cbn in H. by rewrite lookup_empty in H.
    + intros a t r H. cbn in H. by rewrite lookup_empty in H.
    + intros i. rewrite decide_False by lia. done.
    + intros i _ Hi. lia.
  - intros done o rest st -> Hinv. rewrite cons_middle, app_assoc in Hops. apply Forall_app in Hops as [Hops Hrest].
    rewrite length_app in Hlen. cbn in Hlen. rewrite cons_middle, app_assoc, ticks_app, ticks_snoc in Htk.
    pose proof (ticks_pos _ Hrest). pose proof Hops as [_ [Ho _]%Forall_cons]%Forall_app.
    apply to_run_op_ok; [done|done|lia| |done]. destruct o; cbn in Ho; lia.
Qed.

(** C16: in every sequence of lock, abort and clock steps on a timeout lock no assertion
    fails, no alarm touches a freed request and the alarm loop ends; granted requests
    are compatible; a request is answered at most once, and exactly once unless it
    waits or was aborted; after a clock step no waiting request is past its deadline. *)
Theorem timeout_runs tw ops d :
  0 ≤ tw → 0 ≤ d → Forall op_ok ops → Z.of_nat (length ops) < MAX_REQ - 1 → ticks ops + tw + d < 2 ^ 64 →
  ∃ s evs, run tw (ops ++ [OpTick d]) = Done (s, evs) ∧
    (∀ i j t t', alock_view s !! i = Some (t, true) → alock_view s !! j = Some (t', true) → i ≠ j → t = RLOCK ∧ t' = RLOCK) ∧
    (∀ i, (answers i evs + waits (alock_view s) i ≤ 1)%nat) ∧
    (∀ i, ¬ aborted ops i → 0 < i < next_id_ s → (answers i evs + waits (alock_view s) i = 1)%nat) ∧
    (∀ r, r ∈ requests_ s → is_waiting r → ∃ tm, waiting_ (alarm s) !! alarm_id_ r = Some (tm, id_ r) ∧ now s ≤ tm).
Proof.
  intros Htw Hd Hops Hlen Htk.
  destruct (to_run_ok tw ops Htw Hops ltac:(lia) ltac:(lia)) as ([s evs] & Heq & Hinv).
  assert (Forall op_ok (ops ++ [OpTick d])) as Hops' by (apply Forall_app; split; [done|by apply Forall_singleton]).
  destruct (to_run_op_ok tw ops (OpTick d) (s, evs) Htw Hops' Hlen ltac:(lia) Hinv) as ([s' evs'] & Ho & Hinv').
  destruct Hinv as (Hwf & Ht & _). destruct Hinv' as (Hwf' & _ & _ & _ & _ & Hle & Hex).
  exists s', evs'. unfold run in *. split; [|split_and!].
  - rewrite for_each_app, Heq. cbn -[run_op]. by rewrite Ho.
  - intros i j t t'. exact (alock_compat (S:=TimeoutALock) s' i j t t' Hwf').
  - intros i. specialize (Hle i). cbn. case_decide; lia.
  - intros i Hab Hi. apply Hex; [|done]. unfold aborted in *. set_solver.
  - intros r Hr Hw. destruct (alarm_for _ _ (base_alarm _ (proj1 Hwf')) r Hr Hw) as [tm Htm]. exists tm. split; [done|].
    destruct (tick_ok d s Hwf Hd) as (s2 & es & Hv & _ & Hdue & _). apply Hdue in Ht as [_ Hdue']. cbn [run_op fst snd] in Ho. rewrite Hv in Ho. simplify_eq/=.
    by eapply Hdue'.
Qed.

Lemma timeout_runs_witness :
  ∃ s evs, run 100 ([OpLock WLOCK; OpLock RLOCK; OpTick 60; OpLock WLOCK] ++ [OpTick 60]) = Done (s, evs) ∧
    evs = [Yes 1; No 2] ∧ ∀ i, (answers i evs + waits (alock_view s) i ≤ 1)%nat.
Proof.
  destruct (timeout_runs 100 [OpLock WLOCK; OpLock RLOCK; OpTick 60; OpLock WLOCK] 60) as (s & evs & Heq & _ & Hle & _);
    [done|done|repeat constructor; cbn; lia|done|done|].
  exists s, evs. split; [exact Heq|]. split; [|exact Hle]. vm_compute in Heq. by simplify_eq.
Defined.
