(* ===== verification/ALockGroup.v ===== *)
(** * Groups of locks

    Models [ALockGroup] of src/rococo-dst/rrr/misc/alock.{hpp,cpp} and the [DragonBall] of
    src/rococo-dst/rrr/misc/dball.hpp, over any lock that keeps the promises of [ALock].  A
    group asks for a set of locks; when every request has been answered it either has
    them all and reports success, or reports failure and releases those it got.

    Groups and locks call each other: a release inside one group can grant a request
    of another, complete that group, and start its releases, before the first call
    returns.  [callback] follows these nested calls; its fuel bounds their depth,
    which is at most the number of groups that have not been answered.

    A callback can erase the request that stores it, when the last answer of a failed
    group is a grant; the closure uses nothing of its own after that, and the model
    takes it to be harmless.  The alarms of locks with timeouts go off one at a time.

    [owner] is the group captured in the callbacks of a request; [ord] stands for the
    order of the pointer-keyed maps. *)

From S2P Require Import Prelude ALock.

Module Group.
Inductive status_t := INIT | WAIT | LOCK | TIMEOUT | UNLOCK.

#[global] Instance status_t_eq_dec : EqDecision status_t.
Proof. solve_decision. Defined.
End Group.

(** [db_] holds [n_wait_] and [n_ready_] of the group's [DragonBall]; it is deleted when
    it has fired. *)
Record ALockGroup := mkGroup {
  group_status_ : Group.status_t;
  locked_ : gmap Z Z;
  tolock_ : gmap Z type_t;
  priority_ : Z;
  db_ : option (Z * Z)
}.

Definition ALockGroup_new (p : Z) : ALockGroup := mkGroup Group.INIT ∅ ∅ p None.

Definition set_group_status (st : Group.status_t) (x : ALockGroup) : ALockGroup :=
  mkGroup st (locked_ x) (tolock_ x) (priority_ x) (db_ x).
Definition set_db (db : option (Z * Z)) (x : ALockGroup) : ALockGroup :=
  mkGroup (group_status_ x) (locked_ x) (tolock_ x) (priority_ x) db.
Definition set_locked (l i : Z) (x : ALockGroup) : ALockGroup :=
  mkGroup (group_status_ x) (<[l := i]> (locked_ x)) (tolock_ x) (priority_ x) (db_ x).
Definition set_tolock (m : gmap Z type_t) (x : ALockGroup) : ALockGroup :=
  mkGroup (group_status_ x) (locked_ x) m (priority_ x) (db_ x).

(** [replies]: the calls of [yes_callback_] and [no_callback_] of the groups. *)
Record System (S : Type) := mkSystem {
  locks : gmap Z S;
  groups : gmap Z ALockGroup;
  owner : gmap (Z * Z) Z;
  replies : list (Z * bool)
}.
Arguments mkSystem {S}.
Arguments locks {S}.
Arguments groups {S}.
Arguments owner {S}.
Arguments replies {S}.

Section group.
Context {S : Type} `{ALock S} (ord : gset Z → list Z).

Definition set_lock (l : Z) (s : S) (st : System S) : System S :=
  mkSystem (<[l := s]> (locks st)) (groups st) (owner st) (replies st).
Definition set_group (g : Z) (x : ALockGroup) (st : System S) : System S :=
  mkSystem (locks st) (<[g := x]> (groups st)) (owner st) (replies st).
Definition reply (g : Z) (b : bool) (st : System S) : System S :=
  mkSystem (locks st) (groups st) (owner st) (replies st ++ [(g, b)]).
Definition set_owner (l i g : Z) (st : System S) : System S :=
  mkSystem (locks st) (groups st) (<[(l, i) := g]> (owner st)) (replies st).

Definition get_lock (st : System S) (l : Z) : result S :=
  match locks st !! l with Some s => Done s | None => Crash invalid_access end.
Definition get_group (st : System S) (g : Z) : result ALockGroup :=
  match groups st !! g with Some x => Done x | None => Crash invalid_access end.
Definition get_owner (st : System S) (l i : Z) : result Z :=
  match owner st !! (l, i) with Some g => Done g | None => Crash invalid_access end.

(** [abort_all_locked]: [call l] runs the callbacks of lock [l]. *)
Definition abort_all_locked (call : Z → System S → event → result (System S)) (x : ALockGroup) (st : System S)
  : result (System S) :=
  for_each (λ st l,
    match locked_ x !! l with
    | None => Done st
    | Some i =>
        if decide (i = 0) then Done st
        else
          s ← get_lock st l;
          '(s, evs, late) ← alock_abort i s;
          st ← for_each (call l) evs (set_lock l s st);
          if (late : bool) then s ← get_lock st l; _ ← verify (alock_late s); Done st
          else Done st
    end) (ord (dom (locked_ x))) st.

(** [y_cb] and [n_cb] of request [i] of lock [l], up to [db_->trigger()]. *)
Definition note (l : Z) (e : event) (x : ALockGroup) : ALockGroup :=
  match e with
  | Yes i => set_locked l i x
  | _ => set_group_status Group.TIMEOUT x
  end.

(** A callback of lock [l], with [DragonBall::trigger] and the wish of the group. *)
Fixpoint callback (fuel : nat) (l : Z) (st : System S) (e : event) : result (System S) :=
  match fuel with
  | O => Spin
  | Datatypes.S fuel =>
      match answered e with
      | None => Crash invalid_access
      | Some i =>
          g ← get_owner st l i;
          x ← get_group st g;
          let x := note l e x in
          match db_ x with
          | None => Crash invalid_access
          | Some (n_wait, n_ready) =>
              let n_ready := n_ready + 1 in
              _ ← verify (bool_decide (n_ready ≤ n_wait));
              if decide (n_ready = n_wait) then
                let x := set_db None x in
                if decide (group_status_ x = Group.WAIT) then
                  Done (reply g true (set_group g (set_group_status Group.LOCK x) st))
                else
                  _ ← verify (bool_decide (group_status_ x = Group.TIMEOUT));
                  abort_all_locked (callback fuel) x (reply g false (set_group g x st))
              else Done (set_group g (set_db (Some (n_wait, n_ready)) x) st)
          end
      end
  end.

(** The groups that wait for an answer. *)
Definition unanswered (st : System S) : nat := size (filter (λ kx, is_Some (db_ kx.2)) (groups st)).

(** ** Operations of a client *)

(** [ALockGroup::add] *)
Definition add (g l : Z) (t : type_t) (st : System S) : result (System S) :=
  x ← get_group st g;
  if decide (group_status_ x = Group.INIT ∨ group_status_ x = Group.LOCK) then
    Done (set_group g (set_tolock (<[l := t]> (tolock_ x)) x) st)
  else Crash assert_failed.

(** One round of the loop of [ALockGroup::lock_all]. *)
Definition lock_one (g : Z) (tmp : gmap Z type_t) (prio : Z) (st : System S) (l : Z) : result (System S) :=
  match tmp !! l with
  | None => Done st
  | Some t =>
      s ← get_lock st l;
      '(s, i, evs) ← alock_lock t prio s;
      let st := set_owner l i g (set_lock l s st) in
      for_each (callback (Datatypes.S (unanswered st)) l) evs st
  end.

Definition group_lock_all (g : Z) (st : System S) : result (System S) :=
  x ← get_group st g;
  _ ← verify (bool_decide (group_status_ x = Group.INIT ∨ group_status_ x = Group.LOCK));
  let tmp := tolock_ x in
  let x := mkGroup Group.WAIT (locked_ x) ∅ (priority_ x) (Some (i32 (Z.of_nat (size tmp)), 0)) in
  for_each (lock_one g tmp (priority_ x)) (ord (dom tmp)) (set_group g x st).

(** [ALockGroup::unlock_all]; [abort_all] is the same with [verify(0)] on failure. *)
Definition unlock_all (g : Z) (st : System S) : result (System S) :=
  x ← get_group st g;
  _ ← verify (bool_decide (group_status_ x = Group.LOCK));
  let x := set_group_status Group.UNLOCK x in
  let st := set_group g x st in
  abort_all_locked (callback (Datatypes.S (unanswered st))) x st.

(** Time passes at lock [l], and one of its alarms may go off. *)
Definition tick_lock (l d : Z) (st : System S) : result (System S) :=
  s ← get_lock st l;
  '(s, evs) ← alock_tick d s;
  let st := set_lock l s st in
  for_each (callback (Datatypes.S (unanswered st)) l) evs st.
End group.
