(* ===== verification/GroupSpec.v ===== *)
(** * Correctness of lock groups

    The invariant of groups and locks of ALockGroup.v, across the nested calls.
    Between a change of a lock and the run of its callbacks the groups lag behind
    the locks: [P] holds the callbacks still to be run.  [todo] counts the requests a
    running [lock_all] has still to make, and [rel] are the groups whose locks are
    being released. *)

From S2P Require Import Prelude ALock ALockGroup.

Definition is_yes (e : event) : bool := match e with Yes _ => true | _ => false end.

(** A group that is being answered, or has its locks. *)
Definition active (x : ALockGroup) : Prop :=
  match group_status_ x with
  | Group.UNLOCK => False
  | Group.TIMEOUT => is_Some (db_ x)
  | _ => True
  end.

Definition outstanding (V : Z → view) (P : gmap (Z * Z) bool) (k : Z * Z) : Prop :=
  (∃ t, V k.1 !! k.2 = Some (t, false)) ∨ is_Some (P !! k).

(** The answers a group waits for. *)
Definition db_ok (x : ALockGroup) (n : nat) (m : nat) : Prop :=
  match db_ x with
  | Some (n_wait, n_ready) =>
      n_wait - n_ready = Z.of_nat (n + m) ∧ (0 < n + m)%nat ∧
      (group_status_ x = Group.WAIT ∨ group_status_ x = Group.TIMEOUT)
  | None => n = 0%nat ∧ m = 0%nat ∧ group_status_ x ≠ Group.WAIT
  end.

Record Inv (V : Z → view) (P : gmap (Z * Z) bool) (todo : Z → nat) (rel : gset Z)
    (G : gmap Z ALockGroup) (O : gmap (Z * Z) Z) : Prop := mkInv {
  inv_owned l i y : V l !! i = Some y → ∃ g, O !! (l, i) = Some g;
  inv_group k g : O !! k = Some g → is_Some (G !! g);
  inv_pending l i (b : bool) : P !! (l, i) = Some b →
    (∃ g, O !! (l, i) = Some g) ∧ if b then ∃ t, V l !! i = Some (t, true) else V l !! i = None;
  inv_count g x : G !! g = Some x →
    ∃ W : gset (Z * Z), (∀ k, k ∈ W ↔ O !! k = Some g ∧ outstanding V P k) ∧ db_ok x (size W) (todo g);
  inv_holds g x l i : G !! g = Some x → locked_ x !! l = Some i → active x →
    O !! (l, i) = Some g ∧ P !! (l, i) = None ∧ ∃ t, V l !! i = Some (t, true);
  inv_held g x l i t : G !! g = Some x → V l !! i = Some (t, true) → P !! (l, i) = None → O !! (l, i) = Some g →
    locked_ x !! l = Some i ∧ (active x ∨ g ∈ rel);
  inv_free g x l i : G !! g = Some x → O !! (l, i) = Some g → outstanding V P (l, i) →
    locked_ x !! l = None ∧ ∀ j, O !! (l, j) = Some g → outstanding V P (l, j) → j = i
}.

Lemma Inv_ext V V' P todo rel G O : (∀ l, V l = V' l) → Inv V P todo rel G O → Inv V' P todo rel G O.
Proof.
  intros HV [H1 H2 H3 H4 H5 H6 H7].
  assert (∀ k, outstanding V P k ↔ outstanding V' P k) as Hout by (intros k; unfold outstanding; by rewrite HV).
  split.
  - intros l i y. rewrite <-HV. eauto.
  - done.
  - intros l i b. rewrite <-HV. eauto.
  - intros g x Hg. destruct (H4 g x Hg) as (W & HW & Hdb). exists W. split; [|done].
    intros k. by rewrite HW, Hout.
  - intros g x l i. rewrite <-HV. eauto.
  - intros g x l i t. rewrite <-HV. eauto.
  - intros g x l i Hg HO Ho%Hout. destruct (H7 g x l i Hg HO Ho) as [? Hj].
    split; [done|]. intros j HOj Hoj%Hout. by apply Hj.
Qed.

(** A group with no answers outstanding has none. *)
Lemma inv_idle V P todo rel G O g x k :
  Inv V P todo rel G O → G !! g = Some x → db_ x = None → O !! k = Some g → ¬ outstanding V P k.
Proof.
  intros HI Hg Hdb HO Hout. destruct (inv_count _ _ _ _ _ _ HI g x Hg) as (W & HW & Hn).
  unfold db_ok in Hn. rewrite Hdb in Hn. destruct Hn as [Hz _]. apply size_empty_inv in Hz.
  assert (k ∈ W) as Hk by by apply HW. set_solver.
Qed.

(** ** A callback becomes due *)

Lemma inv_event V P todo rel G O l e i v' :
  Inv V P todo rel G O → apply_event (V l) e = Some v' → answered e = Some i →
  P !! (l, i) = None ∧ Inv (<[l := v']> V) (<[(l, i) := is_yes e]> P) todo rel G O.
Proof.
  intros HI Hev Hans.
  assert (∃ t, V l !! i = Some (t, false) ∧ v' !! i = (if is_yes e then Some (t, true) else None) ∧
            ∀ j, j ≠ i → v' !! j = V l !! j) as (t & Hw & Hv' & Hoth).
  { destruct e as [j|j|]; cbn in *; simplify_eq; destruct (V l !! i) as [[t []]|] eqn:E; simplify_eq;
      exists t; (split_and!; [done| |]).
    - by rewrite lookup_insert_eq.
    - intros j Hj. by apply lookup_insert_ne.
    - by rewrite lookup_delete_eq.
    - intros j Hj. by apply lookup_delete_ne. }
  assert (P !! (l, i) = None) as HP.
  { destruct (P !! (l, i)) as [b|] eqn:E; [|done]. apply (inv_pending _ _ _ _ _ _ HI) in E as [_ E].
    destruct b; [destruct E as [? E]|]; congruence. }
  split; [done|].
  assert (∀ k, k ≠ (l, i) → <[l := v']> V k.1 !! k.2 = V k.1 !! k.2) as HV.
  { intros [l' j] Hk. cbn. destruct (decide (l' = l)) as [-> |Hl]; [|by rewrite fn_lookup_insert_ne].
    rewrite fn_lookup_insert. apply Hoth. congruence. }
  assert (∀ k, k ≠ (l, i) → <[(l, i) := is_yes e]> P !! k = P !! k) as HPk by (intros; by apply lookup_insert_ne).
  assert (∀ k, outstanding (<[l := v']> V) (<[(l, i) := is_yes e]> P) k ↔ outstanding V P k) as Hout.
  { intros k. unfold outstanding. destruct (decide (k = (l, i))) as [-> |Hk]; [|by rewrite HV, HPk].
    cbn. rewrite fn_lookup_insert, lookup_insert_eq. split; [intros _; left; eauto|right; eauto]. }
  destruct HI as [H1 H2 H3 H4 H5 H6 H7]. split.
  - intros l0 i0 y Hy. destruct (decide ((l0, i0) = (l, i))) as [[= -> ->]|Hk]; [by eapply H1|].
    apply HV in Hk. cbn in Hk. rewrite Hk in Hy. by eapply H1.
  - done.
  - intros l0 i0 b. destruct (decide ((l0, i0) = (l, i))) as [[= -> ->]|Hk].
    + rewrite lookup_insert_eq. intros [= <-]. split; [by eapply H1|]. rewrite fn_lookup_insert, Hv'.
      destruct (is_yes e); eauto.
    + rewrite HPk by done. intros Hb. apply H3 in Hb. apply HV in Hk. cbn in Hk. by rewrite Hk.
  - intros g x Hg. destruct (H4 g x Hg) as (W & HW & Hdb). exists W. split; [|done]. intros k. by rewrite HW, Hout.
  - intros g x l0 i0 Hg Hl Ha. destruct (H5 g x l0 i0 Hg Hl Ha) as (HO & HP0 & t0 & Ht0).
    assert ((l0, i0) ≠ (l, i)) as Hk by (intros [= -> ->]; congruence).
    split_and!; [done|by rewrite HPk|]. apply HV in Hk. cbn in Hk. rewrite Hk. eauto.
  - intros g x l0 i0 t0 Hg Hv HP0 HO. destruct (decide ((l0, i0) = (l, i))) as [[= -> ->]|Hk].
    + by rewrite lookup_insert_eq in HP0.
    + rewrite HPk in HP0 by done. apply HV in Hk. cbn in Hk. rewrite Hk in Hv. by eapply H6.
  - intros g x l0 i0 Hg HO Ho%Hout. destruct (H7 g x l0 i0 Hg HO Ho) as [? Hj]. split; [done|].
    intros j HOj Hoj%Hout. by apply Hj.
Qed.

(** ** A granted request of an inactive group is released *)

Lemma inv_release V P todo rel G O l i t g x :
  Inv V P todo rel G O → V l !! i = Some (t, true) → O !! (l, i) = Some g → G !! g = Some x →
  db_ x = None → ¬ active x → Inv (<[l := delete i (V l)]> V) P todo rel G O.
Proof.
  intros HI Hv HOi Hx Hdbx Hact. pose proof (inv_idle _ _ _ _ _ _ _ _ _ HI Hx Hdbx HOi) as Hidle.
  set (V' := <[l := delete i (V l)]> V).
  assert (∀ l' j, (l', j) ≠ (l, i) → V' l' !! j = V l' !! j) as HV.
  { intros l' j Hk. subst V'. destruct (decide (l' = l)) as [-> |Hl]; [|by rewrite fn_lookup_insert_ne].
    rewrite fn_lookup_insert. apply lookup_delete_ne. congruence. }
  assert (V' l !! i = None) as Hi by (subst V'; rewrite fn_lookup_insert; apply lookup_delete_eq).
  assert (∀ k, outstanding V' P k ↔ outstanding V P k) as Hout.
  { intros [l' j]. destruct (decide ((l', j) = (l, i))) as [[= -> ->]|Hk].
    - split; [|done]. intros [[t' Ht']|HP]; cbn in *; [congruence|]. destruct Hidle. by right.
    - unfold outstanding. cbn. by rewrite HV. }
  destruct HI as [H1 H2 H3 H4 H5 H6 H7]. split.
  - intros l0 i0 y Hy. destruct (decide ((l0, i0) = (l, i))) as [[= -> ->]|Hk]; [congruence|].
    rewrite HV in Hy by done. by eapply H1.
  - done.
  - intros l0 i0 b Hb. destruct (decide ((l0, i0) = (l, i))) as [[= -> ->]|Hk].
    + destruct Hidle. right. by eexists.
    + rewrite HV by done. by apply H3.
  - intros h y Hh. destruct (H4 h y Hh) as (W & HW & Hdb). exists W. split; [|done]. intros k. by rewrite HW, Hout.
  - intros h y l0 i0 Hh Hl Ha. destruct (H5 h y l0 i0 Hh Hl Ha) as (HO & HP0 & t0 & Ht0).
    assert ((l0, i0) ≠ (l, i)) as Hk by (intros [= -> ->]; simplify_eq; done).
    split_and!; [done..|]. rewrite HV by done. eauto.
  - intros h y l0 i0 t0 Hh Hv0 HP0 HO. destruct (decide ((l0, i0) = (l, i))) as [[= -> ->]|Hk]; [congruence|].
    rewrite HV in Hv0 by done. by eapply H6.
  - intros h y l0 i0 Hh HO Ho%Hout. destruct (H7 h y l0 i0 Hh HO Ho) as [? Hj]. split; [done|].
    intros j HOj Hoj%Hout. by apply Hj.
Qed.

(** ** A new request *)

Lemma inv_request V P todo rel G O l i t g x :
  Inv V P todo rel G O → V l !! i = None → O !! (l, i) = None → P !! (l, i) = None → G !! g = Some x →
  is_Some (db_ x) → (0 < todo g)%nat → locked_ x !! l = None →
  (∀ j, O !! (l, j) = Some g → ¬ outstanding V P (l, j)) →
  Inv (<[l := <[i := (t, false)]> (V l)]> V) P (<[g := pred (todo g)]> todo) rel G (<[(l, i) := g]> O).
Proof.
  intros HI Hv HOi HPi Hx Hdbx Htodo Hlk Hfree.
  set (V' := <[l := <[i := (t, false)]> (V l)]> V).
  assert (∀ l' j, (l', j) ≠ (l, i) → V' l' !! j = V l' !! j) as HV.
  { intros l' j Hk. subst V'. destruct (decide (l' = l)) as [-> |Hl]; [|by rewrite fn_lookup_insert_ne].
    rewrite fn_lookup_insert. apply lookup_insert_ne. congruence. }
  assert (V' l !! i = Some (t, false)) as Hi by (subst V'; rewrite fn_lookup_insert; apply lookup_insert_eq).
  assert (∀ k, outstanding V' P k ↔ k = (l, i) ∨ outstanding V P k) as Hout.
  { intros [l' j]. destruct (decide ((l', j) = (l, i))) as [[= -> ->]|Hk].
    - split; [by left|]. intros _. left. eauto.
    - unfold outstanding. cbn. rewrite HV by done. naive_solver. }
  destruct HI as [H1 H2 H3 H4 H5 H6 H7].
  assert (¬ outstanding V P (l, i)) as Hno.
  { intros [[? ?]|[? ?]]; cbn in *; congruence. }
  split.
  - intros l0 i0 y Hy. destruct (decide ((l0, i0) = (l, i))) as [[= -> ->]|Hk].
    + rewrite lookup_insert_eq. eauto.
    + rewrite lookup_insert_ne by done. rewrite HV in Hy by done. by eapply H1.
  - intros k h. rewrite lookup_insert_Some. intros [[_ <-]|[_ Hk]]; [by eexists|by eapply H2].
  - intros l0 i0 b Hb. destruct (decide ((l0, i0) = (l, i))) as [[= -> ->]|Hk]; [congruence|].
    rewrite lookup_insert_ne, HV by done. by apply H3.
  - intros h y Hh. destruct (H4 h y Hh) as (W & HW & Hdb). destruct (decide (h = g)) as [-> |Hg].
    + exists ({[(l, i)]} ∪ W). assert ((l, i) ∉ W) as HiW by (rewrite HW; naive_solver). split.
      * intros k. rewrite elem_of_union, elem_of_singleton, HW, Hout.
        destruct (decide (k = (l, i))) as [-> |Hk]; [rewrite lookup_insert_eq; naive_solver|].
        rewrite lookup_insert_ne by done. naive_solver.
      * rewrite size_union, size_singleton, fn_lookup_insert by set_solver. unfold db_ok in *.
        simplify_eq. destruct (db_ x) as [[nw nr]|]; [|by destruct Hdbx].
        replace (1 + size W + pred (todo g))%nat with (size W + todo g)%nat by lia. done.
    + exists W. rewrite fn_lookup_insert_ne by done. split; [|done]. intros k. rewrite HW, Hout.
      destruct (decide (k = (l, i))) as [-> |Hk]; [rewrite lookup_insert_eq; naive_solver|].
      rewrite lookup_insert_ne by done. naive_solver.
  - intros h y l0 i0 Hh Hl Ha. destruct (H5 h y l0 i0 Hh Hl Ha) as (HO & HP0 & t0 & Ht0).
    assert ((l0, i0) ≠ (l, i)) as Hk by (intros [= -> ->]; congruence).
    rewrite lookup_insert_ne by done. split_and!; [done..|]. rewrite HV by done. eauto.
  - intros h y l0 i0 t0 Hh Hv0 HP0 HO. destruct (decide ((l0, i0) = (l, i))) as [[= -> ->]|Hk]; [congruence|].
    rewrite lookup_insert_ne in HO by done. rewrite HV in Hv0 by done. by eapply H6.
  - intros h y l0 i0 Hh HO [E|Ho]%Hout.
    + simplify_eq. rewrite lookup_insert_eq in HO. simplify_eq. split; [done|].
      intros j HOj [E|Ho]%Hout; [congruence|]. destruct (decide (j = i)) as [-> |Hj]; [done|].
      rewrite lookup_insert_ne in HOj by congruence. by destruct (Hfree j).
    + assert ((l0, i0) ≠ (l, i)) as Hk by (intros [= -> ->]; done).
      rewrite lookup_insert_ne in HO by done. destruct (H7 h y l0 i0 Hh HO Ho) as [? Hj]. split; [done|].
      intros j HOj [E|Hoj]%Hout.
      * simplify_eq. rewrite lookup_insert_eq in HOj. simplify_eq. by destruct (Hfree i0).
      * apply Hj; [|done]. rewrite lookup_insert_ne in HOj; [done|]. intros [= -> ->]. done.
Qed.

(** ** A callback is run *)

Lemma inv_answer V P todo rel rel' G O l i e g x x' nw nr :
  Inv V P todo rel G O → answered e = Some i → P !! (l, i) = Some (is_yes e) → O !! (l, i) = Some g → G !! g = Some x →
  db_ x = Some (nw, nr) → locked_ x' = locked_ (note l e x) →
  match db_ x' with
  | Some (nw', nr') => nw' = nw ∧ nr' = nr + 1 ∧ nr + 1 < nw ∧ (group_status_ x' = Group.WAIT ∨ group_status_ x' = Group.TIMEOUT)
  | None => nr + 1 = nw ∧ group_status_ x' ≠ Group.WAIT
  end → active x' ∨ g ∈ rel' → rel ⊆ rel' → todo g = 0%nat ∨ is_Some (db_ x') →
  Inv V (delete (l, i) P) todo rel' (<[g := x']> G) O.
Proof.
  intros HI Hans HPi HOi Hx Hdbx Hlk Hdb' Hact Hrel Htodo.
  assert (locked_ x' = if is_yes e then <[l := i]> (locked_ x) else locked_ x) as Hlk'.
  { rewrite Hlk. destruct e; cbn in *; by simplify_eq. }
  assert (active x) as Hax.
  { destruct (inv_count _ _ _ _ _ _ HI g x Hx) as (W & _ & Hdb). unfold db_ok in Hdb. rewrite Hdbx in Hdb.
    destruct Hdb as (_ & _ & [E|E]); unfold active; rewrite E; [done|]. by rewrite Hdbx. }
  assert (outstanding V P (l, i)) as Houti by (right; by eexists).
  destruct (inv_pending _ _ _ _ _ _ HI l i _ HPi) as [_ HVi].
  assert (∀ k, outstanding V (delete (l, i) P) k ↔ k ≠ (l, i) ∧ outstanding V P k) as Hout.
  { intros k. unfold outstanding. destruct (decide (k = (l, i))) as [-> |Hk].
    - rewrite lookup_delete_eq. cbn. split; [|naive_solver]. intros [[t Ht]|[? ?]]; [|done].
      destruct (is_yes e); [destruct HVi|]; congruence.
    - rewrite lookup_delete_ne by done. naive_solver. }
  destruct HI as [H1 H2 H3 H4 H5 H6 H7]. split.
  - done.
  - intros k h Hk%H2. destruct (decide (h = g)) as [-> |Hg]; [rewrite lookup_insert_eq|rewrite lookup_insert_ne by done]; eauto.
  - intros l0 i0 b [Hk Hb]%lookup_delete_Some. by apply H3.
  - intros h y. destruct (decide (h = g)) as [-> |Hg].
    + rewrite lookup_insert_eq. intros [= <-]. destruct (H4 g x Hx) as (W & HW & Hdb).
      assert ((l, i) ∈ W) as HiW by by apply HW.
      exists (W ∖ {[(l, i)]}). split.
      * intros k. rewrite elem_of_difference, elem_of_singleton, HW, Hout. naive_solver.
      * rewrite size_difference by set_solver. rewrite size_singleton.
        assert (size W ≠ 0%nat) by (rewrite size_non_empty_iff; set_solver).
        unfold db_ok in *. rewrite Hdbx in Hdb. destruct Hdb as (Hn & Hpos & _).
        destruct (db_ x') as [[nw' nr']|].
        -- destruct Hdb' as (-> & -> & Hlt & Hst). split_and!; [lia|lia|done].
        -- destruct Hdb' as [Hlt Hst]. destruct Htodo as [Htodo|[? ?]]; [|done]. split_and!; [lia|done|done].
    + rewrite lookup_insert_ne by done. intros Hh. destruct (H4 h y Hh) as (W & HW & Hdb). exists W. split; [|done].
      intros k. rewrite HW, Hout. split; [|naive_solver]. intros [HOk Ho]. split_and!; [done| |done]. intros ->. congruence.
  - intros h y l0 i0. destruct (decide (h = g)) as [-> |Hg].
    + rewrite lookup_insert_eq. intros [= <-] Hl _. rewrite Hlk' in Hl. destruct (decide ((l0, i0) = (l, i))) as [[= -> ->]|Hk].
      * split_and!; [done|by rewrite lookup_delete_eq|]. destruct (is_yes e); [done|].
        destruct (H5 g x l i Hx Hl Hax) as (_ & HP0 & _). congruence.
      * rewrite lookup_delete_ne by done. apply (H5 g x l0 i0 Hx); [|done].
        destruct (is_yes e); [|done]. apply lookup_insert_Some in Hl as [[-> ->]|[_ ?]]; done.
    + rewrite lookup_insert_ne by done. intros Hh Hl Ha. destruct (H5 h y l0 i0 Hh Hl Ha) as (? & ? & ?).
      split_and!; [done| |done]. apply lookup_delete_None. by right.
  - intros h y l0 i0 t0 Hh Hv0 HP0 HO. destruct (decide ((l0, i0) = (l, i))) as [[= -> ->]|Hk].
    + assert (h = g) as -> by congruence. rewrite lookup_insert_eq in Hh. injection Hh as <-. rewrite Hlk'.
      destruct (is_yes e); [by rewrite lookup_insert_eq|congruence].
    + rewrite lookup_delete_ne in HP0 by done. destruct (decide (h = g)) as [-> |Hg].
      * rewrite lookup_insert_eq in Hh. injection Hh as <-. destruct (H6 g x l0 i0 t0 Hx Hv0 HP0 HO) as [Hl0 _].
        split; [|done]. rewrite Hlk'. destruct (is_yes e); [|done]. rewrite lookup_insert_ne; [done|].
        intros ->. destruct (H7 g x l0 i Hx HOi Houti) as [? _]. congruence.
      * rewrite lookup_insert_ne in Hh by done. destruct (H6 h y l0 i0 t0 Hh Hv0 HP0 HO) as [? [?|?]]; split; auto.
  - intros h y l0 i0 Hh HO [Hk Ho]%Hout. destruct (decide (h = g)) as [-> |Hg].
    + rewrite lookup_insert_eq in Hh. injection Hh as <-. destruct (H7 g x l0 i0 Hx HO Ho) as [Hl0 Hj]. split.
      * rewrite Hlk'. destruct (is_yes e); [|done]. rewrite lookup_insert_ne; [done|].
        intros ->. destruct Hk. by rewrite (Hj i HOi Houti).
      * intros j HOj [_ Hoj]%Hout. by apply Hj.
    + rewrite lookup_insert_ne in Hh by done. destruct (H7 h y l0 i0 Hh HO Ho) as [? Hj]. split; [done|].
      intros j HOj [_ Hoj]%Hout. by apply Hj.
Qed.

(** ** The callbacks of one operation of a lock *)

Fixpoint ev_map (l : Z) (evs : list event) (P : gmap (Z * Z) bool) : gmap (Z * Z) bool :=
  match evs with
  | [] => P
  | e :: evs =>
      match answered e with
      | Some i => <[(l, i) := is_yes e]> (ev_map l evs P)
      | None => ev_map l evs P
      end
  end.

Lemma ev_map_insert l evs P i b :
  i ∉ omap answered evs → ev_map l evs (<[(l, i) := b]> P) = <[(l, i) := b]> (ev_map l evs P).
Proof.
  induction evs as [|e evs IH]; intros Hi; [done|]. cbn in *. destruct (answered e) as [j|]; [|auto].
  rewrite elem_of_cons in Hi. rewrite IH by tauto. apply insert_insert_ne. intros [= ->]. tauto.
Qed.

Lemma ev_map_lookup l evs P i : i ∉ omap answered evs → ev_map l evs P !! (l, i) = P !! (l, i).
Proof.
  induction evs as [|e evs IH]; intros Hi; [done|]. cbn in *. destruct (answered e) as [j|]; [|auto].
  rewrite elem_of_cons in Hi. rewrite lookup_insert_ne by (intros [= ->]; tauto). apply IH. tauto.
Qed.

Lemma ev_map_other l evs P l0 i : l0 ≠ l → ev_map l evs P !! (l0, i) = P !! (l0, i).
Proof.
  intros Hl. induction evs as [|e evs IH]; [done|]. cbn. destruct (answered e) as [j|]; [|done].
  by rewrite lookup_insert_ne by congruence.
Qed.

(** A request keeps its type until its no callback is due. *)
Lemma events_claim l v evs v' P i t b :
  apply_events v evs = Some v' → NoDup (omap answered evs) → v !! i = Some (t, b) →
  (∃ b', v' !! i = Some (t, b')) ∨ ev_map l evs P !! (l, i) = Some false.
Proof.
  revert v b. induction evs as [|e evs IH]; intros v b; cbn [apply_events].
  - intros [= <-]. eauto.
  - destruct (apply_event v e) as [v1|] eqn:E; [|done]. cbn. intros Hev Hnd Hv.
    destruct (apply_event_Some _ _ _ E) as (j & Hans & _ & _ & Hoth). rewrite Hans in *. cbn in Hnd.
    apply NoDup_cons in Hnd as [Hj Hnd]. destruct (decide (i = j)) as [-> |Hne].
    + rewrite lookup_insert_eq. destruct e as [k|k|]; cbn in *; simplify_eq; [|by right].
      rewrite Hv in E. destruct b; simplify_eq. left. exists true.
      rewrite (apply_events_stable _ _ _ j Hev); [apply lookup_insert_eq|]. unfold waits. by rewrite lookup_insert_eq.
    + rewrite lookup_insert_ne by congruence. eapply IH; [done|done|]. rewrite Hoth by done. done.
Qed.

Lemma inv_events V P todo rel G O l evs v' :
  Inv V P todo rel G O → apply_events (V l) evs = Some v' →
  Inv (<[l := v']> V) (ev_map l evs P) todo rel G O ∧ Forall (λ e, is_Some (answered e)) evs ∧
  NoDup (omap answered evs) ∧ (∀ i, i ∈ omap answered evs → P !! (l, i) = None) ∧
  (∀ k, outstanding (<[l := v']> V) (ev_map l evs P) k → outstanding V P k).
Proof.
  revert V P. induction evs as [|e evs IH]; intros V P HI; cbn [apply_events].
  - intros [= <-]. assert (∀ l', V l' = <[l := V l]> V l') as HV.
    { intros l'. destruct (decide (l' = l)) as [-> |]; [by rewrite fn_lookup_insert|by rewrite fn_lookup_insert_ne]. }
    split; [by apply (Inv_ext V)|]. split_and!; [constructor|constructor|by intros i ?%not_elem_of_nil|].
    intros k. unfold outstanding. by rewrite <-HV.
  - destruct (apply_event (V l) e) as [v1|] eqn:E; [|done]. cbn [mbind option_bind]. intros Hev.
    pose proof (apply_event_Some _ _ _ E) as (i & Hans & Hw & _ & _).
    destruct (inv_event _ _ _ _ _ _ _ _ _ _ HI E Hans) as [HPi HI1].
    assert (apply_events (<[l := v1]> V l) evs = Some v') as Hev1 by by rewrite fn_lookup_insert.
    destruct (IH _ _ HI1 Hev1) as (HI2 & Hall & Hnd & HP2 & Hout).
    assert (i ∉ omap answered evs) as Hi. { intros Hi%HP2. by rewrite lookup_insert_eq in Hi. }
    assert (∀ l', <[l := v']> (<[l := v1]> V) l' = <[l := v']> V l') as HV.
    { intros l'. destruct (decide (l' = l)) as [-> |]; [by rewrite !fn_lookup_insert|by rewrite !fn_lookup_insert_ne]. }
    cbn. rewrite Hans. cbn. rewrite <-ev_map_insert by done. split_and!.
    + by eapply Inv_ext.
    + constructor; [by rewrite Hans|done].
    + by constructor.
    + intros j [-> |Hj]%elem_of_cons; [done|]. pose proof (HP2 j Hj) as HPj.
      rewrite lookup_insert_ne in HPj; [done|]. intros [= ->]. done.
    + intros k Hk. assert (outstanding (<[l := v1]> V) (<[(l, i) := is_yes e]> P) k) as Ho.
      { apply Hout. unfold outstanding in *. by rewrite HV. }
      destruct (decide (k = (l, i))) as [-> |Hne].
      * left. unfold waits in Hw. cbn. destruct (V l !! i) as [[t []]|]; try done. eauto.
      * unfold outstanding in *. rewrite lookup_insert_ne in Ho by done. destruct Ho as [[t Ht]|]; [|by right].
        left. exists t. destruct (decide (k.1 = l)) as [E1|]; [|by rewrite fn_lookup_insert_ne in Ht].
        rewrite E1, fn_lookup_insert in Ht. rewrite E1.
        apply apply_event_Some in E as (i' & Hans' & _ & _ & Hoth). simplify_eq.
        rewrite <-Hoth; [done|]. intros E2. destruct Hne. destruct k; cbn in *; congruence.
Qed.

Section system.
Context {S : Type} `{LawfulALock S} (ord : gset Z → list Z) (ord_spec : ∀ X, ord X ≡ₚ elements X).

(** ** States and what an operation leaves alone *)

Definition vws (st : System S) (l : Z) : view :=
  match locks st !! l with Some s => alock_view s | None => ∅ end.

Record locks_ok (st : System S) : Prop := mkLocksOk {
  lo_wf l s : locks st !! l = Some s → alock_wf s;
  lo_known l i g : owner st !! (l, i) = Some g → ∃ s, locks st !! l = Some s ∧ 0 < i < alock_next s
}.

Definition Good (P : gmap (Z * Z) bool) (todo : Z → nat) (rel : gset Z) (st : System S) : Prop :=
  locks_ok st ∧ Inv (vws st) P todo rel (groups st) (owner st).

(** Replies to a group, and the one it still waits for. *)
Definition replied (st : System S) (g : Z) : nat := length (filter (λ r, r.1 = g) (replies st)).
Definition expects (st : System S) (g : Z) : nat :=
  match groups st !! g with Some x => match db_ x with Some _ => 1 | None => 0 end | None => 0 end.

(** Group [g] has asked for lock [l], and has not been told that it does not get it. *)
Definition claim (st : System S) (P : gmap (Z * Z) bool) (g l : Z) (t : type_t) : Prop :=
  ∃ i, owner st !! (l, i) = Some g ∧ ((∃ b, vws st l !! i = Some (t, b)) ∨ P !! (l, i) = Some false).

(** A group that has been turned down nowhere, and has not unlocked. *)
Definition unfailed (x : ALockGroup) : Prop := group_status_ x ≠ Group.TIMEOUT ∧ group_status_ x ≠ Group.UNLOCK.

Record Frame (E : Z → Prop) (st : System S) (P : gmap (Z * Z) bool) (st' : System S) (P' : gmap (Z * Z) bool) : Prop := mkFrame {
  fr_owner : owner st' = owner st;
  fr_locks l s : locks st !! l = Some s → ∃ s', locks st' !! l = Some s' ∧ alock_next s' = alock_next s;
  fr_out k : outstanding (vws st') P' k → outstanding (vws st) P k;
  fr_group g x : groups st !! g = Some x → ∃ x', groups st' !! g = Some x' ∧
    priority_ x' = priority_ x ∧ tolock_ x' = tolock_ x ∧ (db_ x = None → x' = x) ∧
    (∀ l, locked_ x !! l = None → locked_ x' !! l = None ∨
       ∃ i, owner st !! (l, i) = Some g ∧ outstanding (vws st) P (l, i));
  fr_groups g : groups st !! g = None → groups st' !! g = None;
  fr_held l i t g x : vws st l !! i = Some (t, true) → owner st !! (l, i) = Some g → groups st !! g = Some x →
    db_ x = None → ¬ E g → vws st' l !! i = Some (t, true);
  fr_gone l i : vws st l !! i = None → vws st' l !! i = None;
  fr_claim g x x' : groups st !! g = Some x → groups st' !! g = Some x' → unfailed x' →
    unfailed x ∧ ∀ l t, claim st P g l t → claim st' P' g l t;
  fr_unanswered : (unanswered st' ≤ unanswered st)%nat;
  fr_replies g : (replied st' g + expects st' g = replied st g + expects st g)%nat
}.

Lemma Frame_refl E st P : Frame E st P st P.
Proof. split; eauto 10. intros g x x' ? ? ?. simplify_eq. auto. Qed.

Lemma Frame_trans E st1 P1 st2 P2 st3 P3 :
  Frame E st1 P1 st2 P2 → Frame E st2 P2 st3 P3 → Frame E st1 P1 st3 P3.
Proof.
  intros F G. split.
  - rewrite (fr_owner _ _ _ _ _ G). apply F.
  - intros l s Hs. destruct (fr_locks _ _ _ _ _ F l s Hs) as (s1 & Hs1 & E1).
    destruct (fr_locks _ _ _ _ _ G l s1 Hs1) as (s2 & Hs2 & E2). exists s2. split; [done|congruence].
  - intros k Hk. by apply (fr_out _ _ _ _ _ F), (fr_out _ _ _ _ _ G).
  - intros g x Hx. destruct (fr_group _ _ _ _ _ F g x Hx) as (x1 & Hx1 & Hp1 & Ht1 & Hd1 & Hl1).
    destruct (fr_group _ _ _ _ _ G g x1 Hx1) as (x2 & Hx2 & Hp2 & Ht2 & Hd2 & Hl2).
    exists x2. split_and!; [done|congruence|congruence| |].
    + intros Hdb. rewrite <-(Hd1 Hdb). apply Hd2. by rewrite (Hd1 Hdb).
    + intros l Hl. destruct (Hl1 l Hl) as [Hn|Hn]; [|by right]. destruct (Hl2 l Hn) as [Hn2|(i & Hi & Ho)]; [by left|].
      right. exists i. rewrite (fr_owner _ _ _ _ _ F) in Hi. split; [done|]. by apply (fr_out _ _ _ _ _ F).
  - intros g Hg. by apply (fr_groups _ _ _ _ _ G), (fr_groups _ _ _ _ _ F).
  - intros l i t g x Hv HO Hx Hdb HE. destruct (fr_group _ _ _ _ _ F g x Hx) as (x1 & Hx1 & _ & _ & Hd1 & _).
    rewrite (Hd1 Hdb) in Hx1. apply (fr_held _ _ _ _ _ G l i t g x); [|by rewrite (fr_owner _ _ _ _ _ F)|done..].
    by apply (fr_held _ _ _ _ _ F l i t g x).
  - intros l i Hv. by apply (fr_gone _ _ _ _ _ G), (fr_gone _ _ _ _ _ F).
  - intros g x x' Hx Hx' Hu. destruct (fr_group _ _ _ _ _ F g x Hx) as (x1 & Hx1 & _).
    destruct (fr_claim _ _ _ _ _ G g x1 x' Hx1 Hx' Hu) as [Hu1 HG].
    destruct (fr_claim _ _ _ _ _ F g x x1 Hx Hx1 Hu1) as [Hu0 HF]. split; auto.
  - pose proof (fr_unanswered _ _ _ _ _ F). pose proof (fr_unanswered _ _ _ _ _ G). lia.
  - intros g. rewrite (fr_replies _ _ _ _ _ G). apply F.
Qed.

Lemma Frame_weaken (E E' : Z → Prop) st P st' P' : (∀ g, E g → E' g) → Frame E st P st' P' → Frame E' st P st' P'.
Proof. intros HE F. destruct F. split; auto. naive_solver. Qed.

Lemma Frame_exempt g x st P st' P' :
  Frame (λ h, h = g) st P st' P' → groups st !! g = Some x → db_ x ≠ None → Frame (λ _, False) st P st' P'.
Proof.
  intros F Hx Hdb. destruct F as [? ? ? ? ? Hheld ? ? ? ?]. split; auto.
  intros l i t h y Hv HO Hh Hdbh _. apply (Hheld l i t h y); try done. intros ->. congruence.
Qed.

(** ** Counting the groups that wait for an answer *)

Lemma unanswered_same g x x' (st : System S) :
  groups st !! g = Some x → is_Some (db_ x) → is_Some (db_ x') → unanswered (set_group g x' st) = unanswered st.
Proof.
  intros Hx Hdb Hdb'. unfold unanswered. cbn. rewrite map_filter_insert_True by done.
  apply map_size_insert_Some. exists x. by apply map_lookup_filter_Some.
Qed.

Lemma unanswered_less g x x' (st : System S) :
  groups st !! g = Some x → is_Some (db_ x) → db_ x' = None → unanswered st = Datatypes.S (unanswered (set_group g x' st)).
Proof.
  intros Hx Hdb Hdb'. unfold unanswered. cbn. rewrite map_filter_insert_False by (cbn; rewrite Hdb'; by intros [? ?]).
  rewrite map_filter_delete. assert (is_Some (filter (λ kx, is_Some (db_ kx.2)) (groups st) !! g)) as Hg.
  { exists x. by apply map_lookup_filter_Some. }
  rewrite map_size_delete_Some by done. rewrite Nat.succ_pred; [done|].
  rewrite map_size_ne_0_lookup. eauto.
Qed.

(** ** One group changes *)

Lemma vws_set_group g x (st : System S) l : vws (set_group g x st) l = vws st l.
Proof. done. Qed.

Lemma good_set_group P todo rel g x x' (st : System S) :
  groups st !! g = Some x → locks_ok st → Inv (vws st) P todo rel (<[g := x']> (groups st)) (owner st) →
  Good P todo rel (set_group g x' st).
Proof. intros Hx [? ?] HI. split; [by split|]. exact HI. Qed.

(** Group [g] is told about request [i] of lock [l]. *)
Lemma frame_answer g x x' l i e P (st : System S) :
  groups st !! g = Some x → is_Some (db_ x) → answered e = Some i → is_Some (P !! (l, i)) → owner st !! (l, i) = Some g →
  locked_ x' = locked_ (note l e x) → priority_ x' = priority_ x → tolock_ x' = tolock_ x →
  (unfailed x' → is_yes e = true ∧ unfailed x) → P !! (l, i) = Some (is_yes e) →
  let st' := set_group g x' st in
  let st' := match db_ x' with Some _ => st' | None => reply g (bool_decide (group_status_ x' = Group.LOCK)) st' end in
  Frame (λ _, False) st P st' (delete (l, i) P) ∧
  (db_ x' = None → unanswered st = Datatypes.S (unanswered st')).
Proof.
  intros Hx Hdb Hans HPi HOi Hlk Hp Ht Hunf HPe st0 st'.
  assert (vws st' = vws st ∧ owner st' = owner st ∧ locks st' = locks st ∧ groups st' = <[g := x']> (groups st) ∧
          unanswered st' = unanswered st0 ∧
          replies st' = replies st ++ (match db_ x' with Some _ => [] | None => [(g, bool_decide (group_status_ x' = Group.LOCK))] end))
    as (HV & HO & HL & HG & HU & HR).
  { subst st' st0. destruct (db_ x'); cbn; split_and!; try done. by rewrite app_nil_r. }
  split.
  2:{ intros Hdb'. rewrite HU. by apply (unanswered_less g x x'). }
  split.
  - done.
  - intros l0 s Hs. rewrite HL. eauto.
  - intros k. rewrite HV. unfold outstanding. intros [?|[b [_ Hb]%lookup_delete_Some]]; [by left|right; eauto].
  - intros h y Hh. rewrite HG. destruct (decide (h = g)) as [-> |Hne].
    + rewrite lookup_insert_eq. exists x'. simplify_eq. split_and!; [done..| |].
      * intros E. rewrite E in Hdb. by destruct Hdb.
      * intros l0 Hl0. rewrite Hlk. destruct e as [j|j|]; cbn in *; simplify_eq; [|by left].
        destruct (decide (l0 = l)) as [-> |Hl]; [|left; by rewrite lookup_insert_ne].
        right. exists i. split; [done|]. by right.
    + rewrite lookup_insert_ne by done. exists y. split_and!; auto.
  - intros h Hh. rewrite HG. rewrite lookup_insert_ne; [done|]. intros ->. congruence.
  - intros l0 i0 t h y. by rewrite HV.
  - intros l0 i0. by rewrite HV.
  - intros h y y' Hh. rewrite HG. intros [[<- <-]|[Hne Hh']]%lookup_insert_Some Hu.
    + simplify_eq. destruct (Hunf Hu) as [Hyes Hux]. split; [done|]. unfold claim. rewrite HO, HV.
      intros l0 t (i0 & HO0 & [?|HP0]); exists i0; (split; [done|]); [by left|].
      right. rewrite lookup_delete_ne; [done|]. intros [= -> ->]. congruence.
    + simplify_eq. split; [done|]. unfold claim. rewrite HO, HV.
      intros l0 t (i0 & HO0 & [?|HP0]); exists i0; (split; [done|]); [by left|].
      right. rewrite lookup_delete_ne; [done|]. intros [= -> ->]. congruence.
  - rewrite HU. clear HU. subst st' st0. destruct (db_ x') eqn:E.
    + rewrite (unanswered_same g x x'); [done..|by rewrite E].
    + rewrite (unanswered_less g x x' st) by done. lia.
  - intros h. unfold replied, expects. rewrite HG, HR, filter_app, length_app.
    destruct (decide (h = g)) as [-> |Hne].
    + rewrite lookup_insert_eq, Hx. destruct Hdb as [d ->]. destruct (db_ x'); [cbn; lia|].
      rewrite filter_cons_True by done. cbn. lia.
    + rewrite lookup_insert_ne by done. destruct (db_ x'); [cbn; lia|]. rewrite filter_cons_False by done. cbn. lia.
Qed.

(** A group gives its locks up. *)
Lemma inv_deactivate V P todo rel G O g x x' :
  Inv V P todo rel G O → G !! g = Some x → db_ x = None → db_ x' = None → locked_ x' = locked_ x →
  group_status_ x' ≠ Group.WAIT → ¬ active x' → Inv V P todo ({[g]} ∪ rel) (<[g := x']> G) O.
Proof.
  intros HI Hx Hdb Hdb' Hlk Hst Hact. destruct HI as [H1 H2 H3 H4 H5 H6 H7]. split.
  - done.
  - intros k h Hk%H2. destruct (decide (h = g)) as [-> |Hg]; [rewrite lookup_insert_eq|rewrite lookup_insert_ne by done]; eauto.
  - done.
  - intros h y. destruct (decide (h = g)) as [-> |Hg].
    + rewrite lookup_insert_eq. intros [= <-]. destruct (H4 g x Hx) as (W & HW & Hn). exists W. split; [done|].
      unfold db_ok in *. rewrite Hdb in Hn. rewrite Hdb'. naive_solver.
    + rewrite lookup_insert_ne by done. apply H4.
  - intros h y l i. destruct (decide (h = g)) as [-> |Hg].
    + rewrite lookup_insert_eq. by intros [= <-] _ ?.
    + rewrite lookup_insert_ne by done. apply H5.
  - intros h y l i t. destruct (decide (h = g)) as [-> |Hg].
    + rewrite lookup_insert_eq, <-?Hlk. intros [= <-] Hv HP HO. destruct (H6 g x l i t Hx Hv HP HO) as [? _].
      rewrite Hlk. split; [done|]. right. set_solver.
    + rewrite lookup_insert_ne by done. intros Hh Hv HP HO. destruct (H6 h y l i t Hh Hv HP HO) as [? [?|?]]; set_solver.
  - intros h y l i. destruct (decide (h = g)) as [-> |Hg].
    + rewrite lookup_insert_eq. intros [= <-] HO Ho. rewrite Hlk. by eapply H7.
    + rewrite lookup_insert_ne by done. apply H7.
Qed.

(** ** One lock changes *)

Lemma vws_set_lock l s (st : System S) l' : vws (set_lock l s st) l' = <[l := alock_view s]> (vws st) l'.
Proof.
  unfold vws. cbn. destruct (decide (l' = l)) as [-> |Hl].
  - by rewrite lookup_insert_eq, fn_lookup_insert.
  - by rewrite lookup_insert_ne, fn_lookup_insert_ne.
Qed.

(** A lock of which granted requests of group [g] were released, or none, and the
    callbacks that follow. *)
Lemma good_lock_step P todo rel (st : System S) l s s' v1 evs (E : Z → Prop) :
  Good P todo rel st → locks st !! l = Some s → Inv (<[l := v1]> (vws st)) P todo rel (groups st) (owner st) →
  apply_events v1 evs = Some (alock_view s') → alock_wf s' → alock_next s' = alock_next s →
  (∀ i y, v1 !! i = Some y → alock_view s !! i = Some y) →
  (∀ i y, alock_view s !! i = Some y → v1 !! i = None → ∃ g, owner st !! (l, i) = Some g ∧ E g) →
  (∀ g x, E g → groups st !! g = Some x → ¬ unfailed x) →
  let st' := set_lock l s' st in
  Good (ev_map l evs P) todo rel st' ∧ Frame E st P st' (ev_map l evs P) ∧
  Forall (λ e, is_Some (answered e)) evs ∧ NoDup (omap answered evs) ∧ (∀ i, i ∈ omap answered evs → P !! (l, i) = None).
Proof.
  intros [Hlo HI] Hs HI1 Hev Hwf Hnx Hsub HE HEu st'.
  assert (vws st l = alock_view s) as HVl by (unfold vws; by rewrite Hs).
  assert (apply_events (<[l := v1]> (vws st) l) evs = Some (alock_view s')) as Hev1 by by rewrite fn_lookup_insert.
  destruct (inv_events _ _ _ _ _ _ _ _ _ HI1 Hev1) as (HI2 & Hall & Hnd & HP & Hout).
  assert (∀ l', <[l := alock_view s']> (<[l := v1]> (vws st)) l' = vws st' l') as HV.
  { intros l'. subst st'. rewrite vws_set_lock. destruct (decide (l' = l)) as [-> |]; [by rewrite !fn_lookup_insert|by rewrite !fn_lookup_insert_ne]. }
  split; [|split; [|done]].
  - split; [split|].
    + intros l0 s0. subst st'. cbn. intros [[<- <-]|[_ Hs0]]%lookup_insert_Some; [done|]. by eapply lo_wf.
    + intros l0 i g Hg. destruct (lo_known _ Hlo l0 i g Hg) as (s0 & Hs0 & Hi). subst st'. cbn.
      destruct (decide (l0 = l)) as [-> |Hl]; [rewrite lookup_insert_eq|rewrite lookup_insert_ne by done]; eauto.
      exists s'. split; [done|]. rewrite Hnx. by simplify_eq.
    + by eapply Inv_ext.
  - split; cbn; try done.
    + intros l0 s0 Hs0. destruct (decide (l0 = l)) as [-> |Hl]; [rewrite lookup_insert_eq|rewrite lookup_insert_ne by done]; eauto.
      exists s'. split; [done|]. by simplify_eq.
    + intros k Hk. assert (outstanding (<[l := v1]> (vws st)) P k) as Ho.
      { apply Hout. unfold outstanding in *. by rewrite HV. }
      destruct Ho as [[t Ht]|Ho]; [|by right]. left. exists t.
      destruct (decide (k.1 = l)) as [E1|]; [|by rewrite fn_lookup_insert_ne in Ht].
      rewrite E1, fn_lookup_insert in Ht. rewrite E1, HVl. by apply Hsub.
    + intros g x Hx. exists x. split_and!; auto.
    + intros l0 i t g x Hv HO Hx Hdb HnE. rewrite <-HV. destruct (decide (l0 = l)) as [-> |]; [|by rewrite !fn_lookup_insert_ne].
      rewrite fn_lookup_insert. destruct (v1 !! i) as [y|] eqn:Ey.
      * pose proof (Hsub _ _ Ey) as Hy. rewrite HVl in Hv. simplify_eq.
        rewrite (apply_events_stable _ _ _ i Hev); [done|]. unfold waits. by rewrite Ey.
      * rewrite HVl in Hv. destruct (HE i _ Hv Ey) as (g' & HO' & HEg). simplify_eq. done.
    + intros l0 i Hv. rewrite <-HV. destruct (decide (l0 = l)) as [-> |]; [|by rewrite !fn_lookup_insert_ne].
      rewrite fn_lookup_insert. rewrite HVl in Hv. destruct (v1 !! i) as [y|] eqn:Ey; [apply Hsub in Ey; congruence|].
      rewrite (apply_events_stable _ _ _ i Hev); [done|]. unfold waits. by rewrite Ey.
    + intros g x x' Hx Hx' Hu. simplify_eq. split; [done|]. intros l0 t (i & HOi & Hc). exists i. split; [done|].
      destruct Hc as [[b Hb]|HPf].
      * rewrite <-HV. destruct (decide (l0 = l)) as [-> |]; [|rewrite !fn_lookup_insert_ne by done; eauto].
        rewrite fn_lookup_insert. rewrite HVl in Hb. destruct (v1 !! i) as [y|] eqn:Ey.
        -- pose proof (Hsub _ _ Ey) as Hy. rewrite Hb in Hy. simplify_eq. exact (events_claim l _ _ _ P i t b Hev Hnd Ey).
        -- destruct (HE i _ Hb Ey) as (g' & HO' & HEg). assert (g' = g) as -> by congruence. by destruct (HEu g x HEg Hx).
      * right. destruct (decide (l0 = l)) as [-> |Hl]; [|by rewrite ev_map_other].
        rewrite ev_map_lookup; [done|]. intros Hi%HP. congruence.
Qed.

(** ** Nested calls *)

(** What the run of a callback guarantees when at most [n - 1] groups wait. *)
Definition call_ok (n : nat) (call : Z → System S → event → result (System S)) : Prop :=
  ∀ l e i P todo rel st,
    Good P todo rel st → answered e = Some i → P !! (l, i) = Some (is_yes e) → (unanswered st < n)%nat →
    ∃ st', call l st e = Done st' ∧ Good (delete (l, i) P) todo rel st' ∧
      Frame (λ _, False) st P st' (delete (l, i) P).

Lemma deliver_ok n call l evs P todo rel st :
  call_ok n call → Good (ev_map l evs P) todo rel st → (unanswered st < n)%nat →
  Forall (λ e, is_Some (answered e)) evs → NoDup (omap answered evs) → (∀ i, i ∈ omap answered evs → P !! (l, i) = None) →
  ∃ st', for_each (call l) evs st = Done st' ∧ Good P todo rel st' ∧ Frame (λ _, False) st (ev_map l evs P) st' P.
Proof.
  intros Hcall. revert st. induction evs as [|e evs IH]; intros st HG Hn Hall Hnd HP.
  - exists st. split_and!; [done|done|apply Frame_refl].
  - apply Forall_cons in Hall as [[i Hi] Hall]. cbn in HG, Hnd, HP. rewrite Hi in HG, Hnd, HP.
    apply NoDup_cons in Hnd as [Hni Hnd].
    destruct (Hcall l e i _ _ _ _ HG Hi ltac:(by rewrite lookup_insert_eq) Hn) as (st1 & Hst1 & HG1 & F1).
    rewrite delete_insert_id in HG1, F1 by (rewrite ev_map_lookup by done; apply HP; by left).
    pose proof (fr_unanswered _ _ _ _ _ F1).
    destruct (IH st1 HG1 ltac:(lia) Hall Hnd) as (st2 & Hst2 & HG2 & F2).
    { intros j Hj. apply HP. by right. }
    exists st2. cbn. rewrite Hst1. cbn. split_and!; [done..|]. rewrite Hi. by eapply Frame_trans.
Qed.

(** Group [g], whose record is [x], holds the request of lock [l] in [locked_]. *)
Definition holding (g : Z) (x : ALockGroup) (l : Z) (st : System S) : Prop :=
  ∀ i, locked_ x !! l = Some i → owner st !! (l, i) = Some g ∧ ∃ t, vws st l !! i = Some (t, true).

Lemma abort_one_ok n call g x l i P todo rel st :
  call_ok n call → Good P todo ({[g]} ∪ rel) st → groups st !! g = Some x → db_ x = None → ¬ active x →
  locked_ x !! l = Some i → holding g x l st → (unanswered st < n)%nat →
  ∃ s s1 evs st', i ≠ 0 ∧ locks st !! l = Some s ∧ alock_abort i s = Done (s1, evs, false) ∧
    for_each (call l) evs (set_lock l s1 st) = Done st' ∧ Good P todo ({[g]} ∪ rel) st' ∧
    Frame (λ h, h = g) st P st' P ∧
    (∀ l0 i0 t, l0 ≠ l → owner st !! (l0, i0) = Some g → vws st l0 !! i0 = Some (t, true) → vws st' l0 !! i0 = Some (t, true)) ∧
    (∀ j t, owner st !! (l, j) = Some g → vws st' l !! j ≠ Some (t, true)).
Proof.
  intros Hcall [Hlo HI] Hx Hdb Hact Hl Hh Hn. destruct (Hh i Hl) as (HO & t & Ht).
  destruct (lo_known _ Hlo l i g HO) as (s & Hs & Hi). pose proof (lo_wf _ Hlo l s Hs) as Hwf.
  assert (vws st l = alock_view s) as HVl by (unfold vws; by rewrite Hs). rewrite HVl in Ht.
  destruct (alock_abort_ok i t s Hwf Ht) as (s1 & evs & Hab & Hwf1 & Hnx & Hev).
  assert (Inv (<[l := delete i (alock_view s)]> (vws st)) P todo ({[g]} ∪ rel) (groups st) (owner st)) as HI1.
  { rewrite <-HVl in Ht |- *. by eapply inv_release. }
  destruct (good_lock_step P todo ({[g]} ∪ rel) st l s s1 _ evs (λ h, h = g) (conj Hlo HI) Hs HI1 Hev Hwf1 Hnx)
    as (HG1 & F1 & Hall & Hnd & HP).
  { intros j y [_ Hy]%lookup_delete_Some. done. }
  { intros j y Hj [<-|Hj']%lookup_delete_None; [eauto|congruence]. }
  { intros h y -> Hhy [E1 E2]; simplify_eq. apply Hact. unfold active. by destruct (group_status_ x). }
  pose proof (fr_unanswered _ _ _ _ _ F1).
  destruct (deliver_ok n call l evs P todo _ _ Hcall HG1 ltac:(lia) Hall Hnd HP) as (st' & Hst' & HG' & F2).
  exists s, s1, evs, st'. split_and!; [lia|done..| | |].
  - eapply Frame_trans; [exact F1|]. eapply Frame_weaken; [|exact F2]. done.
  - intros l0 i0 t0 Hne HO0 Hv0. apply (fr_held _ _ _ _ _ F2 l0 i0 t0 g x); [|done..|tauto].
    rewrite vws_set_lock, fn_lookup_insert_ne by done. done.
  - intros j t0 HOj Hj. destruct (decide (j = i)) as [-> |Hji].
    + assert (vws (set_lock l s1 st) l !! i = None) as Hnone.
      { rewrite vws_set_lock, fn_lookup_insert. rewrite (apply_events_stable _ _ _ i Hev); [apply lookup_delete_eq|].
        unfold waits. by rewrite lookup_delete_eq. }
      apply (fr_gone _ _ _ _ _ F2) in Hnone. congruence.
    + destruct HG' as [_ HI']. destruct (fr_group _ _ _ _ _ F2 g x Hx) as (x' & Hx' & _ & _ & Hsame & _).
      rewrite (Hsame Hdb) in Hx'. rewrite (fr_owner _ _ _ _ _ F2) in HI'. cbn in HI'.
      assert (P !! (l, j) = None) as HPj.
      { destruct (P !! (l, j)) eqn:E; [|done]. destruct (inv_idle _ _ _ _ _ _ g x (l, j) HI Hx Hdb HOj). right. by eexists. }
      destruct (inv_held _ _ _ _ _ _ HI' g x l j t0 Hx' Hj HPj HOj) as [? _]. congruence.
Qed.

Lemma abort_all_ok n call g x P todo rel st :
  call_ok n call → Good P todo ({[g]} ∪ rel) st → groups st !! g = Some x → db_ x = None → ¬ active x →
  (∀ l, holding g x l st) → (unanswered st < n)%nat →
  ∃ st', abort_all_locked ord call x st = Done st' ∧ Good P todo rel st' ∧ Frame (λ h, h = g) st P st' P ∧
    (∀ l i t, owner st !! (l, i) = Some g → vws st' l !! i ≠ Some (t, true)).
Proof.
  intros Hcall HG Hx Hdb Hact Hhold Hn. unfold abort_all_locked.
  destruct (for_each_inv (λ (st : System S) l, match locked_ x !! l with
      | None => Done st
      | Some i => if decide (i = 0) then Done st
                  else s ← get_lock st l; '(s, evs, late) ← alock_abort i s; st ← for_each (call l) evs (set_lock l s st);
                       if (late : bool) then s ← get_lock st l; _ ← verify (alock_late s); Done st else Done st
      end)
    (λ done st', Good P todo ({[g]} ∪ rel) st' ∧ Frame (λ h, h = g) st P st' P ∧
       (∀ l, l ∉ done → holding g x l st') ∧
       (∀ l i t, l ∈ done → owner st !! (l, i) = Some g → vws st' l !! i ≠ Some (t, true)))
    (ord (dom (locked_ x))) st) as (st' & Heq & HG' & F & _ & Hnone).
  - split_and!; [done|apply Frame_refl|auto|]. intros l i t Hin. by apply not_elem_of_nil in Hin.
  - intros done l rest st1 Hord (HG1 & F1 & Hh1 & Hd1).
    assert (l ∉ done) as Hld.
    { pose proof (NoDup_elements (dom (locked_ x))) as Hnd. rewrite <-(ord_spec (dom (locked_ x))), Hord in Hnd.
      apply NoDup_app in Hnd as (_ & Hnd & _). intros Hin. apply (Hnd l Hin). by left. }
    assert (l ∈ dom (locked_ x)) as [i Hi]%elem_of_dom.
    { apply elem_of_elements. rewrite <-ord_spec, Hord. set_solver. }
    destruct (fr_group _ _ _ _ _ F1 g x Hx) as (x' & Hx' & _ & _ & Hsame & _). rewrite (Hsame Hdb) in Hx'.
    pose proof (fr_unanswered _ _ _ _ _ F1). pose proof (fr_owner _ _ _ _ _ F1) as HO1.
    destruct (abort_one_ok n call g x l i P todo rel st1 Hcall HG1 Hx' Hdb Hact Hi (Hh1 l Hld) ltac:(lia))
      as (s & s1 & evs & st2 & Hi0 & Hs & Hab & Hst2 & HG2 & F2 & Hk2 & Hn2).
    exists st2. rewrite Hi. rewrite decide_False by done. unfold get_lock. rewrite Hs. cbn [mbind result_bind]. rewrite Hab.
    cbn [mbind result_bind]. rewrite Hst2. cbn [mbind result_bind]. split; [done|]. rewrite HO1 in *. split_and!; [done|by eapply Frame_trans| |].
    + intros l0 Hl0 j Hj. rewrite (fr_owner _ _ _ _ _ F2), HO1.
      destruct (Hh1 l0 ltac:(set_solver) j Hj) as (HOj & t & Htj). rewrite HO1 in HOj. split; [done|].
      exists t. apply Hk2; [set_solver|done|done].
    + intros l0 j t [Hl0| ->%list_elem_of_singleton]%elem_of_app HOj.
      * intros Hv. destruct (vws st1 l0 !! j) as [[t' []]|] eqn:E.
        -- by apply (Hd1 l0 j t').
        -- destruct HG1 as [_ HI1]. rewrite HO1 in HI1. destruct (inv_idle _ _ _ _ _ _ g x (l0, j) HI1 Hx' Hdb HOj).
           left. eauto.
        -- apply (fr_gone _ _ _ _ _ F2) in E. congruence.
      * by apply Hn2.
  - exists st'. split; [done|]. destruct HG' as [Hlo HI].
    destruct (fr_group _ _ _ _ _ F g x Hx) as (x' & Hx' & _ & _ & Hsame & _). rewrite (Hsame Hdb) in Hx'.
    assert (∀ l i t, owner st' !! (l, i) = Some g → vws st' l !! i ≠ Some (t, true)) as Hfin.
    { intros l i t HO Hv. assert (P !! (l, i) = None) as HP.
      { destruct (P !! (l, i)) eqn:E; [|done]. destruct (inv_idle _ _ _ _ _ _ g x (l, i) HI Hx' Hdb HO). right. by eexists. }
      destruct (inv_held _ _ _ _ _ _ HI g x l i t Hx' Hv HP HO) as [Hl _].
      rewrite (fr_owner _ _ _ _ _ F) in HO. eapply (Hnone l i t); [|done|done].
      rewrite ord_spec. apply elem_of_elements, elem_of_dom. by eexists. }
    split_and!; [|done|].
    + split; [done|]. destruct HI as [H1 H2 H3 H4 H5 H6 H7]. split; try done.
      intros h y l i t Hh Hv HP HO. destruct (H6 h y l i t Hh Hv HP HO) as [Hl Hor]. split; [done|].
      destruct (decide (h = g)) as [-> |]; [|set_solver]. by destruct (Hfin l i t).
    + rewrite (fr_owner _ _ _ _ _ F) in Hfin. exact Hfin.
Qed.

(** The nested calls end: each level answers a group. *)
Lemma callback_ok fuel : call_ok fuel (callback ord fuel).
Proof.
  induction fuel as [|fuel IH]; intros l e i P todo rel st [Hlo HI] Hans HPi Hn; [lia|].
  destruct (inv_pending _ _ _ _ _ _ HI l i _ HPi) as [[g HO] _].
  destruct (inv_group _ _ _ _ _ _ HI _ _ HO) as [x Hx].
  assert (outstanding (vws st) P (l, i)) as Hout by (right; by eexists).
  destruct (inv_count _ _ _ _ _ _ HI g x Hx) as (W & HW & Hdb).
  assert (size W ≠ 0%nat) as HsW. { rewrite size_non_empty_iff. assert ((l, i) ∈ W) by by apply HW. set_solver. }
  unfold db_ok in Hdb. destruct (db_ x) as [[nw nr]|] eqn:Edb; [|lia]. destruct Hdb as (Hcnt & _ & Hst).
  cbn [callback]. rewrite Hans. unfold get_owner, get_group. rewrite HO. cbn. rewrite Hx. cbn.
  assert (db_ (note l e x) = Some (nw, nr)) as -> by by destruct e.
  rewrite (bool_decide_eq_true_2 (nr + 1 ≤ nw)) by lia. cbn [verify mbind result_bind].
  destruct (decide (nr + 1 = nw)) as [Hlast|Hmore].
  - set (x1 := set_group_status Group.LOCK (set_db None (note l e x))).
    assert (Inv (vws st) (delete (l, i) P) todo rel (<[g := x1]> (groups st)) (owner st)) as HI1.
    { eapply (inv_answer _ _ _ rel rel _ _ _ _ e); [exact HI|done..| |by left|done|left; lia]. cbn. split; [lia|done]. }
    destruct (decide (group_status_ (note l e x) = Group.WAIT)) as [Hw|Hw].
    + destruct (frame_answer g x x1 l i e P st Hx ltac:(by rewrite Edb) Hans ltac:(by eexists) HO) as [F1 _];
        [by destruct e..|destruct e; try done; intros _; split; [done|split; cbn in Hw; by rewrite Hw]|done|]. cbn in F1.
      eexists. split; [done|]. split; [|exact F1]. split; [by destruct Hlo|exact HI1].
    + assert (group_status_ (note l e x) = Group.TIMEOUT) as Hto.
      { destruct e; cbn in *; [|done|done]. destruct Hst; [done|done]. }
      rewrite bool_decide_eq_true_2 by done. cbn [verify mbind result_bind].
      set (x2 := set_db None (note l e x)). set (st1 := reply g false (set_group g x2 st)).
      destruct (abort_all_ok fuel (callback ord fuel) g x2 (delete (l, i) P) todo rel st1 IH) as (st2 & Hst2 & HG2 & F2 & _).
      * split; [by destruct Hlo|]. cbn.
        assert (<[g := x2]> (groups st) = <[g := x2]> (<[g := x1]> (groups st))) as -> by by rewrite insert_insert_eq.
        apply (inv_deactivate _ _ _ _ _ _ g x1); [done|apply lookup_insert_eq|done|done|done| |].
        -- cbn. by rewrite Hto.
        -- unfold active. cbn. rewrite Hto. by intros [? ?].
      * cbn. by rewrite lookup_insert_eq.
      * done.
      * unfold active. cbn. rewrite Hto. by intros [? ?].
      * intros l0 i0 Hl0. destruct (inv_holds _ _ _ _ _ _ HI1 g x1 l0 i0) as (? & _ & ?); [apply lookup_insert_eq|exact Hl0|done|done].
      * pose proof (unanswered_less g x x2 st Hx ltac:(by rewrite Edb) eq_refl).
        change (unanswered st1) with (unanswered (set_group g x2 st)). lia.
      * exists st2. split; [done|]. split; [done|]. apply (Frame_exempt g x); [|done|congruence].
        destruct (frame_answer g x x2 l i e P st Hx ltac:(by rewrite Edb) Hans ltac:(by eexists) HO) as [F1' _];
          [by destruct e..|by intros [E _]; cbn in E|done|].
        cbn in F1'. rewrite Hto in F1'. eapply Frame_trans; [|exact F2]. eapply Frame_weaken; [|exact F1']. done.
  - set (x1 := set_db (Some (nw, nr + 1)) (note l e x)). eexists. split; [done|].
    destruct (frame_answer g x x1 l i e P st Hx ltac:(by rewrite Edb) Hans ltac:(by eexists) HO) as [F1 _];
      [by destruct e..|intros Hu; destruct e; [by split|by destruct Hu..]|done|]. split; [|exact F1]. split; [by destruct Hlo|]. cbn.
    assert (group_status_ x1 = Group.WAIT ∨ group_status_ x1 = Group.TIMEOUT) as Hst1 by (destruct e; cbn; auto).
    eapply (inv_answer _ _ _ rel rel _ _ _ _ e g x x1); [exact HI|done..| | |done|by right].
    + cbn. split_and!; [done|done|lia|done].
    + left. unfold active. destruct Hst1 as [->| ->]; [done|by eexists].
Qed.

(** ** Between the operations of clients *)

(** No callback is due, no group is in the middle of an operation. *)
Definition Stable (st : System S) : Prop := Good ∅ (λ _, 0%nat) ∅ st.

Lemma Inv_todo V P todo todo' rel G O : (∀ g, todo g = todo' g) → Inv V P todo rel G O → Inv V P todo' rel G O.
Proof.
  intros Ht [H1 H2 H3 H4 H5 H6 H7]. split; try done. intros g x Hx. rewrite <-Ht. by apply H4.
Qed.

(** An operation keeps what the groups have asked for, as long as they are not turned down. *)
Definition keeps (st st' : System S) : Prop :=
  ∀ h x x', groups st !! h = Some x → groups st' !! h = Some x' → unfailed x' →
    unfailed x ∧ ∀ l t, claim st ∅ h l t → claim st' ∅ h l t.

Lemma Frame_keeps E st st' : Frame E st ∅ st' ∅ → keeps st st'.
Proof. intros F h x x'. apply F. Qed.

Lemma keeps_trans st1 st2 st3 :
  keeps st1 st2 → keeps st2 st3 → (∀ h, is_Some (groups st1 !! h) → is_Some (groups st2 !! h)) → keeps st1 st3.
Proof.
  intros H1 H2 Hd h x x' Hx Hx' Hu. destruct (Hd h ltac:(by eexists)) as [y Hy].
  destruct (H2 h y x' Hy Hx' Hu) as [Huy Hk2]. destruct (H1 h x y Hx Hy Huy) as [Hux Hk1]. auto.
Qed.

(** Only the record of group [g] changes. *)
Lemma keeps_set_group st g x x' :
  groups st !! g = Some x → (unfailed x' → unfailed x) → keeps st (set_group g x' st).
Proof.
  intros Hx Hu h y y' Hy. cbn. intros [[<- <-]|[_ Hy']]%lookup_insert_Some Hun; simplify_eq; auto.
Qed.

(** A group that waits for nothing changes its record, but not what it holds. *)
Lemma inv_record V P todo rel G O g x x' :
  Inv V P todo rel G O → G !! g = Some x → active x → active x' → locked_ x' = locked_ x →
  (∀ n, db_ok x n (todo g) → db_ok x' n (todo g)) → Inv V P todo rel (<[g := x']> G) O.
Proof.
  intros HI Hx Ha Ha' Hlk Hdb. destruct HI as [H1 H2 H3 H4 H5 H6 H7]. split; try done.
  - intros k h Hk%H2. destruct (decide (h = g)) as [-> |Hg]; [rewrite lookup_insert_eq|rewrite lookup_insert_ne by done]; eauto.
  - intros h y [[<- <-]|[_ Hh]]%lookup_insert_Some; [|by apply H4].
    destruct (H4 g x Hx) as (W & HW & Hn). eauto.
  - intros h y l i [[<- <-]|[_ Hh]]%lookup_insert_Some; [|by apply H5]. rewrite Hlk. intros Hl _. by eapply H5.
  - intros h y l i t [[<- <-]|[_ Hh]]%lookup_insert_Some; [|by apply H6]. rewrite Hlk. intros Hv HP HO.
    destruct (H6 g x l i t Hx Hv HP HO) as [? _]. auto.
  - intros h y l i [[<- <-]|[_ Hh]]%lookup_insert_Some; [|by apply H7]. rewrite Hlk. by apply H7.
Qed.

Lemma stable_db st g x :
  Stable st → groups st !! g = Some x → group_status_ x = Group.INIT ∨ group_status_ x = Group.LOCK → db_ x = None.
Proof.
  intros [_ HI] Hx Hst. destruct (inv_count _ _ _ _ _ _ HI g x Hx) as (W & _ & Hn). unfold db_ok in Hn.
  destruct (db_ x) as [[nw nr]|]; [|done]. destruct Hst as [E|E]; rewrite E in Hn; naive_solver.
Qed.

Lemma new_group_ok st g p :
  Stable st → groups st !! g = None → Stable (set_group g (ALockGroup_new p) st).
Proof.
  intros [[? ?] HI] Hg. split; [by split|]. destruct HI as [H1 H2 H3 H4 H5 H6 H7]. cbn. split; try done.
  - intros k h [x Hh]%H2. rewrite lookup_insert_ne by congruence. eauto.
  - intros h y [[<- <-]|[_ Hh]]%lookup_insert_Some; [|by apply H4]. exists ∅. split; [|done].
    intros k. split; [by intros ?%not_elem_of_empty|]. intros [[x Hx]%H2 _]. congruence.
  - intros h y l i [[<- <-]|[_ Hh]]%lookup_insert_Some; [done|by apply H5].
  - intros h y l i t [[<- <-]|[_ Hh]]%lookup_insert_Some; [|by apply H6].
    intros _ _ [x Hx]%H2. congruence.
  - intros h y l i [[<- <-]|[_ Hh]]%lookup_insert_Some; [|by apply H7]. intros [x Hx]%H2. congruence.
Qed.

Lemma add_ok st g l t x :
  Stable st → groups st !! g = Some x → group_status_ x = Group.INIT ∨ group_status_ x = Group.LOCK →
  ∃ st', add g l t st = Done st' ∧ Stable st' ∧ keeps st st' ∧
    (∀ h, is_Some (groups st !! h) → is_Some (groups st' !! h)) ∧
    ∀ h, (replied st' h + expects st' h = replied st h + expects st h)%nat.
Proof.
  intros Hs Hx Hst. pose proof (stable_db st g x Hs Hx Hst) as Hdb.
  unfold add, get_group. rewrite Hx. cbn. rewrite decide_True by done. eexists. split; [done|].
  split.
  - destruct Hs as [[? ?] HI]. split; [by split|]. cbn.
    assert (active x) by (unfold active; by destruct Hst as [-> | ->]).
    by apply (inv_record _ _ _ _ _ _ g x).
  - split; [by apply (keeps_set_group st g x)|]. split.
    { intros h Hh. cbn. destruct (decide (h = g)) as [-> |]; [rewrite lookup_insert_eq|rewrite lookup_insert_ne by done]; eauto. }
    intros h. unfold replied, expects. cbn. destruct (decide (h = g)) as [-> |].
    + rewrite lookup_insert_eq, Hx. done.
    + by rewrite lookup_insert_ne.
Qed.

Lemma unlock_all_ok st g x :
  Stable st → groups st !! g = Some x → group_status_ x = Group.LOCK →
  ∃ st', unlock_all ord g st = Done st' ∧ Stable st' ∧ keeps st st' ∧
    (∀ h, is_Some (groups st !! h) → is_Some (groups st' !! h)) ∧
    (∀ h, (replied st' h + expects st' h = replied st h + expects st h)%nat) ∧
    (∀ l i t, owner st !! (l, i) = Some g → vws st' l !! i ≠ Some (t, true)).
Proof.
  intros Hs Hx Hst. pose proof (stable_db st g x Hs Hx (or_intror Hst)) as Hdb. destruct Hs as [Hlo HI].
  unfold unlock_all, get_group. rewrite Hx. cbn. rewrite bool_decide_eq_true_2 by done. cbn.
  set (x' := set_group_status Group.UNLOCK x). set (st1 := set_group g x' st).
  destruct (abort_all_ok _ (callback ord (Datatypes.S (unanswered st1))) g x' ∅ (λ _, 0%nat) ∅ st1 (callback_ok _))
    as (st' & Heq & HG & F & Hnone).
  - split; [by destruct Hlo|]. cbn.
    apply (inv_deactivate _ _ _ _ _ _ g x); [done|done|done|exact Hdb|done|by cbn|by intros ?].
  - cbn. apply lookup_insert_eq.
  - exact Hdb.
  - by intros ?.
  - intros l i Hl. destruct (inv_holds _ _ _ _ _ _ HI g x l i Hx Hl) as (? & _ & ?); [by unfold active; rewrite Hst|done].
  - lia.
  - assert (∀ h, is_Some (groups st !! h) → is_Some (groups st1 !! h)) as Hd.
    { intros h Hh. cbn. destruct (decide (h = g)) as [-> |]; [rewrite lookup_insert_eq|rewrite lookup_insert_ne by done]; eauto. }
    exists st'. split_and!; [done|done| | | |done].
    { eapply keeps_trans; [|by eapply Frame_keeps|exact Hd]. apply (keeps_set_group st g x x' Hx). by intros []. }
    { intros h [y Hy]%Hd. destruct (fr_group _ _ _ _ _ F h y Hy) as (y' & ? & _). eauto. }
    intros h. rewrite (fr_replies _ _ _ _ _ F).
    unfold replied, expects. cbn. destruct (decide (h = g)) as [-> |].
    + rewrite lookup_insert_eq, Hx. done.
    + by rewrite lookup_insert_ne.
Qed.

Lemma tick_lock_ok st l s d :
  Stable st → locks st !! l = Some s → 0 ≤ d →
  ∃ st', tick_lock ord l d st = Done st' ∧ Stable st' ∧ keeps st st' ∧
    (∀ h, is_Some (groups st !! h) → is_Some (groups st' !! h)) ∧
    (∀ h, (replied st' h + expects st' h = replied st h + expects st h)%nat).
Proof.
  intros [Hlo HI] Hs Hd. pose proof (lo_wf _ Hlo l s Hs) as Hwf.
  destruct (alock_tick_ok d s Hwf Hd) as (s' & evs & Heq & Hwf' & Hnx & Hev).
  assert (vws st l = alock_view s) as HVl by (unfold vws; by rewrite Hs).
  assert (Inv (<[l := alock_view s]> (vws st)) ∅ (λ _, 0%nat) ∅ (groups st) (owner st)) as HI1.
  { eapply Inv_ext; [|exact HI]. intros l'. rewrite <-HVl.
    destruct (decide (l' = l)) as [-> |]; [by rewrite fn_lookup_insert|by rewrite fn_lookup_insert_ne]. }
  destruct (good_lock_step ∅ _ ∅ st l s s' _ evs (λ _, False) (conj Hlo HI) Hs HI1 Hev Hwf' Hnx)
    as (HG1 & F1 & Hall & Hnd & HP); [done|intros i t Hi Hn; congruence|done|].
  destruct (deliver_ok _ _ l evs ∅ _ ∅ _ (callback_ok (Datatypes.S (unanswered (set_lock l s' st)))) HG1 ltac:(lia) Hall Hnd HP)
    as (st' & Hst' & HG' & F2).
  pose proof (Frame_trans _ _ _ _ _ _ _ F1 F2) as F.
  exists st'. split; [|split; [done|split; [by eapply Frame_keeps|split]]].
  - unfold tick_lock, get_lock. rewrite Hs. cbn. rewrite Heq. cbn. done.
  - intros h [y Hy]. destruct (fr_group _ _ _ _ _ F h y Hy) as (y' & ? & _). eauto.
  - intros h. by rewrite (fr_replies _ _ _ _ _ F2), (fr_replies _ _ _ _ _ F1).
Qed.

(** ** [lock_all] *)

Lemma inv_start V P todo rel G O g x x' n :
  Inv V P todo rel G O → G !! g = Some x → active x → db_ x = None → (0 < n)%nat →
  locked_ x' = locked_ x → group_status_ x' = Group.WAIT → db_ x' = Some (Z.of_nat n, 0) →
  Inv V P (<[g := n]> todo) rel (<[g := x']> G) O.
Proof.
  intros HI Hx Ha Hdb Hn Hlk Hst Hdb'. destruct HI as [H1 H2 H3 H4 H5 H6 H7].
  assert (active x') as Ha' by (unfold active; by rewrite Hst). split; try done.
  - intros k h Hk%H2. destruct (decide (h = g)) as [-> |Hg]; [rewrite lookup_insert_eq|rewrite lookup_insert_ne by done]; eauto.
  - intros h y [[<- <-]|[Hne Hh]]%lookup_insert_Some.
    + destruct (H4 g x Hx) as (W & HW & Hd). exists W. split; [done|]. unfold db_ok in *. rewrite Hdb in Hd.
      rewrite Hdb', fn_lookup_insert. destruct Hd as [-> _]. split_and!; [lia|lia|by left].
    + rewrite fn_lookup_insert_ne by done. by apply H4.
  - intros h y l i [[<- <-]|[_ Hh]]%lookup_insert_Some; [|by apply H5]. rewrite Hlk. intros Hl _. by eapply H5.
  - intros h y l i t [[<- <-]|[_ Hh]]%lookup_insert_Some; [|by apply H6]. rewrite Hlk. intros Hv HP HO.
    destruct (H6 g x l i t Hx Hv HP HO) as [? _]. auto.
  - intros h y l i [[<- <-]|[_ Hh]]%lookup_insert_Some; [|by apply H7]. rewrite Hlk. by apply H7.
Qed.

(** Group [g] has asked for none of the locks still to come. *)
Definition unasked (g l : Z) (st : System S) : Prop := ∀ j, owner st !! (l, j) = Some g → ¬ outstanding (vws st) ∅ (l, j).

Lemma request_ok todo rel st g x l s t p :
  Good ∅ todo rel st → groups st !! g = Some x → (0 < todo g)%nat → locks st !! l = Some s → alock_next s < MAX_REQ →
  locked_ x !! l = None → unasked g l st →
  ∃ s' i evs st', alock_lock t p s = Done (s', i, evs) ∧
    for_each (callback ord (Datatypes.S (unanswered (set_owner l i g (set_lock l s' st)))) l) evs (set_owner l i g (set_lock l s' st)) = Done st' ∧
    Good ∅ (<[g := pred (todo g)]> todo) rel st' ∧
    (∀ h, (replied st' h + expects st' h = replied st h + expects st h)%nat) ∧
    (∀ l0 s0, l0 ≠ l → locks st !! l0 = Some s0 → ∃ s1, locks st' !! l0 = Some s1 ∧ alock_next s1 = alock_next s0) ∧
    (∀ l0, l0 ≠ l → unasked g l0 st → unasked g l0 st') ∧
    keeps st st' ∧ (∀ h, is_Some (groups st !! h) → is_Some (groups st' !! h)) ∧
    (∀ x', groups st' !! g = Some x' → unfailed x' → claim st' ∅ g l t) ∧
    (∃ x', groups st' !! g = Some x' ∧ priority_ x' = priority_ x ∧
       ∀ l0, l0 ≠ l → unasked g l0 st → locked_ x !! l0 = None → locked_ x' !! l0 = None).
Proof.
  intros [Hlo HI] Hx Htodo Hs Hnx Hlk Hun. pose proof (lo_wf _ Hlo l s Hs) as Hwf.
  destruct (alock_lock_ok t p s Hwf Hnx) as (s' & evs & Heq & Hwf' & Hnx' & Hev). set (i := alock_next s) in *.
  assert (vws st l = alock_view s) as HVl by (unfold vws; by rewrite Hs).
  assert (owner st !! (l, i) = None) as HOi.
  { destruct (owner st !! (l, i)) eqn:E; [|done]. apply (lo_known _ Hlo) in E as (s0 & Hs0 & Hi). simplify_eq. lia. }
  assert (vws st l !! i = None) as HVi.
  { destruct (vws st l !! i) eqn:E; [|done]. apply (inv_owned _ _ _ _ _ _ HI) in E as [? ?]. congruence. }
  assert (is_Some (db_ x)) as Hdb.
  { destruct (inv_count _ _ _ _ _ _ HI g x Hx) as (W & _ & Hd). unfold db_ok in Hd. destruct (db_ x); [done|lia]. }
  pose proof (inv_request _ _ _ _ _ _ l i t g x HI HVi HOi (lookup_empty _) Hx Hdb Htodo Hlk Hun) as HI1.
  set (st1 := set_owner l i g (set_lock l s' st)).
  assert (apply_events (<[l := <[i := (t, false)]> (vws st l)]> (vws st) l) evs = Some (alock_view s')) as Hev1
    by by rewrite fn_lookup_insert, HVl.
  destruct (inv_events _ _ _ _ _ _ _ _ _ HI1 Hev1) as (HI2 & Hall & Hnd & HP & Hout).
  assert (∀ l', <[l := alock_view s']> (<[l := <[i := (t, false)]> (vws st l)]> (vws st)) l' = vws st1 l') as HV.
  { intros l'. change (vws st1 l') with (vws (set_lock l s' st) l'). rewrite vws_set_lock.
    destruct (decide (l' = l)) as [-> |]; [by rewrite !fn_lookup_insert|by rewrite !fn_lookup_insert_ne]. }
  assert (Good (ev_map l evs ∅) (<[g := pred (todo g)]> todo) rel st1) as HG1.
  { split; [split|by eapply Inv_ext].
    - intros l0 s0. cbn. intros [[<- <-]|[_ Hs0]]%lookup_insert_Some; [done|]. by eapply lo_wf.
    - intros l0 i0 h. cbn. intros [[[= <- <-] <-]|[Hne Ho]]%lookup_insert_Some.
      + exists s'. rewrite lookup_insert_eq. split; [done|].
        pose proof (alock_next_pos s Hwf). lia.
      + destruct (lo_known _ Hlo l0 i0 h Ho) as (s0 & Hs0 & Hi0).
        destruct (decide (l0 = l)) as [-> |]; [rewrite lookup_insert_eq|rewrite lookup_insert_ne by done]; eauto.
        exists s'. split; [done|]. simplify_eq. lia. }
  destruct (deliver_ok _ _ l evs ∅ _ rel _ (callback_ok (Datatypes.S (unanswered st1))) HG1 ltac:(lia) Hall Hnd HP)
    as (st' & Hst' & HG' & F).
  assert (∀ l0 j, l0 ≠ l → outstanding (vws st') ∅ (l0, j) → outstanding (vws st) ∅ (l0, j)) as Hback.
  { intros l0 j Hne Ho%(fr_out _ _ _ _ _ F). unfold outstanding in Ho. rewrite <-HV in Ho. apply Hout in Ho.
    unfold outstanding in *. cbn in *. by rewrite fn_lookup_insert_ne in Ho. }
  assert (∀ h l0 t0, claim st ∅ h l0 t0 → claim st1 (ev_map l evs ∅) h l0 t0) as Hclaim.
  { intros h l0 t0 (i0 & HO0 & [[b Hb]|HP0]); [|by rewrite lookup_empty in HP0]. exists i0.
    assert ((l0, i0) ≠ (l, i)) as Hne0 by (intros [= -> ->]; congruence). split; [cbn; by rewrite lookup_insert_ne|].
    rewrite <-HV. destruct (decide (l0 = l)) as [-> |]; [|rewrite !fn_lookup_insert_ne by done; eauto].
    rewrite fn_lookup_insert. apply (events_claim l _ _ _ ∅ i0 t0 b Hev Hnd). rewrite <-HVl.
    by rewrite lookup_insert_ne by congruence. }
  exists s', i, evs, st'. split_and!; [done|done|done| | | | | | |].
  - intros h. by rewrite (fr_replies _ _ _ _ _ F).
  - intros l0 s0 Hne Hs0. apply (fr_locks _ _ _ _ _ F). cbn. by rewrite lookup_insert_ne.
  - intros l0 Hne Hu j Hj Ho. rewrite (fr_owner _ _ _ _ _ F) in Hj. cbn in Hj.
    rewrite lookup_insert_ne in Hj by congruence. apply (Hu j Hj). by apply Hback.
  - intros h y y' Hy Hy' Hu. destruct (fr_claim _ _ _ _ _ F h y y' Hy Hy' Hu) as [Huy Hk]. auto.
  - intros h [y Hy]. destruct (fr_group _ _ _ _ _ F h y Hy) as (y' & ? & _). eauto.
  - intros x' Hx' Hu. destruct (fr_claim _ _ _ _ _ F g x x' Hx Hx' Hu) as [_ Hk]. apply Hk.
    exists i. split; [cbn; apply lookup_insert_eq|]. rewrite <-HV, fn_lookup_insert.
    apply (events_claim l _ _ _ ∅ i t false Hev Hnd). apply lookup_insert_eq.
  - destruct (fr_group _ _ _ _ _ F g x Hx) as (x' & Hx' & Hp & _ & _ & Hl). exists x'. split_and!; [done|done|].
    intros l0 Hne Hu Hl0. destruct (Hl l0 Hl0) as [?|(j & Hj & Ho)]; [done|]. exfalso. cbn in Hj.
    rewrite lookup_insert_ne in Hj by congruence. apply (Hu j Hj).
    unfold outstanding in Ho. rewrite <-HV in Ho. apply Hout in Ho. unfold outstanding in *. cbn in *.
    by rewrite fn_lookup_insert_ne in Ho.
Qed.

(** What [lock_all] needs: locks that exist, that have ids left, and that the group
    does not hold. *)
Definition lockable (x : ALockGroup) (st : System S) : Prop :=
  tolock_ x ≠ ∅ ∧ Z.of_nat (size (tolock_ x)) < 2 ^ 31 ∧
  ∀ l, l ∈ dom (tolock_ x) → locked_ x !! l = None ∧ ∃ s, locks st !! l = Some s ∧ alock_next s < MAX_REQ.

Lemma lock_all_ok st g x :
  Stable st → groups st !! g = Some x → group_status_ x = Group.INIT ∨ group_status_ x = Group.LOCK → lockable x st →
  ∃ st', group_lock_all ord g st = Done st' ∧ Stable st' ∧ keeps st st' ∧
    (∀ h, is_Some (groups st !! h) → is_Some (groups st' !! h)) ∧
    (∀ x' l t, groups st' !! g = Some x' → unfailed x' → tolock_ x !! l = Some t → claim st' ∅ g l t) ∧
    (∀ h, (replied st' h + expects st' h = replied st h + expects st h + if decide (h = g) then 1 else 0)%nat).
Proof.
  intros Hs Hx Hst (Hne & Hsz & Hlk). pose proof (stable_db st g x Hs Hx Hst) as Hdb.
  unfold group_lock_all, get_group. rewrite Hx. cbn [mbind result_bind]. rewrite bool_decide_eq_true_2 by done. cbn [verify mbind result_bind].
  set (tmp := tolock_ x) in *. set (n := size tmp).
  rewrite (swrap_small 32) by (done || (split; [lia|cbn; lia])).
  set (x0 := mkGroup _ _ _ _ _). set (st0 := set_group g x0 st).
  assert (length (ord (dom tmp)) = n) as Hlen.
  { rewrite (Permutation_length (ord_spec (dom tmp))). subst n. rewrite <-size_dom. done. }
  assert (active x) as Hact by (unfold active; by destruct Hst as [-> | ->]).
  assert (n ≠ 0%nat) as Hn0 by by apply map_size_non_empty_iff.
  assert (∀ l, unasked g l st0) as Hun0.
  { intros l j Hj. cbn in Hj. by eapply (inv_idle _ _ _ _ _ _ g x _ (proj2 Hs)). }
  destruct (for_each_inv (lock_one ord g tmp (priority_ x0))
    (λ done st', Good ∅ (<[g := (n - length done)%nat]> (λ _, 0%nat)) ∅ st' ∧
       (∀ h, (replied st' h + expects st' h = replied st0 h + expects st0 h)%nat) ∧
       keeps st0 st' ∧ (∀ h, is_Some (groups st0 !! h) → is_Some (groups st' !! h)) ∧
       (∀ x' l t, groups st' !! g = Some x' → unfailed x' → l ∈ done → tmp !! l = Some t → claim st' ∅ g l t) ∧
       ∃ x', groups st' !! g = Some x' ∧ ∀ l, l ∈ dom tmp → l ∉ done →
         locked_ x' !! l = None ∧ unasked g l st' ∧ ∃ s, locks st' !! l = Some s ∧ alock_next s < MAX_REQ)
    (ord (dom tmp)) st0) as (st' & Heq & HG & Hrep & Hkeep & Hdom & Hcl & _).
  - split; [|split; [done|split; [|split; [done|split]]]].
    + destruct Hs as [[? ?] HI]. split; [by split|]. cbn. rewrite Nat.sub_0_r.
      apply (inv_start _ _ _ _ _ _ g x); [done|done|done|done|lia|done|done|done].
    + intros h y y' ? ? ?. simplify_eq. auto.
    + intros x' l t _ _ Hl. by apply not_elem_of_nil in Hl.
    + exists x0. split; [apply lookup_insert_eq|]. intros l Hl _. destruct (Hlk l Hl) as [? ?]. split_and!; [done|apply Hun0|done].
  - intros done l rest st1 Hord (HG1 & Hrep1 & Hkeep1 & Hdom1 & Hcl1 & x1 & Hx1 & Hinv1).
    assert (l ∉ done) as Hld.
    { pose proof (NoDup_elements (dom tmp)) as Hnd. rewrite <-(ord_spec (dom tmp)), Hord in Hnd.
      apply NoDup_app in Hnd as (_ & Hnd & _). intros Hin. apply (Hnd l Hin). by left. }
    assert (l ∈ dom tmp) as Hdl. { apply elem_of_elements. rewrite <-ord_spec, Hord. set_solver. }
    pose proof Hdl as [t Ht]%elem_of_dom. destruct (Hinv1 l Hdl Hld) as (Hl1 & Hu1 & s & Hsl & Hnx).
    assert (length done < n)%nat as Hlt. { rewrite <-Hlen, Hord, length_app. cbn. lia. }
    destruct (request_ok _ ∅ st1 g x1 l s t (priority_ x0) HG1 Hx1 ltac:(rewrite fn_lookup_insert; lia) Hsl Hnx Hl1 Hu1)
      as (s' & i & evs & st2 & Hlock & Hst2 & HG2 & Hrep2 & Hlocks2 & Hun2 & Hkeep2 & Hdom2 & Hcl2 & x2 & Hx2 & _ & Hl2).
    exists st2. unfold lock_one, get_lock. rewrite Ht, Hsl. cbn [mbind result_bind]. rewrite Hlock. cbn [mbind result_bind]. split; [done|]. split_and!.
    + destruct HG2 as [? HI2]. split; [done|]. eapply Inv_todo; [|exact HI2]. intros h.
      destruct (decide (h = g)) as [-> |]; [|by rewrite !fn_lookup_insert_ne]. rewrite !fn_lookup_insert, length_app. cbn. lia.
    + intros h. by rewrite Hrep2.
    + by eapply keeps_trans.
    + auto.
    + intros x' l0 t0 Hx' Hu [Hl0| ->%list_elem_of_singleton]%elem_of_app Ht0; [|simplify_eq; by eapply Hcl2].
      destruct (Hkeep2 g x1 x' Hx1 Hx' Hu) as [Hu1' Hk]. apply Hk. by eapply Hcl1.
    + exists x2. split; [done|]. intros l0 Hl0 Hl0d. assert (l0 ≠ l ∧ l0 ∉ done) as [Hne0 Hnd0] by set_solver.
      destruct (Hinv1 l0 Hl0 Hnd0) as (Hl01 & Hu01 & s0 & Hs0 & Hnx0). split_and!; [by apply Hl2|by apply Hun2|].
      destruct (Hlocks2 l0 s0 Hne0 Hs0) as (s1 & Hs1 & E). exists s1. split; [done|lia].
  - exists st'. split; [done|]. split; [|split; [|split; [|split]]].
    + destruct HG as [? HI']. split; [done|]. eapply Inv_todo; [|exact HI']. intros h.
      destruct (decide (h = g)) as [-> |]; [|by rewrite fn_lookup_insert_ne]. rewrite fn_lookup_insert, Hlen. lia.
    + eapply keeps_trans; [|exact Hkeep|].
      * apply (keeps_set_group st g x x0 Hx). intros _. unfold unfailed. by destruct Hst as [-> | ->].
      * intros h Hh. cbn. destruct (decide (h = g)) as [-> |]; [rewrite lookup_insert_eq|rewrite lookup_insert_ne by done]; eauto.
    + intros h Hh. apply Hdom. cbn. destruct (decide (h = g)) as [-> |]; [rewrite lookup_insert_eq|rewrite lookup_insert_ne by done]; eauto.
    + intros x' l t Hx' Hu Ht. eapply Hcl; [done|done| |exact Ht]. rewrite ord_spec. apply elem_of_elements, elem_of_dom. by eexists.
    + intros h. rewrite Hrep. unfold replied, expects. cbn. destruct (decide (h = g)) as [-> |].
      * rewrite lookup_insert_eq, Hx, Hdb. cbn. lia.
      * rewrite lookup_insert_ne by done. lia.
Qed.
End system.
