(* ===== verification/GroupRuns.v ===== *)
(** * Two-phase locking with lock groups

    Sequences of client operations on groups and locks (src/rococo-dst/rrr/misc/alock.{hpp,cpp}):
    what holds after any of them, for every lock that keeps the promises of [ALock], and
    how groups of wait-die locks fail. *)

From S2P Require Import Prelude ALock WaitDie TimeoutLock ALockGroup GroupSpec.

Inductive gop :=
  | GNew (g p : Z)
  | GAdd (g l : Z) (t : type_t)
  | GLockAll (g : Z)
  | GUnlockAll (g : Z)
  | GTick (l d : Z).

Section client.
Context {S : Type} `{ALock S} (ord : gset Z → list Z).

Definition run_gop (st : System S) (o : gop) : result (System S) :=
  match o with
  | GNew g p => Done (set_group g (ALockGroup_new p) st)
  | GAdd g l t => add g l t st
  | GLockAll g => group_lock_all ord g st
  | GUnlockAll g => unlock_all ord g st
  | GTick l d => tick_lock ord l d st
  end.

(** What the client owes: a group is used in the order its status allows, and does not
    ask again for a lock it holds. *)
Definition open_status (x : ALockGroup) : bool :=
  bool_decide (group_status_ x = Group.INIT ∨ group_status_ x = Group.LOCK).

Definition can_lock (x : ALockGroup) (st : System S) (l : Z) : bool :=
  bool_decide (locked_ x !! l = None) &&
  match locks st !! l with Some s => bool_decide (alock_next s < MAX_REQ) | None => false end.

Definition allowed (st : System S) (o : gop) : bool :=
  match o with
  | GNew g _ => bool_decide (groups st !! g = None)
  | GAdd g _ _ => match groups st !! g with Some x => open_status x | None => false end
  | GLockAll g =>
      match groups st !! g with
      | Some x =>
          open_status x && bool_decide (tolock_ x ≠ ∅) && bool_decide (Z.of_nat (size (tolock_ x)) < 2 ^ 31) &&
          forallb (can_lock x st) (elements (dom (tolock_ x)))
      | None => false
      end
  | GUnlockAll g =>
      match groups st !! g with Some x => bool_decide (group_status_ x = Group.LOCK) | None => false end
  | GTick l d => bool_decide (is_Some (locks st !! l)) && bool_decide (0 ≤ d)
  end.

(** Every operation is allowed where it is called. *)
Fixpoint allowed_run (ops : list gop) (st : System S) : bool :=
  match ops with
  | [] => true
  | o :: ops => allowed st o && match run_gop st o with Done st' => allowed_run ops st' | _ => true end
  end.

(** The locks a group has asked for by [lock_all], with their types. *)
Definition asks (st : System S) (o : gop) (A : Z → Z → option type_t) : Z → Z → option type_t :=
  match o with
  | GLockAll g =>
      match groups st !! g with
      | Some x => λ h l, if decide (h = g) then match tolock_ x !! l with Some t => Some t | None => A h l end else A h l
      | None => A
      end
  | _ => A
  end.

Fixpoint run (ops : list gop) (st : System S) (A : Z → Z → option type_t)
  : result (System S * (Z → Z → option type_t)) :=
  match ops with
  | [] => Done (st, A)
  | o :: ops => st' ← run_gop st o; run ops st' (asks st o A)
  end.

Definition is_lock_all (g : Z) (o : gop) : bool :=
  match o with GLockAll h => bool_decide (h = g) | _ => false end.

Definition lock_alls (g : Z) (ops : list gop) : nat := length (filter (λ o, is_lock_all g o) ops).

(** Locks nobody uses, no groups. *)
Definition fresh_locks (L : gmap Z S) : Prop :=
  ∀ l s, L !! l = Some s → alock_wf s ∧ alock_view s = ∅.

End client.

Section runs.
Context {S : Type} `{LawfulALock S} (ord : gset Z → list Z) (ord_spec : ∀ X, ord X ≡ₚ elements X).

Abbreviation run_gop := (run_gop ord).
Abbreviation allowed_run := (allowed_run ord).
Abbreviation run := (run ord).

Definition asked_ok (A : Z → Z → option type_t) (st : System S) : Prop :=
  ∀ g l t, A g l = Some t → ∃ x, groups st !! g = Some x ∧ (unfailed x → claim st ∅ g l t).

Lemma start_stable L : fresh_locks L → Stable (mkSystem L ∅ ∅ []).
Proof.
  intros HL. assert (∀ l, vws (mkSystem L ∅ ∅ []) l = ∅) as HV.
  { intros l. unfold vws. cbn. destruct (L !! l) eqn:E; [|done]. by apply HL in E as [_ ?]. }
  split; [split; cbn|split; cbn].
  - intros l s Hs. by apply HL in Hs as [? _].
  - intros l i g Hg. by rewrite lookup_empty in Hg.
  - intros l i y Hy. by rewrite HV, lookup_empty in Hy.
  - intros k g Hg. by rewrite lookup_empty in Hg.
  - intros l i b Hb. by rewrite lookup_empty in Hb.
  - intros g x Hx. by rewrite lookup_empty in Hx.
  - intros g x l i Hx. by rewrite lookup_empty in Hx.
  - intros g x l i t Hx. by rewrite lookup_empty in Hx.
  - intros g x l i Hx. by rewrite lookup_empty in Hx.
Qed.

Lemma open_status_true x : open_status x = true → group_status_ x = Group.INIT ∨ group_status_ x = Group.LOCK.
Proof. apply bool_decide_eq_true_1. Qed.

Lemma lockable_true x st :
  bool_decide (tolock_ x ≠ ∅) && bool_decide (Z.of_nat (size (tolock_ x)) < 2 ^ 31) &&
    forallb (can_lock x st) (elements (dom (tolock_ x))) = true → lockable x st.
Proof.
  rewrite !andb_true_iff, forallb_forall. intros [[Hne%bool_decide_eq_true Hsz%bool_decide_eq_true] Hall].
  split_and!; [done..|]. intros l Hl%elem_of_elements%list_elem_of_In%Hall. unfold can_lock in Hl.
  apply andb_true_iff in Hl as [?%bool_decide_eq_true Hl]. split; [done|].
  destruct (locks st !! l) as [s|]; [|done]. apply bool_decide_eq_true in Hl. eauto.
Qed.

Lemma run_gop_ok st o :
  Stable st → allowed st o = true →
  ∃ st', run_gop st o = Done st' ∧ Stable st' ∧ keeps st st' ∧
    (∀ h, is_Some (groups st !! h) → is_Some (groups st' !! h)) ∧
    (∀ h, (replied st' h + expects st' h = replied st h + expects st h + if is_lock_all h o then 1 else 0)%nat) ∧
    (∀ g x x' l t, o = GLockAll g → groups st !! g = Some x → groups st' !! g = Some x' → unfailed x' →
       tolock_ x !! l = Some t → claim st' ∅ g l t).
Proof.
  intros Hs Ha. destruct o as [g p|g l t|g|g|l d]; cbn [allowed run_gop is_lock_all] in *.
  - apply bool_decide_eq_true in Ha. eexists. split; [done|]. split; [by apply new_group_ok|]. split_and!; [| | |done].
    + intros h x x' Hx. cbn. rewrite lookup_insert_ne by congruence. intros ? ?. simplify_eq. auto.
    + intros h [x Hx]. cbn. rewrite lookup_insert_ne by congruence. eauto.
    + intros h. unfold replied, expects. cbn. destruct (decide (h = g)) as [-> |].
      * rewrite lookup_insert_eq, Ha. cbn. lia.
      * rewrite lookup_insert_ne by done. lia.
  - destruct (groups st !! g) as [x|] eqn:Hx; [|done]. apply open_status_true in Ha as Hst. destruct (add_ok st g l t x Hs Hx Hst) as (st' & ? & ? & ? & ? & Hrep).
    exists st'. split_and!; [done..| |done]. intros h. rewrite Hrep. lia.
  - destruct (groups st !! g) as [x|] eqn:Hx; [|done]. rewrite <-!andb_assoc in Ha. apply andb_true_iff in Ha as [Hst%open_status_true Hlk].
    rewrite !andb_assoc in Hlk. apply lockable_true in Hlk.
    destruct (lock_all_ok ord ord_spec st g x Hs Hx Hst Hlk) as (st' & ? & ? & ? & ? & Hcl & Hrep).
    exists st'. split_and!; [done..| |].
    + intros h. rewrite Hrep. repeat case_decide; case_bool_decide; congruence || lia.
    + intros g' y x' l t [= <-] Hy. simplify_eq. apply Hcl.
  - destruct (groups st !! g) as [x|] eqn:Hx; [|done]. apply bool_decide_eq_true in Ha as Hst. destruct (unlock_all_ok ord ord_spec st g x Hs Hx Hst) as (st' & ? & ? & ? & ? & Hrep & _).
    exists st'. split_and!; [done..| |done]. intros h. rewrite Hrep. lia.
  - apply andb_true_iff in Ha as [[s Hl]%bool_decide_eq_true Hd%bool_decide_eq_true]. destruct (tick_lock_ok ord ord_spec st l s d Hs Hl Hd) as (st' & ? & ? & ? & ? & Hrep).
    exists st'. split_and!; [done..| |done]. intros h. rewrite Hrep. lia.
Qed.

Lemma run_ok ops st A :
  Stable st → asked_ok A st → allowed_run ops st = true →
  ∃ st' A', run ops st A = Done (st', A') ∧ Stable st' ∧ asked_ok A' st' ∧
    (∀ h, (replied st' h + expects st' h = replied st h + expects st h + lock_alls h ops)%nat).
Proof.
  revert st A. induction ops as [|o ops IH]; intros st A Hs HA Hall; cbn [run].
  - eexists _, _. split_and!; [done..|]. intros h. cbn. lia.
  - cbn in Hall. apply andb_true_iff in Hall as [Ha Hall]. destruct (run_gop_ok st o Hs Ha) as (st1 & Ho & Hs1 & Hk & Hd & Hrep & Hcl).
    rewrite Ho in Hall |- *. cbn [mbind result_bind]. destruct (IH st1 (asks st o A) Hs1) as (st' & A' & -> & ? & ? & Hrep'); [|auto|].
    + assert (∀ g l t, A g l = Some t → ∃ x, groups st1 !! g = Some x ∧ (unfailed x → claim st1 ∅ g l t)) as Hold.
      { intros g l t Hg. destruct (HA g l t Hg) as (x & Hx & Hc). destruct (Hd g ltac:(by eexists)) as [x1 Hx1].
        exists x1. split; [done|]. intros Hu. destruct (Hk g x x1 Hx Hx1 Hu) as [Hux Hkl]. auto. }
      intros g l t Hg. destruct o as [| |g0| |]; cbn [asks] in Hg; [by apply Hold..| |by apply Hold|by apply Hold].
      destruct (groups st !! g0) as [x0|] eqn:Hx0; [|by apply Hold]. case_decide as Hgg; [|by apply Hold]. subst g0.
      destruct (Hd g ltac:(by eexists)) as [x1 Hx1]. exists x1. split; [done|]. intros Hu.
      destruct (tolock_ x0 !! l) as [t0|] eqn:Et; [simplify_eq; by eapply Hcl|]. destruct (Hold g l t Hg) as (x2 & Hx2 & Hc2). simplify_eq. auto.
    + exists st', A'. split_and!; [done..|]. intros h. rewrite Hrep', Hrep. unfold lock_alls. rewrite filter_cons.
      destruct (is_lock_all h o); [rewrite decide_True by done|rewrite decide_False by (by intros [])]; cbn; lia.
Qed.

(** C11: whatever clients do within the protocol of groups, over any locks that keep
    the promises of the lock interface (locks with timeouts do; wait-die locks do not),
    every operation returns: no
    assertion fails and the nested callbacks end.  A group whose status is [LOCK]
    holds every lock it has asked for, in the mode it asked for; two such groups share
    a lock only for reading; a group that was turned down or has unlocked holds
    nothing; and every [lock_all] is answered exactly once, unless its group waits. *)
Theorem group_runs ops L :
  fresh_locks L → allowed_run ops (mkSystem L ∅ ∅ []) = true →
  ∃ st A, run ops (mkSystem L ∅ ∅ []) (λ _ _, None) = Done (st, A) ∧
    (∀ g x l t, groups st !! g = Some x → group_status_ x = Group.LOCK → A g l = Some t →
       ∃ i s, locked_ x !! l = Some i ∧ locks st !! l = Some s ∧ alock_view s !! i = Some (t, true)) ∧
    (∀ g h x y l t t', groups st !! g = Some x → groups st !! h = Some y → g ≠ h →
       group_status_ x = Group.LOCK → group_status_ y = Group.LOCK → A g l = Some t → A h l = Some t' →
       t = RLOCK ∧ t' = RLOCK) ∧
    (∀ g x l s i t, groups st !! g = Some x → ¬ active x → locks st !! l = Some s → owner st !! (l, i) = Some g →
       alock_view s !! i ≠ Some (t, true)) ∧
    (∀ g, (replied st g + expects st g = lock_alls g ops)%nat).
Proof.
  intros HL Hall. destruct (run_ok ops _ (λ _ _, None) (start_stable L HL)) as (st & A & Heq & Hs & HA & Hrep); [|done|].
  { intros g l t. done. }
  assert (∀ g x l t, groups st !! g = Some x → group_status_ x = Group.LOCK → A g l = Some t →
            ∃ i s, owner st !! (l, i) = Some g ∧ locked_ x !! l = Some i ∧ locks st !! l = Some s ∧
              alock_view s !! i = Some (t, true)) as Hhold.
  { intros g x l t Hx Hst Hg. destruct (HA g l t Hg) as (x' & Hx' & Hc). assert (x' = x) as -> by congruence.
    destruct Hc as (i & HO & [[b Hb]|HP]); [unfold unfailed; by rewrite Hst| |by rewrite lookup_empty in HP].
    pose proof (stable_db st g x Hs Hx (or_intror Hst)) as Hdb. destruct Hs as [Hlo HI].
    assert (b = true) as ->.
    { destruct b; [done|]. destruct (inv_idle _ _ _ _ _ _ g x (l, i) HI Hx Hdb HO). left. eauto. }
    destruct (inv_held _ _ _ _ _ _ HI g x l i t Hx Hb (lookup_empty _) HO) as [Hl _].
    unfold vws in Hb. destruct (locks st !! l) as [s|] eqn:Es; [|done]. exists i, s. done. }
  exists st, A. split_and!; [done| | | |].
  - intros g x l t Hx Hst Hg. destruct (Hhold g x l t Hx Hst Hg) as (i & s & _ & ? & ? & ?). eauto.
  - intros g h x y l t t' Hx Hy Hne Hst Hst' Hg Hh.
    destruct (Hhold g x l t Hx Hst Hg) as (i & s & HO & _ & Hls & Hv).
    destruct (Hhold h y l t' Hy Hst' Hh) as (j & s' & HO' & _ & Hls' & Hv'). assert (s' = s) as -> by congruence.
    apply (alock_compat s i j t t'); [by apply (lo_wf _ (proj1 Hs) l)|done|done|]. intros ->. congruence.
  - intros g x l s i t Hx Hact Hls HO Hv. destruct Hs as [Hlo HI].
    destruct (inv_held _ _ _ _ _ _ HI g x l i t Hx) as [_ [?|?]]; [unfold vws; by rewrite Hls|done|done|done|set_solver].
  - intros g. rewrite Hrep. unfold replied, expects. cbn. done.
Qed.
End runs.

(** Three groups over two locks with timeouts: two read lock 1, the second one also waits
    to write lock 2, which the first one holds, and the third one waits in vain to
    write lock 1. *)
Definition two_locks : gmap Z TimeoutALock := <[1 := TimeoutALock_new 100]> (<[2 := TimeoutALock_new 300]> ∅).

Definition three_groups : list gop :=
  [GNew 7 0; GNew 8 0; GNew 9 0; GAdd 7 1 RLOCK; GAdd 7 2 WLOCK; GAdd 8 1 RLOCK; GAdd 8 2 WLOCK; GAdd 9 1 WLOCK;
   GLockAll 7; GLockAll 8; GLockAll 9; GTick 2 200; GTick 1 200; GUnlockAll 7].

Lemma two_locks_fresh : fresh_locks two_locks.
Proof.
  assert (∀ tw, wf (TimeoutALock_new tw)) as Hnew.
  { intros tw. split; [|by split; [done|constructor]]. split; cbn; [unfold MAX_REQ; lia|lia|constructor..|].
    split; cbn; [intros aid tm rid; by rewrite lookup_empty|by intros r ?%not_elem_of_nil]. }
  intros l s Hs. unfold two_locks in Hs.
  apply lookup_insert_Some in Hs as [[_ <-]|[_ Hs]]; [split; [apply Hnew|done]|].
  apply lookup_insert_Some in Hs as [[_ <-]|[_ Hs]]; [split; [apply Hnew|done]|]. by rewrite lookup_empty in Hs.
Qed.

Lemma group_runs_witness :
  ∃ st A, run elements three_groups (mkSystem two_locks ∅ ∅ []) (λ _ _, None) = Done (st, A) ∧
    replies st = [(7, true); (9, false); (8, true)] ∧
    ∀ g, (replied st g + expects st g = lock_alls g three_groups)%nat.
Proof.
  destruct (group_runs elements (λ X, Permutation_refl _) three_groups two_locks) as (st & A & Heq & _ & _ & _ & Hrep).
  - apply two_locks_fresh.
  - vm_compute. reflexivity.
  - exists st, A. split; [exact Heq|]. split; [|exact Hrep]. vm_compute in Heq. by simplify_eq.
Defined.

(** Groups of wait-die locks.  Group 8 waits to read lock 1, which group 7 writes, and is
    turned away from lock 2, which group 6 holds. *)
Definition wd_locks : gmap Z WaitDieALock := <[1 := WaitDieALock_new]> (<[2 := WaitDieALock_new]> ∅).

Definition wd_groups : list gop :=
  [GNew 6 1; GNew 7 5; GNew 8 3; GAdd 6 2 WLOCK; GAdd 7 1 WLOCK; GAdd 8 1 RLOCK; GAdd 8 2 WLOCK;
   GLockAll 6; GLockAll 7; GLockAll 8; GUnlockAll 7].

(** When group 7 unlocks, [WaitDieALock::abort] lets the reader in; its callback is the last
    answer group 8 waits for, so group 8 gives lock 1 back at once, and the check
    behind the callback finds the lock free. *)
Theorem waitdie_late_check_fails :
  allowed_run elements wd_groups (mkSystem wd_locks ∅ ∅ []) = true ∧
  run elements wd_groups (mkSystem wd_locks ∅ ∅ []) (λ _ _, None) = Crash assert_failed.
Proof. split; vm_compute; reflexivity. Qed.
