(* ===== verification/Rcc.v ===== *)
(** * The ROCOCO server: start, finish and ask requests

    Models src/rococo-dst/deptran/rcc/rcc.cpp and rcc.hpp, the handlers of
    rcc_service.cc that call it, the dependency entries of dtxn.hpp and rcc_row.cpp,
    and DTxnMgr's table of transactions.

    A finish request joins the graph of its transaction into the server's graph and
    then waits in two rounds, each with a counter ([DragonBall]): until the undecided
    ancestors are finishing, then until the parents of the component are decided.  The
    waiting is all callbacks: [register_event] stores a counter at a vertex, [trigger]
    takes it out again, and a full counter runs its closure, which may call any of
    these functions again.  The nested calls are run here from an explicit stack of
    calls that have not returned yet ([task]): [do_task] runs the top one up to its
    next call and puts what remains of it below that call.

    The body of a piece is workload code.  Of a registered handler the server sees
    which columns it touches in phase 1 and whether it is deferred; that its phase 2
    has run is an entry of the log. *)

From S2P Require Import Prelude Graph GraphSearch.

Definition EDGE_D : Z := 1.
Definition EDGE_I : Z := 2.

(** ** Data *)

Record RequestHeader := mkHeader { h_tid : Z; h_pid : Z; h_t_type : Z; h_p_type : Z; h_timestamp : Z }.

Inductive defer_t := DF_REAL | DF_NO | DF_FAKE.

(** [txn_handler_defer_pair_t]; the handler as the (row, column, immediate) it kisses. *)
Record handler := mkHandler { hd_defer : defer_t; hd_kiss : list (Z * Z * bool) }.

(** [RCCDTxn] *)
Record RCCDTxn := mkDTxn {
  phase_ : Z;
  dreqs_ : list RequestHeader;
  conflict_txns_ : list Z;
  read_only_ : bool;
}.

(** The fields of [TxnInfo] that only the server uses; [res] is whether the pointer
    is set. *)
Record local_info := mkLocal { committed_ : bool; during_commit : bool; during_asking : bool; res_ : bool }.

Definition local_new : local_info := mkLocal false false false false.
Definition set_committed (x : local_info) := mkLocal true (during_commit x) (during_asking x) (res_ x).
Definition set_during_commit (x : local_info) := mkLocal (committed_ x) true (during_asking x) (res_ x).
Definition set_during_asking (x : local_info) := mkLocal (committed_ x) (during_commit x) true (res_ x).
Definition set_res (x : local_info) := mkLocal (committed_ x) (during_commit x) (during_asking x) true.

(** What a full counter does: [anc_finish_cb] and [scc_anc_commit_cb] of [to_decide],
    the callbacks of [rcc_ask_txn] and [start_ro].  A [defer] is the reply to send. *)
Inductive wish :=
  | AncFinish (v : Z) (defer : option Z)
  | SccAncCommit (v : Z) (defer : option Z)
  | AskReply (tid defer : Z)
  | RoReply (defer : Z).

Record DragonBall := mkBall { n_wait_ : Z; n_ready_ : Z; wish_ : wish }.

(** What the server does to the outside.  [Decided v ps] is the commit of [v]: with
    [Some ps] its deferred pieces [ps] were run, with [None] there was no finish
    request to run them for. *)
Inductive action :=
  | Immediate (tid pid : Z)
  | Started (tid pid : Z) (deferred : bool) (gra : gset Z)
  | Decided (tid : Z) (pieces : option (list Z))
  | Reply (defer : Z)
  | Asked (sid tid : Z)
  | Answered (defer : Z) (gra : gset Z).

Record Server := mkServer {
  txn_gra : Graph;
  local : gmap Z local_info;
  balls : gmap Z DragonBall;
  next_ball : Z;
  cells : gmap (Z * Z) Z;
  dtxns : gmap Z RCCDTxn;
  server_read_ts : Z;
  log : list action;
}.

Definition Server_new : Server := mkServer ∅ ∅ ∅ 0 ∅ ∅ 0 [].

Definition set_gra (g : Graph) (s : Server) : Server :=
  mkServer g (local s) (balls s) (next_ball s) (cells s) (dtxns s) (server_read_ts s) (log s).
Definition local_at (s : Server) (v : Z) : local_info := default local_new (local s !! v).
Definition set_local (v : Z) (f : local_info → local_info) (s : Server) : Server :=
  mkServer (txn_gra s) (<[v := f (local_at s v)]> (local s)) (balls s) (next_ball s) (cells s) (dtxns s)
    (server_read_ts s) (log s).
Definition set_balls (m : gmap Z DragonBall) (n : Z) (s : Server) : Server :=
  mkServer (txn_gra s) (local s) m n (cells s) (dtxns s) (server_read_ts s) (log s).
Definition set_cells (m : gmap (Z * Z) Z) (s : Server) : Server :=
  mkServer (txn_gra s) (local s) (balls s) (next_ball s) m (dtxns s) (server_read_ts s) (log s).
Definition set_dtxns (m : gmap Z RCCDTxn) (s : Server) : Server :=
  mkServer (txn_gra s) (local s) (balls s) (next_ball s) (cells s) m (server_read_ts s) (log s).
Definition set_read_ts (ts : Z) (s : Server) : Server :=
  mkServer (txn_gra s) (local s) (balls s) (next_ball s) (cells s) (dtxns s) ts (log s).
Definition emit (a : action) (s : Server) : Server :=
  mkServer (txn_gra s) (local s) (balls s) (next_ball s) (cells s) (dtxns s) (server_read_ts s) (log s ++ [a]).

Definition set_txn (v : Z) (d : TxnInfo) (s : Server) : Server := set_gra (alter (set_data d) v (txn_gra s)) s.

(** [new DragonBall(n, wish)]; the constructor takes an [int32_t]. *)
Definition new_ball (n : Z) (w : wish) (s : Server) : Server * Z :=
  (set_balls (<[next_ball s := mkBall (i32 n) 0 w]> (balls s)) (next_ball s + 1) s, next_ball s).

(** ** The stack of calls *)

Inductive task :=
  | TTrigger (v k : Z)             (* [TxnInfo::trigger] of [v], from the key [k] of [events_] on *)
  | TRegister (v status ball : Z)  (* [TxnInfo::register_event] *)
  | TBall (ball : Z)               (* [DragonBall::trigger] *)
  | TDecide (v : Z) (defer : option Z)
  | TAsk (v : Z)                   (* [send_ask_req] *)
  | TReply (defer : option Z).

(** The next key of [std::map<int8_t, _>] from [k] on. *)
Definition next_key (m : gmap Z (list Z)) (k : Z) : option Z :=
  head (filter (λ i, is_Some (m !! i)) (seqZ k (128 - k))).

Section server.
Context (site_id : Z) (ord : gset Z → list Z) (columns : Z → Z) (registry : Z * Z → option handler).

Definition data (s : Server) (v : Z) : result TxnInfo := x ← vertex (txn_gra s) v; Done (v_data x).

(** One round of the loops of [TxnInfo::trigger]. *)
Definition trigger_task (v k : Z) (s : Server) : result (Server * list task) :=
  d ← data s v;
  match next_key (events_ d) k with
  | None => Done (s, [])
  | Some k =>
      match last (default [] (events_ d !! k)) with
      | Some b =>
          if decide (k ≤ status_ d) then
            Done (set_txn v (set_events (<[k := removelast (default [] (events_ d !! k))]> (events_ d)) d) s,
                  [TBall b; TTrigger v k])
          else Done (s, [TTrigger v (k + 1)])
      | None => Done (s, [TTrigger v (k + 1)])
      end
  end.

Definition register_task (v st b : Z) (s : Server) : result (Server * list task) :=
  d ← data s v;
  if decide (st ≤ status_ d) then Done (s, [TBall b])
  else Done (set_txn v (set_events (<[st := default [] (events_ d !! st) ++ [b]]> (events_ d)) d) s, []).

(** [RCCDTxn::exe_deferred] *)
Definition get_handler (h : RequestHeader) : result handler :=
  match registry (h_t_type h, h_p_type h) with Some x => Done x | None => Crash assert_failed end.

Definition exe_deferred (tid : Z) (t : RCCDTxn) : result (list Z) :=
  _ ← verify (bool_decide (phase_ t = 1));
  for_each (λ ps h,
    _ ← get_handler h;
    _ ← verify (bool_decide (h_tid h = tid));
    Done (ps ++ [h_pid h])) (dreqs_ t) [].

(** [DTxnMgr::get] *)
Definition get_dtxn (tid : Z) (s : Server) : result RCCDTxn :=
  match dtxns s !! tid with Some t => Done t | None => Crash assert_failed end.

(** The commit of one member of a component, in [scc_anc_commit_cb]; [destroy] ends
    the transaction object.  When that object is the one whose [this] the closure has
    captured, the next rounds of the loop read [mgr_] through freed memory; there is one
    manager for all transactions of a server, and the model takes it to be read as
    before. *)
Definition decide_txn (s : Server) (v : Z) : result Server :=
  d ← data s v;
  if decide (Z.land (status_ d) TXN_DCD ≠ 0) then Done s
  else
    '(s, ps) ← (if res_ (local_at s v) then
                  t ← get_dtxn v s;
                  ps ← exe_deferred v t;
                  Done (set_dtxns (delete v (dtxns s)) s, Some ps)
                else Done (s, None));
    _ ← verify (negb (committed_ (local_at s v)));
    let s := set_local v set_committed s in
    let s := set_txn v (union_status site_id d TXN_DCD false false).1 s in
    Done (emit (Decided v ps) s).

Definition ask_tasks (b st : Z) (anc : gset Z) : list task :=
  ord anc ≫= λ u, [TRegister u st b; TAsk u].

(** The closures of the counters. *)
Definition do_wish (w : wish) (s : Server) : result (Server * list task) :=
  match w with
  | AncFinish v defer =>
      scc_anc ← find_txn_scc_nearest_anc ord (txn_gra s) v ∅;
      let '(s, b) := new_ball (Z.of_nat (size scc_anc) + 1) (SccAncCommit v defer) s in
      Done (s, ask_tasks b TXN_DCD scc_anc ++ [TBall b])
  | SccAncCommit v defer =>
      d ← data s v;
      if is_commit d then Done (s, [TReply defer])
      else
        sscc ← sorted_scc ord (txn_gra s) v [];
        s ← for_each decide_txn sscc s;
        Done (s, ((λ u, TTrigger u (-128)) <$> sscc) ++ [TReply defer])
  | AskReply tid defer =>
      '(gra, _) ← sub_txn_graph ord (txn_gra s) tid ∅;
      Done (emit (Answered defer gra) s, [])
  | RoReply defer => Done (emit (Reply defer) s, [])
  end.

(** [DragonBall::trigger]; the counter is freed after its wish, which nothing can
    reach any more: it is freed before it here. *)
Definition ball_task (b : Z) (s : Server) : result (Server * list task) :=
  match balls s !! b with
  | None => Crash invalid_access
  | Some x =>
      let n_ready := n_ready_ x + 1 in
      _ ← verify (bool_decide (n_ready ≤ n_wait_ x));
      if decide (n_ready = n_wait_ x) then do_wish (wish_ x) (set_balls (delete b (balls s)) (next_ball s) s)
      else Done (set_balls (<[b := mkBall (n_wait_ x) n_ready (wish_ x)]> (balls s)) (next_ball s) s, [])
  end.

(** [RCCDTxn::to_decide] *)
Definition decide_task (v : Z) (defer : option Z) (s : Server) : result (Server * list task) :=
  _ ← vertex (txn_gra s) v;
  if during_commit (local_at s v) then Done (s, [])
  else
    let s := set_local v set_during_commit s in
    anc ← find_txn_anc_opt ord (txn_gra s) v ∅;
    let '(s, b) := new_ball (Z.of_nat (size anc) + 1) (AncFinish v defer) s in
    Done (s, ask_tasks b TXN_CMT anc ++ [TBall b]).

(** [RCCDTxn::send_ask_req]; [random_server] returns the first of the set. *)
Definition random_server (d : TxnInfo) : result Z :=
  match merge_sort Z.le (elements (servers_ d)) with sid :: _ => Done sid | [] => Crash assert_failed end.

Definition ask_task (v : Z) (s : Server) : result (Server * list task) :=
  d ← data s v;
  if is_involved site_id d then Done (s, [])
  else if is_commit d then Done (s, [])
  else if is_finish d then Done (s, [TDecide v None])
  else if during_asking (local_at s v) then Done (s, [])
  else
    sid ← random_server d;
    Done (emit (Asked sid v) (set_local v set_during_asking s), []).

Definition do_task (t : task) (s : Server) : result (Server * list task) :=
  match t with
  | TTrigger v k => trigger_task v k s
  | TRegister v st b => register_task v st b s
  | TBall b => ball_task b s
  | TDecide v defer => decide_task v defer s
  | TAsk v => ask_task v s
  | TReply (Some d) => Done (emit (Reply d) s, [])
  | TReply None => Done (s, [])
  end.

Fixpoint run_tasks (fuel : nat) (ts : list task) (s : Server) : result Server :=
  match ts with
  | [] => Done s
  | t :: ts =>
      match fuel with
      | O => Spin
      | S fuel =>
          '(s, new) ← do_task t s;
          run_tasks fuel (new ++ ts) s
      end
  end.
End server.

(** ** The number of steps left

    Every call on the stack, every stored counter and every vertex that is not yet
    being committed pays for the calls it can still cause; [run_tasks] gets as many
    steps as that. *)
Definition scc_cost (n : nat) : nat := 258 * n + 1.
Definition anc_cost (n : nat) : nat := 8 * n + 2 + scc_cost n.
Definition decide_cost (n : nat) : nat := 8 * n + 2 + anc_cost n.

Definition task_cost (t : task) : nat :=
  match t with
  | TTrigger _ k => 2 + Z.to_nat (128 - k)
  | TRegister _ _ _ => 5
  | TBall _ => 2
  | TDecide _ _ => 1
  | TAsk _ => 3
  | TReply _ => 1
  end.

Definition ball_cost (n : nat) (x : DragonBall) : nat :=
  match wish_ x with AncFinish _ _ => anc_cost n | SccAncCommit _ _ => scc_cost n | _ => 1 end.

Definition n_events (d : TxnInfo) : nat := msum (λ _ l, length l) (events_ d).

Definition vertex_cost (n : nat) (s : Server) (v : Z) (x : Vertex) : nat :=
  3 * n_events (v_data x) + if during_commit (local_at s v) then 0 else decide_cost n.

Definition cost (s : Server) (ts : list task) : nat :=
  let n := size (txn_gra s) in
  sum_list_with task_cost ts + msum (λ _, ball_cost n) (balls s) + msum (vertex_cost n s) (txn_gra s).

(** ** Requests *)

Section requests.
Context (site_id : Z) (ord : gset Z → list Z) (columns : Z → Z) (registry : Z * Z → option handler).

Definition run_all (ts : list task) (s : Server) : result Server :=
  run_tasks site_id ord registry (cost s ts) ts s.

(** [RCCRow::get_dep_entry]; [columns] is [schema_->columns_count()], of type
    [size_t], so that the comparison takes the column as unsigned. *)
Definition get_dep_entry (r col : Z) : result (Z * Z) :=
  _ ← verify (bool_decide (u64 col < columns r)); Done (r, col).

(** [RCCDTxn::kiss]; [entry->last_] is [cells]. *)
Definition add_conflict (tid l : Z) (s : Server) : Server :=
  set_dtxns (alter (λ t, mkDTxn (phase_ t) (dreqs_ t) (conflict_txns_ t ++ [l]) (read_only_ t)) tid (dtxns s)) s.

Definition kiss (tid : Z) (ro : bool) (s : Server) (rci : Z * Z * bool) : result Server :=
  let '(r, col, immediate) := rci in
  entry ← get_dep_entry r col;
  if ro then
    match cells s !! entry with
    | Some l => Done (add_conflict tid l s)
    | None => Done s
    end
  else
    let edge_type := if immediate : bool then EDGE_I else EDGE_D in
    match cells s !! entry with
    | Some l => Done (set_gra (or_edge l tid edge_type (txn_gra s)) s)
    | None => Done (set_cells (<[entry := tid]> (cells s)) s)
    end.

(** [DTxnMgr::get_or_create] *)
Definition get_or_create (tid : Z) (ro : bool) (s : Server) : Server :=
  match dtxns s !! tid with
  | Some _ => s
  | None => set_dtxns (<[tid := mkDTxn 0 [] [] ro]> (dtxns s)) s
  end.

(** [RCCDTxn::start], around the run of the handler, which touches columns through the
    virtual [kiss]. *)
Definition start_begin (h : RequestHeader) (s : Server) : result (Server * bool * handler) :=
  let tid := h_tid h in
  let timestamp := Z.max (server_read_ts s) (u64 (h_timestamp h)) in
  let s := set_gra (start_pie_txn site_id (txn_gra s) tid timestamp) s in
  t ← get_dtxn tid s;
  _ ← verify (bool_decide (phase_ t ≤ 1));
  x ← get_handler registry h;
  let dreqs := match hd_defer x with DF_NO => dreqs_ t | _ => dreqs_ t ++ [h] end in
  Done (set_dtxns (<[tid := mkDTxn 1 dreqs (conflict_txns_ t) (read_only_ t)]> (dtxns s)) s, read_only_ t, x).

Definition start_end (h : RequestHeader) (x : handler) (s : Server) : Server * bool :=
  match hd_defer x with
  | DF_REAL => (s, true)
  | _ => (emit (Immediate (h_tid h) (h_pid h)) s, false)
  end.

Definition start (h : RequestHeader) (s : Server) : result (Server * bool) :=
  '(s, ro, x) ← start_begin h s;
  s ← for_each (kiss (h_tid h) ro) (hd_kiss x) s;
  Done (start_end h x s).

(** [RococoServiceImpl::rcc_start_pie] *)
Definition rcc_start_pie (h : RequestHeader) (s : Server) : result Server :=
  let s := get_or_create (h_tid h) false s in
  '(s, deferred) ← start h s;
  '(gra, _) ← sub_txn_graph ord (txn_gra s) (h_tid h) ∅;
  Done (emit (Started (h_tid h) (h_pid h) deferred gra) s).

(** [Graph::union_graph] of a received graph, with the triggers at its end. *)
Definition join_graph (gra : Graph) (s : Server) : result Server :=
  _ ← verify (bool_decide (gra ≠ ∅));
  let s := set_gra (foldl (union_vertex site_id ord gra true) (txn_gra s) (ord (dom gra))) s in
  run_all ((λ u, TTrigger u (-128)) <$> ord (dom gra)) s.

(** [RCCDTxn::commit] *)
Definition commit (tid timestamp : Z) (gra : Graph) (defer : Z) (s : Server) : result Server :=
  s ← join_graph gra s;
  let s := set_read_ts (Z.max (server_read_ts s) (u64 timestamp)) s in
  d ← data s tid;
  let s := set_local tid set_res s in
  let s := set_txn tid (union_status site_id d TXN_CMT false false).1 s in
  run_all [TTrigger tid (-128); TDecide tid (Some defer)] s.

(** [RococoServiceImpl::rcc_finish_txn] *)
Definition rcc_finish_txn (tid timestamp : Z) (gra : Graph) (defer : Z) (s : Server) : result Server :=
  _ ← verify (bool_decide (gra ≠ ∅));
  _ ← get_dtxn tid s;
  commit tid timestamp gra defer s.

(** [RococoServiceImpl::rcc_ask_txn] *)
Definition rcc_ask_txn (tid defer : Z) (s : Server) : result Server :=
  let '(s, b) := new_ball 2 (AskReply tid defer) s in
  d ← data s tid;
  _ ← verify (is_involved site_id d);
  run_all [TRegister tid TXN_CMT b; TBall b] s.

(** The callback of [send_ask_req]: the answer of another server. *)
Definition ask_answer (av : Z) (gra : Graph) (s : Server) : result Server :=
  s ← join_graph gra s;
  run_all [TDecide av None] s.

(** [RCCDTxn::start_ro] and [RococoServiceImpl::rcc_ro_start_pie] *)
Definition start_ro (h : RequestHeader) (defer : Z) (s : Server) : result Server :=
  let tid := h_tid h in
  t ← get_dtxn tid s;
  x ← get_handler registry h;
  let s := set_dtxns (<[tid := mkDTxn 1 (dreqs_ t) [] (read_only_ t)]> (dtxns s)) s in
  s ← for_each (kiss tid (read_only_ t)) (hd_kiss x) s;
  t ← get_dtxn tid s;
  let '(s, b) := new_ball (Z.of_nat (length (conflict_txns_ t)) + 1) (RoReply defer) s in
  run_all (((λ u, TRegister u TXN_DCD b) <$> conflict_txns_ t) ++ [TBall b]) s.

Definition rcc_ro_start_pie (h : RequestHeader) (defer : Z) (s : Server) : result Server :=
  start_ro h defer (get_or_create (h_tid h) true s).

(** ** Sequences of requests *)

Inductive request :=
  | Start (h : RequestHeader)
  | Finish (tid timestamp : Z) (gra : Graph) (defer : Z)
  | Ask (tid defer : Z)
  | Answer (av : Z) (gra : Graph)
  | RoStart (h : RequestHeader) (defer : Z).

Definition serve (s : Server) (r : request) : result Server :=
  match r with
  | Start h => rcc_start_pie h s
  | Finish tid ts gra defer => rcc_finish_txn tid ts gra defer s
  | Ask tid defer => rcc_ask_txn tid defer s
  | Answer av gra => ask_answer av gra s
  | RoStart h defer => rcc_ro_start_pie h defer s
  end.

Definition serve_all (rs : list request) : result Server := for_each serve rs Server_new.
End requests.

(** ** Examples *)

Definition touch (k : Z) : handler := mkHandler DF_REAL [(k, 0, false)].
Definition demo_registry (k : Z * Z) : option handler := if decide (k.1 = 0) then Some (touch k.2) else None.
Definition demo_serve := serve_all 1 elements (λ _, 1) demo_registry.
Definition piece (tid pid row : Z) : request := Start (mkHeader tid pid 0 row 0).
