(* ===== verification/RccInv.v ===== *)
(** * The ROCOCO server: the invariant and the steps that keep it

    What holds of the state of Rcc.v between two calls on its stack.  [Inv] has five
    parts: the graph ([GraphOk]), the counters against the places they are stored at
    ([BallsOk]), the decisions against the log and the table of transactions
    ([DecideOk]), the calls on the stack ([task_ok]) and the waiting ([WaitOk]): who
    waits for whom has no cycle, because a transaction only waits for vertices that
    reach it and that it does not reach, and edges are never removed. *)

From S2P Require Import Prelude Graph GraphSearch Tarjan SccSort Rcc.

(** ** Reading the data of a vertex *)

Definition stat (g : Graph) (u : Z) : Z := default 0 (status_ <$> data_at g u).
Definition ev (g : Graph) (u k : Z) : list Z := default [] (data_at g u ≫= λ d, events_ d !! k).
Definition servs (g : Graph) (u : Z) : gset Z := default ∅ (servers_ <$> data_at g u).

(** Statuses are combinations of STD, CMT and DCD. *)
Definition status_ok (d : TxnInfo) : Prop := 0 ≤ status_ d < 8.

Lemma status_cases z : 0 ≤ z < 8 → z = 0 ∨ z = 1 ∨ z = 2 ∨ z = 3 ∨ z = 4 ∨ z = 5 ∨ z = 6 ∨ z = 7.
Proof. lia. Qed.

Ltac status_cases H := apply status_cases in H; destruct_or? H; rewrite ?H in *.

Lemma is_commit_ge d : status_ok d → is_commit d = true ↔ TXN_DCD ≤ status_ d.
Proof. unfold status_ok, is_commit, TXN_DCD. intros H. status_cases H; vm_compute; split; intros; (done || congruence). Qed.

Lemma is_commit_land d : is_commit d = true ↔ Z.land (status_ d) TXN_DCD ≠ 0.
Proof. unfold is_commit. by rewrite bool_decide_eq_true. Qed.

Lemma is_finish_ge d : status_ok d → is_finish d = false → is_commit d = false → status_ d < TXN_CMT.
Proof. unfold status_ok, is_finish, is_commit, TXN_CMT. intros H. status_cases H; vm_compute; intros; (done || congruence). Qed.

Lemma status_lor a b : 0 ≤ a < 8 → 0 ≤ b < 8 → 0 ≤ Z.lor a b < 8 ∧ a ≤ Z.lor a b ∧ b ≤ Z.lor a b.
Proof. intros Ha Hb. status_cases Ha; status_cases Hb; vm_compute; repeat split; congruence. Qed.

Lemma lor_DCD_finish d : status_ok d → is_finish (set_status (Z.lor (status_ d) TXN_DCD) d) = is_finish d.
Proof. unfold status_ok, is_finish. intros H. cbn. status_cases H; done. Qed.

Lemma lor_DCD_commit d : status_ok d → is_commit (set_status (Z.lor (status_ d) TXN_DCD) d) = true.
Proof. unfold status_ok, is_commit. intros H. cbn. status_cases H; done. Qed.

Lemma lor_CMT_commit d : status_ok d → is_commit (set_status (Z.lor (status_ d) TXN_CMT) d) = is_commit d.
Proof. unfold status_ok, is_commit. intros H. cbn. status_cases H; done. Qed.

(** ** Changing the data of a vertex *)

Section upd.
Context (g : Graph) (v : Z) (d0 d : TxnInfo) (Hv : data_at g v = Some d0).

Lemma upd_insert : ∃ x, g !! v = Some x ∧ v_data x = d0 ∧ alter (set_data d) v g = <[v := set_data d x]> g.
Proof using Hv.
  unfold data_at in Hv. destruct (g !! v) as [x|] eqn:Hx; [|done]. exists x. cbn in Hv. split; [done|]. split; [congruence|].
  apply map_eq. intros i. destruct (decide (v = i)) as [<-|Hne].
  - by rewrite lookup_alter_eq, lookup_insert_eq, Hx.
  - by rewrite lookup_alter_ne, lookup_insert_ne.
Qed.

Lemma upd_data u : data_at (alter (set_data d) v g) u = if decide (u = v) then Some d else data_at g u.
Proof using Hv.
  destruct upd_insert as (x & Hx & _ & ->). rewrite data_at_insert. repeat case_decide; congruence || done.
Qed.

Lemma upd_out u w : out_e (alter (set_data d) v g) u w = out_e g u w.
Proof using Hv. destruct upd_insert as (x & Hx & _ & ->). by apply out_e_set_data. Qed.

Lemma upd_dom : dom (alter (set_data d) v g) = dom g.
Proof. apply dom_alter_L. Qed.

Lemma upd_wf : graph_wf g → txn_id_ d = txn_id_ d0 → graph_wf (alter (set_data d) v g).
Proof using Hv.
  intros Hg Hid. destruct upd_insert as (x & Hx & Hd & ->). apply graph_wf_set_data; [done..|].
  rewrite Hid. by apply (gw_id g Hg).
Qed.

Lemma upd_sum f :
  (msum (λ _ x, f (v_data x)) (alter (set_data d) v g) + f d0 = msum (λ _ x, f (v_data x)) g + f d)%nat.
Proof using Hv.
  destruct upd_insert as (x & Hx & Hd & ->). pose proof (msum_insert (λ _ x, f (v_data x)) g v x (set_data d x) Hx) as H.
  cbn in H. by rewrite Hd in H.
Qed.
End upd.

(** Edges decide the searches. *)
Lemma edge_out g u w : edge g u w ↔ is_Some (out_e g u w).
Proof.
  unfold edge, children, out_e. destruct (g !! u) as [x|]; cbn; [by rewrite elem_of_dom|].
  split; [by intros ?%elem_of_empty|by intros [? ?]].
Qed.

Lemma reach_mono g g' u w :
  (∀ x y, is_Some (out_e g x y) → is_Some (out_e g' x y)) → rtc (edge g) u w → rtc (edge g') u w.
Proof. intros He. apply rtc_subrel. intros x y. rewrite !edge_out. apply He. Qed.

(** ** Counting the places of a counter *)

Definition occ (b : Z) (l : list Z) : nat := sum_list_with (λ c, if decide (c = b) then 1%nat else 0%nat) l.

Lemma occ_elem b l : occ b l ≠ 0%nat ↔ b ∈ l.
Proof.
  induction l as [|c l IH]; cbn; [by rewrite elem_of_nil|]. rewrite elem_of_cons, <-IH. unfold occ.
  case_decide; split; intros; (lia || naive_solver lia).
Qed.

Lemma occ_app b l k : occ b (l ++ k) = (occ b l + occ b k)%nat.
Proof. unfold occ. by rewrite sum_list_with_app. Qed.

Lemma occ_last b l c : last l = Some c → occ b l = (occ b (removelast l) + if decide (c = b) then 1 else 0)%nat.
Proof.
  intros (k & ->)%last_Some. rewrite removelast_app by done. cbn [removelast]. rewrite app_nil_r, occ_app. cbn. lia.
Qed.

Definition d_tokens (b : Z) (d : TxnInfo) : nat := msum (λ _ l, occ b l) (events_ d).
Definition g_tokens (b : Z) (g : Graph) : nat := msum (λ _ x, d_tokens b (v_data x)) g.
Definition t_tokens (b : Z) (t : task) : nat :=
  match t with TBall c | TRegister _ _ c => if decide (c = b) then 1 else 0 | _ => 0 end.
Definition tokens (b : Z) (g : Graph) (ts : list task) : nat := g_tokens b g + sum_list_with (t_tokens b) ts.

Lemma d_tokens_elem b d : d_tokens b d ≠ 0%nat → ∃ k, b ∈ default [] (events_ d !! k).
Proof. intros (k & l & Hl & Ho)%msum_pos. exists k. rewrite Hl. by apply occ_elem. Qed.

Lemma d_tokens_insert b d k l :
  (d_tokens b (set_events (<[k := l]> (events_ d)) d) + occ b (default [] (events_ d !! k)) = d_tokens b d + occ b l)%nat.
Proof. unfold d_tokens. cbn. by apply (msum_insert_default (λ _ l, occ b l)). Qed.

Lemma g_tokens_elem b g : g_tokens b g ≠ 0%nat → ∃ u k, b ∈ ev g u k.
Proof.
  intros (u & x & Hx & Ho)%msum_pos. apply d_tokens_elem in Ho as [k Hk]. exists u, k. unfold ev, data_at. by rewrite Hx.
Qed.

Lemma ev_tokens b g u k : b ∈ ev g u k → g_tokens b g ≠ 0%nat.
Proof.
  unfold ev, data_at. intros Hb Hz. destruct (g !! u) as [x|] eqn:Hx; cbn in Hb; [|by apply not_elem_of_nil in Hb].
  pose proof (proj1 (msum_zero _ _) Hz u x Hx) as Hz'. cbn in Hz'. destruct (events_ (v_data x) !! k) as [l|] eqn:Hl; cbn in Hb.
  - pose proof (proj1 (msum_zero _ _) Hz' k l Hl) as Hk. cbn in Hk. by apply occ_elem in Hb.
  - by apply not_elem_of_nil in Hb.
Qed.

Lemma t_tokens_elem b ts :
  sum_list_with (t_tokens b) ts ≠ 0%nat → TBall b ∈ ts ∨ ∃ u k, TRegister u k b ∈ ts.
Proof.
  induction ts as [|t ts IH]; cbn; [done|]. intros Hs. destruct (decide (t_tokens b t = 0%nat)) as [Hz|Hz].
  - destruct IH as [?|(u & k & ?)]; [lia|left; by right|right; exists u, k; by right].
  - destruct t; cbn in Hz; try done; case_decide; simplify_eq; [right; eexists _, _; by left|left; by left].
Qed.

Lemma task_register_tokens b u k ts : TRegister u k b ∈ ts → sum_list_with (t_tokens b) ts ≠ 0%nat.
Proof.
  intros (l & r & ->)%list_elem_of_split. rewrite sum_list_with_app. cbn. rewrite decide_True by done. lia.
Qed.

(** ** The invariant *)

Definition decided_id (a : action) : option Z := match a with Decided v _ => Some v | _ => None end.
Definition decided_ids (l : list action) : list Z := omap decided_id l.

Definition wish_ok (g : Graph) (w : wish) : Prop :=
  match w with AncFinish v _ | SccAncCommit v _ | AskReply v _ => v ∈ dom g | RoReply _ => True end.

(** A counter of [v] in one of the two rounds; the status each round waits for. *)
Definition waits_as (v : Z) (w : wish) : Prop := ∃ d, w = AncFinish v d ∨ w = SccAncCommit v d.
Definition key_ok (w : wish) (k : Z) : Prop :=
  match w with AncFinish _ _ => k = TXN_CMT | SccAncCommit _ _ => k = TXN_DCD | _ => True end.

Definition task_ok (g : Graph) (t : task) : Prop :=
  match t with
  | TTrigger v _ | TDecide v _ | TAsk v => v ∈ dom g
  | TRegister v st _ => v ∈ dom g ∧ (st = TXN_CMT ∨ st = TXN_DCD)
  | _ => True
  end.

Definition finishing (g : Graph) (u : Z) : Prop := ∃ d, data_at g u = Some d ∧ is_finish d = true.

(** Counter [b] is stored at [u] for status [k], or is about to be. *)
Definition placed (g : Graph) (ts : list task) (u k b : Z) : Prop := b ∈ ev g u k ∨ TRegister u k b ∈ ts.

(** [v] waits for the decision of [u]. *)
Definition waits (s : Server) (ts : list task) (v u : Z) : Prop :=
  ∃ b x d, balls s !! b = Some x ∧ wish_ x = SccAncCommit v d ∧ placed (txn_gra s) ts u TXN_DCD b.

Record GraphOk (g : Graph) : Prop := {
  go_wf : graph_wf g;
  go_status u d : data_at g u = Some d → status_ok d;
  go_keys u d k : data_at g u = Some d → is_Some (events_ d !! k) → k = TXN_CMT ∨ k = TXN_DCD;
  go_servers u d : data_at g u = Some d → servers_ d ≠ ∅;
  go_size : Z.of_nat (size g) < 2 ^ 31 - 1;
}.

Record BallsOk (g : Graph) (ts : list task) (m : gmap Z DragonBall) (next : Z) : Prop := {
  bo_tokens b : Z.of_nat (tokens b g ts) = from_option (λ x, n_wait_ x - n_ready_ x) 0 (m !! b);
  bo_live b x : m !! b = Some x → n_ready_ x < n_wait_ x ∧ b < next ∧ wish_ok g (wish_ x);
}.

Section inv.
Context (site_id : Z) (ord : gset Z → list Z) (Hord : ∀ s, ord s ≡ₚ elements s).
Context (registry : Z * Z → option handler).

Definition dtxn_ok (v : Z) (t : RCCDTxn) : Prop :=
  phase_ t = 1 ∧ Forall (λ h, h_tid h = v ∧ is_Some (registry (h_t_type h, h_p_type h))) (dreqs_ t).

Record DecideOk (s : Server) : Prop := {
  do_committed v : committed_ (local_at s v) = true → TXN_DCD ≤ stat (txn_gra s) v;
  do_res v : res_ (local_at s v) = true → stat (txn_gra s) v < TXN_DCD → is_Some (dtxns s !! v);
  do_dtxn v t : dtxns s !! v = Some t → dtxn_ok v t;
  do_rw v t : dtxns s !! v = Some t → read_only_ t = false → site_id ∈ servs (txn_gra s) v;
  do_log : NoDup (decided_ids (log s));
  do_logged v : v ∈ decided_ids (log s) ↔ committed_ (local_at s v) = true;
  do_cells c l : cells s !! c = Some l → l ∈ dom (txn_gra s);
}.

(** [hole] is the transaction whose next counter is just being made. *)
Record WaitOk (s : Server) (ts : list task) (hole : option Z) : Prop := {
  wo_ball v : hole ≠ Some v → during_commit (local_at s v) = true → stat (txn_gra s) v < TXN_DCD →
    ∃ b x, balls s !! b = Some x ∧ waits_as v (wish_ x);
  wo_event u k b : b ∈ ev (txn_gra s) u k → stat (txn_gra s) u < k ∨ ∃ k', k' ≤ k ∧ TTrigger u k' ∈ ts;
  wo_key u k b x : placed (txn_gra s) ts u k b → balls s !! b = Some x → key_ok (wish_ x) k;
  wo_wf : well_founded (λ u v, waits s ts v u);
  wo_reach v u : waits s ts v u → rtc (edge (txn_gra s)) u v;
  wo_asked v u : waits s ts v u → stat (txn_gra s) u < TXN_DCD →
    site_id ∈ servs (txn_gra s) u ∨ during_commit (local_at s u) = true ∨ during_asking (local_at s u) = true ∨
    TAsk u ∈ ts ∨ ∃ d, TDecide u d ∈ ts;
  wo_involved u : site_id ∈ servs (txn_gra s) u → finishing (txn_gra s) u →
    during_commit (local_at s u) = true ∨ ∃ d, TDecide u d ∈ ts;
}.

Record Inv (s : Server) (ts : list task) (hole : option Z) : Prop := {
  inv_graph : GraphOk (txn_gra s);
  inv_balls : BallsOk (txn_gra s) ts (balls s) (next_ball s);
  inv_decide : DecideOk s;
  inv_tasks : Forall (task_ok (txn_gra s)) ts;
  inv_wait : WaitOk s ts hole;
}.

(** What a call leaves alone, and what only grows. *)
Record Frame (s s' : Server) : Prop := {
  fr_dom : dom (txn_gra s') = dom (txn_gra s);
  fr_out u w : out_e (txn_gra s') u w = out_e (txn_gra s) u w;
  fr_servs u : servs (txn_gra s') u = servs (txn_gra s) u;
  fr_stat u : stat (txn_gra s) u ≤ stat (txn_gra s') u;
  fr_dtxns v t : dtxns s !! v = Some t → dtxns s' !! v = Some t ∨ TXN_DCD ≤ stat (txn_gra s') v;
  fr_cells : cells s' = cells s;
  fr_log : log s `prefix_of` log s';
}.

#[export] Instance frame_preorder : PreOrder Frame.
Proof.
  split; [intros s; by split; eauto|]. intros s1 s2 s3 [D1 O1 S1 T1 X1 C1 L1] [D2 O2 S2 T2 X2 C2 L2]. split; try congruence.
  - intros u. etrans; [apply T1|apply T2].
  - intros v t Ht. destruct (X1 v t Ht) as [Ht'|Hd]; [by apply X2|right]. etrans; [exact Hd|apply T2].
  - by etrans.
Qed.

(** ** The number of steps left *)

Definition unstarted (s : Server) : nat :=
  msum (λ v (_ : Vertex), if during_commit (local_at s v) then 0%nat else decide_cost (size (txn_gra s))) (txn_gra s).

Lemma msum_plus {A} (f h : Z → A → nat) (m : gmap Z A) :
  msum (λ i x, (f i x + h i x)%nat) m = (msum f m + msum h m)%nat.
Proof.
  induction m as [|i x m Hi IH] using map_ind; [done|]. rewrite !msum_insert_new by done. lia.
Qed.

Lemma msum_scale {A} c (f : Z → A → nat) (m : gmap Z A) : msum (λ i x, (c * f i x)%nat) m = (c * msum f m)%nat.
Proof.
  induction m as [|i x m Hi IH] using map_ind; [by rewrite !msum_empty; lia|]. rewrite !msum_insert_new by done. lia.
Qed.

Definition events (g : Graph) : nat := msum (λ _ x, n_events (v_data x)) g.

Lemma cost_split s ts :
  cost s ts = (sum_list_with task_cost ts + msum (λ _, ball_cost (size (txn_gra s))) (balls s) +
               3 * events (txn_gra s) + unstarted s)%nat.
Proof.
  unfold cost, unstarted, events. cbn zeta. unfold vertex_cost. rewrite msum_plus, msum_scale. lia.
Qed.
End inv.
