(* ===== verification/RccSteps.v ===== *)
(** * The ROCOCO server: one call at a time

    Every call of Rcc.v on the stack returns or leaves through the final check of
    [sorted_scc], keeps the invariant of RccInv.v and uses up some of the cost. *)

From Stdlib Require Import Wellfounded.
From S2P Require Import Prelude Graph GraphSearch Tarjan SccSort Rcc RccInv.

Section steps.
Context (site_id : Z) (ord : gset Z → list Z) (Hord : ∀ s, ord s ≡ₚ elements s).
Context (registry : Z * Z → option handler).

Abbreviation Inv := (Inv site_id registry).

(** ** Calls that change nothing but the stack *)

Lemma tokens_cons b g t ts : tokens b g (t :: ts) = (t_tokens b t + tokens b g ts)%nat.
Proof. unfold tokens. cbn. lia. Qed.

Lemma tokens_app b g new ts : tokens b g (new ++ ts) = (sum_list_with (t_tokens b) new + tokens b g ts)%nat.
Proof. unfold tokens. rewrite sum_list_with_app. lia. Qed.

Lemma replace_task s t ts new hole :
  Inv s (t :: ts) hole → Forall (task_ok (txn_gra s)) new →
  (∀ b, sum_list_with (t_tokens b) new = t_tokens b t) →
  (∀ u k b, TRegister u k b ∈ new → t = TRegister u k b) →
  (∀ u k k1 b, t = TTrigger u k → k ≤ k1 → b ∈ ev (txn_gra s) u k1 →
     stat (txn_gra s) u < k1 ∨ ∃ k', k' ≤ k1 ∧ TTrigger u k' ∈ new) →
  (∀ u, t = TAsk u → stat (txn_gra s) u < TXN_DCD → site_id ∈ servs (txn_gra s) u ∨
     during_commit (local_at s u) = true ∨ during_asking (local_at s u) = true ∨ ∃ d, TDecide u d ∈ new) →
  (∀ u d, t = TDecide u d → during_commit (local_at s u) = true) →
  Inv s (new ++ ts) hole.
Proof.
  intros [Hg Hb Hd Ht Hw] Hok Htok Hreg Htrig Hask Hdec.
  assert (∀ u k b, placed (txn_gra s) (new ++ ts) u k b → placed (txn_gra s) (t :: ts) u k b) as Hpl.
  { intros u k b [Hp|Hp]; [by left|right]. apply elem_of_app in Hp as [Hp|Hp]; [rewrite (Hreg u k b Hp); by left|by right]. }
  assert (∀ v u, waits s (new ++ ts) v u → waits s (t :: ts) v u) as Hwt.
  { intros v u (b & x & d & ? & ? & ?). exists b, x, d. eauto. }
  split; [done| |done| |].
  - destruct Hb as [Hb1 Hb2]. split; [|done]. intros b. by rewrite tokens_app, Htok, <-tokens_cons.
  - apply Forall_cons in Ht as [_ Ht]. by apply Forall_app.
  - destruct Hw as [H1 H2 H3 H4 H5 H6 H7]. split; [done| | | | | |].
    + intros u k b Hin. destruct (H2 u k b Hin) as [?|(k' & Hle & [Heq|Hin']%elem_of_cons)]; [by left| |].
      * destruct (Htrig u k' k b) as [?|(k2 & ? & ?)]; [done..|by left|right]. exists k2. set_solver.
      * right. exists k'. set_solver.
    + intros u k b x Hp. by apply (H3 u k b x), Hpl.
    + refine (wf_incl _ _ _ _ H4). intros u v. apply Hwt.
    + intros v u Hvu. by apply H5, Hwt.
    + intros v u Hvu Hst. destruct (H6 v u (Hwt _ _ Hvu) Hst) as [?|[?|[?|[[Heq|Hin]%elem_of_cons|(d & [Heq|Hin]%elem_of_cons)]]]].
      * by left.
      * by right; left.
      * by right; right; left.
      * destruct (Hask u) as [?|[?|[?|(d & ?)]]]; [done..|by left|by right; left|by right; right; left|].
        do 4 right. exists d. set_solver.
      * do 3 right. left. set_solver.
      * right; left. by eapply Hdec.
      * do 4 right. exists d. set_solver.
    + intros u Hu Hf. destruct (H7 u Hu Hf) as [?|(d & [Heq|Hin]%elem_of_cons)]; [by left|left; by eapply Hdec|].
      right. exists d. set_solver.
Qed.

(** More triggers and replies never hurt. *)
Definition inert (g : Graph) (t : task) : Prop :=
  match t with TTrigger v _ => v ∈ dom g | TReply _ => True | _ => False end.

Lemma push_inert s new ts hole : Inv s ts hole → Forall (inert (txn_gra s)) new → Inv s (new ++ ts) hole.
Proof.
  intros [Hg Hb Hd Ht Hw] Hnew. rewrite Forall_forall in Hnew.
  assert (∀ u k b, placed (txn_gra s) (new ++ ts) u k b → placed (txn_gra s) ts u k b) as Hpl.
  { intros u k b [Hp|[Hp|Hp]%elem_of_app]; [by left|by destruct (Hnew _ Hp)|by right]. }
  assert (∀ v u, waits s (new ++ ts) v u → waits s ts v u) as Hwt.
  { intros v u (b & x & d & ? & ? & ?). exists b, x, d. eauto. }
  split; [done| |done| |].
  - destruct Hb as [Hb1 Hb2]. split; [|done]. intros b. rewrite tokens_app.
    assert (sum_list_with (t_tokens b) new = 0%nat) as ->; [|apply Hb1].
    clear -Hnew. induction new as [|t new IH]; cbn; [done|]. rewrite IH by set_solver.
    specialize (Hnew t ltac:(by left)). by destruct t.
  - apply Forall_app. split; [|done]. apply Forall_forall. intros t Hin%Hnew. by destruct t.
  - destruct Hw as [H1 H2 H3 H4 H5 H6 H7]. split; [done| | | | | |].
    + intros u k b Hin. destruct (H2 u k b Hin) as [?|(k' & Hle & ?)]; [by left|right]. exists k'. set_solver.
    + intros u k b x Hp. by apply (H3 u k b x), Hpl.
    + refine (wf_incl _ _ _ _ H4). intros u v. apply Hwt.
    + intros v u Hvu. by apply H5, Hwt.
    + intros v u Hvu Hst. destruct (H6 v u (Hwt _ _ Hvu) Hst) as [?|[?|[?|[?|(d & ?)]]]]; [tauto..| |];
        do 3 right; [left; set_solver|right; exists d; set_solver].
    + intros u Hu Hf. destruct (H7 u Hu Hf) as [?|(d & ?)]; [by left|right; exists d; set_solver].
Qed.

Lemma emit_ok s a ts hole : Inv s ts hole → decided_id a = None → Inv (emit a s) ts hole.
Proof.
  intros [Hg Hb Hd Ht Hw] Ha. split; [exact Hg|exact Hb| |exact Ht|].
  - destruct Hd as [D1 D2 D3 D4 D5 D6 D7].
    assert (decided_ids (log (emit a s)) = decided_ids (log s)) as Hl.
    { unfold decided_ids. cbn [emit log]. rewrite omap_app. cbn. rewrite Ha. apply app_nil_r. }
    split; [exact D1|exact D2|exact D3|exact D4|by rewrite Hl|intros v; rewrite Hl; apply D6|exact D7].
  - destruct Hw as [H1 H2 H3 H4 H5 H6 H7]. by split.
Qed.

(** ** Changing the callbacks stored at a vertex *)

Section events.
Context (g : Graph) (v k : Z) (d : TxnInfo) (l : list Z) (Hv : data_at g v = Some d).
Let d' := set_events (<[k := l]> (events_ d)) d.
Let g' := alter (set_data d') v g.

Lemma ev_set u i : ev g' u i = if decide (u = v ∧ i = k) then l else ev g u i.
Proof using Hv.
  unfold ev, g'. rewrite (upd_data g v d d' Hv). case_decide as Hu.
  - subst u. rewrite Hv. cbn. destruct (decide (i = k)) as [->|Hi].
    + rewrite lookup_insert_eq. by rewrite decide_True.
    + rewrite lookup_insert_ne by done. rewrite decide_False by naive_solver. done.
  - rewrite decide_False by naive_solver. done.
Qed.

Lemma stat_set u : stat g' u = stat g u.
Proof using Hv. unfold stat, g'. rewrite (upd_data g v d d' Hv). case_decide; [subst; by rewrite Hv|done]. Qed.

Lemma servs_set u : servs g' u = servs g u.
Proof using Hv. unfold servs, g'. rewrite (upd_data g v d d' Hv). case_decide; [subst; by rewrite Hv|done]. Qed.

Lemma finishing_set u : finishing g' u → finishing g u.
Proof using Hv.
  unfold finishing, g'. intros (d1 & Hd1 & Hf). rewrite (upd_data g v d d' Hv) in Hd1. case_decide; [simplify_eq|]; eauto.
Qed.

Lemma events_graph_ok : GraphOk g → k = TXN_CMT ∨ k = TXN_DCD → GraphOk g'.
Proof using Hv.
  intros [G1 G2 G3 G4 G5] Hk. split.
  - by apply (upd_wf g v d d' Hv).
  - intros u d1. unfold g'. rewrite (upd_data g v d d' Hv). case_decide; [intros [= <-]; exact (G2 v d Hv)|apply G2].
  - intros u d1 i. unfold g'. rewrite (upd_data g v d d' Hv). case_decide; [|apply G3]. intros [= <-]. cbn.
    rewrite lookup_insert_is_Some'. intros [<-|?]; [done|by apply (G3 v d)].
  - intros u d1. unfold g'. rewrite (upd_data g v d d' Hv). case_decide; [intros [= <-]; exact (G4 v d Hv)|apply G4].
  - unfold g'. rewrite <-size_dom, upd_dom, size_dom. done.
Qed.

Lemma tokens_set b ts : (tokens b g' ts + occ b (ev g v k) = tokens b g ts + occ b l)%nat.
Proof using Hv.
  unfold tokens, g_tokens. pose proof (upd_sum g v d d' Hv (d_tokens b)) as H1.
  pose proof (d_tokens_insert b d k l) as H2. unfold ev. rewrite Hv. cbn [mbind option_bind]. fold d' in H2. fold g' in H1. lia.
Qed.

Lemma events_set : (events g' + length (ev g v k) = events g + length l)%nat.
Proof using Hv.
  unfold events. pose proof (upd_sum g v d d' Hv n_events) as H1. fold g' in H1.
  pose proof (msum_insert_default (λ _ l, length l) (events_ d) k [] l eq_refl) as H2. cbn in H2.
  unfold ev. rewrite Hv. cbn [mbind option_bind]. unfold n_events at 2 4 in H1. cbn in H1. lia.
Qed.
End events.

(** The decisions do not look at the callbacks. *)
Lemma decide_ok_graph s g' :
  DecideOk site_id registry s → dom g' = dom (txn_gra s) → (∀ u, stat g' u = stat (txn_gra s) u) →
  (∀ u, servs g' u = servs (txn_gra s) u) → DecideOk site_id registry (set_gra g' s).
Proof.
  intros [D1 D2 D3 D4 D5 D6 D7] Hdom Hst Hsv. split; cbn; [| |exact D3| |exact D5|exact D6|].
  - intros v Hv. rewrite Hst. by apply D1.
  - intros v Hv. rewrite Hst. by apply D2.
  - intros v t. rewrite Hsv. apply D4.
  - rewrite Hdom. apply D7.
Qed.

Lemma wait_events s v k d l ts ts' hole :
  WaitOk site_id s ts hole → data_at (txn_gra s) v = Some d →
  let s' := set_txn v (set_events (<[k := l]> (events_ d)) d) s in
  (∀ u i b, placed (txn_gra s') ts' u i b → placed (txn_gra s) ts u i b) →
  (∀ u i b, b ∈ ev (txn_gra s') u i → stat (txn_gra s) u < i ∨ ∃ k', k' ≤ i ∧ TTrigger u k' ∈ ts') →
  (∀ u, TAsk u ∈ ts → TAsk u ∈ ts') → (∀ u e, TDecide u e ∈ ts → TDecide u e ∈ ts') →
  WaitOk site_id s' ts' hole.
Proof.
  intros [H1 H2 H3 H4 H5 H6 H7] Hv s' Hpl Hev Hask Hdec.
  assert (∀ w u, waits s' ts' w u → waits s ts w u) as Hwt.
  { intros w u (b & x & e & ? & ? & ?). exists b, x, e. eauto. }
  assert (∀ u, stat (txn_gra s') u = stat (txn_gra s) u) as Hst by (intros u; by apply stat_set).
  assert (∀ u, servs (txn_gra s') u = servs (txn_gra s) u) as Hsv by (intros u; by apply servs_set).
  split.
  - intros w. rewrite Hst. apply H1.
  - intros u i b. rewrite Hst. apply Hev.
  - intros u i b x Hp. by apply (H3 u i b x), Hpl.
  - refine (wf_incl _ _ _ _ H4). intros u w. apply Hwt.
  - intros w u Hwu. eapply reach_mono, H5, Hwt; [|done]. intros x y. unfold s'. cbn. by rewrite (upd_out _ v d) .
  - intros w u Hwu. rewrite Hst, Hsv. intros Hu. destruct (H6 w u (Hwt _ _ Hwu) Hu) as [?|[?|[?|[Ha|(e & He)]]]]; [tauto..| |].
    + apply Hask in Ha. tauto.
    + apply Hdec in He. do 4 right. by exists e.
  - intros u. rewrite Hsv. intros Hu Hf. destruct (H7 u Hu) as [?|(e & He)]; [by apply (finishing_set _ v k d l Hv)|by left|].
    right. exists e. by apply Hdec.
Qed.

(** ** [trigger] and [register_event] *)

Definition step_ok (t : task) (ts : list task) (s : Server) : Prop :=
  (∃ s' new, do_task site_id ord registry t s = Done (s', new) ∧ Inv s' (new ++ ts) None ∧ Frame s s' ∧
     (cost s' (new ++ ts) < cost s (t :: ts))%nat) ∨
  (do_task site_id ord registry t s = Crash assert_failed ∧
   ∃ v, v ∈ dom (txn_gra s) ∧ sorted_scc ord (txn_gra s) v [] = Crash assert_failed).

Lemma data_done s v : v ∈ dom (txn_gra s) → ∃ d, data_at (txn_gra s) v = Some d ∧ data s v = Done d.
Proof.
  intros [x Hx]%elem_of_dom. exists (v_data x). unfold data, vertex, data_at. by rewrite Hx.
Qed.

Lemma head_filter {A} (P : A → Prop) `{∀ x, Decision (P x)} l x :
  head (filter P l) = Some x → ∃ l1 l2, l = l1 ++ x :: l2 ∧ P x ∧ ∀ y, y ∈ l1 → ¬ P y.
Proof.
  induction l as [|y l IH]; [done|]. rewrite filter_cons. case_decide as Hy.
  - intros [= ->]. exists [], l. split_and!; [done..|]. by intros y ?%not_elem_of_nil.
  - intros (l1 & l2 & -> & Hx & Hn)%IH. exists (y :: l1), l2. split_and!; [done..|].
    intros z [->|Hz]%elem_of_cons; [done|by apply Hn].
Qed.

Lemma next_key_None m k i : next_key m k = None → k ≤ i < 128 → m !! i = None.
Proof.
  unfold next_key. intros Hn Hi. apply eq_None_not_Some. intros Hs.
  assert (i ∈ filter (λ i, is_Some (m !! i)) (seqZ k (128 - k))) as Hin.
  { apply list_elem_of_filter. split; [done|]. apply elem_of_seqZ. lia. }
  destruct (filter _ _); [by apply not_elem_of_nil in Hin|done].
Qed.

Lemma next_key_Some m k i :
  next_key m k = Some i → k ≤ i < 128 ∧ is_Some (m !! i) ∧ ∀ j, k ≤ j < i → m !! j = None.
Proof.
  intros (l1 & l2 & Heq & Hs & Hn)%head_filter.
  assert (i ∈ seqZ k (128 - k)) as Hi%elem_of_seqZ by (rewrite Heq; set_solver).
  split; [lia|]. split; [done|]. intros j Hj. apply eq_None_not_Some. intros Hjs. apply (Hn j); [|done].
  assert (seqZ k (128 - k) !! length l1 = Some i) as Hl by (rewrite Heq; by apply list_lookup_middle).
  apply lookup_seqZ in Hl as [-> Hlt].
  assert (seqZ k (128 - k) !! Z.to_nat (j - k) = Some j) as Hj' by (apply lookup_seqZ; lia).
  rewrite Heq, lookup_app_l in Hj' by lia. by eapply list_elem_of_lookup_2.
Qed.

Lemma cost_tasks s ts ts' :
  (sum_list_with task_cost ts' < sum_list_with task_cost ts)%nat → (cost s ts' < cost s ts)%nat.
Proof. intros. rewrite !cost_split. lia. Qed.

Lemma ev_key s u d i b :
  GraphOk (txn_gra s) → data_at (txn_gra s) u = Some d → b ∈ ev (txn_gra s) u i →
  is_Some (events_ d !! i) ∧ (i = TXN_CMT ∨ i = TXN_DCD).
Proof.
  intros Hg Hd Hb. unfold ev in Hb. rewrite Hd in Hb. cbn in Hb.
  destruct (events_ d !! i) eqn:Hi; [|by apply not_elem_of_nil in Hb]. split; [eauto|]. by apply (go_keys _ Hg u d); rewrite ?Hi.
Qed.

Lemma set_txn_frame s v d d' :
  data_at (txn_gra s) v = Some d → status_ d ≤ status_ d' → servers_ d' = servers_ d → Frame s (set_txn v d' s).
Proof.
  intros Hv Hst Hsv. split; cbn; [apply upd_dom|intros; by apply (upd_out _ v d)| | |by left|done|done].
  - intros u. unfold servs. rewrite (upd_data _ v d _ Hv). case_decide; [subst; by rewrite Hv; cbn; rewrite Hsv|done].
  - intros u. unfold stat. rewrite (upd_data _ v d _ Hv). case_decide; [subst; by rewrite Hv|done].
Qed.


Lemma tasks_ok_dom g g' ts : dom g' = dom g → Forall (task_ok g) ts → Forall (task_ok g') ts.
Proof. intros Hd Hts. eapply Forall_impl; [exact Hts|]. intros []; cbn; by rewrite ?Hd. Qed.

Lemma wish_ok_dom g g' w : dom g' = dom g → wish_ok g w → wish_ok g' w.
Proof. intros Hd. destruct w; cbn; by rewrite ?Hd. Qed.

(** The parts of the invariant that do not depend on who waits for whom. *)
Lemma events_inv s v k d l ts ts' :
  Inv s ts None → data_at (txn_gra s) v = Some d → k = TXN_CMT ∨ k = TXN_DCD →
  let s' := set_txn v (set_events (<[k := l]> (events_ d)) d) s in
  (∀ b, (sum_list_with (t_tokens b) ts' + occ b l = sum_list_with (t_tokens b) ts + occ b (ev (txn_gra s) v k))%nat) →
  Forall (task_ok (txn_gra s)) ts' → WaitOk site_id s' ts' None → Inv s' ts' None.
Proof.
  intros [Hg Hb Hd Ht Hw] Hv Hk s' Htok Hts HW. split; [|split| | |done].
  - by apply events_graph_ok.
  - intros b. cbn. rewrite <-(bo_tokens _ _ _ _ Hb b). f_equal.
    pose proof (tokens_set (txn_gra s) v k d l Hv b ts') as H1. specialize (Htok b). unfold tokens in *. lia.
  - intros b x Hx. destruct (bo_live _ _ _ _ Hb b x Hx) as (? & ? & ?). split_and!; [done..|].
    eapply wish_ok_dom; [|done]. apply upd_dom.
  - apply decide_ok_graph; [done|apply upd_dom|intros; by apply stat_set|intros; by apply servs_set].
  - eapply tasks_ok_dom; [|done]. apply upd_dom.
Qed.

Lemma unstarted_graph s g' :
  dom g' = dom (txn_gra s) → unstarted (set_gra g' s) = unstarted s.
Proof.
  intros Hd. unfold unstarted. cbn [txn_gra set_gra].
  assert (size g' = size (txn_gra s)) as -> by (rewrite <-!size_dom; by rewrite Hd).
  apply msum_value. intros u. assert (is_Some (g' !! u) ↔ is_Some (txn_gra s !! u)) as Hu by (rewrite <-!elem_of_dom; by rewrite Hd).
  destruct (g' !! u), (txn_gra s !! u); [done|..|done]; destruct Hu as [H1 H2]; [destruct H1|destruct H2]; eauto; done.
Qed.

Lemma cost_events s v k d l ts :
  data_at (txn_gra s) v = Some d →
  (cost (set_txn v (set_events (<[k := l]> (events_ d)) d) s) ts + 3 * length (ev (txn_gra s) v k) =
   cost s ts + 3 * length l)%nat.
Proof.
  intros Hd. pose proof (events_set (txn_gra s) v k d l Hd) as He. rewrite !cost_split. unfold set_txn.
  rewrite unstarted_graph by apply upd_dom. cbn [txn_gra set_gra balls].
  rewrite <-(size_dom (alter _ _ _)), upd_dom, size_dom. lia.
Qed.

(** [trigger] passes a key. *)
Lemma skip_key s v k d i ts :
  Inv s (TTrigger v k :: ts) None → data_at (txn_gra s) v = Some d → k ≤ i < 128 →
  (∀ j b, k ≤ j → b ∈ ev (txn_gra s) v j → i ≤ j) →
  (∀ b, b ∈ ev (txn_gra s) v i → stat (txn_gra s) v < i) →
  Inv s ([TTrigger v (i + 1)] ++ ts) None ∧ (cost s ([TTrigger v (i + 1)] ++ ts) < cost s (TTrigger v k :: ts))%nat.
Proof.
  intros HI Hd Hr Hlow Hst. pose proof (inv_tasks _ _ _ _ _ HI) as Ht. apply Forall_cons in Ht as [Hv Ht].
  split; [eapply replace_task; [done|..]|].
  - by repeat constructor.
  - done.
  - set_solver.
  - intros u j j1 c [= <- <-] Hj Hc. pose proof (Hlow j1 c Hj Hc).
    destruct (decide (j1 = i)) as [->|]; [left; by eapply Hst|]. right. exists (i + 1). split; [lia|set_solver].
  - set_solver.
  - set_solver.
  - apply cost_tasks. cbn -[Z.to_nat]. lia.
Qed.

(** [trigger] takes a counter out. *)
Lemma pop_event s v k d i b ts :
  Inv s (TTrigger v k :: ts) None → data_at (txn_gra s) v = Some d → k ≤ i < 128 → i = TXN_CMT ∨ i = TXN_DCD →
  (∀ j b, k ≤ j → b ∈ ev (txn_gra s) v j → i ≤ j) → last (ev (txn_gra s) v i) = Some b →
  let s' := set_txn v (set_events (<[i := removelast (ev (txn_gra s) v i)]> (events_ d)) d) s in
  Inv s' ([TBall b; TTrigger v i] ++ ts) None ∧
  (cost s' ([TBall b; TTrigger v i] ++ ts) < cost s (TTrigger v k :: ts))%nat.
Proof.
  intros HI Hd Hr Hik Hlow Hl s'. pose proof (inv_tasks _ _ _ _ _ HI) as Ht. apply Forall_cons in Ht as [Hv Ht].
  destruct (proj1 (last_Some _ _) Hl) as [l' Hl'].
  assert (removelast (ev (txn_gra s) v i) = l') as Hrm by (rewrite Hl', removelast_app by done; apply app_nil_r).
  assert (∀ u j c, c ∈ ev (txn_gra s') u j → c ∈ ev (txn_gra s) u j) as Hsub.
  { intros u j c. unfold s'. cbn [txn_gra set_txn set_gra]. rewrite (ev_set _ _ _ _ _ Hd). case_decide as Hu; [|done].
    destruct Hu as [-> ->]. rewrite Hrm, Hl'. set_solver. }
  split; [eapply events_inv; [done..| | |]|].
  - intros c. cbn. pose proof (occ_last c _ _ Hl). lia.
  - by repeat constructor.
  - eapply wait_events; [apply HI|done|..]; [| |set_solver..].
    + intros u j c [Hc|Hc]; [left; by apply Hsub|right; set_solver].
    + intros u j c Hc%Hsub.
      destruct (wo_event _ _ _ _ (inv_wait _ _ _ _ _ HI) u j c Hc) as [?|(k' & Hle & [Heq|Hin]%elem_of_cons)]; [by left| |].
      * simplify_eq. right. exists i. split; [by apply (Hlow j c)|set_solver].
      * right. exists k'. set_solver.
  - pose proof (cost_events s v i d (removelast (ev (txn_gra s) v i)) ([TBall b; TTrigger v i] ++ ts) Hd) as He. fold s' in He.
    rewrite Hrm, Hl', length_app in He. cbn [length] in He.
    assert (cost s ([TBall b; TTrigger v i] ++ ts) ≤ cost s (TTrigger v k :: ts) + 2)%nat; [|lia].
    rewrite !cost_split. cbn -[Z.to_nat]. lia.
Qed.

Lemma step_trigger v k ts s : Inv s (TTrigger v k :: ts) None → step_ok (TTrigger v k) ts s.
Proof.
  intros HI. left. cbn [do_task]. unfold trigger_task.
  pose proof (inv_graph _ _ _ _ _ HI) as Hg. pose proof (inv_tasks _ _ _ _ _ HI) as Ht.
  apply Forall_cons in Ht as [Hv Ht]. destruct (data_done s v Hv) as (d & Hd & ->). cbn [mbind result_bind].
  destruct (next_key (events_ d) k) as [i|] eqn:Hi.
  - apply next_key_Some in Hi as (Hr & Hs & Hn). pose proof (go_keys _ Hg v d i Hd Hs) as Hik.
    assert (∀ j b, k ≤ j → b ∈ ev (txn_gra s) v j → i ≤ j) as Hlow.
    { intros j b Hj Hb. destruct (ev_key s v d j b Hg Hd Hb) as [Hjs _]. destruct (decide (i ≤ j)); [done|].
      rewrite Hn in Hjs by lia. by destruct Hjs. }
    assert (ev (txn_gra s) v i = default [] (events_ d !! i)) as Hev by (unfold ev; by rewrite Hd).
    rewrite <-Hev. destruct (last (ev (txn_gra s) v i)) as [b|] eqn:Hl; [case_decide as Hst|].
    + destruct (pop_event s v k d i b ts) as [? ?]; [done..|]. eexists _, _. split; [done|]. split; [done|].
      split; [by eapply set_txn_frame|done].
    + destruct (skip_key s v k d i ts) as [? ?]; [done..| |by eexists _, _; split_and!].
      intros c _. unfold stat. rewrite Hd. cbn. lia.
    + destruct (skip_key s v k d i ts) as [? ?]; [done..| |by eexists _, _; split_and!].
      intros c Hc. apply last_None in Hl. rewrite Hl in Hc. by apply not_elem_of_nil in Hc.
  - exists s, []. split; [done|]. split; [eapply replace_task; [done|..]|split; [done|]].
    + by constructor.
    + done.
    + set_solver.
    + intros u j j1 c [= <- <-] Hj Hc. destruct (ev_key s v d j1 c Hg Hd Hc) as [Hs Hk].
      rewrite (next_key_None _ _ _ Hi) in Hs; [by destruct Hs|]. unfold TXN_CMT, TXN_DCD in Hk. lia.
    + set_solver.
    + set_solver.
    + apply cost_tasks. cbn -[Z.to_nat]. lia.
Qed.

Lemma step_register v st b ts s : Inv s (TRegister v st b :: ts) None → step_ok (TRegister v st b) ts s.
Proof.
  intros HI. left. cbn [do_task]. unfold register_task.
  pose proof (inv_graph _ _ _ _ _ HI) as Hg. pose proof (inv_tasks _ _ _ _ _ HI) as Ht.
  apply Forall_cons in Ht as [[Hv Hk] Ht]. destruct (data_done s v Hv) as (d & Hd & ->). cbn [mbind result_bind].
  case_decide as Hst.
  - exists s, [TBall b]. split; [done|]. split; [eapply replace_task; [done|by repeat constructor|..]|split; [done|]].
    + intros c. cbn. lia.
    + set_solver.
    + set_solver.
    + set_solver.
    + set_solver.
    + apply cost_tasks. cbn. lia.
  - assert (ev (txn_gra s) v st = default [] (events_ d !! st)) as Hev by (unfold ev; by rewrite Hd). rewrite <-Hev.
    eexists _, []. split; [done|]. split; [eapply events_inv; [done..| | |]|split].
    + intros c. rewrite occ_app. cbn. lia.
    + done.
    + eapply wait_events; [apply HI|done|..]; [| |set_solver..].
      * intros u j c [Hc|Hc]; [|right; set_solver]. cbn [txn_gra set_txn set_gra] in Hc. rewrite (ev_set _ _ _ _ _ Hd) in Hc.
        case_decide as Hu; [destruct Hu as [-> ->]|by left].
        apply elem_of_app in Hc as [?| ->%list_elem_of_singleton]; [by left|right; by left].
      * intros u j c Hc. cbn [txn_gra set_txn set_gra] in Hc. rewrite (ev_set _ _ _ _ _ Hd) in Hc. case_decide as Hu.
        -- destruct Hu as [-> ->]. left. unfold stat. rewrite Hd. cbn. lia.
        -- destruct (wo_event _ _ _ _ (inv_wait _ _ _ _ _ HI) u j c Hc) as [?|(k' & Hle & Hin)]; [by left|right].
           exists k'. set_solver.
    + by eapply set_txn_frame.
    + pose proof (cost_events s v st d (ev (txn_gra s) v st ++ [b]) ([] ++ ts) Hd) as He. rewrite length_app in He. cbn [length] in He.
      assert (cost s (TRegister v st b :: ts) = 5 + cost s ([] ++ ts))%nat; [|lia]. rewrite !cost_split. cbn. lia.
Qed.

(** ** Replies and questions *)

Lemma local_at_set s v f u : local_at (set_local v f s) u = if decide (u = v) then f (local_at s v) else local_at s u.
Proof.
  unfold local_at at 1. cbn. case_decide as Hu; [subst; by rewrite lookup_insert_eq|by rewrite lookup_insert_ne].
Qed.

Lemma frame_same s s' :
  txn_gra s' = txn_gra s → dtxns s' = dtxns s → cells s' = cells s → log s `prefix_of` log s' → Frame s s'.
Proof. intros Hg Hd Hc Hl. split; rewrite ?Hg, ?Hd; auto. done. Qed.

Lemma step_reply e ts s : Inv s (TReply e :: ts) None → step_ok (TReply e) ts s.
Proof.
  intros HI.
  assert (Inv s ts None) as HI' by (eapply (replace_task _ _ _ []) in HI; [done|by constructor|set_solver..]).
  assert (cost s ts < cost s (TReply e :: ts))%nat as Hc by (apply cost_tasks; cbn; lia).
  left. destruct e as [e|]; cbn; eexists _, []; (split; [done|]); (split; [|split]); [by apply emit_ok| |exact Hc|done|done|exact Hc].
  apply frame_same; [done..|]. apply prefix_app_r, reflexivity.
Qed.

Lemma asking_ok s v ts hole : Inv s ts hole → Inv (set_local v set_during_asking s) ts hole.
Proof.
  intros [Hg Hb Hd Ht Hw]. set (s' := set_local v set_during_asking s).
  assert (∀ u, committed_ (local_at s' u) = committed_ (local_at s u) ∧ res_ (local_at s' u) = res_ (local_at s u) ∧
    during_commit (local_at s' u) = during_commit (local_at s u) ∧
    (during_asking (local_at s u) = true → during_asking (local_at s' u) = true)) as Hl.
  { intros u. unfold s'. rewrite local_at_set. case_decide; [by subst|done]. }
  split; [exact Hg|exact Hb| |exact Ht|].
  - destruct Hd as [D1 D2 D3 D4 D5 D6 D7]. split; [| |exact D3|exact D4|exact D5| |exact D7].
    + intros u. destruct (Hl u) as [-> _]. apply D1.
    + intros u. destruct (Hl u) as (_ & -> & _). apply D2.
    + intros u. destruct (Hl u) as [-> _]. apply D6.
  - destruct Hw as [H1 H2 H3 H4 H5 H6 H7]. split; [|exact H2|exact H3|exact H4|exact H5| |].
    + intros u. destruct (Hl u) as (_ & _ & -> & _). apply H1.
    + intros w u Hwu Hst. destruct (Hl u) as (_ & _ & -> & Ha). destruct (H6 w u Hwu Hst) as [?|[?|[?|?]]]; tauto.
    + intros u. destruct (Hl u) as (_ & _ & -> & _). apply H7.
Qed.

Lemma unstarted_local s v f :
  (∀ x, during_commit (f x) = during_commit x) → unstarted (set_local v f s) = unstarted s.
Proof.
  intros Hf. unfold unstarted. apply msum_ext. intros u x _. rewrite local_at_set. case_decide; [subst; by rewrite Hf|done].
Qed.

Lemma drop_ask s v ts :
  Inv s (TAsk v :: ts) None →
  (stat (txn_gra s) v < TXN_DCD → site_id ∈ servs (txn_gra s) v ∨ during_commit (local_at s v) = true ∨
     during_asking (local_at s v) = true) →
  Inv s ts None.
Proof.
  intros HI Hv. eapply (replace_task _ _ _ []) in HI; [done|by constructor|set_solver..| |done].
  intros u [= <-] Hst. destruct (Hv Hst) as [?|[?|?]]; tauto.
Qed.

Lemma step_ask v ts s : Inv s (TAsk v :: ts) None → step_ok (TAsk v) ts s.
Proof.
  intros HI. left. cbn [do_task]. unfold ask_task.
  pose proof (inv_graph _ _ _ _ _ HI) as Hg. pose proof (inv_tasks _ _ _ _ _ HI) as Ht.
  apply Forall_cons in Ht as [Hv Ht]. destruct (data_done s v Hv) as (d & Hd & ->). cbn [mbind result_bind].
  assert (cost s ts < cost s (TAsk v :: ts))%nat as Hc by (apply cost_tasks; cbn; lia).
  assert (stat (txn_gra s) v = status_ d) as Hst by (unfold stat; by rewrite Hd).
  assert (servs (txn_gra s) v = servers_ d) as Hsv by (unfold servs; by rewrite Hd).
  pose proof (go_status _ Hg v d Hd) as Hok.
  destruct (is_involved site_id d) eqn:Hinv; [|destruct (is_commit d) eqn:Hcm; [|destruct (is_finish d) eqn:Hfi]].
  - exists s, []. split_and!; [done| |done|done]. eapply drop_ask; [done|]. intros _. left. rewrite Hsv.
    by apply bool_decide_eq_true in Hinv.
  - exists s, []. split_and!; [done| |done|done]. eapply drop_ask; [done|]. intros Hlt. exfalso.
    apply is_commit_ge in Hcm; [|done]. lia.
  - exists s, [TDecide v None]. split_and!; [done| |done|apply cost_tasks; cbn; lia].
    eapply replace_task; [done|by repeat constructor|set_solver..| |done].
    intros u [= <-] _. do 3 right. exists None. set_solver.
  - destruct (during_asking (local_at s v)) eqn:Has.
    + exists s, []. split_and!; [done| |done|done]. eapply drop_ask; [done|]. tauto.
    + assert (∃ sid, random_server d = Done sid) as [sid ->].
      { unfold random_server. pose proof (merge_sort_Permutation Z.le (elements (servers_ d))) as Hp.
        destruct (merge_sort Z.le (elements (servers_ d))) as [|x l]; [|by eexists]. exfalso.
        apply Permutation_nil_l in Hp. symmetry in Hp. apply elements_empty_inv in Hp. apply (go_servers _ Hg v d Hd). set_solver. }
      cbn [mbind result_bind]. eexists _, []. split; [done|]. split; [|split].
      * apply emit_ok; [|done]. eapply drop_ask; [by apply asking_ok|]. intros _. right. right.
        by rewrite local_at_set, decide_True.
      * apply frame_same; [done..|]. apply prefix_app_r, reflexivity.
      * rewrite !cost_split in *. assert (unstarted (emit (Asked sid v) (set_local v set_during_asking s)) = unstarted s) as ->.
        { change (unstarted (set_local v set_during_asking s) = unstarted s). by apply unstarted_local. }
        cbn in *. lia.
Qed.

(** ** New counters *)

Lemma wf_no_cycle {A} (R : A → A → Prop) v :
  well_founded R → ∀ z, R z v → ¬ rtc (λ a b, R b a) z v.
Proof.
  intros Hwf. induction v as [v IH] using (well_founded_induction Hwf). intros z Hz Hr.
  inversion Hr as [|? z1 ? Hz1 Hr']; subst; [by apply (IH v Hz v Hz)|].
  apply (IH z Hz z1 Hz1). eapply rtc_r; [exact Hr'|done].
Qed.

(** One element may get more successors, as long as none of them leads back to it. *)
Lemma wf_extend {A} (R R' : A → A → Prop) (U : A → Prop) v0 :
  well_founded R → (∀ u v, R' u v → R u v ∨ (v = v0 ∧ U u)) →
  (∀ u, U u → ¬ rtc (λ a b, R b a) u v0) → well_founded R'.
Proof.
  intros Hwf HR HU.
  assert (∀ y, ¬ rtc (λ a b, R b a) y v0 → Acc R' y) as H1.
  { intros y. induction y as [y IH] using (well_founded_induction Hwf). intros Hy. constructor. intros z Hz.
    destruct (HR z y Hz) as [Hz'|[-> _]]; [|by destruct Hy]. apply IH; [done|]. intros Hr. apply Hy. by eapply rtc_l. }
  assert (Acc R' v0) as H2.
  { constructor. intros z Hz. apply H1. destruct (HR z v0 Hz) as [Hz'|[_ Hu]]; [by apply wf_no_cycle|by apply HU]. }
  intros y. induction y as [y IH] using (well_founded_induction Hwf). constructor. intros z Hz.
  destruct (HR z y Hz) as [Hz'|[-> _]]; [by apply IH|by apply (Acc_inv H2)].
Qed.

Lemma fresh_ball s ts hole b :
  Inv s ts hole → next_ball s ≤ b → balls s !! b = None ∧ tokens b (txn_gra s) ts = 0%nat.
Proof.
  intros HI Hb. destruct (inv_balls _ _ _ _ _ HI) as [B1 B2].
  assert (balls s !! b = None) as Hn.
  { destruct (balls s !! b) as [x|] eqn:Hx; [|done]. destruct (B2 b x Hx) as (_ & ? & _). lia. }
  split; [done|]. specialize (B1 b). rewrite Hn in B1. cbn in B1. lia.
Qed.

Lemma not_placed s ts hole u k b :
  Inv s ts hole → next_ball s ≤ b → ¬ placed (txn_gra s) ts u k b.
Proof.
  intros HI Hb Hp. destruct (fresh_ball s ts hole b HI Hb) as [_ Hz]. unfold tokens in Hz.
  destruct Hp as [Hp%ev_tokens|Hp%task_register_tokens]; lia.
Qed.

Lemma new_ball_ok s ts new hole w n :
  Inv s ts hole → wish_ok (txn_gra s) w → (0 < n)%nat → Z.of_nat n < 2 ^ 31 →
  (∀ b, sum_list_with (t_tokens b) new = if decide (b = next_ball s) then n else 0%nat) →
  Forall (task_ok (txn_gra s)) new →
  (∀ u k b, TRegister u k b ∈ new → key_ok w k) →
  (∀ v, hole = Some v → waits_as v w) →
  (∀ v d u, w = SccAncCommit v d → TRegister u TXN_DCD (next_ball s) ∈ new →
     rtc (edge (txn_gra s)) u v ∧ ¬ rtc (edge (txn_gra s)) v u ∧ TAsk u ∈ new) →
  Inv (new_ball (Z.of_nat n) w s).1 (new ++ ts) None.
Proof.
  intros HI Hwok Hn Hn31 Htok Hok Hkey Hhole Hscc. pose proof HI as [Hg Hb Hd Ht Hw].
  destruct (fresh_ball s ts hole (next_ball s) HI) as [Hnone Hzero]; [done|].
  assert (i32 (Z.of_nat n) = Z.of_nat n) as Hi32 by (apply (swrap_small 32); lia).
  assert (∀ u k b, TRegister u k b ∈ new → b = next_ball s) as Hreg.
  { intros u k b Hin%task_register_tokens. rewrite Htok in Hin. by case_decide. }
  assert (∀ u k b, b ≠ next_ball s → placed (txn_gra s) (new ++ ts) u k b → placed (txn_gra s) ts u k b) as Hpl.
  { intros u k b Hne [?|[Hin%Hreg|?]%elem_of_app]; [by left|done|by right]. }
  set (s' := (new_ball (Z.of_nat n) w s).1). unfold s', new_ball in *. cbn [fst] in *.
  assert (∀ v u, waits s' (new ++ ts) v u → waits s ts v u ∨
     ∃ d, w = SccAncCommit v d ∧ TRegister u TXN_DCD (next_ball s) ∈ new) as Hwt.
  { intros v u (b & x & d & Hx & Hwx & Hp). cbn in Hx, Hp. apply lookup_insert_Some in Hx as [[<- <-]|[Hne Hx]].
    - right. exists d. split; [done|]. destruct Hp as [Hp|[Hp|Hp]%elem_of_app]; [|done|].
      + destruct (not_placed s ts hole u TXN_DCD (next_ball s) HI); [done|by left].
      + destruct (not_placed s ts hole u TXN_DCD (next_ball s) HI); [done|by right].
    - left. exists b, x, d. split_and!; [done..|]. by apply Hpl. }
  split; [exact Hg| |exact (ltac:(by destruct Hd))| |].
  - destruct Hb as [B1 B2]. split; cbn.
    + intros b. rewrite tokens_app, Htok. case_decide as Hbn.
      * subst b. rewrite lookup_insert_eq, Hzero. cbn. lia.
      * rewrite lookup_insert_ne by done. apply B1.
    + intros b x [[<- <-]|[Hne Hx]]%lookup_insert_Some; cbn; [by split_and!; [lia|lia|]|].
      destruct (B2 b x Hx) as (? & ? & ?). split_and!; [done|lia|done].
  - by apply Forall_app.
  - destruct Hw as [H1 H2 H3 H4 H5 H6 H7]. split; cbn.
    + intros v _ Hdc Hst. destruct (decide (hole = Some v)) as [Hh|Hh].
      * exists (next_ball s), (mkBall (i32 (Z.of_nat n)) 0 w). rewrite lookup_insert_eq. split; [done|]. by apply Hhole.
      * destruct (H1 v Hh Hdc Hst) as (b & x & Hx & ?). exists b, x. split; [|done].
        rewrite lookup_insert_ne; [done|]. intros <-. congruence.
    + intros u k b Hin. destruct (H2 u k b Hin) as [?|(k' & ? & ?)]; [by left|right]. exists k'. set_solver.
    + intros u k b x Hp [[<- <-]|[Hne Hx]]%lookup_insert_Some.
      * cbn. destruct Hp as [Hp|[Hp|Hp]%elem_of_app]; [|by eapply Hkey|].
        -- destruct (not_placed s ts hole u k (next_ball s) HI); [done|by left].
        -- destruct (not_placed s ts hole u k (next_ball s) HI); [done|by right].
      * apply (H3 u k b); [by apply Hpl|done].
    + destruct w as [| v e | |]; [refine (wf_incl _ _ _ _ H4); intros u w Huw; by destruct (Hwt w u Huw) as [?|(d & ? & _)]| | | ].
      * apply (wf_extend (λ u v, waits s ts v u) _ (λ u, TRegister u TXN_DCD (next_ball s) ∈ new) v); [done| |].
        -- intros u w Huw. destruct (Hwt w u Huw) as [?|(d & [= <- _] & ?)]; [by left|by right].
        -- intros u Hu Hr. destruct (Hscc v e u eq_refl Hu) as (_ & Hn' & _). apply Hn'.
           clear -Hr H5. induction Hr as [|x y z Hxy _ IH]; [done|]. etrans; [exact IH|by apply H5].
      * refine (wf_incl _ _ _ _ H4); intros u w Huw; by destruct (Hwt w u Huw) as [?|(d & ? & _)].
      * refine (wf_incl _ _ _ _ H4); intros u w Huw; by destruct (Hwt w u Huw) as [?|(d & ? & _)].
    + intros v u Hvu. destruct (Hwt v u Hvu) as [?|(d & -> & Hr)]; [by apply H5|]. by destruct (Hscc v d u eq_refl Hr) as (? & _).
    + intros v u Hvu Hst. destruct (Hwt v u Hvu) as [Hvu'|(d & -> & Hr)].
      * destruct (H6 v u Hvu' Hst) as [?|[?|[?|[?|(e & ?)]]]]; [tauto..| |];
          do 3 right; [left; set_solver|right; exists e; set_solver].
      * destruct (Hscc v d u eq_refl Hr) as (_ & _ & Ha). do 3 right. left. set_solver.
    + intros u Hu Hf. destruct (H7 u Hu Hf) as [?|(e & ?)]; [by left|right; exists e; set_solver].
Qed.

(** ** [to_decide] *)

Section ask_tasks.
Context (b k : Z) (U : gset Z).

Lemma elem_of_ask_tasks t : t ∈ ask_tasks ord b k U ↔ ∃ u, u ∈ U ∧ (t = TRegister u k b ∨ t = TAsk u).
Proof using Hord.
  unfold ask_tasks. rewrite list_elem_of_bind. split.
  - intros (u & Hu & Hin). exists u. split; [by rewrite Hord, elem_of_elements in Hin|]. set_solver.
  - intros (u & Hu & Ht). exists u. split; [set_solver|by rewrite Hord, elem_of_elements].
Qed.

Lemma ask_tasks_tokens c : sum_list_with (t_tokens c) (ask_tasks ord b k U) = if decide (c = b) then size U else 0%nat.
Proof using Hord.
  unfold ask_tasks. transitivity (if decide (c = b) then length (ord U) else 0%nat); [|by rewrite (ord_length ord Hord)].
  induction (ord U) as [|u l IH]; cbn; [by case_decide|]. rewrite IH. repeat case_decide; subst; done || lia.
Qed.

Lemma ask_tasks_cost : sum_list_with task_cost (ask_tasks ord b k U) = (8 * size U)%nat.
Proof using Hord.
  unfold ask_tasks. transitivity (8 * length (ord U))%nat; [|by rewrite (ord_length ord Hord)].
  induction (ord U) as [|u l IH]; cbn; [done|]. cbn in IH. rewrite IH. lia.
Qed.
End ask_tasks.

Lemma starting_ok s v e ts :
  Inv s (TDecide v e :: ts) None → during_commit (local_at s v) = false →
  Inv (set_local v set_during_commit s) ts (Some v).
Proof.
  intros [Hg Hb Hd Ht Hw] Hdc. set (s' := set_local v set_during_commit s).
  assert (∀ u, committed_ (local_at s' u) = committed_ (local_at s u) ∧ res_ (local_at s' u) = res_ (local_at s u) ∧
    during_asking (local_at s' u) = during_asking (local_at s u) ∧
    (during_commit (local_at s u) = true → during_commit (local_at s' u) = true) ∧
    (u ≠ v → during_commit (local_at s' u) = during_commit (local_at s u))) as Hl.
  { intros u. unfold s'. rewrite local_at_set. case_decide; [by subst|done]. }
  assert (during_commit (local_at s' v) = true) as Hv by (unfold s'; by rewrite local_at_set, decide_True).
  split; [exact Hg| | |by apply Forall_cons in Ht as [_ ?]|].
  - destruct Hb as [B1 B2]. split; [|exact B2]. intros b. rewrite <-B1, tokens_cons. done.
  - destruct Hd as [D1 D2 D3 D4 D5 D6 D7]. split; [| |exact D3|exact D4|exact D5| |exact D7].
    + intros u. destruct (Hl u) as [-> _]. apply D1.
    + intros u. destruct (Hl u) as (_ & -> & _). apply D2.
    + intros u. destruct (Hl u) as [-> _]. apply D6.
  - assert (∀ w u, waits s' ts w u → waits s (TDecide v e :: ts) w u) as Hwt.
    { intros w u (b & x & d & ? & ? & Hp). exists b, x, d. split_and!; [done..|]. destruct Hp; [by left|right; by right]. }
    destruct Hw as [H1 H2 H3 H4 H5 H6 H7]. split.
    + intros u Hne. destruct (Hl u) as (_ & _ & _ & _ & Heq). rewrite Heq by (by intros ->). by apply H1.
    + intros u k b Hin. destruct (H2 u k b Hin) as [?|(k' & ? & [?|?]%elem_of_cons)]; [by left|done|right; by exists k'].
    + intros u k b x Hp. apply (H3 u k b x). destruct Hp; [by left|right; by right].
    + refine (wf_incl _ _ _ _ H4). intros u w. apply Hwt.
    + intros w u Hwu. by apply H5, Hwt.
    + intros w u Hwu Hst. destruct (Hl u) as (_ & _ & -> & Hmono & _).
      destruct (H6 w u (Hwt _ _ Hwu) Hst) as [?|[?|[?|[[?|?]%elem_of_cons|(e' & [?|?]%elem_of_cons)]]]]; simplify_eq; try tauto.
      do 4 right. by exists e'.
    + intros u Hu Hf. destruct (Hl u) as (_ & _ & _ & Hmono & _).
      destruct (H7 u Hu Hf) as [?|(e' & [?|?]%elem_of_cons)]; simplify_eq; [left; tauto|by left|right; by exists e'].
Qed.

Lemma unstarted_start s v :
  v ∈ dom (txn_gra s) → during_commit (local_at s v) = false →
  unstarted s = (decide_cost (size (txn_gra s)) + unstarted (set_local v set_during_commit s))%nat.
Proof.
  intros [x Hx]%elem_of_dom Hdc. unfold unstarted. cbn [txn_gra set_local].
  rewrite !(msum_delete _ (txn_gra s) v x Hx). rewrite local_at_set, decide_True, Hdc by done. cbn [set_during_commit during_commit].
  f_equal. cbn. apply msum_ext. intros u y Hu. rewrite local_at_set, decide_False; [done|].
  intros ->. by rewrite lookup_delete_eq in Hu.
Qed.

(** A round of waiting: a counter for the members of [U] and itself. *)
Lemma round_ok s v w k U ts :
  Inv s ts (Some v) → v ∈ dom (txn_gra s) → waits_as v w → key_ok w k → k = TXN_CMT ∨ k = TXN_DCD →
  (∀ u, u ∈ U → u ∈ dom (txn_gra s) ∧ u ≠ v) →
  (∀ d u, w = SccAncCommit v d → u ∈ U → rtc (edge (txn_gra s)) u v ∧ ¬ rtc (edge (txn_gra s)) v u) →
  let s' := (new_ball (Z.of_nat (size U) + 1) w s).1 in
  Inv s' ((ask_tasks ord (next_ball s) k U ++ [TBall (next_ball s)]) ++ ts) None ∧ Frame s s' ∧
  (cost s' ((ask_tasks ord (next_ball s) k U ++ [TBall (next_ball s)]) ++ ts) ≤
   8 * size (txn_gra s) + 2 + ball_cost (size (txn_gra s)) (mkBall 0 0 w) + cost s ts)%nat.
Proof.
  intros HI Hv Hwv Hkw Hk HU Hscc.
  assert (U ⊆ dom (txn_gra s) ∖ {[v]}) as Hsub by (intros u Hu; destruct (HU u Hu); set_solver).
  assert (size U < size (txn_gra s))%nat as Hsz.
  { apply subseteq_size in Hsub. rewrite size_difference in Hsub by set_solver. rewrite size_singleton, size_dom in Hsub.
    assert (size (txn_gra s) ≠ 0%nat); [|lia]. rewrite <-size_dom. intros H0%size_empty_inv. set_solver. }
  pose proof (go_size _ (inv_graph _ _ _ _ _ HI)) as H31.
  replace (Z.of_nat (size U) + 1) with (Z.of_nat (S (size U))) by lia. split; [|split].
  - apply (new_ball_ok _ _ _ (Some v)); [done| |lia|lia| | | | |].
    + by destruct Hwv as (d & [->| ->]).
    + intros c. rewrite sum_list_with_app, ask_tasks_tokens. cbn. repeat case_decide; subst; done || lia.
    + apply Forall_app. split; [|by repeat constructor]. apply Forall_forall. intros t (u & Hu & [->| ->])%elem_of_ask_tasks; cbn.
      * split; [by apply HU|done].
      * by apply HU.
    + intros u i b [(x & _ & [[= -> -> ->]|?])%elem_of_ask_tasks|Hin%list_elem_of_singleton]%elem_of_app; [done|done|done].
    + by intros ? [= ->].
    + intros v' d u Hw Hin. destruct Hwv as (d' & [Hw'|Hw']); rewrite Hw' in Hw; simplify_eq.
      assert (u ∈ U) as Hu.
      { apply elem_of_app in Hin as [(x & Hx & [[= -> _]|?])%elem_of_ask_tasks|?%list_elem_of_singleton]; done. }
      destruct (Hscc _ u eq_refl Hu) as [? ?]. split_and!; [done..|].
      apply elem_of_app. left. apply elem_of_ask_tasks. eauto.
  - by apply frame_same.
  - rewrite !cost_split. cbn [new_ball fst txn_gra set_balls balls]. rewrite msum_insert_new.
    + rewrite !sum_list_with_app, ask_tasks_cost. cbn [sum_list_with task_cost].
      unfold unstarted, local_at. cbn [txn_gra set_balls local]. unfold ball_cost at 1 3. cbn. lia.
    + by destruct (fresh_ball s ts (Some v) (next_ball s) HI) as [? _].
Qed.

Lemma open_anc_dom g v u : tc (open_parent g) v u → u ∈ dom g.
Proof. intros Ht. induction Ht as [? ? [_ ?%undecided_dom]|]; done. Qed.

Lemma step_decide v e ts s : Inv s (TDecide v e :: ts) None → step_ok (TDecide v e) ts s.
Proof.
  intros HI. left. cbn [do_task]. unfold decide_task.
  pose proof (inv_graph _ _ _ _ _ HI) as Hg. pose proof (inv_tasks _ _ _ _ _ HI) as Ht.
  apply Forall_cons in Ht as [Hv Ht]. cbn in Hv. pose proof Hv as [x Hx]%elem_of_dom. unfold vertex. rewrite Hx. cbn [mbind result_bind].
  destruct (during_commit (local_at s v)) eqn:Hdc.
  - exists s, []. split_and!; [done| |done|apply cost_tasks; cbn; lia].
    eapply (replace_task _ _ _ []); [done|by constructor|set_solver..|]. by intros u d [= <- _].
  - destruct (find_txn_anc_opt_correct ord Hord (txn_gra s) v (go_wf _ Hg) Hv) as (anc & Hanc & Hin).
    cbn [txn_gra set_local]. rewrite Hanc. cbn [mbind result_bind].
    pose proof (starting_ok s v e ts HI Hdc) as HI'.
    destruct (round_ok _ v (AncFinish v e) TXN_CMT anc ts HI') as (HI2 & Hfr & Hc); [done|by eexists; left|done|by left| |done|].
    { intros u [Hu ?]%Hin. split; [by eapply open_anc_dom|done]. }
    eexists _, _. split; [done|]. split; [exact HI2|]. split.
    + etrans; [|exact Hfr]. by apply frame_same.
    + eapply Nat.le_lt_trans; [exact Hc|]. rewrite !cost_split. rewrite (unstarted_start s v Hv Hdc).
      cbn [txn_gra set_local balls ball_cost wish_ sum_list_with task_cost]. unfold decide_cost. lia.
Qed.

(** ** The commit of a component *)

Lemma exe_deferred_ok v t : dtxn_ok registry v t → ∃ ps, exe_deferred registry v t = Done ps.
Proof.
  intros [Hp Hf]. unfold exe_deferred. rewrite bool_decide_eq_true_2 by done. cbn [verify mbind result_bind].
  match goal with |- context [for_each ?f _ _] => enough (∀ a, ∃ ps, for_each f (dreqs_ t) a = Done ps) by eauto end.
  induction Hf as [|h l [Hh [x Hx]] _ IH]; intros ps; cbn; [by eexists|].
  unfold get_handler. rewrite Hx. cbn. rewrite bool_decide_eq_true_2 by done. cbn. apply IH.
Qed.

Lemma decided_snoc l v ps : decided_ids (l ++ [Decided v ps]) = decided_ids l ++ [v].
Proof. unfold decided_ids. by rewrite omap_app. Qed.

Section decide_one.
Context (s : Server) (u : Z) (d : TxnInfo) (m : gmap Z RCCDTxn) (ps : option (list Z)) (ts : list task) (hole : option Z) (k : Z).
Context (HI : Inv s ts hole) (Hd : data_at (txn_gra s) u = Some d) (Hst : status_ d < TXN_DCD).
Context (Hk : k ≤ TXN_CMT) (Htr : TTrigger u k ∈ ts).
Context (Hm : m = dtxns s ∨ m = delete u (dtxns s)).
Let d' := set_status (Z.lor (status_ d) TXN_DCD) d.
Let s' := emit (Decided u ps) (set_txn u d' (set_local u set_committed (set_dtxns m s))).

Lemma dec_status : status_ok d' ∧ TXN_DCD ≤ status_ d' ∧ status_ d ≤ status_ d'.
Proof using HI Hd.
  destruct (status_lor (status_ d) TXN_DCD) as (? & ? & ?); [by apply (go_status _ (inv_graph _ _ _ _ _ HI) u d)|by vm_compute|].
  by split_and!.
Qed.

Lemma dec_stat w : stat (txn_gra s') w = if decide (w = u) then status_ d' else stat (txn_gra s) w.
Proof using Hd. unfold stat. cbn. rewrite (upd_data _ u d d' Hd). by case_decide. Qed.

Lemma dec_servs w : servs (txn_gra s') w = servs (txn_gra s) w.
Proof using Hd. unfold servs. cbn. rewrite (upd_data _ u d d' Hd). case_decide; [subst; by rewrite Hd|done]. Qed.

Lemma dec_ev w i : ev (txn_gra s') w i = ev (txn_gra s) w i.
Proof using Hd. unfold ev. cbn. rewrite (upd_data _ u d d' Hd). case_decide; [subst; by rewrite Hd|done]. Qed.

Lemma dec_local w :
  during_commit (local_at s' w) = during_commit (local_at s w) ∧ during_asking (local_at s' w) = during_asking (local_at s w) ∧
  res_ (local_at s' w) = res_ (local_at s w) ∧ (committed_ (local_at s' w) = true ↔ committed_ (local_at s w) = true ∨ w = u).
Proof.
  change (local_at s' w) with (local_at (set_local u set_committed s) w). rewrite local_at_set.
  case_decide; [subst; cbn; tauto|]. split_and!; [done..|]. tauto.
Qed.

Lemma dec_graph : GraphOk (txn_gra s').
Proof using HI Hd.
  destruct (inv_graph _ _ _ _ _ HI) as [G1 G2 G3 G4 G5]. split; cbn.
  - by apply (upd_wf _ u d d' Hd).
  - intros w d1. rewrite (upd_data _ u d d' Hd). case_decide; [intros [= <-]; apply dec_status|apply G2].
  - intros w d1 i. rewrite (upd_data _ u d d' Hd). case_decide; [intros [= <-]; exact (G3 u d i Hd)|apply G3].
  - intros w d1. rewrite (upd_data _ u d d' Hd). case_decide; [intros [= <-]; exact (G4 u d Hd)|apply G4].
  - rewrite <-size_dom, upd_dom, size_dom. done.
Qed.

Lemma dec_balls : BallsOk (txn_gra s') ts (balls s') (next_ball s').
Proof using HI Hd.
  destruct (inv_balls _ _ _ _ _ HI) as [B1 B2]. split; cbn.
  - intros b. rewrite <-B1. f_equal. unfold tokens, g_tokens.
    pose proof (upd_sum (txn_gra s) u d d' Hd (d_tokens b)) as H. change (d_tokens b d') with (d_tokens b d) in H. lia.
  - intros b x Hx. destruct (B2 b x Hx) as (? & ? & ?). split_and!; [done..|]. eapply wish_ok_dom; [|done]. apply upd_dom.
Qed.

Lemma dec_decide : committed_ (local_at s u) = false → DecideOk site_id registry s'.
Proof using HI Hd Hst Hm.
  intros Hnc. destruct (inv_decide _ _ _ _ _ HI) as [D1 D2 D3 D4 D5 D6 D7]. destruct dec_status as (_ & Hge & _).
  assert (∀ w t, dtxns s' !! w = Some t → dtxns s !! w = Some t) as Hsub.
  { intros w t. cbn. destruct Hm as [->| ->]; [done|]. by intros [_ ?]%lookup_delete_Some. }
  split.
  - intros w. rewrite dec_stat. destruct (dec_local w) as (_ & _ & _ & ->). case_decide; [done|]. intros [?|?]; [by apply D1|done].
  - intros w. rewrite dec_stat. destruct (dec_local w) as (_ & _ & -> & _). case_decide as Hw; [lia|]. intros Hr Hlt.
    destruct (D2 w Hr Hlt) as [t Ht]. exists t. cbn. destruct Hm as [->| ->]; [done|]. by rewrite lookup_delete_ne.
  - intros w t Ht%Hsub. by apply D3.
  - intros w t Ht%Hsub. rewrite dec_servs. by apply D4.
  - change (NoDup (decided_ids (log s ++ [Decided u ps]))). rewrite decided_snoc. apply NoDup_app. split_and!; [done| |apply NoDup_singleton].
    intros w Hw ->%list_elem_of_singleton. apply D6 in Hw. congruence.
  - intros w. change (w ∈ decided_ids (log s ++ [Decided u ps]) ↔ committed_ (local_at s' w) = true).
    rewrite decided_snoc, elem_of_app, list_elem_of_singleton, D6. destruct (dec_local w) as (_ & _ & _ & ->). done.
  - intros c l. cbn. rewrite upd_dom. apply D7.
Qed.

Lemma dec_wait : WaitOk site_id s' ts hole.
Proof using HI Hd Hst Hk Htr Hm.
  destruct (inv_wait _ _ _ _ _ HI) as [H1 H2 H3 H4 H5 H6 H7]. destruct dec_status as (_ & Hge & Hle).
  assert (∀ w i b, placed (txn_gra s') ts w i b ↔ placed (txn_gra s) ts w i b) as Hpl by (intros; unfold placed; by rewrite dec_ev).
  assert (∀ v w, waits s' ts v w → waits s ts v w) as Hwt.
  { intros v w (b & x & e & ? & ? & Hp). exists b, x, e. split_and!; [done..|]. by apply Hpl. }
  assert (∀ w, stat (txn_gra s') w < TXN_DCD → stat (txn_gra s) w < TXN_DCD) as Hlt.
  { intros w. rewrite dec_stat. case_decide; [lia|done]. }
  split.
  - intros w Hh. destruct (dec_local w) as (-> & _). intros Hdc Hs. by apply H1, Hlt.
  - intros w i b. rewrite dec_ev, dec_stat. intros Hb. case_decide as Hw; [|by apply (H2 w i b)]. subst w. right. exists k. split; [|done].
    destruct (ev_key s u d i b (inv_graph _ _ _ _ _ HI) Hd Hb) as [_ Hi]. unfold TXN_CMT, TXN_DCD in *. lia.
  - intros w i b x Hp. by apply (H3 w i b x), Hpl.
  - refine (wf_incl _ _ _ _ H4). intros w v. apply Hwt.
  - intros v w Hvw. eapply reach_mono, H5, Hwt; [|done]. intros x y. cbn. by rewrite (upd_out _ u d).
  - intros v w Hvw. rewrite dec_servs. destruct (dec_local w) as (-> & -> & _). intros Hs. apply (H6 v w); [by apply Hwt|by apply Hlt].
  - intros w. rewrite dec_servs. destruct (dec_local w) as (-> & _). intros Hs (d1 & Hd1 & Hf). apply H7; [done|].
    cbn in Hd1. rewrite (upd_data _ u d d' Hd) in Hd1. case_decide as Hw; [|by exists d1]. rewrite Hw. exists d. split; [done|].
    apply (inj Some) in Hd1. rewrite <-Hd1 in Hf. unfold d' in Hf. rewrite lor_DCD_finish in Hf; [done|]. by apply (go_status _ (inv_graph _ _ _ _ _ HI) u).
Qed.

Lemma dec_frame : Frame s s'.
Proof using HI Hd Hm.
  destruct dec_status as (_ & Hge & Hle). split.
  - apply upd_dom.
  - intros x y. by apply (upd_out _ u d).
  - apply dec_servs.
  - intros w. rewrite dec_stat. case_decide; [subst|done]. unfold stat. by rewrite Hd.
  - intros w t Ht. rewrite dec_stat. cbn. destruct Hm as [->| ->]; [by left|]. case_decide as Hw; [by right|left].
    by rewrite lookup_delete_ne.
  - done.
  - apply prefix_app_r, reflexivity.
Qed.

Lemma dec_cost : cost s' ts = cost s ts.
Proof using Hd.
  rewrite !cost_split. pose proof (upd_sum (txn_gra s) u d d' Hd n_events) as H1. change (n_events d') with (n_events d) in H1.
  assert (unstarted s' = unstarted s) as ->.
  { change (unstarted (set_gra (alter (set_data d') u (txn_gra s)) (set_local u set_committed s)) = unstarted s).
    rewrite unstarted_graph by apply upd_dom. by apply unstarted_local. }
  unfold events. cbn [txn_gra s' emit set_txn set_gra set_local set_dtxns balls].
  assert (size (alter (set_data d') u (txn_gra s)) = size (txn_gra s)) as -> by (by rewrite <-!size_dom, upd_dom).
  lia.
Qed.
End decide_one.

Lemma decide_one_ok s u ts hole k :
  Inv s ts hole → u ∈ dom (txn_gra s) → k ≤ TXN_CMT → TTrigger u k ∈ ts →
  ∃ s', decide_txn site_id registry s u = Done s' ∧ Inv s' ts hole ∧ Frame s s' ∧ TXN_DCD ≤ stat (txn_gra s') u ∧
    cost s' ts = cost s ts ∧ balls s' = balls s.
Proof.
  intros HI Hu Hk Htr. unfold decide_txn. destruct (data_done s u Hu) as (d & Hd & ->). cbn [mbind result_bind].
  pose proof (go_status _ (inv_graph _ _ _ _ _ HI) u d Hd) as Hok.
  assert (stat (txn_gra s) u = status_ d) as Hst by (unfold stat; by rewrite Hd). case_decide as Hdcd.
  { exists s. split_and!; [done..| |done|done]. rewrite Hst. by apply is_commit_ge, is_commit_land. }
  assert (status_ d < TXN_DCD) as Hlt.
  { apply Znot_ge_lt. intros Hge. assert (is_commit d = true) as Hc by (apply is_commit_ge; [done|lia]). by apply is_commit_land in Hc. }
  pose proof (inv_decide _ _ _ _ _ HI) as HD.
  assert (committed_ (local_at s u) = false) as Hnc.
  { destruct (committed_ (local_at s u)) eqn:Hc; [|done]. apply (do_committed _ _ _ HD) in Hc. lia. }
  assert (∃ m ps, (m = dtxns s ∨ m = delete u (dtxns s)) ∧
    (if res_ (local_at s u) then
       t ← get_dtxn u s; ps ← exe_deferred registry u t; Done (set_dtxns (delete u (dtxns s)) s, Some ps)
     else Done (s, None)) = Done (set_dtxns m s, ps)) as (m & ps & Hm & ->).
  { destruct (res_ (local_at s u)) eqn:Hr.
    - destruct (do_res _ _ _ HD u Hr) as [t Ht]; [lia|]. unfold get_dtxn. rewrite Ht. cbn [mbind result_bind].
      destruct (exe_deferred_ok u t) as [ps ->]; [by apply (do_dtxn _ _ _ HD)|]. cbn. eauto.
    - exists (dtxns s), None. split; [by left|]. by destruct s. }
  cbn [mbind result_bind]. change (local_at (set_dtxns m s) u) with (local_at s u). rewrite Hnc. cbn [negb verify mbind result_bind].
  eexists. split; [done|]. cbn [union_status andb fst]. split; [|split; [|split; [|split]]].
  - split; [by eapply dec_graph|by eapply dec_balls|by eapply dec_decide|
      eapply tasks_ok_dom; [|apply HI]; apply upd_dom|by eapply dec_wait].
  - by eapply dec_frame.
  - rewrite (dec_stat _ _ _ _ _ Hd), decide_True by done. by eapply dec_status.
  - by eapply dec_cost.
  - done.
Qed.

Lemma decide_all_ok s us ts hole :
  Inv s ts hole → (∀ u, u ∈ us → u ∈ dom (txn_gra s) ∧ TTrigger u (-128) ∈ ts) →
  ∃ s', for_each (decide_txn site_id registry) us s = Done s' ∧ Inv s' ts hole ∧ Frame s s' ∧
    (∀ u, u ∈ us → TXN_DCD ≤ stat (txn_gra s') u) ∧ cost s' ts = cost s ts.
Proof.
  intros HI Hus.
  apply (for_each_inv (decide_txn site_id registry)
    (λ done s', Inv s' ts hole ∧ Frame s s' ∧ (∀ u, u ∈ done → TXN_DCD ≤ stat (txn_gra s') u) ∧ cost s' ts = cost s ts)).
  - split_and!; [done..| |done]. by intros u ?%not_elem_of_nil.
  - intros l u rest s1 Hl (HI1 & Hfr & Hdec & Hc). destruct (Hus u) as [Hu Htr]; [rewrite Hl; set_solver|].
    destruct (decide_one_ok s1 u ts hole (-128)) as (s2 & Hrun & HI2 & Hfr2 & Hst & Hc2 & _);
      [done|by rewrite (fr_dom _ _ Hfr)|by vm_compute|done|].
    exists s2. split; [done|]. split_and!; [done|by etrans| |congruence].
    intros w [Hw| ->%list_elem_of_singleton]%elem_of_app; [|done]. etrans; [by apply Hdec|apply (fr_stat _ _ Hfr2)].
Qed.

(** ** Counters *)

Lemma balls_change s b ts m hole :
  Inv s (TBall b :: ts) None →
  (∀ c x', m !! c = Some x' → ∃ x, balls s !! c = Some x ∧ wish_ x' = wish_ x) →
  (∀ v c x, hole ≠ Some v → balls s !! c = Some x → waits_as v (wish_ x) → ∃ c' x', m !! c' = Some x' ∧ waits_as v (wish_ x')) →
  BallsOk (txn_gra s) ts m (next_ball s) → Inv (set_balls m (next_ball s) s) ts hole.
Proof.
  intros [Hg Hb Hd Ht Hw] Hback Hforth HB. set (s' := set_balls m (next_ball s) s).
  assert (∀ u i c, placed (txn_gra s) ts u i c → placed (txn_gra s) (TBall b :: ts) u i c) as Hpl.
  { intros u i c [?|?]; [by left|right; by right]. }
  assert (∀ v u, waits s' ts v u → waits s (TBall b :: ts) v u) as Hwt.
  { intros v u (c & x & e & Hx & Hwx & Hp). destruct (Hback c x Hx) as (x0 & Hx0 & Heq). exists c, x0, e.
    split_and!; [done|congruence|]. by apply Hpl. }
  split; [exact Hg|exact HB|by destruct Hd|by apply Forall_cons in Ht as [_ ?]|].
  destruct Hw as [H1 H2 H3 H4 H5 H6 H7]. split.
  - intros v Hh Hdc Hst. destruct (H1 v) as (c & x & Hx & Hwx); [done..|]. by apply (Hforth v c x).
  - intros u i c Hc. destruct (H2 u i c Hc) as [?|(k' & ? & [?|?]%elem_of_cons)]; [by left|done|right; by exists k'].
  - intros u i c x Hp Hx. destruct (Hback c x Hx) as (x0 & Hx0 & Heq). rewrite Heq. by apply (H3 u i c x0), Hx0; apply Hpl.
  - refine (wf_incl _ _ _ _ H4). intros u v. apply Hwt.
  - intros v u Hvu. by apply H5, Hwt.
  - intros v u Hvu Hst. destruct (H6 v u (Hwt _ _ Hvu) Hst) as [?|[?|[?|[[?|?]%elem_of_cons|(e & [?|?]%elem_of_cons)]]]];
      [tauto..|done|tauto|done|]. do 4 right. by exists e.
  - intros u Hu Hf. destruct (H7 u Hu Hf) as [?|(e & [?|?]%elem_of_cons)]; [by left|done|right; by exists e].
Qed.

Lemma ball_live s b ts hole :
  Inv s (TBall b :: ts) hole → ∃ x, balls s !! b = Some x ∧ n_ready_ x + 1 ≤ n_wait_ x ∧ wish_ok (txn_gra s) (wish_ x).
Proof.
  intros HI. destruct (inv_balls _ _ _ _ _ HI) as [B1 B2]. specialize (B1 b). rewrite tokens_cons in B1. cbn in B1.
  rewrite decide_True in B1 by done. destruct (balls s !! b) as [x|] eqn:Hx; cbn in B1; [|lia].
  exists x. destruct (B2 b x Hx) as (? & _ & ?). split_and!; [done|lia|done].
Qed.

Lemma ball_count s b x ts :
  Inv s (TBall b :: ts) None → balls s !! b = Some x → n_ready_ x + 1 < n_wait_ x →
  Inv (set_balls (<[b := mkBall (n_wait_ x) (n_ready_ x + 1) (wish_ x)]> (balls s)) (next_ball s) s) ts None.
Proof.
  intros HI Hx Hlt. apply balls_change with b; [done| | |].
  - intros c x' [[<- <-]|[_ ?]]%lookup_insert_Some; eauto.
  - intros v c y _ Hy Hw. destruct (decide (c = b)) as [->|]; [|exists c, y; by rewrite lookup_insert_ne].
    eexists b, _. rewrite lookup_insert_eq. split; [done|]. cbn. congruence.
  - destruct (inv_balls _ _ _ _ _ HI) as [B1 B2]. split.
    + intros c. specialize (B1 c). rewrite tokens_cons in B1. cbn in B1. destruct (decide (b = c)) as [->|].
      * rewrite lookup_insert_eq. rewrite Hx in B1. cbn in *. lia.
      * rewrite lookup_insert_ne by done. lia.
    + intros c x' [[<- <-]|[_ ?]]%lookup_insert_Some; [|by apply B2]. destruct (B2 b x Hx) as (? & ? & ?). by split_and!.
Qed.

Definition hole_of (w : wish) : option Z := match w with AncFinish v _ | SccAncCommit v _ => Some v | _ => None end.

Lemma ball_fire s b x ts :
  Inv s (TBall b :: ts) None → balls s !! b = Some x → n_ready_ x + 1 = n_wait_ x →
  Inv (set_balls (delete b (balls s)) (next_ball s) s) ts (hole_of (wish_ x)).
Proof.
  intros HI Hx Heq. apply balls_change with b; [done| | |].
  - intros c x' [_ ?]%lookup_delete_Some; eauto.
  - intros v c y Hh Hy Hw. exists c, y. split; [|done]. rewrite lookup_delete_ne; [done|]. intros <-.
    assert (y = x) as -> by congruence. destruct Hw as (e & [He|He]); rewrite He in Hh; done.
  - destruct (inv_balls _ _ _ _ _ HI) as [B1 B2]. split.
    + intros c. specialize (B1 c). rewrite tokens_cons in B1. cbn in B1. destruct (decide (b = c)) as [->|].
      * rewrite lookup_delete_eq. rewrite Hx in B1. cbn in *. lia.
      * rewrite lookup_delete_ne by done. lia.
    + intros c x' [_ ?]%lookup_delete_Some. by apply B2.
Qed.

Lemma hole_decided s ts v : Inv s ts (Some v) → TXN_DCD ≤ stat (txn_gra s) v → Inv s ts None.
Proof.
  intros [Hg Hb Hd Ht Hw] Hv. split; [done..|]. destruct Hw as [H1 H2 H3 H4 H5 H6 H7]. split; [|done..].
  intros u _ Hdc Hst. apply H1; [|done..]. intros [= ->]. lia.
Qed.

(** ** All calls *)

Definition triggers (us : list Z) : list task := (λ u, TTrigger u (-128)) <$> us.

Lemma triggers_cost us : sum_list_with task_cost (triggers us) = (258 * length us)%nat.
Proof. unfold triggers. induction us as [|u us IH]; cbn -[Z.to_nat Nat.mul] in *; [done|]. rewrite IH. cbn. lia. Qed.

Lemma triggers_inert g us : (∀ u, u ∈ us → u ∈ dom g) → Forall (inert g) (triggers us).
Proof. intros Hus. apply Forall_forall. intros t (u & -> & Hu)%list_elem_of_fmap. by apply Hus. Qed.

Lemma connected_dom g v u : graph_wf g → v ∈ dom g → connected g v u → u ∈ dom g.
Proof. intros Hg Hv [Hr _]. apply rtc_inv_r in Hr as [->|(y & _ & He)]; [done|by eapply edge_dom]. Qed.

(** [find_txn_scc_nearest_anc]: the parents of the component from outside it. *)
Lemma nearest_anc_ok g v :
  graph_wf g → v ∈ dom g →
  ∃ U, find_txn_scc_nearest_anc ord g v ∅ = Done U ∧
    ∀ u, u ∈ U → u ∈ dom g ∧ u ≠ v ∧ rtc (edge g) u v ∧ ¬ rtc (edge g) v u.
Proof.
  intros Hg Hv. unfold find_txn_scc_nearest_anc. destruct (find_scc_spec ord Hord g Hg v Hv) as (scc & -> & _ & Hscc).
  cbn [mbind result_bind]. eexists. split; [done|].
  assert (∀ l X u, u ∈ foldl (λ s w, find_txn_nearest_anc g w s) X l → u ∈ X ∨ ∃ w, w ∈ l ∧ u ∈ parents g w) as Hfold.
  { induction l as [|w l IH]; intros X u; cbn; [by left|]. intros [Hu|(w' & ? & ?)]%IH; [|right; exists w'; set_solver].
    unfold find_txn_nearest_anc in Hu. apply elem_of_union in Hu as [?|?]; [by left|right; exists w; set_solver]. }
  intros u [[?|(w & Hw & Hp)]%Hfold Hn]%elem_of_difference; [set_solver|]. rewrite elem_of_list_to_set in Hn.
  assert (rtc (edge g) u v) as Hr.
  { apply Hscc in Hw as [_ Hw]. eapply rtc_l; [|exact Hw]. by apply (parent_edge g Hg). }
  split_and!; [by eapply parent_dom| |done|].
  - intros ->. apply Hn, Hscc. done.
  - intros Hr'. by apply Hn, Hscc.
Qed.

Lemma wish_scc s v e ts :
  Inv s ts (Some v) → v ∈ dom (txn_gra s) →
  (∃ s' new, do_wish site_id ord registry (SccAncCommit v e) s = Done (s', new) ∧ Inv s' (new ++ ts) None ∧ Frame s s' ∧
     (cost s' (new ++ ts) ≤ scc_cost (size (txn_gra s)) + cost s ts)%nat) ∨
  (do_wish site_id ord registry (SccAncCommit v e) s = Crash assert_failed ∧
   sorted_scc ord (txn_gra s) v [] = Crash assert_failed).
Proof.
  intros HI Hv. pose proof (inv_graph _ _ _ _ _ HI) as Hg. cbn [do_wish].
  destruct (data_done s v Hv) as (d & Hd & ->). cbn [mbind result_bind].
  assert (stat (txn_gra s) v = status_ d) as Hst by (unfold stat; by rewrite Hd).
  destruct (is_commit d) eqn:Hcm.
  - left. exists s, [TReply e]. split; [done|]. split; [|split; [done|]].
    + apply push_inert; [|by repeat constructor]. apply (hole_decided _ _ v HI). rewrite Hst. apply is_commit_ge; [|done].
      by apply (go_status _ Hg v).
    + rewrite !cost_split. cbn [app sum_list_with task_cost]. unfold scc_cost. lia.
  - destruct (sorted_scc_members ord (txn_gra s) v Hord (go_wf _ Hg) Hv) as [Hcr|(sscc & Hss & Hnd & Hin)];
      [right; by rewrite Hcr|left]. rewrite Hss. cbn [mbind result_bind].
    assert (∀ u, u ∈ sscc → u ∈ dom (txn_gra s)) as Hdom.
    { intros u Hu%Hin. eapply connected_dom; [apply Hg|done|done]. }
    assert (Inv s ((triggers sscc ++ [TReply e]) ++ ts) (Some v)) as HI1.
    { apply push_inert; [done|]. apply Forall_app. split; [by apply triggers_inert|by repeat constructor]. }
    destruct (decide_all_ok s sscc _ _ HI1) as (s' & -> & HI2 & Hfr & Hdec & Hc).
    { intros u Hu. split; [by apply Hdom|]. apply elem_of_app. left. apply elem_of_app. left.
      apply list_elem_of_fmap. eauto. }
    eexists _, _. split; [done|]. split; [|split; [done|]].
    + eapply hole_decided; [exact HI2|]. apply Hdec. by apply Hin.
    + fold (triggers sscc). rewrite Hc. assert (length sscc ≤ size (txn_gra s))%nat as Hlen.
      { rewrite <-(size_list_to_set (C:=gset Z)), <-size_dom by done. apply subseteq_size. intros u. rewrite elem_of_list_to_set. apply Hdom. }
      rewrite !cost_split, !sum_list_with_app, triggers_cost. cbn [sum_list_with task_cost]. unfold scc_cost. lia.
Qed.

Lemma step_ball b ts s : Inv s (TBall b :: ts) None → step_ok (TBall b) ts s.
Proof.
  intros HI. unfold step_ok. cbn [do_task]. unfold ball_task.
  destruct (ball_live s b ts None HI) as (x & Hx & Hle & Hwok). rewrite Hx. rewrite bool_decide_eq_true_2 by done.
  cbn [verify mbind result_bind]. set (n := size (txn_gra s)).
  assert (cost s (TBall b :: ts) = 2 + cost s ts)%nat as Hc0 by (rewrite !cost_split; cbn; lia). rewrite Hc0.
  case_decide as Hfull.
  - pose proof (ball_fire s b x ts HI Hx Hfull) as HI1. set (s1 := set_balls (delete b (balls s)) (next_ball s) s) in *.
    assert (cost s ts = ball_cost n x + cost s1 ts)%nat as Hc1.
    { rewrite !cost_split. cbn [s1 txn_gra set_balls balls]. rewrite (msum_delete _ (balls s) b x Hx).
      change (unstarted s1) with (unstarted s). fold n. lia. }
    rewrite Hc1. assert (Frame s s1) as Hfr1 by by apply frame_same.
    unfold ball_cost. destruct (wish_ x) as [v e|v e|tid e|e]; cbn [hole_of] in HI1; cbn in Hwok.
    + left. cbn [do_wish]. destruct (nearest_anc_ok (txn_gra s) v) as (U & HU & Hin); [apply HI|done|].
      change (txn_gra s1) with (txn_gra s). rewrite HU. cbn [mbind result_bind].
      destruct (round_ok s1 v (SccAncCommit v e) TXN_DCD U ts HI1) as (HI2 & Hfr & Hc);
        [done|by eexists; right|done|by right|intros u Hu; by destruct (Hin u Hu) as (? & ? & _)| |].
      { intros d u [= <-] Hu. by destruct (Hin u Hu) as (_ & _ & ? & ?). }
      eexists _, _. split; [done|]. split; [exact HI2|]. split; [by etrans|].
      eapply Nat.le_lt_trans; [exact Hc|]. cbn [ball_cost wish_]. change (size (txn_gra s1)) with n. unfold anc_cost. lia.
    + destruct (wish_scc s1 v e ts HI1 Hwok) as [(s2 & new & -> & HI2 & Hfr & Hc)|[-> Hcr]].
      * left. eexists _, _. split; [done|]. split; [done|]. split; [by etrans|]. change (size (txn_gra s1)) with n in Hc. lia.
      * right. split; [done|]. by exists v.
    + left. cbn [do_wish]. unfold sub_txn_graph.
      rewrite bool_decide_eq_true_2 by (by apply elem_of_dom). cbn [verify mbind result_bind].
      destruct (find_txn_anc_opt_correct ord Hord (txn_gra s) tid) as (A & HA & _); [apply HI|done|].
      change (txn_gra s1) with (txn_gra s). rewrite HA. cbn [mbind result_bind]. eexists _, []. split; [done|].
      split; [by apply emit_ok|]. split; [etrans; [exact Hfr1|]; apply frame_same; [done..|]; apply prefix_app_r, reflexivity|].
      change (cost (emit _ s1) ([] ++ ts)) with (cost s1 ts). lia.
    + left. cbn [do_wish]. eexists _, []. split; [done|].
      split; [by apply emit_ok|]. split; [etrans; [exact Hfr1|]; apply frame_same; [done..|]; apply prefix_app_r, reflexivity|].
      change (cost (emit _ s1) ([] ++ ts)) with (cost s1 ts). lia.
  - left. eexists _, []. split; [done|]. split; [apply ball_count; [done..|lia]|]. split; [by apply frame_same|].
    rewrite !cost_split. cbn [app txn_gra set_balls balls].
    pose proof (msum_insert (λ _, ball_cost n) (balls s) b x (mkBall (n_wait_ x) (n_ready_ x + 1) (wish_ x)) Hx) as Hm.
    cbn beta in Hm. change (ball_cost n (mkBall (n_wait_ x) (n_ready_ x + 1) (wish_ x))) with (ball_cost n x) in Hm.
    match goal with |- context [unstarted ?s'] => change (unstarted s') with (unstarted s) end. fold n.
    match type of Hm with (?A + _ = _ + _)%nat => set (msum1 := A) in * end. lia.
Qed.

Lemma step_task t ts s : Inv s (t :: ts) None → step_ok t ts s.
Proof.
  destruct t; [apply step_trigger|apply step_register|apply step_ball|apply step_decide|apply step_ask|apply step_reply].
Qed.

(** ** The whole stack *)

(** Edges with a component on which an assertion of [sorted_scc] fails: no start vertex,
    or a member that is never reached. *)
Definition unsortable (edges : Z → Z → option Z) : Prop :=
  ∃ g v, GraphOk g ∧ (∀ u w, out_e g u w = edges u w) ∧ v ∈ dom g ∧ sorted_scc ord g v [] = Crash assert_failed.

Lemma run_tasks_ok fuel ts s :
  Inv s ts None → (cost s ts ≤ fuel)%nat →
  (∃ s', run_tasks site_id ord registry fuel ts s = Done s' ∧ Inv s' [] None ∧ Frame s s') ∨
  (run_tasks site_id ord registry fuel ts s = Crash assert_failed ∧ unsortable (out_e (txn_gra s))).
Proof.
  revert ts s. induction fuel as [|fuel IH]; intros ts s HI Hf.
  - destruct ts as [|t ts]; [left; by exists s|]. exfalso. rewrite cost_split in Hf. cbn [sum_list_with] in Hf.
    assert (0 < task_cost t)%nat by (destruct t; cbn -[Z.to_nat]; lia). lia.
  - destruct ts as [|t ts]; [left; by exists s|]. cbn [run_tasks].
    destruct (step_task t ts s HI) as [(s1 & new & -> & HI1 & Hfr & Hc)|[-> (v & Hv & Hcr)]].
    + cbn [mbind result_bind].
      destruct (IH (new ++ ts) s1 HI1) as [(s2 & -> & HI2 & Hfr2)|[-> (g & v & Hg & Ho & Hv & Hcr)]]; [lia|left|right].
      * exists s2. split; [done|]. split; [done|by etrans].
      * split; [done|]. exists g, v. split_and!; [done| |done..]. intros u w. by rewrite Ho, (fr_out _ _ Hfr).
    + right. split; [done|]. exists (txn_gra s), v. split_and!; [apply HI|done..].
Qed.

Lemma run_all_ok ts s :
  Inv s ts None →
  (∃ s', run_all site_id ord registry ts s = Done s' ∧ Inv s' [] None ∧ Frame s s') ∨
  (run_all site_id ord registry ts s = Crash assert_failed ∧ unsortable (out_e (txn_gra s))).
Proof. intros HI. by apply run_tasks_ok. Qed.
End steps.
