(* ===== verification/RccRuns.v ===== *)
(** * The ROCOCO server: sequences of requests

    Every request of Rcc.v keeps the invariant of RccInv.v; the theorems on what a
    server does for any sequence of requests within the protocol, and runs that show
    where the code does not keep conflicting transactions in one order. *)

From Stdlib Require Import Wellfounded.
From S2P Require Import Prelude Graph GraphSearch Tarjan SccSort Rcc RccInv RccSteps.

Section requests.
Context (site_id : Z) (ord : gset Z → list Z) (Hord : ∀ s, ord s ≡ₚ elements s).
Context (registry : Z * Z → option handler).

Abbreviation Inv := (Inv site_id registry).

(** ** Growing the graph *)

Definition evs (g : Graph) (u : Z) : gmap Z (list Z) := default ∅ (events_ <$> data_at g u).

Lemma ev_evs g u k : ev g u k = default [] (evs g u !! k).
Proof. unfold ev, evs. destruct (data_at g u) as [d|]; cbn; [done|]. by rewrite lookup_empty. Qed.

Lemma tokens_evs b g G ts : (∀ u, evs G u = evs g u) → tokens b G ts = tokens b g ts.
Proof.
  intros He. unfold tokens, g_tokens. f_equal. apply msum_value. intros u. specialize (He u). unfold evs, data_at in He.
  assert (∀ o : option Vertex, from_option (λ x, d_tokens b (v_data x)) 0%nat o =
    msum (λ _ l, occ b l) (default ∅ (events_ <$> (v_data <$> o)))) as Hv by (intros [x|]; done).
  by rewrite !Hv, He.
Qed.

(** Vertices, edges, servers and statuses may be added, if the vertices whose status
    changes are triggered and the involved ones that start finishing are decided. *)
Lemma grow_inv s G us extra :
  Inv s [] None → GraphOk G → dom (txn_gra s) ⊆ dom G →
  (∀ u w, is_Some (out_e (txn_gra s) u w) → is_Some (out_e G u w)) →
  (∀ u, evs G u = evs (txn_gra s) u) → (∀ u, servs (txn_gra s) u ⊆ servs G u) →
  (∀ u, stat (txn_gra s) u ≤ stat G u) → (∀ u, stat G u = stat (txn_gra s) u ∨ u ∈ us) →
  (∀ u, site_id ∈ servs G u → finishing G u →
     (site_id ∈ servs (txn_gra s) u ∧ finishing (txn_gra s) u) ∨ ∃ e, TDecide u e ∈ extra) →
  (∀ u, u ∈ us → u ∈ dom G) → (∀ t, t ∈ extra → ∃ u e, t = TDecide u e ∧ u ∈ dom G) →
  Inv (set_gra G s) (triggers us ++ extra) None.
Proof.
  intros HI HG Hdom Hout Hev Hsv Hst Hus Hinv Hud Hex. pose proof HI as [Hg Hb Hd Ht Hw].
  assert (∀ u k b, ¬ TRegister u k b ∈ triggers us ++ extra) as Hnoreg.
  { intros u k b [(? & ? & _)%list_elem_of_fmap|(? & ? & ? & _)%Hex]%elem_of_app; done. }
  assert (∀ u k b, placed G (triggers us ++ extra) u k b → placed (txn_gra s) [] u k b) as Hpl.
  { intros u k b [Hp|?%Hnoreg]; [left|done]. rewrite ev_evs, Hev in Hp. by rewrite ev_evs. }
  assert (∀ v u, waits (set_gra G s) (triggers us ++ extra) v u → waits s [] v u) as Hwt.
  { intros v u (b & x & d & ? & ? & Hp). exists b, x, d. split_and!; [done..|]. by apply Hpl. }
  assert (∀ u, stat G u < TXN_DCD → stat (txn_gra s) u < TXN_DCD) as Hlt by (intros u; specialize (Hst u); lia).
  split; [done| | | |].
  - destruct Hb as [B1 B2]. split; cbn.
    + intros b. rewrite tokens_app. assert (sum_list_with (t_tokens b) (triggers us) = 0%nat) as ->.
      { unfold triggers. clear. induction us; cbn; lia. }
      assert (sum_list_with (t_tokens b) extra = 0%nat) as Hz.
      { destruct (decide (sum_list_with (t_tokens b) extra = 0%nat)) as [|Hn]; [done|exfalso].
        apply t_tokens_elem in Hn as [(? & ? & ? & _)%Hex|(u & k & (? & ? & ? & _)%Hex)]; done. }
      rewrite <-B1. rewrite (tokens_evs b (txn_gra s) G extra Hev). unfold tokens. rewrite Hz. cbn. lia.
    + intros b x Hx. destruct (B2 b x Hx) as (? & ? & Hok). split_and!; [done..|]. destruct (wish_ x); cbn in *; set_solver.
  - destruct Hd as [D1 D2 D3 D4 D5 D6 D7]. split; cbn; [| |exact D3| |exact D5|exact D6|].
    + intros v Hv. etrans; [by apply D1|apply Hst].
    + intros v Hv Hl. by apply D2, Hlt.
    + intros v t Hv Hr. by eapply Hsv, D4.
    + intros c l Hc. by eapply Hdom, D7.
  - apply Forall_app. split; apply Forall_forall; cbn.
    + intros t (u & -> & Hu)%list_elem_of_fmap. by apply Hud.
    + intros t (u & e & -> & Hu)%Hex. done.
  - destruct Hw as [H1 H2 H3 H4 H5 H6 H7]. split.
    + intros v Hh Hdc Hl. by apply H1, Hlt.
    + intros u k b Hin. cbn in Hin. rewrite ev_evs, Hev, <-ev_evs in Hin.
      destruct (Hus u) as [Heq|Hu].
      * left. cbn. rewrite Heq. destruct (H2 u k b Hin) as [?|(k' & _ & ?%not_elem_of_nil)]; done.
      * right. exists (-128). split.
        -- assert (∃ d, data_at (txn_gra s) u = Some d) as [d Hd'].
           { unfold ev in Hin. destruct (data_at (txn_gra s) u); [eauto|by apply not_elem_of_nil in Hin]. }
           destruct (ev_key s u d k b Hg Hd' Hin) as [_ [-> | ->]]; by vm_compute.
        -- apply elem_of_app. left. apply list_elem_of_fmap. eauto.
    + intros u k b x Hp. by apply (H3 u k b x), Hpl.
    + refine (wf_incl _ _ _ _ H4). intros u v. apply Hwt.
    + intros v u Hvu. eapply reach_mono, H5, Hwt; [|done]. apply Hout.
    + intros v u Hvu Hl. destruct (H6 v u (Hwt _ _ Hvu) (Hlt _ Hl)) as [?|[?|[?|[?%not_elem_of_nil|(e & ?%not_elem_of_nil)]]]];
        [left; by apply Hsv|tauto..|done|done].
    + intros u Hu Hf. destruct (Hinv u Hu Hf) as [[Hu' Hf']|(e & He)]; [|right; exists e; set_solver].
      destruct (H7 u Hu' Hf') as [?|(e & ?%not_elem_of_nil)]; [by left|done].
Qed.

(** Pushing a decision alone. *)
Lemma push_decide s v e : Inv s [] None → v ∈ dom (txn_gra s) → Inv s [TDecide v e] None.
Proof.
  intros HI Hv. replace s with (set_gra (txn_gra s) s) by (by destruct s).
  apply (grow_inv s (txn_gra s) [] [TDecide v e]); [done|apply HI|done..| | | |].
  - by left.
  - by left.
  - by intros u ?%not_elem_of_nil.
  - intros t ->%list_elem_of_singleton. eauto.
Qed.

(** ** A received graph *)

Definition known_graph (s : Server) (gra : Graph) : Prop :=
  gra ≠ ∅ ∧ graph_wf gra ∧ Z.of_nat (size (txn_gra s) + size gra) < 2 ^ 31 - 1 ∧
  ∀ u d, data_at gra u = Some d →
    status_ok d ∧ events_ d = ∅ ∧ servers_ d ≠ ∅ ∧ (site_id ∈ servers_ d → site_id ∈ servs (txn_gra s) u).

Lemma union_fold g gra sv :
  graph_wf g → graph_wf gra →
  let G := foldl (union_vertex site_id ord gra sv) g (ord (dom gra)) in
  graph_wf G ∧ (∀ u w, out_e G u w = join_rel (out_e g u w) (out_e gra u w)) ∧
  (∀ u, data_at G u = merge_data site_id sv (data_at g u) (data_at gra u)).
Proof using Hord.
  intros Hg Hgra G.
  assert (union_inv site_id g gra sv [] g) as H0.
  { split; [done|by intros x ?%not_elem_of_nil..|by left|].
    intros x y. by rewrite decide_False by apply not_elem_of_nil. }
  destruct (union_loop site_id ord Hord g gra sv [] g (ord (dom gra)) Hgra) as [Hwf Hd Hdone Htodo Hout];
    [intros x; by rewrite (ord_elem ord Hord)|by apply ord_nodup|done|].
  cbn [app] in *. fold G in Hwf, Hd, Hdone, Htodo, Hout. split; [done|]. split.
  - intros u w. rewrite Hout. case_decide as Hin; [done|].
    assert (out_e gra u w = None) as ->; [|by destruct (out_e g u w)].
    rewrite (ord_elem ord Hord) in Hin. apply eq_None_not_Some. by intros ?%out_e_dom.
  - intros u. destruct (decide (u ∈ dom gra)) as [Hu|Hu]; [by apply Hdone, ord_elem|].
    assert (data_at gra u = None) as Hn by (apply eq_None_not_Some; intros Hs; by apply Hu, data_at_dom).
    destruct (Htodo u) as [->|[Hgn ->]]; [by rewrite (ord_elem ord Hord)|rewrite Hn; by destruct (data_at g u)|].
    by rewrite Hgn, Hn.
Qed.

Lemma merge_cases s gra u d :
  GraphOk (txn_gra s) → known_graph s gra →
  merge_data site_id true (data_at (txn_gra s) u) (data_at gra u) = Some d →
  status_ok d ∧ servers_ d ≠ ∅ ∧ events_ d = evs (txn_gra s) u ∧ servs (txn_gra s) u ⊆ servers_ d ∧
  stat (txn_gra s) u ≤ status_ d ∧ (site_id ∈ servers_ d → site_id ∈ servs (txn_gra s) u ∧ status_ d = stat (txn_gra s) u) ∧
  (u ∉ dom gra → status_ d = stat (txn_gra s) u).
Proof.
  intros Hg (_ & _ & _ & Hk) Hm. unfold evs, servs, stat. destruct (data_at (txn_gra s) u) as [d0|] eqn:H0.
  - pose proof (go_status _ Hg u d0 H0) as Hok0. pose proof (go_servers _ Hg u d0 H0) as Hsv0.
    destruct (data_at gra u) as [d1|] eqn:H1; cbn [merge_data] in Hm; simplify_eq; [|by split_and!].
    destruct (Hk u d1 H1) as (Hok1 & _ & _ & Hs1). unfold servs in Hs1. rewrite H0 in Hs1. cbn in Hs1.
    destruct (status_lor (status_ d0) (status_ d1) Hok0 Hok1) as (? & ? & ?).
    unfold union_data, union_status, is_involved. cbn [andb set_servers servers_].
    assert (u ∈ dom gra) as Hud by (apply data_at_dom; by eexists).
    case_bool_decide as Hin; cbn; (split_and!; [done|set_solver|done|set_solver|done| |done]); [set_solver|].
    intros Hin'. by destruct Hin.
  - cbn [merge_data] in Hm. destruct (Hk u d Hm) as (Hok1 & He & Hs & Hs1). unfold servs in Hs1. rewrite H0 in Hs1. cbn in *.
    split_and!; [done..|set_solver|apply Hok1| |].
    + intros ?%Hs1. set_solver.
    + intros Hud. destruct Hud. apply data_at_dom. by eexists.
Qed.

Lemma join_inv s gra :
  Inv s [] None → known_graph s gra →
  let s' := set_gra (foldl (union_vertex site_id ord gra true) (txn_gra s) (ord (dom gra))) s in
  Inv s' (triggers (ord (dom gra))) None ∧ dom (txn_gra s) ⊆ dom (txn_gra s') ∧
  ∀ u, servs (txn_gra s) u ⊆ servs (txn_gra s') u.
Proof using Hord.
  intros HI Hk. pose proof (inv_graph _ _ _ _ _ HI) as Hg. pose proof Hk as (Hne & Hwf & Hsz & _). cbn zeta.
  destruct (union_fold (txn_gra s) gra true (go_wf _ Hg) Hwf) as (HG & Hout & Hdata).
  set (G := foldl _ (txn_gra s) (ord (dom gra))) in *.
  assert (∀ u d, data_at G u = Some d → _) as Hm by (intros u d Hd; rewrite Hdata in Hd; exact (merge_cases s gra u d Hg Hk Hd)).
  assert (∀ u, data_at G u = None → data_at (txn_gra s) u = None) as Hnone.
  { intros u. rewrite Hdata. by destruct (data_at (txn_gra s) u), (data_at gra u). }
  assert (dom G ⊆ dom (txn_gra s) ∪ dom gra) as Hdom.
  { intros u [d Hd]%data_at_dom. rewrite Hdata in Hd. apply elem_of_union. rewrite !data_at_dom.
    destruct (data_at (txn_gra s) u); [left; by eexists|]. right. cbn in Hd. by eexists. }
  assert (∀ u, servs (txn_gra s) u ⊆ servs G u) as Hsv.
  { intros u. unfold servs at 2. destruct (data_at G u) as [d|] eqn:Hd; [by destruct (Hm u d Hd) as (_ & _ & _ & ? & _)|].
    unfold servs. by rewrite (Hnone u Hd). }
  split; [|split; [|exact Hsv]]; [rewrite <-(app_nil_r (triggers _)); apply grow_inv; [done| | | | |done| | | | |]|].
  - split; [done| | | |].
    + intros u d Hd. by destruct (Hm u d Hd).
    + intros u d k Hd. destruct (Hm u d Hd) as (_ & _ & -> & _). unfold evs. destruct (data_at (txn_gra s) u) as [d0|] eqn:H0; cbn.
      * by apply (go_keys _ Hg u).
      * rewrite lookup_empty. by intros [].
    + intros u d Hd. by destruct (Hm u d Hd) as (_ & ? & _).
    + apply subseteq_size in Hdom. rewrite size_union_alt in Hdom.
      assert (size (dom gra ∖ dom (txn_gra s)) ≤ size (dom gra))%nat by (apply subseteq_size; set_solver).
      rewrite !size_dom in *. lia.
  - intros u. rewrite !data_at_dom. intros [d Hd]. destruct (data_at G u) eqn:HGu; [by eexists|]. by rewrite (Hnone u HGu) in Hd.
  - intros u w [r Hr]. rewrite Hout, Hr. destruct (out_e gra u w); by eexists.
  - intros u. unfold evs at 1. destruct (data_at G u) as [d|] eqn:Hd; [by destruct (Hm u d Hd) as (_ & _ & ? & _)|].
    unfold evs. by rewrite (Hnone u Hd).
  - intros u. unfold stat at 2. destruct (data_at G u) as [d|] eqn:Hd; [by destruct (Hm u d Hd) as (_ & _ & _ & _ & ? & _)|].
    unfold stat. by rewrite (Hnone u Hd).
  - intros u. destruct (decide (u ∈ dom gra)) as [Hu|Hu]; [right; by apply ord_elem|left]. unfold stat at 1.
    destruct (data_at G u) as [d|] eqn:Hd; [by apply (Hm u d Hd)|]. unfold stat. by rewrite (Hnone u Hd).
  - intros u Hu (d & Hd & Hf). left. unfold servs in Hu. rewrite Hd in Hu. cbn in Hu.
    destruct (Hm u d Hd) as (_ & _ & _ & _ & _ & Hi & _). destruct (Hi Hu) as [Hs Hst]. split; [done|].
    unfold servs in Hs. destruct (data_at (txn_gra s) u) as [d0|] eqn:H0; [|by apply elem_of_empty in Hs]. exists d0. split; [done|].
    unfold stat in Hst. rewrite H0 in Hst. cbn in Hst. unfold is_finish in *. by rewrite <-Hst.
  - intros u Hu%(ord_elem ord Hord). apply data_at_dom. rewrite Hdata. apply data_at_dom in Hu as [d ->].
    destruct (data_at (txn_gra s) u); by eexists.
  - by intros t ?%not_elem_of_nil.
  - intros u [d Hd]%data_at_dom. apply data_at_dom. destruct (data_at G u) eqn:HGu; [by eexists|]. by rewrite (Hnone u HGu) in Hd.
Qed.

(** ** Pieces *)

Lemma dtxns_inv s tid t :
  Inv s [] None → dtxn_ok registry tid t → (read_only_ t = false → site_id ∈ servs (txn_gra s) tid) →
  Inv (set_dtxns (<[tid := t]> (dtxns s)) s) [] None.
Proof.
  intros [Hg Hb Hd Ht Hw] Hok Hrw. split; [exact Hg|exact Hb| |exact Ht|by destruct Hw].
  destruct Hd as [D1 D2 D3 D4 D5 D6 D7]. split; cbn; [exact D1| | | |exact D5|exact D6|exact D7].
  - intros v Hv Hst. destruct (decide (tid = v)) as [->|]; [rewrite lookup_insert_eq; eauto|].
    rewrite lookup_insert_ne by done. by apply D2.
  - intros v t' [[<- <-]|[_ ?]]%lookup_insert_Some; [done|by apply D3].
  - intros v t' [[<- <-]|[_ ?]]%lookup_insert_Some; [done|by apply D4].
Qed.

Lemma graph_growth s G :
  Inv s [] None → GraphOk G → dom (txn_gra s) ⊆ dom G →
  (∀ u w, is_Some (out_e (txn_gra s) u w) → is_Some (out_e G u w)) →
  (∀ u, evs G u = evs (txn_gra s) u) → (∀ u, servs (txn_gra s) u ⊆ servs G u) →
  (∀ u, stat G u = stat (txn_gra s) u) →
  (∀ u, site_id ∈ servs G u → finishing G u → site_id ∈ servs (txn_gra s) u ∧ finishing (txn_gra s) u) →
  Inv (set_gra G s) [] None.
Proof.
  intros HI HG Hdom Hout Hev Hsv Hst Hf. apply (grow_inv s G [] []); [done..| | | | |].
  - intros u. by rewrite Hst.
  - by left.
  - intros u Hu Hfu. left. by apply Hf.
  - by intros u ?%not_elem_of_nil.
  - by intros u ?%not_elem_of_nil.
Qed.

(** [start_pie_txn] enters the site into the servers of a transaction that is not
    finishing yet. *)
Lemma pie_inv s tid ts :
  Inv s [] None → ¬ finishing (txn_gra s) tid → Z.of_nat (size (txn_gra s)) + 1 < 2 ^ 31 - 1 →
  let G := start_pie_txn site_id (txn_gra s) tid ts in
  Inv (set_gra G s) [] None ∧ tid ∈ dom G ∧ site_id ∈ servs G tid.
Proof.
  intros HI Hnf Hsz. cbn zeta. pose proof (inv_graph _ _ _ _ _ HI) as Hg.
  destruct (start_pie_txn_wf site_id (txn_gra s) tid ts (go_wf _ Hg)) as (Hwf & (d' & Hd' & Hinv) & Hout).
  set (G := start_pie_txn site_id (txn_gra s) tid ts) in *.
  set (d0 := default (TxnInfo_new tid ts) (data_at (txn_gra s) tid)).
  assert (∀ u, data_at G u = if decide (u = tid) then Some (set_servers ({[site_id]} ∪ servers_ d0) d0) else data_at (txn_gra s) u) as Hdata.
  { intros u. subst d0. unfold G, start_pie_txn, foi_txn, find_or_insert. unfold data_at at 1 3. destruct (txn_gra s !! tid) as [x|] eqn:Hx.
    - case_decide as Hu; [subst u; rewrite lookup_alter_eq, Hx; cbn; unfold data_at; by rewrite Hx|by rewrite lookup_alter_ne].
    - case_decide as Hu; [subst u; rewrite lookup_alter_eq, lookup_insert_eq; cbn; unfold data_at; by rewrite Hx|].
      by rewrite lookup_alter_ne, lookup_insert_ne. }
  assert (servs G tid = {[site_id]} ∪ servers_ d0) as Hsv by (unfold servs; by rewrite Hdata, decide_True).
  assert (status_ok d0 ∧ events_ d0 = evs (txn_gra s) tid ∧ status_ d0 = stat (txn_gra s) tid ∧ servs (txn_gra s) tid ⊆ servers_ d0)
    as (Hs0 & He0 & Hst0 & Hsv0).
  { subst d0. unfold evs, stat, servs. destruct (data_at (txn_gra s) tid) as [d|] eqn:Hd; cbn; [|by split_and!].
    split_and!; [by apply (go_status _ Hg tid)|done..]. }
  split_and!; [|apply data_at_dom; rewrite Hdata, decide_True by done; by eexists|rewrite Hsv; set_solver].
  apply graph_growth; [done| | | | | | |].
  - split; [done| | | |].
    + intros u d. rewrite Hdata. case_decide; [intros [= <-]; exact Hs0|apply Hg].
    + intros u d k. rewrite Hdata. case_decide; [|apply Hg]. intros [= <-]. cbn. rewrite He0. unfold evs.
      destruct (data_at (txn_gra s) tid) eqn:Hd; cbn; [by apply (go_keys _ Hg tid)|]. rewrite lookup_empty. by intros [].
    + intros u d. rewrite Hdata. case_decide; [intros [= <-]; cbn; set_solver|apply Hg].
    + assert (dom G ⊆ {[tid]} ∪ dom (txn_gra s)) as Hsub.
      { intros u. rewrite data_at_dom, Hdata. case_decide; [set_solver|]. rewrite <-data_at_dom. set_solver. }
      apply subseteq_size in Hsub. rewrite size_union_alt, size_singleton in Hsub.
      assert (size (dom (txn_gra s) ∖ {[tid]}) ≤ size (dom (txn_gra s)))%nat by (apply subseteq_size; set_solver).
      rewrite !size_dom in *. lia.
  - intros u. rewrite !data_at_dom, Hdata. case_decide; [by eexists|done].
  - intros u w. by rewrite Hout.
  - intros u. unfold evs at 1. rewrite Hdata. case_decide; [subst; by cbn|done].
  - intros u. unfold servs at 2. rewrite Hdata. case_decide; [subst; cbn; set_solver|done].
  - intros u. unfold stat at 1. rewrite Hdata. case_decide; [subst; by cbn|done].
  - intros u. unfold servs at 1, finishing. rewrite Hdata. case_decide as Hu.
    + intros _ (d & [= <-] & Hf). exfalso. apply Hnf. subst u. unfold finishing. subst d0.
      destruct (data_at (txn_gra s) tid) as [d|]; [by exists d|]. done.
    + intros Hs Hf. split; [done|exact Hf].
Qed.

Lemma edge_inv s u w r : Inv s [] None → u ∈ dom (txn_gra s) → w ∈ dom (txn_gra s) → Inv (set_gra (or_edge u w r (txn_gra s)) s) [] None.
Proof.
  intros HI Hu Hw. pose proof (inv_graph _ _ _ _ _ HI) as [G1 G2 G3 G4 G5].
  assert (∀ x, data_at (or_edge u w r (txn_gra s)) x = data_at (txn_gra s) x) as Hd by (intros; apply or_edge_data).
  assert (dom (or_edge u w r (txn_gra s)) = dom (txn_gra s)) as Hdom.
  { apply set_eq. intros x. by rewrite !data_at_dom, Hd. }
  apply graph_growth; [done| | | | | | |].
  - split; [by apply or_edge_wf| | | |].
    + intros x d. rewrite Hd. apply G2.
    + intros x d k. rewrite Hd. apply G3.
    + intros x d. rewrite Hd. apply G4.
    + by rewrite <-size_dom, Hdom, size_dom.
  - by rewrite Hdom.
  - intros x y Hs. rewrite or_edge_out by done. case_decide; [|done]. destruct Hs as [z ->]. by eexists.
  - intros x. unfold evs. by rewrite Hd.
  - intros x. unfold servs. by rewrite Hd.
  - intros x. unfold stat. by rewrite Hd.
  - intros x. unfold servs, finishing. by rewrite Hd.
Qed.

Lemma cells_inv s c l : Inv s [] None → l ∈ dom (txn_gra s) → Inv (set_cells (<[c := l]> (cells s)) s) [] None.
Proof.
  intros [Hg Hb Hd Ht Hw] Hl. split; [exact Hg|exact Hb| |exact Ht|by destruct Hw].
  destruct Hd as [D1 D2 D3 D4 D5 D6 D7]. split; cbn; [exact D1|exact D2|exact D3|exact D4|exact D5|exact D6|].
  intros c' l' [[<- <-]|[_ ?]]%lookup_insert_Some; [done|by eapply D7].
Qed.

Context (columns : Z → Z).

(** The columns a handler touches are columns of its rows. *)
Definition kiss_ok (rci : Z * Z * bool) : Prop := 0 ≤ rci.1.2 < columns rci.1.1.

(** Edges of the deferred kind only. *)
Definition weak (edges : Z → Z → option Z) : Prop := ∀ u w r, edges u w = Some r → 0 ≤ r < 2.

Lemma weak_join e1 e2 : weak e1 → weak e2 → weak (λ u w, join_rel (e1 u w) (e2 u w)).
Proof.
  intros H1 H2 u w r. specialize (H1 u w). specialize (H2 u w). unfold join_rel.
  destruct (e1 u w) as [a|], (e2 u w) as [b|]; cbn; intros [= <-]; eauto.
  pose proof (H1 a eq_refl). pose proof (H2 b eq_refl).
  assert (a = 0 ∨ a = 1) as [-> | ->] by lia; assert (b = 0 ∨ b = 1) as [-> | ->] by lia; by vm_compute.
Qed.

Definition deferred_only (l : list (Z * Z * bool)) : Prop := Forall (λ rci, rci.2 = false) l.

Lemma dep_entry_ok r col imm : kiss_ok (r, col, imm) → get_dep_entry columns r col = Done (r, col).
Proof.
  unfold kiss_ok, get_dep_entry. cbn [fst snd]. intros [? ?]. rewrite bool_decide_eq_true_2; [done|].
  eapply Z.le_lt_trans; [apply Z.mod_le|]; done.
Qed.

Lemma kiss_rw s tid rci :
  Inv s [] None → tid ∈ dom (txn_gra s) → kiss_ok rci →
  ∃ s', kiss columns tid false s rci = Done s' ∧ Inv s' [] None ∧ dom (txn_gra s') = dom (txn_gra s) ∧
    (rci.2 = false → weak (out_e (txn_gra s)) → weak (out_e (txn_gra s'))).
Proof.
  intros HI Ht Hk. destruct rci as [[r c] imm]. unfold kiss. rewrite (dep_entry_ok _ _ _ Hk). cbn [mbind result_bind].
  destruct (cells s !! (r, c)) as [l|] eqn:Hc.
  - eexists. split; [done|]. assert (l ∈ dom (txn_gra s)) by (by eapply (do_cells _ _ _ (inv_decide _ _ _ _ _ HI))).
    split; [by apply edge_inv|]. cbn. split; [apply set_eq; intros x; by rewrite !data_at_dom, or_edge_data|].
    intros -> Hw u w e. rewrite or_edge_out by done. case_decide; [|by apply Hw].
    apply (weak_join (out_e (txn_gra s)) (λ _ _, Some EDGE_D) Hw). intros ? ? ? [= <-]. by vm_compute.
  - eexists. split; [done|]. split; [by apply cells_inv|done].
Qed.

Lemma kisses_rw s tid l :
  Inv s [] None → tid ∈ dom (txn_gra s) → Forall kiss_ok l →
  ∃ s', for_each (kiss columns tid false) l s = Done s' ∧ Inv s' [] None ∧ dom (txn_gra s') = dom (txn_gra s) ∧
    (deferred_only l → weak (out_e (txn_gra s)) → weak (out_e (txn_gra s'))).
Proof.
  intros HI Ht Hl. rewrite Forall_forall in Hl.
  apply (for_each_inv (kiss columns tid false) (λ _ s', Inv s' [] None ∧ dom (txn_gra s') = dom (txn_gra s) ∧
    (deferred_only l → weak (out_e (txn_gra s)) → weak (out_e (txn_gra s'))))); [by split_and!|].
  intros l1 x l2 s1 Heq (HI1 & Hd1 & Hw1). assert (x ∈ l) as Hx by (rewrite Heq; set_solver).
  destruct (kiss_rw s1 tid x) as (s2 & ? & ? & ? & Hw2); [done|by rewrite Hd1|by apply Hl|].
  exists s2. split_and!; [done..|congruence|]. intros Hl2 Hw. apply Hw2; [|by apply Hw1].
  unfold deferred_only in Hl2. rewrite Forall_forall in Hl2. by apply Hl2.
Qed.

Lemma kisses_ro s tid t l :
  Inv s [] None → dtxns s !! tid = Some t → read_only_ t = true → conflict_txns_ t = [] → Forall kiss_ok l →
  ∃ s' t', for_each (kiss columns tid true) l s = Done s' ∧ Inv s' [] None ∧ txn_gra s' = txn_gra s ∧
    dtxns s' !! tid = Some t' ∧ (∀ u, u ∈ conflict_txns_ t' → u ∈ dom (txn_gra s)) ∧
    (length (conflict_txns_ t') ≤ length l)%nat.
Proof.
  intros HI Ht Hro Hc0 Hl. rewrite Forall_forall in Hl.
  destruct (for_each_inv (kiss columns tid true) (λ done s', Inv s' [] None ∧ txn_gra s' = txn_gra s ∧
    ∃ t', dtxns s' !! tid = Some t' ∧ read_only_ t' = true ∧ (∀ u, u ∈ conflict_txns_ t' → u ∈ dom (txn_gra s)) ∧
      (length (conflict_txns_ t') ≤ length done)%nat) l s) as (s' & ? & HI' & Hg' & t' & ? & ? & ? & ?).
  - split_and!; [done..|]. exists t. rewrite Hc0. split_and!; [done..| |done]. by intros u ?%not_elem_of_nil.
  - intros l1 x l2 s1 Heq (HI1 & Hg1 & t1 & Ht1 & Hro1 & Hcf & Hlen). destruct x as [[r c] imm]. unfold kiss.
    assert (kiss_ok (r, c, imm)) as Hk by (apply Hl; rewrite Heq; set_solver).
    rewrite (dep_entry_ok _ _ _ Hk). cbn [mbind result_bind].
    rewrite length_app. cbn [length]. destruct (cells s1 !! (r, c)) as [w|] eqn:Hc.
    + eexists. split; [done|]. set (t2 := mkDTxn (phase_ t1) (dreqs_ t1) (conflict_txns_ t1 ++ [w]) (read_only_ t1)).
      assert (add_conflict tid w s1 = set_dtxns (<[tid := t2]> (dtxns s1)) s1) as ->.
      { unfold add_conflict. f_equal. apply map_eq. intros i. destruct (decide (tid = i)) as [<-|].
        - by rewrite lookup_alter_eq, lookup_insert_eq, Ht1.
        - by rewrite lookup_alter_ne, lookup_insert_ne. }
      split; [|split; [done|]].
      * apply dtxns_inv; [done| |intros Hf; cbn in Hf; congruence].
        exact (do_dtxn _ _ _ (inv_decide _ _ _ _ _ HI1) tid t1 Ht1).
      * exists t2. cbn. rewrite lookup_insert_eq. split_and!; [done..| |rewrite length_app; cbn; lia].
        intros u [?| ->%list_elem_of_singleton]%elem_of_app; [by apply Hcf|]. rewrite <-Hg1.
        by eapply (do_cells _ _ _ (inv_decide _ _ _ _ _ HI1)).
    + exists s1. split_and!; [done..|]. exists t1. split_and!; [done..|lia].
  - exists s', t'. by split_and!.
Qed.

(** ** The protocol of requests

    A piece has a registered handler and belongs to a transaction that is not yet
    finishing; a finish request names a transaction started here; a graph from the
    network carries no local state, and names this site only for transactions that
    were started here. *)
Definition allowed (s : Server) (r : request) : Prop :=
  match r with
  | Start h =>
      ¬ finishing (txn_gra s) (h_tid h) ∧ Z.of_nat (size (txn_gra s)) + 1 < 2 ^ 31 - 1 ∧
      (∀ t, dtxns s !! h_tid h = Some t → read_only_ t = false) ∧
      ∃ x, registry (h_t_type h, h_p_type h) = Some x ∧ Forall kiss_ok (hd_kiss x)
  | Finish tid ts gra defer =>
      known_graph s gra ∧ ∃ t, dtxns s !! tid = Some t ∧ read_only_ t = false
  | Ask tid defer => site_id ∈ servs (txn_gra s) tid
  | Answer av gra => known_graph s gra ∧ av ∈ dom (txn_gra s)
  | RoStart h defer =>
      (∀ t, dtxns s !! h_tid h = Some t → read_only_ t = true) ∧
      ∃ x, registry (h_t_type h, h_p_type h) = Some x ∧ Forall kiss_ok (hd_kiss x) ∧
        Z.of_nat (length (hd_kiss x)) < 2 ^ 31 - 1
  end.

Lemma servs_dom g u x : x ∈ servs g u → u ∈ dom g.
Proof. unfold servs. rewrite data_at_dom. destruct (data_at g u); [by eexists|by intros ?%elem_of_empty]. Qed.

(** What a request does to the edges: it brings in those of its graph, and a piece
    that touches no column immediately adds none of the immediate kind. *)
Definition request_graph (r : request) : Graph :=
  match r with Finish _ _ gra _ | Answer _ gra => gra | _ => ∅ end.
Definition joined (s : Server) (r : request) (u w : Z) : option Z :=
  join_rel (out_e (txn_gra s) u w) (out_e (request_graph r) u w).
Definition deferred_request (r : request) : Prop :=
  match r with
  | Start h => ∀ x, registry (h_t_type h, h_p_type h) = Some x → deferred_only (hd_kiss x)
  | _ => weak (out_e (request_graph r))
  end.
Definition keeps_weak (s : Server) (r : request) (s' : Server) : Prop :=
  deferred_request r → weak (out_e (txn_gra s)) → weak (out_e (txn_gra s')).

Lemma joined_nil s r u w : request_graph r = ∅ → joined s r u w = out_e (txn_gra s) u w.
Proof.
  intros Hr. unfold joined. rewrite Hr. replace (out_e ∅ u w) with (@None Z); [by destruct (out_e (txn_gra s) u w)|].
  unfold out_e. by rewrite lookup_empty.
Qed.

Lemma joined_weak s r s' :
  (∀ u w, out_e (txn_gra s') u w = joined s r u w) → (∀ h, r ≠ Start h) → keeps_weak s r s'.
Proof.
  intros Hj Hr Hd Hw u w e. rewrite Hj. apply (weak_join _ _ Hw). by destruct r.
Qed.

Lemma start_ok h s :
  Inv s [] None → allowed s (Start h) →
  ∃ s', rcc_start_pie site_id ord columns registry h s = Done s' ∧ Inv s' [] None ∧ keeps_weak s (Start h) s'.
Proof.
  intros HI (Hnf & Hsz & Hrw & x & Hx & Hk). unfold rcc_start_pie, start, start_begin. cbn zeta. set (tid := h_tid h) in *.
  set (s0 := get_or_create tid false s). set (ts := Z.max _ _).
  assert (txn_gra s0 = txn_gra s ∧ ∃ t, dtxns s0 !! tid = Some t ∧ phase_ t ≤ 1 ∧ read_only_ t = false ∧
    Forall (λ h, h_tid h = tid ∧ is_Some (registry (h_t_type h, h_p_type h))) (dreqs_ t) ∧
    ∀ t', set_dtxns (<[tid := t']> (dtxns s0)) s0 = set_dtxns (<[tid := t']> (dtxns s)) s) as (Hg0 & t & Ht & Hph & Hro & Hdr & Hset).
  { subst s0. unfold get_or_create. destruct (dtxns s !! tid) as [t|] eqn:Ht.
    - split; [done|]. exists t. destruct (do_dtxn _ _ _ (inv_decide _ _ _ _ _ HI) tid t Ht) as [Hp ?].
      split_and!; [done|lia|by apply Hrw|done|done].
    - split; [done|]. eexists. cbn. rewrite lookup_insert_eq. split_and!; [done..|constructor|].
      intros t'. unfold set_dtxns. cbn. by rewrite insert_insert_eq. }
  rewrite Hg0. destruct (pie_inv s tid ts HI Hnf Hsz) as (HI1 & Hd1 & Hs1).
  set (G := start_pie_txn site_id (txn_gra s) tid ts) in *.
  unfold get_dtxn at 1. cbn [dtxns set_gra]. rewrite Ht. cbn [mbind result_bind].
  rewrite bool_decide_eq_true_2 by done. cbn [verify mbind result_bind]. unfold get_handler. rewrite Hx. cbn [mbind result_bind].
  set (dreqs := match hd_defer x with DF_NO => _ | _ => _ end). set (t1 := mkDTxn 1 dreqs (conflict_txns_ t) (read_only_ t)).
  assert (set_dtxns (<[tid := t1]> (dtxns s0)) (set_gra G s0) = set_dtxns (<[tid := t1]> (dtxns (set_gra G s))) (set_gra G s)) as Hs2.
  { change (set_gra G (set_dtxns (<[tid := t1]> (dtxns s0)) s0) = set_gra G (set_dtxns (<[tid := t1]> (dtxns s)) s)). by rewrite Hset. }
  fold tid. rewrite Hs2.
  assert (Inv (set_dtxns (<[tid := t1]> (dtxns (set_gra G s))) (set_gra G s)) [] None) as HI2.
  { apply dtxns_inv; [done| |done]. split; [done|]. cbn. subst dreqs.
    destruct (hd_defer x); [apply Forall_app; split; [done|]; apply Forall_singleton; by rewrite Hx|done|
                            apply Forall_app; split; [done|]; apply Forall_singleton; by rewrite Hx]. }
  cbn [mbind result_bind]. rewrite Hro. destruct (kisses_rw _ tid (hd_kiss x) HI2 Hd1 Hk) as (s3 & -> & HI3 & Hd3 & Hw3). cbn [mbind result_bind].
  assert (∃ s4 b, start_end h x s3 = (s4, b) ∧
    Inv s4 [] None ∧ txn_gra s4 = txn_gra s3) as (s4 & b & -> & HI4 & Hg4).
  { unfold start_end. destruct (hd_defer x); eexists _, _; (split; [done|]); (split; [|done]); [done|by apply emit_ok..]. }
  cbn [mbind result_bind]. rewrite Hg4. unfold sub_txn_graph.
  assert (tid ∈ dom (txn_gra s3)) as Htd by (by rewrite Hd3).
  rewrite bool_decide_eq_true_2 by (by apply elem_of_dom). cbn [verify mbind result_bind].
  destruct (find_txn_anc_opt_correct ord Hord (txn_gra s3) tid) as (A & -> & _); [apply HI3|done|]. cbn [mbind result_bind].
  eexists. split; [done|]. split; [by apply emit_ok|]. intros Hdf Hw. cbn [txn_gra emit]. rewrite Hg4.
  apply Hw3; [by apply Hdf|]. intros u w e. cbn [txn_gra set_dtxns set_gra]. unfold G.
  destruct (start_pie_txn_wf site_id (txn_gra s) tid ts (go_wf _ (inv_graph _ _ _ _ _ HI))) as (_ & _ & ->). apply Hw.
Qed.

(** Joining a received graph and running what it triggers. *)
Lemma join_ok s gra :
  Inv s [] None → known_graph s gra →
  (∃ s', join_graph site_id ord registry gra s = Done s' ∧ Inv s' [] None ∧ dom (txn_gra s) ⊆ dom (txn_gra s') ∧
     (∀ u, servs (txn_gra s) u ⊆ servs (txn_gra s') u) ∧
     (∀ v t, dtxns s !! v = Some t → dtxns s' !! v = Some t ∨ TXN_DCD ≤ stat (txn_gra s') v) ∧
     (∀ u w, out_e (txn_gra s') u w = join_rel (out_e (txn_gra s) u w) (out_e gra u w))) ∨
  (join_graph site_id ord registry gra s = Crash assert_failed ∧
   unsortable ord (λ u w, join_rel (out_e (txn_gra s) u w) (out_e gra u w))).
Proof.
  intros HI Hk. pose proof Hk as (Hne & Hwf & _). unfold join_graph. rewrite bool_decide_eq_true_2 by done. cbn [verify mbind result_bind].
  destruct (join_inv s gra HI Hk) as (HI1 & Hd & Hs). fold (triggers (ord (dom gra))).
  destruct (union_fold (txn_gra s) gra true (go_wf _ (inv_graph _ _ _ _ _ HI)) Hwf) as (_ & Hout & _).
  destruct (run_all_ok site_id ord Hord registry _ _ HI1) as [(s' & -> & HI' & Hfr)|[-> (g & v & Hg & Ho & ?)]]; [left|right].
  2: { split; [done|]. exists g, v. split_and!; [done| |tauto..]. intros u w. by rewrite Ho, <-Hout. }
  exists s'. split_and!; [done..| | | |].
  - by rewrite (fr_dom _ _ Hfr).
  - intros u. by rewrite (fr_servs _ _ Hfr).
  - intros v t Ht. by apply (fr_dtxns _ _ Hfr).
  - intros u w. by rewrite (fr_out _ _ Hfr), <-Hout.
Qed.

Lemma unsortable_ext e1 e2 : (∀ u w, e1 u w = e2 u w) → unsortable ord e1 → unsortable ord e2.
Proof. intros He (g & v & Hg & Ho & ?). exists g, v. split_and!; [done| |tauto..]. intros u w. by rewrite Ho. Qed.

(** The transaction of a finish request becomes finishing. *)
Lemma finishing_inv s tid e ts :
  Inv s [] None → site_id ∈ servs (txn_gra s) tid → (stat (txn_gra s) tid < TXN_DCD → is_Some (dtxns s !! tid)) →
  ∃ d, data (set_read_ts ts s) tid = Done d ∧
    Inv (set_txn tid (union_status site_id d TXN_CMT false false).1 (set_local tid set_res (set_read_ts ts s)))
      [TTrigger tid (-128); TDecide tid e] None.
Proof.
  intros HI Hsv Hdt. pose proof (servs_dom _ _ _ Hsv) as Htid. destruct (data_done s tid Htid) as (d & Hd & Hdata).
  exists d. split; [done|]. cbn [union_status andb fst].
  set (s1 := set_local tid set_res (set_read_ts ts s)). set (d' := set_status (Z.lor (status_ d) TXN_CMT) d).
  assert (∀ u, local_at s1 u = if decide (u = tid) then set_res (local_at s tid) else local_at s u) as Hl.
  { intros u. apply (local_at_set (set_read_ts ts s)). }
  assert (Inv s1 [] None) as HI1.
  { destruct HI as [Hg Hb HD Ht Hw]. split; [exact Hg|exact Hb| |exact Ht|].
    - destruct HD as [D1 D2 D3 D4 D5 D6 D7]. split; [| |exact D3|exact D4|exact D5| |exact D7].
      + intros v. rewrite Hl. case_decide; [subst; apply D1|apply D1].
      + intros v. rewrite Hl. case_decide; [subst; intros _; exact Hdt|apply D2].
      + intros v. rewrite Hl. case_decide; [subst; apply D6|apply D6].
    - destruct Hw as [H1 H2 H3 H4 H5 H6 H7]. split; [|exact H2|exact H3|exact H4|exact H5| |].
      + intros v. rewrite Hl. case_decide; [subst; apply H1|apply H1].
      + intros v u. rewrite Hl. case_decide; [subst; apply H6|apply H6].
      + intros u. rewrite Hl. case_decide; [subst; apply H7|apply H7]. }
  pose proof (inv_graph _ _ _ _ _ HI1) as [G1 G2 G3 G4 G5]. change (txn_gra s1) with (txn_gra s) in *.
  destruct (status_lor (status_ d) TXN_CMT) as (Hok & Hle & _); [by apply (G2 tid)|by vm_compute|].
  pose proof (upd_data (txn_gra s) tid d d' Hd) as Hup.
  apply (grow_inv s1 (alter (set_data d') tid (txn_gra s)) [tid] [TDecide tid e]); change (txn_gra s1) with (txn_gra s).
  - done.
  - split.
    + by apply (upd_wf _ _ d).
    + intros u d1. rewrite Hup. case_decide; [intros [= <-]; exact Hok|apply G2].
    + intros u d1 k. rewrite Hup. case_decide; [intros [= <-]; exact (G3 tid d k Hd)|apply G3].
    + intros u d1. rewrite Hup. case_decide; [intros [= <-]; exact (G4 tid d Hd)|apply G4].
    + by rewrite <-size_dom, upd_dom, size_dom.
  - by rewrite upd_dom.
  - intros u w. by rewrite (upd_out _ _ d).
  - intros u. unfold evs. rewrite Hup. case_decide; [subst; by rewrite Hd|done].
  - intros u. unfold servs. rewrite Hup. case_decide; [subst; by rewrite Hd|done].
  - intros u. unfold stat. rewrite Hup. case_decide; [subst; by rewrite Hd|done].
  - intros u. unfold stat. rewrite Hup. case_decide; [right; subst; by left|by left].
  - intros u. unfold servs, finishing. rewrite Hup. case_decide as Hu; [subst; intros _ _; right; exists e; by left|]. intros Hs Hf. by left.
  - intros u ->%list_elem_of_singleton. by rewrite upd_dom.
  - intros t ->%list_elem_of_singleton. exists tid, e. by rewrite upd_dom.
Qed.

Definition served (s : Server) (r : request) : Prop :=
  (∃ s', serve site_id ord columns registry s r = Done s' ∧ Inv s' [] None ∧ keeps_weak s r s') ∨
  (serve site_id ord columns registry s r = Crash assert_failed ∧ unsortable ord (joined s r)).

(** A request ends by running its calls. *)
Lemma run_served s r s1 ts :
  serve site_id ord columns registry s r = run_all site_id ord registry ts s1 → (∀ h, r ≠ Start h) →
  (∀ u w, out_e (txn_gra s1) u w = joined s r u w) → Inv s1 ts None → served s r.
Proof.
  intros Hs Hr Hj HI. unfold served. rewrite Hs.
  destruct (run_all_ok site_id ord Hord registry _ _ HI) as [(s' & -> & HI' & Hfr)|[-> Hu]]; [left|right].
  - exists s'. split_and!; [done..|]. apply joined_weak; [|done]. intros u w. by rewrite (fr_out _ _ Hfr).
  - split; [done|]. by eapply unsortable_ext.
Qed.

Lemma finish_ok tid ts gra defer s : Inv s [] None → allowed s (Finish tid ts gra defer) → served s (Finish tid ts gra defer).
Proof.
  intros HI (Hk & t & Ht & Hro). pose proof Hk as [Hne _].
  assert (serve site_id ord columns registry s (Finish tid ts gra defer) = commit site_id ord registry tid ts gra defer s) as Hsv.
  { cbn [serve]. unfold rcc_finish_txn, get_dtxn. rewrite bool_decide_eq_true_2 by done. cbn [verify mbind result_bind]. by rewrite Ht. }
  destruct (join_ok s gra HI Hk) as [(s1 & Hj1 & HI1 & Hd & Hs & Hdt & Ho)|[Hj1 ?]].
  2: { right. rewrite Hsv. unfold commit. by rewrite Hj1. }
  assert (site_id ∈ servs (txn_gra s1) tid) as Hin by (eapply Hs, (do_rw _ _ _ (inv_decide _ _ _ _ _ HI)); done).
  destruct (finishing_inv s1 tid (Some defer) (Z.max (server_read_ts s1) (u64 ts)) HI1 Hin) as (d & Hd1 & HI2).
  { intros Hlt. destruct (Hdt tid t Ht) as [->|?]; [by eexists|lia]. }
  eapply run_served; [|done| |exact HI2].
  - rewrite Hsv. unfold commit. rewrite Hj1. cbn [mbind result_bind]. by rewrite Hd1.
  - intros u w. unfold data, vertex in Hd1. change (txn_gra (set_read_ts _ s1)) with (txn_gra s1) in Hd1.
    cbn [txn_gra set_txn set_gra set_local]. destruct (txn_gra s1 !! tid) as [x|] eqn:Hx; [|done]. cbn in Hd1. simplify_eq.
    rewrite (upd_out _ _ (v_data x)); [apply Ho|]. unfold data_at. cbn. by rewrite Hx.
Qed.

Lemma answer_ok av gra s : Inv s [] None → allowed s (Answer av gra) → served s (Answer av gra).
Proof.
  intros HI (Hk & Hav). unfold served. cbn [serve]. unfold ask_answer.
  destruct (join_ok s gra HI Hk) as [(s1 & Hj1 & HI1 & Hd & _ & _ & Ho)|[-> ?]]; [|by right].
  apply (run_served s (Answer av gra) s1 [TDecide av None]); [|done|done|apply push_decide; set_solver].
  cbn [serve]. unfold ask_answer. by rewrite Hj1.
Qed.

Lemma ask_ok tid defer s : Inv s [] None → allowed s (Ask tid defer) → served s (Ask tid defer).
Proof.
  intros HI Hin. cbn in Hin. pose proof (servs_dom _ _ _ Hin) as Hd.
  pose proof (new_ball_ok site_id ord Hord registry s [] [TRegister tid TXN_CMT (next_ball s); TBall (next_ball s)] None (AskReply tid defer) 2 HI Hd) as HB.
  cbn [new_ball fst snd] in *. destruct (data_done s tid Hd) as (d & Hda & Hdata). eapply run_served; [| | |apply HB].
  - cbn [serve]. unfold rcc_ask_txn. cbn [new_ball fst snd].
    match goal with |- context [data ?x tid] => change (data x tid) with (data s tid) end. rewrite Hdata. cbn [mbind result_bind].
    unfold servs in Hin. rewrite Hda in Hin. cbn in Hin. unfold is_involved. by rewrite bool_decide_eq_true_2.
  - done.
  - intros u w. by rewrite joined_nil.
  - lia.
  - done.
  - intros b. cbn. repeat case_decide; subst; done || lia.
  - apply Forall_cons. split; [split; [done|by left]|]. by apply Forall_singleton.
  - done.
  - done.
  - done.
Qed.

Lemma ro_ok h defer s : Inv s [] None → allowed s (RoStart h defer) → served s (RoStart h defer).
Proof.
  intros HI (Hro & x & Hx & Hk & Hlen). set (tid := h_tid h) in *.
  set (s0 := get_or_create tid true s).
  assert (txn_gra s0 = txn_gra s ∧ ∃ t, dtxns s0 !! tid = Some t ∧ read_only_ t = true ∧
    Forall (λ h, h_tid h = tid ∧ is_Some (registry (h_t_type h, h_p_type h))) (dreqs_ t) ∧
    ∀ t', set_dtxns (<[tid := t']> (dtxns s0)) s0 = set_dtxns (<[tid := t']> (dtxns s)) s) as (Hg0 & t & Ht & Hrt & Hdr & Hset).
  { subst s0. unfold get_or_create. destruct (dtxns s !! tid) as [t|] eqn:Ht.
    - split; [done|]. exists t. destruct (do_dtxn _ _ _ (inv_decide _ _ _ _ _ HI) tid t Ht) as [Hp ?]. split_and!; [done|by apply Hro|done|done].
    - split; [done|]. eexists. cbn. rewrite lookup_insert_eq. split_and!; [done..|constructor|].
      intros t'. unfold set_dtxns. cbn. by rewrite insert_insert_eq. }
  set (t1 := mkDTxn 1 (dreqs_ t) [] true).
  assert (Inv (set_dtxns (<[tid := t1]> (dtxns s)) s) [] None) as HI1 by (by apply dtxns_inv).
  destruct (kisses_ro _ tid t1 (hd_kiss x) HI1) as (s2 & t2 & Hs2 & HI2 & Hg2 & Ht2 & Hcf & Hl2);
    [by cbn; rewrite lookup_insert_eq|done|done|done|].
  set (new := ((λ u, TRegister u TXN_DCD (next_ball s2)) <$> conflict_txns_ t2) ++ [TBall (next_ball s2)]).
  pose proof (new_ball_ok site_id ord Hord registry s2 [] new None (RoReply defer) (S (length (conflict_txns_ t2))) HI2) as HB.
  replace (Z.of_nat (S (length (conflict_txns_ t2)))) with (Z.of_nat (length (conflict_txns_ t2)) + 1) in HB by lia.
  rewrite app_nil_r in HB. cbn [new_ball fst] in *.
  eapply run_served; [| | |apply HB; [done|lia|lia| | |done|done|done]].
  - cbn [serve]. unfold rcc_ro_start_pie, start_ro. cbn zeta. fold tid. fold s0.
    assert (get_dtxn tid s0 = Done t) as -> by (unfold get_dtxn; by rewrite Ht). cbn [mbind result_bind].
    unfold get_handler. rewrite Hx. cbn [mbind result_bind]. rewrite Hset, Hrt. fold t1. rewrite Hs2. cbn [mbind result_bind].
    unfold get_dtxn. rewrite Ht2. done.
  - done.
  - intros u w. cbn [txn_gra set_balls]. by rewrite joined_nil, Hg2.
  - intros b. unfold new. rewrite sum_list_with_app. cbn.
    assert (sum_list_with (t_tokens b) ((λ u, TRegister u TXN_DCD (next_ball s2)) <$> conflict_txns_ t2) =
      if decide (b = next_ball s2) then length (conflict_txns_ t2) else 0%nat) as ->.
    { clear. induction (conflict_txns_ t2) as [|u l IH]; cbn in *; [by case_decide|]. rewrite IH. repeat case_decide; subst; done || lia. }
    repeat case_decide; subst; done || lia.
  - apply Forall_app. split; [|by repeat constructor]. apply Forall_forall. intros t' (u & -> & Hu)%list_elem_of_fmap. cbn.
    rewrite Hg2. split; [by apply Hcf|by right].
Qed.

Lemma serve_ok s r : Inv s [] None → allowed s r → served s r.
Proof.
  destruct r; [|apply finish_ok|apply ask_ok|apply answer_ok|apply ro_ok].
  intros HI Ha. left. by apply start_ok.
Qed.

Fixpoint allowed_run (rs : list request) (s : Server) : Prop :=
  match rs with
  | [] => True
  | r :: rs => allowed s r ∧ ∀ s', serve site_id ord columns registry s r = Done s' → allowed_run rs s'
  end.

Lemma new_inv : Inv Server_new [] None.
Proof.
  split.
  - split; [apply graph_wf_empty|done..].
  - split; cbn; [|by intros b x; rewrite lookup_empty]. intros b. by rewrite lookup_empty.
  - split; cbn; try done; [constructor|]. intros v. split; [by intros ?%not_elem_of_nil|done].
  - constructor.
  - assert (∀ v u, ¬ waits Server_new [] v u) as Hw by (intros v u (b & x & d & Hx & _); cbn in Hx; by rewrite lookup_empty in Hx).
    split.
    + intros v _ Hv. done.
    + intros u k b Hb. by apply not_elem_of_nil in Hb.
    + intros u k b x _ Hx. done.
    + intros u. constructor. intros v Hv. by destruct (Hw u v).
    + intros v u Hvu. by destruct (Hw v u).
    + intros v u Hvu. by destruct (Hw v u).
    + intros u Hu. by apply not_elem_of_empty in Hu.
Qed.

(** A request of the run fails on the edges of its graph joined with the server's. *)
Definition crash_point (rs : list request) (s : Server) : Prop :=
  ∃ rs1 r rs2 s1, rs = rs1 ++ r :: rs2 ∧ for_each (serve site_id ord columns registry) rs1 s = Done s1 ∧
    serve site_id ord columns registry s1 r = Crash assert_failed ∧ unsortable ord (joined s1 r).

Lemma serve_all_ok rs s :
  Inv s [] None → allowed_run rs s →
  (∃ s', for_each (serve site_id ord columns registry) rs s = Done s' ∧ Inv s' [] None ∧
     (Forall deferred_request rs → weak (out_e (txn_gra s)) → weak (out_e (txn_gra s')))) ∨
  (for_each (serve site_id ord columns registry) rs s = Crash assert_failed ∧ crash_point rs s).
Proof.
  revert s. induction rs as [|r rs IH]; intros s HI Ha; cbn [for_each]; [left; eauto|]. destruct Ha as [Ha Hrs].
  destruct (serve_ok s r HI Ha) as [(s1 & Hs1 & HI1 & Hw1)|[Hs1 Hu]].
  - rewrite Hs1. cbn [mbind result_bind].
    destruct (IH s1 HI1 (Hrs s1 Hs1)) as [(s' & Hs' & HI' & Hw')|[Hs' (rs1 & r' & rs2 & s2 & -> & ? & ?)]]; [left|right].
    + exists s'. split_and!; [done..|]. intros [Hr Hf]%Forall_cons Hw. by apply Hw', Hw1.
    + split; [done|]. exists (r :: rs1), r', rs2, s2. split; [done|]. split; [|done]. cbn. by rewrite Hs1.
  - right. rewrite Hs1. split; [done|]. by exists [], r, rs, s.
Qed.
End requests.
