(* ===== verification/RccProps.v ===== *)
(** * The ROCOCO server: what a run does

    The theorems on sequences of requests within the protocol: the server returns from
    every request, decides a transaction at most once, and stalls on none once the
    transactions it waits for have finished; and runs that show where its answers are
    not those a serializable system gives. *)

From S2P Require Import Prelude Graph GraphSearch Tarjan SccSort Rcc RccInv RccSteps RccRuns.

Section runs.
Context (site_id : Z) (ord : gset Z → list Z) (Hord : ∀ s, ord s ≡ₚ elements s).
Context (columns : Z → Z) (registry : Z * Z → option handler).

Abbreviation serve_all := (serve_all site_id ord columns registry).
Abbreviation allowed_run := (allowed_run site_id ord registry columns).

(** Edges of the deferred kind never fail the check of a component. *)
Lemma weak_sortable e : weak e → ¬ unsortable ord e.
Proof using Hord.
  intros Hw (g & v & Hg & Ho & Hv & Hc).
  assert (∀ u w, ¬ strong g u w) as Hn by (intros u w (r & Hr & ?); rewrite Ho in Hr; pose proof (Hw u w r Hr); lia).
  destruct (sorted_scc_topological ord g v (λ _, 0%nat) Hord (go_wf _ Hg) Hv) as (l & Hl & _);
    [by intros u w _ _ ?%Hn|by intros u w _ ?%Hn|congruence].
Qed.

Lemma allowed_run_app rs1 r rs2 s :
  allowed_run (rs1 ++ r :: rs2) s →
  allowed_run rs1 s ∧ ∀ s', for_each (serve site_id ord columns registry) rs1 s = Done s' → allowed site_id registry columns s' r.
Proof.
  revert s. induction rs1 as [|r1 rs1 IH]; intros s Ha; [split; [done|]; intros s' [= <-]; apply Ha|].
  destruct Ha as [Ha1 Ha]. cbn. destruct (serve site_id ord columns registry s r1) as [s'| |] eqn:Hs'; cbn; [|split; [by split|done]..].
  destruct (IH s' (Ha s' eq_refl)) as [H1 H2]. split; [|done]. split; [done|]. by intros s'' [= <-].
Qed.

Lemma run_inv rs s : allowed_run rs Server_new → serve_all rs = Done s → Inv site_id registry s [] None.
Proof using Hord.
  intros Ha Hs. destruct (serve_all_ok site_id ord Hord registry columns rs Server_new (new_inv _ _) Ha) as [(s' & Hs' & HI & _)|[Hs' _]];
    unfold Rcc.serve_all in Hs; rewrite Hs' in Hs; by simplify_eq.
Qed.

(** What a returned run promises: every transaction is decided at most once, exactly
    the committed ones are, and the graph, counters and table are consistent. *)
Definition run_good (s : Server) : Prop :=
  NoDup (decided_ids (log s)) ∧
  (∀ v, v ∈ decided_ids (log s) ↔ committed_ (local_at s v) = true) ∧
  (∀ v, v ∈ decided_ids (log s) → TXN_DCD ≤ stat (txn_gra s) v) ∧
  graph_wf (txn_gra s) ∧
  ∀ b x, balls s !! b = Some x → ∃ u k, b ∈ ev (txn_gra s) u k ∧ stat (txn_gra s) u < k.

Lemma inv_good s : Inv site_id registry s [] None → run_good s.
Proof.
  intros [Hg Hb Hd _ Hw]. split_and!.
  - apply (do_log _ _ _ Hd).
  - apply (do_logged _ _ _ Hd).
  - intros v Hv%(do_logged _ _ _ Hd). by apply (do_committed _ _ _ Hd).
  - apply Hg.
  - intros b x Hx. destruct (bo_live _ _ _ _ Hb b x Hx) as (Hlt & _). pose proof (bo_tokens _ _ _ _ Hb b) as Ht.
    rewrite Hx in Ht. unfold tokens in Ht. cbn in Ht. destruct (g_tokens_elem b (txn_gra s)) as (u & k & Hin); [lia|].
    exists u, k. split; [done|]. destruct (wo_event _ _ _ _ Hw u k b Hin) as [?|(k' & _ & ?%not_elem_of_nil)]; done.
Qed.

(** C9: every sequence of requests within the protocol is served: whatever the nested
    callbacks do they end, no counter is triggered twice or lost (each one left is
    stored at a transaction that has not reached its status), each transaction is
    decided at most once and no assertion fails, but for those inside
    [Graph::sorted_scc] (a component must have a start vertex, and every member must be
    reached): a run that stops stops there, at a request whose edges, joined with those
    of the server, have a component that [sorted_scc] refuses.  The closure that
    decides a component goes on to read [mgr_] through a transaction it may have
    destroyed; the manager is taken to be read as before. *)
Theorem rcc_requests_return rs :
  allowed_run rs Server_new →
  (∃ s, serve_all rs = Done s ∧ run_good s) ∨
  (serve_all rs = Crash assert_failed ∧ crash_point site_id ord registry columns rs Server_new).
Proof using Hord.
  intros Ha. destruct (serve_all_ok site_id ord Hord registry columns rs Server_new (new_inv _ _) Ha) as [(s & Hs & HI & _)|?]; [left|by right].
  exists s. split; [done|by apply inv_good].
Qed.

(** When no piece touches a column immediately and no received graph has an
    immediate edge, every run within the protocol is served to its end. *)
Theorem rcc_deferred_returns rs :
  allowed_run rs Server_new → Forall (deferred_request registry) rs →
  ∃ s, serve_all rs = Done s ∧ run_good s ∧ weak (out_e (txn_gra s)).
Proof using Hord.
  intros Ha Hf. assert (weak (out_e (txn_gra Server_new))) as Hw0 by (intros u w r; unfold out_e; cbn; by rewrite lookup_empty).
  destruct (serve_all_ok site_id ord Hord registry columns rs Server_new (new_inv _ _) Ha) as [(s & Hs & HI & Hw)|[_ Hc]].
  - exists s. split; [done|]. split; [by apply inv_good|by apply Hw].
  - destruct Hc as (rs1 & r & rs2 & s1 & -> & Hs1 & Hcr & Hu). exfalso. apply Forall_app in Hf as [Hf1 [Hr _]%Forall_cons].
    destruct (allowed_run_app rs1 r rs2 Server_new Ha) as [Ha1 Har].
    destruct (serve_all_ok site_id ord Hord registry columns rs1 Server_new (new_inv _ _) Ha1) as [(s' & Hs' & HI' & Hw)|[Hs' _]]; [|congruence].
    assert (s' = s1) as -> by congruence. specialize (Hw Hf1 Hw0). destruct r; [|revert Hu; apply weak_sortable; by apply weak_join..].
    destruct (start_ok site_id ord Hord registry columns h s1 HI') as (? & Hst & _); [by apply Har|]. cbn in Hcr. congruence.
Qed.

(** C10: nothing is waited for in vain.  When all transactions of the server's graph
    have finished and every question to another server has been answered, each
    transaction that has pieces here, or that the server is committing, is decided. *)
Theorem rcc_no_stall rs s v :
  allowed_run rs Server_new → serve_all rs = Done s →
  (∀ u, u ∈ dom (txn_gra s) → TXN_CMT ≤ stat (txn_gra s) u) →
  (∀ u, during_asking (local_at s u) = true → during_commit (local_at s u) = true) →
  site_id ∈ servs (txn_gra s) v ∨ during_commit (local_at s v) = true → TXN_DCD ≤ stat (txn_gra s) v.
Proof using Hord.
  intros Ha Hs Hfin Hask. destruct (run_inv rs s Ha Hs) as [Hg Hb Hd _ Hw].
  induction v as [v IH] using (well_founded_ind (wo_wf _ _ _ _ Hw)). intros Hv.
  destruct (decide (TXN_DCD ≤ stat (txn_gra s) v)) as [|Hlt]; [done|exfalso]. apply Z.nle_gt in Hlt.
  assert (during_commit (local_at s v) = true) as Hdc.
  { destruct Hv as [Hv|]; [|done]. pose proof (servs_dom _ _ _ Hv) as Hvd. pose proof (Hfin v Hvd) as Hcm.
    destruct (wo_involved _ _ _ _ Hw v Hv) as [?|(e & ?%not_elem_of_nil)]; [|done..].
    apply data_at_dom in Hvd as [d Hda]. exists d. split; [done|]. unfold stat in *. rewrite Hda in *. cbn in *.
    assert (status_ d = 2 ∨ status_ d = 3) as [Hst|Hst] by (unfold TXN_CMT, TXN_DCD in *; lia); unfold is_finish; by rewrite Hst. }
  destruct (wo_ball _ _ _ _ Hw v) as (b & x & Hx & e & Hwish); [done..|].
  destruct (proj2 (proj2 (proj2 (proj2 (inv_good s (Build_Inv _ _ _ _ _ Hg Hb Hd (Forall_nil_2 _) Hw))))) b x Hx) as (u & k & Hin & Hku).
  pose proof (wo_key _ _ _ _ Hw u k b x (or_introl Hin) Hx) as Hkey.
  assert (u ∈ dom (txn_gra s)) as Hud.
  { apply data_at_dom. unfold ev in Hin. destruct (data_at (txn_gra s) u); [by eexists|by apply not_elem_of_nil in Hin]. }
  destruct Hwish as [Hwish|Hwish]; rewrite Hwish in Hkey; cbn in Hkey; subst k.
  - pose proof (Hfin u Hud). lia.
  - assert (waits s [] v u) as Hvu by (exists b, x, e; split_and!; [done..|by left]).
    assert (TXN_DCD ≤ stat (txn_gra s) u); [|lia]. apply (IH u Hvu).
    destruct (wo_asked _ _ _ _ Hw v u Hvu Hku) as [?|[?|[?|[?%not_elem_of_nil|(? & ?%not_elem_of_nil)]]]]; [by left|by right|right; by apply Hask|done..].
Qed.
End runs.

(** ** The protocol as a check that can be run *)

Definition wf_check (g : Graph) : Prop :=
  map_Forall (λ u x, txn_id_ (v_data x) = u ∧ map_Forall (λ w r, in_e g u w = Some r) (v_to x) ∧
    map_Forall (λ w r, out_e g w u = Some r) (v_from x)) g.

#[export] Instance wf_check_dec g : Decision (wf_check g).
Proof. unfold wf_check. apply map_Forall_dec. intros u x. apply _. Defined.

Lemma wf_check_ok g : wf_check g → graph_wf g.
Proof.
  intros Hc. split.
  - intros u d. unfold data_at. destruct (g !! u) as [x|] eqn:Hx; [|done]. intros [= <-]. by apply (Hc u x Hx).
  - intros u w. apply option_eq. intros r. unfold out_e at 1, in_e at 1. split.
    + destruct (g !! u) as [x|] eqn:Hx; [|done]. cbn. intros Hr. destruct (Hc u x Hx) as (_ & Ho & _). apply (Ho w r Hr).
    + destruct (g !! w) as [x|] eqn:Hx; [|done]. cbn. intros Hr. destruct (Hc w x Hx) as (_ & _ & Hi). apply (Hi u r Hr).
Qed.

Section check.
Context (site_id : Z) (ord : gset Z → list Z) (registry : Z * Z → option handler) (columns : Z → Z).

Definition known_graphb (s : Server) (gra : Graph) : bool :=
  bool_decide (gra ≠ ∅) && bool_decide (wf_check gra) &&
  bool_decide (Z.of_nat (size (txn_gra s) + size gra) < 2 ^ 31 - 1) &&
  bool_decide (map_Forall (λ u x, 0 ≤ status_ (v_data x) < 8 ∧ events_ (v_data x) = ∅ ∧ servers_ (v_data x) ≠ ∅ ∧
    (site_id ∈ servers_ (v_data x) → site_id ∈ servs (txn_gra s) u)) gra).

Definition all_dtxn (s : Server) (tid : Z) (ro : bool) : bool :=
  match dtxns s !! tid with Some t => bool_decide (read_only_ t = ro) | None => true end.
Definition kissesb (h : RequestHeader) : bool :=
  match registry (h_t_type h, h_p_type h) with
  | Some x => bool_decide (Forall (kiss_ok columns) (hd_kiss x)) && bool_decide (Z.of_nat (length (hd_kiss x)) < 2 ^ 31 - 1)
  | None => false
  end.

Definition allowedb (s : Server) (r : request) : bool :=
  match r with
  | Start h =>
      negb (from_option is_finish false (data_at (txn_gra s) (h_tid h))) &&
      bool_decide (Z.of_nat (size (txn_gra s)) + 1 < 2 ^ 31 - 1) && all_dtxn s (h_tid h) false && kissesb h
  | Finish tid ts gra defer => known_graphb s gra && bool_decide (is_Some (dtxns s !! tid)) && all_dtxn s tid false
  | Ask tid defer => bool_decide (site_id ∈ servs (txn_gra s) tid)
  | Answer av gra => known_graphb s gra && bool_decide (av ∈ dom (txn_gra s))
  | RoStart h defer => all_dtxn s (h_tid h) true && kissesb h
  end.

Lemma known_graphb_ok s gra : known_graphb s gra = true → known_graph site_id s gra.
Proof.
  unfold known_graphb, known_graph. rewrite !andb_true_iff, !bool_decide_eq_true. intros (((? & ?%wf_check_ok) & ?) & Hf).
  split_and!; [done..|]. intros u d. unfold data_at. destruct (gra !! u) as [x|] eqn:Hx; [|done]. intros [= <-]. by apply (Hf u x Hx).
Qed.

Lemma all_dtxn_ok s tid ro t : all_dtxn s tid ro = true → dtxns s !! tid = Some t → read_only_ t = ro.
Proof. unfold all_dtxn. intros H Ht. rewrite Ht in H. by apply bool_decide_eq_true in H. Qed.

Lemma allowedb_ok s r : allowedb s r = true → allowed site_id registry columns s r.
Proof.
  assert (∀ h, kissesb h = true → ∃ x, registry (h_t_type h, h_p_type h) = Some x ∧ Forall (kiss_ok columns) (hd_kiss x) ∧
    Z.of_nat (length (hd_kiss x)) < 2 ^ 31 - 1) as Hk.
  { intros h. unfold kissesb. destruct (registry _) as [x|]; [|done]. rewrite andb_true_iff, !bool_decide_eq_true. intros []. by exists x. }
  destruct r as [h|tid ts gra defer|tid defer|av gra|h defer]; cbn; rewrite ?andb_true_iff, ?bool_decide_eq_true.
  - intros (((Hf & ?) & Hd) & (x & ? & ? & _)%Hk). split_and!; [|done|by intros t; apply all_dtxn_ok|by exists x].
    intros (d & Hd' & Hf'). rewrite Hd' in Hf. cbn in Hf. by rewrite Hf' in Hf.
  - intros ((Hg%known_graphb_ok & [t Ht]) & Hd). split; [done|]. exists t. split; [done|by eapply all_dtxn_ok].
  - done.
  - intros (Hg%known_graphb_ok & ?). done.
  - intros (Hd & Hx%Hk). split; [by intros t; apply all_dtxn_ok|done].
Qed.

Fixpoint allowed_runb (rs : list request) (s : Server) : bool :=
  match rs with
  | [] => true
  | r :: rs => allowedb s r && match serve site_id ord columns registry s r with Done s' => allowed_runb rs s' | _ => true end
  end.

Lemma allowed_runb_ok rs s : allowed_runb rs s = true → allowed_run site_id ord registry columns rs s.
Proof.
  revert s. induction rs as [|r rs IH]; intros s; cbn; [done|]. rewrite andb_true_iff. intros [Ha%allowedb_ok Hrs]. split; [done|].
  intros s' Hs'. rewrite Hs' in Hrs. by apply IH.
Qed.
End check.

(** ** Runs *)

Definition demo_allowed := allowed_runb 1 elements demo_registry (λ _, 1).

(** A graph as another server sends it: transactions with their servers and status. *)
Definition sent (ts : list (Z * Z * list Z)) : Graph :=
  list_to_map ((λ x : Z * Z * list Z, (x.1.1, mkVertex ∅ ∅ (mkTxn x.1.2 x.1.1 0 (list_to_set x.2) ∅))) <$> ts).

Definition notable (a : action) : bool := match a with Decided _ _ | Reply _ => true | _ => false end.

(** The decisions and replies of a run, in order. *)
Definition outcome (r : result Server) : result (list action) := s ← r; Done (filter (λ a, notable a = true) (log s)).
Definition final (r : result Server) : Server := match r with Done s => s | _ => Server_new end.

(** Transaction 2 waits for 1, which waits for 4 of another server. *)
Definition chain_run : list request :=
  [piece 1 11 10; piece 2 12 10; Finish 2 0 (or_edge 1 2 1 (sent [(1, 1, [1]); (2, 1, [1])])) 102;
   Finish 1 0 (or_edge 4 1 1 (sent [(1, 1, [1]); (4, 1, [2])])) 101; Answer 4 (sent [(4, 2, [2])])].

Lemma chain_allowed : allowed_run 1 elements demo_registry (λ _, 1) chain_run Server_new.
Proof. apply allowed_runb_ok. vm_compute. reflexivity. Qed.

Lemma chain_deferred : Forall (deferred_request demo_registry) chain_run.
Proof.
  assert (∀ g, bool_decide (map_Forall (λ _ x, map_Forall (λ _ r, 0 ≤ r < 2) (v_to x)) g) = true → weak (out_e g)) as Hw.
  { intros g Hg%bool_decide_eq_true u w r. unfold out_e. destruct (g !! u) as [x|] eqn:Hx; [|done]. apply (Hg u x Hx). }
  assert (∀ t p r, deferred_request demo_registry (piece t p r)) as Hp.
  { intros t p r x [= <-]. by apply Forall_singleton. }
  repeat (apply Forall_cons; split); try apply Hp; [..|constructor]; apply Hw; vm_compute; reflexivity.
Qed.

Lemma rcc_requests_return_witness :
  (∃ s, demo_serve chain_run = Done s ∧ run_good s) ∨
  (demo_serve chain_run = Crash assert_failed ∧ crash_point 1 elements demo_registry (λ _, 1) chain_run Server_new).
Proof. apply (rcc_requests_return 1 elements (λ s, reflexivity _) (λ _, 1) demo_registry chain_run). exact chain_allowed. Defined.

Lemma rcc_deferred_returns_witness :
  outcome (demo_serve chain_run) = Done [Decided 4 None; Decided 1 (Some [11]); Decided 2 (Some [12]); Reply 102; Reply 101] ∧
  ∃ s, demo_serve chain_run = Done s ∧ run_good s ∧ weak (out_e (txn_gra s)).
Proof.
  split; [vm_compute; reflexivity|].
  apply (rcc_deferred_returns 1 elements (λ s, reflexivity _) (λ _, 1) demo_registry chain_run); [exact chain_allowed|exact chain_deferred].
Defined.

Lemma rcc_no_stall_witness : TXN_DCD ≤ stat (txn_gra (final (demo_serve chain_run))) 2.
Proof.
  apply (rcc_no_stall 1 elements (λ s, reflexivity _) (λ _, 1) demo_registry chain_run).
  - exact chain_allowed.
  - vm_compute. reflexivity.
  - intros u. apply (bool_decide_eq_true_1 (set_Forall (λ u, TXN_CMT ≤ stat (txn_gra (final (demo_serve chain_run))) u) (dom (txn_gra (final (demo_serve chain_run)))))).
    vm_compute. reflexivity.
  - intros u. unfold local_at. destruct (local (final (demo_serve chain_run)) !! u) as [x|] eqn:Hx; [|done]. cbn. revert Hx.
    apply (bool_decide_eq_true_1 (map_Forall (λ _ x, during_asking x = true → during_commit x = true) (local (final (demo_serve chain_run))))).
    vm_compute. reflexivity.
  - left. apply (bool_decide_eq_true_1 (1 ∈ servs (txn_gra (final (demo_serve chain_run))) 2)). vm_compute. reflexivity.
Defined.

(** ** Runs that lose work or order *)

(** An answer from another server can overtake the finish request.  The server has
    asked about transaction 2, which then starts a piece here; the answer commits 2
    with nothing to execute, and the finish request of 2 finds it during commit: its
    piece 12 is never executed and the request (reply 102) is never answered. *)
Theorem rcc_answer_overtakes_finish :
  let run := [piece 1 11 10; Finish 1 0 (or_edge 2 1 1 (sent [(1, 1, [1]); (2, 1, [2])])) 101; piece 2 12 20;
              Answer 2 (sent [(2, 2, [1; 2])]); Finish 2 0 (sent [(2, 1, [1; 2])]) 102] in
  allowed_run 1 elements demo_registry (λ _, 1) run Server_new ∧
  outcome (demo_serve run) = Done [Decided 2 None; Decided 1 (Some [11]); Reply 101].
Proof. split; [apply allowed_runb_ok|]; vm_compute; reflexivity. Qed.

(** Transactions 2 and 3 touch the same column after 1.  [kiss] keeps the first
    transaction that touched a column, so both depend on 1 only and not on each other:
    two servers that start them in the same order execute them in different orders. *)
Theorem rcc_conflicts_unordered :
  let starts := [piece 1 11 10; piece 2 12 10; piece 3 13 10] in
  let finish t := Finish t 0 (if decide (t = 1) then sent [(1, 0, [1; 2])] else or_edge 1 t 1 (sent [(1, 0, [1; 2]); (t, 0, [1; 2])])) (100 + t) in
  let run1 := starts ++ [finish 1; finish 2; finish 3] in
  let run2 := starts ++ [finish 1; finish 3; finish 2] in
  allowed_run 1 elements demo_registry (λ _, 1) run1 Server_new ∧
  allowed_run 2 elements demo_registry (λ _, 1) run2 Server_new ∧
  outcome (serve_all 1 elements (λ _, 1) demo_registry run1) =
    Done [Decided 1 (Some [11]); Reply 101; Decided 2 (Some [12]); Reply 102; Decided 3 (Some [13]); Reply 103] ∧
  outcome (serve_all 2 elements (λ _, 1) demo_registry run2) =
    Done [Decided 1 (Some [11]); Reply 101; Decided 3 (Some [13]); Reply 103; Decided 2 (Some [12]); Reply 102].
Proof. cbn zeta. split_and!; [apply allowed_runb_ok..| |]; vm_compute; reflexivity. Qed.

(** A graph that arrives while a transaction waits can put one that has not finished
    into its component: [anc_finish_cb] does not look again, and 3 is committed with
    nothing to execute before its finish request, which is then answered at once. *)
Theorem rcc_component_grows_late :
  let g l := sent ((λ t, (t, 0, [1])) <$> l) in
  let run := [piece 1 11 10; piece 2 12 10; piece 3 13 20; Finish 2 0 (or_edge 1 2 1 (g [1; 2])) 102;
              Finish 1 0 (or_edge 2 3 1 (or_edge 3 1 1 (g [1; 2; 3]))) 101; Finish 3 0 (or_edge 2 3 1 (g [2; 3])) 103] in
  allowed_run 1 elements demo_registry (λ _, 1) run Server_new ∧
  outcome (demo_serve run) =
    Done [Decided 1 (Some [11]); Decided 2 (Some [12]); Decided 3 None; Reply 102; Reply 101; Reply 103].
Proof. cbn zeta. split; [apply allowed_runb_ok|]; vm_compute; reflexivity. Qed.

(** A piece that touches one column twice immediately depends on itself, and the check
    of its component stops the server. *)
Theorem rcc_self_dependency_crashes :
  let twice (k : Z * Z) := Some (mkHandler DF_NO [(k.2, 0, true); (k.2, 0, true)]) in
  let run := [piece 1 11 10; Finish 1 0 (or_edge 1 1 2 (sent [(1, 0, [1])])) 101] in
  allowed_run 1 elements twice (λ _, 1) run Server_new ∧
  serve_all 1 elements (λ _, 1) twice run = Crash assert_failed.
Proof. cbn zeta. split; [apply allowed_runb_ok|]; vm_compute; reflexivity. Qed.
