(* ===== verification/MemRow.v ===== *)
(** * Rows of memdb: schemas and the bytes of a row

    Models src/rococo-dst/memdb/schema.{h,cc}, row.{h,cc} and the parts of value.{h,cc}
    they use.  A row keeps its fixed-size columns in one block of bytes, and its
    strings either back to back in a second block with a table of their ends (DENSE)
    or in separate strings (SPARSE).

    A [double] is its 64-bit pattern.  Sizes are [int] in the code, where overflow is
    undefined; they are integers here.  What a row tells its table when an indexed
    column changes is a list of events. *)

From S2P Require Import Prelude SparseInt.

(** ** Values *)

Inductive kind := UNKNOWN | I32 | I64 | DOUBLE | STR.
#[export] Instance kind_eq_dec : EqDecision kind.
Proof. solve_decision. Defined.

Inductive Value := VUnknown | VI32 (v : Z) | VI64 (v : Z) | VDouble (bits : Z) | VStr (s : list Z).
#[export] Instance value_eq_dec : EqDecision Value.
Proof. solve_decision. Defined.

Definition get_kind (v : Value) : kind :=
  match v with VUnknown => UNKNOWN | VI32 _ => I32 | VI64 _ => I64 | VDouble _ => DOUBLE | VStr _ => STR end.

(** [Value::write_binary], as the bytes written. *)
Definition write_binary (v : Value) : result (list Z) :=
  match v with
  | VI32 z => Done (low_bytes z 4)
  | VI64 z => Done (low_bytes z 8)
  | VDouble z => Done (low_bytes z 8)
  | VStr s => Done s
  | VUnknown => Crash assert_failed
  end.

(** [sizeof] of the types of the fixed-size columns. *)
Definition sizeof (k : kind) : option nat :=
  match k with I32 => Some 4%nat | I64 => Some 8%nat | DOUBLE => Some 8%nat | _ => None end.

(** ** Schemas *)

(** [ci_at] is the union of [fixed_size_offst] and [var_size_idx]. *)
Record column_info := mkColumn { ci_id : Z; ci_name : list Z; ci_indexed : bool; ci_type : kind; ci_at : nat }.

Record Schema := mkSchema {
  col_name_to_id_ : gmap (list Z) Z;
  col_info_ : list column_info;
  key_cols_id_ : list Z;
  var_size_cols_ : nat;
  fixed_part_size_ : nat;
  hidden_fixed_ : nat;
  hidden_var_ : nat;
  frozen_ : bool;
  (* of [IndexedSchema] *)
  idx_col_ : Z;
  all_idx_ : list (list Z);
  idx_name_ : gmap (list Z) Z;
}.

Definition Schema_new : Schema := mkSchema ∅ [] [] 0 0 0 0 false (-1) [] ∅.

Definition columns_count (s : Schema) : nat := length (col_info_ s) - hidden_fixed_ s - hidden_var_ s.

Definition get_column_id (s : Schema) (name : list Z) : Z := default (-1) (col_name_to_id_ s !! name).

Definition push_column (name : list Z) (type : kind) (key : bool) (at_ var fixed : nat) (s : Schema) : Schema :=
  let id := Z.of_nat (size (col_name_to_id_ s)) in
  mkSchema (<[name := id]> (col_name_to_id_ s)) (col_info_ s ++ [mkColumn id name key type at_])
    (if key then key_cols_id_ s ++ [id] else key_cols_id_ s) var fixed
    (hidden_fixed_ s) (hidden_var_ s) (frozen_ s) (idx_col_ s) (all_idx_ s) (idx_name_ s).

(** [Schema::do_add_column] *)
Definition do_add_column (name : list Z) (type : kind) (key : bool) (s : Schema) : result (Schema * Z) :=
  let this_column_id := Z.of_nat (size (col_name_to_id_ s)) in
  match col_name_to_id_ s !! name with
  | Some _ => Done (s, -1)
  | None =>
      match type with
      | STR => Done (push_column name type key (var_size_cols_ s) (S (var_size_cols_ s)) (fixed_part_size_ s) s, this_column_id)
      | _ =>
          match sizeof type with
          | Some n =>
              Done (push_column name type key (fixed_part_size_ s) (var_size_cols_ s) (fixed_part_size_ s + n) s, this_column_id)
          | None => Crash assert_failed
          end
      end
  end.

Definition add_column (name : list Z) (type : kind) (key : bool) (s : Schema) : result (Schema * Z) :=
  _ ← verify (negb (frozen_ s) && bool_decide (hidden_fixed_ s = 0%nat) && bool_decide (hidden_var_ s = 0%nat));
  do_add_column name type key s.

Definition set_hidden (fixed var : nat) (s : Schema) : Schema :=
  mkSchema (col_name_to_id_ s) (col_info_ s) (key_cols_id_ s) (var_size_cols_ s) (fixed_part_size_ s) fixed var
    (frozen_ s) (idx_col_ s) (all_idx_ s) (idx_name_ s).

Definition add_hidden_column (name : list Z) (type : kind) (s : Schema) : result (Schema * Z) :=
  _ ← verify (negb (frozen_ s));
  '(s, ret) ← do_add_column name type false s;
  match type with
  | STR => Done (set_hidden (hidden_fixed_ s) (S (hidden_var_ s)) s, ret)
  | _ => Done (set_hidden (S (hidden_fixed_ s)) (hidden_var_ s) s, ret)
  end.

(** [IndexedSchema::freeze]; the name of the hidden column is ".index". *)
Definition index_name : list Z := [46; 105; 110; 100; 101; 120].

Definition freeze (s : Schema) : result Schema :=
  s ← (if frozen_ s then Done s
       else
         '(s, id) ← add_hidden_column index_name I64 s;
         _ ← verify (bool_decide (0 ≤ id));
         Done (mkSchema (col_name_to_id_ s) (col_info_ s) (key_cols_id_ s) (var_size_cols_ s) (fixed_part_size_ s)
                 (hidden_fixed_ s) (hidden_var_ s) (frozen_ s) id (all_idx_ s) (idx_name_ s)));
  Done (mkSchema (col_name_to_id_ s) (col_info_ s) (key_cols_id_ s) (var_size_cols_ s) (fixed_part_size_ s)
          (hidden_fixed_ s) (hidden_var_ s) true (idx_col_ s) (all_idx_ s) (idx_name_ s)).

(** [IndexedSchema::index_sanity_check] and [add_index] *)
Definition index_sanity_check (s : Schema) (idx : list Z) : result unit :=
  _ ← verify (bool_decide (NoDup idx));
  for_each (λ _ c, verify (bool_decide (0 ≤ c < Z.of_nat (columns_count s)))) idx tt.

Definition set_indexed (c : Z) (l : list column_info) : list column_info :=
  alter (λ ci, mkColumn (ci_id ci) (ci_name ci) true (ci_type ci) (ci_at ci)) (Z.to_nat c) l.

Definition add_index (name : list Z) (idx : list Z) (s : Schema) : result (Schema * Z) :=
  _ ← index_sanity_check s idx;
  let this_idx_id := Z.of_nat (length (all_idx_ s)) in
  match idx_name_ s !! name with
  | Some _ => Done (s, -1)
  | None =>
      Done (mkSchema (col_name_to_id_ s) (foldr set_indexed (col_info_ s) (reverse idx)) (key_cols_id_ s) (var_size_cols_ s)
              (fixed_part_size_ s) (hidden_fixed_ s) (hidden_var_ s) (frozen_ s) (idx_col_ s) (all_idx_ s ++ [idx])
              (<[name := this_idx_id]> (idx_name_ s)), this_idx_id)
  end.

Definition get_column_info (s : Schema) (c : Z) : result column_info :=
  if decide (0 ≤ c) then
    match col_info_ s !! Z.to_nat c with Some ci => Done ci | None => Crash invalid_access end
  else Crash invalid_access.

(** ** Rows *)

(** The union of a row with the two ways to keep strings, and [kind_]. *)
Inductive strings :=
  | DENSE_ (dense_var_part : list Z) (dense_var_idx : list nat)
  | SPARSE_ (sparse_var : list (list Z)).

(** [tbl_] is whether the row is in a table. *)
Record Row := mkRow { fixed_part_ : list Z; var_part_ : strings; tbl_ : bool; rdonly_ : bool; schema_ : Schema }.

Definition set_fixed (p : list Z) (r : Row) : Row := mkRow p (var_part_ r) (tbl_ r) (rdonly_ r) (schema_ r).
Definition set_var (v : strings) (r : Row) : Row := mkRow (fixed_part_ r) v (tbl_ r) (rdonly_ r) (schema_ r).
Definition make_readonly (r : Row) : Row := mkRow (fixed_part_ r) (var_part_ r) (tbl_ r) true (schema_ r).

(** [set_table] with a table, and with [nullptr]. *)
Definition set_table (t : bool) (r : Row) : result Row :=
  _ ← verify (negb (t && tbl_ r));
  Done (mkRow (fixed_part_ r) (var_part_ r) t (rdonly_ r) (schema_ r)).

(** Bytes of a block. *)
Definition load (b : list Z) (at_ len : nat) : result (list Z) :=
  if decide (at_ + len ≤ length b)%nat then Done (take len (drop at_ b)) else Crash invalid_access.
Definition store (b : list Z) (at_ : nat) (p : list Z) : result (list Z) :=
  if decide (at_ + length p ≤ length b)%nat then Done (take at_ b ++ p ++ drop (at_ + length p) b) else Crash invalid_access.
Definition entry {A} (l : list A) (i : nat) : result A :=
  match l !! i with Some x => Done x | None => Crash invalid_access end.

(** Start and length of a string in the dense block. *)
Definition var_range (idx : list nat) (i : nat) : result (nat * nat) :=
  match i with
  | O => stop ← entry idx 0; Done (0%nat, stop)
  | S j => start ← entry idx j; stop ← entry idx i; Done (start, (stop - start)%nat)
  end.

(** [Row::get_blob], as the bytes it refers to. *)
Definition get_blob (r : Row) (c : Z) : result (list Z) :=
  info ← get_column_info (schema_ r) c;
  match ci_type info with
  | STR =>
      match var_part_ r with
      | DENSE_ part idx => '(start, len) ← var_range idx (ci_at info); load part start len
      | SPARSE_ vars => entry vars (ci_at info)
      end
  | k => match sizeof k with Some n => load (fixed_part_ r) (ci_at info) n | None => Crash assert_failed end
  end.

Definition read_value (k : kind) (b : list Z) : result Value :=
  match k with
  | I32 => Done (VI32 (i32 (from_bytes b)))
  | I64 => Done (VI64 (i64 (from_bytes b)))
  | DOUBLE => Done (VDouble (from_bytes b))
  | STR => Done (VStr b)
  | UNKNOWN => Crash assert_failed
  end.

(** [Row::get_column] *)
Definition get_column (r : Row) (c : Z) : result Value :=
  info ← get_column_info (schema_ r) c;
  b ← get_blob r c;
  read_value (ci_type info) b.

(** [Row::get_key] *)
Definition get_key (r : Row) : result (list (list Z)) :=
  for_each (λ mb c, b ← get_blob r c; Done (mb ++ [b])) (key_cols_id_ (schema_ r)) [].

(** [Row::make_sparse] *)
Definition make_sparse (r : Row) : result Row :=
  match var_part_ r with
  | SPARSE_ _ => Done r
  | DENSE_ part idx =>
      vars ← for_each (λ vars i, '(start, len) ← var_range idx i; b ← load part start len; Done (vars ++ [b]))
               (seq 0 (var_size_cols_ (schema_ r))) [];
      Done (set_var (SPARSE_ vars) r)
  end.

Inductive table_event := NotifyBefore (c : Z) | Remove | Insert | NotifyAfter (c : Z).

(** What the table is told when the new bytes of an indexed column differ. *)
Definition table_events (r : Row) (indexed : bool) (c : Z) : list table_event :=
  if indexed && tbl_ r then [NotifyBefore c; Remove; Insert; NotifyAfter c] else [].

(** [Row::update_fixed] *)
Definition update_fixed (r : Row) (info : column_info) (p : list Z) : result (Row * list table_event) :=
  _ ← verify (negb (rdonly_ r));
  old ← load (fixed_part_ r) (ci_at info) (length p);
  if decide (old = p) then Done (r, [])
  else
    part ← store (fixed_part_ r) (ci_at info) p;
    Done (set_fixed part r, table_events r (ci_indexed info) (ci_id info)).

(** [Row::update(int, const std::string&)] *)
Definition update_str (r : Row) (c : Z) (v : list Z) : result (Row * list table_event) :=
  _ ← verify (negb (rdonly_ r));
  col ← get_column_info (schema_ r) c;
  _ ← verify (bool_decide (ci_type col = STR));
  match var_part_ r with
  | SPARSE_ vars =>
      b ← entry vars (ci_at col);
      if decide (b = v) then Done (r, [])
      else Done (set_var (SPARSE_ (<[ci_at col := v]> vars)) r, table_events r (ci_indexed col) c)
  | DENSE_ part idx =>
      '(start, len) ← var_range idx (ci_at col);
      b ← load part start len;
      if decide (b = v) then Done (r, [])
      else
        let evs := table_events r (ci_indexed col) c in
        if decide (len = length v) then
          part ← store part start v;
          Done (set_var (DENSE_ part idx) r, evs)
        else
          r ← make_sparse r;
          match var_part_ r with
          | SPARSE_ vars =>
              _ ← entry vars (ci_at col);
              Done (set_var (SPARSE_ (<[ci_at col := v]> vars)) r, evs)
          | DENSE_ _ _ => Crash invalid_access
          end
  end.

(** [Row::update(int, const Value&)], with the overloads for [i32], [i64], [double]. *)
Definition update_num (r : Row) (c : Z) (k : kind) (p : list Z) : result (Row * list table_event) :=
  info ← get_column_info (schema_ r) c;
  _ ← verify (bool_decide (ci_type info = k));
  update_fixed r info p.

Definition update (r : Row) (c : Z) (v : Value) : result (Row * list table_event) :=
  match v with
  | VI32 z => update_num r c I32 (low_bytes z 4)
  | VI64 z => update_num r c I64 (low_bytes z 8)
  | VDouble z => update_num r c DOUBLE (low_bytes z 8)
  | VStr s => update_str r c s
  | VUnknown => Crash assert_failed
  end.

(** [Row::copy_into] a new row: the visible strings, always dense. *)
Definition copy_into (r : Row) : result Row :=
  let visible := take (columns_count (schema_ r)) (col_info_ (schema_ r)) in
  '(part, idx) ← for_each (λ '(part, idx) it,
      match ci_type it with
      | STR =>
          b ← get_blob r (ci_id it);
          Done (part ++ b, idx ++ [length (part ++ b)])
      | _ => Done (part, idx)
      end) visible ([], []);
  Done (mkRow (fixed_part_ r) (DENSE_ part idx) false false (schema_ r)).

(** [Row::create]: the first pass over the values, the hidden columns, the second
    pass.  The tables of the second pass are filled from the front. *)
Definition create_fixed (s : Schema) (values : list Value) : result (list Z * nat * nat) :=
  for_each (λ '(part, fixed_pos, var_part_size) it,
    match it with
    | VStr str => Done (part, fixed_pos, (var_part_size + length str)%nat)
    | _ =>
        b ← write_binary it;
        part ← store part fixed_pos b;
        Done (part, (fixed_pos + length b)%nat, var_part_size)
    end) values (replicate (fixed_part_size_ s) 0, 0%nat, 0%nat).

Definition create_hidden (s : Schema) (n : nat) (fixed_pos : nat) : result nat :=
  for_each (λ pos ci,
    match ci_type ci with
    | STR => Done pos
    | k => match sizeof k with Some sz => Done (pos + sz)%nat | None => Crash assert_failed end
    end) (drop n (col_info_ s)) fixed_pos.

(** [dense_var_idx_[var_counter] = stop] in a table of [var_size_cols_] entries. *)
Definition push_stop (s : Schema) (idx : list nat) (stop : nat) : result (list nat) :=
  if decide (length idx < var_size_cols_ s)%nat then Done (idx ++ [stop]) else Crash invalid_access.

Definition create_var (s : Schema) (values : list Value) : result (list Z * list nat) :=
  for_each (λ '(part, idx) it,
    match it with
    | VStr str => idx ← push_stop s idx (length (part ++ str)); Done (part ++ str, idx)
    | _ => Done (part, idx)
    end) values ([], []).

Definition create_var_hidden (s : Schema) (n : nat) (idx : list nat) : result (list nat) :=
  for_each (λ idx ci,
    match ci_type ci with
    | STR => stop ← entry idx (length idx - 1); push_stop s idx stop
    | _ => Done idx
    end) (drop n (col_info_ s)) idx.

Definition create (s : Schema) (values : list Value) : result Row :=
  _ ← verify (bool_decide (length values = columns_count s));
  '(part, fixed_pos, var_part_size) ← create_fixed s values;
  fixed_pos ← create_hidden s (length values) fixed_pos;
  _ ← verify (bool_decide (fixed_pos = fixed_part_size_ s));
  if decide (0 < var_size_cols_ s)%nat then
    '(var, idx) ← create_var s values;
    _ ← verify (bool_decide (var_part_size = length var));
    idx ← create_var_hidden s (length values) idx;
    _ ← verify (bool_decide (length idx = var_size_cols_ s));
    Done (mkRow part (DENSE_ var idx) false false s)
  else Done (mkRow part (DENSE_ [] []) false false s).

(** [Row::to_string], as the bytes it appends; [kind_] is 0 for DENSE, 1 for SPARSE.
    The table of ends is [int]s, of which it copies [var_size_cols_] bytes. *)
Definition to_string (r : Row) : result (list Z) :=
  let s := schema_ r in
  let head k := low_bytes (Z.of_nat (fixed_part_size_ s)) 4 ++ fixed_part_ r ++ low_bytes k 4 in
  match var_part_ r with
  | DENSE_ part idx =>
      if decide (0 < var_size_cols_ s)%nat then
        last ← entry idx (var_size_cols_ s - 1);
        table ← load (idx ≫= λ i, low_bytes (Z.of_nat i) 4) 0 (var_size_cols_ s);
        var ← load part 0 last;
        Done (head 0 ++ table ++ var)
      else Done (head 0)
  | SPARSE_ _ => Done (head 1)
  end.
