(* ===== verification/MemRowSpec.v ===== *)
(** * Rows of memdb: a row is a tuple of values

    The well-formedness of schemas, the representation of a tuple of values by the
    bytes of a row in either layout, and the theorem that any sequence of operations
    on a row behaves like the same operations on the tuple. *)

From S2P Require Import Prelude SparseInt MemRow.

(** ** Schemas *)

Definition fsize (k : kind) : nat := default 0%nat (sizeof k).
Definition fsum (ks : list kind) : nat := sum_list_with fsize ks.
Definition nstr (ks : list kind) : nat := sum_list_with (λ k, if decide (k = STR) then 1%nat else 0%nat) ks.

Lemma fsum_app k l : fsum (k ++ l) = (fsum k + fsum l)%nat.
Proof. apply sum_list_with_app. Qed.
Lemma nstr_app k l : nstr (k ++ l) = (nstr k + nstr l)%nat.
Proof. apply sum_list_with_app. Qed.

Definition kinds (s : Schema) : list kind := ci_type <$> col_info_ s.

(** Where the data of a column is, given the columns before it. *)
Definition place (before : list kind) (k : kind) : nat := if decide (k = STR) then nstr before else fsum before.

Record schema_ok (s : Schema) : Prop := {
  so_column i ci : col_info_ s !! i = Some ci →
    ci_id ci = Z.of_nat i ∧ ci_type ci ≠ UNKNOWN ∧ ci_at ci = place (take i (kinds s)) (ci_type ci);
  so_fixed : fixed_part_size_ s = fsum (kinds s);
  so_var : var_size_cols_ s = nstr (kinds s);
  so_names name id : col_name_to_id_ s !! name = Some id ↔
    ∃ i ci, id = Z.of_nat i ∧ col_info_ s !! i = Some ci ∧ ci_name ci = name;
  so_size : size (col_name_to_id_ s) = length (col_info_ s);
  so_keys k : k ∈ key_cols_id_ s → 0 ≤ k < Z.of_nat (length (col_info_ s));
  so_hidden : hidden_var_ s = 0%nat ∧ hidden_fixed_ s = if frozen_ s then 1%nat else 0%nat;
  so_frozen : frozen_ s = true → ∃ ks, kinds s = ks ++ [I64];
}.

Lemma schema_new_ok : schema_ok Schema_new.
Proof.
  split; cbn; try done; [|by intros k ?%not_elem_of_nil].
  intros name id. split; [by rewrite lookup_empty|]. intros (i & ci & _ & Hi & _). by rewrite lookup_nil in Hi.
Qed.

Lemma push_column_ok name type key s :
  schema_ok s → type ≠ UNKNOWN → col_name_to_id_ s !! name = None → frozen_ s = false →
  let s' := push_column name type key (place (kinds s) type) (nstr (kinds s ++ [type])) (fsum (kinds s ++ [type])) s in
  schema_ok s' ∧ kinds s' = kinds s ++ [type].
Proof.
  intros [H1 H2 H3 H4 H5 H6 H7 H8] Ht Hn Hf. cbn zeta. unfold push_column. rewrite H5.
  assert (∀ f, kinds (mkSchema (<[name := Z.of_nat (length (col_info_ s))]> (col_name_to_id_ s))
    (col_info_ s ++ [mkColumn (Z.of_nat (length (col_info_ s))) name key type (place (kinds s) type)])
    (if key then key_cols_id_ s ++ [Z.of_nat (length (col_info_ s))] else key_cols_id_ s) (nstr (kinds s ++ [type]))
    (fsum (kinds s ++ [type])) (hidden_fixed_ s) (hidden_var_ s) f (idx_col_ s) (all_idx_ s) (idx_name_ s)) = kinds s ++ [type]) as Hk.
  { intros f. unfold kinds. cbn. by rewrite fmap_app. }
  split; [|apply Hk]. split; rewrite ?Hk; cbn [col_info_ col_name_to_id_ key_cols_id_ hidden_var_ hidden_fixed_ frozen_ fixed_part_size_ var_size_cols_].
  - assert (length (kinds s) = length (col_info_ s)) as Hlen by apply length_fmap.
    intros i ci [Hi|[Hge Hi]]%lookup_app_Some.
    + destruct (H1 i ci Hi) as (? & ? & ->). split_and!; [done..|]. rewrite take_app_le; [done|].
      apply lookup_lt_Some in Hi. lia.
    + destruct (i - length (col_info_ s))%nat as [|j] eqn:Hij; cbn in Hi; [|done]. simplify_eq. cbn.
      assert (i = length (col_info_ s)) as -> by lia. split_and!; [done..|]. f_equal.
      rewrite <-Hlen. by rewrite take_app_length.
  - done.
  - done.
  - intros nm id. rewrite lookup_insert_Some. split.
    + intros [[<- <-]|[Hne (i & ci & -> & Hi & Hci)%H4]].
      * exists (length (col_info_ s)), (mkColumn (Z.of_nat (length (col_info_ s))) name key type (place (kinds s) type)). split_and!; [done| |done].
        rewrite lookup_app_r by done. by rewrite Nat.sub_diag.
      * exists i, ci. split_and!; [done| |done]. by apply lookup_app_l_Some.
    + intros (i & ci & -> & [Hi|[Hge Hi]]%lookup_app_Some & Hci).
      * right. split; [|apply H4; eauto]. intros <-. enough (col_name_to_id_ s !! name = Some (Z.of_nat i)) by congruence. apply H4. eauto.
      * left. destruct (i - length (col_info_ s))%nat as [|j] eqn:Hij; cbn in Hi; [|done]. simplify_eq. cbn. split; [done|]. lia.
  - rewrite map_size_insert_None by done. rewrite length_app. cbn. lia.
  - intros k Hk'. rewrite length_app. cbn. destruct key; [|pose proof (H6 k Hk'); lia].
    apply elem_of_app in Hk' as [Hk'| ->%list_elem_of_singleton]; [pose proof (H6 k Hk'); lia|lia].
  - done.
  - intros Hf'. congruence.
Qed.

Lemma do_add_column_ok name type key s :
  schema_ok s → frozen_ s = false →
  do_add_column name type key s = Crash assert_failed ∨
  do_add_column name type key s = Done (s, -1) ∨
  ∃ s', do_add_column name type key s = Done (s', Z.of_nat (length (col_info_ s))) ∧ schema_ok s' ∧
    kinds s' = kinds s ++ [type] ∧ frozen_ s' = false ∧ get_column_id s' name = Z.of_nat (length (col_info_ s)).
Proof.
  intros Hs Hf. unfold do_add_column. destruct (col_name_to_id_ s !! name) as [id|] eqn:Hn; [by right; left|].
  rewrite (so_size s Hs). pose proof (so_var s Hs) as Hv. pose proof (so_fixed s Hs) as Hx.
  destruct (decide (type = UNKNOWN)) as [->|Ht]; [by left|right; right].
  destruct (push_column_ok name type key s Hs Ht Hn Hf) as [Hok Hk].
  set (s' := push_column name type key (place (kinds s) type) (nstr (kinds s ++ [type])) (fsum (kinds s ++ [type])) s) in *.
  exists s'. split; [|split_and!; [done..| |]].
  - rewrite Hv, Hx. subst s'. rewrite fsum_app, nstr_app. unfold place.
    assert (∀ k, nstr [k] = if decide (k = STR) then 1%nat else 0%nat) as Hn1 by (intros k; unfold nstr; cbn; lia).
    assert (∀ k, fsum [k] = fsize k) as Hf1 by (intros k; unfold fsum; cbn; lia). rewrite Hn1, Hf1.
    destruct type; try done; cbn [sizeof fsize decide]; unfold fsize; cbn [sizeof default]; rewrite ?Nat.add_0_r, ?Nat.add_1_r; done.
  - subst s'. unfold push_column. done.
  - subst s'. unfold push_column, get_column_id. cbn. rewrite lookup_insert_eq. cbn. by rewrite (so_size s Hs).
Qed.

(** [add_index] only marks columns as indexed. *)
Lemma set_indexed_same idx l :
  length (foldr set_indexed l idx) = length l ∧
  ∀ i ci, foldr set_indexed l idx !! i = Some ci →
    ∃ ci0, l !! i = Some ci0 ∧ ci_id ci = ci_id ci0 ∧ ci_name ci = ci_name ci0 ∧ ci_type ci = ci_type ci0 ∧ ci_at ci = ci_at ci0.
Proof.
  induction idx as [|c idx [IH1 IH2]]; cbn; [split; [done|]; eauto 10|]. unfold set_indexed at 1 3. split; [by rewrite length_alter|].
  intros i ci. destruct (decide (i = Z.to_nat c)) as [->|Hne].
  - rewrite list_lookup_alter_eq. destruct (foldr _ _ _ !! _) as [ci1|] eqn:H1; [|done]. intros [= <-]. cbn. by apply IH2.
  - rewrite list_lookup_alter_ne by done. apply IH2.
Qed.

Lemma set_indexed_kinds idx l : ci_type <$> foldr set_indexed l idx = ci_type <$> l.
Proof.
  destruct (set_indexed_same idx l) as [Hlen Hl]. apply list_eq. intros i. rewrite !list_lookup_fmap.
  destruct (foldr set_indexed l idx !! i) as [ci|] eqn:Hi.
  - destruct (Hl i ci Hi) as (ci0 & -> & _ & _ & Ht & _). cbn. by rewrite Ht.
  - apply lookup_ge_None in Hi. rewrite Hlen in Hi. apply lookup_ge_None in Hi. by rewrite Hi.
Qed.

Lemma add_index_ok name idx s :
  schema_ok s →
  add_index name idx s = Crash assert_failed ∨ add_index name idx s = Done (s, -1) ∨
  ∃ s', add_index name idx s = Done (s', Z.of_nat (length (all_idx_ s))) ∧ schema_ok s' ∧ kinds s' = kinds s.
Proof.
  intros Hs. unfold add_index.
  assert (index_sanity_check s idx = Done tt ∨ index_sanity_check s idx = Crash assert_failed) as [-> | ->].
  { unfold index_sanity_check. case_bool_decide; cbn [verify mbind result_bind]; [|by right].
    clear. induction idx as [|c l IH]; cbn; [by left|]. case_bool_decide; cbn; [apply IH|by right]. }
  2: by left. cbn [mbind result_bind]. destruct (idx_name_ s !! name); [by right; left|right; right].
  eexists. split; [done|]. destruct (set_indexed_same (reverse idx) (col_info_ s)) as [Hlen Hl].
  pose proof (set_indexed_kinds (reverse idx) (col_info_ s)) as Hk. split; [|exact Hk].
  destruct Hs as [H1 H2 H3 H4 H5 H6 H7 H8]. split; unfold kinds; cbn; rewrite ?Hk, ?Hlen; try done.
  - intros i ci (ci0 & Hi & -> & _ & -> & ->)%Hl. by apply H1.
  - intros nm id. rewrite H4. split; intros (i & ci & -> & Hi & Hci).
    + destruct (lookup_lt_is_Some_2 (foldr set_indexed (col_info_ s) (reverse idx)) i) as [ci' Hi'].
      { rewrite Hlen. by eapply lookup_lt_Some. }
      exists i, ci'. split_and!; [done..|]. destruct (Hl i ci' Hi') as (ci0 & Hi0 & _ & -> & _). congruence.
    + destruct (Hl i ci Hi) as (ci0 & Hi0 & _ & Hnm & _). exists i, ci0. split_and!; [done..|]. congruence.
Qed.

Lemma freeze_ok s :
  schema_ok s →
  freeze s = Crash assert_failed ∨
  ∃ s', freeze s = Done s' ∧ schema_ok s' ∧ frozen_ s' = true ∧ kinds s' = if frozen_ s then kinds s else kinds s ++ [I64].
Proof.
  intros Hs. unfold freeze. destruct (frozen_ s) eqn:Hf; cbn [mbind result_bind].
  - right. eexists. split; [done|]. split; [|done]. destruct Hs as [H1 H2 H3 H4 H5 H6 H7 H8]. rewrite Hf in H7.
    split; cbn; try done. intros _. by apply H8.
  - unfold add_hidden_column. rewrite Hf. cbn [negb verify mbind result_bind].
    destruct (do_add_column_ok index_name I64 false s Hs Hf) as [-> |[-> |(s1 & -> & Hs1 & Hk1 & Hf1 & _)]]; cbn [mbind result_bind]; [by left|by left|right].
    rewrite bool_decide_eq_true_2 by lia. cbn [verify mbind result_bind]. eexists. split; [done|]. split; [|done].
    destruct Hs1 as [H1 H2 H3 H4 H5 H6 [H7 H7'] H8]. rewrite Hf1 in H7'. split; cbn; try done; [by rewrite H7'|].
    intros _. by exists (kinds s).
Qed.

Inductive schema_op := AddColumn (name : list Z) (type : kind) (key : bool) | AddIndex (name : list Z) (idx : list Z) | Freeze.

Definition schema_step (s : Schema) (o : schema_op) : result Schema :=
  match o with
  | AddColumn name type key => '(s, _) ← add_column name type key s; Done s
  | AddIndex name idx => '(s, _) ← add_index name idx s; Done s
  | Freeze => freeze s
  end.

Lemma schema_step_ok s o : schema_ok s → schema_step s o = Crash assert_failed ∨ ∃ s', schema_step s o = Done s' ∧ schema_ok s'.
Proof.
  intros Hs. destruct o as [name type key|name idx|]; cbn.
  - unfold add_column. destruct (frozen_ s) eqn:Hf; cbn [negb andb verify mbind result_bind]; [by left|].
    destruct (so_hidden s Hs) as [Hhv Hhf]. rewrite Hf in Hhf. rewrite !bool_decide_eq_true_2 by done. cbn [andb verify mbind result_bind].
    destruct (do_add_column_ok name type key s Hs Hf) as [-> |[-> |(s1 & -> & Hs1 & _)]]; cbn [mbind result_bind]; eauto.
  - destruct (add_index_ok name idx s Hs) as [-> |[-> |(s1 & -> & Hs1 & _)]]; cbn [mbind result_bind]; eauto.
  - destruct (freeze_ok s Hs) as [-> |(s1 & -> & Hs1 & _)]; eauto.
Qed.

Lemma schema_runs_ok os s : schema_ok s → for_each schema_step os s = Crash assert_failed ∨ ∃ s', for_each schema_step os s = Done s' ∧ schema_ok s'.
Proof.
  revert s. induction os as [|o os IH]; intros s Hs; cbn; [right; eauto|].
  destruct (schema_step_ok s o Hs) as [-> |(s1 & -> & Hs1)]; cbn; [by left|by apply IH].
Qed.

(** ** Tuples and their bytes *)

Definition value_ok (v : Value) : Prop :=
  match v with
  | VUnknown => False
  | VI32 z => - 2 ^ 31 ≤ z < 2 ^ 31
  | VI64 z => - 2 ^ 63 ≤ z < 2 ^ 63
  | VDouble z => 0 ≤ z < 2 ^ 64
  | VStr _ => True
  end.

Definition fixed_bytes (v : Value) : list Z :=
  match v with VI32 z => low_bytes z 4 | VI64 z | VDouble z => low_bytes z 8 | _ => [] end.
Definition str_of (v : Value) : option (list Z) := match v with VStr s => Some s | _ => None end.
Definition strs (vs : list Value) : list (list Z) := omap str_of vs.
Definition value_bytes (v : Value) : list Z := match v with VStr s => s | _ => fixed_bytes v end.

(** The ends of strings kept back to back. *)
Definition stops (l : list (list Z)) : list nat := (λ i, length (mjoin (take (S i) l))) <$> seq 0 (length l).

Definition var_ok (v : strings) (l : list (list Z)) : Prop :=
  match v with DENSE_ part idx => part = mjoin l ∧ idx = stops l | SPARSE_ vars => vars = l end.

Record row_rep (r : Row) (vs : list Value) : Prop := {
  rr_schema : schema_ok (schema_ r);
  rr_kinds : get_kind <$> vs = kinds (schema_ r);
  rr_values : Forall value_ok vs;
  rr_fixed : fixed_part_ r = vs ≫= fixed_bytes;
  rr_var : var_ok (var_part_ r) (strs vs);
}.

Lemma fixed_bytes_length v : length (fixed_bytes v) = fsize (get_kind v).
Proof. by destruct v; cbn; rewrite ?length_low_bytes. Qed.

Lemma fixed_length vs : length (vs ≫= fixed_bytes) = fsum (get_kind <$> vs).
Proof. induction vs as [|v vs IH]; cbn; [done|]. by rewrite length_app, fixed_bytes_length, IH. Qed.

Lemma strs_length vs : length (strs vs) = nstr (get_kind <$> vs).
Proof. unfold strs. induction vs as [|v vs IH]; cbn; [done|]. destruct v; cbn; rewrite ?IH; done. Qed.

Lemma strs_app k l : strs (k ++ l) = strs k ++ strs l.
Proof. apply omap_app. Qed.

Lemma strs_middle l1 s l2 : strs (l1 ++ VStr s :: l2) = strs l1 ++ s :: strs l2.
Proof. by rewrite strs_app. Qed.

Lemma insert_middle {A} (l1 : list A) x y l2 : <[length l1 := y]> (l1 ++ x :: l2) = l1 ++ y :: l2.
Proof. rewrite insert_app_r_alt by done. by rewrite Nat.sub_diag. Qed.

Lemma load_middle a b c : load (a ++ b ++ c) (length a) (length b) = Done b.
Proof.
  unfold load. rewrite decide_True by (rewrite !length_app; lia). by rewrite drop_app_length, take_app_length.
Qed.

Lemma store_middle a b c p : length p = length b → store (a ++ b ++ c) (length a) p = Done (a ++ p ++ c).
Proof.
  intros Hp. unfold store. rewrite decide_True by (rewrite !length_app; lia). rewrite take_app_length. do 3 f_equal.
  rewrite Hp, <-drop_drop, drop_app_length. by rewrite drop_app_length.
Qed.

Lemma read_value_bytes v : value_ok v → read_value (get_kind v) (value_bytes v) = Done v.
Proof.
  destruct v; cbn -[low_bytes]; [done| | | |done]; intros Hv; rewrite from_low_bytes.
  - change (2 ^ (8 * Z.of_nat 4)) with (2 ^ 32). by rewrite (swrap_mod 32).
  - change (2 ^ (8 * Z.of_nat 8)) with (2 ^ 64). by rewrite (swrap_mod 64).
  - change (2 ^ (8 * Z.of_nat 8)) with (2 ^ 64). by rewrite Z.mod_small.
Qed.

Lemma stops_lookup l i : (i < length l)%nat → entry (stops l) i = Done (length (mjoin (take (S i) l))).
Proof.
  intros Hi. unfold entry, stops. rewrite list_lookup_fmap, lookup_seq_lt by done. done.
Qed.

(** The string with [l1] before it. *)
Lemma var_range_middle l1 s l2 : var_range (stops (l1 ++ s :: l2)) (length l1) = Done (length (mjoin l1), length s).
Proof.
  assert (length l1 < length (l1 ++ s :: l2))%nat as Hlt by (rewrite length_app; cbn; lia).
  assert (length (mjoin (take (S (length l1)) (l1 ++ s :: l2))) = (length (mjoin l1) + length s)%nat) as Hstop.
  { change (l1 ++ s :: l2) with (l1 ++ [s] ++ l2). rewrite app_assoc.
    replace (S (length l1)) with (length (l1 ++ [s])) by (rewrite length_app; cbn; lia).
    rewrite take_app_length. rewrite join_app, length_app. cbn. by rewrite app_nil_r. }
  unfold var_range. destruct (length l1) as [|j] eqn:Hj.
  - rewrite stops_lookup by done. cbn [mbind result_bind]. rewrite Hstop. destruct l1; [|done]. done.
  - rewrite !stops_lookup by lia. cbn [mbind result_bind]. rewrite Hstop. rewrite <-Hj.
    rewrite take_app_length. do 2 f_equal. lia.
Qed.

(** ** One column *)

Section column.
Context (r : Row) (l1 : list Value) (v : Value) (l2 : list Value) (Hr : row_rep r (l1 ++ v :: l2)).
Abbreviation c := (Z.of_nat (length l1)).

Lemma column_at :
  ∃ ci, get_column_info (schema_ r) c = Done ci ∧ ci_id ci = c ∧ ci_type ci = get_kind v ∧
    ci_at ci = if decide (get_kind v = STR) then length (strs l1) else length (l1 ≫= fixed_bytes).
Proof using Hr.
  destruct Hr as [Hs Hk _ _ _].
  assert (kinds (schema_ r) !! length l1 = Some (get_kind v)) as Hkv.
  { rewrite <-Hk, list_lookup_fmap, list_lookup_middle by done. done. }
  unfold kinds in Hkv. rewrite list_lookup_fmap in Hkv. destruct (col_info_ (schema_ r) !! length l1) as [ci|] eqn:Hci; [|done].
  cbn in Hkv. simplify_eq. destruct (so_column _ Hs (length l1) ci Hci) as (Hid & _ & Hat).
  exists ci. unfold get_column_info. rewrite decide_True by lia. rewrite Nat2Z.id, Hci. split_and!; [done..|].
  rewrite Hat, Hkv. unfold place. rewrite <-Hk, fmap_app.
  replace (take (length l1) ((get_kind <$> l1) ++ (get_kind <$> v :: l2))) with (get_kind <$> l1)
    by (rewrite <-(length_fmap get_kind l1); by rewrite take_app_length).
  rewrite fixed_length, strs_length. done.
Qed.

Lemma fixed_split : fixed_part_ r = (l1 ≫= fixed_bytes) ++ fixed_bytes v ++ (l2 ≫= fixed_bytes).
Proof using Hr. rewrite (rr_fixed _ _ Hr), bind_app. done. Qed.

Lemma value_good : value_ok v.
Proof using Hr. pose proof (rr_values _ _ Hr) as H. apply Forall_app in H as [_ H]. by apply Forall_cons in H as [H _]. Qed.

Lemma get_blob_rep : get_blob r c = Done (value_bytes v).
Proof using Hr.
  destruct column_at as (ci & Hci & _ & Ht & Hat). unfold get_blob. rewrite Hci. cbn [mbind result_bind]. rewrite Ht, Hat.
  pose proof value_good as Hv. pose proof fixed_split as Hf. pose proof (rr_var _ _ Hr) as Hvar.
  assert (∀ n, length (fixed_bytes v) = n → load (fixed_part_ r) (length (l1 ≫= fixed_bytes)) n = Done (fixed_bytes v)) as Hload
    by (intros n <-; rewrite Hf; apply load_middle).
  clear Hat Ht Hf. revert Hv Hvar Hload. generalize v as u. clear Hr v. intros v Hv Hvar Hload.
  destruct v as [|z|z|z|s]; [done|..]; cbn [get_kind sizeof value_bytes].
  1-3: rewrite decide_False by done; apply Hload, length_low_bytes.
  rewrite decide_True by done. rewrite strs_middle in Hvar.
  destruct (var_part_ r) as [part idx|vars]; cbn in Hvar.
  - destruct Hvar as [-> ->]. rewrite var_range_middle. cbn [mbind result_bind]. rewrite join_app. cbn. apply load_middle.
  - subst vars. unfold entry. by rewrite list_lookup_middle.
Qed.

Lemma get_column_rep : get_column r c = Done v.
Proof using Hr.
  destruct column_at as (ci & Hci & _ & Ht & _). unfold get_column. rewrite Hci. cbn [mbind result_bind]. rewrite get_blob_rep.
  cbn [mbind result_bind]. rewrite Ht. apply read_value_bytes, value_good.
Qed.

(** Replacing the value. *)
Lemma row_rep_set r' w :
  schema_ r' = schema_ r → get_kind w = get_kind v → value_ok w →
  fixed_part_ r' = (l1 ≫= fixed_bytes) ++ fixed_bytes w ++ (l2 ≫= fixed_bytes) →
  var_ok (var_part_ r') (strs (l1 ++ w :: l2)) → row_rep r' (l1 ++ w :: l2).
Proof using Hr.
  intros Hs Hk Hw Hf Hv. destruct Hr as [R1 R2 R3 R4 R5]. split; [by rewrite Hs| | | |done].
  - rewrite Hs, <-R2, !fmap_app. cbn. by rewrite Hk.
  - apply Forall_app in R3 as [? [_ ?]%Forall_cons]. apply Forall_app. split; [done|by apply Forall_cons].
  - by rewrite Hf, bind_app.
Qed.
End column.

(** The columns of a row, in order. *)
Lemma rows_by_column r vs c v : row_rep r vs → vs !! c = Some v → get_column r (Z.of_nat c) = Done v.
Proof.
  intros Hr Hc. pose proof (take_drop_middle vs c v Hc) as Heq. rewrite <-Heq in Hr.
  assert (length (take c vs) = c) as Hl by (apply length_take_le; apply lookup_lt_Some in Hc; lia).
  rewrite <-Hl. by eapply get_column_rep.
Qed.

(** ** Operations *)

Lemma make_sparse_rep r vs : row_rep r vs → ∃ r', make_sparse r = Done r' ∧ row_rep r' vs ∧ schema_ r' = schema_ r ∧
  rdonly_ r' = rdonly_ r ∧ tbl_ r' = tbl_ r ∧ fixed_part_ r' = fixed_part_ r ∧ var_part_ r' = SPARSE_ (strs vs).
Proof.
  intros Hr. pose proof Hr as [R1 R2 R3 R4 R5]. unfold make_sparse. destruct (var_part_ r) as [part idx|vars] eqn:Hv.
  - destruct R5 as [-> ->].
    assert (var_size_cols_ (schema_ r) = length (strs vs)) as Hn by (by rewrite (so_var _ R1), strs_length, R2).
    rewrite Hn.
    assert (∀ k, (k ≤ length (strs vs))%nat →
      for_each (λ vars i, '(start, len) ← var_range (stops (strs vs)) i; b ← load (mjoin (strs vs)) start len; Done (vars ++ [b]))
        (seq 0 k) [] = Done (take k (strs vs))) as Hloop.
    { induction k as [|k IH]; intros Hk; [done|]. rewrite seq_S, for_each_app, IH by lia. cbn [mbind result_bind for_each plus].
      destruct (lookup_lt_is_Some_2 (strs vs) k) as [s Hs]; [lia|]. pose proof (take_drop_middle _ _ _ Hs) as Heq.
      assert (length (take k (strs vs)) = k) as Hl by (apply length_take_le; lia).
      assert (var_range (stops (strs vs)) k = Done (length (mjoin (take k (strs vs))), length s)) as ->.
      { pose proof (var_range_middle (take k (strs vs)) s (drop (S k) (strs vs))) as Hvr. by rewrite Heq, Hl in Hvr. }
      cbn [mbind result_bind].
      assert (load (mjoin (strs vs)) (length (mjoin (take k (strs vs)))) (length s) = Done s) as ->.
      { pose proof (load_middle (mjoin (take k (strs vs))) s (mjoin (drop (S k) (strs vs)))) as Hlm.
        rewrite <-Heq at 1. by rewrite join_app. }
      cbn. f_equal. by rewrite (take_S_r _ _ _ Hs). }
    rewrite Hloop by done. rewrite take_ge by done. cbn [mbind result_bind]. eexists. split; [done|].
    split_and!; by try split.
  - cbn in R5. subst vars. exists r. split_and!; try done.
Qed.

(** What an update does: the value changes, and the table is told if it has to be. *)
Definition spec_events (r : Row) (c : Z) (old new : Value) : list table_event :=
  if decide (old = new) then []
  else match get_column_info (schema_ r) c with Done ci => table_events r (ci_indexed ci) c | _ => [] end.

Lemma value_bytes_inj v w : value_ok v → value_ok w → get_kind v = get_kind w → value_bytes v = value_bytes w → v = w.
Proof.
  intros Hv Hw Hk Hb. pose proof (read_value_bytes v Hv) as H1. pose proof (read_value_bytes w Hw) as H2.
  rewrite Hk, Hb, H2 in H1. by simplify_eq.
Qed.

(** The result of an update of the column after [l1]. *)
Definition updated (r : Row) (l1 l2 : list Value) (v w : Value) (res : result (Row * list table_event)) : Prop :=
  ∃ r', res = Done (r', spec_events r (Z.of_nat (length l1)) v w) ∧ row_rep r' (l1 ++ w :: l2) ∧
    rdonly_ r' = false ∧ tbl_ r' = tbl_ r ∧ schema_ r' = schema_ r.

Lemma update_num_rep r l1 v l2 w :
  row_rep r (l1 ++ v :: l2) → rdonly_ r = false → value_ok w → get_kind w = get_kind v → get_kind w ≠ STR →
  updated r l1 l2 v w (update_num r (Z.of_nat (length l1)) (get_kind w) (fixed_bytes w)).
Proof.
  intros Hr Hro Hw Hk Hns. destruct (column_at r l1 v l2 Hr) as (ci & Hci & Hid & Ht & Hat). pose proof (value_good r l1 v l2 Hr) as Hv.
  unfold updated, spec_events. rewrite Hci.
  assert (length (fixed_bytes w) = length (fixed_bytes v)) as Hlen by (rewrite !fixed_bytes_length; by rewrite Hk).
  unfold update_num. rewrite Hci. cbn [mbind result_bind]. rewrite Ht, Hk, bool_decide_eq_true_2 by done. cbn [verify mbind result_bind].
  unfold update_fixed. rewrite Hro. cbn [negb verify mbind result_bind]. rewrite Hat, decide_False by congruence.
  rewrite (fixed_split _ _ _ _ Hr), Hlen, load_middle. cbn [mbind result_bind].
  assert (fixed_bytes v = fixed_bytes w ↔ v = w) as Hvw.
  { split; [|by intros ->]. intros Hb. apply value_bytes_inj; [done..|]. destruct v, w; cbn in *; congruence. }
  destruct (decide (fixed_bytes v = fixed_bytes w)) as [Hb|Hb]; destruct (decide (v = w)) as [Hvw'|Hvw']; try (exfalso; tauto).
  - subst w. eauto 10.
  - rewrite (store_middle _ _ _ _ Hlen). cbn [mbind result_bind]. rewrite Hid. eexists. split; [done|].
    split; [|done]. eapply row_rep_set; [done|done|by rewrite Hk|done|done|].
    pose proof (rr_var _ _ Hr) as Hvar. cbn. rewrite strs_app in *. by destruct v, w.
Qed.

Lemma update_str_rep r l1 s0 l2 s :
  row_rep r (l1 ++ VStr s0 :: l2) → rdonly_ r = false →
  updated r l1 l2 (VStr s0) (VStr s) (update_str r (Z.of_nat (length l1)) s).
Proof.
  intros Hr Hro. destruct (column_at r l1 _ l2 Hr) as (ci & Hci & Hid & Ht & Hat). rewrite decide_True in Hat by done.
  unfold updated, spec_events. rewrite Hci. unfold update_str. rewrite Hro. cbn [negb verify mbind result_bind]. rewrite Hci.
  cbn [mbind result_bind]. rewrite Ht. rewrite bool_decide_eq_true_2 by done. cbn [verify mbind result_bind]. rewrite Hat.
  assert (∀ e, (if decide (VStr s0 = VStr s) then @nil table_event else e) =
    (if decide (s0 = s) then [] else e)) as Hdec by (intros; repeat case_decide; congruence).
  rewrite Hdec. pose proof (rr_var _ _ Hr) as Hvar. rewrite strs_middle in Hvar.
  assert (∀ r', schema_ r' = schema_ r → fixed_part_ r' = fixed_part_ r → var_ok (var_part_ r') (strs l1 ++ s :: strs l2) →
    row_rep r' (l1 ++ VStr s :: l2)) as Hset.
  { intros r' Hs Hf Hv. eapply row_rep_set; [done|done|done|done|by rewrite Hf, (fixed_split _ _ _ _ Hr)|].
    by rewrite strs_middle. }
  destruct (var_part_ r) as [part idx|vars] eqn:Hvp; cbn in Hvar.
  - destruct Hvar as [-> ->]. rewrite var_range_middle. cbn [mbind result_bind]. rewrite join_app. cbn [mjoin list_join foldr].
    fold (mjoin (M:=list) (A:=Z)). rewrite load_middle. cbn [mbind result_bind].
    destruct (decide (s0 = s)) as [->|Hne]; [eauto 10|]. destruct (decide (length s0 = length s)) as [Hl|Hl].
    + rewrite store_middle by done. cbn [mbind result_bind]. eexists. split; [done|]. split; [|done].
      apply Hset; [done..|]. cbn. rewrite join_app. split; [done|]. unfold stops. rewrite !length_app. cbn [length].
      apply list_fmap_ext. intros i x _. rewrite !length_join, !fmap_take, !fmap_app. cbn. by rewrite Hl.
    + destruct (make_sparse_rep r _ Hr) as (r1 & -> & Hr1 & Hs1 & Hro1 & Htb1 & Hf1 & Hvp1). cbn [mbind result_bind]. rewrite Hvp1.
      rewrite strs_middle. unfold entry. rewrite list_lookup_middle by done. cbn [mbind result_bind].
      eexists. split; [done|]. split; [|cbn; split_and!; congruence]. apply Hset; [done..|]. cbn.
      by rewrite insert_middle.
  - subst vars. unfold entry. rewrite list_lookup_middle by done. cbn [mbind result_bind].
    destruct (decide (s0 = s)) as [->|Hne]; [eauto 10|]. eexists. split; [done|]. split; [|done]. apply Hset; [done..|]. cbn.
    by rewrite insert_middle.
Qed.

Lemma update_rep r l1 v l2 w :
  row_rep r (l1 ++ v :: l2) → rdonly_ r = false → value_ok w → get_kind w = get_kind v →
  updated r l1 l2 v w (update r (Z.of_nat (length l1)) w).
Proof.
  intros Hr Hro Hw Hk. pose proof (update_num_rep r l1 v l2 w Hr Hro Hw Hk) as Hnum.
  destruct w as [|z|z|z|s]; [done|by apply Hnum..|]. destruct v as [|z|z|z|s0]; try done. by apply update_str_rep.
Qed.

(** ** New rows and copies *)

Definition hidden_values (s : Schema) : list Value := if frozen_ s then [VI64 0] else [].

(** The visible columns, and the hidden one. *)
Lemma visible_split s :
  schema_ok s → ∃ cs hs, col_info_ s = cs ++ hs ∧ length cs = columns_count s ∧ ci_type <$> hs = get_kind <$> hidden_values s.
Proof.
  intros Hs. unfold hidden_values, columns_count. destruct (so_hidden s Hs) as [-> ->]. destruct (frozen_ s) eqn:Hf.
  - destruct (so_frozen s Hs Hf) as [ks Hks]. unfold kinds in Hks. apply fmap_app_inv in Hks as (cs & hs & H1 & H2 & Heq).
    exists cs, hs. split_and!; [done| |done]. rewrite Heq. apply (f_equal length) in H2. rewrite length_fmap in H2. rewrite length_app. cbn in *. lia.
  - exists (col_info_ s), []. rewrite app_nil_r. split_and!; [done|lia|done].
Qed.

Lemma store_zeros a b n : (length b ≤ n)%nat → store (a ++ replicate n 0) (length a) b = Done (a ++ b ++ replicate (n - length b) 0).
Proof.
  intros Hn. replace n with (length b + (n - length b))%nat at 1 by lia. rewrite replicate_add. apply store_middle. by rewrite length_replicate.
Qed.

Lemma create_fixed_ok s values :
  Forall value_ok values → (length (values ≫= fixed_bytes) ≤ fixed_part_size_ s)%nat →
  create_fixed s values = Done ((values ≫= fixed_bytes) ++ replicate (fixed_part_size_ s - length (values ≫= fixed_bytes)) 0,
    length (values ≫= fixed_bytes), length (mjoin (strs values))).
Proof.
  intros Hv Hn. rewrite Forall_forall in Hv. unfold create_fixed.
  destruct (for_each_inv (λ '(part, fixed_pos, var_part_size) it,
    match it with
    | VStr str => Done (part, fixed_pos, (var_part_size + length str)%nat)
    | _ => b ← write_binary it; part ← store part fixed_pos b; Done (part, (fixed_pos + length b)%nat, var_part_size)
    end) (λ l x, x = ((l ≫= fixed_bytes) ++ replicate (fixed_part_size_ s - length (l ≫= fixed_bytes)) 0,
      length (l ≫= fixed_bytes), length (mjoin (strs l)))) values (replicate (fixed_part_size_ s) 0, 0%nat, 0%nat)) as (x & Hx & ->);
    [cbn; by rewrite Nat.sub_0_r| |exact Hx].
  intros l1 v l2 st Heq ->. assert (value_ok v) as Hok by (apply Hv; rewrite Heq; set_solver).
  rewrite strs_app, join_app, bind_app, !length_app.
  assert (length (l1 ≫= fixed_bytes) + length (fixed_bytes v) ≤ fixed_part_size_ s)%nat as Hle.
  { rewrite Heq, bind_app, !length_app in Hn. cbn in Hn. rewrite length_app in Hn. lia. }
  destruct (decide (get_kind v = STR)) as [Hk|Hk].
  - destruct v; try done. eexists. split; [done|]. cbn. rewrite !app_nil_r, Nat.add_0_r. done.
  - assert (write_binary v = Done (fixed_bytes v)) as Hw by (by destruct v). assert (strs [v] = []) as Hst by (by destruct v).
    eexists. split.
    + assert (∀ (x y : result (list Z * nat * nat)), (match v with VStr _ => x | _ => y end) = y) as Hm by (by destruct v).
      transitivity (b ← write_binary v; part ← store ((l1 ≫= fixed_bytes) ++ replicate (fixed_part_size_ s - length (l1 ≫= fixed_bytes)) 0) (length (l1 ≫= fixed_bytes)) b;
        Done (part, (length (l1 ≫= fixed_bytes) + length b)%nat, length (mjoin (strs l1)))); [by destruct v|].
      rewrite Hw. cbn [mbind result_bind]. rewrite store_zeros by lia. done.
    + rewrite Hst. cbn [mbind list_bind mjoin list_join foldr length]. rewrite !app_nil_r, Nat.add_0_r, <-!app_assoc, Nat.sub_add_distr. done.
Qed.

Lemma stops_snoc l x : stops (l ++ [x]) = stops l ++ [length (mjoin (l ++ [x]))].
Proof.
  unfold stops. rewrite length_app. cbn [length]. rewrite Nat.add_1_r, seq_S, fmap_app. cbn [fmap list_fmap plus]. f_equal.
  - apply list_fmap_ext. intros i y Hi. apply lookup_seq in Hi as [-> Hi]. cbn. do 2 f_equal. rewrite take_app_le by lia. done.
  - do 3 f_equal. apply take_ge. rewrite length_app. cbn. lia.
Qed.

Lemma create_var_ok s values :
  (length (strs values) ≤ var_size_cols_ s)%nat → create_var s values = Done (mjoin (strs values), stops (strs values)).
Proof.
  intros Hn. unfold create_var.
  destruct (for_each_inv (λ '(part, idx) it,
    match it with
    | VStr str => idx ← push_stop s idx (length (part ++ str)); Done (part ++ str, idx)
    | _ => Done (part, idx)
    end) (λ l x, x = (mjoin (strs l), stops (strs l))) values ([], [])) as (x & Hx & ->); [done| |exact Hx].
  intros l1 v l2 st Heq ->. rewrite strs_app. destruct (decide (get_kind v = STR)) as [Hk|Hk].
  - destruct v; try done. unfold push_stop. rewrite decide_True.
    2: { unfold stops. rewrite length_fmap, length_seq. rewrite Heq, strs_app, length_app in Hn. cbn in Hn. lia. }
    eexists. split; [done|]. cbn. rewrite stops_snoc, join_app. cbn. by rewrite app_nil_r.
  - assert (strs [v] = []) as -> by (by destruct v). rewrite app_nil_r. eexists. split; [by destruct v|done].
Qed.

Lemma create_rep s values :
  schema_ok s → Forall value_ok values → get_kind <$> values = take (columns_count s) (kinds s) →
  ∃ r, create s values = Done r ∧ row_rep r (values ++ hidden_values s) ∧ rdonly_ r = false ∧ tbl_ r = false ∧ schema_ r = s.
Proof.
  intros Hs Hv Hk. destruct (visible_split s Hs) as (cs & hs & Hcs & Hlen & Hhs).
  assert (kinds s = (get_kind <$> values) ++ (get_kind <$> hidden_values s)) as Hks.
  { rewrite <-Hhs, Hk. unfold kinds. rewrite Hcs, fmap_app, <-Hlen, <-(length_fmap ci_type cs), take_app_length. done. }
  assert (length values = columns_count s) as Hlv.
  { rewrite <-Hlen, <-(length_fmap get_kind values), Hk, <-Hlen. unfold kinds. rewrite Hcs, fmap_app, length_take, length_app, length_fmap. lia. }
  assert (drop (length values) (col_info_ s) = hs) as Hdrop by (rewrite Hlv, <-Hlen, Hcs; by rewrite drop_app_length).
  pose proof (so_fixed s Hs) as Hfx. pose proof (so_var s Hs) as Hvr. rewrite Hks, fsum_app, <-fixed_length in Hfx. rewrite Hks, nstr_app, <-strs_length in Hvr.
  assert (hs = [] ∧ hidden_values s = [] ∨ ∃ h, hs = [h] ∧ ci_type h = I64 ∧ hidden_values s = [VI64 0]) as Hh.
  { unfold hidden_values in *. destruct (frozen_ s).
    - right. destruct hs as [|h [|]]; try done. cbn in Hhs. simplify_eq. eauto.
    - left. by destruct hs. }
  unfold create. rewrite bool_decide_eq_true_2 by done. cbn [verify mbind result_bind]. rewrite create_fixed_ok by (done || lia).
  cbn [mbind result_bind]. unfold create_hidden. rewrite Hdrop.
  assert (for_each (λ pos ci, match ci_type ci with STR => Done pos | k => match sizeof k with Some sz => Done (pos + sz)%nat | None => Crash assert_failed end end)
    hs (length (values ≫= fixed_bytes)) = Done (fixed_part_size_ s)) as ->.
  { rewrite Hfx. destruct Hh as [[-> ->]|(h & -> & Ht & ->)]; cbn; [by rewrite Nat.add_0_r|]. by rewrite Ht. }
  cbn [mbind result_bind]. rewrite bool_decide_eq_true_2 by done. cbn [verify mbind result_bind].
  assert (strs (values ++ hidden_values s) = strs values ∧ Forall value_ok (values ++ hidden_values s) ∧
    (values ≫= fixed_bytes) ++ replicate (fixed_part_size_ s - length (values ≫= fixed_bytes)) 0 = (values ++ hidden_values s) ≫= fixed_bytes)
    as (Hst & Hvo & Hfp).
  { rewrite strs_app, bind_app, Hfx. split; [|split]; [| |].
    - destruct Hh as [[_ ->]|(h & _ & _ & ->)]; cbn; by rewrite app_nil_r.
    - apply Forall_app. split; [done|]. destruct Hh as [[_ ->]|(h & _ & _ & ->)]; [constructor|]. by apply Forall_singleton.
    - f_equal. rewrite Nat.add_comm, Nat.add_sub. by destruct Hh as [[_ ->]|(h & _ & _ & ->)]. }
  assert (nstr (get_kind <$> hidden_values s) = 0%nat) as Hns by (by destruct Hh as [[_ ->]|(h & _ & _ & ->)]).
  destruct (decide (0 < var_size_cols_ s)%nat) as [Hpos|Hpos].
  - rewrite create_var_ok by lia. cbn [mbind result_bind]. rewrite bool_decide_eq_true_2 by done. cbn [verify mbind result_bind].
    unfold create_var_hidden. rewrite Hdrop.
    assert (for_each (λ idx ci, match ci_type ci with STR => stop ← entry idx (length idx - 1); push_stop s idx stop | _ => Done idx end)
      hs (stops (strs values)) = Done (stops (strs values))) as ->.
    { destruct Hh as [[-> _]|(h & -> & Ht & _)]; cbn; [done|]. by rewrite Ht. }
    cbn [mbind result_bind].
    rewrite bool_decide_eq_true_2 by (unfold stops; rewrite length_fmap, length_seq; lia). cbn [verify mbind result_bind].
    eexists. split; [done|]. split; [|done]. split; cbn; [done|by rewrite fmap_app, Hks|done|done|by rewrite Hst].
  - eexists. split; [done|]. split; [|done]. split; cbn; [done|by rewrite fmap_app, Hks|done|done|].
    assert (strs values = []) as Hnil by (apply nil_length_inv; lia). by rewrite Hst, Hnil.
Qed.

Lemma copy_rep r vs :
  row_rep r vs → ∃ r', copy_into r = Done r' ∧ row_rep r' vs ∧ rdonly_ r' = false ∧ tbl_ r' = false ∧ schema_ r' = schema_ r.
Proof.
  intros Hr. pose proof Hr as [R1 R2 R3 R4 R5]. destruct (visible_split _ R1) as (cs & hs & Hcs & Hlen & Hhs).
  assert (length vs = length (cs ++ hs)) as Hlv by (by rewrite <-(length_fmap get_kind vs), R2; unfold kinds; rewrite length_fmap, Hcs).
  unfold copy_into. cbn zeta.
  replace (take (columns_count (schema_ r)) (col_info_ (schema_ r))) with cs by (rewrite Hcs, <-Hlen; by rewrite take_app_length).
  destruct (for_each_inv (λ '(part, idx) it, match ci_type it with STR => b ← get_blob r (ci_id it); Done (part ++ b, idx ++ [length (part ++ b)]) | _ => Done (part, idx) end)
    (λ l x, x = (mjoin (strs (take (length l) vs)), stops (strs (take (length l) vs)))) cs ([], [])) as (x & -> & ->); [done| |].
  - intros l1 ci l2 st Heq ->. assert (col_info_ (schema_ r) !! length l1 = Some ci) as Hci.
    { rewrite Hcs, Heq, <-app_assoc. by apply list_lookup_middle. }
    destruct (so_column _ R1 (length l1) ci Hci) as (Hid & _ & _).
    destruct (lookup_lt_is_Some_2 vs (length l1)) as [v Hv]; [rewrite Hlv, Heq, !length_app; cbn; lia|].
    assert (get_kind v = ci_type ci) as Hkv.
    { assert (kinds (schema_ r) !! length l1 = Some (ci_type ci)) as Hk by (unfold kinds; by rewrite list_lookup_fmap, Hci).
      rewrite <-R2, list_lookup_fmap, Hv in Hk. by simplify_option_eq. }
    rewrite length_app. cbn [length]. rewrite Nat.add_1_r, (take_S_r _ _ _ Hv), strs_app.
    destruct (decide (ci_type ci = STR)) as [Ht|Ht].
    + rewrite Ht. rewrite Ht in Hkv. destruct v as [| | | |s]; try done. rewrite Hid.
      assert (length (take (length l1) vs) = length l1) as Hl by (apply length_take_le; apply lookup_lt_Some in Hv; lia).
      assert (get_blob r (Z.of_nat (length l1)) = Done s) as ->.
      { rewrite <-Hl. eapply (get_blob_rep r _ (VStr s) (drop (S (length l1)) vs)). by rewrite (take_drop_middle _ _ _ Hv). }
      cbn [mbind result_bind]. eexists. split; [done|]. cbn. rewrite stops_snoc, join_app. cbn. by rewrite app_nil_r.
    + assert (strs [v] = []) as -> by (destruct v; cbn in *; congruence || done). rewrite app_nil_r. eexists. split; [|done].
      destruct (ci_type ci); done.
  - cbn [mbind result_bind]. eexists. split; [done|]. split; [|done]. split; cbn; [done..|].
    assert (strs vs = strs (take (length cs) vs)) as ->; [|done].
    rewrite <-(take_drop (length cs) vs) at 1. rewrite strs_app.
    assert (length (strs (drop (length cs) vs)) = 0%nat) as Hz; [|apply nil_length_inv in Hz; by rewrite Hz, app_nil_r].
    rewrite strs_length, fmap_drop, R2. unfold kinds. rewrite Hcs, fmap_app, <-(length_fmap ci_type cs), drop_app_length, Hhs.
    unfold hidden_values. by destruct (frozen_ (schema_ r)).
Qed.

(** ** A row behaves like a tuple *)

Inductive row_op := Get (c : Z) | Update (c : Z) (v : Value) | Sparse | Readonly | Copy | Link (t : bool).

(** What an operation shows: a value read, or what the table is told. *)
Inductive shown := Got (v : Value) | Told (es : list table_event).

Definition row_step (r : Row) (o : row_op) : result (Row * shown) :=
  match o with
  | Get c => v ← get_column r c; Done (r, Got v)
  | Update c v => '(r, es) ← update r c v; Done (r, Told es)
  | Sparse => r ← make_sparse r; Done (r, Told [])
  | Readonly => Done (make_readonly r, Told [])
  | Copy => r ← copy_into r; Done (r, Told [])
  | Link t => r ← set_table t r; Done (r, Told [])
  end.

(** The specification: a tuple, whether it may be changed, whether it is in a table. *)
Record tuple := mkTuple { t_values : list Value; t_readonly : bool; t_linked : bool }.

Definition column_lookup (t : tuple) (c : Z) : option Value := if decide (0 ≤ c) then t_values t !! Z.to_nat c else None.

Definition tuple_events (s : Schema) (t : tuple) (c : Z) (old new : Value) : list table_event :=
  if decide (old = new) then []
  else if default false (ci_indexed <$> col_info_ s !! Z.to_nat c) && t_linked t then [NotifyBefore c; Remove; Insert; NotifyAfter c] else [].

Definition tuple_step (s : Schema) (t : tuple) (o : row_op) : result (tuple * shown) :=
  match o with
  | Get c => match column_lookup t c with Some v => Done (t, Got v) | None => Crash invalid_access end
  | Update c v =>
      match column_lookup t c with
      | None => if decide (get_kind v = STR) then if t_readonly t then Crash assert_failed else Crash invalid_access
                else if decide (v = VUnknown) then Crash assert_failed else Crash invalid_access
      | Some old =>
          if decide (get_kind v = get_kind old) then
            if t_readonly t then Crash assert_failed
            else Done (mkTuple (<[Z.to_nat c := v]> (t_values t)) false (t_linked t), Told (tuple_events s t c old v))
          else Crash assert_failed
      end
  | Sparse => Done (t, Told [])
  | Readonly => Done (mkTuple (t_values t) true (t_linked t), Told [])
  | Copy => Done (mkTuple (t_values t) false false, Told [])
  | Link l => if l && t_linked t then Crash assert_failed else Done (mkTuple (t_values t) (t_readonly t) l, Told [])
  end.

Fixpoint row_run (r : Row) (os : list row_op) : result (list shown) :=
  match os with [] => Done [] | o :: os => '(r, x) ← row_step r o; xs ← row_run r os; Done (x :: xs) end.
Fixpoint tuple_run (s : Schema) (t : tuple) (os : list row_op) : result (list shown) :=
  match os with [] => Done [] | o :: os => '(t, x) ← tuple_step s t o; xs ← tuple_run s t os; Done (x :: xs) end.

Definition op_ok (o : row_op) : Prop := match o with Update _ v => v = VUnknown ∨ value_ok v | _ => True end.

Definition refines (r : Row) (t : tuple) : Prop :=
  row_rep r (t_values t) ∧ rdonly_ r = t_readonly t ∧ tbl_ r = t_linked t.

Lemma no_column r vs c : row_rep r vs → (if decide (0 ≤ c) then vs !! Z.to_nat c else None) = None → get_column_info (schema_ r) c = Crash invalid_access.
Proof.
  intros Hr. unfold get_column_info. destruct (decide (0 ≤ c)); [|done]. intros Hn.
  assert (col_info_ (schema_ r) !! Z.to_nat c = None) as ->; [|done]. apply lookup_ge_None in Hn. apply lookup_ge_None.
  rewrite <-(length_fmap ci_type). fold (kinds (schema_ r)). rewrite <-(rr_kinds _ _ Hr), length_fmap. done.
Qed.

Lemma row_step_refines r t o :
  refines r t → op_ok o →
  match tuple_step (schema_ r) t o with
  | Done (t', x) => ∃ r', row_step r o = Done (r', x) ∧ refines r' t' ∧ schema_ r' = schema_ r
  | Spin => False
  | Crash e => row_step r o = Crash e
  end.
Proof.
  intros (Hr & Hro & Htb) Hok. destruct o as [c|c w| | | |l]; cbn [row_step tuple_step].
  - unfold column_lookup. destruct (if decide (0 ≤ c) then _ else _) as [v|] eqn:Hc.
    + destruct (decide (0 ≤ c)); [|done]. pose proof (rows_by_column r _ _ _ Hr Hc) as Hg. rewrite Z2Nat.id in Hg by done.
      rewrite Hg. cbn. by exists r.
    + unfold get_column. by rewrite (no_column r _ c Hr Hc).
  - unfold column_lookup. destruct (if decide (0 ≤ c) then _ else _) as [v|] eqn:Hc.
    + destruct (decide (0 ≤ c)) as [Hc0|]; [|done]. pose proof (take_drop_middle _ _ _ Hc) as Heq.
      assert (length (take (Z.to_nat c) (t_values t)) = Z.to_nat c) as Hl by (apply length_take_le; apply lookup_lt_Some in Hc; lia).
      assert (Z.of_nat (length (take (Z.to_nat c) (t_values t))) = c) as Hlc by lia.
      pose proof Hr as Hr'. rewrite <-Heq in Hr'. destruct (column_at _ _ _ _ Hr') as (ci & Hci & Hid & Ht & Hat). rewrite Hlc in Hci.
      destruct (decide (get_kind w = get_kind v)) as [Hk|Hk]; [destruct (t_readonly t) eqn:Htr|].
      * destruct w as [| | | |s]; cbn in Hk |- *; [done|..]; unfold update_num, update_fixed, update_str; rewrite ?Hro, ?Hci; cbn [negb verify mbind result_bind];
          rewrite ?Ht, <-?Hk, ?bool_decide_eq_true_2 by done; cbn [verify mbind result_bind]; rewrite ?Hro; done.
      * assert (value_ok w) as Hw by (destruct Hok as [->|]; [pose proof (value_good _ _ _ _ Hr'); by destruct v|done]).
        destruct (update_rep r _ v _ w Hr' Hro Hw Hk) as (r' & Hu & Hrep & Hro' & Htb' & Hs'). rewrite Hlc in Hu. rewrite Hu. cbn [mbind result_bind].
        exists r'. split; [|split; [|done]].
        -- do 3 f_equal. unfold spec_events, tuple_events. rewrite Hci. unfold table_events. rewrite Htb.
           unfold get_column_info in Hci. rewrite decide_True in Hci by done. destruct (col_info_ (schema_ r) !! Z.to_nat c); [|done]. by simplify_eq.
        -- split; [|cbn; split; congruence]. cbn. rewrite <-Heq at 1. rewrite <-Hl at 1. by rewrite insert_middle.
      * destruct w as [| | | |s]; cbn in Hk |- *; [done|..]; unfold update_num, update_str; rewrite ?Hro, ?Hci; cbn [negb verify mbind result_bind];
          [rewrite Ht, bool_decide_eq_false_2 by congruence; done..|].
        destruct (t_readonly t); cbn [negb verify mbind result_bind]; [done|]. rewrite Ht, bool_decide_eq_false_2 by congruence. done.
    + pose proof (no_column r _ c Hr Hc) as Hn. destruct w as [| | | |s]; cbn; [done|..]; unfold update_num, update_str; rewrite ?Hro, ?Hn; try done.
      by destruct (t_readonly t).
  - destruct (make_sparse_rep r _ Hr) as (r' & -> & Hr' & Hs & ? & ? & _). cbn. exists r'. split; [done|]. split; [|done]. split; [done|]. split; congruence.
  - exists (make_readonly r). split; [done|]. split; [|done]. split; [by destruct Hr|done].
  - destruct (copy_rep r _ Hr) as (r' & -> & Hr' & ? & ? & ?). cbn. by exists r'.
  - unfold set_table. rewrite Htb. destruct (l && t_linked t); cbn; [done|]. eexists. split; [done|]. split; [|done]. split; [by destruct Hr|done].
Qed.

Lemma row_run_refines r t os : refines r t → Forall op_ok os → row_run r os = tuple_run (schema_ r) t os.
Proof.
  revert r t. induction os as [|o os IH]; intros r t Hr Hos; [done|]. apply Forall_cons in Hos as [Ho Hos]. cbn [row_run tuple_run].
  pose proof (row_step_refines r t o Hr Ho) as Hst. destruct (tuple_step (schema_ r) t o) as [[t' x]| |e]; [|done|by rewrite Hst].
  destruct Hst as (r' & -> & Hr' & Hs). cbn [mbind result_bind]. by rewrite (IH r' t' Hr' Hos), Hs.
Qed.

(** ** The theorems *)

(** C29: whatever columns and indexes are added in whatever order, before and after the
    schema is frozen, a schema either stops on an assertion or is well formed: column
    ids are positions, names and ids correspond, every fixed-size column starts where
    the fixed-size columns before it end, every string column is numbered among the
    strings, and the sizes are the totals. *)
Theorem schema_runs_well_formed os :
  for_each schema_step os Schema_new = Crash assert_failed ∨
  ∃ s, for_each schema_step os Schema_new = Done s ∧ schema_ok s.
Proof. apply schema_runs_ok, schema_new_ok. Qed.

(** C26: a row behaves like the tuple of its values.  A row made from values of the
    kinds of its columns (a frozen schema adds its hidden column) answers any sequence
    of reads, updates, changes of layout, copies and links to a table exactly as the
    tuple does: the same values, the same calls of the table, and the same failures
    (an update of the wrong kind or of a read-only row stops on an assertion, a column
    out of range is an invalid access), whether its strings are dense or sparse. *)
Theorem row_refines_tuple sops s values os :
  for_each schema_step sops Schema_new = Done s →
  Forall value_ok values → get_kind <$> values = take (columns_count s) (kinds s) → Forall op_ok os →
  ∃ r, create s values = Done r ∧ row_run r os = tuple_run s (mkTuple (values ++ hidden_values s) false false) os.
Proof.
  intros Hs Hv Hk Hos. destruct (schema_runs_ok sops _ schema_new_ok) as [Hc|(s' & Hs' & Hok)]; [congruence|].
  assert (s' = s) as -> by congruence. destruct (create_rep s values Hok Hv Hk) as (r & Hr & Hrep & Hro & Htb & Hsc).
  exists r. split; [done|]. rewrite (row_run_refines r (mkTuple (values ++ hidden_values s) false false) os); [by rewrite Hsc|by split|done].
Qed.

Definition sample_sops : list schema_op :=
  [AddColumn [97] I32 true; AddColumn [98] STR false; AddColumn [99] I64 false; AddColumn [100] STR false; AddIndex [120] [1]; Freeze].
Definition sample_schema : Schema := match for_each schema_step sample_sops Schema_new with Done s => s | _ => Schema_new end.
Definition sample_values : list Value := [VI32 (-7); VStr [104; 105]; VI64 (2 ^ 40); VStr []].
Definition sample_ops : list row_op :=
  [Get 1; Link true; Update 1 (VStr [104; 106]); Update 3 (VStr [1; 2; 3]); Get 1; Get 0; Update 2 (VI64 (-1)); Get 2; Copy; Get 3; Get 4; Readonly; Update 0 (VI32 1)].

Lemma row_refines_tuple_witness :
  ∃ r, create sample_schema sample_values = Done r ∧
    row_run r sample_ops = tuple_run sample_schema (mkTuple (sample_values ++ hidden_values sample_schema) false false) sample_ops.
Proof.
  apply (row_refines_tuple sample_sops).
  - vm_compute. reflexivity.
  - repeat (apply Forall_cons; split); try apply Forall_nil; cbn; done || lia.
  - vm_compute. reflexivity.
  - repeat (apply Forall_cons; split); try apply Forall_nil; cbn; try exact I; right; exact I || lia.
Defined.

(** [create] does not look at the kinds of the columns: values whose sizes add up are
    accepted in another order, and the columns read back are not those given. *)
Theorem create_ignores_kinds :
  let s := match for_each schema_step [AddColumn [97] I32 true; AddColumn [98] I64 false] Schema_new with Done s => s | _ => Schema_new end in
  ∃ r, create s [VI64 (2 ^ 33); VI32 5] = Done r ∧ get_column r 0 = Done (VI32 0) ∧ get_column r 1 = Done (VI64 (5 * 2 ^ 32 + 2)).
Proof. eexists. split; [vm_compute; reflexivity|]. split; vm_compute; reflexivity. Qed.

(** [to_string] copies as many bytes of the table of ends as there are strings, and
    nothing of a sparse row: rows with different strings have the same image. *)
Theorem to_string_ambiguous :
  let s := match for_each schema_step [AddColumn [97] STR true; AddColumn [98] STR false; AddColumn [99] STR false] Schema_new with Done s => s | _ => Schema_new end in
  ∃ r1 r2, create s [VStr [1]; VStr [2]; VStr [3]] = Done r1 ∧ create s [VStr [1]; VStr [2; 3]; VStr []] = Done r2 ∧
    to_string r1 = to_string r2 ∧ get_column r1 1 ≠ get_column r2 1.
Proof. eexists _, _. split; [vm_compute; reflexivity|]. split; [vm_compute; reflexivity|]. split; [vm_compute; reflexivity|vm_compute; congruence]. Qed.
