(* ===== verification/RO6Row.v ===== *)
(** * RO6: rows with old versions, and the readers they know

    Models src/rococo-dst/deptran/ro6/ro6_row.{hpp,cpp}: [ReadTxnIdTracker] and
    [RO6Row] on top of the rows of MemRow.v.  A write keeps the value it overwrites
    under a new version number and notes, for every read-only transaction it was told
    about, the version that transaction has to read.

    [now] is [time(NULL) * 1000]; [ver_s] is the static counter of versions.  Versions
    stay below 2^63, so the conversions between [version_t] and [i64] are left out.
    Erasing an element of a map inside a range-based loop over it leaves the iterator
    of the loop dangling, and its next increment is undefined. *)

From S2P Require Import Prelude SparseInt MemRow.

Definition GC_THRESHOLD : nat := Z.to_nat 10000.
Definition VERSION_SAFE_TIME : Z := 5000.

(** A [std::map] in the order of its keys. *)
Definition sorted_keys {A} (m : gmap Z A) : list Z := merge_sort Z.le (elements (dom m)).
Definition last_key {A} (m : gmap Z A) : option Z := last (sorted_keys m).

(** ** [ReadTxnIdTracker] *)

(** An entry: the version for later reads, and the time it was recorded. *)
Abbreviation ReadTxnEntry := (gmap Z (Z * Z)).

Record ReadTxnIdTracker := mkTracker {
  keyToReadTxnIds : gmap Z ReadTxnEntry;
  keyToLastAccessedTime : gmap Z Z;
}.

Definition Tracker_new : ReadTxnIdTracker := mkTracker ∅ ∅.

(** The loop that erases the entries recorded before [safe]. *)
Definition erase_old (safe : Z) (e : ReadTxnEntry) : result unit :=
  for_each (λ _ id,
    match e !! id with
    | Some (_, t) => if decide (t < safe) then Crash invalid_access else Done tt
    | None => Done tt
    end) (sorted_keys e) tt.

Definition checkIfTxnIdBeenRecorded (now column_id txnId : Z) (forWrites : bool) (chosenVersion : Z) (t : ReadTxnIdTracker) :
    result (ReadTxnIdTracker * Z) :=
  let recordTime := now in
  let txnTime := if forWrites then chosenVersion else 0 in
  let timesEntry := (txnTime, recordTime) in
  let rtxn_entry := default ∅ (keyToReadTxnIds t !! column_id) in
  if decide (size rtxn_entry = 0%nat) then
    Done (mkTracker (<[column_id := {[txnId := timesEntry]}]> (keyToReadTxnIds t))
            (<[column_id := recordTime]> (keyToLastAccessedTime t)), 0)
  else
    let safetyTime := recordTime - VERSION_SAFE_TIME in
    times ← (if decide (default 0 (keyToLastAccessedTime t !! column_id) < safetyTime) then
               _ ← erase_old safetyTime rtxn_entry;
               Done (<[column_id := recordTime]> (keyToLastAccessedTime t))
             else Done (keyToLastAccessedTime t));
    match rtxn_entry !! txnId with
    | None => Done (mkTracker (<[column_id := <[txnId := timesEntry]> rtxn_entry]> (keyToReadTxnIds t)) times, 0)
    | Some (txnTimeToReturn, recorded) =>
        if forWrites && bool_decide (txnTimeToReturn > txnTime) then
          Done (mkTracker (<[column_id := <[txnId := (txnTime, recorded)]> rtxn_entry]> (keyToReadTxnIds t)) times, txnTimeToReturn)
        else Done (mkTracker (keyToReadTxnIds t) times, txnTimeToReturn)
    end.

Definition getReadTxnIds (now column_id : Z) (t : ReadTxnIdTracker) : result (ReadTxnIdTracker * list Z) :=
  match keyToReadTxnIds t !! column_id with
  | None => Done (t, [])
  | Some rtxn_entry =>
      let safeTime := now - VERSION_SAFE_TIME in
      ids ← for_each (λ ids id,
              match rtxn_entry !! id with
              | Some (_, recorded) => if decide (safeTime ≤ recorded) then Done (ids ++ [id]) else Crash invalid_access
              | None => Done ids
              end) (sorted_keys rtxn_entry) [];
      Done (mkTracker (keyToReadTxnIds t) (<[column_id := now]> (keyToLastAccessedTime t)), ids)
  end.

(** ** [RO6Row] *)

(** [time_segment] maps a time to an iterator of [old_values_], here its version. *)
Record RO6Row := mkRO6Row {
  base : Row;
  rtxn_tracker : ReadTxnIdTracker;
  old_values_ : gmap Z (gmap Z Value);
  time_segment : gmap Z (gmap Z Z);
}.

(** [RO6Row::create] *)
Definition ro6_create (s : Schema) (values : list Value) : result RO6Row :=
  r ← create s values; Done (mkRO6Row r Tracker_new ∅ ∅).

Definition olds (r : RO6Row) (c : Z) : gmap Z Value := default ∅ (old_values_ r !! c).

Definition set_tracker (t : ReadTxnIdTracker) (r : RO6Row) : RO6Row := mkRO6Row (base r) t (old_values_ r) (time_segment r).
Definition set_base (b : Row) (r : RO6Row) : RO6Row := mkRO6Row b (rtxn_tracker r) (old_values_ r) (time_segment r).

Definition getCurrentVersion (r : RO6Row) (c : Z) : Z := default 0 (last_key (olds r c)).

Definition get_column_by_version (r : RO6Row) (c version_num : Z) : result Value :=
  match olds r c !! version_num with Some v => Done v | None => get_column (base r) c end.

(** [RO6Row::garbageCollection]; [ver] is the newest entry.  The entries of
    [time_segment] before the first one later than the cut (those not later, as they
    are in order) are removed, and the old values up to the last of them. *)
Definition garbageCollection (now c ver : Z) (r : RO6Row) : result RO6Row :=
  let cutTime := now - VERSION_SAFE_TIME in
  let seg := default ∅ (time_segment r !! c) in
  let seg := match seg !! now with Some _ => seg | None => <[now := ver]> seg end in
  let before := filter (λ t, t ≤ cutTime) (sorted_keys seg) in
  match last before with
  | None => Done (mkRO6Row (base r) (rtxn_tracker r) (old_values_ r) (<[c := seg]> (time_segment r)))
  | Some t =>
      match seg !! t with
      | Some recorded =>
          match olds r c !! recorded with
          | Some _ =>
              Done (mkRO6Row (base r) (rtxn_tracker r)
                      (<[c := filter (λ x, recorded < x.1) (olds r c)]> (old_values_ r))
                      (<[c := filter (λ x, cutTime < x.1) seg]> (time_segment r)))
          | None => Crash invalid_access
          end
      | None => Crash invalid_access
      end
  end.

(** [RO6Row::update_internal]; returns [ver_s] and what the table is told. *)
Definition update_internal (now c : Z) (v : Value) (txnIds : list Z) (ver_s : Z) (r : RO6Row) :
    result (RO6Row * Z * list table_event) :=
  currentValue ← get_column (base r) c;
  let currentVersionNumber := getCurrentVersion r c in
  let ver := ver_s + 1 in
  let old := match olds r c !! ver with Some _ => olds r c | None => <[ver := currentValue]> (olds r c) end in
  let r := mkRO6Row (base r) (rtxn_tracker r) (<[c := old]> (old_values_ r)) (time_segment r) in
  r ← (if decide (size old mod GC_THRESHOLD = 0)%nat then garbageCollection now c ver r else Done r);
  t ← for_each (λ t id, '(t, _) ← checkIfTxnIdBeenRecorded now c id true currentVersionNumber t; Done t) txnIds (rtxn_tracker r);
  let r := set_tracker t r in
  '(b, es) ← update (base r) c v;
  Done (set_base b r, ver, es).

(** [RO6Row::get_column]: for version 0 it reads the column and drops the value. *)
Definition get_column_for (now c txnId : Z) (r : RO6Row) : result (RO6Row * Value) :=
  '(t, version_number) ← checkIfTxnIdBeenRecorded now c txnId false 0 (rtxn_tracker r);
  let r := set_tracker t r in
  _ ← (if decide (version_number = 0) then get_column (base r) c else Done VUnknown);
  v ← get_column_by_version r c version_number;
  Done (r, v).
