(* ===== verification/RO6Spec.v ===== *)
(** * RO6: what the versions and the recorded readers mean

    The versions of a column against the history of its values, what a recorded reader
    gets, and where that is not what the protocol asks for. *)

From S2P Require Import Prelude SparseInt MemRow MemRowSpec RO6Row.

(** ** Maps in order *)

Section keys.
Context {A : Type}.
Implicit Types m : gmap Z A.

Lemma sorted_keys_elem m k : k ∈ sorted_keys m ↔ k ∈ dom m.
Proof. unfold sorted_keys. by rewrite merge_sort_Permutation, elem_of_elements. Qed.

Lemma sorted_keys_sorted m : StronglySorted Z.le (sorted_keys m).
Proof. apply StronglySorted_merge_sort; [intros x y z; lia|apply _]. Qed.

Lemma last_sorted l k : StronglySorted Z.le l → last l = Some k → ∀ x, x ∈ l → x ≤ k.
Proof.
  intros Hs (l' & ->)%last_Some x [Hx| ->%list_elem_of_singleton]%elem_of_app; [|done].
  apply StronglySorted_app in Hs as (Hall & _ & _). apply Hall; set_solver.
Qed.

Lemma sorted_filter (P : Z → Prop) `{∀ x, Decision (P x)} l : StronglySorted Z.le l → StronglySorted Z.le (filter P l).
Proof.
  induction 1 as [|x l Hs IH Hx]; [constructor|]. rewrite filter_cons. case_decide; [|done]. constructor; [done|].
  rewrite Forall_forall in *. intros y [_ Hy]%list_elem_of_filter. by apply Hx.
Qed.

Lemma last_key_spec m k : last_key m = Some k ↔ k ∈ dom m ∧ ∀ x, x ∈ dom m → x ≤ k.
Proof.
  unfold last_key. split.
  - intros Hl. split.
    + apply sorted_keys_elem. apply last_Some in Hl as [l ->]. set_solver.
    + intros x Hx%sorted_keys_elem. by eapply last_sorted; [apply sorted_keys_sorted| |].
  - intros [Hk Hmax]. destruct (last (sorted_keys m)) as [j|] eqn:Hj.
    + f_equal. pose proof (last_sorted _ _ (sorted_keys_sorted m) Hj k (proj2 (sorted_keys_elem m k) Hk)).
      assert (j ∈ dom m) as Hjd by (apply sorted_keys_elem; apply last_Some in Hj as [l ->]; set_solver). pose proof (Hmax j Hjd). lia.
    + apply last_None in Hj. apply sorted_keys_elem in Hk. rewrite Hj in Hk. by apply not_elem_of_nil in Hk.
Qed.

Lemma last_key_None m : last_key m = None ↔ m = ∅.
Proof.
  unfold last_key. rewrite last_None. split.
  - intros Hn. apply map_empty. intros i. apply not_elem_of_dom. rewrite <-sorted_keys_elem, Hn. apply not_elem_of_nil.
  - intros ->. done.
Qed.

Lemma last_key_insert m k x : (∀ i, i ∈ dom m → i ≤ k) → last_key (<[k := x]> m) = Some k.
Proof. intros Hm. apply last_key_spec. rewrite dom_insert_L. split; [set_solver|]. intros i [->%elem_of_singleton|Hi]%elem_of_union; [done|by apply Hm]. Qed.
End keys.

(** ** The tracker *)

Definition reader (t : ReadTxnIdTracker) (c id : Z) : option (Z * Z) := keyToReadTxnIds t !! c ≫= (.!! id).

(** An entry that the loops would erase. *)
Definition stale (t : ReadTxnIdTracker) (now c : Z) : Prop := ∃ id k recorded, reader t c id = Some (k, recorded) ∧ recorded < now - VERSION_SAFE_TIME.

Lemma erase_old_ok safe e : (∃ id k t, e !! id = Some (k, t) ∧ t < safe) ∧ erase_old safe e = Crash invalid_access ∨ erase_old safe e = Done tt.
Proof.
  unfold erase_old. assert (∀ id, id ∈ sorted_keys e → is_Some (e !! id)) as Hk by (intros id; rewrite sorted_keys_elem; apply elem_of_dom).
  induction (sorted_keys e) as [|id l IH]; cbn; [by right|]. destruct (Hk id) as [[k t] Hid]; [set_solver|]. rewrite Hid.
  case_decide; cbn; [left; eauto 10|]. apply IH. intros j Hj. apply Hk. set_solver.
Qed.

(** What a call records: a new reader gets the version of the call (0 for reads), a
    known one the smaller of the two versions if the call is a write. *)
Definition recorded_as (forWrites : bool) (ver now : Z) (old : option (Z * Z)) : Z * Z :=
  match old with
  | None => (if forWrites then ver else 0, now)
  | Some (k, t) => (if forWrites then Z.min k ver else k, t)
  end.

Lemma check_ok now c id fw ver t :
  (stale t now c ∧ checkIfTxnIdBeenRecorded now c id fw ver t = Crash invalid_access) ∨
  ∃ t', checkIfTxnIdBeenRecorded now c id fw ver t = Done (t', default 0 (fst <$> reader t c id)) ∧
    ∀ c' id', reader t' c' id' = if decide (c' = c ∧ id' = id) then Some (recorded_as fw ver now (reader t c id)) else reader t c' id'.
Proof.
  unfold checkIfTxnIdBeenRecorded. set (e := default ∅ (keyToReadTxnIds t !! c)).
  assert (∀ j, reader t c j = e !! j) as He by (intros j; unfold reader, e; by destruct (keyToReadTxnIds t !! c)).
  assert (∀ x, (∀ j, x !! j = if decide (j = id) then Some (recorded_as fw ver now (reader t c id)) else e !! j) → ∀ times c' id',
    reader (mkTracker (<[c := x]> (keyToReadTxnIds t)) times) c' id' =
    if decide (c' = c ∧ id' = id) then Some (recorded_as fw ver now (reader t c id)) else reader t c' id') as Hput.
  { intros x Hx times c' id'. unfold reader at 1. cbn. destruct (decide (c' = c)) as [->|Hc].
    - rewrite lookup_insert_eq. cbn. rewrite Hx, He. repeat case_decide; naive_solver.
    - rewrite lookup_insert_ne by done. rewrite decide_False by naive_solver. done. }
  destruct (decide (size e = 0%nat)) as [Hz|Hz].
  - right. apply map_size_empty_inv in Hz. rewrite (He id), Hz, lookup_empty. eexists. split; [done|].
    rewrite <-(lookup_empty (M:=gmap Z) id), <-Hz, <-He. apply Hput. intros j. rewrite He, Hz, !lookup_empty. cbn.
    case_decide as Hj; [subst; by rewrite lookup_singleton_eq|by rewrite lookup_singleton_ne].
  - assert (∀ times, ∃ t',
      match e !! id with
      | None => Done (mkTracker (<[c := <[id := (if fw then ver else 0, now)]> e]> (keyToReadTxnIds t)) times, 0)
      | Some (k, recorded) =>
          if fw && bool_decide (k > (if fw then ver else 0)) then
            Done (mkTracker (<[c := <[id := ((if fw then ver else 0), recorded)]> e]> (keyToReadTxnIds t)) times, k)
          else Done (mkTracker (keyToReadTxnIds t) times, k)
      end = Done (t', default 0 (fst <$> reader t c id)) ∧
      ∀ c' id', reader t' c' id' = if decide (c' = c ∧ id' = id) then Some (recorded_as fw ver now (reader t c id)) else reader t c' id') as Hrest.
    { intros times. rewrite (He id). destruct (e !! id) as [[k rec]|] eqn:Hid.
      - destruct (fw && bool_decide (k > (if fw then ver else 0))) eqn:Hb.
        + apply andb_true_iff in Hb as [-> Hb%bool_decide_eq_true]. eexists. split; [done|]. rewrite <-Hid, <-He. apply Hput. intros j.
          rewrite He, Hid. cbn. replace (k `min` ver) with ver by lia. case_decide; [subst; by rewrite lookup_insert_eq|by rewrite lookup_insert_ne].
        + eexists. split; [done|]. intros c' id'. change (reader (mkTracker (keyToReadTxnIds t) times) c' id') with (reader t c' id').
          destruct (decide (c' = c ∧ id' = id)) as [[-> ->]|]; [|done]. rewrite He, Hid. cbn. destruct fw; [|done]. cbn in Hb. apply bool_decide_eq_false in Hb.
          by replace (k `min` ver) with k by lia.
      - eexists. split; [done|]. rewrite <-Hid, <-He. apply Hput. intros j. rewrite He, Hid. cbn.
        case_decide; [subst; by rewrite lookup_insert_eq|by rewrite lookup_insert_ne]. }
    cbn zeta. case_decide as Hlt; [|right; apply Hrest].
    destruct (erase_old_ok (now - VERSION_SAFE_TIME) e) as [[(j & k & rec & Hj & Hrec) ->]| ->]; cbn [mbind result_bind].
    + left. split; [|done]. exists j, k, rec. by rewrite He.
    + right. apply Hrest.
Qed.

Lemma recorded_time fw ver now x : (recorded_as fw ver now x).2 = default now (snd <$> x).
Proof. by destruct x as [[k t]|]. Qed.

Lemma recorded_twice ver now x : recorded_as true ver now (Some (recorded_as true ver now x)) = recorded_as true ver now x.
Proof. destruct x as [[k t]|]; cbn; f_equal; lia. Qed.

(** A write with the readers [ids]. *)
Definition writers_view (ids : list Z) (ver now c : Z) (t t' : ReadTxnIdTracker) : Prop :=
  ∀ c' id, reader t' c' id = if decide (c' = c ∧ id ∈ ids) then Some (recorded_as true ver now (reader t c id)) else reader t c' id.

(** An entry that is stale after a call was so before. *)
Lemma stale_back fw ver now c id t t' :
  (∀ c' id', reader t' c' id' = if decide (c' = c ∧ id' = id) then Some (recorded_as fw ver now (reader t c id)) else reader t c' id') →
  stale t' now c → stale t now c.
Proof.
  intros Ht (j & k & rec & Hj & Hrec). rewrite Ht in Hj. case_decide as Hd; [|by exists j, k, rec]. destruct Hd as [_ ->].
  destruct (reader t c id) as [[k0 t0]|] eqn:Hid; cbn in Hj; injection Hj as Hk Hr; subst; [by eexists id, _, _|].
  unfold VERSION_SAFE_TIME in Hrec. lia.
Qed.

Lemma check_all_ok now c ver ids t :
  (stale t now c ∧ for_each (λ t id, '(t, _) ← checkIfTxnIdBeenRecorded now c id true ver t; Done t) ids t = Crash invalid_access) ∨
  ∃ t', for_each (λ t id, '(t, _) ← checkIfTxnIdBeenRecorded now c id true ver t; Done t) ids t = Done t' ∧ writers_view ids ver now c t t'.
Proof.
  revert t. induction ids as [|id ids IH]; intros t; cbn [for_each].
  { right. exists t. split; [done|]. intros c' id. by rewrite decide_False by (by intros [_ ?%not_elem_of_nil]). }
  destruct (check_ok now c id true ver t) as [[Hs ->]|(t1 & -> & H1)]; cbn [mbind result_bind]; [by left|].
  destruct (IH t1) as [[Hs ->]|(t2 & -> & H2)]; [left; split; [by eapply stale_back|done]|right].
  exists t2. split; [done|]. intros c' j. rewrite H2, !H1.
  destruct (decide (c' = c ∧ j ∈ ids)) as [[-> Hj]|Hj]; destruct (decide (c = c ∧ j = id)) as [[_ ->]|Hji].
  - rewrite recorded_twice. by rewrite decide_True by set_solver.
  - rewrite decide_True by set_solver. done.
  - destruct (decide (c' = c ∧ id = id)) as [[-> _]|Hc]; [by rewrite decide_True by set_solver|]. by rewrite decide_False by naive_solver.
  - rewrite decide_False by naive_solver. rewrite decide_False; [done|]. rewrite elem_of_cons. naive_solver.
Qed.

Lemma ids_ok now c t :
  (stale t now c ∧ getReadTxnIds now c t = Crash invalid_access) ∨
  ∃ t' ids, getReadTxnIds now c t = Done (t', ids) ∧ keyToReadTxnIds t' = keyToReadTxnIds t ∧ ∀ id, id ∈ ids ↔ is_Some (reader t c id).
Proof.
  unfold getReadTxnIds. destruct (keyToReadTxnIds t !! c) as [e|] eqn:He.
  2: { right. exists t, []. split_and!; [done..|]. intros id. unfold reader. rewrite He. split; [by intros ?%not_elem_of_nil|by intros []]. }
  assert (∀ id, reader t c id = e !! id) as Hr by (intros id; unfold reader; by rewrite He).
  assert (∀ l acc, (∀ id, id ∈ l → is_Some (e !! id)) →
    (stale t now c ∧ for_each (λ ids id, match e !! id with Some (_, recorded) => if decide (now - VERSION_SAFE_TIME ≤ recorded) then Done (ids ++ [id]) else Crash invalid_access | None => Done ids end) l acc = Crash invalid_access) ∨
    for_each (λ ids id, match e !! id with Some (_, recorded) => if decide (now - VERSION_SAFE_TIME ≤ recorded) then Done (ids ++ [id]) else Crash invalid_access | None => Done ids end) l acc = Done (acc ++ l)) as Hl.
  { induction l as [|id l IH]; intros acc Hin; cbn; [right; by rewrite app_nil_r|]. destruct (Hin id) as [[k rec] Hid]; [set_solver|]. rewrite Hid.
    case_decide; cbn.
    - destruct (IH (acc ++ [id])) as [?|Hd]; [set_solver|by left|right]. by rewrite Hd, <-app_assoc.
    - left. split; [|done]. exists id, k, rec. rewrite Hr. split; [done|lia]. }
  cbn zeta. destruct (Hl (sorted_keys e) []) as [[? ->]| ->]; [intros id; rewrite sorted_keys_elem; apply elem_of_dom|by left|right].
  cbn [mbind result_bind]. eexists _, _. split; [done|]. split; [done|]. intros id. rewrite Hr. cbn. rewrite sorted_keys_elem. apply elem_of_dom.
Qed.

(** ** Versions and the history of a column *)

Definition segs (r : RO6Row) (c : Z) : gmap Z Z := default ∅ (time_segment r !! c).

(** Against the history [h] of (version, column, value overwritten): what is kept was
    written, the newest version of every column is kept, and the times of the
    collections so far point at versions that are kept, later times at later versions. *)
Record chain_ok (r : RO6Row) (ver now : Z) (h : list (Z * Z * Value)) : Prop := {
  ch_range k c v : (k, c, v) ∈ h → 0 < k ≤ ver;
  ch_unique k c c' v v' : (k, c, v) ∈ h → (k, c', v') ∈ h → v = v';
  ch_olds c k v : olds r c !! k = Some v → (k, c, v) ∈ h;
  ch_newest c k v : (k, c, v) ∈ h → ∃ k', last_key (olds r c) = Some k' ∧ k ≤ k';
  ch_seg c t k : segs r c !! t = Some k → t ≤ now ∧ is_Some (olds r c !! k);
  ch_mono c t1 t2 k1 k2 : segs r c !! t1 = Some k1 → segs r c !! t2 = Some k2 → t1 < t2 → k1 < k2;
}.

(** The versions of [r'] are among those of [r]. *)
Definition fewer (r' r : RO6Row) : Prop := ∀ c k v, olds r' c !! k = Some v → olds r c !! k = Some v.

Lemma gc_ok now c ver h r :
  chain_ok r ver now h → last_key (olds r c) = Some ver → (∀ t k, segs r c !! t = Some k → k < ver) →
  ∃ r', garbageCollection now c ver r = Done r' ∧ chain_ok r' ver now h ∧ base r' = base r ∧ rtxn_tracker r' = rtxn_tracker r ∧ fewer r' r.
Proof.
  intros [C1 CU C2 C3 C4 C5] Hver Hseg. unfold garbageCollection. fold (segs r c). set (seg := match segs r c !! now with Some _ => _ | None => _ end).
  assert (∀ t k, seg !! t = Some k → segs r c !! t = Some k ∨ (t = now ∧ k = ver)) as Hin.
  { intros t k. unfold seg. destruct (segs r c !! now); [by left|]. intros [[<- <-]|[_ ?]]%lookup_insert_Some; [by right|by left]. }
  assert (∃ k, seg !! now = Some k) as [know Hnow].
  { unfold seg. destruct (segs r c !! now) eqn:Hn; [eauto|]. rewrite lookup_insert_eq. eauto. }
  assert (∀ t k, seg !! t = Some k → t ≤ now ∧ k ≤ ver ∧ is_Some (olds r c !! k)) as Hb.
  { intros t k [Hk|[-> ->]]%Hin.
    - destruct (C4 c t k Hk) as [? ?]. pose proof (Hseg t k Hk). split_and!; [done|lia|done].
    - split_and!; [done..|]. apply last_key_spec in Hver as [Hver _]. by apply elem_of_dom. }
  assert (∀ t1 t2 k1 k2, seg !! t1 = Some k1 → seg !! t2 = Some k2 → t1 < t2 → k1 < k2) as Hmono.
  { intros t1 t2 k1 k2 [H1|[-> ->]]%Hin [H2|[-> ->]]%Hin Hlt; [by eapply (C5 c t1 t2)|by eapply Hseg| |lia]. destruct (C4 c t2 k2 H2). lia. }
  set (before := filter _ _). destruct (last before) as [t|] eqn:Hl.
  - assert (t ∈ before) as Htb by (apply last_Some in Hl as [l ->]; set_solver). unfold before in Htb.
    apply list_elem_of_filter in Htb as [Htc Hts]. apply sorted_keys_elem, elem_of_dom in Hts as [rec Hrec]. rewrite Hrec.
    destruct (Hb t rec Hrec) as (_ & _ & [v Hv]). rewrite Hv. eexists. split; [done|]. split; [|split; [done|split; [done|]]].
    + assert (rec < ver) as Hrv.
      { unfold VERSION_SAFE_TIME in Htc. pose proof (Hmono t now rec know Hrec Hnow ltac:(lia)). destruct (Hb now know Hnow) as (_ & ? & _). lia. }
      assert (∀ t', t' ∈ dom seg → t' ≤ now - VERSION_SAFE_TIME → t' ≤ t) as Hmax.
      { intros t' Ht' Hcut. eapply last_sorted; [|exact Hl|]; [apply sorted_filter, sorted_keys_sorted|].
        apply list_elem_of_filter. split; [done|by apply sorted_keys_elem]. }
      assert (∀ c', olds (mkRO6Row (base r) (rtxn_tracker r) (<[c := filter (λ x, rec < x.1) (olds r c)]> (old_values_ r))
         (<[c := filter (λ x, now - VERSION_SAFE_TIME < x.1) seg]> (time_segment r))) c' =
         if decide (c' = c) then filter (λ x, rec < x.1) (olds r c) else olds r c') as Ho.
      { intros c'. unfold olds at 1. cbn. case_decide; [subst; by rewrite lookup_insert_eq|by rewrite lookup_insert_ne]. }
      assert (∀ c', segs (mkRO6Row (base r) (rtxn_tracker r) (<[c := filter (λ x, rec < x.1) (olds r c)]> (old_values_ r))
         (<[c := filter (λ x, now - VERSION_SAFE_TIME < x.1) seg]> (time_segment r))) c' =
         if decide (c' = c) then filter (λ x, now - VERSION_SAFE_TIME < x.1) seg else segs r c') as Hsg.
      { intros c'. unfold segs at 1. cbn. case_decide; [subst; by rewrite lookup_insert_eq|by rewrite lookup_insert_ne]. }
      split; [done|done| | | |].
      * intros c' k w. rewrite Ho. case_decide; [subst; intros [? _]%map_lookup_filter_Some; by apply C2|apply C2].
      * intros c' k w Hk. rewrite Ho. case_decide; [subst|by eapply C3]. exists ver. destruct (C3 c k w Hk) as (k' & Hk' & ?).
        assert (k' = ver) as -> by congruence. split; [|done]. apply last_key_spec in Hver as [[x Hx]%elem_of_dom Hver]. apply last_key_spec. split.
        -- apply elem_of_dom. exists x. by apply map_lookup_filter_Some.
        -- intros y [z [Hz _]%map_lookup_filter_Some]%elem_of_dom. apply Hver. apply elem_of_dom. eauto.
      * intros c' t' k. rewrite Hsg, Ho. case_decide; [subst|by apply C4]. intros [Hk Hcut]%map_lookup_filter_Some. cbn in Hcut.
        destruct (Hb t' k Hk) as (? & _ & [x Hx]). split; [done|]. exists x. apply map_lookup_filter_Some. split; [done|]. cbn.
        apply (Hmono t t' rec k Hrec Hk). lia.
      * intros c' t1 t2 k1 k2. rewrite Hsg. case_decide; [subst|by apply C5]. intros [? _]%map_lookup_filter_Some [? _]%map_lookup_filter_Some. by apply Hmono.
    + intros c' k w. unfold olds at 1. cbn. destruct (decide (c' = c)) as [->|Hc]; [|by rewrite lookup_insert_ne].
      rewrite lookup_insert_eq. cbn. by intros [? _]%map_lookup_filter_Some.
  - eexists. split; [done|]. split; [|split; [done|split; [done|by intros c' k w]]].
    assert (∀ c', segs (mkRO6Row (base r) (rtxn_tracker r) (old_values_ r) (<[c := seg]> (time_segment r))) c' = if decide (c' = c) then seg else segs r c') as Hsg.
    { intros c'. unfold segs at 1. cbn. case_decide; [subst; by rewrite lookup_insert_eq|by rewrite lookup_insert_ne]. }
    split; [done|done|exact C2|exact C3| |].
    + intros c' t' k. rewrite Hsg. case_decide; [subst|by apply C4]. intros Hk. destruct (Hb t' k Hk) as (? & _ & ?). done.
    + intros c' t1 t2 k1 k2. rewrite Hsg. case_decide; [subst; apply Hmono|by apply C5].
Qed.

Definition versions_ok (r : RO6Row) (ver now : Z) (vs : list Value) (h : list (Z * Z * Value)) : Prop :=
  refines (base r) (mkTuple vs false false) ∧ chain_ok r ver now h.

(** The newest version of a column in the history, 0 if there is none. *)
Lemma current_version r ver now h c :
  chain_ok r ver now h → (getCurrentVersion r c = 0 ∧ ∀ k v, (k, c, v) ∉ h) ∨
  (∃ v, (getCurrentVersion r c, c, v) ∈ h ∧ olds r c !! getCurrentVersion r c = Some v) ∧ ∀ k v, (k, c, v) ∈ h → k ≤ getCurrentVersion r c.
Proof.
  intros [C1 CU C2 C3 C4 C5]. unfold getCurrentVersion. destruct (last_key (olds r c)) as [k|] eqn:Hk; cbn.
  - right. pose proof Hk as Hk'. apply last_key_spec in Hk' as [[v Hv]%elem_of_dom _]. split; [exists v; by split; [apply C2|]|].
    intros j w Hj. destruct (C3 c j w Hj) as (k' & ? & ?). by simplify_eq.
  - left. split; [done|]. intros k v Hin. destruct (C3 c k v Hin) as (k' & ? & _). congruence.
Qed.

(** The row after a new version was stored. *)
Lemma push_version r ver now now' vs h c old :
  versions_ok r ver now vs h → 0 ≤ ver → now ≤ now' →
  let r1 := mkRO6Row (base r) (rtxn_tracker r) (<[c := <[ver + 1 := old]> (olds r c)]> (old_values_ r)) (time_segment r) in
  olds r c !! (ver + 1) = None ∧ chain_ok r1 (ver + 1) now' (h ++ [(ver + 1, c, old)]) ∧
  last_key (olds r1 c) = Some (ver + 1) ∧ (∀ t k, segs r1 c !! t = Some k → k < ver + 1) ∧
  ∀ c', olds r1 c' = if decide (c' = c) then <[ver + 1 := old]> (olds r c) else olds r c'.
Proof.
  intros [_ [C1 CU C2 C3 C4 C5]] Hv0 Hnow. cbn zeta. set (r1 := mkRO6Row _ _ _ _).
  assert (∀ c', olds r1 c' = if decide (c' = c) then <[ver + 1 := old]> (olds r c) else olds r c') as Ho.
  { intros c'. unfold olds at 1. cbn. case_decide; [subst; by rewrite lookup_insert_eq|by rewrite lookup_insert_ne]. }
  assert (∀ c' k v, olds r c' !! k = Some v → k ≤ ver) as Hle by (intros c' k v Hk%C2%C1; lia).
  assert (olds r c !! (ver + 1) = None) as Hn.
  { destruct (olds r c !! (ver + 1)) as [v|] eqn:Hv; [|done]. pose proof (Hle c (ver + 1) v Hv). lia. }
  assert (last_key (<[ver + 1 := old]> (olds r c)) = Some (ver + 1)) as Hl.
  { apply last_key_insert. intros i [v Hv]%elem_of_dom. pose proof (Hle c i v Hv). lia. }
  split; [done|]. split; [|split; [by rewrite Ho, decide_True|split; [|done]]].
  - split.
    + intros k c' v [Hk%C1|Hk%list_elem_of_singleton]%elem_of_app; [lia|]. simplify_eq. lia.
    + intros k c1 c2 v1 v2 [H1|H1%list_elem_of_singleton]%elem_of_app [H2|H2%list_elem_of_singleton]%elem_of_app; simplify_eq;
        [by eapply CU|apply C1 in H1; lia|apply C1 in H2; lia|done].
    + intros c' k v. rewrite Ho, elem_of_app. case_decide; [subst|intros; left; by apply C2].
      intros [[<- <-]|[_ Hk]]%lookup_insert_Some; [right; set_solver|left; by apply C2].
    + intros c' k v Hin. rewrite Ho. apply elem_of_app in Hin as [Hin|Hin%list_elem_of_singleton].
      * case_decide; [subst|by eapply C3]. exists (ver + 1). split; [done|]. apply C1 in Hin. lia.
      * simplify_eq. rewrite decide_True by done. by exists (ver + 1).
    + intros c' t k Hk. change (segs r1 c') with (segs r c') in Hk. destruct (C4 c' t k Hk) as [? Hs]. split; [lia|]. rewrite Ho.
      case_decide; [subst|done]. destruct (decide (k = ver + 1)) as [->|]; [rewrite lookup_insert_eq; eauto|by rewrite lookup_insert_ne].
    + exact C5.
  - intros t k Hk. change (segs r1 c) with (segs r c) in Hk. destruct (C4 c t k Hk) as [_ [v Hv]]. pose proof (Hle c k v Hv). lia.
Qed.

(** A write: the value overwritten becomes the newest version, and the readers it was
    told about are given the version that was the newest before. *)
Definition written (r : RO6Row) (ver now c : Z) (old : Value) (ids : list Z) (r' : RO6Row) : Prop :=
  writers_view ids (getCurrentVersion r c) now c (rtxn_tracker r) (rtxn_tracker r') ∧
  (∀ c' k w, olds r' c' !! k = Some w → k = ver + 1 ∧ c' = c ∧ w = old ∨ olds r c' !! k = Some w) ∧
  ((S (size (olds r c)) mod GC_THRESHOLD)%nat ≠ 0%nat → ∀ c', olds r' c' = if decide (c' = c) then <[ver + 1 := old]> (olds r c) else olds r c').

Lemma write_ok r ver now now' vs h c v ids old :
  versions_ok r ver now vs h → 0 ≤ ver → now ≤ now' → vs !! c = Some old → value_ok v → get_kind v = get_kind old →
  (stale (rtxn_tracker r) now' (Z.of_nat c) ∧ update_internal now' (Z.of_nat c) v ids ver r = Crash invalid_access) ∨
  ∃ r' es, update_internal now' (Z.of_nat c) v ids ver r = Done (r', ver + 1, es) ∧
    versions_ok r' (ver + 1) now' (<[c := v]> vs) (h ++ [(ver + 1, Z.of_nat c, old)]) ∧ written r ver now' (Z.of_nat c) old ids r'.
Proof.
  intros Hok Hv0 Hnow Hc Hv Hk. pose proof Hok as [Hb _]. set (c' := Z.of_nat c).
  destruct (push_version r ver now now' vs h c' old Hok Hv0 Hnow) as (Hn & Hch & Hl & Hsg & Ho).
  set (r1 := mkRO6Row _ _ _ _) in *. unfold update_internal.
  pose proof (rows_by_column (base r) vs c old (proj1 Hb) Hc) as Hcol. fold c' in Hcol. rewrite Hcol. cbn [mbind result_bind]. cbn zeta. rewrite Hn. fold r1.
  assert (∃ r2, (if decide ((size (<[(ver + 1)%Z := old]> (olds r c')) mod GC_THRESHOLD)%nat = 0%nat) then garbageCollection now' c' (ver + 1) r1 else Done r1) = Done r2 ∧
    chain_ok r2 (ver + 1) now' (h ++ [(ver + 1, c', old)]) ∧ base r2 = base r ∧ rtxn_tracker r2 = rtxn_tracker r ∧ fewer r2 r1 ∧
    ((S (size (olds r c')) mod GC_THRESHOLD)%nat ≠ 0%nat → r2 = r1)) as (r2 & -> & Hch2 & Hb2 & Ht2 & Hf2 & Hsame).
  { rewrite map_size_insert_None by done. case_decide as Hg.
    - destruct (gc_ok now' c' (ver + 1) _ r1 Hch Hl Hsg) as (r2 & -> & Hch2 & Hb2 & Ht2 & Hf2). exists r2. split_and!; try done.
    - exists r1. split_and!; try done. by intros c0 k w. }
  cbn [mbind result_bind]. rewrite Ht2.
  destruct (check_all_ok now' c' (getCurrentVersion r c') ids (rtxn_tracker r)) as [[Hs ->]|(t' & -> & Hview)]; [by left|right].
  cbn [mbind result_bind set_tracker base]. rewrite Hb2.
  pose proof (row_step_refines (base r) _ (Update c' v) Hb (or_intror Hv)) as Hst. cbn [tuple_step row_step] in Hst.
  unfold column_lookup in Hst. rewrite decide_True in Hst by lia. cbn [t_values t_readonly t_linked] in Hst. unfold c' in Hst. rewrite Nat2Z.id, Hc in Hst.
  rewrite decide_True in Hst by done. fold c' in Hst. destruct Hst as (b & Hu & Hb' & _).
  destruct (update (base r) c' v) as [[b' es]| |] eqn:Hup; cbn in Hu; simplify_eq. cbn [mbind result_bind]. eexists _, _. split; [done|].
  split; [split; [exact Hb'|by destruct Hch2; split]|]. split; [exact Hview|]. split.
  - intros c0 k w Hw%Hf2. rewrite Ho in Hw. case_decide; [subst|by right]. apply lookup_insert_Some in Hw as [[<- <-]|[_ ?]]; [by left|by right].
  - intros Hg c0. rewrite <-Ho. by rewrite <-(Hsame Hg).
Qed.

(** A read returns the old value its version names if that is kept, and the current
    one otherwise. *)
Definition read_result (r : RO6Row) (vs : list Value) (c : nat) (id : Z) : option Value :=
  match olds r (Z.of_nat c) !! default 0 (fst <$> reader (rtxn_tracker r) (Z.of_nat c) id) with Some v => Some v | None => vs !! c end.

Lemma read_ok r ver now now' vs h c id :
  versions_ok r ver now vs h → now ≤ now' → is_Some (vs !! c) →
  (stale (rtxn_tracker r) now' (Z.of_nat c) ∧ get_column_for now' (Z.of_nat c) id r = Crash invalid_access) ∨
  ∃ r' v, get_column_for now' (Z.of_nat c) id r = Done (r', v) ∧ Some v = read_result r vs c id ∧ versions_ok r' ver now' vs h ∧ old_values_ r' = old_values_ r ∧
    ∀ c' id', reader (rtxn_tracker r') c' id' =
      if decide (c' = Z.of_nat c ∧ id' = id) then Some (recorded_as false 0 now' (reader (rtxn_tracker r) (Z.of_nat c) id)) else reader (rtxn_tracker r) c' id'.
Proof.
  intros Hok Hnow [cur Hc]. pose proof Hok as [Hb [C1 CU C2 C3 C4 C5]]. unfold get_column_for.
  destruct (check_ok now' (Z.of_nat c) id false 0 (rtxn_tracker r)) as [[Hs ->]|(t' & -> & Ht)]; [by left|right]. cbn [mbind result_bind].
  set (k := default 0 (fst <$> reader (rtxn_tracker r) (Z.of_nat c) id)).
  assert (get_column (base r) (Z.of_nat c) = Done cur) as Hcur by (by apply (rows_by_column (base r) vs); [apply Hb|]).
  cbn [base set_tracker]. rewrite Hcur. replace (if decide (k = 0) then Done cur else Done VUnknown) with (Done (if decide (k = 0) then cur else VUnknown))
    by (by case_decide). cbn [mbind result_bind]. unfold get_column_by_version.
  change (olds (set_tracker t' r) (Z.of_nat c)) with (olds r (Z.of_nat c)). cbn [base set_tracker]. rewrite Hcur.
  assert (versions_ok (set_tracker t' r) ver now' vs h) as Hok'.
  { split; [exact Hb|]. split; [exact C1|exact CU|exact C2|exact C3| |exact C5]. intros c' t j Hj. destruct (C4 c' t j Hj). split; [lia|done]. }
  unfold read_result. fold k. destruct (olds r (Z.of_nat c) !! k) as [w|]; cbn [mbind result_bind]; eexists _, _; split_and!; done.
Qed.

(** ** Sequences of operations on a row *)

Inductive ro6_op :=
  | Write (now : Z) (c : nat) (v : Value) (ids : list Z)
  | ReadFor (now : Z) (c : nat) (id : Z)
  | ReadIds (now : Z) (c : nat).

Definition op_time (o : ro6_op) : Z := match o with Write now _ _ _ | ReadFor now _ _ | ReadIds now _ => now end.
Definition op_column (o : ro6_op) : nat := match o with Write _ c _ _ | ReadFor _ c _ | ReadIds _ c => c end.

Definition ro6_step (s : RO6Row * Z) (o : ro6_op) : result (RO6Row * Z) :=
  match o with
  | Write now c v ids => '(r, ver, _) ← update_internal now (Z.of_nat c) v ids s.2 s.1; Done (r, ver)
  | ReadFor now c id => '(r, _) ← get_column_for now (Z.of_nat c) id s.1; Done (r, s.2)
  | ReadIds now c => '(t, _) ← getReadTxnIds now (Z.of_nat c) (rtxn_tracker s.1); Done (set_tracker t s.1, s.2)
  end.

(** The values and the history of (version, column, value overwritten). *)
Definition spec_op (s : list Value * list (Z * Z * Value)) (o : ro6_op) : list Value * list (Z * Z * Value) :=
  match o with
  | Write _ c v _ => (<[c := v]> s.1, s.2 ++ [(Z.of_nat (length s.2) + 1, Z.of_nat c, default VUnknown (s.1 !! c))])
  | _ => s
  end.

(** Time does not go back, and writes have the kind of their column. *)
Fixpoint ops_valid (now : Z) (vs : list Value) (os : list ro6_op) : Prop :=
  match os with
  | [] => True
  | o :: os =>
      now ≤ op_time o ∧ is_Some (vs !! op_column o) ∧
      match o with Write _ c v _ => value_ok v ∧ get_kind <$> vs !! c = Some (get_kind v) | _ => True end ∧
      ops_valid (op_time o) (spec_op (vs, []) o).1 os
  end.

Definition end_time (now : Z) (os : list ro6_op) : Z := default now (last (op_time <$> os)).

Lemma step_ok r now vs h o :
  versions_ok r (Z.of_nat (length h)) now vs h → ops_valid now vs [o] →
  (stale (rtxn_tracker r) (op_time o) (Z.of_nat (op_column o)) ∧ ro6_step (r, Z.of_nat (length h)) o = Crash invalid_access) ∨
  ∃ r', ro6_step (r, Z.of_nat (length h)) o = Done (r', Z.of_nat (length (spec_op (vs, h) o).2)) ∧
    versions_ok r' (Z.of_nat (length (spec_op (vs, h) o).2)) (op_time o) (spec_op (vs, h) o).1 (spec_op (vs, h) o).2.
Proof.
  intros Hok (Hnow & [old Hc] & Hty & _). destruct o as [t c v ids|t c id|t c]; cbn [op_time op_column ro6_step spec_op fst snd] in *.
  - rewrite Hc in Hty. destruct Hty as [Hv [= Hk]]. destruct (write_ok r _ now t vs h c v ids old Hok) as [[Hs ->]|(r' & es & -> & Hok' & _)];
      [lia|done..|by left|right]. cbn [mbind result_bind]. exists r'. rewrite length_app, Hc. cbn. rewrite Nat2Z.inj_add. done.
  - destruct (read_ok r _ now t vs h c id Hok) as [[Hs ->]|(r' & v & -> & _ & Hok' & _)]; [done..|by left|right]. cbn [mbind result_bind]. eauto.
  - destruct (ids_ok t (Z.of_nat c) (rtxn_tracker r)) as [[Hs ->]|(t' & ids & -> & Ht & _)]; [by left|right]. cbn [mbind result_bind].
    exists (set_tracker t' r). split; [done|]. destruct Hok as [Hb [C1 CU C2 C3 C4 C5]]. split; [exact Hb|].
    split; [exact C1|exact CU|exact C2|exact C3| |exact C5]. intros c' s k Hk. destruct (C4 c' s k Hk). split; [lia|done].
Qed.

Lemma spec_values vs h h' o : (spec_op (vs, h) o).1 = (spec_op (vs, h') o).1.
Proof. by destruct o. Qed.

(** A run stops at an entry that the loops over the readers erase. *)
Definition stale_point (os : list ro6_op) (s : RO6Row * Z) : Prop :=
  ∃ os1 o os2 s1, os = os1 ++ o :: os2 ∧ for_each ro6_step os1 s = Done s1 ∧ ro6_step s1 o = Crash invalid_access ∧
    stale (rtxn_tracker s1.1) (op_time o) (Z.of_nat (op_column o)).

Lemma ro6_run_ok os r now vs h :
  versions_ok r (Z.of_nat (length h)) now vs h → ops_valid now vs os →
  let vh := foldl spec_op (vs, h) os in
  (for_each ro6_step os (r, Z.of_nat (length h)) = Crash invalid_access ∧ stale_point os (r, Z.of_nat (length h))) ∨
  ∃ r', for_each ro6_step os (r, Z.of_nat (length h)) = Done (r', Z.of_nat (length vh.2)) ∧
    versions_ok r' (Z.of_nat (length vh.2)) (end_time now os) vh.1 vh.2.
Proof.
  revert r now vs h. induction os as [|o os IH]; intros r now vs h Hok Hval; cbn zeta; [right; by exists r|].
  destruct Hval as (H1 & H2 & H3 & Hval). cbn [for_each foldl].
  destruct (step_ok r now vs h o Hok) as [[Hs Hst]|(r1 & Hst & Hok1)]; [by repeat split|left|]; rewrite Hst; cbn [mbind result_bind].
  - split; [done|]. by exists [], o, os, (r, Z.of_nat (length h)).
  - destruct (spec_op (vs, h) o) as [vs1 h1] eqn:Hsp. cbn [fst snd] in *.
    assert (ops_valid (op_time o) vs1 os) as Hval1 by (rewrite (spec_values vs [] h o), Hsp in Hval; done).
    destruct (IH r1 (op_time o) vs1 h1 Hok1 Hval1) as [[-> (os1 & o' & os2 & s1 & -> & Hs1 & ?)]|(r' & Hr' & Hok')]; [left|right].
    + split; [done|]. exists (o :: os1), o', os2, s1. split; [done|]. split; [|done]. cbn. by rewrite Hst.
    + exists r'. split; [done|]. unfold end_time in *. cbn [fmap list_fmap]. rewrite last_cons. by destruct (last (op_time <$> os)).
Qed.

Lemma create_versions sops s values now :
  for_each schema_step sops Schema_new = Done s → Forall value_ok values → get_kind <$> values = take (columns_count s) (kinds s) →
  ∃ r, ro6_create s values = Done r ∧ versions_ok r 0 now (values ++ hidden_values s) [].
Proof.
  intros Hs Hv Hk. destruct (schema_runs_ok sops _ schema_new_ok) as [Hc|(s' & Hs' & Hok)]; [congruence|].
  assert (s' = s) as -> by congruence. destruct (create_rep s values Hok Hv Hk) as (r & Hr & Hrep & Hro & Htb & Hsc).
  unfold ro6_create. rewrite Hr. eexists. split; [done|]. split; [by split|].
  assert (∀ c, olds (mkRO6Row r Tracker_new ∅ ∅) c = ∅) as Ho by (intros c; unfold olds; cbn; by rewrite lookup_empty).
  assert (∀ c, segs (mkRO6Row r Tracker_new ∅ ∅) c = ∅) as Hg by (intros c; unfold segs; cbn; by rewrite lookup_empty).
  split; [by intros k c v ?%not_elem_of_nil|by intros k c c' v v' ?%not_elem_of_nil|..].
  - intros c k v. by rewrite Ho, lookup_empty.
  - by intros c k v ?%not_elem_of_nil.
  - intros c t k. by rewrite Hg, lookup_empty.
  - intros c t1 t2 k1 k2. by rewrite Hg, lookup_empty.
Qed.

(** A run from a new row that returned. *)
Lemma run_created os r0 now vs s1 :
  versions_ok r0 0 now vs [] → ops_valid now vs os → for_each ro6_step os (r0, 0) = Done s1 →
  let vh := foldl spec_op (vs, []) os in
  s1.2 = Z.of_nat (length vh.2) ∧ versions_ok s1.1 (Z.of_nat (length vh.2)) (end_time now os) vh.1 vh.2.
Proof.
  intros Hok Hval Hrun. pose proof (ro6_run_ok os r0 now vs [] Hok Hval) as [[Hbad _]|(r & Hr & Hok')];
    change (Z.of_nat (length [])) with 0 in *; [congruence|]. cbn zeta in *. rewrite Hrun in Hr. by simplify_eq.
Qed.

Lemma ops_valid_app now vs h os1 os2 :
  ops_valid now vs (os1 ++ os2) →
  ops_valid now vs os1 ∧ ops_valid (end_time now os1) (foldl spec_op (vs, h) os1).1 os2.
Proof.
  revert now vs h. induction os1 as [|o os1 IH]; intros now vs h Hval; [done|]. destruct Hval as (H1 & H2 & H3 & Hval).
  rewrite (spec_values vs [] h o) in Hval. cbn [foldl]. destruct (spec_op (vs, h) o) as [vs1 h1] eqn:Hsp. cbn [fst] in Hval.
  destruct (IH (op_time o) vs1 h1 Hval) as [Hv1 Hv2]. split.
  - repeat split; try done. by rewrite (spec_values vs [] h o), Hsp.
  - unfold end_time in *. cbn [fmap list_fmap]. rewrite last_cons. by destruct (last (op_time <$> os1)).
Qed.

(** A reader that was given version [k], under which [u] is kept, over one operation. *)
Definition pinned (r : RO6Row) (c : nat) (id k t : Z) (u : Value) : Prop :=
  reader (rtxn_tracker r) (Z.of_nat c) id = Some (k, t) ∧ ∀ w, olds r (Z.of_nat c) !! k = Some w → w = u.

Lemma pinned_step r now vs h o r' c id k t u :
  versions_ok r (Z.of_nat (length h)) now vs h → ops_valid now vs [o] → (∃ w, (k, Z.of_nat c, w) ∈ h) →
  pinned r c id k t u → ro6_step (r, Z.of_nat (length h)) o = Done (r', Z.of_nat (length (spec_op (vs, h) o).2)) → pinned r' c id k t u.
Proof.
  intros Hok (Hnow & [old Hc] & Hty & _) [w0 Hin] [Hrd Hu]. pose proof Hok as [_ Hch].
  destruct o as [t0 c0 v ids|t0 c0 j|t0 c0]; cbn [op_time op_column ro6_step spec_op fst snd] in *.
  - rewrite Hc in Hty. destruct Hty as [Hv [= Hk]].
    destruct (write_ok r _ now t0 vs h c0 v ids old Hok) as [[_ ->]|(r1 & es & -> & _ & Hview & Hold & _)]; [lia|done..|].
    cbn [mbind result_bind]. intros [= -> _]. split.
    + rewrite Hview. case_decide as Hd; [|done]. destruct Hd as [Heq _]. rewrite <-Heq, Hrd. cbn. do 2 f_equal.
      destruct (current_version r _ now h (Z.of_nat c) Hch) as [[_ Hno]|[_ Hmax]]; [by destruct (Hno k w0)|]. pose proof (Hmax k w0 Hin). lia.
    + intros w [(-> & _ & _)|Hw]%Hold; [|by apply Hu]. pose proof (ch_range _ _ _ _ Hch _ _ _ Hin). lia.
  - destruct (read_ok r _ now t0 vs h c0 j Hok) as [[_ ->]|(r1 & v & -> & _ & _ & Ho & Hr1)]; [done..|]. cbn [mbind result_bind]. intros [= ->]. split.
    + rewrite Hr1. case_decide as Hd; [|done]. destruct Hd as [Heq ->]. by rewrite <-Heq, Hrd.
    + unfold olds. rewrite Ho. apply Hu.
  - destruct (ids_ok t0 (Z.of_nat c0) (rtxn_tracker r)) as [[_ ->]|(t' & ids & -> & Ht & _)]; [done|]. cbn [mbind result_bind]. intros [= <-].
    split; [|exact Hu]. unfold reader in *. cbn. by rewrite Ht.
Qed.

Lemma pinned_run os r now vs h s c id k t u :
  versions_ok r (Z.of_nat (length h)) now vs h → ops_valid now vs os → (∃ w, (k, Z.of_nat c, w) ∈ h) → pinned r c id k t u →
  for_each ro6_step os (r, Z.of_nat (length h)) = Done s → pinned s.1 c id k t u.
Proof.
  revert r now vs h. induction os as [|o os IH]; intros r now vs h Hok Hval Hin Hp; cbn [for_each]; [by intros [= <-]|].
  destruct Hval as (H1 & H2 & H3 & Hval).
  destruct (step_ok r now vs h o Hok) as [[_ Hst]|(r1 & Hst & Hok1)]; [by repeat split|by rewrite Hst|]. rewrite Hst. cbn [mbind result_bind].
  assert (pinned r1 c id k t u) as Hp1 by (by eapply (pinned_step r now vs h o)).
  assert (∃ w, (k, Z.of_nat c, w) ∈ (spec_op (vs, h) o).2) as Hin1 by (destruct Hin as [w Hw]; exists w; destruct o; cbn; set_solver).
  destruct (spec_op (vs, h) o) as [vs1 h1] eqn:Hsp. cbn [fst snd] in *. apply (IH r1 (op_time o) vs1 h1); [done| |done|done].
  by rewrite (spec_values vs [] h o), Hsp in Hval.
Qed.

(** ** The theorems *)

(** C28: the old versions of a row are the history of its columns.  Whatever writes and
    reads come in, with garbage collection in between, a row holds the values last
    written; every version it keeps holds the value that the write of that number
    overwrote; the newest version of every column is kept; and no iterator of the
    collector dangles.  The only other outcome is the undefined behaviour of a loop
    that erases from the map it runs over, at a reader recorded more than
    [VERSION_SAFE_TIME] ago. *)
Theorem ro6_versions_are_history sops s values now os :
  for_each schema_step sops Schema_new = Done s → Forall value_ok values → get_kind <$> values = take (columns_count s) (kinds s) →
  ops_valid now (values ++ hidden_values s) os →
  let vh := foldl spec_op (values ++ hidden_values s, []) os in
  ∃ r0, ro6_create s values = Done r0 ∧
    ((for_each ro6_step os (r0, 0) = Crash invalid_access ∧ stale_point os (r0, 0)) ∨
     ∃ r, for_each ro6_step os (r0, 0) = Done (r, Z.of_nat (length vh.2)) ∧
       versions_ok r (Z.of_nat (length vh.2)) (end_time now os) vh.1 vh.2).
Proof.
  intros Hs Hv Hk Hval. destruct (create_versions sops s values now Hs Hv Hk) as (r0 & Hr0 & Hok). exists r0. split; [done|].
  exact (ro6_run_ok os r0 now _ [] Hok Hval).
Qed.

(** Reads repeat.  A read-only transaction that was given a version of a column gets
    the value kept under it in every later read, whatever is written in between, unless
    that version has been collected. *)
Theorem ro6_reads_repeat sops s values now os1 os2 r0 r1 r2 r3 v1 v2 c id k t u now' x :
  for_each schema_step sops Schema_new = Done s → Forall value_ok values → get_kind <$> values = take (columns_count s) (kinds s) →
  ro6_create s values = Done r0 → ops_valid now (values ++ hidden_values s) (os1 ++ os2 ++ [ReadFor now' c id]) →
  for_each ro6_step os1 (r0, 0) = Done (r1, v1) →
  reader (rtxn_tracker r1) (Z.of_nat c) id = Some (k, t) → olds r1 (Z.of_nat c) !! k = Some u →
  for_each ro6_step os2 (r1, v1) = Done (r2, v2) → get_column_for now' (Z.of_nat c) id r2 = Done (r3, x) →
  x = u ∨ olds r2 (Z.of_nat c) !! k = None.
Proof.
  intros Hs Hv Hk Hr0 Hval Hrun1 Hrd Hu Hrun2 Hget. destruct (create_versions sops s values now Hs Hv Hk) as (r0' & Hr0' & Hok).
  assert (r0' = r0) as -> by congruence. set (vs := values ++ hidden_values s) in *.
  destruct (ops_valid_app now vs [] os1 _ Hval) as [Hval1 Hval2]. set (vh1 := foldl spec_op (vs, []) os1) in *.
  destruct (run_created os1 r0 now vs _ Hok Hval1 Hrun1) as [Hv1 Hok1]. cbn [fst snd] in Hv1, Hok1. fold vh1 in Hv1, Hok1. subst v1. rename r1 into r1'. destruct (ops_valid_app _ _ vh1.2 os2 _ Hval2) as [Hval3 Hval4].
  assert (pinned r1' c id k t u) as Hp by (split; [done|]; intros w Hw; congruence).
  assert (∃ w, (k, Z.of_nat c, w) ∈ vh1.2) as Hin by (exists u; by apply (ch_olds _ _ _ _ (proj2 Hok1))).
  pose proof (pinned_run os2 r1' _ _ _ _ c id k t u Hok1 Hval3 Hin Hp Hrun2) as [Hrd2 Hu2]. cbn [fst] in *.
  destruct (ro6_run_ok os2 r1' _ _ _ Hok1 Hval3) as [[Hbad _]|(r2' & Hr2 & Hok2)]; [congruence|]. rewrite Hrun2 in Hr2. simplify_eq.
  rewrite <-surjective_pairing in Hval4. destruct Hval4 as (Hn & Hc & _). cbn [op_time op_column] in *. rewrite <-surjective_pairing in Hok2.
  destruct (read_ok r2' _ _ now' _ _ c id Hok2 Hn) as [[_ Hbad]|(r3' & x' & Hg & Hx & _)]; [done|congruence|].
  rewrite Hget in Hg. simplify_eq. unfold read_result in Hx. rewrite Hrd2 in Hx. cbn in Hx.
  destruct (olds r2' (Z.of_nat c) !! k) as [w|] eqn:Hw; [|by right]. left. simplify_eq. by apply Hu2.
Qed.

(** The version a reader is given is one write too old.  A write that is told about a
    new reader of its column, before any collection, records the newest version; what
    is kept under it is the value the previous write overwrote, not the value the
    reader has to see.  A reader then gets the value from before the previous write;
    when there was none it gets the new value. *)
Theorem ro6_reader_misses_last_write sops s values now os r0 r ver t c v ids id r1 ver1 t' r2 x :
  for_each schema_step sops Schema_new = Done s → Forall value_ok values → get_kind <$> values = take (columns_count s) (kinds s) →
  ro6_create s values = Done r0 → ops_valid now (values ++ hidden_values s) (os ++ [Write t c v ids; ReadFor t' c id]) →
  for_each ro6_step os (r0, 0) = Done (r, ver) →
  reader (rtxn_tracker r) (Z.of_nat c) id = None → id ∈ ids → (S (size (olds r (Z.of_nat c))) mod GC_THRESHOLD)%nat ≠ 0%nat →
  ro6_step (r, ver) (Write t c v ids) = Done (r1, ver1) → get_column_for t' (Z.of_nat c) id r1 = Done (r2, x) →
  let h := (foldl spec_op (values ++ hidden_values s, []) os).2 in
  ((∀ k w, (k, Z.of_nat c, w) ∉ h) ∧ x = v) ∨
  ∃ k, (k, Z.of_nat c, x) ∈ h ∧ ∀ k' w, (k', Z.of_nat c, w) ∈ h → k' ≤ k.
Proof.
  intros Hs Hv Hk Hr0 Hval Hrun Hrd Hid Hgc Hw Hget. cbn zeta. destruct (create_versions sops s values now Hs Hv Hk) as (r0' & Hr0' & Hok).
  assert (r0' = r0) as -> by congruence. set (vs := values ++ hidden_values s) in *.
  destruct (ops_valid_app now vs [] os _ Hval) as [Hval1 (Hn1 & [old Hc] & Hty & Hn2 & Hc2 & _)]. set (vh := foldl spec_op (vs, []) os) in *.
  destruct (run_created os r0 now vs _ Hok Hval1 Hrun) as [Hver Hok1]. cbn [fst snd] in Hver, Hok1. fold vh in Hver, Hok1. subst ver. rename r into r'.
  cbn [ro6_step op_time op_column fst snd spec_op] in *. rewrite Hc in Hty. destruct Hty as [Hvv [= Hkk]].
  destruct (write_ok r' _ _ t vh.1 vh.2 c v ids old Hok1) as [[_ Hbad]|(r1' & es & Hw' & Hok2 & Hview & _ & Hold)]; [lia|done..|by rewrite Hbad in Hw|].
  rewrite Hw' in Hw. cbn in Hw. simplify_eq.
  destruct (read_ok r1 _ t t' _ _ c id Hok2 Hn2 Hc2) as [[_ Hbad]|(r2' & x' & Hg & Hx & _)]; [congruence|]. rewrite Hget in Hg. simplify_eq.
  unfold read_result in Hx. rewrite (Hold Hgc), decide_True in Hx by done. rewrite Hview, decide_True, Hrd in Hx by done. cbn in Hx.
  pose proof (proj2 Hok1) as Hch. destruct (current_version r' _ _ _ (Z.of_nat c) Hch) as [[Hz Hno]|[(u & Hin & Hu) Hmax]].
  - left. split; [done|]. rewrite Hz in Hx. rewrite lookup_insert_ne in Hx by lia. rewrite list_lookup_insert_eq in Hx by (by eapply lookup_lt_Some).
    destruct (olds r' (Z.of_nat c) !! 0) as [w|] eqn:Hw0; [|by simplify_eq]. pose proof (ch_range _ _ _ _ Hch _ _ _ (ch_olds _ _ _ _ Hch _ _ _ Hw0)). lia.
  - right. exists (getCurrentVersion r' (Z.of_nat c)). pose proof (ch_range _ _ _ _ Hch _ _ _ Hin) as Hrange.
    rewrite lookup_insert_ne, Hu in Hx by lia. simplify_eq. done.
Qed.

(** ** Runs *)

Definition one_column : Schema := match for_each schema_step [AddColumn [97] I64 true] Schema_new with Done s => s | _ => Schema_new end.
Definition demo_row : RO6Row := match ro6_create one_column [VI64 10] with Done r => r | _ => mkRO6Row (mkRow [] (SPARSE_ []) false false Schema_new) Tracker_new ∅ ∅ end.
Definition demo_run (os : list ro6_op) : RO6Row * Z := match for_each ro6_step os (demo_row, 0) with Done s => s | _ => (demo_row, 0) end.
Definition demo_read (now id : Z) (s : RO6Row * Z) : RO6Row * Value := match get_column_for now 0 id s.1 with Done x => x | _ => (s.1, VUnknown) end.

(** The column was 10, then 20; a write of 30 is told about reader 7. *)
Definition demo_ops : list ro6_op := [Write 1000 0 (VI64 20) []; Write 2000 0 (VI64 30) [7]].

Lemma ro6_versions_are_history_witness :
  let vh := foldl spec_op ([VI64 10], []) demo_ops in
  vh = ([VI64 30], [(1, 0, VI64 10); (2, 0, VI64 20)]) ∧
  ∃ r0, ro6_create one_column [VI64 10] = Done r0 ∧
    ((for_each ro6_step demo_ops (r0, 0) = Crash invalid_access ∧ stale_point demo_ops (r0, 0)) ∨
     ∃ r, for_each ro6_step demo_ops (r0, 0) = Done (r, Z.of_nat (length vh.2)) ∧
       versions_ok r (Z.of_nat (length vh.2)) (end_time 0 demo_ops) vh.1 vh.2).
Proof.
  cbn zeta. split; [vm_compute; reflexivity|].
  apply (ro6_versions_are_history [AddColumn [97] I64 true] one_column [VI64 10] 0 demo_ops).
  - vm_compute. reflexivity.
  - apply Forall_singleton. cbn. lia.
  - vm_compute. reflexivity.
  - cbn. repeat split; try lia; eauto.
Defined.

Lemma ro6_reads_repeat_witness :
  (demo_read 3000 7 (demo_run (demo_ops ++ [Write 2500 0 (VI64 40) [7]]))).2 = VI64 10 ∨
  olds (demo_run (demo_ops ++ [Write 2500 0 (VI64 40) [7]])).1 (Z.of_nat 0) !! 1 = None.
Proof.
  apply (ro6_reads_repeat [AddColumn [97] I64 true] one_column [VI64 10] 0 demo_ops [Write 2500 0 (VI64 40) [7]] demo_row
    (demo_run demo_ops).1 (demo_run (demo_ops ++ [Write 2500 0 (VI64 40) [7]])).1 (demo_read 3000 7 (demo_run (demo_ops ++ [Write 2500 0 (VI64 40) [7]]))).1
    2 3 0 7 1 2000 (VI64 10) 3000).
  - vm_compute. reflexivity.
  - apply Forall_singleton. cbn. lia.
  - vm_compute. reflexivity.
  - vm_compute. reflexivity.
  - cbn. repeat split; try lia; eauto.
  - vm_compute. reflexivity.
  - vm_compute. reflexivity.
  - vm_compute. reflexivity.
  - vm_compute. reflexivity.
  - vm_compute. reflexivity.
Defined.

Lemma ro6_reader_misses_last_write_witness :
  (demo_read 2500 7 (demo_run demo_ops)).2 = VI64 10 ∧
  let h := (foldl spec_op ([VI64 10], []) [Write 1000 0 (VI64 20) []]).2 in
  ((∀ k w, (k, Z.of_nat 0, w) ∉ h) ∧ (demo_read 2500 7 (demo_run demo_ops)).2 = VI64 30) ∨
  ∃ k, (k, Z.of_nat 0, (demo_read 2500 7 (demo_run demo_ops)).2) ∈ h ∧ ∀ k' w, (k', Z.of_nat 0, w) ∈ h → k' ≤ k.
Proof.
  split; [vm_compute; reflexivity|].
  apply (ro6_reader_misses_last_write [AddColumn [97] I64 true] one_column [VI64 10] 0 [Write 1000 0 (VI64 20) []] demo_row
    (demo_run [Write 1000 0 (VI64 20) []]).1 1 2000 0 (VI64 30) [7] 7 (demo_run demo_ops).1 2 2500 (demo_read 2500 7 (demo_run demo_ops)).1).
  - vm_compute. reflexivity.
  - apply Forall_singleton. cbn. lia.
  - vm_compute. reflexivity.
  - vm_compute. reflexivity.
  - cbn. repeat split; try lia; eauto.
  - vm_compute. reflexivity.
  - vm_compute. reflexivity.
  - by left.
  - vm_compute. congruence.
  - vm_compute. reflexivity.
  - vm_compute. reflexivity.
Defined.

(** A row that is read again after [VERSION_SAFE_TIME] erases the old reader inside the
    loop over the readers. *)
Theorem ro6_old_reader_erased_in_loop :
  for_each ro6_step [ReadFor 1000 0 7; ReadFor 7000 0 8] (demo_row, 0) = Crash invalid_access.
Proof. vm_compute. reflexivity. Qed.

(** The collector removes a version that a reader was given a millisecond ago: version 1
    was the newest when the time 0 was noted, and still was when reader 7 got it. *)
Theorem ro6_fresh_version_collected :
  let r := mkRO6Row (base demo_row) (mkTracker {[0 := {[7 := (1, 5999)]}]} {[0 := 5999]}) {[0 := {[1 := VI64 3; 2 := VI64 4]}]} {[0 := {[0 := 1]}]} in
  (∃ h, chain_ok r 2 6000 h) ∧
  (∃ r', garbageCollection 6000 0 2 r = Done r' ∧ get_column_for 6000 0 7 r ≫= (λ x, Done x.2) = Done (VI64 3) ∧
     get_column_for 6000 0 7 r' ≫= (λ x, Done x.2) = Done (VI64 10)).
Proof.
  cbn zeta. split.
  - exists [(1, 0, VI64 3); (2, 0, VI64 4)].
    assert (∀ (m : gmap Z (gmap Z Value)) c, m = {[0 := {[1 := VI64 3; 2 := VI64 4]}]} → default ∅ (m !! c) = if decide (c = 0) then {[1 := VI64 3; 2 := VI64 4]} else ∅) as Ho.
    { intros m c ->. case_decide; [subst; by rewrite lookup_singleton_eq|by rewrite lookup_singleton_ne]. }
    assert (∀ (m : gmap Z (gmap Z Z)) c, m = {[0 := {[0 := 1]}]} → default ∅ (m !! c) = if decide (c = 0) then {[0 := 1]} else ∅) as Hs.
    { intros m c ->. case_decide; [subst; by rewrite lookup_singleton_eq|by rewrite lookup_singleton_ne]. }
    split; unfold olds, segs; cbn [old_values_ time_segment].
    + intros k c v. rewrite !elem_of_cons, elem_of_nil. intros [[= -> -> ->]|[[= -> -> ->]|[]]]; lia.
    + intros k c c' v v' H1 H2. rewrite !elem_of_cons, !elem_of_nil in *. destruct H1 as [H1|[H1|[]]], H2 as [H2|[H2|[]]]; congruence.
    + intros c k v. rewrite Ho by done. case_decide; [|by rewrite lookup_empty]. subst. rewrite !elem_of_cons.
      intros [[<- <-]|[? [<- <-]%lookup_singleton_Some]]%lookup_insert_Some; [by left|by right; left].
    + intros c k v. rewrite !elem_of_cons, elem_of_nil. intros [[= -> -> ->]|[[= -> -> ->]|[]]]; rewrite Ho by done; exists 2; (split; [vm_compute; reflexivity|lia]).
    + intros c t k. rewrite Hs, Ho by done. case_decide; [|by rewrite lookup_empty]. intros [<- <-]%lookup_singleton_Some. split; [lia|]. by exists (VI64 3).
    + intros c t1 t2 k1 k2. rewrite Hs by done. case_decide; [|by rewrite lookup_empty]. intros [<- <-]%lookup_singleton_Some [<- <-]%lookup_singleton_Some. lia.
  - eexists. split; [vm_compute; reflexivity|]. split; vm_compute; reflexivity.
Qed.
