(* ===== verification/RO6.v ===== *)
(** * RO6: transactions of the dependency protocol with read-only transactions

    Models src/rococo-dst/deptran/ro6/ro6.{hpp,cpp}: [RO6DTxn] on top of the server of
    Rcc.v and the rows of RO6Row.v.  A write transaction collects, from the columns its
    pieces touch, the read-only transactions seen there; the coordinator hands the
    union of these to every server with the finish request, and the server notes them
    at the columns the transaction touched before it commits as in Rcc.v.

    [RO6DTxn::start_ro], which runs the handler of the piece a second time when the
    conflicting transactions are decided, is not modelled; the reads of that second run
    are [read_column]. *)

From S2P Require Import Prelude Graph GraphSearch Rcc SparseInt MemRow MemRowSpec RO6Row RO6Spec.

(** [ro_] and [row_col_map] of every transaction, and the rows of the server. *)
Record RO6Server := mkRO6Server {
  rcc : Server;
  rows : gmap Z RO6Row;
  ro_ : gmap Z (gset Z);
  row_col_map : gmap Z (gset (Z * Z));
}.

Definition set_rcc (x : Server) (s : RO6Server) : RO6Server := mkRO6Server x (rows s) (ro_ s) (row_col_map s).
Definition set_rows (m : gmap Z RO6Row) (s : RO6Server) : RO6Server := mkRO6Server (rcc s) m (ro_ s) (row_col_map s).

Definition ro_of (s : RO6Server) (tid : Z) : gset Z := default ∅ (ro_ s !! tid).
Definition touched (s : RO6Server) (tid : Z) : gset (Z * Z) := default ∅ (row_col_map s !! tid).

Definition get_row (s : RO6Server) (r : Z) : result RO6Row :=
  match rows s !! r with Some x => Done x | None => Crash invalid_access end.

Section ro6.
Context (site_id : Z) (ord : gset Z → list Z) (ordp : gset (Z * Z) → list (Z * Z)).
Context (columns : Z → Z) (registry : Z * Z → option handler).

(** [RO6DTxn::kiss] *)
Definition ro6_kiss (now tid : Z) (ro : bool) (s : RO6Server) (rci : Z * Z * bool) : result RO6Server :=
  x ← kiss columns tid ro (rcc s) rci;
  let s := set_rcc x s in
  if ro then Done s
  else
    let '(r, col) := rci.1 in
    row ← get_row s r;
    '(t, ro_ids) ← getReadTxnIds now col (rtxn_tracker row);
    Done (mkRO6Server (rcc s) (<[r := set_tracker t row]> (rows s))
            (<[tid := list_to_set ro_ids ∪ ro_of s tid]> (ro_ s)) (<[tid := {[(r, col)]} ∪ touched s tid]> (row_col_map s))).

(** [RO6DTxn::start]; the list of read-only transactions goes into the reply. *)
Definition ro6_start (now : Z) (h : RequestHeader) (s : RO6Server) : result (RO6Server * bool * list Z) :=
  '(x, ro, hd) ← start_begin site_id registry h (rcc s);
  s ← for_each (ro6_kiss now (h_tid h) ro) (hd_kiss hd) (set_rcc x s);
  let '(x, deferred) := start_end h hd (rcc s) in
  Done (set_rcc x s, deferred, merge_sort Z.le (elements (ro_of s (h_tid h)))).

(** [rcc_start_pie] of the service, which both protocols share. *)
Definition ro6_start_pie (now : Z) (h : RequestHeader) (s : RO6Server) : result (RO6Server * list Z) :=
  '(s, deferred, ro) ← ro6_start now h (set_rcc (get_or_create (h_tid h) false (rcc s)) s);
  '(gra, _) ← sub_txn_graph ord (txn_gra (rcc s)) (h_tid h) ∅;
  Done (set_rcc (emit (Started (h_tid h) (h_pid h) deferred gra) (rcc s)) s, ro).

(** The loops of [RO6DTxn::commit] over the columns and the read-only transactions. *)
Definition note_readers (now : Z) (ids : list Z) (m : gmap Z RO6Row) (rc : Z * Z) : result (gmap Z RO6Row) :=
  match m !! rc.1 with
  | None => Crash invalid_access
  | Some row =>
      let current_version := getCurrentVersion row rc.2 in
      t ← for_each (λ t id, '(t, _) ← checkIfTxnIdBeenRecorded now rc.2 id true current_version t; Done t) ids (rtxn_tracker row);
      Done (<[rc.1 := set_tracker t row]> m)
  end.

(** [RO6DTxn::commit], inside [rcc_finish_txn]. *)
Definition ro6_finish (now tid timestamp : Z) (gra : Graph) (defer : Z) (ids : list Z) (s : RO6Server) : result RO6Server :=
  _ ← verify (bool_decide (gra ≠ ∅));
  _ ← get_dtxn tid (rcc s);
  m ← for_each (note_readers now ids) (ordp (touched s tid)) (rows s);
  x ← commit site_id ord registry tid timestamp gra defer (rcc s);
  Done (set_rcc x (set_rows m s)).

(** [RO6DTxn::read_column] of a read-only transaction. *)
Definition read_column (now tid r col : Z) (s : RO6Server) : result (RO6Server * Value) :=
  row ← get_row s r;
  '(row, v) ← get_column_for now col tid row;
  Done (set_rows (<[r := row]> (rows s)) s, v).

(** A write of a piece that is executed: [RO6Row::update] with the noted readers. *)
Definition write_column (now r col : Z) (v : Value) (ids : list Z) (ver : Z) (s : RO6Server) : result (RO6Server * Z) :=
  row ← get_row s r;
  '(row, ver, _) ← update_internal now col v ids ver row;
  Done (set_rows (<[r := row]> (rows s)) s, ver).

(** ** Requests, those of read-only transactions apart *)

Inductive ro6_request :=
  | Start6 (now : Z) (h : RequestHeader)
  | Finish6 (now tid timestamp : Z) (gra : Graph) (defer : Z) (ids : list Z)
  | Ask6 (tid defer : Z)
  | Answer6 (av : Z) (gra : Graph)
  | Read6 (now tid r col : Z)
  | Write6 (now r col : Z) (v : Value) (ids : list Z) (ver : Z).

Definition lift (s : RO6Server) (m : result Server) : result RO6Server := x ← m; Done (set_rcc x s).

Definition ro6_serve (s : RO6Server) (q : ro6_request) : result RO6Server :=
  match q with
  | Start6 now h => '(s, _) ← ro6_start_pie now h s; Done s
  | Finish6 now tid ts gra defer ids => ro6_finish now tid ts gra defer ids s
  | Ask6 tid defer => lift s (rcc_ask_txn site_id ord registry tid defer (rcc s))
  | Answer6 av gra => lift s (ask_answer site_id ord registry av gra (rcc s))
  | Read6 now tid r col => '(s, _) ← read_column now tid r col s; Done s
  | Write6 now r col v ids ver => '(s, _) ← write_column now r col v ids ver s; Done s
  end.

(** What a request is to the dependency protocol: reads and writes of rows are none. *)
Definition as_rcc (q : ro6_request) : list request :=
  match q with
  | Start6 _ h => [Start h]
  | Finish6 _ tid ts gra defer _ => [Finish tid ts gra defer]
  | Ask6 tid defer => [Ask tid defer]
  | Answer6 av gra => [Answer av gra]
  | Read6 _ _ _ _ | Write6 _ _ _ _ _ _ => []
  end.

(** ** Refinement *)

Lemma bind_inv {A B} (m : result A) (k : A → result B) b : m ≫= k = Done b → ∃ a, m = Done a ∧ k a = Done b.
Proof. destruct m; cbn; [eauto|done..]. Qed.

Lemma kisses_refine now tid ro l s s' :
  for_each (ro6_kiss now tid ro) l s = Done s' → for_each (kiss columns tid ro) l (rcc s) = Done (rcc s').
Proof.
  revert s. induction l as [|rci l IH]; intros s; cbn [for_each]; [by intros [= <-]|].
  intros (s1 & H1 & H2)%bind_inv. unfold ro6_kiss in H1. apply bind_inv in H1 as (x & Hx & H1). rewrite Hx. cbn [mbind result_bind].
  assert (rcc s1 = x) as <-; [|by apply IH]. destruct ro; [by simplify_eq|]. destruct rci as [[r col] imm]. cbn in H1.
  apply bind_inv in H1 as (row & _ & H1). apply bind_inv in H1 as ([t ids] & _ & H1). by simplify_eq.
Qed.

Lemma serve_refines s q s' :
  ro6_serve s q = Done s' → for_each (serve site_id ord columns registry) (as_rcc q) (rcc s) = Done (rcc s').
Proof.
  assert (∀ (m : result Server), lift s m = Done s' → m ≫= (λ x, Done x) = Done (rcc s')) as Hlift.
  { intros m (x & -> & [= <-])%bind_inv. done. }
  destruct q as [now h|now tid ts gra defer ids|tid defer|av gra|now tid r col|now r col v ids ver]; cbn [ro6_serve as_rcc for_each serve].
  - intros ([s1 ro] & H1 & [= <-])%bind_inv. unfold ro6_start_pie in H1. apply bind_inv in H1 as ([[s2 deferred] ro2] & H2 & H1).
    apply bind_inv in H1 as ([gra n] & Hg & [= <- <-]). unfold ro6_start in H2. apply bind_inv in H2 as ([[x ro3] hd] & Hb & H2).
    apply bind_inv in H2 as (s3 & Hk & H2). apply kisses_refine in Hk. destruct (start_end h hd (rcc s3)) as [x3 d3] eqn:He. injection H2 as <- <- <-.
    unfold rcc_start_pie, start. cbn [rcc set_rcc] in *. rewrite Hb. cbn [mbind result_bind]. rewrite Hk. cbn [mbind result_bind]. rewrite He.
    cbn [mbind result_bind]. by rewrite Hg.
  - unfold ro6_finish, rcc_finish_txn. intros (u & Hv & (t & Ht & (m & _ & (x & Hx & [= <-])%bind_inv)%bind_inv)%bind_inv)%bind_inv.
    rewrite Hv. cbn [mbind result_bind]. rewrite Ht. cbn [mbind result_bind]. by rewrite Hx.
  - apply Hlift.
  - apply Hlift.
  - unfold read_column. intros ([s1 v] & (row & _ & ([row' v'] & _ & [= <- <-])%bind_inv)%bind_inv & [= <-])%bind_inv. done.
  - unfold write_column. intros ([s1 n] & (row & _ & ([[row' v'] es] & _ & [= <- <-])%bind_inv)%bind_inv & [= <-])%bind_inv. done.
Qed.

Lemma run_refines qs s s' :
  for_each ro6_serve qs s = Done s' → for_each (serve site_id ord columns registry) (qs ≫= as_rcc) (rcc s) = Done (rcc s').
Proof.
  revert s. induction qs as [|q qs IH]; intros s; cbn [for_each mbind list_bind]; [by intros [= <-]|].
  intros (s1 & H1 & H2)%bind_inv. rewrite for_each_app. rewrite (serve_refines _ _ _ H1). cbn [mbind result_bind]. by apply IH.
Qed.

(** ** The readers a piece reports *)

(** Readers noted in the rows of [s] for column [c] of row [r]. *)
Definition row_reader (m : gmap Z RO6Row) (r c id : Z) : option (Z * Z) := m !! r ≫= λ row, reader (rtxn_tracker row) c id.

Lemma kiss_collects now tid s rci s' :
  ro6_kiss now tid false s rci = Done s' →
  (∀ r c id, row_reader (rows s') r c id = row_reader (rows s) r c id) ∧ touched s' tid = {[rci.1]} ∪ touched s tid ∧
  ∀ id, id ∈ ro_of s' tid ↔ id ∈ ro_of s tid ∨ is_Some (row_reader (rows s) rci.1.1 rci.1.2 id).
Proof.
  unfold ro6_kiss. intros (x & _ & Hk)%bind_inv. destruct rci as [[r c] imm]. cbn [fst snd] in *.
  apply bind_inv in Hk as (row & Hrow & ([t ids] & Hids & [= <-])%bind_inv). unfold get_row in Hrow. cbn [rows set_rcc] in Hrow.
  destruct (rows s !! r) as [row'|] eqn:Hr; [|done]. simplify_eq.
  destruct (ids_ok now c (rtxn_tracker row)) as [[_ Hbad]|(t' & ids' & Hids' & Ht & Hin)]; [congruence|]. rewrite Hids in Hids'. simplify_eq.
  split_and!.
  - intros r' c' id. unfold row_reader. cbn. destruct (decide (r' = r)) as [->|]; [|by rewrite lookup_insert_ne]. rewrite lookup_insert_eq, Hr. cbn.
    unfold reader. by rewrite Ht.
  - unfold touched. cbn. by rewrite lookup_insert_eq.
  - intros id. unfold ro_of at 1. cbn. rewrite lookup_insert_eq. cbn. rewrite elem_of_union, elem_of_list_to_set, Hin.
    unfold row_reader. rewrite Hr. cbn. unfold ro_of. cbn. tauto.
Qed.

Lemma kisses_collect now tid l s s' :
  for_each (ro6_kiss now tid false) l s = Done s' →
  (∀ r c id, row_reader (rows s') r c id = row_reader (rows s) r c id) ∧
  (∀ rc, rc ∈ touched s' tid ↔ rc ∈ touched s tid ∨ rc ∈ l.*1) ∧
  ∀ id, id ∈ ro_of s' tid ↔ id ∈ ro_of s tid ∨ ∃ rci, rci ∈ l ∧ is_Some (row_reader (rows s) rci.1.1 rci.1.2 id).
Proof.
  revert s. induction l as [|rci l IH]; intros s; cbn [for_each].
  { intros [= <-]. split_and!; [done|set_solver|]. intros id. split; [by left|]. intros [?|(? & ?%not_elem_of_nil & _)]; done. }
  intros (s1 & (H1 & H2 & H3)%kiss_collects & (J1 & J2 & J3)%IH)%bind_inv. split_and!.
  - intros r c id. by rewrite J1.
  - intros rc. rewrite J2, H2. cbn. set_solver.
  - intros id. rewrite J3, H3. split.
    + intros [[?|?]|(rci' & ? & Hs)]; [by left|right; exists rci; set_solver|right; exists rci'; split; [set_solver|]]. by rewrite H1 in Hs.
    + intros [?|(rci' & [->|Hin]%elem_of_cons & Hs)]; [tauto|tauto|]. right. exists rci'. split; [done|]. by rewrite H1.
Qed.

End ro6.

(** ** The readers a commit notes *)

Lemma note_ok now ids m rc m' :
  note_readers now ids m rc = Done m' →
  ∀ r row, m !! r = Some row → ∃ t, m' !! r = Some (set_tracker t row) ∧
    ∀ c id, reader t c id = if decide ((r, c) = rc ∧ id ∈ ids) then Some (recorded_as true (getCurrentVersion row c) now (reader (rtxn_tracker row) c id))
                            else reader (rtxn_tracker row) c id.
Proof.
  unfold note_readers. destruct rc as [r0 c0]. cbn [fst snd]. destruct (m !! r0) as [row0|] eqn:Hr0; [|done].
  intros (t & Ht & [= <-])%bind_inv r row Hr.
  destruct (check_all_ok now c0 (getCurrentVersion row0 c0) ids (rtxn_tracker row0)) as [[_ Hbad]|(t' & Ht' & Hview)]; [congruence|].
  rewrite Ht in Ht'. simplify_eq. destruct (decide (r = r0)) as [->|Hne].
  - rewrite lookup_insert_eq. assert (row0 = row) as -> by congruence. exists t'. split; [done|]. intros c id. rewrite Hview.
    repeat case_decide; naive_solver.
  - rewrite lookup_insert_ne by done. exists (rtxn_tracker row). split; [by destruct row|]. intros c id. by rewrite decide_False by naive_solver.
Qed.

Lemma notes_ok now ids L m m' :
  for_each (note_readers now ids) L m = Done m' →
  ∀ r row, m !! r = Some row → ∃ t, m' !! r = Some (set_tracker t row) ∧
    ∀ c id, reader t c id = if decide ((r, c) ∈ L ∧ id ∈ ids) then Some (recorded_as true (getCurrentVersion row c) now (reader (rtxn_tracker row) c id))
                            else reader (rtxn_tracker row) c id.
Proof.
  revert m. induction L as [|rc L IH]; intros m; cbn [for_each].
  { intros [= <-] r row Hr. exists (rtxn_tracker row). split; [by destruct row|]. intros c id. by rewrite decide_False by (by intros [?%not_elem_of_nil _]). }
  intros (m1 & H1 & H2)%bind_inv r row Hr. destruct (note_ok now ids m rc m1 H1 r row Hr) as (t1 & Hm1 & Ht1).
  destruct (IH m1 H2 r (set_tracker t1 row) Hm1) as (t2 & Hm2 & Ht2). exists t2. split; [by rewrite Hm2; destruct row|].
  intros c id. rewrite Ht2. change (getCurrentVersion (set_tracker t1 row) c) with (getCurrentVersion row c). cbn [rtxn_tracker set_tracker]. rewrite Ht1.
  destruct (decide ((r, c) ∈ L ∧ id ∈ ids)) as [[Hin Hid]|Hin]; destruct (decide ((r, c) = rc ∧ id ∈ ids)) as [[Heq Hid']|Heq].
  - rewrite recorded_twice. rewrite decide_True; [done|]. subst rc. split; [by left|done].
  - by rewrite decide_True by (split; [by right|done]).
  - rewrite decide_True; [done|]. subst rc. split; [by left|done].
  - rewrite decide_False; [done|]. rewrite elem_of_cons. naive_solver.
Qed.
(** ** The theorems *)

(** To the dependency protocol, a run of the read-only protocol is a run of the
    server of Rcc.v.  Whatever pieces, finish requests with noted readers, questions,
    answers, reads and writes a server of the read-only protocol serves, the graph, the
    counters, the table of transactions and the log are those the server of Rcc.v has
    after the same requests: decisions and replies are the same. *)
Theorem ro6_refines_rcc site_id ord ordp columns registry qs rows0 s :
  for_each (ro6_serve site_id ord ordp columns registry) qs (mkRO6Server Server_new rows0 ∅ ∅) = Done s →
  serve_all site_id ord columns registry (qs ≫= as_rcc) = Done (rcc s).
Proof. intros H. apply (run_refines site_id ord ordp columns registry qs _ s H). Qed.


(** Transaction 7 reads row 10; transaction 1 touches row 10, and is told about reader
    7 and about reader 8 when it finishes. *)
Definition demo6_rows : gmap Z RO6Row := {[10 := demo_row]}.
Definition demo6_serve := for_each (ro6_serve 1 elements elements (λ _, 1) demo_registry).
Definition demo6_header : RequestHeader := mkHeader 1 11 0 10 0.
Definition demo6_graph : Graph := {[1 := mkVertex ∅ ∅ (mkTxn 0 1 0 {[1]} ∅)]}.
Definition demo6_run : list ro6_request := [Read6 1000 7 10 0; Start6 1500 demo6_header; Finish6 2000 1 0 demo6_graph 101 [7; 8]].
Definition demo6_state (n : nat) : RO6Server :=
  match demo6_serve (take n demo6_run) (mkRO6Server Server_new demo6_rows ∅ ∅) with Done s => s | _ => mkRO6Server Server_new ∅ ∅ ∅ end.

Lemma ro6_refines_rcc_witness : demo_serve (demo6_run ≫= as_rcc) = Done (rcc (demo6_state 3)).
Proof. apply (ro6_refines_rcc 1 elements elements (λ _, 1) demo_registry demo6_run demo6_rows). vm_compute. reflexivity. Defined.

(** The piece, as the service starts it: the transaction object exists. *)
Definition demo6_begun : RO6Server := set_rcc (get_or_create 1 false (rcc (demo6_state 1))) (demo6_state 1).
Definition demo6_started : RO6Server := match ro6_start 1 (λ _, 1) demo_registry 1500 demo6_header demo6_begun with Done (s, _, _) => s | _ => demo6_begun end.

