(* ===== verification/RWLock.v ===== *)
(** * The reader-writer lock of memdb

    Models src/rococo-dst/memdb/locking.h: the lock of a row, which an owner acquires
    for reading or writing without waiting.  The assertions of [is_wlocked],
    [is_rlocked] and [unlock_by] are proved to hold.

    A lock behaves like a map from the owners to the mode they hold it in. *)

From S2P Require Import Prelude.

Record RWLock := mkRWLock { wlocked_ : bool; w_ : Z; r_ : gset Z }.
#[export] Instance RWLock_eq_dec : EqDecision RWLock.
Proof. solve_decision. Defined.

Definition RWLock_new : RWLock := mkRWLock false 0 ∅.

Definition is_wlocked (l : RWLock) : bool := wlocked_ l.
Definition is_rlocked (l : RWLock) : bool := bool_decide (r_ l ≠ ∅).

(** [RWLock::wlock_by], with the upgrade of the only reader. *)
Definition wlock_by (o : Z) (l : RWLock) : RWLock * bool :=
  if wlocked_ l then (l, bool_decide (o = w_ l))
  else if decide (r_ l = ∅) then (mkRWLock true o (r_ l), true)
  else if decide (o ∈ r_ l ∧ size (r_ l) = 1%nat) then (mkRWLock true o (r_ l ∖ {[o]}), true)
  else (l, false).

(** [RWLock::rlock_by] *)
Definition rlock_by (o : Z) (l : RWLock) : RWLock * bool :=
  if wlocked_ l then (l, bool_decide (o = w_ l))
  else (mkRWLock (wlocked_ l) (w_ l) ({[o]} ∪ r_ l), true).

(** [RWLock::unlock_by] *)
Definition unlock_by (o : Z) (l : RWLock) : RWLock * bool :=
  let '(l, ret) := if wlocked_ l && bool_decide (o = w_ l) then (mkRWLock false (w_ l) (r_ l), true) else (l, false) in
  if decide (o ∈ r_ l) then (mkRWLock (wlocked_ l) (w_ l) (r_ l ∖ {[o]}), true) else (l, ret).

Definition wlock_owner (l : RWLock) : result Z := _ ← verify (wlocked_ l); Done (w_ l).

(** ** The specification: who holds the lock, and how *)

Inductive mode := Shared | Exclusive.
#[export] Instance mode_eq_dec : EqDecision mode.
Proof. solve_decision. Defined.

Abbreviation holders := (gmap Z mode).

Inductive lock_op := WLock (o : Z) | RLock (o : Z) | Unlock (o : Z).

Definition lock_step (l : RWLock) (op : lock_op) : RWLock * bool :=
  match op with WLock o => wlock_by o l | RLock o => rlock_by o l | Unlock o => unlock_by o l end.

(** Nobody but [o] holds the lock, nobody but [o] holds it exclusively. *)
Definition alone (o : Z) (h : holders) : Prop := ∀ o', is_Some (h !! o') → o' = o.
Definition no_writer (o : Z) (h : holders) : Prop := ∀ o', h !! o' = Some Exclusive → o' = o.

Lemma alone_Forall o h : alone o h ↔ map_Forall (λ o' _, o' = o) h.
Proof. unfold alone, map_Forall, is_Some. naive_solver. Qed.
Lemma no_writer_Forall o h : no_writer o h ↔ map_Forall (λ o' m, m = Exclusive → o' = o) h.
Proof. unfold no_writer, map_Forall. naive_solver. Qed.

#[export] Instance alone_dec o h : Decision (alone o h).
Proof. refine (cast_if (decide (map_Forall (λ o' _, o' = o) h))); by rewrite alone_Forall. Defined.
#[export] Instance no_writer_dec o h : Decision (no_writer o h).
Proof. refine (cast_if (decide (map_Forall (λ o' m, m = Exclusive → o' = o) h))); by rewrite no_writer_Forall. Defined.

(** A lock is granted if it agrees with what others hold; holding more is kept. *)
Definition spec_step (h : holders) (op : lock_op) : holders * bool :=
  match op with
  | WLock o => if decide (alone o h) then (<[o := Exclusive]> h, true) else (h, false)
  | RLock o =>
      if decide (no_writer o h) then (if decide (h !! o = Some Exclusive) then h else <[o := Shared]> h, true)
      else (h, false)
  | Unlock o => (delete o h, bool_decide (is_Some (h !! o)))
  end.

Definition held (l : RWLock) : holders := if wlocked_ l then {[w_ l := Exclusive]} else gset_to_gmap Shared (r_ l).

(** What the assertions of the code check. *)
Definition lock_ok (l : RWLock) : Prop := wlocked_ l = true → r_ l = ∅.

Definition holds_w (o : Z) (l : RWLock) : Prop := wlocked_ l = true ∧ w_ l = o.
Definition holds (o : Z) (l : RWLock) : Prop := holds_w o l ∨ o ∈ r_ l.

Lemma held_readers l : wlocked_ l = false → held l = gset_to_gmap Shared (r_ l).
Proof. unfold held. by intros ->. Qed.
Lemma held_writer l : wlocked_ l = true → held l = {[w_ l := Exclusive]}.
Proof. unfold held. by intros ->. Qed.

Lemma held_shared l o : wlocked_ l = false → held l !! o = Some Shared ↔ o ∈ r_ l.
Proof. intros Hw. rewrite (held_readers l Hw). rewrite lookup_gset_to_gmap_Some. naive_solver. Qed.

Lemma held_not_exclusive l o : wlocked_ l = false → held l !! o ≠ Some Exclusive.
Proof. intros Hw. rewrite (held_readers l Hw). rewrite lookup_gset_to_gmap_Some. naive_solver. Qed.

Lemma size_one_alone (X : gset Z) o : o ∈ X ∧ size X = 1%nat ↔ X = {[o]}.
Proof.
  split.
  - intros [Ho Hs]. apply size_1_elem_of in Hs as [x Hx]. set_solver.
  - intros ->. split; [set_solver|apply size_singleton].
Qed.

Lemma readers_alone l o : wlocked_ l = false → alone o (held l) ↔ r_ l = ∅ ∨ r_ l = {[o]}.
Proof.
  intros Hw. rewrite (held_readers l Hw). unfold alone. split.
  - intros Ha. destruct (decide (r_ l = ∅)) as [|Hne]; [by left|right]. apply set_eq. intros x.
    assert (∀ y, y ∈ r_ l → y = o) as Hall.
    { intros y Hy. apply Ha. exists Shared. by rewrite lookup_gset_to_gmap_Some. }
    apply set_choose_L in Hne as [y Hy]. rewrite elem_of_singleton. split; [apply Hall|]. intros ->. by rewrite <-(Hall y Hy).
  - intros Hr o' [m Hm]. apply lookup_gset_to_gmap_Some in Hm as [Hm _]. set_solver.
Qed.

Lemma wlock_by_refines o l :
  lock_ok l → held (wlock_by o l).1 = (spec_step (held l) (WLock o)).1 ∧
    (wlock_by o l).2 = (spec_step (held l) (WLock o)).2 ∧ lock_ok (wlock_by o l).1.
Proof.
  intros Hok. unfold wlock_by, spec_step. destruct (wlocked_ l) eqn:Hw.
  - assert (alone o (held l) ↔ o = w_ l) as Ha.
    { rewrite (held_writer l Hw). unfold alone. split; [intros H; symmetry; apply H; exists Exclusive; apply lookup_singleton_eq|].
      intros -> o' [m Hm]. by apply lookup_singleton_Some in Hm as [-> _]. }
    destruct (decide (alone o (held l))) as [H|H]; cbn; rewrite ?bool_decide_eq_true_2, ?bool_decide_eq_false_2 by tauto.
    + apply Ha in H as ->. rewrite (held_writer l Hw). by rewrite insert_singleton_eq.
    + done.
  - destruct (decide (r_ l = ∅)) as [He|He]; [|destruct (decide (o ∈ r_ l ∧ size (r_ l) = 1%nat)) as [Hs|Hs]].
    + rewrite decide_True by (apply readers_alone; auto). cbn. split_and!; [|done|by intros _].
      rewrite (held_readers l Hw), He, gset_to_gmap_empty. done.
    + apply size_one_alone in Hs. rewrite decide_True by (apply readers_alone; auto). cbn.
      split_and!; [|done|intros _; cbn; set_solver]. rewrite (held_readers l Hw), Hs, gset_to_gmap_singleton.
      by rewrite insert_singleton_eq.
    + rewrite decide_False; [done|]. rewrite readers_alone by done. rewrite size_one_alone in Hs. tauto.
Qed.

Lemma rlock_by_refines o l :
  lock_ok l → held (rlock_by o l).1 = (spec_step (held l) (RLock o)).1 ∧
    (rlock_by o l).2 = (spec_step (held l) (RLock o)).2 ∧ lock_ok (rlock_by o l).1.
Proof.
  intros Hok. unfold rlock_by, spec_step. destruct (wlocked_ l) eqn:Hw.
  - assert (no_writer o (held l) ↔ o = w_ l) as Ha.
    { rewrite (held_writer l Hw). unfold no_writer. split; [intros H; symmetry; apply H, lookup_singleton_eq|].
      intros -> o' Hm. by apply lookup_singleton_Some in Hm as [-> _]. }
    destruct (decide (no_writer o (held l))) as [H|H]; cbn; rewrite ?bool_decide_eq_true_2, ?bool_decide_eq_false_2 by tauto; [|done].
    apply Ha in H as ->. rewrite decide_True; [done|]. rewrite (held_writer l Hw). apply lookup_singleton_eq.
  - rewrite decide_True by (intros o' H; by apply held_not_exclusive in H). rewrite decide_False by by apply held_not_exclusive.
    cbn. split_and!; [|done|done]. rewrite (held_readers l Hw). apply gset_to_gmap_union_singleton.
Qed.

Lemma unlock_by_refines o l :
  lock_ok l → held (unlock_by o l).1 = (spec_step (held l) (Unlock o)).1 ∧
    (unlock_by o l).2 = (spec_step (held l) (Unlock o)).2 ∧ lock_ok (unlock_by o l).1.
Proof.
  intros Hok. unfold unlock_by, spec_step. destruct (wlocked_ l) eqn:Hw; cbn.
  - specialize (Hok Hw). rewrite (held_writer l Hw). destruct (decide (o = w_ l)) as [->|Hne].
    + rewrite bool_decide_eq_true_2 by done. cbn. rewrite decide_False by set_solver. cbn.
      rewrite Hok, delete_singleton_eq, lookup_singleton_eq. split_and!; [apply gset_to_gmap_empty| |done].
      by rewrite bool_decide_eq_true_2 by eauto.
    + rewrite bool_decide_eq_false_2 by done. rewrite decide_False by set_solver. cbn.
      rewrite delete_singleton_ne, lookup_singleton_ne by done. split_and!; [by apply held_writer| |by intros ?].
      by rewrite bool_decide_eq_false_2 by (intros [? ?]; done).
  - rewrite (held_readers l Hw), <-gset_to_gmap_difference_singleton. destruct (decide (o ∈ r_ l)) as [Ho|Ho]; cbn.
    + split_and!; [by unfold held; cbn; rewrite Hw| |intros H; cbn in H; congruence]. rewrite bool_decide_eq_true_2; [done|].
      exists Shared. by rewrite lookup_gset_to_gmap_Some.
    + split_and!; [|by rewrite bool_decide_eq_false_2 by (intros [? [? _]%lookup_gset_to_gmap_Some]; done)|intros H; cbn in H; congruence].
      rewrite (held_readers l Hw). f_equal. set_solver.
Qed.

Lemma lock_step_refines op l :
  lock_ok l → held (lock_step l op).1 = (spec_step (held l) op).1 ∧
    (lock_step l op).2 = (spec_step (held l) op).2 ∧ lock_ok (lock_step l op).1.
Proof. destruct op; [apply wlock_by_refines|apply rlock_by_refines|apply unlock_by_refines]. Qed.

(** ** Holders before and after, for the clients of the lock *)

Lemma wlock_by_true o l l' :
  lock_ok l → wlock_by o l = (l', true) →
  lock_ok l' ∧ holds_w o l' ∧ (∀ o', o' ≠ o → ¬ holds o' l).
Proof.
  unfold wlock_by, lock_ok, holds, holds_w. intros Hok. destruct (wlocked_ l) eqn:Hw.
  - intros Heq. injection Heq as <- Ho. apply bool_decide_eq_true in Ho as ->. specialize (Hok eq_refl).
    split_and!; [done..|]. intros o' Hne [[_ <-]|H]; [done|set_solver].
  - destruct (decide _) as [He|]; [|destruct (decide _) as [Hs%size_one_alone|]]; intros; simplify_eq/=;
      (split_and!; [set_solver|done..|]); intros o' Hne [[? _]|H]; [congruence|set_solver|congruence|set_solver].
Qed.

Lemma wlock_by_false o l l' : wlock_by o l = (l', false) → l' = l.
Proof. unfold wlock_by. repeat case_match; intros; by simplify_eq. Qed.

Lemma rlock_by_true o l l' :
  lock_ok l → rlock_by o l = (l', true) →
  lock_ok l' ∧ holds o l' ∧ (∀ o', o' ≠ o → holds o' l' ↔ holds o' l) ∧ (∀ o', holds_w o' l → holds_w o' l').
Proof.
  unfold rlock_by, lock_ok, holds, holds_w. intros Hok. destruct (wlocked_ l) eqn:Hw.
  - intros Heq. injection Heq as <- Ho. apply bool_decide_eq_true in Ho as ->. rewrite Hw. split_and!; [done|by left|done|by intros o' [_ <-]].
  - intros Heq. injection Heq as <-. cbn. split_and!; [done|set_solver| |by intros o' [? _]].
    intros o' Hne. rewrite elem_of_union, elem_of_singleton. cbn. intuition congruence.
Qed.

Lemma rlock_by_false o l l' : rlock_by o l = (l', false) → l' = l.
Proof. unfold rlock_by. repeat case_match; intros; by simplify_eq. Qed.

Lemma unlock_by_others o l :
  lock_ok l → lock_ok (unlock_by o l).1 ∧ ¬ holds o (unlock_by o l).1 ∧
  (∀ o', o' ≠ o → (holds o' (unlock_by o l).1 ↔ holds o' l) ∧ (holds_w o' (unlock_by o l).1 ↔ holds_w o' l)).
Proof.
  unfold unlock_by, lock_ok, holds, holds_w. intros Hok. destruct (wlocked_ l) eqn:Hw; cbn.
  - specialize (Hok eq_refl). destruct (decide (o = w_ l)) as [->|Hne]; [rewrite bool_decide_eq_true_2 by done|rewrite bool_decide_eq_false_2 by done];
      cbn; rewrite decide_False by set_solver; cbn; rewrite ?Hw, ?Hok; set_unfold; intuition congruence.
  - destruct (decide (o ∈ r_ l)) as [Ho|Ho]; cbn; rewrite ?Hw; set_unfold; intuition congruence.
Qed.

(** A writer keeps everybody else out. *)
Lemma writer_alone o o' l : lock_ok l → holds_w o l → holds o' l → o' = o.
Proof. intros Hok [Hw <-] [[_ <-]|Hr]; [done|]. rewrite Hok in Hr by done. set_solver. Qed.

(** ** Runs of a lock *)

Fixpoint lock_run (l : RWLock) (ops : list lock_op) : RWLock * list bool :=
  match ops with
  | [] => (l, [])
  | op :: ops => let '(l, b) := lock_step l op in let '(l, bs) := lock_run l ops in (l, b :: bs)
  end.
Fixpoint spec_run (h : holders) (ops : list lock_op) : holders * list bool :=
  match ops with
  | [] => (h, [])
  | op :: ops => let '(h, b) := spec_step h op in let '(h, bs) := spec_run h ops in (h, b :: bs)
  end.

Lemma lock_run_refines l ops : lock_ok l → (lock_run l ops).2 = (spec_run (held l) ops).2 ∧
  held (lock_run l ops).1 = (spec_run (held l) ops).1 ∧ lock_ok (lock_run l ops).1.
Proof.
  revert l. induction ops as [|op ops IH]; intros l Hok; [done|]. cbn.
  destruct (lock_step_refines op l Hok) as (H1 & H2 & H3). destruct (lock_step l op) as [l1 b1], (spec_step (held l) op) as [h1 b1']. cbn in *.
  subst. destruct (IH l1 H3) as (R1 & R2 & R3). destruct (lock_run l1 ops), (spec_run (held l1) ops). cbn in *. by subst.
Qed.

(** C27: a row lock behaves like a map from owners to the mode they hold it in: in every
    sequence of calls, a read lock is granted exactly when no other owner holds the
    lock for writing, a write lock exactly when no other owner holds it at all (which
    is the upgrade of a reader that is alone), unlocking gives back whatever the owner
    holds and tells whether it held anything, and a refused call changes nothing.  The
    writer and the readers never coexist, which the code asserts. *)
Theorem rwlock_refines_holders ops :
  let '(l, answers) := lock_run RWLock_new ops in
  let '(h, answers') := spec_run ∅ ops in
  answers = answers' ∧ held l = h ∧ (is_wlocked l = true → is_rlocked l = false).
Proof.
  destruct (lock_run_refines RWLock_new ops) as (H1 & H2 & H3); [by unfold lock_ok|].
  replace (held RWLock_new) with (∅ : holders) in H1, H2 by (unfold held; cbn; by rewrite gset_to_gmap_empty).
  destruct (lock_run RWLock_new ops) as [l bs], (spec_run ∅ ops) as [h bs']. cbn in *. split_and!; [done..|].
  intros Hw. unfold is_rlocked. rewrite (H3 Hw). apply bool_decide_eq_false_2. tauto.
Qed.
