(* ===== verification/MemTable.v ===== *)
(** * Tables of memdb

    Models src/rococo-dst/memdb/table.{h,cc}: [SortedMultiKey], [SortedTable] and
    [UnsortedTable], with the parts of row.h and row.cc that call the table of a row,
    and the rows with a lock and versions of row.h.  [IndexedTable] and [SnapshotTable]
    are not modelled.

    Rows are objects of a heap.  The key a table keeps for a row is a list of blobs,
    pointers into the bytes of the row: an entry is the row, and the key is read
    through it.  A string of the dense block moves when the row becomes sparse; the
    entry remembers in which layout the blobs were taken, and reading a key string
    after the block is gone is an invalid access.

    A sorted table is the list of its entries in the order of the multimap; an unsorted
    one in the order of insertion (the code leaves the order to the hash table).
    Schemas are compared by their contents, which the code compares by address. *)

From S2P Require Import Prelude SparseInt RWLock MemRow.

#[export] Instance column_info_eq_dec : EqDecision column_info.
Proof. solve_decision. Defined.
#[export] Instance Schema_eq_dec : EqDecision Schema.
Proof. solve_decision. Defined.

(** ** Keys *)

Abbreviation key := (list (list Z)).

(** Doubles by their bit patterns: [double_lt a b] is the comparison of the language. *)
Definition double_nan (b : Z) : bool := bool_decide (0x7FF0000000000000 < b mod 2 ^ 63).
Definition double_rank (b : Z) : Z := if decide (b < 2 ^ 63) then b else - (b - 2 ^ 63).
Definition double_lt (a b : Z) : bool :=
  negb (double_nan a) && negb (double_nan b) && bool_decide (double_rank a < double_rank b).
Definition double_compare (a b : Z) : comparison :=
  if double_lt a b then Lt else if double_lt b a then Gt else Eq.

(** [memcmp] on the common prefix, then the lengths. *)
Fixpoint memcmp (a b : list Z) : comparison :=
  match a, b with
  | x :: a, y :: b => match Z.compare x y with Eq => memcmp a b | c => c end
  | _, _ => Eq
  end.
Definition str_compare (a b : list Z) : comparison :=
  match memcmp a b with Eq => Nat.compare (length a) (length b) | c => c end.

Definition compare_blob (k : kind) (a b : list Z) : result comparison :=
  match k with
  | I32 => x ← load a 0 4; y ← load b 0 4; Done (Z.compare (i32 (from_bytes x)) (i32 (from_bytes y)))
  | I64 => x ← load a 0 8; y ← load b 0 8; Done (Z.compare (i64 (from_bytes x)) (i64 (from_bytes y)))
  | DOUBLE => x ← load a 0 8; y ← load b 0 8; Done (double_compare (from_bytes x) (from_bytes y))
  | STR => Done (str_compare a b)
  | UNKNOWN => Crash assert_failed
  end.

(** [SortedMultiKey::compare], on keys of one schema. *)
Fixpoint compare_cols (s : Schema) (cols : list Z) (a b : key) : result comparison :=
  match cols, a, b with
  | [], _, _ => Done Eq
  | c :: cols, x :: a, y :: b =>
      info ← get_column_info s c;
      _ ← verify (ci_indexed info);
      r ← compare_blob (ci_type info) x y;
      match r with Eq => compare_cols s cols a b | r => Done r end
  | _, _, _ => Crash invalid_access
  end.
Definition compare (s : Schema) (a b : key) : result comparison := compare_cols s (key_cols_id_ s) a b.

Definition is_lt (c : comparison) : bool := match c with Lt => true | _ => false end.
Definition key_lt (s : Schema) (a b : key) : result bool := c ← compare s a b; Done (is_lt c).

(** ** Rows and tables as objects *)

(** [VersionedRow], with the pointer [tbl_] of a row to its table. *)
Record VersionedRow := mkVRow { vr_row : Row; vr_tbl : option nat; vr_lock : RWLock; vr_ver : list Z }.

Inductive symbol_t := TBL_SORTED | TBL_UNSORTED.
#[export] Instance symbol_eq_dec : EqDecision symbol_t.
Proof. solve_decision. Defined.

(** An entry of [rows_]: the row, and whether its strings were dense when it entered. *)
Record item := mkItem { it_row : nat; it_dense : bool }.

Record Table := mkTable { rtti : symbol_t; tb_schema : Schema; rows_ : list item }.

Record memdb := mkDb { db_rows : gmap nat VersionedRow; db_tables : gmap nat Table }.

Definition set_rows (m : gmap nat VersionedRow) (d : memdb) : memdb := mkDb m (db_tables d).
Definition set_tables (m : gmap nat Table) (d : memdb) : memdb := mkDb (db_rows d) m.

Definition row_at (d : memdb) (p : nat) : result VersionedRow :=
  match db_rows d !! p with Some o => Done o | None => Crash invalid_access end.
Definition table_at (d : memdb) (t : nat) : result Table :=
  match db_tables d !! t with Some o => Done o | None => Crash invalid_access end.
Definition put_row (p : nat) (o : VersionedRow) (d : memdb) : memdb := set_rows (<[p := o]> (db_rows d)) d.
Definition put_table (t : nat) (o : Table) (d : memdb) : memdb := set_tables (<[t := o]> (db_tables d)) d.

(** [VersionedRow::create] at address [p] *)
Definition create_versioned (p : nat) (s : Schema) (values : list Value) (d : memdb) : result memdb :=
  r ← create s values;
  Done (put_row p (mkVRow r None RWLock_new (replicate (columns_count s) 0)) d).

(** [VersionedRow::get_column_ver] and [incr_column_ver]; a [version_t] is 64 bits. *)
Definition get_column_ver (d : memdb) (p : nat) (c : Z) : result Z :=
  o ← row_at d p;
  if decide (0 ≤ c) then entry (vr_ver o) (Z.to_nat c) else Crash invalid_access.
Definition incr_column_ver (p : nat) (c : Z) (d : memdb) : result memdb :=
  o ← row_at d p;
  v ← get_column_ver d p c;
  Done (put_row p (mkVRow (vr_row o) (vr_tbl o) (vr_lock o) (<[Z.to_nat c := u64 (v + 1)]> (vr_ver o))) d).

(** [CoarseLockedRow::rlock_row_by], [wlock_row_by] and [unlock_row_by]. *)
Definition with_lock (f : RWLock → RWLock * bool) (p : nat) (d : memdb) : result (memdb * bool) :=
  o ← row_at d p;
  let '(l, b) := f (vr_lock o) in
  Done (put_row p (mkVRow (vr_row o) (vr_tbl o) l (vr_ver o)) d, b).
Definition rlock_row_by (o : Z) : nat → memdb → result (memdb * bool) := with_lock (rlock_by o).
Definition wlock_row_by (o : Z) : nat → memdb → result (memdb * bool) := with_lock (wlock_by o).
Definition unlock_row_by (o : Z) : nat → memdb → result (memdb * bool) := with_lock (unlock_by o).

Definition is_dense (r : Row) : bool := match var_part_ r with DENSE_ _ _ => true | SPARSE_ _ => false end.

(** Whether a blob of the key points into the block of strings. *)
Definition has_string_key (s : Schema) : bool :=
  existsb (λ c, match get_column_info s c with Done ci => bool_decide (ci_type ci = STR) | _ => false end) (key_cols_id_ s).

(** The key of an entry, through its blobs. *)
Definition item_key (d : memdb) (i : item) : result key :=
  o ← row_at d (it_row i);
  if it_dense i && negb (is_dense (vr_row o)) && has_string_key (schema_ (vr_row o)) then Crash invalid_access
  else get_key (vr_row o).

Fixpoint item_keys (d : memdb) (l : list item) : result (list key) :=
  match l with [] => Done [] | i :: l => k ← item_key d i; ks ← item_keys d l; Done (k :: ks) end.

(** How many keys at the front satisfy [f]. *)
Fixpoint prefix_len (f : key → result bool) (ks : list key) : result nat :=
  match ks with [] => Done 0%nat | k :: ks => b ← f k; if b : bool then n ← prefix_len f ks; Done (S n) else Done 0%nat end.

Definition lower_bound (s : Schema) (k : key) (ks : list key) : result nat := prefix_len (λ x, key_lt s x k) ks.
Definition upper_bound (s : Schema) (k : key) (ks : list key) : result nat :=
  prefix_len (λ x, b ← key_lt s k x; Done (negb b)) ks.

(** The positions with a key: [equal_range] of the two maps. *)
Definition equal_range (d : memdb) (t : Table) (k : key) : result (list nat) :=
  ks ← item_keys d (rows_ t);
  match rtti t with
  | TBL_SORTED => lo ← lower_bound (tb_schema t) k ks; hi ← upper_bound (tb_schema t) k ks; Done (seq lo (hi - lo))
  | TBL_UNSORTED => Done (filter (λ i, ks !! i = Some k) (seq 0 (length ks)))
  end.

(** [SortedTable::insert] and [UnsortedTable::insert] *)
Definition table_insert (t p : nat) (d : memdb) : result memdb :=
  tb ← table_at d t;
  o ← row_at d p;
  k ← get_key (vr_row o);
  _ ← verify (bool_decide (schema_ (vr_row o) = tb_schema tb));
  r ← set_table true (vr_row o);
  ks ← item_keys d (rows_ tb);
  n ← match rtti tb with TBL_SORTED => upper_bound (tb_schema tb) k ks | TBL_UNSORTED => Done (length ks) end;
  let i := mkItem p (is_dense (vr_row o)) in
  Done (put_table t (mkTable (rtti tb) (tb_schema tb) (take n (rows_ tb) ++ i :: drop n (rows_ tb)))
          (put_row p (mkVRow r (Some t) (vr_lock o) (vr_ver o)) d)).

(** The position of a row in a range. *)
Definition find_row (tb : Table) (p : nat) (range : list nat) : option (nat * nat) :=
  list_find (λ i, option_map it_row (rows_ tb !! i) = Some p) range.

(** [SortedTable::remove] and [UnsortedTable::remove] of a row *)
Definition table_remove (t p : nat) (d : memdb) : result memdb :=
  tb ← table_at d t;
  o ← row_at d p;
  k ← get_key (vr_row o);
  range ← equal_range d tb k;
  match find_row tb p range with
  | Some (_, i) =>
      r ← set_table false (vr_row o);
      Done (put_table t (mkTable (rtti tb) (tb_schema tb) (delete i (rows_ tb)))
              (put_row p (mkVRow r None (vr_lock o) (vr_ver o)) d))
  | None => Done d
  end.

(** [Row::update] of a row that may be in a table: the row leaves its table before an
    indexed column changes and enters it again. *)
Definition row_update (p : nat) (c : Z) (v : Value) (d : memdb) : result memdb :=
  o ← row_at d p;
  '(r, told) ← update (vr_row o) c v;
  match told, vr_tbl o with
  | _ :: _, Some t =>
      d ← table_remove t p d;
      o ← row_at d p;
      let r := mkRow (fixed_part_ r) (var_part_ r) (tbl_ (vr_row o)) (rdonly_ r) (schema_ r) in
      table_insert t p (put_row p (mkVRow r (vr_tbl o) (vr_lock o) (vr_ver o)) d)
  | _, _ => Done (put_row p (mkVRow r (vr_tbl o) (vr_lock o) (vr_ver o)) d)
  end.

Definition row_get (d : memdb) (p : nat) (c : Z) : result Value := o ← row_at d p; get_column (vr_row o) c.

(** ** Queries, as the rows their cursor enumerates *)

Inductive order := ORD_ANY | ORD_ASC | ORD_DESC.

Definition in_order (o : order) (l : list nat) : list nat := match o with ORD_DESC => reverse l | _ => l end.

Definition sorted_table (d : memdb) (t : nat) : result (Table * list key) :=
  tb ← table_at d t;
  _ ← verify (bool_decide (rtti tb = TBL_SORTED));
  ks ← item_keys d (rows_ tb);
  Done (tb, ks).

(** [SortedTable::query] and [UnsortedTable::query] *)
Definition query (d : memdb) (t : nat) (k : key) : result (list nat) :=
  tb ← table_at d t;
  range ← equal_range d tb k;
  Done (omap (M:=list) (λ i, option_map it_row (rows_ tb !! i)) range).

(** The constructor of a [SortedMultiKey] *)
Definition sorted_key (s : Schema) (k : key) : result key :=
  _ ← verify (bool_decide (length k = length (key_cols_id_ s)));
  Done k.

Definition query_lt (d : memdb) (t : nat) (k : key) (o : order) : result (list nat) :=
  '(tb, ks) ← sorted_table d t;
  k ← sorted_key (tb_schema tb) k;
  n ← lower_bound (tb_schema tb) k ks;
  Done (in_order o (it_row <$> take n (rows_ tb))).

Definition query_gt (d : memdb) (t : nat) (k : key) (o : order) : result (list nat) :=
  '(tb, ks) ← sorted_table d t;
  k ← sorted_key (tb_schema tb) k;
  n ← upper_bound (tb_schema tb) k ks;
  Done (in_order o (it_row <$> drop n (rows_ tb))).

Definition query_in (d : memdb) (t : nat) (low high : key) (o : order) : result (list nat) :=
  '(tb, ks) ← sorted_table d t;
  low ← sorted_key (tb_schema tb) low;
  high ← sorted_key (tb_schema tb) high;
  b ← key_lt (tb_schema tb) low high;
  _ ← verify b;
  lo ← upper_bound (tb_schema tb) low ks;
  hi ← lower_bound (tb_schema tb) high ks;
  Done (in_order o (it_row <$> take (hi - lo) (drop lo (rows_ tb)))).

Definition all (d : memdb) (t : nat) (o : order) : result (list nat) :=
  tb ← table_at d t;
  Done (in_order o (it_row <$> rows_ tb)).
