(* ===== verification/MemTableSpec.v ===== *)
(** * Tables of memdb: contents and order

    A database is represented by a map from the addresses of its rows to their table,
    schema and values.  Every operation of MemTable.v acts on the map in the obvious
    way and keeps sorted tables sorted by the keys their rows have at that time. *)

From S2P Require Import Prelude SparseInt RWLock MemRow MemRowSpec MemTable.

(** ** Lexicographic order of integer keys *)

Fixpoint lex (a b : list Z) : comparison :=
  match a, b with
  | [], [] => Eq
  | [], _ :: _ => Lt
  | _ :: _, [] => Gt
  | x :: a, y :: b => match Z.compare x y with Eq => lex a b | c => c end
  end.

Definition lex_le (a b : list Z) : Prop := lex a b ≠ Gt.
Definition lex_lt (a b : list Z) : Prop := lex a b = Lt.

Lemma lex_antisym a b : lex b a = CompOpp (lex a b).
Proof.
  revert b. induction a as [|x a IH]; intros [|y b]; cbn; [done..|]. rewrite (Z.compare_antisym x y), IH.
  by destruct (x ?= y).
Qed.

Lemma lex_refl a : lex a a = Eq.
Proof. induction a as [|x a IH]; cbn; [done|]. by rewrite Z.compare_refl. Qed.

Lemma lex_lt_le_trans a b c : lex_lt a b → lex_le b c → lex_lt a c.
Proof.
  unfold lex_lt, lex_le. revert b c. induction a as [|x a IH]; intros [|y b] [|z c]; cbn; try done.
  destruct (Z.compare_spec x y), (Z.compare_spec y z), (Z.compare_spec x z); try done; try lia. apply IH.
Qed.

#[export] Instance lex_le_trans : Transitive lex_le.
Proof.
  unfold lex_le. intros a. induction a as [|x a IH]; intros [|y b] [|z c]; cbn; try done.
  destruct (Z.compare_spec x y), (Z.compare_spec y z), (Z.compare_spec x z); try done; try lia. apply IH.
Qed.

Lemma lex_not_lt a b : ¬ lex_lt a b ↔ lex_le b a.
Proof. unfold lex_lt, lex_le. rewrite (lex_antisym a b). destruct (lex a b); naive_solver. Qed.

Lemma lex_lt_le a b : lex_lt a b → lex_le a b.
Proof. unfold lex_lt, lex_le. by intros ->. Qed.

Lemma is_lt_true a b : is_lt (lex a b) = true ↔ lex_lt a b.
Proof. unfold lex_lt. by destruct (lex a b). Qed.

(** ** Keys of integers *)

(** Key columns are indexed columns of integers, and there is a column. *)
Definition plain_schema (s : Schema) : Prop :=
  schema_ok s ∧ (0 < columns_count s)%nat ∧
  Forall (λ c, match get_column_info s c with Done ci => ci_indexed ci = true ∧ (ci_type ci = I32 ∨ ci_type ci = I64) | _ => False end)
    (key_cols_id_ s).

Definition num_of (v : Value) : Z := match v with VI32 z | VI64 z => z | _ => 0 end.
Definition column (vs : list Value) (c : Z) : Value := default VUnknown (vs !! Z.to_nat c).
Definition key_values (s : Schema) (vs : list Value) : list Value := column vs <$> key_cols_id_ s.
Definition nums (ws : list Value) : list Z := num_of <$> ws.
Definition blobs (ws : list Value) : key := value_bytes <$> ws.
Definition key_nums (s : Schema) (vs : list Value) : list Z := nums (key_values s vs).
Definition key_blobs (s : Schema) (vs : list Value) : key := blobs (key_values s vs).

(** Values of the kinds of the key columns. *)
Definition key_typed (s : Schema) (ws : list Value) : Prop :=
  Forall2 (λ c w, ∃ ci, get_column_info s c = Done ci ∧ ci_indexed ci = true ∧ (ci_type ci = I32 ∨ ci_type ci = I64) ∧
    get_kind w = ci_type ci ∧ value_ok w) (key_cols_id_ s) ws.

Lemma load_all b n : length b = n → load b 0 n = Done b.
Proof. intros <-. unfold load. rewrite decide_True by lia. by rewrite drop_0, firstn_all. Qed.

Lemma read_num v b : value_ok v → b = value_bytes v → get_kind v = I32 ∨ get_kind v = I64 →
  match get_kind v with I32 => i32 (from_bytes b) = num_of v ∧ length b = 4%nat
  | _ => i64 (from_bytes b) = num_of v ∧ length b = 8%nat end.
Proof.
  intros Hv -> Hk. pose proof (read_value_bytes v Hv) as Hr. destruct v; cbn in *; destruct Hk; try done;
    (split; [by simplify_eq|by rewrite length_low_bytes]).
Qed.

Lemma compare_blob_num k v w :
  value_ok v → value_ok w → get_kind v = k → get_kind w = k → k = I32 ∨ k = I64 →
  compare_blob k (value_bytes v) (value_bytes w) = Done (Z.compare (num_of v) (num_of w)).
Proof.
  intros Hv Hw Hkv Hkw Hk. pose proof (read_num v _ Hv eq_refl) as H1. pose proof (read_num w _ Hw eq_refl) as H2.
  rewrite Hkv in H1. rewrite Hkw in H2. destruct Hk as [-> | ->]; cbn;
    (destruct H1 as [H1 L1]; [tauto|]; destruct H2 as [H2 L2]; [tauto|]);
    rewrite !load_all by done; cbn; by rewrite H1, H2.
Qed.

Lemma compare_typed s vs ws :
  key_typed s vs → key_typed s ws →
  compare s (blobs vs) (blobs ws) = Done (lex (nums vs) (nums ws)).
Proof.
  unfold key_typed, compare. generalize (key_cols_id_ s) as cols. intros cols Hv. revert ws.
  induction Hv as [|c v cols vs (ci & Hci & Hix & Hk & Hkv & Hvo) _ IH]; intros ws Hw.
  - apply Forall2_nil_inv_l in Hw as ->. done.
  - apply Forall2_cons_inv_l in Hw as (w & ws' & (ci' & Hci' & _ & _ & Hkw & Hwo) & Hws & ->).
    assert (ci' = ci) as -> by congruence. cbn. rewrite Hci. cbn. rewrite Hix. cbn.
    rewrite (compare_blob_num (ci_type ci) v w) by done. cbn. destruct (num_of v ?= num_of w); try done. by apply IH.
Qed.

Lemma row_key_typed r vs : row_rep r vs → plain_schema (schema_ r) → key_typed (schema_ r) (key_values (schema_ r) vs).
Proof.
  intros Hr (Hs & _ & Hkey). unfold key_typed, key_values. apply Forall2_fmap_r, Forall_Forall2_diag.
  apply Forall_forall. intros c Hc. rewrite Forall_forall in Hkey. specialize (Hkey c Hc).
  destruct (get_column_info (schema_ r) c) as [ci| |] eqn:Hci; [|done..]. destruct Hkey as [Hix Hk].
  exists ci. unfold get_column_info in Hci. destruct (decide (0 ≤ c)); [|done].
  destruct (col_info_ (schema_ r) !! Z.to_nat c) as [ci'|] eqn:Hl; [|done]. simplify_eq.
  assert (kinds (schema_ r) !! Z.to_nat c = Some (ci_type ci)) as Hkk by (unfold kinds; by rewrite list_lookup_fmap, Hl).
  rewrite <-(rr_kinds _ _ Hr), list_lookup_fmap in Hkk. unfold column. destruct (vs !! Z.to_nat c) as [v|] eqn:Hv; [|done].
  cbn in *. simplify_eq. split_and!; [done..|]. by eapply (Forall_lookup_1 _ _ _ _ (rr_values _ _ Hr)).
Qed.

Lemma get_key_rep r vs : row_rep r vs → plain_schema (schema_ r) → get_key r = Done (key_blobs (schema_ r) vs).
Proof.
  intros Hr Hp. unfold get_key, key_blobs, key_values.
  assert (∀ cols acc, Forall (λ c, ∃ v, 0 ≤ c ∧ vs !! Z.to_nat c = Some v) cols →
    for_each (λ mb c, b ← get_blob r c; Done (mb ++ [b])) cols acc = Done (acc ++ (value_bytes <$> (column vs <$> cols)))) as Hloop.
  { intros cols. induction cols as [|c cols IH]; intros acc Hall; [by rewrite app_nil_r|].
    apply Forall_cons in Hall as [(v & Hc & Hv) Hall]. cbn.
    assert (get_blob r c = Done (value_bytes v)) as ->.
    { pose proof (take_drop_middle vs _ v Hv) as Heq. rewrite <-Heq in Hr.
      assert (length (take (Z.to_nat c) vs) = Z.to_nat c) as Hl by (apply length_take_le; apply lookup_lt_Some in Hv; lia).
      pose proof (get_blob_rep _ _ _ _ Hr) as Hg. rewrite Hl, Z2Nat.id in Hg by done. done. }
    cbn. rewrite IH by done. unfold column at 2. rewrite Hv. cbn. by rewrite <-app_assoc. }
  rewrite Hloop; [done|]. apply Forall_forall. intros c Hc.
  destruct (so_keys _ (proj1 Hp) c Hc) as [Hc0 Hc1].
  destruct (lookup_lt_is_Some_2 vs (Z.to_nat c)) as [v Hv]; [|eauto].
  rewrite <-(length_fmap get_kind vs), (rr_kinds _ _ Hr). unfold kinds. rewrite length_fmap. lia.
Qed.

(** ** Bounds in a sorted list of keys *)

Lemma prefix_len_pure (f : key → result bool) (g : list Z → bool) (ns : list (list Z)) ks :
  Forall2 (λ k n, f k = Done (g n)) ks ns →
  ∃ m, prefix_len f ks = Done m ∧ (m ≤ length ns)%nat ∧ (∀ i n, (i < m)%nat → ns !! i = Some n → g n = true) ∧
    (∀ n, ns !! m = Some n → g n = false).
Proof.
  intros H. induction H as [|k n ks ns Hk _ (m & Hm & Hle & H1 & H2)]; cbn.
  - exists 0%nat. split_and!; [done|lia|lia|done].
  - rewrite Hk. cbn. destruct (g n) eqn:Hg.
    + rewrite Hm. cbn. exists (S m). split_and!; [done|lia| |done]. intros [|i] n' Hi Hn; cbn in Hn; [by simplify_eq|].
      apply (H1 i); [lia|done].
    + exists 0%nat. split_and!; [done|lia|lia|]. intros n' [= <-]. done.
Qed.

(** The keys of a table in order: [ns] are the numbers of the keys [ks]. *)
Section bounds.
Context (s : Schema) (k : list Value) (Hk : key_typed s k) (kss : list (list Value)) (Hks : Forall (key_typed s) kss).
Abbreviation ks := (blobs <$> kss).
Abbreviation ns := (nums <$> kss).
Abbreviation kn := (nums k).

Lemma lower_bound_spec :
  ∃ m, lower_bound s (blobs k) ks = Done m ∧ (m ≤ length ns)%nat ∧
    (∀ i n, (i < m)%nat → ns !! i = Some n → lex_lt n kn) ∧ (∀ n, ns !! m = Some n → lex_le kn n).
Proof using Hk Hks.
  destruct (prefix_len_pure (λ x, key_lt s x (blobs k)) (λ n, is_lt (lex n kn)) ns ks) as (m & H1 & H2 & H3 & H4).
  { apply Forall2_fmap. apply Forall_Forall2_diag. eapply Forall_impl; [exact Hks|]. intros vs Hvs. cbn. unfold key_lt.
    by rewrite compare_typed by done. }
  exists m. split_and!; [done..| |].
  - intros i n Hi Hn. apply is_lt_true. eauto.
  - intros n Hn. apply lex_not_lt. rewrite <-is_lt_true. by rewrite (H4 n Hn).
Qed.

Lemma upper_bound_spec :
  ∃ m, upper_bound s (blobs k) ks = Done m ∧ (m ≤ length ns)%nat ∧
    (∀ i n, (i < m)%nat → ns !! i = Some n → lex_le n kn) ∧ (∀ n, ns !! m = Some n → lex_lt kn n).
Proof using Hk Hks.
  destruct (prefix_len_pure (λ x, b ← key_lt s (blobs k) x; Done (negb b)) (λ n, negb (is_lt (lex kn n))) ns ks) as (m & H1 & H2 & H3 & H4).
  { apply Forall2_fmap. apply Forall_Forall2_diag. eapply Forall_impl; [exact Hks|]. intros vs Hvs. cbn. unfold key_lt.
    by rewrite compare_typed by done. }
  exists m. split_and!; [done..| |].
  - intros i n Hi Hn. apply lex_not_lt. rewrite <-is_lt_true. specialize (H3 i n Hi Hn). by destruct (is_lt _).
  - intros n Hn. apply is_lt_true. specialize (H4 n Hn). by destruct (is_lt _).
Qed.
End bounds.

(** A sorted list has what a bound found in front of it and nothing behind it. *)
Definition ordered (ns : list (list Z)) : Prop := ∀ i j x y, (i < j)%nat → ns !! i = Some x → ns !! j = Some y → lex_le x y.

Lemma ordered_insert ns m n :
  ordered ns → (m ≤ length ns)%nat → (∀ i x, (i < m)%nat → ns !! i = Some x → lex_le x n) → (∀ x, ns !! m = Some x → lex_lt n x) →
  ordered (take m ns ++ n :: drop m ns).
Proof.
  intros Ho Hm Hlo Hhi. assert (length (take m ns) = m) as Hl by (rewrite length_take; lia).
  assert (∀ j y, (m ≤ j)%nat → ns !! j = Some y → lex_le n y) as Hhi'.
  { intros j y Hj Hy. destruct (lookup_lt_is_Some_2 ns m) as [x Hx]; [apply lookup_lt_Some in Hy; lia|].
    destruct (decide (j = m)) as [->|]; [by apply lex_lt_le, Hhi|]. etrans; [by apply lex_lt_le, Hhi|]. eapply (Ho m j); [lia|done..]. }
  assert (∀ i x, (take m ns ++ n :: drop m ns) !! i = Some x →
    ((i < m)%nat ∧ ns !! i = Some x) ∨ (i = m ∧ x = n) ∨ ((m < i)%nat ∧ ns !! (i - 1)%nat = Some x)) as Hcase.
  { intros i x Hi. apply lookup_app_Some in Hi as [Hi|[Hge Hi]].
    - left. apply lookup_take_Some in Hi as [? ?]. done.
    - rewrite Hl in Hge, Hi. apply lookup_cons_Some in Hi as [[Hz ->]|[Hz Hi]]; [right; left; split; [lia|done]|].
      right. right. rewrite lookup_drop in Hi. split; [lia|]. by replace (i - 1)%nat with (m + (i - m - 1))%nat by lia. }
  intros i j x y Hij Hx Hy. apply Hcase in Hx, Hy.
  destruct Hx as [[? Hx]|[[-> ->]|[? Hx]]], Hy as [[? Hy]|[[-> ->]|[? Hy]]]; try lia; eauto.
  - eapply (Ho i (j - 1)%nat); [lia|done..].
  - apply (Hhi' (j - 1)%nat); [lia|done].
  - eapply (Ho (i - 1)%nat (j - 1)%nat); [lia|done..].
Qed.

Lemma ordered_delete ns m : ordered ns → ordered (delete m ns).
Proof.
  intros Ho i j x y Hij Hx Hy. destruct (decide (i < m)%nat); destruct (decide (j < m)%nat); try lia;
    rewrite ?list_lookup_delete_lt, ?list_lookup_delete_ge in Hx by lia; rewrite ?list_lookup_delete_lt, ?list_lookup_delete_ge in Hy by lia;
    [eapply (Ho i j)|eapply (Ho i (S j))|eapply (Ho (S i) (S j))]; try done; lia.
Qed.

(** ** Databases as maps *)

Record arow := mkARow { ar_tbl : option nat; ar_schema : Schema; ar_vals : list Value }.
Abbreviation astore := (gmap nat arow).

Record obj_rep (o : VersionedRow) (a : arow) : Prop := {
  or_row : row_rep (vr_row o) (ar_vals a);
  or_schema : schema_ (vr_row o) = ar_schema a;
  or_plain : plain_schema (ar_schema a);
  or_rdonly : rdonly_ (vr_row o) = false;
  or_tbl : vr_tbl o = ar_tbl a;
  or_linked : tbl_ (vr_row o) = bool_decide (is_Some (ar_tbl a));
}.

Definition row_key (A : astore) (i : item) : list Value :=
  match A !! it_row i with Some a => key_values (ar_schema a) (ar_vals a) | None => [] end.

Record table_rep (A : astore) (t : nat) (tb : Table) : Prop := {
  tr_plain : plain_schema (tb_schema tb);
  tr_nodup : NoDup (it_row <$> rows_ tb);
  tr_rows p : p ∈ it_row <$> rows_ tb ↔ ∃ a, A !! p = Some a ∧ ar_tbl a = Some t;
  tr_schema p a : A !! p = Some a → ar_tbl a = Some t → ar_schema a = tb_schema tb;
  tr_order : rtti tb = TBL_SORTED → ordered (nums <$> (row_key A <$> rows_ tb));
}.

Record db_rep (d : memdb) (A : astore) : Prop := {
  dr_row p o : db_rows d !! p = Some o → ∃ a, A !! p = Some a ∧ obj_rep o a;
  dr_addr p a : A !! p = Some a → ∃ o, db_rows d !! p = Some o ∧ obj_rep o a;
  dr_table t tb : db_tables d !! t = Some tb → table_rep A t tb;
  dr_linked p a t : A !! p = Some a → ar_tbl a = Some t → ∃ tb, db_tables d !! t = Some tb;
}.

(** What operations on contents leave alone: locks and versions, kinds and schemas. *)
Definition meta (d : memdb) : gmap nat (RWLock * list Z) := (λ o, (vr_lock o, vr_ver o)) <$> db_rows d.
Definition shape (d : memdb) : gmap nat (symbol_t * Schema) := (λ tb, (rtti tb, tb_schema tb)) <$> db_tables d.
Definition same_frame (d d' : memdb) : Prop := meta d' = meta d ∧ shape d' = shape d.

#[export] Instance same_frame_preorder : PreOrder same_frame.
Proof. split; [by split|]. intros d1 d2 d3 [H1 H2] [H3 H4]. split; congruence. Qed.

Lemma shape_table d d' t tb : shape d' = shape d → db_tables d !! t = Some tb →
  ∃ tb', db_tables d' !! t = Some tb' ∧ rtti tb' = rtti tb ∧ tb_schema tb' = tb_schema tb.
Proof.
  intros Hs Ht. assert (shape d' !! t = Some (rtti tb, tb_schema tb)) as H by (rewrite Hs; unfold shape; by rewrite lookup_fmap, Ht).
  unfold shape in H. rewrite lookup_fmap in H. destruct (db_tables d' !! t) as [tb'|]; [|done]. cbn in H. simplify_eq. eauto.
Qed.

Lemma meta_put_row d p o o' : db_rows d !! p = Some o → vr_lock o' = vr_lock o → vr_ver o' = vr_ver o → meta (put_row p o' d) = meta d.
Proof.
  intros Hp Hl Hv. unfold meta, put_row. cbn. rewrite fmap_insert, Hl, Hv. apply insert_id. by rewrite lookup_fmap, Hp.
Qed.

Lemma shape_put_table d t tb tb' : db_tables d !! t = Some tb → rtti tb' = rtti tb → tb_schema tb' = tb_schema tb → shape (put_table t tb' d) = shape d.
Proof.
  intros Ht H1 H2. unfold shape, put_table. cbn. rewrite fmap_insert, H1, H2. apply insert_id. by rewrite lookup_fmap, Ht.
Qed.

Lemma no_string_key s : plain_schema s → has_string_key s = false.
Proof.
  intros (_ & _ & Hk). unfold has_string_key. induction Hk as [|c l Hc _ IH]; [done|]. cbn. rewrite IH.
  destruct (get_column_info s c); [|done..]. destruct Hc as [_ Hc]. rewrite bool_decide_eq_false_2; [done|]. destruct Hc; congruence.
Qed.

Lemma obj_key o a : obj_rep o a → get_key (vr_row o) = Done (key_blobs (ar_schema a) (ar_vals a)).
Proof. intros [H1 H2 H3 _ _ _]. rewrite (get_key_rep _ _ H1) by (by rewrite H2). by rewrite H2. Qed.

Lemma obj_key_typed o a : obj_rep o a → key_typed (ar_schema a) (key_values (ar_schema a) (ar_vals a)).
Proof. intros [H1 H2 H3 _ _ _]. rewrite <-H2. apply row_key_typed; [done|by rewrite H2]. Qed.

Section tables.
Context (d : memdb) (A : astore) (Hd : db_rep d A).

Lemma db_row_at p a : A !! p = Some a → ∃ o, row_at d p = Done o ∧ db_rows d !! p = Some o ∧ obj_rep o a.
Proof using Hd. intros Ha. destruct (dr_addr _ _ Hd p a Ha) as (o & Ho & Hr). exists o. unfold row_at. by rewrite Ho. Qed.

Lemma item_keys_rep l :
  (∀ i, i ∈ l → is_Some (A !! it_row i)) → item_keys d l = Done (blobs <$> (row_key A <$> l)).
Proof using Hd.
  induction l as [|i l IH]; intros Hl; [done|]. cbn. destruct (Hl i) as [a Ha]; [by left|].
  destruct (db_row_at _ a Ha) as (o & Hat & Ho & Hr). unfold item_key. rewrite Hat. cbn.
  rewrite (or_schema _ _ Hr), no_string_key, andb_false_r by apply Hr. rewrite (obj_key o a Hr). cbn.
  rewrite IH by (intros j Hj; apply Hl; by right). cbn.
  assert (row_key A i = key_values (ar_schema a) (ar_vals a)) as -> by (unfold row_key; by rewrite Ha). done.
Qed.

Context (t : nat) (tb : Table) (Ht : table_rep A t tb).

Lemma table_items i : i ∈ rows_ tb → ∃ a, A !! it_row i = Some a ∧ ar_tbl a = Some t ∧ ar_schema a = tb_schema tb.
Proof using Ht.
  intros Hi. destruct (proj1 (tr_rows _ _ _ Ht (it_row i))) as (a & Ha & Htb); [by apply list_elem_of_fmap_2|].
  exists a. split_and!; [done..|]. by apply (tr_schema _ _ _ Ht (it_row i)).
Qed.

Lemma table_keys : item_keys d (rows_ tb) = Done (blobs <$> (row_key A <$> rows_ tb)).
Proof using Hd Ht. apply item_keys_rep. intros i Hi. destruct (table_items i Hi) as (a & Ha & _). eauto. Qed.

Lemma table_keys_typed : Forall (key_typed (tb_schema tb)) (row_key A <$> rows_ tb).
Proof using Hd Ht.
  apply Forall_fmap, Forall_forall. intros i Hi. destruct (table_items i Hi) as (a & Ha & _ & Hs).
  cbn. unfold row_key. rewrite Ha, <-Hs. destruct (db_row_at _ a Ha) as (o & _ & _ & Hr). by apply (obj_key_typed o).
Qed.

(** The entry of a row is in the range of its key. *)
Lemma equal_range_rep p a :
  A !! p = Some a → ar_tbl a = Some t →
  ∃ l i n, equal_range d tb (key_blobs (ar_schema a) (ar_vals a)) = Done l ∧
    find_row tb p l = Some (n, i) ∧ option_map it_row (rows_ tb !! i) = Some p.
Proof using Hd Ht.
  intros Ha Hat. pose proof (proj2 (tr_rows _ _ _ Ht p) (ex_intro _ a (conj Ha Hat))) as Hp.
  apply list_elem_of_fmap_1 in Hp as (it & -> & Hit). apply list_elem_of_lookup_1 in Hit as [i Hi].
  pose proof table_keys_typed as Hty. pose proof (tr_schema _ _ _ Ht _ a Ha Hat) as Hs.
  assert (row_key A it = key_values (ar_schema a) (ar_vals a)) as Hkey by (unfold row_key; by rewrite Ha).
  assert (key_typed (tb_schema tb) (key_values (ar_schema a) (ar_vals a))) as Hk.
  { rewrite <-Hkey. eapply Forall_lookup_1; [exact Hty|]. by rewrite list_lookup_fmap, Hi. }
  enough (∃ l, equal_range d tb (key_blobs (ar_schema a) (ar_vals a)) = Done l ∧ i ∈ l) as (l & Hl & Hil).
  { destruct (list_find_elem_of (λ i0, option_map it_row (rows_ tb !! i0) = Some (it_row it)) l i Hil) as [[n j] Hj]; [by rewrite Hi|].
    exists l, j, n. split_and!; [done..|]. by apply list_find_Some in Hj as (_ & ? & _). }
  unfold equal_range. rewrite table_keys. cbn [mbind result_bind]. unfold key_blobs. destruct (rtti tb) eqn:Hrt.
  - destruct (lower_bound_spec _ _ Hk _ Hty) as (lo & -> & Hlo & Hlo1 & Hlo2). cbn [mbind result_bind].
    destruct (upper_bound_spec _ _ Hk _ Hty) as (hi & -> & Hhi & Hhi1 & Hhi2). cbn [mbind result_bind].
    eexists. split; [done|]. apply elem_of_seq.
    assert ((nums <$> (row_key A <$> rows_ tb)) !! i = Some (nums (key_values (ar_schema a) (ar_vals a)))) as Hni.
    { by rewrite !list_lookup_fmap, Hi; cbn; rewrite Hkey. }
    assert (lo ≤ i)%nat as H1.
    { destruct (decide (lo ≤ i)%nat); [done|]. pose proof (Hlo1 i _ ltac:(lia) Hni) as Hlt. unfold lex_lt in Hlt. by rewrite lex_refl in Hlt. }
    assert (i < hi)%nat as H2; [|lia].
    destruct (decide (i < hi)%nat); [done|]. exfalso.
    destruct (lookup_lt_is_Some_2 (nums <$> (row_key A <$> rows_ tb)) hi) as [x Hx]; [apply lookup_lt_Some in Hni; lia|].
    pose proof (Hhi2 x Hx) as Hlt.
    assert (lex_le x (nums (key_values (ar_schema a) (ar_vals a)))) as Hle.
    { destruct (decide (i = hi)) as [->|]; [rewrite Hni in Hx; simplify_eq; unfold lex_le; by rewrite lex_refl|].
      eapply (tr_order _ _ _ Ht Hrt hi i); [lia|done..]. }
    by apply lex_not_lt in Hle.
  - eexists. split; [done|]. apply list_elem_of_filter. split.
    + by rewrite !list_lookup_fmap, Hi; cbn; rewrite Hkey.
    + apply elem_of_seq. rewrite !length_fmap. apply lookup_lt_Some in Hi. lia.
Qed.
End tables.

(** ** Changing one row of the map *)

Section change.
Context (A : astore) (p : nat) (a' : arow).
Abbreviation A' := (<[p := a']> A).

Lemma row_key_other i : it_row i ≠ p → row_key A' i = row_key A i.
Proof. intros Hi. unfold row_key. by rewrite lookup_insert_ne. Qed.

(** The row was not in the table and is not there now. *)
Lemma table_rep_other t tb :
  table_rep A t tb → (∀ a, A !! p = Some a → ar_tbl a ≠ Some t) → ar_tbl a' ≠ Some t → table_rep A' t tb.
Proof.
  intros [H1 H2 H3 H4 H5] Hold Hnew. assert (p ∉ it_row <$> rows_ tb) as Hp by (rewrite H3; naive_solver).
  split; [done..| | |].
  - intros q. rewrite H3. destruct (decide (q = p)) as [->|Hq]; [rewrite lookup_insert_eq; naive_solver|by rewrite lookup_insert_ne].
  - intros q a Ha Hta. apply lookup_insert_Some in Ha as [[<- <-]|[? Ha]]; [done|by apply (H4 q)].
  - intros Hs. rewrite (list_fmap_ext (row_key A') (row_key A) (rows_ tb)); [by apply H5|]. intros i it Hi. apply row_key_other.
    intros <-. apply Hp, list_elem_of_fmap_2. by eapply list_elem_of_lookup_2.
Qed.

(** The row stays where it is with the same key. *)
Lemma table_rep_same a t tb :
  table_rep A t tb → A !! p = Some a → ar_tbl a' = ar_tbl a → ar_schema a' = ar_schema a →
  key_values (ar_schema a) (ar_vals a') = key_values (ar_schema a) (ar_vals a) → table_rep A' t tb.
Proof.
  intros [H1 H2 H3 H4 H5] Ha Htb Hs Hk. split; [done..| | |].
  - intros q. rewrite H3. destruct (decide (q = p)) as [->|Hq]; [|by rewrite lookup_insert_ne].
    rewrite lookup_insert_eq. split; intros (b & ? & ?); simplify_eq; eexists; split; [done|congruence|done|congruence].
  - intros q b Hb Htq. apply lookup_insert_Some in Hb as [[<- <-]|[? Hb]]; [|by apply (H4 q)]. rewrite Hs. apply (H4 p); congruence.
  - intros Hrt. rewrite (list_fmap_ext (row_key A') (row_key A) (rows_ tb)); [by apply H5|]. intros i it Hi. unfold row_key.
    destruct (decide (it_row it = p)) as [->|Hq]; [by rewrite lookup_insert_eq, Ha, Hs|by rewrite lookup_insert_ne].
Qed.

Lemma db_rep_put d o' :
  db_rep d A → obj_rep o' a' → (∀ t tb, db_tables d !! t = Some tb → table_rep A' t tb) →
  (∀ t, ar_tbl a' = Some t → ∃ tb, db_tables d !! t = Some tb) → db_rep (put_row p o' d) A'.
Proof.
  intros [H1 H2 H3 H4] Ho Ht Hl. split; cbn.
  - intros q o Hq. apply lookup_insert_Some in Hq as [[<- <-]|[Hne Hq]]; [exists a'; by rewrite lookup_insert_eq|].
    rewrite lookup_insert_ne by done. by apply H1.
  - intros q a Hq. apply lookup_insert_Some in Hq as [[<- <-]|[Hne Hq]]; [exists o'; by rewrite lookup_insert_eq|].
    rewrite lookup_insert_ne by done. by apply H2.
  - done.
  - intros q a t Hq Hqt. apply lookup_insert_Some in Hq as [[<- <-]|[Hne Hq]]; [by apply Hl|by eapply H4].
Qed.
End change.

Lemma db_rep_table d A t tb' :
  (∀ p o, db_rows d !! p = Some o → ∃ a, A !! p = Some a ∧ obj_rep o a) →
  (∀ p a, A !! p = Some a → ∃ o, db_rows d !! p = Some o ∧ obj_rep o a) →
  (∀ t' tb, t' ≠ t → db_tables d !! t' = Some tb → table_rep A t' tb) → table_rep A t tb' →
  (∀ p a t', A !! p = Some a → ar_tbl a = Some t' → t' ≠ t → ∃ tb, db_tables d !! t' = Some tb) →
  db_rep (put_table t tb' d) A.
Proof.
  intros H1 H2 H3 H4 H5. split; cbn; [done..| |].
  - intros t' tb Ht'. apply lookup_insert_Some in Ht' as [[<- <-]|[Hne Ht']]; [done|by apply H3].
  - intros p a t' Ha Hta. destruct (decide (t' = t)) as [->|Hne]; [rewrite lookup_insert_eq; eauto|].
    rewrite lookup_insert_ne by done. by eapply H5.
Qed.

Definition linked (t : option nat) (a : arow) : arow := mkARow t (ar_schema a) (ar_vals a).

Lemma obj_rep_link o a t b r :
  obj_rep o a → set_table b (vr_row o) = Done r → b = bool_decide (is_Some t) →
  obj_rep (mkVRow r t (vr_lock o) (vr_ver o)) (linked t a).
Proof.
  intros [H1 H2 H3 H4 H5 H6] Hr ->. unfold set_table in Hr. done_inv Hr. simplify_eq. split; cbn; try done.
  destruct H1. by split.
Qed.

Lemma set_table_ok o a b : obj_rep o a → (b = true → ar_tbl a = None) → ∃ r, set_table b (vr_row o) = Done r.
Proof.
  intros Hr Hb. unfold set_table. rewrite (or_linked _ _ Hr). destruct b; cbn; [|eauto]. rewrite Hb by done. cbn. eauto.
Qed.

(** ** Insertion and removal *)

Lemma fmap_insert_at {B C} (f : B → C) (l : list B) n x : (f <$> (take n l ++ x :: drop n l)) = take n (f <$> l) ++ f x :: drop n (f <$> l).
Proof. by rewrite fmap_app, fmap_cons, fmap_take, fmap_drop. Qed.

Lemma elem_of_insert_at {B} (l : list B) n x y : y ∈ take n l ++ x :: drop n l ↔ y = x ∨ y ∈ l.
Proof. rewrite elem_of_app, elem_of_cons. rewrite <-(take_drop n l) at 3. rewrite elem_of_app. tauto. Qed.

Lemma NoDup_insert_at {B} (l : list B) n x : NoDup (take n l ++ x :: drop n l) ↔ (x ∉ l) ∧ NoDup l.
Proof.
  assert (take n l ++ x :: drop n l ≡ₚ x :: l) as Hp by (rewrite <-(take_drop n l) at 3; symmetry; apply Permutation_middle).
  by rewrite Hp, NoDup_cons.
Qed.

Lemma table_insert_rep d A t tb p a :
  db_rep d A → A !! p = Some a → ar_tbl a = None → db_tables d !! t = Some tb → tb_schema tb = ar_schema a →
  ∃ d', table_insert t p d = Done d' ∧ db_rep d' (<[p := linked (Some t) a]> A) ∧ same_frame d d'.
Proof.
  intros Hd Ha Hn Ht Hs. destruct (db_row_at d A Hd p a Ha) as (o & Hat & Ho & Hr). pose proof (dr_table _ _ Hd t tb Ht) as Htb.
  unfold table_insert, table_at. rewrite Ht. cbn [mbind result_bind]. rewrite Hat. cbn [mbind result_bind].
  rewrite (obj_key o a Hr). cbn [mbind result_bind]. rewrite (or_schema _ _ Hr), bool_decide_eq_true_2 by done. cbn [verify mbind result_bind].
  destruct (set_table_ok o a true Hr) as [r Hst]; [done|]. rewrite Hst. cbn [mbind result_bind].
  rewrite (table_keys d A Hd t tb Htb). cbn [mbind result_bind].
  pose proof (table_keys_typed d A Hd t tb Htb) as Hty. pose proof (obj_key_typed o a Hr) as Hk. rewrite <-Hs in Hk at 1.
  assert (p ∉ it_row <$> rows_ tb) as Hp by (rewrite (tr_rows _ _ _ Htb); intros (b & ? & ?); simplify_eq; congruence).
  set (A' := <[p := linked (Some t) a]> A). set (it := mkItem p (is_dense (vr_row o))).
  assert (row_key A' <$> rows_ tb = row_key A <$> rows_ tb) as Hkeys.
  { apply list_fmap_ext. intros i j Hj. apply row_key_other. intros <-. apply Hp, list_elem_of_fmap_2. by eapply list_elem_of_lookup_2. }
  assert (∃ n, (match rtti tb with TBL_SORTED => upper_bound (tb_schema tb) (key_blobs (ar_schema a) (ar_vals a)) (blobs <$> (row_key A <$> rows_ tb))
      | TBL_UNSORTED => Done (length (blobs <$> (row_key A <$> rows_ tb))) end) = Done n ∧
      table_rep A' t (mkTable (rtti tb) (tb_schema tb) (take n (rows_ tb) ++ it :: drop n (rows_ tb)))) as (n & -> & Hnew).
  { assert (∀ n, (rtti tb = TBL_SORTED → ordered (nums <$> (row_key A' <$> (take n (rows_ tb) ++ it :: drop n (rows_ tb))))) →
      table_rep A' t (mkTable (rtti tb) (tb_schema tb) (take n (rows_ tb) ++ it :: drop n (rows_ tb)))) as Hmk.
    { intros n Hord. destruct Htb as [T1 T2 T3 T4 T5]. split; cbn; [done| | | |done].
      - rewrite fmap_insert_at. apply NoDup_insert_at. done.
      - intros q. rewrite fmap_insert_at, elem_of_insert_at, T3. cbn. unfold A'. destruct (decide (q = p)) as [->|Hq].
        + rewrite lookup_insert_eq. split; [|naive_solver]. intros _. eexists. split; done.
        + rewrite lookup_insert_ne by done. naive_solver.
      - intros q b Hb Hbt. unfold A' in Hb. apply lookup_insert_Some in Hb as [[<- <-]|[? Hb]]; [done|by apply (T4 q)]. }
    destruct (rtti tb) eqn:Hrt; [|eexists; split; [done|]; by apply Hmk].
    destruct (upper_bound_spec _ _ Hk _ Hty) as (n & Hn' & Hle & Hlo & Hhi). exists n. split; [done|]. apply Hmk. intros _.
    rewrite !fmap_insert_at, Hkeys. apply ordered_insert; [by apply (tr_order _ _ _ Htb)|done|..].
    - intros i x Hi Hx. unfold row_key. cbn. unfold A'. rewrite lookup_insert_eq. by apply (Hlo i).
    - intros x Hx. unfold row_key. cbn. unfold A'. rewrite lookup_insert_eq. by apply Hhi. }
  cbn [mbind result_bind]. eexists. split; [done|]. split.
  - apply db_rep_table; cbn.
    + intros q o1 Hq. apply lookup_insert_Some in Hq as [[<- <-]|[Hne Hq]].
      * exists (linked (Some t) a). unfold A'. rewrite lookup_insert_eq. split; [done|]. by eapply (obj_rep_link o a (Some t) true).
      * unfold A'. rewrite lookup_insert_ne by done. by apply (dr_row _ _ Hd).
    + intros q a1 Hq. unfold A' in Hq. apply lookup_insert_Some in Hq as [[<- <-]|[Hne Hq]].
      * eexists. rewrite lookup_insert_eq. split; [done|]. by eapply (obj_rep_link o a (Some t) true).
      * rewrite lookup_insert_ne by done. by apply (dr_addr _ _ Hd).
    + intros t' tb' Hne Ht'. apply table_rep_other; [by apply (dr_table _ _ Hd)| |cbn; congruence]. intros a1 Ha1. simplify_eq. congruence.
    + done.
    + intros q a1 t' Hq Hqt Hne. unfold A' in Hq. apply lookup_insert_Some in Hq as [[<- <-]|[? Hq]]; [cbn in Hqt; congruence|].
      by eapply (dr_linked _ _ Hd).
  - split; [by apply (meta_put_row d p o (mkVRow r (Some t) (vr_lock o) (vr_ver o)))|by eapply (shape_put_table (put_row p _ d) t tb)].
Qed.

Lemma table_remove_rep d A t p a :
  db_rep d A → A !! p = Some a → ar_tbl a = Some t →
  ∃ d', table_remove t p d = Done d' ∧ db_rep d' (<[p := linked None a]> A) ∧ same_frame d d'.
Proof.
  intros Hd Ha Hta. destruct (db_row_at d A Hd p a Ha) as (o & Hat & Ho & Hr). destruct (dr_linked _ _ Hd p a t Ha Hta) as [tb Ht].
  pose proof (dr_table _ _ Hd t tb Ht) as Htb. unfold table_remove, table_at. rewrite Ht. cbn [mbind result_bind]. rewrite Hat.
  cbn [mbind result_bind]. rewrite (obj_key o a Hr). cbn [mbind result_bind].
  destruct (equal_range_rep d A Hd t tb Htb p a Ha Hta) as (l & i & n & -> & Hf & Hi). cbn [mbind result_bind]. rewrite Hf.
  destruct (set_table_ok o a false Hr) as [r Hst]; [done|]. rewrite Hst. cbn [mbind result_bind]. eexists. split; [done|].
  set (A' := <[p := linked None a]> A). destruct (rows_ tb !! i) as [it|] eqn:Hit; [|done]. cbn in Hi. simplify_eq.
  assert (it_row <$> rows_ tb ≡ₚ it_row it :: (it_row <$> delete i (rows_ tb))) as Hperm.
  { rewrite <-fmap_cons. apply fmap_Permutation. by apply delete_Permutation. }
  assert (NoDup (it_row it :: (it_row <$> delete i (rows_ tb)))) as Hnd by (rewrite <-Hperm; apply Htb). apply NoDup_cons in Hnd as [Hnin Hnd].
  split.
  - apply db_rep_table; cbn.
    + intros q o1 Hq. apply lookup_insert_Some in Hq as [[<- <-]|[Hne Hq]].
      * exists (linked None a). unfold A'. rewrite lookup_insert_eq. split; [done|]. by eapply (obj_rep_link o a None false).
      * unfold A'. rewrite lookup_insert_ne by done. by apply (dr_row _ _ Hd).
    + intros q a1 Hq. unfold A' in Hq. apply lookup_insert_Some in Hq as [[<- <-]|[Hne Hq]].
      * eexists. rewrite lookup_insert_eq. split; [done|]. by eapply (obj_rep_link o a None false).
      * rewrite lookup_insert_ne by done. by apply (dr_addr _ _ Hd).
    + intros t' tb' Hne Ht'. apply table_rep_other; [by apply (dr_table _ _ Hd)| |done]. intros a1 Ha1. simplify_eq. congruence.
    + destruct Htb as [T1 T2 T3 T4 T5]. split; cbn; [done..| | |].
      * intros q. unfold A'. destruct (decide (q = it_row it)) as [->|Hq].
        -- rewrite lookup_insert_eq. split; [done|]. intros (b & ? & ?). by simplify_eq.
        -- rewrite lookup_insert_ne by done. rewrite <-T3, Hperm, elem_of_cons. tauto.
      * intros q b Hb Hbt. unfold A' in Hb. apply lookup_insert_Some in Hb as [[<- <-]|[? Hb]]; [done|by apply (T4 q)].
      * intros Hs. rewrite (list_fmap_ext (row_key A') (row_key A) (delete i (rows_ tb))).
        -- rewrite !list_fmap_delete. by apply ordered_delete, T5.
        -- intros j x Hx. apply row_key_other. intros Heq. apply Hnin. rewrite <-Heq. apply list_elem_of_fmap_2. by eapply list_elem_of_lookup_2.
    + intros q a1 t' Hq Hqt Hne. unfold A' in Hq. apply lookup_insert_Some in Hq as [[<- <-]|[? Hq]]; [done|]. by eapply (dr_linked _ _ Hd).
  - split; [by apply (meta_put_row d (it_row it) o (mkVRow r None (vr_lock o) (vr_ver o)))|by eapply (shape_put_table (put_row _ _ d) t tb)].
Qed.

(** ** Updates *)

Definition with_value (c : Z) (v : Value) (a : arow) : arow := mkARow (ar_tbl a) (ar_schema a) (<[Z.to_nat c := v]> (ar_vals a)).

Lemma key_values_insert s c v vs : 0 ≤ c → c ∉ key_cols_id_ s → (∀ k, k ∈ key_cols_id_ s → 0 ≤ k) →
  key_values s (<[Z.to_nat c := v]> vs) = key_values s vs.
Proof.
  intros Hc Hn Hk. unfold key_values. apply list_fmap_ext. intros i k Hi. unfold column. rewrite list_lookup_insert_ne; [done|].
  intros Heq. apply list_elem_of_lookup_2 in Hi. specialize (Hk k Hi). assert (k = c) as -> by lia. done.
Qed.

Lemma update_obj o a c v old :
  obj_rep o a → 0 ≤ c → ar_vals a !! Z.to_nat c = Some old → value_ok v → get_kind v = get_kind old →
  ∃ r, update (vr_row o) c v = Done (r, tuple_events (ar_schema a) (mkTuple (ar_vals a) false (bool_decide (is_Some (ar_tbl a)))) c old v) ∧
    row_rep r (<[Z.to_nat c := v]> (ar_vals a)) ∧ rdonly_ r = false ∧ tbl_ r = bool_decide (is_Some (ar_tbl a)) ∧ schema_ r = ar_schema a.
Proof.
  intros [H1 H2 H3 H4 H5 H6] Hc Hold Hv Hk.
  pose proof (row_step_refines (vr_row o) (mkTuple (ar_vals a) false (bool_decide (is_Some (ar_tbl a)))) (Update c v)) as Hst.
  cbn [tuple_step] in Hst. unfold column_lookup in Hst. cbn [t_values] in Hst. rewrite decide_True, Hold in Hst by done.
  cbn [t_readonly] in Hst. rewrite decide_True in Hst by done.
  destruct Hst as (r & Hr & (R1 & R2 & R3) & Hs); [by split|by right|]. cbn in Hr.
  destruct (update (vr_row o) c v) as [[r1 es]| |] eqn:Hu; cbn in Hr; simplify_eq. exists r. by rewrite H2 in *.
Qed.

Lemma row_update_rep d A p a c v old :
  db_rep d A → A !! p = Some a → 0 ≤ c → ar_vals a !! Z.to_nat c = Some old → value_ok v → get_kind v = get_kind old →
  ∃ d', row_update p c v d = Done d' ∧ db_rep d' (<[p := with_value c v a]> A) ∧ same_frame d d'.
Proof.
  intros Hd Ha Hc Hold Hv Hk. destruct (db_row_at d A Hd p a Ha) as (o & Hat & Ho & Hr).
  destruct (update_obj o a c v old Hr Hc Hold Hv Hk) as (r & Hu & Hrep & Hro & Htb & Hs).
  unfold row_update. rewrite Hat. cbn [mbind result_bind]. rewrite Hu. cbn [mbind result_bind].
  assert (∀ tl, obj_rep (mkVRow (mkRow (fixed_part_ r) (var_part_ r) (bool_decide (is_Some tl)) false (ar_schema a)) tl (vr_lock o) (vr_ver o))
    (linked tl (with_value c v a))) as Hobj.
  { intros tl. split; cbn; try done; [|apply Hr]. destruct Hrep as [R1 R2 R3 R4 R5]. rewrite Hs in *. by split. }
  assert (r = mkRow (fixed_part_ r) (var_part_ r) (bool_decide (is_Some (ar_tbl a))) false (ar_schema a)) as Hreq
    by (destruct r; cbn in *; congruence).
  assert (key_values (ar_schema a) (<[Z.to_nat c := v]> (ar_vals a)) = key_values (ar_schema a) (ar_vals a) ∨ ar_tbl a = None →
    ∃ d', Done (put_row p (mkVRow r (vr_tbl o) (vr_lock o) (vr_ver o)) d) = Done d' ∧ db_rep d' (<[p := with_value c v a]> A) ∧ same_frame d d') as Hstay.
  { intros Hkey. eexists. split; [done|]. split; [|split; [by apply (meta_put_row d p o)|done]]. apply db_rep_put; [done| | |].
    - rewrite (or_tbl _ _ Hr), Hreq. apply (Hobj (ar_tbl a)).
    - intros t tb Ht. pose proof (dr_table _ _ Hd t tb Ht) as Hrt. destruct Hkey as [Hkey|Hnone]; [by eapply table_rep_same|].
      apply table_rep_other; [done| |cbn; congruence]. intros a1 Ha1. simplify_eq. congruence.
    - intros t Ht. by eapply (dr_linked _ _ Hd p). }
  unfold tuple_events. destruct (decide (old = v)) as [<-|Hne]; [cbn; apply Hstay; left; by rewrite list_insert_id|]. cbn [t_linked].
  pose proof (or_plain _ _ Hr) as (Hsok & _ & Hkeys). pose proof (so_keys _ Hsok) as Hpos.
  destruct (default false (ci_indexed <$> col_info_ (ar_schema a) !! Z.to_nat c)) eqn:Hix; cbn [andb].
  - destruct (ar_tbl a) as [t|] eqn:Hta; rewrite (or_tbl _ _ Hr), Hta; cbn.
    + destruct (table_remove_rep d A t p a Hd Ha Hta) as (d1 & -> & Hd1 & Hf1). cbn [mbind result_bind].
      destruct (db_row_at d1 _ Hd1 p (linked None a)) as (o1 & Hat1 & Ho1 & Hr1); [by rewrite lookup_insert_eq|].
      rewrite Hat1. cbn [mbind result_bind].
      assert (vr_lock o1 = vr_lock o ∧ vr_ver o1 = vr_ver o) as [Hl1 Hv1].
      { destruct Hf1 as [Hm _]. assert (meta d1 !! p = meta d !! p) as Heq by by rewrite Hm. unfold meta in Heq.
        rewrite !lookup_fmap, Ho1, Ho in Heq. by simplify_eq/=. }
      rewrite (or_tbl _ _ Hr1), (or_linked _ _ Hr1), Hro, Hs, Hl1, Hv1. cbn [linked ar_tbl].
      set (d2 := put_row p _ d1).
      assert (db_rep d2 (<[p := linked None (with_value c v a)]> (<[p := linked None a]> A))) as Hd2.
      { apply db_rep_put; [done|apply (Hobj None)| |done]. intros t' tb' Ht'. apply table_rep_other; [by apply (dr_table _ _ Hd1)| |done].
        intros a1 Ha1. rewrite lookup_insert_eq in Ha1. by simplify_eq. }
      rewrite insert_insert_eq in Hd2. destruct (dr_linked _ _ Hd p a t Ha Hta) as [tb Ht].
      destruct (shape_table d d1 t tb (proj2 Hf1) Ht) as (tb1 & Ht1 & _ & Hsch).
      destruct (table_insert_rep d2 _ t tb1 p (linked None (with_value c v a)) Hd2) as (d3 & -> & Hd3 & Hf3);
        [by rewrite lookup_insert_eq|done|done|rewrite Hsch; cbn; symmetry; apply (tr_schema _ _ _ (dr_table _ _ Hd t tb Ht) p a Ha Hta)|].
      exists d3. split; [done|]. rewrite insert_insert_eq in Hd3. split; [unfold with_value; by rewrite Hta|].
      transitivity d1; [done|]. transitivity d2; [|done]. split; [by apply (meta_put_row d1 p o1)|done].
    + destruct Hstay as (d' & Hd' & Hrest); [by right|]. rewrite (or_tbl _ _ Hr), Hta in Hd'. rewrite Hd'. eauto.
  - apply Hstay. left. apply key_values_insert; [done| |intros k Hk'; by apply Hpos].
    intros Hin. rewrite Forall_forall in Hkeys. specialize (Hkeys c Hin). unfold get_column_info in Hkeys. rewrite decide_True in Hkeys by done.
    destruct (col_info_ (ar_schema a) !! Z.to_nat c); [|done]. cbn in Hix. destruct Hkeys. congruence.
Qed.

(** ** Reads, new rows, locks and versions *)

Lemma row_get_rep d A p a c v :
  db_rep d A → A !! p = Some a → 0 ≤ c → ar_vals a !! Z.to_nat c = Some v → row_get d p c = Done v.
Proof.
  intros Hd Ha Hc Hv. destruct (db_row_at d A Hd p a Ha) as (o & Hat & _ & Hr). unfold row_get. rewrite Hat. cbn.
  pose proof (rows_by_column _ _ _ _ (or_row _ _ Hr) Hv) as Hg. by rewrite Z2Nat.id in Hg by done.
Qed.

Lemma create_versioned_rep d A p s values :
  db_rep d A → A !! p = None → plain_schema s → Forall value_ok values → get_kind <$> values = take (columns_count s) (kinds s) →
  ∃ r, create_versioned p s values d = Done (put_row p (mkVRow r None RWLock_new (replicate (columns_count s) 0)) d) ∧
    db_rep (put_row p (mkVRow r None RWLock_new (replicate (columns_count s) 0)) d) (<[p := mkARow None s (values ++ hidden_values s)]> A).
Proof.
  intros Hd Hn Hs Hv Hk. destruct (create_rep s values (proj1 Hs) Hv Hk) as (r & Hr & Hrep & Hro & Htb & Hsc).
  exists r. unfold create_versioned. rewrite Hr. split; [done|]. apply db_rep_put; [done| | |done].
  - by split.
  - intros t tb Ht. apply table_rep_other; [by apply (dr_table _ _ Hd)| |done]. intros a Ha. congruence.
Qed.

(** Changing the lock or the versions of a row. *)
Lemma db_rep_meta d A p o l v :
  db_rep d A → db_rows d !! p = Some o → db_rep (put_row p (mkVRow (vr_row o) (vr_tbl o) l v) d) A.
Proof.
  intros Hd Ho. destruct (dr_row _ _ Hd p o Ho) as (a & Ha & Hr). rewrite <-(insert_id A p a Ha).
  apply db_rep_put; [done|by destruct Hr| |].
  - intros t tb Ht. eapply table_rep_same; [by apply (dr_table _ _ Hd)|done..].
  - intros t Ht. by eapply (dr_linked _ _ Hd p).
Qed.

Lemma db_rep_dom d A p : db_rep d A → db_rows d !! p = None ↔ A !! p = None.
Proof.
  intros Hd. split; intros Hn.
  - destruct (A !! p) as [a|] eqn:Ha; [|done]. destruct (dr_addr _ _ Hd p a Ha) as (o & ? & _). congruence.
  - destruct (db_rows d !! p) as [o|] eqn:Ho; [|done]. destruct (dr_row _ _ Hd p o Ho) as (a & ? & _). congruence.
Qed.

(** ** The contents of a table *)

Definition row_values (o : VersionedRow) : result (list Value) :=
  for_each (λ vs c, v ← get_column (vr_row o) c; Done (vs ++ [v])) (Z.of_nat <$> seq 0 (length (col_info_ (schema_ (vr_row o))))) [].

(** The rows of a table with the values of their columns. *)
Definition contents (d : memdb) (t : nat) : result (list (nat * list Value)) :=
  tb ← table_at d t;
  for_each (λ l i, o ← row_at d (it_row i); vs ← row_values o; Done (l ++ [(it_row i, vs)])) (rows_ tb) [].

Lemma row_values_rep o a : obj_rep o a → row_values o = Done (ar_vals a).
Proof.
  intros Hr. pose proof (or_row _ _ Hr) as Hrow. unfold row_values.
  assert (length (col_info_ (schema_ (vr_row o))) = length (ar_vals a)) as ->.
  { rewrite <-(length_fmap get_kind (ar_vals a)), (rr_kinds _ _ Hrow). unfold kinds. by rewrite length_fmap. }
  destruct (for_each_inv (λ vs c, v ← get_column (vr_row o) c; Done (vs ++ [v])) (λ l vs, vs = take (length l) (ar_vals a))
    (Z.of_nat <$> seq 0 (length (ar_vals a))) []) as (vs & -> & ->); [done| |].
  - intros l1 c l2 vs Heq ->. assert (c = Z.of_nat (length l1)) as ->.
    { apply (f_equal (.!! length l1)) in Heq. rewrite list_lookup_middle in Heq by done. apply list_lookup_fmap_Some in Heq as (i & -> & Hi).
      apply lookup_seq in Hi as [-> _]. done. }
    destruct (lookup_lt_is_Some_2 (ar_vals a) (length l1)) as [v Hv].
    { apply (f_equal length) in Heq. rewrite length_fmap, length_seq, length_app in Heq. cbn in Heq. lia. }
    rewrite (rows_by_column _ _ _ _ Hrow Hv). cbn. eexists. split; [done|]. rewrite length_app. cbn. rewrite Nat.add_1_r. symmetry. by apply take_S_r.
  - rewrite length_fmap, length_seq. by rewrite take_ge.
Qed.

Definition shown_row (A : astore) (i : item) : nat * list Value := (it_row i, default [] (ar_vals <$> A !! it_row i)).

Lemma contents_rep d A t tb :
  db_rep d A → db_tables d !! t = Some tb → contents d t = Done (shown_row A <$> rows_ tb).
Proof.
  intros Hd Ht. pose proof (dr_table _ _ Hd t tb Ht) as Htb. unfold contents, table_at. rewrite Ht. cbn [mbind result_bind].
  destruct (for_each_inv (λ l i, o ← row_at d (it_row i); vs ← row_values o; Done (l ++ [(it_row i, vs)])) (λ l r, r = shown_row A <$> l)
    (rows_ tb) []) as (r & -> & ->); [done| |done].
  intros l1 i l2 r Heq ->. destruct (table_items A t tb Htb i) as (a & Ha & _); [rewrite Heq; apply elem_of_app; right; by left|].
  destruct (db_row_at d A Hd _ a Ha) as (o & -> & _ & Hr). cbn. rewrite (row_values_rep o a Hr). cbn. eexists. split; [done|].
  rewrite fmap_app. cbn. unfold shown_row at 3. by rewrite Ha.
Qed.

(** Databases with the same rows in tables have the same tables. *)
Lemma contents_same d d' A A' t tb tb' :
  db_rep d A → db_rep d' A' → (∀ p a, ar_tbl a ≠ None → A !! p = Some a ↔ A' !! p = Some a) →
  db_tables d !! t = Some tb → db_tables d' !! t = Some tb' →
  ∃ l l', contents d t = Done l ∧ contents d' t = Done l' ∧ l ≡ₚ l'.
Proof.
  intros Hd Hd' Hsame Ht Ht'. eexists _, _. split; [by eapply contents_rep|]. split; [by eapply contents_rep|].
  pose proof (dr_table _ _ Hd t tb Ht) as Htb. pose proof (dr_table _ _ Hd' t tb' Ht') as Htb'.
  assert (∀ B u r, table_rep B t r → NoDup (shown_row B <$> rows_ r) ∧
    (u ∈ shown_row B <$> rows_ r ↔ ∃ a, B !! u.1 = Some a ∧ ar_tbl a = Some t ∧ u.2 = ar_vals a)) as Hmem.
  { intros B u r Hr. split.
    - apply (NoDup_fmap_1 fst). rewrite <-list_fmap_compose. apply Hr.
    - rewrite list_elem_of_fmap. split.
      + intros (i & -> & Hi). destruct (table_items B t r Hr i Hi) as (a & Ha & Hat & _). exists a. cbn. by rewrite Ha.
      + intros (a & Ha & Hat & Hu). pose proof (proj2 (tr_rows _ _ _ Hr u.1) (ex_intro _ a (conj Ha Hat))) as Hin.
        apply list_elem_of_fmap_1 in Hin as (i & Hi & Hin). exists i. split; [|done]. unfold shown_row. rewrite <-Hi, Ha. destruct u. cbn in *. by subst. }
  apply NoDup_Permutation; [apply (Hmem A (0%nat, []) tb Htb)|apply (Hmem A' (0%nat, []) tb' Htb')|]. intros u. rewrite (proj2 (Hmem A u tb Htb)), (proj2 (Hmem A' u tb' Htb')).
  split; intros (a & Ha & Hat & Hu); exists a; (split; [|done]); apply Hsame; try done; congruence.
Qed.
