(* ===== verification/Occ.v ===== *)
(** * Transactions of memdb: direct and optimistic

    Models [TxnUnsafe] and [TxnOCC] of src/rococo-dst/memdb/txn.{h,cc}, and how a
    ROCOCO server in OCC mode runs them: [DTxnMgr::get_mdb_txn] and [del_mdb_txn] of
    deptran/dtxn.cpp, [prepare], [commit] and [abort] of deptran/tpl/tpl.cpp.

    An optimistic transaction writes into staging areas ([updates_], [inserts_],
    [removes_]) and remembers the versions of the columns it read or wrote.
    [commit_prepare] checks the versions and locks the rows, [commit_confirm] applies
    the staged changes.

    The containers ordered by address ([updates_], [reads_]) are ordered by the number
    of the address; the hash maps are iterated in the order of [map_to_list].  Tables
    are sorted or unsorted ones, so the branch of [commit_confirm] for snapshot tables
    and read-only transactions do not occur.  Reference counts ([accessed_rows_]) are
    left out: a row object stays.  The assertions [debug_check_row_valid] are compiled
    out by the build; [allowed] below states them for the clients. *)

From S2P Require Import Prelude SparseInt RWLock MemRow MemTable.

(** ** Direct transactions *)

(** [TxnUnsafe]; [NewRow] is [VersionedRow::create] with the schema of a table. *)
Inductive op :=
  | NewRow (t p : nat) (values : list Value)
  | ReadColumn (p : nat) (c : Z)
  | WriteColumn (p : nat) (c : Z) (v : Value)
  | InsertRow (t p : nat)
  | RemoveRow (t p : nat).

Abbreviation answer := (option Value).

Definition new_row (t p : nat) (values : list Value) (d : memdb) : result memdb :=
  tb ← table_at d t;
  create_versioned p (tb_schema tb) values d.

Definition unsafe_op (d : memdb) (o : op) : result (memdb * answer) :=
  match o with
  | NewRow t p values => d ← new_row t p values d; Done (d, None)
  | ReadColumn p c => v ← row_get d p c; Done (d, Some v)
  | WriteColumn p c v => d ← row_update p c v d; Done (d, None)
  | InsertRow t p => d ← table_insert t p d; Done (d, None)
  | RemoveRow t p => d ← table_remove t p d; Done (d, None)
  end.

Fixpoint unsafe_run (d : memdb) (os : list op) : result (memdb * list answer) :=
  match os with
  | [] => Done (d, [])
  | o :: os => '(d, a) ← unsafe_op d o; '(d, l) ← unsafe_run d os; Done (d, a :: l)
  end.

(** ** Optimistic transactions *)

Inductive outcome := NONE | TXN_ABORT | TXN_COMMIT.
#[export] Instance outcome_eq_dec : EqDecision outcome.
Proof. solve_decision. Defined.
Inductive policy := OCC_EAGER | OCC_LAZY.
#[export] Instance policy_eq_dec : EqDecision policy.
Proof. solve_decision. Defined.

Record TxnOCC := mkOcc {
  txnid_ : Z;
  outcome_ : outcome;
  reads_ : list (nat * Z);
  updates_ : list (nat * (Z * Value));
  inserts_ : list (nat * nat);
  removes_ : list (nat * nat);
  locks_ : list nat;
  ver_check_read_ : gmap (nat * Z) Z;
  ver_check_write_ : gmap (nat * Z) Z;
  verified_ : bool;
  policy_ : policy;
}.

Definition TxnOCC_new (id : Z) : TxnOCC := mkOcc id NONE [] [] [] [] [] ∅ ∅ false OCC_EAGER.

Definition set_policy (pol : policy) (x : TxnOCC) : TxnOCC :=
  mkOcc (txnid_ x) (outcome_ x) (reads_ x) (updates_ x) (inserts_ x) (removes_ x) (locks_ x)
    (ver_check_read_ x) (ver_check_write_ x) (verified_ x) pol.

(** [insert_into_map] for a map with one entry per key, and for a multimap by address. *)
Definition insert_absent {K A} `{Countable K} (k : K) (x : A) (m : gmap K A) : gmap K A :=
  match m !! k with Some _ => m | None => <[k := x]> m end.

Fixpoint multimap_insert {A} (p : nat) (x : A) (l : list (nat * A)) : list (nat * A) :=
  match l with
  | [] => [(p, x)]
  | (q, y) :: l => if decide (p < q)%nat then (p, x) :: (q, y) :: l else (q, y) :: multimap_insert p x l
  end.

(** The staged value of a column: the first entry of [equal_range] for it. *)
Fixpoint find_update (p : nat) (c : Z) (l : list (nat * (Z * Value))) : option Value :=
  match l with
  | [] => None
  | (q, (c', v)) :: l => if decide (q = p ∧ c' = c) then Some v else find_update p c l
  end.

(** [it->second.second = value] *)
Fixpoint replace_update (p : nat) (c : Z) (w : Value) (l : list (nat * (Z * Value))) : list (nat * (Z * Value)) :=
  match l with
  | [] => []
  | (q, (c', v)) :: l => if decide (q = p ∧ c' = c) then (q, (c', w)) :: l else (q, (c', v)) :: replace_update p c w l
  end.

Definition set_stage (u : list (nat * (Z * Value))) (i r : list (nat * nat)) (x : TxnOCC) : TxnOCC :=
  mkOcc (txnid_ x) (outcome_ x) (reads_ x) u i r (locks_ x) (ver_check_read_ x) (ver_check_write_ x) (verified_ x) (policy_ x).
Definition note_read (p : nat) (c : Z) (ver : Z) (x : TxnOCC) : TxnOCC :=
  mkOcc (txnid_ x) (outcome_ x) (multimap_insert p c (reads_ x)) (updates_ x) (inserts_ x) (removes_ x) (locks_ x)
    (insert_absent (p, c) ver (ver_check_read_ x)) (ver_check_write_ x) (verified_ x) (policy_ x).
Definition note_write (p : nat) (c : Z) (ver : Z) (x : TxnOCC) : TxnOCC :=
  mkOcc (txnid_ x) (outcome_ x) (reads_ x) (updates_ x) (inserts_ x) (removes_ x) (locks_ x)
    (ver_check_read_ x) (insert_absent (p, c) ver (ver_check_write_ x)) (verified_ x) (policy_ x).
Definition set_locks (l : list nat) (x : TxnOCC) : TxnOCC :=
  mkOcc (txnid_ x) (outcome_ x) (reads_ x) (updates_ x) (inserts_ x) (removes_ x) l
    (ver_check_read_ x) (ver_check_write_ x) (verified_ x) (policy_ x).
Definition set_verified (x : TxnOCC) : TxnOCC :=
  mkOcc (txnid_ x) (outcome_ x) (reads_ x) (updates_ x) (inserts_ x) (removes_ x) (locks_ x)
    (ver_check_read_ x) (ver_check_write_ x) true (policy_ x).
Definition set_outcome (o : outcome) (x : TxnOCC) : TxnOCC :=
  mkOcc (txnid_ x) o (reads_ x) (updates_ x) (inserts_ x) (removes_ x) (locks_ x)
    (ver_check_read_ x) (ver_check_write_ x) (verified_ x) (policy_ x).

(** [TxnOCC::read_column] *)
Definition occ_read_column (d : memdb) (x : TxnOCC) (p : nat) (c : Z) : result (TxnOCC * Value) :=
  _ ← verify (bool_decide (outcome_ x = NONE));
  o ← row_at d p;
  match vr_tbl o with
  | None => v ← get_column (vr_row o) c; Done (x, v)
  | Some _ =>
      match find_update p c (updates_ x) with
      | Some v => Done (x, v)
      | None =>
          ver ← get_column_ver d p c;
          v ← get_column (vr_row o) c;
          Done (note_read p c ver x, v)
      end
  end.

(** [TxnOCC::write_column] *)
Definition occ_write_column (d : memdb) (x : TxnOCC) (p : nat) (c : Z) (v : Value) : result (memdb * TxnOCC) :=
  _ ← verify (bool_decide (outcome_ x = NONE));
  o ← row_at d p;
  match vr_tbl o with
  | None => d ← row_update p c v d; Done (d, x)
  | Some _ =>
      match find_update p c (updates_ x) with
      | Some _ => Done (d, set_stage (replace_update p c v (updates_ x)) (inserts_ x) (removes_ x) x)
      | None =>
          d ← (if decide (policy_ x = OCC_EAGER) then incr_column_ver p c d else Done d);
          ver ← get_column_ver d p c;
          let x := note_write p c ver x in
          Done (d, set_stage (multimap_insert p (c, v) (updates_ x)) (inserts_ x) (removes_ x) x)
      end
  end.

(** [Row::operator<], [table_row_pair::operator<] on rows *)
Definition row_lt (d : memdb) (p q : nat) : result bool :=
  if decide (p = q) then Done false
  else
    a ← row_at d p; b ← row_at d q;
    _ ← verify (bool_decide (schema_ (vr_row a) = schema_ (vr_row b)));
    k ← get_key (vr_row a); k' ← get_key (vr_row b);
    key_lt (schema_ (vr_row a)) k k'.

Definition pair_lt (d : memdb) (a b : nat * nat) : result bool :=
  if decide (a.1 = b.1) then row_lt d a.2 b.2 else Done (bool_decide (a.1 < b.1)%nat).

(** Insertion into the multiset, and its elements equivalent to a pair. *)
Fixpoint multiset_insert (d : memdb) (a : nat * nat) (l : list (nat * nat)) : result (list (nat * nat)) :=
  match l with
  | [] => Done [a]
  | b :: l => lt ← pair_lt d a b; if lt : bool then Done (a :: b :: l) else l ← multiset_insert d a l; Done (b :: l)
  end.

Fixpoint staged_at (d : memdb) (a : nat * nat) (l : list (nat * nat)) : result (option nat) :=
  match l with
  | [] => Done None
  | b :: l =>
      lt ← pair_lt d a b; gt ← pair_lt d b a;
      if negb lt && negb gt && bool_decide (b.2 = a.2) then Done (Some 0%nat)
      else r ← staged_at d a l; Done (option_map S r)
  end.

(** [TxnOCC::insert_row] *)
Definition occ_insert_row (d : memdb) (x : TxnOCC) (t p : nat) : result TxnOCC :=
  _ ← verify (bool_decide (outcome_ x = NONE));
  o ← row_at d p;
  _ ← verify (bool_decide (vr_tbl o = None));
  l ← multiset_insert d (t, p) (inserts_ x);
  Done (set_stage (updates_ x) l (filter (λ a, a ≠ (t, p)) (removes_ x)) x).

(** The loop of [TxnOCC::remove_row] over the columns. *)
Definition note_row (p : nat) (cols : list Z) (d : memdb) (x : TxnOCC) : result (memdb * TxnOCC) :=
  for_each (λ '(d, x) c,
    d ← (if decide (policy_ x = OCC_EAGER) then incr_column_ver p c d else Done d);
    ver ← get_column_ver d p c;
    Done (d, note_write p c ver x)) cols (d, x).

Definition column_ids (s : Schema) : list Z := Z.of_nat <$> seq 0 (columns_count s).

(** [TxnOCC::remove_row] *)
Definition occ_remove_row (d : memdb) (x : TxnOCC) (t p : nat) : result (memdb * TxnOCC) :=
  _ ← verify (bool_decide (outcome_ x = NONE));
  at_ ← staged_at d (t, p) (inserts_ x);
  '(d, x) ← match at_ with
    | None =>
        o ← row_at d p;
        '(d, x) ← note_row p (column_ids (schema_ (vr_row o))) d x;
        Done (d, set_stage (updates_ x) (inserts_ x) (if decide ((t, p) ∈ removes_ x) then removes_ x else removes_ x ++ [(t, p)]) x)
    | Some i => Done (d, set_stage (updates_ x) (delete i (inserts_ x)) (removes_ x) x)
    end;
  Done (d, set_stage (filter (λ u, u.1 ≠ p) (updates_ x)) (inserts_ x) (removes_ x) x).

(** [TxnOCC::version_check] of one map, and of both. *)
Fixpoint versions_match (d : memdb) (l : list (nat * Z * Z)) : result bool :=
  match l with
  | [] => Done true
  | (p, c, ver) :: l => now ← get_column_ver d p c; if decide (now = ver) then versions_match d l else Done false
  end.

Definition version_check (d : memdb) (x : TxnOCC) : result bool :=
  b ← versions_match d (map_to_list (ver_check_read_ x));
  if b : bool then versions_match d (map_to_list (ver_check_write_ x)) else Done false.

(** Unlocking what the transaction has locked. *)
Definition unlock_all (id : Z) (l : list nat) (d : memdb) : result memdb :=
  for_each (λ d p, '(d, _) ← unlock_row_by id p d; Done d) l d.

(** [TxnOCC::release_resource] *)
Definition release_resource (d : memdb) (x : TxnOCC) : result (memdb * TxnOCC) :=
  d ← unlock_all (txnid_ x) (locks_ x) d;
  Done (d, mkOcc (txnid_ x) (outcome_ x) (reads_ x) [] [] [] [] ∅ ∅ (verified_ x) (policy_ x)).

(** [TxnOCC::abort] *)
Definition occ_abort (d : memdb) (x : TxnOCC) : result (memdb * TxnOCC) :=
  _ ← verify (bool_decide (outcome_ x = NONE));
  release_resource d (set_outcome TXN_ABORT x).

(** A loop of [commit_prepare]: lock the rows one after the other; at the first
    refusal unlock everything. *)
Fixpoint lock_rows (lock : nat → memdb → result (memdb * bool)) (l : list nat) (d : memdb) (x : TxnOCC) : result (memdb * TxnOCC * bool) :=
  match l with
  | [] => Done (d, x, true)
  | p :: l =>
      '(d, b) ← lock p d;
      if b : bool then lock_rows lock l d (set_locks (p :: locks_ x) x)
      else d ← unlock_all (txnid_ x) (locks_ x) d; Done (d, set_locks [] x, false)
  end.

Definition rows_of (m : gmap (nat * Z) Z) : list nat := (λ e, e.1.1) <$> map_to_list m.

(** [TxnOCC::commit_prepare] *)
Definition commit_prepare (d : memdb) (x : TxnOCC) : result (memdb * TxnOCC * bool) :=
  _ ← verify (bool_decide (outcome_ x = NONE));
  _ ← verify (negb (verified_ x));
  ok ← version_check d x;
  if negb ok then Done (d, x, false)
  else
    '(d, x, b) ← lock_rows (rlock_row_by (txnid_ x)) (rows_of (ver_check_read_ x)) d x;
    if negb b then Done (d, x, false)
    else
      '(d, x, b) ← lock_rows (wlock_row_by (txnid_ x)) (rows_of (ver_check_write_ x)) d x;
      if negb b then Done (d, x, false) else Done (d, set_verified x, true).

(** The three loops of [TxnOCC::commit_confirm]. *)
Definition apply_inserts (l : list (nat * nat)) (d : memdb) : result memdb := for_each (λ d a, table_insert a.1 a.2 d) l d.

Definition apply_update (pol : policy) (d : memdb) (u : nat * (Z * Value)) : result memdb :=
  o ← row_at d u.1;
  match vr_tbl o with
  | None => Crash invalid_access
  | Some t =>
      _ ← table_at d t;
      d ← row_update u.1 u.2.1 u.2.2 d;
      if decide (pol = OCC_LAZY) then incr_column_ver u.1 u.2.1 d else Done d
  end.

Definition apply_remove (pol : policy) (d : memdb) (a : nat * nat) : result memdb :=
  d ← (if decide (pol = OCC_LAZY) then
         o ← row_at d a.2;
         for_each (λ d c, incr_column_ver a.2 c d) (column_ids (schema_ (vr_row o))) d
       else Done d);
  table_remove a.1 a.2 d.

(** [TxnOCC::commit_confirm] *)
Definition commit_confirm (d : memdb) (x : TxnOCC) : result (memdb * TxnOCC) :=
  _ ← verify (bool_decide (outcome_ x = NONE));
  _ ← verify (verified_ x);
  d ← apply_inserts (inserts_ x) d;
  d ← for_each (apply_update (policy_ x)) (updates_ x) d;
  d ← for_each (apply_remove (policy_ x)) (removes_ x) d;
  let x := set_locks (filter (λ p, p ∉ (removes_ x).*2) (locks_ x)) x in
  release_resource d (set_outcome TXN_COMMIT x).

(** [TxnOCC::commit], in one phase *)
Definition occ_commit (d : memdb) (x : TxnOCC) : result (memdb * TxnOCC * bool) :=
  _ ← verify (bool_decide (outcome_ x = NONE));
  ok ← version_check d x;
  if negb ok then Done (d, x, false)
  else '(d, x) ← commit_confirm d (set_verified x); Done (d, x, true).

(** One operation of an optimistic transaction. *)
Definition occ_op (d : memdb) (x : TxnOCC) (o : op) : result (memdb * TxnOCC * answer) :=
  match o with
  | NewRow t p values => d ← new_row t p values d; Done (d, x, None)
  | ReadColumn p c => '(x, v) ← occ_read_column d x p c; Done (d, x, Some v)
  | WriteColumn p c v => '(d, x) ← occ_write_column d x p c v; Done (d, x, None)
  | InsertRow t p => x ← occ_insert_row d x t p; Done (d, x, None)
  | RemoveRow t p => '(d, x) ← occ_remove_row d x t p; Done (d, x, None)
  end.

(** ** The server *)

(** [sv_log] and [sv_done] are history: what the running transactions did and were
    answered, and the committed ones in the order of their commits. *)
Record server := mkServer {
  sv_db : memdb;
  mdb_txns_ : gmap Z TxnOCC;
  sv_log : gmap Z (list (op * answer));
  sv_done : list (list (op * answer));
}.

Definition empty_db (ts : gmap nat (symbol_t * Schema)) : memdb := mkDb ∅ ((λ k, mkTable k.1 k.2 []) <$> ts).
Definition new_server (ts : gmap nat (symbol_t * Schema)) : server := mkServer (empty_db ts) ∅ ∅ [].

(** [DTxnMgr::get_mdb_txn] in OCC mode *)
Definition get_mdb_txn (tid : Z) (sv : server) : TxnOCC :=
  match mdb_txns_ sv !! tid with Some x => x | None => set_policy OCC_LAZY (TxnOCC_new tid) end.

(** [DTxnMgr::del_mdb_txn] *)
Definition del_mdb_txn (tid : Z) (sv : server) : result (TxnOCC * gmap Z TxnOCC) :=
  match mdb_txns_ sv !! tid with Some x => Done (x, delete tid (mdb_txns_ sv)) | None => Crash assert_failed end.

Definition log_of (tid : Z) (sv : server) : list (op * answer) := default [] (sv_log sv !! tid).

Inductive request := Op (tid : Z) (o : op) | Prepare (tid : Z) | Commit (tid : Z) | Abort (tid : Z).

(** What the caller of a request gets: the answer of an operation, or whether
    [TPLDTxn::prepare] succeeded. *)
Inductive reply := Answer (a : answer) | Prepared (b : bool) | Finished.

(** One request.  The operations of a transaction are those on rows and columns;
    queries are modelled apart, in OccQuery.v: nothing about them is checked when the
    transaction commits, so that rows inserted meanwhile (phantoms) go unnoticed and
    serialisability does not extend to them. *)
Definition serve (sv : server) (rq : request) : result (server * reply) :=
  match rq with
  | Op tid o =>
      '(d, x, a) ← occ_op (sv_db sv) (get_mdb_txn tid sv) o;
      Done (mkServer d (<[tid := x]> (mdb_txns_ sv)) (<[tid := log_of tid sv ++ [(o, a)]]> (sv_log sv)) (sv_done sv), Answer a)
  | Prepare tid =>
      '(d, x, b) ← commit_prepare (sv_db sv) (get_mdb_txn tid sv);
      Done (mkServer d (<[tid := x]> (mdb_txns_ sv)) (sv_log sv) (sv_done sv), Prepared b)
  | Commit tid =>
      '(x, m) ← del_mdb_txn tid sv;
      '(d, _) ← commit_confirm (sv_db sv) x;
      Done (mkServer d m (delete tid (sv_log sv)) (sv_done sv ++ [log_of tid sv]), Finished)
  | Abort tid =>
      '(x, m) ← del_mdb_txn tid sv;
      '(d, _) ← occ_abort (sv_db sv) x;
      Done (mkServer d m (delete tid (sv_log sv)) (sv_done sv), Finished)
  end.
