(* ===== verification/OccSpec.v ===== *)
(** * Optimistic transactions: the atomic specification

    A transaction of the specification acts on a map from addresses to rows, one
    operation after the other; the direct transactions implement it.  [allowed] is what
    the clients of an optimistic transaction respect. *)

From S2P Require Import Prelude SparseInt RWLock MemRow MemRowSpec MemTable MemTableSpec Occ.

Abbreviation layout := (gmap nat (symbol_t * Schema)).
Abbreviation history := (list (op * answer)).

(** ** Atomic operations *)

Inductive atomic (ts : layout) : astore → op → answer → astore → Prop :=
  | at_new A t p values k s :
      ts !! t = Some (k, s) → A !! p = None → Forall value_ok values → get_kind <$> values = take (columns_count s) (kinds s) →
      atomic ts A (NewRow t p values) None (<[p := mkARow None s (values ++ hidden_values s)]> A)
  | at_read A p c a v :
      A !! p = Some a → 0 ≤ c → ar_vals a !! Z.to_nat c = Some v →
      atomic ts A (ReadColumn p c) (Some v) A
  | at_write A p c v a old :
      A !! p = Some a → 0 ≤ c → ar_vals a !! Z.to_nat c = Some old → value_ok v → get_kind v = get_kind old →
      atomic ts A (WriteColumn p c v) None (<[p := with_value c v a]> A)
  | at_insert A t p a k :
      A !! p = Some a → ar_tbl a = None → ts !! t = Some (k, ar_schema a) →
      atomic ts A (InsertRow t p) None (<[p := linked (Some t) a]> A)
  | at_remove A t p a :
      A !! p = Some a → ar_tbl a = Some t →
      atomic ts A (RemoveRow t p) None (<[p := linked None a]> A).

Inductive atomic_run (ts : layout) : astore → history → astore → Prop :=
  | ar_nil A : atomic_run ts A [] A
  | ar_cons A o a A1 l A2 : atomic ts A o a A1 → atomic_run ts A1 l A2 → atomic_run ts A ((o, a) :: l) A2.

Lemma atomic_run_app ts A l1 A1 l2 A2 : atomic_run ts A l1 A1 → atomic_run ts A1 l2 A2 → atomic_run ts A (l1 ++ l2) A2.
Proof. intros H1 H2. induction H1; [done|]. econstructor; eauto. Qed.

Lemma atomic_run_snoc ts A l A1 o a A2 : atomic_run ts A l A1 → atomic ts A1 o a A2 → atomic_run ts A (l ++ [(o, a)]) A2.
Proof. intros H1 H2. eapply atomic_run_app; [done|]. econstructor; [done|constructor]. Qed.

Definition plain_layout (ts : layout) : Prop := ∀ t k s, ts !! t = Some (k, s) → plain_schema s.

Lemma shape_lookup d ts t k s : shape d = ts → ts !! t = Some (k, s) → ∃ tb, db_tables d !! t = Some tb ∧ rtti tb = k ∧ tb_schema tb = s.
Proof.
  intros <- Ht. unfold shape in Ht. rewrite lookup_fmap in Ht. destruct (db_tables d !! t) as [tb|]; [|done]. cbn in Ht. simplify_eq. eauto.
Qed.

Lemma new_row_rep ts d A t p k s values :
  plain_layout ts → db_rep d A → shape d = ts → ts !! t = Some (k, s) → A !! p = None → Forall value_ok values →
  get_kind <$> values = take (columns_count s) (kinds s) →
  ∃ r, let d' := put_row p (mkVRow r None RWLock_new (replicate (columns_count s) 0)) d in
    new_row t p values d = Done d' ∧ db_rep d' (<[p := mkARow None s (values ++ hidden_values s)]> A) ∧ shape d' = ts.
Proof.
  intros Hts Hd Hsh Ht Hn Hv Hk. destruct (shape_lookup d ts t k s Hsh Ht) as (tb & Htb & _ & Hs).
  destruct (create_versioned_rep d A p s values Hd Hn) as (r & Hr & Hrep); [by eapply Hts|done..|].
  exists r. unfold new_row, table_at. rewrite Htb. cbn. by rewrite Hs, Hr.
Qed.

(** Direct transactions implement the atomic operations. *)
Lemma unsafe_op_atomic ts d A o a A' :
  plain_layout ts → db_rep d A → shape d = ts → atomic ts A o a A' →
  ∃ d', unsafe_op d o = Done (d', a) ∧ db_rep d' A' ∧ shape d' = ts.
Proof.
  intros Hts Hd Hsh Hat. destruct Hat as [A t p values k s Ht Hn Hv Hk|A p c a v Ha Hc Hv|A p c v a old Ha Hc Hold Hv Hk|A t p a k Ha Hn Ht|A t p a Ha Ht]; cbn.
  - destruct (new_row_rep ts d A t p k s values) as (r & -> & Hrep & Hs); [done..|]. cbn. eauto.
  - rewrite (row_get_rep d A p a c v) by done. cbn. eauto.
  - destruct (row_update_rep d A p a c v old) as (d' & -> & Hd' & [_ Hf]); [done..|]. cbn. exists d'. by rewrite Hf.
  - destruct (shape_lookup d ts t _ _ Hsh Ht) as (tb & Htb & _ & Hs).
    destruct (table_insert_rep d A t tb p a) as (d' & -> & Hd' & [_ Hf]); [done..|]. cbn. exists d'. by rewrite Hf.
  - destruct (table_remove_rep d A t p a) as (d' & -> & Hd' & [_ Hf]); [done..|]. cbn. exists d'. by rewrite Hf.
Qed.

Lemma unsafe_run_atomic ts d A l A' :
  plain_layout ts → db_rep d A → shape d = ts → atomic_run ts A l A' →
  ∃ d', unsafe_run d l.*1 = Done (d', l.*2) ∧ db_rep d' A' ∧ shape d' = ts.
Proof.
  intros Hts Hd Hsh Hr. revert d Hd Hsh. induction Hr as [A|A o a A1 l A2 Hat _ IH]; intros d Hd Hsh; [by exists d|].
  destruct (unsafe_op_atomic ts d A o a A1) as (d1 & Hd1 & Hr1 & Hs1); [done..|]. destruct (IH d1 Hr1 Hs1) as (d2 & Hd2 & Hr2 & Hs2).
  exists d2. cbn. rewrite Hd1. cbn. rewrite Hd2. done.
Qed.

Lemma empty_db_rep ts : plain_layout ts → db_rep (empty_db ts) ∅ ∧ shape (empty_db ts) = ts.
Proof.
  intros Hts. split.
  - split; cbn; [done|done| |done]. intros t tb Ht. rewrite lookup_fmap in Ht. destruct (ts !! t) as [[k s]|] eqn:Hk; [|done].
    cbn in Ht. simplify_eq. split; cbn; [by eapply Hts|by constructor| |done|done].
    intros p. split; [by intros ?%not_elem_of_nil|by intros (a & ? & _)].
  - unfold shape, empty_db. cbn. rewrite <-map_fmap_compose. rewrite <-(map_fmap_id ts) at 2. apply map_fmap_ext. intros t [k s] _. done.
Qed.

(** ** What the clients of a transaction respect *)

Definition created (l : history) : list nat := omap (λ e, match e.1 with NewRow _ p _ => Some p | _ => None end) l.
Definition dropped (l : history) : list nat := omap (λ e, match e.1 with RemoveRow _ p => Some p | _ => None end) l.

Definition value_okb (v : Value) : bool :=
  match v with
  | VUnknown => false
  | VI32 z => bool_decide (- 2 ^ 31 ≤ z < 2 ^ 31)
  | VI64 z => bool_decide (- 2 ^ 63 ≤ z < 2 ^ 63)
  | VDouble z => bool_decide (0 ≤ z < 2 ^ 64)
  | VStr _ => true
  end.

Lemma value_okb_ok v : value_okb v = true ↔ value_ok v.
Proof. destruct v; cbn; rewrite ?bool_decide_eq_true; naive_solver. Qed.

(** A row is used while it is in a table or was created by the transaction, and not
    after the transaction removed it. *)
Definition usable (o : VersionedRow) (l : history) (p : nat) : bool :=
  (bool_decide (vr_tbl o ≠ None) || bool_decide (p ∈ created l)) && bool_decide (p ∉ dropped l).

Definition visible_column (o : VersionedRow) (c : Z) : bool := bool_decide (0 ≤ c < Z.of_nat (columns_count (schema_ (vr_row o)))).

Definition column_kind (o : VersionedRow) (c : Z) : option kind :=
  match get_column_info (schema_ (vr_row o)) c with Done ci => Some (ci_type ci) | _ => None end.

Definition on_row (d : memdb) (p : nat) (f : VersionedRow → bool) : bool :=
  match db_rows d !! p with Some o => f o | None => false end.

Definition allowed_op (d : memdb) (x : TxnOCC) (l : history) (o : op) : bool :=
  match o with
  (* memory is fresh, the values fit the schema *)
  | NewRow t p values =>
      match db_tables d !! t with
      | Some tb => bool_decide (db_rows d !! p = None) && forallb value_okb values &&
          bool_decide (get_kind <$> values = take (columns_count (tb_schema tb)) (kinds (tb_schema tb)))
      | None => false
      end
  | ReadColumn p c => on_row d p (λ o, usable o l p && visible_column o c)
  (* the value fits the column; the key of a staged row stays *)
  | WriteColumn p c v =>
      on_row d p (λ o, usable o l p && visible_column o c && value_okb v && bool_decide (column_kind o c = Some (get_kind v)) &&
        negb (bool_decide (p ∈ (inserts_ x).*2) && bool_decide (c ∈ key_cols_id_ (schema_ (vr_row o)))))
  (* a new row, once *)
  | InsertRow t p =>
      on_row d p (λ o, usable o l p && bool_decide (p ∈ created l) && bool_decide (p ∉ (inserts_ x).*2) &&
        bool_decide (tb_schema <$> db_tables d !! t = Some (schema_ (vr_row o))))
  (* from the table it is in or staged for *)
  | RemoveRow t p =>
      on_row d p (λ o, usable o l p && (bool_decide (vr_tbl o = Some t) || bool_decide ((t, p) ∈ inserts_ x)))
  end.

(** Operations come before the transaction is prepared, the commit after; only a running
    transaction is aborted. *)
Definition allowed (sv : server) (rq : request) : bool :=
  match rq with
  | Op tid o => let x := get_mdb_txn tid sv in negb (verified_ x) && allowed_op (sv_db sv) x (log_of tid sv) o
  | Prepare tid => negb (verified_ (get_mdb_txn tid sv))
  | Commit tid => verified_ (get_mdb_txn tid sv)
  | Abort tid => bool_decide (is_Some (mdb_txns_ sv !! tid))
  end.

Fixpoint serve_all (sv : server) (rqs : list request) : result (server * list reply) :=
  match rqs with
  | [] => Done (sv, [])
  | rq :: rqs => '(sv, r) ← serve sv rq; '(sv, rs) ← serve_all sv rqs; Done (sv, r :: rs)
  end.

Fixpoint allowed_all (sv : server) (rqs : list request) : bool :=
  match rqs with
  | [] => true
  | rq :: rqs => allowed sv rq && match serve sv rq with Done (sv, _) => allowed_all sv rqs | _ => true end
  end.
