(* ===== verification/OccInv.v ===== *)
(** * Optimistic transactions: the invariant of a running transaction

    While a transaction runs, the server keeps no trace of it in the tables.  The
    invariant says what its staging areas mean: on every store that agrees with the
    values it read, its operations can be replayed atomically with the answers it got,
    and the result is the store with the staged changes applied. *)

From S2P Require Import Prelude SparseInt RWLock MemRow MemRowSpec MemTable MemTableSpec Occ OccSpec.

(** ** Versions and locks of rows *)

Definition ver_at (d : memdb) (p : nat) (c : Z) : option Z :=
  match db_rows d !! p with Some o => if decide (0 ≤ c) then vr_ver o !! Z.to_nat c else None | None => None end.
Definition lock_at (d : memdb) (p : nat) : option RWLock := option_map vr_lock (db_rows d !! p).

Lemma get_column_ver_at d p c v : get_column_ver d p c = Done v ↔ ver_at d p c = Some v.
Proof.
  unfold get_column_ver, ver_at, row_at, entry. destruct (db_rows d !! p) as [o|]; cbn; [|naive_solver].
  destruct (decide (0 ≤ c)); [|naive_solver]. destruct (vr_ver o !! Z.to_nat c); naive_solver.
Qed.

Lemma same_frame_row d d' p o : same_frame d d' → db_rows d !! p = Some o →
  ∃ o', db_rows d' !! p = Some o' ∧ vr_lock o' = vr_lock o ∧ vr_ver o' = vr_ver o.
Proof.
  intros [Hm _] Ho. assert (meta d' !! p = Some (vr_lock o, vr_ver o)) as H by (rewrite Hm; unfold meta; by rewrite lookup_fmap, Ho).
  unfold meta in H. rewrite lookup_fmap in H. destruct (db_rows d' !! p) as [o'|]; [|done]. cbn in H. simplify_eq. eauto.
Qed.

Lemma same_frame_none d d' p : same_frame d d' → db_rows d !! p = None → db_rows d' !! p = None.
Proof.
  intros [Hm _] Ho. assert (meta d' !! p = None) as H by (rewrite Hm; unfold meta; by rewrite lookup_fmap, Ho).
  unfold meta in H. rewrite lookup_fmap in H. by destruct (db_rows d' !! p).
Qed.

Lemma same_frame_ver d d' p c : same_frame d d' → ver_at d' p c = ver_at d p c.
Proof.
  intros Hf. unfold ver_at. destruct (db_rows d !! p) as [o|] eqn:Ho.
  - destruct (same_frame_row d d' p o Hf Ho) as (o' & -> & _ & ->). done.
  - by rewrite (same_frame_none d d' p).
Qed.

Lemma same_frame_lock d d' p : same_frame d d' → lock_at d' p = lock_at d p.
Proof.
  intros Hf. unfold lock_at. destruct (db_rows d !! p) as [o|] eqn:Ho.
  - destruct (same_frame_row d d' p o Hf Ho) as (o' & -> & Hl & _). cbn. by rewrite Hl.
  - by rewrite (same_frame_none d d' p).
Qed.

(** ** Staged updates *)

Ltac split_keys := repeat case_decide; destruct_and?; simplify_eq; try done; exfalso; first [tauto|lia].

Definition update_keys (l : list (nat * (Z * Value))) : list (nat * Z) := (λ u, (u.1, u.2.1)) <$> l.

Lemma find_update_elem p c v l : find_update p c l = Some v → (p, (c, v)) ∈ l.
Proof.
  induction l as [|[q [c' w]] l IH]; cbn; [done|]. destruct (decide _) as [[-> ->]|]; [intros [= ->]; by left|]. intros H. right. auto.
Qed.

Lemma find_update_in p c v l : NoDup (update_keys l) → (p, (c, v)) ∈ l → find_update p c l = Some v.
Proof.
  induction l as [|[q [c' w]] l IH]; intros Hnd Hin; [by apply not_elem_of_nil in Hin|]. cbn in Hnd. apply NoDup_cons in Hnd as [Hni Hnd]. cbn.
  apply elem_of_cons in Hin as [Heq|Hin]; [simplify_eq; by rewrite decide_True|]. rewrite decide_False; [by apply IH|].
  intros [-> ->]. apply Hni. by apply (list_elem_of_fmap_2 (λ u, (u.1, u.2.1)) l (p, (c, v))).
Qed.

Lemma find_update_None p c l : find_update p c l = None ↔ (p, c) ∉ update_keys l.
Proof.
  induction l as [|[q [c' w]] l IH]; cbn; [split; [by intros _ ?%not_elem_of_nil|done]|]. rewrite not_elem_of_cons. destruct (decide _) as [[-> ->]|Hne].
  - split; [done|]. by intros [? _].
  - rewrite IH. split; [|tauto]. intros H. split; [|done]. intros Heq. simplify_eq. tauto.
Qed.

Lemma multimap_insert_perm {B} p (x : B) l : multimap_insert p x l ≡ₚ (p, x) :: l.
Proof.
  induction l as [|[q y] l IH]; cbn; [done|]. destruct (decide _); [done|]. rewrite IH. apply Permutation_swap.
Qed.

Lemma find_update_insert p c v l p' c' :
  find_update p c l = None →
  find_update p' c' (multimap_insert p (c, v) l) = if decide (p' = p ∧ c' = c) then Some v else find_update p' c' l.
Proof.
  induction l as [|[q [c1 w]] l IH]; intros Hn; cbn in *.
  - split_keys.
  - destruct (decide (q = p ∧ c1 = c)) as [|Hne] eqn:Hd; [done|]. destruct (decide (p < q)%nat) as [Hlt|Hge]; cbn.
    + split_keys.
    + rewrite (IH Hn). split_keys.
Qed.

Lemma replace_update_keys p c w l : update_keys (replace_update p c w l) = update_keys l.
Proof. induction l as [|[q [c1 v]] l IH]; cbn; [done|]. destruct (decide _) as [[-> ->]|]; cbn; [done|]. by f_equal. Qed.

Lemma replace_update_elem p c w l q c' v : (q, (c', v)) ∈ replace_update p c w l → (q, (c', v)) ∈ l ∨ (q = p ∧ c' = c ∧ v = w).
Proof.
  induction l as [|[q1 [c1 v1]] l IH]; cbn; [by intros ?%not_elem_of_nil|]. destruct (decide _) as [[-> ->]|]; cbn; rewrite !elem_of_cons;
    intros [Heq|H]; simplify_eq; auto. destruct (IH H); auto.
Qed.

Lemma find_update_replace p c w l p' c' :
  is_Some (find_update p c l) →
  find_update p' c' (replace_update p c w l) = if decide (p' = p ∧ c' = c) then Some w else find_update p' c' l.
Proof.
  induction l as [|[q [c1 v]] l IH]; intros [u Hu]; cbn in *; [done|].
  destruct (decide (q = p ∧ c1 = c)) as [[-> ->]|Hne]; cbn.
  - split_keys.
  - rewrite IH by eauto. split_keys.
Qed.

Lemma find_update_filter p l p' c' :
  find_update p' c' (filter (λ u, u.1 ≠ p) l) = if decide (p' = p) then None else find_update p' c' l.
Proof.
  induction l as [|[q [c1 v]] l IH]; [by cbn; case_decide|]. rewrite filter_cons. cbn. destruct (decide (q ≠ p)) as [Hq|Hq]; cbn; rewrite ?IH;
    split_keys.
Qed.

(** The values of row [p] with the staged updates. *)
Definition staged_vals (l : list (nat * (Z * Value))) (p : nat) (vs : list Value) : list Value :=
  imap (λ i v, default v (find_update p (Z.of_nat i) l)) vs.
Definition staged_row (l : list (nat * (Z * Value))) (p : nat) (a : arow) : arow :=
  mkARow (ar_tbl a) (ar_schema a) (staged_vals l p (ar_vals a)).

Lemma staged_vals_lookup l p vs i : staged_vals l p vs !! i = (λ v, default v (find_update p (Z.of_nat i) l)) <$> vs !! i.
Proof. apply list_lookup_imap. Qed.

Lemma staged_vals_ext l l' p vs : (∀ c, find_update p c l' = find_update p c l) → staged_vals l' p vs = staged_vals l p vs.
Proof. intros H. unfold staged_vals. apply imap_ext. intros i v _. by rewrite H. Qed.

Lemma staged_vals_nil p vs : staged_vals [] p vs = vs.
Proof. apply list_eq. intros i. rewrite staged_vals_lookup. cbn. by destruct (vs !! i). Qed.

(** One more staged value. *)
Lemma staged_vals_set l l' p c v vs :
  0 ≤ c → (∀ c', find_update p c' l' = if decide (c' = c) then Some v else find_update p c' l) →
  staged_vals l' p vs = <[Z.to_nat c := v]> (staged_vals l p vs).
Proof.
  intros Hc H. apply list_eq. intros i. rewrite staged_vals_lookup, H. destruct (decide (Z.to_nat c = i)) as [<-|Hne].
  - rewrite decide_True by lia. destruct (vs !! Z.to_nat c) as [w|] eqn:Hw; cbn.
    + rewrite list_lookup_insert_eq; [done|]. unfold staged_vals. rewrite length_imap. by eapply lookup_lt_Some.
    + rewrite list_insert_ge, staged_vals_lookup, Hw; [done|]. unfold staged_vals. rewrite length_imap. by apply lookup_ge_None.
  - rewrite decide_False by lia. rewrite list_lookup_insert_ne by done. by rewrite staged_vals_lookup.
Qed.

Arguments staged_vals : simpl never.
Arguments staged_row : simpl never.

Lemma staged_row_nil p a : staged_row [] p a = a.
Proof. destruct a. unfold staged_row. cbn. by rewrite staged_vals_nil. Qed.

Lemma staged_row_ext l l' p a : (∀ c, find_update p c l' = find_update p c l) → staged_row l' p a = staged_row l p a.
Proof. intros H. unfold staged_row. by rewrite (staged_vals_ext l l'). Qed.

Lemma staged_row_set l l' p c v a :
  0 ≤ c → (∀ c', find_update p c' l' = if decide (c' = c) then Some v else find_update p c' l) →
  staged_row l' p a = with_value c v (staged_row l p a).
Proof. intros Hc H. unfold staged_row, with_value. cbn. by rewrite (staged_vals_set l l' p c v). Qed.

(** Applying the first staged value of a list. *)
Lemma staged_row_cons l p c v a :
  0 ≤ c → find_update p c l = None → staged_row l p (with_value c v a) = staged_row ((p, (c, v)) :: l) p a.
Proof.
  intros Hc Hn. unfold staged_row, with_value. cbn. f_equal. apply list_eq. intros i. rewrite !staged_vals_lookup. cbn.
  destruct (decide (Z.to_nat c = i)) as [<-|Hne].
  - rewrite Z2Nat.id, decide_True, Hn by done. cbn. destruct (ar_vals a !! Z.to_nat c) as [w|] eqn:Hw.
    + by rewrite list_lookup_insert_eq by (by eapply lookup_lt_Some).
    + rewrite list_insert_ge by (by apply lookup_ge_None). by rewrite Hw.
  - rewrite list_lookup_insert_ne by done. destruct (ar_vals a !! i); [|done]. cbn. by rewrite decide_False by lia.
Qed.

Fixpoint staged_table (l : list (nat * nat)) (p : nat) : option nat :=
  match l with [] => None | (t, q) :: l => if decide (q = p) then Some t else staged_table l p end.

Lemma staged_table_None l p : staged_table l p = None ↔ p ∉ l.*2.
Proof.
  induction l as [|[t q] l IH]; cbn; [split; [by intros _ ?%not_elem_of_nil|done]|]. rewrite not_elem_of_cons. destruct (decide (q = p)) as [->|Hne].
  - split; [done|]. by intros [? _].
  - rewrite IH. naive_solver.
Qed.

Lemma staged_table_Some l p t : NoDup l.*2 → staged_table l p = Some t ↔ (t, p) ∈ l.
Proof.
  induction l as [|[t1 q] l IH]; cbn; intros Hnd; [split; [done|by intros ?%not_elem_of_nil]|]. apply NoDup_cons in Hnd as [Hni Hnd]. rewrite elem_of_cons.
  destruct (decide (q = p)) as [->|Hne].
  - split; [intros [= ->]; by left|]. intros [Heq|Hin]; [by simplify_eq|]. destruct Hni. by apply (list_elem_of_fmap_2 snd l (t, p)).
  - rewrite IH by done. naive_solver.
Qed.

Lemma staged_table_perm l l' p : NoDup l.*2 → l' ≡ₚ l → staged_table l' p = staged_table l p.
Proof.
  intros Hnd Hp. assert (NoDup l'.*2) as Hnd' by (by rewrite Hp). apply option_eq. intros t. rewrite !staged_table_Some by done. by rewrite Hp.
Qed.

(** ** The invariant of one transaction *)

Definition gone (x : TxnOCC) (p : nat) : Prop := p ∈ (removes_ x).*2.
Definition tracked (x : TxnOCC) (p : nat) (c : Z) : Prop :=
  is_Some (ver_check_read_ x !! (p, c)) ∨ is_Some (ver_check_write_ x !! (p, c)).

(** Every version the transaction remembers is the current one. *)
Definition alive (d : memdb) (x : TxnOCC) : Prop :=
  ∀ p c n, ver_check_read_ x !! (p, c) = Some n ∨ ver_check_write_ x !! (p, c) = Some n → ver_at d p c = Some n.

(** [K] has the table and schema of the rows it used, [R] the values it read. *)
Section transaction.
Context (ts : layout) (d : memdb) (A : astore) (x : TxnOCC) (L : history) (K : gmap nat (nat * Schema)) (R : gmap (nat * Z) Value).

(** A remembered version is not newer than the current one; if it is the current one,
    the row is where it was, with the value that was read. *)
Definition seen (p : nat) (c n : Z) (read : bool) : Prop :=
  ∃ m, ver_at d p c = Some m ∧ n ≤ m ∧
    (n = m → ∃ a t, A !! p = Some a ∧ ar_tbl a = Some t ∧ K !! p = Some (t, ar_schema a) ∧
      (read = true → ∀ v, R !! (p, c) = Some v → ar_vals a !! Z.to_nat c = Some v)).

Definition compat (S : astore) : Prop :=
  (∀ p t s, K !! p = Some (t, s) → ∃ a, S !! p = Some a ∧ ar_tbl a = Some t ∧ ar_schema a = s ∧ get_kind <$> ar_vals a = kinds s) ∧
  (∀ p c v, R !! (p, c) = Some v → ∃ a, S !! p = Some a ∧ ar_vals a !! Z.to_nat c = Some v) ∧
  (∀ p, p ∈ created L → S !! p = None).

Definition effect (S S' : astore) : Prop :=
  (∀ p, p ∈ created L → ∃ a, A !! p = Some a ∧ S' !! p = Some (linked (staged_table (inserts_ x) p) a)) ∧
  (∀ p, p ∉ created L → gone x p → ∃ b, S' !! p = Some b ∧ ar_tbl b = None) ∧
  (∀ p, p ∉ created L → ¬ gone x p → S' !! p = staged_row (updates_ x) p <$> S !! p).

Record stage_ok : Prop := {
  sg_outcome : outcome_ x = NONE;
  sg_policy : policy_ x = OCC_LAZY;
  sg_own p : p ∈ created L → ∃ a, A !! p = Some a ∧ ar_tbl a = None;
  sg_track p c : tracked x p c → is_Some (K !! p) ∧ (p ∉ created L) ∧ 0 ≤ c;
  sg_tracked p : is_Some (K !! p) → ∃ c, tracked x p c;
  sg_reads p c : is_Some (R !! (p, c)) → is_Some (ver_check_read_ x !! (p, c));
  sg_read p c n : ver_check_read_ x !! (p, c) = Some n → seen p c n true;
  sg_write p c n : ver_check_write_ x !! (p, c) = Some n → seen p c n false;
  sg_updates p c v : (p, (c, v)) ∈ updates_ x → is_Some (ver_check_write_ x !! (p, c)) ∧ value_ok v ∧ ¬ gone x p;
  sg_updates_nodup : NoDup (update_keys (updates_ x));
  sg_typed p c v : alive d x → (p, (c, v)) ∈ updates_ x → ∃ t s, K !! p = Some (t, s) ∧ kinds s !! Z.to_nat c = Some (get_kind v);
  sg_inserts t p : (t, p) ∈ inserts_ x → p ∈ created L ∧ ∃ a k, A !! p = Some a ∧ ts !! t = Some (k, ar_schema a);
  sg_inserts_nodup : NoDup (inserts_ x).*2;
  sg_removes t p : (t, p) ∈ removes_ x → p ∈ dropped L ∧ (p ∉ created L) ∧ is_Some (K !! p);
  sg_removes_nodup : NoDup (removes_ x).*2;
  sg_removed t p : alive d x → (t, p) ∈ removes_ x →
    ∃ s, K !! p = Some (t, s) ∧ ∀ c, 0 ≤ c < Z.of_nat (columns_count s) → is_Some (ver_check_write_ x !! (p, c));
  sg_locks p : p ∈ locks_ x → is_Some (A !! p);
  sg_replay S : alive d x → compat S → ∃ S', atomic_run ts S L S' ∧ effect S S';
}.

Lemma gone_tracked p : stage_ok → gone x p → is_Some (K !! p) ∧ (p ∉ created L) ∧ p ∈ dropped L.
Proof. intros H Hg. apply list_elem_of_fmap_1 in Hg as ([t q] & -> & Hin). destruct (sg_removes H t q Hin) as (? & ? & ?). done. Qed.

Lemma seen_alive p c n : stage_ok → alive d x → ver_check_read_ x !! (p, c) = Some n ∨ ver_check_write_ x !! (p, c) = Some n →
  ∃ a t, A !! p = Some a ∧ ar_tbl a = Some t ∧ K !! p = Some (t, ar_schema a).
Proof.
  intros H Hal Hn. pose proof (Hal p c n Hn) as Hv.
  assert (∃ read, seen p c n read) as (read & m & Hm & Hle & Heq).
  { destruct Hn as [Hn|Hn]; [exists true; by apply (sg_read H)|exists false; by apply (sg_write H)]. }
  rewrite Hv in Hm. simplify_eq. destruct (Heq eq_refl) as (a & t & ? & ? & ? & _). eauto.
Qed.

Lemma alive_table p : stage_ok → alive d x → is_Some (K !! p) →
  ∃ a t, A !! p = Some a ∧ ar_tbl a = Some t ∧ K !! p = Some (t, ar_schema a).
Proof.
  intros H Hal HK. destruct (sg_tracked H p HK) as (c & Hc).
  assert (∃ n, ver_check_read_ x !! (p, c) = Some n ∨ ver_check_write_ x !! (p, c) = Some n) as [n Hn] by (destruct Hc as [[n ?]|[n ?]]; eauto).
  by eapply seen_alive.
Qed.

(** The rows a running transaction knows. *)
Lemma known_row p : stage_ok → is_Some (K !! p) → is_Some (db_rows d !! p).
Proof.
  intros H HK. destruct (sg_tracked H p HK) as (c & Hc).
  assert (∃ n read, seen p c n read) as (n & read & m & Hm & _).
  { destruct Hc as [[n Hn]|[n Hn]]; [exists n, true; by apply (sg_read H)|exists n, false; by apply (sg_write H)]. }
  unfold ver_at in Hm. destruct (db_rows d !! p); [eauto|done].
Qed.
End transaction.

Definition TxnLazy (tid : Z) : TxnOCC := set_policy OCC_LAZY (TxnOCC_new tid).

Lemma stage_new ts d A tid : stage_ok ts d A (TxnLazy tid) [] ∅ ∅.
Proof.
  assert (∀ p c, ¬ tracked (TxnLazy tid) p c) as Htr by (intros p c [[n Hn]|[n Hn]]; done).
  split; cbn; try done; try (by intros p c H%Htr); try (by intros p [n Hn]); try (by intros p c [n Hn]); try apply NoDup_nil_2;
    try (by intros p ?%not_elem_of_nil); try (by intros t p ?%not_elem_of_nil); try (by intros t p _ ?%not_elem_of_nil);
    try (by intros p c v ?%not_elem_of_nil); try (by intros p c v _ ?%not_elem_of_nil).
  intros S _ _. exists S. split; [constructor|]. split_and!; [by intros p ?%not_elem_of_nil|by intros p _ ?%not_elem_of_nil|].
  intros p _ _. cbn. destruct (S !! p) as [a|]; cbn; [by rewrite staged_row_nil|done].
Qed.
