(* ===== verification/OccOps.v ===== *)
(** * Optimistic transactions: the operations keep the invariant

    Every operation of MemRow rows that [allowed_op] admits returns, and takes the
    invariant of OccInv.v from the history before it to the history with it. *)

From S2P Require Import Prelude SparseInt RWLock MemRow MemRowSpec MemTable MemTableSpec Occ OccSpec OccInv.

(** ** Locks and versions of the rows *)

(** Locks are consistent, every visible column has a version, and none is above [N]. *)
Definition meta_ok (N : Z) (d : memdb) : Prop :=
  ∀ p o, db_rows d !! p = Some o →
    lock_ok (vr_lock o) ∧ length (vr_ver o) = columns_count (schema_ (vr_row o)) ∧ Forall (λ v, 0 ≤ v ≤ N) (vr_ver o).

Lemma created_app l1 l2 : created (l1 ++ l2) = created l1 ++ created l2.
Proof. apply omap_app. Qed.
Lemma dropped_app l1 l2 : dropped (l1 ++ l2) = dropped l1 ++ dropped l2.
Proof. apply omap_app. Qed.

(** What the other transactions see of an operation: nothing but new rows. *)
Record quiet (d d' : memdb) (A A' : astore) (L L' : history) : Prop := {
  qt_rows p : is_Some (db_rows d !! p) → is_Some (db_rows d' !! p) ∧ (∀ c, ver_at d' p c = ver_at d p c) ∧ lock_at d' p = lock_at d p;
  qt_store p : p ∉ created L' → A' !! p = A !! p;
  qt_new p : p ∈ created L' → p ∈ created L ∨ A !! p = None;
  qt_old p : p ∈ created L → p ∈ created L';
}.

(** ** Remembering a row *)

Lemma lookup_insert_absent {K0 B} `{Countable K0} (k : K0) (v : B) (m : gmap K0 B) k' :
  insert_absent k v m !! k' = if decide (k' = k) then Some (default v (m !! k)) else m !! k'.
Proof.
  unfold insert_absent. destruct (m !! k) as [w|] eqn:Hk; case_decide as Hd'; subst; cbn; rewrite ?Hk; try done.
  - apply lookup_insert_eq.
  - by apply lookup_insert_ne.
Qed.

Lemma seen_table d A K R p a t q c n b :
  A !! p = Some a → ar_tbl a = Some t → seen d A K R q c n b → seen d A (<[p := (t, ar_schema a)]> K) R q c n b.
Proof.
  intros Ha Ht (m & Hmv & Hle & Heq). exists m. split_and!; [done..|]. intros Hn. destruct (Heq Hn) as (a' & t' & Ha' & Ht' & HK & HR).
  exists a', t'. split_and!; [done..| |done]. destruct (decide (q = p)) as [->|Hq]; [|by rewrite lookup_insert_ne].
  rewrite lookup_insert_eq. by simplify_eq.
Qed.

Lemma seen_value d A K R p c v a q c' n b :
  A !! p = Some a → ar_vals a !! Z.to_nat c = Some v → seen d A K R q c' n b → seen d A K (<[(p, c) := v]> R) q c' n b.
Proof.
  intros Ha Hv (m & Hmv & Hle & Heq). exists m. split_and!; [done..|]. intros Hn. destruct (Heq Hn) as (a' & t' & Ha' & Ht' & HK & HR).
  exists a', t'. split_and!; [done..|]. intros Hb w Hw. apply lookup_insert_Some in Hw as [[Heq' <-]|[_ Hw]]; [|by apply HR].
  simplify_eq. done.
Qed.

Lemma seen_now d A K R p c m a t b :
  ver_at d p c = Some m → A !! p = Some a → ar_tbl a = Some t → K !! p = Some (t, ar_schema a) →
  (b = true → ∀ v, R !! (p, c) = Some v → ar_vals a !! Z.to_nat c = Some v) → seen d A K R p c m b.
Proof. intros Hmv Ha Ht HK HR. exists m. split_and!; [done|lia|]. intros _. eauto 10. Qed.

(** The rows a transaction gets to know are rows in tables. *)
Definition learns (A : astore) (K K' : gmap nat (nat * Schema)) : Prop :=
  ∀ p, is_Some (K' !! p) → is_Some (K !! p) ∨ ∃ a t, A !! p = Some a ∧ ar_tbl a = Some t.

Lemma learns_refl A K : learns A K K.
Proof. intros p. auto. Qed.
Lemma learns_insert A K K' p a t : A !! p = Some a → ar_tbl a = Some t → learns A K K' → learns A K (<[p := (t, ar_schema a)]> K').
Proof. intros Ha Ht HK q Hq. destruct (decide (q = p)) as [->|Hne]; [right; eauto|]. rewrite lookup_insert_ne in Hq by done. by apply HK. Qed.

Definition same_shape (d : memdb) (ts : layout) : Prop := shape d = ts.

Section ops.
Context (ts : layout) (N : Z) (d : memdb) (A : astore) (x : TxnOCC) (L : history) (K : gmap nat (nat * Schema)) (R : gmap (nat * Z) Value).
Context (Hts : plain_layout ts) (Hd : db_rep d A) (Hsh : same_shape d ts) (Hm : meta_ok N d) (Hx : stage_ok ts d A x L K R).

Lemma visible_row p o c :
  db_rows d !! p = Some o → visible_column o c = true →
  ∃ a m v, A !! p = Some a ∧ obj_rep o a ∧ 0 ≤ c ∧ ver_at d p c = Some m ∧ ar_vals a !! Z.to_nat c = Some v ∧
    kinds (ar_schema a) !! Z.to_nat c = Some (get_kind v) ∧ column_kind o c = Some (get_kind v).
Proof using Hd Hm.
  intros Ho Hc. apply bool_decide_eq_true in Hc. destruct (dr_row _ _ Hd p o Ho) as (a & Ha & Hr).
  destruct (Hm p o Ho) as (_ & Hlen & _). pose proof (or_row _ _ Hr) as Hrow. pose proof (or_schema _ _ Hr) as Hs.
  destruct (lookup_lt_is_Some_2 (vr_ver o) (Z.to_nat c)) as [m Hmv]; [lia|].
  assert (length (ar_vals a) = length (col_info_ (schema_ (vr_row o)))) as Hlv.
  { rewrite <-(length_fmap get_kind), (rr_kinds _ _ Hrow). unfold kinds. apply length_fmap. }
  unfold columns_count in Hc. destruct (lookup_lt_is_Some_2 (ar_vals a) (Z.to_nat c)) as [v Hv]; [lia|].
  assert (kinds (schema_ (vr_row o)) !! Z.to_nat c = Some (get_kind v)) as Hk by (rewrite <-(rr_kinds _ _ Hrow), list_lookup_fmap, Hv; done).
  exists a, m, v. split_and!; [done..|lia| |done|by rewrite <-Hs|].
  - unfold ver_at. rewrite Ho, decide_True by lia. done.
  - unfold column_kind, get_column_info. rewrite decide_True by lia. unfold kinds in Hk. rewrite list_lookup_fmap in Hk.
    destruct (col_info_ _ !! Z.to_nat c); [|done]. cbn in Hk. congruence.
Qed.

(** A row in a table is not a row of the transaction. *)
Lemma own_not_in_table p a t : A !! p = Some a → ar_tbl a = Some t → p ∉ created L.
Proof using Hx. intros Ha Ht Hp. destruct (sg_own _ _ _ _ _ _ _ Hx p Hp) as (b & ? & ?). congruence. Qed.

Lemma not_dropped_not_gone p : p ∉ dropped L → ¬ gone x p.
Proof using Hx.
  intros Hp Hg. apply list_elem_of_fmap_1 in Hg as ([t q] & -> & Hin). by destruct (sg_removes _ _ _ _ _ _ _ Hx t q Hin) as [? _].
Qed.

Lemma quiet_refl o a : created [(o, a)] = [] → quiet d d A A L (L ++ [(o, a)]).
Proof. intros Hc. split; rewrite ?created_app, ?Hc, ?app_nil_r; auto. Qed.

Lemma created_new p values t a : created (L ++ [(NewRow t p values, a)]) = created L ++ [p].
Proof. by rewrite created_app. Qed.

(** ** New rows *)
Lemma new_row_ok t p values :
  0 ≤ N → allowed_op d x L (NewRow t p values) = true →
  ∃ d' A', occ_op d x (NewRow t p values) = Done (d', x, None) ∧ db_rep d' A' ∧ shape d' = ts ∧ meta_ok N d' ∧
    stage_ok ts d' A' x (L ++ [(NewRow t p values, None)]) K R ∧ quiet d d' A A' L (L ++ [(NewRow t p values, None)]).
Proof using Hts Hd Hsh Hm Hx.
  intros HN Hal. cbn in Hal. destruct (db_tables d !! t) as [tb|] eqn:Htb; [|done].
  apply andb_true_iff in Hal as [Hal Hk]. apply andb_true_iff in Hal as [Hn Hv]. apply bool_decide_eq_true in Hn, Hk.
  assert (Forall value_ok values) as Hvo.
  { apply Forall_forall. intros v Hin. apply value_okb_ok. rewrite forallb_forall in Hv. apply Hv. by apply list_elem_of_In. }
  assert (ts !! t = Some (rtti tb, tb_schema tb)) as Ht by (rewrite <-Hsh; unfold shape; by rewrite lookup_fmap, Htb).
  assert (A !! p = None) as HAn by (by apply (db_rep_dom d A p Hd)).
  destruct (new_row_rep ts d A t p _ _ values Hts Hd Hsh Ht HAn Hvo Hk) as (r & Hnew & Hd' & Hsh').
  set (s := tb_schema tb) in *. set (a0 := mkARow None s (values ++ hidden_values s)) in *.
  eexists _, _. cbn [occ_op]. rewrite Hnew. cbn [mbind result_bind]. split; [done|]. split; [done|]. split; [done|].
  set (d' := put_row p _ d) in *.
  assert (∀ q, q ≠ p → db_rows d' !! q = db_rows d !! q) as Hother by (intros q Hq; cbn; by rewrite lookup_insert_ne).
  assert (∀ q c, is_Some (db_rows d !! q) → ver_at d' q c = ver_at d q c) as Hver.
  { intros q c [o Ho]. unfold ver_at. rewrite Hother by congruence. done. }
  assert (∀ q, is_Some (K !! q) → q ≠ p) as HK by (intros q HKq ->; destruct (known_row _ _ _ _ _ _ _ p Hx HKq); congruence).
  assert (∀ q n c, ver_check_read_ x !! (q, c) = Some n ∨ ver_check_write_ x !! (q, c) = Some n → q ≠ p ∧ is_Some (db_rows d !! q)) as Htr.
  { intros q n c Hq. assert (is_Some (K !! q)) as HKq by (apply (sg_track _ _ _ _ _ _ _ Hx q c); unfold tracked; destruct Hq as [->| ->]; eauto).
    split; [by apply HK|by apply (known_row _ _ _ _ _ _ _ q Hx)]. }
  assert (alive d' x → alive d x) as Halive.
  { intros Hal q c n Hn'. destruct (Htr q n c Hn') as [_ Hq]. rewrite <-(Hver q c Hq). by apply Hal. }
  assert (p ∉ created L) as Hpc by (intros Hin; destruct (sg_own _ _ _ _ _ _ _ Hx p Hin) as (? & ? & _); congruence).
  split; [|split].
  - intros q o Hq. cbn in Hq. apply lookup_insert_Some in Hq as [[<- <-]|[? Hq]]; [|by apply (Hm q)]. cbn.
    split; [done|]. assert (schema_ r = s) as ->.
    { destruct (dr_row _ _ Hd' p (mkVRow r None RWLock_new (replicate (columns_count s) 0))) as (b & Hb & Hr); [apply lookup_insert_eq|].
      rewrite lookup_insert_eq in Hb. simplify_eq. apply (or_schema _ _ Hr). }
    split; [apply length_replicate|]. apply Forall_replicate. lia.
  - pose proof Hx as [H1 H2 H3 H4 H5 H6 H7 H8 H9 H10 H11 H12 H13 H14 H15 H16 H17 H18]. split; try done.
    + intros q. rewrite created_new, elem_of_app, list_elem_of_singleton. intros [Hq| ->]; [|rewrite lookup_insert_eq; eauto].
      rewrite lookup_insert_ne by congruence. auto.
    + intros q c Hq. destruct (H4 q c Hq) as (? & ? & ?). split_and!; [done| |done]. rewrite created_new, elem_of_app, list_elem_of_singleton.
      intros [?| ->]; [done|]. by apply (HK p).
    + intros q c n Hn'. destruct (H7 q c n Hn') as (m & Hmv & Hle & Heq). destruct (Htr q n c) as [Hne Hq]; [by left|]. exists m.
      rewrite Hver by done. rewrite lookup_insert_ne by done. done.
    + intros q c n Hn'. destruct (H8 q c n Hn') as (m & Hmv & Hle & Heq). destruct (Htr q n c) as [Hne Hq]; [by right|]. exists m.
      rewrite Hver by done. rewrite lookup_insert_ne by done. done.
    + intros q c v Hal. auto.
    + intros t' q Hin. destruct (H12 t' q Hin) as (Hq & b & k & Hb & Hk'). rewrite created_new, elem_of_app. split; [by left|].
      exists b, k. by rewrite lookup_insert_ne by congruence.
    + intros t' q Hin. destruct (H14 t' q Hin) as (Hdr & Hni & HKq). rewrite dropped_app, created_new, !elem_of_app, list_elem_of_singleton.
      split_and!; [by left| |done]. intros [?| ->]; [done|by apply (HK p)].
    + intros t' q Hal Hin. by apply H16; auto.
    + intros q Hq. rewrite lookup_insert_ne; [by apply H17|]. intros <-. destruct (H17 p Hq). congruence.
    + intros S Hal (C1 & C2 & C3). destruct (H18 S) as (S' & Hrun & E1 & E2 & E3); [by apply Halive|split_and!; [done..|]|].
      { intros q Hq. apply C3. rewrite created_new, elem_of_app. by left. }
      assert (S !! p = None) as HSp by (apply C3; rewrite created_new, elem_of_app; right; by left).
      assert (¬ gone x p) as Hng by (intros Hg; destruct (gone_tracked _ _ _ _ _ _ _ p Hx Hg) as [Hg' _]; by apply (HK p)).
      assert (S' !! p = None) as HSp' by (by rewrite E3, HSp).
      exists (<[p := a0]> S'). split; [eapply atomic_run_snoc; [done|by econstructor]|]. unfold effect. split_and!.
      * intros q. rewrite created_new, elem_of_app, list_elem_of_singleton. intros [Hq| ->].
        -- rewrite !lookup_insert_ne by congruence. by apply E1.
        -- rewrite !lookup_insert_eq. exists a0. split; [done|]. replace (staged_table (inserts_ x) p) with (@None nat); [done|].
           symmetry. apply staged_table_None. intros Hin. apply list_elem_of_fmap_1 in Hin as ([t' q] & -> & Hin). by destruct (H12 t' q Hin).
      * intros q. rewrite created_new, not_elem_of_app, not_elem_of_cons. intros (Hq & Hne & _) Hg. rewrite lookup_insert_ne by done. by apply E2.
      * intros q. rewrite created_new, not_elem_of_app, not_elem_of_cons. intros (Hq & Hne & _) Hg. rewrite lookup_insert_ne by done. by apply E3.
  - split.
    + intros q Hq. split_and!; [|by intros; apply Hver|]; destruct Hq as [o Ho].
      * rewrite Hother by congruence. eauto.
      * unfold lock_at. by rewrite Hother by congruence.
    + intros q. rewrite created_new, not_elem_of_app, not_elem_of_cons. intros (_ & Hne & _). by rewrite lookup_insert_ne.
    + intros q. rewrite created_new, elem_of_app, list_elem_of_singleton. intros [?| ->]; [by left|by right].
    + intros q Hq. rewrite created_new, elem_of_app. by left.
Qed.

Lemma compat_table p a t S l R' :
  alive d x → A !! p = Some a → ar_tbl a = Some t → compat l (<[p := (t, ar_schema a)]> K) R' S → compat l K R' S.
Proof using Hx.
  intros Hal Ha Ht (C1 & C2 & C3). split_and!; [|done..]. intros q t' s HK. apply C1. destruct (decide (q = p)) as [->|Hq]; [|by rewrite lookup_insert_ne].
  rewrite lookup_insert_eq. destruct (alive_table _ _ _ _ _ _ _ p Hx Hal) as (b & t1 & ? & ? & ?); [eauto|]. by simplify_eq.
Qed.

Lemma compat_value p c a v S l K' :
  alive d x → A !! p = Some a → ar_vals a !! Z.to_nat c = Some v → compat l K' (<[(p, c) := v]> R) S → compat l K' R S.
Proof using Hx.
  intros Hal Ha Hv (C1 & C2 & C3). split_and!; [done| |done]. intros q c' w HR. apply C2.
  destruct (decide ((q, c') = (p, c))) as [Heq|Hne]; [|by rewrite lookup_insert_ne]. simplify_eq. rewrite lookup_insert_eq.
  destruct (sg_reads _ _ _ _ _ _ _ Hx p c) as [n Hn]; [eauto|]. destruct (sg_read _ _ _ _ _ _ _ Hx p c n Hn) as (m & Hmv & _ & Heq).
  rewrite (Hal p c n) in Hmv by auto. simplify_eq. destruct (Heq eq_refl) as (b & t & ? & _ & _ & HRv). simplify_eq.
  specialize (HRv eq_refl w HR). congruence.
Qed.

(** ** Reads *)

(** An answer that changes nothing. *)
Lemma stage_answer o a :
  created [(o, a)] = [] → dropped [(o, a)] = [] →
  (∀ S S', alive d x → compat L K R S → effect A x L S S' → atomic ts S' o a S') → stage_ok ts d A x (L ++ [(o, a)]) K R.
Proof using Hx.
  intros Hc Hdr Hat. pose proof Hx as [H1 H2 H3 H4 H5 H6 H7 H8 H9 H10 H11 H12 H13 H14 H15 H16 H17 H18].
  split; unfold compat, effect; rewrite ?created_app, ?dropped_app, ?Hc, ?Hdr, ?app_nil_r; try done.
  intros S Hal Hcomp. destruct (H18 S Hal Hcomp) as (S' & Hrun & He). exists S'. split; [|done]. eapply atomic_run_snoc; [done|by eapply Hat].
Qed.

Lemma usable_own p o : usable o L p = true → vr_tbl o = None → p ∈ created L.
Proof. intros Hu Ht. unfold usable in Hu. rewrite Ht in Hu. cbn in Hu. apply andb_true_iff in Hu as [Hu _]. by apply bool_decide_eq_true in Hu. Qed.

Lemma usable_dropped p o : usable o L p = true → p ∉ dropped L.
Proof. intros Hu. apply andb_true_iff in Hu as [_ Hu]. by apply bool_decide_eq_true in Hu. Qed.

(** Remembering the current version of a column of a row in a table. *)
Section note.
Context (x' : TxnOCC) (p : nat) (c m : Z) (a : arow) (t : nat) (v : Value) (R' : gmap (nat * Z) Value).
Context (Ha : A !! p = Some a) (Ht : ar_tbl a = Some t) (Hc : 0 ≤ c) (Hmv : ver_at d p c = Some m) (Hv : ar_vals a !! Z.to_nat c = Some v).
Context (Hng : ¬ gone x p) (Hid : outcome_ x' = outcome_ x ∧ policy_ x' = policy_ x ∧ locks_ x' = locks_ x).
Context (Hst : updates_ x' = updates_ x ∧ inserts_ x' = inserts_ x ∧ removes_ x' = removes_ x).
Context (Hr : ∀ q c' n, ver_check_read_ x' !! (q, c') = Some n → ver_check_read_ x !! (q, c') = Some n ∨ (q = p ∧ c' = c ∧ n = m ∧ R' !! (p, c) = Some v)).
Context (Hw : ∀ q c' n, ver_check_write_ x' !! (q, c') = Some n → ver_check_write_ x !! (q, c') = Some n ∨ (q = p ∧ c' = c ∧ n = m)).
Context (Hr' : ∀ k n, ver_check_read_ x !! k = Some n → ver_check_read_ x' !! k = Some n).
Context (Hw' : ∀ k n, ver_check_write_ x !! k = Some n → ver_check_write_ x' !! k = Some n).
Context (Htr : tracked x' p c) (HR : R' = R ∨ (R' = <[(p, c) := v]> R ∧ is_Some (ver_check_read_ x' !! (p, c)))).
Abbreviation K' := (<[p := (t, ar_schema a)]> K).

Lemma note_alive : alive d x' → alive d x.
Proof using Hr' Hw'. intros Hal q c' n [Hn|Hn]; apply Hal; auto. Qed.

Lemma note_tracked q c' : tracked x q c' → tracked x' q c'.
Proof using Hr' Hw'. intros [[n Hn]|[n Hn]]; [left|right]; eauto. Qed.

Lemma note_known q : is_Some (K !! q) → is_Some (K' !! q).
Proof. destruct (decide (q = p)) as [->|]; [by rewrite lookup_insert_eq|by rewrite lookup_insert_ne]. Qed.

Lemma note_seen q c' n b : seen d A K R q c' n b → seen d A K' R' q c' n b.
Proof using Ha Ht Hv HR Hr.
  intros Hs. apply (seen_table _ _ _ _ p a t) in Hs; [|done..]. destruct HR as [->|[-> _]]; [done|]. by eapply seen_value.
Qed.

Lemma note_seen_now b : (b = true → R' !! (p, c) = Some v) → seen d A K' R' p c m b.
Proof using Ha Ht Hv Hmv.
  intros Hb. eapply seen_now; [done..|by rewrite lookup_insert_eq|]. intros Hbt w Hw0. specialize (Hb Hbt). congruence.
Qed.

Lemma stage_note : stage_ok ts d A x' L K' R'.
Proof using Ha Ht Hc Hmv Hv Hng Hid Hst Hr Hw Hr' Hw' Htr HR Hx.
  pose proof Hx as [H1 H2 H3 H4 H5 H6 H7 H8 H9 H10 H11 H12 H13 H14 H15 H16 H17 H18].
  destruct Hid as (I1 & I2 & I3), Hst as (U & I & D). pose proof note_alive as Halive.
  assert (∀ q, gone x' q ↔ gone x q) as Hgone by (intros q; unfold gone; by rewrite D).
  assert (∀ q c', tracked x' q c' → (q = p ∧ c' = c) ∨ tracked x q c') as Htr'.
  { intros q c' [[n Hn]|[n Hn]]; [apply Hr in Hn|apply Hw in Hn]; unfold tracked; naive_solver. }
  split; rewrite ?U, ?I, ?D, ?I1, ?I2, ?I3; try done.
  - intros q c' [[-> ->]|Hq]%Htr'; [|destruct (H4 q c' Hq) as (? & ? & ?); split_and!; [by apply note_known|done..]].
    rewrite lookup_insert_eq. split_and!; [eauto|by eapply own_not_in_table|done].
  - intros q Hq. destruct (decide (q = p)) as [->|Hne]; [by exists c|]. rewrite lookup_insert_ne in Hq by done.
    destruct (H5 q Hq) as (c' & Hc'). exists c'. by apply note_tracked.
  - intros q c' Hq. destruct HR as [->|[-> HRs]]; [destruct (H6 q c' Hq) as [n Hn]; eauto|].
    destruct (decide ((q, c') = (p, c))) as [Heq|Hne]; [by simplify_eq|]. rewrite lookup_insert_ne in Hq by done.
    destruct (H6 q c' Hq) as [n Hn]. eauto.
  - intros q c' n [Hn|(-> & -> & -> & HRv)]%Hr; [by apply note_seen, H7|]. by apply note_seen_now.
  - intros q c' n [Hn|(-> & -> & ->)]%Hw; [by apply note_seen, H8|]. by apply note_seen_now.
  - intros q c' w Hin. destruct (H9 q c' w Hin) as ([n Hn] & ? & ?). split_and!; [eauto|done|by rewrite Hgone].
  - intros q c' w Hal Hin. destruct (H11 q c' w (Halive Hal) Hin) as (t' & s & HK & Hks). destruct (decide (q = p)) as [->|Hne].
    + destruct (alive_table _ _ _ _ _ _ _ p Hx (Halive Hal)) as (b & t1 & ? & ? & ?); [eauto|]. simplify_eq.
      eexists _, _. by rewrite lookup_insert_eq.
    + exists t', s. by rewrite lookup_insert_ne.
  - intros t' q Hin. destruct (H14 t' q Hin) as (? & ? & ?). split_and!; [done..|by apply note_known].
  - intros t' q Hal Hin. destruct (H16 t' q (Halive Hal) Hin) as (s & HK & Hcs). exists s. split.
    + rewrite lookup_insert_ne; [done|]. intros <-. apply Hng. by apply (list_elem_of_fmap_2 snd (removes_ x) (t', p)).
    + intros c' Hc'. destruct (Hcs c' Hc') as [n Hn]. eauto.
  - intros S Hal Hcomp. specialize (Halive Hal). destruct (H18 S Halive) as (S' & Hrun & E1 & E2 & E3).
    { eapply compat_table; [done..|]. destruct HR as [->|[-> _]]; [done|]. by eapply compat_value. }
    exists S'. split; [done|]. unfold effect. setoid_rewrite Hgone. by rewrite I, U.
Qed.
End note.

Lemma stage_note_read p c m a t v :
  A !! p = Some a → ar_tbl a = Some t → 0 ≤ c → ver_at d p c = Some m → ar_vals a !! Z.to_nat c = Some v → ¬ gone x p →
  stage_ok ts d A (note_read p c m x) L (<[p := (t, ar_schema a)]> K) (<[(p, c) := v]> R).
Proof using Hx.
  intros Ha Ht Hc Hmv Hv Hng. eapply (stage_note _ p c m a t v); try done; cbn; try setoid_rewrite lookup_insert_absent; auto.
  - intros q c' n Hn. case_decide as Heq; [|by left]. simplify_eq. destruct (ver_check_read_ x !! (p, c)); [by left|]. right. by rewrite lookup_insert_eq.
  - intros k n Hn. case_decide as Heq; [subst; by rewrite Hn|done].
  - left. cbn. rewrite lookup_insert_absent, decide_True by done. eauto.
  - right. split; [done|]. rewrite decide_True by done. eauto.
Qed.

Lemma stage_note_write p c m a t v :
  A !! p = Some a → ar_tbl a = Some t → 0 ≤ c → ver_at d p c = Some m → ar_vals a !! Z.to_nat c = Some v → ¬ gone x p →
  stage_ok ts d A (note_write p c m x) L (<[p := (t, ar_schema a)]> K) R.
Proof using Hx.
  intros Ha Ht Hc Hmv Hv Hng. eapply (stage_note _ p c m a t v); try done; cbn; try setoid_rewrite lookup_insert_absent; auto.
  - intros q c' n Hn. case_decide as Heq; [|by left]. simplify_eq. destruct (ver_check_write_ x !! (p, c)); [by left|by right].
  - intros k n Hn. case_decide as Heq; [subst; by rewrite Hn|done].
  - right. cbn. rewrite lookup_insert_absent, decide_True by done. eauto.
Qed.
End ops.

(** ** Reads *)

Section reads.
Context (ts : layout) (N : Z) (d : memdb) (A : astore) (x : TxnOCC) (L : history) (K : gmap nat (nat * Schema)) (R : gmap (nat * Z) Value).
Context (Hd : db_rep d A) (Hm : meta_ok N d) (Hx : stage_ok ts d A x L K R).

Lemma read_column_ok p c :
  allowed_op d x L (ReadColumn p c) = true →
  ∃ x' v K' R', occ_op d x (ReadColumn p c) = Done (d, x', Some v) ∧
    stage_ok ts d A x' (L ++ [(ReadColumn p c, Some v)]) K' R' ∧ learns A K K' ∧ txnid_ x' = txnid_ x ∧ verified_ x' = verified_ x.
Proof using Hd Hm Hx.
  intros Hal. cbn in Hal. unfold on_row in Hal. destruct (db_rows d !! p) as [o|] eqn:Ho; [|done]. apply andb_true_iff in Hal as [Hu Hc].
  destruct (visible_row N d A Hd Hm p o c Ho Hc) as (a & m & v & Ha & Hr & Hc0 & Hmv & Hv & Hk & _).
  assert (get_column (vr_row o) c = Done v) as Hget by (pose proof (row_get_rep d A p a c v Hd Ha Hc0 Hv) as Hg; unfold row_get, row_at in Hg; by rewrite Ho in Hg).
  cbn [occ_op]. unfold occ_read_column. rewrite (sg_outcome _ _ _ _ _ _ _ Hx), bool_decide_eq_true_2 by done. cbn [verify mbind result_bind].
  unfold row_at. rewrite Ho. cbn [mbind result_bind]. destruct (vr_tbl o) as [t|] eqn:Htb.
  - assert (ar_tbl a = Some t) as Hat by (by rewrite <-(or_tbl _ _ Hr)). pose proof (own_not_in_table _ _ _ _ _ _ _ Hx p a t Ha Hat) as Hno.
    pose proof (not_dropped_not_gone _ _ _ _ _ _ _ Hx p (usable_dropped _ p o Hu)) as Hng.
    destruct (find_update p c (updates_ x)) as [w|] eqn:Hf; cbn [mbind result_bind].
    + exists x, w, K, R. split_and!; try done; [|apply learns_refl]. eapply stage_answer; [done..|]. intros S S' Hal (C1 & _ & _) (_ & _ & E3).
      pose proof (find_update_elem _ _ _ _ Hf) as Hin. destruct (sg_typed _ _ _ _ _ _ _ Hx p c w Hal Hin) as (t' & s & HK & Hks).
      destruct (C1 p t' s HK) as (b & Hb & Hbt & Hbs & Hbk). rewrite <-Hbk, list_lookup_fmap in Hks.
      destruct (ar_vals b !! Z.to_nat c) as [u|] eqn:Hu'; [|done].
      econstructor; [by rewrite E3, Hb|done|]. unfold staged_row. cbn. rewrite staged_vals_lookup, Hu'. cbn. rewrite Z2Nat.id, Hf by done. done.
    + rewrite (proj2 (get_column_ver_at d p c m) Hmv). cbn [mbind result_bind]. rewrite Hget. cbn [mbind result_bind].
      exists (note_read p c m x), v, (<[p := (t, ar_schema a)]> K), (<[(p, c) := v]> R). split_and!; try done; [|by apply learns_insert, learns_refl].
      eapply stage_answer; [by eapply stage_note_read|done..|]. intros S S' _ (_ & C2 & _) (_ & _ & E3).
      destruct (C2 p c v) as (b & Hb & Hbv); [by rewrite lookup_insert_eq|].
      econstructor; [by rewrite E3, Hb|done|]. unfold staged_row. cbn. rewrite staged_vals_lookup, Hbv. cbn. by rewrite Z2Nat.id, Hf by done.
  - rewrite Hget. cbn [mbind result_bind]. exists x, v, K, R. split_and!; try done; [|apply learns_refl]. eapply stage_answer; [done..|].
    intros S S' _ _ (E1 & _ & _). destruct (E1 p) as (b & Hb & HS); [by eapply usable_own|]. econstructor; [done..|]. cbn. by simplify_eq.
Qed.
End reads.

(** ** Writes *)

Section writes.
Context (ts : layout) (N : Z) (d : memdb) (A : astore) (x : TxnOCC) (L : history) (K : gmap nat (nat * Schema)) (R : gmap (nat * Z) Value).
Context (Hx : stage_ok ts d A x L K R).

Lemma staged_lookup p c b s w :
  0 ≤ c → alive d x → is_Some (K !! p) → K !! p = Some (w, s) → get_kind <$> ar_vals b = kinds s → (c < Z.of_nat (length (kinds s))) →
  ∃ u, ar_vals (staged_row (updates_ x) p b) !! Z.to_nat c = Some u ∧ kinds s !! Z.to_nat c = Some (get_kind u).
Proof using Hx.
  intros Hc Hal _ HK Hb Hlt. destruct (lookup_lt_is_Some_2 (ar_vals b) (Z.to_nat c)) as [u Hu].
  { rewrite <-(length_fmap get_kind), Hb. lia. }
  unfold staged_row. cbn. rewrite staged_vals_lookup, Hu. cbn. rewrite Z2Nat.id by done. eexists. split; [done|].
  destruct (find_update p c (updates_ x)) as [w0|] eqn:Hf; cbn.
  - destruct (sg_typed _ _ _ _ _ _ _ Hx p c w0 Hal (find_update_elem _ _ _ _ Hf)) as (t & s' & HK' & Hks). by simplify_eq.
  - by rewrite <-Hb, list_lookup_fmap, Hu.
Qed.

(** Staging a value for a column of a row in a table. *)
Lemma stage_update p c v a t l' :
  A !! p = Some a → ar_tbl a = Some t → 0 ≤ c → is_Some (ver_check_write_ x !! (p, c)) → ¬ gone x p → value_ok v →
  kinds (ar_schema a) !! Z.to_nat c = Some (get_kind v) → NoDup (update_keys l') →
  (∀ q c' w, (q, (c', w)) ∈ l' → (q, (c', w)) ∈ updates_ x ∨ (q = p ∧ c' = c ∧ w = v)) →
  (∀ q c', find_update q c' l' = if decide (q = p ∧ c' = c) then Some v else find_update q c' (updates_ x)) →
  stage_ok ts d A (set_stage l' (inserts_ x) (removes_ x) x) (L ++ [(WriteColumn p c v, None)]) K R.
Proof using Hx.
  intros Ha Ht Hc Hver Hng Hvo Hk Hnd Hin Hfind. pose proof (own_not_in_table _ _ _ _ _ _ _ Hx p a t Ha Ht) as Hno.
  assert (is_Some (K !! p)) as HKp by (apply (sg_track _ _ _ _ _ _ _ Hx p c); by right).
  assert (alive d x → K !! p = Some (t, ar_schema a)) as HK.
  { intros Hal. destruct (alive_table _ _ _ _ _ _ _ p Hx Hal HKp) as (b & t1 & ? & ? & ?). by simplify_eq. }
  pose proof Hx as [H1 H2 H3 H4 H5 H6 H7 H8 H9 H10 H11 H12 H13 H14 H15 H16 H17 H18].
  split; unfold compat, effect; rewrite ?created_app, ?dropped_app; cbn [created dropped omap list_omap fst]; rewrite ?app_nil_r; try done.
  - intros q c' w [Hq|(-> & -> & ->)]%Hin; [by apply H9|done].
  - intros q c' w Hal [Hq|(-> & -> & ->)]%Hin; [by apply H11|]. exists t, (ar_schema a). split; [by apply HK|done].
  - intros S Hal Hcomp. destruct (H18 S Hal Hcomp) as (S' & Hrun & E1 & E2 & E3). specialize (HK Hal).
    destruct (proj1 Hcomp p _ _ HK) as (b & Hb & Hbt & Hbs & Hbk).
    destruct (staged_lookup p c b (ar_schema a) t) as (u & Hu & Hku); [done..|apply lookup_lt_Some in Hk; lia|].
    exists (<[p := with_value c v (staged_row (updates_ x) p b)]> S'). split.
    + eapply atomic_run_snoc; [done|]. econstructor; [by rewrite E3, Hb|done..|congruence].
    + split_and!.
      * intros q Hq. rewrite lookup_insert_ne by congruence. by apply E1.
      * intros q Hq Hg. rewrite lookup_insert_ne by (intros <-; done). by apply E2.
      * intros q Hq Hg. cbn [updates_ set_stage]. destruct (decide (q = p)) as [->|Hne].
        -- rewrite lookup_insert_eq, Hb. cbn. f_equal. symmetry. apply staged_row_set; [done|]. intros c'. rewrite Hfind.
           repeat case_decide; naive_solver.
        -- rewrite lookup_insert_ne, E3 by done. destruct (S !! q) as [b'|]; [|done]. cbn. f_equal. symmetry. apply staged_row_ext.
           intros c'. rewrite Hfind. rewrite decide_False by naive_solver. done.
Qed.

(** Changing a row of the transaction's own in place. *)
Lemma stage_own_write d' p c v a :
  A !! p = Some a → p ∈ created L → 0 ≤ c → value_ok v → (∃ old, ar_vals a !! Z.to_nat c = Some old ∧ get_kind v = get_kind old) →
  same_frame d d' → stage_ok ts d' (<[p := with_value c v a]> A) x (L ++ [(WriteColumn p c v, None)]) K R.
Proof using Hx.
  intros Ha Hp Hc Hv (old & Hold & Hk) Hf. pose proof Hx as [H1 H2 H3 H4 H5 H6 H7 H8 H9 H10 H11 H12 H13 H14 H15 H16 H17 H18].
  assert (alive d' x → alive d x) as Halive by (intros Hal q c' n Hn; rewrite <-(same_frame_ver d d') by done; by apply Hal).
  destruct (H3 p Hp) as (a' & Ha' & Htn). assert (a' = a) as -> by congruence.
  assert (∀ q, is_Some (K !! q) → q ≠ p) as HKne.
  { intros q HK ->. destruct (H5 p HK) as (c' & Hc'). by destruct (H4 p c' Hc') as (_ & ? & _). }
  assert (∀ q c' n b, is_Some (K !! q) → seen d A K R q c' n b → seen d' (<[p := with_value c v a]> A) K R q c' n b) as Hseen.
  { intros q c' n b HK (m & Hmv & Hle & Heq). exists m. rewrite (same_frame_ver d d') by done. rewrite lookup_insert_ne; [done|].
    intros <-. by apply (HKne p). }
  split; unfold compat, effect; rewrite ?created_app, ?dropped_app; cbn [created dropped omap list_omap fst]; rewrite ?app_nil_r; try done.
  - intros q Hq. destruct (decide (q = p)) as [->|Hne]; [rewrite lookup_insert_eq; eauto|]. rewrite lookup_insert_ne by done. by apply H3.
  - intros q c' n Hn. apply Hseen; [|by apply H7]. apply (H4 q c'). left. eauto.
  - intros q c' n Hn. apply Hseen; [|by apply H8]. apply (H4 q c'). right. eauto.
  - intros q c' w Hal. auto.
  - intros t q Hin. destruct (H12 t q Hin) as (Hq & b & k & Hb & Hk'). split; [done|]. destruct (decide (q = p)) as [->|Hne].
    + rewrite lookup_insert_eq. assert (b = a) as -> by congruence. by exists (with_value c v a), k.
    + rewrite lookup_insert_ne by done. eauto.
  - intros t q Hal. auto.
  - intros q Hq. destruct (decide (q = p)) as [->|Hne]; [by rewrite lookup_insert_eq|]. rewrite lookup_insert_ne by done. by apply H17.
  - intros S Hal Hcomp. destruct (H18 S (Halive Hal) Hcomp) as (S' & Hrun & E1 & E2 & E3).
    destruct (E1 p Hp) as (b & Hb & HS). assert (b = a) as -> by congruence. exists (<[p := with_value c v (linked (staged_table (inserts_ x) p) a)]> S').
    split; [eapply atomic_run_snoc; [done|]; by econstructor|]. split_and!.
    + intros q Hq. destruct (decide (q = p)) as [->|Hne]; [rewrite !lookup_insert_eq; by eexists|]. rewrite !lookup_insert_ne by done. by apply E1.
    + intros q Hq Hg. rewrite lookup_insert_ne by congruence. by apply E2.
    + intros q Hq Hg. rewrite lookup_insert_ne by congruence. by apply E3.
Qed.
End writes.

Lemma meta_ok_frame N d d' A A' :
  db_rep d A → db_rep d' A' → same_frame d d' → (∀ p a a', A !! p = Some a → A' !! p = Some a' → ar_schema a' = ar_schema a) →
  meta_ok N d → meta_ok N d'.
Proof.
  intros Hd Hd' Hf Hs Hm p o' Ho'. destruct (db_rows d !! p) as [o|] eqn:Ho; [|by rewrite (same_frame_none d d') in Ho'].
  destruct (same_frame_row d d' p o Hf Ho) as (o1 & Ho1 & Hl & Hv). simplify_eq. destruct (Hm p o Ho) as (M1 & M2 & M3). rewrite Hl, Hv. split_and!; [done| |done].
  destruct (dr_row _ _ Hd p o Ho) as (a & Ha & Hr), (dr_row _ _ Hd' p o' Ho') as (a' & Ha' & Hr').
  by rewrite M2, (or_schema _ _ Hr), (or_schema _ _ Hr'), (Hs p a a').
Qed.

Lemma same_frame_quiet d d' A A' L L' :
  same_frame d d' → created L' = created L → (∀ p, p ∉ created L' → A' !! p = A !! p) → quiet d d' A A' L L'.
Proof.
  intros Hf Hc HA. split; [|done|rewrite Hc; auto|by rewrite Hc].
  intros p [o Ho]. destruct (same_frame_row d d' p o Hf Ho) as (o' & Ho' & _). split_and!; [eauto|intros c; by apply same_frame_ver|by apply same_frame_lock].
Qed.

Section op_results.
Context (ts : layout) (N : Z) (d : memdb) (A : astore) (x : TxnOCC) (L : history) (K : gmap nat (nat * Schema)) (R : gmap (nat * Z) Value).
Context (Hd : db_rep d A) (Hsh : same_shape d ts) (Hm : meta_ok N d) (Hx : stage_ok ts d A x L K R).

Lemma write_column_ok p c v :
  allowed_op d x L (WriteColumn p c v) = true →
  ∃ d' x' A' K' R', occ_op d x (WriteColumn p c v) = Done (d', x', None) ∧ db_rep d' A' ∧ same_shape d' ts ∧ meta_ok N d' ∧
    stage_ok ts d' A' x' (L ++ [(WriteColumn p c v, None)]) K' R' ∧ quiet d d' A A' L (L ++ [(WriteColumn p c v, None)]) ∧
    learns A K K' ∧ txnid_ x' = txnid_ x ∧ verified_ x' = verified_ x.
Proof using Hd Hsh Hm Hx.
  intros Hal. cbn in Hal. unfold on_row in Hal. destruct (db_rows d !! p) as [o|] eqn:Ho; [|done].
  do 4 (apply andb_true_iff in Hal as [Hal ?]). match goal with H : value_okb v = true |- _ => apply value_okb_ok in H as Hvo end.
  match goal with H : bool_decide (column_kind o c = _) = true |- _ => apply bool_decide_eq_true in H as Hck end.
  destruct (visible_row N d A Hd Hm p o c Ho) as (a & m & u & Ha & Hr & Hc0 & Hmv & Hu & Hk & Hck'); [done|].
  assert (get_kind v = get_kind u) as Hkv by congruence. rewrite <-Hkv in Hk.
  cbn [occ_op]. unfold occ_write_column. rewrite (sg_outcome _ _ _ _ _ _ _ Hx), bool_decide_eq_true_2 by done. cbn [verify mbind result_bind].
  unfold row_at. rewrite Ho. cbn [mbind result_bind].
  assert (created (L ++ [(WriteColumn p c v, None)]) = created L) as Hcr by (by rewrite created_app; cbn; rewrite app_nil_r).
  destruct (vr_tbl o) as [t|] eqn:Htb.
  - assert (ar_tbl a = Some t) as Hat by (by rewrite <-(or_tbl _ _ Hr)).
    pose proof (not_dropped_not_gone _ _ _ _ _ _ _ Hx p (usable_dropped _ p o Hal)) as Hng.
    assert (quiet d d A A L (L ++ [(WriteColumn p c v, None)])) as Hq by by apply quiet_refl.
    destruct (find_update p c (updates_ x)) as [w|] eqn:Hf; cbn [mbind result_bind].
    + eexists d, _, A, K, R. split; [done|]. split_and!; try done; [|apply learns_refl].
      eapply stage_update; try done; [apply (sg_updates _ _ _ _ _ _ _ Hx p c w); by apply find_update_elem|..].
      * rewrite replace_update_keys. apply Hx.
      * intros q c' w'. apply replace_update_elem.
      * intros q c'. apply find_update_replace. eauto.
    + rewrite (sg_policy _ _ _ _ _ _ _ Hx). rewrite decide_False by done. cbn [mbind result_bind].
      rewrite (proj2 (get_column_ver_at d p c m) Hmv). cbn [mbind result_bind].
      eexists d, _, A, _, R. split; [done|]. split_and!; try done; [|by apply learns_insert, learns_refl].
      assert (stage_ok ts d A (note_write p c m x) L (<[p := (t, ar_schema a)]> K) R) as Hx1 by by eapply stage_note_write.
      eapply (stage_update ts d A (note_write p c m x)); try done; cbn [updates_ note_write ver_check_write_].
      * rewrite lookup_insert_absent, decide_True by done. eauto.
      * unfold update_keys. rewrite multimap_insert_perm. cbn. apply NoDup_cons. split; [by apply find_update_None|apply Hx].
      * intros q c' w'. rewrite multimap_insert_perm, elem_of_cons. intros [Heq|?]; [right; by simplify_eq|by left].
      * intros q c'. by apply find_update_insert.
  - destruct (row_update_rep d A p a c v u) as (d' & -> & Hd' & Hf); [done..|]. cbn [mbind result_bind].
    assert (p ∈ created L) as Hp by by eapply usable_own.
    eexists d', x, _, K, R. split; [done|]. split; [done|]. split_and!; try done.
    + unfold same_shape in *. destruct Hf as [_ ->]. done.
    + eapply (meta_ok_frame N d d'); [done|done|done| |done]. intros q b b' Hb Hb'. apply lookup_insert_Some in Hb' as [[<- <-]|[_ Hb']]; [cbn|]; congruence.
    + eapply stage_own_write; eauto.
    + apply same_frame_quiet; [done..|]. intros q Hq. rewrite Hcr in Hq. by rewrite lookup_insert_ne by congruence.
    + apply learns_refl.
Qed.
End op_results.

(** ** The staged rows as a multiset *)

Section staged.
Context (ts : layout) (d : memdb) (A : astore) (Hd : db_rep d A).

(** Rows staged for a table have its schema. *)
Definition fits (e : nat * nat) : Prop := ∃ a k, A !! e.2 = Some a ∧ ts !! e.1 = Some (k, ar_schema a).

Lemma pair_lt_fits e1 e2 : fits e1 → fits e2 → ∃ b, pair_lt d e1 e2 = Done b.
Proof using Hd.
  intros (a1 & k1 & Ha1 & Ht1) (a2 & k2 & Ha2 & Ht2). unfold pair_lt, row_lt. destruct (decide (e1.1 = e2.1)) as [Heq|]; [|eauto].
  destruct (decide (e1.2 = e2.2)); [eauto|]. rewrite Heq in Ht1. simplify_eq.
  destruct (db_row_at d A Hd _ a1 Ha1) as (o1 & -> & _ & R1), (db_row_at d A Hd _ a2 Ha2) as (o2 & -> & _ & R2). cbn.
  rewrite (or_schema _ _ R1), (or_schema _ _ R2), bool_decide_eq_true_2 by congruence. cbn. rewrite (obj_key _ _ R1), (obj_key _ _ R2). cbn.
  unfold key_lt, key_blobs. pose proof (obj_key_typed _ _ R1) as K1. pose proof (obj_key_typed _ _ R2) as K2.
  replace (ar_schema a2) with (ar_schema a1) in * by congruence. rewrite compare_typed by done. cbn. eauto.
Qed.

Lemma pair_lt_refl e : pair_lt d e e = Done false.
Proof. unfold pair_lt, row_lt. by rewrite !decide_True. Qed.

Lemma multiset_insert_perm e l : fits e → Forall fits l → ∃ l', multiset_insert d e l = Done l' ∧ l' ≡ₚ e :: l.
Proof using Hd.
  intros He Hl. induction Hl as [|e1 l H1 _ (l' & IH & Hp)]; cbn; [eauto|]. destruct (pair_lt_fits e e1 He H1) as [b ->]. cbn.
  destruct b; [eauto|]. rewrite IH. cbn. eexists. split; [done|]. rewrite Hp. apply Permutation_swap.
Qed.

Lemma staged_at_in t p l : Forall fits l → NoDup l.*2 → (t, p) ∈ l → ∃ i, staged_at d (t, p) l = Done (Some i) ∧ l !! i = Some (t, p).
Proof using Hd.
  intros Hl Hnd Hin. assert (fits (t, p)) as Hf by (rewrite Forall_forall in Hl; by apply Hl).
  induction Hl as [|e1 l H1 _ IH]; [by apply not_elem_of_nil in Hin|]. cbn in Hnd. apply NoDup_cons in Hnd as [Hni Hnd]. cbn [staged_at].
  apply elem_of_cons in Hin as [<-|Hin].
  - rewrite !pair_lt_refl. cbn. exists 0%nat. by rewrite bool_decide_eq_true_2.
  - destruct (pair_lt_fits (t, p) e1 Hf H1) as [b1 ->], (pair_lt_fits e1 (t, p) H1 Hf) as [b2 ->]. cbn [mbind result_bind].
    rewrite (bool_decide_eq_false_2 (e1.2 = p)), andb_false_r.
    + destruct (IH Hnd Hin) as (i & -> & Hi). cbn. by exists (S i).
    + intros Heq. apply Hni. rewrite Heq. by apply (list_elem_of_fmap_2 snd l (t, p)).
Qed.

Lemma staged_at_out t p l : fits (t, p) → Forall fits l → p ∉ l.*2 → staged_at d (t, p) l = Done None.
Proof using Hd.
  intros Hf Hl Hn. induction Hl as [|e1 l H1 _ IH]; [done|]. cbn in Hn. apply not_elem_of_cons in Hn as [Hne Hn]. cbn [staged_at].
  destruct (pair_lt_fits (t, p) e1 Hf H1) as [b1 ->], (pair_lt_fits e1 (t, p) H1 Hf) as [b2 ->]. cbn [mbind result_bind].
  rewrite (bool_decide_eq_false_2 (e1.2 = p)), andb_false_r by congruence. by rewrite IH.
Qed.
End staged.

Section rows.
Context (ts : layout) (d : memdb) (A : astore) (x : TxnOCC) (L : history) (K : gmap nat (nat * Schema)) (R : gmap (nat * Z) Value).
Context (Hx : stage_ok ts d A x L K R).

Lemma inserts_fit : Forall (fits ts A) (inserts_ x).
Proof using Hx. apply Forall_forall. intros [t p] Hin. destruct (sg_inserts _ _ _ _ _ _ _ Hx t p Hin) as (_ & a & k & ? & ?). by exists a, k. Qed.

Lemma stage_insert t p a k l' :
  A !! p = Some a → p ∈ created L → p ∉ (inserts_ x).*2 → ts !! t = Some (k, ar_schema a) → l' ≡ₚ (t, p) :: inserts_ x →
  stage_ok ts d A (set_stage (updates_ x) l' (removes_ x) x) (L ++ [(InsertRow t p, None)]) K R.
Proof using Hx.
  intros Ha Hp Hni Ht Hl'. pose proof Hx as [H1 H2 H3 H4 H5 H6 H7 H8 H9 H10 H11 H12 H13 H14 H15 H16 H17 H18].
  assert (NoDup ((t, p) :: inserts_ x).*2) as Hnd by (by apply NoDup_cons).
  split; unfold compat, effect; rewrite ?created_app, ?dropped_app; cbn [created dropped omap list_omap fst inserts_ set_stage]; rewrite ?app_nil_r; try done.
  - intros t' q. rewrite Hl', elem_of_cons. intros [Heq|Hin]; [simplify_eq; eauto|by apply H12].
  - by rewrite Hl'.
  - intros S Hal Hcomp. destruct (H18 S Hal Hcomp) as (S' & Hrun & E1 & E2 & E3). destruct (E1 p Hp) as (b & Hb & HS).
    assert (b = a) as -> by congruence. rewrite (proj2 (staged_table_None _ p) Hni) in HS. exists (<[p := linked (Some t) (linked None a)]> S').
    split; [eapply atomic_run_snoc; [done|]; by econstructor|]. split_and!.
    + intros q Hq. rewrite (staged_table_perm ((t, p) :: inserts_ x)) by done. cbn. destruct (decide (p = q)) as [->|Hne].
      * rewrite lookup_insert_eq. by exists a.
      * rewrite lookup_insert_ne by done. by apply E1.
    + intros q Hq Hg. rewrite lookup_insert_ne by congruence. by apply E2.
    + intros q Hq Hg. rewrite lookup_insert_ne by congruence. by apply E3.
Qed.

Lemma stage_unstage t p i :
  inserts_ x !! i = Some (t, p) → p ∉ (updates_ x).*1 →
  stage_ok ts d A (set_stage (updates_ x) (delete i (inserts_ x)) (removes_ x) x) (L ++ [(RemoveRow t p, None)]) K R.
Proof using Hx.
  intros Hi Hnu. pose proof Hx as [H1 H2 H3 H4 H5 H6 H7 H8 H9 H10 H11 H12 H13 H14 H15 H16 H17 H18].
  pose proof (delete_Permutation _ _ _ Hi) as Hperm. destruct (H12 t p) as (Hp & a & k & Ha & Ht); [by eapply list_elem_of_lookup_2|].
  assert (NoDup ((t, p) :: delete i (inserts_ x)).*2) as Hnd by (by rewrite <-Hperm). pose proof Hnd as Hnd2. cbn in Hnd2. apply NoDup_cons in Hnd2 as [Hni Hnd2].
  split; unfold compat, effect; rewrite ?created_app, ?dropped_app; cbn [created dropped omap list_omap fst inserts_ set_stage]; rewrite ?app_nil_r; try done.
  - intros t' q Hin. apply H12. rewrite Hperm. by right.
  - intros t' q Hin. destruct (H14 t' q Hin) as (? & ? & ?). split_and!; [apply elem_of_app; by left|done..].
  - intros S Hal Hcomp. destruct (H18 S Hal Hcomp) as (S' & Hrun & E1 & E2 & E3). destruct (E1 p Hp) as (b & Hb & HS).
    assert (b = a) as -> by congruence. rewrite (proj2 (staged_table_Some _ p t H13)) in HS by (by eapply list_elem_of_lookup_2).
    exists (<[p := linked None (linked (Some t) a)]> S'). split; [eapply atomic_run_snoc; [done|]; by econstructor|]. split_and!.
    + intros q Hq. destruct (decide (p = q)) as [->|Hne].
      * rewrite lookup_insert_eq, (proj2 (staged_table_None _ q) Hni). by exists a.
      * rewrite lookup_insert_ne by done. destruct (E1 q Hq) as (b & Hb' & HS'). exists b. split; [done|]. rewrite HS'.
        rewrite (staged_table_perm ((t, p) :: delete i (inserts_ x))) by done. cbn. by rewrite decide_False.
    + intros q Hq Hg. rewrite lookup_insert_ne by congruence. by apply E2.
    + intros q Hq Hg. rewrite lookup_insert_ne by congruence. by apply E3.
Qed.

Lemma stage_remove t p a :
  A !! p = Some a → ar_tbl a = Some t → K !! p = Some (t, ar_schema a) → p ∉ dropped L →
  (∀ c, 0 ≤ c < Z.of_nat (columns_count (ar_schema a)) → is_Some (ver_check_write_ x !! (p, c))) →
  stage_ok ts d A (set_stage (filter (λ u, u.1 ≠ p) (updates_ x)) (inserts_ x) (removes_ x ++ [(t, p)]) x) (L ++ [(RemoveRow t p, None)]) K R.
Proof using Hx.
  intros Ha Ht HK Hnd Hcols. pose proof (own_not_in_table _ _ _ _ _ _ _ Hx p a t Ha Ht) as Hno.
  pose proof (not_dropped_not_gone _ _ _ _ _ _ _ Hx p Hnd) as Hng.
  pose proof Hx as [H1 H2 H3 H4 H5 H6 H7 H8 H9 H10 H11 H12 H13 H14 H15 H16 H17 H18].
  assert (∀ q, q ∈ (removes_ x ++ [(t, p)]).*2 ↔ gone x q ∨ q = p) as Hgone.
  { intros q. rewrite fmap_app, elem_of_app. cbn. by rewrite list_elem_of_singleton. }
  split; unfold compat, effect, gone; rewrite ?created_app, ?dropped_app;
    cbn [created dropped omap list_omap fst updates_ removes_ set_stage]; rewrite ?app_nil_r; try done.
  - intros q c v [Hq Hin]%list_elem_of_filter. cbn in Hq. destruct (H9 q c v Hin) as (? & ? & ?). split_and!; [done..|]. rewrite Hgone. tauto.
  - eapply sublist_NoDup; [exact H10|]. apply fmap_sublist, sublist_filter.
  - intros q c v Hal [_ Hin]%list_elem_of_filter. by apply H11.
  - intros t' q. rewrite elem_of_app, list_elem_of_singleton. intros [Hin|Heq].
    + destruct (H14 t' q Hin) as (? & ? & ?). split_and!; [apply elem_of_app; by left|done..].
    + simplify_eq. split_and!; [apply elem_of_app; right; by left|done|eauto].
  - rewrite fmap_app. cbn. apply NoDup_app. split_and!; [done|intros q Hq Hq'; apply list_elem_of_singleton in Hq' as ->; done|apply NoDup_singleton].
  - intros t' q Hal. rewrite elem_of_app, list_elem_of_singleton. intros [Hin|Heq]; [by apply H16|]. simplify_eq. eauto.
  - intros S Hal Hcomp. destruct (H18 S Hal Hcomp) as (S' & Hrun & E1 & E2 & E3). destruct (proj1 Hcomp p _ _ HK) as (b & Hb & Hbt & _).
    exists (<[p := linked None (staged_row (updates_ x) p b)]> S'). split.
    + eapply atomic_run_snoc; [done|]. econstructor; [by rewrite E3, Hb|done].
    + setoid_rewrite Hgone. split_and!.
      * intros q Hq. rewrite lookup_insert_ne by congruence. by apply E1.
      * intros q Hq Hg. destruct (decide (p = q)) as [->|Hne]; [rewrite lookup_insert_eq; by eexists|]. rewrite lookup_insert_ne by done.
        apply E2; [done|]. destruct Hg; [done|congruence].
      * intros q Hq Hg. rewrite lookup_insert_ne by (intros ->; tauto). rewrite E3 by tauto. destruct (S !! q) as [b'|]; [|done]. cbn. f_equal.
        symmetry. apply staged_row_ext. intros c. rewrite find_update_filter. rewrite decide_False by tauto. done.
Qed.
End rows.

Lemma filter_all {B} (P : B → Prop) `{∀ y, Decision (P y)} (l : list B) : (∀ y, y ∈ l → P y) → filter P l = l.
Proof.
  induction l as [|y l IH]; intros HP; [done|]. rewrite filter_cons, decide_True by (apply HP; by left). f_equal. apply IH.
  intros z Hz. apply HP. by right.
Qed.

(** The loop over the columns of a row to be removed. *)
Lemma note_row_ok ts N d A x L K R p o a t cols :
  db_rep d A → meta_ok N d → stage_ok ts d A x L K R → db_rows d !! p = Some o → A !! p = Some a → ar_tbl a = Some t → ¬ gone x p →
  Forall (λ c, visible_column o c = true) cols →
  ∃ x' K', note_row p cols d x = Done (d, x') ∧ stage_ok ts d A x' L K' R ∧ learns A K K' ∧ ((cols = [] ∧ K' = K) ∨ K' !! p = Some (t, ar_schema a)) ∧
    (∀ k, is_Some (ver_check_write_ x !! k) → is_Some (ver_check_write_ x' !! k)) ∧
    (∀ c, c ∈ cols → is_Some (ver_check_write_ x' !! (p, c))) ∧ updates_ x' = updates_ x ∧ inserts_ x' = inserts_ x ∧ removes_ x' = removes_ x ∧
    txnid_ x' = txnid_ x ∧ verified_ x' = verified_ x.
Proof.
  intros Hd Hm Hx Ho Ha Ht Hng Hcols. unfold note_row. revert x K Hx Hng. induction Hcols as [|c cols Hc _ IH]; intros x K Hx Hng.
  - exists x, K. split_and!; try done; [apply learns_refl|by left|by intros c ?%not_elem_of_nil].
  - destruct (visible_row N d A Hd Hm p o c Ho Hc) as (a' & m & v & Ha' & _ & Hc0 & Hmv & Hv & _). simplify_eq. cbn [for_each].
    rewrite (sg_policy _ _ _ _ _ _ _ Hx), decide_False by done. cbn [mbind result_bind].
    rewrite (proj2 (get_column_ver_at d p c m) Hmv). cbn [mbind result_bind].
    destruct (IH (note_write p c m x) (<[p := (t, ar_schema a)]> K)) as (x' & K' & -> & Hx' & Hln & HK' & Hmono & Hin & Hrest); [by eapply stage_note_write|done|].
    assert (∀ k, is_Some (ver_check_write_ x !! k) → is_Some (ver_check_write_ (note_write p c m x) !! k)) as Hm1.
    { intros k Hk. cbn. rewrite lookup_insert_absent. case_decide; [eauto|done]. }
    exists x', K'. split; [done|]. split; [done|]. split.
    { intros q Hq. destruct (Hln q Hq) as [Hq'|?]; [|by right]. destruct (decide (q = p)) as [->|Hne]; [right; eauto|]. rewrite lookup_insert_ne in Hq' by done. by left. }
    split.
    + right. destruct HK' as [[_ ->]|HK']; [apply lookup_insert_eq|done].
    + split; [auto|]. split; [|done]. intros c'. rewrite elem_of_cons. intros [->|?]; [|auto]. apply Hmono. cbn.
      rewrite lookup_insert_absent, decide_True by done. eauto.
Qed.

Section op_rows.
Context (ts : layout) (N : Z) (d : memdb) (A : astore) (x : TxnOCC) (L : history) (K : gmap nat (nat * Schema)) (R : gmap (nat * Z) Value).
Context (Hd : db_rep d A) (Hsh : same_shape d ts) (Hm : meta_ok N d) (Hx : stage_ok ts d A x L K R).

Lemma filter_removes t p : p ∈ created L → filter (λ e, e ≠ (t, p)) (removes_ x) = removes_ x.
Proof using Hx.
  intros Hp. apply filter_all. intros [t' q] Hin Heq. simplify_eq. by destruct (sg_removes _ _ _ _ _ _ _ Hx t p Hin) as (_ & ? & _).
Qed.

Lemma insert_row_ok t p :
  allowed_op d x L (InsertRow t p) = true →
  ∃ x', occ_op d x (InsertRow t p) = Done (d, x', None) ∧ stage_ok ts d A x' (L ++ [(InsertRow t p, None)]) K R ∧
    txnid_ x' = txnid_ x ∧ verified_ x' = verified_ x.
Proof using Hd Hsh Hm Hx.
  intros Hal. cbn in Hal. unfold on_row in Hal. destruct (db_rows d !! p) as [o|] eqn:Ho; [|done].
  do 3 (apply andb_true_iff in Hal as [Hal ?]). repeat match goal with H : bool_decide _ = true |- _ => apply bool_decide_eq_true in H end.
  destruct (dr_row _ _ Hd p o Ho) as (a & Ha & Hr). destruct (db_tables d !! t) as [tb|] eqn:Htb; [|done].
  assert (ts !! t = Some (rtti tb, ar_schema a)) as Ht.
  { rewrite <-(or_schema _ _ Hr). unfold same_shape in Hsh. rewrite <-Hsh. unfold shape. rewrite lookup_fmap, Htb. cbn in *. congruence. }
  destruct (sg_own _ _ _ _ _ _ _ Hx p) as (a' & Ha' & Hn); [done|]. assert (a' = a) as -> by congruence.
  cbn [occ_op]. unfold occ_insert_row. rewrite (sg_outcome _ _ _ _ _ _ _ Hx), bool_decide_eq_true_2 by done. cbn [verify mbind result_bind].
  unfold row_at. rewrite Ho. cbn [mbind result_bind]. rewrite (or_tbl _ _ Hr), bool_decide_eq_true_2 by done. cbn [verify mbind result_bind].
  destruct (multiset_insert_perm ts d A Hd (t, p) (inserts_ x)) as (l' & -> & Hl'); [by exists a, (rtti tb)|by eapply inserts_fit|]. cbn [mbind result_bind].
  eexists. split; [done|]. split; [|done]. rewrite filter_removes by done. by eapply stage_insert.
Qed.

Lemma filter_updates p : p ∈ created L → filter (λ u, u.1 ≠ p) (updates_ x) = updates_ x.
Proof using Hx.
  intros Hp. apply filter_all. intros [q [c v]] Hin Heq. cbn in Heq. subst. destruct (sg_updates _ _ _ _ _ _ _ Hx p c v Hin) as (Hw & _).
  destruct (sg_track _ _ _ _ _ _ _ Hx p c) as (_ & ? & _); [by right|done].
Qed.

Lemma column_ids_visible o a : obj_rep o a → Forall (λ c, visible_column o c = true) (column_ids (schema_ (vr_row o))).
Proof.
  intros Hr. apply Forall_forall. intros c Hc. apply list_elem_of_fmap_1 in Hc as (i & -> & Hi). apply elem_of_seq in Hi.
  apply bool_decide_eq_true. lia.
Qed.

Lemma remove_row_ok t p :
  allowed_op d x L (RemoveRow t p) = true →
  ∃ x' K', occ_op d x (RemoveRow t p) = Done (d, x', None) ∧ stage_ok ts d A x' (L ++ [(RemoveRow t p, None)]) K' R ∧
    learns A K K' ∧ txnid_ x' = txnid_ x ∧ verified_ x' = verified_ x.
Proof using Hd Hsh Hm Hx.
  intros Hal. cbn in Hal. unfold on_row in Hal. destruct (db_rows d !! p) as [o|] eqn:Ho; [|done].
  apply andb_true_iff in Hal as [Hu Hor]. destruct (dr_row _ _ Hd p o Ho) as (a & Ha & Hr).
  cbn [occ_op]. unfold occ_remove_row. rewrite (sg_outcome _ _ _ _ _ _ _ Hx), bool_decide_eq_true_2 by done. cbn [verify mbind result_bind].
  destruct (decide ((t, p) ∈ inserts_ x)) as [Hin|Hin].
  - destruct (staged_at_in ts d A Hd t p (inserts_ x)) as (i & -> & Hi); [by eapply inserts_fit|apply Hx|done|]. cbn [mbind result_bind].
    eexists _, K. split; [done|]. split; [|split; [apply learns_refl|done]]. cbn [updates_ inserts_ removes_ set_stage].
    destruct (sg_inserts _ _ _ _ _ _ _ Hx t p Hin) as (Hp & _). rewrite filter_updates by done.
    eapply (stage_unstage ts d A x L K R Hx t p i); [done|]. intros Hin'. apply list_elem_of_fmap_1 in Hin' as ([q [c v]] & -> & Hq).
    destruct (sg_updates _ _ _ _ _ _ _ Hx q c v Hq) as (Hw & _). destruct (sg_track _ _ _ _ _ _ _ Hx q c) as (_ & ? & _); [by right|done].
  - rewrite (bool_decide_eq_false_2 ((t, p) ∈ inserts_ x)), orb_false_r in Hor by done. apply bool_decide_eq_true in Hor.
    assert (ar_tbl a = Some t) as Hat by (by rewrite <-(or_tbl _ _ Hr)). pose proof (own_not_in_table _ _ _ _ _ _ _ Hx p a t Ha Hat) as Hno.
    destruct (dr_linked _ _ Hd p a t Ha Hat) as [tb Htb].
    assert (fits ts A (t, p)) as Hfit.
    { exists a, (rtti tb). split; [done|]. unfold same_shape in Hsh. rewrite <-Hsh. unfold shape. cbn. rewrite lookup_fmap, Htb. cbn.
      by rewrite (tr_schema _ _ _ (dr_table _ _ Hd t tb Htb) p a Ha Hat). }
    rewrite (staged_at_out ts d A Hd t p (inserts_ x)); [|done|by eapply inserts_fit|].
    2:{ intros Hq. apply list_elem_of_fmap_1 in Hq as ([t' q] & -> & Hq). by destruct (sg_inserts _ _ _ _ _ _ _ Hx t' q Hq). }
    cbn [mbind result_bind]. unfold row_at. rewrite Ho. cbn [mbind result_bind].
    pose proof (usable_dropped _ p o Hu) as Hnd. pose proof (not_dropped_not_gone _ _ _ _ _ _ _ Hx p Hnd) as Hng.
    destruct (note_row_ok ts N d A x L K R p o a t (column_ids (schema_ (vr_row o)))) as (x' & K' & -> & Hx' & Hln & HK & _ & Hin' & Hup & Hins & Hrm & Hid & Hver);
      [done..|by eapply column_ids_visible|]. cbn [mbind result_bind].
    eexists _, K'. split; [done|]. split; [|done]. cbn [updates_ inserts_ removes_ set_stage].
    rewrite decide_False.
    2:{ rewrite Hrm. intros Hq. apply Hng. by apply (list_elem_of_fmap_2 snd (removes_ x) (t, p)). }
    eapply (stage_remove ts d A x' L K' R Hx' t p a); try done.
    + destruct HK as [[Hnil _]|HK]; [|done]. exfalso. apply (f_equal length) in Hnil. unfold column_ids in Hnil. rewrite length_fmap, length_seq in Hnil.
      destruct (or_plain _ _ Hr) as (_ & Hpos & _). rewrite (or_schema _ _ Hr) in Hnil. cbn in Hnil. lia.
    + intros c Hc. apply Hin'. apply list_elem_of_fmap. exists (Z.to_nat c). split; [lia|]. apply elem_of_seq. rewrite (or_schema _ _ Hr). lia.
Qed.

(** Every allowed operation returns and keeps the invariant. *)
Lemma occ_op_ok o :
  plain_layout ts → 0 ≤ N → allowed_op d x L o = true →
  ∃ d' x' a A' K' R', occ_op d x o = Done (d', x', a) ∧ db_rep d' A' ∧ same_shape d' ts ∧ meta_ok N d' ∧
    stage_ok ts d' A' x' (L ++ [(o, a)]) K' R' ∧ quiet d d' A A' L (L ++ [(o, a)]) ∧ learns A K K' ∧ txnid_ x' = txnid_ x ∧ verified_ x' = verified_ x.
Proof using Hd Hsh Hm Hx.
  intros Hts HN Hal. destruct o as [t p values|p c|p c v|t p|t p].
  - destruct (new_row_ok ts N d A x L K R Hts Hd Hsh Hm Hx t p values HN Hal) as (d' & A' & -> & H1 & H2 & H3 & H4 & H5).
    exists d', x, None, A', K, R. split_and!; try done. apply learns_refl.
  - destruct (read_column_ok ts N d A x L K R Hd Hm Hx p c Hal) as (x' & v & K' & R' & -> & H1 & H2).
    exists d, x', (Some v), A, K', R'. split_and!; try done; try (by apply quiet_refl); apply H2.
  - destruct (write_column_ok ts N d A x L K R Hd Hsh Hm Hx p c v Hal) as (d' & x' & A' & K' & R' & -> & H1).
    by exists d', x', None, A', K', R'.
  - destruct (insert_row_ok t p Hal) as (x' & -> & H1 & H2). exists d, x', None, A, K, R. split_and!; try done; try (by apply quiet_refl); try apply learns_refl; apply H2.
  - destruct (remove_row_ok t p Hal) as (x' & K' & -> & H1 & H2). exists d, x', None, A, K', R. split_and!; try done; try (by apply quiet_refl); apply H2.
Qed.
End op_rows.
