(* ===== verification/OccCommit.v ===== *)
(** * Optimistic transactions: locking, committing and aborting

    [commit_prepare] changes nothing but locks, and on success the transaction holds a
    lock on every row it remembers; [commit_confirm] applies the staged changes and
    raises the version of every column it changes, by one. *)

From S2P Require Import Prelude SparseInt RWLock MemRow MemRowSpec MemTable MemTableSpec Occ OccSpec OccInv OccOps.

(** ** Changes of locks *)

Record locks_only (id : Z) (d d' : memdb) : Prop := {
  lo_tables : db_tables d' = db_tables d;
  lo_row p o : db_rows d !! p = Some o → ∃ o', db_rows d' !! p = Some o' ∧ vr_row o' = vr_row o ∧ vr_tbl o' = vr_tbl o ∧ vr_ver o' = vr_ver o ∧
    (lock_ok (vr_lock o) → lock_ok (vr_lock o') ∧
      ∀ i, i ≠ id → (holds i (vr_lock o) → holds i (vr_lock o')) ∧ (holds_w i (vr_lock o) → holds_w i (vr_lock o')));
  lo_none p : db_rows d !! p = None → db_rows d' !! p = None;
}.

#[export] Instance locks_only_preorder id : PreOrder (locks_only id).
Proof.
  split.
  - intros d. split; [done| |done]. intros p o Ho. exists o. split_and!; auto.
  - intros d1 d2 d3 H1 H2. split; [by rewrite (lo_tables _ _ _ H2), (lo_tables _ _ _ H1)| |intros p Hp; by apply (lo_none _ _ _ H2), (lo_none _ _ _ H1)].
    intros p o Ho. destruct (lo_row _ _ _ H1 p o Ho) as (o2 & Ho2 & R2 & T2 & V2 & L2).
    destruct (lo_row _ _ _ H2 p o2 Ho2) as (o3 & Ho3 & R3 & T3 & V3 & L3). exists o3. split_and!; try congruence. intros Hl.
    destruct (L2 Hl) as [Hl2 P2]. destruct (L3 Hl2) as [Hl3 P3]. split; [done|]. intros i Hi. destruct (P2 i Hi), (P3 i Hi). auto.
Qed.

Lemma locks_only_rep id d d' A : locks_only id d d' → db_rep d A → db_rep d' A.
Proof.
  intros Hl [H1 H2 H3 H4].
  assert (∀ o o' a, vr_row o' = vr_row o → vr_tbl o' = vr_tbl o → obj_rep o a → obj_rep o' a) as Hobj.
  { intros o o' a Hr Ht [? ? ? ? ? ?]. split; rewrite ?Hr, ?Ht; done. }
  split.
  - intros p o' Ho'. destruct (db_rows d !! p) as [o|] eqn:Ho; [|by rewrite (lo_none _ _ _ Hl) in Ho'].
    destruct (lo_row _ _ _ Hl p o Ho) as (o1 & Ho1 & Hr & Ht & _). simplify_eq. destruct (H1 p o Ho) as (a & Ha & Hra). eauto.
  - intros p a Ha. destruct (H2 p a Ha) as (o & Ho & Hra). destruct (lo_row _ _ _ Hl p o Ho) as (o1 & Ho1 & Hr & Ht & _). eauto.
  - rewrite (lo_tables _ _ _ Hl). done.
  - rewrite (lo_tables _ _ _ Hl). done.
Qed.

Lemma locks_only_ver id d d' p c : locks_only id d d' → ver_at d' p c = ver_at d p c.
Proof.
  intros Hl. unfold ver_at. destruct (db_rows d !! p) as [o|] eqn:Ho; [|by rewrite (lo_none _ _ _ Hl)].
  destruct (lo_row _ _ _ Hl p o Ho) as (o1 & -> & _ & _ & -> & _). done.
Qed.

Lemma locks_only_meta id N d d' : locks_only id d d' → meta_ok N d → meta_ok N d'.
Proof.
  intros Hl Hm p o' Ho'. destruct (db_rows d !! p) as [o|] eqn:Ho; [|by rewrite (lo_none _ _ _ Hl) in Ho'].
  destruct (lo_row _ _ _ Hl p o Ho) as (o1 & Ho1 & Hr & _ & Hv & Hlk). simplify_eq. destruct (Hm p o Ho) as (M1 & M2 & M3).
  rewrite Hr, Hv. split_and!; [by apply Hlk|done..].
Qed.

Lemma locks_only_shape id d d' ts : locks_only id d d' → same_shape d ts → same_shape d' ts.
Proof. intros Hl. unfold same_shape, shape. by rewrite (lo_tables _ _ _ Hl). Qed.

(** The lock of another owner stays. *)
Lemma locks_only_holds id N d d' i p l :
  locks_only id d d' → meta_ok N d → i ≠ id → lock_at d p = Some l →
  ∃ l', lock_at d' p = Some l' ∧ (holds i l → holds i l') ∧ (holds_w i l → holds_w i l').
Proof.
  intros Hl Hm Hi Hp. unfold lock_at in *. destruct (db_rows d !! p) as [o|] eqn:Ho; [|done]. cbn in Hp. simplify_eq.
  destruct (lo_row _ _ _ Hl p o Ho) as (o1 & -> & _ & _ & _ & Hlk). destruct (Hm p o Ho) as (M1 & _). destruct (Hlk M1) as [_ Hh].
  cbn. eexists. split; [done|]. by apply Hh.
Qed.

Lemma put_lock id d p o l :
  db_rows d !! p = Some o →
  (lock_ok (vr_lock o) → lock_ok l ∧ ∀ i, i ≠ id → (holds i (vr_lock o) → holds i l) ∧ (holds_w i (vr_lock o) → holds_w i l)) →
  locks_only id d (put_row p (mkVRow (vr_row o) (vr_tbl o) l (vr_ver o)) d).
Proof.
  intros Ho Hl. split; [done| |].
  - intros q o' Ho'. cbn. destruct (decide (p = q)) as [->|Hne]; [rewrite lookup_insert_eq; simplify_eq; by eexists|].
    rewrite lookup_insert_ne by done. exists o'. split_and!; auto.
  - intros q Hq. cbn. rewrite lookup_insert_ne; congruence.
Qed.

Lemma with_lock_at f d p o :
  db_rows d !! p = Some o → with_lock f p d = Done (put_row p (mkVRow (vr_row o) (vr_tbl o) (f (vr_lock o)).1 (vr_ver o)) d, (f (vr_lock o)).2).
Proof. intros Ho. unfold with_lock, row_at. rewrite Ho. cbn. by destruct (f (vr_lock o)). Qed.

Lemma unlock_rows_ok id l d :
  (∀ p, p ∈ l → is_Some (db_rows d !! p)) → ∃ d', unlock_all id l d = Done d' ∧ locks_only id d d'.
Proof.
  unfold unlock_all. revert d. induction l as [|p l IH]; intros d Hl; [by exists d|]. destruct (Hl p) as [o Ho]; [by left|].
  pose proof (with_lock_at (unlock_by id) d p o Ho : unlock_row_by id p d = _) as Hun. cbn [for_each]. rewrite Hun. cbn [mbind result_bind].
  set (d1 := put_row p _ d). assert (locks_only id d d1) as Hlo.
  { apply put_lock; [done|]. intros Hok. destruct (unlock_by_others id (vr_lock o) Hok) as (U1 & _ & U2).
    split; [done|]. intros i Hi. destruct (U2 i Hi) as [-> ->]. done. }
  destruct (IH d1) as (d' & Hd' & Hlo').
  - intros q Hq. destruct (Hl q) as [o' Ho']; [by right|]. destruct (lo_row _ _ _ Hlo q o' Ho') as (o1 & -> & _). eauto.
  - exists d'. split; [done|]. by etrans.
Qed.

(** ** The two loops of [commit_prepare] *)

Section locking.
Context (id : Z) (f : RWLock → RWLock * bool) (P : RWLock → Prop).
Context (Hf : ∀ l l', lock_ok l → f l = (l', true) → lock_ok l' ∧ P l' ∧
  (∀ i, i ≠ id → (holds i l → holds i l') ∧ (holds_w i l → holds_w i l')) ∧ (P l → P l') ∧ (holds id l → holds id l')).
Context (Hf' : ∀ l l', f l = (l', false) → l' = l).

Definition lock_kept (Q : RWLock → Prop) (d d' : memdb) : Prop :=
  ∀ p l, lock_at d p = Some l → Q l → ∃ l', lock_at d' p = Some l' ∧ Q l'.

Lemma lock_rows_ok l d x N :
  meta_ok N d → txnid_ x = id → (∀ p, p ∈ l ++ locks_ x → is_Some (db_rows d !! p)) →
  ∃ d' ls b, lock_rows (with_lock f) l d x = Done (d', set_locks ls x, b) ∧ locks_only id d d' ∧
    (∀ p, p ∈ ls → p ∈ l ++ locks_ x) ∧
    (b = true → (∀ p, p ∈ l → ∃ lk, lock_at d' p = Some lk ∧ P lk) ∧ lock_kept P d d' ∧ lock_kept (holds id) d d').
Proof using Hf Hf'.
  revert d x. induction l as [|p l IH]; intros d x Hm Hid Hl; cbn [lock_rows].
  - exists d, (locks_ x), true. split; [by destruct x|]. split_and!; [done|done|]. intros _. split_and!; [by intros p ?%not_elem_of_nil|..]; intros p lk Hp HQ; eauto.
  - destruct (Hl p) as [o Ho]; [by left|]. rewrite (with_lock_at _ d p o Ho).
    destruct (f (vr_lock o)) as [lk [|]] eqn:Hfo; cbn [mbind result_bind fst snd].
    + destruct (Hm p o Ho) as (Hok & _). destruct (Hf _ _ Hok Hfo) as (F1 & F2 & F3 & F4 & F5).
      set (d1 := put_row p (mkVRow (vr_row o) (vr_tbl o) lk (vr_ver o)) d).
      assert (locks_only id d d1) as Hlo by (apply put_lock; auto).
      destruct (IH d1 (set_locks (p :: locks_ x) x)) as (d' & ls & b & -> & Hlo' & Hls & Hb); [by eapply locks_only_meta|done| |].
      { intros q Hq. destruct (Hl q) as [o' Ho'].
        - cbn in Hq. clear -Hq. set_solver.
        - destruct (lo_row _ _ _ Hlo q o' Ho') as (o1 & -> & _). eauto. }
      exists d', ls, b. split; [done|]. split; [by etrans|]. split.
      { intros q Hq. apply Hls in Hq. cbn in *. clear -Hq. set_solver. }
      intros Hbt. destruct (Hb Hbt) as (B1 & B2 & B3).
      assert (lock_at d1 p = Some lk) as Hlk by (unfold lock_at; cbn; by rewrite lookup_insert_eq).
      assert (∀ Q : RWLock → Prop, (Q (vr_lock o) → Q lk) → lock_kept Q d d1) as Hkeep.
      { intros Q HQ q lq Hq HQq. destruct (decide (q = p)) as [->|Hne].
        - unfold lock_at in Hq. rewrite Ho in Hq. cbn in Hq. simplify_eq. eauto.
        - exists lq. unfold lock_at. cbn. rewrite lookup_insert_ne by done. done. }
      split_and!.
      * intros q. rewrite elem_of_cons. intros [->|Hq]; [by apply (B2 p lk)|by apply B1].
      * intros q lq Hq HQ. destruct (Hkeep P F4 q lq Hq HQ) as (l1 & H1 & H2). by apply (B2 q l1).
      * intros q lq Hq HQ. destruct (Hkeep _ F5 q lq Hq HQ) as (l1 & H1 & H2). by apply (B3 q l1).
    + apply Hf' in Hfo as ->. set (d1 := put_row p _ d). assert (locks_only id d d1) as Hlo by (apply put_lock; auto).
      destruct (unlock_rows_ok id (locks_ x) d1) as (d' & Hd' & Hlo').
      { intros q Hq. destruct (Hl q) as [o' Ho']; [apply elem_of_app; by right|]. destruct (lo_row _ _ _ Hlo q o' Ho') as (o1 & -> & _). eauto. }
      rewrite Hid, Hd'. cbn. exists d', [], false. split; [done|]. split_and!; [by etrans|by intros q ?%not_elem_of_nil|done].
Qed.
End locking.

Lemma rlock_grants id l l' : lock_ok l → rlock_by id l = (l', true) → lock_ok l' ∧ holds id l' ∧
  (∀ i, i ≠ id → (holds i l → holds i l') ∧ (holds_w i l → holds_w i l')) ∧ (holds id l → holds id l') ∧ (holds id l → holds id l').
Proof.
  intros Hok Hl. destruct (rlock_by_true id l l' Hok Hl) as (H1 & H2 & H3 & H4). split_and!; auto. intros i Hi. split; [by apply H3|by apply H4].
Qed.

Lemma wlock_grants id l l' : lock_ok l → wlock_by id l = (l', true) → lock_ok l' ∧ holds_w id l' ∧
  (∀ i, i ≠ id → (holds i l → holds i l') ∧ (holds_w i l → holds_w i l')) ∧ (holds_w id l → holds_w id l') ∧ (holds id l → holds id l').
Proof.
  intros Hok Hl. destruct (wlock_by_true id l l' Hok Hl) as (H1 & H2 & H3). split_and!; auto; [|by left].
  intros i Hi. split; intros Hh; exfalso; apply (H3 i Hi); [done|by left].
Qed.

(** ** Preparing *)

Lemma stage_ver ts d d' A x L K R : (∀ p c, ver_at d' p c = ver_at d p c) → stage_ok ts d A x L K R → stage_ok ts d' A x L K R.
Proof.
  intros Hv Hx. pose proof Hx as [H1 H2 H3 H4 H5 H6 H7 H8 H9 H10 H11 H12 H13 H14 H15 H16 H17 H18].
  assert (alive d' x ↔ alive d x) as Hal by (unfold alive; by setoid_rewrite Hv).
  assert (∀ p c n b, seen d A K R p c n b → seen d' A K R p c n b) as Hs by (intros p c n b; unfold seen; by rewrite Hv).
  split; try done; auto.
  - intros p c v Ha. by apply H11, Hal.
  - intros t p Ha. by apply H16, Hal.
  - intros S Ha. by apply H18, Hal.
Qed.

Lemma stage_set_locks ts d A x L K R ls :
  stage_ok ts d A x L K R → (∀ p, p ∈ ls → is_Some (A !! p)) → stage_ok ts d A (set_locks ls x) L K R.
Proof. intros [] Hls. by split. Qed.

Lemma stage_set_verified ts d A x L K R : stage_ok ts d A x L K R → stage_ok ts d A (set_verified x) L K R.
Proof. intros []. by split. Qed.

Lemma versions_match_ok d l :
  Forall (λ e, is_Some (ver_at d e.1.1 e.1.2)) l →
  ∃ b, versions_match d l = Done b ∧ (b = true → Forall (λ e, ver_at d e.1.1 e.1.2 = Some e.2) l).
Proof.
  intros Hl. induction Hl as [|[[p c] n] l [m Hm] _ (b & Hb & IH)]; [exists true; by split|]. cbn in *.
  rewrite (proj2 (get_column_ver_at d p c m) Hm). cbn. destruct (decide (m = n)) as [->|]; [|by exists false].
  exists b. split; [done|]. intros Hbt. constructor; auto.
Qed.

(** A prepared transaction is up to date and has its rows locked. *)
Definition prepared_ok (d : memdb) (x : TxnOCC) : Prop :=
  verified_ x = true →
  alive d x ∧ (∀ p c, is_Some (ver_check_read_ x !! (p, c)) → ∃ l, lock_at d p = Some l ∧ holds (txnid_ x) l) ∧
  (∀ p c, is_Some (ver_check_write_ x !! (p, c)) → ∃ l, lock_at d p = Some l ∧ holds_w (txnid_ x) l).

Lemma rows_of_elem m p : p ∈ rows_of m ↔ ∃ c, is_Some (m !! (p, c)).
Proof.
  unfold rows_of. rewrite list_elem_of_fmap. split.
  - intros ([[q c] n] & -> & Hin). apply elem_of_map_to_list in Hin. cbn. eauto.
  - intros (c & n & Hn). exists ((p, c), n). split; [done|]. by apply elem_of_map_to_list.
Qed.

Section prepare.
Context (ts : layout) (N : Z) (d : memdb) (A : astore) (x : TxnOCC) (L : history) (K : gmap nat (nat * Schema)) (R : gmap (nat * Z) Value).
Context (Hd : db_rep d A) (Hm : meta_ok N d) (Hx : stage_ok ts d A x L K R).

Lemma tracked_version p c n : ver_check_read_ x !! (p, c) = Some n ∨ ver_check_write_ x !! (p, c) = Some n → is_Some (ver_at d p c).
Proof using Hx.
  intros [Hn|Hn]; [apply (sg_read _ _ _ _ _ _ _ Hx) in Hn|apply (sg_write _ _ _ _ _ _ _ Hx) in Hn]; destruct Hn as (m & -> & _); eauto.
Qed.

Lemma version_check_ok : ∃ b, version_check d x = Done b ∧ (b = true → alive d x).
Proof using Hx.
  unfold version_check.
  destruct (versions_match_ok d (map_to_list (ver_check_read_ x))) as (b1 & -> & H1).
  { apply Forall_forall. intros [[p c] n] Hin%elem_of_map_to_list. eapply (tracked_version p c n). by left. }
  cbn [mbind result_bind]. destruct b1; [|by exists false].
  destruct (versions_match_ok d (map_to_list (ver_check_write_ x))) as (b2 & -> & H2).
  { apply Forall_forall. intros [[p c] n] Hin%elem_of_map_to_list. eapply (tracked_version p c n). by right. }
  exists b2. split; [done|]. intros Hb. specialize (H1 eq_refl). specialize (H2 Hb). rewrite Forall_forall in H1, H2.
  intros p c n [Hn|Hn]; [apply (H1 ((p, c), n))|apply (H2 ((p, c), n))]; by apply elem_of_map_to_list.
Qed.

Lemma tracked_row p : (∃ c, is_Some (ver_check_read_ x !! (p, c))) ∨ (∃ c, is_Some (ver_check_write_ x !! (p, c))) → is_Some (db_rows d !! p).
Proof using Hx.
  intros Hp. assert (is_Some (K !! p)) as HK.
  { destruct Hp as [[c Hc]|[c Hc]]; apply (sg_track _ _ _ _ _ _ _ Hx p c); [by left|by right]. }
  by eapply known_row.
Qed.

Lemma locks_row p : p ∈ locks_ x → is_Some (db_rows d !! p).
Proof using Hd Hx. intros [a Ha]%(sg_locks _ _ _ _ _ _ _ Hx). destruct (dr_addr _ _ Hd p a Ha) as (o & ? & _). eauto. Qed.

Lemma prepare_ok :
  verified_ x = false →
  ∃ d' x' b, commit_prepare d x = Done (d', x', b) ∧ locks_only (txnid_ x) d d' ∧ stage_ok ts d' A x' L K R ∧
    txnid_ x' = txnid_ x ∧ prepared_ok d' x'.
Proof using Hd Hm Hx.
  intros Hv. unfold commit_prepare. rewrite (sg_outcome _ _ _ _ _ _ _ Hx), bool_decide_eq_true_2, Hv by done. cbn [verify mbind result_bind negb].
  destruct version_check_ok as (b & -> & Hal). cbn [mbind result_bind]. destruct b; cbn [negb].
  2:{ exists d, x, false. split_and!; try done. unfold prepared_ok. congruence. }
  assert (∀ p, is_Some (db_rows d !! p) → is_Some (A !! p)) as HA by (intros p [o Ho]; destruct (dr_row _ _ Hd p o Ho) as (a & ? & _); eauto).
  unfold rlock_row_by. destruct (lock_rows_ok (txnid_ x) (rlock_by (txnid_ x)) (holds (txnid_ x)) (rlock_grants _) (rlock_by_false _)
    (rows_of (ver_check_read_ x)) d x N) as (d1 & l1 & b1 & -> & Hlo1 & Hls1 & Hb1); [done..| |].
  { intros p. rewrite elem_of_app, rows_of_elem. intros [Hp|Hp]; [apply tracked_row; by left|by apply locks_row]. }
  cbn [mbind result_bind]. assert (∀ p, p ∈ l1 → is_Some (db_rows d !! p)) as Hin1.
  { intros p Hp. apply Hls1 in Hp. rewrite elem_of_app, rows_of_elem in Hp. destruct Hp; [apply tracked_row; by left|by apply locks_row]. }
  assert (stage_ok ts d1 A (set_locks l1 x) L K R) as Hx1.
  { apply stage_set_locks; [|auto]. eapply stage_ver; [|done]. intros p c. by eapply locks_only_ver. }
  destruct b1; cbn [negb].
  2:{ exists d1, (set_locks l1 x), false. split_and!; try done. unfold prepared_ok. cbn. congruence. }
  destruct (Hb1 eq_refl) as (B1 & _ & _).
  unfold wlock_row_by. destruct (lock_rows_ok (txnid_ x) (wlock_by (txnid_ x)) (holds_w (txnid_ x)) (wlock_grants _) (wlock_by_false _)
    (rows_of (ver_check_write_ x)) d1 (set_locks l1 x) N) as (d2 & l2 & b2 & Hd2 & Hlo2 & Hls2 & Hb2); [by eapply locks_only_meta|done| |].
  { intros p. cbn. rewrite elem_of_app, rows_of_elem. intros Hp. assert (is_Some (db_rows d !! p)) as [o Ho].
    { destruct Hp; [apply tracked_row; by right|by apply Hin1]. }
    destruct (lo_row _ _ _ Hlo1 p o Ho) as (o1 & -> & _). eauto. }
  cbn [txnid_ set_locks ver_check_write_] in Hd2 |- *. rewrite Hd2. cbn [mbind result_bind].
  assert (stage_ok ts d2 A (set_locks l2 x) L K R) as Hx2.
  { apply stage_set_locks; [|].
    - eapply stage_ver; [|done]. intros p c. by rewrite (locks_only_ver _ _ _ p c Hlo2), (locks_only_ver _ _ _ p c Hlo1).
    - intros p Hp. apply Hls2 in Hp. cbn in Hp. rewrite elem_of_app, rows_of_elem in Hp. apply HA. destruct Hp; [apply tracked_row; by right|by apply Hin1]. }
  assert (locks_only (txnid_ x) d d2) as Hlo by (by etrans).
  destruct b2; cbn [negb].
  - exists d2, (set_verified (set_locks l2 x)), true. destruct (Hb2 eq_refl) as (B2 & _ & B3). split_and!; try done; [by apply stage_set_verified|].
    intros _. cbn. split_and!.
    + intros p c n Hn. rewrite (locks_only_ver _ _ _ p c Hlo). by apply Hal.
    + intros p c Hc. destruct (B1 p) as (lk & Hlk & Hh); [apply rows_of_elem; eauto|]. by apply (B3 p lk).
    + intros p c Hc. apply B2. apply rows_of_elem. eauto.
  - exists d2, (set_locks l2 x), false. split_and!; try done. unfold prepared_ok. cbn. congruence.
Qed.

(** Aborting gives the locks back. *)
Lemma abort_ok : ∃ d' x', occ_abort d x = Done (d', x') ∧ locks_only (txnid_ x) d d'.
Proof using Hd Hx.
  unfold occ_abort, release_resource. rewrite (sg_outcome _ _ _ _ _ _ _ Hx), bool_decide_eq_true_2 by done. cbn [verify mbind result_bind].
  destruct (unlock_rows_ok (txnid_ x) (locks_ x) d) as (d' & Hd' & Hlo); [apply locks_row|].
  cbn [txnid_ locks_ set_outcome]. rewrite Hd'. cbn. eauto.
Qed.
End prepare.

(** ** Raising versions *)

(** The columns in [B] get the next version, everything else about locks and versions
    stays. *)
Record raised (B : nat → Z → Prop) (d d' : memdb) : Prop := {
  rs_row p o : db_rows d !! p = Some o → ∃ o', db_rows d' !! p = Some o' ∧ vr_lock o' = vr_lock o ∧ length (vr_ver o') = length (vr_ver o) ∧
    (∀ i m, vr_ver o !! i = Some m → (B p (Z.of_nat i) → vr_ver o' !! i = Some (m + 1)) ∧ (¬ B p (Z.of_nat i) → vr_ver o' !! i = Some m));
  rs_none p : db_rows d !! p = None → db_rows d' !! p = None;
  rs_shape : shape d' = shape d;
}.

Lemma raised_frame d d' : same_frame d d' → raised (λ _ _, False) d d'.
Proof.
  intros Hf. split; [|intros p Hp; by eapply same_frame_none|apply Hf].
  intros p o Ho. destruct (same_frame_row d d' p o Hf Ho) as (o' & Ho' & Hl & Hv). exists o'. rewrite Hl, Hv. split_and!; [done..|]. intros i m Hm. split; [done|auto].
Qed.

Lemma raised_trans B1 B2 B d d1 d2 :
  raised B1 d d1 → raised B2 d1 d2 → (∀ p c, Decision (B1 p c)) → (∀ p c, Decision (B2 p c)) → (∀ p c, B1 p c → B2 p c → False) →
  (∀ p c, B p c ↔ B1 p c ∨ B2 p c) → raised B d d2.
Proof.
  intros H1 H2 D1 D2 Hex HB. split.
  - intros p o Ho. destruct (rs_row _ _ _ H1 p o Ho) as (o1 & Ho1 & L1 & N1 & V1). destruct (rs_row _ _ _ H2 p o1 Ho1) as (o2 & Ho2 & L2 & N2 & V2).
    exists o2. split_and!; try congruence. intros i m Hm. destruct (V1 i m Hm) as [V11 V12]. rewrite HB.
    destruct (D1 p (Z.of_nat i)) as [b1|b1]; [specialize (V11 b1)|specialize (V12 b1)].
    + destruct (V2 i (m + 1) V11) as [_ V22]. split; [|tauto]. intros _. apply V22. intros b2. by apply (Hex p (Z.of_nat i)).
    + destruct (V2 i m V12) as [V21 V22]. split; [|intros; apply V22; tauto]. intros [?|?]; [done|by apply V21].
  - intros p Hp. by apply (rs_none _ _ _ H2), (rs_none _ _ _ H1).
  - by rewrite (rs_shape _ _ _ H2), (rs_shape _ _ _ H1).
Qed.

Lemma raised_ver B d d' p c m : raised B d d' → ver_at d p c = Some m → (B p c → ver_at d' p c = Some (m + 1)) ∧ (¬ B p c → ver_at d' p c = Some m).
Proof.
  intros Hr. unfold ver_at. destruct (db_rows d !! p) as [o|] eqn:Ho; [|done]. destruct (rs_row _ _ _ Hr p o Ho) as (o' & -> & _ & _ & Hv).
  destruct (decide (0 ≤ c)); [|done]. intros Hm. specialize (Hv _ _ Hm). by rewrite Z2Nat.id in Hv by done.
Qed.

Lemma raised_lock B d d' p : raised B d d' → lock_at d' p = lock_at d p.
Proof.
  intros Hr. unfold lock_at. destruct (db_rows d !! p) as [o|] eqn:Ho; [|by rewrite (rs_none _ _ _ Hr)].
  destruct (rs_row _ _ _ Hr p o Ho) as (o' & -> & Hl & _). cbn. by rewrite Hl.
Qed.

Lemma incr_column_ver_rep d A p c m :
  db_rep d A → ver_at d p c = Some m → 0 ≤ m → m + 1 < 2 ^ 64 →
  ∃ d', incr_column_ver p c d = Done d' ∧ db_rep d' A ∧ raised (λ q c', q = p ∧ c' = c) d d'.
Proof.
  intros Hd Hm H0 H1. pose proof (proj2 (get_column_ver_at d p c m) Hm) as Hg. unfold ver_at in Hm. destruct (db_rows d !! p) as [o|] eqn:Ho; [|done].
  destruct (decide (0 ≤ c)) as [Hc|]; [|done]. unfold incr_column_ver, row_at. rewrite Ho. cbn [mbind result_bind]. rewrite Hg. cbn [mbind result_bind].
  rewrite u64_small by lia. eexists. split; [done|]. split; [by apply db_rep_meta|]. split; [| |done].
  - intros q o' Ho'. cbn. destruct (decide (p = q)) as [->|Hne].
    + rewrite lookup_insert_eq. simplify_eq. eexists. split; [done|]. cbn. split_and!; [done|apply length_insert|]. intros i v Hv.
      destruct (decide (Z.to_nat c = i)) as [<-|Hi].
      * rewrite list_lookup_insert_eq by (by eapply lookup_lt_Some). split; [by simplify_eq|]. intros Hn. exfalso. apply Hn. lia.
      * rewrite list_lookup_insert_ne by done. split; [intros [_ Heq]; lia|done].
    + rewrite lookup_insert_ne by done. exists o'. split_and!; [done..|]. intros i v Hv. split; [intros [? _]; congruence|done].
  - intros q Hq. cbn. rewrite lookup_insert_ne; congruence.
Qed.

(** ** The loops of [commit_confirm] *)

Definition link_staged (l : list (nat * nat)) (A : astore) : astore :=
  map_imap (λ p a, Some (match staged_table l p with Some t => linked (Some t) a | None => a end)) A.

Lemma link_staged_lookup l A p :
  link_staged l A !! p = (λ a, match staged_table l p with Some t => linked (Some t) a | None => a end) <$> A !! p.
Proof. unfold link_staged. rewrite map_lookup_imap. by destruct (A !! p). Qed.

Lemma apply_inserts_rep ts l d A :
  db_rep d A → same_shape d ts → NoDup l.*2 →
  (∀ t p, (t, p) ∈ l → ∃ a k, A !! p = Some a ∧ ar_tbl a = None ∧ ts !! t = Some (k, ar_schema a)) →
  ∃ d', apply_inserts l d = Done d' ∧ db_rep d' (link_staged l A) ∧ same_frame d d'.
Proof.
  unfold apply_inserts. revert d A. induction l as [|[t p] l IH]; intros d A Hd Hsh Hnd Hl; cbn [for_each].
  - exists d. split_and!; [done| |done]. replace (link_staged [] A) with A; [done|]. apply map_eq. intros p. rewrite link_staged_lookup. cbn.
    by destruct (A !! p).
  - cbn in Hnd. apply NoDup_cons in Hnd as [Hni Hnd]. destruct (Hl t p) as (a & k & Ha & Hn & Ht); [by left|].
    destruct (shape_lookup d ts t k (ar_schema a) Hsh Ht) as (tb & Htb & _ & Hs).
    destruct (table_insert_rep d A t tb p a) as (d1 & Hd1 & Hr1 & Hf1); [done..|]. cbn [fst snd]. rewrite Hd1. cbn [mbind result_bind].
    destruct (IH d1 (<[p := linked (Some t) a]> A)) as (d' & -> & Hr' & Hf'); [done| |done| |].
    + unfold same_shape. by rewrite (proj2 Hf1).
    + intros t' q Hin. rewrite lookup_insert_ne; [apply Hl; by right|]. intros <-. apply Hni. by apply (list_elem_of_fmap_2 snd l (t', p)).
    + exists d'. split; [done|]. split; [|by etrans]. replace (link_staged ((t, p) :: l) A) with (link_staged l (<[p := linked (Some t) a]> A)); [done|].
      apply map_eq. intros q. rewrite !link_staged_lookup. cbn. destruct (decide (p = q)) as [->|Hne].
      * rewrite lookup_insert_eq, Ha. cbn. by rewrite (proj2 (staged_table_None l q) Hni).
      * by rewrite lookup_insert_ne.
Qed.

Definition store_updates (l : list (nat * (Z * Value))) (A : astore) : astore := map_imap (λ p a, Some (staged_row l p a)) A.

Lemma store_updates_lookup l A p : store_updates l A !! p = staged_row l p <$> A !! p.
Proof. unfold store_updates. rewrite map_lookup_imap. by destruct (A !! p). Qed.

(** What an update of the staged list needs. *)
Definition update_fits (d : memdb) (A : astore) (p : nat) (c : Z) (v : Value) : Prop :=
  0 ≤ c ∧ value_ok v ∧ (∃ m, ver_at d p c = Some m ∧ 0 ≤ m ∧ m + 1 < 2 ^ 64) ∧
  ∃ a t old, A !! p = Some a ∧ ar_tbl a = Some t ∧ ar_vals a !! Z.to_nat c = Some old ∧ get_kind v = get_kind old.

Lemma apply_updates_rep l d A :
  db_rep d A → NoDup (update_keys l) → (∀ p c v, (p, (c, v)) ∈ l → update_fits d A p c v) →
  ∃ d', for_each (apply_update OCC_LAZY) l d = Done d' ∧ db_rep d' (store_updates l A) ∧ raised (λ p c, (p, c) ∈ update_keys l) d d'.
Proof.
  revert d A. induction l as [|[p [c v]] l IH]; intros d A Hd Hnd Hl; cbn [for_each].
  - exists d. split_and!; [done| |].
    + replace (store_updates [] A) with A; [done|]. apply map_eq. intros q. rewrite store_updates_lookup. destruct (A !! q); cbn; [by rewrite staged_row_nil|done].
    + destruct (raised_frame d d) as [F1 F2 F3]; [done|]. split; [|done..]. intros q o Ho. destruct (F1 q o Ho) as (o' & ? & ? & ? & Hv). exists o'.
      split_and!; [done..|]. intros i m Hm. destruct (Hv i m Hm). split; [by intros ?%not_elem_of_nil|auto].
  - cbn in Hnd. apply NoDup_cons in Hnd as [Hni Hnd].
    destruct (Hl p c v) as (Hc & Hv & (m & Hm & Hm0 & Hm1) & a & t & old & Ha & Ht & Hold & Hk); [by left|].
    destruct (db_row_at d A Hd p a Ha) as (o & Hat & Ho & Hr). unfold apply_update at 2. cbn [fst snd]. rewrite Hat. cbn [mbind result_bind].
    rewrite (or_tbl _ _ Hr), Ht. destruct (dr_linked _ _ Hd p a t Ha Ht) as [tb Htb]. unfold table_at. rewrite Htb. cbn [mbind result_bind].
    destruct (row_update_rep d A p a c v old) as (d1 & -> & Hr1 & Hf1); [done..|]. cbn [mbind result_bind]. rewrite decide_True by done.
    destruct (incr_column_ver_rep d1 _ p c m Hr1) as (d2 & -> & Hr2 & Hrs2); [by rewrite (same_frame_ver d d1)|done..|]. cbn [mbind result_bind].
    assert (raised (λ q c', q = p ∧ c' = c) d d2) as Hrs.
    { eapply raised_trans; [by apply raised_frame|done|intros; cbn; apply _|intros; cbn; apply _|done|naive_solver]. }
    destruct (IH d2 (<[p := with_value c v a]> A)) as (d' & -> & Hr' & Hrs'); [done..| |].
    + intros q c' w Hin. destruct (Hl q c' w) as (Hc' & Hv' & (m' & Hm' & Hm0' & Hm1') & a' & t' & old' & Ha' & Ht' & Hold' & Hk'); [by right|].
      assert ((q, c') ≠ (p, c)) as Hne.
      { intros Heq. simplify_eq. apply Hni. by apply (list_elem_of_fmap_2 (λ u, (u.1, u.2.1)) l (p, (c, w))). }
      split_and!; [done..| |].
      * exists m'. split; [|done]. apply (raised_ver _ d d2 q c' m' Hrs Hm'). intros [-> ->]. done.
      * destruct (decide (p = q)) as [->|Hpq]; [|rewrite lookup_insert_ne by done; eauto 10].
        rewrite lookup_insert_eq. simplify_eq. exists (with_value c v a), t, old'. split_and!; [done..| |done]. cbn.
        rewrite list_lookup_insert_ne; [done|]. intros Heq. apply Hne. f_equal. lia.
    + exists d'. split; [done|]. split.
      * replace (store_updates ((p, (c, v)) :: l) A) with (store_updates l (<[p := with_value c v a]> A)); [done|]. apply map_eq. intros q.
        rewrite !store_updates_lookup. destruct (decide (p = q)) as [->|Hne].
        -- rewrite lookup_insert_eq, Ha. cbn. f_equal. apply staged_row_cons; [done|by apply find_update_None].
        -- rewrite lookup_insert_ne by done. destruct (A !! q); [|done]. cbn. f_equal. symmetry. apply staged_row_ext. intros c'. cbn.
           by rewrite decide_False by naive_solver.
      * eapply raised_trans; [done|done|intros; cbn; apply _|intros; cbn; apply _| |].
        -- intros q c' [-> ->] Hin. done.
        -- intros q c'. cbn. rewrite elem_of_cons. naive_solver.
Qed.

Definition unlink_rows (l : list (nat * nat)) (A : astore) : astore :=
  map_imap (λ p a, Some (if decide (p ∈ l.*2) then linked None a else a)) A.

Lemma unlink_rows_lookup l A p : unlink_rows l A !! p = (λ a, if decide (p ∈ l.*2) then linked None a else a) <$> A !! p.
Proof. unfold unlink_rows. rewrite map_lookup_imap. by destruct (A !! p). Qed.

Lemma incr_columns_rep d A p cols :
  db_rep d A → NoDup cols → (∀ c, c ∈ cols → ∃ m, ver_at d p c = Some m ∧ 0 ≤ m ∧ m + 1 < 2 ^ 64) →
  ∃ d', for_each (λ d c, incr_column_ver p c d) cols d = Done d' ∧ db_rep d' A ∧ raised (λ q c, q = p ∧ c ∈ cols) d d'.
Proof.
  revert d. induction cols as [|c cols IH]; intros d Hd Hnd Hc; cbn [for_each].
  - exists d. split_and!; [done..|]. destruct (raised_frame d d) as [F1 F2 F3]; [done|]. split; [|done..]. intros q o Ho.
    destruct (F1 q o Ho) as (o' & ? & ? & ? & Hv). exists o'. split_and!; [done..|]. intros i m Hm. destruct (Hv i m Hm). split; [by intros [_ ?%not_elem_of_nil]|auto].
  - apply NoDup_cons in Hnd as [Hni Hnd]. destruct (Hc c) as (m & Hm & Hm0 & Hm1); [by left|].
    destruct (incr_column_ver_rep d A p c m Hd Hm Hm0 Hm1) as (d1 & -> & Hd1 & Hr1). cbn [mbind result_bind].
    destruct (IH d1) as (d' & -> & Hd' & Hr'); [done..| |].
    + intros c' Hc'. destruct (Hc c') as (m' & Hm' & ?); [by right|]. exists m'. split; [|done]. apply (raised_ver _ d d1 p c' m' Hr1 Hm').
      intros [_ ->]. done.
    + exists d'. split_and!; [done..|]. eapply raised_trans; [done|done|intros; cbn; apply _|intros; cbn; apply _| |].
      * intros q c' [_ ->] [_ ?]. done.
      * intros q c'. cbn. rewrite elem_of_cons. naive_solver.
Qed.

Lemma column_ids_elem s c : c ∈ column_ids s ↔ 0 ≤ c < Z.of_nat (columns_count s).
Proof.
  unfold column_ids. rewrite list_elem_of_fmap. setoid_rewrite elem_of_seq. split; [intros (i & -> & ?); lia|]. intros Hc. exists (Z.to_nat c). lia.
Qed.

Lemma column_ids_nodup s : NoDup (column_ids s).
Proof. unfold column_ids. apply NoDup_fmap; [apply _|apply NoDup_seq]. Qed.

Lemma apply_removes_rep l d A :
  db_rep d A → (∀ p o, db_rows d !! p = Some o → length (vr_ver o) = columns_count (schema_ (vr_row o))) → NoDup l.*2 →
  (∀ t p, (t, p) ∈ l → (∃ a, A !! p = Some a ∧ ar_tbl a = Some t) ∧ ∀ c m, ver_at d p c = Some m → 0 ≤ m ∧ m + 1 < 2 ^ 64) →
  ∃ d', for_each (apply_remove OCC_LAZY) l d = Done d' ∧ db_rep d' (unlink_rows l A) ∧ raised (λ p _, p ∈ l.*2) d d'.
Proof.
  revert d A. induction l as [|[t p] l IH]; intros d A Hd Hlen Hnd Hl; cbn [for_each].
  - exists d. split_and!; [done| |].
    + replace (unlink_rows [] A) with A; [done|]. apply map_eq. intros q. rewrite unlink_rows_lookup. by destruct (A !! q).
    + destruct (raised_frame d d) as [F1 F2 F3]; [done|]. split; [|done..]. intros q o Ho. destruct (F1 q o Ho) as (o' & ? & ? & ? & Hv). exists o'.
      split_and!; [done..|]. intros i m Hm. destruct (Hv i m Hm). split; [by intros ?%not_elem_of_nil|auto].
  - cbn in Hnd. apply NoDup_cons in Hnd as [Hni Hnd]. destruct (Hl t p) as ((a & Ha & Ht) & Hver); [by left|].
    destruct (db_row_at d A Hd p a Ha) as (o & Hat & Ho & Hr). unfold apply_remove at 2. cbn [fst snd]. rewrite decide_True by done. rewrite Hat. cbn [mbind result_bind].
    destruct (incr_columns_rep d A p (column_ids (schema_ (vr_row o)))) as (d1 & -> & Hd1 & Hr1); [done|apply column_ids_nodup| |].
    { intros c Hc%column_ids_elem. destruct (lookup_lt_is_Some_2 (vr_ver o) (Z.to_nat c)) as [m Hm]; [rewrite (Hlen p o Ho); lia|].
      assert (ver_at d p c = Some m) as Hv by (unfold ver_at; rewrite Ho, decide_True by lia; done). exists m. split; [done|by apply (Hver c)]. }
    cbn [mbind result_bind]. destruct (table_remove_rep d1 A t p a) as (d2 & -> & Hd2 & Hf2); [done..|]. cbn [mbind result_bind].
    assert (raised (λ q c, q = p ∧ c ∈ column_ids (schema_ (vr_row o))) d d2) as Hrs1.
    { eapply raised_trans; [done|by apply raised_frame|intros; cbn; apply _|intros; cbn; apply _|naive_solver|naive_solver]. }
    assert (raised (λ q _, q = p) d d2) as Hrs.
    { destruct Hrs1 as [F1 F2 F3]. split; [|done..]. intros q o1 Ho1. destruct (F1 q o1 Ho1) as (o' & ? & ? & ? & Hv). exists o'. split_and!; [done..|].
      intros i m Hm. destruct (Hv i m Hm) as [V1 V2]. split; [|intros Hq; apply V2; tauto]. intros ->. apply V1. split; [done|].
      assert (o1 = o) as -> by congruence. apply column_ids_elem. rewrite <-(Hlen p o Ho). apply lookup_lt_Some in Hm. lia. }
    destruct (IH d2 (<[p := linked None a]> A)) as (d' & -> & Hd' & Hr'); [done| |done| |].
    + intros q o2 Ho2. destruct (db_rows d !! q) as [o1|] eqn:Ho1; [|by rewrite (rs_none _ _ _ Hrs) in Ho2].
      destruct (rs_row _ _ _ Hrs q o1 Ho1) as (o2' & ? & _ & Hl2 & _). simplify_eq. rewrite Hl2, (Hlen q o1 Ho1).
      destruct (dr_row _ _ Hd q o1 Ho1) as (b1 & Hb1 & Hrb1), (dr_row _ _ Hd2 q o2 Ho2) as (b2 & Hb2 & Hrb2).
      rewrite (or_schema _ _ Hrb1), (or_schema _ _ Hrb2). f_equal.
      apply lookup_insert_Some in Hb2 as [[<- <-]|[_ Hb2]]; [cbn|]; congruence.
    + intros t' q Hin. destruct (Hl t' q) as ((b & Hb & Hbt) & Hvq); [by right|].
      assert (p ≠ q) as Hpq by (intros <-; apply Hni; by apply (list_elem_of_fmap_2 snd l (t', p))).
      rewrite lookup_insert_ne by done. split; [eauto|]. intros c m Hm.
      assert (ver_at d2 q c = ver_at d q c) as Heq; [|rewrite Heq in Hm; by apply (Hvq c)].
      unfold ver_at. destruct (db_rows d !! q) as [o1|] eqn:Ho1; [|by rewrite (rs_none _ _ _ Hrs)].
      destruct (rs_row _ _ _ Hrs q o1 Ho1) as (o2 & -> & _ & Hln & Hv). destruct (decide (0 ≤ c)); [|done].
      destruct (vr_ver o1 !! Z.to_nat c) as [w|] eqn:Hw; [apply (Hv _ _ Hw); congruence|]. apply lookup_ge_None. rewrite Hln. by apply lookup_ge_None.
    + exists d'. split; [done|]. split.
      * replace (unlink_rows ((t, p) :: l) A) with (unlink_rows l (<[p := linked None a]> A)); [done|]. apply map_eq. intros q.
        rewrite !unlink_rows_lookup. cbn. destruct (decide (p = q)) as [->|Hne].
        -- rewrite lookup_insert_eq, Ha. cbn. rewrite decide_False, decide_True; [done|by left|done].
        -- rewrite lookup_insert_ne by done. destruct (A !! q); [|done]. cbn. f_equal. repeat case_decide; set_solver.
      * eapply raised_trans; [done|done|intros; cbn; apply _|intros; cbn; apply _| |].
        -- intros q _ -> ?. done.
        -- intros q c. cbn. by rewrite elem_of_cons.
Qed.

(** ** Committing *)

Definition changed (x : TxnOCC) (p : nat) (c : Z) : Prop := (p, c) ∈ update_keys (updates_ x) ∨ gone x p.
#[export] Instance changed_dec x p c : Decision (changed x p c).
Proof. unfold changed, gone. apply _. Defined.

Lemma meta_ok_raised N B d d' A A' :
  (∀ p c, Decision (B p c)) → db_rep d A → db_rep d' A' → raised B d d' → 0 ≤ N →
  (∀ p a a', A !! p = Some a → A' !! p = Some a' → ar_schema a' = ar_schema a) → meta_ok N d → meta_ok (N + 1) d'.
Proof.
  intros HB Hd Hd' Hr HN Hs Hm p o' Ho'. destruct (db_rows d !! p) as [o|] eqn:Ho; [|by rewrite (rs_none _ _ _ Hr) in Ho'].
  destruct (rs_row _ _ _ Hr p o Ho) as (o1 & Ho1 & Hl & Hln & Hv). simplify_eq. destruct (Hm p o Ho) as (M1 & M2 & M3). rewrite Hl, Hln, M2. split_and!; [done| |].
  - destruct (dr_row _ _ Hd p o Ho) as (a & Ha & Hra), (dr_row _ _ Hd' p o' Ho') as (a' & Ha' & Hra').
    by rewrite (or_schema _ _ Hra), (or_schema _ _ Hra'), (Hs p a a').
  - apply Forall_lookup_2. intros i m' Hm'. destruct (lookup_lt_is_Some_2 (vr_ver o) i) as [m Hmi]; [rewrite <-Hln; by eapply lookup_lt_Some|].
    destruct (Hv i m Hmi) as [V1 V2]. pose proof (Forall_lookup_1 _ _ _ _ M3 Hmi) as Hb. cbn in Hb.
    destruct (HB p (Z.of_nat i)) as [b|b]; [rewrite V1 in Hm' by done|rewrite V2 in Hm' by done]; simplify_eq; lia.
Qed.

Section commit.
Context (ts : layout) (N : Z) (d : memdb) (A : astore) (x : TxnOCC) (L : history) (K : gmap nat (nat * Schema)) (R : gmap (nat * Z) Value).
Context (Hd : db_rep d A) (Hsh : same_shape d ts) (Hm : meta_ok N d) (HN : 0 ≤ N) (HN' : N + 1 < 2 ^ 64) (Hx : stage_ok ts d A x L K R) (Hal : alive d x).

Definition committed : astore := unlink_rows (removes_ x) (store_updates (updates_ x) (link_staged (inserts_ x) A)).

Lemma own_no_updates p c : p ∈ created L → find_update p c (updates_ x) = None.
Proof using Hx.
  intros Hp. destruct (find_update p c (updates_ x)) as [v|] eqn:Hf; [|done]. apply find_update_elem in Hf.
  destruct (sg_updates _ _ _ _ _ _ _ Hx p c v Hf) as (Hw & _). destruct (sg_track _ _ _ _ _ _ _ Hx p c) as (_ & ? & _); [by right|done].
Qed.

Lemma committed_own p : p ∈ created L → ∃ a, A !! p = Some a ∧ committed !! p = Some (linked (staged_table (inserts_ x) p) a).
Proof using Hx.
  intros Hp. destruct (sg_own _ _ _ _ _ _ _ Hx p Hp) as (a & Ha & Hn). exists a. split; [done|]. unfold committed.
  rewrite unlink_rows_lookup, store_updates_lookup, link_staged_lookup, Ha. cbn. rewrite decide_False.
  2:{ intros Hg. destruct (gone_tracked _ _ _ _ _ _ _ p Hx Hg) as (_ & ? & _). done. }
  f_equal. rewrite (staged_row_ext [] (updates_ x)) by (intros c; cbn; by apply own_no_updates). rewrite staged_row_nil.
  destruct (staged_table (inserts_ x) p); [done|]. destruct a. cbn in *. by subst.
Qed.

Lemma not_own_not_staged p : p ∉ created L → staged_table (inserts_ x) p = None.
Proof using Hx.
  intros Hp. apply staged_table_None. intros Hin. apply list_elem_of_fmap_1 in Hin as ([t q] & -> & Hq).
  by destruct (sg_inserts _ _ _ _ _ _ _ Hx t q Hq).
Qed.

Lemma committed_gone p : gone x p → ∃ b, committed !! p = Some b ∧ ar_tbl b = None.
Proof using Hx Hal.
  intros Hg. destruct (gone_tracked _ _ _ _ _ _ _ p Hx Hg) as (HK & Hno & _). destruct (alive_table _ _ _ _ _ _ _ p Hx Hal HK) as (a & t & Ha & _).
  unfold committed. rewrite unlink_rows_lookup, store_updates_lookup, link_staged_lookup, Ha. cbn. rewrite decide_True by done. by eexists.
Qed.

Lemma committed_other p : p ∉ created L → ¬ gone x p → committed !! p = staged_row (updates_ x) p <$> A !! p.
Proof using Hx.
  intros Hp Hg. unfold committed. rewrite unlink_rows_lookup, store_updates_lookup, link_staged_lookup, not_own_not_staged by done.
  destruct (A !! p); [|done]. cbn. by rewrite decide_False.
Qed.

Lemma committed_schema p a a' : A !! p = Some a → committed !! p = Some a' → ar_schema a' = ar_schema a ∧ is_Some (committed !! p).
Proof.
  unfold committed. rewrite unlink_rows_lookup, store_updates_lookup, link_staged_lookup. intros -> Heq. cbn in *. simplify_eq.
  split; [|eauto]. destruct (staged_table (inserts_ x) p); case_decide; done.
Qed.

Lemma version_bound p c m : ver_at d p c = Some m → 0 ≤ m ∧ m + 1 < 2 ^ 64.
Proof using Hm HN'.
  unfold ver_at. destruct (db_rows d !! p) as [o|] eqn:Ho; [|done]. destruct (decide (0 ≤ c)); [|done]. intros Hc.
  destruct (Hm p o Ho) as (_ & _ & M3). pose proof (Forall_lookup_1 _ _ _ _ M3 Hc) as Hb. cbn in Hb. lia.
Qed.

(** The staged changes reach the tables. *)
Lemma confirm_applies :
  ∃ d3, (d1 ← apply_inserts (inserts_ x) d; d2 ← for_each (apply_update OCC_LAZY) (updates_ x) d1; for_each (apply_remove OCC_LAZY) (removes_ x) d2) = Done d3 ∧
    db_rep d3 committed ∧ raised (changed x) d d3.
Proof using Hd Hsh Hm HN' Hx Hal.
  destruct (apply_inserts_rep ts (inserts_ x) d A) as (d1 & -> & Hd1 & Hf1); [done|done|apply Hx| |].
  { intros t p Hin. destruct (sg_inserts _ _ _ _ _ _ _ Hx t p Hin) as (Hp & a & k & Ha & Ht). destruct (sg_own _ _ _ _ _ _ _ Hx p Hp) as (a' & Ha' & Hn).
    exists a, k. split_and!; [done| |done]. congruence. }
  cbn [mbind result_bind]. destruct (apply_updates_rep (updates_ x) d1 (link_staged (inserts_ x) A)) as (d2 & -> & Hd2 & Hr2); [done|apply Hx| |].
  { intros p c v Hin. destruct (sg_updates _ _ _ _ _ _ _ Hx p c v Hin) as ((n & Hw) & Hv & _).
    destruct (sg_track _ _ _ _ _ _ _ Hx p c) as (HK & Hno & Hc); [right; eauto|]. destruct (alive_table _ _ _ _ _ _ _ p Hx Hal HK) as (a & t & Ha & Ht & HKp).
    destruct (sg_typed _ _ _ _ _ _ _ Hx p c v Hal Hin) as (t' & s & HKp' & Hks). assert (t' = t ∧ s = ar_schema a) as [-> ->] by (split; congruence).
    destruct (db_row_at d A Hd p a Ha) as (o & _ & _ & Hr). pose proof (rr_kinds _ _ (or_row _ _ Hr)) as Hkd. rewrite (or_schema _ _ Hr) in Hkd.
    rewrite <-Hkd, list_lookup_fmap in Hks. destruct (ar_vals a !! Z.to_nat c) as [old|] eqn:Hold; [|done]. cbn in Hks.
    split_and!; [done..| |].
    - exists n. rewrite (same_frame_ver d d1) by done. pose proof (Hal p c n (or_intror Hw)) as Hn. split; [done|by apply (version_bound p c)].
    - exists a, t, old. rewrite link_staged_lookup, Ha, not_own_not_staged by done. cbn. split_and!; congruence. }
  cbn [mbind result_bind]. assert (raised (λ p c, (p, c) ∈ update_keys (updates_ x)) d d2) as Hr.
  { eapply raised_trans; [by apply raised_frame|done|intros; cbn; apply _|intros; cbn; apply _|done|naive_solver]. }
  destruct (apply_removes_rep (removes_ x) d2 (store_updates (updates_ x) (link_staged (inserts_ x) A))) as (d3 & Hd3' & Hd3 & Hr3); [done| |apply Hx| |].
  { intros p o2 Ho2. destruct (db_rows d !! p) as [o|] eqn:Ho; [|by rewrite (rs_none _ _ _ Hr) in Ho2].
    destruct (rs_row _ _ _ Hr p o Ho) as (o2' & ? & _ & Hln & _). simplify_eq. destruct (Hm p o Ho) as (_ & M2 & _). rewrite Hln, M2.
    destruct (dr_row _ _ Hd p o Ho) as (a & Ha & Hra), (dr_row _ _ Hd2 p o2 Ho2) as (a2 & Ha2 & Hra2). rewrite (or_schema _ _ Hra), (or_schema _ _ Hra2). f_equal.
    rewrite store_updates_lookup, link_staged_lookup, Ha in Ha2. cbn in Ha2. simplify_eq. by destruct (staged_table (inserts_ x) p). }
  { intros t p Hin. destruct (sg_removes _ _ _ _ _ _ _ Hx t p Hin) as (_ & Hno & HK). destruct (alive_table _ _ _ _ _ _ _ p Hx Hal HK) as (a & t' & Ha & Ht & HKp).
    destruct (sg_removed _ _ _ _ _ _ _ Hx t p Hal Hin) as (s & HKp' & _). assert (t' = t) as -> by congruence.
    split; [eexists; rewrite store_updates_lookup, link_staged_lookup, Ha, not_own_not_staged by done; split; [done|exact Ht]|].
    assert (gone x p) as Hg by by apply (list_elem_of_fmap_2 snd (removes_ x) (t, p)).
    intros c m Hmv. unfold ver_at in Hmv. destruct (db_rows d2 !! p) as [o2|] eqn:Ho2; [|done]. destruct (decide (0 ≤ c)) as [Hc|]; [|done].
    destruct (db_rows d !! p) as [o|] eqn:Ho; [|by rewrite (rs_none _ _ _ Hr) in Ho2]. destruct (rs_row _ _ _ Hr p o Ho) as (o2' & ? & _ & Hln & Hv). simplify_eq.
    destruct (lookup_lt_is_Some_2 (vr_ver o) (Z.to_nat c)) as [w Hw]; [rewrite <-Hln; by eapply lookup_lt_Some|].
    destruct (Hv _ _ Hw) as [_ V2]. rewrite V2 in Hmv.
    - simplify_eq. apply (version_bound p c). unfold ver_at. by rewrite Ho, decide_True.
    - intros Hin'. apply list_elem_of_fmap_1 in Hin' as ([q [c' v]] & Heq & Hq). cbn in Heq. simplify_eq.
      by destruct (sg_updates _ _ _ _ _ _ _ Hx q _ v Hq) as (_ & _ & ?). }
  exists d3. split; [done|]. split; [done|]. eapply raised_trans; [done|done|intros; cbn; apply _|intros; cbn; apply _| |].
  - intros p c Hin Hg. apply list_elem_of_fmap_1 in Hin as ([q [c' v]] & Heq & Hq). cbn in Heq. simplify_eq.
    by destruct (sg_updates _ _ _ _ _ _ _ Hx q _ v Hq) as (_ & _ & ?).
  - intros p c. cbn. unfold changed, gone. done.
Qed.

Lemma confirm_ok :
  verified_ x = true →
  ∃ d' x' d3, commit_confirm d x = Done (d', x') ∧ db_rep d' committed ∧ same_shape d' ts ∧ meta_ok (N + 1) d3 ∧
    raised (changed x) d d3 ∧ locks_only (txnid_ x) d3 d' ∧
    Occ.unlock_all (txnid_ x) (filter (λ p, p ∉ (removes_ x).*2) (locks_ x)) d3 = Done d'.
Proof using Hd Hsh Hm HN HN' Hx Hal.
  intros Hv. unfold commit_confirm. rewrite (sg_outcome _ _ _ _ _ _ _ Hx), bool_decide_eq_true_2, Hv, (sg_policy _ _ _ _ _ _ _ Hx) by done. cbn [verify mbind result_bind].
  destruct confirm_applies as (d3 & Happ & Hd3 & Hr3). done_inv Happ. rewrite Hr. cbn [mbind result_bind]. rewrite Hr0. cbn [mbind result_bind]. rewrite Happ. cbn [mbind result_bind].
  unfold release_resource. cbn [txnid_ locks_ set_locks set_outcome].
  destruct (unlock_rows_ok (txnid_ x) (filter (λ p, p ∉ (removes_ x).*2) (locks_ x)) d3) as (d' & Hun & Hlo).
  { intros p [_ Hp]%list_elem_of_filter. destruct (sg_locks _ _ _ _ _ _ _ Hx p Hp) as [a Ha]. destruct (dr_addr _ _ Hd p a Ha) as (o & Ho & _).
    destruct (rs_row _ _ _ Hr3 p o Ho) as (o' & -> & _). eauto. }
  rewrite Hun. cbn [mbind result_bind]. eexists d', _, d3. split; [done|]. split_and!; [by eapply locks_only_rep| | |done|done|done].
  - eapply locks_only_shape; [done|]. unfold same_shape. by rewrite (rs_shape _ _ _ Hr3).
  - eapply (meta_ok_raised N (changed x) d d3); [apply _|done|done|done|done| |done].
    intros p a a' Ha Ha'. by apply (committed_schema p a a').
Qed.
End commit.
