(* ===== verification/OccSerial.v ===== *)
(** * Optimistic transactions: serialisability

    A server that runs optimistic transactions in any interleaving behaves as if each
    committed transaction had run alone, directly on the tables, at the moment of its
    commit. *)

From S2P Require Import Prelude SparseInt RWLock MemRow MemRowSpec MemTable MemTableSpec Occ OccSpec OccInv OccOps OccCommit.

(** ** The invariant of the server *)

Definition knowledge := Z → gmap nat (nat * Schema) * gmap (nat * Z) Value.

Record txn_ok (ts : layout) (d : memdb) (A : astore) (tid : Z) (x : TxnOCC) (L : history) (k : gmap nat (nat * Schema) * gmap (nat * Z) Value) : Prop := {
  tx_stage : stage_ok ts d A x L k.1 k.2;
  tx_id : txnid_ x = tid;
  tx_prepared : prepared_ok d x;
}.

(** [S] is the store after the committed transactions, one after the other; [A] the
    contents of the tables and of the rows the running transactions have created. *)
Record inv (ts : layout) (sv : server) (S A : astore) (kn : knowledge) : Prop := {
  iv_rep : db_rep (sv_db sv) A;
  iv_shape : same_shape (sv_db sv) ts;
  iv_meta : meta_ok (Z.of_nat (length (sv_done sv))) (sv_db sv);
  iv_run : atomic_run ts ∅ (mjoin (sv_done sv)) S;
  iv_public p a : ar_tbl a ≠ None → A !! p = Some a ↔ S !! p = Some a;
  iv_dom p : is_Some (S !! p) → is_Some (A !! p);
  iv_txn tid : txn_ok ts (sv_db sv) A tid (get_mdb_txn tid sv) (log_of tid sv) (kn tid);
  iv_own tid p : p ∈ created (log_of tid sv) → S !! p = None ∧ ∀ tid', p ∈ created (log_of tid' sv) → tid' = tid;
  iv_known tid p : is_Some ((kn tid).1 !! p) → is_Some (S !! p);
}.

Lemma inv_new ts : plain_layout ts → inv ts (new_server ts) ∅ ∅ (λ _, (∅, ∅)).
Proof.
  intros Hts. destruct (empty_db_rep ts Hts) as [Hr Hs]. split; cbn; try done.
  - constructor.
  - intros tid. unfold get_mdb_txn, log_of. cbn. split; [apply stage_new|done|done].
  - intros tid p. unfold log_of. cbn. by intros ?%not_elem_of_nil.
  - intros tid p [? ?]. done.
Qed.

Lemma get_mdb_txn_set tid tid' d m l dn x : get_mdb_txn tid' (mkServer d (<[tid := x]> m) l dn) = if decide (tid' = tid) then x else get_mdb_txn tid' (mkServer d m l dn).
Proof. unfold get_mdb_txn. cbn. case_decide; [subst; by rewrite lookup_insert_eq|by rewrite lookup_insert_ne]. Qed.
Lemma get_mdb_txn_delete tid tid' d m l dn : get_mdb_txn tid' (mkServer d (delete tid m) l dn) = if decide (tid' = tid) then TxnLazy tid' else get_mdb_txn tid' (mkServer d m l dn).
Proof. unfold get_mdb_txn. cbn. case_decide; [subst; by rewrite lookup_delete_eq|by rewrite lookup_delete_ne]. Qed.
Lemma log_of_set tid tid' d m l dn L : log_of tid' (mkServer d m (<[tid := L]> l) dn) = if decide (tid' = tid) then L else log_of tid' (mkServer d m l dn).
Proof. unfold log_of. cbn. case_decide; [subst; by rewrite lookup_insert_eq|by rewrite lookup_insert_ne]. Qed.
Lemma log_of_delete tid tid' d m l dn : log_of tid' (mkServer d m (delete tid l) dn) = if decide (tid' = tid) then [] else log_of tid' (mkServer d m l dn).
Proof. unfold log_of. cbn. case_decide; [subst; by rewrite lookup_delete_eq|by rewrite lookup_delete_ne]. Qed.

Lemma del_mdb_txn_running tid sv : is_Some (mdb_txns_ sv !! tid) → del_mdb_txn tid sv = Done (get_mdb_txn tid sv, delete tid (mdb_txns_ sv)).
Proof. intros [x Hx]. unfold del_mdb_txn, get_mdb_txn. by rewrite Hx. Qed.
Lemma verified_running tid sv : verified_ (get_mdb_txn tid sv) = true → is_Some (mdb_txns_ sv !! tid).
Proof. unfold get_mdb_txn. destruct (mdb_txns_ sv !! tid); [eauto|done]. Qed.

(** ** The other transactions during an operation *)

Lemma stage_quiet ts d d' A A' x L L1 L' K R :
  stage_ok ts d A x L K R → quiet d d' A A' L1 L' → (∀ p, p ∈ created L → p ∉ created L') → (∀ p, is_Some (K !! p) → p ∉ created L') →
  (∀ p, is_Some (A !! p) → is_Some (A' !! p)) → stage_ok ts d' A' x L K R.
Proof.
  intros Hx Hq Hown HK HA. pose proof Hx as [H1 H2 H3 H4 H5 H6 H7 H8 H9 H10 H11 H12 H13 H14 H15 H16 H17 H18].
  assert (∀ p c n, ver_check_read_ x !! (p, c) = Some n ∨ ver_check_write_ x !! (p, c) = Some n → is_Some (K !! p)) as Htr.
  { intros p c n Hn. apply (H4 p c). destruct Hn; [left|right]; eauto. }
  assert (∀ p c, is_Some (K !! p) → ver_at d' p c = ver_at d p c) as Hver.
  { intros p c HKp. apply (qt_rows _ _ _ _ _ _ Hq). by eapply known_row. }
  assert (alive d' x → alive d x) as Hal by (intros Hal p c n Hn; rewrite <-Hver by eauto; by apply Hal).
  assert (∀ p c n b, is_Some (K !! p) → seen d A K R p c n b → seen d' A' K R p c n b) as Hs.
  { intros p c n b HKp. unfold seen. by rewrite Hver, (qt_store _ _ _ _ _ _ Hq p) by auto. }
  assert (∀ p, p ∈ created L → A' !! p = A !! p) as HAo by (intros p Hp; apply (qt_store _ _ _ _ _ _ Hq); auto).
  split; try done; auto.
  - intros p Hp. rewrite HAo by done. auto.
  - intros p c n Hn. apply Hs; eauto.
  - intros p c n Hn. apply Hs; eauto.
  - intros t p Hin. destruct (H12 t p Hin) as (Hp & Hrest). split; [done|]. by rewrite HAo.
  - intros S Hal' Hc. destruct (H18 S (Hal Hal') Hc) as (S' & Hrun & E1 & E2 & E3). exists S'. split; [done|]. split_and!; [|done..].
    intros p Hp. rewrite HAo by done. auto.
Qed.

Lemma prepared_quiet ts d d' A A' x L L1 L' K R :
  stage_ok ts d A x L K R → quiet d d' A A' L1 L' → prepared_ok d x → prepared_ok d' x.
Proof.
  intros Hx Hq Hp Hv. destruct (Hp Hv) as (P1 & P2 & P3).
  assert (∀ p c, tracked x p c → is_Some (db_rows d !! p)) as Hrow.
  { intros p c Hc. eapply known_row; [done|]. by apply (sg_track _ _ _ _ _ _ _ Hx p c). }
  split_and!.
  - intros p c n Hn. destruct (qt_rows _ _ _ _ _ _ Hq p) as (_ & -> & _); [|by apply P1]. apply (Hrow p c). destruct Hn; [left|right]; eauto.
  - intros p c Hc. destruct (qt_rows _ _ _ _ _ _ Hq p) as (_ & _ & ->); [apply (Hrow p c); by left|by apply (P2 p c)].
  - intros p c Hc. destruct (qt_rows _ _ _ _ _ _ Hq p) as (_ & _ & ->); [apply (Hrow p c); by right|by apply (P3 p c)].
Qed.

Section steps.
Context (ts : layout) (sv : server) (S A : astore) (kn : knowledge) (Hts : plain_layout ts) (Hi : inv ts sv S A kn).

(** A row some transaction knows is not a row another one has created. *)
Lemma known_not_own tid tid' p : is_Some ((kn tid).1 !! p) → p ∉ created (log_of tid' sv).
Proof using Hi. intros Hk%(iv_known _ _ _ _ _ Hi) Hp. destruct (iv_own _ _ _ _ _ Hi tid' p Hp) as [Hn _]. rewrite Hn in Hk. by destruct Hk. Qed.

Lemma op_keeps_inv tid o :
  allowed sv (Op tid o) = true → ∃ sv' r A' kn', serve sv (Op tid o) = Done (sv', r) ∧ inv ts sv' S A' kn'.
Proof using Hts Hi.
  intros Hal. apply andb_true_iff in Hal as [Hnv Hal]. apply negb_true_iff in Hnv. pose proof (iv_txn _ _ _ _ _ Hi tid) as [Hx Hid Hprep].
  destruct (occ_op_ok ts _ (sv_db sv) A _ _ _ _ (iv_rep _ _ _ _ _ Hi) (iv_shape _ _ _ _ _ Hi) (iv_meta _ _ _ _ _ Hi) Hx o Hts ltac:(lia) Hal)
    as (d' & x' & a & A' & K' & R' & Hop & Hd' & Hsh' & Hm' & Hx' & Hq & Hln & Hid' & Hv').
  cbn [serve]. rewrite Hop. cbn [mbind result_bind]. set (L := log_of tid sv) in *. set (L' := L ++ [(o, a)]) in *.
  eexists _, _, A', (λ t, if decide (t = tid) then (K', R') else kn t). split; [done|].
  assert (∀ p, p ∈ created L' → ∀ b, A !! p = Some b → ar_tbl b = None) as Hold.
  { intros p Hp b Hb. destruct (qt_new _ _ _ _ _ _ Hq p Hp) as [Hp'|]; [|congruence]. destruct (sg_own _ _ _ _ _ _ _ Hx p Hp') as (b' & ? & ?). congruence. }
  assert (∀ p, p ∈ created L' → S !! p = None) as HS.
  { intros p Hp. destruct (qt_new _ _ _ _ _ _ Hq p Hp) as [Hp'|Hn]; [by apply (iv_own _ _ _ _ _ Hi tid)|].
    destruct (S !! p) eqn:HSp; [|done]. destruct (iv_dom _ _ _ _ _ Hi p) as [? ?]; [eauto|congruence]. }
  assert (∀ t p, t ≠ tid → p ∈ created (log_of t sv) → p ∉ created L') as Hdis.
  { intros t p Ht Hp Hp'. destruct (qt_new _ _ _ _ _ _ Hq p Hp') as [Hp2|Hn].
    - apply Ht. symmetry. by apply (iv_own _ _ _ _ _ Hi t p Hp).
    - destruct (sg_own _ _ _ _ _ _ _ (tx_stage _ _ _ _ _ _ _ (iv_txn _ _ _ _ _ Hi t)) p Hp) as (? & ? & _). congruence. }
  assert (∀ p, is_Some (A !! p) → is_Some (A' !! p)) as HA.
  { intros p [b Hb]. destruct (dr_addr _ _ (iv_rep _ _ _ _ _ Hi) p b Hb) as (o1 & Ho1 & _). destruct (qt_rows _ _ _ _ _ _ Hq p) as ([o2 Ho2] & _); [eauto|].
    destruct (dr_row _ _ Hd' p o2 Ho2) as (b' & ? & _). eauto. }
  split; cbn [sv_db sv_done]; try done; [apply Hi|..].
  - intros p b Hb. rewrite <-(iv_public _ _ _ _ _ Hi p b Hb). destruct (decide (p ∈ created L')) as [Hp|Hp]; [|by rewrite (qt_store _ _ _ _ _ _ Hq)].
    destruct (sg_own _ _ _ _ _ _ _ Hx' p Hp) as (b' & Hb' & Hn). split; intros HA'; [congruence|]. by rewrite (Hold p Hp b HA') in Hb.
  - intros p Hp. by apply HA, (iv_dom _ _ _ _ _ Hi).
  - intros t. rewrite get_mdb_txn_set, log_of_set. destruct (decide (t = tid)) as [->|Hne].
    + split; [done|congruence|]. unfold prepared_ok. congruence.
    + destruct (iv_txn _ _ _ _ _ Hi t) as [Hx1 Hid1 Hp1]. split; [|done|by eapply prepared_quiet].
      eapply stage_quiet; [done|done|intros p; by apply Hdis| |done]. intros p HK Hp. pose proof (iv_known _ _ _ _ _ Hi t p HK) as HSp. rewrite HS in HSp by done. by destruct HSp.
  - intros t p. rewrite log_of_set. destruct (decide (t = tid)) as [->|Hne]; intros Hp.
    + split; [by apply HS|]. intros t'. rewrite log_of_set. case_decide as Ht; [done|]. intros Hp'. by destruct (Hdis t' p Ht Hp').
    + split; [by apply (iv_own _ _ _ _ _ Hi t)|]. intros t'. rewrite log_of_set. case_decide as Ht; [subst; intros Hp'; by destruct (Hdis t p Hne Hp)|].
      by apply (iv_own _ _ _ _ _ Hi t p Hp).
  - intros t p. destruct (decide (t = tid)) as [->|Hne]; [|by apply (iv_known _ _ _ _ _ Hi)]. cbn. intros Hp.
    destruct (Hln p Hp) as [Hp'|(b & t1 & Hb & Ht1)]; [by apply (iv_known _ _ _ _ _ Hi tid)|]. exists b. apply (iv_public _ _ _ _ _ Hi); [congruence|done].
Qed.
(** Changing locks of one transaction is nothing to the others. *)
Lemma prepared_locks_only id N d d' x :
  meta_ok N d → locks_only id d d' → txnid_ x ≠ id → prepared_ok d x → prepared_ok d' x.
Proof.
  intros Hm Hlo Hid Hp Hv. destruct (Hp Hv) as (P1 & P2 & P3). split_and!.
  - intros p c n Hn. rewrite (locks_only_ver _ _ _ p c Hlo). by apply P1.
  - intros p c Hc. destruct (P2 p c Hc) as (l & Hl & Hh). destruct (locks_only_holds _ _ _ _ (txnid_ x) p l Hlo Hm Hid Hl) as (l' & ? & ? & ?). eauto.
  - intros p c Hc. destruct (P3 p c Hc) as (l & Hl & Hh). destruct (locks_only_holds _ _ _ _ (txnid_ x) p l Hlo Hm Hid Hl) as (l' & ? & ? & ?). eauto.
Qed.

Lemma prepare_keeps_inv tid :
  allowed sv (Prepare tid) = true → ∃ sv' r A' kn', serve sv (Prepare tid) = Done (sv', r) ∧ inv ts sv' S A' kn'.
Proof using Hi.
  intros Hal. cbn in Hal. apply negb_true_iff in Hal. pose proof (iv_txn _ _ _ _ _ Hi tid) as [Hx Hid Hprep].
  destruct (prepare_ok ts _ (sv_db sv) A _ _ _ _ (iv_rep _ _ _ _ _ Hi) (iv_meta _ _ _ _ _ Hi) Hx Hal) as (d' & x' & b & Hop & Hlo & Hx' & Hid' & Hp').
  cbn [serve]. rewrite Hop. cbn [mbind result_bind]. eexists _, _, A, kn. split; [done|]. rewrite Hid in Hlo. destruct Hi as [I1 I2 I3 I4 I5 I6 I7 I8 I9].
  split; cbn [sv_db sv_done]; try done; [by eapply locks_only_rep|by eapply locks_only_shape|by eapply locks_only_meta|].
  intros t. rewrite get_mdb_txn_set. destruct (decide (t = tid)) as [->|Hne]; [split; [done|congruence|done]|].
  destruct (I7 t) as [Hx1 Hid1 Hp1]. split; [|done|].
  - eapply stage_ver; [|done]. intros p c. by eapply locks_only_ver.
  - eapply prepared_locks_only; [done|done| |done]. intros Heq. apply Hne. rewrite <-Hid1. exact Heq.
Qed.

Definition forget (tid : Z) : knowledge := λ t, if decide (t = tid) then (∅, ∅) else kn t.

Lemma abort_keeps_inv tid : is_Some (mdb_txns_ sv !! tid) → ∃ sv' r A' kn', serve sv (Abort tid) = Done (sv', r) ∧ inv ts sv' S A' kn'.
Proof using Hi.
  intros Hrun. pose proof (iv_txn _ _ _ _ _ Hi tid) as [Hx Hid Hprep].
  destruct (abort_ok ts (sv_db sv) A _ _ _ _ (iv_rep _ _ _ _ _ Hi) Hx) as (d' & x' & Hop & Hlo).
  cbn [serve]. rewrite del_mdb_txn_running by done. cbn [mbind result_bind]. rewrite Hop. cbn [mbind result_bind]. eexists _, _, A, (forget tid). split; [done|]. rewrite Hid in Hlo. destruct Hi as [I1 I2 I3 I4 I5 I6 I7 I8 I9].
  split; cbn [sv_db sv_done]; try done; [by eapply locks_only_rep|by eapply locks_only_shape|by eapply locks_only_meta|..].
  - intros t. rewrite get_mdb_txn_delete, log_of_delete. unfold forget. destruct (decide (t = tid)) as [->|Hne]; [split; [apply stage_new|done|done]|].
    destruct (I7 t) as [Hx1 Hid1 Hp1]. split; [|done|].
    + eapply stage_ver; [|done]. intros p c. by eapply locks_only_ver.
    + eapply prepared_locks_only; [done|done| |done]. intros Heq. apply Hne. rewrite <-Hid1. exact Heq.
  - intros t p. rewrite log_of_delete. case_decide as Ht; [by intros ?%not_elem_of_nil|]. intros Hp. destruct (I8 t p Hp) as [? HU]. split; [done|].
    intros t'. rewrite log_of_delete. case_decide; [by intros ?%not_elem_of_nil|apply HU].
  - intros t p. unfold forget. case_decide; [by intros [? ?]|apply I9].
Qed.

(** ** Commits *)

Section commit.
Context (tid : Z) (Hv : verified_ (get_mdb_txn tid sv) = true).
Abbreviation x := (get_mdb_txn tid sv).
Abbreviation L := (log_of tid sv).
Abbreviation A' := (committed A x).

Lemma commit_compat : compat L (kn tid).1 (kn tid).2 S.
Proof using Hi Hv.
  pose proof (iv_txn _ _ _ _ _ Hi tid) as [Hx Hid Hprep]. destruct (Hprep Hv) as (Hal & _). split_and!.
  - intros p t s HK. destruct (alive_table _ _ _ _ _ _ _ p Hx Hal) as (a & t' & Ha & Ht & HK'); [eauto|]. assert (t' = t ∧ s = ar_schema a) as [-> ->] by (split; congruence).
    exists a. split_and!; [apply (iv_public _ _ _ _ _ Hi); [congruence|done]|done|done|].
    destruct (dr_addr _ _ (iv_rep _ _ _ _ _ Hi) p a Ha) as (o & _ & Hr). by rewrite (rr_kinds _ _ (or_row _ _ Hr)), (or_schema _ _ Hr).
  - intros p c v HR. destruct (sg_reads _ _ _ _ _ _ _ Hx p c) as [n Hn]; [eauto|]. destruct (sg_read _ _ _ _ _ _ _ Hx p c n Hn) as (m & Hm & _ & Heq).
    rewrite (Hal p c n) in Hm by auto. simplify_eq. destruct (Heq eq_refl) as (a & t & Ha & Ht & _ & HRv).
    exists a. split; [apply (iv_public _ _ _ _ _ Hi); [congruence|done]|by apply HRv].
  - intros p Hp. by apply (iv_own _ _ _ _ _ Hi tid).
Qed.

(** The committed rows in the store and in the tables. *)
Lemma commit_public S' : effect A x L S S' → ∀ p a, ar_tbl a ≠ None → A' !! p = Some a ↔ S' !! p = Some a.
Proof using Hi Hv.
  intros (E1 & E2 & E3) p a Ha. pose proof (iv_txn _ _ _ _ _ Hi tid) as [Hx Hid Hprep]. destruct (Hprep Hv) as (Hal & _).
  destruct (decide (p ∈ created L)) as [Hp|Hp].
  - destruct (E1 p Hp) as (b & Hb & ->). destruct (committed_own _ _ _ _ _ _ _ Hx p Hp) as (b' & Hb' & ->). by simplify_eq.
  - destruct (decide (p ∈ (removes_ x).*2)) as [Hg|Hg].
    + destruct (E2 p Hp Hg) as (b & -> & Hbn). destruct (committed_gone _ _ _ _ _ _ _ Hx Hal p Hg) as (b' & -> & Hbn'). split; intros; simplify_eq; done.
    + rewrite E3, (committed_other _ _ _ _ _ _ _ Hx p Hp Hg) by done. rewrite !fmap_Some.
      split; intros (b & Hb & ->); (exists b; split; [|done]); apply (iv_public _ _ _ _ _ Hi); done.
Qed.

Lemma commit_store S' p : effect A x L S S' → is_Some (S !! p) → is_Some (S' !! p).
Proof using Hi.
  intros (E1 & E2 & E3) HS. destruct (decide (p ∈ created L)) as [Hp|Hp]; [destruct (E1 p Hp) as (b & _ & ->); eauto|].
  destruct (decide (p ∈ (removes_ x).*2)) as [Hg|Hg]; [destruct (E2 p Hp Hg) as (b & -> & _); eauto|]. rewrite E3 by done. by apply fmap_is_Some.
Qed.

Lemma committed_dom p : is_Some (A !! p) → is_Some (A' !! p).
Proof. intros HA. unfold committed. by rewrite unlink_rows_lookup, store_updates_lookup, link_staged_lookup, !fmap_is_Some. Qed.

Lemma commit_dom S' p : effect A x L S S' → is_Some (S' !! p) → is_Some (A' !! p).
Proof using Hi Hv.
  intros (E1 & E2 & E3) HS. pose proof (iv_txn _ _ _ _ _ Hi tid) as [Hx Hid Hprep]. destruct (Hprep Hv) as (Hal & _).
  destruct (decide (p ∈ created L)) as [Hp|Hp]; [destruct (committed_own _ _ _ _ _ _ _ Hx p Hp) as (b & _ & ->); eauto|].
  destruct (decide (p ∈ (removes_ x).*2)) as [Hg|Hg]; [destruct (committed_gone _ _ _ _ _ _ _ Hx Hal p Hg) as (b & -> & _); eauto|].
  rewrite E3 in HS by done. apply committed_dom, (iv_dom _ _ _ _ _ Hi). by apply fmap_is_Some in HS.
Qed.

(** Rows of another transaction are not touched. *)
Lemma commit_other_own t p : t ≠ tid → p ∈ created (log_of t sv) → (p ∉ created L) ∧ ¬ gone x p ∧ A' !! p = A !! p.
Proof using Hi Hv.
  intros Ht Hp. pose proof (iv_txn _ _ _ _ _ Hi tid) as [Hx Hid Hprep].
  assert (p ∉ created L) as Hno by (intros Hp'; apply Ht; symmetry; by apply (iv_own _ _ _ _ _ Hi t p Hp)).
  assert (∀ c, ¬ tracked x p c) as Hnt.
  { intros c Hc. destruct (sg_track _ _ _ _ _ _ _ Hx p c Hc) as (HK & _). by apply (known_not_own tid t p HK). }
  assert (¬ gone x p) as Hng by (intros Hg; destruct (gone_tracked _ _ _ _ _ _ _ p Hx Hg) as (HK & _); by apply (known_not_own tid t p HK)).
  split_and!; [done..|]. rewrite (committed_other _ _ _ _ _ _ _ Hx p Hno Hng). destruct (A !! p) as [a|]; [|done]. cbn. f_equal.
  rewrite (staged_row_ext [] (updates_ x)); [apply staged_row_nil|]. intros c. cbn. destruct (find_update p c (updates_ x)) as [v|] eqn:Hf; [|done].
  apply find_update_elem in Hf. destruct (sg_updates _ _ _ _ _ _ _ Hx p c v Hf) as (Hw & _). destruct (Hnt c). by right.
Qed.

(** A row another transaction knows changes only in columns whose version is raised. *)
Lemma commit_other_seen t d' d3 p c n b :
  raised (changed x) (sv_db sv) d3 → locks_only tid d3 d' → tracked (get_mdb_txn t sv) p c →
  seen (sv_db sv) A (kn t).1 (kn t).2 p c n b → seen d' A' (kn t).1 (kn t).2 p c n b.
Proof using Hi Hv.
  intros Hr Hlo Htr (m & Hm & Hle & Heq). pose proof (iv_txn _ _ _ _ _ Hi tid) as [Hx Hid Hprep].
  destruct (sg_track _ _ _ _ _ _ _ (tx_stage _ _ _ _ _ _ _ (iv_txn _ _ _ _ _ Hi t)) p c Htr) as (HK & _ & Hc).
  pose proof (known_not_own t tid p HK) as Hno. destruct (raised_ver _ _ _ p c m Hr Hm) as [V1 V2]. unfold seen.
  rewrite (locks_only_ver _ _ _ p c Hlo). destruct (decide (changed x p c)) as [Hch|Hch].
  - exists (m + 1). rewrite V1 by done. split_and!; [done|lia|lia].
  - exists m. rewrite V2 by done. split_and!; [done..|]. intros Hn. destruct (Heq Hn) as (a & t' & Ha & Ht & HKa & HR).
    assert (find_update p c (updates_ x) = None) as Hf by (apply find_update_None; intros Hin; apply Hch; by left).
    exists (staged_row (updates_ x) p a), t'. split_and!; [|done..|].
    + rewrite (committed_other _ _ _ _ _ _ _ Hx p Hno), Ha; [done|]. intros Hg. apply Hch. by right.
    + intros Hb v Hv'. specialize (HR Hb v Hv'). unfold staged_row. cbn. rewrite staged_vals_lookup, HR. cbn. by rewrite Z2Nat.id, Hf.
Qed.

(** A prepared transaction has locked what it knows, so none of it changes. *)
Lemma commit_other_prepared t p c :
  t ≠ tid → verified_ (get_mdb_txn t sv) = true → tracked (get_mdb_txn t sv) p c → ¬ changed x p c.
Proof using Hi Hv.
  intros Ht Hvt Htr Hch. pose proof (iv_txn _ _ _ _ _ Hi tid) as [Hx Hid Hprep]. pose proof (iv_txn _ _ _ _ _ Hi t) as [Hx1 Hid1 Hprep1].
  destruct (Hprep Hv) as (Hal & _ & P3). destruct (Hprep1 Hvt) as (_ & Q2 & Q3). rewrite Hid in P3. rewrite Hid1 in Q2, Q3.
  assert (∃ l, lock_at (sv_db sv) p = Some l ∧ holds_w tid l) as (l & Hl & Hw).
  { destruct Hch as [Hin|Hg].
    - apply list_elem_of_fmap_1 in Hin as ([q [c' v]] & Heq & Hq). cbn in Heq. simplify_eq. apply (P3 q c'). by apply (sg_updates _ _ _ _ _ _ _ Hx q c' v).
    - apply list_elem_of_fmap_1 in Hg as ([t1 q] & -> & Hq). destruct (sg_removed _ _ _ _ _ _ _ Hx t1 q Hal Hq) as (s & HK & Hcs). apply (P3 _ 0). apply Hcs.
      destruct (alive_table _ _ _ _ _ _ _ q Hx Hal) as (a & t2 & Ha & _ & HKa); [eauto|]. assert (s = ar_schema a) as -> by congruence.
      destruct (dr_addr _ _ (iv_rep _ _ _ _ _ Hi) q a Ha) as (o & _ & Hr). destruct (or_plain _ _ Hr) as (_ & ? & _). lia. }
  assert (holds t l) as Hh.
  { destruct Htr as [Hc|Hc]; [destruct (Q2 p c Hc) as (l' & Hl' & ?)|destruct (Q3 p c Hc) as (l' & Hl' & ?)]; assert (l' = l) as -> by congruence; [done|by left]. }
  unfold lock_at in Hl. destruct (db_rows (sv_db sv) !! p) as [o|] eqn:Ho; [|done]. cbn in Hl. simplify_eq.
  destruct (iv_meta _ _ _ _ _ Hi p o Ho) as (Hok & _). apply Ht. by eapply writer_alone.
Qed.

Lemma commit_other_txn t d' d3 :
  t ≠ tid → meta_ok (Z.of_nat (length (sv_done sv)) + 1) d3 → raised (changed x) (sv_db sv) d3 → locks_only tid d3 d' →
  txn_ok ts d' A' t (get_mdb_txn t sv) (log_of t sv) (kn t).
Proof using Hi Hv.
  intros Ht Hm3 Hr Hlo. pose proof (iv_txn _ _ _ _ _ Hi t) as [Hx1 Hid1 Hprep1].
  assert (∀ p c m, ver_at (sv_db sv) p c = Some m → ∃ m', ver_at d' p c = Some m' ∧ m ≤ m') as Hmono.
  { intros p c m Hm. destruct (raised_ver _ _ _ p c m Hr Hm) as [V1 V2]. rewrite (locks_only_ver _ _ _ p c Hlo).
    destruct (decide (changed x p c)); [exists (m + 1); rewrite V1 by done; split; [done|lia]|exists m; rewrite V2 by done; split; [done|lia]]. }
  split; [|done|].
  - pose proof Hx1 as [H1 H2 H3 H4 H5 H6 H7 H8 H9 H10 H11 H12 H13 H14 H15 H16 H17 H18].
    assert (alive d' (get_mdb_txn t sv) → alive (sv_db sv) (get_mdb_txn t sv)) as Hal.
    { intros Hal p c n Hn. assert (∃ b, seen (sv_db sv) A (kn t).1 (kn t).2 p c n b) as (b & m & Hm & Hle & _) by (destruct Hn; [exists true; auto|exists false; auto]).
      destruct (Hmono p c m Hm) as (m' & Hm' & Hle'). rewrite (Hal p c n Hn) in Hm'. simplify_eq. by replace m' with m by lia. }
    split; try done; auto.
    + intros p Hp. destruct (commit_other_own t p Ht Hp) as (_ & _ & ->). auto.
    + intros p c n Hn. eapply commit_other_seen; [done|done|left; eauto|auto].
    + intros p c n Hn. eapply commit_other_seen; [done|done|right; eauto|auto].
    + intros t' p Hin. destruct (H12 t' p Hin) as (Hp & Hrest). split; [done|]. by destruct (commit_other_own t p Ht Hp) as (_ & _ & ->).
    + intros p Hp. by apply committed_dom, H17.
    + intros S1 Hal' Hc. destruct (H18 S1 (Hal Hal') Hc) as (S2 & Hrun & E1 & E2 & E3). exists S2. split; [done|]. split_and!; [|done..].
      intros p Hp. destruct (commit_other_own t p Ht Hp) as (_ & _ & ->). auto.
  - apply (prepared_locks_only tid _ d3 d' _ Hm3 Hlo); [by rewrite Hid1|]. intros Hvt. destruct (Hprep1 Hvt) as (P1 & P2 & P3). split_and!.
    + intros p c n Hn. apply (raised_ver _ _ _ p c n Hr); [by apply P1|]. apply (commit_other_prepared t p c Ht Hvt). destruct Hn; [left|right]; eauto.
    + intros p c Hc. rewrite (raised_lock _ _ _ p Hr). by apply (P2 p c).
    + intros p c Hc. rewrite (raised_lock _ _ _ p Hr). by apply (P3 p c).
Qed.

Lemma commit_keeps_inv :
  Z.of_nat (length (sv_done sv)) + 1 < 2 ^ 64 → ∃ sv' r S' A1 kn', serve sv (Commit tid) = Done (sv', r) ∧ inv ts sv' S' A1 kn'.
Proof using Hi Hv.
  intros Hb. pose proof (iv_txn _ _ _ _ _ Hi tid) as [Hx Hid Hprep]. destruct (Hprep Hv) as (Hal & _).
  destruct (confirm_ok ts _ (sv_db sv) A _ _ _ _ (iv_rep _ _ _ _ _ Hi) (iv_shape _ _ _ _ _ Hi) (iv_meta _ _ _ _ _ Hi) ltac:(lia) Hb Hx Hal Hv)
    as (d' & x' & d3 & Hop & Hd' & Hsh' & Hm3 & Hr & Hlo & _). rewrite Hid in Hlo.
  destruct (sg_replay _ _ _ _ _ _ _ Hx S Hal commit_compat) as (S' & Hrun & He).
  cbn [serve]. rewrite del_mdb_txn_running by by apply verified_running. cbn [mbind result_bind]. rewrite Hop. cbn [mbind result_bind]. eexists _, _, S', A', (forget tid). split; [done|].
  split; cbn [sv_db sv_done]; try done.
  - eapply locks_only_meta; [done|]. rewrite length_app. cbn. by replace (Z.of_nat (length (sv_done sv) + 1)) with (Z.of_nat (length (sv_done sv)) + 1) by lia.
  - rewrite join_app. cbn. rewrite app_nil_r. eapply atomic_run_app; [apply Hi|done].
  - by apply commit_public.
  - intros p Hp. eapply commit_dom; eauto.
  - intros t. rewrite get_mdb_txn_delete, log_of_delete. unfold forget. destruct (decide (t = tid)) as [->|Hne]; [split; [apply stage_new|done|done]|].
    by eapply commit_other_txn.
  - intros t p. rewrite log_of_delete. case_decide as Ht; [by intros ?%not_elem_of_nil|]. intros Hp. destruct (iv_own _ _ _ _ _ Hi t p Hp) as [HSp HU]. split.
    + destruct He as (_ & _ & E3). destruct (commit_other_own t p Ht Hp) as (Hno & Hng & _). rewrite E3 by done. by rewrite HSp.
    + intros t'. rewrite log_of_delete. case_decide; [by intros ?%not_elem_of_nil|apply HU].
  - intros t p. unfold forget. case_decide; [by intros [? ?]|]. intros Hk. eapply commit_store; [done|]. by apply (iv_known _ _ _ _ _ Hi t).
Qed.
End commit.
End steps.

(** ** Runs *)

Lemma serve_keeps_inv ts sv S A kn rq :
  plain_layout ts → inv ts sv S A kn → allowed sv rq = true → Z.of_nat (length (sv_done sv)) + 1 < 2 ^ 64 →
  ∃ sv' r S' A' kn', serve sv rq = Done (sv', r) ∧ inv ts sv' S' A' kn' ∧ (length (sv_done sv') ≤ length (sv_done sv) + 1)%nat.
Proof.
  intros Hts Hi Hal Hb.
  assert (∃ sv' r S' A' kn', serve sv rq = Done (sv', r) ∧ inv ts sv' S' A' kn') as (sv' & r & S' & A' & kn' & Hs & Hi').
  { destruct rq as [tid o|tid|tid|tid].
    - destruct (op_keeps_inv ts sv S A kn Hts Hi tid o Hal) as (sv' & r & A' & kn' & ? & ?). eauto 10.
    - destruct (prepare_keeps_inv ts sv S A kn Hi tid Hal) as (sv' & r & A' & kn' & ? & ?). eauto 10.
    - destruct (commit_keeps_inv ts sv S A kn Hi tid Hal Hb) as (sv' & r & S' & A' & kn' & ? & ?). eauto 10.
    - cbn in Hal. apply bool_decide_eq_true in Hal. destruct (abort_keeps_inv ts sv S A kn Hi tid Hal) as (sv' & r & A' & kn' & ? & ?). eauto 10. }
  exists sv', r, S', A', kn'. split_and!; [done..|]. destruct rq; cbn in Hs; done_inv Hs; repeat case_match; try done_inv Hs;
    repeat case_match; simplify_eq; cbn; rewrite ?length_app; cbn; lia.
Qed.

Lemma serve_all_keeps_inv ts sv S A kn rqs :
  plain_layout ts → inv ts sv S A kn → allowed_all sv rqs = true → Z.of_nat (length (sv_done sv) + length rqs) < 2 ^ 64 →
  ∃ sv' rs S' A' kn', serve_all sv rqs = Done (sv', rs) ∧ inv ts sv' S' A' kn'.
Proof.
  intros Hts. revert sv S A kn. induction rqs as [|rq rqs IH]; intros sv S A kn Hi Hal Hb; [cbn; eauto 10|].
  cbn in Hal. apply andb_true_iff in Hal as [Hal Hrest]. cbn [length] in Hb.
  destruct (serve_keeps_inv ts sv S A kn rq Hts Hi Hal) as (sv1 & r & S1 & A1 & kn1 & Hs & Hi1 & Hlen); [lia|]. rewrite Hs in Hrest.
  destruct (IH sv1 S1 A1 kn1 Hi1 Hrest) as (sv2 & rs & S2 & A2 & kn2 & Hs2 & Hi2); [lia|].
  cbn [serve_all]. rewrite Hs. cbn [mbind result_bind]. rewrite Hs2. cbn. eauto 10.
Qed.

(** C6: optimistic transactions without queries are serialisable, on tables whose keys
    are integers ([plain_layout]; [OccLimits.string_key_dangles] shows what strings do).
    However a server interleaves the column reads, column writes, insertions and
    removals, the prepares, commits and aborts of transactions that respect [allowed]
    (rows a transaction knows and has not removed, values of the column's kind, commit
    only after a successful prepare), no request fails, and the committed transactions, run directly on the tables one after
    the other in the order of their commits, give every operation the answer it had and
    every table the rows it has in the server. *)
Theorem occ_serializable ts rqs :
  plain_layout ts → allowed_all (new_server ts) rqs = true → Z.of_nat (length rqs) < 2 ^ 64 →
  ∃ sv replies d, serve_all (new_server ts) rqs = Done (sv, replies) ∧
    unsafe_run (empty_db ts) (mjoin (sv_done sv)).*1 = Done (d, (mjoin (sv_done sv)).*2) ∧
    ∀ t, is_Some (ts !! t) → ∃ l l', contents d t = Done l ∧ contents (sv_db sv) t = Done l' ∧ l ≡ₚ l'.
Proof.
  intros Hts Hal Hb. destruct (serve_all_keeps_inv ts _ _ _ _ rqs Hts (inv_new ts Hts) Hal) as (sv & rs & S & A & kn & Hs & Hi); [done|].
  destruct (empty_db_rep ts Hts) as [Hr Hsh]. destruct (unsafe_run_atomic ts _ _ _ _ Hts Hr Hsh (iv_run _ _ _ _ _ Hi)) as (d & Hrun & Hd & Hshd).
  exists sv, rs, d. split_and!; [done..|]. intros t [[k s] Ht].
  destruct (shape_lookup d ts t k s Hshd Ht) as (tb & Htb & _). destruct (shape_lookup (sv_db sv) ts t k s (iv_shape _ _ _ _ _ Hi) Ht) as (tb' & Htb' & _).
  eapply contents_same; [done|apply Hi| |done..]. intros p a Ha. symmetry. by apply (iv_public _ _ _ _ _ Hi).
Qed.

(** A table of accounts; transaction 1 loads two rows, transactions 2 and 3 both read
    and write the first one, and 3 is refused. *)
Definition account_sops : list schema_op := [AddColumn [107] I32 true; AddColumn [118] I64 false].
Definition account_schema : Schema := match for_each schema_step account_sops Schema_new with Done s => s | _ => Schema_new end.
Definition accounts : layout := {[ 0%nat := (TBL_SORTED, account_schema) ]}.
Definition account_requests : list request :=
  [Op 1 (NewRow 0 10 [VI32 5; VI64 100]); Op 1 (InsertRow 0 10); Op 1 (NewRow 0 11 [VI32 3; VI64 200]); Op 1 (InsertRow 0 11);
   Prepare 1; Commit 1;
   Op 2 (ReadColumn 10 1); Op 3 (ReadColumn 10 1); Op 2 (WriteColumn 10 1 (VI64 90)); Op 3 (WriteColumn 10 1 (VI64 95));
   Op 2 (ReadColumn 10 1); Op 3 (RemoveRow 0 11); Prepare 2; Prepare 3; Abort 3; Commit 2; Op 4 (ReadColumn 10 1); Prepare 4; Commit 4].

Lemma accounts_plain : plain_layout accounts.
Proof.
  intros t k s Ht. unfold accounts in Ht. apply lookup_singleton_Some in Ht as [_ Heq]. injection Heq as <- <-. split; [|split].
  - destruct (schema_runs_ok account_sops _ schema_new_ok) as [Hc|(s' & Hs' & Hok)]; [vm_compute in Hc; discriminate|].
    unfold account_schema. by rewrite Hs'.
  - vm_compute. lia.
  - vm_compute. repeat constructor.
Qed.

Lemma occ_serializable_witness :
  ∃ sv replies d, serve_all (new_server accounts) account_requests = Done (sv, replies) ∧
    unsafe_run (empty_db accounts) (mjoin (sv_done sv)).*1 = Done (d, (mjoin (sv_done sv)).*2) ∧
    ∀ t, is_Some (accounts !! t) → ∃ l l', contents d t = Done l ∧ contents (sv_db sv) t = Done l' ∧ l ≡ₚ l'.
Proof. apply (occ_serializable accounts account_requests); [apply accounts_plain|vm_compute; reflexivity|vm_compute; reflexivity]. Defined.
