(* ===== verification/MemQuery.v ===== *)
(** * Queries of memdb tables

    The queries of a sorted table ([SortedTable] of src/rococo-dst/memdb/table.h) walk a
    range of the map between two bounds.  They give the rows a scan of the whole table
    selects, in the order of the keys. *)

From S2P Require Import Prelude SparseInt RWLock MemRow MemRowSpec MemTable MemTableSpec Occ OccSpec OccInv OccOps OccCommit OccSerial.

#[export] Instance lex_lt_dec a b : Decision (lex_lt a b).
Proof. unfold Decision, lex_lt. destruct (lex a b); [by right|by left|by right]. Defined.

Lemma lex_apart a b : ¬ lex_lt a b ∧ ¬ lex_lt b a ↔ a = b.
Proof.
  unfold lex_lt. split; [|by intros ->; rewrite lex_refl]. revert b. induction a as [|x a IH]; intros [|y b]; cbn; [naive_solver..|].
  rewrite (Z.compare_antisym x y). destruct (Z.compare_spec x y) as [->| |]; cbn; [|naive_solver..]. intros H. f_equal. by apply IH.
Qed.

(** ** Cutting a sorted list *)

Lemma filter_none {B} (P : B → Prop) `{∀ x, Decision (P x)} (l : list B) : (∀ x, x ∈ l → ¬ P x) → filter P l = [].
Proof. intros Hl. destruct (filter P l) as [|x r] eqn:Hr; [done|]. assert (x ∈ filter P l) as [? ?]%list_elem_of_filter by (rewrite Hr; by left). by edestruct Hl. Qed.

Lemma filter_between {B} (P Q : B → Prop) `{∀ x, Decision (P x), ∀ x, Decision (Q x)} (l : list B) lo hi :
  Forall (λ x, ¬ P x) (take lo l) → Forall P (drop lo l) → Forall Q (take hi l) → Forall (λ x, ¬ Q x) (drop hi l) →
  filter (λ x, P x ∧ Q x) l = take (hi - lo) (drop lo l).
Proof.
  rewrite !Forall_forall. intros H1 H2 H3 H4. rewrite <-(take_drop lo l) at 1. rewrite filter_app.
  rewrite (filter_none _ (take lo l)) by naive_solver. cbn [app].
  rewrite <-(take_drop (hi - lo) (drop lo l)) at 1. rewrite filter_app, filter_all, filter_none, app_nil_r; [done| |].
  - intros x Hx [_ HQ]. apply (H4 x); [|done]. rewrite drop_drop in Hx. replace (lo + (hi - lo))%nat with (hi + (lo - hi))%nat in Hx by lia.
    rewrite <-drop_drop in Hx. by eapply subseteq_drop.
  - intros x Hx. destruct (decide (lo ≤ hi)%nat); [|by replace (hi - lo)%nat with 0%nat in Hx by lia; apply not_elem_of_nil in Hx].
    split; [apply H2; by eapply subseteq_take|]. apply H3. rewrite take_drop_commute in Hx.
    replace (lo + (hi - lo))%nat with hi in Hx by lia. by eapply subseteq_drop.
Qed.

(** A bound cuts a sorted list into what is below it and what is not. *)
Section cut.
Context {B} (f : B → list Z) (P : list Z → Prop) (Hdown : ∀ x y, lex_le x y → P y → P x).

Lemma cut_spec (l : list B) n :
  ordered (f <$> l) → (∀ i x, (i < n)%nat → (f <$> l) !! i = Some x → P x) → (∀ x, (f <$> l) !! n = Some x → ¬ P x) →
  Forall (λ b, P (f b)) (take n l) ∧ Forall (λ b, ¬ P (f b)) (drop n l).
Proof using Hdown.
  intros Ho Hlo Hhi. split; apply Forall_lookup; intros i b Hb.
  - apply lookup_take_Some in Hb as [Hb Hi]. apply (Hlo i); [done|]. by rewrite list_lookup_fmap, Hb.
  - rewrite lookup_drop in Hb. destruct (lookup_lt_is_Some_2 (f <$> l) n) as [x Hx]; [rewrite length_fmap; apply lookup_lt_Some in Hb; lia|].
    assert ((f <$> l) !! (n + i)%nat = Some (f b)) as Hfb by by rewrite list_lookup_fmap, Hb.
    intros HP. apply (Hhi x Hx). destruct i as [|i].
    + rewrite Nat.add_0_r in Hfb. by rewrite Hx in Hfb; simplify_eq.
    + apply (Hdown x (f b)); [|done]. eapply (Ho n (n + S i)%nat); [lia|done..].
Qed.
End cut.

(** ** The queries of a table *)

Lemma sorted_key_rep (s : Schema) k : key_typed s k → sorted_key s (blobs k) = Done (blobs k).
Proof.
  intros Hk. unfold sorted_key. rewrite bool_decide_true; [done|]. unfold blobs. rewrite length_fmap. symmetry. by eapply Forall2_length.
Qed.

Section queries.
Context (d : memdb) (A : astore) (t : nat) (tb : Table) (Hd : db_rep d A) (Htb : db_tables d !! t = Some tb) (Hsorted : rtti tb = TBL_SORTED).
Abbreviation s := (tb_schema tb).
Abbreviation nums_of := (λ i, nums (row_key A i)).

Lemma table_order : ordered (nums_of <$> rows_ tb).
Proof using Hd Htb Hsorted.
  pose proof (tr_order _ _ _ (dr_table _ _ Hd t tb Htb) Hsorted) as Ho. by rewrite <-list_fmap_compose in Ho.
Qed.

Lemma lower_cut k : key_typed s k → ∃ n, lower_bound s (blobs k) (blobs <$> (row_key A <$> rows_ tb)) = Done n ∧
  Forall (λ i, lex_lt (nums_of i) (nums k)) (take n (rows_ tb)) ∧ Forall (λ i, ¬ lex_lt (nums_of i) (nums k)) (drop n (rows_ tb)).
Proof using Hd Htb Hsorted.
  intros Hk. destruct (lower_bound_spec s k Hk (row_key A <$> rows_ tb)) as (n & Hn & _ & H1 & H2).
  { eapply table_keys_typed; [done|]. by apply (dr_table _ _ Hd). }
  rewrite <-list_fmap_compose in H1, H2. exists n. split; [done|]. apply (cut_spec nums_of (λ x, lex_lt x (nums k))); [|apply table_order|done|].
  - intros x y Hxy Hy. destruct (decide (lex_lt x (nums k))) as [|Hn']; [done|]. exfalso. apply lex_not_lt in Hn'.
    pose proof (lex_lt_le_trans _ _ _ Hy Hn') as Hc. by apply lex_not_lt in Hxy.
  - intros x Hx. apply lex_not_lt. by apply H2.
Qed.

Lemma upper_cut k : key_typed s k → ∃ n, upper_bound s (blobs k) (blobs <$> (row_key A <$> rows_ tb)) = Done n ∧
  Forall (λ i, ¬ lex_lt (nums k) (nums_of i)) (take n (rows_ tb)) ∧ Forall (λ i, lex_lt (nums k) (nums_of i)) (drop n (rows_ tb)).
Proof using Hd Htb Hsorted.
  intros Hk. destruct (upper_bound_spec s k Hk (row_key A <$> rows_ tb)) as (n & Hn & _ & H1 & H2).
  { eapply table_keys_typed; [done|]. by apply (dr_table _ _ Hd). }
  rewrite <-list_fmap_compose in H1, H2. exists n. split; [done|].
  destruct (cut_spec nums_of (λ x, ¬ lex_lt (nums k) x)) with (rows_ tb) n as [C1 C2]; [|apply table_order| | |].
  - intros x y Hxy Hy Hc. apply Hy. by eapply lex_lt_le_trans.
  - intros i x Hi Hx. apply lex_not_lt. by eapply H1.
  - intros x Hx Hc. by apply Hc, H2.
  - split; [done|]. eapply Forall_impl; [exact C2|]. intros i Hi. by apply dec_stable.
Qed.

Lemma sorted_table_rep : sorted_table d t = Done (tb, blobs <$> (row_key A <$> rows_ tb)).
Proof using Hd Htb Hsorted.
  unfold sorted_table, table_at. rewrite Htb. cbn [mbind result_bind]. rewrite bool_decide_true by done. cbn [verify mbind result_bind].
  rewrite (table_keys d A Hd t tb) by by apply (dr_table _ _ Hd). done.
Qed.

(** The scan of the table with a condition on the keys. *)
Lemma scan_rep (P : list Z → Prop) `{∀ n, Decision (P n)} :
  (filter (λ r, P (key_nums s r.2)) (shown_row A <$> rows_ tb)).*1 = it_row <$> filter (λ i, P (nums_of i)) (rows_ tb).
Proof using Hd Htb.
  assert (∀ i, i ∈ rows_ tb → key_nums s (shown_row A i).2 = nums_of i) as Hk.
  { intros i Hi. destruct (table_items A t tb (dr_table _ _ Hd t tb Htb) i Hi) as (a & Ha & _ & Hs). unfold shown_row, row_key. rewrite Ha. cbn. by rewrite <-Hs. }
  induction (rows_ tb) as [|i l IH]; [done|]. cbn [fmap list_fmap]. specialize (IH (λ j Hj, Hk j (list_elem_of_further j i l Hj))).
  specialize (Hk i (list_elem_of_here i l)). destruct (decide (P (nums_of i))).
  - rewrite !filter_cons_True by (by rewrite ?Hk). cbn. by rewrite IH.
  - rewrite !filter_cons_False by (by rewrite ?Hk). done.
Qed.

Lemma query_rep k : key_typed s k → query d t (blobs k) = Done (it_row <$> filter (λ i, nums_of i = nums k) (rows_ tb)).
Proof using Hd Htb Hsorted.
  intros Hk. destruct (lower_cut k Hk) as (lo & Hlo & L1 & L2), (upper_cut k Hk) as (hi & Hhi & U1 & U2).
  unfold query, table_at. rewrite Htb. cbn [mbind result_bind]. unfold equal_range.
  rewrite (table_keys d A Hd t tb) by by apply (dr_table _ _ Hd). cbn [mbind result_bind]. rewrite Hsorted, Hlo. cbn [mbind result_bind].
  rewrite Hhi. cbn [mbind result_bind]. f_equal.
  rewrite (list_filter_iff _ (λ i, ¬ lex_lt (nums_of i) (nums k) ∧ ¬ lex_lt (nums k) (nums_of i))) by (intros i; symmetry; apply lex_apart).
  rewrite (filter_between _ _ _ lo hi); [|by (eapply Forall_impl; [exact L1|tauto])|done|done|by (eapply Forall_impl; [exact U2|tauto])].
  generalize (hi - lo)%nat. clear. intros n. generalize (rows_ tb). revert lo. induction n as [|n IH]; intros lo l; [done|]. cbn [seq omap list_omap].
  rewrite IH. destruct (l !! lo) as [i|] eqn:Hi; cbn.
  - by rewrite (drop_S l i lo Hi).
  - apply lookup_ge_None in Hi. by rewrite !drop_ge, !take_nil by lia.
Qed.

Lemma query_lt_rep k o : key_typed s k →
  query_lt d t (blobs k) o = Done (in_order o (it_row <$> filter (λ i, lex_lt (nums_of i) (nums k)) (rows_ tb))).
Proof using Hd Htb Hsorted.
  intros Hk. destruct (lower_cut k Hk) as (n & Hn & L1 & L2). unfold query_lt. rewrite sorted_table_rep. cbn [mbind result_bind].
  rewrite sorted_key_rep by done. cbn [mbind result_bind]. rewrite Hn. cbn [mbind result_bind].
  rewrite (list_filter_iff _ (λ i, True ∧ lex_lt (nums_of i) (nums k))) by tauto.
  rewrite (filter_between _ _ _ 0 n); [by rewrite drop_0, Nat.sub_0_r|constructor|by apply Forall_true|done..].
Qed.

Lemma query_gt_rep k o : key_typed s k →
  query_gt d t (blobs k) o = Done (in_order o (it_row <$> filter (λ i, lex_lt (nums k) (nums_of i)) (rows_ tb))).
Proof using Hd Htb Hsorted.
  intros Hk. destruct (upper_cut k Hk) as (n & Hn & U1 & U2). unfold query_gt. rewrite sorted_table_rep. cbn [mbind result_bind].
  rewrite sorted_key_rep by done. cbn [mbind result_bind]. rewrite Hn. cbn [mbind result_bind].
  rewrite (list_filter_iff _ (λ i, lex_lt (nums k) (nums_of i) ∧ True)) by tauto.
  rewrite (filter_between _ _ _ n (length (rows_ tb))); [|done|done|by apply Forall_true|by rewrite drop_all].
  rewrite take_ge; [done|]. rewrite length_drop. lia.
Qed.

Lemma query_in_rep low high o : key_typed s low → key_typed s high → lex_lt (nums low) (nums high) →
  query_in d t (blobs low) (blobs high) o =
    Done (in_order o (it_row <$> filter (λ i, lex_lt (nums low) (nums_of i) ∧ lex_lt (nums_of i) (nums high)) (rows_ tb))).
Proof using Hd Htb Hsorted.
  intros Hl Hh Hlt. destruct (upper_cut low Hl) as (lo & Hlo & U1 & U2), (lower_cut high Hh) as (hi & Hhi & L1 & L2).
  unfold query_in. rewrite sorted_table_rep. cbn [mbind result_bind]. rewrite !sorted_key_rep by done. cbn [mbind result_bind].
  unfold key_lt. rewrite compare_typed by done. cbn [mbind result_bind]. rewrite (proj2 (is_lt_true _ _) Hlt). cbn [verify mbind result_bind].
  rewrite Hlo. cbn [mbind result_bind]. rewrite Hhi. cbn [mbind result_bind]. by rewrite (filter_between _ _ _ lo hi).
Qed.
End queries.

(** Queries of a sorted table are scans.  In any state of a server of optimistic
    transactions, the rows of a sorted table are in the order of their keys, and the
    queries for a key, below a key, above a key and strictly between two keys give
    exactly the rows of the table with such a key, in the order asked for. *)
Theorem queries_scan ts rqs sv replies t s low high o :
  plain_layout ts → allowed_all (new_server ts) rqs = true → Z.of_nat (length rqs) < 2 ^ 64 →
  serve_all (new_server ts) rqs = Done (sv, replies) → ts !! t = Some (TBL_SORTED, s) →
  key_typed s low → key_typed s high → lex_lt (nums low) (nums high) →
  ∃ l, contents (sv_db sv) t = Done l ∧ ordered ((λ r, key_nums s r.2) <$> l) ∧
    query (sv_db sv) t (blobs low) = Done (filter (λ r, key_nums s r.2 = nums low) l).*1 ∧
    query_lt (sv_db sv) t (blobs low) o = Done (in_order o (filter (λ r, lex_lt (key_nums s r.2) (nums low)) l).*1) ∧
    query_gt (sv_db sv) t (blobs low) o = Done (in_order o (filter (λ r, lex_lt (nums low) (key_nums s r.2)) l).*1) ∧
    query_in (sv_db sv) t (blobs low) (blobs high) o =
      Done (in_order o (filter (λ r, lex_lt (nums low) (key_nums s r.2) ∧ lex_lt (key_nums s r.2) (nums high)) l).*1).
Proof.
  intros Hts Hal Hb Hs Ht Hlow Hhigh Hlt.
  destruct (serve_all_keeps_inv ts _ _ _ _ rqs Hts (inv_new ts Hts) Hal) as (sv' & rs & S & A & kn & Hs' & Hi); [done|].
  assert (sv' = sv) as -> by congruence. pose proof (iv_rep _ _ _ _ _ Hi) as Hd.
  destruct (shape_lookup (sv_db sv) ts t _ _ (iv_shape _ _ _ _ _ Hi) Ht) as (tb & Htb & Hrt & <-).
  exists (shown_row A <$> rows_ tb). split_and!.
  - by apply contents_rep.
  - pose proof (table_order _ A t tb Hd Htb Hrt) as Ho. rewrite <-list_fmap_compose. erewrite list_fmap_ext; [exact Ho|].
    intros i x Hx%list_elem_of_lookup_2. destruct (table_items A t tb (dr_table _ _ Hd t tb Htb) x Hx) as (a & Ha & _ & Hsc).
    unfold shown_row, row_key. cbn. rewrite Ha. cbn. by rewrite <-Hsc.
  - rewrite (query_rep _ A t tb) by done. f_equal. symmetry. exact (scan_rep (sv_db sv) A t tb Hd Htb (λ n, n = nums low)).
  - rewrite (query_lt_rep _ A t tb) by done. do 2 f_equal. symmetry. exact (scan_rep (sv_db sv) A t tb Hd Htb (λ n, lex_lt n (nums low))).
  - rewrite (query_gt_rep _ A t tb) by done. do 2 f_equal. symmetry. exact (scan_rep (sv_db sv) A t tb Hd Htb (λ n, lex_lt (nums low) n)).
  - rewrite (query_in_rep _ A t tb) by done. do 2 f_equal. symmetry.
    exact (scan_rep (sv_db sv) A t tb Hd Htb (λ n, lex_lt (nums low) n ∧ lex_lt n (nums high))).
Qed.

Lemma account_key z : 0 ≤ z < 10 → key_typed account_schema [VI32 z].
Proof.
  intros Hz. unfold key_typed. assert (key_cols_id_ account_schema = [0]) as -> by (vm_compute; reflexivity).
  assert (∃ ci, get_column_info account_schema 0 = Done ci ∧ ci_indexed ci = true ∧ ci_type ci = I32) as (ci & Hci & Hx & Hty) by
    (eexists; split; [vm_compute; reflexivity|split; reflexivity]).
  constructor; [|constructor]. exists ci. rewrite Hty. split; [done|]. split; [done|]. split; [by left|]. split; [done|]. cbn. lia.
Qed.

Lemma queries_scan_witness :
  ∃ sv replies l, serve_all (new_server accounts) account_requests = Done (sv, replies) ∧ contents (sv_db sv) 0 = Done l ∧
    query_in (sv_db sv) 0 (blobs [VI32 2]) (blobs [VI32 5]) ORD_DESC =
      Done (in_order ORD_DESC (filter (λ r, lex_lt (nums [VI32 2]) (key_nums account_schema r.2) ∧ lex_lt (key_nums account_schema r.2) (nums [VI32 5])) l).*1).
Proof.
  destruct (serve_all (new_server accounts) account_requests) as [[sv replies]| |] eqn:Hs; [|vm_compute in Hs; discriminate..].
  destruct (queries_scan accounts account_requests sv replies 0 account_schema [VI32 2] [VI32 5] ORD_DESC) as (l & Hl & _ & _ & _ & _ & Hq);
    [apply accounts_plain|vm_compute; reflexivity|vm_compute; reflexivity|exact Hs|reflexivity|apply account_key; lia|apply account_key; lia|reflexivity|].
  exists sv, replies, l. split; [reflexivity|]. split; [exact Hl|exact Hq].
Defined.
