(* ===== verification/OccLimits.v ===== *)
(** * Optimistic transactions: limits

    What the serialisability theorem does not cover: the eager policy, which is the
    default of [TxnOCC] (a server sets the lazy one), the one-phase [commit] beside
    prepared transactions, and tables with string keys. *)

From S2P Require Import Prelude SparseInt RWLock MemRow MemRowSpec MemTable MemTableSpec Occ OccSpec OccInv OccOps OccCommit OccSerial.

(** ** The eager policy *)

Lemma versions_match_fails d l p c n m :
  (p, c, n) ∈ l → get_column_ver d p c = Done m → m ≠ n → versions_match d l ≠ Done true.
Proof.
  intros Hin Hm Hne. induction l as [|[[q e] k] l IH]; [by apply not_elem_of_nil in Hin|]. cbn.
  apply elem_of_cons in Hin as [Heq|Hin].
  - simplify_eq. rewrite Hm. cbn. by rewrite decide_False.
  - destruct (get_column_ver d q e); cbn; [|done..]. case_decide; [auto|done].
Qed.

Lemma incr_column_ver_new p c d d' n :
  get_column_ver d p c = Done n → incr_column_ver p c d = Done d' → get_column_ver d' p c = Done (u64 (n + 1)).
Proof.
  unfold incr_column_ver, get_column_ver, row_at. destruct (db_rows d !! p) as [o|] eqn:Ho; cbn; [|done]. destruct (decide (0 ≤ c)) as [Hc|]; [|done].
  unfold entry. destruct (vr_ver o !! Z.to_nat c) as [m|] eqn:Hm; cbn; [|done]. intros [= <-] [= <-]. cbn. rewrite lookup_insert_eq. cbn.
  rewrite list_lookup_insert_eq; [done|]. by apply lookup_lt_Some in Hm.
Qed.

(** Under the eager policy a transaction that reads a column and then writes it
    never passes the version check, even when it runs alone: the write raises the
    version the read has recorded. *)
Theorem eager_update_refused d x p c x1 v w d2 x2 t n :
  policy_ x = OCC_EAGER → option_map vr_tbl (db_rows d !! p) = Some (Some t) →
  get_column_ver d p c = Done n → 0 ≤ n < 2 ^ 64 →
  find_update p c (updates_ x) = None → ver_check_read_ x !! (p, c) = None →
  occ_read_column d x p c = Done (x1, v) → occ_write_column d x1 p c w = Done (d2, x2) →
  version_check d2 x2 ≠ Done true.
Proof.
  intros Hpol Ht Hn Hn64 Hup Hrd Hr Hw. destruct (db_rows d !! p) as [o|] eqn:Ho; [|done]. injection Ht as Ht.
  unfold occ_read_column, row_at in Hr. rewrite Ho in Hr. destruct (bool_decide (outcome_ x = NONE)) eqn:Hout; [|done].
  cbn [verify mbind result_bind] in Hr. rewrite Ht, Hup, Hn in Hr. cbn [mbind result_bind] in Hr.
  destruct (get_column (vr_row o) c); [|done..]. cbn [mbind result_bind] in Hr. injection Hr as <- <-.
  unfold occ_write_column, row_at in Hw. cbn [outcome_ note_read updates_ policy_] in Hw. rewrite Hout, Ho in Hw. cbn [verify mbind result_bind] in Hw.
  rewrite Ht, Hup, Hpol in Hw. rewrite decide_True in Hw by done. destruct (incr_column_ver p c d) as [d'| |] eqn:Hi; [|done..]. cbn [mbind result_bind] in Hw.
  rewrite (incr_column_ver_new _ _ _ _ _ Hn Hi) in Hw. cbn [mbind result_bind] in Hw. injection Hw as <- <-.
  unfold version_check. cbn [ver_check_read_ set_stage note_write note_read]. unfold insert_absent. rewrite Hrd.
  assert (versions_match d' (map_to_list (<[(p, c) := n]> (ver_check_read_ x))) ≠ Done true) as Hno; [|by destruct (versions_match d' _) as [[]| |]].
  eapply (versions_match_fails _ _ p c n); [|by eapply incr_column_ver_new|].
  - apply elem_of_map_to_list. by rewrite lookup_insert_eq.
  - unfold uwrap. intros Heq. destruct (decide (n + 1 = 2 ^ 64)) as [Hw|]; [|rewrite Z.mod_small in Heq; lia].
    rewrite Hw, Z_mod_same_full in Heq. lia.
Qed.

(** Two accounts, 100 and 200. *)
Definition account_rows : list op := [NewRow 0 10 [VI32 5; VI64 100]; InsertRow 0 10; NewRow 0 11 [VI32 3; VI64 200]; InsertRow 0 11].
Definition account_db : memdb := match unsafe_run (empty_db accounts) account_rows with Done (d, _) => d | _ => empty_db accounts end.

Definition eager_read : TxnOCC := match occ_read_column account_db (TxnOCC_new 7) 10 1 with Done (x, _) => x | _ => TxnOCC_new 7 end.
Definition eager_written : memdb * TxnOCC := match occ_write_column account_db eager_read 10 1 (VI64 90) with Done r => r | _ => (account_db, eager_read) end.

Lemma eager_update_refused_witness : version_check eager_written.1 eager_written.2 ≠ Done true.
Proof.
  apply (eager_update_refused account_db (TxnOCC_new 7) 10 1 eager_read (VI64 100) (VI64 90) eager_written.1 eager_written.2 0 0);
    try (vm_compute; reflexivity). lia.
Defined.

(** Transaction 1 writes both accounts and commits; transaction 2 reads the first one
    before the commit and the second one after it, and commits. *)
Definition half_seen (pol : policy) (d : memdb) : result (list Value * bool) :=
  let x1 := set_policy pol (TxnOCC_new 1) in
  let x2 := set_policy pol (TxnOCC_new 2) in
  '(d, x1) ← occ_write_column d x1 10 1 (VI64 0);
  '(d, x1) ← occ_write_column d x1 11 1 (VI64 300);
  '(x2, a) ← occ_read_column d x2 10 1;
  '(d, x1, ok1) ← commit_prepare d x1;
  _ ← verify ok1;
  '(d, _) ← commit_confirm d x1;
  '(x2, b) ← occ_read_column d x2 11 1;
  '(_, _, ok2) ← commit_prepare d x2;
  Done ([a; b], ok2).

(** The eager policy is not serialisable: a version raised by the write and not by
    the commit lets another transaction read the old value under the new version.  Of a
    transfer between two accounts it sees one half, and its commit is accepted; under
    the lazy policy it is refused.  The transactions run one after the other, in either
    order, show both halves or none. *)
Theorem eager_policy_unserializable :
  half_seen OCC_EAGER account_db = Done ([VI64 100; VI64 300], true) ∧
  half_seen OCC_LAZY account_db = Done ([VI64 100; VI64 300], false) ∧
  snd <$> unsafe_run account_db [WriteColumn 10 1 (VI64 0); WriteColumn 11 1 (VI64 300); ReadColumn 10 1; ReadColumn 11 1] =
    Done [None; None; Some (VI64 0); Some (VI64 300)] ∧
  snd <$> unsafe_run account_db [ReadColumn 10 1; ReadColumn 11 1; WriteColumn 10 1 (VI64 0); WriteColumn 11 1 (VI64 300)] =
    Done [Some (VI64 100); Some (VI64 200); None; None].
Proof. vm_compute. repeat split; reflexivity. Qed.

(** ** Committing in one phase *)

(** Two transactions take 10 from an account; the first is prepared when the second
    commits in one phase. *)
Definition take_ten (d : memdb) (x : TxnOCC) : result (memdb * TxnOCC) :=
  '(x, v) ← occ_read_column d x 10 1;
  occ_write_column d x 10 1 (match v with VI64 z => VI64 (z - 10) | v => v end).

Definition prepared_and_one_phase (d : memdb) : result (bool * bool * Value) :=
  '(d, x1) ← take_ten d (set_policy OCC_LAZY (TxnOCC_new 1));
  '(d, x1, ok1) ← commit_prepare d x1;
  '(d, x2) ← take_ten d (set_policy OCC_LAZY (TxnOCC_new 2));
  '(d, _, ok2) ← occ_commit d x2;
  '(d, _) ← commit_confirm d x1;
  v ← row_get d 10 1;
  Done (ok1, ok2, v).

(** The one-phase [commit] checks versions and takes no lock: beside a prepared
    transaction it is accepted, and the update of one of the two is lost. *)
Theorem one_phase_commit_loses_update : prepared_and_one_phase account_db = Done (true, true, VI64 90).
Proof. vm_compute. reflexivity. Qed.

(** ** String keys *)

Definition name_sops : list schema_op := [AddColumn [107] STR true; AddColumn [118] STR false].
Definition name_schema : Schema := match for_each schema_step name_sops Schema_new with Done s => s | _ => Schema_new end.

Definition rename (v : list Z) : result (memdb * list answer) :=
  unsafe_run (empty_db {[ 0%nat := (TBL_SORTED, name_schema) ]})
    [NewRow 0 10 [VStr [97]; VStr [120; 121]]; InsertRow 0 10; WriteColumn 10 1 (VStr v); ReadColumn 10 1;
     NewRow 0 11 [VStr [98]; VStr []]; InsertRow 0 11].

(** Tables keep keys as pointers into their rows.  Writing a string of another
    length into a column that is not indexed moves the strings of the row out of their
    common block and frees it; the key in the table still points into it, so the next
    operation that compares keys reads freed memory.  A string of the same length is
    written in place and does no harm. *)
Theorem string_key_dangles :
  rename [120; 121; 122] = Crash invalid_access ∧ snd <$> rename [122; 122] = Done [None; None; None; Some (VStr [122; 122]); None; None].
Proof. vm_compute. split; reflexivity. Qed.
