(* ===== verification/OccLocks.v ===== *)
(** * Optimistic transactions: locks are given back

    Every lock on a row is in the list of a running transaction, or the row has left its
    table.  So a transaction whose versions are up to date can be prepared when no other
    one is. *)

From S2P Require Import Prelude SparseInt RWLock MemRow MemRowSpec MemTable MemTableSpec Occ OccSpec OccInv OccOps OccCommit OccSerial.

Definition who (d : memdb) (p : nat) (i : Z) : Prop := ∃ l, lock_at d p = Some l ∧ holds i l.

Definition locks_ok (d : memdb) : Prop := ∀ p l, lock_at d p = Some l → lock_ok l.

Lemma meta_locks_ok N d : meta_ok N d → locks_ok d.
Proof. intros Hm p l Hl. unfold lock_at in Hl. destruct (db_rows d !! p) as [o|] eqn:Ho; [|done]. cbn in Hl. simplify_eq. by destruct (Hm p o Ho). Qed.

(** ** Operations leave locks alone *)

Lemma lock_at_put_row d p o q : lock_at (put_row p o d) q = if decide (p = q) then Some (vr_lock o) else lock_at d q.
Proof. unfold lock_at. cbn. case_decide; subst; [by rewrite lookup_insert_eq|by rewrite lookup_insert_ne]. Qed.
Lemma lock_at_put_table d t tb q : lock_at (put_table t tb d) q = lock_at d q.
Proof. done. Qed.
Lemma lock_at_row d p o : row_at d p = Done o → lock_at d p = Some (vr_lock o).
Proof. unfold row_at, lock_at. destruct (db_rows d !! p); [|done]. by intros [= ->]. Qed.

Definition same_locks (d d' : memdb) : Prop := ∀ q, lock_at d' q = lock_at d q.

Lemma same_locks_put d p o o' : row_at d p = Done o → vr_lock o' = vr_lock o → same_locks d (put_row p o' d).
Proof. intros Ho Hl q. rewrite lock_at_put_row. case_decide; [subst; by rewrite (lock_at_row d q o Ho), Hl|done]. Qed.

Lemma table_insert_locks t p d d' : table_insert t p d = Done d' → same_locks d d'.
Proof.
  unfold table_insert. intros H. done_inv H. simplify_eq. intros q. rewrite lock_at_put_table. by eapply same_locks_put.
Qed.

Lemma table_remove_locks t p d d' : table_remove t p d = Done d' → same_locks d d'.
Proof.
  unfold table_remove. intros H. done_inv H. destruct (find_row _ _ _) as [[? ?]|]; [|by simplify_eq]. done_inv H. simplify_eq.
  intros q. rewrite lock_at_put_table. by eapply same_locks_put.
Qed.

Lemma row_update_locks p c v d d' : row_update p c v d = Done d' → same_locks d d'.
Proof.
  unfold row_update. intros H. done_inv H. destruct r0 as [r0 told].
  assert (Done (put_row p (mkVRow r0 (vr_tbl r) (vr_lock r) (vr_ver r)) d) = Done d' → same_locks d d') as Hput.
  { intros [= <-]. by eapply same_locks_put. }
  destruct told; [auto|]. destruct (vr_tbl r); [|auto]. apply bind_Done in H as (d1 & Hr1 & H). apply bind_Done in H as (o & Hr2 & H). apply table_insert_locks in H. apply table_remove_locks in Hr1.
  intros q. rewrite H, lock_at_put_row. case_decide; [subst; cbn; by rewrite <-(Hr1 q), (lock_at_row _ q _ Hr2)|apply Hr1].
Qed.

Lemma incr_column_ver_locks p c d d' : incr_column_ver p c d = Done d' → same_locks d d'.
Proof. unfold incr_column_ver. intros H. done_inv H. simplify_eq. by eapply same_locks_put. Qed.

Lemma note_row_locks p cols d x d' x' : note_row p cols d x = Done (d', x') → same_locks d d' ∧ locks_ x' = locks_ x.
Proof.
  unfold note_row. revert d x. induction cols as [|c cols IH]; intros d x H; cbn in H; [by simplify_eq|].
  apply bind_Done in H as ([d1 x1] & H1 & H). apply bind_Done in H1 as (d2 & H2 & H1). apply bind_Done in H1 as (ver & _ & H1). simplify_eq.
  apply IH in H as [H3 H4]. split; [|by rewrite H4]. case_decide; [|by simplify_eq]. apply incr_column_ver_locks in H2. intros q. by rewrite H3, H2.
Qed.

(** An operation adds no holder, and its transaction keeps its list. *)
Lemma occ_op_locks d x o d' x' a :
  occ_op d x o = Done (d', x', a) → (∀ p i, who d' p i → who d p i) ∧ locks_ x' = locks_ x.
Proof.
  assert (∀ d d', same_locks d d' → ∀ p i, who d' p i → who d p i) as Hs by (intros d1 d2 Hs p i (l & Hl & Hh); exists l; by rewrite <-Hs).
  destruct o as [t p values|p c|p c v|t p|t p]; cbn; intros H.
  - apply bind_Done in H as (d1 & H1 & H). simplify_eq. split; [|done]. unfold new_row, create_versioned in H1. done_inv H1. simplify_eq.
    intros q i (l & Hl & Hh). rewrite lock_at_put_row in Hl. case_decide; [|by exists l]. cbn in Hl. simplify_eq. destruct Hh as [[? _]|Hh]; [done|]. by apply not_elem_of_empty in Hh.
  - apply bind_Done in H as ([x1 v] & H1 & H). simplify_eq. split; [done|]. unfold occ_read_column in H1. done_inv H1. repeat case_match; done_inv H1; by simplify_eq.
  - apply bind_Done in H as ([d1 x1] & H1 & H). simplify_eq. unfold occ_write_column in H1. apply bind_Done in H1 as (_ & _ & H1). apply bind_Done in H1 as (o & _ & H1).
    destruct (vr_tbl o); [destruct (find_update p c (updates_ x))|].
    + by simplify_eq.
    + apply bind_Done in H1 as (d2 & H2 & H1). apply bind_Done in H1 as (ver & _ & H1). simplify_eq. split; [|done]. apply Hs.
      case_decide; [by eapply incr_column_ver_locks|by simplify_eq].
    + apply bind_Done in H1 as (d2 & H2 & H1). simplify_eq. split; [|done]. apply Hs. by eapply row_update_locks.
  - apply bind_Done in H as (x1 & H1 & H). simplify_eq. split; [done|]. unfold occ_insert_row in H1. done_inv H1. by simplify_eq.
  - apply bind_Done in H as ([d1 x1] & H1 & H). simplify_eq. unfold occ_remove_row in H1. apply bind_Done in H1 as (_ & _ & H1).
    apply bind_Done in H1 as (at_ & _ & H1). apply bind_Done in H1 as ([d2 x2] & H2 & H1). simplify_eq. destruct at_; [by simplify_eq|].
    apply bind_Done in H2 as (o & _ & H2). apply bind_Done in H2 as ([d3 x3] & H3 & H2). simplify_eq. apply note_row_locks in H3 as [H3 H4].
    split; [by apply Hs|done].
Qed.

(** ** Locking and unlocking *)

Lemma unlock_all_who id l d d' :
  locks_ok d → Occ.unlock_all id l d = Done d' → locks_ok d' ∧ ∀ p i, who d' p i → who d p i ∧ (i = id → p ∉ l).
Proof.
  unfold Occ.unlock_all. revert d. induction l as [|q l IH]; intros d Hok H; cbn in H.
  { simplify_eq. split; [done|]. intros p i Hw. split; [done|]. intros _. apply not_elem_of_nil. }
  apply bind_Done in H as (d1 & H1 & H). apply bind_Done in H1 as ([d2 b] & H1 & Heq). simplify_eq. unfold unlock_row_by, with_lock in H1.
  apply bind_Done in H1 as (o & Ho & H1). destruct (unlock_by id (vr_lock o)) as [lk b'] eqn:Hu. simplify_eq.
  pose proof (lock_at_row _ _ _ Ho) as Hq. destruct (unlock_by_others id (vr_lock o) (Hok _ _ Hq)) as (U1 & U2 & U3). rewrite Hu in U1, U2, U3. cbn in U1, U2, U3.
  set (d1 := put_row q _ d) in *.
  assert (∀ p i, who d1 p i → who d p i ∧ (i = id → p ≠ q)) as Hone.
  { intros p i (l1 & Hl & Hh). unfold d1 in Hl. rewrite lock_at_put_row in Hl. case_decide; [|split; [by exists l1|done]]. subst q. cbn in Hl. simplify_eq.
    destruct (decide (i = id)) as [->|Hne]; [done|]. split; [|done]. exists (vr_lock o). split; [done|]. by apply (U3 i Hne). }
  destruct (IH d1) as [Hok' Hw]; [|done|].
  { intros p l1. unfold d1. rewrite lock_at_put_row. case_decide; [intros [= <-]; done|apply Hok]. }
  split; [done|]. intros p i Hp. destruct (Hw p i Hp) as [Hp1 Hn1]. destruct (Hone p i Hp1) as [Hp2 Hn2]. split; [done|].
  intros Hi. rewrite elem_of_cons. intros [?|?]; [by apply Hn2|by apply Hn1].
Qed.

Section locking.
Context (id : Z) (f : RWLock → RWLock * bool).
Context (Hf : ∀ l l', lock_ok l → f l = (l', true) → lock_ok l' ∧ ∀ i, i ≠ id → holds i l' → holds i l).
Context (Hf' : ∀ l l', f l = (l', false) → l' = l).

Lemma with_lock_who p d d' b :
  locks_ok d → with_lock f p d = Done (d', b) →
  locks_ok d' ∧ (∀ q i, who d' q i → who d q i ∨ (q = p ∧ i = id ∧ b = true)) ∧ ∃ l, lock_at d p = Some l ∧ (f l).2 = b.
Proof using Hf Hf'.
  intros Hok H. unfold with_lock in H. apply bind_Done in H as (o & Ho & H). destruct (f (vr_lock o)) as [lk b'] eqn:Hfo. simplify_eq.
  pose proof (lock_at_row _ _ _ Ho) as Hp. split_and!; [| |exists (vr_lock o); by rewrite Hfo].
  - intros q l. rewrite lock_at_put_row. case_decide; [|apply Hok]. intros [= <-]. cbn.
    destruct b; [by apply (Hf _ _ (Hok _ _ Hp))|]. rewrite (Hf' _ _ Hfo). by apply (Hok p).
  - intros q i (l & Hl & Hh). rewrite lock_at_put_row in Hl. case_decide; [|left; by exists l]. subst q. cbn in Hl. simplify_eq.
    destruct b; [|left; rewrite (Hf' _ _ Hfo) in Hh; by exists (vr_lock o)].
    destruct (decide (i = id)) as [->|Hne]; [by right|]. left. exists (vr_lock o). split; [done|]. by apply (Hf _ _ (Hok _ _ Hp) Hfo).
Qed.

Lemma lock_rows_who l d x d' x' b :
  locks_ok d → txnid_ x = id → lock_rows (with_lock f) l d x = Done (d', x', b) →
  locks_ok d' ∧ (∀ p i, i ≠ id → who d' p i → who d p i) ∧ (∀ p, who d' p id → p ∈ locks_ x' ∨ (who d p id ∧ p ∉ locks_ x)) ∧
  (b = false → locks_ x' = []) ∧ x' = set_locks (locks_ x') x.
Proof using Hf Hf'.
  revert d x. induction l as [|q l IH]; intros d x Hok Hid H; cbn in H.
  { simplify_eq. split_and!; [done|done| |done|by destruct x']. intros p Hp. destruct (decide (p ∈ locks_ x')); auto. }
  apply bind_Done in H as ([d1 b1] & H1 & H). destruct (with_lock_who q d d1 b1 Hok H1) as (Hok1 & Hw & _). destruct b1.
  - destruct (IH _ (set_locks (q :: locks_ x) x) Hok1 Hid H) as (Hok' & W1 & W2 & W3 & W4). cbn in W2. split_and!; [done| | |done|by rewrite W4].
    + intros p i Hi Hp. destruct (Hw p i (W1 p i Hi Hp)) as [?|(_ & ? & _)]; done.
    + intros p Hp. destruct (W2 p Hp) as [?|[Hp1 Hn]]; [by left|right]. rewrite elem_of_cons in Hn. destruct (Hw p id Hp1) as [?|(-> & _ & _)]; tauto.
  - apply bind_Done in H as (d2 & H2 & H). simplify_eq. destruct (unlock_all_who _ _ _ _ Hok1 H2) as [Hok' Hu]. split_and!; [done| | |done|done].
    + intros p i Hi Hp. destruct (Hw p i (proj1 (Hu p i Hp))) as [?|(_ & ? & _)]; done.
    + intros p Hp. destruct (Hu p _ Hp) as [Hp1 Hn]. right. split; [|by apply Hn]. destruct (Hw p _ Hp1) as [?|(_ & _ & ?)]; done.
Qed.

Context (Hfree : ∀ l, lock_ok l → (∀ i, holds i l → i = id) → (f l).2 = true).

Lemma lock_rows_free l d x d' x' b :
  locks_ok d → (∀ p i, p ∈ l → who d p i → i = id) → lock_rows (with_lock f) l d x = Done (d', x', b) → b = true.
Proof using Hf Hf' Hfree.
  revert d x. induction l as [|q l IH]; intros d x Hok Hl H; cbn in H; [by simplify_eq|].
  apply bind_Done in H as ([d1 b1] & H1 & H). destruct (with_lock_who q d d1 b1 Hok H1) as (Hok1 & Hw & (lk & Hlk & Hb)).
  rewrite Hfree in Hb; [subst b1| by eapply Hok|intros i Hi; apply (Hl q i); [by left|by exists lk]].
  apply (IH _ _ Hok1) in H; [done|]. intros p i Hp Hwp. destruct (Hw p i Hwp) as [?|(_ & ? & _)]; [|done]. apply (Hl p i); [by right|done].
Qed.
End locking.

Lemma rlock_others id l l' : lock_ok l → rlock_by id l = (l', true) → lock_ok l' ∧ ∀ i, i ≠ id → holds i l' → holds i l.
Proof. intros Hok Hl. destruct (rlock_by_true id l l' Hok Hl) as (H1 & _ & H2 & _). split; [done|]. intros i Hi. by apply H2. Qed.
Lemma wlock_others id l l' : lock_ok l → wlock_by id l = (l', true) → lock_ok l' ∧ ∀ i, i ≠ id → holds i l' → holds i l.
Proof.
  intros Hok Hl. destruct (wlock_by_true id l l' Hok Hl) as (H1 & H2 & _). split; [done|]. intros i Hi Hh. by destruct Hi, (writer_alone id i l' H1 H2 Hh).
Qed.
Lemma rlock_free id l : lock_ok l → (∀ i, holds i l → i = id) → (rlock_by id l).2 = true.
Proof.
  intros Hok Hl. unfold rlock_by. destruct (wlocked_ l) eqn:Hw; [|done]. apply bool_decide_eq_true. symmetry. apply Hl. by left.
Qed.
Lemma wlock_free id l : lock_ok l → (∀ i, holds i l → i = id) → (wlock_by id l).2 = true.
Proof.
  intros Hok Hl. unfold wlock_by. destruct (wlocked_ l) eqn:Hw; [apply bool_decide_eq_true; symmetry; apply Hl; by left|].
  destruct (decide (r_ l = ∅)) as [|Hne]; [done|]. rewrite decide_True; [done|]. apply size_one_alone.
  apply set_choose_L in Hne as [y Hy]. apply set_eq. intros z. rewrite elem_of_singleton. split; [intros Hz; apply Hl; by right|].
  intros ->. by rewrite <-(Hl y (or_intror Hy)).
Qed.

Section prepare.
Context (d : memdb) (x : TxnOCC) (d' : memdb) (x' : TxnOCC) (b : bool).
Context (Hok : locks_ok d) (Hids : locks_ x = []) (H : commit_prepare d x = Done (d', x', b)).

Lemma prepare_who :
  (∀ p i, i ≠ txnid_ x → who d' p i → who d p i) ∧ (∀ p, who d' p (txnid_ x) → p ∈ locks_ x' ∨ who d p (txnid_ x)) ∧
  verified_ x' = b ∧ (b = false → locks_ x' = []).
Proof using Hok Hids H.
  unfold commit_prepare in H. apply bind_Done in H as (_ & _ & H1). apply bind_Done in H1 as (u & Hv & H1). apply verify_Done, negb_true_iff in Hv.
  apply bind_Done in H1 as (ok & _ & H1). destruct ok; cbn [negb] in H1; [|simplify_eq; split_and!; auto].
  apply bind_Done in H1 as ([[d1 x1] b1] & Hr & H1).
  destruct (lock_rows_who _ _ (rlock_others _) (rlock_by_false _) _ _ _ _ _ _ Hok eq_refl Hr) as (Hok1 & R1 & R2 & R3 & R4).
  assert (∀ p, who d1 p (txnid_ x) → p ∈ locks_ x1 ∨ who d p (txnid_ x)) as R2' by (intros p Hp; destruct (R2 p Hp) as [?|[? _]]; auto).
  assert (txnid_ x1 = txnid_ x ∧ verified_ x1 = false) as [Hid1 Hv1] by (rewrite R4; done).
  destruct b1; cbn [negb] in H1; [|simplify_eq; split_and!; auto].
  apply bind_Done in H1 as ([[d2 x2] b2] & Hw & H1).
  destruct (lock_rows_who _ _ (wlock_others _) (wlock_by_false _) _ _ _ _ _ _ Hok1 eq_refl Hw) as (Hok2 & W1 & W2 & W3 & W4). rewrite Hid1 in W1, W2.
  assert (∀ p i, i ≠ txnid_ x → who d2 p i → who d p i) as W1' by auto.
  assert (∀ p, who d2 p (txnid_ x) → p ∈ locks_ x2 ∨ who d p (txnid_ x)) as W2'.
  { intros p Hp. destruct (W2 p Hp) as [?|[Hp1 Hn]]; [auto|]. destruct (R2' p Hp1); [done|auto]. }
  assert (verified_ x2 = false) as Hv2 by (rewrite W4; done).
  destruct b2; cbn [negb] in H1; simplify_eq; split_and!; auto.
Qed.

Lemma prepare_free :
  version_check d x = Done true →
  (∀ p i, (∃ c, tracked x p c) → who d p i → i = txnid_ x) → b = true.
Proof using Hok H.
  intros Hvc Hfree. unfold commit_prepare in H. apply bind_Done in H as (_ & _ & H1). apply bind_Done in H1 as (u & _ & H1).
  rewrite Hvc in H1. cbn [mbind result_bind negb] in H1. apply bind_Done in H1 as ([[d1 x1] b1] & Hr & H1).
  assert (b1 = true) as ->.
  { eapply (lock_rows_free _ _ (rlock_others _) (rlock_by_false _) (rlock_free _)); [exact Hok| |exact Hr].
    intros p i Hp. apply rows_of_elem in Hp as [c Hc]. apply Hfree. exists c. by left. }
  cbn [negb] in H1. apply bind_Done in H1 as ([[d2 x2] b2] & Hw & H1).
  destruct (lock_rows_who _ _ (rlock_others _) (rlock_by_false _) _ _ _ _ _ _ Hok eq_refl Hr) as (Hok1 & R1 & _ & _ & R4).
  assert (b2 = true) as ->; [|cbn in H1; congruence].
  assert (txnid_ x1 = txnid_ x ∧ ver_check_write_ x1 = ver_check_write_ x) as [Hid1 Hw1] by (rewrite R4; done).
  eapply (lock_rows_free _ _ (wlock_others _) (wlock_by_false _) (wlock_free _)); [exact Hok1| |exact Hw].
  intros p i Hp Hwp. rewrite Hid1. destruct (decide (i = txnid_ x)) as [|Hne]; [done|]. rewrite Hw1 in Hp. apply rows_of_elem in Hp as [c Hc].
  apply (Hfree p); [exists c; by right|auto].
Qed.
End prepare.

(** ** The invariant *)

(** A row that has left its table for good. *)
Definition unlinked (d : memdb) (p : nat) : Prop := ∃ o, db_rows d !! p = Some o ∧ vr_tbl o = None.
Definition stuck (sv : server) (p : nat) : Prop := unlinked (sv_db sv) p ∧ ∀ tid, p ∉ created (log_of tid sv).

Record locks_tracked (sv : server) : Prop := {
  lt_held p i : who (sv_db sv) p i → p ∈ locks_ (get_mdb_txn i sv) ∨ stuck sv p;
  lt_idle i : verified_ (get_mdb_txn i sv) = false → locks_ (get_mdb_txn i sv) = [];
}.

Lemma unlinked_rep d A p : db_rep d A → unlinked d p ↔ ∃ a, A !! p = Some a ∧ ar_tbl a = None.
Proof.
  intros Hd. split.
  - intros (o & Ho & Ht). destruct (dr_row _ _ Hd p o Ho) as (a & Ha & Hr). exists a. split; [done|]. by rewrite <-(or_tbl _ _ Hr).
  - intros (a & Ha & Ht). destruct (dr_addr _ _ Hd p a Ha) as (o & Ho & Hr). exists o. split; [done|]. by rewrite (or_tbl _ _ Hr).
Qed.

Lemma locks_tracked_new ts : locks_tracked (new_server ts).
Proof. split; [|done]. intros p i (l & Hl & _). unfold lock_at in Hl. cbn in Hl. done. Qed.

Section steps.
Context (ts : layout) (sv : server) (S A : astore) (kn : knowledge) (Hts : plain_layout ts) (Hi : inv ts sv S A kn) (Hk : locks_tracked sv).

Lemma op_keeps_locks tid o sv' r : allowed sv (Op tid o) = true → serve sv (Op tid o) = Done (sv', r) → locks_tracked sv'.
Proof using Hts Hi Hk.
  intros Hal Hs. apply andb_true_iff in Hal as [Hnv Hal]. apply negb_true_iff in Hnv. pose proof (iv_txn _ _ _ _ _ Hi tid) as [Hx Hid _].
  destruct (occ_op_ok ts _ (sv_db sv) A _ _ _ _ (iv_rep _ _ _ _ _ Hi) (iv_shape _ _ _ _ _ Hi) (iv_meta _ _ _ _ _ Hi) Hx o Hts ltac:(lia) Hal)
    as (d' & x' & a & A' & K' & R' & Hop & Hd' & _ & _ & Hx' & Hq & _ & _ & Hv').
  cbn [serve] in Hs. rewrite Hop in Hs. cbn [mbind result_bind] in Hs. simplify_eq. destruct (occ_op_locks _ _ _ _ _ _ Hop) as [Hw Hlx].
  set (L := log_of tid sv) in *. set (L' := L ++ [(o, a)]) in *. split.
  - cbn [sv_db]. intros p i Hp. destruct (lt_held _ Hk p i (Hw p i Hp)) as [Hin|[Hun Hno]]; [left|right].
    + rewrite get_mdb_txn_set. case_decide; [subst; by rewrite Hlx|done].
    + apply (unlinked_rep _ A p (iv_rep _ _ _ _ _ Hi)) in Hun as (b & Hb & Hbt).
      assert (p ∉ created L') as HnL by (intros HL; destruct (qt_new _ _ _ _ _ _ Hq p HL) as [HL1|?]; [by apply (Hno tid)|congruence]).
      split; [apply (unlinked_rep _ A' p Hd'); exists b; by rewrite (qt_store _ _ _ _ _ _ Hq)|].
      intros t. rewrite log_of_set. case_decide; [done|apply Hno].
  - intros i. rewrite get_mdb_txn_set. case_decide; [subst; intros _; rewrite Hlx|]; by apply (lt_idle _ Hk).
Qed.

(** Locks alone change neither the tables of rows nor the histories. *)
Lemma stuck_locks_only id d' m dn p : locks_only id (sv_db sv) d' → stuck sv p → stuck (mkServer d' m (sv_log sv) dn) p.
Proof.
  intros Hlo [(o & Ho & Ht) Hno]. split; [|done]. destruct (lo_row _ _ _ Hlo p o Ho) as (o' & Ho' & _ & Ht' & _). exists o'. cbn. split; [done|congruence].
Qed.

Lemma prepare_keeps_locks tid sv' r : allowed sv (Prepare tid) = true → serve sv (Prepare tid) = Done (sv', r) → locks_tracked sv'.
Proof using Hi Hk.
  intros Hal Hs. cbn in Hal. apply negb_true_iff in Hal. pose proof (iv_txn _ _ _ _ _ Hi tid) as [Hx Hid _].
  destruct (prepare_ok ts _ (sv_db sv) A _ _ _ _ (iv_rep _ _ _ _ _ Hi) (iv_meta _ _ _ _ _ Hi) Hx Hal) as (d' & x' & b & Hop & Hlo & _).
  cbn [serve] in Hs. rewrite Hop in Hs. cbn [mbind result_bind] in Hs. simplify_eq.
  destruct (prepare_who _ _ _ _ _ (meta_locks_ok _ _ (iv_meta _ _ _ _ _ Hi)) (lt_idle _ Hk tid Hal) Hop) as (W1 & W2 & W3 & W4). rewrite Hid in W1, W2.
  assert (∀ p, stuck sv p → stuck (mkServer d' (<[tid:=x']> (mdb_txns_ sv)) (sv_log sv) (sv_done sv)) p) as Hst by (intros p; by eapply stuck_locks_only).
  split.
  - cbn [sv_db]. intros p i Hp. rewrite get_mdb_txn_set. destruct (decide (i = tid)) as [->|Hne].
    + destruct (W2 p Hp) as [?|Hp1]; [by left|]. destruct (lt_held _ Hk p tid Hp1) as [Hin|?]; [|by right; apply Hst].
      rewrite (lt_idle _ Hk tid Hal) in Hin. by apply not_elem_of_nil in Hin.
    + destruct (lt_held _ Hk p i (W1 p i Hne Hp)) as [?|?]; [by left|by right; apply Hst].
  - intros i. rewrite get_mdb_txn_set. case_decide; [|apply (lt_idle _ Hk)]. rewrite W3. apply W4.
Qed.

(** A finished transaction holds nothing but locks of rows that have left their table. *)
Lemma finish_keeps_locks tid d' dn :
  (∀ p i, who d' p i → who (sv_db sv) p i) → (∀ p, stuck sv p → unlinked d' p) →
  (∀ p, p ∈ locks_ (get_mdb_txn tid sv) → who d' p tid → unlinked d' p ∧ ∀ t, t ≠ tid → p ∉ created (log_of t sv)) →
  locks_tracked (mkServer d' (delete tid (mdb_txns_ sv)) (delete tid (sv_log sv)) dn).
Proof using Hk.
  intros Hw Hst Hown.
  assert (∀ p, (∀ t, t ≠ tid → p ∉ created (log_of t sv)) → ∀ t, p ∉ created (log_of t (mkServer d' (delete tid (mdb_txns_ sv)) (delete tid (sv_log sv)) dn))) as Hlog.
  { intros p Hno t. rewrite log_of_delete. case_decide; [apply not_elem_of_nil|by apply Hno]. }
  split.
  - cbn [sv_db]. intros p i Hp. rewrite get_mdb_txn_delete. destruct (lt_held _ Hk p i (Hw p i Hp)) as [Hin|Hs].
    + destruct (decide (i = tid)) as [->|]; [|by left]. right. destruct (Hown p Hin Hp). split; [done|auto].
    + right. split; [by apply Hst|]. apply Hlog. intros t _. by apply Hs.
  - intros i. rewrite get_mdb_txn_delete. case_decide; [done|apply (lt_idle _ Hk)].
Qed.

Lemma abort_keeps_locks tid sv' r : is_Some (mdb_txns_ sv !! tid) → serve sv (Abort tid) = Done (sv', r) → locks_tracked sv'.
Proof using Hi Hk.
  intros Hrun Hs. pose proof (iv_txn _ _ _ _ _ Hi tid) as [Hx Hid _]. cbn [serve] in Hs. rewrite del_mdb_txn_running in Hs by done.
  cbn [mbind result_bind] in Hs. apply bind_Done in Hs as ([d' x'] & Hop & Hs). simplify_eq.
  destruct (abort_ok ts (sv_db sv) A _ _ _ _ (iv_rep _ _ _ _ _ Hi) Hx) as (d2 & x2 & Hop2 & Hlo). assert (d2 = d') as -> by congruence. clear Hop2.
  unfold occ_abort, release_resource in Hop. apply bind_Done in Hop as (_ & _ & Hop). apply bind_Done in Hop as (d1 & Hun & Hop). simplify_eq.
  cbn [txnid_ locks_ set_outcome] in Hun. rewrite Hid in Hun.
  destruct (unlock_all_who _ _ _ _ (meta_locks_ok _ _ (iv_meta _ _ _ _ _ Hi)) Hun) as [_ Hu]. apply finish_keeps_locks.
  - intros p i Hp. by apply Hu.
  - intros p Hst. by apply (stuck_locks_only _ d' ∅ [] p Hlo) in Hst as [? _].
  - intros p Hin Hp. destruct (Hu p tid Hp) as [_ Hn]. by destruct (Hn eq_refl).
Qed.

Lemma commit_keeps_locks tid sv' r :
  verified_ (get_mdb_txn tid sv) = true → Z.of_nat (length (sv_done sv)) + 1 < 2 ^ 64 → serve sv (Commit tid) = Done (sv', r) → locks_tracked sv'.
Proof using Hi Hk.
  intros Hv Hb Hs. pose proof (iv_txn _ _ _ _ _ Hi tid) as [Hx Hid Hprep]. destruct (Hprep Hv) as (Hal & _).
  destruct (confirm_ok ts _ (sv_db sv) A _ _ _ _ (iv_rep _ _ _ _ _ Hi) (iv_shape _ _ _ _ _ Hi) (iv_meta _ _ _ _ _ Hi) ltac:(lia) Hb Hx Hal Hv)
    as (d' & x' & d3 & Hop & Hd' & _ & Hm3 & Hr & _ & Hun). rewrite Hid in Hun.
  cbn [serve] in Hs. rewrite del_mdb_txn_running in Hs by by apply verified_running. cbn [mbind result_bind] in Hs. rewrite Hop in Hs.
  cbn [mbind result_bind] in Hs. simplify_eq. destruct (unlock_all_who _ _ _ _ (meta_locks_ok _ _ Hm3) Hun) as [_ Hu].
  assert (∀ p, gone (get_mdb_txn tid sv) p → unlinked d' p) as Hgone.
  { intros p Hg. destruct (committed_gone ts (sv_db sv) A _ _ _ _ Hx Hal p Hg) as (b & Hb' & Hbt). apply (unlinked_rep _ _ p Hd'). eauto. }
  apply finish_keeps_locks.
  - intros p i Hp. destruct (Hu p i Hp) as [(l & Hl & Hh) _]. exists l. by rewrite <-(raised_lock _ _ _ p Hr).
  - intros p [Hul Hno]. destruct (decide (p ∈ (removes_ (get_mdb_txn tid sv)).*2)) as [Hg|Hg]; [by apply Hgone|].
    apply (unlinked_rep _ A p (iv_rep _ _ _ _ _ Hi)) in Hul as (b & Hb' & Hbt). apply (unlinked_rep _ _ p Hd').
    rewrite (committed_other ts (sv_db sv) A _ _ _ _ Hx p (Hno tid) Hg), Hb'. by eexists.
  - intros p Hin Hp. destruct (Hu p tid Hp) as [_ Hn]. assert (gone (get_mdb_txn tid sv) p) as Hg.
    { unfold gone. apply dec_stable. intros Hg. apply (Hn eq_refl). apply list_elem_of_filter. by split. }
    split; [by apply Hgone|]. intros t _. destruct (gone_tracked _ _ _ _ _ _ _ p Hx Hg) as (HK & _). by eapply known_not_own.
Qed.
End steps.

(** ** Runs *)

Lemma serve_all_tracks ts sv S A kn rqs sv' rs :
  plain_layout ts → inv ts sv S A kn → locks_tracked sv → allowed_all sv rqs = true → Z.of_nat (length (sv_done sv) + length rqs) < 2 ^ 64 →
  serve_all sv rqs = Done (sv', rs) → ∃ S' A' kn', inv ts sv' S' A' kn' ∧ locks_tracked sv'.
Proof.
  intros Hts. revert sv S A kn rs. induction rqs as [|rq rqs IH]; intros sv S A kn rs Hi Hk Hal Hb Hs; cbn in Hs; [simplify_eq; eauto|].
  cbn in Hal. apply andb_true_iff in Hal as [Hal Hrest]. cbn [length] in Hb.
  destruct (serve_keeps_inv ts sv S A kn rq Hts Hi Hal) as (sv1 & r & S1 & A1 & kn1 & Hs1 & Hi1 & Hlen); [lia|]. rewrite Hs1 in Hrest, Hs.
  cbn [mbind result_bind] in Hs. apply bind_Done in Hs as ([sv2 rs'] & Hs & Heq). simplify_eq.
  eapply (IH sv1); [exact Hi1| |done|lia|done]. destruct rq as [tid o|tid|tid|tid].
  - by eapply (op_keeps_locks ts sv S A kn Hts Hi Hk).
  - by eapply (prepare_keeps_locks ts sv S A kn Hi Hk).
  - eapply (commit_keeps_locks ts sv S A kn Hi Hk); [done|lia|done].
  - cbn in Hal. apply bool_decide_eq_true in Hal. by eapply (abort_keeps_locks ts sv S A kn Hi Hk).
Qed.

(** The row is in a table. *)
Definition in_table (d : memdb) (p : nat) : Prop := ∃ o t, db_rows d !! p = Some o ∧ vr_tbl o = Some t.

(** A row in a table is locked by prepared transactions only. *)
Lemma holder_prepared sv p i : locks_tracked sv → in_table (sv_db sv) p → who (sv_db sv) p i → verified_ (get_mdb_txn i sv) = true.
Proof.
  intros Hk (o & t & Ho & Ht) Hw. destruct (verified_ (get_mdb_txn i sv)) eqn:Hv; [done|]. destruct (lt_held _ Hk p i Hw) as [Hin|[(o' & Ho' & Ht') _]].
  - rewrite (lt_idle _ Hk i Hv) in Hin. by apply not_elem_of_nil in Hin.
  - congruence.
Qed.

Lemma no_holder_unlocked l : (∀ i, ¬ holds i l) → is_wlocked l = false ∧ is_rlocked l = false.
Proof.
  intros Hl. unfold is_wlocked, is_rlocked. split; [destruct (wlocked_ l) eqn:Hw; [|done]; destruct (Hl (w_ l)); by left|].
  apply bool_decide_eq_false. intros Hne. apply set_choose_L in Hne as [i Hir]. apply (Hl i). by right.
Qed.

(** C8: locks are given back and hold nobody up in vain.  After any run, when no
    transaction is prepared every row of every table is unlocked; and a transaction whose
    recorded versions are current is prepared successfully when no other transaction is
    prepared. *)
Theorem occ_prepare_succeeds ts rqs sv replies tid :
  plain_layout ts → allowed_all (new_server ts) rqs = true → Z.of_nat (length rqs) < 2 ^ 64 →
  serve_all (new_server ts) rqs = Done (sv, replies) →
  (∀ i, i ≠ tid → verified_ (get_mdb_txn i sv) = false) → verified_ (get_mdb_txn tid sv) = false →
  (∀ p o t, db_rows (sv_db sv) !! p = Some o → vr_tbl o = Some t → is_wlocked (vr_lock o) = false ∧ is_rlocked (vr_lock o) = false) ∧
  (version_check (sv_db sv) (get_mdb_txn tid sv) = Done true → ∃ sv', serve sv (Prepare tid) = Done (sv', Prepared true)).
Proof.
  intros Hts Hal Hb Hs Hoth Htid.
  destruct (serve_all_tracks ts _ _ _ _ rqs sv replies Hts (inv_new ts Hts) (locks_tracked_new ts) Hal Hb Hs) as (S & A & kn & Hi & Hk).
  assert (∀ p, in_table (sv_db sv) p → ∀ i, ¬ who (sv_db sv) p i) as Hfree.
  { intros p Hp i Hw. pose proof (holder_prepared sv p i Hk Hp Hw) as Hv. destruct (decide (i = tid)) as [->|Hne]; [|rewrite Hoth in Hv by done]; congruence. }
  split.
  - intros p o t Ho Ht. apply no_holder_unlocked. intros i Hh. apply (Hfree p) with i; [by exists o, t|]. exists (vr_lock o). unfold lock_at. by rewrite Ho.
  - intros Hvc. pose proof (iv_txn _ _ _ _ _ Hi tid) as [Hx Hid _].
    destruct (prepare_ok ts _ (sv_db sv) A _ _ _ _ (iv_rep _ _ _ _ _ Hi) (iv_meta _ _ _ _ _ Hi) Hx Htid) as (d' & x' & b & Hop & _).
    cbn [serve]. rewrite Hop. cbn [mbind result_bind].
    assert (b = true) as ->; [|eauto]. eapply (prepare_free _ _ _ _ _ (meta_locks_ok _ _ (iv_meta _ _ _ _ _ Hi)) Hop Hvc).
    intros p i [c Hc] Hw. exfalso. destruct (version_check_ok _ _ _ _ _ _ _ Hx) as (b' & Hvc' & Halive).
    assert (b' = true) as -> by congruence. destruct (sg_track _ _ _ _ _ _ _ Hx p c Hc) as (HK & _).
    destruct (alive_table _ _ _ _ _ _ _ p Hx (Halive eq_refl) HK) as (a & t & Ha & Ht & _).
    destruct (dr_addr _ _ (iv_rep _ _ _ _ _ Hi) p a Ha) as (o & Ho & Hr). apply (Hfree p) with i; [|done]. exists o, t. split; [done|]. by rewrite (or_tbl _ _ Hr).
Qed.

(** Transaction 3 of the example, refused while 2 was prepared, tries again alone. *)
Definition retry_requests : list request :=
  take 16 account_requests ++ [Op 5 (ReadColumn 10 1); Op 5 (WriteColumn 10 1 (VI64 95)); Op 5 (RemoveRow 0 11)].

Lemma occ_prepare_succeeds_witness :
  ∃ sv replies sv', serve_all (new_server accounts) retry_requests = Done (sv, replies) ∧ serve sv (Prepare 5) = Done (sv', Prepared true).
Proof.
  destruct (serve_all (new_server accounts) retry_requests) as [[sv replies]| |] eqn:Hs; [|vm_compute in Hs; discriminate..].
  assert (mdb_txns_ sv = {[5 := get_mdb_txn 5 sv]} ∧ verified_ (get_mdb_txn 5 sv) = false ∧ version_check (sv_db sv) (get_mdb_txn 5 sv) = Done true) as (Hm & Hv & Hvc).
  { vm_compute in Hs. injection Hs as <- _. vm_compute. split_and!; reflexivity. }
  destruct (occ_prepare_succeeds accounts retry_requests sv replies 5) as [_ Hp];
    [apply accounts_plain|vm_compute; reflexivity|vm_compute; reflexivity|exact Hs| |exact Hv|].
  - intros i Hne. unfold get_mdb_txn. rewrite Hm, lookup_singleton_ne by done. reflexivity.
  - destruct (Hp Hvc) as [sv' Hsv']. exists sv, replies, sv'. split; [reflexivity|exact Hsv'].
Defined.
