(* ===== verification/OccQuery.v ===== *)
(** * Queries of a transaction

    Models [MergedCursor] and the queries [do_query], [do_query_lt], [do_query_gt],
    [do_query_in] and [do_all] of src/rococo-dst/memdb/txn.cc: the rows of the table
    without those the transaction removes, merged with those it inserts.

    A cursor of the table is the list of the rows it has still to give; so is the range
    of staged rows, reversed for a descending query.  Addresses are compared as
    numbers. *)

From S2P Require Import Prelude SparseInt RWLock MemRow MemRowSpec MemTable MemTableSpec Occ OccSpec OccInv OccOps OccCommit OccSerial MemQuery.

(** ** Bounds in the staged rows *)

(** What a range of staged rows is searched with: [ROW_MIN], a [KeyOnlySearchRow] and
    [ROW_MAX]. *)
Inductive search_row := ROW_MIN | KeyOnlySearchRow (k : key) | ROW_MAX.

(** [Row::compare] of a row with a search row *)
Definition compare_key (d : memdb) (q : nat) (s : Schema) (k : key) : result comparison :=
  o ← row_at d q;
  _ ← verify (bool_decide (schema_ (vr_row o) = s));
  mine ← get_key (vr_row o);
  other ← sorted_key s k;
  compare s mine other.

(** [table_row_pair::operator <] between a staged row and a search row *)
Definition pair_before (d : memdb) (t : nat) (s : Schema) (r : search_row) (a : nat * nat) : result bool :=
  if decide (a.1 ≠ t) then Done (bool_decide (a.1 < t)%nat)
  else match r with
    | ROW_MIN => Done false
    | ROW_MAX => Done true
    | KeyOnlySearchRow k => c ← compare_key d a.2 s k; Done (is_lt c)
    end.
Definition pair_after (d : memdb) (t : nat) (s : Schema) (r : search_row) (a : nat * nat) : result bool :=
  if decide (a.1 ≠ t) then Done (bool_decide (t < a.1)%nat)
  else match r with
    | ROW_MIN => Done true
    | ROW_MAX => Done false
    | KeyOnlySearchRow k => c ← compare_key d a.2 s k; Done (is_lt (CompOpp c))
    end.

(** How many staged rows are in front of a position. *)
Fixpoint count_while {B} (f : B → result bool) (l : list B) : result nat :=
  match l with [] => Done 0%nat | a :: l => b ← f a; if b : bool then n ← count_while f l; Done (S n) else Done 0%nat end.

Definition staged_lower_bound (d : memdb) (t : nat) (s : Schema) (r : search_row) (l : list (nat * nat)) : result nat :=
  count_while (pair_before d t s r) l.
Definition staged_upper_bound (d : memdb) (t : nat) (s : Schema) (r : search_row) (l : list (nat * nat)) : result nat :=
  count_while (λ a, b ← pair_after d t s r a; Done (negb b)) l.

(** ** Merging *)

Record MergedCursor := mkCursor {
  mc_tbl : nat;
  cursor_ : list nat;
  inserts_next_ : list nat;
  mc_removes : list (nat * nat);
  cached_ : bool;
  cached_next_ : option nat;
  next_candidate_ : option nat;
}.

Definition MergedCursor_new (t : nat) (cursor inserts : list nat) (removes : list (nat * nat)) : MergedCursor :=
  mkCursor t cursor inserts removes false None None.

(** The loop of [prefetch_next]: the next row of the table that is not removed. *)
Fixpoint next_row (t : nat) (removes : list (nat * nat)) (cand : option nat) (cursor : list nat) : option nat * list nat :=
  match cand, cursor with
  | None, p :: cursor => next_row t removes (if decide ((t, p) ∈ removes) then None else Some p) cursor
  | _, _ => (cand, cursor)
  end.

(** [MergedCursor::prefetch_next] *)
Definition prefetch_next (m : MergedCursor) : result (MergedCursor * bool) :=
  _ ← verify (negb (cached_ m));
  let '(cand, cursor) := next_row (mc_tbl m) (mc_removes m) (next_candidate_ m) (cursor_ m) in
  let m' := match cand, inserts_next_ m with
    | None, [] => mkCursor (mc_tbl m) cursor [] (mc_removes m) false (cached_next_ m) None
    | None, q :: ins => mkCursor (mc_tbl m) cursor ins (mc_removes m) true (Some q) None
    | Some p, [] => mkCursor (mc_tbl m) cursor [] (mc_removes m) true (Some p) None
    | Some p, q :: ins =>
        if decide (p < q)%nat then mkCursor (mc_tbl m) cursor (q :: ins) (mc_removes m) true (Some p) None
        else mkCursor (mc_tbl m) cursor ins (mc_removes m) true (Some q) (Some p)
    end in
  Done (m', cached_ m').

Definition has_next (m : MergedCursor) : result (MergedCursor * bool) :=
  if cached_ m then Done (m, true) else prefetch_next m.

Definition next (m : MergedCursor) : result (MergedCursor * option nat) :=
  m ← (if cached_ m then Done m else '(m, b) ← prefetch_next m; _ ← verify b; Done m);
  Done (mkCursor (mc_tbl m) (cursor_ m) (inserts_next_ m) (mc_removes m) false (cached_next_ m) (next_candidate_ m), cached_next_ m).

(** The loop of a client: all rows of a cursor. *)
Fixpoint drain (fuel : nat) (m : MergedCursor) : result (list nat) :=
  match fuel with
  | 0%nat => Spin
  | S fuel =>
      '(m, more) ← has_next m;
      if more : bool then
        '(m, r) ← next m;
        l ← drain fuel m;
        Done (match r with Some p => p :: l | None => l end)
      else Done []
  end.

(** ** The queries *)

Definition range {B} (lo hi : nat) (l : list B) : list B := take (hi - lo) (drop lo l).

Definition merged (x : TxnOCC) (t : nat) (o : order) (rows : list nat) (lo hi : nat) : MergedCursor :=
  MergedCursor_new t rows (in_order o (range lo hi (inserts_ x)).*2) (removes_ x).

(** [Txn2PL::do_query] *)
Definition do_query (d : memdb) (x : TxnOCC) (t : nat) (k : key) : result MergedCursor :=
  tb ← table_at d t;
  lo ← staged_lower_bound d t (tb_schema tb) (KeyOnlySearchRow k) (inserts_ x);
  hi ← staged_upper_bound d t (tb_schema tb) (KeyOnlySearchRow k) (inserts_ x);
  rows ← query d t k;
  Done (merged x t ORD_ANY rows lo hi).

(** [Txn2PL::do_query_lt] *)
Definition do_query_lt (d : memdb) (x : TxnOCC) (t : nat) (k : key) (o : order) : result MergedCursor :=
  tb ← table_at d t;
  rows ← query_lt d t k o;
  lo ← staged_lower_bound d t (tb_schema tb) ROW_MIN (inserts_ x);
  hi ← staged_lower_bound d t (tb_schema tb) (KeyOnlySearchRow k) (inserts_ x);
  Done (merged x t o rows lo hi).

(** [Txn2PL::do_query_gt] *)
Definition do_query_gt (d : memdb) (x : TxnOCC) (t : nat) (k : key) (o : order) : result MergedCursor :=
  tb ← table_at d t;
  rows ← query_gt d t k o;
  lo ← staged_upper_bound d t (tb_schema tb) (KeyOnlySearchRow k) (inserts_ x);
  hi ← staged_upper_bound d t (tb_schema tb) ROW_MAX (inserts_ x);
  Done (merged x t o rows lo hi).

(** [Txn2PL::do_query_in] *)
Definition do_query_in (d : memdb) (x : TxnOCC) (t : nat) (low high : key) (o : order) : result MergedCursor :=
  tb ← table_at d t;
  rows ← query_in d t low high o;
  lo ← staged_upper_bound d t (tb_schema tb) (KeyOnlySearchRow low) (inserts_ x);
  hi ← staged_lower_bound d t (tb_schema tb) (KeyOnlySearchRow high) (inserts_ x);
  Done (merged x t o rows lo hi).

(** [Txn2PL::do_all] *)
Definition do_all (d : memdb) (x : TxnOCC) (t : nat) (o : order) : result MergedCursor :=
  tb ← table_at d t;
  _ ← verify (bool_decide (rtti tb = TBL_SORTED) || match o with ORD_ANY => true | _ => false end);
  rows ← all d t o;
  lo ← staged_lower_bound d t (tb_schema tb) ROW_MIN (inserts_ x);
  hi ← staged_upper_bound d t (tb_schema tb) ROW_MAX (inserts_ x);
  Done (merged x t o rows lo hi).

(** The rows a cursor gives. *)
Definition all_rows (m : MergedCursor) : result (list nat) := drain (S (length (cursor_ m) + length (inserts_next_ m))) m.

(** ** What a merged cursor gives *)

(** Both lists in their order, one mixed into the other. *)
Inductive interleaved : list nat → list nat → list nat → Prop :=
  | il_nil : interleaved [] [] []
  | il_left p l1 l2 l : interleaved l1 l2 l → interleaved (p :: l1) l2 (p :: l)
  | il_right p l1 l2 l : interleaved l1 l2 l → interleaved l1 (p :: l2) (p :: l).

Lemma interleaved_perm l1 l2 l : interleaved l1 l2 l → l ≡ₚ l1 ++ l2.
Proof. induction 1 as [|p l1 l2 l _ IH|p l1 l2 l _ IH]; [done|by rewrite IH|]. by rewrite IH, Permutation_middle. Qed.

Definition kept (t : nat) (removes : list (nat * nat)) (l : list nat) : list nat := filter (λ p, (t, p) ∉ removes) l.

Lemma next_row_spec t removes cand cursor :
  let '(cand', cursor') := next_row t removes cand cursor in
  option_list cand' ++ kept t removes cursor' = option_list cand ++ kept t removes cursor ∧ (length cursor' ≤ length cursor)%nat ∧
  (cand' = None → cursor' = []) ∧ (length (option_list cand') + length cursor' ≤ length (option_list cand) + length cursor)%nat.
Proof.
  revert cand. induction cursor as [|p l IH]; intros [q|]; cbn [next_row]; [done..|by split_and!|].
  specialize (IH (if decide ((t, p) ∈ removes) then None else Some p)). destruct (next_row _ _ _ l) as [cand' cursor'].
  destruct IH as (H1 & H2 & H3 & H4). unfold kept in *. split_and!; [|cbn; lia|done|].
  - rewrite H1. rewrite filter_cons. destruct (decide ((t, p) ∈ removes)); [by rewrite decide_False by tauto|by rewrite decide_True].
  - case_decide; cbn in *; lia.
Qed.

(** The rows a cursor has still to give, from the table and from the staged ones. *)
Definition from_table (m : MergedCursor) : list nat := option_list (next_candidate_ m) ++ kept (mc_tbl m) (mc_removes m) (cursor_ m).
Definition left_over (m : MergedCursor) : nat := (length (option_list (next_candidate_ m)) + length (cursor_ m) + length (inserts_next_ m))%nat.

Lemma prefetch_spec m :
  cached_ m = false →
  ∃ m', prefetch_next m = Done (m', cached_ m') ∧
    (if cached_ m' then ∃ p, cached_next_ m' = Some p ∧ (left_over m' < left_over m)%nat ∧
        ((from_table m = p :: from_table m' ∧ inserts_next_ m = inserts_next_ m') ∨ (from_table m = from_table m' ∧ inserts_next_ m = p :: inserts_next_ m'))
      else from_table m = [] ∧ inserts_next_ m = []).
Proof.
  intros Hc. unfold prefetch_next. rewrite Hc. cbn [negb verify mbind result_bind]. unfold from_table at 1 3 5, left_over at 2.
  pose proof (next_row_spec (mc_tbl m) (mc_removes m) (next_candidate_ m) (cursor_ m)) as Hn.
  destruct (next_row _ _ _ _) as [cand cursor]. destruct Hn as (H1 & H2 & H3 & H4). eexists. split; [done|]. rewrite <-H1.
  destruct cand as [p|], (inserts_next_ m) as [|q ins]; cbn in H4 |- *.
  - exists p. split_and!; [done|unfold left_over; cbn; lia|by left].
  - case_decide; cbn.
    + exists p. split_and!; [done|unfold left_over; cbn; lia|by left].
    + exists q. split_and!; [done|unfold left_over; cbn; lia|by right].
  - specialize (H3 eq_refl). subst. done.
  - exists q. split_and!; [done|unfold left_over; cbn; lia|by right].
Qed.

Lemma drain_spec fuel m :
  cached_ m = false → (left_over m < fuel)%nat → ∃ l, drain fuel m = Done l ∧ interleaved (from_table m) (inserts_next_ m) l.
Proof.
  revert m. induction fuel as [|fuel IH]; intros m Hc Hf; [lia|]. cbn. unfold has_next. rewrite Hc.
  destruct (prefetch_spec m Hc) as (m' & -> & Hm'). cbn [mbind result_bind]. destruct (cached_ m') eqn:Hc'.
  - destruct Hm' as (p & Hp & Hlt & Hrows). unfold next. rewrite Hc'. cbn [mbind result_bind]. rewrite Hp.
    destruct (IH (mkCursor (mc_tbl m') (cursor_ m') (inserts_next_ m') (mc_removes m') false (cached_next_ m') (next_candidate_ m'))) as (l & Hl & Hi); [done|unfold left_over in *; cbn; lia|].
    rewrite Hp in Hl. cbn [mbind result_bind]. rewrite Hl. cbn [mbind result_bind]. exists (p :: l). split; [done|].
    change (interleaved (from_table m') (inserts_next_ m') l) in Hi. destruct Hrows as [[-> ->]|[-> ->]]; by constructor.
  - destruct Hm' as [-> ->]. exists []. split; [done|constructor].
Qed.

Lemma all_rows_spec t rows ins removes :
  ∃ l, all_rows (MergedCursor_new t rows ins removes) = Done l ∧ interleaved (kept t removes rows) ins l.
Proof. unfold all_rows. by apply (drain_spec _ (MergedCursor_new t rows ins removes)); [|unfold left_over; cbn; lia]. Qed.

(** ** The order of the staged rows *)

(** The key of a row, as numbers; tables come before keys, with room between them. *)
Definition row_nums (d : memdb) (p : nat) : list Z :=
  match db_rows d !! p with
  | Some o => match row_values o with Done vs => key_nums (schema_ (vr_row o)) vs | _ => [] end
  | None => []
  end.
Definition stage_key (d : memdb) (a : nat * nat) : list Z := 2 * Z.of_nat a.1 :: row_nums d a.2.

Lemma row_nums_rep d A p a : db_rep d A → A !! p = Some a → row_nums d p = key_nums (ar_schema a) (ar_vals a).
Proof.
  intros Hd Ha. destruct (dr_addr _ _ Hd p a Ha) as (o & Ho & Hr). unfold row_nums. by rewrite Ho, (row_values_rep o a Hr), (or_schema _ _ Hr).
Qed.

Lemma row_nums_same d d' A A' p a : db_rep d A → db_rep d' A' → A !! p = Some a → A' !! p = Some a → row_nums d' p = row_nums d p.
Proof. intros Hd Hd' Ha Ha'. by rewrite (row_nums_rep d A p a), (row_nums_rep d' A' p a). Qed.

Lemma lex_tables t t' x y : t ≠ t' → is_lt (lex (2 * Z.of_nat t :: x) (2 * Z.of_nat t' :: y)) = bool_decide (t < t')%nat.
Proof. intros Hne. cbn [lex]. destruct (Z.compare_spec (2 * Z.of_nat t) (2 * Z.of_nat t')); [lia|..]; symmetry; [apply bool_decide_eq_true|apply bool_decide_eq_false]; lia. Qed.
Lemma lex_table t x y : lex (2 * Z.of_nat t :: x) (2 * Z.of_nat t :: y) = lex x y.
Proof. cbn [lex]. by rewrite Z.compare_refl. Qed.

Lemma multiset_insert_elems d e l l' : multiset_insert d e l = Done l' → l' ≡ₚ e :: l.
Proof.
  revert l'. induction l as [|b l IH]; intros l' H; cbn in H; [by simplify_eq|]. apply bind_Done in H as ([|] & _ & H); [by simplify_eq|].
  apply bind_Done in H as (l1 & H & Heq). simplify_eq. rewrite (IH l1 H). apply Permutation_swap.
Qed.

Section ordered.
Context (ts : layout) (d : memdb) (A : astore) (Hd : db_rep d A).

Lemma pair_lt_stage e1 e2 : fits ts A e1 → fits ts A e2 → pair_lt d e1 e2 = Done (is_lt (lex (stage_key d e1) (stage_key d e2))).
Proof using Hd.
  intros (a1 & k1 & Ha1 & Ht1) (a2 & k2 & Ha2 & Ht2). unfold pair_lt, row_lt, stage_key. destruct (decide (e1.1 = e2.1)) as [Heq|Hne]; [|by rewrite lex_tables].
  rewrite Heq, lex_table. destruct (decide (e1.2 = e2.2)) as [->|]; [by rewrite lex_refl|]. rewrite Heq in Ht1. simplify_eq.
  rewrite (row_nums_rep d A e1.2 a1), (row_nums_rep d A e2.2 a2) by done.
  destruct (db_row_at d A Hd _ a1 Ha1) as (o1 & -> & _ & R1), (db_row_at d A Hd _ a2 Ha2) as (o2 & -> & _ & R2). cbn [mbind result_bind].
  rewrite (or_schema _ _ R1), (or_schema _ _ R2), bool_decide_eq_true_2 by congruence. cbn [verify mbind result_bind]. rewrite (obj_key _ _ R1), (obj_key _ _ R2). cbn [mbind result_bind].
  unfold key_lt, key_blobs. pose proof (obj_key_typed _ _ R1) as K1. pose proof (obj_key_typed _ _ R2) as K2.
  replace (ar_schema a2) with (ar_schema a1) in * by congruence. by rewrite compare_typed.
Qed.

Lemma multiset_insert_at e l l' :
  fits ts A e → Forall (fits ts A) l → multiset_insert d e l = Done l' →
  ∃ n, (n ≤ length l)%nat ∧ l' = take n l ++ e :: drop n l ∧
    (∀ i x, (i < n)%nat → (stage_key d <$> l) !! i = Some x → lex_le x (stage_key d e)) ∧ (∀ x, (stage_key d <$> l) !! n = Some x → lex_lt (stage_key d e) x).
Proof using Hd.
  intros He Hl. revert l'. induction Hl as [|e1 l H1 _ IH]; intros l' H; cbn in H.
  - simplify_eq. exists 0%nat. split_and!; [done..|lia|done].
  - rewrite (pair_lt_stage e e1 He H1) in H. cbn [mbind result_bind] in H. destruct (is_lt (lex (stage_key d e) (stage_key d e1))) eqn:Hlt.
    + simplify_eq. exists 0%nat. split_and!; [lia|done|lia|]. intros x [= <-]. by apply is_lt_true.
    + apply bind_Done in H as (l1 & H & Heq). simplify_eq. destruct (IH l1 H) as (n & Hn & -> & Hlo & Hhi). exists (S n). split_and!; [cbn; lia|done| |done].
      intros [|i] x Hi Hx; [|by apply (Hlo i); [lia|]]. cbn in Hx. simplify_eq. apply lex_not_lt. intros Hc%is_lt_true. congruence.
Qed.

Lemma multiset_insert_ordered e l l' :
  fits ts A e → Forall (fits ts A) l → ordered (stage_key d <$> l) → multiset_insert d e l = Done l' → ordered (stage_key d <$> l').
Proof using Hd.
  intros He Hl Ho H. destruct (multiset_insert_at e l l' He Hl H) as (n & Hn & -> & Hlo & Hhi). rewrite fmap_insert_at. apply ordered_insert; [done|by rewrite length_fmap|done..].
Qed.
End ordered.

Lemma ordered_nil : ordered [].
Proof. intros i j x y _ Hx. by rewrite lookup_nil in Hx. Qed.

Definition stages_sorted (sv : server) : Prop := ∀ tid, ordered (stage_key (sv_db sv) <$> inserts_ (get_mdb_txn tid sv)).

Lemma ordered_keys d d' l : (∀ e, e ∈ l → row_nums d' e.2 = row_nums d e.2) → ordered (stage_key d <$> l) → ordered (stage_key d' <$> l).
Proof.
  intros Hk Ho. erewrite list_fmap_ext; [exact Ho|]. intros i e He%list_elem_of_lookup_2. unfold stage_key. by rewrite Hk.
Qed.

(** *** Operations *)

Lemma occ_op_inserts d x o d' x' a :
  occ_op d x o = Done (d', x', a) →
  inserts_ x' = inserts_ x ∨ (∃ t p, o = InsertRow t p ∧ d' = d ∧ multiset_insert d (t, p) (inserts_ x) = Done (inserts_ x')) ∨
  ∃ i, inserts_ x' = delete i (inserts_ x).
Proof.
  destruct o as [t p values|p c|p c v|t p|t p]; cbn; intros H.
  - apply bind_Done in H as (d1 & H1 & H). simplify_eq. by left.
  - apply bind_Done in H as ([x1 v] & H1 & H). simplify_eq. unfold occ_read_column in H1. left. done_inv H1. repeat case_match; done_inv H1; by simplify_eq.
  - apply bind_Done in H as ([d1 x1] & H1 & H). simplify_eq. unfold occ_write_column in H1. apply bind_Done in H1 as (_ & _ & H1). apply bind_Done in H1 as (o & _ & H1).
    left. destruct (vr_tbl o); [destruct (find_update p c (updates_ x))|].
    + by simplify_eq.
    + apply bind_Done in H1 as (d2 & H2 & H1). apply bind_Done in H1 as (ver & _ & H1). by simplify_eq.
    + apply bind_Done in H1 as (d2 & H2 & H1). by simplify_eq.
  - apply bind_Done in H as (x1 & H1 & H). simplify_eq. right. left. exists t, p. unfold occ_insert_row in H1. do 3 apply bind_Done in H1 as (? & _ & H1).
    apply bind_Done in H1 as (l & H1 & H2). by simplify_eq.
  - apply bind_Done in H as ([d1 x1] & H1 & H). simplify_eq. unfold occ_remove_row in H1. apply bind_Done in H1 as (_ & _ & H1).
    apply bind_Done in H1 as (at_ & _ & H1). apply bind_Done in H1 as ([d2 x2] & H2 & H1). simplify_eq. destruct at_ as [i|]; [simplify_eq; right; right; by exists i|].
    left. apply bind_Done in H2 as (o & _ & H2). apply bind_Done in H2 as ([d3 x3] & H3 & H2). simplify_eq. cbn. clear -H3. unfold note_row in H3.
    revert d x H3. induction (column_ids (schema_ (vr_row o))) as [|c cols IH]; intros d x H; cbn in H; [by simplify_eq|].
    apply bind_Done in H as ([d1 x1] & H1 & H). apply bind_Done in H1 as (d2' & _ & H1). apply bind_Done in H1 as (ver & _ & H1). simplify_eq. by rewrite (IH _ _ H).
Qed.

Lemma lock_rows_inserts lock l d x d' x' b : lock_rows lock l d x = Done (d', x', b) → inserts_ x' = inserts_ x.
Proof.
  revert d x. induction l as [|p l IH]; intros d x H; cbn in H; [by simplify_eq|]. apply bind_Done in H as ([d1 [|]] & _ & H); [by apply IH in H|].
  apply bind_Done in H as (d2 & _ & H). by simplify_eq.
Qed.

Lemma prepare_inserts d x d' x' b : commit_prepare d x = Done (d', x', b) → inserts_ x' = inserts_ x.
Proof.
  unfold commit_prepare. intros H. apply bind_Done in H as (_ & _ & H). apply bind_Done in H as (_ & _ & H). apply bind_Done in H as ([|] & _ & H); cbn in H; [|by simplify_eq].
  apply bind_Done in H as ([[d1 x1] [|]] & H1 & H); apply lock_rows_inserts in H1; cbn in H; [|by simplify_eq].
  apply bind_Done in H as ([[d2 x2] [|]] & H2 & H); apply lock_rows_inserts in H2; cbn in H; simplify_eq; cbn; congruence.
Qed.

Section steps.
Context (ts : layout) (sv : server) (S A : astore) (kn : knowledge) (Hts : plain_layout ts) (Hi : inv ts sv S A kn) (Hs : stages_sorted sv).

(** A staged row is a row its transaction has created. *)
Lemma staged_created tid e : e ∈ inserts_ (get_mdb_txn tid sv) → e.2 ∈ created (log_of tid sv) ∧ ∃ a, A !! e.2 = Some a.
Proof using Hi.
  destruct e as [t p]. intros Hin. destruct (sg_inserts _ _ _ _ _ _ _ (tx_stage _ _ _ _ _ _ _ (iv_txn _ _ _ _ _ Hi tid)) t p Hin) as (Hp & a & k & Ha & _). eauto.
Qed.

(** An operation leaves the keys of the rows its transaction has staged. *)
Lemma op_own_keys tid o d' x' a e :
  allowed_op (sv_db sv) (get_mdb_txn tid sv) (log_of tid sv) o = true → occ_op (sv_db sv) (get_mdb_txn tid sv) o = Done (d', x', a) →
  e ∈ inserts_ (get_mdb_txn tid sv) → row_nums d' e.2 = row_nums (sv_db sv) e.2.
Proof using Hts Hi.
  intros Hal Hop He. pose proof (iv_txn _ _ _ _ _ Hi tid) as [Hx Hid _]. destruct (staged_created tid e He) as (Hcr & b & Hb).
  pose proof (iv_rep _ _ _ _ _ Hi) as Hd. destruct o as [t p values|p c|p c v|t p|t p].
  - cbn in Hop. unfold new_row, create_versioned in Hop. apply bind_Done in Hop as (d1 & Hop & Heq). simplify_eq.
    apply bind_Done in Hop as (tb & _ & Hop). apply bind_Done in Hop as (r & _ & Hop). simplify_eq. unfold row_nums. cbn.
    cbn in Hal. destruct (db_tables (sv_db sv) !! t); [|done]. apply andb_true_iff in Hal as [Hal _]. apply andb_true_iff in Hal as [Hal _].
    apply bool_decide_eq_true in Hal. apply (db_rep_dom _ _ _ Hd) in Hal. rewrite lookup_insert_ne; [done|]. intros ->. congruence.
  - cbn in Hop. apply bind_Done in Hop as ([x1 v1] & _ & Hop). by simplify_eq.
  - cbn in Hal. unfold on_row in Hal. destruct (db_rows (sv_db sv) !! p) as [o|] eqn:Ho; [|done]. apply andb_true_iff in Hal as [Hal Hkey].
    apply andb_true_iff in Hal as [Hal Hck]. apply andb_true_iff in Hal as [Hal Hvo]. apply andb_true_iff in Hal as [_ Hvis].
    apply bool_decide_eq_true in Hck. apply value_okb_ok in Hvo.
    destruct (visible_row _ _ A Hd (iv_meta _ _ _ _ _ Hi) p o c Ho Hvis) as (a1 & m & u & Ha1 & Hr & Hc & _ & Hu & _ & Hck').
    cbn in Hop. unfold occ_write_column, row_at in Hop. rewrite (sg_outcome _ _ _ _ _ _ _ Hx), bool_decide_eq_true_2, Ho in Hop by done.
    cbn in Hop. rewrite (or_tbl _ _ Hr), (sg_policy _ _ _ _ _ _ _ Hx) in Hop.
    destruct (ar_tbl a1) as [t1|] eqn:Ht1.
    { destruct (find_update p c _); [by simplify_eq/=|]. rewrite decide_False in Hop by done. cbn in Hop.
      destruct (get_column_ver (sv_db sv) p c); cbn in Hop; [by simplify_eq|done..]. }
    destruct (row_update_rep _ A p a1 c v u Hd Ha1 Hc Hu Hvo) as (d2 & Hup & Hd2 & _); [congruence|]. rewrite Hup in Hop. cbn in Hop. simplify_eq.
    destruct (decide (e.2 = p)) as [Hep|Hep].
    + rewrite (row_nums_rep _ _ e.2 (with_value c v a1) Hd2) by (rewrite Hep; by rewrite lookup_insert_eq). rewrite Hep, (row_nums_rep _ A p a1 Hd Ha1). cbn.
      unfold key_nums. rewrite key_values_insert; [done|done| |].
      * intros Hin. rewrite (or_schema _ _ Hr) in Hkey. rewrite !bool_decide_eq_true_2 in Hkey; [done|done|]. rewrite <-Hep. by apply (list_elem_of_fmap_2 snd _ e).
      * intros k Hk. by apply (so_keys _ (proj1 (or_plain _ _ Hr))).
    + by rewrite (row_nums_same _ d' A _ e.2 b Hd Hd2 Hb) by by rewrite lookup_insert_ne.
  - cbn in Hop. apply bind_Done in Hop as (x1 & _ & Hop). by simplify_eq.
  - destruct (remove_row_ok ts _ (sv_db sv) A _ _ _ _ Hd (iv_shape _ _ _ _ _ Hi) (iv_meta _ _ _ _ _ Hi) Hx t p Hal) as (x2 & K' & Hop2 & _).
    assert (d' = sv_db sv) as -> by congruence. done.
Qed.

Lemma op_keeps_sorted tid o sv' r : allowed sv (Op tid o) = true → serve sv (Op tid o) = Done (sv', r) → stages_sorted sv'.
Proof using Hts Hi Hs.
  intros Hal Hsv. apply andb_true_iff in Hal as [Hnv Hal]. pose proof (iv_txn _ _ _ _ _ Hi tid) as [Hx Hid _]. pose proof (iv_rep _ _ _ _ _ Hi) as Hd.
  destruct (occ_op_ok ts _ (sv_db sv) A _ _ _ _ Hd (iv_shape _ _ _ _ _ Hi) (iv_meta _ _ _ _ _ Hi) Hx o Hts ltac:(lia) Hal)
    as (d' & x' & a & A' & K' & R' & Hop & Hd' & _ & _ & Hx' & Hq & _).
  cbn [serve] in Hsv. rewrite Hop in Hsv. cbn [mbind result_bind] in Hsv. injection Hsv as <- _. intros t. rewrite get_mdb_txn_set. cbn [sv_db].
  destruct (decide (t = tid)) as [->|Hne].
  - assert (ordered (stage_key d' <$> inserts_ (get_mdb_txn tid sv))) as Ho by (eapply ordered_keys; [|apply Hs]; intros e He; by eapply op_own_keys).
    destruct (occ_op_inserts _ _ _ _ _ _ Hop) as [->|[(t & p & -> & -> & Hin)|[i ->]]]; [done| |].
    + assert (Forall (fits ts A') (inserts_ x')) as Hf by by eapply inserts_fit. rewrite (multiset_insert_elems _ _ _ _ Hin) in Hf.
      apply Forall_cons in Hf as [Hf1 Hf2]. by eapply (multiset_insert_ordered ts _ A').
    + rewrite list_fmap_delete. by apply ordered_delete.
  - eapply ordered_keys; [|apply Hs]. intros e He. destruct (staged_created t e He) as (Hcr & b & Hb). eapply (row_nums_same _ d' A A'); [done..|].
    rewrite (qt_store _ _ _ _ _ _ Hq); [done|]. intros Hp. destruct (qt_new _ _ _ _ _ _ Hq _ Hp) as [Hp'|]; [|congruence].
    apply Hne. symmetry. by apply (iv_own _ _ _ _ _ Hi t _ Hcr).
Qed.
(** Locks are no part of a key. *)
Lemma locks_only_nums id d' p : locks_only id (sv_db sv) d' → row_nums d' p = row_nums (sv_db sv) p.
Proof.
  intros Hlo. unfold row_nums. destruct (db_rows (sv_db sv) !! p) as [o|] eqn:Ho; [|by rewrite (lo_none _ _ _ Hlo)].
  destruct (lo_row _ _ _ Hlo p o Ho) as (o' & -> & Hr & _). unfold row_values. by rewrite Hr.
Qed.

Lemma prepare_keeps_sorted tid sv' r : allowed sv (Prepare tid) = true → serve sv (Prepare tid) = Done (sv', r) → stages_sorted sv'.
Proof using Hi Hs.
  intros Hal Hsv. cbn in Hal. apply negb_true_iff in Hal. pose proof (iv_txn _ _ _ _ _ Hi tid) as [Hx _ _].
  destruct (prepare_ok ts _ (sv_db sv) A _ _ _ _ (iv_rep _ _ _ _ _ Hi) (iv_meta _ _ _ _ _ Hi) Hx Hal) as (d' & x' & b & Hop & Hlo & _).
  cbn [serve] in Hsv. rewrite Hop in Hsv. cbn [mbind result_bind] in Hsv. injection Hsv as <- _. intros t. cbn [sv_db].
  assert (inserts_ (get_mdb_txn t (mkServer d' (<[tid := x']> (mdb_txns_ sv)) (sv_log sv) (sv_done sv))) = inserts_ (get_mdb_txn t sv)) as ->.
  { rewrite get_mdb_txn_set. case_decide; [subst|done]. by eapply prepare_inserts. }
  eapply ordered_keys; [|apply Hs]. intros e _. by eapply locks_only_nums.
Qed.

Lemma abort_keeps_sorted tid sv' r : is_Some (mdb_txns_ sv !! tid) → serve sv (Abort tid) = Done (sv', r) → stages_sorted sv'.
Proof using Hi Hs.
  intros Hrun Hsv. pose proof (iv_txn _ _ _ _ _ Hi tid) as [Hx _ _].
  destruct (abort_ok ts (sv_db sv) A _ _ _ _ (iv_rep _ _ _ _ _ Hi) Hx) as (d' & x' & Hop & Hlo).
  cbn [serve] in Hsv. rewrite del_mdb_txn_running in Hsv by done. cbn [mbind result_bind] in Hsv. rewrite Hop in Hsv. cbn [mbind result_bind] in Hsv. injection Hsv as <- _.
  intros t. rewrite get_mdb_txn_delete. cbn [sv_db]. case_decide; [exact ordered_nil|].
  eapply ordered_keys; [|apply Hs]. intros e _. by eapply locks_only_nums.
Qed.

Lemma commit_keeps_sorted tid sv' r :
  verified_ (get_mdb_txn tid sv) = true → Z.of_nat (length (sv_done sv)) + 1 < 2 ^ 64 → serve sv (Commit tid) = Done (sv', r) → stages_sorted sv'.
Proof using Hi Hs.
  intros Hv Hb Hsv. pose proof (iv_txn _ _ _ _ _ Hi tid) as [Hx Hid Hprep]. destruct (Hprep Hv) as (Hal & _).
  destruct (confirm_ok ts _ (sv_db sv) A _ _ _ _ (iv_rep _ _ _ _ _ Hi) (iv_shape _ _ _ _ _ Hi) (iv_meta _ _ _ _ _ Hi) ltac:(lia) Hb Hx Hal Hv)
    as (d' & x' & d3 & Hop & Hd' & _). cbn [serve] in Hsv. rewrite del_mdb_txn_running in Hsv by by apply verified_running.
  cbn [mbind result_bind] in Hsv. rewrite Hop in Hsv. cbn [mbind result_bind] in Hsv. injection Hsv as <- _.
  intros t. rewrite get_mdb_txn_delete. cbn [sv_db]. case_decide as Ht; [exact ordered_nil|].
  eapply ordered_keys; [|apply Hs]. intros e He. destruct (staged_created t e He) as (Hcr & b & Hb').
  destruct (commit_other_own ts sv S A kn Hi tid Hv t e.2 Ht Hcr) as (_ & _ & Heq).
  eapply (row_nums_same _ d' A); [apply Hi|exact Hd'|done|by rewrite Heq].
Qed.
End steps.

Lemma stages_sorted_new ts : stages_sorted (new_server ts).
Proof. intros tid. exact ordered_nil. Qed.

Lemma serve_all_sorted ts sv S A kn rqs sv' rs :
  plain_layout ts → inv ts sv S A kn → stages_sorted sv → allowed_all sv rqs = true → Z.of_nat (length (sv_done sv) + length rqs) < 2 ^ 64 →
  serve_all sv rqs = Done (sv', rs) → ∃ S' A' kn', inv ts sv' S' A' kn' ∧ stages_sorted sv'.
Proof.
  intros Hts. revert sv S A kn rs. induction rqs as [|rq rqs IH]; intros sv S A kn rs Hi Hk Hal Hb Hs; cbn in Hs; [simplify_eq; eauto|].
  cbn in Hal. apply andb_true_iff in Hal as [Hal Hrest]. cbn [length] in Hb.
  destruct (serve_keeps_inv ts sv S A kn rq Hts Hi Hal) as (sv1 & r & S1 & A1 & kn1 & Hs1 & Hi1 & Hlen); [lia|]. rewrite Hs1 in Hrest, Hs.
  cbn [mbind result_bind] in Hs. apply bind_Done in Hs as ([sv2 rs'] & Hs & Heq). simplify_eq.
  eapply (IH sv1); [exact Hi1| |done|lia|done]. destruct rq as [tid o|tid|tid|tid].
  - by eapply (op_keeps_sorted ts sv S A kn Hts Hi Hk).
  - by eapply (prepare_keeps_sorted ts sv S A kn Hi Hk).
  - eapply (commit_keeps_sorted ts sv S A kn Hi Hk); [done|lia|done].
  - cbn in Hal. apply bool_decide_eq_true in Hal. by eapply (abort_keeps_sorted ts sv S A kn Hi Hk).
Qed.

(** ** Ranges of staged rows *)

Lemma count_while_spec {B} (f : B → result bool) (g : B → bool) (l : list B) :
  (∀ e, e ∈ l → f e = Done (g e)) →
  ∃ n, count_while f l = Done n ∧ (∀ i e, (i < n)%nat → l !! i = Some e → g e = true) ∧ (∀ e, l !! n = Some e → g e = false).
Proof.
  induction l as [|e l IH]; intros Hf; cbn; [exists 0%nat; split_and!; [done|lia|done]|]. rewrite (Hf e) by by left. cbn.
  destruct IH as (n & Hn & H1 & H2); [intros; apply Hf; by right|]. destruct (g e) eqn:Hg.
  - rewrite Hn. cbn. exists (Datatypes.S n). split_and!; [done| |done]. intros [|i] e' Hi He; cbn in He; [by simplify_eq|]. apply (H1 i); [lia|done].
  - exists 0%nat. split_and!; [done|lia|]. by intros e' [= <-].
Qed.

(** A search row stands at the position [b]. *)
Definition stands_at (d : memdb) (t : nat) (s : Schema) (r : search_row) (b : list Z) (e : nat * nat) : Prop :=
  pair_before d t s r e = Done (is_lt (lex (stage_key d e) b)) ∧ pair_after d t s r e = Done (is_lt (lex b (stage_key d e))).

Section bounds.
Context (d : memdb) (t : nat) (s : Schema) (r : search_row) (b : list Z) (l : list (nat * nat)).
Context (Hr : ∀ e, e ∈ l → stands_at d t s r b e) (Ho : ordered (stage_key d <$> l)).

Lemma staged_lower_cut :
  ∃ n, staged_lower_bound d t s r l = Done n ∧ Forall (λ e, lex_lt (stage_key d e) b) (take n l) ∧ Forall (λ e, ¬ lex_lt (stage_key d e) b) (drop n l).
Proof using Hr Ho.
  destruct (count_while_spec (pair_before d t s r) (λ e, is_lt (lex (stage_key d e) b)) l) as (n & Hn & H1 & H2); [intros e He; by apply Hr|].
  exists n. split; [done|]. apply (cut_spec (stage_key d) (λ x, lex_lt x b)); [|done| |].
  - intros x y Hxy Hy. destruct (decide (lex_lt x b)) as [|Hn']; [done|]. exfalso. apply lex_not_lt in Hn'. pose proof (lex_lt_le_trans _ _ _ Hy Hn'). by apply lex_not_lt in Hxy.
  - intros i x Hi. rewrite list_lookup_fmap. intros (e & He & ->)%fmap_Some. apply is_lt_true. eauto.
  - intros x. rewrite list_lookup_fmap. intros (e & He & ->)%fmap_Some. rewrite <-is_lt_true. by rewrite (H2 e He).
Qed.

Lemma staged_upper_cut :
  ∃ n, staged_upper_bound d t s r l = Done n ∧ Forall (λ e, ¬ lex_lt b (stage_key d e)) (take n l) ∧ Forall (λ e, lex_lt b (stage_key d e)) (drop n l).
Proof using Hr Ho.
  destruct (count_while_spec (λ a, b' ← pair_after d t s r a; Done (negb b')) (λ e, negb (is_lt (lex b (stage_key d e)))) l) as (n & Hn & H1 & H2).
  { intros e He. destruct (Hr e He) as [_ ->]. done. }
  exists n. split; [done|]. destruct (cut_spec (stage_key d) (λ x, ¬ lex_lt b x)) with l n as [C1 C2]; [|done| | |].
  - intros x y Hxy Hy Hc. apply Hy. by eapply lex_lt_le_trans.
  - intros i x Hi. rewrite list_lookup_fmap. intros (e & He & ->)%fmap_Some. rewrite <-is_lt_true. specialize (H1 i e Hi He). by destruct (is_lt _).
  - intros x. rewrite list_lookup_fmap. intros (e & He & ->)%fmap_Some Hc. apply Hc. apply is_lt_true. specialize (H2 e He). by destruct (is_lt _).
  - split; [done|]. eapply Forall_impl; [exact C2|]. intros e He. by apply dec_stable.
Qed.
End bounds.

Ltac lex_head :=
  unfold stage_key, lex_lt; cbn [lex];
  repeat match goal with |- context [(?a ?= ?b)%Z] => destruct (Z.compare_spec a b) end; try lia; cbn.

Section positions.
Context (ts : layout) (d : memdb) (A : astore) (Hd : db_rep d A) (t : nat) (k : symbol_t) (s : Schema) (Ht : ts !! t = Some (k, s)).

Lemma row_min_at e : stands_at d t s ROW_MIN [2 * Z.of_nat t - 1] e.
Proof.
  unfold stands_at, pair_before, pair_after. destruct (decide (e.1 ≠ t)) as [Hne|Heq]; lex_head;
    split; f_equal; try done; apply bool_decide_eq_true || apply bool_decide_eq_false; lia.
Qed.
Lemma row_max_at e : stands_at d t s ROW_MAX [2 * Z.of_nat t + 1] e.
Proof.
  unfold stands_at, pair_before, pair_after. destruct (decide (e.1 ≠ t)) as [Hne|Heq]; lex_head;
    split; f_equal; try done; apply bool_decide_eq_true || apply bool_decide_eq_false; lia.
Qed.

Lemma search_row_at ws e : key_typed s ws → fits ts A e → stands_at d t s (KeyOnlySearchRow (blobs ws)) (2 * Z.of_nat t :: nums ws) e.
Proof using Hd Ht.
  intros Hk (a & k' & Ha & Hta). unfold stands_at, pair_before, pair_after, stage_key. destruct (decide (e.1 ≠ t)) as [Hne|Heq].
  { by rewrite !lex_tables by congruence. }
  apply dec_stable in Heq. rewrite Heq in Hta |- *. rewrite !lex_table. rewrite Ht in Hta. simplify_eq. rewrite (row_nums_rep d A e.2 a Hd Ha).
  destruct (db_row_at d A Hd _ a Ha) as (o & Hat & _ & Hr). unfold compare_key. rewrite Hat. cbn [mbind result_bind].
  rewrite (or_schema _ _ Hr), bool_decide_eq_true_2 by done. cbn [verify mbind result_bind]. rewrite (obj_key _ _ Hr). cbn [mbind result_bind].
  rewrite sorted_key_rep by done. cbn [mbind result_bind]. unfold key_blobs. rewrite compare_typed by (done || by eapply obj_key_typed). cbn [mbind result_bind].
  rewrite (lex_antisym (key_nums (ar_schema a) (ar_vals a)) (nums ws)). done.
Qed.
End positions.

(** ** Queries of a transaction *)

(** The rows a transaction has staged for a table, with their values. *)
Definition staged (d : memdb) (x : TxnOCC) (t : nat) : result (list (nat * list Value)) :=
  for_each (λ l e, if decide (e.1 = t) then o ← row_at d e.2; vs ← row_values o; Done (l ++ [(e.2, vs)]) else Done l) (inserts_ x) [].

(** A query gives the rows of [l] and [st] with a key in [C], without those removed. *)
Definition gives (q : result MergedCursor) (x : TxnOCC) (t : nat) (s : Schema) (o : order) (C : list Z → Prop) `{∀ n, Decision (C n)}
    (l st : list (nat * list Value)) : Prop :=
  ∃ m rows, q = Done m ∧ all_rows m = Done rows ∧
    interleaved (in_order o (filter (λ r, ((t, r.1) ∉ removes_ x) ∧ C (key_nums s r.2)) l).*1) (in_order o (filter (λ r, C (key_nums s r.2)) st).*1) rows.

Lemma filter_fst {B C} (P : B → Prop) (Q : B * C → Prop) `{∀ b, Decision (P b), ∀ r, Decision (Q r)} (l : list (B * C)) :
  filter P (filter Q l).*1 = (filter (λ r, P r.1 ∧ Q r) l).*1.
Proof.
  induction l as [|r l IH]; [done|]. rewrite !filter_cons. destruct (decide (Q r)) as [HQ|HQ].
  - rewrite fmap_cons, filter_cons. destruct (decide (P r.1)); [rewrite decide_True by done; rewrite fmap_cons; by f_equal|by rewrite decide_False by tauto].
  - by rewrite decide_False by tauto.
Qed.

Lemma kept_in_order t removes o l : kept t removes (in_order o l) = in_order o (kept t removes l).
Proof. destruct o; [done|done|]. unfold kept. cbn. apply filter_reverse. Qed.

Section txn.
Context (ts : layout) (d : memdb) (A : astore) (Hd : db_rep d A) (t : nat) (tb : Table) (Htb : db_tables d !! t = Some tb) (Hsorted : rtti tb = TBL_SORTED).
Context (x : TxnOCC) (Hf : Forall (fits ts A) (inserts_ x)) (Ho : ordered (stage_key d <$> inserts_ x)) (Ht : ts !! t = Some (TBL_SORTED, tb_schema tb)).
Abbreviation s := (tb_schema tb).
Abbreviation tblrows := (shown_row A <$> rows_ tb).
Abbreviation stage := ((λ e : nat * nat, (e.2, default [] (ar_vals <$> A !! e.2))) <$> filter (λ e, e.1 = t) (inserts_ x)).

Lemma staged_rep : staged d x t = Done stage.
Proof using Hd Hf.
  unfold staged. destruct (for_each_inv (λ l e, if decide (e.1 = t) then o ← row_at d e.2; vs ← row_values o; Done (l ++ [(e.2, vs)]) else Done l)
    (λ done l, l = (λ e : nat * nat, (e.2, default [] (ar_vals <$> A !! e.2))) <$> filter (λ e, e.1 = t) done) (inserts_ x) []) as (l & -> & ->); [done| |done].
  intros l1 e l2 l Heq ->. rewrite filter_app, fmap_app, filter_cons. destruct (decide (e.1 = t)); [|eexists; split; [done|]; by rewrite filter_nil, app_nil_r].
  assert (fits ts A e) as (a & k & Ha & _) by (rewrite Heq, Forall_app, Forall_cons in Hf; tauto).
  destruct (db_row_at d A Hd _ a Ha) as (o & -> & _ & Hr). cbn [mbind result_bind]. rewrite (row_values_rep o a Hr). cbn. eexists. split; [done|]. by rewrite Ha.
Qed.

(** Two cuts select the staged rows of the table with a key in [C]. *)
Lemma staged_range lo hi (P Q : nat * nat → Prop) (C : list Z → Prop) `{∀ e, Decision (P e), ∀ e, Decision (Q e), ∀ n, Decision (C n)} :
  Forall (λ e, ¬ P e) (take lo (inserts_ x)) → Forall P (drop lo (inserts_ x)) → Forall Q (take hi (inserts_ x)) → Forall (λ e, ¬ Q e) (drop hi (inserts_ x)) →
  (∀ e, P e ∧ Q e ↔ e.1 = t ∧ C (row_nums d e.2)) → (range lo hi (inserts_ x)).*2 = (filter (λ r, C (key_nums s r.2)) stage).*1.
Proof using Hd Hf Ht.
  intros K1 K2 K3 K4 Hiff. unfold range. rewrite <-(filter_between P Q) by done. rewrite (list_filter_iff _ _ _ Hiff). clear -Hd Hf Ht.
  induction (inserts_ x) as [|e l IH]; [done|]. apply Forall_cons in Hf as [He Hl]. specialize (IH Hl). rewrite !filter_cons. destruct (decide (e.1 = t)) as [Het|].
  - destruct He as (a & k & Ha & Hta). assert (row_nums d e.2 = key_nums s (ar_vals a)) as Hn.
    { rewrite (row_nums_rep d A e.2 a Hd Ha). f_equal. rewrite Het in Hta. congruence. }
    rewrite fmap_cons, filter_cons. cbn [snd]. rewrite Ha. cbn [fmap option_fmap option_map default]. destruct (decide (C (key_nums s (ar_vals a)))) as [HC|HC].
    + rewrite !decide_True by (rewrite ?Hn; done). cbn. f_equal. exact IH.
    + rewrite !decide_False by (rewrite ?Hn; tauto). exact IH.
  - rewrite decide_False by tauto. exact IH.
Qed.

Lemma merged_gives q o (C : list Z → Prop) `{∀ n, Decision (C n)} lo hi :
  q = Done (merged x t o (in_order o (filter (λ r, C (key_nums s r.2)) tblrows).*1) lo hi) →
  (range lo hi (inserts_ x)).*2 = (filter (λ r, C (key_nums s r.2)) stage).*1 → gives q x t s o C tblrows stage.
Proof.
  intros -> Hr. unfold merged. rewrite Hr. eexists. destruct (all_rows_spec t (in_order o (filter (λ r, C (key_nums s r.2)) tblrows).*1)
    (in_order o (filter (λ r, C (key_nums s r.2)) stage).*1) (removes_ x)) as (rows & Hrows & Hi). exists rows. split; [done|]. split; [done|].
  rewrite kept_in_order in Hi. unfold kept in Hi. by rewrite filter_fst in Hi.
Qed.

Lemma key_stands ws : key_typed s ws → ∀ e, e ∈ inserts_ x → stands_at d t s (KeyOnlySearchRow (blobs ws)) (2 * Z.of_nat t :: nums ws) e.
Proof using Hd Hf Ht. intros Hk e He. eapply search_row_at; [done..|]. rewrite Forall_forall in Hf. by apply Hf. Qed.

Lemma do_query_gives ws : key_typed s ws → gives (do_query d x t (blobs ws)) x t s ORD_ANY (λ n, n = nums ws) tblrows stage.
Proof using Hd Htb Hsorted Hf Ho Ht.
  intros Hk. destruct (staged_lower_cut d t s _ _ _ (key_stands ws Hk) Ho) as (lo & Hlo & L1 & L2). destruct (staged_upper_cut d t s _ _ _ (key_stands ws Hk) Ho) as (hi & Hhi & U1 & U2).
  apply (merged_gives _ ORD_ANY (λ n, n = nums ws) lo hi).
  - unfold do_query, table_at. rewrite Htb. cbn [mbind result_bind]. rewrite Hlo. cbn [mbind result_bind]. rewrite Hhi. cbn [mbind result_bind].
    rewrite (query_rep d A t tb) by done. cbn [mbind result_bind]. do 2 f_equal. symmetry. exact (scan_rep d A t tb Hd Htb (λ n, n = nums ws)).
  - pose proof (staged_range lo hi (λ e, ¬ lex_lt (stage_key d e) (2 * Z.of_nat t :: nums ws)) (λ e, ¬ lex_lt (2 * Z.of_nat t :: nums ws) (stage_key d e)) (λ n, n = nums ws)) as Hsr. apply Hsr; clear Hsr.
    + eapply Forall_impl; [exact L1|tauto].
    + done.
    + done.
    + eapply Forall_impl; [exact U2|tauto].
    + intros e. rewrite lex_apart. unfold stage_key. split; [intros [= ? ?]; split; [lia|done]|intros [-> ->]; done].
Qed.

Lemma do_query_lt_gives ws o : key_typed s ws → gives (do_query_lt d x t (blobs ws) o) x t s o (λ n, lex_lt n (nums ws)) tblrows stage.
Proof using Hd Htb Hsorted Hf Ho Ht.
  intros Hk. destruct (staged_lower_cut d t s ROW_MIN _ (inserts_ x) (λ e _, row_min_at d t s e) Ho) as (lo & Hlo & L1 & L2).
  destruct (staged_lower_cut d t s _ _ _ (key_stands ws Hk) Ho) as (hi & Hhi & U1 & U2). apply (merged_gives _ o (λ n, lex_lt n (nums ws)) lo hi).
  - unfold do_query_lt, table_at. rewrite Htb. cbn [mbind result_bind]. rewrite (query_lt_rep d A t tb) by done. cbn [mbind result_bind]. rewrite Hlo. cbn [mbind result_bind].
    rewrite Hhi. cbn [mbind result_bind]. do 3 f_equal. symmetry. exact (scan_rep d A t tb Hd Htb (λ n, lex_lt n (nums ws))).
  - pose proof (staged_range lo hi (λ e, ¬ lex_lt (stage_key d e) [2 * Z.of_nat t - 1]) (λ e, lex_lt (stage_key d e) (2 * Z.of_nat t :: nums ws)) (λ n, lex_lt n (nums ws))) as Hsr. apply Hsr; clear Hsr.
    + eapply Forall_impl; [exact L1|tauto].
    + done.
    + done.
    + done.
    + intros [t' p]. lex_head; naive_solver lia.
Qed.

Lemma do_query_gt_gives ws o : key_typed s ws → gives (do_query_gt d x t (blobs ws) o) x t s o (λ n, lex_lt (nums ws) n) tblrows stage.
Proof using Hd Htb Hsorted Hf Ho Ht.
  intros Hk. destruct (staged_upper_cut d t s _ _ _ (key_stands ws Hk) Ho) as (lo & Hlo & L1 & L2).
  destruct (staged_upper_cut d t s ROW_MAX _ (inserts_ x) (λ e _, row_max_at d t s e) Ho) as (hi & Hhi & U1 & U2). apply (merged_gives _ o (λ n, lex_lt (nums ws) n) lo hi).
  - unfold do_query_gt, table_at. rewrite Htb. cbn [mbind result_bind]. rewrite (query_gt_rep d A t tb) by done. cbn [mbind result_bind]. rewrite Hlo. cbn [mbind result_bind].
    rewrite Hhi. cbn [mbind result_bind]. do 3 f_equal. symmetry. exact (scan_rep d A t tb Hd Htb (λ n, lex_lt (nums ws) n)).
  - pose proof (staged_range lo hi (λ e, lex_lt (2 * Z.of_nat t :: nums ws) (stage_key d e)) (λ e, ¬ lex_lt [2 * Z.of_nat t + 1] (stage_key d e)) (λ n, lex_lt (nums ws) n)) as Hsr. apply Hsr; clear Hsr.
    + done.
    + done.
    + done.
    + eapply Forall_impl; [exact U2|tauto].
    + intros [t' p]. lex_head; naive_solver lia.
Qed.

Lemma do_query_in_gives low high o : key_typed s low → key_typed s high → lex_lt (nums low) (nums high) →
  gives (do_query_in d x t (blobs low) (blobs high) o) x t s o (λ n, lex_lt (nums low) n ∧ lex_lt n (nums high)) tblrows stage.
Proof using Hd Htb Hsorted Hf Ho Ht.
  intros Hl Hh Hlt. destruct (staged_upper_cut d t s _ _ _ (key_stands low Hl) Ho) as (lo & Hlo & L1 & L2).
  destruct (staged_lower_cut d t s _ _ _ (key_stands high Hh) Ho) as (hi & Hhi & U1 & U2). apply (merged_gives _ o (λ n, lex_lt (nums low) n ∧ lex_lt n (nums high)) lo hi).
  - unfold do_query_in, table_at. rewrite Htb. cbn [mbind result_bind]. rewrite (query_in_rep d A t tb) by done. cbn [mbind result_bind]. rewrite Hlo. cbn [mbind result_bind].
    rewrite Hhi. cbn [mbind result_bind]. do 3 f_equal. symmetry. exact (scan_rep d A t tb Hd Htb (λ n, lex_lt (nums low) n ∧ lex_lt n (nums high))).
  - pose proof (staged_range lo hi (λ e, lex_lt (2 * Z.of_nat t :: nums low) (stage_key d e)) (λ e, lex_lt (stage_key d e) (2 * Z.of_nat t :: nums high)) (λ n, lex_lt (nums low) n ∧ lex_lt n (nums high))) as Hsr. apply Hsr; clear Hsr.
    + done.
    + done.
    + done.
    + done.
    + intros [t' p]. lex_head; naive_solver lia.
Qed.

Lemma do_all_gives o : gives (do_all d x t o) x t s o (λ _, True) tblrows stage.
Proof using Hd Htb Hsorted Hf Ho Ht.
  destruct (staged_lower_cut d t s ROW_MIN _ (inserts_ x) (λ e _, row_min_at d t s e) Ho) as (lo & Hlo & L1 & L2).
  destruct (staged_upper_cut d t s ROW_MAX _ (inserts_ x) (λ e _, row_max_at d t s e) Ho) as (hi & Hhi & U1 & U2). apply (merged_gives _ o (λ _, True) lo hi).
  - unfold do_all, all, table_at. rewrite Htb. cbn [mbind result_bind]. rewrite bool_decide_eq_true_2 by done. cbn [orb verify mbind result_bind]. rewrite Hlo. cbn [mbind result_bind].
    rewrite Hhi. cbn [mbind result_bind]. do 3 f_equal. rewrite filter_all by done. by rewrite <-list_fmap_compose.
  - pose proof (staged_range lo hi (λ e, ¬ lex_lt (stage_key d e) [2 * Z.of_nat t - 1]) (λ e, ¬ lex_lt [2 * Z.of_nat t + 1] (stage_key d e)) (λ _, True)) as Hsr. apply Hsr; clear Hsr.
    + eapply Forall_impl; [exact L1|tauto].
    + done.
    + done.
    + eapply Forall_impl; [exact U2|tauto].
    + intros [t' p]. lex_head; naive_solver lia.
Qed.
End txn.

(** C25: a transaction sees its own changes in its queries.  In any state of the server,
    the queries of a running transaction on a sorted table, for a key, below, above and
    between keys and for all rows, return, and give exactly the rows of the table it has
    not removed and the rows it has staged, each with a key in the range and each kind
    in the order asked for. *)
Theorem txn_queries_see_staged ts rqs sv replies tid t s low high o :
  plain_layout ts → allowed_all (new_server ts) rqs = true → Z.of_nat (length rqs) < 2 ^ 64 →
  serve_all (new_server ts) rqs = Done (sv, replies) → ts !! t = Some (TBL_SORTED, s) →
  key_typed s low → key_typed s high → lex_lt (nums low) (nums high) →
  let d := sv_db sv in let x := get_mdb_txn tid sv in
  ∃ l st, contents d t = Done l ∧ staged d x t = Done st ∧
    gives (do_query d x t (blobs low)) x t s ORD_ANY (λ n, n = nums low) l st ∧
    gives (do_query_lt d x t (blobs low) o) x t s o (λ n, lex_lt n (nums low)) l st ∧
    gives (do_query_gt d x t (blobs low) o) x t s o (λ n, lex_lt (nums low) n) l st ∧
    gives (do_query_in d x t (blobs low) (blobs high) o) x t s o (λ n, lex_lt (nums low) n ∧ lex_lt n (nums high)) l st ∧
    gives (do_all d x t o) x t s o (λ _, True) l st.
Proof.
  intros Hts Hal Hb Hs Ht Hlow Hhigh Hlt d x.
  destruct (serve_all_sorted ts _ _ _ _ rqs sv replies Hts (inv_new ts Hts) (stages_sorted_new ts) Hal Hb Hs) as (S & A & kn & Hi & Hso).
  pose proof (iv_rep _ _ _ _ _ Hi) as Hd. destruct (shape_lookup (sv_db sv) ts t _ _ (iv_shape _ _ _ _ _ Hi) Ht) as (tb & Htb & Hrt & <-).
  pose proof (inserts_fit _ _ _ _ _ _ _ (tx_stage _ _ _ _ _ _ _ (iv_txn _ _ _ _ _ Hi tid))) as Hf. fold x in Hf. specialize (Hso tid). fold x d in Hso.
  eexists _, _. split; [by eapply contents_rep|]. split; [by eapply staged_rep|].
  split; [by eapply do_query_gives|]. split; [by eapply do_query_lt_gives|]. split; [by eapply do_query_gt_gives|].
  split; [by eapply do_query_in_gives|by eapply do_all_gives].
Qed.

(** Transaction 5 removes the row of key 3 and stages one of key 4. *)
Definition query_requests : list request :=
  take 6 account_requests ++ [Op 5 (RemoveRow 0 11); Op 5 (NewRow 0 20 [VI32 4; VI64 7]); Op 5 (InsertRow 0 20)].

Lemma txn_queries_see_staged_witness :
  ∃ sv replies l st, serve_all (new_server accounts) query_requests = Done (sv, replies) ∧ contents (sv_db sv) 0 = Done l ∧
    gives (do_query_gt (sv_db sv) (get_mdb_txn 5 sv) 0 (blobs [VI32 2]) ORD_ASC) (get_mdb_txn 5 sv) 0 account_schema ORD_ASC (λ n, lex_lt (nums [VI32 2]) n) l st.
Proof.
  destruct (serve_all (new_server accounts) query_requests) as [[sv replies]| |] eqn:Hs; [|vm_compute in Hs; discriminate..].
  destruct (txn_queries_see_staged accounts query_requests sv replies 5 0 account_schema [VI32 2] [VI32 9] ORD_ASC) as (l & st & Hl & _ & _ & _ & Hq & _);
    [apply accounts_plain|vm_compute; reflexivity|vm_compute; reflexivity|exact Hs|reflexivity|apply account_key; lia|apply account_key; lia|reflexivity|].
  exists sv, replies, l, st. split; [reflexivity|]. split; [exact Hl|exact Hq].
Defined.

(** The cursor merges by address.  A transaction stages a row of key 4 at a higher
    address than the row of key 5 in the table; its ascending query for keys above 3
    gives 5 before 4. *)
Theorem merged_rows_out_of_order :
  match serve_all (new_server accounts) query_requests with
  | Done (sv, _) => (m ← do_query_gt (sv_db sv) (get_mdb_txn 5 sv) 0 (blobs [VI32 3]) ORD_ASC; all_rows m) = Done [10%nat; 20%nat] ∧
      row_nums (sv_db sv) 10 = [5] ∧ row_nums (sv_db sv) 20 = [4]
  | _ => False
  end.
Proof. vm_compute. repeat split; reflexivity. Qed.
